(* ===== verification/_CoqProject ===== *)
-Q . S2P
Prelude.v
ReplayBuffer.v
GlobalReplayCap.v
TokenBucket.v
IngressGate.v
GatewayLeg.v
TableMachine.v
LinkState.v
AdapterLifecycle.v
SeqTracker.v
SeqCodec.v
LegScheduler.v
LegSchedulerLaws.v
CoreLink.v
SlidingWindow.v
AdapterSupervisor.v
CircuitBreaker.v
BudgetGuard.v
UserRateLimiter.v
OutboundQueue.v
BurstLimiter.v
CapabilityGate.v
HookRegistry.v
HookInvoke.v
HookTiming.v
DispatchLoop.v
EgressId.v
EgressRelay.v
WebAllowlist.v
PreResolution.v
InboundPipeline.v
TurnWorld.v
ToolDispatch.v
Orchestrator.v
Programs.v
RedisStore.v
WebQuota.v
WebFetch.v
Quarantine.v
QuarantineBroker.v
QuarantineChild.v
QuarantineLink.v
Substitution.v
SecretBroker.v
OutboundDlp.v
GatewayRelay.v
AsyncLock.v
WorkingPool.v
RealTurn.v
Tasks.v
SupervisorCore.v
CapabilityMonitor.v
