(* ===== verification/Prelude.v ===== *)
(** * A verification development for AlfredOS

    Paths are under [src/src/alfred/].  AlfredOS is a daemon (the core) whose clients and
    adapter children talk to it through a gateway process that survives core restarts.  The
    gateway keeps what it has accepted from clients until the core acknowledges it, replays
    the remainder on a reconnect, shares one link among many legs, meters what it lets in, and
    supervises the adapter children; the core meters users, budgets, bursts and crashing
    plugins, asks a capability gate before it hooks or loads anything, applies merged policy
    proposals, and lets tools reach the network through an allowlist and a ledger.  This
    library models that code, file by file, and proves what makes it correct.

    ** Parts

    The gateway, bottom up:
    - [ReplayBuffer] ([gateway/replay_buffer.py]): the FIFO of un-acknowledged frames, its
      bounds, its trim, and the zeroing of the bytes it drops.
    - [GlobalReplayCap] ([gateway/global_replay_cap.py]): the budget of resident bytes all
      legs share.  [ByteLedger] is the interface a leg needs; the class implements it.
    - [TokenBucket]: the interface and the rate bound of a lazily refilled bucket; instances
      in [IngressGate] and [UserRateLimiter].
    - [IngressGate] ([gateway/ingress_gate.py]): admission by size, rate and in-flight slots.
    - [GatewayLeg] ([gateway/gateway_leg.py]): one leg: its buffer, its gate, its send
      sequence and generation, against any [ByteLedger]; and the fleet of legs.
    - [TableMachine]: a machine given by a transition table; [LinkState]
      ([gateway/link_state.py]) and [AdapterLifecycle] ([gateway/adapter_lifecycle.py]) are
      its instances.
    - [SeqTracker] ([gateway/_seq_tracker.py] and the window of [plugins/comms_seq_codec.py]):
      receive-side sequence tracking; [SeqCodec] (the rest of [plugins/comms_seq_codec.py]):
      the wire header.
    - [LegScheduler] ([gateway/leg_scheduler.py], [gateway/leg_router.py]): per-leg queues and
      the round-robin drain onto the one writer; [LegSchedulerLaws]: its theorems.
    - [CoreLink] ([gateway/core_link.py], and the acknowledgement loop of
      [cli/daemon/_comms_boot.py]): the reconnect replay, the trims, the link-state feed.

    The limiters of the core:
    - [SlidingWindow] ([utils/sliding_window_counter.py]) and [CircuitBreaker]
      ([supervisor/breaker.py]): when a crashing plugin is quarantined and let back.
    - [BudgetGuard] ([budget/guard.py]): the per-user daily spend.
    - [UserRateLimiter] ([identity/rate_limit.py]): the per-user rate.
    - [BurstLimiter] ([orchestrator/burst_limiter.py]): bursts per user and persona, with
      back-pressure, LRU eviction and per-key locks.
    - [OutboundQueue] ([comms_mcp/outbound_queue.py]): the outbound FIFO with its in-flight
      cap and rate-limit pause.
    - [AdapterSupervisor] ([gateway/adapter_supervisor.py]): the life of one adapter child,
      spawn by spawn, over the machine of [AdapterLifecycle], and the fleet at boot.
    - [Tasks]: coroutines over one shared object, the loop that interleaves them, and the logic
      of what a coroutine awaits and how it ends whatever the others do.
    - [SupervisorCore] ([supervisor/core.py], [supervisor/plugin_lifecycle.py], the hookpoint
      helpers of [supervisor/breaker.py], [session_scope] of [memory/db.py]): the map of the
      breakers, its start and stop, trips, resets and crashes, as such coroutines.
    - [CapabilityMonitor] ([supervisor/capability_monitor.py]): the heartbeat that announces
      the outages of the gate's store.

    Capabilities and hooks:
    - [CapabilityGate] ([security/capability_gate/]): grants, their table, the boot seeding,
      the rebuild from the policy repository, the heartbeat that fails closed.
    - [HookRegistry] ([hooks/registry.py], [hooks/context.py]): declarations and registration,
      against the class [Gate] that [CapabilityGate] implements; [HookInvoke]
      ([hooks/invoke.py]): the dispatch of a chain; [HookTiming]: its deadlines and
      cancellations.

    The inbound path and the turn:
    - [PreResolution] ([_PreResolutionLimiter] of [comms_mcp/inbound.py]): the rate of senders
      not yet resolved.
    - [InboundPipeline] ([comms_mcp/inbound.py], [comms_mcp/forwarded_inbound_receiver.py],
      [plugins/inbound_disposition.py], [memory/inbound_idempotency.py],
      [memory/forwarded_dispatch_attempts.py]): a message from the wire to its dispatch, as
      interleaved handlers over the durable stores.
    - [TurnWorld] ([memory/replay_journal.py], [memory/turn_side_effects.py],
      [memory/working.py], [session_scope] of [memory/db.py]): the effects of a turn, as a
      monad whose awaits may fail, may fail after taking effect, and let others in; and the
      two program logics over it, of what a program logs and of what it keeps.
    - [ToolDispatch] ([orchestrator/tool_dispatch.py], [orchestrator/tool_registry.py]): the
      chokepoint of every tool call.  [Orchestrator] ([orchestrator/core.py]): the turn, from
      the user's message to the reply, with its replay.
    - [AsyncLock]: [asyncio.Lock] and the laws its users rely on; [WorkingPool]
      ([memory/working_pool.py]): the pool of working memories, one load per key, trimmed to a
      cap; [RealTurn] ([comms_mcp/real_turn_adapter.py]): the adapter that runs a user's turns
      one after the other over the memory of the pool.

    State and egress:
    - [DispatchLoop] ([state/dispatch_loop.py]): the cycle that applies merged proposals.
    - [EgressId] ([egress/egress_id.py]), [EgressRelay] ([egress/relay_client.py],
      [egress/egress_response_extract.py], [memory/egress_idempotency.py]): one tool call to
      the network, from its identity to the answer the orchestrator sees.
    - [WebAllowlist] ([plugins/web_fetch/allowlist.py]): which URLs a fetch may name.
    - [RedisStore]: the commands of Redis the code sends, as a class with laws and a store that
      has them; [WebQuota] ([plugins/web_fetch/handle_cap.py], [plugins/web_fetch/rate_limit.py]):
      the two scripts over it, the fetches a user has in flight and those of a minute and a day.
    - [WebFetch] ([plugins/web_fetch/fetch_dispatcher.py]): one fetch, gate by gate, as a program
      over the calls it makes, and the row of each of its exits.
    - [Programs]: programs over the calls they make, the rules of their logic, and the
      accounting of the rows a program writes; used by the next files and [WebFetch].

    The quarantine, where a model reads what nobody vouches for, in a process of its own:
    - [Quarantine] ([security/quarantine.py]): one extraction on the host: the hooks, the
      dispatch, the checks of the answer, the rows.
    - [QuarantineBroker] ([_run_broker_preamble] of [security/quarantine_transport.py],
      [egress/control_fd_broker.py]): the sockets handed to the child before it is asked, and
      the revocation of a child that may hold one.
    - [QuarantineChild] ([security/quarantine_child/provider_dispatch.py]): the attempts of
      the child at a provider, within one budget of time.
    - [QuarantineLink] (the rest of [security/quarantine_transport.py], the server of
      [security/quarantine_child/__main__.py], [read_frame] of
      [security/quarantine_child_io.py]): host, pipe and child as interleaved parties.

    Secrets and what leaves:
    - [Substitution]: [re.sub] and [re.search] on texts, and why a cutting into matches is the
      only one.
    - [SecretBroker] ([security/secrets.py]): the secrets file and its checks, placeholders,
      the redactor and its cache.
    - [OutboundDlp] ([security/dlp.py], [security/canary_matcher.py],
      [security/_extract_dlp_subscriber.py]): the stages of the outbound scan, and the
      subscriber that refuses an extraction whose payload is not clean.
    - [GatewayRelay] ([gateway/egress_relay.py], [egress/allowlist.py], [egress/relay_protocol.py]):
      the gateway's side of a tool request, with the second pass of that scan.

    ** How code is modelled

    An object is a [Record] of its attributes and a method a function in the state-and-error
    monad [M] below, one definition per method, named as in the code: a raise keeps the writes
    made before it.  Coroutines are steps from one [await] to the next, and a run is any list
    of steps, so that a theorem over runs covers every interleaving; where two parties share a
    mutable object ([ReplayBuffer]'s bytearrays, [BurstLimiter]'s buckets and locks) the object
    lives in a store and is referred to by location.  The [asyncio] primitives are written out
    where the code depends on their wake-up order.  Clock readings, dates and answers of
    outside parties (the user loader, the identity version, a re-scan, what happens to the
    link during a suspended write) are data of the step that reads them.  Integers are [Z]
    (Python's are unbounded); finite floats are exact rationals, so rounding is not modelled.

    ** What the theorems show

    - Refinements: an abstract specification computes the same answers as the code.  The
      replay buffer and the scheduler are bounded FIFOs; the breakers, the budget guard and
      the outbound queue are a complete history, a ledger and a marking queue; a hook chain
      is the registration history sorted by tier; the URL check is a conjunction of tiers.
    - Safety under interleaving: each send position is written once; a deferred or completed
      replay accounts for every frame; eviction spares calls in flight; pauses let out only
      what had passed the gate; a tool call fires at most once per intent unless its tool is
      idempotent, and behind every gate; a proposal is settled once; no more adapters run than the fleet allows.
    - A message from end to end: no handler acknowledges a message before it is settled, a
      message runs at most once or a bounded number of times, its side effects happen once, its replays repeat the
      calls they had decided on, and the planner sees only vetted text.
    - Turns: those of one user do not overlap and no two hold one memory, which is the pool's
      as long as nobody takes the user out of it; concurrent requests load a memory once; the
      trim takes the longest idle first; and every turn that was begun has its reply, its row,
      or an exception that is accounted for.
    - The quarantine: an extraction returns only data the schema class accepted, and each that is
      cleared and passes its early hooks is on one row, or the append of that row raised; a reply is made of the body its dispatch drained, as long as no read
      is given up; no socket outlives a failed preamble in a child that is still trusted; the
      child answers within twenty seconds, up to the slack of its timers, and its cost is that
      of the calls it heard.
    - Secrets: a live secret is not kept from its start in a redacted text, after any reloads;
      a placeholder is filled only with what the caller allows; the secrets file is read only
      behind its checks; no key shape is left by the scan, every exit of which is accounted
      for, and an extraction passes it exactly when its payload is clean.
      The gateway sends nothing that did not pass its gates and its own scan, and accounts for
      every connection.
    - The supervisor: no opening of a breaker is told twice as long as no older counts are
      loaded; a stop and a reset are each on one
      row that agrees with what was committed, or raise something accounted for; what a stop
      saves [load_all_breakers] gives to a new supervisor; the rows of an outage come in pairs and count its denials.
    - Authority: the grant table and the policy in memory agree after every rebuild, up to the
      cap of a load, unless a commit takes effect and raises; the gate
      denies after six missed heartbeats; a hook's refusal or substitution surfaces only by
      the right of its tier.
    - Bounds: resident bytes, token rates, tracked buckets, the acknowledgement window, the
      wire header, the deadline of a hook chain, the awaits of a stop, the calls a message may
      make, the fetches of a user and of a domain, the nesting of hook dispatch.
    - Progress: a quiet round serves every leg, a reconnect replays exactly the remainder,
      an undisturbed delivery is settled, a healthy cycle catches up with the repository.
    - Counterexamples, where the code does less than it says: the shared acknowledgement
      space and the order of a deferred flush ([CoreLink]), a client's death that ends the drain of every
      leg ([LegSchedulerLaws]), seeded grants a rebuild revokes and a grant that an ambiguous commit
      brings back ([CapabilityGate]), a withheld proposal that vanishes ([DispatchLoop]), a cleanup
      deadline nothing uses ([HookTiming]), a refired request whose key does not cover the first
      sending ([EgressRelay]), a forwarded empty body that stalls its leg and a missing pepper that
      stalls them all ([InboundPipeline]),
      a dispatch audited twice ([ToolDispatch]), an abandoned reply the next dispatch takes
      for its own ([QuarantineLink]), an error hook that displaces the failure and a
      refusal without a row ([Quarantine]), the tail
      of a secret that another overlaps ([SecretBroker]), keys with a separator or behind an
      escape ([OutboundDlp]), a full pool that drops the memory it has just made
      ([WorkingPool]), a canary in an answer that replays its turn ([RealTurn]), a component that first trips
      during a stop, a trip whose slow clock does not open, a reset that saves a later trip or an older count, a clean cancel recorded
      as a failure ([SupervisorCore]).

    ** Bounds and fuel

    [SeqTracker.advance] takes the size of the seen-set as fuel, which it cannot exceed as
    each round removes one; [SeqCodec.digits] takes the binary size of its argument;
    [BurstLimiter.evict_loop] takes the number of tracked buckets, each round dropping one;
    [HookInvoke.invoke] nests to one more than the number of hooked names, as the re-entry
    guard admits each name once on a stack ([reentry_guard_bounds_nesting] shows what lies
    below is never reached); [SupervisorCore.save_breakers] and [load_breakers] take the size
    of the dict, which the loop compares at each step, and [dispatch_cycles] says when its fuel
    ends before the loop; [Orchestrator.act_loop] counts down the iterations the code's
    [range] has left.  The other recursions are structural.  Hypotheses on the
    environment are predicates on the steps of a run: ordered clock readings, nobody resuming
    by hand during a pause, a quiet round or a calm flush without concurrent resets, an
    environment that answers without faults where progress is claimed, calls that keep to their
    timeouts up to a slack ([QuarantineChild]), reads of replies that are not given up
    ([QuarantineLink]), a broker none of whose values begins with a bracket ([OutboundDlp]), a digest without
    collisions ([EgressId]), and for the quotas a server whose clock does not go back,
    clocks that stay within five seconds of each other, keys that do not collide and dates of four-digit years ([WebQuota]).

    ** What is not modelled

    Sockets, framing of JSON, subprocess and prometheus plumbing, structured log lines and
    the rendering of audit row payloads.  The other subsystems (the spawning of
    the quarantined child, identity resolution, the schema of the stores, plugin transports,
    the command line) are not part of this library; where a modelled part calls one, its answer is a
    parameter or the datum of a step. *)
From Stdlib Require Export ZArith QArith Lia Lqa.
From Stdlib Require Strings.Byte.
From stdpp Require Export base tactics list sorting gmap strings.

#[global] Close Scope Q_scope.
#[global] Open Scope Z_scope.

(** ** Results and the state-and-exception monad

    [Err e] is a raised exception of a component's closed vocabulary [E]. *)
Inductive result (E A : Type) : Type :=
| Ok (a : A)
| Err (e : E).
Arguments Ok {E A} a.
Arguments Err {E A} e.

(** A method of an object whose attributes are [S]: it reads and writes them and
    either returns or raises.  The writes made before a [raise] stay, as they do
    in Python. *)
Definition M (S E A : Type) : Type := S -> result E A * S.

Definition ret {S E A} (a : A) : M S E A := fun s => (Ok a, s).
Definition raise {S E A} (e : E) : M S E A := fun s => (Err e, s).
Definition bind {S E A B} (m : M S E A) (k : A -> M S E B) : M S E B :=
  fun s => match m s with
           | (Ok a, s') => k a s'
           | (Err e, s') => (Err e, s')
           end.
Definition get {S E} : M S E S := fun s => (Ok s, s).
Definition put {S E} (s : S) : M S E unit := fun _ => (Ok tt, s).
Definition modify {S E} (f : S -> S) : M S E unit := fun s => (Ok tt, f s).

Declare Scope py_scope.
Delimit Scope py_scope with py.
Notation "x <-- m ; k" := (bind m (fun x => k))
  (at level 100, m at next level, right associativity) : py_scope.
Notation "m ;;; k" := (bind m (fun _ => k))
  (at level 100, right associativity) : py_scope.
Notation "'raise_if' b 'with' e ; k" := (if b then raise e else k)
  (at level 100, b at level 99, e at level 99, right associativity) : py_scope.
#[global] Open Scope py_scope.

#[export] Instance byte_eq_dec : EqDecision Byte.byte := Byte.byte_eq_dec.

(** ** Rationals

    A finite Python [float] is modelled as the rational number it denotes; the
    arithmetic on them is exact, that is without the rounding of IEEE 754. *)
Definition Qltb (a b : Q) : bool := negb (Qle_bool b a).

Lemma Qleb_spec (a b : Q) : BoolSpec (a <= b)%Q (b < a)%Q (Qle_bool a b).
Proof.
  destruct (Qle_bool a b) eqn:H; constructor.
  - by apply Qle_bool_iff.
  - apply Qnot_le_lt. intros Hle%Qle_bool_iff. congruence.
Qed.

Lemma Qltb_spec (a b : Q) : BoolSpec (a < b)%Q (b <= a)%Q (Qltb a b).
Proof. unfold Qltb. by destruct (Qleb_spec b a); constructor. Qed.

(** Python's [min(a, b)] and [max(a, b)]: the first argument wins a tie. *)
Definition py_min (a b : Q) : Q := if Qltb b a then b else a.
Definition py_max (a b : Q) : Q := if Qltb a b then b else a.

(** [lra] with the integer constants of the code read as rationals. *)
Ltac qlra := change (inject_Z 0) with 0%Q in *; change (inject_Z 1) with 1%Q in *; lra.

(** Case analysis on the comparisons a goal or a hypothesis branches on. *)
Ltac cmp_case :=
  match goal with
  | |- context [Z.ltb ?a ?b] => destruct (Z.ltb_spec a b)
  | |- context [Z.leb ?a ?b] => destruct (Z.leb_spec a b)
  | |- context [Z.eqb ?a ?b] => destruct (Z.eqb_spec a b)
  | |- context [Qltb ?a ?b] => destruct (Qltb_spec a b)
  | |- context [Qle_bool ?a ?b] => destruct (Qleb_spec a b)
  | H : context [Z.ltb ?a ?b] |- _ => destruct (Z.ltb_spec a b)
  | H : context [Z.leb ?a ?b] |- _ => destruct (Z.leb_spec a b)
  | H : context [Z.eqb ?a ?b] |- _ => destruct (Z.eqb_spec a b)
  | H : context [Qltb ?a ?b] |- _ => destruct (Qltb_spec a b)
  | H : context [Qle_bool ?a ?b] |- _ => destruct (Qleb_spec a b)
  end.
Ltac cmp_cases := repeat (cmp_case; cbn -[Z.add Z.sub Z.mul Z.of_nat] in *).

Lemma py_min_le_l a b : (py_min a b <= a)%Q.
Proof. unfold py_min. cmp_cases; lra. Qed.
Lemma py_min_le_r a b : (py_min a b <= b)%Q.
Proof. unfold py_min. cmp_cases; lra. Qed.
Lemma py_min_glb a b c : (c <= a -> c <= b -> c <= py_min a b)%Q.
Proof. unfold py_min. cmp_cases; auto. Qed.

Lemma Qdiv_gt_1 (n m : Z) : 0 < m -> (1 < inject_Z n / inject_Z m)%Q -> m < n.
Proof.
  intros Hm Hlt. destruct (Z.lt_ge_cases m n) as [|Hle]; [done|].
  assert (inject_Z n / inject_Z m <= 1)%Q; [|lra].
  apply Qle_shift_div_r; [by rewrite Zlt_Qlt in Hm|]. rewrite Zle_Qle in Hle. lra.
Qed.

(** ** Lists *)

(** [len(l)] as a Python integer. *)
Definition Zlen {A} (l : list A) : Z := Z.of_nat (length l).

Definition Zsum {A} (f : A -> Z) (l : list A) : Z := foldr (fun x acc => f x + acc) 0 l.

Lemma Zlen_nil {A} : Zlen (@nil A) = 0. Proof. done. Qed.
Lemma Zlen_cons {A} (x : A) l : Zlen (x :: l) = 1 + Zlen l.
Proof. unfold Zlen. simpl. lia. Qed.
Lemma Zlen_app {A} (l k : list A) : Zlen (l ++ k) = Zlen l + Zlen k.
Proof. unfold Zlen. rewrite length_app. lia. Qed.
Lemma Zlen_nonneg {A} (l : list A) : 0 <= Zlen l.
Proof. unfold Zlen. lia. Qed.
Lemma Zlen_drop {A} n (l : list A) : Zlen (drop n l) <= Zlen l.
Proof. unfold Zlen. rewrite length_drop. lia. Qed.
Lemma Zlen_fmap {A B} (f : A -> B) l : Zlen (f <$> l) = Zlen l.
Proof. unfold Zlen. by rewrite length_fmap. Qed.

Lemma Zsum_app {A} (f : A -> Z) l k : Zsum f (l ++ k) = Zsum f l + Zsum f k.
Proof. induction l; simpl; lia. Qed.
Lemma Zsum_nonneg {A} (f : A -> Z) l : (forall x, 0 <= f x) -> 0 <= Zsum f l.
Proof. intros H. induction l as [|x l IH]; simpl; [lia|]. specialize (H x). lia. Qed.
Lemma Zsum_ext {A} (f g : A -> Z) l : (forall x, x ∈ l -> f x = g x) -> Zsum f l = Zsum g l.
Proof.
  induction l as [|x l IH]; intros H; simpl; [done|].
  rewrite (H x), IH; [done| |]; set_solver.
Qed.
Lemma Zsum_fmap {A B} (f : A -> Z) (g : B -> A) l : Zsum f (g <$> l) = Zsum (fun x => f (g x)) l.
Proof. induction l as [|x l IH]; [done|]. csimpl. by rewrite IH. Qed.

Lemma Zsum_cons {A} (f : A -> Z) x l : Zsum f (x :: l) = f x + Zsum f l.
Proof. done. Qed.
Lemma Zsum_singleton {A} (f : A -> Z) x : Zsum f [x] = f x.
Proof. unfold Zsum. simpl. lia. Qed.
Lemma Zlen_singleton {A} (x : A) : Zlen [x] = 1. Proof. done. Qed.
#[global] Arguments Zsum : simpl never.
#[global] Arguments Zlen : simpl never.

(** [takeb p l] and [dropb p l] split [l] where a [for] loop that [break]s on the
    first element failing [p] stops. *)
Fixpoint takeb {A} (p : A -> bool) (l : list A) : list A :=
  match l with
  | [] => []
  | x :: l' => if p x then x :: takeb p l' else []
  end.
Fixpoint dropb {A} (p : A -> bool) (l : list A) : list A :=
  match l with
  | [] => []
  | x :: l' => if p x then dropb p l' else l
  end.

Lemma takeb_dropb {A} (p : A -> bool) l : takeb p l ++ dropb p l = l.
Proof. induction l as [|x l IH]; simpl; [done|]. destruct (p x); simpl; congruence. Qed.
Lemma drop_takeb {A} (p : A -> bool) l : drop (length (takeb p l)) l = dropb p l.
Proof. induction l as [|x l IH]; simpl; [done|]. by destruct (p x). Qed.
Lemma dropb_sublist {A} (p : A -> bool) l : dropb p l `sublist_of` l.
Proof. rewrite <- drop_takeb. apply sublist_drop. Qed.
Lemma takeb_all {A} (p : A -> bool) l x : x ∈ takeb p l -> p x = true.
Proof.
  induction l as [|y l IH]; simpl; [set_solver|].
  destruct (p y) eqn:?; [|set_solver]. intros [->|?]%elem_of_cons; auto.
Qed.
Lemma takeb_ext {A} (p q : A -> bool) l : (forall x, p x = q x) -> takeb p l = takeb q l.
Proof. intros H. induction l as [|x l IH]; simpl; [done|]. by rewrite H, IH. Qed.
Lemma dropb_ext {A} (p q : A -> bool) l : (forall x, p x = q x) -> dropb p l = dropb q l.
Proof. intros H. induction l as [|x l IH]; simpl; [done|]. by rewrite H, IH. Qed.
Lemma takeb_fmap {A B} (f : A -> B) (p : B -> bool) l :
  takeb p (f <$> l) = f <$> takeb (fun x => p (f x)) l.
Proof. induction l as [|x l IH]; csimpl; [done|]. destruct (p (f x)); csimpl; congruence. Qed.
Lemma dropb_fmap {A B} (f : A -> B) (p : B -> bool) l :
  dropb p (f <$> l) = f <$> dropb (fun x => p (f x)) l.
Proof. induction l as [|x l IH]; csimpl; [done|]. destruct (p (f x)); csimpl; congruence. Qed.

Lemma filter_all {A} (P : A -> Prop) `{!forall x, Decision (P x)} (l : list A) :
  (forall x, x ∈ l -> P x) -> filter P l = l.
Proof.
  intros HP. induction l as [|x l IH]; [done|].
  rewrite filter_cons, decide_True by set_solver. f_equal. apply IH. set_solver.
Qed.
Lemma filter_none {A} (P : A -> Prop) `{!forall x, Decision (P x)} (l : list A) :
  (forall x, x ∈ l -> ~ P x) -> filter P l = [].
Proof.
  intros HP. induction l as [|x l IH]; [done|].
  rewrite filter_cons, decide_False by set_solver. apply IH. set_solver.
Qed.

Lemma filter_ext_in {A} (P P' : A -> Prop) `{!forall x, Decision (P x), !forall x, Decision (P' x)}
    (l : list A) :
  (forall x, x ∈ l -> P x <-> P' x) -> filter P l = filter P' l.
Proof.
  induction l as [|x l IH]; intros Hl; [done|].
  rewrite !filter_cons, IH by set_solver.
  destruct (Hl x (list_elem_of_here _ _)). by repeat case_decide; try tauto.
Qed.
Lemma Zsum_filter_le {A} (f : A -> Z) (P : A -> Prop) `{!forall x, Decision (P x)} (l : list A) :
  (forall x, 0 <= f x) -> Zsum f (filter P l) <= Zsum f l.
Proof.
  intros Hf. induction l as [|x l IH]; [done|].
  rewrite filter_cons, Zsum_cons. specialize (Hf x). case_decide; rewrite ?Zsum_cons; lia.
Qed.
Lemma NoDup_fst_inj {A B} (l : list (A * B)) k a b :
  NoDup (fst <$> l) -> (k, a) ∈ l -> (k, b) ∈ l -> a = b.
Proof.
  induction l as [|[k' c] l IH]; simpl; [by intros _ ?%elem_of_nil|].
  intros [Hn Hnd]%NoDup_cons [?|Ha]%elem_of_cons [?|Hb]%elem_of_cons; simplify_eq; try done.
  - destruct Hn. apply list_elem_of_fmap. by exists (k', b).
  - destruct Hn. apply list_elem_of_fmap. by exists (k', a).
  - auto.
Qed.

Lemma list_filter_fmap {A B} (P : B -> Prop) `{!forall x, Decision (P x)} (f : A -> B) (l : list A) :
  filter P (f <$> l) = f <$> filter (fun x => P (f x)) l.
Proof.
  induction l as [|x l IH]; [done|]. rewrite fmap_cons, !filter_cons, IH. by case_decide.
Qed.

(** When [p] holds of an initial run only, the loop that stops at the first failure
    computes the filter. *)
Lemma dropb_filter {A} (R : relation A) (p : A -> bool) l :
  StronglySorted R l -> (forall x y, R x y -> p y = true -> p x = true) ->
  dropb p l = filter (fun x => p x = false) l /\ takeb p l = filter (fun x => p x = true) l.
Proof.
  intros Hs HR. induction Hs as [|x l Hs [IH1 IH2] HF]; simpl; [done|].
  rewrite !filter_cons. destruct (p x) eqn:Hp.
  - rewrite decide_False, decide_True by congruence. rewrite IH1, IH2. done.
  - rewrite decide_True, decide_False by congruence.
    rewrite Forall_forall in HF.
    assert (Hno : forall y, y ∈ l -> p y = false).
    { intros y Hy. destruct (p y) eqn:?; [|done]. rewrite (HR x y) in Hp; auto. }
    split.
    + by rewrite filter_all.
    + rewrite filter_none; [done|]. intros y Hy ?. by rewrite Hno in *.
Qed.

(** ** Sorting *)

(** [sorted], which is stable. *)
Fixpoint insert_by {A} (le : A -> A -> bool) (x : A) (l : list A) : list A := match l with [] => [x] | y :: l' => if le x y then x :: l else y :: insert_by le x l' end.
Definition sorted_by {A} (le : A -> A -> bool) (l : list A) : list A := foldr (insert_by le) [] l.
Lemma insert_by_perm {A} (le : A -> A -> bool) x l : insert_by le x l ≡ₚ x :: l.
Proof. induction l as [|y l IH]; cbn; [done|]. destruct (le x y); [done|]. rewrite IH. constructor. Qed.
Lemma sorted_by_perm {A} (le : A -> A -> bool) l : sorted_by le l ≡ₚ l.
Proof. induction l as [|x l IH]; cbn; [done|]. by rewrite insert_by_perm, IH. Qed.
Lemma insert_by_sorted {A} (le : A -> A -> bool) x l : (forall x y, le x y = false -> le y x = true) -> (forall x y z, le x y = true -> le y z = true -> le x z = true) ->
  StronglySorted (fun x y => le x y = true) l -> StronglySorted (fun x y => le x y = true) (insert_by le x l).
Proof.
  intros Ht Htr. induction 1 as [|y l Hl IH Hy]; cbn; [by repeat constructor|]. destruct (le x y) eqn:E.
  - constructor; [by constructor|]. constructor; [done|]. eapply Forall_impl; [exact Hy|]. cbn. intros z. by apply Htr.
  - constructor; [exact IH|]. rewrite insert_by_perm. constructor; [by apply Ht|exact Hy].
Qed.
Lemma sorted_by_sorted {A} (le : A -> A -> bool) l : (forall x y, le x y = false -> le y x = true) -> (forall x y z, le x y = true -> le y z = true -> le x z = true) ->
  StronglySorted (fun x y => le x y = true) (sorted_by le l).
Proof. intros Ht Htr. induction l as [|x l IH]; cbn; [constructor|]. by apply insert_by_sorted. Qed.

(** ** Maps *)

(** [sum(m.values())] *)
Definition map_sum (m : gmap string Z) : Z := map_fold (fun _ v acc => v + acc) 0 m.

Lemma map_sum_empty : map_sum ∅ = 0.
Proof. apply map_fold_empty. Qed.
Lemma map_sum_fresh m k v : m !! k = None -> map_sum (<[k:=v]> m) = v + map_sum m.
Proof. intros. unfold map_sum. apply map_fold_insert_L; [lia|done]. Qed.
Lemma map_sum_delete m k : map_sum m = default 0 (m !! k) + map_sum (delete k m).
Proof.
  destruct (m !! k) as [v|] eqn:Hk; simpl.
  - rewrite <- (insert_delete_id m k v Hk) at 1. apply map_sum_fresh, lookup_delete_eq.
  - by rewrite delete_id.
Qed.
Lemma map_sum_insert m k v : map_sum (<[k:=v]> m) = map_sum m - default 0 (m !! k) + v.
Proof.
  rewrite (map_sum_delete m k), <- insert_delete_eq.
  rewrite map_sum_fresh by apply lookup_delete_eq. lia.
Qed.
Lemma map_sum_nonneg m : (forall k v, m !! k = Some v -> 0 <= v) -> 0 <= map_sum m.
Proof.
  induction m as [|k v m Hk IH] using map_ind; intros Hv; [done|].
  rewrite map_sum_fresh by done. pose proof (Hv k v (lookup_insert_eq _ _ _)).
  assert (0 <= map_sum m); [|lia]. apply IH. intros k' v' Hk'. apply (Hv k').
  rewrite lookup_insert_ne; [done|]. by intros ->; rewrite Hk in Hk'.
Qed.
Lemma map_sum_lookup_le m k :
  (forall k v, m !! k = Some v -> 0 <= v) -> default 0 (m !! k) <= map_sum m.
Proof.
  intros Hv. rewrite (map_sum_delete m k).
  assert (0 <= map_sum (delete k m)); [|lia].
  apply map_sum_nonneg. intros k' v' [_ Hk']%lookup_delete_Some. eauto.
Qed.
Lemma map_sum_keys_le m ks :
  (forall k v, m !! k = Some v -> 0 <= v) -> NoDup ks ->
  Zsum (fun k => default 0 (m !! k)) ks <= map_sum m.
Proof.
  revert m. induction ks as [|k ks IH]; intros m Hv Hnd.
  { unfold Zsum. simpl. by apply map_sum_nonneg. }
  apply NoDup_cons in Hnd as [Hn Hnd]. rewrite Zsum_cons, (map_sum_delete m k).
  rewrite (Zsum_ext _ (fun k' => default 0 (delete k m !! k'))).
  - pose proof (IH (delete k m)). assert (forall k' v, delete k m !! k' = Some v -> 0 <= v).
    { intros k' v [_ ?]%lookup_delete_Some. eauto. }
    specialize (H H0 Hnd). lia.
  - intros k' Hk'. rewrite lookup_delete_ne; [done|]. by intros ->.
Qed.

(** ** Python dicts

    A dict whose iteration order matters: an association list in insertion order.
    Assigning to a present key keeps its place, a new key goes to the end. *)
Section dict.
Context {K V : Type} `{!EqDecision K}.

Fixpoint dict_get (k : K) (d : list (K * V)) : option V :=
  match d with
  | [] => None
  | (k', v) :: d' => if decide (k = k') then Some v else dict_get k d'
  end.
Fixpoint dict_set (k : K) (v : V) (d : list (K * V)) : list (K * V) :=
  match d with
  | [] => [(k, v)]
  | (k', v') :: d' => if decide (k = k') then (k', v) :: d' else (k', v') :: dict_set k v d'
  end.
Fixpoint dict_del (k : K) (d : list (K * V)) : list (K * V) :=
  match d with
  | [] => []
  | (k', v) :: d' => if decide (k = k') then d' else (k', v) :: dict_del k d'
  end.
Definition dict_keys (d : list (K * V)) : list K := fst <$> d.

Lemma dict_get_set k k' v d : dict_get k (dict_set k' v d) = if decide (k = k') then Some v else dict_get k d.
Proof. induction d as [|[j w] d IH]; simpl; repeat (case_decide; simpl); simplify_eq; auto. Qed.
Lemma dict_get_None k d : dict_get k d = None <-> k ∉ dict_keys d.
Proof.
  induction d as [|[j w] d IH]; csimpl; [split; [intros _ ?%elem_of_nil|]; done|].
  rewrite not_elem_of_cons. case_decide; naive_solver.
Qed.
Lemma dict_get_elem k v d : dict_get k d = Some v -> (k, v) ∈ d.
Proof.
  induction d as [|[j w] d IH]; simpl; [done|]. case_decide; intros; simplify_eq;
    [apply list_elem_of_here|apply list_elem_of_further; auto].
Qed.
Lemma dict_elem_get k v d : NoDup (dict_keys d) -> (k, v) ∈ d -> dict_get k d = Some v.
Proof.
  intros Hnd Hin. destruct (dict_get k d) as [w|] eqn:Hw.
  - f_equal. eapply NoDup_fst_inj; [exact Hnd| |exact Hin]. by apply dict_get_elem.
  - apply dict_get_None in Hw. destruct Hw. apply list_elem_of_fmap. by exists (k, v).
Qed.
Lemma dict_keys_set k v d :
  dict_keys (dict_set k v d) = if decide (k ∈ dict_keys d) then dict_keys d else dict_keys d ++ [k].
Proof.
  unfold dict_keys. induction d as [|[j w] d IH].
  { rewrite decide_False; [done|]. by intros ?%elem_of_nil. }
  cbn [dict_set]. destruct (decide (k = j)) as [<-|Hkj]; rewrite !fmap_cons; cbn [fst].
  - rewrite decide_True by apply list_elem_of_here. done.
  - rewrite IH. destruct (decide (k ∈ d.*1)) as [Hin|Hout].
    + by rewrite decide_True by by apply list_elem_of_further.
    + rewrite decide_False; [done|]. by intros [?|?]%elem_of_cons.
Qed.
Lemma dict_set_NoDup k v d : NoDup (dict_keys d) -> NoDup (dict_keys (dict_set k v d)).
Proof.
  intros Hnd. rewrite dict_keys_set. case_decide; [done|].
  apply NoDup_app. split_and!; [done| |apply NoDup_singleton].
  intros j Hj ->%list_elem_of_singleton. done.
Qed.
Lemma dict_keys_del k d : dict_keys (dict_del k d) `sublist_of` dict_keys d.
Proof.
  induction d as [|[j w] d IH]; csimpl; [done|]. case_decide; [by apply sublist_cons|]. by constructor.
Qed.
Lemma dict_del_NoDup k d : NoDup (dict_keys d) -> NoDup (dict_keys (dict_del k d)).
Proof. intros Hnd. eapply sublist_NoDup; [exact Hnd|apply dict_keys_del]. Qed.
Lemma dict_get_del k k' d :
  NoDup (dict_keys d) -> dict_get k (dict_del k' d) = if decide (k = k') then None else dict_get k d.
Proof.
  unfold dict_keys. induction d as [|[j w] d IH]; [by case_decide|].
  rewrite fmap_cons. intros [Hn Hnd]%NoDup_cons. specialize (IH Hnd). simpl.
  destruct (decide (k' = j)) as [->|Hj]; simpl.
  - destruct (decide (k = j)) as [->|Hk]; [by apply dict_get_None|done].
  - rewrite IH. destruct (decide (k = j)) as [->|Hk]; [|done]. by rewrite decide_False by congruence.
Qed.
Lemma dict_del_keys k j d : NoDup (dict_keys d) -> j ∈ dict_keys (dict_del k d) <-> j ∈ dict_keys d /\ j <> k.
Proof.
  intros Hnd. pose proof (dict_get_None j (dict_del k d)) as H1. pose proof (dict_get_None j d) as H2.
  rewrite dict_get_del in H1 by done. destruct (decide (j ∈ dict_keys (dict_del k d))), (decide (j ∈ dict_keys d));
    case_decide; naive_solver.
Qed.
Lemma dict_get_app k d d' : dict_get k (d ++ d') = match dict_get k d with Some v => Some v | None => dict_get k d' end.
Proof. induction d as [|[j w] d IH]; simpl; [done|]. by case_decide. Qed.
(** [OrderedDict.move_to_end] of a present or new key. *)
Definition move_to_end (k : K) (v : V) (d : list (K * V)) : list (K * V) := dict_del k d ++ [(k, v)].
Lemma dict_get_move k j v d : NoDup (dict_keys d) ->
  dict_get j (move_to_end k v d) = if decide (j = k) then Some v else dict_get j d.
Proof.
  intros Hnd. unfold move_to_end. rewrite dict_get_app, dict_get_del by done. simpl.
  destruct (decide (j = k)); [done|]. by destruct (dict_get j d).
Qed.
Lemma move_to_end_NoDup k v d : NoDup (dict_keys d) -> NoDup (dict_keys (move_to_end k v d)).
Proof.
  intros Hnd. unfold move_to_end, dict_keys. rewrite fmap_app. apply NoDup_app. split_and!; [by apply dict_del_NoDup| |apply NoDup_singleton].
  intros j Hj ->%list_elem_of_singleton. apply dict_del_keys in Hj; [|done]. naive_solver.
Qed.
End dict.

(** [map_sum] sees only the values, an absent key counting as 0. *)
Lemma map_sum_zero m : (forall k, default 0 (m !! k) = 0) -> map_sum m = 0.
Proof.
  induction m as [|k v m Hk IH] using map_ind; intros H; [done|].
  rewrite map_sum_fresh by done. pose proof (H k) as Hv. rewrite lookup_insert_eq in Hv. simpl in Hv.
  rewrite IH; [lia|]. intros j. specialize (H j). destruct (decide (j = k)) as [->|Hne]; [by rewrite Hk|].
  by rewrite lookup_insert_ne in H.
Qed.
Lemma map_sum_ext m m' : (forall k, default 0 (m !! k) = default 0 (m' !! k)) -> map_sum m = map_sum m'.
Proof.
  revert m'. induction m as [|k v m Hk IH] using map_ind; intros m' H.
  - rewrite map_sum_empty, map_sum_zero; [done|]. intros k. rewrite <- H. by rewrite lookup_empty.
  - rewrite map_sum_fresh by done. rewrite (map_sum_delete m' k), <- H, lookup_insert_eq. simpl.
    rewrite (IH (delete k m')); [done|]. intros j. specialize (H j). destruct (decide (j = k)) as [->|Hne].
    + by rewrite Hk, lookup_delete_eq.
    + by rewrite lookup_insert_ne in H; [rewrite lookup_delete_ne|].
Qed.

(** ** Automation

    [zlen] computes the lengths and sums of list literals, concatenations and images. *)
Create Rewrite HintDb zlen.
#[export] Hint Rewrite @Zlen_nil @Zlen_cons @Zlen_app @Zlen_singleton @Zlen_fmap @Zsum_cons @Zsum_app @Zsum_singleton : zlen.
Ltac zlen := autorewrite with zlen in *.
(** [py]: well-formedness of dicts, and the order facts of [min]. *)
Create HintDb py.
#[export] Hint Resolve Zlen_nonneg py_min_le_l py_min_le_r py_min_glb
  dict_set_NoDup dict_del_NoDup move_to_end_NoDup : py.
