(* ===== verification/ReplayBuffer.v ===== *)
(** * [gateway/replay_buffer.py]: the un-acked inbound retention buffer

    [ReplayBuffer] is the object's attributes.  The retained bodies are mutable
    [bytearray]s, zeroed in place when a frame leaves, so the model keeps the
    bytearrays the buffer has allocated in a small heap [rb_heap], and a retained
    entry holds the location of its body.  A clock reading and the TTL are finite
    floats ([Q]); [_last_now] starts at [-inf], which is [None]. *)
From S2P Require Import Prelude.
From Stdlib Require Import Strings.Byte.

Definition _HARD_CAP_MULTIPLIER : Z := 2.
Definition _DEFAULT_MAX_FRAMES : Z := 4096.
Definition _DEFAULT_MAX_BYTES : Z := 8 * 1024 * 1024.
Definition _DEFAULT_TTL_SECONDS : Q := 300.

(** The [ReplayBufferError] messages, one constructor per [raise]. *)
Inductive ReplayBufferError : Set :=
| CapsNotPositive
| SeqNegative
| SeqNotIncreasing
| NowNotMonotonic
| HardCeiling
| GlobalCapFull.   (* raised by the leg, [gateway_leg.py] *)

Record ReplayFrame := { rf_seq : Z; rf_payload : list byte }.

Record _Retained := { rt_seq : Z; rt_body : nat; rt_enqueued_at : Q }.

Record ReplayBuffer := {
  rb_max_frames : Z;
  rb_max_bytes : Z;
  rb_ttl_seconds : Q;
  rb_hard_max_frames : Z;
  rb_hard_max_bytes : Z;
  rb_retained : list _Retained;
  rb_depth_bytes : Z;
  rb_last_seq : Z;
  rb_last_now : option Q;
  rb_breaker_tripped : bool;
  rb_heap : gmap nat (list byte);
  rb_next_loc : nat
}.

(** [__init__]: the caps are checked, then every attribute is set. *)
Definition fresh (max_frames max_bytes : Z) (ttl_seconds : Q) : ReplayBuffer :=
  {| rb_max_frames := max_frames;
     rb_max_bytes := max_bytes;
     rb_ttl_seconds := ttl_seconds;
     rb_hard_max_frames := max_frames * _HARD_CAP_MULTIPLIER;
     rb_hard_max_bytes := max_bytes * _HARD_CAP_MULTIPLIER;
     rb_retained := [];
     rb_depth_bytes := 0;
     rb_last_seq := -1;
     rb_last_now := None;
     rb_breaker_tripped := false;
     rb_heap := ∅;
     rb_next_loc := 0 |}.

Definition init (max_frames max_bytes : Z) (ttl_seconds : Q) : result ReplayBufferError ReplayBuffer :=
  if (max_frames <=? 0) || (max_bytes <=? 0) || Qle_bool ttl_seconds 0
  then Err CapsNotPositive
  else Ok (fresh max_frames max_bytes ttl_seconds).

(** The attribute updates the methods perform. *)
Definition set_retained (b : ReplayBuffer) l d h : ReplayBuffer :=
  {| rb_max_frames := rb_max_frames b; rb_max_bytes := rb_max_bytes b;
     rb_ttl_seconds := rb_ttl_seconds b; rb_hard_max_frames := rb_hard_max_frames b;
     rb_hard_max_bytes := rb_hard_max_bytes b; rb_retained := l; rb_depth_bytes := d;
     rb_last_seq := rb_last_seq b; rb_last_now := rb_last_now b;
     rb_breaker_tripped := rb_breaker_tripped b; rb_heap := h; rb_next_loc := rb_next_loc b |}.
Definition set_floor (b : ReplayBuffer) (seq : Z) (now : option Q) : ReplayBuffer :=
  {| rb_max_frames := rb_max_frames b; rb_max_bytes := rb_max_bytes b;
     rb_ttl_seconds := rb_ttl_seconds b; rb_hard_max_frames := rb_hard_max_frames b;
     rb_hard_max_bytes := rb_hard_max_bytes b; rb_retained := rb_retained b;
     rb_depth_bytes := rb_depth_bytes b; rb_last_seq := seq; rb_last_now := now;
     rb_breaker_tripped := rb_breaker_tripped b; rb_heap := rb_heap b;
     rb_next_loc := rb_next_loc b |}.
Definition set_breaker (b : ReplayBuffer) (t : bool) : ReplayBuffer :=
  {| rb_max_frames := rb_max_frames b; rb_max_bytes := rb_max_bytes b;
     rb_ttl_seconds := rb_ttl_seconds b; rb_hard_max_frames := rb_hard_max_frames b;
     rb_hard_max_bytes := rb_hard_max_bytes b; rb_retained := rb_retained b;
     rb_depth_bytes := rb_depth_bytes b; rb_last_seq := rb_last_seq b;
     rb_last_now := rb_last_now b; rb_breaker_tripped := t; rb_heap := rb_heap b;
     rb_next_loc := rb_next_loc b |}.
Definition set_next_loc (b : ReplayBuffer) (n : nat) : ReplayBuffer :=
  {| rb_max_frames := rb_max_frames b; rb_max_bytes := rb_max_bytes b;
     rb_ttl_seconds := rb_ttl_seconds b; rb_hard_max_frames := rb_hard_max_frames b;
     rb_hard_max_bytes := rb_hard_max_bytes b; rb_retained := rb_retained b;
     rb_depth_bytes := rb_depth_bytes b; rb_last_seq := rb_last_seq b;
     rb_last_now := rb_last_now b; rb_breaker_tripped := rb_breaker_tripped b;
     rb_heap := rb_heap b; rb_next_loc := n |}.

(** ** Properties of the object *)
Definition max_bytes (b : ReplayBuffer) : Z := rb_max_bytes b.
Definition depth_frames (b : ReplayBuffer) : Z := Zlen (rb_retained b).
Definition depth_bytes (b : ReplayBuffer) : Z := rb_depth_bytes b.
Definition breaker_tripped (b : ReplayBuffer) : bool := rb_breaker_tripped b.
Definition cap_ratio (b : ReplayBuffer) : Q :=
  py_max (inject_Z (depth_frames b) / inject_Z (rb_max_frames b))
         (inject_Z (rb_depth_bytes b) / inject_Z (rb_max_bytes b)).

(** ** Methods *)

(** [body[:] = b"\x00" * len(body)] *)
Definition zero_body (body : list byte) : list byte := replicate (length body) x00.
Definition _zero (loc : nat) (heap : gmap nat (list byte)) : gmap nat (list byte) :=
  alter zero_body loc heap.

Definition body_at (heap : gmap nat (list byte)) (loc : nat) : list byte := default [] (heap !! loc).

(** [now < self._last_now], with [-inf] below every reading. *)
Definition before (now : Q) (last : option Q) : bool :=
  match last with None => false | Some l => Qltb now l end.

Definition append (seq : Z) (payload : list byte) (now : Q) : M ReplayBuffer ReplayBufferError unit :=
  b <-- get;
  raise_if seq <? 0 with SeqNegative;
  raise_if seq <=? rb_last_seq b with SeqNotIncreasing;
  raise_if before now (rb_last_now b) with NowNotMonotonic;
  raise_if (rb_hard_max_frames b <? Zlen (rb_retained b) + 1)
           || (rb_hard_max_bytes b <? rb_depth_bytes b + Zlen payload) with HardCeiling;
  let loc := rb_next_loc b in
  let entry := {| rt_seq := seq; rt_body := loc; rt_enqueued_at := now |} in
  let b := set_next_loc
             (set_retained b (rb_retained b ++ [entry]) (rb_depth_bytes b + Zlen payload)
                           (<[loc := payload]> (rb_heap b)))
             (S loc) in
  let b := set_floor b seq (Some now) in
  put (if (rb_max_frames b <? Zlen (rb_retained b)) || (rb_max_bytes b <? rb_depth_bytes b)
       then set_breaker b true else b).

(** The [for entry in self._retained] loop of [trim_to_ack] and [evict_expired]: it
    [break]s on the first entry that [stays], else takes the body out of the byte
    count, zeroes it and records the entry's seq. *)
Fixpoint reclaim_loop (stays : _Retained -> bool) (entries : list _Retained)
    (depth : Z) (heap : gmap nat (list byte)) (seqs : list Z) : Z * gmap nat (list byte) * list Z :=
  match entries with
  | [] => (depth, heap, seqs)
  | entry :: rest =>
      if stays entry then (depth, heap, seqs)
      else reclaim_loop stays rest (depth - Zlen (body_at heap (rt_body entry)))
                        (_zero (rt_body entry) heap) (seqs ++ [rt_seq entry])
  end.

Definition trim_to_ack (cumulative_ack : Z) : M ReplayBuffer ReplayBufferError unit :=
  b <-- get;
  let '(depth, heap, seqs) :=
    reclaim_loop (fun entry => cumulative_ack <? rt_seq entry)
                 (rb_retained b) (rb_depth_bytes b) (rb_heap b) [] in
  put (set_retained b (drop (length seqs) (rb_retained b)) depth heap).

Definition evict_expired (now : Q) : M ReplayBuffer ReplayBufferError (list Z) :=
  b <-- get;
  raise_if before now (rb_last_now b) with NowNotMonotonic;
  let b := set_floor b (rb_last_seq b) (Some now) in
  let '(depth, heap, evicted) :=
    reclaim_loop (fun entry => Qle_bool (now - rt_enqueued_at entry) (rb_ttl_seconds b))
                 (rb_retained b) (rb_depth_bytes b) (rb_heap b) [] in
  put (set_retained b (drop (length evicted) (rb_retained b)) depth heap);;;
  ret evicted.

Definition unacked_frames (b : ReplayBuffer) : list ReplayFrame :=
  (fun entry => {| rf_seq := rt_seq entry; rf_payload := body_at (rb_heap b) (rt_body entry) |})
    <$> rb_retained b.

Definition _purge (b : ReplayBuffer) : ReplayBuffer :=
  let heap := foldl (fun h entry => _zero (rt_body entry) h) (rb_heap b) (rb_retained b) in
  set_breaker (set_retained b [] 0 heap) false.

Definition discard : M ReplayBuffer ReplayBufferError unit := modify _purge.

Definition reset_for_new_epoch : M ReplayBuffer ReplayBufferError unit :=
  modify _purge;;;
  modify (fun b => set_floor b (-1) None).

(** One call of the public surface, as the leg drives it.  The value returned is
    [evict_expired]'s tuple of seqs, empty for the methods that return [None]. *)
Inductive op :=
| Append (seq : Z) (payload : list byte) (now : Q)
| TrimToAck (cumulative_ack : Z)
| EvictExpired (now : Q)
| Discard
| ResetForNewEpoch.

Definition step (o : op) : M ReplayBuffer ReplayBufferError (list Z) :=
  match o with
  | Append seq payload now => append seq payload now;;; ret []
  | TrimToAck ack => trim_to_ack ack;;; ret []
  | EvictExpired now => evict_expired now
  | Discard => discard;;; ret []
  | ResetForNewEpoch => reset_for_new_epoch;;; ret []
  end.

Definition run (ops : list op) (b : ReplayBuffer) : ReplayBuffer :=
  foldl (fun b o => (step o b).2) b ops.

(** ** The abstract buffer: a FIFO of (seq, payload, enqueue time) *)
Definition frame : Type := Z * list byte * Q.
Definition frame_seq (f : frame) : Z := f.1.1.
Definition frame_payload (f : frame) : list byte := f.1.2.
Definition frame_at (f : frame) : Q := f.2.

Record Fifo := {
  ff_frames : list frame;
  ff_last_seq : Z;
  ff_last_now : option Q;
  ff_tripped : bool
}.

Definition fifo_bytes (l : list frame) : Z := Zsum (fun f => Zlen (frame_payload f)) l.

(** The calls [o] that the contract refuses, and with which error. *)
Definition fifo_refuses (max_frames max_bytes : Z) (s : Fifo) (o : op) : option ReplayBufferError :=
  match o with
  | Append seq payload now =>
      if seq <? 0 then Some SeqNegative
      else if seq <=? ff_last_seq s then Some SeqNotIncreasing
      else if before now (ff_last_now s) then Some NowNotMonotonic
      else if (2 * max_frames <? Zlen (ff_frames s) + 1)
              || (2 * max_bytes <? fifo_bytes (ff_frames s) + Zlen payload) then Some HardCeiling
      else None
  | EvictExpired now => if before now (ff_last_now s) then Some NowNotMonotonic else None
  | _ => None
  end.

(** What an accepted call returns and leaves. *)
Definition fifo_effect (max_frames max_bytes : Z) (ttl : Q) (s : Fifo) (o : op) : list Z * Fifo :=
  match o with
  | Append seq payload now =>
      let l := ff_frames s ++ [(seq, payload, now)] in
      ([], {| ff_frames := l; ff_last_seq := seq; ff_last_now := Some now;
              ff_tripped := ff_tripped s || (max_frames <? Zlen l) || (max_bytes <? fifo_bytes l) |})
  | TrimToAck ack =>
      ([], {| ff_frames := filter (fun f => ack < frame_seq f) (ff_frames s);
              ff_last_seq := ff_last_seq s; ff_last_now := ff_last_now s;
              ff_tripped := ff_tripped s |})
  | EvictExpired now =>
      let expired f := negb (Qle_bool (now - frame_at f) ttl) in
      (frame_seq <$> filter (fun f => expired f = true) (ff_frames s),
       {| ff_frames := filter (fun f => expired f = false) (ff_frames s);
          ff_last_seq := ff_last_seq s; ff_last_now := Some now; ff_tripped := ff_tripped s |})
  | Discard =>
      ([], {| ff_frames := []; ff_last_seq := ff_last_seq s; ff_last_now := ff_last_now s;
              ff_tripped := false |})
  | ResetForNewEpoch =>
      ([], {| ff_frames := []; ff_last_seq := -1; ff_last_now := None; ff_tripped := false |})
  end.

Definition fifo_step (max_frames max_bytes : Z) (ttl : Q) (o : op) : M Fifo ReplayBufferError (list Z) :=
  fun s => match fifo_refuses max_frames max_bytes s o with
           | Some e => (Err e, s)
           | None => let '(out, s') := fifo_effect max_frames max_bytes ttl s o in (Ok out, s')
           end.

(** The abstraction function. *)
Definition view (heap : gmap nat (list byte)) (e : _Retained) : frame :=
  (rt_seq e, body_at heap (rt_body e), rt_enqueued_at e).
Definition abs (b : ReplayBuffer) : Fifo :=
  {| ff_frames := view (rb_heap b) <$> rb_retained b; ff_last_seq := rb_last_seq b;
     ff_last_now := rb_last_now b; ff_tripped := rb_breaker_tripped b |}.

(** ** The invariant *)
Definition after (e1 e2 : _Retained) : Prop :=
  rt_seq e1 < rt_seq e2 /\ (rt_enqueued_at e1 <= rt_enqueued_at e2)%Q.
Definition seen (last : option Q) (at_ : Q) : Prop :=
  match last with None => False | Some l => (at_ <= l)%Q end.

Record wf (b : ReplayBuffer) : Prop := {
  wf_caps : 0 < rb_max_frames b /\ 0 < rb_max_bytes b;
  wf_hard_caps : rb_hard_max_frames b = 2 * rb_max_frames b /\
                 rb_hard_max_bytes b = 2 * rb_max_bytes b;
  wf_locs : NoDup (rt_body <$> rb_retained b);
  wf_fresh : forall i body, rb_heap b !! i = Some body -> (i < rb_next_loc b)%nat;
  wf_alloc : forall e, e ∈ rb_retained b -> (rt_body e < rb_next_loc b)%nat;
  wf_erased : forall i body, rb_heap b !! i = Some body ->
              i ∉ rt_body <$> rb_retained b -> zero_body body = body;
  wf_depth : rb_depth_bytes b =
             Zsum (fun e => Zlen (body_at (rb_heap b) (rt_body e))) (rb_retained b);
  wf_order : StronglySorted after (rb_retained b);
  wf_floor : forall e, e ∈ rb_retained b ->
             0 <= rt_seq e <= rb_last_seq b /\ seen (rb_last_now b) (rt_enqueued_at e);
  wf_hard : Zlen (rb_retained b) <= rb_hard_max_frames b /\
            rb_depth_bytes b <= rb_hard_max_bytes b;
  wf_breaker : rb_max_frames b < Zlen (rb_retained b) \/ rb_max_bytes b < rb_depth_bytes b ->
               rb_breaker_tripped b = true
}.

(** ** Lemmas: the heap *)
Definition zero_all (locs : list nat) (heap : gmap nat (list byte)) : gmap nat (list byte) :=
  foldl (fun h l => _zero l h) heap locs.

Lemma zero_body_length body : length (zero_body body) = length body.
Proof. apply length_replicate. Qed.
Lemma zero_body_idem body : zero_body (zero_body body) = zero_body body.
Proof. unfold zero_body. by rewrite length_replicate. Qed.
Lemma body_at_zero_length l heap i :
  length (body_at (_zero l heap) i) = length (body_at heap i).
Proof.
  unfold body_at, _zero. rewrite lookup_alter. case_decide; [|done]. subst.
  destruct (heap !! i); simpl; [|done]. apply zero_body_length.
Qed.
Lemma zero_all_lookup locs heap i :
  zero_all locs heap !! i = if decide (i ∈ locs) then zero_body <$> heap !! i else heap !! i.
Proof.
  revert heap. induction locs as [|l locs IH]; intros heap.
  { case_decide; [set_solver|done]. }
  change (zero_all (l :: locs) heap) with (zero_all locs (_zero l heap)).
  rewrite IH. unfold _zero. rewrite lookup_alter.
  destruct (decide (l = i)) as [->|Hl].
  - rewrite (decide_True (P := i ∈ i :: locs)) by set_solver.
    case_decide; [|done]. destruct (heap !! i); simpl; [|done]. by rewrite zero_body_idem.
  - apply decide_ext. rewrite elem_of_cons. split; [by right|by intros [->|]].
Qed.
Lemma body_at_zero_all_length locs heap i :
  Zlen (body_at (zero_all locs heap) i) = Zlen (body_at heap i).
Proof.
  unfold body_at, Zlen. rewrite zero_all_lookup. case_decide; [|done].
  destruct (heap !! i); simpl; [|done]. by rewrite zero_body_length.
Qed.
Lemma Zsum_zero_all locs heap (l : list _Retained) :
  Zsum (fun e => Zlen (body_at (zero_all locs heap) (rt_body e))) l =
  Zsum (fun e => Zlen (body_at heap (rt_body e))) l.
Proof. apply Zsum_ext. intros e _. apply body_at_zero_all_length. Qed.
Lemma body_at_zero_all_other locs heap i :
  i ∉ locs -> body_at (zero_all locs heap) i = body_at heap i.
Proof. intros. unfold body_at. rewrite zero_all_lookup. by rewrite decide_False. Qed.

(** The loop, in closed form. *)
Lemma reclaim_loop_spec stays l d heap acc :
  reclaim_loop stays l d heap acc =
    let gone := takeb (fun e => negb (stays e)) l in
    (d - Zsum (fun e => Zlen (body_at heap (rt_body e))) gone,
     zero_all (rt_body <$> gone) heap, acc ++ (rt_seq <$> gone)).
Proof.
  revert d heap acc. induction l as [|e l IH]; intros d heap acc; simpl.
  { rewrite app_nil_r. repeat f_equal. unfold Zsum. simpl. lia. }
  destruct (stays e); simpl.
  { rewrite app_nil_r. repeat f_equal. unfold Zsum. simpl. lia. }
  rewrite IH. simpl. rewrite <- app_assoc, Zsum_cons.
  rewrite (Zsum_ext _ (fun e => Zlen (body_at heap (rt_body e)))).
  { f_equal; f_equal; lia. }
  intros x _. unfold Zlen. by rewrite body_at_zero_length.
Qed.

(** ** Lemmas: the invariant *)

(** Removing a leading run of entries and zeroing their bodies. *)
Definition drop_run (b : ReplayBuffer) (gone rest : list _Retained) : ReplayBuffer :=
  set_retained b rest
    (rb_depth_bytes b - Zsum (fun e => Zlen (body_at (rb_heap b) (rt_body e))) gone)
    (zero_all (rt_body <$> gone) (rb_heap b)).

Lemma view_rest b gone rest :
  wf b -> rb_retained b = gone ++ rest ->
  view (zero_all (rt_body <$> gone) (rb_heap b)) <$> rest = view (rb_heap b) <$> rest.
Proof.
  intros Hwf Hl. apply list_fmap_ext. intros i e He%list_elem_of_lookup_2.
  unfold view. rewrite body_at_zero_all_other; [done|]. intros Hin.
  pose proof (wf_locs b Hwf) as Hnd. rewrite Hl, fmap_app, NoDup_app in Hnd.
  destruct Hnd as (_ & Hnd & _). apply (Hnd _ Hin). by apply list_elem_of_fmap_2.
Qed.

Lemma wf_drop_run b gone rest :
  wf b -> rb_retained b = gone ++ rest -> wf (drop_run b gone rest).
Proof.
  intros Hwf Hl. pose proof Hwf as []. rewrite Hl in *.
  assert (Hrest : forall e, e ∈ rest -> e ∈ gone ++ rest)
    by (intros; apply elem_of_app; auto).
  pose proof (Zlen_app gone rest). pose proof (Zlen_nonneg gone).
  assert (0 <= Zsum (fun e => Zlen (body_at (rb_heap b) (rt_body e))) gone)
    by (apply Zsum_nonneg; intros; apply Zlen_nonneg).
  split; cbn -[Z.mul]; auto.
  - rewrite fmap_app in *. by apply NoDup_app in wf_locs0 as (_ & _ & ?).
  - intros i body. rewrite zero_all_lookup. case_decide; [|eauto].
    destruct (rb_heap b !! i) eqn:?; [|done]. eauto.
  - intros i body. rewrite zero_all_lookup. case_decide.
    + intros Hz _. destruct (rb_heap b !! i); simplify_eq/=. apply zero_body_idem.
    + intros ? ?. eapply wf_erased0; [done|]. rewrite fmap_app, elem_of_app. tauto.
  - rewrite wf_depth0, Zsum_app.
    rewrite Zsum_zero_all. lia.
  - by apply StronglySorted_app in wf_order0 as (_ & _ & ?).
  - lia.
  - intros. apply wf_breaker0. lia.
Qed.

(** The loop over the whole buffer, as [drop_run]. *)
Lemma reclaim_buffer b stays :
  let gone := takeb (fun e => negb (stays e)) (rb_retained b) in
  let rest := dropb (fun e => negb (stays e)) (rb_retained b) in
  reclaim_loop stays (rb_retained b) (rb_depth_bytes b) (rb_heap b) [] =
    (rb_depth_bytes (drop_run b gone rest), rb_heap (drop_run b gone rest), rt_seq <$> gone) /\
  drop (length (rt_seq <$> gone)) (rb_retained b) = rest /\
  rb_retained b = gone ++ rest.
Proof.
  simpl. split_and!.
  - rewrite reclaim_loop_spec. done.
  - by rewrite length_fmap, drop_takeb.
  - by rewrite takeb_dropb.
Qed.

Lemma fifo_bytes_abs b : wf b -> fifo_bytes (ff_frames (abs b)) = rb_depth_bytes b.
Proof. intros Hwf. unfold fifo_bytes. simpl. by rewrite Zsum_fmap, (wf_depth b Hwf). Qed.

Lemma wf_init mf mb ttl b : init mf mb ttl = Ok b -> wf b.
Proof.
  unfold init. destruct (_ || _) eqn:Hc; intros ?; simplify_eq.
  apply orb_false_iff in Hc as [[? ?]%orb_false_iff _]. rewrite Z.leb_gt in *.
  split; cbn -[Z.mul]; unfold _HARD_CAP_MULTIPLIER, Zlen; simpl; try set_solver; try lia; constructor.
Qed.

Lemma wf_set_floor b now :
  wf b -> before now (rb_last_now b) = false -> wf (set_floor b (rb_last_seq b) (Some now)).
Proof.
  intros [] Hnow. split; cbn -[Z.mul]; auto.
  intros e He. destruct (wf_floor0 e He) as [? Hs]. split; [done|].
  unfold before, seen in *. destruct (rb_last_now b); [|done]. cmp_cases; [done|lra].
Qed.

(** The state an accepted [append] leaves. *)
Definition appended (b : ReplayBuffer) (seq : Z) (payload : list byte) (now : Q) : ReplayBuffer :=
  {| rb_max_frames := rb_max_frames b; rb_max_bytes := rb_max_bytes b;
     rb_ttl_seconds := rb_ttl_seconds b; rb_hard_max_frames := rb_hard_max_frames b;
     rb_hard_max_bytes := rb_hard_max_bytes b;
     rb_retained := rb_retained b ++
       [{| rt_seq := seq; rt_body := rb_next_loc b; rt_enqueued_at := now |}];
     rb_depth_bytes := rb_depth_bytes b + Zlen payload;
     rb_last_seq := seq; rb_last_now := Some now;
     rb_breaker_tripped := rb_breaker_tripped b ||
       (rb_max_frames b <? Zlen (rb_retained b) + 1) ||
       (rb_max_bytes b <? rb_depth_bytes b + Zlen payload);
     rb_heap := <[rb_next_loc b := payload]> (rb_heap b);
     rb_next_loc := S (rb_next_loc b) |}.


Lemma append_eq b seq payload now :
  wf b ->
  append seq payload now b =
    match fifo_refuses (rb_max_frames b) (rb_max_bytes b) (abs b) (Append seq payload now) with
    | Some e => (Err e, b)
    | None => (Ok tt, appended b seq payload now)
    end.
Proof.
  intros Hwf. pose proof (fifo_bytes_abs b Hwf) as Hd. destruct (wf_hard_caps b Hwf) as [Hf Hb].
  unfold append, bind, get, put, raise. cbn -[Z.mul appended]. simpl in Hd.
  rewrite Hd, Zlen_fmap, Hf, Hb.
  destruct (seq <? 0); [done|]. destruct (seq <=? rb_last_seq b); [done|].
  destruct (before now (rb_last_now b)); [done|]. destruct (_ || _); [done|].
  rewrite Zlen_app, Zlen_cons, Zlen_nil, Z.add_0_r.
  unfold appended, set_breaker, set_floor, set_next_loc, set_retained. cbn -[Z.mul].
  destruct (rb_max_frames b <? _), (rb_max_bytes b <? _), (rb_breaker_tripped b); done.
Qed.

Lemma abs_appended b seq payload now :
  wf b ->
  abs (appended b seq payload now) =
    (fifo_effect (rb_max_frames b) (rb_max_bytes b) (rb_ttl_seconds b) (abs b)
                 (Append seq payload now)).2.
Proof.
  intros Hwf. pose proof (fifo_bytes_abs b Hwf) as Hd. simpl in Hd.
  assert (Hv : view (<[rb_next_loc b:=payload]> (rb_heap b)) <$> rb_retained b =
               view (rb_heap b) <$> rb_retained b).
  { apply list_fmap_ext. intros i e He%list_elem_of_lookup_2. unfold view, body_at.
    rewrite lookup_insert_ne; [done|]. pose proof (wf_alloc b Hwf e He). lia. }
  assert (Hn : view (<[rb_next_loc b:=payload]> (rb_heap b))
                 {| rt_seq := seq; rt_body := rb_next_loc b; rt_enqueued_at := now |} =
               (seq, payload, now)).
  { unfold view, body_at. simpl. by rewrite lookup_insert_eq. }
  unfold abs, fifo_effect. simpl. rewrite fmap_app, Hv. simpl. rewrite Hn.
  unfold fifo_bytes in *. rewrite Zsum_app, Hd, Zlen_app, Zlen_fmap, Zsum_singleton. done.
Qed.

Lemma wf_appended b seq payload now :
  wf b ->
  fifo_refuses (rb_max_frames b) (rb_max_bytes b) (abs b) (Append seq payload now) = None ->
  wf (appended b seq payload now).
Proof.
  intros Hwf Hok. pose proof (fifo_bytes_abs b Hwf) as Hd. simpl in Hd, Hok.
  rewrite Hd, Zlen_fmap in Hok. pose proof Hwf as [].
  destruct (Z.ltb_spec seq 0); [done|]. destruct (Z.leb_spec seq (rb_last_seq b)); [done|].
  destruct (before now (rb_last_now b)) eqn:Hnow; [done|].
  destruct (_ || _) eqn:Hh; [done|].
  apply orb_false_iff in Hh as [Hh1%Z.ltb_ge Hh2%Z.ltb_ge].
  assert (Hbody : forall i, i ∈ rt_body <$> rb_retained b -> (i < rb_next_loc b)%nat).
  { intros i (e & -> & He)%list_elem_of_fmap. auto. }
  assert (Hseen : forall e, e ∈ rb_retained b -> (rt_enqueued_at e <= now)%Q).
  { intros e He. destruct (wf_floor0 e He) as [_ Hs]. unfold seen, before in *.
    destruct (rb_last_now b); [|done]. cmp_cases; [done|lra]. }
  split; cbn -[Z.mul]; auto.
  - rewrite fmap_app. apply NoDup_app. split_and!; [done| |apply NoDup_singleton].
    simpl. intros i Hi ->%list_elem_of_singleton. apply Hbody in Hi. lia.
  - intros i body. rewrite lookup_insert. case_decide; [lia|]. intros ?%wf_fresh0. lia.
  - intros e [He| ->%list_elem_of_singleton]%elem_of_app; simpl; [|lia].
    apply wf_alloc0 in He. lia.
  - intros i body. rewrite lookup_insert, fmap_app, elem_of_app. case_decide as Hi.
    + intros _ []. right. simpl. subst. by apply list_elem_of_singleton.
    + intros ? ?. eapply wf_erased0; [done|tauto].
  - rewrite Zsum_app, Zsum_singleton. simpl. unfold body_at at 2. rewrite lookup_insert_eq.
    rewrite wf_depth0. f_equal. apply Zsum_ext. intros e He. unfold body_at.
    rewrite lookup_insert_ne; [done|]. apply wf_alloc0 in He. lia.
  - apply StronglySorted_app_2; [|done|repeat constructor].
    intros e1 e2 He1 ->%list_elem_of_singleton. split; simpl; [|auto].
    apply wf_floor0 in He1. lia.
  - intros e [He| ->%list_elem_of_singleton]%elem_of_app; simpl; [|split; [lia|lra]].
    specialize (Hseen e He). apply wf_floor0 in He. split; [lia|done].
  - rewrite Zlen_app, Zlen_singleton. lia.
  - rewrite Zlen_app, Zlen_singleton, !orb_true_iff, !Z.ltb_lt. tauto.
Qed.

Lemma wf_purge b : wf b -> wf (_purge b).
Proof.
  intros []. unfold _purge.
  assert (Hh : foldl (fun h e => _zero (rt_body e) h) (rb_heap b) (rb_retained b) =
               zero_all (rt_body <$> rb_retained b) (rb_heap b))
    by (unfold zero_all; by rewrite foldl_fmap).
  rewrite Hh. split; cbn -[Z.mul]; auto; try (by constructor); try (by intros ? ?%elem_of_nil).
  - intros i body. rewrite zero_all_lookup. case_decide; [|eauto].
    destruct (rb_heap b !! i) eqn:?; [|done]. eauto.
  - intros i body. rewrite zero_all_lookup. case_decide; [|by eauto].
    intros Hz _. destruct (rb_heap b !! i); simplify_eq/=. apply zero_body_idem.
  - unfold Zlen. simpl. lia.
  - unfold Zlen. simpl. lia.
Qed.

Lemma wf_reset_floor b : wf b -> rb_retained b = [] -> wf (set_floor b (-1) None).
Proof. intros [] Hl. rewrite Hl in *.
  split; cbn -[Z.mul]; rewrite ?Hl; auto; by intros ? ?%elem_of_nil. Qed.

Definition frame_after (f1 f2 : frame) : Prop :=
  frame_seq f1 < frame_seq f2 /\ (frame_at f1 <= frame_at f2)%Q.

Lemma frames_sorted b : wf b -> StronglySorted frame_after (ff_frames (abs b)).
Proof. intros Hwf. eapply StronglySorted_fmap, (wf_order b Hwf). by intros ?? [? ?]. Qed.

(** A [reclaim_loop] whose test reads only the frame's seq and time computes the
    two filters of the abstract frame list. *)
Lemma reclaim_filters b (stays : frame -> bool) :
  wf b ->
  (forall f1 f2, frame_after f1 f2 -> stays f1 = true -> stays f2 = true) ->
  (forall (h1 h2 : gmap nat (list byte)) e, stays (view h1 e) = stays (view h2 e)) ->
  exists b', reclaim_loop (fun e => stays (view ∅ e)) (rb_retained b) (rb_depth_bytes b)
                          (rb_heap b) [] =
             (rb_depth_bytes b', rb_heap b',
              frame_seq <$> filter (fun f => stays f = false) (ff_frames (abs b))) /\
             b' = set_retained b (drop (length (filter (fun f => stays f = false)
                                                       (ff_frames (abs b)))) (rb_retained b))
                               (rb_depth_bytes b') (rb_heap b') /\
             wf b' /\
             ff_frames (abs b') = filter (fun f => stays f = true) (ff_frames (abs b)).
Proof.
  intros Hwf Hmono Hheap.
  destruct (reclaim_buffer b (fun e => stays (view ∅ e))) as (Hloop & Hdrop & Hsplit).
  set (gone := takeb _ _) in *. set (rest := dropb _ _) in *.
  destruct (dropb_filter frame_after (fun f => negb (stays f)) _ (frames_sorted b Hwf))
    as [Hrest Hgone].
  { intros x y Hxy Hy. destruct (stays x) eqn:Hx; [|done]. by rewrite (Hmono x y Hxy Hx) in Hy. }
  assert (Hg : view (rb_heap b) <$> gone = filter (fun f => stays f = false) (ff_frames (abs b))).
  { transitivity (filter (fun f => negb (stays f) = true) (ff_frames (abs b))).
    - rewrite <- Hgone. simpl. rewrite takeb_fmap. unfold gone. f_equal. apply takeb_ext.
      intros e. f_equal. apply Hheap.
    - apply list_filter_iff. intros f. by rewrite negb_true_iff. }
  assert (Hr : view (rb_heap b) <$> rest = filter (fun f => stays f = true) (ff_frames (abs b))).
  { transitivity (filter (fun f => negb (stays f) = false) (ff_frames (abs b))).
    - rewrite <- Hrest. simpl. rewrite dropb_fmap. unfold rest. f_equal. apply dropb_ext.
      intros e. f_equal. apply Hheap.
    - apply list_filter_iff. intros f. by rewrite negb_false_iff. }
  exists (drop_run b gone rest). rewrite Hloop, <- Hg, !length_fmap. split_and!.
  - f_equal. rewrite <- list_fmap_compose. done.
  - rewrite length_fmap in Hdrop. rewrite Hdrop. done.
  - by apply wf_drop_run.
  - etransitivity; [|exact Hr]. by apply view_rest.
Qed.

Lemma trim_refines b ack :
  wf b ->
  exists b', trim_to_ack ack b = (Ok tt, b') /\ wf b' /\
             abs b' = (fifo_effect (rb_max_frames b) (rb_max_bytes b) (rb_ttl_seconds b) (abs b)
                                   (TrimToAck ack)).2.
Proof.
  intros Hwf.
  destruct (reclaim_filters b (fun f => ack <? frame_seq f) Hwf) as (b' & Hloop & Hb' & Hwf' & Hf).
  { intros f1 f2 [? _]. rewrite !Z.ltb_lt. lia. }
  { done. }
  exists b'. unfold trim_to_ack, bind, get, put.
  change (fun entry => ack <? rt_seq entry) with (fun e => ack <? frame_seq (view ∅ e)).
  rewrite Hloop, length_fmap, <- Hb'. split_and!; [done|done|].
  unfold abs at 1. change (view (rb_heap b') <$> rb_retained b') with (ff_frames (abs b')).
  rewrite Hf, Hb'. simpl. f_equal. apply list_filter_iff. intros f. apply Z.ltb_lt.
Qed.

Lemma evict_refines b now :
  wf b -> before now (rb_last_now b) = false ->
  let out := fifo_effect (rb_max_frames b) (rb_max_bytes b) (rb_ttl_seconds b) (abs b)
                         (EvictExpired now) in
  exists b', evict_expired now b = (Ok out.1, b') /\ wf b' /\ abs b' = out.2.
Proof.
  intros Hwf Hnow. apply wf_set_floor in Hnow as Hwf2; [|done].
  destruct (reclaim_filters (set_floor b (rb_last_seq b) (Some now))
              (fun f => Qle_bool (now - frame_at f) (rb_ttl_seconds b)) Hwf2)
    as (b' & Hloop & Hb' & Hwf' & Hf).
  { intros f1 f2 [_ ?]. rewrite !Qle_bool_iff. lra. }
  { done. }
  exists b'. unfold evict_expired, bind, get, put, ret. rewrite Hnow. cbn -[reclaim_loop filter].
  change (fun entry => Qle_bool (now - rt_enqueued_at entry) (rb_ttl_seconds b))
    with (fun e => Qle_bool (now - frame_at (view ∅ e)) (rb_ttl_seconds b)).
  cbn -[filter view reclaim_loop frame_at] in Hloop, Hb', Hf. rewrite Hloop.
  rewrite length_fmap, <- Hb'. split_and!; [|done|].
  - f_equal. f_equal. f_equal. apply list_filter_iff. intros f. by rewrite negb_true_iff.
  - unfold abs. rewrite Hf, Hb'. simpl. f_equal. apply list_filter_iff. intros f.
    by rewrite negb_false_iff.
Qed.

Definition same_caps (b b' : ReplayBuffer) : Prop :=
  rb_max_frames b' = rb_max_frames b /\ rb_max_bytes b' = rb_max_bytes b /\
  rb_ttl_seconds b' = rb_ttl_seconds b.

Lemma step_caps o b : same_caps b (step o b).2.
Proof.
  unfold same_caps. destruct o; unfold step, append, trim_to_ack, evict_expired, discard,
    reset_for_new_epoch, bind, get, put, modify, raise, ret; simpl; try done.
  - repeat case_match; simplify_eq; done.
  - destruct (reclaim_loop _ _ _ _ _) as [[? ?] ?]; done.
  - destruct (before _ _); [done|]. destruct (reclaim_loop _ _ _ _ _) as [[? ?] ?]; done.
Qed.

(** One step of the detailed buffer is one step of the abstract one. *)
Lemma step_refines o b :
  wf b ->
  wf (step o b).2 /\
  fifo_step (rb_max_frames b) (rb_max_bytes b) (rb_ttl_seconds b) o (abs b) =
    ((step o b).1, abs (step o b).2).
Proof.
  intros Hwf. unfold fifo_step. destruct o as [seq payload now|ack|now| |]; cbn [step].
  - unfold bind. rewrite append_eq by done.
    destruct (fifo_refuses _ _ _ _) eqn:Hr; [done|].
    split; [by apply wf_appended|]. simpl. rewrite abs_appended by done. done.
  - destruct (trim_refines b ack Hwf) as (b' & Heq & ? & Habs). unfold bind. rewrite Heq.
    split; [done|]. simpl. by rewrite Habs.
  - destruct (before now (rb_last_now b)) eqn:Hnow.
    + unfold evict_expired, bind, get, raise. simpl. by rewrite Hnow.
    + destruct (evict_refines b now Hwf Hnow) as (b' & Heq & ? & Habs). rewrite Heq.
      split; [done|]. unfold fifo_refuses. simpl. rewrite Hnow, Habs. done.
  - split; [by apply wf_purge|done].
  - split; [|done]. apply wf_reset_floor; [by apply wf_purge|done].
Qed.

Lemma unacked_frames_abs b :
  unacked_frames b =
    (fun f => {| rf_seq := frame_seq f; rf_payload := frame_payload f |}) <$> ff_frames (abs b).
Proof. unfold unacked_frames. simpl. rewrite <- list_fmap_compose. done. Qed.

(** [append] as its caller uses it: it stores the frame at the end, or it refuses and
    changes nothing. *)
Lemma append_outcome b seq payload now :
  wf b -> 0 <= seq -> rb_last_seq b < seq ->
  (exists e, (e = NowNotMonotonic \/ e = HardCeiling) /\ append seq payload now b = (Err e, b)) \/
  exists b', append seq payload now b = (Ok tt, b') /\ wf b' /\ rb_last_seq b' = seq /\
             rb_depth_bytes b' = rb_depth_bytes b + Zlen payload /\
             unacked_frames b' = unacked_frames b ++ [{| rf_seq := seq; rf_payload := payload |}].
Proof.
  intros Hwf Hs Hl. rewrite append_eq by done.
  destruct (fifo_refuses _ _ _ _) as [e|] eqn:Hr.
  - left. exists e. split; [|done]. simpl in Hr. destruct (Z.ltb_spec seq 0); [lia|].
    destruct (Z.leb_spec seq (rb_last_seq b)); [lia|]. repeat case_match; naive_solver.
  - right. exists (appended b seq payload now). split_and!; try done.
    + by apply wf_appended.
    + rewrite !unacked_frames_abs, abs_appended by done. simpl. by rewrite fmap_app.
Qed.

(** An [append] with room, in order, is accepted. *)
Lemma append_admits b seq payload now :
  wf b -> 0 <= seq -> rb_last_seq b < seq -> before now (rb_last_now b) = false ->
  Zlen (rb_retained b) + 1 <= 2 * rb_max_frames b ->
  rb_depth_bytes b + Zlen payload <= 2 * rb_max_bytes b ->
  append seq payload now b = (Ok tt, appended b seq payload now).
Proof.
  intros Hwf Hs Hl Hb Hf Hby. rewrite append_eq by done. simpl. rewrite Hb, Zlen_fmap.
  pose proof (fifo_bytes_abs b Hwf) as Hd. simpl in Hd. rewrite Hd.
  destruct (Z.ltb_spec seq 0); [lia|]. destruct (Z.leb_spec seq (rb_last_seq b)); [lia|].
  destruct (Z.ltb_spec (2 * rb_max_frames b) (Zlen (rb_retained b) + 1)); [lia|].
  by destruct (Z.ltb_spec (2 * rb_max_bytes b) (rb_depth_bytes b + Zlen payload)); [lia|].
Qed.

(** The removal methods, as their callers use them. *)
Definition shrinks (b b' : ReplayBuffer) : Prop :=
  wf b' /\ rb_depth_bytes b' <= rb_depth_bytes b.

Lemma filter_shrinks b b' (P : frame -> Prop) `{!forall x, Decision (P x)} :
  wf b -> wf b' -> ff_frames (abs b') = filter P (ff_frames (abs b)) -> shrinks b b'.
Proof.
  intros Hwf Hwf' Hf. split; [done|]. rewrite <- !fifo_bytes_abs by done. rewrite Hf.
  apply Zsum_filter_le. intros. apply Zlen_nonneg.
Qed.

Lemma trim_shrinks b ack :
  wf b ->
  exists b', trim_to_ack ack b = (Ok tt, b') /\ shrinks b b' /\ rb_last_seq b' = rb_last_seq b /\
             unacked_frames b' = filter (fun f => ack < rf_seq f) (unacked_frames b).
Proof.
  intros Hwf. destruct (trim_refines b ack Hwf) as (b' & Heq & Hwf' & Habs). exists b'.
  split_and!; [done| | |].
  - eapply filter_shrinks; [done..|]. rewrite Habs. reflexivity.
  - change (rb_last_seq b') with (ff_last_seq (abs b')). by rewrite Habs.
  - rewrite !unacked_frames_abs, Habs. simpl. by rewrite !list_filter_fmap.
Qed.

Lemma evict_shrinks b now :
  wf b ->
  evict_expired now b = (Err NowNotMonotonic, b) \/
  exists out b', evict_expired now b = (Ok out, b') /\ shrinks b b' /\ rb_last_seq b' = rb_last_seq b.
Proof.
  intros Hwf. destruct (before now (rb_last_now b)) eqn:Hnow.
  { left. unfold evict_expired, bind, get, raise. by rewrite Hnow. }
  right. destruct (evict_refines b now Hwf Hnow) as (b' & Heq & Hwf' & Habs). eexists _, b'.
  split_and!; [done| |].
  - eapply filter_shrinks; [done..|]. rewrite Habs. reflexivity.
  - change (rb_last_seq b') with (ff_last_seq (abs b')). by rewrite Habs.
Qed.

Lemma purge_shrinks b : wf b -> shrinks b (_purge b) /\ rb_depth_bytes (_purge b) = 0.
Proof.
  intros Hwf. split; [|done]. split; [by apply wf_purge|]. simpl.
  rewrite <- fifo_bytes_abs by done. apply Zsum_nonneg. intros. apply Zlen_nonneg.
Qed.

Lemma run_caps ops b : same_caps b (run ops b).
Proof.
  revert b. induction ops as [|o ops IH]; intros b; [done|]. simpl.
  destruct (IH (step o b).2) as (? & ? & ?), (step_caps o b) as (? & ? & ?).
  unfold same_caps. split_and!; etrans; eauto.
Qed.

Lemma buffer_run_wf ops b : wf b -> wf (run ops b).
Proof.
  revert b. induction ops as [|o ops IH]; intros b Hwf; [done|]. simpl.
  apply IH. by apply step_refines.
Qed.

Lemma init_caps mf mb ttl b :
  init mf mb ttl = Ok b -> rb_max_frames b = mf /\ rb_max_bytes b = mb /\ rb_ttl_seconds b = ttl.
Proof. unfold init. destruct (_ || _); intros; by simplify_eq. Qed.

(** The state of a buffer constructed with the caps [mf], [mb], [ttl] after any
    sequence of calls. *)
Definition reachable (mf mb : Z) (ttl : Q) (b : ReplayBuffer) : Prop :=
  exists b0 ops, init mf mb ttl = Ok b0 /\ b = run ops b0.

Lemma buffer_reachable_wf mf mb ttl b :
  reachable mf mb ttl b ->
  wf b /\ rb_max_frames b = mf /\ rb_max_bytes b = mb /\ rb_ttl_seconds b = ttl.
Proof.
  intros (b0 & ops & Hi & ->). apply init_caps in Hi as Hc. apply wf_init in Hi.
  destruct (run_caps ops b0) as (? & ? & ?). split; [by apply buffer_run_wf|]. naive_solver congruence.
Qed.

(** A closed buffer for the witnesses: two frames of two bytes, ttl of ten seconds. *)
Definition sample_ops : list op :=
  [Append 0 [x01; x02] 1; Append 1 [x03] 2; TrimToAck 0; Append 2 [x04; x05] 5; EvictExpired 13].
Definition sample : ReplayBuffer := run sample_ops (fresh 2 2 10).
Lemma sample_reachable : reachable 2 2 10 sample.
Proof. by exists (fresh 2 2 10), sample_ops. Qed.

(** ** Theorems *)

(** C36: every call on a buffer reached from a successful construction by any calls
    refines the abstract FIFO: it raises exactly the error the contract names, else
    returns the evicted seqs and leaves the retained frames, the seq and clock floors
    and the breaker latch the contract gives. *)
Theorem replay_buffer_refines_fifo mf mb ttl b o :
  reachable mf mb ttl b ->
  fifo_step mf mb ttl o (abs b) = ((step o b).1, abs (step o b).2).
Proof. intros (Hwf & <- & <- & <-)%buffer_reachable_wf. by apply step_refines. Qed.

Lemma replay_buffer_refines_fifo_witness :
  reachable 2 2 10 sample /\
  fifo_step 2 2 10 (EvictExpired 16) (abs sample) =
    ((step (EvictExpired 16) sample).1, abs (step (EvictExpired 16) sample).2).
Proof.
  split; [exact sample_reachable|].
  apply (replay_buffer_refines_fifo 2 2 10 sample (EvictExpired 16)), sample_reachable.
Defined.

(** A body the buffer no longer retains is all zero bytes, whichever of trim,
    eviction, discard or reset removed it. *)
Theorem replay_buffer_erases_removed_bodies mf mb ttl b i body :
  reachable mf mb ttl b ->
  rb_heap b !! i = Some body ->
  (exists e, e ∈ rb_retained b /\ rt_body e = i) \/ Forall (fun x => x = x00) body.
Proof.
  intros (Hwf & _)%buffer_reachable_wf Hi.
  destruct (decide (i ∈ rt_body <$> rb_retained b)) as [Hin|Hout].
  - left. apply list_elem_of_fmap in Hin as (e & -> & He). eauto.
  - right. rewrite <- (wf_erased b Hwf i body Hi Hout). apply Forall_replicate. done.
Qed.

Lemma replay_buffer_erases_removed_bodies_witness :
  rb_heap sample !! 0%nat = Some [x00; x00] /\
  ((exists e, e ∈ rb_retained sample /\ rt_body e = 0%nat) \/
   Forall (fun x => x = x00) [x00; x00]).
Proof.
  split; [vm_compute; reflexivity|].
  apply (replay_buffer_erases_removed_bodies 2 2 10 sample 0%nat [x00; x00] sample_reachable).
  vm_compute. reflexivity.
Defined.

(** The retained input is bounded by the hard ceiling, the byte count is the sum of
    the retained payload lengths, and whenever the buffer stands over a soft cap
    ([cap_ratio > 1]) the breaker is latched. *)
Theorem replay_buffer_bounded mf mb ttl b :
  reachable mf mb ttl b ->
  depth_frames b <= 2 * mf /\ depth_bytes b <= 2 * mb /\
  depth_bytes b = Zsum (fun f => Zlen (rf_payload f)) (unacked_frames b) /\
  ((1 < cap_ratio b)%Q -> breaker_tripped b = true).
Proof.
  intros (Hwf & Hf & Hb & _)%buffer_reachable_wf. subst mf mb. pose proof Hwf as [].
  unfold depth_frames, depth_bytes, unacked_frames, breaker_tripped. split_and!; try lia.
  - rewrite wf_depth0, Zsum_fmap. done.
  - intros Hr. apply wf_breaker0. unfold cap_ratio, py_max in Hr.
    cmp_cases; [right|left]; apply Qdiv_gt_1; try done; lia.
Qed.

Lemma replay_buffer_bounded_witness :
  reachable 2 2 10 sample /\
  depth_frames sample <= 2 * 2 /\ depth_bytes sample <= 2 * 2 /\
  depth_bytes sample = Zsum (fun f => Zlen (rf_payload f)) (unacked_frames sample) /\
  ((1 < cap_ratio sample)%Q -> breaker_tripped sample = true).
Proof. split; [exact sample_reachable|]. apply (replay_buffer_bounded 2 2 10), sample_reachable. Defined.
