(* ===== verification/GlobalReplayCap.v ===== *)
(** * [gateway/global_replay_cap.py]: the aggregate resident-byte budget

    [ByteLedger] is the promise the legs rely on: a reserve that is admitted adds to
    the leg's holding and to nobody else's, a refusal accrues nothing, a release of
    at most the holding succeeds, and the total never passes the ceiling.
    [GlobalReplayCap] is the class; [cap_ledger] discharges the promise. *)
From S2P Require Import Prelude.

Inductive GlobalReplayCapError : Set :=
| CapNotPositive
| ReserveNegative
| ReleaseNegative
| ReleaseUnknownLeg
| ReleaseExceeds.

Record GlobalReplayCap := {
  gc_max_total_bytes : Z;
  gc_total_bytes : Z;
  gc_per_leg : gmap string Z
}.

Definition init (max_total_bytes : Z) : result GlobalReplayCapError GlobalReplayCap :=
  if max_total_bytes <=? 0 then Err CapNotPositive
  else Ok {| gc_max_total_bytes := max_total_bytes; gc_total_bytes := 0; gc_per_leg := ∅ |}.

Definition total_bytes (c : GlobalReplayCap) : Z := gc_total_bytes c.
Definition max_total_bytes (c : GlobalReplayCap) : Z := gc_max_total_bytes c.
Definition leg_bytes (c : GlobalReplayCap) (adapter_id : string) : Z :=
  default 0 (gc_per_leg c !! adapter_id).

Definition set_totals (c : GlobalReplayCap) (total : Z) (per_leg : gmap string Z) : GlobalReplayCap :=
  {| gc_max_total_bytes := gc_max_total_bytes c; gc_total_bytes := total; gc_per_leg := per_leg |}.

Definition reserve (adapter_id : string) (n_bytes : Z) : M GlobalReplayCap GlobalReplayCapError bool :=
  c <-- get;
  raise_if n_bytes <? 0 with ReserveNegative;
  if gc_max_total_bytes c <? gc_total_bytes c + n_bytes then ret false
  else put (set_totals c (gc_total_bytes c + n_bytes)
                       (<[adapter_id := leg_bytes c adapter_id + n_bytes]> (gc_per_leg c)));;;
       ret true.

Definition release (adapter_id : string) (n_bytes : Z) : M GlobalReplayCap GlobalReplayCapError unit :=
  c <-- get;
  raise_if n_bytes <? 0 with ReleaseNegative;
  match gc_per_leg c !! adapter_id with
  | None => raise ReleaseUnknownLeg
  | Some current =>
      raise_if current <? n_bytes with ReleaseExceeds;
      put (set_totals c (gc_total_bytes c - n_bytes)
                      (<[adapter_id := current - n_bytes]> (gc_per_leg c)))
  end.

Definition remove_leg (adapter_id : string) : M GlobalReplayCap GlobalReplayCapError Z :=
  c <-- get;
  let freed := default 0 (gc_per_leg c !! adapter_id) in
  put (set_totals c (gc_total_bytes c - freed) (delete adapter_id (gc_per_leg c)));;;
  ret freed.

(** Any sequence of calls. *)
Inductive op := Reserve (leg : string) (n : Z) | Release (leg : string) (n : Z) | RemoveLeg (leg : string).
Definition step (o : op) (c : GlobalReplayCap) : GlobalReplayCap :=
  match o with
  | Reserve leg n => (reserve leg n c).2
  | Release leg n => (release leg n c).2
  | RemoveLeg leg => (remove_leg leg c).2
  end.
Definition run (ops : list op) (c : GlobalReplayCap) : GlobalReplayCap := foldl (fun c o => step o c) c ops.

(** ** The invariant *)
Record wf (c : GlobalReplayCap) : Prop := {
  wf_total : gc_total_bytes c = map_sum (gc_per_leg c);
  wf_nonneg : forall leg n, gc_per_leg c !! leg = Some n -> 0 <= n;
  wf_max : gc_total_bytes c <= gc_max_total_bytes c
}.

Lemma wf_init_cap m c : init m = Ok c -> wf c /\ gc_max_total_bytes c = m.
Proof.
  unfold init. destruct (Z.leb_spec m 0); intros; simplify_eq. split; [|done].
  split; simpl; [done| |lia]. by intros ?? ?%lookup_empty_Some.
Qed.

Lemma leg_bytes_nonneg c leg : wf c -> 0 <= leg_bytes c leg.
Proof.
  intros Hwf. unfold leg_bytes. destruct (gc_per_leg c !! leg) eqn:H; simpl; [|done].
  by eapply wf_nonneg.
Qed.

Lemma wf_set c leg n :
  wf c -> 0 <= n -> gc_total_bytes c - leg_bytes c leg + n <= gc_max_total_bytes c ->
  wf (set_totals c (gc_total_bytes c - leg_bytes c leg + n) (<[leg := n]> (gc_per_leg c))).
Proof.
  intros [] ? ?. split; simpl; [|intros l v|done].
  - rewrite map_sum_insert. unfold leg_bytes in *. lia.
  - intros [[-> ->]|[_ ?]]%lookup_insert_Some; eauto.
Qed.

Lemma leg_bytes_set c t leg n leg' :
  leg_bytes (set_totals c t (<[leg := n]> (gc_per_leg c))) leg' =
  if decide (leg = leg') then n else leg_bytes c leg'.
Proof. unfold leg_bytes. simpl. rewrite lookup_insert. by case_decide. Qed.

Lemma reserve_cases c leg n :
  wf c -> 0 <= n ->
  (gc_max_total_bytes c < gc_total_bytes c + n /\ reserve leg n c = (Ok false, c)) \/
  (gc_total_bytes c + n <= gc_max_total_bytes c /\
   exists c', reserve leg n c = (Ok true, c') /\ wf c' /\
     gc_max_total_bytes c' = gc_max_total_bytes c /\
     forall leg', leg_bytes c' leg' = leg_bytes c leg' + (if decide (leg = leg') then n else 0)).
Proof.
  intros Hwf Hn. unfold reserve, bind, get, put, ret, raise.
  destruct (Z.ltb_spec n 0); [lia|]. destruct (Z.ltb_spec (gc_max_total_bytes c) (gc_total_bytes c + n)).
  { by left. }
  right. split; [done|]. eexists. split; [done|]. pose proof (leg_bytes_nonneg c leg Hwf).
  replace (gc_total_bytes c + n) with (gc_total_bytes c - leg_bytes c leg + (leg_bytes c leg + n)) by lia.
  split_and!; [apply wf_set; [done|lia|lia]|done|]. intros leg'. rewrite leg_bytes_set.
  case_decide; subst; lia.
Qed.

Lemma cap_release_cases c leg n :
  wf c -> 0 <= n -> n <= leg_bytes c leg -> is_Some (gc_per_leg c !! leg) ->
  exists c', release leg n c = (Ok tt, c') /\ wf c' /\
    gc_max_total_bytes c' = gc_max_total_bytes c /\
    forall leg', leg_bytes c' leg' = leg_bytes c leg' - (if decide (leg = leg') then n else 0).
Proof.
  intros Hwf Hn Hle [v Hv]. unfold release, bind, get, put, raise.
  assert (Hlb : leg_bytes c leg = v) by (unfold leg_bytes; by rewrite Hv).
  destruct (Z.ltb_spec n 0); [lia|]. rewrite Hv. destruct (Z.ltb_spec v n); [lia|].
  eexists. split; [done|]. pose proof (wf_max c Hwf).
  replace (gc_total_bytes c - n) with (gc_total_bytes c - leg_bytes c leg + (v - n)) by lia.
  split_and!; [apply wf_set; [done|lia|lia]|done|]. intros leg'. rewrite leg_bytes_set.
  case_decide; subst; lia.
Qed.

Lemma remove_leg_cases c leg :
  wf c ->
  exists c', remove_leg leg c = (Ok (leg_bytes c leg), c') /\ wf c' /\
    gc_max_total_bytes c' = gc_max_total_bytes c /\
    forall leg', leg_bytes c' leg' = if decide (leg = leg') then 0 else leg_bytes c leg'.
Proof.
  intros Hwf. unfold remove_leg, bind, get, put, ret. eexists. split; [reflexivity|].
  pose proof (leg_bytes_nonneg c leg Hwf). destruct Hwf.
  split_and!; [split; simpl| done|].
  - rewrite wf_total0. rewrite (map_sum_delete _ leg). lia.
  - intros l v [_ ?]%lookup_delete_Some. eauto.
  - unfold leg_bytes in *. lia.
  - intros leg'. unfold leg_bytes. simpl. rewrite lookup_delete. by case_decide.
Qed.

(** ** The promise to the legs *)
Class ByteLedger (L Err : Type) := {
  ld_reserve : string -> Z -> M L Err bool;
  ld_release : string -> Z -> M L Err unit;
  ld_remove : string -> M L Err Z;
  ld_held : L -> string -> Z;
  ld_known : L -> string -> Prop;
  ld_total : L -> Z;
  ld_ceiling : L -> Z;
  ld_wf : L -> Prop
}.

Class ByteLedgerLaws (L Err : Type) `{!ByteLedger L Err} : Prop := {
  ld_bounds : forall l leg, ld_wf l -> 0 <= ld_held l leg <= ld_total l /\ ld_total l <= ld_ceiling l;
  ld_sum : forall l legs, ld_wf l -> NoDup legs -> Zsum (ld_held l) legs <= ld_total l;
  ld_total_frame : forall l l' leg, ld_wf l -> ld_wf l' ->
    (forall leg', leg' <> leg -> ld_held l' leg' = ld_held l leg') ->
    ld_total l' - ld_held l' leg = ld_total l - ld_held l leg;
  ld_held_known : forall l leg, 0 < ld_held l leg -> ld_known l leg;
  ld_reserve_spec : forall l leg n, ld_wf l -> 0 <= n ->
    (ld_ceiling l < ld_total l + n /\ ld_reserve leg n l = (Ok false, l)) \/
    (ld_total l + n <= ld_ceiling l /\
     exists l', ld_reserve leg n l = (Ok true, l') /\ ld_wf l' /\ ld_known l' leg /\
       ld_ceiling l' = ld_ceiling l /\
       forall leg', ld_held l' leg' = ld_held l leg' + (if decide (leg = leg') then n else 0));
  ld_release_spec : forall l leg n, ld_wf l -> 0 <= n -> n <= ld_held l leg -> ld_known l leg ->
    exists l', ld_release leg n l = (Ok tt, l') /\ ld_wf l' /\ ld_ceiling l' = ld_ceiling l /\
      forall leg', ld_held l' leg' = ld_held l leg' - (if decide (leg = leg') then n else 0);
  ld_remove_spec : forall l leg, ld_wf l ->
    exists l', ld_remove leg l = (Ok (ld_held l leg), l') /\ ld_wf l' /\
      ld_ceiling l' = ld_ceiling l /\
      forall leg', ld_held l' leg' = if decide (leg = leg') then 0 else ld_held l leg'
}.

#[export] Instance cap_ledger : ByteLedger GlobalReplayCap GlobalReplayCapError := {
  ld_reserve := reserve;
  ld_release := release;
  ld_remove := remove_leg;
  ld_held := leg_bytes;
  ld_known := fun c leg => is_Some (gc_per_leg c !! leg);
  ld_total := gc_total_bytes;
  ld_ceiling := gc_max_total_bytes;
  ld_wf := wf
}.

#[export] Instance cap_ledger_laws : ByteLedgerLaws GlobalReplayCap GlobalReplayCapError.
Proof.
  split; simpl.
  - intros c leg Hwf. pose proof (leg_bytes_nonneg c leg Hwf). destruct Hwf.
    pose proof (map_sum_lookup_le (gc_per_leg c) leg wf_nonneg0). unfold leg_bytes in *. lia.
  - intros c legs Hwf. rewrite (wf_total c Hwf). apply map_sum_keys_le, (wf_nonneg c Hwf).
  - intros c c' leg Hwf Hwf' Ho. rewrite (wf_total c Hwf), (wf_total c' Hwf'). unfold leg_bytes in *.
    rewrite (map_sum_delete (gc_per_leg c) leg), (map_sum_delete (gc_per_leg c') leg).
    rewrite (map_sum_ext (delete leg (gc_per_leg c')) (delete leg (gc_per_leg c))); [lia|].
    intros k. rewrite !lookup_delete. case_decide; [done|]. apply Ho. congruence.
  - intros c leg. unfold leg_bytes. destruct (gc_per_leg c !! leg); simpl; [eauto|lia].
  - intros c leg n Hwf Hn. destruct (reserve_cases c leg n Hwf Hn) as [?|(? & c' & Hr & ? & ? & ?)].
    + by left.
    + right. split; [done|]. exists c'. split_and!; try done.
      unfold reserve, bind, get, put, ret, raise in Hr.
      repeat case_match; simplify_eq. simpl. rewrite lookup_insert_eq. eauto.
  - intros c leg n. apply cap_release_cases.
  - intros c leg. apply remove_leg_cases.
Qed.

(** ** Reachable states *)
Lemma cap_step_wf o c : wf c -> wf (step o c) /\ gc_max_total_bytes (step o c) = gc_max_total_bytes c.
Proof.
  intros Hwf. destruct o as [leg n|leg n|leg]; cbn [step].
  - destruct (Z.lt_ge_cases n 0).
    + unfold reserve, bind, get, raise. by destruct (Z.ltb_spec n 0); [|lia].
    + by destruct (reserve_cases c leg n) as [[? ->]|(? & c' & -> & ? & ? & ?)].
  - unfold release at 1 2, bind, get, raise. destruct (Z.ltb_spec n 0); [done|].
    destruct (gc_per_leg c !! leg) as [v|] eqn:Hv; [|done]. destruct (Z.ltb_spec v n); [done|].
    destruct (cap_release_cases c leg n) as (c' & Hr & ? & ? & ?); eauto.
    + unfold leg_bytes. rewrite Hv. simpl. lia.
    + unfold release, bind, get, raise in Hr. rewrite Hv in Hr.
      destruct (Z.ltb_spec n 0); [lia|]. destruct (Z.ltb_spec v n); [lia|].
      unfold put in *. simplify_eq. done.
  - by destruct (remove_leg_cases c leg Hwf) as (c' & -> & ? & ? & ?).
Qed.

Lemma cap_run_wf ops c : wf c -> wf (run ops c) /\ gc_max_total_bytes (run ops c) = gc_max_total_bytes c.
Proof.
  revert c. induction ops as [|o ops IH]; intros c Hwf; [done|].
  destruct (cap_step_wf o c Hwf) as [Hwf' Hm]. destruct (IH _ Hwf') as [? Hm']. split; [done|].
  simpl. by rewrite Hm'.
Qed.

(** ** Theorems *)

(** After any sequence of reserves, releases and leg removals on a fresh cap,
    misuses included, the total is the sum of the live legs' holdings, stays within
    the configured ceiling, and no holding is negative. *)
Theorem cap_total_is_sum_and_bounded m c0 ops :
  init m = Ok c0 ->
  let c := run ops c0 in
  total_bytes c = map_sum (gc_per_leg c) /\ 0 <= total_bytes c <= m /\
  (forall leg, 0 <= leg_bytes c leg).
Proof.
  intros [Hwf0 <-]%wf_init_cap c. destruct (cap_run_wf ops c0 Hwf0) as [Hwf Hm]. fold c in Hwf, Hm.
  rewrite <- Hm. pose proof Hwf as []. split_and!; try done.
  - unfold total_bytes. rewrite wf_total0. by apply map_sum_nonneg.
  - intros leg. by apply leg_bytes_nonneg.
Qed.

Lemma cap_total_is_sum_and_bounded_witness :
  let c := run [Reserve "tui" 6; Reserve "discord" 5; Release "tui" 9; Release "tui" 2;
                Reserve "discord" 5; RemoveLeg "tui"]
               {| gc_max_total_bytes := 10; gc_total_bytes := 0; gc_per_leg := ∅ |} in
  total_bytes c = map_sum (gc_per_leg c) /\ 0 <= total_bytes c <= 10 /\
  (forall leg, 0 <= leg_bytes c leg).
Proof.
  apply (cap_total_is_sum_and_bounded 10 {| gc_max_total_bytes := 10; gc_total_bytes := 0; gc_per_leg := ∅ |}).
  reflexivity.
Defined.

(** A call that raises or refuses changes nothing, and each raise happens exactly on
    the misuse it names. *)
Theorem cap_misuse_is_atomic c leg n :
  (forall e c', reserve leg n c = (Err e, c') -> c' = c /\ e = ReserveNegative /\ n < 0) /\
  (forall c', reserve leg n c = (Ok false, c') ->
     c' = c /\ gc_max_total_bytes c < gc_total_bytes c + n) /\
  (forall e c', release leg n c = (Err e, c') ->
     c' = c /\ (e = ReleaseNegative /\ n < 0 \/
                e = ReleaseUnknownLeg /\ 0 <= n /\ gc_per_leg c !! leg = None \/
                e = ReleaseExceeds /\ 0 <= n /\ leg_bytes c leg < n)).
Proof.
  unfold reserve, release, leg_bytes, bind, get, put, raise, ret.
  split_and!; intros; destruct (Z.ltb_spec n 0); repeat case_match; simplify_eq;
    repeat cmp_case; simpl; try done; eauto 10.
Qed.
