(* ===== verification/TokenBucket.v ===== *)
(** * The rate bound of a lazily refilled token bucket

    Three components meter with the same construction: a balance of tokens, refilled
    on demand from the elapsed clock and clamped at the capacity, from which a grant
    takes one.  [TokenBucket] is what an implementation promises about one step;
    [grants_bounded] is the long-run bound every implementation inherits. *)
From S2P Require Import Prelude.

Class TokenBucket (B Ev : Type) := {
  tb_step : Ev -> B -> Z * B;          (* grants made by the step, and the new state *)
  tb_tokens : B -> Q;
  tb_clock : B -> Q;                   (* the high-water of the refill clock *)
  tb_rate : B -> Q;                    (* tokens per second *)
  tb_capacity : B -> Q;
  tb_wf : B -> Prop
}.

Class TokenBucketLaws (B Ev : Type) `{!TokenBucket B Ev} : Prop := {
  tb_range : forall b, tb_wf b -> (0 <= tb_tokens b <= tb_capacity b)%Q /\ (0 <= tb_rate b)%Q;
  tb_step_ok : forall e b, tb_wf b ->
    let b' := (tb_step e b).2 in
    tb_wf b' /\ tb_rate b' = tb_rate b /\ tb_capacity b' = tb_capacity b /\
    (tb_clock b <= tb_clock b')%Q /\
    (inject_Z (tb_step e b).1 + tb_tokens b' <=
     tb_tokens b + tb_rate b * (tb_clock b' - tb_clock b))%Q
}.

Section bucket.
Context {B Ev : Type} `{!TokenBucket B Ev, !TokenBucketLaws B Ev}.

(** The grants of a sequence of events, and the state it leaves. *)
Fixpoint tb_run (es : list Ev) (b : B) : Z * B :=
  match es with
  | [] => (0, b)
  | e :: es' => let '(g, b') := tb_step e b in
                let '(gs, b'') := tb_run es' b' in (g + gs, b'')
  end.

Lemma tb_run_ok es b :
  tb_wf b ->
  let b' := (tb_run es b).2 in
  tb_wf b' /\ tb_rate b' = tb_rate b /\ tb_capacity b' = tb_capacity b /\
  (tb_clock b <= tb_clock b')%Q /\
  (inject_Z (tb_run es b).1 + tb_tokens b' <=
   tb_tokens b + tb_rate b * (tb_clock b' - tb_clock b))%Q.
Proof.
  revert b. induction es as [|e es IH]; intros b Hwf; simpl.
  { change (inject_Z 0) with 0%Q. split_and!; try done; lra. }
  pose proof (tb_step_ok e b Hwf) as (Hwf1 & Hr1 & Hc1 & Ht1 & Hp1).
  destruct (tb_step e b) as [g b1]. simpl in *.
  specialize (IH b1 Hwf1) as (Hwf2 & Hr2 & Hc2 & Ht2 & Hp2).
  destruct (tb_run es b1) as [gs b2]. simpl in *. rewrite Hr1 in Hr2, Hp2. rewrite Hc1 in Hc2.
  split_and!; try done; [lra|]. rewrite inject_Z_plus. lra.
Qed.

Lemma grants_bounded es b :
  tb_wf b ->
  let '(granted, b') := tb_run es b in
  (inject_Z granted <= tb_capacity b + tb_rate b * (tb_clock b' - tb_clock b))%Q.
Proof.
  intros Hwf. pose proof (tb_run_ok es b Hwf) as (Hwf' & _ & _ & _ & Hp).
  destruct (tb_run es b) as [gs b']. simpl in *.
  pose proof (tb_range b Hwf) as [[??] _]. pose proof (tb_range b' Hwf') as [[??] _]. lra.
Qed.
End bucket.
