(* ===== verification/IngressGate.v ===== *)
(** * [gateway/ingress_gate.py]: payload-blind per-adapter admission control

    The clock is the injected [now] callable: [try_admit] reads it once to refill and
    once more to stamp the slot, so its model takes both readings. *)
From S2P Require Import Prelude TokenBucket.

Inductive IngressDecision : Set := ADMITTED | OVERSIZED | THROTTLED_RATE | THROTTLED_INFLIGHT.

Record AdmitResult := { ar_decision : IngressDecision; ar_token : option Z }.

(** The [ValueError]s. *)
Inductive ValueError : Set :=
| RateNotPositive | BurstNotPositive | MaxInflightNotPositive | TtlNotPositive
| MaxFrameBytesNotPositive | FrameBytesNegative | UnknownToken.

Definition _TOKEN_SEED : Z := 1.

(** [ig_inflight] is the dict from token to its slot's [admitted_at], in insertion order. *)
Record PerAdapterIngressGate := {
  ig_adapter_id : string;
  ig_rate : Q;
  ig_burst : Z;
  ig_max_inflight : Z;
  ig_ttl_seconds : Q;
  ig_max_frame_bytes : Z;
  ig_tokens : Q;
  ig_last_refill : Q;
  ig_inflight : list (Z * Q);
  ig_next_token : Z
}.

Definition init (adapter_id : string) (sustained_rate_per_s : Q) (burst max_inflight : Z)
    (ttl_seconds : Q) (max_frame_bytes : Z) (now : Q) : result ValueError PerAdapterIngressGate :=
  if Qle_bool sustained_rate_per_s 0 then Err RateNotPositive
  else if burst <=? 0 then Err BurstNotPositive
  else if max_inflight <=? 0 then Err MaxInflightNotPositive
  else if Qle_bool ttl_seconds 0 then Err TtlNotPositive
  else if max_frame_bytes <=? 0 then Err MaxFrameBytesNotPositive
  else Ok {| ig_adapter_id := adapter_id; ig_rate := sustained_rate_per_s; ig_burst := burst;
             ig_max_inflight := max_inflight; ig_ttl_seconds := ttl_seconds;
             ig_max_frame_bytes := max_frame_bytes; ig_tokens := inject_Z burst;
             ig_last_refill := now; ig_inflight := []; ig_next_token := _TOKEN_SEED |}.

Definition set_bucket (g : PerAdapterIngressGate) (tokens last : Q) : PerAdapterIngressGate :=
  {| ig_adapter_id := ig_adapter_id g; ig_rate := ig_rate g; ig_burst := ig_burst g;
     ig_max_inflight := ig_max_inflight g; ig_ttl_seconds := ig_ttl_seconds g;
     ig_max_frame_bytes := ig_max_frame_bytes g; ig_tokens := tokens; ig_last_refill := last;
     ig_inflight := ig_inflight g; ig_next_token := ig_next_token g |}.
Definition set_inflight (g : PerAdapterIngressGate) (l : list (Z * Q)) (next : Z) : PerAdapterIngressGate :=
  {| ig_adapter_id := ig_adapter_id g; ig_rate := ig_rate g; ig_burst := ig_burst g;
     ig_max_inflight := ig_max_inflight g; ig_ttl_seconds := ig_ttl_seconds g;
     ig_max_frame_bytes := ig_max_frame_bytes g; ig_tokens := ig_tokens g;
     ig_last_refill := ig_last_refill g; ig_inflight := l; ig_next_token := next |}.

Definition inflight_count (g : PerAdapterIngressGate) : Z := Zlen (ig_inflight g).

(** ** Methods *)
Definition _refill (now : Q) (g : PerAdapterIngressGate) : PerAdapterIngressGate :=
  if Qle_bool now (ig_last_refill g) then g
  else let elapsed := (now - ig_last_refill g)%Q in
       set_bucket g (py_min (inject_Z (ig_burst g)) (ig_tokens g + elapsed * ig_rate g)) now.

Definition refused (d : IngressDecision) : AdmitResult := {| ar_decision := d; ar_token := None |}.

Definition try_admit (frame_bytes : Z) (now_refill now_admit : Q)
    : M PerAdapterIngressGate ValueError AdmitResult :=
  g <-- get;
  raise_if frame_bytes <? 0 with FrameBytesNegative;
  if ig_max_frame_bytes g <? frame_bytes then ret (refused OVERSIZED) else
  modify (_refill now_refill);;;
  g <-- get;
  if Qltb (ig_tokens g) 1 then ret (refused THROTTLED_RATE) else
  if ig_max_inflight g <=? Zlen (ig_inflight g) then ret (refused THROTTLED_INFLIGHT) else
  let token := ig_next_token g in
  put (set_inflight (set_bucket g (ig_tokens g - 1) (ig_last_refill g))
                    (ig_inflight g ++ [(token, now_admit)]) (token + 1));;;
  ret {| ar_decision := ADMITTED; ar_token := Some token |}.

Definition has_token (token : Z) (l : list (Z * Q)) : bool :=
  existsb (fun slot => slot.1 =? token) l.
Definition del_token (token : Z) (l : list (Z * Q)) : list (Z * Q) :=
  filter (fun slot => slot.1 <> token) l.

Definition release (token : Z) : M PerAdapterIngressGate ValueError unit :=
  g <-- get;
  if has_token token (ig_inflight g)
  then put (set_inflight g (del_token token (ig_inflight g)) (ig_next_token g))
  else if (_TOKEN_SEED <=? token) && (token <? ig_next_token g) then ret tt
  else raise UnknownToken.

Definition stalled (ttl now : Q) (slot : Z * Q) : bool := Qltb ttl (now - slot.2).

Definition evict_stalled (now : Q) : M PerAdapterIngressGate ValueError (list Z) :=
  g <-- get;
  let evicted := fst <$> filter (fun slot => stalled (ig_ttl_seconds g) now slot = true) (ig_inflight g) in
  put (set_inflight g (foldl (fun l token => del_token token l) (ig_inflight g) evicted)
                    (ig_next_token g));;;
  ret evicted.

(** Any call on the gate. *)
Inductive op :=
| TryAdmit (frame_bytes : Z) (now_refill now_admit : Q)
| Release (token : Z)
| EvictStalled (now : Q).

Definition is_admitted (r : result ValueError AdmitResult) : bool :=
  match r with Ok {| ar_decision := ADMITTED |} => true | _ => false end.

(** The step counts the admissions it made. *)
Definition step (o : op) (g : PerAdapterIngressGate) : Z * PerAdapterIngressGate :=
  match o with
  | TryAdmit n now1 now2 => let '(r, g') := try_admit n now1 now2 g in
                            (if is_admitted r then 1 else 0, g')
  | Release token => (0, (release token g).2)
  | EvictStalled now => (0, (evict_stalled now g).2)
  end.

(** ** The invariant *)
Record wf (g : PerAdapterIngressGate) : Prop := {
  wf_rate : (0 < ig_rate g)%Q;
  wf_burst : 0 < ig_burst g;
  wf_tokens : (0 <= ig_tokens g <= inject_Z (ig_burst g))%Q;
  wf_inflight : Zlen (ig_inflight g) <= ig_max_inflight g;
  wf_unique : NoDup (fst <$> ig_inflight g);
  wf_issued : forall token at_, (token, at_) ∈ ig_inflight g ->
              _TOKEN_SEED <= token < ig_next_token g;
  wf_next : _TOKEN_SEED <= ig_next_token g
}.

Lemma wf_init_gate id rate burst maxi ttl maxb now g :
  init id rate burst maxi ttl maxb now = Ok g ->
  wf g /\ ig_rate g = rate /\ ig_burst g = burst /\ ig_last_refill g = now /\
  ig_max_inflight g = maxi /\ ig_inflight g = [].
Proof.
  unfold init. intros H. destruct (Qleb_spec rate 0); [done|].
  destruct (Z.leb_spec burst 0); [done|]. destruct (Z.leb_spec maxi 0); [done|].
  destruct (Qleb_spec ttl 0); [done|]. destruct (Z.leb_spec maxb 0); [done|]. simplify_eq. split_and!; try done.
  split; simpl; try done.
  - split; [|lra]. change 0%Q with (inject_Z 0). rewrite <- Zle_Qle. lia.
  - unfold Zlen. simpl. lia.
  - constructor.
  - by intros ?? ?%elem_of_nil.
Qed.

(** ** Lemmas: the refill *)
Lemma refill_spec now g :
  wf g ->
  let g' := _refill now g in
  wf g' /\ g' = set_bucket g (ig_tokens g') (ig_last_refill g') /\
  (ig_last_refill g <= ig_last_refill g')%Q /\
  ig_last_refill g' = (if Qle_bool now (ig_last_refill g) then ig_last_refill g else now) /\
  (ig_tokens g <= ig_tokens g' <= ig_tokens g + ig_rate g * (ig_last_refill g' - ig_last_refill g))%Q.
Proof.
  intros Hwf. pose proof Hwf as []. unfold _refill. destruct (Qleb_spec now (ig_last_refill g)).
  { split_and!; try done; try lra. by destruct g. }
  assert (0 <= (now - ig_last_refill g) * ig_rate g)%Q by (apply Qmult_le_0_compat; lra).
  set (el := ((now - ig_last_refill g) * ig_rate g)%Q) in *.
  assert (Hel : (el == ig_rate g * (now - ig_last_refill g))%Q) by (unfold el; ring).
  assert (Hmin : (ig_tokens g <= py_min (inject_Z (ig_burst g)) (ig_tokens g + el) <=
                  ig_tokens g + el)%Q /\
                 (py_min (inject_Z (ig_burst g)) (ig_tokens g + el) <= inject_Z (ig_burst g))%Q).
  { unfold py_min. cmp_case; lra. }
  split_and!; simpl; try done; try lra. split; simpl; try done. lra.
Qed.

Lemma try_admit_spec n now1 now2 g :
  0 <= n ->
  try_admit n now1 now2 g =
    if ig_max_frame_bytes g <? n then (Ok (refused OVERSIZED), g) else
    let g1 := _refill now1 g in
    if Qltb (ig_tokens g1) 1 then (Ok (refused THROTTLED_RATE), g1) else
    if ig_max_inflight g1 <=? Zlen (ig_inflight g1) then (Ok (refused THROTTLED_INFLIGHT), g1) else
    (Ok {| ar_decision := ADMITTED; ar_token := Some (ig_next_token g1) |},
     set_inflight (set_bucket g1 (ig_tokens g1 - 1) (ig_last_refill g1))
       (ig_inflight g1 ++ [(ig_next_token g1, now2)]) (ig_next_token g1 + 1)).
Proof.
  intros. unfold try_admit, bind, get, put, modify, ret, raise.
  destruct (Z.ltb_spec n 0); [lia|]. by repeat case_match.
Qed.

Lemma wf_admit g now2 :
  wf g -> (1 <= ig_tokens g)%Q -> Zlen (ig_inflight g) < ig_max_inflight g ->
  wf (set_inflight (set_bucket g (ig_tokens g - 1) (ig_last_refill g))
        (ig_inflight g ++ [(ig_next_token g, now2)]) (ig_next_token g + 1)).
Proof.
  intros [] ? ?. split; simpl; try done; [lra|rewrite Zlen_app, Zlen_singleton; lia| | |lia].
  - rewrite fmap_app. apply NoDup_app. split_and!; [done| |apply NoDup_singleton].
    intros t Ht Ht'%list_elem_of_singleton. apply list_elem_of_fmap in Ht as ([t' at_] & -> & Ht).
    apply wf_issued0 in Ht. simpl in *. lia.
  - intros t at_ [Ht|?%list_elem_of_singleton]%elem_of_app; simplify_eq; [|lia].
    apply wf_issued0 in Ht. lia.
Qed.

(** ** Lemmas: the slots *)
Lemma has_token_spec token l : has_token token l = true <-> token ∈ fst <$> l.
Proof.
  unfold has_token. rewrite existsb_exists, list_elem_of_fmap.
  setoid_rewrite Z.eqb_eq. setoid_rewrite list_elem_of_In. naive_solver.
Qed.

Lemma del_token_spec token t at_ l : (t, at_) ∈ del_token token l <-> (t, at_) ∈ l /\ t <> token.
Proof. unfold del_token. rewrite list_elem_of_filter. simpl. tauto. Qed.

Lemma del_token_length token l :
  NoDup (fst <$> l) -> token ∈ fst <$> l -> Zlen (del_token token l) = Zlen l - 1.
Proof.
  induction l as [|[t a] l IH]; simpl; [by intros _ ?%elem_of_nil|].
  intros [Hn Hnd]%NoDup_cons Hin. unfold del_token. rewrite filter_cons. simpl.
  destruct (decide (t <> token)) as [Ht|Ht].
  - rewrite !Zlen_cons. fold (del_token token l). rewrite IH; [lia|done|].
    by apply elem_of_cons in Hin as [->|?].
  - assert (t = token) as -> by lia. rewrite Zlen_cons.
    rewrite filter_all; [lia|]. intros [t2 a2] Hx Heq. simpl in Heq. subst t2. apply Hn.
    apply list_elem_of_fmap. by exists (token, a2).
Qed.

Lemma del_token_absent token l : token ∉ fst <$> l -> del_token token l = l.
Proof.
  intros Hn. apply filter_all. intros [t a] Hx ?. simpl in *. subst t. apply Hn.
  apply list_elem_of_fmap. by exists (token, a).
Qed.

Lemma filter_sublist_fst (P : Z * Q -> Prop) `{!forall x, Decision (P x)} (l : list (Z * Q)) :
  NoDup (fst <$> l) -> NoDup (fst <$> filter P l).
Proof. intros. eapply sublist_NoDup; [done|]. apply fmap_sublist, sublist_filter. Qed.

Lemma del_all_spec evicted l :
  foldl (fun l token => del_token token l) l evicted = filter (fun slot => slot.1 ∉ evicted) l.
Proof.
  revert l. induction evicted as [|t evicted IH]; intros l; simpl.
  { rewrite filter_all; [done|]. intros ??. apply not_elem_of_nil. }
  rewrite IH. unfold del_token. rewrite list_filter_filter. apply list_filter_iff.
  intros [t' a]. simpl. rewrite not_elem_of_cons. tauto.
Qed.

(** Evicting keeps exactly the slots still within the TTL. *)
Lemma evict_stalled_spec now g :
  wf g ->
  evict_stalled now g =
    (Ok (fst <$> filter (fun slot => stalled (ig_ttl_seconds g) now slot = true) (ig_inflight g)),
     set_inflight g (filter (fun slot => stalled (ig_ttl_seconds g) now slot = false) (ig_inflight g))
                  (ig_next_token g)).
Proof.
  intros []. unfold evict_stalled, bind, get, put, ret. f_equal. f_equal.
  rewrite del_all_spec. set (p := stalled (ig_ttl_seconds g) now).
  assert (Hp : forall x, x ∈ ig_inflight g ->
    (x.1 ∉ (filter (fun slot => p slot = true) (ig_inflight g)).*1 <-> p x = false)).
  { intros [t a] Hx. simpl. rewrite list_elem_of_fmap. split.
    - intros Hn. destruct (p (t, a)) eqn:Hpx; [|done]. destruct Hn. exists (t, a).
      split; [done|]. by apply list_elem_of_filter.
    - intros Hpx ([t' a'] & Ht & [Hp' Hx']%list_elem_of_filter). simpl in *. subst t'.
      rewrite (NoDup_fst_inj (ig_inflight g) t a a') in Hpx by done. congruence. }
  by rewrite (filter_ext_in _ _ _ Hp).
Qed.

Lemma wf_shrink g (P : Z * Q -> Prop) `{!forall x, Decision (P x)} :
  wf g -> wf (set_inflight g (filter P (ig_inflight g)) (ig_next_token g)).
Proof.
  intros []. split; simpl; try done.
  - unfold Zlen in *. pose proof (sublist_length _ _ (sublist_filter P (ig_inflight g))). lia.
  - by apply filter_sublist_fst.
  - intros t a [_ ?]%list_elem_of_filter. eauto.
Qed.

(** ** The steps *)
Lemma gate_release_cases token g :
  release token g =
    if has_token token (ig_inflight g)
    then (Ok tt, set_inflight g (del_token token (ig_inflight g)) (ig_next_token g))
    else (if (_TOKEN_SEED <=? token) && (token <? ig_next_token g) then Ok tt else Err UnknownToken, g).
Proof. unfold release, bind, get, put, ret, raise. by repeat case_match. Qed.

Lemma set_bucket_last g t l : ig_last_refill (set_bucket g t l) = l. Proof. done. Qed.

#[export] Instance gate_bucket : TokenBucket PerAdapterIngressGate op := {
  tb_step := step;
  tb_tokens := ig_tokens;
  tb_clock := ig_last_refill;
  tb_rate := ig_rate;
  tb_capacity := fun g => inject_Z (ig_burst g);
  tb_wf := wf
}.

#[export] Instance gate_bucket_laws : TokenBucketLaws PerAdapterIngressGate op.
Proof.
  split.
  { intros g []. simpl. split; [done|qlra]. }
  intros o g Hwf. destruct o as [n now1 now2|token|now]; cbn [tb_step gate_bucket step].
  - destruct (Z.lt_ge_cases n 0).
    { unfold try_admit, bind, get, raise. destruct (Z.ltb_spec n 0); [|lia]. simpl.
      split_and!; try done; qlra. }
    rewrite try_admit_spec by done. destruct (ig_max_frame_bytes g <? n).
    { simpl. split_and!; try done; qlra. }
    destruct (refill_spec now1 g Hwf) as (Hwf1 & Heq & Hl & _ & Ht).
    set (g1 := _refill now1 g) in *. cbv zeta.
    assert (ig_rate g1 = ig_rate g /\ ig_burst g1 = ig_burst g) as [Hr Hb]
      by (rewrite Heq; done).
    destruct (Qltb_spec (ig_tokens g1) 1).
    { simpl. rewrite Hr, Hb. split_and!; try done; qlra. }
    destruct (Z.leb_spec (ig_max_inflight g1) (Zlen (ig_inflight g1))).
    { simpl. rewrite Hr, Hb. split_and!; try done; qlra. }
    cbn -[inject_Z]. rewrite Hr, Hb.
    split_and!; try done; [by apply wf_admit|qlra].
  - rewrite gate_release_cases. cbn -[inject_Z].
    destruct (has_token _ _); simpl; split_and!; try done; try qlra. by apply wf_shrink.
  - rewrite evict_stalled_spec by done. cbn -[inject_Z].
    split_and!; try done; try qlra. by apply wf_shrink.
Qed.

Lemma gate_step_wf (o : op) (g : PerAdapterIngressGate) : wf g -> wf (step o g).2.
Proof. intros H. exact (proj1 (tb_step_ok (B := PerAdapterIngressGate) (Ev := op) o g H)). Qed.
Lemma gate_try_admit_wf n now1 now2 g : wf g -> wf (try_admit n now1 now2 g).2.
Proof.
  intros H. pose proof (gate_step_wf (TryAdmit n now1 now2) g H) as Hs. simpl in Hs.
  by destruct (try_admit n now1 now2 g).
Qed.
Lemma gate_release_wf token g : wf g -> wf (release token g).2.
Proof. apply (gate_step_wf (Release token)). Qed.
Lemma gate_evict_wf now g : wf g -> wf (evict_stalled now g).2.
Proof. apply (gate_step_wf (EvictStalled now)). Qed.
Lemma gate_run_wf (ops : list op) (g : PerAdapterIngressGate) : wf g -> wf (tb_run ops g).2.
Proof. intros H. exact (proj1 (tb_run_ok (B := PerAdapterIngressGate) (Ev := op) ops g H)). Qed.

Lemma step_clock o g T :
  wf g -> (ig_last_refill g <= T)%Q ->
  (forall n now1 now2, o = TryAdmit n now1 now2 -> (now1 <= T)%Q) ->
  (ig_last_refill (step o g).2 <= T)%Q.
Proof.
  intros Hwf Hg Hr. destruct o as [n now1 now2|token|now]; cbn [step].
  - specialize (Hr n now1 now2 eq_refl). destruct (Z.lt_ge_cases n 0).
    { unfold try_admit, bind, get, raise. by destruct (Z.ltb_spec n 0); [|lia]. }
    rewrite try_admit_spec by done. destruct (refill_spec now1 g Hwf) as (_ & _ & _ & Hl & _).
    cbv zeta. repeat case_match; simplify_eq; simpl; rewrite ?Hl; try done; by case_match.
  - rewrite gate_release_cases. by case_match.
  - by rewrite evict_stalled_spec.
Qed.

Lemma run_clock ops g T :
  wf g -> (ig_last_refill g <= T)%Q ->
  (forall n now1 now2, TryAdmit n now1 now2 ∈ ops -> (now1 <= T)%Q) ->
  (ig_last_refill (tb_run ops g).2 <= T)%Q.
Proof.
  revert g. induction ops as [|o ops IH]; intros g Hwf Hg Hr; [done|]. simpl.
  assert (Ho : (ig_last_refill (step o g).2 <= T)%Q).
  { apply step_clock; [done|done|]. intros n now1 now2 ->. apply (Hr n now1 now2). set_solver. }
  pose proof (gate_step_wf o g Hwf) as Hwf'.
  destruct (step o g) as [k g1]. simpl in *.
  specialize (IH g1 Hwf' Ho). destruct (tb_run ops g1). simpl in *. apply IH.
  intros n now1 now2 Hin. apply (Hr n now1 now2). set_solver.
Qed.

(** A gate as some sequence of calls leaves it after a successful construction. *)
Definition reachable (g : PerAdapterIngressGate) : Prop :=
  exists id rate burst maxi ttl maxb now0 g0 ops,
    init id rate burst maxi ttl maxb now0 = Ok g0 /\ g = (tb_run ops g0).2.

Lemma gate_reachable_wf g : reachable g -> wf g.
Proof.
  intros (id & rate & burst & maxi & ttl & maxb & now0 & g0 & ops & Hi & ->).
  apply wf_init_gate in Hi as [Hwf _]. by apply gate_run_wf.
Qed.

(** A gate of two frames a second, burst 3, two slots, for the witnesses. *)
Definition sample_gate : PerAdapterIngressGate :=
  {| ig_adapter_id := "discord"; ig_rate := 2; ig_burst := 3; ig_max_inflight := 2;
     ig_ttl_seconds := 10; ig_max_frame_bytes := 64; ig_tokens := 3; ig_last_refill := 0;
     ig_inflight := []; ig_next_token := 1 |}.
Definition sample_ops : list op :=
  [TryAdmit 10 0 0; TryAdmit 10 0 0; TryAdmit 10 0 0; Release 1; TryAdmit 100 0 0;
   TryAdmit 10 0 0; TryAdmit 10 (1#4) (1#4); EvictStalled 11; TryAdmit 10 11 11].
Lemma sample_gate_reachable ops : reachable (tb_run ops sample_gate).2.
Proof. exists "discord"%string, 2%Q, 3, 2, 10%Q, 64, 0%Q, sample_gate, ops. done. Qed.

(** ** Theorems *)

(** A gate built at time [now0] admits, over any sequence of calls whose refill
    readings are at most [T], at most [burst + rate * (T - now0)] frames: no schedule,
    idle period or clock regression accrues more. *)
Theorem ingress_admissions_rate_bounded id rate burst maxi ttl maxb now0 g0 ops T :
  init id rate burst maxi ttl maxb now0 = Ok g0 ->
  (now0 <= T)%Q ->
  (forall n now1 now2, TryAdmit n now1 now2 ∈ ops -> (now1 <= T)%Q) ->
  (inject_Z (tb_run ops g0).1 <= inject_Z burst + rate * (T - now0))%Q.
Proof.
  intros (Hwf & Hr & Hb & Hl & _)%wf_init_gate HT Hops. rewrite <- Hl in HT.
  pose proof (grants_bounded (B := PerAdapterIngressGate) (Ev := op) ops g0 Hwf) as Hg. pose proof (run_clock ops g0 T Hwf HT Hops) as Hc.
  destruct (tb_run ops g0) as [n g']. simpl in *. rewrite Hr, Hb, Hl in Hg. subst rate now0.
  assert (ig_rate g0 * (ig_last_refill g' - ig_last_refill g0) <=
          ig_rate g0 * (T - ig_last_refill g0))%Q; [|lra].
  pose proof (wf_rate g0 Hwf). apply Qmult_le_l; [done|lra].
Qed.

Lemma ingress_admissions_rate_bounded_witness :
  (tb_run sample_ops sample_gate).1 = 4 /\
  (inject_Z (tb_run sample_ops sample_gate).1 <= inject_Z 3 + 2 * (11 - 0))%Q.
Proof.
  split; [vm_compute; reflexivity|].
  apply (ingress_admissions_rate_bounded "discord" 2 3 2 10 64 0 sample_gate sample_ops 11).
  - reflexivity.
  - vm_compute. discriminate.
  - intros n now1 now2 Hin. unfold sample_ops in Hin.
    repeat (apply elem_of_cons in Hin as [Hin|Hin]; [inversion Hin; vm_compute; discriminate|]).
    by apply elem_of_nil in Hin.
Defined.

(** On a reachable gate a frame is admitted exactly when it fits the frame bound, the
    refilled bucket holds a whole token and a slot is free; a refusal of any tier holds
    no slot, mints no token and takes nothing from the bucket. *)
Theorem ingress_admits_iff g n now1 now2 r g' :
  reachable g -> 0 <= n -> try_admit n now1 now2 g = (Ok r, g') ->
  let refilled := _refill now1 g in
  (ar_decision r = ADMITTED <->
     n <= ig_max_frame_bytes g /\ (1 <= ig_tokens refilled)%Q /\ inflight_count g < ig_max_inflight g) /\
  (ar_decision r <> ADMITTED ->
     ar_token r = None /\ ig_inflight g' = ig_inflight g /\ ig_next_token g' = ig_next_token g /\
     (ig_tokens g <= ig_tokens g')%Q) /\
  (ar_decision r = ADMITTED ->
     ar_token r = Some (ig_next_token g) /\
     ig_inflight g' = ig_inflight g ++ [(ig_next_token g, now2)] /\
     (ig_next_token g ∉ (fst <$> ig_inflight g)) /\ inflight_count g' <= ig_max_inflight g).
Proof.
  intros Hwf%gate_reachable_wf Hn. rewrite try_admit_spec by done. cbv zeta.
  destruct (refill_spec now1 g Hwf) as (Hwf1 & Heq & _ & _ & Ht).
  set (g1 := _refill now1 g) in *. unfold inflight_count.
  assert (ig_inflight g1 = ig_inflight g /\ ig_next_token g1 = ig_next_token g /\
          ig_max_inflight g1 = ig_max_inflight g) as (Hi & Hnt & Hm) by (rewrite Heq; done).
  rewrite Hi, Hm. assert (Hfresh : ig_next_token g ∉ fst <$> ig_inflight g).
  { intros ([t a] & Hta & Hin)%list_elem_of_fmap. apply (wf_issued g Hwf) in Hin.
    simpl in *. lia. }
  destruct (Z.ltb_spec (ig_max_frame_bytes g) n); [|destruct (Qltb_spec (ig_tokens g1) 1);
    [|destruct (Z.leb_spec (ig_max_inflight g) (Zlen (ig_inflight g)))]];
    intros ?; simplify_eq; simpl; rewrite ?Hnt, ?Zlen_app, ?Zlen_singleton.
  all: split_and!; try done; try (by split_and!; try done; (lra || lia)).
  all: try (intros; split_and!; try done; (lra || lia)).
  all: try (split; [done|]; intros (? & ? & ?); (lra || lia)).
Qed.

Lemma ingress_admits_iff_witness :
  let g := (tb_run [TryAdmit 10 0 0; TryAdmit 10 0 0] sample_gate).2 in
  ar_decision (refused THROTTLED_INFLIGHT) = ADMITTED <->
    10 <= ig_max_frame_bytes g /\ (1 <= ig_tokens (_refill 5 g))%Q /\
    inflight_count g < ig_max_inflight g.
Proof.
  eapply (ingress_admits_iff _ 10 5 5); [apply sample_gate_reachable|lia|].
  vm_compute. reflexivity.
Defined.

(** On a reachable gate [release] frees exactly the slot of a held token, is a no-op
    for a token already reclaimed, and fails loud on one this gate never issued; the
    stalled sweep returns and frees exactly the slots held longer than the TTL. *)
Theorem ingress_slots_released_exactly g token now :
  reachable g ->
  (token ∈ fst <$> ig_inflight g ->
     exists g', release token g = (Ok tt, g') /\ inflight_count g' = inflight_count g - 1 /\
       forall t a, (t, a) ∈ ig_inflight g' <-> (t, a) ∈ ig_inflight g /\ t <> token) /\
  (token ∉ fst <$> ig_inflight g ->
     release token g =
       (if decide (_TOKEN_SEED <= token < ig_next_token g) then Ok tt else Err UnknownToken, g)) /\
  exists swept g', evict_stalled now g = (Ok swept, g') /\
    (forall t, t ∈ swept <-> exists a, (t, a) ∈ ig_inflight g /\ (ig_ttl_seconds g < now - a)%Q) /\
    (forall t a, (t, a) ∈ ig_inflight g' <-> (t, a) ∈ ig_inflight g /\ (now - a <= ig_ttl_seconds g)%Q).
Proof.
  intros Hwf%gate_reachable_wf. rewrite gate_release_cases, evict_stalled_spec by done. split_and!.
  - intros Hin. rewrite (proj2 (has_token_spec _ _) Hin). eexists. split; [done|]. split.
    + unfold inflight_count. simpl. rewrite del_token_length; [done|apply (wf_unique g Hwf)|done].
    + intros t a. simpl. apply del_token_spec.
  - intros Hn. destruct (has_token token (ig_inflight g)) eqn:Hh.
    { by apply has_token_spec in Hh. }
    destruct (Z.leb_spec _TOKEN_SEED token), (Z.ltb_spec token (ig_next_token g)); simpl;
      case_decide; try done; lia.
  - eexists _, _. split; [done|]. unfold stalled. split.
    + intros t. rewrite list_elem_of_fmap. setoid_rewrite list_elem_of_filter. split.
      * intros ([t' a] & -> & Hs & Hin). exists a. split; [done|]. simpl in Hs. by cmp_cases.
      * intros (a & Hin & Hs). exists (t, a). split_and!; try done. simpl. cmp_case; [done|lra].
    + intros t a. simpl. rewrite list_elem_of_filter. simpl. split.
      * intros [Hs Hin]. split; [done|]. by cmp_cases.
      * intros [Hin Hs]. split; [|done]. cmp_case; [lra|done].
Qed.

Lemma ingress_slots_released_exactly_witness :
  let g := (tb_run [TryAdmit 10 0 0; TryAdmit 10 4 4] sample_gate).2 in
  exists swept g', evict_stalled 11 g = (Ok swept, g') /\
    (forall t, t ∈ swept <-> exists a, (t, a) ∈ ig_inflight g /\ (ig_ttl_seconds g < 11 - a)%Q) /\
    (forall t a, (t, a) ∈ ig_inflight g' <-> (t, a) ∈ ig_inflight g /\ (11 - a <= ig_ttl_seconds g)%Q).
Proof.
  eapply (ingress_slots_released_exactly _ 1 11). apply sample_gate_reachable.
Defined.
