(* ===== verification/GatewayLeg.v ===== *)
(** * [gateway/gateway_leg.py]: one adapter leg

    The leg owns its replay buffer, its ingress gate, its per-connection send seq and
    its generation; the global cap is shared by all legs, so a method runs on the pair
    of the leg and the ledger.  The ledger is any [ByteLedger]: the theorems rest on
    its laws, and [GlobalReplayCap.cap_ledger] provides them for the real class.  The
    two gauges are the last values pushed on the leg's prometheus series.  Each clock
    reading of [self._now()] is an argument. *)
From S2P Require Import Prelude ReplayBuffer GlobalReplayCap TokenBucket IngressGate.
From Stdlib Require Import Strings.Byte.

Record GatewayLeg := {
  lg_adapter_id : string;
  lg_buffer : ReplayBuffer;
  lg_ingress_gate : PerAdapterIngressGate;
  lg_send_seq : Z;
  lg_generation : Z;
  lg_gauge_frames : Z;
  lg_gauge_bytes : Z
}.

(** [__init__]: the seq and the generation start at 0 and the gauges are pushed. *)
Definition init (adapter_id : string) (buffer : ReplayBuffer) (gate : PerAdapterIngressGate) : GatewayLeg :=
  {| lg_adapter_id := adapter_id; lg_buffer := buffer; lg_ingress_gate := gate;
     lg_send_seq := 0; lg_generation := 0;
     lg_gauge_frames := ReplayBuffer.depth_frames buffer;
     lg_gauge_bytes := ReplayBuffer.depth_bytes buffer |}.

Definition set_buffer (g : GatewayLeg) (b : ReplayBuffer) : GatewayLeg :=
  {| lg_adapter_id := lg_adapter_id g; lg_buffer := b; lg_ingress_gate := lg_ingress_gate g;
     lg_send_seq := lg_send_seq g; lg_generation := lg_generation g;
     lg_gauge_frames := lg_gauge_frames g; lg_gauge_bytes := lg_gauge_bytes g |}.
Definition set_gate (g : GatewayLeg) (ig : PerAdapterIngressGate) : GatewayLeg :=
  {| lg_adapter_id := lg_adapter_id g; lg_buffer := lg_buffer g; lg_ingress_gate := ig;
     lg_send_seq := lg_send_seq g; lg_generation := lg_generation g;
     lg_gauge_frames := lg_gauge_frames g; lg_gauge_bytes := lg_gauge_bytes g |}.
Definition set_seq (g : GatewayLeg) (seq generation : Z) : GatewayLeg :=
  {| lg_adapter_id := lg_adapter_id g; lg_buffer := lg_buffer g; lg_ingress_gate := lg_ingress_gate g;
     lg_send_seq := seq; lg_generation := generation;
     lg_gauge_frames := lg_gauge_frames g; lg_gauge_bytes := lg_gauge_bytes g |}.

(** ** Properties of the object *)
Definition adapter_id (g : GatewayLeg) : string := lg_adapter_id g.
Definition depth_frames (g : GatewayLeg) : Z := ReplayBuffer.depth_frames (lg_buffer g).
Definition depth_bytes (g : GatewayLeg) : Z := ReplayBuffer.depth_bytes (lg_buffer g).
Definition cap_ratio (g : GatewayLeg) : Q := ReplayBuffer.cap_ratio (lg_buffer g).
Definition breaker_tripped (g : GatewayLeg) : bool := ReplayBuffer.breaker_tripped (lg_buffer g).
Definition inflight_count (g : GatewayLeg) : Z := IngressGate.inflight_count (lg_ingress_gate g).
Definition last_seq (g : GatewayLeg) : Z := lg_send_seq g - 1.
Definition generation (g : GatewayLeg) : Z := lg_generation g.
Definition unacked_frames (g : GatewayLeg) : list (Z * list byte) :=
  (fun f => (rf_seq f, rf_payload f)) <$> ReplayBuffer.unacked_frames (lg_buffer g).

(** [_refresh_buffer_metrics] *)
Definition refresh_gauges (g : GatewayLeg) : GatewayLeg :=
  {| lg_adapter_id := lg_adapter_id g; lg_buffer := lg_buffer g; lg_ingress_gate := lg_ingress_gate g;
     lg_send_seq := lg_send_seq g; lg_generation := lg_generation g;
     lg_gauge_frames := depth_frames g; lg_gauge_bytes := depth_bytes g |}.

(** What a leg method can raise, by the class that raises it. *)
Inductive LegError (LE : Type) : Type :=
| BufferError (e : ReplayBufferError)
| LedgerError (e : LE)
| GateError (e : ValueError).
Arguments BufferError {LE} e.
Arguments LedgerError {LE} e.
Arguments GateError {LE} e.

Section leg.
Context {L LE : Type} `{!ByteLedger L LE}.

Definition LegM (A : Type) : Type := M (GatewayLeg * L) (LegError LE) A.

(** Calls on the owned objects and on the shared cap. *)
Definition on_buffer {A} (m : M ReplayBuffer ReplayBufferError A) : LegM A :=
  fun '(g, l) => let '(r, b) := m (lg_buffer g) in
                 (match r with Ok a => Ok a | Err e => Err (BufferError e) end, (set_buffer g b, l)).
Definition on_gate {A} (m : M PerAdapterIngressGate ValueError A) : LegM A :=
  fun '(g, l) => let '(r, ig) := m (lg_ingress_gate g) in
                 (match r with Ok a => Ok a | Err e => Err (GateError e) end, (set_gate g ig, l)).
Definition on_cap {A} (m : M L LE A) : LegM A :=
  fun '(g, l) => let '(r, l') := m l in
                 (match r with Ok a => Ok a | Err e => Err (LedgerError e) end, (g, l')).

(** [try: m except ReplayBufferError: handler; raise] *)
Definition except_buffer {A} (m : LegM A) (handler : LegM unit) : LegM A :=
  fun s => match m s with
           | (Err (BufferError e), s') => (handler;;; raise (BufferError e)) s'
           | out => out
           end.

Definition _refresh_buffer_metrics : LegM unit := modify (fun '(g, l) => (refresh_gauges g, l)).

Definition try_admit (frame_bytes : Z) (now1 now2 : Q) : LegM AdmitResult :=
  on_gate (IngressGate.try_admit frame_bytes now1 now2).
Definition release_admit (token : Z) : LegM unit := on_gate (IngressGate.release token).
Definition evict_stalled_admits (now : Q) : LegM (list Z) := on_gate (IngressGate.evict_stalled now).

Definition record_for_send (payload : list byte) (now : Q) : LegM Z :=
  s <-- get;
  let id := lg_adapter_id s.1 in
  let n := Zlen payload in
  admitted <-- on_cap (ld_reserve id n);
  raise_if negb admitted with BufferError GlobalCapFull;
  s <-- get;
  let seq := lg_send_seq s.1 in
  modify (fun '(g, l) => (set_seq g (lg_send_seq g + 1) (lg_generation g), l));;;
  except_buffer (on_buffer (ReplayBuffer.append seq payload now))
                (on_cap (ld_release id n));;;
  _refresh_buffer_metrics;;;
  ret seq.

Definition _reclaim {A} (op : LegM A) : LegM A :=
  s <-- get;
  let before := depth_bytes s.1 in
  a <-- op;
  s <-- get;
  let freed := before - depth_bytes s.1 in
  (if freed =? 0 then ret tt else on_cap (ld_release (lg_adapter_id s.1) freed));;;
  _refresh_buffer_metrics;;;
  ret a.

Definition trim_to_ack (cumulative_ack : Z) : LegM unit :=
  _reclaim (on_buffer (ReplayBuffer.trim_to_ack cumulative_ack)).
Definition evict_expired (now : Q) : LegM (list Z) :=
  _reclaim (on_buffer (ReplayBuffer.evict_expired now)).
Definition discard : LegM unit := _reclaim (on_buffer ReplayBuffer.discard).
Definition reset_for_new_epoch : LegM unit :=
  _reclaim (on_buffer ReplayBuffer.reset_for_new_epoch;;;
            modify (fun '(g, l) => (set_seq g 0 (lg_generation g + 1), l))).
Definition teardown : LegM unit :=
  on_buffer ReplayBuffer.discard;;;
  s <-- get;
  on_cap (ld_remove (lg_adapter_id s.1));;;
  _refresh_buffer_metrics.
End leg.

Section leg_laws.
Context {L LE : Type} `{!ByteLedger L LE, !ByteLedgerLaws L LE}.

(** The leg's holding in the shared cap is exactly what its buffer retains. *)
Record leg_wf (g : GatewayLeg) (l : L) : Prop := {
  lw_buffer : ReplayBuffer.wf (lg_buffer g);
  lw_gate : IngressGate.wf (lg_ingress_gate g);
  lw_ledger : ld_wf l;
  lw_held : ld_held l (lg_adapter_id g) = depth_bytes g;
  lw_seq : rb_last_seq (lg_buffer g) < lg_send_seq g;
  lw_seq_nonneg : 0 <= lg_send_seq g;
  lw_gauges : lg_gauge_frames g = depth_frames g /\ lg_gauge_bytes g = depth_bytes g
}.

(** A method of the leg [id] leaves every other leg's holding alone. *)
Definition only_touches (id : string) (l l' : L) : Prop :=
  ld_wf l' /\ ld_ceiling l' = ld_ceiling l /\
  forall id', id' <> id -> ld_held l' id' = ld_held l id'.

Definition keeps (g : GatewayLeg) (l : L) (g' : GatewayLeg) (l' : L) : Prop :=
  leg_wf g' l' /\ lg_adapter_id g' = lg_adapter_id g /\ only_touches (lg_adapter_id g) l l'.

Lemma keeps_refl g l : leg_wf g l -> keeps g l g l.
Proof. intros Hwf. split_and!; try done. split_and!; try done. apply Hwf. Qed.

Lemma depth_bytes_nonneg g l : leg_wf g l -> 0 <= depth_bytes g.
Proof. intros []. rewrite <- lw_held0. by apply ld_bounds. Qed.

(** [_reclaim] around an operation that shrinks the buffer. *)
Lemma reclaim_ok {A} (op : LegM A) (a : A) g l g1 :
  leg_wf g l -> op (g, l) = (Ok a, (g1, l)) ->
  ReplayBuffer.wf (lg_buffer g1) -> depth_bytes g1 <= depth_bytes g ->
  lg_adapter_id g1 = lg_adapter_id g -> lg_ingress_gate g1 = lg_ingress_gate g ->
  rb_last_seq (lg_buffer g1) < lg_send_seq g1 -> 0 <= lg_send_seq g1 ->
  exists l', _reclaim op (g, l) = (Ok a, (refresh_gauges g1, l')) /\
             keeps g l (refresh_gauges g1) l'.
Proof.
  intros Hwf Hop Hb Hd Hid Hgate Hs Hs0. pose proof Hwf as [].
  unfold _reclaim, on_cap, bind, get, ret. rewrite Hop. cbn -[Z.sub].
  destruct (Z.eqb_spec (depth_bytes g - depth_bytes g1) 0) as [Heq|Hne].
  - exists l. split; [done|]. split_and!; [|done|split_and!; done].
    split; simpl; try done; [by rewrite Hgate|]. rewrite Hid. unfold depth_bytes in *. simpl. lia.
  - assert (0 <= depth_bytes g1).
    { unfold depth_bytes, ReplayBuffer.depth_bytes. rewrite <- fifo_bytes_abs by done.
      apply Zsum_nonneg. intros. apply Zlen_nonneg. }
    destruct (ld_release_spec l (lg_adapter_id g) (depth_bytes g - depth_bytes g1))
      as (l' & Hr & Hwf' & Hc & Hh); [done|lia|lia|apply ld_held_known; lia|].
    rewrite Hid, Hr. exists l'. split; [done|]. split_and!; [|done|split_and!; [done..|]].
    + split; simpl; try done; [by rewrite Hgate|]. rewrite Hid, Hh, decide_True by done.
      unfold depth_bytes in *. simpl. lia.
    + intros id' Hid'. rewrite Hh, decide_False by done. lia.
Qed.

Lemma reclaim_err {A} (op : LegM A) e g l :
  op (g, l) = (Err e, (g, l)) -> _reclaim op (g, l) = (Err e, (g, l)).
Proof. intros Hop. unfold _reclaim, bind, get. by rewrite Hop. Qed.

Lemma set_buffer_id g : set_buffer g (lg_buffer g) = g.
Proof. by destruct g. Qed.

Lemma trim_to_ack_ok ack g l :
  leg_wf g l -> exists g' l', trim_to_ack ack (g, l) = (Ok tt, (g', l')) /\ keeps g l g' l'.
Proof.
  intros Hwf. destruct (trim_shrinks (lg_buffer g) ack) as (b' & Heq & [Hb Hd] & Hs & _); [apply Hwf|].
  eexists (refresh_gauges (set_buffer g b')). unfold trim_to_ack.
  eapply reclaim_ok; simpl; try done; [|by rewrite Hs; apply Hwf|apply Hwf].
  unfold on_buffer. by rewrite Heq.
Qed.

Lemma trim_to_ack_frames ack g l :
  leg_wf g l -> exists g' l', trim_to_ack ack (g, l) = (Ok tt, (g', l')) /\
    unacked_frames g' = filter (fun p => ack < p.1) (unacked_frames g).
Proof.
  intros Hwf. destruct (trim_shrinks (lg_buffer g) ack) as (b' & Heq & [Hb Hd] & Hs & Hu); [apply Hwf|].
  edestruct (reclaim_ok (on_buffer (ReplayBuffer.trim_to_ack ack)) tt g l (set_buffer g b')) as (l' & Hr & _);
    simpl; try done; [by unfold on_buffer; rewrite Heq|by rewrite Hs; apply Hwf|apply Hwf|].
  exists (refresh_gauges (set_buffer g b')), l'. split; [done|].
  unfold unacked_frames. simpl. rewrite Hu. by rewrite list_filter_fmap.
Qed.

Lemma evict_expired_ok now g l :
  leg_wf g l ->
  evict_expired now (g, l) = (Err (BufferError NowNotMonotonic), (g, l)) \/
  exists out g' l', evict_expired now (g, l) = (Ok out, (g', l')) /\ keeps g l g' l'.
Proof.
  intros Hwf. destruct (evict_shrinks (lg_buffer g) now) as [Heq|(out & b' & Heq & [Hb Hd] & Hs)];
    [apply Hwf|left|right].
  - apply reclaim_err. unfold on_buffer. by rewrite Heq, set_buffer_id.
  - eexists out, (refresh_gauges (set_buffer g b')). unfold evict_expired.
    eapply reclaim_ok; simpl; try done; [|by rewrite Hs; apply Hwf|apply Hwf].
    unfold on_buffer. by rewrite Heq.
Qed.

Lemma discard_ok g l :
  leg_wf g l -> exists g' l', discard (g, l) = (Ok tt, (g', l')) /\ keeps g l g' l'.
Proof.
  intros Hwf. destruct (purge_shrinks (lg_buffer g)) as [[Hb Hd] _]; [apply Hwf|].
  eexists (refresh_gauges (set_buffer g (_purge (lg_buffer g)))). unfold discard.
  eapply reclaim_ok; simpl; try done; apply Hwf.
Qed.

Lemma reset_for_new_epoch_ok g l :
  leg_wf g l ->
  exists g' l', reset_for_new_epoch (g, l) = (Ok tt, (g', l')) /\ keeps g l g' l' /\
    lg_send_seq g' = 0 /\ lg_generation g' = lg_generation g + 1 /\ unacked_frames g' = [] /\
  lg_buffer g' = set_floor (_purge (lg_buffer g)) (-1) None.
Proof.
  intros Hwf. destruct (purge_shrinks (lg_buffer g)) as [[Hb Hd] _]; [apply Hwf|].
  set (b' := set_floor (_purge (lg_buffer g)) (-1) None).
  assert (Hb' : ReplayBuffer.wf b') by by apply wf_reset_floor.
  set (g' := refresh_gauges (set_seq (set_buffer g b') 0 (lg_generation g + 1))).
  exists g'. edestruct (reclaim_ok (on_buffer ReplayBuffer.reset_for_new_epoch;;;
    modify (fun '(g, l) => (set_seq g 0 (lg_generation g + 1), l))) tt g l) as (l' & Hr & Hk);
    [done|reflexivity|done|done|done|done|done|done|].
  exists l'. by split_and!.
Qed.

Lemma teardown_ok g l :
  leg_wf g l ->
  exists g' l', teardown (g, l) = (Ok tt, (g', l')) /\ keeps g l g' l' /\
    ld_held l' (lg_adapter_id g) = 0 /\ unacked_frames g' = [].
Proof.
  intros Hwf. pose proof Hwf as []. destruct (purge_shrinks (lg_buffer g)) as [[Hb Hd] _]; [done|].
  unfold teardown, bind, on_buffer, on_cap, get. cbn -[_purge].
  destruct (ld_remove_spec l (lg_adapter_id g)) as (l' & Hr & Hwf' & Hc & Hh); [done|].
  rewrite Hr. eexists _, l'. split; [done|].
  assert (Hz : ld_held l' (lg_adapter_id g) = 0) by (by rewrite Hh, decide_True).
  split_and!; try done. split_and!; [|done|split_and!; [done..|]].
  - split; simpl; try done.
  - intros id' Hid'. by rewrite Hh, decide_False.
Qed.

(** [record_for_send]: refused by the cap with nothing changed, refused by the buffer
    with the reservation given back, or recorded. *)
Lemma record_for_send_ok payload now g l :
  leg_wf g l ->
  (ld_ceiling l < ld_total l + Zlen payload /\
   record_for_send payload now (g, l) = (Err (BufferError GlobalCapFull), (g, l))) \/
  (exists e l', (e = NowNotMonotonic \/ e = HardCeiling) /\
     record_for_send payload now (g, l) =
       (Err (BufferError e), (set_seq g (lg_send_seq g + 1) (lg_generation g), l')) /\
     keeps g l (set_seq g (lg_send_seq g + 1) (lg_generation g)) l') \/
  (exists g' l', record_for_send payload now (g, l) = (Ok (lg_send_seq g), (g', l')) /\
     keeps g l g' l' /\ lg_send_seq g' = lg_send_seq g + 1 /\ lg_generation g' = lg_generation g /\
     unacked_frames g' = unacked_frames g ++ [(lg_send_seq g, payload)]).
Proof.
  intros Hwf. pose proof Hwf as []. pose proof (Zlen_nonneg payload) as Hn.
  unfold record_for_send, except_buffer, on_buffer, on_cap, bind, get, modify, ret, raise.
  cbn -[Z.add ReplayBuffer.append].
  destruct (ld_reserve_spec l (lg_adapter_id g) (Zlen payload)) as
    [[Hc Hr]|(Hc & l1 & Hr & Hwf1 & Hk1 & Hc1 & Hh1)]; [done|done|left|right].
  { rewrite Hr. done. }
  rewrite Hr. cbn -[Z.add ReplayBuffer.append].
  destruct (append_outcome (lg_buffer g) (lg_send_seq g) payload now)
    as [(e & He & Ha)|(b' & Ha & Hb' & Hls & Hd & Hu)]; [done|done|done|left|right].
  - rewrite Ha. cbn -[Z.add ReplayBuffer.append].
    destruct (ld_release_spec l1 (lg_adapter_id g) (Zlen payload)) as (l2 & Hr2 & Hwf2 & Hc2 & Hh2);
      [done|done| |done|].
    { rewrite Hh1, decide_True by done. pose proof (depth_bytes_nonneg g l Hwf). lia. }
    rewrite Hr2. exists e, l2.
    assert (Hh : forall id, ld_held l2 id = ld_held l id).
    { intros id. rewrite Hh2, Hh1. case_decide; lia. }
    split_and!; [done|done|]. split_and!; [|done|split_and!; [done|congruence|]].
    + split; simpl; try done; [|lia|lia]. by rewrite Hh.
    + intros id' _. apply Hh.
  - rewrite Ha. eexists _, l1. split; [done|]. split_and!; [|done..|].
    + split_and!; [|done|split_and!; [done|done|]].
      * split; simpl; try done; [|lia|lia]. rewrite Hh1, decide_True by done.
        rewrite lw_held0. unfold depth_bytes, ReplayBuffer.depth_bytes. simpl. lia.
      * intros id' Hid'. rewrite Hh1, decide_False by done. lia.
    + unfold unacked_frames. simpl. by rewrite Hu, fmap_app.
Qed.

(** The ledger's total moves with the one holding a leg's method touches. *)
Lemma keeps_total g l g' l' :
  leg_wf g l -> keeps g l g' l' -> ld_total l' - depth_bytes g' = ld_total l - depth_bytes g.
Proof.
  intros Hwf (Hwf' & Hid & (Hl' & _ & Ho)). pose proof (lw_held _ _ Hwf) as H1. pose proof (lw_held _ _ Hwf') as H2.
  rewrite <- H1, <- H2, Hid. apply ld_total_frame; [apply Hwf|done|done].
Qed.

(** With room in the buffer and the cap, and a clock that has not gone back, a send is
    recorded. *)
Lemma record_admits payload now g l :
  leg_wf g l -> before now (rb_last_now (lg_buffer g)) = false ->
  depth_frames g + 1 <= 2 * rb_max_frames (lg_buffer g) ->
  depth_bytes g + Zlen payload <= 2 * rb_max_bytes (lg_buffer g) ->
  ld_total l + Zlen payload <= ld_ceiling l ->
  exists g' l', record_for_send payload now (g, l) = (Ok (lg_send_seq g), (g', l')) /\ keeps g l g' l' /\
    lg_buffer g' = appended (lg_buffer g) (lg_send_seq g) payload now /\ lg_send_seq g' = lg_send_seq g + 1 /\
    unacked_frames g' = unacked_frames g ++ [(lg_send_seq g, payload)].
Proof.
  intros Hwf Hb Hf Hby Hc. pose proof Hwf as [].
  pose proof (append_admits _ (lg_send_seq g) payload now lw_buffer0 lw_seq_nonneg0 lw_seq0 Hb Hf Hby) as Ha.
  assert (Hrec : exists g' l', record_for_send payload now (g, l) = (Ok (lg_send_seq g), (g', l')) /\
    lg_buffer g' = appended (lg_buffer g) (lg_send_seq g) payload now).
  { unfold record_for_send, except_buffer, on_buffer, on_cap, bind, get, modify, ret, raise.
    cbn -[Z.add ReplayBuffer.append].
    destruct (ld_reserve_spec l (lg_adapter_id g) (Zlen payload)) as [[? _]|(_ & l1 & -> & _)];
      [done|apply Zlen_nonneg|lia|].
    cbn -[Z.add ReplayBuffer.append appended]. rewrite Ha. by eexists _, _. }
  destruct Hrec as (g1 & l1 & Hr & Hbuf).
  destruct (record_for_send_ok payload now g l Hwf) as
    [[_ He]|[(e & l' & _ & He & _)|(g' & l' & He & Hk & Hs & _ & Hu)]]; rewrite He in Hr; simplify_eq.
  by exists g1, l1.
Qed.

Lemma on_gate_ok {A} (m : M PerAdapterIngressGate ValueError A) g l :
  leg_wf g l -> IngressGate.wf (m (lg_ingress_gate g)).2 ->
  keeps g l (on_gate (LE := LE) m (g, l)).2.1 (on_gate (LE := LE) m (g, l)).2.2 /\
  forall e : LE, (on_gate m (g, l)).1 <> Err (LedgerError e).
Proof.
  intros Hwf Hg. pose proof Hwf as []. unfold on_gate. destruct (m (lg_ingress_gate g)) as [r ig].
  simpl in *. split; [|by destruct r].
  split_and!; [split; done|done|split_and!; done].
Qed.
End leg_laws.

(** ** Any call on a leg *)
Inductive op :=
| RecordForSend (payload : list byte) (now : Q)
| TrimToAck (cumulative_ack : Z)
| EvictExpired (now : Q)
| Discard
| ResetForNewEpoch
| Teardown
| TryAdmit (frame_bytes : Z) (now1 now2 : Q)
| ReleaseAdmit (token : Z)
| EvictStalledAdmits (now : Q).

Definition step {L LE} `{!ByteLedger L LE} (o : op) : LegM (L := L) (LE := LE) unit :=
  match o with
  | RecordForSend payload now => record_for_send payload now;;; ret tt
  | TrimToAck ack => trim_to_ack ack
  | EvictExpired now => evict_expired now;;; ret tt
  | Discard => discard
  | ResetForNewEpoch => reset_for_new_epoch
  | Teardown => teardown
  | TryAdmit n now1 now2 => try_admit n now1 now2;;; ret tt
  | ReleaseAdmit token => release_admit token
  | EvictStalledAdmits now => evict_stalled_admits now;;; ret tt
  end.

Lemma step_keeps {L LE} `{!ByteLedger L LE, !ByteLedgerLaws L LE} (o : op) g (l : L) :
  leg_wf g l ->
  exists (r : result (LegError LE) unit) g' l',
    step o (g, l) = (r, (g', l')) /\ keeps g l g' l' /\ forall e, r <> Err (LedgerError e).
Proof.
  intros Hwf. destruct o as [payload now|ack|now| | | |n now1 now2|token|now]; cbn [step].
  - unfold bind. destruct (record_for_send_ok payload now g l Hwf) as
      [[_ ->]|[(e & l' & _ & -> & Hk)|(g' & l' & -> & Hk & _)]]; eexists _, _, _;
      (split; [reflexivity|]); (split; [|done]); [by apply keeps_refl|done|done].
  - destruct (trim_to_ack_ok ack g l Hwf) as (g' & l' & -> & Hk). by eexists _, _, _.
  - unfold bind. destruct (evict_expired_ok now g l Hwf) as [->|(out & g' & l' & -> & Hk)];
      eexists _, _, _; (split; [reflexivity|]); (split; [|done]); [by apply keeps_refl|done].
  - destruct (discard_ok g l Hwf) as (g' & l' & -> & Hk). by eexists _, _, _.
  - destruct (reset_for_new_epoch_ok g l Hwf) as (g' & l' & -> & Hk & _). by eexists _, _, _.
  - destruct (teardown_ok g l Hwf) as (g' & l' & -> & Hk & _). by eexists _, _, _.
  - unfold bind, try_admit. destruct (on_gate_ok (LE := LE) (IngressGate.try_admit n now1 now2) g l Hwf) as [Hk He].
    { apply gate_try_admit_wf, Hwf. }
    destruct (on_gate _ _) as [[a|e] [g' l']]; simpl in *; eexists _, _, _; (split; [reflexivity|]);
      (split; [done|]); [done|]. intros e' [= ->]. by apply (He e').
  - unfold release_admit. destruct (on_gate_ok (LE := LE) (IngressGate.release token) g l Hwf) as [Hk He].
    { apply gate_release_wf, Hwf. }
    destruct (on_gate _ _) as [r [g' l']]; simpl in *. by eexists _, _, _.
  - unfold bind, evict_stalled_admits.
    destruct (on_gate_ok (LE := LE) (IngressGate.evict_stalled now) g l Hwf) as [Hk He].
    { apply gate_evict_wf, Hwf. }
    destruct (on_gate _ _) as [[a|e] [g' l']]; simpl in *; eexists _, _, _; (split; [reflexivity|]);
      (split; [done|]); [done|]. intros e' [= ->]. by apply (He e').
Qed.

(** The (generation, seq) pair an operation mints for the wire, if it mints one. *)
Definition minted {L LE} `{!ByteLedger L LE} (o : op) (s : GatewayLeg * L) : option (Z * Z) :=
  match o with
  | RecordForSend payload now =>
      match (record_for_send (LE := LE) payload now s).1 with
      | Ok seq => Some (lg_generation s.1, seq)
      | Err _ => None
      end
  | _ => None
  end.

Fixpoint run {L LE} `{!ByteLedger L LE} (ops : list op) (s : GatewayLeg * L) :
    list (Z * Z) * (GatewayLeg * L) :=
  match ops with
  | [] => ([], s)
  | o :: ops' =>
      let '(seqs, s') := run ops' (step o s).2 in
      (option_list (minted o s) ++ seqs, s')
  end.

(** Generations in order, and seqs in order within a generation. *)
Definition wire_before (p q : Z * Z) : Prop := p.1 < q.1 \/ p.1 = q.1 /\ p.2 < q.2.

Lemma step_seq_floor {L LE} `{!ByteLedger L LE, !ByteLedgerLaws L LE} (o : op) g (l : L) :
  leg_wf g l ->
  let g' := (step o (g, l)).2.1 in
  (lg_generation g' = lg_generation g /\
   (forall p, minted o (g, l) = Some p -> p = (lg_generation g, lg_send_seq g) /\
                                          lg_send_seq g' = lg_send_seq g + 1) /\
   lg_send_seq g <= lg_send_seq g') \/
  (lg_generation g' = lg_generation g + 1 /\ minted o (g, l) = None).
Proof.
  intros Hwf. destruct o as [payload now|ack|now| | | |n now1 now2|token|now]; cbn [step minted].
  1:{ left. unfold bind. destruct (record_for_send_ok payload now g l Hwf) as
        [[_ ->]|[(e & l' & _ & -> & _)|(g' & l' & -> & _ & Hs & Hg & _)]]; simpl;
        (split_and!; [done| |lia]); intros p [= <-]; done. }
  4:{ right. destruct (reset_for_new_epoch_ok g l Hwf) as (g' & l' & -> & _ & _ & ? & _). done. }
  all: left; split_and!; try done.
  all: unfold trim_to_ack, evict_expired, discard, teardown, try_admit, release_admit,
         evict_stalled_admits, _reclaim, on_buffer, on_gate, on_cap, _refresh_buffer_metrics,
         bind, get, put, modify, ret.
  all: repeat case_match; simplify_eq/=; try done; lia.
Qed.

Lemma run_keeps {L LE} `{!ByteLedger L LE, !ByteLedgerLaws L LE} (ops : list op) g (l : L) :
  leg_wf g l ->
  keeps g l (run ops (g, l)).2.1 (run ops (g, l)).2.2 /\
  StronglySorted wire_before (run ops (g, l)).1 /\
  Forall (fun p => p.1 = lg_generation g /\ lg_send_seq g <= p.2 \/ lg_generation g < p.1)
         (run ops (g, l)).1.
Proof.
  revert g l. induction ops as [|o ops IH]; intros g l Hwf; simpl.
  { split_and!; [by apply keeps_refl|constructor|constructor]. }
  pose proof (step_seq_floor o g l Hwf) as Hfloor.
  destruct (step_keeps o g l Hwf) as (r & g' & l' & Hs & Hk & _). rewrite Hs in *. simpl in *.
  destruct Hk as (Hwf' & Hid & Ht). destruct (IH g' l' Hwf') as (Hk' & Hsort & Hall).
  destruct (run ops (g', l')) as [seqs [g2 l2]]. simpl in *.
  assert (Hkeep : keeps g l g2 l2).
  { destruct Hk' as (? & Hid' & (? & Hc' & Ho')), Ht as (? & Hc & Ho). split_and!; [done|congruence|].
    split_and!; [done|congruence|]. intros id' Hne. rewrite Ho' by congruence. by apply Ho. }
  split; [done|]. destruct Hfloor as [(Hg & Hm & Hle)|(Hg & ->)]; [|simpl].
  - rewrite Hg in *. destruct (minted o (g, l)) as [p|] eqn:Hp; simpl.
    + destruct (Hm p eq_refl) as [-> Hs']. split.
      * constructor; [done|]. eapply Forall_impl; [exact Hall|]. intros q Hq. unfold wire_before. simpl in *. lia.
      * constructor; [simpl; lia|]. eapply Forall_impl; [exact Hall|]. intros q Hq. simpl in *. lia.
    + split; [done|]. eapply Forall_impl; [exact Hall|]. intros q Hq. simpl in *. lia.
  - split; [done|]. eapply Forall_impl; [exact Hall|]. intros q Hq. simpl in *. lia.
Qed.

(** ** The fleet: every leg, and the one cap they share *)
Section fleet.
Context {L LE : Type} `{!ByteLedger L LE, !ByteLedgerLaws L LE}.

Definition Fleet : Type := gmap string GatewayLeg * L.

(** One method call on the leg registered as [id]; no such leg, no call. *)
Definition fleet_step (s : Fleet) (call : string * op) : Fleet :=
  match s.1 !! call.1 with
  | None => s
  | Some g => let '(_, (g', l')) := step (LE := LE) call.2 (g, s.2) in (<[call.1 := g']> s.1, l')
  end.
Definition fleet_run (calls : list (string * op)) (s : Fleet) : Fleet := foldl fleet_step s calls.

(** Legs as constructed: each over a fresh buffer and gate, with nothing reserved. *)
Definition fresh_fleet (s : Fleet) : Prop :=
  ld_wf s.2 /\
  forall id g, s.1 !! id = Some g ->
    exists mf mb ttl b rate burst maxi gttl maxb now0 ig,
      ReplayBuffer.init mf mb ttl = Ok b /\
      IngressGate.init id rate burst maxi gttl maxb now0 = Ok ig /\
      g = init id b ig /\ ld_held s.2 id = 0.

Definition fleet_wf (s : Fleet) : Prop :=
  ld_wf s.2 /\ forall id g, s.1 !! id = Some g -> lg_adapter_id g = id /\ leg_wf g s.2.

Lemma fresh_leg_wf id mf mb ttl b rate burst maxi gttl maxb now0 ig l :
  ReplayBuffer.init mf mb ttl = Ok b -> IngressGate.init id rate burst maxi gttl maxb now0 = Ok ig ->
  ld_wf l -> ld_held l id = 0 -> leg_wf (init id b ig) l.
Proof.
  intros Hb Hi Hl Hh. apply wf_init_gate in Hi as [Hi _]. pose proof (ReplayBuffer.wf_init _ _ _ _ Hb).
  unfold ReplayBuffer.init in Hb. destruct (_ || _); simplify_eq. split; simpl; done.
Qed.

Lemma fresh_fleet_wf s : fresh_fleet s -> fleet_wf s.
Proof.
  intros [Hl Hs]. split; [done|]. intros id g Hg.
  destruct (Hs id g Hg) as (mf & mb & ttl & b & rate & burst & maxi & gttl & maxb & now0 & ig & Hb & Hi & -> & Hh).
  split; [done|]. by eapply fresh_leg_wf.
Qed.

Lemma fleet_step_wf s call :
  fleet_wf s -> fleet_wf (fleet_step s call) /\ ld_ceiling (fleet_step s call).2 = ld_ceiling s.2 /\
                dom (fleet_step s call).1 = dom s.1.
Proof.
  intros [Hl Hs]. unfold fleet_step. destruct (s.1 !! call.1) as [g|] eqn:Hg; [|done].
  destruct (Hs _ _ Hg) as [Hid Hwf].
  destruct (step_keeps call.2 g s.2 Hwf) as (r & g' & l' & -> & (Hwf' & Hid' & (Hl' & Hc & Ho)) & _).
  simpl. split_and!; [split; [done|]|done|].
  - intros id h Hh. simpl in Hh. apply lookup_insert_Some in Hh as [[<- <-]|[Hne Hh]]; [split; [congruence|done]|].
    destruct (Hs _ _ Hh) as [Hidh Hwfh]. split; [done|]. destruct Hwfh. split; try done.
    rewrite Ho; [done|]. congruence.
  - rewrite dom_insert_L. apply elem_of_dom_2 in Hg. set_solver.
Qed.

Lemma fleet_run_wf calls s :
  fleet_wf s -> fleet_wf (fleet_run calls s) /\ ld_ceiling (fleet_run calls s).2 = ld_ceiling s.2.
Proof.
  revert s. induction calls as [|c calls IH]; intros s Hs; [done|]. simpl.
  destruct (fleet_step_wf s c Hs) as (Hs' & Hc & _). destruct (IH _ Hs') as [? Hc'].
  split; [done|]. by rewrite Hc'.
Qed.

(** The bytes every registered leg retains. *)
Definition resident_bytes (s : Fleet) : Z :=
  Zsum (fun kg => depth_bytes kg.2) (map_to_list s.1).

Lemma resident_held s :
  fleet_wf s -> resident_bytes s = Zsum (ld_held s.2) (fst <$> map_to_list s.1).
Proof.
  intros [_ Hs]. unfold resident_bytes. rewrite Zsum_fmap. apply Zsum_ext.
  intros [id g] Hin%elem_of_map_to_list. destruct (Hs id g Hin) as [<- []]. done.
Qed.
End fleet.

(** A closed fleet for the witnesses: two legs of eight-byte buffers, a ten-byte cap. *)
Definition sample_leg (id : string) : GatewayLeg :=
  init id (ReplayBuffer.fresh 4 8 10) {| ig_adapter_id := id; ig_rate := 2; ig_burst := 3;
    ig_max_inflight := 2; ig_ttl_seconds := 10; ig_max_frame_bytes := 64; ig_tokens := 3;
    ig_last_refill := 0; ig_inflight := []; ig_next_token := 1 |}.
Definition sample_cap : GlobalReplayCap :=
  {| gc_max_total_bytes := 10; gc_total_bytes := 0; gc_per_leg := ∅ |}.
Definition sample_fleet : Fleet (L := GlobalReplayCap) :=
  (<["tui"%string := sample_leg "tui"]> {["discord"%string := sample_leg "discord"]}, sample_cap).
Definition six_bytes : list byte := [x01; x02; x03; x04; x05; x06].

Lemma sample_cap_wf : ld_wf sample_cap.
Proof. split; simpl; [done| |lia]. by intros ?? ?%lookup_empty_Some. Qed.
Lemma sample_leg_wf id : leg_wf (sample_leg id) sample_cap.
Proof.
  unfold sample_leg. eapply (fresh_leg_wf id 4 8 10 _ 2 3 2 10 64 0); [reflexivity|reflexivity| |done].
  apply sample_cap_wf.
Qed.
Lemma sample_fleet_fresh : fresh_fleet sample_fleet.
Proof.
  split; [apply sample_cap_wf|]. unfold sample_fleet.
  assert (Hleg : forall id, exists mf mb ttl b rate burst maxi gttl maxb now0 ig,
    ReplayBuffer.init mf mb ttl = Ok b /\
    IngressGate.init id rate burst maxi gttl maxb now0 = Ok ig /\
    sample_leg id = init id b ig /\ ld_held sample_cap id = 0).
  { intros id. by exists 4, 8, 10%Q, (ReplayBuffer.fresh 4 8 10), 2%Q, 3, 2, 10%Q, 64, 0%Q,
      (lg_ingress_gate (sample_leg id)). }
  intros id g Hg. simpl in Hg. apply lookup_insert_Some in Hg as [[<- <-]|[_ Hg]]; [apply Hleg|].
  apply lookup_singleton_Some in Hg as [<- <-]. apply Hleg.
Qed.

(** ** Theorems *)

(** However the legs of a fleet call send, ack-trim, eviction, discard, epoch reset
    and teardown, each leg's holding in the shared cap is exactly the bytes its buffer
    retains, and together they never pass the cap's ceiling, whatever the number of legs. *)
Theorem fleet_resident_bytes_bounded {L LE} `{!ByteLedger L LE, !ByteLedgerLaws L LE}
    (calls : list (string * op)) (s : Fleet (L := L)) :
  fresh_fleet (LE := LE) s ->
  let s' := fleet_run (LE := LE) calls s in
  (forall id g, s'.1 !! id = Some g -> ld_held s'.2 id = depth_bytes g) /\
  0 <= resident_bytes s' <= ld_ceiling s.2.
Proof.
  intros Hs%fresh_fleet_wf s'. destruct (fleet_run_wf calls s Hs) as [Hs' Hc]. fold s' in Hs', Hc.
  split.
  - intros id g Hg. destruct (proj2 Hs' id g Hg) as [<- []]. done.
  - rewrite <- Hc, (resident_held s' Hs'). destruct Hs' as [Hl _]. split.
    + apply Zsum_nonneg. intros id. by apply ld_bounds.
    + etrans; [apply (ld_sum s'.2); [done|apply NoDup_fst_map_to_list]|].
      by apply (ld_bounds s'.2 ""%string).
Qed.

Lemma fleet_resident_bytes_bounded_witness :
  let s' := fleet_run (LE := GlobalReplayCapError)
    [("tui"%string, RecordForSend six_bytes 1); ("discord"%string, RecordForSend six_bytes 2);
     ("tui"%string, TrimToAck 0); ("discord"%string, RecordForSend six_bytes 3)] sample_fleet in
  (forall id g, s'.1 !! id = Some g -> ld_held s'.2 id = depth_bytes g) /\
  0 <= resident_bytes s' <= 10.
Proof.
  apply (fleet_resident_bytes_bounded (L := GlobalReplayCap) (LE := GlobalReplayCapError)
           _ sample_fleet sample_fleet_fresh).
Defined.

(** The (generation, seq) pairs a leg mints are strictly increasing, generations
    first: within one connection no wire seq repeats or goes back, and a reset moves to
    a later generation. *)
Theorem leg_wire_seqs_increase {L LE} `{!ByteLedger L LE, !ByteLedgerLaws L LE}
    (ops : list op) g (l : L) :
  leg_wf (LE := LE) g l -> StronglySorted wire_before (run (LE := LE) ops (g, l)).1.
Proof. intros Hwf. apply (run_keeps ops g l Hwf). Qed.

Lemma leg_wire_seqs_increase_witness :
  let out := (run (LE := GlobalReplayCapError)
    [RecordForSend six_bytes 1; TrimToAck 0; RecordForSend [x01] 2; ResetForNewEpoch;
     RecordForSend [x01] 3] (sample_leg "tui", sample_cap)).1 in
  out = [(0, 0); (0, 1); (1, 0)] /\ StronglySorted wire_before out.
Proof.
  split; [vm_compute; reflexivity|].
  apply (leg_wire_seqs_increase (L := GlobalReplayCap) (LE := GlobalReplayCapError)), sample_leg_wf.
Defined.

(** [record_for_send] either hands back the leg's next seq with exactly that frame
    added to the un-acked remainder, or raises a buffer error with the remainder and the
    leg's reservation as they were: no outcome leaks budget, loses a frame it accepted,
    or surfaces a ledger misuse. *)
Theorem leg_record_is_atomic {L LE} `{!ByteLedger L LE, !ByteLedgerLaws L LE}
    (payload : list byte) now g (l : L) :
  leg_wf (LE := LE) g l ->
  let '(r, (g', l')) := record_for_send (LE := LE) payload now (g, l) in
  leg_wf (LE := LE) g' l' /\
  match r with
  | Ok seq => seq = lg_send_seq g /\ lg_send_seq g' = lg_send_seq g + 1 /\
              unacked_frames g' = unacked_frames g ++ [(seq, payload)] /\
              ld_held l' (lg_adapter_id g) = ld_held l (lg_adapter_id g) + Zlen payload
  | Err (BufferError e) =>
      (e = GlobalCapFull \/ e = HardCeiling \/ e = NowNotMonotonic) /\
      unacked_frames g' = unacked_frames g /\
      ld_held l' (lg_adapter_id g) = ld_held l (lg_adapter_id g) /\
      (e = GlobalCapFull <-> ld_ceiling l < ld_total l + Zlen payload)
  | Err _ => False
  end.
Proof.
  intros Hwf. pose proof (lw_held g l Hwf) as Hheld.
  destruct (record_for_send_ok payload now g l Hwf) as
    [[Hc ->]|[(e & l' & He & Heq & (Hwf' & Hid & Ht))|(g' & l' & Heq & (Hwf' & Hid & Ht) & Hs & Hg & Hu)]].
  - split_and!; try done. by left.
  - rewrite Heq. split; [done|]. split_and!; [naive_solver|done| |].
    + rewrite Hheld. apply (lw_held _ _ Hwf').
    + split; [by intros ->; destruct He|]. intros Hc.
      unfold record_for_send, on_cap, bind, get, raise in Heq. cbn -[Z.add] in Heq.
      destruct (ld_reserve_spec l (lg_adapter_id g) (Zlen payload)) as [[_ Hr]|(Hc' & _)];
        [apply Hwf|apply Zlen_nonneg| |lia].
      rewrite Hr in Heq. simpl in Heq. by simplify_eq.
  - rewrite Heq. split; [done|]. split_and!; [done|done|done|].
    rewrite <- Hid at 1. rewrite (lw_held _ _ Hwf'), Hheld. unfold depth_bytes.
    unfold ReplayBuffer.depth_bytes. rewrite <- !fifo_bytes_abs; [|apply Hwf|apply Hwf'].
    unfold unacked_frames in Hu. rewrite !unacked_frames_abs, <- !list_fmap_compose in Hu.
    unfold fifo_bytes. 
    assert (Hz : forall fs : list frame, Zsum (fun f => Zlen (frame_payload f)) fs =
      Zsum (fun p : Z * list byte => Zlen p.2) ((fun f => (rf_seq f, rf_payload f)) ∘
        (fun f => {| rf_seq := frame_seq f; rf_payload := frame_payload f |}) <$> fs)).
    { intros fs. by rewrite Zsum_fmap. }
    rewrite !Hz, Hu, Zsum_app, Zsum_singleton. done.
Qed.

Lemma leg_record_is_atomic_witness :
  let '(r, (g', l')) := record_for_send (LE := GlobalReplayCapError) six_bytes 1 (sample_leg "tui", sample_cap) in
  leg_wf (LE := GlobalReplayCapError) g' l' /\ r = Ok 0.
Proof.
  pose proof (leg_record_is_atomic (L := GlobalReplayCap) (LE := GlobalReplayCapError)
                six_bytes 1 (sample_leg "tui") sample_cap (sample_leg_wf "tui")) as H.
  destruct (record_for_send six_bytes 1 (sample_leg "tui", sample_cap)) as [r [g' l']] eqn:Heq.
  split; [apply H|]. by vm_compute in Heq; simplify_eq.
Defined.
