(* ===== verification/TableMachine.v ===== *)
(** * State machines given by a transition table

    [gateway/link_state.py] and [gateway/adapter_lifecycle.py] are both a dict from
    (state, event) to (next state, emitted control) and a [feed] that looks the pair up:
    a pair that is absent raises and leaves the state alone.  A component is an instance of
    [TableMachine]; what every such machine satisfies is proved here once. *)
From S2P Require Import Prelude.

Class TableMachine (St Ev Ctl Ex : Type) := {
  tm_initial : St;
  tm_table : St -> Ev -> option (St * option Ctl);
  tm_undefined : Ex
}.

Section machine.
Context {St Ev Ctl Ex : Type} `{!TableMachine St Ev Ctl Ex}.

(** [feed]: look the pair up, move, return the control to emit. *)
Definition tm_feed (event : Ev) : M St Ex (option Ctl) :=
  state <-- get;
  match tm_table state event with
  | None => raise tm_undefined
  | Some (next_state, emitted) => put next_state;;; ret emitted
  end.

(** The controls emitted over a sequence of events, the caller going on after a raise. *)
Fixpoint tm_run (es : list Ev) (s : St) : list Ctl * St :=
  match es with
  | [] => ([], s)
  | e :: es' =>
      let '(r, s') := tm_feed e s in
      let '(out, s'') := tm_run es' s' in
      (match r with Ok (Some c) => c :: out | _ => out end, s'')
  end.

Lemma tm_feed_undefined e s :
  tm_table s e = None -> tm_feed e s = (Err tm_undefined, s).
Proof. intros H. unfold tm_feed, bind, get. by rewrite H. Qed.
Lemma tm_feed_defined e s s' c :
  tm_table s e = Some (s', c) -> tm_feed e s = (Ok c, s').
Proof. intros H. unfold tm_feed, bind, get. by rewrite H. Qed.

Lemma tm_run_app es1 es2 s :
  tm_run (es1 ++ es2) s =
    let '(o1, s1) := tm_run es1 s in let '(o2, s2) := tm_run es2 s1 in (o1 ++ o2, s2).
Proof.
  revert s. induction es1 as [|e es1 IH]; intros s; simpl.
  - by destruct (tm_run es2 s).
  - destruct (tm_feed e s) as [r s']. rewrite IH.
    destruct (tm_run es1 s') as [o1 s1], (tm_run es2 s1) as [o2 s2].
    by destruct r as [[c|]|].
Qed.

(** A state the table never leaves and never emits from. *)
Definition tm_absorbing (s : St) : Prop := forall e, tm_table s e = None \/ tm_table s e = Some (s, None).

Lemma tm_run_absorbed es s : tm_absorbing s -> tm_run es s = ([], s).
Proof.
  intros Habs. induction es as [|e es IH]; simpl; [done|].
  destruct (Habs e) as [Ht|Ht]; [rewrite (tm_feed_undefined e s Ht)|rewrite (tm_feed_defined e s _ _ Ht)];
    by rewrite IH.
Qed.

(** Invariants of (controls so far, state): true at the start and kept by every row of
    the table, hence true after any events. *)
Lemma tm_run_ind (P : list Ctl -> St -> Prop) :
  P [] tm_initial ->
  (forall out s e s' c, P out s -> tm_table s e = Some (s', c) -> P (out ++ option_list c) s') ->
  forall es, P (tm_run es tm_initial).1 (tm_run es tm_initial).2.
Proof.
  intros H0 Hrow es.
  assert (Hgen : forall es out s, P out s -> P (out ++ (tm_run es s).1) (tm_run es s).2).
  { clear -Hrow. induction es as [|e es IH]; intros out s HP; simpl; [by rewrite app_nil_r|].
    destruct (tm_table s e) as [[s' c]|] eqn:Ht.
    - rewrite (tm_feed_defined e s _ _ Ht). specialize (IH _ _ (Hrow _ _ _ _ _ HP Ht)).
      destruct (tm_run es s') as [o s'']. simpl in *. destruct c as [c|]; simpl in *.
      + by rewrite <- app_assoc in IH.
      + by rewrite app_nil_r in IH.
    - rewrite (tm_feed_undefined e s Ht). specialize (IH _ _ HP). by destruct (tm_run es s) as [o s'']. }
  apply (Hgen es [] tm_initial H0).
Qed.
End machine.
