(* ===== verification/LinkState.v ===== *)
(** * [gateway/link_state.py]: the gateway's link-state machine

    The transition table row by row, the machine as an instance of [TableMachine], and
    the exact language of control frames a client can see. *)
From S2P Require Import Prelude TableMachine.

Inductive GatewayLinkStateError : Set := UndefinedLinkTransition.

Inductive GatewayLinkState : Set := UP | DOWN_SIGNALLED | DOWN_CRASH | REDIALING | UNAVAILABLE.

Inductive GatewayLinkEvent : Set :=
| CORE_GOING_DOWN | CORE_CRASH_EOF | REDIAL_STARTED | CORE_READY | BREAKER_TRIPPED.

Inductive LinkControl : Set := C_RECONNECTING | C_RESTORED | C_UNAVAILABLE.

#[export] Instance link_state_eq_dec : EqDecision GatewayLinkState.
Proof. solve_decision. Defined.
#[export] Instance link_event_eq_dec : EqDecision GatewayLinkEvent.
Proof. solve_decision. Defined.
#[export] Instance link_control_eq_dec : EqDecision LinkControl.
Proof. solve_decision. Defined.

Definition _TRANSITIONS : list ((GatewayLinkState * GatewayLinkEvent) * (GatewayLinkState * option LinkControl)) := [
  ((UP, CORE_GOING_DOWN), (DOWN_SIGNALLED, Some C_RECONNECTING));
  ((UP, CORE_CRASH_EOF), (DOWN_CRASH, Some C_RECONNECTING));
  ((UP, CORE_READY), (UP, None));
  ((DOWN_SIGNALLED, CORE_GOING_DOWN), (DOWN_SIGNALLED, None));
  ((DOWN_SIGNALLED, CORE_CRASH_EOF), (DOWN_SIGNALLED, None));
  ((DOWN_SIGNALLED, REDIAL_STARTED), (REDIALING, None));
  ((DOWN_SIGNALLED, CORE_READY), (UP, Some C_RESTORED));
  ((DOWN_CRASH, CORE_GOING_DOWN), (DOWN_CRASH, None));
  ((DOWN_CRASH, CORE_CRASH_EOF), (DOWN_CRASH, None));
  ((DOWN_CRASH, REDIAL_STARTED), (REDIALING, None));
  ((DOWN_CRASH, CORE_READY), (UP, Some C_RESTORED));
  ((REDIALING, CORE_READY), (UP, Some C_RESTORED));
  ((REDIALING, REDIAL_STARTED), (REDIALING, None));
  ((REDIALING, CORE_GOING_DOWN), (REDIALING, None));
  ((REDIALING, CORE_CRASH_EOF), (REDIALING, None));
  ((UP, BREAKER_TRIPPED), (UNAVAILABLE, Some C_UNAVAILABLE));
  ((DOWN_SIGNALLED, BREAKER_TRIPPED), (UNAVAILABLE, Some C_UNAVAILABLE));
  ((DOWN_CRASH, BREAKER_TRIPPED), (UNAVAILABLE, Some C_UNAVAILABLE));
  ((REDIALING, BREAKER_TRIPPED), (UNAVAILABLE, Some C_UNAVAILABLE));
  ((UNAVAILABLE, BREAKER_TRIPPED), (UNAVAILABLE, None));
  ((UNAVAILABLE, CORE_READY), (UNAVAILABLE, None));
  ((UNAVAILABLE, CORE_GOING_DOWN), (UNAVAILABLE, None));
  ((UNAVAILABLE, CORE_CRASH_EOF), (UNAVAILABLE, None));
  ((UNAVAILABLE, REDIAL_STARTED), (UNAVAILABLE, None))
].

#[export] Instance link_machine :
  TableMachine GatewayLinkState GatewayLinkEvent LinkControl GatewayLinkStateError := {
  tm_initial := UP;
  tm_table s e := dict_get (s, e) _TRANSITIONS;
  tm_undefined := UndefinedLinkTransition
}.

(** [LinkStateMachine.__init__] and [LinkStateMachine.feed]. *)
Definition init : GatewayLinkState := tm_initial.
Definition feed (event : GatewayLinkEvent) : M GatewayLinkState GatewayLinkStateError (option LinkControl) :=
  tm_feed event.
Definition run (events : list GatewayLinkEvent) : list LinkControl * GatewayLinkState := tm_run events init.

(** ** What a client sees

    Closed gaps, then nothing, an open gap, or the one terminal escalation (out of [UP], or
    out of an open gap). *)
Definition gap : list LinkControl := [C_RECONNECTING; C_RESTORED].
Inductive client_view : list LinkControl -> GatewayLinkState -> Prop :=
| view_up n : client_view (concat (replicate n gap)) UP
| view_down n s :
    s = DOWN_SIGNALLED \/ s = DOWN_CRASH \/ s = REDIALING ->
    client_view (concat (replicate n gap) ++ [C_RECONNECTING]) s
| view_wedged n : client_view (concat (replicate n gap) ++ [C_UNAVAILABLE]) UNAVAILABLE
| view_gave_up n : client_view (concat (replicate n gap) ++ [C_RECONNECTING; C_UNAVAILABLE]) UNAVAILABLE.

Lemma gap_snoc n : concat (replicate n gap) ++ gap = concat (replicate (S n) gap).
Proof. by rewrite replicate_S_end, concat_app. Qed.

Lemma view_row out s e s' c :
  client_view out s -> tm_table s e = Some (s', c) -> client_view (out ++ option_list c) s'.
Proof.
  intros Hv Ht.
  destruct Hv as [n|n s Hs|n|n]; [|destruct Hs as [->|[->| ->]]|..];
    destruct e; vm_compute in Ht; simplify_eq/=; rewrite ?app_nil_r;
    first [ by constructor; auto | rewrite <- app_assoc; simpl; by constructor
          | rewrite <- app_assoc, gap_snoc; constructor ].
Qed.

(** Whatever the core link goes through, the controls emitted to the client are some
    number of [reconnecting, restored] pairs followed by nothing, one open [reconnecting],
    one [unavailable], or [reconnecting, unavailable]; the machine's state says which, so
    [restored] is never sent without an open gap and [unavailable] is sent at most once,
    last. *)
Theorem link_controls_are_balanced_gaps events :
  client_view (run events).1 (run events).2.
Proof. apply (tm_run_ind client_view); [apply (view_up 0)|apply view_row]. Qed.

(** [feed] raises on exactly one pair, a redial while the link is up, and then leaves
    the machine as it was; every other pair is defined. *)
Lemma link_feed_total s e :
  ((feed e s).1 = Err UndefinedLinkTransition <-> s = UP /\ e = REDIAL_STARTED) /\
  ((feed e s).1 = Err UndefinedLinkTransition -> (feed e s).2 = s).
Proof. destruct s, e; vm_compute; split; try done; split; try done; intros [??]; done. Qed.

(** A machine that is [UNAVAILABLE] stays so and is silent. *)
Lemma unavailable_absorbs : tm_absorbing UNAVAILABLE.
Proof. intros e. right. by destruct e. Qed.

Lemma feed_breaker s :
  feed BREAKER_TRIPPED s = (Ok (if decide (s = UNAVAILABLE) then None else Some C_UNAVAILABLE), UNAVAILABLE).
Proof. by destruct s. Qed.
