(* ===== verification/AdapterLifecycle.v ===== *)
(** * [gateway/adapter_lifecycle.py]: the lifecycle of one supervised adapter child

    [_build_transitions] builds the table the way the code does: the literal rows, then
    the generated rows for a child exit, for a stop and for the two terminals.  The
    theorems give the exact language of status frames the core can receive. *)
From S2P Require Import Prelude TableMachine.

Inductive AdapterLifecycleStateError : Set := UndefinedLifecycleTransition.

Inductive AdapterLifecycleState : Set :=
| SPAWNING | HANDSHAKING | UP | CRASHED | RESTARTING | AWAITING_CORE | BREAKER_OPEN | DOWN.

Inductive AdapterLifecycleEvent : Set :=
| SPAWN_STARTED | HANDSHAKE_OK | HANDSHAKE_FAILED | CHILD_EXITED | BACKOFF_ELAPSED
| BREAKER_TRIPPED | CRED_UNAVAILABLE | CRED_AVAILABLE | STOP_REQUESTED.

Inductive AdapterControl : Set := EMIT_UP | EMIT_DOWN | EMIT_CRASHED | EMIT_BREAKER_OPEN.

#[export] Instance lifecycle_state_eq_dec : EqDecision AdapterLifecycleState.
Proof. solve_decision. Defined.
#[export] Instance lifecycle_event_eq_dec : EqDecision AdapterLifecycleEvent.
Proof. solve_decision. Defined.
#[export] Instance adapter_control_eq_dec : EqDecision AdapterControl.
Proof. solve_decision. Defined.

Definition _CHILD_ALIVE_STATES : list AdapterLifecycleState := [SPAWNING; HANDSHAKING].
Definition _STOPPABLE_STATES : list AdapterLifecycleState :=
  [SPAWNING; HANDSHAKING; UP; CRASHED; RESTARTING; AWAITING_CORE].
(** [for event in AdapterLifecycleEvent] *)
Definition all_events : list AdapterLifecycleEvent :=
  [SPAWN_STARTED; HANDSHAKE_OK; HANDSHAKE_FAILED; CHILD_EXITED; BACKOFF_ELAPSED;
   BREAKER_TRIPPED; CRED_UNAVAILABLE; CRED_AVAILABLE; STOP_REQUESTED].

Definition table : Type :=
  list ((AdapterLifecycleState * AdapterLifecycleEvent) * (AdapterLifecycleState * option AdapterControl)).

Definition _build_transitions : table :=
  let t := [
    ((SPAWNING, SPAWN_STARTED), (HANDSHAKING, None));
    ((HANDSHAKING, HANDSHAKE_OK), (UP, Some EMIT_UP));
    ((HANDSHAKING, HANDSHAKE_FAILED), (CRASHED, Some EMIT_CRASHED));
    ((UP, CHILD_EXITED), (CRASHED, Some EMIT_CRASHED));
    ((CRASHED, BACKOFF_ELAPSED), (RESTARTING, None));
    ((CRASHED, BREAKER_TRIPPED), (BREAKER_OPEN, Some EMIT_BREAKER_OPEN));
    ((RESTARTING, SPAWN_STARTED), (HANDSHAKING, None));
    ((RESTARTING, CRED_UNAVAILABLE), (AWAITING_CORE, None));
    ((AWAITING_CORE, CRED_AVAILABLE), (RESTARTING, None))] in
  let t := foldl (fun t state => dict_set (state, CHILD_EXITED) (CRASHED, Some EMIT_CRASHED) t)
                 t _CHILD_ALIVE_STATES in
  let t := foldl (fun t state => dict_set (state, STOP_REQUESTED) (DOWN, Some EMIT_DOWN) t)
                 t _STOPPABLE_STATES in
  foldl (fun t terminal =>
           foldl (fun t event => dict_set (terminal, event) (terminal, None) t) t all_events)
        t [BREAKER_OPEN; DOWN].

Definition _TRANSITIONS : table := Eval vm_compute in _build_transitions.

#[export] Instance lifecycle_machine :
  TableMachine AdapterLifecycleState AdapterLifecycleEvent AdapterControl AdapterLifecycleStateError := {
  tm_initial := SPAWNING;
  tm_table s e := dict_get (s, e) _TRANSITIONS;
  tm_undefined := UndefinedLifecycleTransition
}.

(** [AdapterLifecycleMachine.__init__] and [AdapterLifecycleMachine.feed]. *)
Definition init : AdapterLifecycleState := tm_initial.
Definition feed (event : AdapterLifecycleEvent)
  : M AdapterLifecycleState AdapterLifecycleStateError (option AdapterControl) := tm_feed event.
Definition run (events : list AdapterLifecycleEvent) : list AdapterControl * AdapterLifecycleState :=
  tm_run events init.

(** ** What the core receives

    One crashed incarnation after another, each [up, crashed] or [crashed] alone, and then
    the current one. *)
Definition incarnation (i : list AdapterControl) : Prop := i = [EMIT_UP; EMIT_CRASHED] \/ i = [EMIT_CRASHED].
Definition between (s : AdapterLifecycleState) : Prop :=
  s = HANDSHAKING \/ s = CRASHED \/ s = RESTARTING \/ s = AWAITING_CORE.

Inductive core_view : list AdapterControl -> AdapterLifecycleState -> Prop :=
| view_first s : s = SPAWNING \/ s = HANDSHAKING -> core_view [] s
| view_again gs s : Forall incarnation gs -> gs <> [] -> between s -> core_view (concat gs) s
| view_up gs : Forall incarnation gs -> core_view (concat gs ++ [EMIT_UP]) UP
| view_breaker gs :
    Forall incarnation gs -> gs <> [] -> core_view (concat gs ++ [EMIT_BREAKER_OPEN]) BREAKER_OPEN
| view_stopped gs up :
    Forall incarnation gs -> up = [] \/ up = [EMIT_UP] ->
    core_view (concat gs ++ up ++ [EMIT_DOWN]) DOWN.

Lemma view_crash gs i : Forall incarnation gs -> incarnation i -> core_view (concat gs ++ i) CRASHED.
Proof.
  intros His Hi. replace (concat gs ++ i) with (concat (gs ++ [i])) by (rewrite concat_app; simpl; by rewrite app_nil_r).
  apply view_again; [by apply Forall_app; auto| |by right; left]. by destruct gs.
Qed.

(** The rows leaving a state [s] that is no terminal, case by case. *)
Lemma row_cases s e s' c :
  dict_get (s, e) _TRANSITIONS = Some (s', c) ->
  match s with
  | SPAWNING => s' = HANDSHAKING /\ c = None \/ s' = CRASHED /\ c = Some EMIT_CRASHED \/ s' = DOWN /\ c = Some EMIT_DOWN
  | HANDSHAKING => s' = UP /\ c = Some EMIT_UP \/ s' = CRASHED /\ c = Some EMIT_CRASHED \/ s' = DOWN /\ c = Some EMIT_DOWN
  | UP => s' = CRASHED /\ c = Some EMIT_CRASHED \/ s' = DOWN /\ c = Some EMIT_DOWN
  | CRASHED => s' = RESTARTING /\ c = None \/ s' = BREAKER_OPEN /\ c = Some EMIT_BREAKER_OPEN \/ s' = DOWN /\ c = Some EMIT_DOWN
  | RESTARTING => (s' = HANDSHAKING \/ s' = AWAITING_CORE) /\ c = None \/ s' = DOWN /\ c = Some EMIT_DOWN
  | AWAITING_CORE => s' = RESTARTING /\ c = None \/ s' = DOWN /\ c = Some EMIT_DOWN
  | BREAKER_OPEN | DOWN => s' = s /\ c = None
  end.
Proof. destruct s, e; vm_compute; intros; simplify_eq; tauto. Qed.

Lemma lifecycle_view_row out s e s' c :
  core_view out s -> tm_table s e = Some (s', c) -> core_view (out ++ option_list c) s'.
Proof.
  intros Hv Hrow%row_cases.
  assert (Hcr : incarnation [EMIT_CRASHED]) by by right.
  destruct Hv as [s Hs|gs s His Hne Hs|gs His|gs His Hne|gs up His Hup];
    [destruct Hs as [->| ->]|destruct Hs as [->|[->|[->| ->]]]|..];
    repeat match goal with
           | H : _ \/ _ |- _ => destruct H
           | H : _ /\ _ |- _ => destruct H
           end; subst; simpl option_list; rewrite ?app_nil_r, <- ?app_assoc;
    try solve [ by constructor; unfold between; auto
              | by apply (view_crash []); auto
              | by apply (view_up [])
              | by apply (view_stopped [] []); auto
              | by apply view_crash; [done|left]
              | by apply view_crash
              | by apply (view_stopped _ []); auto
              | by apply (view_stopped _ [EMIT_UP]); auto ].
Qed.

(** Whatever the supervisor feeds it, the machine's status frames are a run of crashed
    incarnations, each at most one [up] and then one [crashed], followed by the current
    incarnation's: nothing, [up] exactly when the state is [UP], a final [breaker_open]
    only right after a crash, or a final [down]; so the core never sees a false [up] nor a
    frame after a terminal. *)
Theorem lifecycle_frames_are_incarnations events :
  core_view (run events).1 (run events).2.
Proof. apply (tm_run_ind core_view); [apply view_first; by left|apply lifecycle_view_row]. Qed.

(** An operator stop is honoured in every state, with one [down] frame from every live
    state; and once stopped or quarantined the machine is silent for ever. *)
Theorem lifecycle_stop_is_final s events :
  let '(r, s') := feed STOP_REQUESTED s in
  s' = (if decide (s = BREAKER_OPEN) then BREAKER_OPEN else DOWN) /\
  r = Ok (if decide (s = BREAKER_OPEN \/ s = DOWN) then None else Some EMIT_DOWN) /\
  tm_run events s' = ([], s').
Proof.
  assert (Habs : forall t, t = DOWN \/ t = BREAKER_OPEN -> tm_run events t = ([], t)).
  { intros t Ht. apply tm_run_absorbed. intros e. right. by destruct Ht as [->| ->], e. }
  destruct s; cbn -[tm_run]; split_and!; try done; apply Habs; auto.
Qed.
