(* ===== verification/SeqTracker.v ===== *)
(** * Receive-side sequence tracking

    [gateway/_seq_tracker.py] ([BoundedSeqAckTracker], bounded, answers a cumulative ack)
    and the [SeqDedupWindow] of [plugins/comms_seq_codec.py] (unbounded, accept-once).  Both
    advance a contiguous high-water mark with the same loop over a seen-set; the tracker
    also prunes and refuses what is too far ahead. *)
From S2P Require Import Prelude.

Inductive SeqError : Set := NegativeSeq.

Definition _MAX_OOO_GAP : Z := 1024.

(** [while (high + 1) in seen: high += 1]; every turn meets another element of [seen], so
    [size seen] turns are enough ([advance_stops]). *)
Fixpoint advance (fuel : nat) (seen : gset Z) (high : Z) : Z :=
  match fuel with
  | O => high
  | S fuel => if decide (high + 1 ∈ seen) then advance fuel seen (high + 1) else high
  end.
Definition advance_high (seen : gset Z) (high : Z) : Z := advance (size seen) seen high.

Module Tracker.
Record BoundedSeqAckTracker := { tr_seen : gset Z; tr_contiguous_high : Z }.
Definition init : BoundedSeqAckTracker := {| tr_seen := ∅; tr_contiguous_high := -1 |}.

Definition in_window (t : BoundedSeqAckTracker) (seq : Z) : bool :=
  negb (tr_contiguous_high t + _MAX_OOO_GAP <? seq).

Definition observe (seq : Z) : M BoundedSeqAckTracker SeqError unit :=
  t <-- get;
  raise_if seq <? 0 with NegativeSeq;
  if negb (in_window t seq) then ret tt
  else
    let seen := {[seq]} ∪ tr_seen t in
    let high := advance_high seen (tr_contiguous_high t) in
    put {| tr_seen := filter (fun s => high < s) seen; tr_contiguous_high := high |}.

Definition cumulative_ack (t : BoundedSeqAckTracker) : Z := tr_contiguous_high t.

Definition run (seqs : list Z) (t : BoundedSeqAckTracker) : BoundedSeqAckTracker :=
  foldl (fun t seq => (observe seq t).2) t seqs.
End Tracker.

Module Window.
Record SeqDedupWindow := { dw_leg : string; dw_seen : gset Z; dw_contiguous_high : Z }.
Definition init (leg : string) : SeqDedupWindow :=
  {| dw_leg := leg; dw_seen := ∅; dw_contiguous_high := -1 |}.

Definition accept (seq : Z) : M SeqDedupWindow SeqError bool :=
  w <-- get;
  raise_if seq <? 0 with NegativeSeq;
  if decide (seq ∈ dw_seen w) then ret false
  else
    let seen := {[seq]} ∪ dw_seen w in
    put {| dw_leg := dw_leg w; dw_seen := seen;
           dw_contiguous_high := advance_high seen (dw_contiguous_high w) |};;;
    ret true.

Definition cumulative_ack (w : SeqDedupWindow) : Z := dw_contiguous_high w.

(** What [accept] answers for a stream of seqs, and the window after it. *)
Fixpoint run (seqs : list Z) (w : SeqDedupWindow) : list (result SeqError bool) * SeqDedupWindow :=
  match seqs with
  | [] => ([], w)
  | seq :: seqs' =>
      let '(r, w') := accept seq w in
      let '(rs, w'') := run seqs' w' in (r :: rs, w'')
  end.
End Window.
Import Tracker Window.

(** ** The loop *)

(** [high] is the top of the unbroken run [0 .. high] of [P]. *)
Definition contiguous_top (P : Z -> Prop) (high : Z) : Prop :=
  -1 <= high /\ (forall k, 0 <= k <= high -> P k) /\ ~ P (high + 1).

Lemma contiguous_top_unique P h1 h2 : contiguous_top P h1 -> contiguous_top P h2 -> h1 = h2.
Proof.
  intros (L1 & A1 & N1) (L2 & A2 & N2).
  destruct (Z.lt_trichotomy h1 h2) as [?|[?|?]]; [destruct N1; apply A2; lia|done|destruct N2; apply A1; lia].
Qed.

Lemma advance_spec fuel (seen : gset Z) high :
  high <= advance fuel seen high <= high + Z.of_nat fuel /\
  (forall k, high < k <= advance fuel seen high -> k ∈ seen) /\
  (advance fuel seen high + 1 ∈ seen -> advance fuel seen high = high + Z.of_nat fuel).
Proof.
  revert high. induction fuel as [|fuel IH]; intros high; simpl; [split_and!; try lia|].
  destruct (decide (high + 1 ∈ seen)) as [Hin|Hout]; [|split_and!; [lia|lia|lia|done]].
  destruct (IH (high + 1)) as (H1 & H2 & H3). split_and!; [lia|lia| |intros H; specialize (H3 H); lia].
  intros k Hk. destruct (decide (k = high + 1)) as [->|]; [done|]. apply H2. lia.
Qed.

Definition run_above (high : Z) (n : nat) : list Z := (fun i => high + 1 + Z.of_nat i) <$> seq 0 n.
Lemma run_above_NoDup high n : NoDup (run_above high n).
Proof. apply NoDup_fmap_2; [intros a b; lia|apply NoDup_seq]. Qed.

(** A set holding [size] consecutive elements holds nothing else. *)
Lemma full_set (seen : gset Z) high :
  (forall k, high < k <= high + Z.of_nat (size seen) -> k ∈ seen) ->
  forall k, k ∈ seen -> k <= high + Z.of_nat (size seen).
Proof.
  intros Hall k Hk. destruct (Z.le_gt_cases k (high + Z.of_nat (size seen))) as [|Hgt]; [done|exfalso].
  assert (Hsub : list_to_set (C := gset Z) (k :: run_above high (size seen)) ⊆ seen).
  { intros j Hj. apply elem_of_list_to_set in Hj. apply elem_of_cons in Hj as [->|Hj]; [done|].
    apply list_elem_of_fmap in Hj as (i & -> & Hi). apply elem_of_seq in Hi. apply Hall. lia. }
  apply subseteq_size in Hsub. rewrite size_list_to_set in Hsub.
  - simpl in Hsub. unfold run_above in Hsub. rewrite length_fmap, length_seq in Hsub. lia.
  - constructor; [|apply run_above_NoDup]. intros Hj.
    apply list_elem_of_fmap in Hj as (i & -> & Hi). apply elem_of_seq in Hi. lia.
Qed.

(** The fuel is enough: the loop only stops where its condition fails. *)
Lemma advance_stops seen high : advance_high seen high + 1 ∉ seen.
Proof.
  intros Hin. unfold advance_high in *. destruct (advance_spec (size seen) seen high) as (H1 & H2 & H3).
  specialize (H3 Hin). rewrite H3 in *. pose proof (full_set seen high H2 _ Hin). lia.
Qed.

Lemma advance_top (P : Z -> Prop) (seen : gset Z) high :
  -1 <= high -> (forall k, 0 <= k <= high -> P k) -> (forall k, high < k -> P k <-> k ∈ seen) ->
  contiguous_top P (advance_high seen high) /\ high <= advance_high seen high.
Proof.
  intros Hl Hlow Hhigh. unfold advance_high.
  destruct (advance_spec (size seen) seen high) as (H1 & H2 & _). split; [|lia]. split_and!; [lia| |].
  - intros k Hk. destruct (decide (k <= high)); [apply Hlow; lia|]. apply Hhigh; [lia|]. apply H2. lia.
  - rewrite Hhigh by lia. apply advance_stops.
Qed.

(** ** The tracker *)

(** The seqs a tracker has admitted: the settled run and the holes' far sides. *)
Definition admitted (t : BoundedSeqAckTracker) (k : Z) : Prop :=
  0 <= k <= tr_contiguous_high t \/ k ∈ tr_seen t.
Record tracker_wf (t : BoundedSeqAckTracker) : Prop := {
  tw_top : contiguous_top (admitted t) (tr_contiguous_high t);
  tw_window k : k ∈ tr_seen t -> tr_contiguous_high t + 1 < k <= tr_contiguous_high t + _MAX_OOO_GAP
}.

Lemma tracker_init_wf : tracker_wf Tracker.init.
Proof.
  split.
  - split_and!; simpl; [lia|intros; lia|]. intros [?|?%elem_of_empty]; simpl in *; [lia|done].
  - intros k ?%elem_of_empty. done.
Qed.

Lemma observe_spec t seq r t' :
  tracker_wf t -> observe seq t = (r, t') ->
  tracker_wf t' /\ tr_contiguous_high t <= tr_contiguous_high t' /\
  ((seq < 0 /\ r = Err NegativeSeq /\ t' = t) \/
   (0 <= seq /\ r = Ok tt /\ in_window t seq = false /\ t' = t) \/
   (0 <= seq /\ r = Ok tt /\ in_window t seq = true /\ forall k, admitted t' k <-> admitted t k \/ k = seq)).
Proof.
  intros Hwf. unfold observe, bind, get. destruct (Z.ltb_spec seq 0) as [Hneg|Hpos].
  { intros [= <- <-]. split_and!; [done|lia|left; done]. }
  destruct (in_window t seq) eqn:Hw; simpl; intros [= <- <-].
  2:{ split_and!; [done|lia|right; left; done]. }
  destruct Hwf as [(Hl & Hlow & Hstop) Hwin]. set (seen := {[seq]} ∪ tr_seen t).
  destruct (advance_top (fun k => admitted t k \/ k = seq) seen (tr_contiguous_high t)) as [(Hl' & Hlow' & Hstop') Hmono].
  { done. }
  { intros k Hk. left. by apply Hlow. }
  { intros k Hk. unfold admitted, seen. rewrite elem_of_union, elem_of_singleton. split; [|tauto].
    intros [[?|?]|?]; [lia|tauto|tauto]. }
  set (high := advance_high seen (tr_contiguous_high t)) in *.
  assert (Hadm : forall k, admitted {| tr_seen := filter (fun s => high < s) seen; tr_contiguous_high := high |} k <->
                           admitted t k \/ k = seq).
  { intros k. unfold admitted at 1. simpl. rewrite elem_of_filter. unfold seen. rewrite elem_of_union, elem_of_singleton.
    split.
    - intros [Hk|[_ [->|Hk]]]; [by apply Hlow'|by right|by left; right].
    - intros Hk. destruct (Z.le_gt_cases k high) as [Hle|Hgt].
      + left. destruct Hk as [[?|Hk]| ->]; [lia| |lia]. pose proof (Hwin k Hk). lia.
      + right. split; [done|]. destruct Hk as [[?|Hk]| ->]; [lia|by right|by left]. }
  split_and!; [|done|right; right; done]. split; simpl.
  - split_and!; [done| |].
    + intros k Hk. apply Hadm, Hlow', Hk.
    + rewrite Hadm. exact Hstop'.
  - intros k. rewrite elem_of_filter. unfold seen. rewrite elem_of_union, elem_of_singleton.
    intros [Hgt Hk]. assert (k <> high + 1).
    { intros ->. destruct Hstop'. destruct Hk as [->|Hk]; [by right|by left; right]. }
    unfold in_window in Hw. destruct Hk as [->|Hk]; [cmp_cases; lia|]. pose proof (Hwin k Hk). lia.
Qed.

Lemma tracker_run_wf seqs : forall t, tracker_wf t -> tracker_wf (Tracker.run seqs t) /\
  tr_contiguous_high t <= tr_contiguous_high (Tracker.run seqs t) /\
  (forall k, admitted (Tracker.run seqs t) k -> admitted t k \/ k ∈ seqs).
Proof.
  induction seqs as [|s seqs IH]; intros t Hwf; simpl; [split_and!; auto; lia|].
  destruct (observe s t) as [r t'] eqn:Ho. destruct (observe_spec t s r t' Hwf Ho) as (Hwf' & Hm & Hc).
  destruct (IH t' Hwf') as (H1 & H2 & H3). simpl. split_and!; [done|lia|].
  intros k Hk. destruct (H3 k Hk) as [Ha|Hin]; [|right; by apply list_elem_of_further].
  destruct Hc as [(_ & _ & ->)|[(_ & _ & _ & ->)|(_ & _ & _ & Hadm)]]; [by left|by left|].
  apply Hadm in Ha as [?| ->]; [by left|right; apply list_elem_of_here].
Qed.

(** ** The dedup window *)
Record window_wf (w : SeqDedupWindow) : Prop := {
  ww_top : contiguous_top (fun k => k ∈ dw_seen w) (dw_contiguous_high w);
  ww_nonneg k : k ∈ dw_seen w -> 0 <= k
}.

Lemma window_init_wf leg : window_wf (Window.init leg).
Proof. split; [split_and!; simpl; [lia|intros; lia|by intros ?%elem_of_empty]|by intros k ?%elem_of_empty]. Qed.

Lemma accept_spec w seq r w' :
  window_wf w -> accept seq w = (r, w') ->
  window_wf w' /\
  ((seq < 0 /\ r = Err NegativeSeq /\ w' = w) \/
   (0 <= seq /\ seq ∈ dw_seen w /\ r = Ok false /\ w' = w) \/
   (0 <= seq /\ (seq ∉ dw_seen w) /\ r = Ok true /\ dw_seen w' = {[seq]} ∪ dw_seen w)).
Proof.
  intros Hwf. unfold accept, bind, get. destruct (Z.ltb_spec seq 0) as [Hneg|Hpos].
  { intros [= <- <-]. split; [done|by left]. }
  destruct (decide (seq ∈ dw_seen w)) as [Hin|Hout]; intros [= <- <-].
  { split; [done|]. by right; left. }
  split; [|by right; right].
  destruct Hwf as [(Hl & Hlow & Hstop) Hnn]. split; simpl.
  - eapply advance_top; [done| |done]. intros k Hk. apply elem_of_union. right. by apply Hlow.
  - intros k [->%elem_of_singleton|Hk]%elem_of_union; [done|by apply Hnn].
Qed.

(** The answers an accept-once filter should give: new unless seen earlier in the stream. *)
Fixpoint first_sightings (earlier seqs : list Z) : list (result SeqError bool) :=
  match seqs with
  | [] => []
  | s :: seqs' =>
      (if s <? 0 then Err NegativeSeq else Ok (bool_decide (s ∉ earlier))) ::
      first_sightings (earlier ++ [s]) seqs'
  end.

Lemma window_run_spec seqs : forall w earlier,
  window_wf w -> (forall k, k ∈ dw_seen w <-> 0 <= k /\ k ∈ earlier) ->
  (Window.run seqs w).1 = first_sightings earlier seqs /\ window_wf (Window.run seqs w).2 /\
  (forall k, k ∈ dw_seen (Window.run seqs w).2 <-> 0 <= k /\ k ∈ earlier ++ seqs).
Proof.
  induction seqs as [|s seqs IH]; intros w earlier Hwf Hseen; simpl; [rewrite app_nil_r; done|].
  destruct (accept s w) as [r w'] eqn:Ha. destruct (accept_spec w s r w' Hwf Ha) as [Hwf' Hcase].
  destruct (IH w' (earlier ++ [s]) Hwf') as (H1 & H2 & H3).
  { intros k. rewrite elem_of_app, list_elem_of_singleton.
    destruct Hcase as [(Hn & _ & ->)|[(Hp & Hin & _ & ->)|(Hp & Hout & _ & ->)]].
    - rewrite Hseen. split; [tauto|]. intros [? [?| ->]]; [tauto|lia].
    - rewrite Hseen. split; [tauto|]. intros [? [?| ->]]; [tauto|by apply Hseen].
    - rewrite elem_of_union, elem_of_singleton, Hseen. split; [|tauto]. intros [->|?]; tauto. }
  destruct (Window.run seqs w') as [rs w'']. simpl in *. split_and!; [|done|].
  - rewrite H1. f_equal. destruct Hcase as [(Hn & -> & _)|[(Hp & Hin & -> & _)|(Hp & Hout & -> & _)]].
    + by apply Z.ltb_lt in Hn as ->.
    + destruct (Z.ltb_spec s 0); [lia|]. f_equal. symmetry. apply bool_decide_eq_false. intros Hne. apply Hne. by apply Hseen.
    + destruct (Z.ltb_spec s 0); [lia|]. f_equal. symmetry. apply bool_decide_eq_true. intros Hin. apply Hout. by apply Hseen.
  - intros k. rewrite H3, <- app_assoc. done.
Qed.

(** Every seq of the stream is admitted when it comes. *)
Fixpoint all_in_window (seqs : list Z) (t : BoundedSeqAckTracker) : bool :=
  match seqs with
  | [] => true
  | s :: seqs' => (0 <=? s) && in_window t s && all_in_window seqs' (observe s t).2
  end.

Lemma tracker_run_admits seqs : forall t, tracker_wf t -> all_in_window seqs t = true ->
  forall k, admitted (Tracker.run seqs t) k <-> admitted t k \/ k ∈ seqs.
Proof.
  induction seqs as [|s seqs IH]; intros t Hwf Hall k; simpl.
  { split; [by left|]. by intros [?|?%elem_of_nil]. }
  simpl in Hall. apply andb_true_iff in Hall as [[Hp%Z.leb_le Hw]%andb_true_iff Hall].
  destruct (observe s t) as [r t'] eqn:Ho. destruct (observe_spec t s r t' Hwf Ho) as (Hwf' & _ & Hc).
  simpl in Hall. simpl. rewrite (IH t' Hwf' Hall k), elem_of_cons.
  destruct Hc as [(? & _)|[(_ & _ & Hw' & _)|(_ & _ & _ & Hadm)]]; [lia|congruence|]. rewrite Hadm. tauto.
Qed.

Lemma small_stream_in_window n seqs : forall t,
  tracker_wf t -> n <= _MAX_OOO_GAP -> (forall k, k ∈ seqs -> 0 <= k < n) -> all_in_window seqs t = true.
Proof.
  induction seqs as [|s seqs IH]; intros t Hwf Hn Hall; simpl; [done|].
  destruct (Hall s (list_elem_of_here _ _)) as [Hs0 Hsn]. destruct (tw_top t Hwf) as [Hl _].
  destruct (observe s t) as [r t'] eqn:Ho. destruct (observe_spec t s r t' Hwf Ho) as (Hwf' & _ & _). simpl.
  rewrite (IH t' Hwf' Hn) by (intros k Hk; apply Hall; by apply list_elem_of_further).
  unfold in_window. cmp_cases; lia || done.
Qed.

(** ** Theorems *)

(** Whatever stream a tracker observes, its cumulative ack is the top of the unbroken
    run of what it admitted, never acknowledges a seq it was not sent, and never goes back;
    and it retains fewer than [_MAX_OOO_GAP] seqs however long or hostile the stream is. *)
Theorem tracker_ack_sound_and_bounded seqs more :
  let t := Tracker.run seqs Tracker.init in
  contiguous_top (admitted t) (Tracker.cumulative_ack t) /\
  (forall k, 0 <= k <= Tracker.cumulative_ack t -> k ∈ seqs) /\
  Tracker.cumulative_ack t <= Tracker.cumulative_ack (Tracker.run more t) /\
  Z.of_nat (size (tr_seen t)) < _MAX_OOO_GAP.
Proof.
  intros t. destruct (tracker_run_wf seqs Tracker.init tracker_init_wf) as (Hwf & _ & Hin). fold t in Hwf, Hin.
  destruct (tracker_run_wf more t Hwf) as (_ & Hm & _).
  split_and!; [apply Hwf| |done|].
  - intros k Hk. destruct (Hin k (or_introl Hk)) as [[?|?%elem_of_empty]|?]; simpl in *; [lia|done|done].
  - set (n := Z.to_nat (_MAX_OOO_GAP - 1)).
    assert (Hsub : tr_seen t ⊆ list_to_set (run_above (tr_contiguous_high t + 1) n)).
    { intros k Hk. apply elem_of_list_to_set, list_elem_of_fmap. pose proof (tw_window t Hwf k Hk).
      exists (Z.to_nat (k - (tr_contiguous_high t + 2))). rewrite elem_of_seq. unfold n, _MAX_OOO_GAP in *. split; lia. }
    apply subseteq_size in Hsub. rewrite size_list_to_set in Hsub by apply run_above_NoDup.
    unfold run_above in Hsub. rewrite length_fmap, length_seq in Hsub. unfold n, _MAX_OOO_GAP in *. lia.
Qed.

(** On a stream the tracker admits whole, in any order and with any repeats, its
    bounded state gives the same cumulative ack as the unbounded dedup window. *)
Theorem tracker_agrees_with_dedup_window leg seqs :
  all_in_window seqs Tracker.init = true ->
  Tracker.cumulative_ack (Tracker.run seqs Tracker.init) =
  Window.cumulative_ack (Window.run seqs (Window.init leg)).2.
Proof.
  intros Hall. eapply (contiguous_top_unique (fun k => 0 <= k /\ k ∈ seqs)).
  - destruct (tracker_run_wf seqs Tracker.init tracker_init_wf) as ([(Hl & Hlow & Hstop) _] & _ & _).
    assert (Hadm : forall k, admitted (Tracker.run seqs Tracker.init) k -> k ∈ seqs).
    { intros k Hk%tracker_run_admits; [|apply tracker_init_wf|done].
      destruct Hk as [[?|?%elem_of_empty]|?]; simpl in *; [lia|done|done]. }
    split_and!; [done|intros k Hk; split; [lia|by apply Hadm, Hlow]|].
    intros [_ Hin]. apply Hstop. apply tracker_run_admits; [apply tracker_init_wf|done|by right].
  - destruct (window_run_spec seqs (Window.init leg) [] (window_init_wf leg)) as (_ & [(Hl & Hlow & Hstop) _] & Hseen).
    { intros k. simpl. split; [by intros ?%elem_of_empty|by intros [_ ?%elem_of_nil]]. }
    split_and!; [done|intros k Hk; by apply Hseen, Hlow|]. intros Hin. by apply Hstop, Hseen.
Qed.

Lemma tracker_agrees_with_dedup_window_witness :
  Tracker.cumulative_ack (Tracker.run [2; 0; 5; 1; 0] Tracker.init) = 2 /\
  Tracker.cumulative_ack (Tracker.run [2; 0; 5; 1; 0] Tracker.init) =
  Window.cumulative_ack (Window.run [2; 0; 5; 1; 0] (Window.init "inbound")).2.
Proof.
  split; [vm_compute; reflexivity|].
  apply (tracker_agrees_with_dedup_window "inbound" [2; 0; 5; 1; 0]). vm_compute. reflexivity.
Defined.

(** Reordering within the window never loses an ack: any arrival order of the seqs
    [0 .. n-1], [n] up to [_MAX_OOO_GAP], ends with all of them acknowledged and nothing
    retained. *)
Theorem tracker_acks_any_reordering n seqs :
  0 <= n <= _MAX_OOO_GAP -> (forall k, k ∈ seqs <-> 0 <= k < n) ->
  let t := Tracker.run seqs Tracker.init in
  Tracker.cumulative_ack t = n - 1 /\ tr_seen t = ∅.
Proof.
  intros Hn Hseqs t.
  assert (Hall : all_in_window seqs Tracker.init = true).
  { eapply small_stream_in_window; [apply tracker_init_wf|apply Hn|]. intros k Hk. by apply Hseqs. }
  destruct (tracker_run_wf seqs Tracker.init tracker_init_wf) as ([Htop Hwin] & _ & Hin). fold t in Htop, Hwin, Hin.
  assert (Hadm : forall k, admitted t k <-> 0 <= k < n).
  { intros k. unfold t. rewrite tracker_run_admits by (apply tracker_init_wf || done). rewrite Hseqs.
    unfold admitted, Tracker.init. simpl. rewrite elem_of_empty. lia. }
  assert (Hack : tr_contiguous_high t = n - 1).
  { apply (contiguous_top_unique (admitted t)); [done|]. split_and!; [lia| |].
    - intros k Hk. apply Hadm. lia.
    - rewrite Hadm. lia. }
  split; [done|]. apply set_eq. intros k. split; [|by intros ?%elem_of_empty].
  intros Hk. pose proof (Hwin k Hk). assert (admitted t k) as ?%Hadm by by right. lia.
Qed.

Lemma tracker_acks_any_reordering_witness :
  let t := Tracker.run [3; 1; 2; 0; 1] Tracker.init in
  Tracker.cumulative_ack t = 4 - 1 /\ tr_seen t = ∅.
Proof.
  apply (tracker_acks_any_reordering 4 [3; 1; 2; 0; 1]); [unfold _MAX_OOO_GAP; lia|].
  intros k. rewrite !elem_of_cons. split; [intros [?|[?|[?|[?|[?|H]]]]]; try lia; by apply elem_of_nil in H|lia].
Defined.

(** The dedup window answers [True] exactly at the first sighting of each seq and
    [False] at every later one, raises exactly on a negative seq, and its cumulative ack is
    the top of the unbroken run of everything it was given. *)
Theorem dedup_window_accepts_each_seq_once leg seqs :
  let '(answers, w) := Window.run seqs (Window.init leg) in
  answers = first_sightings [] seqs /\
  contiguous_top (fun k => 0 <= k /\ k ∈ seqs) (Window.cumulative_ack w).
Proof.
  destruct (window_run_spec seqs (Window.init leg) [] (window_init_wf leg)) as (Ha & [(Hl & Hlow & Hstop) _] & Hseen).
  { intros k. simpl. split; [by intros ?%elem_of_empty|by intros [_ ?%elem_of_nil]]. }
  destruct (Window.run seqs (Window.init leg)) as [answers w]. simpl in *. split; [done|].
  split_and!; [done|intros k Hk; by apply Hseen, Hlow|]. intros Hin. by apply Hstop, Hseen.
Qed.
