(* ===== verification/SeqCodec.v ===== *)
(** * [plugins/comms_seq_codec.py]: the out-of-band seq/ack header

    Bytes are lists of bytes; [b"%d"], [str], [bytes.isdigit] and [int] are written out for
    the values the codec gives them, the interpreter's limit of 4300 digits on [int] of a
    string included. *)
From S2P Require Import Prelude.
From Stdlib Require Import Strings.Byte.

Definition bytes : Type := list byte.
Definition b_ (s : string) : bytes := String.list_byte_of_string s.

(** [plugins/comms_wire.py] *)
Definition _MAX_COMMS_LINE_BYTES : Z := 10 * 1024 * 1024.
Inductive CodecError : Set := CommsProtocolError (reason : string) | CodecValueError.

(** ** Decimal numerals *)
Definition digit_byte (d : N) : byte := default x30 (Byte.of_N (48 + d)).
Definition is_digit_byte (b : byte) : bool := (48 <=? Byte.to_N b)%N && (Byte.to_N b <=? 57)%N.
Definition digit_value (b : byte) : N := (Byte.to_N b - 48)%N.

(** [str(n)] as bytes; each turn drops a digit, so [log2 n] turns and one are enough. *)
Fixpoint digits_loop (fuel : nat) (n : N) : bytes :=
  match fuel with
  | O => [digit_byte n]
  | S fuel => if (n <? 10)%N then [digit_byte n] else digits_loop fuel (n / 10) ++ [digit_byte (n mod 10)]
  end.
Definition digits (n : N) : bytes := digits_loop (N.to_nat (N.size n)) n.

(** [int(body)] of a digit-only body; longer than the interpreter's limit it raises. *)
Definition _INT_MAX_STR_DIGITS : Z := 4300.
Definition digits_value (body : bytes) : N := fold_left (fun v b => 10 * v + digit_value b)%N body 0%N.
Definition py_int (body : bytes) : result CodecError N :=
  if _INT_MAX_STR_DIGITS <? Zlen body then Err CodecValueError else Ok (digits_value body).

(** ** Byte strings *)
Fixpoint starts_with (prefix raw : bytes) : bool :=
  match prefix, raw with
  | [], _ => true
  | p :: prefix', r :: raw' => bool_decide (p = r) && starts_with prefix' raw'
  | _ :: _, [] => false
  end.
(** [raw[:-1] if raw.endswith(b"\n") else raw] *)
Fixpoint strip_newline (raw : bytes) : bytes :=
  match raw with
  | [] => []
  | [b] => if bool_decide (b = x0a) then [] else [b]
  | b :: raw' => b :: strip_newline raw'
  end.
(** [line[:line.find(delim)]] and [line[line.find(delim) + len(delim):]] *)
Fixpoint split_at (delim line : bytes) : option (bytes * bytes) :=
  if starts_with delim line then Some ([], drop (length delim) line)
  else match line with
       | [] => None
       | b :: line' => match split_at delim line' with
                       | Some (header, payload) => Some (b :: header, payload)
                       | None => None
                       end
       end.
(** [header.split(b" ")] *)
Fixpoint split_spaces (header : bytes) : list bytes :=
  match header with
  | [] => [[]]
  | b :: header' =>
      match split_spaces header' with
      | [] => [[b]]
      | tok :: toks => if bool_decide (b = x20) then [] :: tok :: toks else (b :: tok) :: toks
      end
  end.

(** ** The codec *)
Definition SEQ_VERSION : string := "1".
Definition SEQ_MAGIC : bytes := b_ "A" ++ b_ SEQ_VERSION.
Definition _DELIM : bytes := b_ " |".
Definition _MAX_DECIMAL_WIDTH : Z := Zlen (digits (Z.to_N _MAX_COMMS_LINE_BYTES)).
Definition _HEADER_SKELETON : bytes := b_ "A1 s= a= n= |".
Definition _MAX_HEADER_BYTES : Z := Zlen _HEADER_SKELETON + 3 * _MAX_DECIMAL_WIDTH + 1.

Record SeqFrame := { sf_seq : option Z; sf_ack : option Z; sf_payload : bytes }.

Definition encode_seq_frame (payload : bytes) (seq ack max_unit_bytes : Z) : result CodecError bytes :=
  if (seq <? 0) || (ack <? 0) then Err CodecValueError
  else if (_MAX_DECIMAL_WIDTH <? Zlen (digits (Z.to_N seq))) || (_MAX_DECIMAL_WIDTH <? Zlen (digits (Z.to_N ack)))
  then Err CodecValueError
  else
    let header := SEQ_MAGIC ++ b_ " s=" ++ digits (Z.to_N seq) ++ b_ " a=" ++ digits (Z.to_N ack)
                  ++ b_ " n=" ++ digits (N.of_nat (length payload)) in
    let unit_ := header ++ _DELIM ++ payload ++ [x0a] in
    if max_unit_bytes <? Zlen unit_ then Err (CommsProtocolError "exceeds the per-frame byte bound")
    else Ok unit_.

Definition _parse_kv (token prefix : bytes) : result CodecError Z :=
  if negb (starts_with prefix token) then Err CodecValueError
  else
    let body := drop (length prefix) token in
    if bool_decide (body = []) || negb (forallb is_digit_byte body) then Err CodecValueError
    else match py_int body with
         | Err e => Err e
         | Ok value => Ok (Z.of_N value)
         end.

Definition malformed : CodecError := CommsProtocolError "header is malformed".

Definition decode_seq_frame (raw : bytes) (max_unit_bytes : Z) : result CodecError SeqFrame :=
  if max_unit_bytes <? Zlen raw then Err (CommsProtocolError "exceeds the per-frame byte bound")
  else
    let line := strip_newline raw in
    if negb (starts_with SEQ_MAGIC line) then Ok {| sf_seq := None; sf_ack := None; sf_payload := line |}
    else match split_at _DELIM line with
         | None => Err (CommsProtocolError "header has no payload delimiter")
         | Some (header, payload) =>
             match split_spaces header with
             | [_magic; s_tok; a_tok; n_tok] =>
                 match _parse_kv s_tok (b_ "s="), _parse_kv a_tok (b_ "a="), _parse_kv n_tok (b_ "n=") with
                 | Ok seq, Ok ack, Ok declared_len =>
                     if declared_len =? Zlen payload
                     then Ok {| sf_seq := Some seq; sf_ack := Some ack; sf_payload := payload |}
                     else Err (CommsProtocolError "declared length mismatch")
                 | _, _, _ => Err malformed
                 end
             | _ => Err malformed
             end
         end.

Example width : _MAX_DECIMAL_WIDTH = 8 /\ _MAX_HEADER_BYTES = 38.
Proof. by vm_compute. Qed.

(** ** Numerals *)
Lemma N_lt_10 (P : N -> Prop) : P 0%N -> P 1%N -> P 2%N -> P 3%N -> P 4%N -> P 5%N -> P 6%N -> P 7%N -> P 8%N -> P 9%N ->
  forall d, (d < 10)%N -> P d.
Proof.
  intros. assert (d = 0 \/ d = 1 \/ d = 2 \/ d = 3 \/ d = 4 \/ d = 5 \/ d = 6 \/ d = 7 \/ d = 8 \/ d = 9)%N by lia.
  naive_solver.
Qed.
Lemma digit_byte_spec d : (d < 10)%N -> is_digit_byte (digit_byte d) = true /\ digit_value (digit_byte d) = d.
Proof. revert d. by apply N_lt_10. Qed.

Lemma digits_value_app l b : digits_value (l ++ [b]) = (10 * digits_value l + digit_value b)%N.
Proof. unfold digits_value. by rewrite fold_left_app. Qed.

Lemma div10 n : (10 <= n -> n / 10 < n)%N.
Proof. intros H. apply N.div_lt; lia. Qed.
Lemma digits_loop_spec fuel : forall n, (n < 2 ^ N.of_nat fuel)%N ->
  digits_value (digits_loop fuel n) = n /\ forallb is_digit_byte (digits_loop fuel n) = true /\ digits_loop fuel n <> [].
Proof.
  induction fuel as [|fuel IH]; intros n Hn; cbn [digits_loop].
  { assert (n = 0)%N as -> by (simpl in Hn; lia). done. }
  destruct (N.ltb_spec n 10) as [Hlt|Hge].
  { destruct (digit_byte_spec n Hlt) as [Hd Hv]. cbn. rewrite Hd. split_and!; [|done|done].
    unfold digits_value. cbn [fold_left]. rewrite Hv. lia. }
  assert (Hdiv : (n / 10 < 2 ^ N.of_nat fuel)%N).
  { apply N.Div0.div_lt_upper_bound. rewrite Nat2N.inj_succ, N.pow_succ_r' in Hn. lia. }
  destruct (IH _ Hdiv) as (H1 & H2 & H3).
  destruct (digit_byte_spec (n mod 10)) as [Hd Hv]; [by apply N.mod_lt|].
  split_and!.
  - rewrite digits_value_app, H1, Hv. symmetry. apply N.div_mod. lia.
  - rewrite forallb_app, H2. cbn. by rewrite Hd.
  - by destruct (digits_loop fuel (n / 10)).
Qed.
Lemma digits_spec n :
  digits_value (digits n) = n /\ forallb is_digit_byte (digits n) = true /\ digits n <> [].
Proof. apply digits_loop_spec. rewrite N2Nat.id. apply N.size_gt. Qed.

(** A number below [10 ^ k] prints in at most [k] digits. *)
Lemma digits_loop_width fuel : forall n k, (0 < k)%nat -> (n < 10 ^ N.of_nat k)%N -> (length (digits_loop fuel n) <= k)%nat.
Proof.
  induction fuel as [|fuel IH]; intros n k Hk Hn; cbn [digits_loop]; [simpl; lia|].
  destruct (N.ltb_spec n 10); [simpl; lia|]. rewrite length_app. simpl.
  destruct k as [|k]; [lia|]. destruct (decide (k = 0%nat)) as [->|Hk0]; [simpl in Hn; lia|].
  assert (length (digits_loop fuel (n / 10)) <= k)%nat; [|lia]. apply IH; [lia|].
  apply N.Div0.div_lt_upper_bound. by rewrite Nat2N.inj_succ, N.pow_succ_r' in Hn.
Qed.
Lemma digits_width n k : (0 < k)%nat -> (n < 10 ^ N.of_nat k)%N -> Zlen (digits n) <= Z.of_nat k.
Proof. intros Hk Hn. unfold Zlen, digits. pose proof (digits_loop_width (N.to_nat (N.size n)) n k Hk Hn). lia. Qed.

(** ** Scanning *)
Lemma starts_with_app p l : starts_with p (p ++ l) = true.
Proof. induction p as [|b p IH]; simpl; [done|]. by rewrite bool_decide_eq_true_2. Qed.
Lemma starts_with_spec p l : starts_with p l = true -> exists l', l = p ++ l'.
Proof.
  revert l. induction p as [|b p IH]; intros l; simpl; [by exists l|].
  destruct l as [|c l]; [done|]. intros [->%bool_decide_eq_true Hp]%andb_true_iff.
  destruct (IH _ Hp) as [l' ->]. by exists l'.
Qed.
Lemma strip_newline_snoc l : strip_newline (l ++ [x0a]) = l.
Proof.
  induction l as [|b l IH]; [done|]. destruct l as [|c l]; [done|]. cbn [app strip_newline] in *. by rewrite IH.
Qed.

(** No space is a digit, and the delimiter starts with a space. *)
Definition no_space (l : bytes) : Prop := Forall (fun b => b <> x20) l.
Lemma digit_not_space b : is_digit_byte b = true -> b <> x20.
Proof. by intros H ->. Qed.
Lemma digits_no_space n : no_space (digits n).
Proof.
  destruct (digits_spec n) as (_ & H & _). apply Forall_forall. intros b Hb. apply digit_not_space.
  rewrite forallb_forall in H. apply H. by apply list_elem_of_In.
Qed.

Lemma split_at_no_space l rest : no_space l ->
  split_at _DELIM (l ++ _DELIM ++ rest) = Some (l, rest).
Proof.
  intros Hl. induction Hl as [|b l Hb Hl IH]; [done|].
  cbn [app split_at]. rewrite IH. destruct (starts_with _DELIM _) eqn:Hs; [|done].
  apply starts_with_spec in Hs as [l' Heq]. by destruct b; simplify_eq/=.
Qed.
(** A space that does not begin the delimiter is passed over. *)
Lemma split_at_space c l line header payload :
  c <> x7c -> split_at _DELIM line = Some (header, payload) -> line = c :: l ->
  split_at _DELIM (x20 :: line) = Some (x20 :: header, payload).
Proof. intros Hc Hs ->. cbn [split_at] in *. rewrite Hs. destruct c; try done. Qed.
Lemma split_at_prefix pre line header payload :
  no_space pre -> split_at _DELIM line = Some (header, payload) -> 
  split_at _DELIM (pre ++ line) = Some (pre ++ header, payload).
Proof.
  intros Hpre Hs. induction Hpre as [|b pre Hb Hpre IH]; [done|].
  cbn [app split_at]. rewrite IH. destruct (starts_with _DELIM _) eqn:Hd; [|done].
  apply starts_with_spec in Hd as [l' Heq]. by destruct b; simplify_eq/=.
Qed.

Lemma split_spaces_no_space l : no_space l -> split_spaces l = [l].
Proof.
  intros Hl. induction Hl as [|b l Hb Hl IH]; [done|]. cbn [split_spaces]. rewrite IH.
  by rewrite bool_decide_eq_false_2.
Qed.
Lemma split_spaces_cons l rest : no_space l -> split_spaces (l ++ x20 :: rest) = l :: split_spaces rest.
Proof.
  intros Hl. induction Hl as [|b l Hb Hl IH]; cbn [app split_spaces].
  - destruct (split_spaces rest) eqn:He; [|done].
    exfalso. clear -He. destruct rest as [|c rest]; [done|]. cbn [split_spaces] in He.
    by destruct (split_spaces rest); [|case_bool_decide].
  - rewrite IH. by rewrite bool_decide_eq_false_2.
Qed.

(** ** Counters on the wire *)
Lemma parse_kv_digits prefix n :
  Zlen (digits n) <= _INT_MAX_STR_DIGITS -> _parse_kv (prefix ++ digits n) prefix = Ok (Z.of_N n).
Proof.
  intros Hw. unfold _parse_kv, py_int. rewrite starts_with_app, drop_app_length. simpl.
  destruct (digits_spec n) as (Hv & Hd & Hne). rewrite Hd, bool_decide_eq_false_2 by done. simpl.
  destruct (Z.ltb_spec _INT_MAX_STR_DIGITS (Zlen (digits n))); [lia|]. by rewrite Hv.
Qed.
Lemma no_space_app l k : no_space l -> no_space k -> no_space (l ++ k).
Proof. intros. by apply Forall_app. Qed.

(** The unit [encode_seq_frame] builds. *)
Definition wire_unit (payload : bytes) (s a : N) : bytes :=
  (SEQ_MAGIC ++ b_ " s=" ++ digits s ++ b_ " a=" ++ digits a ++ b_ " n=" ++ digits (N.of_nat (length payload)))
  ++ _DELIM ++ payload ++ [x0a].

Lemma wire_unit_length payload s a :
  Zlen (wire_unit payload s a) =
    Zlen _HEADER_SKELETON + Zlen (digits s) + Zlen (digits a) + Zlen (digits (N.of_nat (length payload))) + Zlen payload + 1.
Proof. unfold wire_unit. rewrite !Zlen_app. change (Zlen [x0a]) with 1. change (Zlen SEQ_MAGIC) with 2.
  change (Zlen (b_ " s=")) with 3. change (Zlen (b_ " a=")) with 3. change (Zlen (b_ " n=")) with 3.
  change (Zlen _DELIM) with 2. change (Zlen _HEADER_SKELETON) with 13. lia. Qed.

Lemma decode_wire_unit payload s a max :
  Zlen (wire_unit payload s a) <= max ->
  Zlen (digits s) <= _INT_MAX_STR_DIGITS -> Zlen (digits a) <= _INT_MAX_STR_DIGITS ->
  Zlen (digits (N.of_nat (length payload))) <= _INT_MAX_STR_DIGITS ->
  decode_seq_frame (wire_unit payload s a) max =
    Ok {| sf_seq := Some (Z.of_N s); sf_ack := Some (Z.of_N a); sf_payload := payload |}.
Proof.
  intros Hlen Hs Ha Hn. unfold decode_seq_frame. destruct (Z.ltb_spec max (Zlen (wire_unit payload s a))); [lia|].
  set (n := N.of_nat (length payload)) in *.
  set (stok := b_ "s=" ++ digits s). set (atok := b_ "a=" ++ digits a). set (ntok := b_ "n=" ++ digits n).
  assert (Hst : no_space stok) by (apply no_space_app; [by repeat constructor|apply digits_no_space]).
  assert (Hat : no_space atok) by (apply no_space_app; [by repeat constructor|apply digits_no_space]).
  assert (Hnt : no_space ntok) by (apply no_space_app; [by repeat constructor|apply digits_no_space]).
  set (header := SEQ_MAGIC ++ x20 :: stok ++ x20 :: atok ++ x20 :: ntok).
  assert (Hline : strip_newline (wire_unit payload s a) = header ++ _DELIM ++ payload).
  { unfold wire_unit. rewrite !app_assoc. rewrite strip_newline_snoc. unfold header, stok, atok, ntok.
    repeat (rewrite <- app_assoc || rewrite <- app_comm_cons). reflexivity. }
  assert (Hsplit : split_at _DELIM (header ++ _DELIM ++ payload) = Some (header, payload)).
  { unfold header. rewrite <- !app_assoc. apply split_at_prefix; [by repeat constructor|].
    cbn [app]. eapply (split_at_space x73); [done| |reflexivity].
    rewrite <- app_assoc. apply split_at_prefix; [done|].
    cbn [app]. eapply (split_at_space x61); [done| |reflexivity].
    rewrite <- app_assoc. apply split_at_prefix; [done|].
    cbn [app]. eapply (split_at_space x6e); [done| |reflexivity].
    by apply split_at_no_space. }
  assert (Htoks : split_spaces header = [SEQ_MAGIC; stok; atok; ntok]).
  { unfold header. rewrite split_spaces_cons by by repeat constructor.
    rewrite split_spaces_cons by done. rewrite split_spaces_cons by done. by rewrite split_spaces_no_space. }
  rewrite Hline, Hsplit, Htoks. unfold header at 1. rewrite <- app_assoc, starts_with_app. simpl negb. cbv iota.
  unfold stok, atok, ntok. rewrite !parse_kv_digits by done.
  unfold n, Zlen. rewrite nat_N_Z, Z.eqb_refl. done.
Qed.

Lemma encode_cases payload seq ack max :
  (seq < 0 \/ ack < 0 \/ _MAX_DECIMAL_WIDTH < Zlen (digits (Z.to_N seq)) \/ _MAX_DECIMAL_WIDTH < Zlen (digits (Z.to_N ack))) /\
    encode_seq_frame payload seq ack max = Err CodecValueError \/
  (0 <= seq /\ 0 <= ack /\ Zlen (digits (Z.to_N seq)) <= _MAX_DECIMAL_WIDTH /\ Zlen (digits (Z.to_N ack)) <= _MAX_DECIMAL_WIDTH) /\
    let u := wire_unit payload (Z.to_N seq) (Z.to_N ack) in
    encode_seq_frame payload seq ack max =
      if max <? Zlen u then Err (CommsProtocolError "exceeds the per-frame byte bound") else Ok u.
Proof.
  unfold encode_seq_frame, wire_unit.
  destruct (Z.ltb_spec seq 0); [left; split; [lia|done]|]. destruct (Z.ltb_spec ack 0); [left; split; [lia|done]|].
  destruct (Z.ltb_spec _MAX_DECIMAL_WIDTH (Zlen (digits (Z.to_N seq)))); [left; split; [lia|done]|].
  destruct (Z.ltb_spec _MAX_DECIMAL_WIDTH (Zlen (digits (Z.to_N ack)))); [left; split; [lia|done]|].
  right. split; [done|]. done.
Qed.

(** Payloads on a wire no longer than the line bound print their length in the width. *)
Lemma payload_width payload s a max :
  max <= _MAX_COMMS_LINE_BYTES -> Zlen (wire_unit payload s a) <= max \/ Zlen payload <= max ->
  Zlen (digits (N.of_nat (length payload))) <= _MAX_DECIMAL_WIDTH.
Proof.
  intros Hmax Hlen. assert (Hp : Zlen payload <= max).
  { destruct Hlen as [Hlen|]; [|done]. rewrite wire_unit_length in Hlen.
    pose proof (Zlen_nonneg _HEADER_SKELETON). pose proof (Zlen_nonneg (digits s)). pose proof (Zlen_nonneg (digits a)).
    pose proof (Zlen_nonneg (digits (N.of_nat (length payload)))). lia. }
  change _MAX_DECIMAL_WIDTH with (Z.of_nat 8). apply digits_width; [lia|].
  assert (10 ^ N.of_nat 8 = 100000000)%N as -> by reflexivity.
  unfold _MAX_COMMS_LINE_BYTES, Zlen in *. lia.
Qed.

(** ** Theorems *)

(** C40: on a wire within the line bound, whatever [encode_seq_frame] produces decodes to
    exactly the seq, ack and payload it was given, for every payload, newlines and header
    look-alikes included. *)
Theorem seq_frame_round_trip payload seq ack max unit_ :
  max <= _MAX_COMMS_LINE_BYTES -> encode_seq_frame payload seq ack max = Ok unit_ ->
  decode_seq_frame unit_ max = Ok {| sf_seq := Some seq; sf_ack := Some ack; sf_payload := payload |}.
Proof.
  intros Hmax He. destruct (encode_cases payload seq ack max) as [[_ H]|[(Hs & Ha & Hws & Hwa) H]]; rewrite H in He; [done|].
  destruct (Z.ltb_spec max (Zlen (wire_unit payload (Z.to_N seq) (Z.to_N ack)))); simplify_eq.
  assert (_MAX_DECIMAL_WIDTH <= _INT_MAX_STR_DIGITS) by by vm_compute.
  pose proof (payload_width payload _ _ max Hmax (or_introl H0)).
  rewrite decode_wire_unit by lia. by rewrite !Z2N.id.
Qed.

Lemma seq_frame_round_trip_witness :
  decode_seq_frame (b_ "A1 s=7 a=0 n=14 | |A1 s=1 a=2 |" ++ [x0a]) 64 =
    Ok {| sf_seq := Some 7; sf_ack := Some 0; sf_payload := b_ " |A1 s=1 a=2 |" |}.
Proof.
  apply (seq_frame_round_trip (b_ " |A1 s=1 a=2 |") 7 0 64); [by vm_compute|vm_compute; reflexivity].
Defined.

(** The documented reservation is enough: a payload at most [max - _MAX_HEADER_BYTES]
    long always encodes, for all counters of at most eight digits, into a unit within the
    bound; and [encode_seq_frame] raises a value error exactly on a negative counter or one
    wider than the reservation. *)
Theorem seq_header_reservation_suffices payload seq ack max :
  max <= _MAX_COMMS_LINE_BYTES -> Zlen payload <= max - _MAX_HEADER_BYTES ->
  (0 <= seq < 10 ^ 8 -> 0 <= ack < 10 ^ 8 ->
   exists unit_, encode_seq_frame payload seq ack max = Ok unit_ /\ Zlen unit_ <= max) /\
  (encode_seq_frame payload seq ack max = Err CodecValueError <->
   seq < 0 \/ ack < 0 \/ _MAX_DECIMAL_WIDTH < Zlen (digits (Z.to_N seq)) \/ _MAX_DECIMAL_WIDTH < Zlen (digits (Z.to_N ack))).
Proof.
  intros Hmax Hp. assert (Hh : 0 <= _MAX_HEADER_BYTES) by by vm_compute.
  assert (Hp' : Zlen payload <= max) by lia.
  pose proof (payload_width payload 0 0 max Hmax (or_intror Hp')) as Hwn.
  destruct (encode_cases payload seq ack max) as [[Hbad He]|[(Hs & Ha & Hws & Hwa) He]].
  - split; [|by split]. intros Hs Ha.
    assert (Hw : forall k, 0 <= k < 10 ^ 8 -> Zlen (digits (Z.to_N k)) <= _MAX_DECIMAL_WIDTH).
    { intros k Hk. change _MAX_DECIMAL_WIDTH with (Z.of_nat 8). apply digits_width; [lia|].
      assert (10 ^ N.of_nat 8 = 100000000)%N as -> by reflexivity. lia. }
    pose proof (Hw seq Hs). pose proof (Hw ack Ha). lia.
  - cbv zeta in He. set (u := wire_unit payload (Z.to_N seq) (Z.to_N ack)) in *.
    assert (Hu : Zlen u <= max).
    { unfold u. rewrite wire_unit_length. unfold _MAX_HEADER_BYTES in Hp. lia. }
    destruct (Z.ltb_spec max (Zlen u)); [lia|]. split; [intros _ _; by exists u|]. rewrite He. split; [done|lia].
Qed.

Lemma seq_header_reservation_suffices_witness :
  exists unit_, encode_seq_frame (b_ "payload") 99999999 12 45 = Ok unit_ /\ Zlen unit_ <= 45.
Proof.
  apply (seq_header_reservation_suffices (b_ "payload") 99999999 12 45); [by vm_compute|by vm_compute|by vm_compute|by vm_compute].
Defined.

Lemma split_at_spec delim line header payload :
  split_at delim line = Some (header, payload) -> line = header ++ delim ++ payload.
Proof.
  revert header payload. induction line as [|b line IH]; intros header payload; cbn [split_at].
  - destruct (starts_with delim []) eqn:Hs; [|done]. apply starts_with_spec in Hs as [l' Hl].
    intros [= <- <-]. symmetry in Hl. apply app_nil in Hl as [-> ->]. done.
  - destruct (starts_with delim (b :: line)) eqn:Hs.
    + apply starts_with_spec in Hs as [l' Hl]. intros [= <- <-]. rewrite Hl, drop_app_length. done.
    + destruct (split_at delim line) as [[h p]|]; [|done]. intros [= <- <-]. simpl. f_equal. by apply IH.
Qed.

(** Decoding invents nothing: an over-long unit is refused; a line without the magic
    comes back whole and un-sequenced; and a sequenced result's payload is, byte for byte,
    what follows the delimiter, as long as the header declares, with non-negative
    counters. *)
Theorem decode_is_payload_blind raw max f :
  decode_seq_frame raw max = Ok f ->
  Zlen raw <= max /\
  match sf_seq f, sf_ack f with
  | None, None => sf_payload f = strip_newline raw /\ starts_with SEQ_MAGIC (strip_newline raw) = false
  | Some seq, Some ack =>
      0 <= seq /\ 0 <= ack /\
      exists header magic s_tok a_tok n_tok,
        strip_newline raw = header ++ _DELIM ++ sf_payload f /\
        split_spaces header = [magic; s_tok; a_tok; n_tok] /\
        _parse_kv s_tok (b_ "s=") = Ok seq /\ _parse_kv a_tok (b_ "a=") = Ok ack /\
        _parse_kv n_tok (b_ "n=") = Ok (Zlen (sf_payload f))
  | _, _ => False
  end.
Proof.
  assert (Hnn : forall t p v, _parse_kv t p = Ok v -> 0 <= v).
  { intros t p v. unfold _parse_kv, py_int. repeat case_match; intros; simplify_eq; lia. }
  unfold decode_seq_frame. destruct (Z.ltb_spec max (Zlen raw)) as [|Hle]; [done|].
  destruct (starts_with SEQ_MAGIC (strip_newline raw)) eqn:Hm; simpl; [|by intros [= <-]].
  destruct (split_at _DELIM (strip_newline raw)) as [[header payload]|] eqn:Hs; [|done].
  destruct (split_spaces header) as [|magic [|s_tok [|a_tok [|n_tok [|]]]]] eqn:Ht; try done.
  destruct (_parse_kv s_tok (b_ "s=")) as [seq|] eqn:Hps; [|done].
  destruct (_parse_kv a_tok (b_ "a=")) as [ack|] eqn:Hpa; [|done].
  destruct (_parse_kv n_tok (b_ "n=")) as [n|] eqn:Hpn; [|done].
  destruct (Z.eqb_spec n (Zlen payload)) as [->|]; [|done]. intros [= <-]. simpl.
  split_and!; [done|by eapply Hnn|by eapply Hnn|]. exists header, magic, s_tok, a_tok, n_tok.
  split_and!; try done. by apply (split_at_spec _DELIM).
Qed.

Lemma decode_is_payload_blind_witness :
  let f := {| sf_seq := Some 3; sf_ack := Some 1; sf_payload := b_ "{}" |} in
  decode_seq_frame (b_ "A1 s=3 a=1 n=2 |{}") 64 = Ok f /\ Zlen (b_ "A1 s=3 a=1 n=2 |{}") <= 64.
Proof.
  intros f. assert (H : decode_seq_frame (b_ "A1 s=3 a=1 n=2 |{}") 64 = Ok f) by (vm_compute; reflexivity).
  split; [exact H|]. apply (decode_is_payload_blind _ _ f H).
Defined.

(** The first token only has to begin with the magic, and counters may have leading zeros. *)
Theorem decode_accepts_longer_magic_and_leading_zeros :
  decode_seq_frame (b_ "A1zz s=007 a=0 n=1 |x") 64 =
    Ok {| sf_seq := Some 7; sf_ack := Some 0; sf_payload := b_ "x" |}.
Proof. by vm_compute. Qed.
