(* ===== verification/LegScheduler.v ===== *)
(** * [gateway/leg_scheduler.py] and [gateway/leg_router.py]: fair egress over one writer

    The scheduler's state, the legs it drains (the fleet of [GatewayLeg]), the back-pressure
    events it shares with the forward path and the core link behind the [CoreWriter]
    interface make a [World].  A coroutine runs from one [await] to the next in one
    [PumpStep]; at an [await] any other [Action] may come first: producers enqueueing, the
    core link trimming, resetting or replaying a leg, the sweeper, a shutdown. *)
From S2P Require Import Prelude ReplayBuffer GlobalReplayCap IngressGate GatewayLeg.
From Stdlib Require Import Strings.Byte.

(** ** The bounded send queue of one leg *)
Inductive SchedulerError : Set := LegQueueFull | UnregisteredLeg | AlreadyRegistered | NotPositive.

Definition _TUI_ADAPTER_ID : string := "tui".
Definition _MIN_FRAME_COST_BYTES : Z := 1.

Record LegQueue := { lq_max_bytes : Z; lq_frames : list (list byte * Z); lq_bytes : Z }.

Definition fresh_queue (max_bytes : Z) : LegQueue :=
  {| lq_max_bytes := max_bytes; lq_frames := []; lq_bytes := 0 |}.
Definition empty (q : LegQueue) : bool := match lq_frames q with [] => true | _ => false end.
Definition frame_cost (payload : list byte) : Z := Z.max (Zlen payload) _MIN_FRAME_COST_BYTES.

Definition offer (payload : list byte) : M LegQueue SchedulerError unit :=
  q <-- get;
  let cost := frame_cost payload in
  raise_if lq_max_bytes q <? lq_bytes q + cost with LegQueueFull;
  put {| lq_max_bytes := lq_max_bytes q; lq_frames := lq_frames q ++ [(payload, cost)];
         lq_bytes := lq_bytes q + cost |}.

(** [popleft]; [None] is the IndexError of an empty deque. *)
Definition pop (q : LegQueue) : option (list byte * LegQueue) :=
  match lq_frames q with
  | [] => None
  | (payload, cost) :: rest =>
      Some (payload, {| lq_max_bytes := lq_max_bytes q; lq_frames := rest; lq_bytes := lq_bytes q - cost |})
  end.

(** ** The core link as the scheduler sees it ([_CoreWriterLike])

    What each call does to the link up to its first suspension; what happens while it is
    suspended is other actions' business.  Either call may raise into the pump
    ([_feed] re-raises a control frame the dead client could not be sent, [write_leg_unit]
    lets through any exception it does not list): that is the action [Throw]. *)
Class CoreWriter (C : Type) := {
  cw_cumulative_ack : C -> Z;
  cw_replay_gate : C -> bool;
  cw_escalate : bool -> C -> C;
  cw_write : string -> list byte -> Z -> Z -> C -> C
}.
Class CoreWriterLaws (C : Type) `{!CoreWriter C} : Prop := {
  cw_escalate_gate t c : cw_replay_gate (cw_escalate t c) = cw_replay_gate c;
  cw_write_gate id p seq ack c : cw_replay_gate (cw_write id p seq ack c) = cw_replay_gate c;
  cw_ack_nonneg c : 0 <= cw_cumulative_ack c
}.

(** ** The world *)

(** The locals of a [_drain_one_frame] suspended between the mint and the write. *)
Record Drain := { dr_id : string; dr_payload : list byte; dr_seq : Z; dr_ack : Z; dr_generation : Z }.

(** Where the [run] coroutine stands. *)
Inductive Pump :=
| AtGate (released : bool)             (** in [replay_pending_gate.wait()]; released by a [set()] *)
| Escalating (d : Drain) (rest : list string)   (** in [escalate_if_breaker_tripped] *)
| Writing (rest : list string)                  (** in [write_leg_unit] *)
| AtWakeup                             (** in [_wakeup.wait()] *)
| Running                              (** between two awaits: no other action sees this *)
| Crashed                              (** an exception of the scheduler's own left [run] *)
| Killed.                              (** what it awaited raised into it, or it was cancelled *)

(** What an action does that others can see. *)
Inductive Event :=
| Registered (id : string)
| Deregistered (id : string)
| Accepted (id : string) (payload : list byte)
| Popped (id : string) (payload : list byte)
| Skipped (id : string) (seq : Z)
| Wrote (id : string) (generation seq ack : Z) (payload : list byte).

Section scheduler.
Context {L LE C : Type} `{!ByteLedger L LE, !CoreWriter C}.

Record World := {
  w_max : Z;                              (** [_max_per_leg_queue_bytes] *)
  w_queues : list (string * LegQueue);    (** [_queues] *)
  w_wakeup : bool;                        (** [_wakeup] *)
  w_gates : gmap string nat;              (** [_back_pressure_gates], by event *)
  w_events : gmap nat bool;               (** the events: set or clear *)
  w_fleet : Fleet (L := L);               (** the legs and their shared cap *)
  w_link : C;
  w_pump : Pump
}.

Definition set_queues (w : World) q : World :=
  {| w_max := w_max w; w_queues := q; w_wakeup := w_wakeup w; w_gates := w_gates w;
     w_events := w_events w; w_fleet := w_fleet w; w_link := w_link w; w_pump := w_pump w |}.
Definition set_wakeup (w : World) b : World :=
  {| w_max := w_max w; w_queues := w_queues w; w_wakeup := b; w_gates := w_gates w;
     w_events := w_events w; w_fleet := w_fleet w; w_link := w_link w; w_pump := w_pump w |}.
Definition set_gates (w : World) g ev : World :=
  {| w_max := w_max w; w_queues := w_queues w; w_wakeup := w_wakeup w; w_gates := g;
     w_events := ev; w_fleet := w_fleet w; w_link := w_link w; w_pump := w_pump w |}.
Definition set_fleet (w : World) f : World :=
  {| w_max := w_max w; w_queues := w_queues w; w_wakeup := w_wakeup w; w_gates := w_gates w;
     w_events := w_events w; w_fleet := f; w_link := w_link w; w_pump := w_pump w |}.
Definition set_link (w : World) c : World :=
  {| w_max := w_max w; w_queues := w_queues w; w_wakeup := w_wakeup w; w_gates := w_gates w;
     w_events := w_events w; w_fleet := w_fleet w; w_link := c; w_pump := w_pump w |}.
Definition set_pump (w : World) p : World :=
  {| w_max := w_max w; w_queues := w_queues w; w_wakeup := w_wakeup w; w_gates := w_gates w;
     w_events := w_events w; w_fleet := w_fleet w; w_link := w_link w; w_pump := p |}.

(** ** Registration and enqueueing *)
Definition registered_adapters (w : World) : list string := dict_keys (w_queues w).

(** Every registered leg is one of the fleet; a leg object is the one of its id. *)
Definition register_leg (id : string) (w : World) : result SchedulerError unit * World :=
  match dict_get id (w_queues w) with
  | Some _ => (Err AlreadyRegistered, w)
  | None => (Ok tt, set_queues w (dict_set id (fresh_queue (w_max w)) (w_queues w)))
  end.

Definition set_back_pressure_gate (id : string) (gate : nat) (w : World) : result SchedulerError unit * World :=
  match dict_get id (w_queues w) with
  | None => (Err UnregisteredLeg, w)
  | Some _ => (Ok tt, set_gates w (<[id := gate]> (w_gates w)) (w_events w))
  end.

(** [entry.leg.teardown()] on the shared legs. *)
Definition teardown_leg (id : string) (f : Fleet (L := L)) : Fleet (L := L) := fleet_step (LE := LE) f (id, Teardown).

Definition deregister_leg (id : string) (w : World) : list Event * World :=
  let w := set_gates w (delete id (w_gates w)) (w_events w) in
  match dict_get id (w_queues w) with
  | None => ([], w)
  | Some _ => ([Deregistered id], set_fleet (set_queues w (dict_del id (w_queues w))) (teardown_leg id (w_fleet w)))
  end.

Definition enqueue (id : string) (payload : list byte) (w : World) : result SchedulerError unit * World :=
  match dict_get id (w_queues w) with
  | None => (Err UnregisteredLeg, w)
  | Some queue =>
      match offer payload queue with
      | (Err e, _) => (Err e, w)
      | (Ok _, queue') => (Ok tt, set_wakeup (set_queues w (dict_set id queue' (w_queues w))) true)
      end
  end.

(** [LegRouter.route] *)
Inductive RouteOutcome := ROUTED | REFUSED_UNKNOWN_ADAPTER.
Definition route (id : string) (payload : list byte) (w : World) : result SchedulerError RouteOutcome * World :=
  if decide (id ∈ registered_adapters w) then
    match enqueue id payload w with
    | (Ok _, w') => (Ok ROUTED, w')
    | (Err e, w') => (Err e, w')
    end
  else (Ok REFUSED_UNKNOWN_ADAPTER, w).

(** ** The drain *)
Definition _round_order (w : World) : list string :=
  let order := filter (fun a => a <> _TUI_ADAPTER_ID) (registered_adapters w) in
  if decide (_TUI_ADAPTER_ID ∈ registered_adapters w) then _TUI_ADAPTER_ID :: order else order.

(** [resume_gate.set()], if the leg has a gate. *)
Definition resume_reader (id : string) (w : World) : World :=
  match w_gates w !! id with
  | None => w
  | Some gate => set_gates w (w_gates w) (<[gate := true]> (w_events w))
  end.

(** [_drain_one_frame] up to its first [await]; [true] when the pump is parked in it. *)
Definition drain_begin (now : Q) (id : string) (queue : LegQueue) (rest : list string) (w : World)
  : bool * (list Event * World) :=
  match pop queue with
  | None => (true, ([], set_pump w Crashed))
  | Some (payload, queue') =>
      let w := resume_reader id (set_queues w (dict_set id queue' (w_queues w))) in
      let ack := cw_cumulative_ack (w_link w) in
      match (w_fleet w).1 !! id with
      | None => (true, ([Popped id payload], set_pump w Crashed))
      | Some leg =>
          let '(r, (leg', cap')) := record_for_send (LE := LE) payload now (leg, (w_fleet w).2) in
          let w := set_fleet w (<[id := leg']> (w_fleet w).1, cap') in
          match r with
          | Err (BufferError _) =>
              let '(out, w) := deregister_leg id w in (false, (Popped id payload :: out, w))
          | Err _ => (true, ([Popped id payload], set_pump w Crashed))
          | Ok seq =>
              let w := set_link w (cw_escalate (GatewayLeg.breaker_tripped leg') (w_link w)) in
              let d := {| dr_id := id; dr_payload := payload; dr_seq := seq; dr_ack := ack;
                          dr_generation := generation leg' |} in
              (true, ([Popped id payload], set_pump w (Escalating d rest)))
          end
      end
  end.

(** The end of a round: back to the gate, or idle until a frame comes. *)
Definition end_round (drained : bool) (w : World) : World :=
  if drained then set_pump w (AtGate (cw_replay_gate (w_link w)))
  else set_pump (set_wakeup w false) AtWakeup.

(** The [for] loop of [_drain_one_round] from its current position to its next [await]. *)
Fixpoint round_loop (now : string -> Q) (first drained : bool) (order : list string) (w : World)
  : list Event * World :=
  match order with
  | [] => ([], end_round drained w)
  | id :: rest =>
      if negb first && negb (cw_replay_gate (w_link w)) then ([], end_round drained w)
      else match dict_get id (w_queues w) with
           | None => round_loop now false drained rest w
           | Some queue =>
               if empty queue then round_loop now false drained rest w
               else
                 let '(parked, (out, w)) := drain_begin (now id) id queue rest w in
                 if parked then (out, w)
                 else let '(out', w) := round_loop now false true rest w in (out ++ out', w)
           end
  end.

(** [_drain_one_frame] from its first [await] on: the stale-write guard, then the write. *)
Definition drain_write (d : Drain) (rest : list string) (w : World) : bool * (list Event * World) :=
  match (w_fleet w).1 !! dr_id d with
  | None => (true, ([], set_pump w Crashed))
  | Some leg =>
      if generation leg =? dr_generation d then
        (true, ([Wrote (dr_id d) (dr_generation d) (dr_seq d) (dr_ack d) (dr_payload d)],
                set_pump (set_link w (cw_write (dr_id d) (dr_payload d) (dr_seq d) (dr_ack d) (w_link w)))
                         (Writing rest)))
      else (false, ([Skipped (dr_id d) (dr_seq d)], w))
  end.

(** The coroutine, from one [await] to the next. *)
Definition pump_step (now : string -> Q) (w : World) : list Event * World :=
  match w_pump w with
  | AtGate released =>
      if released || cw_replay_gate (w_link w)
      then round_loop now true false (_round_order w) (set_pump w Running)
      else ([], w)
  | Escalating d rest =>
      let '(parked, (out, w)) := drain_write d rest (set_pump w Running) in
      if parked then (out, w)
      else let '(out', w) := round_loop now false true rest w in (out ++ out', w)
  | Writing rest => round_loop now false true rest (set_pump w Running)
  | AtWakeup => if w_wakeup w then ([], set_pump w (AtGate (cw_replay_gate (w_link w)))) else ([], w)
  | Running | Crashed | Killed => ([], w)
  end.

Definition aclose (w : World) : list Event * World :=
  foldl (fun '(out, w) id => let '(out', w) := deregister_leg id w in (out ++ out', w))
        ([], w) (registered_adapters w).

(** ** Interleavings *)
Inductive Action :=
| PumpStep (now : string -> Q)
| Register (id : string)
| SetGate (id : string) (gate : nat)
| ClearGate (gate : nat)                     (** the forward path pausing a reader *)
| Deregister (id : string)
| Enqueue (id : string) (payload : list byte)
| LegCall (id : string) (o : GatewayLeg.op)  (** the link, the sweeper or the relay on a leg *)
| SetLink (c : C)                            (** the link moving on: gate, ack, transport *)
| Aclose
| Throw.                                     (** what the pump awaits raises, or the pump is cancelled *)

(** An exception at the [await] the pump is in: [run] has no handler. *)
Definition throw (w : World) : World :=
  match w_pump w with
  | AtGate _ | Escalating _ _ | Writing _ | AtWakeup => set_pump w Killed
  | Running | Crashed | Killed => w
  end.

Definition act (a : Action) (w : World) : list Event * World :=
  match a with
  | PumpStep now => pump_step now w
  | Register id =>
      match (w_fleet w).1 !! id with
      | None => ([], w)
      | Some _ => match register_leg id w with
                  | (Ok _, w') => ([Registered id], w')
                  | (Err _, w') => ([], w')
                  end
      end
  | SetGate id gate => ([], (set_back_pressure_gate id gate w).2)
  | ClearGate gate => ([], set_gates w (w_gates w) (<[gate := false]> (w_events w)))
  | Deregister id => deregister_leg id w
  | Enqueue id payload =>
      match route id payload w with
      | (Ok ROUTED, w') => ([Accepted id payload], w')
      | (_, w') => ([], w')
      end
  | LegCall id o => ([], set_fleet w (fleet_step (LE := LE) (w_fleet w) (id, o)))
  | SetLink c =>
      let w' := set_link w c in
      ([], match w_pump w with
           | AtGate released => set_pump w' (AtGate (released || cw_replay_gate c))
           | _ => w'
           end)
  | Aclose => aclose w
  | Throw => ([], throw w)
  end.

Fixpoint run (acts : list Action) (w : World) : list Event * World :=
  match acts with
  | [] => ([], w)
  | a :: acts' =>
      let '(out, w') := act a w in
      let '(out', w'') := run acts' w' in (out ++ out', w'')
  end.

(** [GatewayLegScheduler.__init__], with [run] about to await the gate. *)
Definition init (max_per_leg_queue_bytes : Z) (fleet : Fleet (L := L)) (link : C) : result SchedulerError World :=
  if max_per_leg_queue_bytes <=? 0 then Err NotPositive
  else Ok {| w_max := max_per_leg_queue_bytes; w_queues := []; w_wakeup := false; w_gates := ∅;
             w_events := ∅; w_fleet := fleet; w_link := link; w_pump := AtGate (cw_replay_gate link) |}.
End scheduler.
Arguments World L C : clear implicits.
Arguments Action C : clear implicits.
