(* ===== verification/LegSchedulerLaws.v ===== *)
(** * What the scheduler guarantees

    An action of [LegScheduler] is split into atomic changes ([micro]) of the four things
    that matter: the queues, the fleet, and the frame between its mint and its write.  The
    guarantees are each proved of one atomic change and carried to any interleaving. *)
From S2P Require Import Prelude ReplayBuffer GlobalReplayCap IngressGate GatewayLeg LegScheduler.
From Stdlib Require Import Strings.Byte.

(** ** The parts of a world the guarantees are about, and its atomic changes *)
Section laws.
Context {L LE C : Type} `{!ByteLedger L LE, !ByteLedgerLaws L LE, !CoreWriter C, !CoreWriterLaws C}.
Implicit Types w : World L C.

Record Core := {
  k_max : Z; k_queues : list (string * LegQueue); k_fleet : Fleet (L := L); k_inflight : option Drain
}.
Definition inflight w : option Drain := match w_pump w with Escalating d _ => Some d | _ => None end.
Definition core w : Core :=
  {| k_max := w_max w; k_queues := w_queues w; k_fleet := w_fleet w; k_inflight := inflight w |}.
Definition with_queues (k : Core) q : Core :=
  {| k_max := k_max k; k_queues := q; k_fleet := k_fleet k; k_inflight := k_inflight k |}.
Definition with_fleet (k : Core) f : Core :=
  {| k_max := k_max k; k_queues := k_queues k; k_fleet := f; k_inflight := k_inflight k |}.
Definition with_inflight (k : Core) d : Core :=
  {| k_max := k_max k; k_queues := k_queues k; k_fleet := k_fleet k; k_inflight := d |}.

Inductive micro : Core -> list Event -> Core -> Prop :=
| micro_register k id :
    dict_get id (k_queues k) = None -> is_Some ((k_fleet k).1 !! id) ->
    micro k [Registered id] (with_queues k (dict_set id (fresh_queue (k_max k)) (k_queues k)))
| micro_deregister k id q :
    dict_get id (k_queues k) = Some q ->
    micro k [Deregistered id]
      (with_fleet (with_queues k (dict_del id (k_queues k))) (fleet_step (LE := LE) (k_fleet k) (id, Teardown)))
| micro_accept k id q q' payload :
    dict_get id (k_queues k) = Some q -> offer payload q = (Ok tt, q') ->
    micro k [Accepted id payload] (with_queues k (dict_set id q' (k_queues k)))
| micro_pop k id q q' payload :
    dict_get id (k_queues k) = Some q -> pop q = Some (payload, q') ->
    micro k [Popped id payload] (with_queues k (dict_set id q' (k_queues k)))
| micro_leg k id o :
    micro k [] (with_fleet k (fleet_step (LE := LE) (k_fleet k) (id, o)))
| micro_mint k id leg leg' cap' payload now seq ack :
    k_inflight k = None -> (k_fleet k).1 !! id = Some leg ->
    record_for_send (LE := LE) payload now (leg, (k_fleet k).2) = (Ok seq, (leg', cap')) ->
    micro k [] (with_inflight (with_fleet k (<[id := leg']> (k_fleet k).1, cap'))
      (Some {| dr_id := id; dr_payload := payload; dr_seq := seq; dr_ack := ack;
               dr_generation := generation leg' |}))
| micro_write k d leg :
    k_inflight k = Some d -> (k_fleet k).1 !! dr_id d = Some leg -> generation leg = dr_generation d ->
    micro k [Wrote (dr_id d) (dr_generation d) (dr_seq d) (dr_ack d) (dr_payload d)] (with_inflight k None)
| micro_skip k d :
    k_inflight k = Some d ->
    micro k [Skipped (dr_id d) (dr_seq d)] (with_inflight k None)
| micro_abandon k : micro k [] (with_inflight k None).

Inductive micros : Core -> list Event -> Core -> Prop :=
| micros_refl k : micros k [] k
| micros_step k1 out1 k2 out2 k3 : micro k1 out1 k2 -> micros k2 out2 k3 -> micros k1 (out1 ++ out2) k3.

Lemma micros_one k out k' : micro k out k' -> micros k out k'.
Proof. intros H. rewrite <- (app_nil_r out). by eapply micros_step, micros_refl. Qed.
Lemma micros_trans k1 out1 k2 out2 k3 : micros k1 out1 k2 -> micros k2 out2 k3 -> micros k1 (out1 ++ out2) k3.
Proof.
  intros H1 H2. induction H1 as [|k1 o1 k1' o1' k2 H H' IH]; [done|].
  rewrite <- app_assoc. eapply micros_step; [exact H|]. by apply IH.
Qed.

(** Well-formed cores. *)
Definition queue_wf (max : Z) (q : LegQueue) : Prop :=
  lq_max_bytes q = max /\ Forall (fun f => f.2 = frame_cost f.1) (lq_frames q) /\
  lq_bytes q = Zsum (fun f => f.2) (lq_frames q) /\ lq_bytes q <= max.

Record core_wf (k : Core) : Prop := {
  kw_max : 0 < k_max k;
  kw_fleet : fleet_wf (LE := LE) (k_fleet k);
  kw_keys : NoDup (dict_keys (k_queues k));
  kw_queue id q : dict_get id (k_queues k) = Some q -> queue_wf (k_max k) q;
  kw_leg id q : dict_get id (k_queues k) = Some q -> is_Some ((k_fleet k).1 !! id);
  kw_inflight d : k_inflight k = Some d ->
    exists leg, (k_fleet k).1 !! dr_id d = Some leg /\ dr_generation d <= lg_generation leg /\
                (dr_generation d = lg_generation leg -> dr_seq d < lg_send_seq leg)
}.

Lemma offer_wf max q q' payload :
  queue_wf max q -> offer payload q = (Ok tt, q') -> queue_wf max q'.
Proof.
  intros (Hm & Hc & Hb & Hle). unfold offer, bind, get. destruct (Z.ltb_spec (lq_max_bytes q) (lq_bytes q + frame_cost payload));
    [done|]. intros [= <-]. split_and!; simpl; try done; [|rewrite Zsum_app, Zsum_singleton; simpl; lia|lia].
  apply Forall_app; split; [done|]. by repeat constructor.
Qed.
Lemma frame_cost_pos payload : 1 <= frame_cost payload.
Proof. unfold frame_cost, _MIN_FRAME_COST_BYTES. lia. Qed.
Lemma pop_wf max q q' payload :
  queue_wf max q -> pop q = Some (payload, q') -> queue_wf max q'.
Proof.
  intros (Hm & Hc & Hb & Hle). unfold pop. destruct (lq_frames q) as [|[p c] rest]; [done|]. intros [= <- <-].
  apply Forall_cons in Hc as [Hc0 Hc]. rewrite Zsum_cons in Hb. pose proof (frame_cost_pos p). simpl in *.
  split_and!; simpl; try done; lia.
Qed.

(** A leg of the fleet never moves its wire position back. *)
Definition advances (legs legs' : gmap string GatewayLeg) : Prop :=
  forall id leg, legs !! id = Some leg -> exists leg', legs' !! id = Some leg' /\
    (lg_generation leg < lg_generation leg' \/
     lg_generation leg' = lg_generation leg /\ lg_send_seq leg <= lg_send_seq leg').

Lemma fleet_step_advances (f : Fleet) call :
  fleet_wf (LE := LE) f -> advances f.1 (fleet_step (LE := LE) f call).1.
Proof.
  intros Hf id leg Hleg. unfold fleet_step.
  destruct (f.1 !! call.1) as [g|] eqn:Hg; [|exists leg; split; [done|lia]].
  destruct (proj2 Hf _ _ Hg) as [_ Hwf]. pose proof (step_seq_floor call.2 g f.2 Hwf) as Hfl.
  destruct (step call.2 (g, f.2)) as [r [g' l']]. simpl in *.
  destruct (decide (call.1 = id)) as [<-|Hne].
  - simplify_eq. exists g'. rewrite lookup_insert_eq. split; [done|]. lia.
  - exists leg. rewrite lookup_insert_ne by done. split; [done|]. lia.
Qed.

(** A recorded send is the leg operation of that name. *)
Lemma record_is_step (f : Fleet) id leg payload now r leg' cap' :
  f.1 !! id = Some leg -> record_for_send (LE := LE) payload now (leg, f.2) = (r, (leg', cap')) ->
  (<[id := leg']> f.1, cap') = fleet_step (LE := LE) f (id, RecordForSend payload now).
Proof. intros Hl Hr. unfold fleet_step. simpl. rewrite Hl. cbn [step]. unfold bind. rewrite Hr. by destruct r. Qed.
End laws.
Arguments Core L : clear implicits.

Section micro_laws.
Context {L LE C : Type} `{!ByteLedger L LE, !ByteLedgerLaws L LE, !CoreWriter C, !CoreWriterLaws C}.
Implicit Types w : World L C.
Implicit Types k : Core L.
Local Abbreviation micro := (micro (L := L) (LE := LE)).
Local Abbreviation micros := (micros (L := L) (LE := LE)).
Local Abbreviation core_wf := (core_wf (L := L) (LE := LE)).

Lemma wf_fleet k f :
  core_wf k -> fleet_wf (LE := LE) f -> advances (k_fleet k).1 f.1 -> core_wf (with_fleet k f).
Proof.
  intros Hk Hf Ha. destruct Hk. split; simpl; try done.
  - intros id q Hq. destruct (kw_leg0 _ _ Hq) as [leg Hleg]. destruct (Ha _ _ Hleg) as (? & ? & _). eauto.
  - intros d Hd. destruct (kw_inflight0 d Hd) as (leg & Hleg & Hgen & Hseq).
    destruct (Ha _ _ Hleg) as (leg' & Hleg' & Hadv). exists leg'. split_and!; [done|lia|]. intros Heq.
    destruct Hadv; [lia|]. assert (dr_seq d < lg_send_seq leg); [apply Hseq; lia|lia].
Qed.

Lemma wf_queue_set k id q :
  core_wf k -> queue_wf (k_max k) q -> is_Some ((k_fleet k).1 !! id) ->
  core_wf (with_queues k (dict_set id q (k_queues k))).
Proof.
  intros Hk Hq Hleg. destruct Hk. split; simpl; try done; [by apply dict_set_NoDup|..];
    intros id' q'; rewrite dict_get_set; case_decide; intros; simplify_eq; eauto.
Qed.

Lemma wf_queue_del k id : core_wf k -> core_wf (with_queues k (dict_del id (k_queues k))).
Proof.
  intros Hk. destruct Hk. split; simpl; try done; [by apply dict_del_NoDup|..];
    intros id' q'; rewrite dict_get_del by done; case_decide; intros; simplify_eq; eauto.
Qed.

Lemma wf_fleet_step k call : core_wf k -> core_wf (with_fleet k (fleet_step (LE := LE) (k_fleet k) call)).
Proof.
  intros Hk. pose proof (kw_fleet k Hk) as Hf. apply wf_fleet; [done| |by apply fleet_step_advances].
  by apply fleet_step_wf.
Qed.

Lemma micro_wf k out k' : core_wf k -> micro k out k' -> core_wf k'.
Proof.
  intros Hk Hm. destruct Hm as [k id Hn Hl|k id q Hq|k id q q' p Hq Ho|k id q q' p Hq Hp|k id o
    |k id leg leg' cap' p now seq ack Hi Hl Hr|k d leg Hi Hl Hg|k d Hi|k].
  - apply wf_queue_set; [done| |done]. pose proof (kw_max k Hk). split_and!; simpl; try done; try lia.
  - apply (wf_fleet_step (with_queues k _)), wf_queue_del, Hk.
  - apply wf_queue_set; [done| |by eapply kw_leg]. eapply offer_wf; [by eapply kw_queue|exact Ho].
  - apply wf_queue_set; [done| |by eapply kw_leg]. eapply pop_wf; [by eapply kw_queue|exact Hp].
  - by apply wf_fleet_step.
  - rewrite (record_is_step _ _ _ _ _ _ _ _ Hl Hr).
    pose proof (wf_fleet_step k (id, RecordForSend p now) Hk) as [].
    destruct (proj2 (kw_fleet k Hk) _ _ Hl) as [_ Hwf].
    split; simpl; try done. intros d [= <-]. simpl. exists leg'.
    rewrite <- (record_is_step _ _ _ _ _ _ _ _ Hl Hr). simpl. rewrite lookup_insert_eq.
    destruct (record_for_send_ok p now leg (k_fleet k).2 Hwf) as
      [[_ He]|[(e & l' & _ & He & _)|(g & l' & He & _ & Hs & _)]]; rewrite He in Hr; simplify_eq.
    split_and!; [done|done|]. intros _. lia.
  - destruct Hk. split; simpl; done.
  - destruct Hk. split; simpl; done.
  - destruct Hk. split; simpl; done.
Qed.
Lemma micros_wf k out k' : core_wf k -> micros k out k' -> core_wf k'.
Proof. intros Hk Hm. induction Hm; eauto using micro_wf. Qed.

(** ** Every action is a sequence of atomic changes, and never crashes the pump *)
Definition ok w : Prop := core_wf (core w) /\ w_pump w <> Crashed.

Lemma deregister_micros id w :
  let '(out, w') := deregister_leg (LE := LE) id w in
  micros (core w) out (core w') /\ w_pump w' = w_pump w /\ w_link w' = w_link w.
Proof.
  unfold deregister_leg. simpl. destruct (dict_get id (w_queues w)) as [q|] eqn:Hq;
    (split; [|done]); [by eapply micros_one, (micro_deregister (core w))|apply micros_refl].
Qed.

Lemma resume_reader_core id w :
  core (resume_reader id w) = core w /\ w_pump (resume_reader id w) = w_pump w /\
  w_link (resume_reader id w) = w_link w /\ w_fleet (resume_reader id w) = w_fleet w /\
  w_queues (resume_reader id w) = w_queues w.
Proof. unfold resume_reader. by case_match. Qed.

(** Everything [drain_begin] can do to a non-empty queue of a well-formed world. *)
Lemma drain_begin_micros now id q rest w :
  ok w -> w_pump w = Running -> dict_get id (w_queues w) = Some q -> empty q = false ->
  let '(parked, (out, w')) := drain_begin (LE := LE) now id q rest w in
  micros (core w) out (core w') /\ w_pump w' <> Crashed /\ (parked = false -> w_pump w' = Running).
Proof.
  intros [Hwf _] Hrun Hq Hne. unfold drain_begin, empty in *.
  destruct (pop q) as [[payload q']|] eqn:Hp; [|unfold pop in Hp; by destruct (lq_frames q) as [|[]]].
  set (w1 := set_queues w (dict_set id q' (w_queues w))).
  destruct (resume_reader_core id w1) as (Hc & Hpu & Hli & Hfl & _). rewrite Hfl. simpl.
  pose proof (micro_pop (LE := LE) (core w) id q q' payload Hq Hp) as Hpop.
  destruct (kw_leg _ Hwf id q Hq) as [leg Hleg]. simpl in Hleg. rewrite Hleg.
  destruct (proj2 (kw_fleet _ Hwf) _ _ Hleg) as [Hid Hlwf]. simpl in Hlwf.
  destruct (record_for_send payload now (leg, (w_fleet w).2)) as [r [leg' cap']] eqn:Hr.
  pose proof (record_is_step _ _ _ _ _ _ _ _ Hleg Hr) as Hstep.
  destruct r as [seq|e].
  - split_and!; [|done|done]. rewrite <- (app_nil_r [Popped id payload]).
    eapply micros_step; [exact Hpop|]. eapply micros_one.
    assert (Hi : k_inflight (with_queues (core w) (dict_set id q' (k_queues (core w)))) = None).
    { simpl. unfold inflight. by rewrite Hrun. }
    eapply micro_mint in Hi; [|exact Hleg|exact Hr]. simpl in Hi. 
    unfold core, with_inflight, with_fleet, with_queues in *. simpl in *.
    unfold w1, resume_reader in *. case_match; simpl in *; exact Hi.
  - assert (exists e', e = BufferError e') as [e' ->].
    { destruct (record_for_send_ok payload now leg (w_fleet w).2 Hlwf) as
        [[_ He]|[(e' & l' & _ & He & _)|(g & l' & He & _)]]; rewrite He in Hr; simplify_eq; eauto. }
    set (w2 := set_fleet (resume_reader id w1) (<[id:=leg']> (w_fleet w).1, cap')).
    pose proof (deregister_micros id w2) as Hd. destruct (deregister_leg id w2) as [out w3].
    destruct Hd as (Hd & Hp3 & _). simpl in Hp3. rewrite Hpu in Hp3. simpl in Hp3.
    split_and!; [|congruence|intros _; congruence].
    change (Popped id payload :: out) with ([Popped id payload] ++ [] ++ out).
    eapply micros_step; [exact Hpop|]. eapply micros_step; [apply (micro_leg _ id (RecordForSend payload now))|].
    simpl. rewrite <- Hstep.
    replace (with_fleet _ _) with (core w2); [exact Hd|].
    unfold w2, core, with_fleet, with_queues, inflight. simpl. unfold w1, resume_reader. simpl. by destruct (w_gates w !! id).
Qed.
Lemma inflight_irrelevant w p :
  (forall d rest, p <> Escalating d rest) -> inflight w = None -> core (set_pump w p) = core w.
Proof. intros Hp Hi. unfold core. f_equal. rewrite Hi. by destruct p; try destruct (Hp d rest). Qed.

Lemma end_round_core drained w :
  inflight w = None -> core (end_round drained w) = core w /\ w_pump (end_round drained w) <> Crashed.
Proof. intros Hi. unfold end_round. destruct drained; split; try done; unfold core; simpl; by rewrite Hi. Qed.

Lemma ok_micros w out w' : ok w -> micros (core w) out (core w') -> w_pump w' <> Crashed -> ok w'.
Proof. intros [Hwf _] Hm Hp. split; [by eapply micros_wf|done]. Qed.

Lemma round_loop_micros now first drained order w :
  ok w -> w_pump w = Running ->
  let '(out, w') := round_loop (LE := LE) now first drained order w in
  micros (core w) out (core w') /\ w_pump w' <> Crashed.
Proof.
  revert first drained w. induction order as [|id rest IH]; intros first drained w Hok Hrun.
  all: assert (Hi : inflight w = None) by (unfold inflight; by rewrite Hrun).
  all: destruct (end_round_core drained w Hi) as [He Hec]; simpl.
  { rewrite He. split; [apply micros_refl|done]. }
  destruct (negb first && _); [rewrite He; split; [apply micros_refl|done]|].
  destruct (dict_get id (w_queues w)) as [q|] eqn:Hq; [|by apply IH].
  destruct (empty q) eqn:Hem; [by apply IH|].
  pose proof (drain_begin_micros (now id) id q rest w Hok Hrun Hq Hem) as Hd.
  destruct (drain_begin (now id) id q rest w) as [parked [out w']]. destruct Hd as (Hm & Hp & Hr).
  destruct parked; [done|]. specialize (IH false true w' (ok_micros _ _ _ Hok Hm Hp) (Hr eq_refl)).
  destruct (round_loop now false true rest w') as [out' w'']. destruct IH as [Hm' Hp'].
  split; [by eapply micros_trans|done].
Qed.

Lemma pump_step_micros now w :
  ok w -> let '(out, w') := pump_step (LE := LE) now w in micros (core w) out (core w') /\ w_pump w' <> Crashed.
Proof.
  intros [Hwf Hnc]. unfold pump_step. destruct (w_pump w) as [released|d rest|rest| | | |] eqn:Hpu; try done.
  - destruct (_ || _); [|rewrite Hpu; split; [apply micros_refl|done]].
    assert (Hc : core (set_pump w Running) = core w) by (apply inflight_irrelevant; unfold inflight; by rewrite ?Hpu).
    rewrite <- Hc. apply round_loop_micros; [split; [by rewrite Hc|done]|done].
  - unfold drain_write. simpl.
    destruct (kw_inflight _ Hwf d) as (leg & Hleg & _); [simpl; unfold inflight; by rewrite Hpu|].
    simpl in Hleg. rewrite Hleg.
    assert (Hi : k_inflight (core w) = Some d) by (simpl; unfold inflight; by rewrite Hpu).
    destruct (Z.eqb_spec (generation leg) (dr_generation d)) as [Hg|Hg].
    + split; [|done]. eapply micros_one, micro_write; [done|exact Hleg|done].
    + assert (Hm : micros (core w) [Skipped (dr_id d) (dr_seq d)] (core (set_pump w Running)))
        by (by eapply micros_one, micro_skip).
      pose proof (round_loop_micros now false true rest (set_pump w Running)) as Hloop.
      destruct (round_loop now false true rest _) as [out w']. destruct Hloop as [Hm' Hc'];
        [eapply ok_micros; [split; [exact Hwf|by rewrite Hpu]|exact Hm|done]|done|].
      split; [by eapply micros_trans|done].
  - assert (Hc : core (set_pump w Running) = core w) by (apply inflight_irrelevant; unfold inflight; by rewrite ?Hpu).
    rewrite <- Hc. apply round_loop_micros; [split; [by rewrite Hc|done]|done].
  - destruct (w_wakeup w); [|rewrite Hpu; split; [apply micros_refl|done]]. split; [|done].
    rewrite inflight_irrelevant; [apply micros_refl|done|unfold inflight; by rewrite Hpu].
  - rewrite Hpu. split; [apply micros_refl|done].
  - rewrite Hpu. split; [apply micros_refl|done].
Qed.

Lemma throw_micros w : w_pump w <> Crashed -> micros (core w) [] (core (throw w)) /\ w_pump (throw w) <> Crashed.
Proof.
  intros Hnc. unfold throw. destruct (w_pump w) eqn:Hpu; rewrite ?Hpu; split; try done;
    first [apply micros_refl|eapply micros_one, (micro_abandon (core w))].
Qed.

Lemma aclose_micros w :
  let '(out, w') := aclose (LE := LE) w in micros (core w) out (core w') /\ w_pump w' = w_pump w.
Proof.
  unfold aclose. set (ids := registered_adapters w). clearbody ids.
  assert (Hgen : forall out0 w0, micros (core w) out0 (core w0) -> w_pump w0 = w_pump w ->
    let '(out, w') := foldl (fun '(out, w) id => let '(out', w) := deregister_leg (LE := LE) id w in (out ++ out', w))
                            (out0, w0) ids in
    micros (core w) out (core w') /\ w_pump w' = w_pump w).
  { induction ids as [|id ids IH]; intros out0 w0 Hm Hp; [done|]. simpl.
    pose proof (deregister_micros id w0) as Hd. destruct (deregister_leg id w0) as [out w1].
    destruct Hd as (Hd & Hp1 & _). apply IH; [by eapply micros_trans|congruence]. }
  apply Hgen; [apply micros_refl|done].
Qed.

Lemma act_micros a w :
  ok w -> let '(out, w') := act (LE := LE) a w in micros (core w) out (core w') /\ ok w'.
Proof.
  intros Hok. pose proof Hok as [Hwf Hnc].
  assert (Hgoal : let '(out, w') := act (LE := LE) a w in micros (core w) out (core w') /\ w_pump w' <> Crashed).
  2:{ destruct (act a w) as [out w']. destruct Hgoal as [Hm Hp]. split; [done|by eapply ok_micros]. }
  destruct a as [now|id|id gate|gate|id|id payload|id o|c| |]; simpl.
  - by apply pump_step_micros.
  - destruct ((w_fleet w).1 !! id) eqn:Hl; [|split; [apply micros_refl|done]].
    unfold register_leg. destruct (dict_get id (w_queues w)) eqn:Hq; [split; [apply micros_refl|done]|].
    split; [|done]. eapply micros_one, (micro_register (core w)); [done|by eexists].
  - unfold set_back_pressure_gate. destruct (dict_get _ _); (split; [apply micros_refl|done]).
  - split; [apply micros_refl|done].
  - pose proof (deregister_micros id w) as Hd. destruct (deregister_leg id w) as [out w'].
    destruct Hd as (Hd & Hp & _). split; [done|congruence].
  - unfold route, enqueue. destruct (decide _); [|split; [apply micros_refl|done]].
    destruct (dict_get id (w_queues w)) as [q|] eqn:Hq; [|split; [apply micros_refl|done]].
    destruct (offer payload q) as [[[]|ex] q'] eqn:Ho; [|split; [apply micros_refl|done]].
    split; [|done]. by eapply micros_one, (micro_accept (core w)).
  - split; [|done]. apply micros_one, (micro_leg (core w)).
  - destruct (w_pump w) eqn:Hpu; simpl; (split; [|congruence]); unfold core, inflight; simpl; rewrite Hpu; apply micros_refl.
  - pose proof (aclose_micros w) as Ha. destruct (aclose w) as [out w']. destruct Ha as [Hm Hp].
    split; [done|congruence].
  - by apply throw_micros.
Qed.

Lemma run_micros acts w :
  ok w -> let '(out, w') := run (LE := LE) acts w in micros (core w) out (core w') /\ ok w'.
Proof.
  revert w. induction acts as [|a acts IH]; intros w Hok; simpl; [split; [apply micros_refl|done]|].
  pose proof (act_micros a w Hok) as Ha. destruct (act a w) as [out w']. destruct Ha as [Hm Hok'].
  specialize (IH w' Hok'). destruct (run acts w') as [out' w'']. destruct IH as [Hm' Hok''].
  split; [by eapply micros_trans|done].
Qed.

Lemma init_ok max (fleet : Fleet (L := L)) (link : C) w :
  fleet_wf (LE := LE) fleet -> init max fleet link = Ok w -> ok w.
Proof.
  intros Hf. unfold init. destruct (Z.leb_spec max 0); [done|]. intros [= <-].
  split; [split|]; simpl; try done; try lia. apply NoDup_nil_2.
Qed.
End micro_laws.

(** ** Specification: one bounded FIFO per registered leg

    Which events may happen, and what they leave queued.  [Accepted] needs room, [Popped]
    takes the oldest payload, a deregistration is the only thing that drops frames. *)
Abbreviation Spec := (gmap string (list (list byte))).
Definition queued_cost (ps : list (list byte)) : Z := Zsum frame_cost ps.

Definition spec_event (max : Z) (e : Event) (s : Spec) : option Spec :=
  match e with
  | Registered id => match s !! id with None => Some (<[id := []]> s) | Some _ => None end
  | Deregistered id => match s !! id with None => None | Some _ => Some (delete id s) end
  | Accepted id p =>
      match s !! id with
      | None => None
      | Some ps => if queued_cost (ps ++ [p]) <=? max then Some (<[id := ps ++ [p]]> s) else None
      end
  | Popped id p =>
      match s !! id with
      | Some (p' :: ps) => if decide (p = p') then Some (<[id := ps]> s) else None
      | _ => None
      end
  | Skipped _ _ | Wrote _ _ _ _ _ => Some s
  end.
Fixpoint spec_run (max : Z) (es : list Event) (s : Spec) : option Spec :=
  match es with
  | [] => Some s
  | e :: es' => match spec_event max e s with Some s' => spec_run max es' s' | None => None end
  end.

Definition payloads (q : LegQueue) : list (list byte) := fst <$> lq_frames q.
Definition queues_abs (d : list (string * LegQueue)) : Spec :=
  foldr (fun kq m => <[kq.1 := payloads kq.2]> m) ∅ d.

Lemma queues_abs_lookup d id : queues_abs d !! id = payloads <$> dict_get id d.
Proof.
  induction d as [|[k q] d IH]; simpl; [done|].
  destruct (decide (id = k)) as [->|Hne]; [by rewrite lookup_insert_eq|by rewrite lookup_insert_ne].
Qed.
Lemma queues_abs_set d id q : queues_abs (dict_set id q d) = <[id := payloads q]> (queues_abs d).
Proof.
  apply map_eq. intros id'. rewrite queues_abs_lookup, dict_get_set.
  destruct (decide (id' = id)) as [->|Hne]; [by rewrite lookup_insert_eq|].
  by rewrite lookup_insert_ne, queues_abs_lookup.
Qed.
Lemma queues_abs_del d id :
  NoDup (dict_keys d) -> queues_abs (dict_del id d) = delete id (queues_abs d).
Proof.
  intros Hnd. apply map_eq. intros id'. rewrite queues_abs_lookup, dict_get_del by done.
  destruct (decide (id' = id)) as [->|Hne]; [by rewrite lookup_delete_eq|].
  by rewrite lookup_delete_ne, queues_abs_lookup.
Qed.

Lemma queue_cost max q : queue_wf max q -> lq_bytes q = queued_cost (payloads q).
Proof.
  intros (_ & Hc & -> & _). unfold queued_cost, payloads. rewrite Zsum_fmap. apply Zsum_ext.
  intros f Hf. by rewrite Forall_forall in Hc; apply Hc.
Qed.

(** [offer] on every branch. *)
Lemma offer_cases max q payload :
  queue_wf max q ->
  (max < queued_cost (payloads q ++ [payload]) /\ offer payload q = (Err LegQueueFull, q)) \/
  (queued_cost (payloads q ++ [payload]) <= max /\
   exists q', offer payload q = (Ok tt, q') /\ payloads q' = payloads q ++ [payload]).
Proof.
  intros Hq. pose proof (queue_cost _ _ Hq) as Hcost. destruct Hq as (Hm & _).
  assert (Hsum : queued_cost (payloads q ++ [payload]) = lq_bytes q + frame_cost payload)
    by (rewrite Hcost; unfold queued_cost; by rewrite Zsum_app, Zsum_singleton).
  unfold offer, bind, get. rewrite Hm.
  destruct (Z.ltb_spec max (lq_bytes q + frame_cost payload)); [left; split; [lia|done]|].
  right. split; [lia|]. eexists. split; [done|]. unfold payloads. simpl. by rewrite fmap_app.
Qed.

Section trace_laws.
Context {L LE C : Type} `{!ByteLedger L LE, !ByteLedgerLaws L LE, !CoreWriter C, !CoreWriterLaws C}.
Implicit Types w : World L C.
Implicit Types k : Core L.

Lemma spec_run_app max es1 es2 s :
  spec_run max (es1 ++ es2) s = match spec_run max es1 s with Some s' => spec_run max es2 s' | None => None end.
Proof. revert s. induction es1 as [|e es1 IH]; intros s; simpl; [done|]. by destruct (spec_event max e s). Qed.

Lemma micro_spec k out k' :
  core_wf (LE := LE) k -> micro (LE := LE) k out k' ->
  k_max k' = k_max k /\
  spec_run (k_max k) out (queues_abs (k_queues k)) = Some (queues_abs (k_queues k')).
Proof.
  intros Hk Hm. destruct Hm as [k id Hn Hl|k id q Hq|k id q q' p Hq Ho|k id q q' p Hq Hp|k id o
    |k id leg leg' cap' p now seq ack Hi Hl Hr|k d leg Hi Hl Hg|k d Hi|k];
    (split; [done|]); simpl; rewrite ?queues_abs_lookup; try done.
  - rewrite Hn. simpl. by rewrite queues_abs_set.
  - rewrite Hq. simpl. by rewrite queues_abs_del by apply Hk.
  - rewrite Hq. simpl. destruct (offer_cases (k_max k) q p) as [[_ He]|(Hle & q'' & He & Hpay)];
      [by eapply kw_queue|by rewrite He in Ho|]. rewrite He in Ho. simplify_eq.
    destruct (Z.leb_spec (queued_cost (payloads q ++ [p])) (k_max k)); [|lia].
    by rewrite queues_abs_set, Hpay.
  - rewrite Hq. simpl. unfold pop in Hp. unfold payloads at 1.
    destruct (lq_frames q) as [|[p' c] rest]; [done|]. simplify_eq/=.
    rewrite decide_True by done. by rewrite queues_abs_set.
Qed.

Lemma micros_spec k out k' :
  core_wf (LE := LE) k -> micros (LE := LE) k out k' ->
  k_max k' = k_max k /\
  spec_run (k_max k) out (queues_abs (k_queues k)) = Some (queues_abs (k_queues k')).
Proof.
  intros Hk Hm. induction Hm as [k|k1 o1 k2 o2 k3 H1 H2 IH]; [done|].
  destruct (micro_spec _ _ _ Hk H1) as [Hm1 Hs1].
  destruct IH as [Hm2 Hs2]; [by eapply micro_wf|]. split; [congruence|].
  by rewrite spec_run_app, Hs1, <- Hm1.
Qed.

(** The wire positions handed to the writer for one leg. *)
Definition writes_of (id : string) (es : list Event) : list (Z * Z) :=
  omap (fun e => match e with
                 | Wrote id' g s _ _ => if decide (id' = id) then Some (g, s) else None
                 | _ => None
                 end) es.

Definition behind (leg : GatewayLeg) (p : Z * Z) : Prop :=
  p.1 < lg_generation leg \/ p.1 = lg_generation leg /\ p.2 < lg_send_seq leg.

(** What is known of a leg's position after the writes [ps]: each is before the frame in
    flight, and before the leg's next seq. *)
Definition frontier k (id : string) (ps : list (Z * Z)) : Prop :=
  (forall leg p, (k_fleet k).1 !! id = Some leg -> p ∈ ps -> behind leg p) /\
  (forall d p, k_inflight k = Some d -> dr_id d = id -> p ∈ ps -> wire_before p (dr_generation d, dr_seq d)) /\
  StronglySorted wire_before ps.

Lemma wire_snoc ps p : StronglySorted wire_before ps -> (forall q, q ∈ ps -> wire_before q p) -> StronglySorted wire_before (ps ++ [p]).
Proof.
  intros Hs Hp. induction Hs as [|q ps Hs IH Hq]; simpl; [by repeat constructor|].
  constructor.
  - apply IH. intros r Hr. apply Hp. by apply list_elem_of_further.
  - apply Forall_app. split; [done|]. apply Forall_singleton, Hp, list_elem_of_here.
Qed.

Lemma frontier_fleet k f id ps :
  advances (k_fleet k).1 f.1 -> dom f.1 = dom (k_fleet k).1 -> frontier k id ps -> frontier (with_fleet k f) id ps.
Proof.
  intros Ha Hd (H1 & H2 & H3). split_and!; [|done|done]. simpl. intros leg' p Hl' Hp.
  assert (Hin : id ∈ dom (k_fleet k).1) by (rewrite <- Hd; by eapply elem_of_dom_2).
  apply elem_of_dom in Hin as [leg Hl]. destruct (Ha id leg Hl) as (leg2 & Hl2 & Hadv). simplify_eq.
  specialize (H1 leg p Hl Hp). unfold behind in *. lia.
Qed.

Lemma micro_frontier k out k' id ps :
  core_wf (LE := LE) k -> micro (LE := LE) k out k' -> frontier k id ps ->
  frontier k' id (ps ++ writes_of id out).
Proof.
  intros Hk Hm Hf. pose proof (kw_fleet k Hk) as Hfw.
  assert (Hstep : forall call, frontier (with_fleet k (fleet_step (LE := LE) (k_fleet k) call)) id ps).
  { intros call. apply frontier_fleet; [by apply fleet_step_advances|by apply fleet_step_wf|done]. }
  destruct Hm as [k i Hn Hl|k i q Hq|k i q q' p Hq Ho|k i q q' p Hq Hp|k i o
    |k i leg leg' cap' p now seq ack Hi Hl Hr|k d leg Hi Hl Hg|k d Hi|k]; simpl; rewrite ?app_nil_r; try done.
  - apply (Hstep (i, Teardown)).
  - specialize (Hstep (i, RecordForSend p now)). rewrite <- (record_is_step _ _ _ _ _ _ _ _ Hl Hr) in Hstep.
    destruct Hstep as (H1 & _ & H3). split_and!; [done| |done]. simpl. intros d q [= <-] <- Hq. simpl.
    destruct (proj2 Hfw _ _ Hl) as [_ Hlwf].
    destruct (record_for_send_ok p now leg (k_fleet k).2 Hlwf) as
      [[_ He]|[(e & l' & _ & He & _)|(g & l' & He & _ & Hs & Hgen & _)]]; rewrite He in Hr; simplify_eq.
    destruct Hf as (Hb & _). specialize (Hb leg q Hl Hq). unfold behind, wire_before, generation in *. simpl. lia.
  - destruct Hf as (H1 & H2 & H3). unfold writes_of. simpl. destruct (decide (dr_id d = id)) as [<-|Hne]; simpl.
    + split_and!; [|done|].
      * intros leg0 q Hl0 [Hq| ->%list_elem_of_singleton]%elem_of_app; [by apply H1|]. simpl in Hl0. simplify_eq.
        destruct (kw_inflight k Hk d Hi) as (leg1 & Hl1 & Hle & Hseq). simplify_eq.
        right. split; [done|]. by apply Hseq.
      * apply wire_snoc; [done|]. intros q Hq. by apply H2.
    + rewrite app_nil_r. by split_and!.
  - destruct Hf as (H1 & H2 & H3). by split_and!.
  - destruct Hf as (H1 & H2 & H3). by split_and!.
Qed.

Lemma micros_frontier k out k' id ps :
  core_wf (LE := LE) k -> micros (LE := LE) k out k' -> frontier k id ps ->
  frontier k' id (ps ++ writes_of id out).
Proof.
  intros Hk Hm. revert ps. induction Hm as [k|k1 o1 k2 o2 k3 H1 H2 IH]; intros ps Hf.
  - simpl. by rewrite app_nil_r.
  - unfold writes_of. rewrite omap_app, app_assoc. apply IH; [by eapply micro_wf|]. by eapply micro_frontier.
Qed.
End trace_laws.

(** ** A round nobody interferes with *)
Definition pops (es : list Event) : list (string * list byte) :=
  omap (fun e => match e with Popped id p => Some (id, p) | _ => None end) es.
Definition heads (d : list (string * LegQueue)) (order : list string) : list (string * list byte) :=
  omap (fun id => match dict_get id d with
                  | Some q => (fun p => (id, p)) <$> head (payloads q)
                  | None => None
                  end) order.

(** One frame taken off, or the leg isolated. *)
Definition drained_once (before after : option LegQueue) : Prop :=
  match before with
  | None => after = None
  | Some q => after = None \/ exists q', after = Some q' /\ payloads q' = tail (payloads q)
  end.
Definition served (out : list Event) (ip : string * list byte) : Prop :=
  (exists g s a, Wrote ip.1 g s a ip.2 ∈ out) \/ Deregistered ip.1 ∈ out.

Section quiet.
Context {L LE C : Type} `{!ByteLedger L LE, !ByteLedgerLaws L LE, !CoreWriter C, !CoreWriterLaws C}.
Implicit Types w : World L C.

Lemma pops_app es1 es2 : pops (es1 ++ es2) = pops es1 ++ pops es2.
Proof. apply omap_app. Qed.
Lemma served_mono out out' ip : (forall e, e ∈ out -> e ∈ out') -> served out ip -> served out' ip.
Proof. intros Hin [(g & s & a & H)|H]; [left; eauto|right; auto]. Qed.

(** What one [drain_begin] does to the queues, the events and the gate. *)
Lemma drain_begin_queues now id q rest w :
  ok (LE := LE) w -> w_pump w = Running -> dict_get id (w_queues w) = Some q -> empty q = false ->
  exists payload q', pop q = Some (payload, q') /\
  let '(parked, (out, w')) := drain_begin (LE := LE) now id q rest w in
  pops out = [(id, payload)] /\
  cw_replay_gate (w_link w') = cw_replay_gate (w_link w) /\
  (forall id', id' <> id -> dict_get id' (w_queues w') = dict_get id' (w_queues w)) /\
  if parked then
    dict_get id (w_queues w') = Some q' /\
    exists d leg, w_pump w' = Escalating d rest /\ dr_id d = id /\ dr_payload d = payload /\
                  (w_fleet w').1 !! id = Some leg /\ generation leg = dr_generation d
  else dict_get id (w_queues w') = None /\ Deregistered id ∈ out.
Proof.
  intros Hok Hrun Hq Hne. pose proof Hok as [Hwf _]. unfold drain_begin, empty in *.
  destruct (pop q) as [[payload q']|] eqn:Hp; [|unfold pop in Hp; by destruct (lq_frames q) as [|[]]].
  exists payload, q'. split; [done|].
  set (w1 := set_queues w (dict_set id q' (w_queues w))).
  destruct (resume_reader_core id w1) as (_ & Hpu & Hli & Hfl & Hqu). rewrite Hfl.
  set (w2 := resume_reader id w1) in *. clearbody w2.
  destruct (kw_leg _ Hwf id q Hq) as [leg Hleg]. simpl in Hleg. simpl. rewrite Hleg.
  destruct (proj2 (kw_fleet _ Hwf) _ _ Hleg) as [_ Hlwf]. simpl in Hlwf.
  destruct (record_for_send_ok payload now leg (w_fleet w).2 Hlwf) as
    [[_ He]|[(ex & l' & _ & He & _)|(g & l' & He & _)]]; rewrite He; simpl.
  3:{ rewrite Hqu, Hli, cw_escalate_gate. unfold w1. simpl. split_and!; [done|done| | |].
    - intros id' Hid'. rewrite dict_get_set. by rewrite decide_False.
    - rewrite dict_get_set. by rewrite decide_True.
    - eexists _, g. split_and!; try done. by rewrite lookup_insert_eq. }
  all: unfold deregister_leg; simpl; rewrite Hqu; unfold w1 at 1; simpl;
    rewrite dict_get_set, decide_True by done; simpl; rewrite ?Hli, ?Hqu; unfold w1; simpl;
    (split_and!; [done|done| | |by apply list_elem_of_further, list_elem_of_here]).
  all: intros; rewrite dict_get_del by (apply dict_set_NoDup, Hwf);
    first [by rewrite decide_True|rewrite decide_False by done; rewrite dict_get_set; by rewrite decide_False].
Qed.

(** The two pump steps that follow it when nobody interferes: write, and go on. *)
Lemma quiet_write now d rest leg w :
  w_pump w = Escalating d rest -> (w_fleet w).1 !! dr_id d = Some leg -> generation leg = dr_generation d ->
  exists w', pump_step (LE := LE) now w =
      ([Wrote (dr_id d) (dr_generation d) (dr_seq d) (dr_ack d) (dr_payload d)], w') /\
    w_pump w' = Writing rest /\ w_queues w' = w_queues w /\
    cw_replay_gate (w_link w') = cw_replay_gate (w_link w).
Proof.
  intros Hp Hl Hg. unfold pump_step, drain_write. rewrite Hp. simpl. rewrite Hl, Hg, Z.eqb_refl.
  eexists. split_and!; [done..|]. simpl. apply cw_write_gate.
Qed.

Lemma pump_step_ok now w out w' :
  ok (LE := LE) w -> pump_step (LE := LE) now w = (out, w') -> ok (LE := LE) w'.
Proof. intros Hok Heq. pose proof (act_micros (PumpStep now) w Hok) as H. simpl in H. rewrite Heq in H. apply H. Qed.

Lemma run_pump_app now n m w :
  run (LE := LE) (replicate (n + m) (PumpStep now)) w =
    let '(o1, w1) := run (LE := LE) (replicate n (PumpStep now)) w in
    let '(o2, w2) := run (LE := LE) (replicate m (PumpStep now)) w1 in (o1 ++ o2, w2).
Proof.
  revert w. induction n as [|n IH]; intros w; cbn [Nat.add replicate run].
  - by destruct (run _ w).
  - destruct (act (PumpStep now) w) as [o0 w0]. rewrite IH.
    destruct (run (replicate n _) w0) as [o1 w1], (run (replicate m _) w1) as [o2 w2]. by rewrite app_assoc.
Qed.
(** What a quiet stretch of the pump starting at [w] does for the legs [order]. *)
Definition quiet_effect w (order : list string) (out : list Event) w' : Prop :=
  pops out = heads (w_queues w) order /\
  (w_pump w' = AtGate true \/ w_pump w' = AtWakeup) /\
  (forall id, if decide (id ∈ order) then drained_once (dict_get id (w_queues w)) (dict_get id (w_queues w'))
              else dict_get id (w_queues w') = dict_get id (w_queues w)) /\
  (forall ip, ip ∈ pops out -> served out ip).

Lemma heads_cons d id order :
  heads d (id :: order) =
    match dict_get id d with
    | Some q => match payloads q with p :: _ => (id, p) :: heads d order | [] => heads d order end
    | None => heads d order
    end.
Proof. unfold heads. simpl. destruct (dict_get id d) as [q|]; [|done]. by destruct (payloads q). Qed.
Lemma heads_ext d d' order :
  (forall id, id ∈ order -> dict_get id d = dict_get id d') -> heads d order = heads d' order.
Proof.
  intros H. induction order as [|id order IH]; [done|]. rewrite !heads_cons.
  rewrite (H id) by apply list_elem_of_here. rewrite IH; [done|].
  intros id' Hin. apply H. by apply list_elem_of_further.
Qed.

Lemma quiet_skip w id rest out w' :
  id ∉ rest -> match dict_get id (w_queues w) with Some q => empty q = true | None => True end ->
  quiet_effect w rest out w' -> quiet_effect w (id :: rest) out w'.
Proof.
  intros Hid Hem (H1 & H2 & H3 & H4).
  assert (Hh : match dict_get id (w_queues w) with Some q => payloads q = [] | None => True end).
  { destruct (dict_get id (w_queues w)) as [q|]; [|done]. unfold empty, payloads in *. by destruct (lq_frames q). }
  split_and!; [|done| |done].
  - rewrite H1, heads_cons. destruct (dict_get id (w_queues w)) as [q|]; [|done]. by rewrite Hh.
  - intros id'. specialize (H3 id'). destruct (decide (id' = id)) as [->|Hne].
    + rewrite decide_True by apply list_elem_of_here. rewrite decide_False in H3 by done. rewrite H3.
      unfold drained_once. destruct (dict_get id (w_queues w)) as [q|]; [|done]. right. exists q. by rewrite Hh.
    + destruct (decide (id' ∈ rest)).
      * by rewrite decide_True by by apply list_elem_of_further.
      * rewrite decide_False; [done|]. by intros [?|?]%elem_of_cons.
Qed.

(** One leg drained (events [out1], world [w1]) and then the rest of the round. *)
Lemma quiet_cons w id rest q payload q' out1 w1 out2 w2 :
  id ∉ rest -> dict_get id (w_queues w) = Some q -> pop q = Some (payload, q') ->
  pops out1 = [(id, payload)] -> served out1 (id, payload) ->
  (forall id', id' <> id -> dict_get id' (w_queues w1) = dict_get id' (w_queues w)) ->
  dict_get id (w_queues w1) = None \/ dict_get id (w_queues w1) = Some q' ->
  quiet_effect w1 rest out2 w2 -> quiet_effect w (id :: rest) (out1 ++ out2) w2.
Proof.
  intros Hid Hq Hp Ho Hsv Hother Hself (H1 & H2 & H3 & H4).
  assert (Hpay : payloads q = payload :: payloads q').
  { unfold pop in Hp. unfold payloads. destruct (lq_frames q) as [|[p c] l]; simplify_eq/=. done. }
  split_and!; [|done| |].
  - rewrite pops_app, Ho, H1, heads_cons, Hq, Hpay. simpl. f_equal.
    apply heads_ext. intros id' Hin. apply Hother. by intros ->.
  - intros id'. specialize (H3 id'). destruct (decide (id' = id)) as [->|Hne].
    + rewrite decide_True by apply list_elem_of_here. rewrite decide_False in H3 by done. rewrite H3, Hq. simpl.
      destruct Hself as [->| ->]; [by left|right]. exists q'. by rewrite Hpay.
    + rewrite Hother in H3 by done. destruct (decide (id' ∈ rest)).
      * by rewrite decide_True by by apply list_elem_of_further.
      * rewrite decide_False; [done|]. by intros [?|?]%elem_of_cons.
  - intros ip. rewrite pops_app, Ho. intros [ ->%list_elem_of_singleton|Hin]%elem_of_app.
    + eapply served_mono; [|exact Hsv]. intros e He. apply elem_of_app. by left.
    + eapply served_mono; [|by apply H4]. intros e He. apply elem_of_app. by right.
Qed.

Lemma round_loop_quiet now order : forall first drained w,
  ok (LE := LE) w -> w_pump w = Running -> cw_replay_gate (w_link w) = true -> NoDup order ->
  exists n, (n <= 2 * length order)%nat /\
    let '(out0, w0) := round_loop (LE := LE) now first drained order w in
    let '(out1, w1) := run (LE := LE) (replicate n (PumpStep now)) w0 in
    quiet_effect w order (out0 ++ out1) w1 /\ cw_replay_gate (w_link w1) = true.
Proof.
  induction order as [|id rest IH]; intros first drained w Hok Hrun Hgate Hnd.
  { exists 0%nat. simpl. split; [lia|]. unfold end_round. rewrite Hgate.
    split; [|by destruct drained]. split_and!; try done.
    - destruct drained; auto.
    - intros id. rewrite decide_False by apply not_elem_of_nil. by destruct drained.
    - by intros ip ?%elem_of_nil. }
  apply NoDup_cons in Hnd as [Hid Hnd]. cbn [round_loop]. rewrite Hgate, andb_false_r.
  destruct (dict_get id (w_queues w)) as [q|] eqn:Hq.
  2:{ destruct (IH false drained w Hok Hrun Hgate Hnd) as (n & Hn & H). exists n. split; [simpl; lia|].
      destruct (round_loop _ _ _ _ _) as [out0 w0], (run _ w0) as [out1 w1]. destruct H as [He Hg].
      split; [|done]. apply quiet_skip; [done|by rewrite Hq|done]. }
  destruct (empty q) eqn:Hem.
  { destruct (IH false drained w Hok Hrun Hgate Hnd) as (n & Hn & H). exists n. split; [simpl; lia|].
    destruct (round_loop _ _ _ _ _) as [out0 w0], (run _ w0) as [out1 w1]. destruct H as [He Hg].
    split; [|done]. apply quiet_skip; [done|by rewrite Hq|done]. }
  destruct (drain_begin_queues (now id) id q rest w Hok Hrun Hq Hem) as (payload & q' & Hp & Hd).
  pose proof (drain_begin_micros (now id) id q rest w Hok Hrun Hq Hem) as Hm.
  destruct (drain_begin (now id) id q rest w) as [parked [out w1]].
  destruct Hm as (Hm & Hc & Hr). destruct Hd as (Ho & Hg1 & Hother & Hself).
  assert (Hok1 : ok (LE := LE) w1) by by eapply ok_micros. rewrite Hgate in Hg1.
  destruct parked.
  - destruct Hself as (Hself & d & leg & Hp1 & Hdid & Hdp & Hl & Hgen). rewrite <- Hdid in Hl.
    destruct (quiet_write now d rest leg w1 Hp1 Hl Hgen) as (w2 & Hs2 & Hp2 & Hq2 & Hg2).
    pose proof (pump_step_ok now w1 _ _ Hok1 Hs2) as Hok2.
    assert (Hok3 : ok (LE := LE) (set_pump w2 Running)).
    { destruct Hok2 as [Hwf2 _]. split; [|done]. rewrite inflight_irrelevant; [done|done|]. unfold inflight. by rewrite Hp2. }
    destruct (IH false true (set_pump w2 Running) Hok3 eq_refl) as (n & Hn & H); [simpl; congruence|done|].
    exists (2 + n)%nat. split; [simpl; lia|]. rewrite run_pump_app. cbn [replicate run act]. rewrite Hs2.
    unfold pump_step at 1. rewrite Hp2.
    destruct (round_loop now false true rest (set_pump w2 Running)) as [out3 w3].
    destruct (run (replicate n _) w3) as [out4 w4]. destruct H as [He Hg]. split; [|done].
    rewrite app_nil_r, <- !app_assoc.
    rewrite (app_assoc out). eapply (quiet_cons w id rest q payload q' _ (set_pump w2 Running)); try done.
    + rewrite pops_app, Ho. done.
    + left. exists (dr_generation d), (dr_seq d), (dr_ack d). simpl. rewrite <- Hdid, <- Hdp.
      apply elem_of_app. right. apply list_elem_of_here.
    + simpl. intros id' Hne. rewrite Hq2. by apply Hother.
    + right. simpl. by rewrite Hq2.
  - destruct Hself as [Hself Hdereg].
    destruct (IH false true w1 Hok1 (Hr eq_refl) Hg1 Hnd) as (n & Hn & H). exists n. split; [simpl; lia|].
    destruct (round_loop now false true rest w1) as [out3 w3].
    destruct (run (replicate n _) w3) as [out4 w4]. destruct H as [He Hg]. split; [|done].
    rewrite <- app_assoc. eapply quiet_cons; try done; [by right|by left].
Qed.
End quiet.

(** ** The gate and the idle park *)
Section gate.
Context {L LE C : Type} `{!ByteLedger L LE, !ByteLedgerLaws L LE, !CoreWriter C, !CoreWriterLaws C}.
Implicit Types w : World L C.

(** The link clears the gate again only after a suspension of its own, so a pump that a
    [set()] released has run by then. *)
Fixpoint prompt (acts : list (Action C)) w : Prop :=
  match acts with
  | [] => True
  | a :: acts' =>
      (forall c, a = SetLink c -> w_pump w = AtGate true -> cw_replay_gate c = true) /\
      prompt acts' (act (LE := LE) a w).2
  end.

Definition all_empty w : Prop := forall id q, dict_get id (w_queues w) = Some q -> payloads q = [].
(** A pump about to start a round sees the gate set; a parked one has nothing to drain. *)
Definition poised w : Prop :=
  (w_pump w = AtGate true -> cw_replay_gate (w_link w) = true) /\
  (w_pump w = AtWakeup -> w_wakeup w = false -> all_empty w).

Lemma round_loop_gated now drained order w :
  cw_replay_gate (w_link w) = false ->
  (round_loop (LE := LE) now false drained order w).1 = [].
Proof. intros Hg. destruct order as [|id order]; [done|]. cbn [round_loop]. by rewrite Hg. Qed.

Lemma round_loop_poised now order : forall first drained w,
  ok (LE := LE) w -> w_pump w = Running ->
  drained = true \/ cw_replay_gate (w_link w) = true /\
    (forall id q, id ∉ order -> dict_get id (w_queues w) = Some q -> payloads q = []) ->
  poised (round_loop (LE := LE) now first drained order w).2.
Proof.
  assert (Hend : forall w, poised (end_round true w)).
  { intros w. split; simpl; [by intros [= ->]|done]. }
  induction order as [|id rest IH]; intros first drained w Hok Hrun Hd; cbn [round_loop].
  { destruct Hd as [->|[Hg Hall]]; [apply Hend|]. destruct drained; [apply Hend|]. split; [done|].
    intros _ _ id q. apply Hall, not_elem_of_nil. }
  destruct (negb first && negb (cw_replay_gate (w_link w))) eqn:Hstop.
  { destruct Hd as [->|[Hg _]]; [apply Hend|]. by rewrite Hg, andb_false_r in Hstop. }
  assert (Hskip : match dict_get id (w_queues w) with Some q => empty q = true | None => True end ->
    poised (round_loop (LE := LE) now false drained rest w).2).
  { intros Hem. apply IH; [done..|]. destruct Hd as [->|[Hg Hall]]; [by left|right]. split; [done|].
    intros id' q Hid' Hq. destruct (decide (id' = id)) as [->|Hne].
    - rewrite Hq in Hem. unfold empty, payloads in *. by destruct (lq_frames q).
    - apply (Hall id'); [|done]. by intros [?|?]%elem_of_cons. }
  destruct (dict_get id (w_queues w)) as [q|] eqn:Hq; [|by apply Hskip].
  destruct (empty q) eqn:Hem; [by apply Hskip|].
  destruct (drain_begin_queues (now id) id q rest w Hok Hrun Hq Hem) as (payload & q' & _ & Hb).
  pose proof (drain_begin_micros (now id) id q rest w Hok Hrun Hq Hem) as Hm.
  destruct (drain_begin (now id) id q rest w) as [parked [out w1]].
  destruct Hm as (Hm & Hc & Hr). destruct Hb as (_ & _ & _ & Hb). destruct parked.
  - destruct Hb as (_ & d & leg & Hp & _). simpl. split; rewrite Hp; done.
  - specialize (IH false true w1 (ok_micros _ _ _ Hok Hm Hc) (Hr eq_refl)).
    destruct (round_loop now false true rest w1) as [out' w2]. apply IH. by left.
Qed.

Lemma deregister_empty id w : NoDup (dict_keys (w_queues w)) -> all_empty w -> all_empty (deregister_leg (LE := LE) id w).2.
Proof.
  intros Hnd Hall. unfold deregister_leg. simpl. destruct (dict_get id (w_queues w)); [|done].
  intros id' q. simpl. rewrite dict_get_del by done. case_decide; [done|apply Hall].
Qed.
Lemma deregister_poised id w : ok (LE := LE) w -> poised w -> poised (deregister_leg (LE := LE) id w).2.
Proof.
  intros [Hwf _] [Hg Hi]. pose proof (deregister_micros (LE := LE) id w) as Hd.
  pose proof (deregister_empty id w (kw_keys _ Hwf)) as He.
  assert (Hw : w_wakeup (deregister_leg (LE := LE) id w).2 = w_wakeup w)
    by (unfold deregister_leg; simpl; by destruct (dict_get _ _)).
  destruct (deregister_leg id w) as [out w']. destruct Hd as (_ & Hp & Hl). simpl in *.
  split; rewrite Hp, ?Hl, ?Hw; [done|]. intros ??. apply He. by apply Hi.
Qed.

Lemma act_poised a w :
  ok (LE := LE) w -> poised w ->
  (forall c, a = SetLink c -> w_pump w = AtGate true -> cw_replay_gate c = true) ->
  poised (act (LE := LE) a w).2.
Proof.
  intros Hok [Hg Hi] Hprompt. pose proof Hok as [Hwf Hnc].
  destruct a as [now|id|id gate|gate|id|id payload|id o|c| |]; simpl.
  - unfold pump_step. destruct (w_pump w) as [released|d rest|rest| | | |] eqn:Hpu; try done;
      try (split; simpl; rewrite Hpu; done).
    + destruct (released || _) eqn:Hrel; [|split; simpl; rewrite Hpu; [by intros [= ->]|done]].
      apply round_loop_poised; [|done|right].
      * split; [|done]. rewrite inflight_irrelevant; [done|done|]. unfold inflight. by rewrite Hpu.
      * split; [destruct released; [by apply Hg|done]|]. simpl. intros id q Hid Hq. destruct Hid.
        assert (Hin : id ∈ dict_keys (w_queues w)).
        { apply list_elem_of_fmap. exists (id, q). split; [done|by apply dict_get_elem]. }
        unfold _round_order, registered_adapters. case_decide as Htui.
        -- destruct (decide (id = _TUI_ADAPTER_ID)) as [->|]; [apply list_elem_of_here|].
           apply list_elem_of_further, list_elem_of_filter. done.
        -- apply list_elem_of_filter. split; [by intros ->|done].
    + destruct (kw_inflight _ Hwf d) as (leg & Hleg & _); [simpl; unfold inflight; by rewrite Hpu|].
      simpl in Hleg. unfold drain_write. simpl. rewrite Hleg. destruct (_ =? _); [done|].
      assert (Hokr : ok (LE := LE) (set_pump w Running)).
      { eapply ok_micros; [exact Hok| |done].
        apply (micros_one (LE := LE) (core w) [Skipped (dr_id d) (dr_seq d)]), micro_skip.
        simpl. unfold inflight. by rewrite Hpu. }
      pose proof (round_loop_poised now rest false true (set_pump w Running) Hokr eq_refl) as Hr.
      destruct (round_loop now false true rest _) as [out w']. apply Hr. by left.
    + apply round_loop_poised; [|done|by left]. split; [|done].
      rewrite inflight_irrelevant; [done|done|]. unfold inflight. by rewrite Hpu.
    + destruct (w_wakeup w) eqn:Hw; [split; simpl; [by intros [= ->]|done]|split; simpl; rewrite Hpu, ?Hw; done].
  - destruct ((w_fleet w).1 !! id); [|done]. unfold register_leg.
    destruct (dict_get id (w_queues w)) eqn:Hq; [done|]. split; [done|]. intros Hp Hw id' q. simpl.
    rewrite dict_get_set. case_decide; [by intros [= <-]|by apply Hi].
  - unfold set_back_pressure_gate. by destruct (dict_get _ _).
  - done.
  - by apply deregister_poised.
  - unfold route, enqueue. destruct (decide _); [|done]. destruct (dict_get id (w_queues w)); [|done].
    destruct (offer payload l) as [[[]|ex] q']; [|done]. by split.
  - done.
  - destruct (w_pump w) as [released|d rest|rest| | | |] eqn:Hpu; simpl; split; simpl; rewrite ?Hpu; try done.
    + intros [= Hrel]. destruct released; [by apply (Hprompt c)|done].
  - unfold aclose. set (ids := registered_adapters w). clearbody ids.
    assert (Hgen : forall out0 w0, ok (LE := LE) w0 -> poised w0 ->
      poised (foldl (fun '(out, w) id => let '(out', w) := deregister_leg (LE := LE) id w in (out ++ out', w))
                    (out0, w0) ids).2).
    { induction ids as [|id ids IH]; intros out0 w0 Hok0 Hpo; [done|]. simpl.
      pose proof (deregister_poised id w0 Hok0 Hpo) as Hd. pose proof (act_micros (Deregister id) w0 Hok0) as Ha.
      simpl in Ha. destruct (deregister_leg id w0) as [out w1]. apply IH; [apply Ha|done]. }
    apply Hgen; [done|by split].
  - unfold throw. destruct (w_pump w) eqn:Hpu; simpl; split; simpl; rewrite ?Hpu; done.
Qed.

Lemma run_poised acts : forall w,
  ok (LE := LE) w -> poised w -> prompt acts w -> poised (run (LE := LE) acts w).2.
Proof.
  induction acts as [|a acts IH]; intros w Hok Hpo Hpr; simpl; [done|]. destruct Hpr as [Ha Hpr].
  pose proof (act_poised a w Hok Hpo Ha) as Hpo'. pose proof (act_micros a w Hok) as Hm.
  destruct (act a w) as [out w']. destruct Hm as [_ Hok']. simpl in *.
  specialize (IH w' Hok' Hpo' Hpr). by destruct (run acts w').
Qed.

Lemma init_poised max (fleet : Fleet (L := L)) (link : C) w : init max fleet link = Ok w -> poised w.
Proof. unfold init. destruct (max <=? 0); [done|]. intros [= <-]. split; simpl; [by intros [= ->]|done]. Qed.
End gate.

(** ** Theorems *)

(** A world the scheduler can be in: any actions after a construction over fresh legs. *)
Definition reached {L LE C} `{!ByteLedger L LE, !CoreWriter C} (max : Z) (fleet : Fleet (L := L)) (link : C)
    (acts : list (Action C)) (out : list Event) (w : World L C) : Prop :=
  fresh_fleet (LE := LE) fleet /\
  exists w0, init max fleet link = Ok w0 /\ run (LE := LE) acts w0 = (out, w).

(** A closed link and scheduler for the witnesses. *)
Record SampleLink := { sl_ack : Z; sl_gate : bool }.
#[export] Instance sample_writer : CoreWriter SampleLink := {
  cw_cumulative_ack c := Z.max (sl_ack c) 0;
  cw_replay_gate := sl_gate;
  cw_escalate _ c := c;
  cw_write _ _ _ _ c := c
}.
#[export] Instance sample_writer_laws : CoreWriterLaws SampleLink.
Proof. split; intros; simpl; done || lia. Qed.

Definition open_link : SampleLink := {| sl_ack := -1; sl_gate := true |}.
Definition shut_link : SampleLink := {| sl_ack := -1; sl_gate := false |}.
Definition noon : string -> Q := fun _ => 5%Q.
(** Both legs queue frames; the TUI leg is reset between its first mint and its write. *)
Definition sample_acts : list (Action SampleLink) :=
  [Register "discord"; Register "tui"; Enqueue "discord" six_bytes; Enqueue "tui" [x01];
   Enqueue "discord" [x02]; PumpStep noon; LegCall "tui" ResetForNewEpoch; Enqueue "tui" [x03];
   PumpStep noon; PumpStep noon; PumpStep noon; PumpStep noon].
Definition sample_world : World GlobalReplayCap SampleLink :=
  {| w_max := 16; w_queues := []; w_wakeup := false; w_gates := ∅; w_events := ∅;
     w_fleet := sample_fleet; w_link := open_link; w_pump := AtGate true |}.
Definition sample_out : list Event * World GlobalReplayCap SampleLink :=
  run (LE := GlobalReplayCapError) sample_acts sample_world.
Lemma sample_reached :
  reached (LE := GlobalReplayCapError) 16 sample_fleet open_link sample_acts sample_out.1 sample_out.2.
Proof.
  split; [apply sample_fleet_fresh|]. exists sample_world. split; [reflexivity|]. by destruct sample_out eqn:E.
Qed.
Example sample_writes : writes_of "discord" sample_out.1 = [(0, 0)] /\ writes_of "tui" sample_out.1 = [].
Proof. by vm_compute. Qed.

(** A control frame the dead client could not be sent raises through the escalation: the
    pump is over and what is queued stays queued. *)
Definition thrown : list Event * World GlobalReplayCap SampleLink :=
  run (LE := GlobalReplayCapError)
    [Register "discord"; Enqueue "discord" six_bytes; Enqueue "discord" [x02]; PumpStep noon; Throw;
     PumpStep noon; PumpStep noon] sample_world.
Example a_raising_escalation_ends_the_pump :
  w_pump thrown.2 = Killed /\ writes_of "discord" thrown.1 = [] /\
  queues_abs (w_queues thrown.2) !! "discord"%string = Some [[x02]].
Proof. by vm_compute. Qed.

Section theorems.
Context {L LE C : Type} `{!ByteLedger L LE, !ByteLedgerLaws L LE, !CoreWriter C, !CoreWriterLaws C}.
Implicit Types w : World L C.

Lemma reached_ok max fleet (link : C) acts out w :
  reached (LE := LE) max fleet link acts out w ->
  exists w0, init max fleet link = Ok w0 /\ ok (LE := LE) w0 /\ micros (LE := LE) (core w0) out (core w) /\
             ok (LE := LE) w /\ w_max w0 = max /\ w_queues w0 = [] /\ inflight w0 = None.
Proof.
  intros (Hf & w0 & Hi & Hr). exists w0. pose proof (init_ok _ _ _ _ (fresh_fleet_wf _ Hf) Hi) as Hok.
  pose proof (run_micros acts w0 Hok) as Hm. rewrite Hr in Hm. destruct Hm as [Hm Hok'].
  split_and!; try done; unfold init in Hi; destruct (max <=? 0); by simplify_eq.
Qed.

Lemma queue_count_le max q : queue_wf max q -> Zlen (payloads q) <= queued_cost (payloads q).
Proof.
  intros _. unfold queued_cost. induction (payloads q) as [|p ps IH]; [done|].
  rewrite Zlen_cons, Zsum_cons. pose proof (frame_cost_pos p). lia.
Qed.

(** Only [Throw] ends the pump from outside. *)
Lemma deregister_pump id w : w_pump (deregister_leg (LE := LE) id w).2 = w_pump w.
Proof. unfold deregister_leg. simpl. by destruct (dict_get _ _). Qed.

Lemma drain_begin_alive now id q rest w :
  w_pump w <> Killed -> w_pump (drain_begin (LE := LE) now id q rest w).2.2 <> Killed.
Proof.
  intros Hk. unfold drain_begin. destruct (pop q) as [[payload q']|]; [|done].
  set (w1 := set_queues w _). destruct (resume_reader_core id w1) as (_ & Hpu & _).
  destruct ((w_fleet _).1 !! id); [|done].
  destruct (record_for_send _ _ _) as [[seq|[]] [leg' cap']]; try done.
  match goal with |- context [deregister_leg id ?x] => pose proof (deregister_pump id x) as Hd;
    destruct (deregister_leg id x) end.
  simpl in *. rewrite Hd, Hpu. exact Hk.
Qed.

Lemma round_loop_alive now order : forall first drained w,
  w_pump w <> Killed -> w_pump (round_loop (LE := LE) now first drained order w).2 <> Killed.
Proof.
  induction order as [|id rest IH]; intros first drained w Hk; simpl; [by destruct drained|].
  destruct (_ && _); [by destruct drained|]. destruct (dict_get id (w_queues w)) as [q|]; [|by apply IH].
  destruct (empty q); [by apply IH|].
  pose proof (drain_begin_alive (now id) id q rest w Hk) as Hd.
  destruct (drain_begin (now id) id q rest w) as [[] [out w1]]; [done|].
  specialize (IH false true w1 Hd). by destruct (round_loop now false true rest w1).
Qed.

Lemma pump_step_alive now w : w_pump w <> Killed -> w_pump (pump_step (LE := LE) now w).2 <> Killed.
Proof.
  intros Hk. unfold pump_step. destruct (w_pump w) as [released|d rest|rest| | | |] eqn:Hpu; simpl; try congruence.
  - destruct (_ || _); [by apply round_loop_alive|simpl; congruence].
  - unfold drain_write. simpl. destruct ((w_fleet w).1 !! dr_id d); [|done]. destruct (_ =? _); [done|].
    pose proof (round_loop_alive now rest false true (set_pump w Running)) as H.
    destruct (round_loop _ _ _ _ _). by apply H.
  - by apply round_loop_alive.
  - destruct (w_wakeup w); simpl; congruence.
Qed.

Lemma act_alive a w : a <> Throw -> w_pump w <> Killed -> w_pump (act (LE := LE) a w).2 <> Killed.
Proof.
  intros Ha Hk. destruct a as [now|id|id gate|gate|id|id payload|id o|c| |]; simpl; try done.
  - by apply pump_step_alive.
  - destruct ((w_fleet w).1 !! id); [|done]. unfold register_leg. by destruct (dict_get _ _).
  - unfold set_back_pressure_gate. by destruct (dict_get _ _).
  - by rewrite deregister_pump.
  - unfold route, enqueue. destruct (decide _); [|done]. destruct (dict_get id (w_queues w)) as [q|]; [|done].
    by destruct (offer payload q) as [[[]|] ?].
  - by destruct (w_pump w) eqn:Hpu; simpl; rewrite ?Hpu.
  - pose proof (aclose_micros (LE := LE) w) as H. destruct (aclose w). destruct H as [_ H]. simpl. congruence.
Qed.

Lemma run_killed acts : forall w, w_pump w <> Killed ->
  w_pump (run (LE := LE) acts w).2 = Killed -> Throw ∈ acts.
Proof.
  induction acts as [|a acts IH]; intros w Hk; simpl; [done|].
  assert (a = Throw \/ a <> Throw) as [->|Ha] by (destruct a; first [by left|by right]); [constructor|].
  pose proof (act_alive a w Ha Hk) as Hk'. destruct (act a w) as [out w'].
  specialize (IH w' Hk'). destruct (run acts w'). intros Hend. by apply list_elem_of_further, IH.
Qed.

(** C30: under any interleaving of the pump with producers, registrations, link activity and
    leg calls, the scheduler's visible events are a run of one bounded FIFO per registered
    leg that ends in its actual queues: every accepted frame is popped once, in order, or is
    still queued, or went with its leg's deregistration; no queue holds more than the
    budget in bytes or in frames.  The scheduler itself never raises: its pump ends only
    when what it awaits (the gate, the wakeup, the escalation of a tripped breaker, the
    write) raises into it or is cancelled ([Throw]). *)
Theorem scheduler_refines_bounded_fifos max fleet (link : C) acts out w :
  reached (LE := LE) max fleet link acts out w ->
  spec_run max out ∅ = Some (queues_abs (w_queues w)) /\
  (forall id ps, queues_abs (w_queues w) !! id = Some ps -> queued_cost ps <= max /\ Zlen ps <= max) /\
  w_pump w <> Crashed /\ (w_pump w = Killed -> Throw ∈ acts).
Proof.
  intros Hre. assert (Hkill : w_pump w = Killed -> Throw ∈ acts).
  { destruct Hre as (_ & w0 & Hi & Hr). intros Hk. apply (run_killed acts w0); [|by rewrite Hr].
    unfold init in Hi. destruct (max <=? 0); by simplify_eq. }
  apply reached_ok in Hre as (w0 & _ & [Hwf0 _] & Hm & [Hwf Hnc] & <- & Hq0 & _).
  destruct (micros_spec _ _ _ Hwf0 Hm) as [Hmax Hs]. simpl in Hmax, Hs. rewrite Hq0 in Hs.
  split_and!; [done| |done|done]. intros id ps. rewrite queues_abs_lookup.
  destruct (dict_get id (w_queues w)) as [q|] eqn:Hq; [|done]. intros [= <-].
  pose proof (kw_queue _ Hwf id q Hq) as Hqw. simpl in Hqw. rewrite Hmax in Hqw.
  rewrite <- (queue_cost _ _ Hqw) at 1. pose proof (queue_count_le _ _ Hqw).
  rewrite <- (queue_cost _ _ Hqw) in H. destruct Hqw as (_ & _ & _ & ?). lia.
Qed.

(** For each leg, the (generation, seq) positions handed to the physical writer are
    strictly increasing under any interleaving: a frame whose leg was reset between its
    mint and its write is never written at its stale seq, and no seq of a connection is
    written twice or out of order. *)
Theorem scheduler_writes_each_position_once max fleet (link : C) acts out w id :
  reached (LE := LE) max fleet link acts out w -> StronglySorted wire_before (writes_of id out).
Proof.
  intros (w0 & _ & [Hwf0 _] & Hm & _ & _ & _ & Hi)%reached_ok.
  destruct (micros_frontier _ _ _ id [] Hwf0 Hm) as (_ & _ & Hs); [|done].
  split_and!; [by intros ?? _ ?%elem_of_nil|by intros ?? _ _ ?%elem_of_nil|constructor].
Qed.

Lemma round_order_NoDup w : NoDup (dict_keys (w_queues w)) -> NoDup (_round_order w).
Proof.
  intros Hnd. unfold _round_order. case_decide; [|by apply NoDup_filter]. constructor; [|by apply NoDup_filter].
  by intros [? _]%list_elem_of_filter.
Qed.
Lemma round_order_elem w id : id ∈ _round_order w <-> id ∈ registered_adapters w.
Proof.
  unfold _round_order. case_decide as Ht; rewrite ?elem_of_cons, list_elem_of_filter.
  - destruct (decide (id = _TUI_ADAPTER_ID)) as [->|]; naive_solver.
  - split; [naive_solver|]. intros Hin. split; [by intros ->|done].
Qed.
Lemma round_order_length w : NoDup (dict_keys (w_queues w)) -> length (_round_order w) = length (w_queues w).
Proof.
  intros Hnd. rewrite <- (length_fmap fst (w_queues w)). change ((w_queues w).*1) with (registered_adapters w).
  apply Permutation_length, NoDup_Permutation; [by apply round_order_NoDup|done|apply round_order_elem].
Qed.

(** A round that nobody interferes with ends after at most two suspensions per leg and
    one more step, and serves every leg with a queued frame exactly once, the TUI leg
    first: the frames taken are the heads of the non-empty queues in round order, each one
    is written or its leg isolated, every other leg's queue loses nothing, and the pump is
    back at the gate or idle. *)
Theorem scheduler_quiet_round_serves_every_leg max fleet (link : C) acts out w now released :
  reached (LE := LE) max fleet link acts out w ->
  w_pump w = AtGate released -> cw_replay_gate (w_link w) = true ->
  exists n, (n <= 1 + 2 * length (w_queues w))%nat /\
    let '(out', w') := run (LE := LE) (replicate n (PumpStep now)) w in
    pops out' = heads (w_queues w) (_round_order w) /\
    (forall ip, ip ∈ pops out' -> served out' ip) /\
    (forall id, drained_once (dict_get id (w_queues w)) (dict_get id (w_queues w'))) /\
    (w_pump w' = AtGate true \/ w_pump w' = AtWakeup) /\
    (_TUI_ADAPTER_ID ∈ registered_adapters w -> head (_round_order w) = Some _TUI_ADAPTER_ID).
Proof.
  intros (w0 & _ & _ & _ & [Hwf Hnc] & _)%reached_ok Hp Hg.
  assert (Hok : ok (LE := LE) (set_pump w Running)).
  { split; [|done]. rewrite inflight_irrelevant; [done|done|]. unfold inflight. by rewrite Hp. }
  pose proof (round_order_NoDup w (kw_keys _ Hwf)) as Hnd.
  destruct (round_loop_quiet (LE := LE) now (_round_order w) true false _ Hok eq_refl Hg Hnd) as (n & Hn & Hrl).
  exists (1 + n)%nat. rewrite round_order_length in Hn by apply Hwf. split; [lia|].
  rewrite run_pump_app. cbn [replicate run act]. unfold pump_step at 1. rewrite Hp, Hg, orb_true_r.
  destruct (round_loop now true false (_round_order w) (set_pump w Running)) as [o1 w1].
  destruct (run (replicate n (PumpStep now)) w1) as [o2 w2]. rewrite app_nil_r.
  destruct Hrl as [(H1 & H2 & H3 & H4) _]. split_and!; [done|done| |done|].
  - intros id. specialize (H3 id). case_decide as Hin; [done|]. simpl in H3. rewrite H3.
    rewrite round_order_elem in Hin. apply dict_get_None in Hin. by rewrite Hin.
  - intros Ht. unfold _round_order. by rewrite decide_True.
Qed.

(** With the replay gate clear the pump takes no frame off any queue, whatever it does
    next; and it never sleeps on queued work: parked on the wakeup event with the event
    clear, every queue is empty.  ([prompt]: the link does not clear the gate again before
    a pump it released has run.) *)
Theorem scheduler_yields_to_replay_and_never_sleeps_on_work max fleet (link : C) acts out w :
  reached (LE := LE) max fleet link acts out w ->
  (forall w0, init max fleet link = Ok w0 -> prompt (LE := LE) acts w0) ->
  (forall a, cw_replay_gate (w_link w) = false -> pops (act (LE := LE) a w).1 = []) /\
  (w_pump w = AtWakeup -> w_wakeup w = false -> forall id ps, queues_abs (w_queues w) !! id = Some ps -> ps = []).
Proof.
  intros Hre Hpr. pose proof Hre as (w0 & Hi & Hok0 & _ & [Hwf Hnc] & _)%reached_ok.
  destruct Hre as (_ & w0' & Hi' & Hr). rewrite Hi in Hi'. injection Hi' as <-.
  pose proof (run_poised acts w0 Hok0 (init_poised _ _ _ _ Hi) (Hpr _ Hi)) as [Hpg Hpi].
  rewrite Hr in Hpg, Hpi. simpl in Hpg, Hpi. split.
  - intros a Hg. destruct a as [now|id|id gate|gate|id|id payload|id o|c| |]; simpl.
    + unfold pump_step. destruct (w_pump w) as [released|d rest|rest| | | |] eqn:Hpu; try done.
      * rewrite Hg. destruct released; [by rewrite Hpg in Hg|done].
      * unfold drain_write. destruct (kw_inflight _ Hwf d) as (leg & Hl & _); [simpl; unfold inflight; by rewrite Hpu|].
        simpl in *. rewrite Hl. destruct (_ =? _); [done|].
        pose proof (round_loop_gated (LE := LE) now true rest (set_pump w Running) Hg) as Hz.
        destruct (round_loop _ _ _ _ _). simpl in *. by rewrite Hz.
      * by rewrite (round_loop_gated (LE := LE) now true rest (set_pump w Running) Hg).
      * by destruct (w_wakeup w).
    + destruct ((w_fleet w).1 !! id); [|done]. unfold register_leg. by destruct (dict_get _ _).
    + done.
    + done.
    + unfold deregister_leg. simpl. by destruct (dict_get _ _).
    + destruct (route id payload w) as [[[]|] ?]; done.
    + done.
    + done.
    + unfold aclose. generalize (registered_adapters w). intros ids.
      assert (Hgen : forall out0 w0, pops out0 = [] ->
        pops (foldl (fun '(out, w) id => let '(out', w) := deregister_leg (LE := LE) id w in (out ++ out', w))
                    (out0, w0) ids).1 = []).
      { induction ids as [|id ids IH]; intros out0 w1 Ho; [done|]. simpl.
        unfold deregister_leg. simpl. destruct (dict_get id (w_queues w1)); apply IH; by rewrite pops_app, Ho. }
      by apply Hgen.
    + done.
  - intros Hp Hw id ps. rewrite queues_abs_lookup. destruct (dict_get id (w_queues w)) as [q|] eqn:Hq; [|done].
    intros [= <-]. by eapply Hpi.
Qed.

(** The router enqueues on the named leg or not at all: an unknown id is refused with
    nothing changed, a known one is accepted exactly when the frame's cost fits the leg's
    budget, and a full leg raises with nothing changed; no other leg's queue is ever
    touched and the pump is woken on success. *)
Theorem router_never_default_routes max fleet (link : C) acts out w id payload :
  reached (LE := LE) max fleet link acts out w ->
  let '(r, w') := route id payload w in
  let s := queues_abs (w_queues w) in
  (r = Ok REFUSED_UNKNOWN_ADAPTER /\ s !! id = None /\ w' = w) \/
  (exists ps, s !! id = Some ps /\
     ((r = Ok ROUTED /\ queued_cost (ps ++ [payload]) <= max /\
       queues_abs (w_queues w') = <[id := ps ++ [payload]]> s /\ w_wakeup w' = true) \/
      (r = Err LegQueueFull /\ max < queued_cost (ps ++ [payload]) /\ w' = w))).
Proof.
  intros (w0 & _ & [Hwf0 _] & Hm & [Hwf Hnc] & <- & _)%reached_ok.
  destruct (micros_spec _ _ _ Hwf0 Hm) as [Hmax _]. simpl in Hmax. rewrite <- Hmax.
  unfold route, enqueue. rewrite queues_abs_lookup. case_decide as Hin.
  - destruct (dict_get id (w_queues w)) as [q|] eqn:Hq; [|by apply dict_get_None in Hq].
    pose proof (kw_queue _ Hwf id q Hq) as Hqw. simpl in Hqw.
    destruct (offer_cases _ q payload Hqw) as [[Hlt ->]|(Hle & q' & -> & Hpay)];
      right; exists (payloads q); (split; [done|]).
    + by right.
    + left. split_and!; try done. simpl. by rewrite queues_abs_set, Hpay.
  - left. apply dict_get_None in Hin. by rewrite Hin.
Qed.
End theorems.

Lemma scheduler_refines_bounded_fifos_witness :
  spec_run 16 sample_out.1 ∅ = Some (queues_abs (w_queues sample_out.2)) /\
  (forall id ps, queues_abs (w_queues sample_out.2) !! id = Some ps -> queued_cost ps <= 16 /\ Zlen ps <= 16) /\
  w_pump sample_out.2 <> Crashed /\ (w_pump sample_out.2 = Killed -> Throw ∈ sample_acts).
Proof. apply (scheduler_refines_bounded_fifos (LE := GlobalReplayCapError) _ _ _ _ _ _ sample_reached). Defined.

Lemma scheduler_writes_each_position_once_witness :
  writes_of "discord" sample_out.1 = [(0, 0)] /\ StronglySorted wire_before (writes_of "discord" sample_out.1).
Proof.
  split; [vm_compute; reflexivity|].
  apply (scheduler_writes_each_position_once (LE := GlobalReplayCapError) _ _ _ _ _ _ "discord" sample_reached).
Defined.

Definition sample_early : list (Action SampleLink) :=
  [Register "discord"; Register "tui"; Enqueue "discord" six_bytes; Enqueue "tui" [x01]].
Definition sample_early_out : list Event * World GlobalReplayCap SampleLink :=
  run (LE := GlobalReplayCapError) sample_early sample_world.
Lemma sample_early_reached :
  reached (LE := GlobalReplayCapError) 16 sample_fleet open_link sample_early sample_early_out.1 sample_early_out.2.
Proof.
  split; [apply sample_fleet_fresh|]. exists sample_world. split; [reflexivity|]. by destruct sample_early_out eqn:E.
Qed.

Lemma scheduler_quiet_round_serves_every_leg_witness :
  exists n, (n <= 5)%nat /\
    let '(out', w') := run (LE := GlobalReplayCapError) (replicate n (PumpStep noon)) sample_early_out.2 in
    pops out' = [("tui"%string, [x01]); ("discord"%string, six_bytes)] /\
    (w_pump w' = AtGate true \/ w_pump w' = AtWakeup).
Proof.
  destruct (scheduler_quiet_round_serves_every_leg (LE := GlobalReplayCapError)
    _ _ _ _ _ _ noon true sample_early_reached eq_refl eq_refl) as (n & Hn & H).
  exists n. split; [exact Hn|]. destruct (run (replicate n (PumpStep noon)) sample_early_out.2) as [out' w'].
  destruct H as (H1 & _ & _ & H4 & _). split; [rewrite H1; vm_compute; reflexivity|exact H4].
Defined.

Lemma scheduler_yields_to_replay_and_never_sleeps_on_work_witness :
  (forall a, sl_gate (w_link sample_out.2) = false -> pops (act (LE := GlobalReplayCapError) a sample_out.2).1 = []) /\
  (w_pump sample_out.2 = AtWakeup -> w_wakeup sample_out.2 = false ->
   forall id ps, queues_abs (w_queues sample_out.2) !! id = Some ps -> ps = []).
Proof.
  apply (scheduler_yields_to_replay_and_never_sleeps_on_work (LE := GlobalReplayCapError) _ _ _ _ _ _ sample_reached).
  intros w0 _. unfold sample_acts. cbn [prompt]. repeat split; intros c [=].
Defined.

Lemma router_never_default_routes_witness :
  (route "telegram" [x01] sample_out.2).1 = Ok REFUSED_UNKNOWN_ADAPTER /\
  let '(r, w') := route "discord" six_bytes sample_out.2 in
  let s := queues_abs (w_queues sample_out.2) in
  (r = Ok REFUSED_UNKNOWN_ADAPTER /\ s !! "discord"%string = None /\ w' = sample_out.2) \/
  (exists ps, s !! "discord"%string = Some ps /\
     ((r = Ok ROUTED /\ queued_cost (ps ++ [six_bytes]) <= 16 /\
       queues_abs (w_queues w') = <["discord"%string := ps ++ [six_bytes]]> s /\ w_wakeup w' = true) \/
      (r = Err LegQueueFull /\ 16 < queued_cost (ps ++ [six_bytes]) /\ w' = sample_out.2))).
Proof.
  split; [vm_compute; reflexivity|].
  apply (router_never_default_routes (LE := GlobalReplayCapError) _ _ _ _ _ _ "discord" six_bytes sample_reached).
Defined.
