(* ===== verification/CoreLink.v ===== *)
(** * [gateway/core_link.py]: reconnect-replay, acknowledgements, the link-state feed

    The parts of [GatewayCoreLink] that decide what a client sees and what survives a core
    restart: [_feed] and its callers, the capture of the un-acked remainder at a handshake,
    [_flush_pending_replay], the trim on a daemon ack, the write guard and the reconnect
    delay.  The sockets and the JSON framing are not modelled; what happens to the link
    while a write of the flush is suspended is given as data ([Meanwhile]).  The link is
    the [CoreWriter] the scheduler drains onto. *)
From S2P Require Import Prelude SeqTracker TableMachine LinkState ReplayBuffer GlobalReplayCap TokenBucket IngressGate GatewayLeg LegScheduler.
From Stdlib Require Import Strings.Byte.

Record CoreLink := {
  cl_machine : GatewayLinkState;
  cl_tracker : Tracker.BoundedSeqAckTracker;
  cl_transport : bool;                       (** [_current_core_transport is not None] *)
  cl_tui_leg : option string;
  cl_pending_replay : list ReplayFrame;
  cl_replay_pending : bool;                  (** the gate: set or clear *)
  cl_core_epoch : option string;
  cl_gap_started_at : option Q;
  cl_unavailable_seconds : Q;                (** CORE_UNAVAILABLE_SECONDS *)
  cl_core_link_up : bool;                    (** CORE_LINK_UP *)
  cl_sent_controls : list LinkControl        (** what went to the client, oldest first *)
}.

Definition init (tui_leg : option string) : CoreLink :=
  {| cl_machine := LinkState.init; cl_tracker := Tracker.init; cl_transport := false; cl_tui_leg := tui_leg;
     cl_pending_replay := []; cl_replay_pending := true; cl_core_epoch := None; cl_gap_started_at := None;
     cl_unavailable_seconds := 0; cl_core_link_up := false; cl_sent_controls := [] |}.

Definition set_replay (c : CoreLink) (pending : list ReplayFrame) (gate : bool) : CoreLink :=
  {| cl_machine := cl_machine c; cl_tracker := cl_tracker c; cl_transport := cl_transport c;
     cl_tui_leg := cl_tui_leg c; cl_pending_replay := pending; cl_replay_pending := gate;
     cl_core_epoch := cl_core_epoch c; cl_gap_started_at := cl_gap_started_at c;
     cl_unavailable_seconds := cl_unavailable_seconds c; cl_core_link_up := cl_core_link_up c;
     cl_sent_controls := cl_sent_controls c |}.
Definition set_tracker (c : CoreLink) (t : Tracker.BoundedSeqAckTracker) : CoreLink :=
  {| cl_machine := cl_machine c; cl_tracker := t; cl_transport := cl_transport c;
     cl_tui_leg := cl_tui_leg c; cl_pending_replay := cl_pending_replay c; cl_replay_pending := cl_replay_pending c;
     cl_core_epoch := cl_core_epoch c; cl_gap_started_at := cl_gap_started_at c;
     cl_unavailable_seconds := cl_unavailable_seconds c; cl_core_link_up := cl_core_link_up c;
     cl_sent_controls := cl_sent_controls c |}.
Definition set_transport (c : CoreLink) (up : bool) : CoreLink :=
  {| cl_machine := cl_machine c; cl_tracker := cl_tracker c; cl_transport := up;
     cl_tui_leg := cl_tui_leg c; cl_pending_replay := cl_pending_replay c; cl_replay_pending := cl_replay_pending c;
     cl_core_epoch := cl_core_epoch c; cl_gap_started_at := cl_gap_started_at c;
     cl_unavailable_seconds := cl_unavailable_seconds c; cl_core_link_up := cl_core_link_up c;
     cl_sent_controls := cl_sent_controls c |}.
Definition set_epoch (c : CoreLink) (epoch : string) : CoreLink :=
  {| cl_machine := cl_machine c; cl_tracker := cl_tracker c; cl_transport := cl_transport c;
     cl_tui_leg := cl_tui_leg c; cl_pending_replay := cl_pending_replay c; cl_replay_pending := cl_replay_pending c;
     cl_core_epoch := Some epoch; cl_gap_started_at := cl_gap_started_at c;
     cl_unavailable_seconds := cl_unavailable_seconds c; cl_core_link_up := cl_core_link_up c;
     cl_sent_controls := cl_sent_controls c |}.

(** ** The link-state feed *)
Definition is_up (s : GatewayLinkState) : bool := bool_decide (s = UP).

Definition after_feed (c : CoreLink) (state' : GatewayLinkState) (control : option LinkControl) (now : Q) : CoreLink :=
  let was_up := is_up (cl_machine c) in
  let now_up := is_up state' in
  let '(gap, seconds) :=
    if was_up && negb now_up then (Some now, cl_unavailable_seconds c)
    else match cl_gap_started_at c with
         | Some t => if negb was_up && now_up then (None, (cl_unavailable_seconds c + (now - t))%Q)
                     else (Some t, cl_unavailable_seconds c)
         | None => (None, cl_unavailable_seconds c)
         end in
  {| cl_machine := state'; cl_tracker := cl_tracker c; cl_transport := cl_transport c;
     cl_tui_leg := cl_tui_leg c; cl_pending_replay := cl_pending_replay c; cl_replay_pending := cl_replay_pending c;
     cl_core_epoch := cl_core_epoch c; cl_gap_started_at := gap; cl_unavailable_seconds := seconds;
     cl_core_link_up := now_up; cl_sent_controls := cl_sent_controls c ++ option_list control |}.

(** [_feed]; [now] is the clock if it is read. *)
Definition _feed (event : GatewayLinkEvent) (now : Q) : M CoreLink GatewayLinkStateError (option LinkControl) :=
  c <-- get;
  match LinkState.feed event (cl_machine c) with
  | (Err e, _) => raise e
  | (Ok control, state') => put (after_feed c state' control now);;; ret control
  end.

(** [_consume_ready] on a frame that validated, with its epoch; [_consume_going_down]. *)
Definition _consume_ready (epoch : string) (now : Q) : M CoreLink GatewayLinkStateError (option LinkControl) :=
  c <-- get;
  if decide (Some epoch = cl_core_epoch c) then _feed CORE_READY now else ret None.
Definition _consume_going_down (now : Q) : M CoreLink GatewayLinkStateError (option LinkControl) :=
  _feed CORE_GOING_DOWN now.

(** [escalate_if_breaker_tripped]: the control the feed returned, for the once-only row. *)
Definition escalate_if_breaker_tripped (tripped : bool) (now : Q)
  : M CoreLink GatewayLinkStateError (option LinkControl) :=
  if negb tripped then ret None else _feed BREAKER_TRIPPED now.

Definition core_cumulative_ack (c : CoreLink) : Z := Z.max (Tracker.cumulative_ack (cl_tracker c)) 0.

(** [write_leg_unit] reaches the transport iff there is one. *)
Definition write_leg_unit_sends (c : CoreLink) : bool := cl_transport c.

#[export] Instance core_writer : CoreWriter CoreLink := {
  cw_cumulative_ack := core_cumulative_ack;
  cw_replay_gate := cl_replay_pending;
  cw_escalate tripped c := (escalate_if_breaker_tripped tripped 0 c).2;
  cw_write _ _ _ _ c := c
}.
#[export] Instance core_writer_laws : CoreWriterLaws CoreLink.
Proof.
  split; simpl; [|done|intros c; unfold core_cumulative_ack; lia].
  intros [] [m]; [|done]. destruct m, cl_gap_started_at0; reflexivity.
Qed.

(** ** The reconnect delay *)
Definition INITIAL_BACKOFF_SECONDS : Q := 1 # 4.
Definition MAX_BACKOFF_SECONDS : Q := 5.
Definition _BACKOFF_FACTOR : Q := 2.
Definition _MIN_RECONNECT_DELAY_SECONDS : Q := 1 # 20.

(** [jitter]: the injected draw.  The delays of an unbroken run of failed attempts. *)
Fixpoint reconnect_delays (jitter : Q -> Q) (backoff : Q) (attempts : nat) : list Q :=
  match attempts with
  | O => []
  | S n => py_min (py_max (jitter backoff) _MIN_RECONNECT_DELAY_SECONDS) backoff
           :: reconnect_delays jitter (py_min (backoff * _BACKOFF_FACTOR) MAX_BACKOFF_SECONDS) n
  end.

(** ** Capture and replay *)
Section replay.
Context {L LE : Type} `{!ByteLedger L LE}.

(** What goes on while one frame of the flush is being written: the clock its record
    read, the calls other tasks made on the legs, and whether the transport is still
    there when the flush resumes. *)
Record Meanwhile := { mw_now : Q; mw_calls : list (string * GatewayLeg.op); mw_transport : bool }.

Inductive FlushEvent :=
| Replayed (payload : list byte) (seq ack : Z)
| CeilingDropped (payload : list byte)
| Deferred (frames : list ReplayFrame)
| FlushRaised.

Definition leg_frames (leg : GatewayLeg) : list ReplayFrame :=
  (fun p => {| rf_seq := p.1; rf_payload := p.2 |}) <$> GatewayLeg.unacked_frames leg.

(** The end of [_peer_handshake]: fresh tracker, capture, clear the gate, reset the leg. *)
Definition capture (s : CoreLink * Fleet (L := L)) : CoreLink * Fleet (L := L) :=
  let '(c, f) := s in
  let c := set_tracker c Tracker.init in
  match cl_tui_leg c with
  | None => (c, f)
  | Some id =>
      match f.1 !! id with
      | None => (c, f)
      | Some leg =>
          let pending := cl_pending_replay c ++ leg_frames leg in
          (set_replay c pending (match pending with [] => cl_replay_pending c | _ => false end),
           fleet_step (LE := LE) f (id, ResetForNewEpoch))
      end
  end.

(** [finally: if not self._pending_replay: self._replay_pending.set()] *)
Definition flush_done (c : CoreLink) : CoreLink :=
  set_replay c (cl_pending_replay c)
    (match cl_pending_replay c with [] => true | _ => cl_replay_pending c end).

Fixpoint flush_loop (env : nat -> Meanwhile) (i : nat) (frames : list ReplayFrame) (s : CoreLink * Fleet (L := L))
  : list FlushEvent * (CoreLink * Fleet (L := L)) :=
  let '(c, f) := s in
  match frames with
  | [] => ([], (flush_done c, f))
  | frame :: rest =>
      if negb (cl_transport c) then
        ([Deferred frames], (flush_done (set_replay c frames (cl_replay_pending c)), f))
      else
        match cl_tui_leg c with
        | None => ([FlushRaised], (flush_done c, f))
        | Some id =>
            match f.1 !! id with
            | None => ([FlushRaised], (flush_done c, f))
            | Some leg =>
                let '(r, (leg', cap')) := record_for_send (LE := LE) (rf_payload frame) (mw_now (env i)) (leg, f.2) in
                let f : Fleet (L := L) := (<[id := leg']> f.1, cap') in
                match r with
                | Err (BufferError _) =>
                    let '(out, s') := flush_loop env (S i) rest (c, f) in
                    (CeilingDropped (rf_payload frame) :: out, s')
                | Err _ => ([FlushRaised], (flush_done c, f))
                | Ok seq =>
                    let ack := core_cumulative_ack c in
                    let '(out, s') :=
                      flush_loop env (S i) rest
                        (set_transport c (mw_transport (env i)), fleet_run (LE := LE) (mw_calls (env i)) f) in
                    (Replayed (rf_payload frame) seq ack :: out, s')
                end
            end
        end
  end.

Definition _flush_pending_replay (env : nat -> Meanwhile) (s : CoreLink * Fleet (L := L))
  : list FlushEvent * (CoreLink * Fleet (L := L)) :=
  let '(c, f) := s in
  flush_loop env 0 (cl_pending_replay c) (set_replay c [] (cl_replay_pending c), f).

(** [_route_unit] on a [daemon.comms.ack] whose [cumulative_ack] is an integer: only a
    non-negative one trims, and only the TUI leg. *)
Definition route_ack (ack : Z) (s : CoreLink * Fleet (L := L)) : CoreLink * Fleet (L := L) :=
  let '(c, f) := s in
  match cl_tui_leg c with
  | None => (c, f)
  | Some id => (c, if 0 <=? ack then fleet_step (LE := LE) f (id, TrimToAck ack) else f)
  end.
End replay.
Arguments CoreLink : clear implicits.

(** [_emit_durable_intake_ack_loop] of [cli/daemon/_comms_boot.py]: one tick. *)
Definition emit_ack_tick (t : Tracker.BoundedSeqAckTracker) (last_emitted : Z) : option Z * Z :=
  let ack := Tracker.cumulative_ack t in
  if ack <=? last_emitted then (None, last_emitted) else (Some (Z.max ack 0), ack).

(** ** The feed, over any run of events *)
Definition feed_all (feeds : list (GatewayLinkEvent * Q)) (c : CoreLink) : CoreLink :=
  foldl (fun c e => (_feed e.1 e.2 c).2) c feeds.

(** The time during which the machine was not [UP], read off the clock at each event. *)
Fixpoint downtime (c : CoreLink) (last : Q) (feeds : list (GatewayLinkEvent * Q)) : Q :=
  match feeds with
  | [] => 0
  | (e, now) :: feeds' =>
      ((if is_up (cl_machine c) then 0 else now - last) + downtime (_feed e now c).2 now feeds')%Q
  end.
Definition open_gap (c : CoreLink) (now : Q) : Q :=
  match cl_gap_started_at c with Some t => (now - t)%Q | None => 0%Q end.

Definition gap_wf (c : CoreLink) : Prop := is_Some (cl_gap_started_at c) <-> cl_machine c <> UP.

Lemma feed_outcome e now c :
  (exists ex, LinkState.feed e (cl_machine c) = (Err ex, cl_machine c) /\ (_feed e now c).2 = c) \/
  (exists control s', LinkState.feed e (cl_machine c) = (Ok control, s') /\
     _feed e now c = (Ok control, after_feed c s' control now)).
Proof.
  unfold _feed, bind, get, put, ret, raise. destruct (LinkState.feed e (cl_machine c)) as [[control|ex] s'] eqn:Hf.
  - right. by eexists _, _.
  - left. exists ex. destruct (link_feed_total (cl_machine c) e) as [_ Hs]. rewrite Hf in Hs. simpl in Hs.
    rewrite Hs; [done|]. by destruct ex.
Qed.

Lemma after_feed_gap c s' control now last :
  gap_wf c -> gap_wf (after_feed c s' control now) /\
  (cl_unavailable_seconds (after_feed c s' control now) + open_gap (after_feed c s' control now) now ==
   cl_unavailable_seconds c + open_gap c last + (if is_up (cl_machine c) then 0 else now - last))%Q.
Proof.
  intros [Hg1 Hg2]. unfold gap_wf, open_gap, after_feed, is_up in *.
  destruct (decide (cl_machine c = UP)) as [Hup|Hdown].
  - rewrite (bool_decide_eq_true_2 _ Hup). destruct (cl_gap_started_at c) as [t|]; [by destruct Hg1|].
    destruct (decide (s' = UP)) as [->|Hs].
    + simpl. split; [split; [by intros [? [=]]|done]|lra].
    + rewrite (bool_decide_eq_false_2 _ Hs). simpl. split; [split; [done|by eexists]|lra].
  - rewrite (bool_decide_eq_false_2 _ Hdown). destruct (Hg2 Hdown) as [t Ht]. rewrite Ht.
    destruct (decide (s' = UP)) as [->|Hs].
    + simpl. split; [split; [by intros [? [=]]|done]|lra].
    + rewrite (bool_decide_eq_false_2 _ Hs). simpl. split; [split; [done|by eexists]|lra].
Qed.

Lemma feed_all_spec feeds : forall c lst,
  gap_wf c -> cl_core_link_up c = is_up (cl_machine c) ->
  let c' := feed_all feeds c in
  gap_wf c' /\ cl_core_link_up c' = is_up (cl_machine c') /\
  (cl_sent_controls c', cl_machine c') =
    (cl_sent_controls c ++ (tm_run feeds.*1 (cl_machine c)).1, (tm_run feeds.*1 (cl_machine c)).2) /\
  (cl_unavailable_seconds c' + open_gap c' (default lst (last feeds.*2)) ==
   cl_unavailable_seconds c + open_gap c lst + downtime c lst feeds)%Q.
Proof.
  induction feeds as [|[e now] feeds IH]; intros c lst Hg Hup c'.
  { unfold c'. simpl. split_and!; [done|done|by rewrite app_nil_r|lra]. }
  unfold c'. cbn [feed_all foldl fmap list_fmap fst snd tm_run downtime].
  change (foldl _ ?x feeds) with (feed_all feeds x).
  assert (Hlast : default lst (last (now :: feeds.*2)) = default now (last feeds.*2)).
  { rewrite last_cons. by destruct (last feeds.*2). }
  rewrite Hlast. destruct (feed_outcome e now c) as [(ex & Hf & He)|(control & s' & Hf & He)].
  - rewrite He. unfold LinkState.feed in Hf. rewrite Hf.
    assert (Hst : is_up (cl_machine c) = true).
    { destruct (link_feed_total (cl_machine c) e) as [[Hu _] _]. unfold LinkState.feed in Hu. rewrite Hf in Hu.
      destruct ex. destruct (Hu eq_refl) as [-> _]. done. }
    destruct (IH c now Hg Hup) as (H1 & H2 & H3 & H4). split_and!; [done|done| |].
    + rewrite H3. by destruct (tm_run feeds.*1 (cl_machine c)).
    + rewrite H4, Hst. destruct Hg as [Hg _]. unfold open_gap.
      destruct (cl_gap_started_at c) as [t|]; [|lra].
      destruct (Hg ltac:(by eexists)). unfold is_up in Hst. by apply bool_decide_eq_true in Hst.
  - rewrite He. simpl. unfold LinkState.feed in Hf. rewrite Hf.
    destruct (after_feed_gap c s' control now lst Hg) as [Hg' Hsec].
    assert (Hm : cl_machine (after_feed c s' control now) = s') by by (unfold after_feed; repeat case_match).
    assert (Hc : cl_sent_controls (after_feed c s' control now) = cl_sent_controls c ++ option_list control)
      by by (unfold after_feed; repeat case_match).
    destruct (IH (after_feed c s' control now) now Hg') as (H1 & H2 & H3 & H4).
    { by unfold after_feed; repeat case_match. }
    rewrite Hm, Hc in H3. split_and!; [done|done| |].
    + rewrite H3. destruct (tm_run feeds.*1 s'). simpl. rewrite <- app_assoc. by destruct control.
    + rewrite H4, Hsec. lra.
Qed.

(** ** Who loses a frame *)
Definition handled_payloads (out : list FlushEvent) : list (list byte) :=
  omap (fun e => match e with Replayed p _ _ | CeilingDropped p => Some p | _ => None end) out.
Definition replayed_frames (out : list FlushEvent) : list (Z * list byte) :=
  omap (fun e => match e with Replayed p s _ => Some (s, p) | _ => None end) out.

Section replay_laws.
Context {L LE : Type} `{!ByteLedger L LE, !ByteLedgerLaws L LE}.

Lemma fleet_run_dom calls : forall f : Fleet (L := L), fleet_wf (LE := LE) f ->
  dom (fleet_run (LE := LE) calls f).1 = dom f.1.
Proof.
  induction calls as [|call calls IH]; intros f Hf; [done|]. simpl.
  destruct (fleet_step_wf f call Hf) as (Hf' & _ & Hd). by rewrite IH.
Qed.
Lemma fleet_put_wf (f : Fleet (L := L)) id leg leg' cap' :
  fleet_wf (LE := LE) f -> f.1 !! id = Some leg -> keeps (LE := LE) leg f.2 leg' cap' ->
  fleet_wf (LE := LE) (<[id := leg']> f.1, cap') /\ dom (<[id := leg']> f.1) = dom f.1.
Proof.
  intros [Hl Hs] Hleg (Hwf' & Hid' & (Hl' & _ & Ho)). destruct (Hs _ _ Hleg) as [Hid _].
  split.
  - split; [done|]. simpl. intros i h Hh. apply lookup_insert_Some in Hh as [[<- <-]|[Hne Hh]]; [split; [congruence|done]|].
    destruct (Hs _ _ Hh) as [Hidh Hwfh]. split; [done|]. destruct Hwfh. split; try done.
    rewrite Ho; [done|]. congruence.
  - rewrite dom_insert_L. apply elem_of_dom_2 in Hleg. set_solver.
Qed.

Lemma flush_done_pending c : cl_pending_replay (flush_done c) = cl_pending_replay c /\ cl_transport (flush_done c) = cl_transport c.
Proof. done. Qed.

Lemma flush_loop_accounts env frames : forall i c (f : Fleet (L := L)) id,
  fleet_wf (LE := LE) f -> cl_tui_leg c = Some id -> is_Some (f.1 !! id) -> cl_pending_replay c = [] ->
  let '(out, (c', f')) := flush_loop (LE := LE) env i frames (c, f) in
  fleet_wf (LE := LE) f' /\ (FlushRaised ∉ out) /\
  (exists handled, frames = handled ++ cl_pending_replay c' /\ handled_payloads out = rf_payload <$> handled) /\
  cl_replay_pending c' = match cl_pending_replay c' with [] => true | _ => cl_replay_pending c end /\
  (cl_pending_replay c' <> [] -> cl_transport c' = false).
Proof.
  induction frames as [|frame rest IH]; intros i c f id Hf Hid Hleg Hp; simpl.
  { rewrite Hp. split_and!; try done; [by intros ?%elem_of_nil|by exists []]. }
  destruct (cl_transport c) eqn:Ht; simpl.
  2:{ split_and!; try done; [|by exists []]. rewrite list_elem_of_singleton. done. }
  rewrite Hid. destruct Hleg as [leg Hleg]. rewrite Hleg. destruct (proj2 Hf _ _ Hleg) as [_ Hwf].
  destruct (record_for_send_ok (rf_payload frame) (mw_now (env i)) leg f.2 Hwf) as
    [[_ ->]|[(e & l' & _ & -> & Hk)|(leg' & cap' & -> & Hk & _)]].
  - rewrite insert_id by done. assert (Hsurj : (f.1, f.2) = f) by by destruct f. rewrite Hsurj.
    specialize (IH (S i) c f id Hf Hid (mk_is_Some _ _ Hleg) Hp).
    destruct (flush_loop env (S i) rest (c, f)) as [out [c' f']]. destruct IH as (H1 & H2 & (h & -> & H3) & H4 & H5).
    split_and!; try done; [by rewrite not_elem_of_cons|]. exists (frame :: h). rewrite fmap_cons, <- H3. done.
  - destruct (fleet_put_wf f id leg _ l' Hf Hleg Hk) as [Hf' Hd].
    assert (Hl' : is_Some ((<[id := set_seq leg (lg_send_seq leg + 1) (lg_generation leg)]> f.1) !! id))
      by (rewrite lookup_insert_eq; by eexists).
    specialize (IH (S i) c (_, l') id Hf' Hid Hl' Hp).
    destruct (flush_loop env (S i) rest _) as [out [c' f']]. destruct IH as (H1 & H2 & (h & -> & H3) & H4 & H5).
    split_and!; try done; [by rewrite not_elem_of_cons|]. exists (frame :: h). rewrite fmap_cons, <- H3. done.
  - destruct (fleet_put_wf f id leg _ cap' Hf Hleg Hk) as [Hf' Hd].
    destruct (fleet_run_wf (LE := LE) (mw_calls (env i)) _ Hf') as [Hf'' _].
    pose proof (fleet_run_dom (mw_calls (env i)) _ Hf') as Hd'.
    assert (Hl' : is_Some ((fleet_run (LE := LE) (mw_calls (env i)) (<[id:=leg']> f.1, cap')).1 !! id)).
    { apply elem_of_dom. rewrite Hd'. simpl. rewrite Hd. by eapply elem_of_dom_2. }
    specialize (IH (S i) (set_transport c (mw_transport (env i))) _ id Hf'' Hid Hl' Hp).
    destruct (flush_loop env (S i) rest _) as [out [c' f']]. destruct IH as (H1 & H2 & (h & -> & H3) & H4 & H5).
    split_and!; try done; [by rewrite not_elem_of_cons|]. exists (frame :: h). rewrite fmap_cons, <- H3. done.
Qed.
End replay_laws.

(** ** The resume oracle *)

(** Payloads renumbered from [seq], as the flush puts them on the new connection. *)
Fixpoint numbered (seq : Z) (frames : list ReplayFrame) : list (Z * list byte) :=
  match frames with
  | [] => []
  | frame :: rest => (seq, rf_payload frame) :: numbered (seq + 1) rest
  end.
Definition frame_bytes (frames : list ReplayFrame) : Z := Zsum (fun fr => Zlen (rf_payload fr)) frames.

(** Nothing else happens during the flush: the transport stays, nobody calls a leg, and the
    clock does not go back. *)
Definition calm (env : nat -> Meanwhile) : Prop :=
  (forall i, mw_calls (env i) = [] /\ mw_transport (env i) = true) /\
  (forall i j, (i <= j)%nat -> (mw_now (env i) <= mw_now (env j))%Q).

Section oracle.
Context {L LE : Type} `{!ByteLedger L LE, !ByteLedgerLaws L LE}.

Lemma before_later now now' : (now <= now')%Q -> before now' (Some now) = false.
Proof. intros H. unfold before. cmp_cases; [lra|done]. Qed.

Lemma flush_loop_calm env frames : calm env -> forall i c (f : Fleet (L := L)) id leg,
  fleet_wf (LE := LE) f -> cl_tui_leg c = Some id -> f.1 !! id = Some leg ->
  cl_transport c = true -> cl_pending_replay c = [] ->
  (forall j, (i <= j)%nat -> before (mw_now (env j)) (rb_last_now (lg_buffer leg)) = false) ->
  GatewayLeg.depth_frames leg + Zlen frames <= 2 * rb_max_frames (lg_buffer leg) ->
  GatewayLeg.depth_bytes leg + frame_bytes frames <= 2 * rb_max_bytes (lg_buffer leg) ->
  ld_total f.2 + frame_bytes frames <= ld_ceiling f.2 ->
  let '(out, (c', f')) := flush_loop (LE := LE) env i frames (c, f) in
  exists leg', f'.1 !! id = Some leg' /\
    out = (fun p => Replayed p.2 p.1 (core_cumulative_ack c)) <$> numbered (lg_send_seq leg) frames /\
    GatewayLeg.unacked_frames leg' = GatewayLeg.unacked_frames leg ++ numbered (lg_send_seq leg) frames /\
    lg_send_seq leg' = lg_send_seq leg + Zlen frames /\
    cl_pending_replay c' = [] /\ cl_replay_pending c' = true.
Proof.
  intros [Hcalm Hclock]. induction frames as [|frame rest IH];
    intros i c f id leg Hf Hid Hleg Ht Hp Hnow Hfr Hby Hcap; simpl.
  { exists leg. rewrite Hp, app_nil_r, Zlen_nil. split_and!; try done. lia. }
  rewrite Ht, Hid, Hleg. simpl. destruct (proj2 Hf _ _ Hleg) as [_ Hwf].
  rewrite Zlen_cons in Hfr. unfold frame_bytes in *. rewrite Zsum_cons in Hby, Hcap.
  pose proof (Zsum_nonneg (fun fr => Zlen (rf_payload fr)) rest (fun fr => Zlen_nonneg _)) as Hnn.
  pose proof (Zlen_nonneg rest) as Hln.
  destruct (record_admits (rf_payload frame) (mw_now (env i)) leg f.2 Hwf) as (leg' & cap' & -> & Hk & Hbuf & Hs & Hu);
    [by apply Hnow|lia|lia|lia|].
  destruct (fleet_put_wf f id leg leg' cap' Hf Hleg Hk) as [Hf' _].
  pose proof (keeps_total leg f.2 leg' cap' Hwf Hk) as Htot. destruct Hk as (_ & _ & (_ & Hceil & _)).
  destruct (Hcalm i) as [-> ->]. simpl.
  assert (Hdf : GatewayLeg.depth_frames leg' = GatewayLeg.depth_frames leg + 1).
  { unfold GatewayLeg.depth_frames, ReplayBuffer.depth_frames. rewrite Hbuf. simpl. rewrite Zlen_app. done. }
  assert (Hdb : GatewayLeg.depth_bytes leg' = GatewayLeg.depth_bytes leg + Zlen (rf_payload frame)).
  { unfold GatewayLeg.depth_bytes, ReplayBuffer.depth_bytes. by rewrite Hbuf. }
  specialize (IH (S i) (set_transport c true) (<[id:=leg']> f.1, cap') id leg' Hf' Hid).
  destruct (flush_loop env (S i) rest _) as [out [c' f']].
  destruct IH as (leg2 & H1 & H2 & H3 & H4 & H5 & H6); simpl; try done.
  - by rewrite lookup_insert_eq.
  - intros j Hj. rewrite Hbuf. simpl. apply before_later, Hclock. lia.
  - rewrite Hbuf. simpl. lia.
  - rewrite Hbuf. simpl. lia.
  - lia.
  - exists leg2. rewrite H2, H3, Hu, Hs, <- app_assoc, Zlen_cons. split_and!; try done. lia.
Qed.

Lemma leg_frames_bytes leg (l : L) : leg_wf (LE := LE) leg l -> frame_bytes (leg_frames leg) = GatewayLeg.depth_bytes leg.
Proof.
  intros Hwf. unfold frame_bytes, leg_frames, GatewayLeg.unacked_frames, GatewayLeg.depth_bytes, ReplayBuffer.depth_bytes.
  rewrite !Zsum_fmap. simpl. rewrite (wf_depth _ (lw_buffer _ _ Hwf)). unfold ReplayBuffer.unacked_frames.
  by rewrite Zsum_fmap.
Qed.
Lemma leg_frames_length leg : Zlen (leg_frames leg) = GatewayLeg.depth_frames leg.
Proof.
  unfold leg_frames, GatewayLeg.unacked_frames, ReplayBuffer.unacked_frames. by rewrite !Zlen_fmap.
Qed.

Lemma capture_then_flush env c (f : Fleet (L := L)) id leg :
  calm env -> fleet_wf (LE := LE) f -> cl_tui_leg c = Some id -> f.1 !! id = Some leg ->
  cl_pending_replay c = [] -> cl_transport c = true ->
  let '(out, (c', f')) := _flush_pending_replay (LE := LE) env (capture (LE := LE) (c, f)) in
  exists leg', f'.1 !! id = Some leg' /\
    out = (fun p => Replayed p.2 p.1 0) <$> numbered 0 (leg_frames leg) /\
    GatewayLeg.unacked_frames leg' = numbered 0 (leg_frames leg) /\
    cl_pending_replay c' = [] /\ cl_replay_pending c' = true.
Proof.
  intros Hcalm Hf Hid Hleg Hp Ht. destruct (proj2 Hf _ _ Hleg) as [Haid Hwf].
  unfold capture. simpl. rewrite Hid, Hleg, Hp. simpl.
  destruct (reset_for_new_epoch_ok leg f.2 Hwf) as (leg1 & cap1 & Hr & Hk & Hs1 & _ & Hu1 & Hb1).
  assert (Hfs : fleet_step (LE := LE) f (id, ResetForNewEpoch) = (<[id := leg1]> f.1, cap1)).
  { unfold fleet_step. simpl. rewrite Hleg. cbn [GatewayLeg.step]. by rewrite Hr. }
  rewrite Hfs. destruct (fleet_put_wf f id leg leg1 cap1 Hf Hleg Hk) as [Hf1 _].
  pose proof (keeps_total leg f.2 leg1 cap1 Hwf Hk) as Htot. destruct Hk as (Hwf1 & _ & (_ & Hceil & _)).
  assert (Hd0 : GatewayLeg.depth_bytes leg1 = 0).
  { rewrite <- (leg_frames_bytes leg1 cap1 Hwf1). unfold leg_frames. by rewrite Hu1. }
  set (c1 := set_replay _ _ _).
  pose proof (flush_loop_calm env (leg_frames leg) Hcalm 0
    (set_replay c1 [] (cl_replay_pending c1)) (<[id := leg1]> f.1, cap1) id leg1 Hf1 Hid) as Hfl.
  destruct (flush_loop env 0 _ _) as [out [c' f']]. rewrite Hs1, Hu1 in Hfl. simpl in Hfl.
  pose proof (leg_frames_bytes leg f.2 Hwf) as Hlb. pose proof (leg_frames_length leg) as Hll.
  pose proof (lw_buffer _ _ Hwf) as Hbwf. destruct (wf_hard _ Hbwf) as [Hh1 Hh2].
  destruct (wf_hard_caps _ Hbwf) as [Hc1 Hc2]. rewrite Hc1 in Hh1. rewrite Hc2 in Hh2.
  pose proof (ld_bounds f.2 id (proj1 Hf)) as [_ Hcap].
  assert (Hf0 : GatewayLeg.depth_frames leg1 = 0).
  { rewrite <- leg_frames_length. unfold leg_frames. by rewrite Hu1. }
  assert (Hm1 : rb_max_frames (lg_buffer leg1) = rb_max_frames (lg_buffer leg)) by by rewrite Hb1.
  assert (Hm2 : rb_max_bytes (lg_buffer leg1) = rb_max_bytes (lg_buffer leg)) by by rewrite Hb1.
  rewrite Hm1, Hm2, Hf0, Hd0, Hll, Hlb in Hfl.
  unfold GatewayLeg.depth_frames, GatewayLeg.depth_bytes, ReplayBuffer.depth_frames, ReplayBuffer.depth_bytes in *.
  destruct Hfl as (leg' & H1 & H2 & H3 & H4 & H5 & H6); try done; try lia.
  - by rewrite lookup_insert_eq.
  - intros j _. by rewrite Hb1.
  - exists leg'. by split_and!.
Qed.
End oracle.

(** ** Theorems *)

(** C38: a reconnect loses nothing: on a leg that holds the whole un-acked remainder, the
    handshake's capture followed by an undisturbed flush replays exactly the un-acked
    frames, in their order, renumbered 0, 1, 2 ... for the new connection, leaves them
    un-acked again under those seqs, and opens the replay gate; no frame can hit the
    ceiling or the global cap on the way. *)
Theorem reconnect_replays_exact_remainder {L LE} `{!ByteLedger L LE, !ByteLedgerLaws L LE}
    env c (f : Fleet (L := L)) id leg :
  calm env -> fleet_wf (LE := LE) f -> cl_tui_leg c = Some id -> f.1 !! id = Some leg ->
  cl_pending_replay c = [] -> cl_transport c = true ->
  let '(out, (c', f')) := _flush_pending_replay (LE := LE) env (capture (LE := LE) (c, f)) in
  exists leg', f'.1 !! id = Some leg' /\
    out = (fun p => Replayed p.2 p.1 0) <$> numbered 0 (leg_frames leg) /\
    GatewayLeg.unacked_frames leg' = numbered 0 (leg_frames leg) /\
    cl_pending_replay c' = [] /\ cl_replay_pending c' = true.
Proof. apply capture_then_flush. Qed.

(** Whatever happens during a flush (acks, evictions, other legs, the transport going),
    every frame it was handed is accounted for once and in order: replayed, dropped with
    the ceiling warning, or back in the stash; the stash is the exact tail not reached, the
    gate stays shut exactly while there is one, and no ledger or buffer error ever escapes
    into the reconnect loop. *)
Theorem flush_accounts_for_every_frame {L LE} `{!ByteLedger L LE, !ByteLedgerLaws L LE}
    env c (f : Fleet (L := L)) id :
  fleet_wf (LE := LE) f -> cl_tui_leg c = Some id -> is_Some (f.1 !! id) -> cl_replay_pending c = false ->
  let '(out, (c', f')) := _flush_pending_replay (LE := LE) env (c, f) in
  fleet_wf (LE := LE) f' /\ (FlushRaised ∉ out) /\
  (exists handled, cl_pending_replay c = handled ++ cl_pending_replay c' /\
                   handled_payloads out = rf_payload <$> handled) /\
  (cl_replay_pending c' = true <-> cl_pending_replay c' = []) /\
  (cl_pending_replay c' <> [] -> cl_transport c' = false).
Proof.
  intros Hf Hid Hleg Hgate. unfold _flush_pending_replay.
  pose proof (flush_loop_accounts env (cl_pending_replay c) 0 (set_replay c [] (cl_replay_pending c)) f id Hf Hid Hleg eq_refl) as H.
  destruct (flush_loop env 0 _ _) as [out [c' f']]. destruct H as (H1 & H2 & H3 & H4 & H5).
  split_and!; try done. rewrite H4. simpl. rewrite Hgate. by destruct (cl_pending_replay c').
Qed.

(** The controls the client receives and the machine's state are exactly the link-state
    machine's over the events fed; the CORE_LINK_UP gauge says whether that state is [UP];
    and CORE_UNAVAILABLE_SECONDS plus the gap still open is the time spent not [UP], each
    gap counted once however many redials it took. *)
Theorem link_feed_accounts_downtime tui first feeds :
  let c := feed_all feeds (_feed CORE_READY first (CoreLink.init tui)).2 in
  (cl_sent_controls c, cl_machine c) = LinkState.run feeds.*1 /\
  cl_core_link_up c = is_up (cl_machine c) /\
  (is_Some (cl_gap_started_at c) <-> cl_machine c <> UP) /\
  (cl_unavailable_seconds c + open_gap c (default first (last feeds.*2)) ==
   downtime (_feed CORE_READY first (CoreLink.init tui)).2 first feeds)%Q.
Proof.
  destruct (feed_all_spec feeds (_feed CORE_READY first (CoreLink.init tui)).2 first) as (H1 & H2 & H3 & H4).
  - split; [by intros [? [=]]|done].
  - done.
  - split_and!; [|done|done|].
    + rewrite H3. unfold LinkState.run. simpl. by destruct (tm_run feeds.*1 _).
    + rewrite H4. simpl. unfold open_gap. simpl. lra.
Qed.

(** Every delay of a run of failed reconnects is at least the floor and at most the
    current backoff, whatever the jitter draws, and the backoff never passes the maximum. *)
Theorem reconnect_delays_are_clamped jitter attempts i d :
  reconnect_delays jitter INITIAL_BACKOFF_SECONDS attempts !! i = Some d ->
  (_MIN_RECONNECT_DELAY_SECONDS <= d)%Q /\ (d <= MAX_BACKOFF_SECONDS)%Q /\
  (i = 0%nat -> (d <= INITIAL_BACKOFF_SECONDS)%Q).
Proof.
  assert (Hgen : forall n b j, (INITIAL_BACKOFF_SECONDS <= b)%Q -> (b <= MAX_BACKOFF_SECONDS)%Q ->
    reconnect_delays jitter b n !! j = Some d ->
    (_MIN_RECONNECT_DELAY_SECONDS <= d)%Q /\ (d <= MAX_BACKOFF_SECONDS)%Q /\ (j = 0%nat -> (d <= b)%Q)).
  { induction n as [|n IH]; intros b j Hlo Hhi; [by destruct j|]. cbn [reconnect_delays].
    unfold INITIAL_BACKOFF_SECONDS, MAX_BACKOFF_SECONDS, _MIN_RECONNECT_DELAY_SECONDS, _BACKOFF_FACTOR in *.
    destruct j as [|j]; cbn [lookup list_lookup].
    - intros [= <-]. unfold py_min, py_max. cmp_cases; split_and!; intros; lra.
    - intros Hd. destruct (IH (py_min (b * 2) 5) j) as (H1 & H2 & _); [| |done|done].
      + unfold py_min. cmp_cases; lra.
      + unfold py_min. cmp_cases; lra. }
  apply Hgen; unfold INITIAL_BACKOFF_SECONDS, MAX_BACKOFF_SECONDS; lra.
Qed.

(** While only the TUI leg's frames reach the daemon's tracker, an ack it emits never
    removes a frame the daemon has not taken in: every frame [route_ack] trims off the leg
    is one whose seq the tracker observed on this connection. *)
Theorem ack_trims_only_what_was_taken_in {L LE} `{!ByteLedger L LE, !ByteLedgerLaws L LE}
    c (f : Fleet (L := L)) id leg observed last_emitted ack frame :
  fleet_wf (LE := LE) f -> cl_tui_leg c = Some id -> f.1 !! id = Some leg ->
  -1 <= last_emitted ->
  (emit_ack_tick (Tracker.run observed Tracker.init) last_emitted).1 = Some ack ->
  frame ∈ GatewayLeg.unacked_frames leg ->
  exists leg', (route_ack (LE := LE) ack (c, f)).2.1 !! id = Some leg' /\
    (frame ∈ GatewayLeg.unacked_frames leg' \/ frame.1 ∈ observed).
Proof.
  intros Hf Hid Hleg Hl He Hin. unfold emit_ack_tick in He.
  destruct (Z.leb_spec (Tracker.cumulative_ack (Tracker.run observed Tracker.init)) last_emitted) as [|Hadv]; [done|].
  simpl in He. injection He as <-. rewrite Z.max_l by lia.
  set (ack := Tracker.cumulative_ack (Tracker.run observed Tracker.init)) in *.
  destruct (tracker_run_wf observed Tracker.init tracker_init_wf) as (_ & _ & Hobs).
  unfold route_ack. rewrite Hid. destruct (Z.leb_spec 0 ack); [|lia]. unfold fleet_step. simpl. rewrite Hleg.
  destruct (proj2 Hf _ _ Hleg) as [_ Hwf]. cbn [GatewayLeg.step].
  destruct (trim_to_ack_frames ack leg f.2 Hwf) as (leg' & l' & -> & Hu).
  exists leg'. simpl. rewrite lookup_insert_eq. split; [done|].
  destruct (decide (ack < frame.1)) as [Hgt|Hle].
  - left. rewrite Hu. apply list_elem_of_filter. done.
  - right. destruct (Hobs frame.1) as [[?|?%elem_of_empty]|?]; try done; simpl in *; [|lia].
    left. split; [|unfold ack, Tracker.cumulative_ack in *; lia].
    apply list_elem_of_fmap in Hin as (fr & -> & Hfr). simpl.
    unfold ReplayBuffer.unacked_frames in Hfr. apply list_elem_of_fmap in Hfr as (en & -> & Hen). simpl.
    by apply (wf_floor _ (lw_buffer _ _ Hwf) en Hen).
Qed.

(** ** Witnesses *)
Definition sample_link : CoreLink := set_transport (CoreLink.init (Some "tui"%string)) true.
(** Two un-acked TUI frames. *)
Definition sample_legs : Fleet (L := GlobalReplayCap) :=
  fleet_run (LE := GlobalReplayCapError) [("tui"%string, RecordForSend [x01] 1); ("tui"%string, RecordForSend [x02; x03] 2)]
    sample_fleet.
Lemma sample_legs_wf : fleet_wf (LE := GlobalReplayCapError) sample_legs.
Proof. apply fleet_run_wf, fresh_fleet_wf, sample_fleet_fresh. Qed.
Definition sample_tui : GatewayLeg := default (sample_leg "tui") (sample_legs.1 !! "tui"%string).
Definition calm_env : nat -> Meanwhile := fun _ => {| mw_now := 9; mw_calls := []; mw_transport := true |}.
Lemma calm_env_calm : calm calm_env.
Proof. split; [done|]. intros i j _. simpl. lra. Qed.

Lemma reconnect_replays_exact_remainder_witness :
  let '(out, (c', f')) := _flush_pending_replay (LE := GlobalReplayCapError) calm_env
                            (capture (LE := GlobalReplayCapError) (sample_link, sample_legs)) in
  exists leg', f'.1 !! "tui"%string = Some leg' /\
    out = (fun p => Replayed p.2 p.1 0) <$> numbered 0 (leg_frames sample_tui) /\
    GatewayLeg.unacked_frames leg' = numbered 0 (leg_frames sample_tui) /\
    cl_pending_replay c' = [] /\ cl_replay_pending c' = true.
Proof.
  apply (reconnect_replays_exact_remainder (LE := GlobalReplayCapError) calm_env sample_link sample_legs "tui" sample_tui
           calm_env_calm sample_legs_wf); vm_compute; reflexivity.
Defined.

Definition stashed_link : CoreLink :=
  set_replay sample_link [{| rf_seq := 4; rf_payload := [x01] |}; {| rf_seq := 5; rf_payload := [x02] |}] false.
Definition vanishing_env : nat -> Meanwhile :=
  fun _ => {| mw_now := 9; mw_calls := [("discord"%string, EvictExpired 9)]; mw_transport := false |}.
Lemma flush_accounts_for_every_frame_witness :
  let '(out, (c', f')) := _flush_pending_replay (LE := GlobalReplayCapError) vanishing_env (stashed_link, sample_legs) in
  fleet_wf (LE := GlobalReplayCapError) f' /\ (FlushRaised ∉ out) /\
  (exists handled, cl_pending_replay stashed_link = handled ++ cl_pending_replay c' /\
                   handled_payloads out = rf_payload <$> handled) /\
  (cl_replay_pending c' = true <-> cl_pending_replay c' = []) /\
  (cl_pending_replay c' <> [] -> cl_transport c' = false).
Proof.
  apply (flush_accounts_for_every_frame (LE := GlobalReplayCapError) vanishing_env stashed_link sample_legs "tui"
           sample_legs_wf eq_refl); [by eexists; vm_compute|reflexivity].
Defined.

Lemma reconnect_delays_are_clamped_witness :
  (_MIN_RECONNECT_DELAY_SECONDS <= 1 # 20)%Q /\ (1 # 20 <= MAX_BACKOFF_SECONDS)%Q /\
  (0%nat = 0%nat -> (1 # 20 <= INITIAL_BACKOFF_SECONDS)%Q).
Proof. apply (reconnect_delays_are_clamped (fun _ => 0%Q) 3 0 (1 # 20)). vm_compute. reflexivity. Defined.

Lemma ack_trims_only_what_was_taken_in_witness :
  exists leg', (route_ack (LE := GlobalReplayCapError) 0 (sample_link, sample_legs)).2.1 !! "tui"%string = Some leg' /\
    ((0, [x01]) ∈ GatewayLeg.unacked_frames leg' \/ 0 ∈ [0]).
Proof.
  apply (ack_trims_only_what_was_taken_in (LE := GlobalReplayCapError) sample_link sample_legs "tui" sample_tui [0] (-1) 0
           (0, [x01]) sample_legs_wf eq_refl); [vm_compute; reflexivity|lia|vm_compute; reflexivity|].
  vm_compute. constructor.
Defined.

(** ** Two legs on one connection *)

(** Every leg counts its own seqs from 0, the wire header carries no leg, and the daemon
    observes every leg's seqs in its one tracker of the connection.  So an adapter's frame
    acknowledges the TUI frame of the same seq: here the daemon took in only the Discord
    leg's frame 0, and the TUI leg's frame 0 is trimmed and absent from the next replay. *)
Theorem shared_ack_space_trims_unseen_tui_frame :
  let legs := fleet_run (LE := GlobalReplayCapError)
    [("discord"%string, RecordForSend [x01] 1); ("tui"%string, RecordForSend six_bytes 2)] sample_fleet in
  let tui (f : Fleet (L := GlobalReplayCap)) := GatewayLeg.unacked_frames <$> f.1 !! "tui"%string in
  let trimmed := route_ack (LE := GlobalReplayCapError) 0 (sample_link, legs) in
  (emit_ack_tick (Tracker.run [0] Tracker.init) (-1)).1 = Some 0 /\
  tui legs = Some [(0, six_bytes)] /\ tui trimmed.2 = Some [] /\
  cl_pending_replay (capture (LE := GlobalReplayCapError) trimmed).1 = [].
Proof. vm_compute. split_and!; reflexivity. Qed.

(** A flush that loses its transport after one send stashes the later frames; the next
    capture puts them before the one already re-sent, which is older. *)
Theorem deferred_tail_overtakes_the_resent_head :
  let frames := [{| rf_seq := 0; rf_payload := [x0a] |}; {| rf_seq := 1; rf_payload := [x0b] |};
                 {| rf_seq := 2; rf_payload := [x0c] |}] in
  let lost_after_one := fun _ : nat => {| mw_now := 9; mw_calls := []; mw_transport := false |} in
  let flushed := _flush_pending_replay (LE := GlobalReplayCapError) lost_after_one
                   (set_replay sample_link frames false, sample_fleet) in
  flushed.1 = [Replayed [x0a] 0 0; Deferred [{| rf_seq := 1; rf_payload := [x0b] |}; {| rf_seq := 2; rf_payload := [x0c] |}]] /\
  rf_payload <$> cl_pending_replay (capture (LE := GlobalReplayCapError) flushed.2).1 = [[x0b]; [x0c]; [x0a]].
Proof. vm_compute. split; reflexivity. Qed.
