(* ===== verification/SlidingWindow.v ===== *)
(** * Failure windows

    [utils/sliding_window_counter.py] (a deque pruned from the front) and the pruning list
    comprehension of [supervisor/breaker.py] keep the recent part of an event history.
    With a clock that does not go back both answer as if the whole history were kept.
    Times are seconds. *)
From S2P Require Import Prelude.

(** The events of a history strictly newer than [now - window]. *)
Definition in_window (window now : Q) (events : list Q) : list Q :=
  filter (fun t => Qltb (now - window) t = true) events.

Record SlidingWindowCounter := { sw_events : list Q }.
Definition init : SlidingWindowCounter := {| sw_events := [] |}.
Definition increment (now : Q) (c : SlidingWindowCounter) : SlidingWindowCounter :=
  {| sw_events := sw_events c ++ [now] |}.
Definition count_in_window (window now : Q) (c : SlidingWindowCounter) : Z * SlidingWindowCounter :=
  let cutoff := (now - window)%Q in
  let events := dropb (fun t => Qle_bool t cutoff) (sw_events c) in
  (Zlen events, {| sw_events := events |}).
Definition exceeds (threshold : Z) (window now : Q) (c : SlidingWindowCounter) : bool * SlidingWindowCounter :=
  let '(n, c') := count_in_window window now c in (threshold <=? n, c').

Inductive op := Increment (now : Q) | Exceeds (threshold : Z) (now : Q).
Definition op_time (o : op) : Q := match o with Increment now | Exceeds _ now => now end.

(** The counter of one adapter, always asked about the same window; its answers. *)
Fixpoint run (window : Q) (ops : list op) (c : SlidingWindowCounter) : list bool * SlidingWindowCounter :=
  match ops with
  | [] => ([], c)
  | Increment now :: ops' => run window ops' (increment now c)
  | Exceeds threshold now :: ops' =>
      let '(b, c') := exceeds threshold window now c in
      let '(bs, c'') := run window ops' c' in (b :: bs, c'')
  end.
(** The answers read off the whole history. *)
Fixpoint answers (window : Q) (ops : list op) (history : list Q) : list bool :=
  match ops with
  | [] => []
  | Increment now :: ops' => answers window ops' (history ++ [now])
  | Exceeds threshold now :: ops' =>
      (threshold <=? Zlen (in_window window now history)) :: answers window ops' history
  end.

(** Non-decreasing times. *)
Definition ordered (ts : list Q) : Prop := StronglySorted Qle ts.

Lemma in_window_app window now h k : in_window window now (h ++ k) = in_window window now h ++ in_window window now k.
Proof. unfold in_window. by rewrite filter_app. Qed.

(** Pruning at an earlier time changes nothing a later question sees. *)
Lemma in_window_later window now now' h :
  (now <= now')%Q -> in_window window now' (in_window window now h) = in_window window now' h.
Proof.
  intros Hle. unfold in_window. induction h as [|t h IH]; [done|]. rewrite !filter_cons.
  destruct (Qltb_spec (now - window) t) as [H1|H1].
  - rewrite decide_True by done. rewrite filter_cons, IH. done.
  - rewrite decide_False by done. rewrite IH. destruct (Qltb_spec (now' - window) t); [lra|].
    by rewrite decide_False.
Qed.
Lemma in_window_new window now : (0 < window)%Q -> in_window window now [now] = [now].
Proof.
  intros Hw. unfold in_window. rewrite filter_cons. destruct (Qltb_spec (now - window) now); [|lra].
  by rewrite decide_True.
Qed.

(** On a sorted deque popping from the front is the filter. *)
Lemma prune_in_window window now events :
  StronglySorted Qle events -> dropb (fun t => Qle_bool t (now - window)%Q) events = in_window window now events.
Proof.
  intros Hs. destruct (dropb_filter Qle (fun t => Qle_bool t (now - window)%Q) events Hs) as [-> _].
  - intros x y Hxy Hy. apply Qle_bool_iff in Hy. apply Qle_bool_iff. lra.
  - unfold in_window. apply filter_ext_in. intros t _. unfold Qltb. by destruct (Qle_bool t (now - window)).
Qed.

Lemma sorted_filter (P : Q -> Prop) `{!forall x, Decision (P x)} l : StronglySorted Qle l -> StronglySorted Qle (filter P l).
Proof.
  intros Hs. induction Hs as [|x l Hs IH Hx]; [constructor|]. rewrite filter_cons. case_decide; [|done].
  constructor; [done|]. apply Forall_forall. intros y Hy%list_elem_of_filter. rewrite Forall_forall in Hx. apply Hx, Hy.
Qed.

Lemma sorted_snoc l t : StronglySorted Qle l -> Forall (fun x => (x <= t)%Q) l -> StronglySorted Qle (l ++ [t]).
Proof.
  intros Hs Hall. induction Hs as [|x l Hs IH Hx]; [by repeat constructor|]. apply Forall_cons in Hall as [? ?].
  simpl. constructor; [by apply IH|]. apply Forall_app. split; [done|]. by repeat constructor.
Qed.

(** The counter's events against the history: same window now and later. *)
Definition tracks (window now : Q) (c : SlidingWindowCounter) (history : list Q) : Prop :=
  StronglySorted Qle (sw_events c) /\ Forall (fun t => (t <= now)%Q) (sw_events c) /\
  forall now', (now <= now')%Q -> in_window window now' (sw_events c) = in_window window now' history.

Lemma run_tracks window ops : forall c history now,
  tracks window now c history -> ordered (now :: (op_time <$> ops)) ->
  (run window ops c).1 = answers window ops history.
Proof.
  induction ops as [|o ops IH]; intros c history now (Hs & Hle & Heq) Hord; [done|].
  apply StronglySorted_inv in Hord as [Hord Hnow]. rewrite fmap_cons in Hord, Hnow.
  apply Forall_cons in Hnow as [Hnow _].
  assert (Hle' : Forall (fun t => (t <= op_time o)%Q) (sw_events c)) by (eapply Forall_impl; [exact Hle|]; simpl; intros; lra).
  destruct o as [t|threshold t]; simpl in *.
  - apply (IH _ _ t); [|done]. split_and!; simpl.
    + by apply sorted_snoc.
    + apply Forall_app. split; [done|]. constructor; [lra|constructor].
    + intros now' Hn. rewrite !in_window_app, Heq by lra. done.
  - rewrite prune_in_window by done.
    assert (Htr : tracks window t {| sw_events := in_window window t (sw_events c) |} history).
    { split_and!; simpl; [by apply sorted_filter| |].
      - apply Forall_forall. intros x Hx%list_elem_of_filter. rewrite Forall_forall in Hle'. apply Hle', Hx.
      - intros now' Hn. rewrite in_window_later by done. apply Heq. lra. }
    specialize (IH _ _ t Htr Hord). destruct (run window ops _) as [bs c'']. simpl in *.
    rewrite IH, Heq by lra. done.
Qed.

(** With a clock that does not go back, a counter asked about one window answers as if
    it kept every event: [exceeds] is true exactly when at least the threshold of all the
    events recorded so far are strictly newer than the window, however it pruned. *)
Theorem sliding_window_counts_exactly window ops :
  ordered (op_time <$> ops) -> (run window ops init).1 = answers window ops [].
Proof.
  intros Hord. destruct ops as [|o ops]; [done|]. apply (run_tracks window (o :: ops) init [] (op_time o)).
  - split_and!; [constructor|constructor|done].
  - rewrite fmap_cons in *. constructor; [done|]. apply StronglySorted_inv in Hord as [_ Hall].
    constructor; [lra|done].
Qed.

Lemma sliding_window_counts_exactly_witness :
  (run 10 [Increment 1; Increment 4; Exceeds 2 10; Exceeds 2 11; Increment 12; Exceeds 2 13] init).1 = [true; false; true] /\
  (run 10 [Increment 1; Increment 4; Exceeds 2 10; Exceeds 2 11; Increment 12; Exceeds 2 13] init).1 =
    answers 10 [Increment 1; Increment 4; Exceeds 2 10; Exceeds 2 11; Increment 12; Exceeds 2 13] [].
Proof.
  split; [vm_compute; reflexivity|]. apply sliding_window_counts_exactly. simpl.
  repeat (constructor; [|repeat constructor; discriminate]). constructor.
Defined.
