(* ===== verification/AdapterSupervisor.v ===== *)
(** * [gateway/adapter_supervisor.py]: one supervised adapter, and a fleet of them

    [supervise_one] as a process that runs from one [await] to the next: the state says
    what it awaits, an event brings the answer (with the clock reading, the random draw and
    the epoch the code reads on the way), and [request_stop] and [make_cred_available] may
    land at any point.  [supervise_all] runs a fleet of them under the boot semaphore and
    the task group.  Gauges and log lines are left out; the emitter's sink returns. *)
From S2P Require Import Prelude SlidingWindow TableMachine AdapterLifecycle.
From Stdlib Require Import Qround.

Definition _MIN_BACKOFF_SECONDS : Q := 1 # 20.
Definition _MAX_BACKOFF_SECONDS : Q := 30 # 1.
Definition _INITIAL_BACKOFF_SECONDS : Q := 1 # 4.
Definition _BACKOFF_FACTOR : Q := 2 # 1.
Definition _BREAKER_FAILURE_THRESHOLD : Z := 3.
Definition _BREAKER_WINDOW_SECONDS : Q := 300 # 1.
Definition _DEFAULT_MAX_CONCURRENT_BOOTS : nat := 8.
Definition _AWAITING_CORE_CEILING : nat := 12.

(** The status frames with the payload the code gives them. *)
Inductive frame :=
| Up (epoch : string) (host_restart_seq : Z)
| Down (reason : string)
| Crashed (error_class detail : string) (host_restart_seq : Z)
| BreakerOpen (retry_after_seconds : Z).

(** What leaves [supervise_one]. *)
Inductive failure :=
| GatewayAdapterSpawnError | GatewayAdapterCredentialError (reason : string)
| LifecycleStateError | OtherException | CancelledError.

Record AdapterRun := {
  machine : AdapterLifecycleState; stop_event : bool; cred_event : bool; awaiting_core_event : bool; breaker_open_event : bool;
  up_incarnation : Z; is_up : bool; recent_crashes : list Q; backoff_base : Q; restart_count : Z;
  pending_crash : string * string; spawn_epoch : option string;
  (** what it put on the wire, slept, spawned and reaped, and every crash it counted *)
  frames : list frame; delays : list Q; live_children : Z; crash_log : list Q }.

Definition new_run : AdapterRun := {|
  machine := AdapterLifecycle.init; stop_event := false; cred_event := false; awaiting_core_event := false;
  breaker_open_event := false; up_incarnation := 0; is_up := false; recent_crashes := [];
  backoff_base := _INITIAL_BACKOFF_SECONDS; restart_count := 0; pending_crash := ("AdapterChildExited", ""); spawn_epoch := None;
  frames := []; delays := []; live_children := 0; crash_log := [] |}%string.

Definition set_machine (m : AdapterLifecycleState) (r : AdapterRun) : AdapterRun :=
  {| machine := m; stop_event := stop_event r; cred_event := cred_event r; awaiting_core_event := awaiting_core_event r;
     breaker_open_event := breaker_open_event r; up_incarnation := up_incarnation r; is_up := is_up r; recent_crashes := recent_crashes r;
     backoff_base := backoff_base r; restart_count := restart_count r; pending_crash := pending_crash r; spawn_epoch := spawn_epoch r;
     frames := frames r; delays := delays r; live_children := live_children r; crash_log := crash_log r |}.
(** The two events, [awaiting_core], [breaker_open], [is_up]. *)
Definition set_flags (stop cred awaiting broken up : bool) (r : AdapterRun) : AdapterRun :=
  {| machine := machine r; stop_event := stop; cred_event := cred; awaiting_core_event := awaiting;
     breaker_open_event := broken; up_incarnation := up_incarnation r; is_up := up; recent_crashes := recent_crashes r;
     backoff_base := backoff_base r; restart_count := restart_count r; pending_crash := pending_crash r; spawn_epoch := spawn_epoch r;
     frames := frames r; delays := delays r; live_children := live_children r; crash_log := crash_log r |}.
Definition set_awaiting (b : bool) (r : AdapterRun) : AdapterRun := set_flags (stop_event r) (cred_event r) b (breaker_open_event r) (is_up r) r.
Definition set_up (b : bool) (r : AdapterRun) : AdapterRun := set_flags (stop_event r) (cred_event r) (awaiting_core_event r) (breaker_open_event r) b r.
(** The crash window, the backoff ramp and the restart counter. *)
Definition set_crashes (recent log : list Q) (base : Q) (restarts : Z) (r : AdapterRun) : AdapterRun :=
  {| machine := machine r; stop_event := stop_event r; cred_event := cred_event r; awaiting_core_event := awaiting_core_event r;
     breaker_open_event := breaker_open_event r; up_incarnation := up_incarnation r; is_up := is_up r; recent_crashes := recent;
     backoff_base := base; restart_count := restarts; pending_crash := pending_crash r; spawn_epoch := spawn_epoch r;
     frames := frames r; delays := delays r; live_children := live_children r; crash_log := log |}.
(** The outside: frames sent, delays slept, live children; and the rest of a spawn. *)
Definition set_world (fs : list frame) (ds : list Q) (live : Z) (r : AdapterRun) : AdapterRun :=
  {| machine := machine r; stop_event := stop_event r; cred_event := cred_event r; awaiting_core_event := awaiting_core_event r;
     breaker_open_event := breaker_open_event r; up_incarnation := up_incarnation r; is_up := is_up r; recent_crashes := recent_crashes r;
     backoff_base := backoff_base r; restart_count := restart_count r; pending_crash := pending_crash r; spawn_epoch := spawn_epoch r;
     frames := fs; delays := ds; live_children := live; crash_log := crash_log r |}.
Definition set_spawn (epoch : option string) (incarnation : Z) (crash : string * string) (r : AdapterRun) : AdapterRun :=
  {| machine := machine r; stop_event := stop_event r; cred_event := cred_event r; awaiting_core_event := awaiting_core_event r;
     breaker_open_event := breaker_open_event r; up_incarnation := incarnation; is_up := is_up r; recent_crashes := recent_crashes r;
     backoff_base := backoff_base r; restart_count := restart_count r; pending_crash := crash; spawn_epoch := epoch;
     frames := frames r; delays := delays r; live_children := live_children r; crash_log := crash_log r |}.

Abbreviation Sup A := (M AdapterRun failure A).
Definition emit (f : frame) : Sup unit := modify (fun r => set_world (frames r ++ [f]) (delays r) (live_children r) r).

(** [_apply]: feed the machine, put the frame of its control on the wire. *)
Definition _apply (event : AdapterLifecycleEvent) (error_class detail : string) (retry_after_seconds : Z) : Sup unit := fun r =>
  match AdapterLifecycle.feed event (machine r) with
  | (Err _, m) => (Err LifecycleStateError, set_machine m r)
  | (Ok control, m) =>
      let r := set_machine m r in
      match control with
      | None => (Ok tt, r)
      | Some EMIT_UP => match spawn_epoch r with
                        | None => (Err LifecycleStateError, r)
                        | Some e => emit (Up e (restart_count r)) r
                        end
      | Some EMIT_DOWN => emit (Down "operator") r
      | Some EMIT_CRASHED =>
          emit (Crashed (if decide (error_class = ""%string) then "AdapterChildExited" else error_class) detail (restart_count r)) r
      | Some EMIT_BREAKER_OPEN => emit (BreakerOpen retry_after_seconds) r
      end
  end.
Definition feed_plain (event : AdapterLifecycleEvent) : Sup unit := _apply event "" "" 0.

(** [rng.uniform(0.0, base)] is [draw] times the base, [draw] from the unit interval. *)
Definition _next_backoff (draw : Q) : Sup Q := fun r =>
  let raw := (draw * backoff_base r)%Q in
  let clamped := py_max _MIN_BACKOFF_SECONDS (py_min raw _MAX_BACKOFF_SECONDS) in
  (Ok clamped, set_crashes (recent_crashes r) (crash_log r) (py_min (backoff_base r * _BACKOFF_FACTOR) _MAX_BACKOFF_SECONDS) (restart_count r) r).
Definition slept_for (d : Q) : Sup unit := modify (fun r => set_world (frames r) (delays r ++ [d]) (live_children r) r).

(** What the process awaits, or how it ended. *)
Inductive pc :=
| Top_probe                        (* is_available, at the top of the loop *)
| Spawning                         (* spawn_and_handshake *)
| Running                          (* the race of exit and stop *)
| Backoff (of_spawn : bool)        (* the sleep of _handle_crash, called from a spawn or not *)
| Core_wait (attempt : nat)        (* _await_core_backoff_or_stop *)
| Core_probe (attempt : nat)       (* is_available, after such a wait *)
| Terminal
| Raising (e : failure).

Definition _stop : Sup unit := modify (set_up false) ;;; feed_plain STOP_REQUESTED.
Definition _trip_breaker : Sup unit := fun r =>
  let retry_after := Qfloor (py_min (backoff_base r) _MAX_BACKOFF_SECONDS) in
  (_apply BREAKER_TRIPPED "" "" retry_after ;;;
   modify (fun r => set_flags (stop_event r) (cred_event r) (awaiting_core_event r) true (is_up r) r)) (set_machine CRASHED r).

(** The top of the loop of [supervise_one]. *)
Definition loop_top : Sup pc := fun r => if stop_event r then (_stop ;;; ret Terminal) r else (Ok Top_probe, r).

Definition core_wait (attempt : nat) (draw : Q) : Sup pc := delay <-- _next_backoff draw; slept_for delay ;;; ret (Core_wait attempt).
Definition _enter_awaiting_core : Sup unit :=
  modify (set_machine RESTARTING) ;;; feed_plain CRED_UNAVAILABLE ;;; modify (set_awaiting true).
Definition park (draw : Q) : Sup pc := _enter_awaiting_core ;;; core_wait 0 draw.

(** [_spawn_or_terminal] up to the await; a missing epoch is a leg that is down. *)
Definition spawn (epoch : option string) (draw : Q) : Sup pc :=
  match epoch with
  | None => park draw
  | Some e =>
      modify (fun r => set_machine SPAWNING (set_spawn (Some e) (up_incarnation r) (pending_crash r) r)) ;;;
      feed_plain SPAWN_STARTED ;;; ret Spawning
  end.
Definition _enter_up : Sup unit :=
  feed_plain HANDSHAKE_OK ;;;
  modify (fun r => set_world (frames r) (delays r) (live_children r + 1)
                     (set_awaiting false (set_up true
                       (set_crashes (recent_crashes r) (crash_log r) _INITIAL_BACKOFF_SECONDS (restart_count r)
                         (set_spawn (spawn_epoch r) (up_incarnation r + 1) (pending_crash r) r))))).
Definition _reap_child : Sup unit := modify (fun r => set_world (frames r) (delays r) (live_children r - 1) r).

Definition expire_crashes (now : Q) (l : list Q) : list Q := dropb (fun t => Qle_bool t (now - _BREAKER_WINDOW_SECONDS)) l.
Definition _handle_crash (of_spawn : bool) (now draw : Q) : Sup pc := fun r =>
  ((if decide (machine r = UP)
    then modify (set_up false) ;;; _apply CHILD_EXITED (pending_crash r).1 (pending_crash r).2 0 else ret tt) ;;;
   modify (fun r => set_crashes (expire_crashes now (recent_crashes r) ++ [now]) (crash_log r ++ [now]) (backoff_base r) (restart_count r) r) ;;;
   fun r => if _BREAKER_FAILURE_THRESHOLD <=? Zlen (recent_crashes r) then (_trip_breaker ;;; ret Terminal) r
            else (delay <-- _next_backoff draw;
                  modify (fun r => set_crashes (recent_crashes r) (crash_log r) (backoff_base r) (restart_count r + 1) r) ;;;
                  slept_for delay ;;; ret (Backoff of_spawn)) r) r.

(** How [spawn_and_handshake] and the race ended. *)
Inductive spawned := Child | LegDown | SpawnError (cls detail : string) | CredentialError (reason detail : string) | SpawnRaised.
Definition spawn_failed (e : failure) (cls detail : string) (now draw : Q) : Sup pc := fun r =>
  let first_attempt := bool_decide (restart_count r = 0 /\ recent_crashes r = []) in
  (_apply HANDSHAKE_FAILED cls detail 0 ;;; if first_attempt then raise e else _handle_crash true now draw) r.

Inductive event :=
| RequestStop | MakeCred
| Available (b : bool) (epoch : option string) (draw : Q)
| SpawnDone (o : spawned) (now draw : Q)
| Ended (stop_seen : bool) (exit : string * string) (now draw : Q)
| ExitRaised
| Slept (epoch : option string) (draw : Q)
| Woken
| Probed (b : bool) (draw : Q)
| Cancel.

Definition recovered : Sup pc :=
  modify (fun r => set_flags (stop_event r) false false (breaker_open_event r) (is_up r) r) ;;; feed_plain CRED_AVAILABLE ;;; loop_top.

(** From the answer to what the process awaits, to its next await. *)
Definition resume (p : pc) (ev : event) : option (Sup pc) :=
  match p, ev with
  | Top_probe, Available b epoch draw => Some (if b then spawn epoch draw else park draw)
  | Spawning, SpawnDone o now draw => Some
      match o with
      | Child => _enter_up ;;; ret Running
      | LegDown => modify (set_machine RESTARTING) ;;; park draw
      | SpawnError cls detail => spawn_failed GatewayAdapterSpawnError cls detail now draw
      | CredentialError reason detail =>
          spawn_failed (GatewayAdapterCredentialError reason) "GatewayAdapterCredentialError" detail now draw
      | SpawnRaised => raise OtherException
      end
  | Running, Ended stop_seen exit now draw => Some (fun r =>
      if stop_seen && stop_event r then (_reap_child ;;; _stop ;;; ret Terminal) r
      else (modify (fun r => set_spawn (spawn_epoch r) (up_incarnation r) exit r) ;;; _reap_child ;;; _handle_crash false now draw) r)
  | Running, ExitRaised => Some (raise OtherException)
  | Running, Cancel => Some (_reap_child ;;; raise CancelledError)
  | Backoff of_spawn, Slept epoch draw => Some
      (modify (set_machine CRASHED) ;;; feed_plain BACKOFF_ELAPSED ;;;
       if of_spawn then (fun r => if stop_event r then (_stop ;;; ret Terminal) r else spawn epoch draw r) else loop_top)
  | Core_wait attempt, Woken => Some (fun r =>
      if stop_event r then (modify (set_awaiting false) ;;; _stop ;;; ret Terminal) r
      else if cred_event r then recovered r
      else (Ok (Core_probe attempt), r))
  | Core_probe attempt, Probed b draw => Some
      (if b then recovered
       else if (S attempt <? _AWAITING_CORE_CEILING)%nat then core_wait (S attempt) draw
       else modify (set_awaiting false) ;;; _trip_breaker ;;; ret Terminal)
  | (Top_probe | Spawning | Backoff _ | Core_wait _ | Core_probe _), Cancel => Some (raise CancelledError)
  | _, _ => None
  end.

Record supervisor := { run : AdapterRun; at_ : pc }.
Definition step (ev : event) (s : supervisor) : supervisor :=
  match ev with
  | RequestStop => {| run := set_flags true (cred_event (run s)) (awaiting_core_event (run s)) (breaker_open_event (run s)) (is_up (run s)) (run s); at_ := at_ s |}
  | MakeCred => {| run := set_flags (stop_event (run s)) true (awaiting_core_event (run s)) (breaker_open_event (run s)) (is_up (run s)) (run s); at_ := at_ s |}
  | _ => match resume (at_ s) ev with
         | None => s
         | Some m => match m (run s) with
                     | (Ok p, r) => {| run := r; at_ := p |}
                     | (Err e, r) => {| run := r; at_ := Raising e |}
                     end
         end
  end.
(** [supervise_one], called while [stop] is or is not already requested. *)
Definition supervise_one (r : AdapterRun) : supervisor :=
  match loop_top r with (Ok p, r) => {| run := r; at_ := p |} | (Err e, r) => {| run := r; at_ := Raising e |} end.
Definition steps (evs : list event) (s : supervisor) : supervisor := foldl (fun s ev => step ev s) s evs.
Definition live (s : supervisor) : bool := match at_ s with Terminal | Raising _ => false | _ => true end.

(** ** [supervise_all]

    A task waits for the semaphore, runs [supervise_one], or was cancelled while it waited;
    the semaphore is held until [supervise_one] ends, and wakes its waiters first in, first
    out.  A task that raises makes the group cancel all the others, after the waiter its
    release woke has started.  The adapter ids are distinct. *)
Inductive task := Waiting (r : AdapterRun) | Abandoned | Started (s : supervisor).
Definition holds (t : task) : bool := match t with Started s => live s | _ => false end.
Definition waits (t : task) : bool := match t with Waiting _ => true | _ => false end.
Definition failed (t : task) : bool := match t with Started s => match at_ s with Raising CancelledError => false | Raising _ => true | _ => false end | _ => false end.
Record fleet := { max_concurrent_boots : nat; tasks : list task }.
Definition holders (l : list task) : nat := length (filter (fun t => holds t = true) l).
Fixpoint wake_next (free : nat) (l : list task) : list task :=
  match l with
  | [] => []
  | Waiting r :: l' =>
      match free with
      | O => l
      | S free' => let s := supervise_one r in Started s :: wake_next (if live s then free' else free) l'
      end
  | t :: l' => t :: wake_next free l'
  end.
Definition abort (t : task) : task :=
  match t with
  | Waiting _ => Abandoned
  | Started s => if live s then Started (step Cancel s) else t
  | Abandoned => t
  end.
Definition settle (f : fleet) : fleet :=
  {| max_concurrent_boots := max_concurrent_boots f;
     tasks := let l := wake_next (max_concurrent_boots f - holders (tasks f)) (tasks f) in
              if existsb failed l then abort <$> l else l |}.
Definition supervise_all (cap n : nat) : fleet := settle {| max_concurrent_boots := cap; tasks := replicate n (Waiting new_run) |}.
(** The outside acts on the run of an adapter id whether or not its task has started. *)
Definition task_step (ev : event) (t : task) : task :=
  match t with
  | Started s => Started (step ev s)
  | Waiting r => match ev with
                 | RequestStop | MakeCred => Waiting (run (step ev {| run := r; at_ := Top_probe |}))
                 | _ => t
                 end
  | Abandoned => t
  end.
Definition fleet_step (x : nat * event) (f : fleet) : fleet :=
  settle {| max_concurrent_boots := max_concurrent_boots f; tasks := alter (task_step x.2) x.1 (tasks f) |}.
Definition fleet_run (xs : list (nat * event)) (f : fleet) : fleet := foldl (fun f x => fleet_step x f) f xs.

(** ** What the core hears of one adapter

    [incarnations n l]: [l] is the frames of [n] crashed incarnations, numbered from 0, each
    an [up] with the epoch of its spawn or nothing, and then its [crashed]. *)
Inductive incarnations : Z -> list frame -> Prop :=
| inc_none : incarnations 0 []
| inc_refused n l c d : incarnations n l -> incarnations (n + 1) (l ++ [Crashed c d n])
| inc_lived n l e c d : incarnations n l -> incarnations (n + 1) (l ++ [Up e n; Crashed c d n]).

(** What is on the wire, by what the process awaits or how it ended. *)
Inductive report : AdapterRun -> pc -> Prop :=
| rep_idle r p : incarnations (restart_count r) (frames r) -> machine r = AdapterLifecycle.SPAWNING \/ machine r = RESTARTING ->
    p = Top_probe -> report r p
| rep_core r n : incarnations (restart_count r) (frames r) -> machine r = AWAITING_CORE -> report r (Core_wait n)
| rep_probe r n : incarnations (restart_count r) (frames r) -> machine r = AWAITING_CORE -> report r (Core_probe n)
| rep_spawning r : incarnations (restart_count r) (frames r) -> machine r = HANDSHAKING -> spawn_epoch r <> None -> report r Spawning
| rep_running r l e : incarnations (restart_count r) l -> machine r = UP -> spawn_epoch r = Some e ->
    frames r = l ++ [Up e (restart_count r)] -> report r Running
| rep_backoff r b : incarnations (restart_count r) (frames r) -> machine r = CRASHED -> report r (Backoff b)
| rep_down r n l up : incarnations n l -> up = [] \/ (exists e, up = [Up e n]) -> frames r = l ++ up ++ [Down "operator"] -> report r Terminal
| rep_broken r n l retry : incarnations n l -> frames r = l ++ [BreakerOpen retry] -> 0 <= retry <= 30 -> report r Terminal
| rep_refused r e c d : e <> LifecycleStateError -> frames r = [Crashed c d 0] -> report r (Raising e)
| rep_raised r e n l up : (e = OtherException \/ e = CancelledError) -> incarnations n l -> up = [] \/ (exists e, up = [Up e n]) ->
    frames r = l ++ up -> report r (Raising e).

(** The backoff ramp stays within its bounds. *)
Definition ramp (r : AdapterRun) : Prop :=
  (0 <= backoff_base r <= 30)%Q /\ Forall (fun d => (1 # 20 <= d <= 30)%Q) (delays r).
Definition good (s : supervisor) : Prop := report (run s) (at_ s) /\ ramp (run s).

Ltac unfold_sup := unfold _stop, feed_plain, _enter_awaiting_core, _enter_up, _reap_child, recovered, loop_top, slept_for, _apply, emit, bind, ret, raise, modify in *.
Lemma feed_row e m m' c : dict_get (m, e) _TRANSITIONS = Some (m', c) -> AdapterLifecycle.feed e m = (Ok c, m').
Proof. intros H. by apply tm_feed_defined. Qed.
Lemma clamp_bounds raw : (1 # 20 <= py_max _MIN_BACKOFF_SECONDS (py_min raw _MAX_BACKOFF_SECONDS) <= 30)%Q.
Proof.
  unfold py_max, py_min, _MIN_BACKOFF_SECONDS, _MAX_BACKOFF_SECONDS.
  destruct (Qltb_spec 30 raw); [|destruct (Qltb_spec (1 # 20) raw)]; try (destruct (Qltb_spec (1#20) 30)); try lra.
Qed.
Lemma ramp_bounds b : (0 <= b <= 30)%Q -> (0 <= py_min (b * _BACKOFF_FACTOR) _MAX_BACKOFF_SECONDS <= 30)%Q.
Proof. intros ?. unfold py_min, _BACKOFF_FACTOR, _MAX_BACKOFF_SECONDS. destruct (Qltb_spec 30 (b * 2)); lra. Qed.
Lemma retry_bounds b : (0 <= b <= 30)%Q -> 0 <= Qfloor (py_min b _MAX_BACKOFF_SECONDS) <= 30.
Proof.
  intros Hb. assert (0 <= py_min b _MAX_BACKOFF_SECONDS <= 30)%Q by (unfold py_min, _MAX_BACKOFF_SECONDS; destruct (Qltb_spec 30 b); lra).
  split; [change 0 with (Qfloor 0)|change 30 with (Qfloor 30)]; apply Qfloor_resp_le; lra.
Qed.

Lemma apply_row r e m' c cls detail retry : dict_get (machine r, e) _TRANSITIONS = Some (m', c) ->
  _apply e cls detail retry r =
    let r := set_machine m' r in
    match c with
    | None => (Ok tt, r)
    | Some EMIT_UP => match spawn_epoch r with None => (Err LifecycleStateError, r) | Some e => emit (Up e (restart_count r)) r end
    | Some EMIT_DOWN => emit (Down "operator") r
    | Some EMIT_CRASHED =>
        emit (Crashed (if decide (cls = ""%string) then "AdapterChildExited" else cls) detail (restart_count r)) r
    | Some EMIT_BREAKER_OPEN => emit (BreakerOpen retry) r
    end.
Proof. intros H. unfold _apply. by rewrite (feed_row _ _ _ _ H). Qed.

Definition ends (x : result failure pc * AdapterRun) : Prop :=
  match x with (Ok p, r) => good {| run := r; at_ := p |} | (Err e, r) => good {| run := r; at_ := Raising e |} end.
Definition told (r : AdapterRun) : Prop := incarnations (restart_count r) (frames r) /\ ramp r.

Lemma stop_ends r n l up : machine r ∈ _STOPPABLE_STATES -> incarnations n l -> up = [] \/ (exists e, up = [Up e n]) ->
  frames r = l ++ up -> ramp r -> ends ((_stop ;;; ret Terminal) r).
Proof.
  intros Hm Hl Hup Hf Hr. unfold _stop, feed_plain, bind, modify.
  assert (Hrow : dict_get (machine (set_up false r), STOP_REQUESTED) _TRANSITIONS = Some (DOWN, Some EMIT_DOWN)).
  { change (machine (set_up false r)) with (machine r). unfold _STOPPABLE_STATES in Hm.
    repeat (apply elem_of_cons in Hm as [->|Hm]; [reflexivity|]). by apply elem_of_nil in Hm. }
  rewrite (apply_row _ _ _ _ _ _ _ Hrow). cbn. split; [|exact Hr]. apply (rep_down _ n l up); [done..|]. cbn. by rewrite Hf, <- app_assoc.
Qed.
Lemma loop_top_ends r : told r -> machine r = AdapterLifecycle.SPAWNING \/ machine r = RESTARTING -> ends (loop_top r).
Proof.
  intros [Hf Hr] Hm. unfold loop_top. destruct (stop_event r).
  - apply (stop_ends r (restart_count r) (frames r) []); [by destruct Hm as [-> | ->]; repeat constructor|done|by left|by rewrite app_nil_r|done].
  - split; [|done]. by apply rep_idle.
Qed.
Lemma next_backoff_ends r draw (k : Q -> Sup pc) :
  ramp r -> (forall d r', ramp r' -> (1 # 20 <= d <= 30)%Q -> frames r' = frames r -> restart_count r' = restart_count r ->
             machine r' = machine r -> delays r' = delays r -> ends (k d r')) -> ends (bind (_next_backoff draw) k r).
Proof.
  intros [Hb Hd] Hk. unfold bind, _next_backoff. apply Hk; try done; [split; [by apply ramp_bounds|done]|apply clamp_bounds].
Qed.
Lemma core_wait_ends n draw r : told r -> machine r = AWAITING_CORE -> ends (core_wait n draw r).
Proof.
  intros [Hf Hr] Hm. apply next_backoff_ends; [done|]. intros d r' [Hb Hd] Hd' E1 E2 E3 E4. unfold slept_for, bind, modify, ret.
  split; [apply rep_core; cbn; congruence|]. split; [done|]. cbn. apply Forall_app. split; [done|]. by constructor.
Qed.
Lemma park_ends draw r : told r -> ends (park draw r).
Proof.
  intros Ht. unfold park, _enter_awaiting_core, feed_plain, bind, modify. rewrite (apply_row _ _ AWAITING_CORE None) by reflexivity.
  by apply (core_wait_ends 0 draw (set_awaiting true (set_machine AWAITING_CORE (set_machine RESTARTING r)))).
Qed.
Lemma spawn_ends epoch draw r : told r -> ends (spawn epoch draw r).
Proof.
  intros Ht. destruct epoch as [e|]; [|by apply park_ends]. destruct Ht. unfold spawn, feed_plain, bind, modify.
  rewrite (apply_row _ _ HANDSHAKING None) by reflexivity. split; [|done]. by apply rep_spawning.
Qed.
Lemma trip_ends r n : incarnations n (frames r) -> ramp r -> ends ((_trip_breaker ;;; ret Terminal) r).
Proof.
  intros Hf Hr. unfold _trip_breaker, bind, modify. rewrite (apply_row _ _ BREAKER_OPEN (Some EMIT_BREAKER_OPEN)) by reflexivity.
  cbn. split; [|exact Hr]. eapply (rep_broken _ n (frames r)); [done|done|]. apply retry_bounds, Hr.
Qed.
Lemma recovered_ends r : told r -> machine r = AWAITING_CORE -> ends (recovered r).
Proof.
  intros Ht Hm. unfold recovered, feed_plain, bind, modify. rewrite (apply_row _ _ RESTARTING None) by (cbn; by rewrite Hm).
  apply loop_top_ends; [exact Ht|by right].
Qed.
(** The crash arm, after a process exit or after a failed spawn whose frame is out. *)
Lemma handle_crash_ends b now draw r :
  (machine r = UP /\ exists l e, incarnations (restart_count r) l /\ frames r = l ++ [Up e (restart_count r)]) \/
  (machine r = CRASHED /\ incarnations (restart_count r + 1) (frames r)) ->
  ramp r -> ends (_handle_crash b now draw r).
Proof.
  intros Hc Hr. unfold _handle_crash.
  assert (H : exists r1, (if decide (machine r = UP) then modify (set_up false) ;;; _apply CHILD_EXITED (pending_crash r).1 (pending_crash r).2 0
                          else ret tt) r = (Ok tt, r1) /\
    restart_count r1 = restart_count r /\ incarnations (restart_count r + 1) (frames r1) /\ machine r1 = CRASHED /\ ramp r1).
  { destruct Hc as [[Hm (l&e&Hl&Hf)]|[Hm Hf]].
    - rewrite decide_True by done. unfold bind, modify. rewrite (apply_row _ _ CRASHED (Some EMIT_CRASHED)) by (cbn; by rewrite Hm).
      eexists. split; [reflexivity|]. cbn. split_and!; try done. rewrite Hf, <- app_assoc. by apply inc_lived.
    - rewrite decide_False by by rewrite Hm. exists r. done. }
  destruct H as (r1&Hr1&Hrc&Hf&Hm&[Hb Hd]). unfold bind at 1. rewrite Hr1. unfold bind at 1, modify at 1.
  cmp_case; [by apply (trip_ends _ (restart_count r + 1))|]. apply next_backoff_ends; [done|].
  intros d r' [Hb' Hd'] Hdb E1 E2 E3 E4. unfold slept_for, bind, modify, ret. split; [apply rep_backoff; cbn in *; congruence|].
  split; [done|]. cbn. apply Forall_app. split; [done|]. by constructor.
Qed.

Lemma incarnations_nonneg n l : incarnations n l -> 0 <= n.
Proof. induction 1; lia. Qed.
Lemma incarnations_zero l : incarnations 0 l -> l = [].
Proof. intros H. inversion H as [|n l' c d Hi|n l' e c d Hi]; [done|..]; apply incarnations_nonneg in Hi; lia. Qed.
Lemma spawn_failed_ends e cls detail now draw r : e <> LifecycleStateError -> machine r = HANDSHAKING -> told r -> ends (spawn_failed e cls detail now draw r).
Proof.
  intros He Hm [Hf Hr]. unfold spawn_failed, bind. rewrite (apply_row _ _ CRASHED (Some EMIT_CRASHED)) by by rewrite Hm. cbn [emit modify].
  case_bool_decide as Hfirst.
  - destruct Hfirst as [H0 _]. split; [|exact Hr]. rewrite H0 in Hf. apply incarnations_zero in Hf.
    eapply rep_refused; [done|]. cbn. rewrite Hf, H0. done.
  - apply handle_crash_ends; [|exact Hr]. right. split; [done|]. cbn. by apply inc_refused.
Qed.

Lemma raised_ends r n l up e : incarnations n l -> up = [] \/ (exists e, up = [Up e n]) -> frames r = l ++ up -> ramp r ->
  e = OtherException \/ e = CancelledError -> ends (raise e r).
Proof. intros. split; [|done]. by eapply rep_raised. Qed.
Lemma running_ends r l e m ev : incarnations (restart_count r) l -> machine r = UP -> frames r = l ++ [Up e (restart_count r)] -> ramp r ->
  resume Running ev = Some m -> ends (m r).
Proof.
  intros Hl Hm Hf Hr. assert (Hup : [Up e (restart_count r)] = [] \/ exists e', [Up e (restart_count r)] = [Up e' (restart_count r)]) by eauto.
  destruct ev as [| | | |stop_seen exit now draw| | | | |]; intros [= <-].
  - destruct (stop_seen && stop_event r).
    + apply (stop_ends (set_world (frames r) (delays r) (live_children r - 1) r) (restart_count r) l [Up e (restart_count r)]); try done.
      cbn. rewrite Hm. by repeat constructor.
    + unfold _reap_child, bind, modify. apply handle_crash_ends; [|exact Hr]. left. cbn. eauto.
  - eapply raised_ends; eauto.
  - unfold _reap_child, bind, modify. eapply (raised_ends _ _ l); eauto.
Qed.
Lemma resume_ends r p ev m : report r p -> ramp r -> resume p ev = Some m -> ends (m r).
Proof.
  intros Hrep Hr Hm.
  assert (Hraise : forall e, incarnations (restart_count r) (frames r) -> e = OtherException \/ e = CancelledError -> ends (raise e r)).
  { intros e Hf. eapply (raised_ends _ _ (frames r) []); [done|by left|by rewrite app_nil_r|done]. }
  destruct Hrep as [r p Hf Hmc ->|r n Hf Hmc|r n Hf Hmc|r Hf Hmc Hep|r l e Hl Hmc Hep Hf|r b Hf Hmc| | | |];
    destruct ev; try discriminate Hm; try (by eapply running_ends); injection Hm as <-; try (by apply Hraise; auto).
  - destruct b; [by apply spawn_ends|by apply park_ends].
  - destruct (stop_event r).
    + apply (stop_ends (set_awaiting false r) (restart_count r) (frames r) []); [cbn; rewrite Hmc; by repeat constructor|done|by left|cbn; by rewrite app_nil_r|done].
    + destruct (cred_event r); [by apply recovered_ends|]. split; [by apply rep_probe|done].
  - destruct b; [by apply recovered_ends|]. destruct (_ <? _)%nat; [by apply core_wait_ends|].
    by apply (trip_ends (set_awaiting false r) (restart_count r)).
  - destruct o; try (by apply spawn_failed_ends); [| |by apply Hraise; auto].
    + unfold _enter_up, feed_plain, bind at 1, bind at 1. rewrite (apply_row _ _ UP (Some EMIT_UP)) by by rewrite Hmc. cbn.
      destruct (spawn_epoch r) as [e|] eqn:He; [|done]. cbn. split; [by eapply (rep_running _ (frames r) e)|].
      destruct Hr. split; [|done]. cbn. unfold _INITIAL_BACKOFF_SECONDS. lra.
    + by apply park_ends.
  - unfold feed_plain, bind, modify. rewrite (apply_row _ _ RESTARTING None) by reflexivity.
    set (r' := set_machine RESTARTING (set_machine CRASHED r)). assert (Ht : told r') by done.
    destruct b; [|apply loop_top_ends; [done|by right]].
    change (ends (if stop_event r' then (_stop ;;; ret Terminal) r' else spawn epoch draw r')).
    destruct (stop_event r'); [|by apply spawn_ends].
    apply (stop_ends r' (restart_count r) (frames r) []); [by repeat constructor|done|by left|by rewrite app_nil_r|done].
Qed.
Lemma step_good ev s : good s -> good (step ev s).
Proof.
  intros [Hrep Hr]. unfold step.
  assert (Hflags : forall stop cred, good {| run := set_flags stop cred (awaiting_core_event (run s)) (breaker_open_event (run s)) (is_up (run s)) (run s); at_ := at_ s |}).
  { intros stop cred. split; [|exact Hr]. destruct Hrep; by econstructor. }
  destruct ev; [apply Hflags|apply Hflags|..]; destruct (resume _ _) as [m|] eqn:Hm; try done;
    pose proof (resume_ends _ _ _ _ Hrep Hr Hm) as H; unfold ends in H; by destruct (m (run s)) as [[p|e] r].
Qed.
Lemma supervise_good r : told r -> machine r = AdapterLifecycle.SPAWNING -> good (supervise_one r).
Proof. intros Ht Hm. pose proof (loop_top_ends r Ht (or_introl Hm)) as H. unfold supervise_one, ends in *. by destruct (loop_top r) as [[p|e] r']. Qed.
Lemma steps_good evs s : good s -> good (steps evs s).
Proof. revert s. induction evs as [|ev evs IH]; intros s Hs; [done|]. by apply (IH (step ev s)), step_good. Qed.
Lemma new_run_told : told new_run.
Proof. split; [constructor|]. split; [cbn; unfold _INITIAL_BACKOFF_SECONDS; lra|constructor]. Qed.

(** The supervisor never feeds the machine an event it does not have, though it sets its
    state by hand; and whatever the children, the credential leg, the clock and the operator
    do, the core hears of an adapter exactly this: crashed incarnations numbered 0, 1, 2, ...,
    each an [up] carrying that number and the epoch of its own spawn, or nothing, and then
    its [crashed]; then the current [up] while it runs; a single [down] last if it was
    stopped, or a single [breaker_open] last, with a retry of 0 to 30 seconds, if it broke;
    and a refused first spawn is one [crashed] numbered 0.  Every delay is between 0.05 and
    30 seconds. *)
Theorem supervisor_reports_incarnations evs :
  let s := steps evs (supervise_one new_run) in
  report (run s) (at_ s) /\ at_ s <> Raising LifecycleStateError /\ Forall (fun d => (1 # 20 <= d <= 30)%Q) (delays (run s)).
Proof.
  intros s. assert (Hs : good s) by (apply steps_good, supervise_good; [apply new_run_told|done]).
  destruct Hs as [Hrep [_ Hd]]. split_and!; [done| |done].
  intros Hat. rewrite Hat in Hrep. inversion Hrep as [| | | | | | | |r e c d He Hf|r e n l up He Hl Hup Hf]; subst; try done. by destruct He.
Qed.

(** ** The control flow, the children and the crash window *)
Definition logs (r : AdapterRun) : list Q * list Q := (recent_crashes r, crash_log r).
(** Touches neither the stop request, nor the children, nor the crash window. *)
Definition quiet {A} (m : Sup A) : Prop := forall r,
  stop_event (m r).2 = stop_event r /\ live_children (m r).2 = live_children r /\ logs (m r).2 = logs r.
Definition reaches (b : bool) (P : pc -> Prop) (m : Sup pc) : Prop := forall r, stop_event r = b ->
  stop_event (m r).2 = b /\ live_children (m r).2 = live_children r /\ logs (m r).2 = logs r /\
  match (m r).1 with Ok p => P p | Err _ => True end.

Lemma quiet_bind {A B} (m : Sup A) (k : A -> Sup B) : quiet m -> (forall a, quiet (k a)) -> quiet (bind m k).
Proof.
  intros Hm Hk r. destruct (Hm r) as (H1&H2&H3). unfold bind. destruct (m r) as [[a|e] r1]; [|done]. cbn in *.
  destruct (Hk a r1) as (H4&H5&H6). split_and!; congruence.
Qed.
Lemma quiet_local (f : AdapterRun -> AdapterRun) : (forall r, stop_event (f r) = stop_event r) -> (forall r, live_children (f r) = live_children r) ->
  (forall r, logs (f r) = logs r) -> quiet (modify f).
Proof. intros ??? r. by cbn. Qed.
Lemma quiet_apply e cls detail retry : quiet (_apply e cls detail retry).
Proof.
  intros r. unfold _apply, emit, modify. destruct (AdapterLifecycle.feed e (machine r)) as [[[[]|]|] m]; try done. cbn. by destruct (spawn_epoch r).
Qed.
Lemma quiet_backoff draw : quiet (_next_backoff draw).
Proof. by intros r. Qed.
Lemma reaches_bind {A} b P (m : Sup A) (k : A -> Sup pc) : quiet m -> (forall a, reaches b P (k a)) -> reaches b P (bind m k).
Proof.
  intros Hm Hk r Hr. destruct (Hm r) as (H1&H2&H3). unfold bind. destruct (m r) as [[a|e] r1]; cbn in *; [|split_and!; first [congruence|done]].
  destruct (Hk a r1) as (H4&H5&H6&H7); [congruence|]. split_and!; [congruence..|done].
Qed.
Lemma reaches_ret b P p : P p -> reaches b P (ret p).
Proof. by intros Hp r Hr. Qed.
Lemma reaches_weaken b (P P' : pc -> Prop) m : (forall p, P p -> P' p) -> reaches b P m -> reaches b P' m.
Proof. intros HP Hm r Hr. destruct (Hm r Hr) as (?&?&?&?). split_and!; try done. destruct (m r).1; auto. Qed.
Lemma quiet_ret {A} (a : A) : quiet (ret a).
Proof. by intros r. Qed.
Lemma quiet_raise {A} e : quiet (raise (A := A) e).
Proof. by intros r. Qed.
Create HintDb flow.
#[local] Hint Resolve quiet_apply quiet_backoff quiet_bind quiet_local quiet_ret quiet_raise reaches_ret reaches_bind : flow.
Ltac flow := repeat (first [apply reaches_bind; [|intros ?] | apply quiet_bind; [|intros ?]]); auto with flow.

Definition after_stop (b : bool) : pc := if b then Terminal else Top_probe.
Lemma stop_reaches b : reaches b (eq Terminal) (_stop ;;; ret Terminal).
Proof. unfold _stop, feed_plain. flow. Qed.
Lemma top_reaches b : reaches b (eq (after_stop b)) loop_top.
Proof.
  intros r Hr. unfold loop_top. rewrite Hr. destruct b; [by apply (stop_reaches true)|]. done.
Qed.
Lemma wait_reaches b n draw : reaches b (eq (Core_wait n)) (core_wait n draw).
Proof. unfold core_wait, slept_for. flow. Qed.
Lemma park_reaches b draw : reaches b (eq (Core_wait 0)) (park draw).
Proof. unfold park, _enter_awaiting_core, feed_plain. apply reaches_bind; [flow|]. intros _. apply wait_reaches. Qed.
Lemma spawn_reaches b epoch draw : reaches b (fun p => Spawning = p \/ Core_wait 0 = p) (spawn epoch draw).
Proof.
  destruct epoch as [e|]; [unfold spawn, feed_plain; flow|]. eapply reaches_weaken; [|apply park_reaches]. auto.
Qed.
Lemma trip_quiet : quiet _trip_breaker.
Proof.
  intros r. unfold _trip_breaker. set (retry := Qfloor _).
  assert (H : quiet (_apply BREAKER_TRIPPED "" "" retry ;;;
    modify (fun r => set_flags (stop_event r) (cred_event r) (awaiting_core_event r) true (is_up r) r))) by flow.
  exact (H (set_machine CRASHED r)).
Qed.
Lemma recovered_reaches b : reaches b (eq (after_stop b)) recovered.
Proof. unfold recovered, feed_plain. apply reaches_bind; [flow|]. intros _. apply reaches_bind; [flow|]. intros _. apply top_reaches. Qed.

(** Where each await leads, by whether a stop has been requested. *)
Definition follows (b : bool) (p q : pc) : Prop :=
  match p with
  | Top_probe => Spawning = q \/ Core_wait 0 = q
  | Spawning => Running = q \/ Core_wait 0 = q \/ Backoff true = q \/ Terminal = q
  | Running => Backoff false = q \/ Terminal = q
  | Backoff of_spawn => if b then Terminal = q else if of_spawn then Spawning = q \/ Core_wait 0 = q else Top_probe = q
  | Core_wait n => if b then Terminal = q else Top_probe = q \/ Core_probe n = q
  | Core_probe n => after_stop b = q \/ Core_wait (S n) = q /\ (S n < _AWAITING_CORE_CEILING)%nat \/ Terminal = q
  | Terminal | Raising _ => False
  end.
Definition children (p : pc) : Z := match p with Running => 1 | _ => 0 end.

(** The crash arm: the window is the old one, expired, and this crash; it breaks at three. *)
Definition counted (b : bool) (now : Q) (r : AdapterRun) (out : result failure pc * AdapterRun) : Prop :=
  stop_event out.2 = stop_event r /\ live_children out.2 = live_children r /\
  match out.1 with
  | Ok q => logs out.2 = (expire_crashes now (recent_crashes r) ++ [now], crash_log r ++ [now]) /\
            (if 3 <=? Zlen (expire_crashes now (recent_crashes r) ++ [now]) then Terminal = q else Backoff b = q)
  | Err e => e = LifecycleStateError
  end.
Lemma apply_raises e cls detail retry r r' f : _apply e cls detail retry r = (Err f, r') -> f = LifecycleStateError.
Proof.
  unfold _apply, emit, modify. destruct (AdapterLifecycle.feed e (machine r)) as [[[[]|]|] m]; try destruct (spawn_epoch _); congruence.
Qed.
Lemma trip_raises r r' f : _trip_breaker r = (Err f, r') -> f = LifecycleStateError.
Proof. unfold _trip_breaker, bind. destruct (_apply _ _ _ _ _) as [[[]|e] r1] eqn:H; intros [= <- <-]. by apply apply_raises in H. Qed.
Lemma handle_crash_flow b now draw r : counted b now r (_handle_crash b now draw r).
Proof.
  unfold _handle_crash. match goal with |- counted _ _ _ ((?m ;;; _) r) => set (m0 := m) end.
  assert (Hq : quiet m0) by (unfold m0; case_decide; flow). destruct (Hq r) as (H1&H2&H3). unfold bind at 1. destruct (m0 r) as [[[]|e] r1] eqn:Hm0.
  2: { split_and!; [done..|]. cbn. revert Hm0. unfold m0. case_decide; [|done]. unfold bind, modify. apply apply_raises. }
  cbn in H1, H2, H3. unfold bind at 1, modify at 1. unfold logs in H3. injection H3 as H3 H4. cbn [recent_crashes set_crashes crash_log]. rewrite H3, H4.
  unfold _BREAKER_FAILURE_THRESHOLD. set (r2 := set_crashes _ _ _ _ r1). set (w := expire_crashes _ _ ++ _) in *.
  assert (Hr2 : stop_event r2 = stop_event r /\ live_children r2 = live_children r /\ logs r2 = (w, crash_log r ++ [now])) by done.
  clearbody r2. destruct Hr2 as (E1&E2&E3). destruct (3 <=? Zlen w) eqn:Hw.
  - destruct (trip_quiet r2) as (E4&E5&E6). unfold bind. destruct (_trip_breaker r2) as [[[]|e] r3] eqn:Ht; cbn in *; try apply trip_raises in Ht; unfold counted; cbn; fold w; rewrite ?Hw;
      (split_and!; first [congruence|done]).
  - unfold counted. cbn. fold w. rewrite Hw. unfold logs in *. cbn. split_and!; first [congruence|done].
Qed.

Definition crash_time (ev : event) : option Q :=
  match ev with SpawnDone _ now _ | Ended _ _ now _ => Some now | _ => None end.
Definition flows (p : pc) (ev : event) (r : AdapterRun) (out : result failure pc * AdapterRun) : Prop :=
  stop_event out.2 = stop_event r /\
  match out.1 with
  | Ok q => follows (stop_event r) p q /\ live_children out.2 - children q = live_children r - children p /\
      (logs out.2 = logs r \/
       exists now, crash_time ev = Some now /\ logs out.2 = (expire_crashes now (recent_crashes r) ++ [now], crash_log r ++ [now]) /\
         (Terminal = q <-> 3 <= Zlen (expire_crashes now (recent_crashes r) ++ [now])))
  | Err e => (ev <> ExitRaised -> live_children out.2 = live_children r - children p) /\ (logs out.2 = logs r \/ e = LifecycleStateError)
  end.
Lemma reaches_flows b P m p ev r : reaches b P m -> stop_event r = b -> p <> Running -> (forall q, P q -> follows b p q /\ q <> Running) ->
  flows p ev r (m r).
Proof.
  intros Hm Hr Hp HP. destruct (Hm r Hr) as (H1&H2&H3&H4). unfold flows. rewrite H1, Hr. split; [done|].
  assert (children p = 0) as -> by by destruct p. destruct (m r).1 as [q|e]; [|split; [intros _; lia|auto]].
  apply HP in H4 as [Hf Hq]. assert (children q = 0) as -> by by destruct q. split_and!; [done|lia|by left].
Qed.
Lemma crash_flows b now draw p ev r : crash_time ev = Some now -> p <> Running -> follows (stop_event r) p Terminal -> follows (stop_event r) p (Backoff b) ->
  flows p ev r (_handle_crash b now draw r).
Proof.
  intros Ht Hp H1 H2. destruct (handle_crash_flow b now draw r) as (E1&E2&E3). split; [done|]. assert (children p = 0) as -> by by destruct p.
  destruct (_handle_crash b now draw r).1 as [q|e]; [|split; [intros _; lia|auto]]. destruct E3 as [E3 E4].
  destruct (Z.leb_spec 3 (Zlen (expire_crashes now (recent_crashes r) ++ [now]))) in E4; subst q; cbn; (split_and!; [done|lia|right; exists now; split_and!; [done|done|]]);
    split; intros; try done; lia.
Qed.

Lemma flows_same p ev r r' out : stop_event r' = stop_event r -> live_children r' = live_children r -> logs r' = logs r ->
  flows p ev r' out -> flows p ev r out.
Proof.
  unfold flows. intros E1 E2 E3. assert (recent_crashes r' = recent_crashes r /\ crash_log r' = crash_log r) as [E4 E5] by (unfold logs in E3; by simplify_eq).
  rewrite E1, E2, E3, E4, E5. done.
Qed.
Lemma flows_after {A} (m : Sup A) (k : A -> Sup pc) p ev r : quiet m -> p <> Running ->
  (forall a r', stop_event r' = stop_event r -> live_children r' = live_children r -> logs r' = logs r -> flows p ev r (k a r')) -> flows p ev r (bind m k r).
Proof.
  intros Hm Hp Hk. destruct (Hm r) as (E1&E2&E3). unfold bind. destruct (m r) as [[a|e] r1]; cbn in *; [by apply Hk|].
  split; [done|]. cbn. split; [|by left]. intros _. rewrite E2. destruct p; cbn; try lia. done.
Qed.
Lemma raise_flows p ev r e : p <> Running -> flows p ev r (raise e r).
Proof. intros Hp. split; [done|]. cbn. split; [|by left]. intros _. destruct p; cbn; try lia. done. Qed.
Lemma spawn_failed_flows e cls detail now draw o r : flows Spawning (SpawnDone o now draw) r (spawn_failed e cls detail now draw r).
Proof.
  unfold spawn_failed. apply flows_after; [auto with flow|done|]. intros _ r' E1 E2 E3. apply (flows_same _ _ _ r'); [done..|].
  case_bool_decide; [by apply raise_flows|]. apply crash_flows; cbn; auto.
Qed.
Lemma enter_up_flows now draw r : flows Spawning (SpawnDone Child now draw) r ((_enter_up ;;; ret Running) r).
Proof.
  unfold _enter_up, feed_plain. destruct (quiet_apply HANDSHAKE_OK "" "" 0 r) as (E1&E2&E3). unfold bind.
  destruct (_apply _ _ _ _ r) as [[[]|e] r1]; cbn in *; [|split; [done|]; cbn; split; [intros _; lia|by left]].
  split; [done|]. unfold logs in *. cbn. split_and!; [auto|lia|by left].
Qed.
Lemma ended_flows stop_seen exit now draw r m : resume Running (Ended stop_seen exit now draw) = Some m -> flows Running (Ended stop_seen exit now draw) r (m r).
Proof.
  intros [= <-]. unfold flows. destruct (stop_seen && stop_event r).
  - set (r' := set_world (frames r) (delays r) (live_children r - 1) r). change ((_reap_child ;;; _stop ;;; ret Terminal) r) with ((_stop ;;; ret Terminal) r').
    destruct (stop_reaches (stop_event r) r' eq_refl) as (H1&H2&H3&H4). split; [done|]. change (live_children r') with (live_children r - 1) in H2.
    destruct ((_stop ;;; ret Terminal) r').1 as [q|e]; [subst q|]; cbn in *; [split_and!; [auto|lia|by left]|split; [intros _; lia|by left]].
  - set (r' := set_world (frames r) (delays r) (live_children r - 1) (set_spawn (spawn_epoch r) (up_incarnation r) exit r)).
    change ((_ ;;; _) r) with (_handle_crash false now draw r'). destruct (handle_crash_flow false now draw r') as (E1&E2&E3). split; [done|].
    change (live_children r') with (live_children r - 1) in E2.
    destruct (_handle_crash false now draw r').1 as [q|e]; [|split; [cbn; lia|auto]]. destruct E3 as [E3 E4]. change (recent_crashes r') with (recent_crashes r) in *.
    destruct (Z.leb_spec 3 (Zlen (expire_crashes now (recent_crashes r) ++ [now]))) in E4; subst q; cbn;
      (split_and!; [auto|lia|right; exists now; split_and!; [done|done|]]); split; intros; try done; lia.
Qed.
Lemma resume_flows p ev r m : resume p ev = Some m -> flows p ev r (m r).
Proof.
  destruct p; destruct ev; try discriminate; try (by apply ended_flows); intros [= <-]; try by apply raise_flows.
  - apply (reaches_flows (stop_event r) (fun q => Spawning = q \/ Core_wait 0 = q)); [|done..|cbn; naive_solver].
    destruct b; [apply spawn_reaches|]. eapply reaches_weaken; [|apply park_reaches]. auto.
  - destruct o; try apply spawn_failed_flows; [apply enter_up_flows| |by apply raise_flows].
    apply (reaches_flows (stop_event r) (eq (Core_wait 0))); [|done..|by intros q <-; cbn; auto].
    apply reaches_bind; [flow|]. intros _. apply park_reaches.
  - split; [done|]. cbn. split; [done|by left].
  - split; [done|]. cbn. split; [lia|by left].
  - apply flows_after; [flow|done|]. intros _ r1 E1 E2 E3. apply (flows_same _ _ _ r1); [done..|]. clear E1 E2 E3.
    apply flows_after; [unfold feed_plain; flow|done|]. intros _ r2 E1 E2 E3. apply (flows_same _ _ _ r2); [done..|]. clear E1 E2 E3.
    destruct of_spawn; [destruct (stop_event r2) eqn:Hr|].
    + apply (reaches_flows true (eq Terminal)); [apply stop_reaches|done..|by intros q <-].
    + apply (reaches_flows false (fun q => Spawning = q \/ Core_wait 0 = q)); [apply spawn_reaches|done..|cbn; naive_solver].
    + apply (reaches_flows (stop_event r2) (eq (after_stop (stop_event r2)))); [apply top_reaches|done..|]. intros q <-. cbn. by destruct (stop_event r2).
  - destruct (stop_event r) eqn:Hr; [|destruct (cred_event r)].
    + apply (reaches_flows true (eq Terminal)); [|done..|by intros q <-]. apply reaches_bind; [flow|]. intros _. apply stop_reaches.
    + apply (reaches_flows false (eq (after_stop false))); [apply recovered_reaches|done..|]. intros q <-. cbn. auto.
    + split; [done|]. cbn. rewrite Hr. split_and!; [auto|lia|by left].
  - destruct b; [|destruct (Nat.ltb_spec (S attempt) _AWAITING_CORE_CEILING)].
    + apply (reaches_flows (stop_event r) (eq (after_stop (stop_event r)))); [apply recovered_reaches|done..|]. intros q <-. cbn. destruct (stop_event r); auto.
    + apply (reaches_flows (stop_event r) (eq (Core_wait (S attempt)))); [apply wait_reaches|done..|]. intros q <-. cbn. auto.
    + apply (reaches_flows (stop_event r) (eq Terminal)); [|done..|intros q <-; cbn; auto].
      apply reaches_bind; [flow|]. intros _. apply reaches_bind; [apply trip_quiet|]. auto with flow.
Qed.

(** ** What ends it, what it leaves, what breaks it *)
Definition answer (ev : event) (s : supervisor) : nat := match resume (at_ s) ev with Some _ => 1 | None => 0 end.
Fixpoint answers (evs : list event) (s : supervisor) : nat :=
  match evs with
  | [] => 0
  | ev :: evs' => (answer ev s + answers evs' (step ev s))%nat
  end.
Definition awaits_left (p : pc) : nat :=
  match p with Terminal | Raising _ => 0 | Backoff _ | Core_wait _ => 1 | Core_probe _ | Running => 2 | Spawning => 3 | Top_probe => 4 end.

(** A step that is not the answer to the await leaves everything but the two flags. *)
Lemma step_other ev s : resume (at_ s) ev = None ->
  at_ (step ev s) = at_ s /\ live_children (run (step ev s)) = live_children (run s) /\ logs (run (step ev s)) = logs (run s) /\
  (stop_event (run s) = true -> stop_event (run (step ev s)) = true).
Proof. intros H. unfold step. destruct ev; try done; by rewrite H. Qed.
Lemma process_answer ev s m : resume (at_ s) ev = Some m ->
  step ev s = match m (run s) with (Ok p, r) => {| run := r; at_ := p |} | (Err e, r) => {| run := r; at_ := Raising e |} end.
Proof. intros H. unfold step. destruct ev; try (by rewrite H); by destruct (at_ s). Qed.
Lemma stop_step ev s : stop_event (run s) = true ->
  stop_event (run (step ev s)) = true /\ (awaits_left (at_ (step ev s)) + answer ev s <= awaits_left (at_ s))%nat.
Proof.
  intros Hs. unfold answer. destruct (resume (at_ s) ev) as [m|] eqn:Hm.
  - rewrite (process_answer _ _ _ Hm). destruct (resume_flows _ _ (run s) _ Hm) as [H1 H2]. rewrite Hs in *.
    assert (1 <= awaits_left (at_ s))%nat by (destruct (at_ s); cbn; (lia || by destruct ev)).
    destruct (m (run s)) as [[q|e] r]; cbn in *; (split; [done|]); [|lia].
    destruct H2 as [Hf _]. destruct (at_ s); cbn in Hf; naive_solver (cbn; lia).
  - destruct (step_other _ _ Hm) as (E&_&_&E'). rewrite E. split; [auto|lia].
Qed.
(** A stop request takes effect: once it is made, at most four of the things the
    supervisor awaits (the probe, the spawn, the race with the child, a sleep) need to come
    back, however they come back, for it to end. *)
Theorem stop_ends_within_four_awaits evs s : stop_event (run s) = true -> (4 <= answers evs s)%nat -> live (steps evs s) = false.
Proof.
  intros Hs Ha. assert (H : (awaits_left (at_ (steps evs s)) + answers evs s <= awaits_left (at_ s))%nat).
  { clear Ha. revert s Hs. induction evs as [|ev evs IH]; intros s Hs; [cbn; lia|]. destruct (stop_step ev s Hs) as [Hs' Hle].
    specialize (IH _ Hs'). change (steps (ev :: evs) s) with (steps evs (step ev s)). cbn [answers]. lia. }
  assert (awaits_left (at_ s) <= 4)%nat by (destruct (at_ s); cbn; lia). unfold live. destruct (at_ (steps evs s)); cbn in H; (done || lia).
Qed.
Lemma stop_ends_within_four_awaits_witness :
  let s := step RequestStop (supervise_one new_run) in
  let evs := [Available true (Some "e1"%string) 0; MakeCred; SpawnDone Child 5 0; Ended false ("Killed", "")%string 6 0; Woken; Slept None 0] in
  live (steps (take 5 evs) s) = true /\ live (steps evs s) = false.
Proof. split; [vm_compute; reflexivity|]. apply stop_ends_within_four_awaits; [reflexivity|vm_compute; lia]. Defined.

Lemma children_step ev s : live_children (run s) = children (at_ s) -> ev <> ExitRaised -> live_children (run (step ev s)) = children (at_ (step ev s)).
Proof.
  intros Hs Hev. destruct (resume (at_ s) ev) as [m|] eqn:Hm.
  - rewrite (process_answer _ _ _ Hm). destruct (resume_flows _ _ (run s) _ Hm) as [_ H2].
    destruct (m (run s)) as [[q|e] r]; cbn in *; [lia|]. rewrite (proj1 H2) by done. lia.
  - destruct (step_other _ _ Hm) as (->&->&_). done.
Qed.
Lemma raising_steps evs s e : at_ s = Raising e -> at_ (steps evs s) = Raising e /\ live_children (run (steps evs s)) = live_children (run s).
Proof.
  revert s. induction evs as [|ev evs IH]; intros s Hs; [done|]. assert (Hm : resume (at_ s) ev = None) by by rewrite Hs.
  destruct (step_other _ _ Hm) as (E1&E2&_). destruct (IH (step ev s)) as [H1 H2]; [congruence|]. change (steps (ev :: evs) s) with (steps evs (step ev s)). by rewrite H2, E2.
Qed.
(** No child is left behind: whatever happens, cancellation included, exactly one child
    lives while the supervisor watches it and none otherwise, with one exception: if
    waiting for the child's exit itself raises, the error leaves and the child stays. *)
Theorem children_are_reaped evs :
  let s := steps evs (supervise_one new_run) in
  live_children (run s) = children (at_ s) \/
  ExitRaised ∈ evs /\ at_ s = Raising OtherException /\ live_children (run s) = 1.
Proof.
  cbn zeta. assert (Hs : live_children (run (supervise_one new_run)) = children (at_ (supervise_one new_run))) by done.
  revert Hs. generalize (supervise_one new_run). induction evs as [|ev evs IH]; intros s Hs; [by left|].
  change (steps (ev :: evs) s) with (steps evs (step ev s)).
  assert (Hex : (ev = ExitRaised /\ (at_ s = Running \/ at_ s <> Running)) \/ ev <> ExitRaised).
  { destruct ev; auto. left. split; [done|]. destruct (at_ s); auto. }
  destruct Hex as [[-> [Hat|Hat]]|Hev].
  - right. assert (H : step ExitRaised s = {| run := run s; at_ := Raising OtherException |}) by (unfold step; by rewrite Hat).
    rewrite H. destruct (raising_steps evs {| run := run s; at_ := Raising OtherException |} OtherException eq_refl) as [H1 H2].
    split_and!; [constructor|done|]. rewrite H2. cbn. by rewrite Hs, Hat.
  - destruct (IH (step ExitRaised s)) as [H|(H1&H2&H3)]; [|by left|right; split_and!; [by constructor|done..]].
    assert (Hm : resume (at_ s) ExitRaised = None) by by destruct (at_ s). destruct (step_other _ _ Hm) as (->&->&_). done.
  - destruct (IH (step ev s)) as [H|(H1&H2&H3)]; [by apply children_step|by left|right; split_and!; [by constructor|done..]].
Qed.

(** The kept crashes, expired by any later reading, are the full log's within the window. *)
Abbreviation recent_of now log := (in_window _BREAKER_WINDOW_SECONDS now log).
Definition windowed (r : AdapterRun) : Prop := forall now, Forall (fun t => (t <= now)%Q) (crash_log r) ->
  expire_crashes now (recent_crashes r) = recent_of now (crash_log r).
Lemma recent_of_snoc now log : recent_of now (log ++ [now]) = recent_of now log ++ [now].
Proof. by rewrite in_window_app, in_window_new. Qed.
Lemma sublist_sorted (l k : list Q) : l `sublist_of` k -> StronglySorted Qle k -> StronglySorted Qle l.
Proof.
  induction 1 as [|x l k Hlk IH|x l k Hlk IH]; intros Hk; [constructor|inversion Hk; subst..]; [|auto].
  constructor; [auto|]. rewrite Forall_forall in *. intros y Hy. eauto using elem_of_sublist.
Qed.
Lemma sorted_last l now : StronglySorted Qle (l ++ [now]) -> StronglySorted Qle l /\ Forall (fun t => (t <= now)%Q) l.
Proof.
  intros (Hn&Hl&_)%StronglySorted_app. split; [done|]. apply Forall_forall. intros x Hx. apply Hn; [done|constructor].
Qed.
Lemma windowed_crash now r r' : windowed r -> StronglySorted Qle (crash_log r ++ [now]) ->
  logs r' = (expire_crashes now (recent_crashes r) ++ [now], crash_log r ++ [now]) -> windowed r'.
Proof.
  intros Hw Hs [= E1 E2] now' Hn. apply sorted_last in Hs as Hs'. destruct Hs' as [_ Hall].
  rewrite Hw, <- recent_of_snoc, <- E2 in E1 by done. rewrite E1. unfold expire_crashes. rewrite prune_in_window.
  - apply in_window_later. rewrite E2 in Hn. apply Forall_app in Hn as [_ Hn]. inversion Hn; subst. assumption.
  - apply sorted_filter. by rewrite E2.
Qed.
Definition crash_times (evs : list event) : list Q := omap crash_time evs.

(** The log keeps a subsequence of the readings, and its window, while the process runs. *)
Definition log_tracks (evs : list event) (s : supervisor) : Prop :=
  (exists e, at_ s = Raising e) \/ crash_log (run s) `sublist_of` crash_times evs /\ windowed (run s).
Lemma step_log_tracks evs ev s : StronglySorted Qle (crash_times (evs ++ [ev])) -> log_tracks evs s ->
  log_tracks (evs ++ [ev]) (step ev s).
Proof.
  intros Hs Ht. unfold crash_times in *. rewrite omap_app in *. cbn in Hs. destruct (resume (at_ s) ev) as [m|] eqn:Hm.
  - destruct Ht as [[e He]|[Hsub Hw]]; [by rewrite He in Hm|]. rewrite (process_answer _ _ _ Hm).
    destruct (resume_flows _ _ (run s) _ Hm) as [_ H2]. destruct (m (run s)) as [[q|e] r]; cbn in *; [right; cbn|left; eauto].
    unfold crash_times. rewrite omap_app. cbn. destruct H2 as (_&_&[Hl|(now&Hnow&Hl&_)]).
    + unfold logs in Hl. simplify_eq. split; [rewrite H0; by apply sublist_inserts_r|]. intros now. rewrite H, H0. apply Hw.
    + rewrite Hnow in *. cbn in *. pose proof Hl as Hl'. unfold logs in Hl'. injection Hl' as _ Hlog. rewrite Hlog.
      split; [by apply sublist_app|]. eapply windowed_crash; [done| |done]. apply sorted_last in Hs as [Hs Hn]. apply sorted_snoc;
      [by apply (sublist_sorted _ _ Hsub)|]. rewrite Forall_forall in *. intros x Hx. apply Hn. by eapply elem_of_sublist.
  - destruct (step_other _ _ Hm) as (E1&_&E3&_). unfold log_tracks. rewrite E1. destruct Ht as [Ht|[Hsub Hw]]; [by left|right].
    unfold logs in E3. injection E3 as E3 E4. rewrite E4. unfold crash_times. rewrite omap_app. split; [by apply sublist_inserts_r|]. intros now. rewrite E3, E4. apply Hw.
Qed.
Lemma new_run_good evs : good (steps evs (supervise_one new_run)).
Proof. apply steps_good, supervise_good; [apply new_run_told|done]. Qed.
Lemma steps_track evs : StronglySorted Qle (crash_times evs) -> log_tracks evs (steps evs (supervise_one new_run)).
Proof.
  induction evs as [|ev evs IH] using rev_ind; intros Hs; [right; by split; [constructor|]|].
  unfold steps. rewrite foldl_app. apply step_log_tracks; [done|]. apply IH. unfold crash_times in *. rewrite omap_app in Hs.
  by apply StronglySorted_app_1_l in Hs.
Qed.

(** With a clock that does not go back, the breaker counts exactly: each crash, of a child
    or of a spawn, is recorded once at the clock reading of its own handling, and ends the
    adapter if and only if it is at least the third of all the crashes so far that are less
    than 300 seconds old, though the supervisor keeps only those it has not expired. *)
Theorem breaker_counts_the_full_history evs ev :
  StronglySorted Qle (crash_times (evs ++ [ev])) ->
  let s := steps evs (supervise_one new_run) in let s' := step ev s in
  crash_log (run s') = crash_log (run s) \/
  exists now, crash_time ev = Some now /\ crash_log (run s') = crash_log (run s) ++ [now] /\
    (at_ s' = Terminal <-> 3 <= Zlen (recent_of now (crash_log (run s')))).
Proof.
  intros Hs s s'. assert (Hs0 : StronglySorted Qle (crash_times evs)).
  { unfold crash_times in *. rewrite omap_app in Hs. by apply StronglySorted_app_1_l in Hs. }
  assert (Hne : at_ s' <> Raising LifecycleStateError).
  { pose proof (new_run_good (evs ++ [ev])) as [Hg _]. unfold steps in Hg. rewrite foldl_app in Hg. change (report (run s') (at_ s')) in Hg.
    intros H. rewrite H in Hg. inversion Hg; naive_solver. }
  destruct (resume (at_ s) ev) as [m|] eqn:Hm.
  2: { left. destruct (step_other _ _ Hm) as (_&_&[= _ ?]&_). done. }
  destruct (steps_track evs Hs0) as [[e He]|[Hsub Hw]]; [fold s in He; by rewrite He in Hm|]. fold s in Hsub, Hw.
  unfold s' in *. rewrite (process_answer _ _ _ Hm) in *. destruct (resume_flows _ _ (run s) _ Hm) as [_ H2].
  destruct (m (run s)) as [[q|e] r]; cbn in *.
  - destruct H2 as (_&_&[[= _ ?]|(now&Hnow&[= E1 E2]&Hq)]); [by left|]. right. exists now. split_and!; [done..|].
    rewrite E2, recent_of_snoc, <- Hw; [naive_solver|]. unfold crash_times in Hs. rewrite omap_app in Hs. cbn in Hs. rewrite Hnow in Hs.
    apply sorted_last in Hs as [_ Hn]. rewrite Forall_forall in *. intros x Hx. apply Hn. by eapply elem_of_sublist.
  - destruct H2 as [_ [[= _ ?]|He]]; [by left|]. congruence.
Qed.

Definition spawn_at (now : Q) : list event :=
  [Available true (Some "e1"%string) 0; SpawnDone Child now 0; Ended false ("Killed", "")%string now 0].
Lemma breaker_counts_the_full_history_witness :
  let evs := spawn_at 10 ++ [Slept None 0] ++ spawn_at 320 ++ [Slept None 0] ++ spawn_at 330 ++ [Slept None 0] in
  at_ (steps (evs ++ spawn_at 340) (supervise_one new_run)) = Terminal /\
  let evs' := evs ++ [Available true (Some "e1"%string) 0; SpawnDone Child 340 0] in
  let ev := Ended false ("Killed", "")%string 340 0 in
  let s := steps evs' (supervise_one new_run) in let s' := step ev s in
  crash_log (run s') = crash_log (run s) \/
  exists now, crash_time ev = Some now /\ crash_log (run s') = crash_log (run s) ++ [now] /\
    (at_ s' = Terminal <-> 3 <= Zlen (recent_of now (crash_log (run s')))).
Proof.
  intros evs. split; [vm_compute; reflexivity|]. intros evs' ev. apply (breaker_counts_the_full_history evs' ev).
  repeat (constructor; [|repeat constructor; discriminate]). constructor.
Defined.

(** ** The fleet *)
Lemma holders_cons t l : holders (t :: l) = ((if holds t then 1 else 0) + holders l)%nat.
Proof. unfold holders. rewrite filter_cons. by destruct (holds t). Qed.
Lemma wake_holders free l : (holders l <= holders (wake_next free l) <= holders l + free)%nat.
Proof.
  revert free. induction l as [|t l IH]; intros free; [cbn; lia|]. destruct t as [r| |s]; cbn [wake_next].
  - destruct free as [|free]; [lia|]. rewrite !holders_cons. cbn [holds]. destruct (live (supervise_one r)); [specialize (IH free)|specialize (IH (S free))]; lia.
  - rewrite !holders_cons. specialize (IH free). cbn [holds]. lia.
  - rewrite !holders_cons. specialize (IH free). destruct (holds _); lia.
Qed.
(** While a task waits, no slot is free. *)
Lemma wake_full free l : existsb waits (wake_next free l) = true -> holders (wake_next free l) = (holders l + free)%nat.
Proof.
  revert free. induction l as [|t l IH]; intros free; [done|]. destruct t as [r| |s]; cbn [wake_next].
  - destruct free as [|free]; [lia|]. cbn [existsb waits orb]. intros H. specialize (IH _ H). rewrite !holders_cons. cbn [holds].
    destruct (live (supervise_one r)); cbn in *; lia.
  - cbn [existsb waits orb]. intros H. specialize (IH _ H). rewrite !holders_cons. cbn [holds]. lia.
  - cbn [existsb waits orb]. intros H. specialize (IH _ H). rewrite !holders_cons. lia.
Qed.
Lemma step_live ev s : live (step ev s) = true -> live s = true.
Proof.
  unfold live. destruct (resume (at_ s) ev) as [m|] eqn:Hm; [by destruct (at_ s)|]. by destruct (step_other _ _ Hm) as (->&_).
Qed.
Lemma task_step_holders ev i l : (holders (alter (task_step ev) i l) <= holders l)%nat.
Proof.
  revert i. induction l as [|t l IH]; intros i; [done|]. destruct i as [|i].
  2: { change (alter (task_step ev) (S i) (t :: l)) with (t :: alter (task_step ev) i l). rewrite !holders_cons. specialize (IH i). lia. }
  change (alter (task_step ev) 0%nat (t :: l)) with (task_step ev t :: l). rewrite !holders_cons.
  destruct t as [r| |s]; cbn [task_step holds]; [destruct ev; cbn [task_step holds]; lia|lia|]. pose proof (step_live ev s) as H. destruct (live (step ev s)), (live s); (lia || by specialize (H eq_refl)).
Qed.
Lemma cancel_ends s : live s = true -> at_ (step Cancel s) = Raising CancelledError.
Proof. unfold live, step. by destruct (at_ s). Qed.
Definition ended (t : task) : bool := negb (holds t || waits t).
Lemma abort_ended t : ended (abort t) = true /\ failed (abort t) = failed t.
Proof.
  destruct t as [r| |s]; [done..|]. unfold abort, ended. destruct (live s) eqn:Hl; [|by cbn; rewrite Hl].
  cbn [holds waits failed]. unfold live at 1. rewrite (cancel_ends s Hl). split; [done|]. unfold live in Hl. by destruct (at_ s).
Qed.
(** What [settle] leaves. *)
Definition settled (f : fleet) : Prop :=
  (holders (tasks f) <= max_concurrent_boots f)%nat /\
  (existsb waits (tasks f) = true -> holders (tasks f) = max_concurrent_boots f) /\
  (existsb failed (tasks f) = true -> forallb ended (tasks f) = true).
Lemma ended_holders l : forallb ended l = true -> holders l = 0%nat /\ existsb waits l = false.
Proof.
  induction l as [|t l IH]; [done|]. cbn [forallb existsb]. intros [Ht Hl]%andb_prop. destruct (IH Hl) as [E1 E2]. rewrite holders_cons, E1, E2.
  unfold ended in Ht. by destruct (holds t), (waits t).
Qed.
Lemma abort_all l : forallb ended (abort <$> l) = true /\ existsb failed (abort <$> l) = existsb failed l.
Proof. induction l as [|t l [IH1 IH2]]; [done|]. cbn. destruct (abort_ended t) as [-> ->]. by rewrite IH2, IH1. Qed.
Lemma settle_settled f : (holders (tasks f) <= max_concurrent_boots f)%nat -> settled (settle f).
Proof.
  intros Hh. unfold settled, settle. cbn [tasks max_concurrent_boots]. set (l := wake_next _ _).
  destruct (existsb failed l) eqn:Hf.
  - destruct (abort_all l) as [H1 H2]. destruct (ended_holders _ H1) as [-> ->]. split_and!; [lia|done|done].
  - pose proof (wake_holders (max_concurrent_boots f - holders (tasks f)) (tasks f)) as Hw.
    pose proof (wake_full (max_concurrent_boots f - holders (tasks f)) (tasks f)) as Hfull. fold l in Hw, Hfull.
    rewrite Hf. split_and!; [lia|intros H; rewrite Hfull by done; lia|done].
Qed.

(** A fleet under the boot semaphore: never more than [max_concurrent_boots] adapters are
    being supervised at once, whether booting or long since up; an adapter waits to boot only
    while that many are; and once one adapter's supervision raises, no adapter of the fleet
    is supervised or waits any more. *)
Theorem fleet_caps_live_adapters_and_fails_together cap n xs :
  let f := fleet_run xs (supervise_all cap n) in
  (holders (tasks f) <= cap)%nat /\
  (existsb waits (tasks f) = true -> holders (tasks f) = cap) /\
  (existsb failed (tasks f) = true -> forallb ended (tasks f) = true).
Proof.
  assert (H : forall f, settled f -> settled (fleet_run xs f) /\ max_concurrent_boots (fleet_run xs f) = max_concurrent_boots f).
  { induction xs as [|x xs IH]; intros f Hf; [done|]. change (fleet_run (x :: xs) f) with (fleet_run xs (fleet_step x f)). destruct (IH (fleet_step x f)) as [H1 H2]; [|by rewrite H2].
    unfold fleet_step. apply settle_settled. cbn [tasks max_concurrent_boots]. destruct Hf as [Hf _]. pose proof (task_step_holders x.2 x.1 (tasks f)). lia. }
  assert (H0 : settled (supervise_all cap n)).
  { apply settle_settled. cbn [tasks max_concurrent_boots]. assert (holders (replicate n (Waiting new_run)) = 0%nat) as ->; [|lia]. induction n as [|n IH]; [done|]. cbn [replicate]. by rewrite holders_cons, IH. }
  destruct (H _ H0) as [H1 H2]. unfold settled in H1. rewrite H2 in H1. exact H1.
Qed.
