(* ===== verification/CircuitBreaker.v ===== *)
(** * The plugin circuit breaker

    [CircuitBreaker] of [supervisor/breaker.py]: the three states, the failure window, the
    trip, the re-arm, the probe outcomes, the operator reset and the persisted row.  Times
    are seconds.  The log lines and the hookpoint helpers below the class are not modelled. *)
From S2P Require Import Prelude SlidingWindow.

(** ** Data *)
Definition _FAILURE_WINDOW_SECONDS : Q := 300.
Definition _FAILURE_THRESHOLD : Z := 3.
Definition _RE_ARM_SECONDS : Q := 3600.
Definition _BACKOFF_INITIAL_SECONDS : Q := 5.
Definition _BACKOFF_MULTIPLIER : Q := 2.
Definition _BACKOFF_MAX_SECONDS : Q := 300.

Inductive BreakerState := CLOSED | OPEN | HALF_OPEN.
#[export] Instance BreakerState_eq_dec : EqDecision BreakerState.
Proof. solve_decision. Defined.
(** The [StrEnum]'s values. *)
Definition value (s : BreakerState) : string :=
  match s with CLOSED => "CLOSED" | OPEN => "OPEN" | HALF_OPEN => "HALF_OPEN" end.

Inductive BreakerError :=
| QuarantinedUnavailable (component_id : string)
| BreakStateError.

Record CircuitBreaker := {
  component_id : string;
  _failure_threshold : Z;
  _failure_window_seconds : Q;
  _re_arm_seconds : Q;
  state : BreakerState;
  trip_count : Z;
  last_trip_at : option Q;
  _recent_failures : list Q;
  _backoff_seconds : Q }.

Definition init (cid : string) (threshold : Z) (window rearm : Q) : CircuitBreaker :=
  {| component_id := cid; _failure_threshold := threshold; _failure_window_seconds := window;
     _re_arm_seconds := rearm; state := CLOSED; trip_count := 0; last_trip_at := None;
     _recent_failures := []; _backoff_seconds := _BACKOFF_INITIAL_SECONDS |}.

(** Assignments to the attributes. *)
Definition with_live (s : BreakerState) (n : Z) (t : option Q) (b : CircuitBreaker) : CircuitBreaker :=
  {| component_id := component_id b; _failure_threshold := _failure_threshold b;
     _failure_window_seconds := _failure_window_seconds b; _re_arm_seconds := _re_arm_seconds b;
     state := s; trip_count := n; last_trip_at := t;
     _recent_failures := _recent_failures b; _backoff_seconds := _backoff_seconds b |}.
Definition set_state (s : BreakerState) (b : CircuitBreaker) : CircuitBreaker :=
  with_live s (trip_count b) (last_trip_at b) b.
Definition set_failures (l : list Q) (b : CircuitBreaker) : CircuitBreaker :=
  {| component_id := component_id b; _failure_threshold := _failure_threshold b;
     _failure_window_seconds := _failure_window_seconds b; _re_arm_seconds := _re_arm_seconds b;
     state := state b; trip_count := trip_count b; last_trip_at := last_trip_at b;
     _recent_failures := l; _backoff_seconds := _backoff_seconds b |}.
Definition set_backoff (q : Q) (b : CircuitBreaker) : CircuitBreaker :=
  {| component_id := component_id b; _failure_threshold := _failure_threshold b;
     _failure_window_seconds := _failure_window_seconds b; _re_arm_seconds := _re_arm_seconds b;
     state := state b; trip_count := trip_count b; last_trip_at := last_trip_at b;
     _recent_failures := _recent_failures b; _backoff_seconds := q |}.

(** ** Operations *)
Definition _trip (now : Q) (b : CircuitBreaker) : CircuitBreaker :=
  set_failures [] (with_live OPEN (trip_count b + 1) (Some now) b).

Definition record_failure (now : Q) : M CircuitBreaker BreakerError unit := fun b =>
  if decide (state b = OPEN) then (Ok tt, b)
  else
    let cutoff := (now - _failure_window_seconds b)%Q in
    let b := set_failures (filter (fun f => Qltb cutoff f = true) (_recent_failures b) ++ [now]) b in
    if _failure_threshold b <=? Zlen (_recent_failures b) then (Ok tt, _trip now b) else (Ok tt, b).

Definition assert_available : M CircuitBreaker BreakerError unit := fun b =>
  if decide (state b = OPEN) then (Err (QuarantinedUnavailable (component_id b)), b) else (Ok tt, b).

Definition maybe_rearm (now : Q) : M CircuitBreaker BreakerError unit := fun b =>
  if decide (state b <> OPEN) then (Ok tt, b)
  else match last_trip_at b with
       | None => (Ok tt, b)
       | Some tripped =>
           if Qle_bool (_re_arm_seconds b) (now - tripped) then (Ok tt, set_state HALF_OPEN b)
           else (Ok tt, b)
       end.

Definition record_probe_success : M CircuitBreaker BreakerError unit := fun b =>
  if decide (state b <> HALF_OPEN) then (Err BreakStateError, b)
  else (Ok tt, set_backoff _BACKOFF_INITIAL_SECONDS (set_failures [] (set_state CLOSED b))).

Definition record_probe_failure (now : Q) : M CircuitBreaker BreakerError unit := fun b =>
  if decide (state b <> HALF_OPEN) then (Err BreakStateError, b)
  else (Ok tt, _trip now (set_backoff (py_min (_backoff_seconds b * _BACKOFF_MULTIPLIER) _BACKOFF_MAX_SECONDS) b)).

Definition reset : M CircuitBreaker BreakerError unit := fun b =>
  (Ok tt, set_backoff _BACKOFF_INITIAL_SECONDS (set_failures [] (set_state CLOSED b))).

(** ** The persisted row *)
Record CircuitBreakerState := {
  row_state : string; row_trip_count : Z; row_last_trip_at : option Q }.
(** The [circuit_breakers] table, by [component_id]. *)
Abbreviation Table := (gmap string CircuitBreakerState).

Definition save_to_db (b : CircuitBreaker) (db : Table) : Table :=
  <[component_id b := {| row_state := value (state b); row_trip_count := trip_count b;
                         row_last_trip_at := last_trip_at b |}]> db.

Definition load_from_db (now : Q) (db : Table) : M CircuitBreaker BreakerError unit := fun b =>
  match db !! component_id b with
  | None => (Ok tt, b)
  | Some row =>
      let b := with_live (state b) (row_trip_count row) (row_last_trip_at row) b in
      if decide (row_state row = value CLOSED) then (Ok tt, set_state CLOSED b)
      else if decide (row_state row = value OPEN) then maybe_rearm now (set_state OPEN b)
      else if decide (row_state row = value HALF_OPEN) then (Ok tt, set_state HALF_OPEN b)
      else (Err BreakStateError, b)
  end.

(** ** Traces *)
Inductive op :=
| RecordFailure (now : Q) | AssertAvailable | MaybeRearm (now : Q)
| ProbeSuccess | ProbeFailure (now : Q) | Reset_.
Definition op_now (o : op) : option Q :=
  match o with
  | RecordFailure now | MaybeRearm now | ProbeFailure now => Some now
  | AssertAvailable | ProbeSuccess | Reset_ => None
  end.
Definition step (o : op) : M CircuitBreaker BreakerError unit :=
  match o with
  | RecordFailure now => record_failure now
  | AssertAvailable => assert_available
  | MaybeRearm now => maybe_rearm now
  | ProbeSuccess => record_probe_success
  | ProbeFailure now => record_probe_failure now
  | Reset_ => reset
  end.
Fixpoint run (ops : list op) (b : CircuitBreaker) : list (result BreakerError unit) * CircuitBreaker :=
  match ops with
  | [] => ([], b)
  | o :: ops' => let '(r, b') := step o b in let '(rs, b'') := run ops' b' in (r :: rs, b'')
  end.

(** ** Specification: the breaker read off complete histories

    No list is pruned: the specification keeps every failure since the breaker last
    closed or tripped, every trip, and the number of failed probes since it last closed. *)
Record Spec := {
  sp_state : BreakerState; sp_failures : list Q; sp_trips : list Q; sp_probe_failures : nat }.
Definition spec_init : Spec := {| sp_state := CLOSED; sp_failures := []; sp_trips := []; sp_probe_failures := 0 |}.

Section spec.
Context (cid : string) (threshold : Z) (window rearm : Q).

Definition spec_trip (now : Q) (k : nat) (sp : Spec) : Spec :=
  {| sp_state := OPEN; sp_failures := []; sp_trips := sp_trips sp ++ [now]; sp_probe_failures := k |}.
Definition spec_closed (sp : Spec) : Spec :=
  {| sp_state := CLOSED; sp_failures := []; sp_trips := sp_trips sp; sp_probe_failures := 0 |}.

Definition spec_step (o : op) (sp : Spec) : result BreakerError unit * Spec :=
  match o, sp_state sp with
  | RecordFailure _, OPEN => (Ok tt, sp)
  | RecordFailure now, s =>
      let h := sp_failures sp ++ [now] in
      (Ok tt, if threshold <=? Zlen (in_window window now h) then spec_trip now (sp_probe_failures sp) sp
              else {| sp_state := s; sp_failures := h; sp_trips := sp_trips sp;
                      sp_probe_failures := sp_probe_failures sp |})
  | AssertAvailable, OPEN => (Err (QuarantinedUnavailable cid), sp)
  | AssertAvailable, _ => (Ok tt, sp)
  | MaybeRearm now, OPEN =>
      (Ok tt, match last (sp_trips sp) with
              | Some t => if Qle_bool rearm (now - t) then
                  {| sp_state := HALF_OPEN; sp_failures := sp_failures sp; sp_trips := sp_trips sp;
                     sp_probe_failures := sp_probe_failures sp |} else sp
              | None => sp
              end)
  | MaybeRearm _, _ => (Ok tt, sp)
  | ProbeSuccess, HALF_OPEN => (Ok tt, spec_closed sp)
  | ProbeSuccess, _ => (Err BreakStateError, sp)
  | ProbeFailure now, HALF_OPEN => (Ok tt, spec_trip now (S (sp_probe_failures sp)) sp)
  | ProbeFailure _, _ => (Err BreakStateError, sp)
  | Reset_, _ => (Ok tt, spec_closed sp)
  end.
Fixpoint spec_run (ops : list op) (sp : Spec) : list (result BreakerError unit) * Spec :=
  match ops with
  | [] => ([], sp)
  | o :: ops' => let '(r, sp') := spec_step o sp in let '(rs, sp'') := spec_run ops' sp' in (r :: rs, sp'')
  end.

(** 5 s doubled per failed probe, at most 300 s. *)
Definition backoff_after (k : nat) : Q := inject_Z (Z.min (5 * 2 ^ Z.of_nat k) 300).

Lemma backoff_after_S k : py_min (backoff_after k * _BACKOFF_MULTIPLIER) _BACKOFF_MAX_SECONDS = backoff_after (S k).
Proof.
  unfold backoff_after. change (_ * _BACKOFF_MULTIPLIER)%Q with (inject_Z (Z.min (5 * 2 ^ Z.of_nat k) 300 * 2)).
  rewrite Nat2Z.inj_succ, Z.pow_succ_r by lia. unfold py_min, _BACKOFF_MAX_SECONDS.
  change 300%Q with (inject_Z 300). pose proof (Z.pow_pos_nonneg 2 (Z.of_nat k) ltac:(lia) ltac:(lia)).
  destruct (Qltb_spec (inject_Z 300) (inject_Z (Z.min (5 * 2 ^ Z.of_nat k) 300 * 2))) as [Hl|Hl];
    [rewrite <- Zlt_Qlt in Hl|rewrite <- Zle_Qle in Hl]; f_equal; lia.
Qed.

Definition refines (now : Q) (sp : Spec) (b : CircuitBreaker) : Prop :=
  component_id b = cid /\ _failure_threshold b = threshold /\ _failure_window_seconds b = window /\
  _re_arm_seconds b = rearm /\ state b = sp_state sp /\ trip_count b = Zlen (sp_trips sp) /\
  last_trip_at b = last (sp_trips sp) /\ _backoff_seconds b = backoff_after (sp_probe_failures sp) /\
  forall now', (now <= now')%Q -> in_window window now' (_recent_failures b) = in_window window now' (sp_failures sp).

Lemma breaker_refines_later now now' sp b : (now <= now')%Q -> refines now sp b -> refines now' sp b.
Proof.
  intros Hle (?&?&?&?&?&?&?&?&Hf). unfold refines. split_and!; try done. intros. apply Hf. lra.
Qed.
(** An operation that reads the clock reads at least [now]. *)
Definition not_before (now : Q) (t : option Q) : Prop := from_option (Qle now) True t.
Lemma refines_clock o now sp b :
  not_before now (op_now o) -> refines now sp b ->
  refines (default now (op_now o)) sp b.
Proof.
  intros Ho H. destruct (op_now o) as [t|]; [|done]. apply (breaker_refines_later now); [exact Ho|exact H].
Qed.

Lemma failures_step now h l : (0 < window)%Q ->
  (forall now', (now <= now')%Q -> in_window window now' l = in_window window now' h) ->
  let l' := in_window window now l ++ [now] in
  Zlen l' = Zlen (in_window window now (h ++ [now])) /\
  forall now', (now <= now')%Q -> in_window window now' l' = in_window window now' (h ++ [now]).
Proof.
  intros Hw Hf. split.
  - rewrite in_window_app, in_window_new by done. by rewrite Hf by lra.
  - intros now' Hn. rewrite !in_window_app, in_window_later by done. by rewrite Hf.
Qed.

(** The fields an operation leaves alone. *)
Ltac refine_done := split; [done|]; unfold refines; simpl; split_and!; solve [done | auto | congruence].
(** One operation at a time not before [now]. *)
Lemma breaker_step_refines o now sp b : (0 < window)%Q ->
  not_before now (op_now o) -> refines now sp b ->
  (step o b).1 = (spec_step o sp).1 /\
  refines (default now (op_now o)) (spec_step o sp).2 (step o b).2.
Proof.
  intros Hw Ho H. pose proof (refines_clock o now sp b Ho H) as (Hc&Ht&Hwi&Hr&Hs&Hn&Hl&Hb&Hf).
  clear H Ho. destruct o as [t| |t| |t|]; simpl in *.
  - unfold record_failure. simpl. rewrite Hs, Hwi, Ht. destruct (sp_state sp) eqn:Hsp; simpl; [|by refine_done|];
      destruct (failures_step t (sp_failures sp) (_recent_failures b) Hw Hf) as [Hlen Hlater];
      unfold in_window in Hlen, Hlater |- *; rewrite Hlen; (destruct (threshold <=? _); split; [done| |done|]);
      unfold refines; simpl; split_and!; try done; try congruence;
      rewrite ?Zlen_app, ?Zlen_singleton, ?last_snoc; try done; lia.
  - unfold assert_available. rewrite Hs, Hc. destruct (sp_state sp) eqn:Hsp; simpl; refine_done.
  - unfold maybe_rearm. rewrite Hs, Hl, Hr. destruct (sp_state sp) eqn:Hsp; simpl; [by refine_done| |by refine_done].
    destruct (last (sp_trips sp)) as [tr|] eqn:Hlast; simpl; [|by refine_done].
    destruct (Qle_bool rearm _); simpl; refine_done.
  - unfold record_probe_success. rewrite Hs. destruct (sp_state sp) eqn:Hsp; simpl; refine_done.
  - unfold record_probe_failure. rewrite Hs. destruct (sp_state sp) eqn:Hsp; simpl; [by refine_done..|].
    split; [done|]. unfold refines. simpl. rewrite Hb, backoff_after_S, Zlen_app, Zlen_singleton, last_snoc.
    split_and!; try done. lia.
  - refine_done.
Qed.

Lemma breaker_run_refines ops : (0 < window)%Q -> forall now sp b,
  refines now sp b -> ordered (now :: omap op_now ops) ->
  (run ops b).1 = (spec_run ops sp).1 /\ exists now', refines now' (spec_run ops sp).2 (run ops b).2.
Proof.
  intros Hw. induction ops as [|o ops IH]; intros now sp b H Hord; simpl; [by eauto|].
  apply StronglySorted_inv in Hord as [Hord Hnow].
  assert (Ho : not_before now (op_now o) /\ ordered (default now (op_now o) :: omap op_now ops)).
  { csimpl in *. destruct (op_now o) as [t|]; simpl.
    - apply Forall_cons in Hnow as [Ht _]. by split.
    - split; [done|]. by constructor. }
  destruct Ho as [Ho Hord']. destruct (breaker_step_refines o now sp b Hw Ho H) as [Hr Hs].
  specialize (IH _ _ _ Hs Hord') as [IH1 IH2].
  destruct (step o b) as [r b']. destruct (spec_step o sp) as [r' sp']. simpl in *.
  destruct (run ops b') as [rs b'']. destruct (spec_run ops sp') as [rs' sp'']. simpl in *.
  split; [congruence|done].
Qed.
End spec.

Lemma init_refines cid threshold window rearm now :
  refines cid threshold window rearm now spec_init (init cid threshold window rearm).
Proof. done. Qed.

Lemma value_inj s s' : value s = value s' -> s = s'.
Proof. by destruct s, s'. Qed.

(** Every branch of one operation. *)
Ltac step_cases b :=
  unfold step, record_failure, assert_available, maybe_rearm, record_probe_success, record_probe_failure;
  destruct (state b) eqn:?, (last_trip_at b) eqn:?; simpl;
  repeat match goal with |- context [if ?c then _ else _] => destruct c eqn:?; simpl end.

(** An open breaker has a trip time, whatever was called. *)
Lemma step_open_tripped o b :
  (state b = OPEN -> is_Some (last_trip_at b)) -> state (step o b).2 = OPEN -> is_Some (last_trip_at (step o b).2).
Proof.
  destruct o; step_cases b; intros H ?; solve [eauto | congruence | by destruct (H eq_refl)].
Qed.
Lemma run_open_tripped ops : forall b, (state b = OPEN -> is_Some (last_trip_at b)) ->
  state (run ops b).2 = OPEN -> is_Some (last_trip_at (run ops b).2).
Proof.
  induction ops as [|o ops IH]; intros b H; simpl; [done|].
  pose proof (step_open_tripped o b H). destruct (step o b) as [r b']. specialize (IH b'). destruct (run ops b'). simpl in *. auto.
Qed.
Lemma run_params ops b :
  component_id (run ops b).2 = component_id b /\ _re_arm_seconds (run ops b).2 = _re_arm_seconds b.
Proof.
  revert b. induction ops as [|o ops IH]; intros b; simpl; [done|].
  assert (component_id (step o b).2 = component_id b /\ _re_arm_seconds (step o b).2 = _re_arm_seconds b).
  { by destruct o; step_cases b. }
  destruct (step o b) as [r b']. specialize (IH b'). destruct (run ops b'). simpl in *. intuition congruence.
Qed.

(** With a clock that does not go back, a breaker is its specification over complete
    histories: it trips exactly when the failures since it last closed or tripped that are
    newer than the window reach the threshold, raises exactly when the specification does,
    counts every trip, dates the last one, and holds a backoff of 5 s doubled once per failed
    probe since it last closed and clamped to 300 s. *)
Theorem breaker_refines_full_history cid threshold window rearm ops :
  (0 < window)%Q -> ordered (omap op_now ops) ->
  let '(rs, b) := run ops (init cid threshold window rearm) in
  let '(rs', sp) := spec_run cid threshold window rearm ops spec_init in
  rs = rs' /\ state b = sp_state sp /\ trip_count b = Zlen (sp_trips sp) /\
  last_trip_at b = last (sp_trips sp) /\ _backoff_seconds b = backoff_after (sp_probe_failures sp).
Proof.
  intros Hw Hord. set (now := default 0%Q (head (omap op_now ops))).
  destruct (breaker_run_refines cid threshold window rearm ops Hw now spec_init (init cid threshold window rearm)) as [Hr [now' H]].
  - apply init_refines.
  - unfold now. destruct (omap op_now ops) as [|t l]; [repeat constructor|]. constructor; [done|].
    apply StronglySorted_inv in Hord as [_ Hall]. constructor; [simpl; lra|done].
  - destruct (run ops _) as [rs b], (spec_run _ _ _ _ ops spec_init) as [rs' sp]. simpl in *.
    destruct H as (?&?&?&?&?&?&?&?&?). done.
Qed.
Lemma breaker_refines_full_history_witness :
  let ops := [RecordFailure 0; RecordFailure 200; RecordFailure 300; AssertAvailable; RecordFailure 310; AssertAvailable;
              MaybeRearm 3909; MaybeRearm 3910; ProbeFailure 3911; MaybeRearm 7511; ProbeSuccess; ProbeSuccess] in
  let '(rs, b) := run ops (init "p" 3 300 3600) in
  let '(rs', sp) := spec_run "p" 3 300 3600 ops spec_init in
  rs = rs' /\ state b = sp_state sp /\ trip_count b = Zlen (sp_trips sp) /\
  last_trip_at b = last (sp_trips sp) /\ _backoff_seconds b = backoff_after (sp_probe_failures sp).
Proof.
  intros ops. apply (breaker_refines_full_history "p" 3 300 3600 ops); [reflexivity|].
  simpl. repeat (constructor; [|repeat constructor; discriminate]). constructor.
Defined.

(** After any calls, in any order and with any clock readings, an open breaker has a trip
    time, and the next operation leaves it exactly as it was unless it is the operator reset
    (to closed) or a re-arm at least the re-arm time after the trip (to half-open, nothing
    else changed); and every operation adds one to the trip count exactly when it opens a
    breaker that was not open. *)
Theorem breaker_leaves_open_only_by_rearm_or_reset cid threshold window rearm ops o :
  let b := (run ops (init cid threshold window rearm)).2 in
  let b' := (step o b).2 in
  (state b = OPEN -> exists t, last_trip_at b = Some t /\
     (b' = b \/ (o = Reset_ /\ state b' = CLOSED) \/
      exists now, o = MaybeRearm now /\ (rearm <= now - t)%Q /\ b' = set_state HALF_OPEN b)) /\
  trip_count b' = trip_count b + (if decide (state b <> OPEN /\ state b' = OPEN) then 1 else 0).
Proof.
  intros b. pose proof (run_open_tripped ops (init cid threshold window rearm)) as Ht.
  pose proof (run_params ops (init cid threshold window rearm)) as [_ Hr].
  specialize (Ht ltac:(done)). fold b in Ht, Hr. clearbody b. simpl in Hr. intros b'. split.
  - intros Ho. destruct (Ht Ho) as [t Hl]. exists t. split; [done|]. subst b'.
    destruct o; simpl; unfold record_failure, assert_available, maybe_rearm, record_probe_success, record_probe_failure;
      rewrite ?Ho, ?Hl; simpl; auto.
    destruct (Qleb_spec (_re_arm_seconds b) (now - t)); [|by left]. right; right. exists now. rewrite <- Hr. done.
  - subst b'. destruct o; step_cases b; solve [lia | exfalso; destruct_and?; congruence | by destruct n].
Qed.

(** What [save_to_db] wrote, a fresh breaker of the same component loads: state, trip
    count and trip time, except that an open breaker whose re-arm time has passed comes back
    half-open; another component's row is not touched; and an unknown state value raises,
    the count and the time of the row being assigned already. *)
Theorem breaker_row_round_trip cid threshold window rearm ops db now :
  let fresh := init cid threshold window rearm in
  let b := (run ops fresh).2 in
  load_from_db now (save_to_db b db) fresh =
    (Ok tt, with_live (match state b, last_trip_at b with
                       | OPEN, Some t => if Qle_bool rearm (now - t) then HALF_OPEN else OPEN
                       | s, _ => s end) (trip_count b) (last_trip_at b) fresh) /\
  (forall other, component_id other <> cid ->
     load_from_db now (save_to_db b db) other = load_from_db now db other) /\
  (forall row, db !! cid = Some row -> (forall s, row_state row <> value s) ->
     load_from_db now db fresh =
       (Err BreakStateError, with_live CLOSED (row_trip_count row) (row_last_trip_at row) fresh)).
Proof.
  intros fresh b. pose proof (run_params ops fresh) as [Hc _]. fold b in Hc. split_and!.
  - unfold load_from_db, save_to_db. rewrite Hc, lookup_insert_eq. simpl.
    destruct (state b) eqn:Hs; simpl; try done. unfold maybe_rearm. simpl.
    destruct (last_trip_at b) as [t|]; [|done]. by destruct (Qle_bool rearm (now - t)).
  - intros other Hne. unfold load_from_db, save_to_db. rewrite Hc. by rewrite lookup_insert_ne by done.
  - intros row Hrow Hv. unfold load_from_db. change (component_id fresh) with cid. rewrite Hrow.
    by rewrite !decide_False by apply Hv.
Qed.
Lemma breaker_row_round_trip_witness :
  let fresh := init "p" 1 300 3600 in
  let b := (run [RecordFailure 7] fresh).2 in
  state b = OPEN /\
  load_from_db 3606 (save_to_db b ∅) fresh = (Ok tt, with_live OPEN 1 (Some 7%Q) fresh) /\
  load_from_db 3607 (save_to_db b ∅) fresh = (Ok tt, with_live HALF_OPEN 1 (Some 7%Q) fresh) /\
  load_from_db 0 {["p" := {| row_state := "AJAR"; row_trip_count := 4; row_last_trip_at := None |}]} fresh =
    (Err BreakStateError, with_live CLOSED 4 None fresh).
Proof.
  intros fresh b. split; [reflexivity|]. split_and!.
  - exact (proj1 (breaker_row_round_trip "p" 1 300 3600 [RecordFailure 7] ∅ 3606)).
  - exact (proj1 (breaker_row_round_trip "p" 1 300 3600 [RecordFailure 7] ∅ 3607)).
  - apply (proj2 (proj2 (breaker_row_round_trip "p" 1 300 3600 [] {["p" := {| row_state := "AJAR"; row_trip_count := 4; row_last_trip_at := None |}]} 0))
      {| row_state := "AJAR"; row_trip_count := 4; row_last_trip_at := None |}); [reflexivity|]. intros []; discriminate.
Defined.
