(* ===== verification/BudgetGuard.v ===== *)
(** * The per-user budget guard

    [budget/guard.py]: one entry per known user with the cap, the day and the day's spend.
    The user loader, the identity version counter and the UTC date are what an operation
    reads from outside; each operation carries its readings.  Finite floats are exact
    rationals (the additions of [spent] are not rounded). *)
From S2P Require Import Prelude.

(** ** Data *)
Inductive pyfloat := Finite (q : Q) | Infinity | NegInfinity | NaN.
Definition isfinite (f : pyfloat) : option Q := match f with Finite q => Some q | _ => None end.

Inductive BudgetError :=
| ValueError
| PerCallCapExceededError
| UnknownBudgetUserError (user_id : string)
| BudgetExceededError (spent_usd cap_usd : Q).

Record _UserBudget := { daily_usd : Q; daily_usd_version : Z; per_call_max_usd : Q; day : Z; spent : Q }.

(** What [user_loader] returns: no user, or a row whose [daily_budget_usd] is a number or not. *)
Inductive loaded := NoUser | NonNumericRow | Row (daily_budget_usd : pyfloat).
(** The outside world as one operation reads it: the loader, the version counter, the date
    when an entry is created and the (later) date of the day check. *)
Record Env := { user_loader : string -> loaded; current_version : Z; created_on : Z; today : Z }.

Record BudgetGuard := { _per_call_max_usd : Q; _user_budgets : gmap string _UserBudget }.
Definition with_budgets (m : gmap string _UserBudget) (g : BudgetGuard) : BudgetGuard :=
  {| _per_call_max_usd := _per_call_max_usd g; _user_budgets := m |}.

Definition init (per_call_max_usd : pyfloat) : result BudgetError BudgetGuard :=
  match isfinite per_call_max_usd with
  | None => Err ValueError
  | Some q => if Qltb q 0 then Err ValueError else Ok {| _per_call_max_usd := q; _user_budgets := ∅ |}
  end.

(** ** Internals *)
Definition _validate_cost (cost_usd : pyfloat) : M BudgetGuard BudgetError Q :=
  match isfinite cost_usd with
  | None => raise ValueError
  | Some q => if Qltb q 0 then raise ValueError else ret q
  end.

(** The checks on what the loader returned. *)
Definition loaded_cap (user_id : string) (l : loaded) : result BudgetError Q :=
  match l with
  | NoUser => Err (UnknownBudgetUserError user_id)
  | NonNumericRow => Err ValueError
  | Row f => match isfinite f with
             | None => Err ValueError
             | Some q => if Qle_bool q 0 then Err ValueError else Ok q
             end
  end.

Definition store (user_id : string) (entry : _UserBudget) (g : BudgetGuard) : BudgetGuard :=
  with_budgets (<[user_id := entry]> (_user_budgets g)) g.

Definition _load_or_get_user (env : Env) (user_id : string) : M BudgetGuard BudgetError _UserBudget := fun g =>
  let entry := _user_budgets g !! user_id in
  let load := match loaded_cap user_id (user_loader env user_id) with
    | Err e => (Err e, g)
    | Ok daily_usd_f =>
        let entry' := match entry with
          | None => {| daily_usd := daily_usd_f; daily_usd_version := current_version env;
                       per_call_max_usd := _per_call_max_usd g; day := created_on env; spent := 0 |}
          | Some en => {| daily_usd := daily_usd_f; daily_usd_version := current_version env;
                          per_call_max_usd := per_call_max_usd en; day := day en; spent := spent en |}
          end in
        (Ok entry', store user_id entry' g)
    end in
  match entry with
  | Some en => if current_version env <=? daily_usd_version en then (Ok en, g) else load
  | None => load
  end.

(** The entry is the object in the dict: rolling it rolls the stored one. *)
Definition rolled (t : Z) (entry : _UserBudget) : _UserBudget :=
  if decide (t <> day entry)
  then {| daily_usd := daily_usd entry; daily_usd_version := daily_usd_version entry;
          per_call_max_usd := per_call_max_usd entry; day := t; spent := 0 |}
  else entry.
Definition _roll_day_if_needed (env : Env) (user_id : string) (entry : _UserBudget) : M BudgetGuard BudgetError _UserBudget :=
  fun g => (Ok (rolled (today env) entry), store user_id (rolled (today env) entry) g).

(** ** Public surface *)
Definition add_spent (c : Q) (entry : _UserBudget) : _UserBudget :=
  {| daily_usd := daily_usd entry; daily_usd_version := daily_usd_version entry;
     per_call_max_usd := per_call_max_usd entry; day := day entry; spent := spent entry + c |}.

Definition check_and_charge (env : Env) (user_id : string) (cost_usd : pyfloat) : M BudgetGuard BudgetError unit :=
  c <-- _validate_cost cost_usd;
  entry <-- _load_or_get_user env user_id;
  g <-- get;
  raise_if Qltb (_per_call_max_usd g) c with PerCallCapExceededError;
  entry <-- _roll_day_if_needed env user_id entry;
  raise_if Qltb (daily_usd entry) (spent entry + c) with BudgetExceededError (spent entry) (daily_usd entry);
  modify (store user_id (add_spent c entry)).

Definition would_exceed (env : Env) (user_id : string) (cost_usd : pyfloat) : M BudgetGuard BudgetError bool :=
  c <-- _validate_cost cost_usd;
  entry <-- _load_or_get_user env user_id;
  g <-- get;
  if Qltb (_per_call_max_usd g) c then ret true else
  entry <-- _roll_day_if_needed env user_id entry;
  ret (Qltb (daily_usd entry) (spent entry + c)).

Definition estimate_for (env : Env) (user_id : string) : M BudgetGuard BudgetError Q :=
  _load_or_get_user env user_id ;;; g <-- get; ret (_per_call_max_usd g).

Definition spent_today (env : Env) (user_id : string) : M BudgetGuard BudgetError Q :=
  entry <-- _load_or_get_user env user_id;
  entry <-- _roll_day_if_needed env user_id entry;
  ret (spent entry).

Definition evict (user_id : string) : M BudgetGuard BudgetError unit :=
  modify (fun g => with_budgets (delete user_id (_user_budgets g)) g).

(** ** Call sequences *)
Inductive op :=
| Charge (env : Env) (user_id : string) (cost_usd : pyfloat)
| WouldExceed (env : Env) (user_id : string) (cost_usd : pyfloat)
| EstimateFor (env : Env) (user_id : string)
| SpentToday (env : Env) (user_id : string)
| Evict (user_id : string).
Inductive output := ONone | OBool (b : bool) | OUsd (q : Q).
Definition op_user (o : op) : string :=
  match o with Charge _ u _ | WouldExceed _ u _ | EstimateFor _ u | SpentToday _ u | Evict u => u end.
(** The dates an operation may read, in order. *)
Definition op_days (o : op) : list Z :=
  match o with
  | Charge env _ _ | WouldExceed env _ _ | EstimateFor env _ | SpentToday env _ => [created_on env; today env]
  | Evict _ => []
  end.
Definition step (o : op) : M BudgetGuard BudgetError output :=
  match o with
  | Charge env u c => check_and_charge env u c ;;; ret ONone
  | WouldExceed env u c => b <-- would_exceed env u c; ret (OBool b)
  | EstimateFor env u => q <-- estimate_for env u; ret (OUsd q)
  | SpentToday env u => q <-- spent_today env u; ret (OUsd q)
  | Evict u => evict u ;;; ret ONone
  end.
Fixpoint run (ops : list op) (g : BudgetGuard) : list (result BudgetError output) * BudgetGuard :=
  match ops with
  | [] => ([], g)
  | o :: ops' => let '(r, g') := step o g in let '(rs, g'') := run ops' g' in (r :: rs, g'')
  end.

(** ** Specification: a ledger of accepted charges

    The caps known per user with the version they were read at, and every accepted charge
    with its date; no running totals and no day rollover. *)
Record Spec := { caps : gmap string (Q * Z); ledger : list (string * Z * Q) }.
Definition spec_init : Spec := {| caps := ∅; ledger := [] |}.
Definition on_day (u : string) (d : Z) (x : string * Z * Q) : Prop := x.1 = (u, d).
#[export] Instance on_day_dec u d x : Decision (on_day u d x) := decide (x.1 = (u, d)).
(** The sum of the charges of a user on a day, in order. *)
Definition day_total (u : string) (d : Z) (l : list (string * Z * Q)) : Q :=
  fold_left Qplus (snd <$> filter (on_day u d) l) 0%Q.

Definition spec_cap (env : Env) (u : string) (sp : Spec) : result BudgetError Q * Spec :=
  let load := match loaded_cap u (user_loader env u) with
    | Err e => (Err e, sp)
    | Ok cap => (Ok cap, {| caps := <[u := (cap, current_version env)]> (caps sp); ledger := ledger sp |})
    end in
  match caps sp !! u with
  | Some (cap, v) => if current_version env <=? v then (Ok cap, sp) else load
  | None => load
  end.
Definition spec_cost (cost : pyfloat) : result BudgetError Q :=
  match isfinite cost with
  | Some c => if Qltb c 0 then Err ValueError else Ok c
  | None => Err ValueError
  end.
(** What a charge would meet: the per-call cap first, then the day's total. *)
Definition verdict (p cap total c : Q) : option BudgetError :=
  if Qltb p c then Some PerCallCapExceededError
  else if Qltb cap (total + c) then Some (BudgetExceededError total cap) else None.

Definition spec_step (p : Q) (o : op) (sp : Spec) : result BudgetError output * Spec :=
  let at_cap env u (k : Q -> Spec -> result BudgetError output * Spec) :=
    match spec_cap env u sp with (Ok cap, sp') => k cap sp' | (Err e, sp') => (Err e, sp') end in
  match o with
  | Charge env u cost =>
      match spec_cost cost with
      | Err e => (Err e, sp)
      | Ok c => at_cap env u (fun cap sp' =>
          match verdict p cap (day_total u (today env) (ledger sp')) c with
          | Some e => (Err e, sp')
          | None => (Ok ONone, {| caps := caps sp'; ledger := ledger sp' ++ [(u, today env, c)] |})
          end)
      end
  | WouldExceed env u cost =>
      match spec_cost cost with
      | Err e => (Err e, sp)
      | Ok c => at_cap env u (fun cap sp' =>
          (Ok (OBool (bool_decide (is_Some (verdict p cap (day_total u (today env) (ledger sp')) c)))), sp'))
      end
  | EstimateFor env u => at_cap env u (fun _ sp' => (Ok (OUsd p), sp'))
  | SpentToday env u => at_cap env u (fun _ sp' => (Ok (OUsd (day_total u (today env) (ledger sp'))), sp'))
  | Evict u => (Ok ONone, {| caps := delete u (caps sp); ledger := filter (fun x => x.1.1 <> u) (ledger sp) |})
  end.
Fixpoint spec_run (p : Q) (ops : list op) (sp : Spec) : list (result BudgetError output) * Spec :=
  match ops with
  | [] => ([], sp)
  | o :: ops' => let '(r, sp') := spec_step p o sp in let '(rs, sp'') := spec_run p ops' sp' in (r :: rs, sp'')
  end.

(** ** The entries against the ledger *)
Definition entry_ok (l : list (string * Z * Q)) (d : Z) (u : string) (en : _UserBudget) : Prop :=
  spent en = day_total u (day en) l /\ day en <= d /\ (forall x, x ∈ l -> x.1.1 = u -> x.1.2 <= day en).
Definition refines (p : Q) (d : Z) (sp : Spec) (g : BudgetGuard) : Prop :=
  _per_call_max_usd g = p /\
  (forall u, caps sp !! u = (fun en => (daily_usd en, daily_usd_version en)) <$> _user_budgets g !! u) /\
  (forall u en, _user_budgets g !! u = Some en -> entry_ok (ledger sp) d u en) /\
  (forall x, x ∈ ledger sp -> is_Some (_user_budgets g !! x.1.1)).

Lemma day_total_none u d l : (forall x, x ∈ l -> x.1.1 = u -> x.1.2 < d) -> day_total u d l = 0%Q.
Proof.
  intros H. unfold day_total. rewrite filter_none; [done|]. intros x Hx Hd. unfold on_day in Hd.
  specialize (H x Hx). destruct x as [[]]; simplify_eq/=. specialize (H eq_refl). lia.
Qed.
Lemma day_total_snoc u d l u' d' c :
  day_total u d (l ++ [(u', d', c)]) = if decide ((u', d') = (u, d)) then (day_total u d l + c)%Q else day_total u d l.
Proof.
  unfold day_total. rewrite filter_app, filter_cons, filter_nil. destruct (decide ((u', d') = (u, d))) as [Heq|Hne].
  - rewrite (decide_True (P := on_day u d (u', d', c))) by done. rewrite fmap_app, fold_left_app. done.
  - rewrite (decide_False (P := on_day u d (u', d', c))) by done. by rewrite app_nil_r.
Qed.
Lemma day_total_evict u v d l : u <> v -> day_total u d (filter (fun x => x.1.1 <> v) l) = day_total u d l.
Proof.
  intros Hne. unfold day_total. do 2 f_equal. induction l as [|x l IH]; [done|]. rewrite !filter_cons.
  destruct (decide (x.1.1 <> v)) as [Hx|Hx]; [by rewrite filter_cons, IH|]. rewrite IH, decide_False; [done|].
  unfold on_day. destruct x as [[]]. simpl in *. apply dec_stable in Hx. congruence.
Qed.

Lemma entry_ok_later l d d' u en : d <= d' -> entry_ok l d u en -> entry_ok l d' u en.
Proof. intros ? (?&?&?). split_and!; auto; lia. Qed.
Lemma ledger_refines_later p d d' sp g : d <= d' -> refines p d sp g -> refines p d' sp g.
Proof. intros Hd (?&?&He&?). split_and!; auto. intros u en ?. by eapply entry_ok_later, He. Qed.

(** Replacing one entry and its cap. *)
Lemma refines_store p d sp g u en (m : gmap string (Q * Z)) :
  refines p d sp g -> entry_ok (ledger sp) d u en ->
  m = <[u := (daily_usd en, daily_usd_version en)]> (caps sp) ->
  refines p d {| caps := m; ledger := ledger sp |} (store u en g).
Proof.
  intros (Hp&Hc&He&Hl) Hok ->. split_and!; simpl; [done| | |].
  - intros v. destruct (decide (v = u)) as [->|Hv]; [by rewrite !lookup_insert_eq|]. rewrite !lookup_insert_ne by done. apply Hc.
  - intros v en'. destruct (decide (v = u)) as [->|Hv]; [rewrite lookup_insert_eq; by intros [= <-]|].
    rewrite lookup_insert_ne by done. apply He.
  - intros x Hx. destruct (decide (x.1.1 = u)) as [->|Hv]; [rewrite lookup_insert_eq; eauto|].
    rewrite lookup_insert_ne by done. by apply Hl.
Qed.

(** Loading a user: the same cap or the same error, and the entry is the stored one. *)
Lemma load_refines p d env u sp g : refines p d sp g -> d <= created_on env ->
  match _load_or_get_user env u g, spec_cap env u sp with
  | (Ok en, g'), (Ok cap, sp') => daily_usd en = cap /\ _user_budgets g' !! u = Some en /\ ledger sp' = ledger sp /\
                                 refines p (created_on env) sp' g'
  | (Err e, g'), (Err e', sp') => e = e' /\ g' = g /\ sp' = sp
  | _, _ => False
  end.
Proof.
  intros H Hd. pose proof H as (Hp&Hc&He&Hl). unfold _load_or_get_user, spec_cap. rewrite (Hc u).
  pose proof (ledger_refines_later _ _ _ _ _ Hd H) as Hlater.
  assert (Hstore : forall en, entry_ok (ledger sp) (created_on env) u en ->
    refines p (created_on env) {| caps := <[u := (daily_usd en, daily_usd_version en)]> (caps sp); ledger := ledger sp |} (store u en g))
    by (intros; by apply refines_store).
  destruct (_user_budgets g !! u) as [en|] eqn:Hu; simpl.
  - destruct (_ <=? _); [done|]. destruct (loaded_cap u _) as [cap|err]; [|done]. split_and!; try done.
    + simpl. apply lookup_insert_eq.
    + apply (Hstore {| daily_usd := cap |}). eapply entry_ok_later; [exact Hd|]. apply (He _ _ Hu).
  - destruct (loaded_cap u _) as [cap|err]; [|done]. split_and!; try done; [simpl; apply lookup_insert_eq|].
    apply (Hstore {| daily_usd := cap |}).
    assert (Hno : forall x, x ∈ ledger sp -> x.1.1 <> u) by (intros x Hx <-; destruct (Hl x Hx); congruence).
    split_and!; simpl; [|lia|by intros x Hx ?; destruct (Hno x Hx)].
    symmetry. apply day_total_none. intros x Hx ?. by destruct (Hno x Hx).
Qed.

(** Rolling the day: the entry's spend is the day's total of the ledger. *)
Lemma roll_refines p d env u en sp g :
  refines p d sp g -> _user_budgets g !! u = Some en -> d <= today env ->
  refines p (today env) sp (store u (rolled (today env) en) g) /\
  day (rolled (today env) en) = today env /\
  spent (rolled (today env) en) = day_total u (today env) (ledger sp) /\ daily_usd (rolled (today env) en) = daily_usd en.
Proof.
  intros H Hu Hd. pose proof H as (Hp&Hc&He&Hl). destruct (He _ _ Hu) as (Hsp&Hday&Hx).
  assert (Hok : entry_ok (ledger sp) (today env) u (rolled (today env) en) /\ day (rolled (today env) en) = today env).
  { unfold rolled. case_decide as Hne; simpl.
    - split; [|done]. split_and!; simpl; [|lia|].
      + symmetry. apply day_total_none. intros x Hin Heq. specialize (Hx x Hin Heq). lia.
      + intros x Hin Heq. specialize (Hx x Hin Heq). lia.
    - split; [|done]. split_and!; auto; lia. }
  destruct Hok as [Hok Hday']. split_and!; [|done| |].
  - pose proof (refines_store p (today env) sp g u (rolled (today env) en) (caps sp)
      (ledger_refines_later _ _ _ _ _ Hd H) Hok) as Hs. destruct sp as [m l]. apply Hs. simpl.
    symmetry. apply insert_id. simpl in Hc. rewrite (Hc u), Hu. unfold rolled. by case_decide.
  - destruct Hok as [-> _]. by rewrite Hday'.
  - unfold rolled. by case_decide.
Qed.

(** Evicting drops the entry and the user's part of the ledger. *)
Lemma ledger_evict_refines p d u sp g : refines p d sp g ->
  refines p d {| caps := delete u (caps sp); ledger := filter (fun x => x.1.1 <> u) (ledger sp) |}
    (with_budgets (delete u (_user_budgets g)) g).
Proof.
  intros (Hp&Hc&He&Hl). split_and!; simpl; [done| | |].
  - intros v. rewrite !lookup_delete. case_decide; [done|]. apply Hc.
  - intros v en [Hv Hin]%lookup_delete_Some. destruct (He _ _ Hin) as (Hs&?&Hx). split_and!; [|done|].
    + by rewrite day_total_evict.
    + intros x [_ Hxl]%list_elem_of_filter. by apply Hx.
  - intros x [Hv Hx]%list_elem_of_filter. rewrite lookup_delete_ne by congruence. by apply Hl.
Qed.
(** An accepted charge goes to the entry and to the ledger. *)
Lemma charge_refines p d u c sp g en :
  refines p d sp g -> _user_budgets g !! u = Some en -> day en = d ->
  refines p d {| caps := caps sp; ledger := ledger sp ++ [(u, d, c)] |} (store u (add_spent c en) g).
Proof.
  intros (Hp&Hc&He&Hl) Hu Hday. split_and!; simpl; [done| | |].
  - intros v. destruct (decide (v = u)) as [->|Hv]; [by rewrite lookup_insert_eq, Hc, Hu|].
    rewrite lookup_insert_ne by done. apply Hc.
  - intros v en'. destruct (decide (v = u)) as [->|Hv].
    + rewrite lookup_insert_eq. intros [= <-]. destruct (He _ _ Hu) as (Hs&?&Hx). split_and!; simpl; [|done|].
      * by rewrite day_total_snoc, decide_True, Hs by congruence.
      * intros x [Hin| ->%list_elem_of_singleton]%elem_of_app ?; [auto|]. simpl. lia.
    + rewrite lookup_insert_ne by done. intros Hin. destruct (He _ _ Hin) as (Hs&?&Hx). split_and!; [|done|].
      * by rewrite day_total_snoc, decide_False by congruence.
      * intros x [?| ->%list_elem_of_singleton]%elem_of_app Heq; [auto|]. simpl in Heq. congruence.
  - intros x [Hin| ->%list_elem_of_singleton]%elem_of_app; simpl; [|by rewrite lookup_insert_eq; eauto].
    destruct (decide (x.1.1 = u)) as [->|Hv]; [by rewrite lookup_insert_eq; eauto|].
    rewrite lookup_insert_ne by done. by apply Hl.
Qed.

Definition days_from (d : Z) (ds : list Z) : Prop := StronglySorted Z.le (d :: ds).

(** Each operation, at dates not before [d]. *)
Lemma ledger_step_refines p d o sp g : refines p d sp g -> days_from d (op_days o) ->
  (step o g).1 = (spec_step p o sp).1 /\ refines p (List.last (op_days o) d) (spec_step p o sp).2 (step o g).2.
Proof.
  intros H Hds.
  assert (Henv : forall env, op_days o = [created_on env; today env] -> d <= created_on env /\ created_on env <= today env).
  { intros env Heq. rewrite Heq in Hds. apply StronglySorted_inv in Hds as [Hds H1]. apply StronglySorted_inv in Hds as [_ H2].
    apply Forall_cons in H1 as [? _]. apply Forall_cons in H2 as [? _]. done. }
  destruct o as [env u cost|env u cost|env u|env u|u]; simpl;
    [destruct (Henv env eq_refl) as [H1 H2]..|split; [done|by apply ledger_evict_refines]].
  all: try (unfold check_and_charge, would_exceed, _validate_cost, spec_cost, bind, raise, ret;
    destruct (isfinite cost) as [c|]; [destruct (Qltb c 0)|]; try (split; [done|]; eapply ledger_refines_later; [|exact H]; lia)).
  all: unfold estimate_for, spent_today, bind; pose proof (load_refines p d env u sp g H H1) as Hload;
    destruct (_load_or_get_user env u g) as [[en|err] g'], (spec_cap env u sp) as [[cap|err'] sp']; try done;
    [destruct Hload as (Hcap&Hu&Hledger&H')|destruct Hload as (->&->&->); split; [done|]; eapply ledger_refines_later; [|exact H]; lia].
  all: pose proof (proj1 H') as Hp; pose proof (ledger_refines_later _ _ (today env) _ _ H2 H') as Hlater;
    destruct (roll_refines p _ env u en sp' g' H' Hu H2) as (Hr&Hday&Hspent&Hcap').
  - unfold get, verdict. rewrite Hp. destruct (Qltb p c); [done|].
    unfold _roll_day_if_needed, raise, modify. rewrite Hcap', Hspent, Hcap.
    destruct (Qltb cap _); [done|]. split; [done|]. simpl.
    apply (charge_refines p (today env)); [done|simpl; apply lookup_insert_eq|done].
  - unfold get, verdict. rewrite Hp. destruct (Qltb p c); [done|].
    unfold _roll_day_if_needed. rewrite Hcap', Hspent, Hcap. by destruct (Qltb cap _).
  - unfold get, ret. rewrite Hp. done.
  - unfold _roll_day_if_needed, ret. rewrite Hspent. done.
Qed.

Lemma ledger_run_refines p ops : forall d sp g, refines p d sp g -> days_from d (ops ≫= op_days) ->
  (run ops g).1 = (spec_run p ops sp).1.
Proof.
  induction ops as [|o ops IH]; intros d sp g H Hds; simpl; [done|].
  assert (Hsplit : days_from d (op_days o) /\ days_from (List.last (op_days o) d) (ops ≫= op_days)).
  { unfold days_from in *. csimpl in Hds. destruct o as [env ? ?|env ? ?|env ?|env ?|?]; simpl in *; split; try done;
      repeat (apply StronglySorted_inv in Hds as [Hds ?]); repeat match goal with H : Forall _ (_ :: _) |- _ => apply Forall_cons in H as [??] end;
      repeat constructor; done. }
  destruct Hsplit as [H1 H2]. destruct (ledger_step_refines p d o sp g H H1) as [Hr Hs]. specialize (IH _ _ _ Hs H2).
  destruct (step o g) as [r g'], (spec_step p o sp) as [r' sp']. simpl in *.
  destruct (run ops g') as [rs g''], (spec_run p ops sp') as [rs' sp'']. simpl in *. congruence.
Qed.

(** Over any calls at dates that do not go back, the guard's totals-with-rollover are a
    ledger: every answer and every error (with the spend and cap it carries) is that of the
    specification, so a charge is accepted exactly when it is valid, within the per-call cap,
    and the sum of the user's accepted charges of that UTC day with it is within the cap last
    read for that user; cap refreshes keep the spend, only an eviction forgets it. *)
Theorem budget_guard_refines_ledger per_call g p ops :
  init per_call = Ok g -> p = _per_call_max_usd g -> StronglySorted Z.le (ops ≫= op_days) ->
  (run ops g).1 = (spec_run p ops spec_init).1.
Proof.
  intros Hi -> Hds. set (d := default 0 (head (ops ≫= op_days))). apply (ledger_run_refines _ _ d).
  - unfold init in Hi. destruct (isfinite per_call) as [q|]; [destruct (Qltb q 0)|]; simplify_eq.
    split_and!; simpl; [done|by intros|by intros|by intros ? ?%elem_of_nil].
  - unfold days_from, d. destruct (ops ≫= op_days) as [|t l]; [repeat constructor|].
    constructor; [done|]. apply StronglySorted_inv in Hds as [_ Hall]. constructor; [simpl; lia|done].
Qed.
Lemma budget_guard_refines_ledger_witness :
  let env v cap d := {| user_loader := fun u => if decide (u = "alice") then Row (Finite cap) else NoUser;
                        current_version := v; created_on := d; today := d |} in
  let g := {| _per_call_max_usd := 2; _user_budgets := ∅ |} in
  let ops := [Charge (env 0 3%Q 1) "alice" (Finite 2); WouldExceed (env 0 3%Q 1) "alice" (Finite 2);
              Charge (env 1 5%Q 1) "alice" (Finite 2); Charge (env 1 5%Q 1) "mallory" NaN;
              Charge (env 1 5%Q 1) "mallory" (Finite 9); Charge (env 1 5%Q 1) "alice" (Finite 2);
              Charge (env 1 5%Q 2) "alice" (Finite 2); SpentToday (env 1 5%Q 2) "alice"; Evict "alice";
              SpentToday (env 1 5%Q 2) "alice"] in
  (run ops g).1 = [Ok ONone; Ok (OBool true); Ok ONone; Err ValueError; Err (UnknownBudgetUserError "mallory");
                   Err (BudgetExceededError 4 5); Ok ONone; Ok (OUsd 2); Ok ONone; Ok (OUsd 0)] /\
  (run ops g).1 = (spec_run 2 ops spec_init).1.
Proof.
  intros env g ops. split; [vm_compute; reflexivity|].
  apply (budget_guard_refines_ledger (Finite 2) g 2 ops); [reflexivity|reflexivity|].
  unfold ops. simpl. repeat (constructor; [|repeat constructor; discriminate]). constructor.
Defined.

Lemma load_cached env u g en g' : _load_or_get_user env u g = (Ok en, g') ->
  _user_budgets g' !! u = Some en /\ current_version env <= daily_usd_version en /\
  _per_call_max_usd g' = _per_call_max_usd g /\ forall v, v <> u -> _user_budgets g' !! v = _user_budgets g !! v.
Proof.
  unfold _load_or_get_user. destruct (_user_budgets g !! u) as [e0|] eqn:Hu.
  - destruct (Z.leb_spec (current_version env) (daily_usd_version e0)); [by intros [= <- <-]|].
    destruct (loaded_cap u _); intros [= <- <-]; split_and!; simpl; [apply lookup_insert_eq|lia|done|].
    intros. by rewrite lookup_insert_ne.
  - destruct (loaded_cap u _); intros [= <- <-]; split_and!; simpl; [apply lookup_insert_eq|lia|done|].
    intros. by rewrite lookup_insert_ne.
Qed.
Lemma load_again env u g en : _user_budgets g !! u = Some en -> current_version env <= daily_usd_version en ->
  _load_or_get_user env u g = (Ok en, g).
Proof. intros Hu Hv. unfold _load_or_get_user. rewrite Hu. by destruct (Z.leb_spec (current_version env) (daily_usd_version en)); [|lia]. Qed.
Lemma rolled_idemp t en : rolled t (rolled t en) = rolled t en.
Proof. unfold rolled at 2 3. case_decide; unfold rolled; by case_decide. Qed.

(** The pre-flight tells the truth: read in the same world, [would_exceed] raises exactly
    what the charge raises when it raises an input error, and otherwise says false exactly
    when the charge is accepted; asking first does not change the charge's outcome; and
    neither call touches another user's entry. *)
Theorem preflight_agrees_with_charge env u cost g :
  let '(r, g1) := would_exceed env u cost g in
  (check_and_charge env u cost g1).1 = (check_and_charge env u cost g).1 /\
  match r with
  | Err err => (check_and_charge env u cost g).1 = Err err
  | Ok b => (check_and_charge env u cost g).1 = Ok tt <-> b = false
  end /\
  forall v, v <> u -> _user_budgets g1 !! v = _user_budgets g !! v /\
                      _user_budgets (check_and_charge env u cost g).2 !! v = _user_budgets g !! v.
Proof.
  unfold would_exceed, check_and_charge, _validate_cost, bind, raise, ret.
  destruct (isfinite cost) as [c|]; [destruct (Qltb c 0)|]; try done.
  destruct (_load_or_get_user env u g) as [[en|err] g'] eqn:Hload.
  - apply load_cached in Hload as (Hu&Hv&Hp&Ho). unfold get, _roll_day_if_needed, modify.
    destruct (Qltb (_per_call_max_usd g') c) eqn:Hpc.
    + rewrite (load_again env u g' en), Hpc by done. split_and!; [done|done|]. auto.
    + simpl. rewrite (load_again env u _ (rolled (today env) en)); simpl.
      * rewrite Hpc, rolled_idemp. destruct (Qltb (daily_usd _) _); simpl; split_and!; try done;
          intros; rewrite ?lookup_insert_ne; auto.
      * apply lookup_insert_eq.
      * unfold rolled. by case_decide.
  - assert (g' = g) as ->.
    { unfold _load_or_get_user in Hload. destruct (_user_budgets g !! u) as [e0|]; [destruct (_ <=? _); [done|]|];
        destruct (loaded_cap u _); simplify_eq; done. }
    rewrite Hload. split_and!; done.
Qed.
