(* ===== verification/UserRateLimiter.v ===== *)
(** * The per-user rate limiter

    [InProcessTokenBucketRateLimiter] of [identity/rate_limit.py].  The critical section of
    [allow] awaits nothing, so calls interleave only as a sequence of whole calls; the lock
    registry matters because [reset] consults it.  Times are seconds. *)
From S2P Require Import Prelude TokenBucket.

(** ** Data *)
Inductive Authorization := READ_ONLY | STANDARD | TRUSTED | OPERATOR.
#[export] Instance Authorization_eq_dec : EqDecision Authorization.
Proof. solve_decision. Defined.
(** [Authorization(x)] on a column value. *)
Definition to_Authorization (x : string) : option Authorization :=
  if decide (x = "read_only"%string) then Some READ_ONLY else if decide (x = "standard"%string) then Some STANDARD
  else if decide (x = "trusted"%string) then Some TRUSTED else if decide (x = "operator"%string) then Some OPERATOR else None.

Record User := {
  slug : string; authorization : string; deleted_at : option Q; rate_limit_per_min : option Z }.

Definition AUTH_DEFAULT_PER_MIN (a : Authorization) : option Z :=
  match a with READ_ONLY => Some 0 | STANDARD => Some 30 | TRUSTED => Some 60 | OPERATOR => None end.

Record _Bucket := { capacity : Z; tokens : Q; last_refill : Q }.
Definition new_bucket (cap : Z) (now : Q) : _Bucket :=
  {| capacity := cap; tokens := inject_Z cap; last_refill := now |}.
Definition refilled (now : Q) (b : _Bucket) : _Bucket :=
  let elapsed := (now - last_refill b)%Q in
  if Qltb 0 elapsed then
    {| capacity := capacity b;
       tokens := py_min (inject_Z (capacity b)) (tokens b + elapsed * (inject_Z (capacity b) / 60));
       last_refill := now |}
  else b.
Definition take_one (now : Q) (b : _Bucket) : bool * _Bucket :=
  let b := refilled now b in
  if Qle_bool 1 (tokens b)
  then (true, {| capacity := capacity b; tokens := tokens b - 1; last_refill := last_refill b |})
  else (false, b).

Inductive LimiterError := ValueError.
Record Limiter := {
  _buckets : gmap string _Bucket; _locks : gset string; _total_allowed : Z; _total_refused : Z }.
Definition init : Limiter := {| _buckets := ∅; _locks := ∅; _total_allowed := 0; _total_refused := 0 |}.

(** ** Operations *)
Definition count (allowed : bool) (l : Limiter) : Limiter :=
  {| _buckets := _buckets l; _locks := _locks l;
     _total_allowed := if allowed then _total_allowed l + 1 else _total_allowed l;
     _total_refused := if allowed then _total_refused l else _total_refused l + 1 |}.
Definition answer (allowed : bool) : M Limiter LimiterError bool := fun l => (Ok allowed, count allowed l).
Definition set_bucket (s : string) (b : _Bucket) (l : Limiter) : Limiter :=
  {| _buckets := <[s := b]> (_buckets l); _locks := _locks l;
     _total_allowed := _total_allowed l; _total_refused := _total_refused l |}.
Definition _get_lock (s : string) (l : Limiter) : Limiter :=
  {| _buckets := _buckets l; _locks := {[s]} ∪ _locks l;
     _total_allowed := _total_allowed l; _total_refused := _total_refused l |}.

(** The section under the user's lock. *)
Definition bucket_for (cap : Z) (now : Q) (ob : option _Bucket) : _Bucket :=
  match ob with
  | Some b => if decide (capacity b <> cap) then new_bucket cap now else b
  | None => new_bucket cap now
  end.
Definition metered (s : string) (per_min : Z) (now : Q) : M Limiter LimiterError bool := fun l =>
  let '(allowed, b) := take_one now (bucket_for per_min now (_buckets l !! s)) in
  answer allowed (set_bucket s b l).

Definition allow (user : User) (now : Q) : M Limiter LimiterError bool :=
  match to_Authorization (authorization user) with
  | None => raise ValueError
  | Some auth =>
      if decide (auth = READ_ONLY) then answer false
      else if decide (deleted_at user <> None) then answer false
      else if decide (auth = OPERATOR) then answer true
      else
        let per_min := match rate_limit_per_min user with Some n => Some n | None => AUTH_DEFAULT_PER_MIN auth end in
        match per_min with
        | None => answer true
        | Some per_min =>
            if per_min <=? 0 then answer false
            else modify (_get_lock (slug user)) ;;; metered (slug user) per_min now
        end
  end.

Definition reset (user_id : string) : M Limiter LimiterError unit := fun l =>
  if decide (user_id ∈ _locks l)
  then (Ok tt, {| _buckets := delete user_id (_buckets l); _locks := _locks l;
                  _total_allowed := _total_allowed l; _total_refused := _total_refused l |})
  else (Ok tt, l).

Record RateLimiterHealth := {
  active_user_count : Z; total_refusals_since_start : Z; total_allowed_since_start : Z }.
Definition health (l : Limiter) : RateLimiterHealth :=
  {| active_user_count := Z.of_nat (size (_buckets l)); total_refusals_since_start := _total_refused l;
     total_allowed_since_start := _total_allowed l |}.

(** ** The bucket meters *)
Definition wf (b : _Bucket) : Prop := 0 < capacity b /\ (0 <= tokens b <= inject_Z (capacity b))%Q.
#[export] Instance bucket_TokenBucket : TokenBucket _Bucket Q := {
  tb_step := fun now b => let '(ok, b') := take_one now b in (if ok then 1 else 0, b');
  tb_tokens := tokens; tb_clock := last_refill;
  tb_rate := fun b => (inject_Z (capacity b) / 60)%Q;
  tb_capacity := fun b => inject_Z (capacity b); tb_wf := wf }.

Lemma rate_nonneg b : wf b -> (0 <= inject_Z (capacity b) / 60)%Q.
Proof.
  intros [H _]. apply Qle_shift_div_l; [reflexivity|]. rewrite Zlt_Qlt in H. qlra.
Qed.
Lemma refilled_ok now b : wf b ->
  wf (refilled now b) /\ capacity (refilled now b) = capacity b /\ (last_refill b <= last_refill (refilled now b))%Q /\
  (tokens (refilled now b) <= tokens b + inject_Z (capacity b) / 60 * (last_refill (refilled now b) - last_refill b))%Q.
Proof.
  intros Hwf. pose proof (rate_nonneg b Hwf) as Hr. destruct Hwf as [Hc Ht]. unfold refilled, wf.
  destruct (Qltb_spec 0 (now - last_refill b)) as [Hl|Hl]; simpl.
  - set (r := (inject_Z (capacity b) / 60)%Q) in *.
    assert (0 <= (now - last_refill b) * r)%Q by (apply Qmult_le_0_compat; lra).
    split_and!; try done; [|apply py_min_le_l|lra|].
    + apply py_min_glb; lra.
    + pose proof (py_min_le_r (inject_Z (capacity b)) (tokens b + (now - last_refill b) * r)). lra.
  - split_and!; try done; try lra; apply Ht.
Qed.
#[export] Instance bucket_TokenBucketLaws : TokenBucketLaws _Bucket Q.
Proof.
  split; [intros b Hwf; split; [apply Hwf|by apply rate_nonneg]|].
  intros now b Hwf. cbn. unfold take_one. pose proof (refilled_ok now b Hwf) as (Hw&Hc&Hl&Ht).
  destruct (Qleb_spec 1 (tokens (refilled now b))) as [H1|H1]; cbn; rewrite ?Hc; split_and!; try done; try qlra.
  unfold wf in Hw. rewrite Hc in Hw. destruct Hw as [? ?]. split; cbn; [done|]. lra.
Qed.

(** ** Call sequences *)
Inductive op := Allow (user : User) (now : Q) | Reset_ (user_id : string).
Definition step (o : op) (l : Limiter) : option bool * Limiter :=
  match o with
  | Allow user now => match allow user now l with (Ok b, l') => (Some b, l') | (Err _, l') => (None, l') end
  | Reset_ s => (None, (reset s l).2)
  end.
Fixpoint run (ops : list op) (l : Limiter) : list (option bool) * Limiter :=
  match ops with
  | [] => ([], l)
  | o :: ops' => let '(r, l') := step o l in let '(rs, l'') := run ops' l' in (r :: rs, l'')
  end.

(** What the policy says of a user row before any bucket is looked at. *)
Inductive policy := Invalid | Always (b : bool) | Metered (per_min : Z).
Definition plan (user : User) : policy :=
  match to_Authorization (authorization user), deleted_at user with
  | None, _ => Invalid
  | Some READ_ONLY, _ | Some _, Some _ => Always false
  | Some OPERATOR, None => Always true
  | Some auth, None =>
      let n := default (default 0 (AUTH_DEFAULT_PER_MIN auth)) (rate_limit_per_min user) in
      if n <=? 0 then Always false else Metered n
  end.

Lemma allow_plan user now l : allow user now l =
  match plan user with
  | Invalid => (Err ValueError, l)
  | Always b => answer b l
  | Metered n => metered (slug user) n now (_get_lock (slug user) l)
  end.
Proof.
  unfold allow, plan. destruct (to_Authorization (authorization user)) as [[]|]; simpl; try done;
    destruct (deleted_at user); simpl; try done; destruct (rate_limit_per_min user) as [n|]; simpl; try done;
    by destruct (n <=? 0).
Qed.

(** The clock readings and the grants of one user in a sequence of calls. *)
Definition calls_of (s : string) (o : op) : list Q :=
  match o with Allow u now => if decide (slug u = s) then [now] else [] | Reset_ _ => [] end.
Definition grants_of (s : string) (ops : list op) (rs : list (option bool)) : Z :=
  Zsum (fun x => match x with (Allow u _, Some true) => if decide (slug u = s) then 1 else 0 | _ => 0 end) (zip ops rs).
(** The user's row always carries the same per-minute allowance, and nobody resets it. *)
Definition steady (s : string) (n : Z) (o : op) : Prop :=
  match o with Allow u _ => slug u = s -> plan u = Metered n | Reset_ s' => s' <> s end.

Lemma metered_lookup s n now l s' :
  _buckets (metered s n now l).2 !! s' =
    if decide (s = s') then Some (take_one now (bucket_for n now (_buckets l !! s))).2 else _buckets l !! s'.
Proof.
  unfold metered. destruct (take_one now _) as [b' bk]. simpl. case_decide as Heq; [subst; apply lookup_insert_eq|].
  by apply lookup_insert_ne.
Qed.
Lemma take_one_capacity now b : capacity (take_one now b).2 = capacity b.
Proof.
  unfold take_one, refilled. destruct (Qltb 0 (now - last_refill b)); simpl;
    match goal with |- context [Qle_bool 1 ?t] => by destruct (Qle_bool 1 t) end.
Qed.

(** One user's steady calls are the steps of his bucket. *)
Lemma run_bucket s n ops : Forall (steady s n) ops -> forall l b,
  _buckets l !! s = Some b -> capacity b = n ->
  _buckets (run ops l).2 !! s = Some (tb_run (ops ≫= calls_of s) b).2 /\
  grants_of s ops (run ops l).1 = (tb_run (ops ≫= calls_of s) b).1.
Proof.
  induction 1 as [|o ops Ho Hops IH]; intros l b Hb Hcap; [done|].
  destruct (run (o :: ops) l) as [rs l''] eqn:Hrun. simpl in Hrun. destruct (step o l) as [r l'] eqn:Hst.
  assert (Hother : _buckets l' !! s = Some b -> calls_of s o = [] ->
    (forall u now, o = Allow u now -> slug u <> s) ->
    _buckets l'' !! s = Some (tb_run ((o :: ops) ≫= calls_of s) b).2 /\
    grants_of s (o :: ops) rs = (tb_run ((o :: ops) ≫= calls_of s) b).1).
  { intros Hb' Hc Hno. csimpl. rewrite Hc. simpl. specialize (IH l' b Hb' Hcap).
    destruct (run ops l') as [rs' l3]. simplify_eq. destruct IH as [? <-]. split; [done|].
    unfold grants_of. simpl. rewrite Zsum_cons. destruct o as [u now|]; [|lia].
    destruct r as [[]|]; rewrite ?decide_False by eauto; lia. }
  destruct o as [u now|s']; simpl in Hst.
  - destruct (decide (slug u = s)) as [Hu|Hu].
    + clear Hother. simpl in Ho. rewrite allow_plan, (Ho Hu), Hu in Hst.
      pose proof (metered_lookup s n now (_get_lock s l) s) as Hl. rewrite decide_True in Hl by done.
      simpl in Hl. rewrite Hb in Hl. assert (Hbf : bucket_for n now (Some b) = b) by (simpl; by rewrite decide_False by tauto).
      rewrite Hbf in Hl. unfold metered in Hst, Hl. simpl in Hst, Hl. rewrite Hb, Hbf in Hst, Hl.
      pose proof (take_one_capacity now b) as Hcap'. destruct (take_one now b) as [ok b'] eqn:Htake. simpl in *. simplify_eq.
      specialize (IH (count ok (set_bucket (slug u) b' (_get_lock (slug u) l))) b' Hl Hcap'). destruct (run ops _) as [rs' l3]. simplify_eq. csimpl. rewrite decide_True by done.
      simpl. rewrite Htake. change (list_bind op Q (calls_of (slug u)) ops) with (ops ≫= calls_of (slug u)). destruct (tb_run (ops ≫= calls_of (slug u)) b') as [k bk]. simpl in IH. destruct IH as [IH1 IH2]. split; [done|].
      unfold grants_of in *. simpl. rewrite Zsum_cons, IH2. destruct ok; rewrite ?decide_True by done; done.
    + apply Hother; [|by simpl; rewrite decide_False|by intros ? ? [= <- _]].
      rewrite allow_plan in Hst. destruct (plan u) as [|b0|n0].
      * by injection Hst as <- <-.
      * by injection Hst as <- <-.
      * pose proof (metered_lookup (slug u) n0 now (_get_lock (slug u) l) s) as Hl. rewrite decide_False in Hl by done.
        destruct (metered _ _ _ _) as [[|] l1]; simplify_eq; simpl in *; by rewrite Hl.
  - apply Hother; [|done|done]. simplify_eq. unfold reset. case_decide; simpl; [|done].
    simpl in Ho. by rewrite lookup_delete_ne.
Qed.

#[local] Arguments bucket_for : simpl never.
#[local] Arguments take_one : simpl never.

(** Every bucket is well-formed and was last refilled at some call of its user. *)
Definition buckets_ok (s : string) (d : Q) (l : Limiter) : Prop :=
  forall b, _buckets l !! s = Some b -> wf b /\ (last_refill b <= d)%Q.
Lemma take_one_ok now b d : wf b -> (last_refill b <= d)%Q -> (now <= d)%Q ->
  wf (take_one now b).2 /\ (last_refill (take_one now b).2 <= d)%Q.
Proof.
  intros Hwf Hl Hn. pose proof (tb_step_ok now b Hwf) as (Hw&_). cbn in Hw.
  assert (Hr : (last_refill (take_one now b).2 <= d)%Q).
  { unfold take_one, refilled. destruct (Qltb 0 (now - last_refill b)); simpl;
      match goal with |- context [Qle_bool 1 ?t] => by destruct (Qle_bool 1 t) end. }
  by destruct (take_one now b).
Qed.
Lemma new_bucket_wf n now : 0 < n -> wf (new_bucket n now).
Proof. intros H. split; [done|]. simpl. rewrite Zlt_Qlt in H. qlra. Qed.
Lemma plan_metered_pos u n : plan u = Metered n -> 0 < n.
Proof.
  unfold plan. destruct (to_Authorization (authorization u)) as [[]|], (deleted_at u); try done;
    destruct (rate_limit_per_min u) as [k|]; simpl; try (destruct (Z.leb_spec k 0); intros; simplify_eq; lia); intros; simplify_eq; lia.
Qed.
Lemma bucket_for_ok s n now l d : 0 < n -> buckets_ok s d l -> (now <= d)%Q ->
  wf (bucket_for n now (_buckets l !! s)) /\ capacity (bucket_for n now (_buckets l !! s)) = n /\
  (last_refill (bucket_for n now (_buckets l !! s)) <= d)%Q.
Proof.
  intros Hn H Hd. unfold bucket_for. destruct (_buckets l !! s) as [b|] eqn:Hb.
  - destruct (H b Hb). case_decide; [|by split_and!]. split_and!; [by apply new_bucket_wf|done|done].
  - split_and!; [by apply new_bucket_wf|done|done].
Qed.
Lemma step_buckets_ok s d o l : Forall (fun t => (t <= d)%Q) (calls_of s o) -> buckets_ok s d l -> buckets_ok s d (step o l).2.
Proof.
  intros Ht H. destruct o as [u now|s']; simpl in *.
  - rewrite allow_plan. destruct (plan u) as [|b0|n] eqn:Hp; [done|done|].
    pose proof (metered_lookup (slug u) n now (_get_lock (slug u) l) s) as Hl.
    destruct (metered _ _ _ _) as [[|] l1]; simpl in *; intros b; rewrite Hl; (destruct (decide (slug u = s)) as [<-|]; [|by apply H]);
      intros [= <-]; apply Forall_cons in Ht as [Ht _];
      destruct (bucket_for_ok (slug u) n now l d (plan_metered_pos _ _ Hp) H Ht) as (?&_&?); by apply take_one_ok.
  - unfold reset. case_decide; simpl; [|done]. intros b Hb. cbn [_buckets] in Hb. apply lookup_delete_Some in Hb as [_ Hb]. by apply H.
Qed.
Lemma run_buckets_ok s d ops : forall l, Forall (fun t => (t <= d)%Q) (ops ≫= calls_of s) -> buckets_ok s d l ->
  buckets_ok s d (run ops l).2.
Proof.
  induction ops as [|o ops IH]; intros l Ht H; simpl; [done|]. csimpl in Ht. apply Forall_app in Ht as [Ho Ht].
  pose proof (step_buckets_ok s d o l Ho H) as H'. destruct (step o l) as [r l']. specialize (IH l' Ht H').
  by destruct (run ops l').
Qed.
Lemma tb_run_clock d times : forall b, wf b -> (last_refill b <= d)%Q -> Forall (fun t => (t <= d)%Q) times ->
  (last_refill (tb_run times b).2 <= d)%Q.
Proof.
  induction times as [|t times IH]; intros b Hwf Hl Ht; [done|]. apply Forall_cons in Ht as [Ht Hts]. simpl.
  destruct (take_one_ok t b d Hwf Hl Ht) as [Hw Hl']. destruct (take_one t b) as [ok b']. simpl in *.
  specialize (IH b' Hw Hl' Hts). by destruct (tb_run times b').
Qed.

(** Taking from a bucket read no later than [now] leaves it dated [now] with at most the
    capacity, the token just taken included. *)
Lemma take_one_first now b : wf b -> (last_refill b <= now)%Q ->
  let '(ok, b') := take_one now b in
  (inject_Z (if ok then 1 else 0) + tokens b' <= inject_Z (capacity b))%Q /\ (last_refill b' == now)%Q.
Proof.
  intros Hwf Hl. pose proof (refilled_ok now b Hwf) as ((_&Ht)&Hc&_). rewrite Hc in Ht.
  assert (Hnow : (last_refill (refilled now b) == now)%Q).
  { unfold refilled. destruct (Qltb_spec 0 (now - last_refill b)); simpl; [reflexivity|lra]. }
  unfold take_one. destruct (Qle_bool 1 _); simpl; split; try done; qlra.
Qed.

(** Whatever calls were made before, from the first of a run of calls in which a user's
    allowance is [n] per minute and nobody resets him, read at [t0], to [t1], he is granted
    at most [n + n/60 * (t1 - t0)], however his calls interleave with other users' and
    whatever allowance he had earlier (clock readings before the run are not after [t0]). *)
Theorem user_rate_is_bounded s n u t0 pre ops t1 :
  slug u = s -> plan u = Metered n -> Forall (steady s n) ops ->
  Forall (fun t => (t <= t0)%Q) (pre ≫= calls_of s) -> (t0 <= t1)%Q -> Forall (fun t => (t <= t1)%Q) (ops ≫= calls_of s) ->
  let l := (run pre init).2 in
  (inject_Z (grants_of s (Allow u t0 :: ops) (run (Allow u t0 :: ops) l).1) <=
   inject_Z n + inject_Z n / 60 * (t1 - t0))%Q.
Proof.
  intros <- Hp Hst Hpre H01 Hts l. pose proof (plan_metered_pos _ _ Hp) as Hn.
  assert (Hbk : buckets_ok (slug u) t0 l) by (by apply run_buckets_ok).
  destruct (bucket_for_ok (slug u) n t0 l t0 Hn Hbk ltac:(lra)) as (Hw&Hc&Hl).
  pose proof (take_one_first t0 _ Hw Hl) as Hfirst. pose proof (take_one_ok t0 _ t0 Hw Hl ltac:(lra)) as [Hw' _].
  pose proof (take_one_capacity t0 (bucket_for n t0 (_buckets l !! slug u))) as Hc'.
  pose proof (metered_lookup (slug u) n t0 (_get_lock (slug u) l) (slug u)) as Hlook. rewrite decide_True in Hlook by done.
  simpl. rewrite allow_plan, Hp. unfold metered in *. simpl in Hlook |- *.
  destruct (take_one t0 _) as [ok b'] eqn:Htk. simpl in *.
  destruct (run_bucket (slug u) n ops Hst (count ok (set_bucket (slug u) b' (_get_lock (slug u) l))) b' Hlook ltac:(congruence)) as [_ Hg].
  destruct (run ops _) as [rs l3]. simpl in *. unfold grants_of in *. simpl. rewrite Zsum_cons, Hg. clear Hg.
  pose proof (tb_run_ok (ops ≫= calls_of (slug u)) b' Hw') as (_&_&_&_&Hbound).
  destruct Hfirst as [Hsum Hnow]. rewrite Hc in Hsum, Hc'.
  pose proof (tb_run_clock t1 (ops ≫= calls_of (slug u)) b' Hw' ltac:(lra) Hts) as Hend.
  pose proof (tb_run_ok (ops ≫= calls_of (slug u)) b' Hw') as (Hwf&_). destruct Hwf as [_ [Hge _]].
  pose proof (rate_nonneg b' Hw') as Hrate. cbn in Hbound. rewrite Hc' in Hbound, Hrate.
  destruct (tb_run _ b') as [k bk]. simpl in *. rewrite inject_Z_plus.
  assert (inject_Z n / 60 * (last_refill bk - last_refill b') <= inject_Z n / 60 * (t1 - t0))%Q.
  { rewrite !(Qmult_comm (inject_Z n / 60)). apply Qmult_le_compat_r; [|done]. lra. }
  rewrite (decide_True (P := slug u = slug u)) by done. destruct ok; lra.
Qed.
Lemma user_rate_is_bounded_witness :
  let u := {| slug := "amy"; authorization := "standard"; deleted_at := None; rate_limit_per_min := Some 2 |} in
  let v := {| slug := "bob"; authorization := "operator"; deleted_at := None; rate_limit_per_min := None |} in
  let pre := [Allow {| slug := "amy"; authorization := "trusted"; deleted_at := None; rate_limit_per_min := None |} 0] in
  let ops := [Allow u 1; Allow v 2; Reset_ "bob"; Allow u 3; Allow u 40] in
  let l := (run pre init).2 in
  grants_of "amy" (Allow u 0 :: ops) (run (Allow u 0 :: ops) l).1 = 3 /\
  (inject_Z (grants_of "amy" (Allow u 0 :: ops) (run (Allow u 0 :: ops) l).1) <= inject_Z 2 + inject_Z 2 / 60 * (40 - 0))%Q.
Proof.
  intros u v pre ops l. split; [vm_compute; reflexivity|].
  apply (user_rate_is_bounded "amy" 2 u 0 pre ops 40); [reflexivity|reflexivity| | |discriminate|].
  - repeat constructor; try discriminate; intros; vm_compute in *; congruence.
  - vm_compute. repeat constructor; discriminate.
  - vm_compute. repeat constructor; discriminate.
Defined.

(** Whether a row may pass at all. *)
Definition may_pass (u : User) : Prop :=
  match to_Authorization (authorization u) with
  | Some auth => auth <> READ_ONLY /\ deleted_at u = None /\
                 (auth <> OPERATOR -> forall n, rate_limit_per_min u = Some n -> 0 < n)
  | None => False
  end.
Lemma plan_passes u : plan u <> Invalid -> plan u <> Always false -> may_pass u.
Proof.
  unfold plan, may_pass. destruct (to_Authorization (authorization u)) as [[]|], (deleted_at u); try done; intros _ Hn;
    split_and!; try done; intros _ n Hr; rewrite Hr in Hn; simpl in Hn; destruct (Z.leb_spec n 0); [done|lia|done|lia].
Qed.
Definition answered (r : option bool) : Z := match r with Some _ => 1 | None => 0 end.
Definition passed (r : option bool) : Z := match r with Some true => 1 | _ => 0 end.

(** A call and its answer: a [True] went to a row that may pass. *)
Definition eligible (x : op * option bool) : Prop :=
  match x with (Allow u _, Some true) => may_pass u | _ => True end.

Lemma step_answer o l :
  eligible (o, (step o l).1) /\
  _total_allowed (step o l).2 = _total_allowed l + passed (step o l).1 /\
  _total_allowed (step o l).2 + _total_refused (step o l).2 = _total_allowed l + _total_refused l + answered (step o l).1.
Proof.
  destruct o as [u now|s]; simpl.
  - rewrite allow_plan. pose proof (plan_passes u) as Hp. destruct (plan u) as [|b|n]; simpl.
    + lia.
    + destruct b; simpl; split_and!; try lia; auto.
    + unfold metered. destruct (take_one _ _) as [ok b]. destruct ok; simpl; split_and!; try lia; auto.
  - unfold reset. case_decide; simpl; lia.
Qed.

(** Nobody is let through who must not be: over any calls from any state, every [True]
    went to a row with a known authorization that is neither read-only (whatever its override)
    nor soft-deleted, and whose override, below operator, is not zero or negative; and the
    lifetime counters are the numbers of [True] and of [False] answers. *)
Theorem limiter_lets_only_eligible_users_pass ops l :
  Forall eligible (zip ops (run ops l).1) /\
  total_allowed_since_start (health (run ops l).2) = total_allowed_since_start (health l) + Zsum passed (run ops l).1 /\
  total_allowed_since_start (health (run ops l).2) + total_refusals_since_start (health (run ops l).2) =
    total_allowed_since_start (health l) + total_refusals_since_start (health l) + Zsum answered (run ops l).1.
Proof.
  revert l. induction ops as [|o ops IH]; intros l.
  { simpl. split_and!; [constructor| |]; change (Zsum _ []) with 0; lia. }
  pose proof (step_answer o l) as (Ho&Hn&Hs). cbn [run]. destruct (step o l) as [r l']. cbn [fst snd] in Ho, Hn, Hs. specialize (IH l').
  destruct (run ops l') as [rs l'']. simpl in *. destruct IH as (IH1&IH2&IH3). rewrite !Zsum_cons. split_and!; [|lia|lia].
  by constructor.
Qed.
