(* ===== verification/OutboundQueue.v ===== *)
(** * The outbound dispatch queue

    [comms_mcp/outbound_queue.py]: one adapter's FIFO with its in-flight semaphore, its
    pause gate and the re-scan of messages held across a pause.  A step is what one task runs
    between two awaits; the wake-up rules of [asyncio.Semaphore], [Event] and [Queue] are
    written out (a woken waiter runs at a later step).  Task cancellation is not modelled. *)
From S2P Require Import Prelude.

Section queue.
Context {RequestT : Type} (max_in_flight : Z) (dlp_rescanner : option (RequestT -> Z)).

(** ** State *)
Record Semaphore := {
  _value : Z; sem_waiters : list RequestT; sem_woken : list RequestT }.
Record _AdapterState := {
  queue : list (Z * RequestT);          (* generation, request *)
  getters : list Z; getters_woken : list Z;         (* tasks parked in queue.get() *)
  is_set : bool;                                    (* resume_event *)
  gate_waiters : list Z; gate_woken : list Z;       (* tasks parked in resume_event.wait() *)
  cap : Semaphore;
  resume_deadline : option Q; timer : option Q;     (* the timer by the time it fires *)
  generation : Z; rescan_through_generation : Z }.

Definition init : _AdapterState :=
  {| queue := []; getters := []; getters_woken := []; is_set := true; gate_waiters := []; gate_woken := [];
     cap := {| _value := max_in_flight; sem_waiters := []; sem_woken := [] |};
     resume_deadline := None; timer := None; generation := 0; rescan_through_generation := -1 |}.

Definition with_cap (c : Semaphore) (s : _AdapterState) : _AdapterState :=
  {| queue := queue s; getters := getters s; getters_woken := getters_woken s; is_set := is_set s;
     gate_waiters := gate_waiters s; gate_woken := gate_woken s; cap := c;
     resume_deadline := resume_deadline s; timer := timer s; generation := generation s;
     rescan_through_generation := rescan_through_generation s |}.
Definition with_queue (q : list (Z * RequestT)) (g gw : list Z) (s : _AdapterState) : _AdapterState :=
  {| queue := q; getters := g; getters_woken := gw; is_set := is_set s;
     gate_waiters := gate_waiters s; gate_woken := gate_woken s; cap := cap s;
     resume_deadline := resume_deadline s; timer := timer s; generation := generation s;
     rescan_through_generation := rescan_through_generation s |}.
Definition with_gate (b : bool) (w woken : list Z) (s : _AdapterState) : _AdapterState :=
  {| queue := queue s; getters := getters s; getters_woken := getters_woken s; is_set := b;
     gate_waiters := w; gate_woken := woken; cap := cap s;
     resume_deadline := resume_deadline s; timer := timer s; generation := generation s;
     rescan_through_generation := rescan_through_generation s |}.
Definition with_pause (d t : option Q) (s : _AdapterState) : _AdapterState :=
  {| queue := queue s; getters := getters s; getters_woken := getters_woken s; is_set := is_set s;
     gate_waiters := gate_waiters s; gate_woken := gate_woken s; cap := cap s;
     resume_deadline := d; timer := t; generation := generation s;
     rescan_through_generation := rescan_through_generation s |}.
Definition with_generation (g r : Z) (s : _AdapterState) : _AdapterState :=
  {| queue := queue s; getters := getters s; getters_woken := getters_woken s; is_set := is_set s;
     gate_waiters := gate_waiters s; gate_woken := gate_woken s; cap := cap s;
     resume_deadline := resume_deadline s; timer := timer s; generation := g; rescan_through_generation := r |}.

(** ** [asyncio] *)
Definition locked (c : Semaphore) : bool :=
  match sem_waiters c, sem_woken c with [], [] => _value c =? 0 | _, _ => true end.
(** [_wake_up_next]: hand a slot to the first pending waiter. *)
Definition _wake_up_next (c : Semaphore) : Semaphore :=
  match sem_waiters c with
  | [] => c
  | w :: ws => {| _value := _value c - 1; sem_waiters := ws; sem_woken := sem_woken c ++ [w] |}
  end.
Definition release (c : Semaphore) : Semaphore :=
  _wake_up_next {| _value := _value c + 1; sem_waiters := sem_waiters c; sem_woken := sem_woken c |}.
(** A woken acquirer, on resuming, hands out what is left. *)
Fixpoint wake_rest (ws : list RequestT) (c : Semaphore) : Semaphore :=
  match ws with
  | [] => c
  | _ :: ws' => if 0 <? _value c then wake_rest ws' (_wake_up_next c) else c
  end.

(** What an observer sees: a message entered the queue, a pause ended, a message left it
    (re-scanned or not; refused or handed to the consumer). *)
Inductive obs :=
| Put (r : RequestT) | PauseEnded
| Got (r : RequestT) (rescanned refused : bool).

(** [queue.put]: the generation is read when the item is built; one parked getter is woken. *)
Definition put_now (r : RequestT) (s : _AdapterState) : list obs * _AdapterState :=
  let q := queue s ++ [(generation s, r)] in
  match getters s with
  | [] => ([Put r], with_queue q [] (getters_woken s) s)
  | g :: gs => ([Put r], with_queue q gs (getters_woken s ++ [g]) s)
  end.

(** ** [submit] *)
Definition submit (r : RequestT) (s : _AdapterState) : list obs * _AdapterState :=
  let c := cap s in
  if locked c
  then ([], with_cap {| _value := _value c; sem_waiters := sem_waiters c ++ [r]; sem_woken := sem_woken c |} s)
  else put_now r (with_cap {| _value := _value c - 1; sem_waiters := sem_waiters c; sem_woken := sem_woken c |} s).
(** A submitter woken with a slot resumes (the first, as the loop runs them). *)
Definition submit_resumed (s : _AdapterState) : list obs * _AdapterState :=
  let c := cap s in
  match sem_woken c with
  | [] => ([], s)
  | r :: rs => put_now r (with_cap (wake_rest (sem_waiters c)
      {| _value := _value c; sem_waiters := sem_waiters c; sem_woken := rs |}) s)
  end.

(** ** [consume] *)
Definition _rescan_or_refuse (r : RequestT) : bool :=
  match dlp_rescanner with None => false | Some scan => 0 <? scan r end.
Definition get_now (task : Z) (s : _AdapterState) : list obs * _AdapterState :=
  match queue s with
  | [] => ([], with_queue [] (getters s ++ [task]) (getters_woken s) s)
  | (gen, r) :: q =>
      let s := with_cap (release (cap s)) (with_queue q (getters s) (getters_woken s) s) in
      if gen <=? rescan_through_generation s then ([Got r true (_rescan_or_refuse r)], s)
      else ([Got r false false], s)
  end.
Definition consume (task : Z) (s : _AdapterState) : list obs * _AdapterState :=
  if is_set s then get_now task s
  else ([], with_gate false (gate_waiters s ++ [task]) (gate_woken s) s).
(** [Event.wait] returns to a woken waiter without looking at the flag again. *)
Definition consume_past_gate (s : _AdapterState) : list obs * _AdapterState :=
  match gate_woken s with
  | [] => ([], s)
  | task :: ts => get_now task (with_gate (is_set s) (gate_waiters s) ts s)
  end.
Definition consume_got (s : _AdapterState) : list obs * _AdapterState :=
  match getters_woken s with
  | [] => ([], s)
  | task :: ts => get_now task (with_queue (queue s) (getters s) ts s)
  end.

(** ** [pause] and [resume] *)
Definition pause (now retry_after_seconds : Q) (s : _AdapterState) : list obs * _AdapterState :=
  let new_deadline := (now + retry_after_seconds)%Q in
  let go := ([], with_pause (Some new_deadline) (Some new_deadline) (with_gate false (gate_waiters s) (gate_woken s) s)) in
  match resume_deadline s with
  | Some d => if Qle_bool new_deadline d then ([], s) else go
  | None => go
  end.
Definition _clear_pause (s : _AdapterState) : list obs * _AdapterState :=
  let was_paused := negb (is_set s) in
  let s := with_pause None None s in
  let s := with_gate true [] (gate_woken s ++ gate_waiters s) s in
  if was_paused then ([PauseEnded], with_generation (generation s + 1) (generation s) s) else ([], s).
Definition resume : _AdapterState -> list obs * _AdapterState := _clear_pause.
Definition _auto_resume (now : Q) (s : _AdapterState) : list obs * _AdapterState :=
  match timer s with
  | Some t => if Qle_bool t now then _clear_pause s else ([], s)
  | None => ([], s)
  end.

Inductive event :=
| Submit (r : RequestT) | SubmitResumed
| Consume (task : Z) | ConsumePastGate | ConsumeGot
| Pause (now retry_after_seconds : Q) | Resume | AutoResume (now : Q).
Definition step (ev : event) (s : _AdapterState) : list obs * _AdapterState :=
  match ev with
  | Submit r => submit r s
  | SubmitResumed => submit_resumed s
  | Consume task => consume task s
  | ConsumePastGate => consume_past_gate s
  | ConsumeGot => consume_got s
  | Pause now r => pause now r s
  | Resume => resume s
  | AutoResume now => _auto_resume now s
  end.
Fixpoint run (evs : list event) (s : _AdapterState) : list obs * _AdapterState :=
  match evs with
  | [] => ([], s)
  | ev :: evs' => let '(os, s') := step ev s in let '(os', s'') := run evs' s' in (os ++ os', s'')
  end.

(** ** Specification: a FIFO in which the end of a pause marks everything inside

    The queue holds plain messages with a mark; the end of a pause marks what is in it, and
    a message leaves in order, re-scanned exactly when marked and refused exactly when the
    re-scan finds something. *)
Fixpoint explained (os : list obs) (q : list (RequestT * bool)) : Prop :=
  match os with
  | [] => True
  | Put r :: os' => explained os' (q ++ [(r, false)])
  | PauseEnded :: os' => explained os' ((fun x => (x.1, true)) <$> q)
  | Got r rescanned refused :: os' =>
      match q with
      | [] => False
      | (r', marked) :: q' => r = r' /\ rescanned = marked /\ refused = marked && _rescan_or_refuse r /\ explained os' q'
      end
  end.

Definition marks (s : _AdapterState) : list (RequestT * bool) :=
  (fun x => (x.2, x.1 <=? rescan_through_generation s)) <$> queue s.
Definition generations_ok (s : _AdapterState) : Prop :=
  rescan_through_generation s < generation s /\ Forall (fun x => x.1 <= generation s) (queue s).
(** A step's observations take the marked queue of [s] to that of [s']. *)
Definition explains (s : _AdapterState) (x : list obs * _AdapterState) : Prop :=
  generations_ok s -> generations_ok x.2 /\ forall rest, explained rest (marks x.2) -> explained (x.1 ++ rest) (marks s).

Lemma explains_silent s s' :
  queue s' = queue s -> generation s' = generation s -> rescan_through_generation s' = rescan_through_generation s ->
  explains s ([], s').
Proof. intros Hq Hg Hr [H1 H2]. unfold generations_ok, marks. simpl. rewrite Hq, Hg, Hr. auto. Qed.
Lemma put_explains r s s0 :
  queue s0 = queue s -> generation s0 = generation s -> rescan_through_generation s0 = rescan_through_generation s ->
  explains s (put_now r s0).
Proof.
  intros Hq Hg Hr [H1 H2]. unfold generations_ok, marks, put_now. rewrite Hq, Hg.
  assert (Hput : Forall (fun x : Z * RequestT => x.1 <= generation s) (queue s ++ [(generation s, r)])).
  { apply Forall_app. split; [done|]. constructor; [simpl; lia|constructor]. }
  destruct (getters s0); simpl; rewrite ?Hg, ?Hr, fmap_app; simpl;
    (destruct (Z.leb_spec (generation s) (rescan_through_generation s)); [lia|]); auto.
Qed.
Lemma get_explains task s s0 :
  queue s0 = queue s -> generation s0 = generation s -> rescan_through_generation s0 = rescan_through_generation s ->
  explains s (get_now task s0).
Proof.
  intros Hq Hg Hr [H1 H2]. unfold get_now. rewrite Hq. unfold marks. destruct (queue s) as [|[gen r] q] eqn:Hs.
  { split; [|done]. unfold generations_ok. simpl. rewrite Hg, Hr. by split. }
  apply Forall_cons in H2 as [Hgen H2]. simpl. rewrite Hr.
  destruct (gen <=? rescan_through_generation s); simpl; unfold generations_ok; simpl; rewrite Hg, Hr; auto.
Qed.
Lemma clear_explains s : explains s (_clear_pause s).
Proof.
  unfold _clear_pause. destruct (negb (is_set s)); simpl; [|by apply explains_silent].
  intros [H1 H2]. unfold generations_ok, marks. simpl. split.
  - split; [lia|]. eapply Forall_impl; [exact H2|]. simpl. lia.
  - intros rest Hrest. rewrite <- list_fmap_compose.
    rewrite (list_fmap_ext _ (fun x => (x.2, x.1 <=? generation s)) (queue s)); [done|].
    intros i [gen r] Hi. simpl. f_equal. rewrite Forall_forall in H2.
    specialize (H2 _ (list_elem_of_lookup_2 _ _ _ Hi)). simpl in H2. symmetry. by apply Z.leb_le.
Qed.
Lemma step_explains ev s : explains s (step ev s).
Proof.
  destruct ev; simpl; unfold submit, submit_resumed, consume, consume_past_gate, consume_got, pause, resume, _auto_resume.
  - destruct (locked (cap s)); [by apply explains_silent|by apply put_explains].
  - destruct (sem_woken (cap s)); [by apply explains_silent|by apply put_explains].
  - destruct (is_set s); [by apply get_explains|by apply explains_silent].
  - destruct (gate_woken s); [by apply explains_silent|by apply get_explains].
  - destruct (getters_woken s); [by apply explains_silent|by apply get_explains].
  - destruct (resume_deadline s) as [d|]; [destruct (Qle_bool _ d)|]; by apply explains_silent.
  - apply clear_explains.
  - destruct (timer s) as [t|]; [destruct (Qle_bool t now)|]; [apply clear_explains|by apply explains_silent..].
Qed.
Lemma run_explained evs : forall s, generations_ok s -> explained (run evs s).1 (marks s).
Proof.
  induction evs as [|ev evs IH]; intros s H; simpl; [done|].
  destruct (step_explains ev s H) as [H' Hex]. destruct (step ev s) as [os s']. specialize (IH s' H').
  destruct (run evs s'). simpl in *. auto.
Qed.

(** ** Slots and wake-ups *)
Definition slots_ok (s : _AdapterState) : Prop :=
  0 <= _value (cap s) /\ _value (cap s) + Zlen (queue s) + Zlen (sem_woken (cap s)) = max_in_flight /\
  (sem_waiters (cap s) <> [] -> _value (cap s) = 0 \/ sem_woken (cap s) <> []) /\
  (getters s <> [] -> Zlen (queue s) <= Zlen (getters_woken s)) /\
  (is_set s = true -> gate_waiters s = []).

Lemma wake_rest_ok ws : forall c, sem_waiters c = ws -> 0 <= _value c ->
  0 <= _value (wake_rest ws c) /\ _value (wake_rest ws c) + Zlen (sem_woken (wake_rest ws c)) = _value c + Zlen (sem_woken c) /\
  (sem_waiters (wake_rest ws c) <> [] -> _value (wake_rest ws c) = 0).
Proof.
  induction ws as [|w ws IH]; intros c Hw Hv; simpl; [by rewrite Hw|].
  destruct (Z.ltb_spec 0 (_value c)); [|split_and!; try done; lia].
  unfold _wake_up_next. rewrite Hw. destruct (IH {| _value := _value c - 1; sem_waiters := ws; sem_woken := sem_woken c ++ [w] |})
    as (H1&H2&H3); simpl; [done|lia|]. simpl in H2. rewrite Zlen_app, Zlen_singleton in H2. split_and!; [done|lia|done].
Qed.
Lemma put_slots_ok r s0 :
  0 <= _value (cap s0) -> _value (cap s0) + Zlen (queue s0) + Zlen (sem_woken (cap s0)) = max_in_flight - 1 ->
  (sem_waiters (cap s0) <> [] -> _value (cap s0) = 0 \/ sem_woken (cap s0) <> []) ->
  (getters s0 <> [] -> Zlen (queue s0) <= Zlen (getters_woken s0)) ->
  (is_set s0 = true -> gate_waiters s0 = []) -> slots_ok (put_now r s0).2.
Proof.
  intros H1 H2 H3 H4 H5. unfold put_now, slots_ok. destruct (getters s0) as [|g gs]; simpl; zlen;
    split_and!; try done; try lia. intros _. specialize (H4 ltac:(done)). lia.
Qed.
Lemma release_ok c : 0 <= _value c ->
  0 <= _value (release c) /\ _value (release c) + Zlen (sem_woken (release c)) = _value c + Zlen (sem_woken c) + 1 /\
  ((sem_waiters c <> [] -> _value c = 0 \/ sem_woken c <> []) ->
   sem_waiters (release c) <> [] -> _value (release c) = 0 \/ sem_woken (release c) <> []).
Proof.
  intros Hv. unfold release, _wake_up_next. simpl. destruct (sem_waiters c) as [|w ws]; simpl; zlen.
  - split_and!; [lia|lia|done].
  - split_and!; [lia|lia|]. intros _ _. right. by destruct (sem_woken c).
Qed.
(** A getter about to run may be one short of the queue. *)
Lemma get_slots_ok task s :
  0 <= _value (cap s) -> _value (cap s) + Zlen (queue s) + Zlen (sem_woken (cap s)) = max_in_flight ->
  (sem_waiters (cap s) <> [] -> _value (cap s) = 0 \/ sem_woken (cap s) <> []) ->
  (getters s <> [] -> Zlen (queue s) <= Zlen (getters_woken s) + 1) ->
  (is_set s = true -> gate_waiters s = []) -> slots_ok (get_now task s).2.
Proof.
  intros H1 H2 H3 H4 H5. unfold get_now. destruct (queue s) as [|[gen r] q] eqn:Hq.
  - unfold slots_ok. simpl. split_and!; try done. intros _. apply Zlen_nonneg.
  - rewrite Zlen_cons in H2. destruct (release_ok (cap s) H1) as (R1&R2&R3).
    destruct (_ <=? _); unfold slots_ok; simpl; (split_and!; [done|lia|auto| |done]);
      intros Hg; specialize (H4 Hg); rewrite Zlen_cons in H4; lia.
Qed.
Lemma clear_slots_ok s : slots_ok s -> slots_ok (_clear_pause s).2.
Proof. intros (H1&H2&H3&H4&H5). unfold _clear_pause. destruct (negb (is_set s)); by split_and!. Qed.
Lemma step_slots_ok ev s : slots_ok s -> slots_ok (step ev s).2.
Proof.
  intros H. pose proof H as (H1&H2&H3&H4&H5).
  destruct ev; simpl; unfold submit, submit_resumed, consume, consume_past_gate, consume_got, pause, resume, _auto_resume.
  - destruct (locked (cap s)) eqn:Hl.
    + unfold slots_ok. simpl. split_and!; try done. intros _. unfold locked in Hl.
      destruct (sem_waiters (cap s)), (sem_woken (cap s)); solve [auto | left; by apply Z.eqb_eq].
    + unfold locked in Hl. destruct (sem_waiters (cap s)) eqn:?, (sem_woken (cap s)) eqn:?; try done.
      apply Z.eqb_neq in Hl. apply put_slots_ok; simpl; try done; try lia.
  - destruct (sem_woken (cap s)) as [|r rs] eqn:Hw; [done|]. rewrite Zlen_cons in H2.
    destruct (wake_rest_ok (sem_waiters (cap s)) {| _value := _value (cap s); sem_waiters := sem_waiters (cap s); sem_woken := rs |})
      as (W1&W2&W3); simpl in *; [done|done|]. apply put_slots_ok; simpl; auto. lia.
  - destruct (is_set s) eqn:Hs; [apply get_slots_ok; auto; intros Hg; specialize (H4 Hg); lia|]. by split_and!.
  - destruct (gate_woken s) as [|t ts]; [done|]. apply get_slots_ok; simpl; auto. intros Hg. specialize (H4 Hg). lia.
  - destruct (getters_woken s) as [|t ts] eqn:Hw; [done|]. apply get_slots_ok; simpl; auto.
    intros Hg. specialize (H4 Hg). rewrite Zlen_cons in H4. lia.
  - destruct (resume_deadline s) as [d|]; [destruct (Qle_bool (now + retry_after_seconds) d); [done|]|]; by split_and!.
  - by apply clear_slots_ok.
  - destruct (timer s) as [t|]; [destruct (Qle_bool t now)|]; [by apply clear_slots_ok|done..].
Qed.
Lemma run_slots_ok evs : forall s, slots_ok s -> slots_ok (run evs s).2.
Proof.
  induction evs as [|ev evs IH]; intros s H; simpl; [done|]. pose proof (step_slots_ok ev s H) as H'.
  destruct (step ev s) as [os s']. specialize (IH s' H'). by destruct (run evs s').
Qed.

(** ** The pause window *)
Definition gate_ok (s : _AdapterState) : Prop :=
  timer s = resume_deadline s /\ (is_set s = false <-> is_Some (timer s)).
(** Nobody resumes by hand and the timer is not due before [d]. *)
Definition before (d : Q) (ev : event) : Prop :=
  match ev with Resume => False | AutoResume now => (now < d)%Q | _ => True end.
Definition paused_until (d : Q) (s : _AdapterState) : Prop :=
  is_set s = false /\ exists t, timer s = Some t /\ resume_deadline s = Some t /\ (d <= t)%Q.
(** Consumers that have left the gate but not got a message. *)
Definition past_gate (s : _AdapterState) : Z := Zlen (gate_woken s) + Zlen (getters s) + Zlen (getters_woken s).
Definition gots (os : list obs) : Z := Zsum (fun o => match o with Got _ _ _ => 1 | _ => 0 end) os.

Lemma put_gate r s0 : is_set (put_now r s0).2 = is_set s0 /\ timer (put_now r s0).2 = timer s0 /\
  resume_deadline (put_now r s0).2 = resume_deadline s0 /\ past_gate (put_now r s0).2 = past_gate s0 /\ gots (put_now r s0).1 = 0.
Proof.
  unfold put_now, past_gate. destruct (getters s0); simpl; zlen; split_and!; try done; lia.
Qed.
Lemma get_gate task s0 : is_set (get_now task s0).2 = is_set s0 /\ timer (get_now task s0).2 = timer s0 /\
  resume_deadline (get_now task s0).2 = resume_deadline s0 /\
  gots (get_now task s0).1 + past_gate (get_now task s0).2 = past_gate s0 + 1.
Proof.
  unfold get_now, past_gate. destruct (queue s0) as [|[gen r] q]; simpl.
  - zlen. unfold gots. change (Zsum _ []) with 0. split_and!; try done; lia.
  - destruct (_ <=? _); simpl; unfold gots; rewrite Zsum_singleton; split_and!; try done; lia.
Qed.

(** The operations that only move tasks and messages leave the pause alone. *)
Ltac gate_moves s :=
  unfold step, submit, submit_resumed, consume, consume_past_gate, consume_got;
  repeat match goal with
  | |- context [if ?c then _ else _] => destruct c eqn:?
  | |- context [match sem_woken ?c with _ => _ end] => destruct (sem_woken c)
  | |- context [match gate_woken s with _ => _ end] => destruct (gate_woken s) eqn:?
  | |- context [match getters_woken s with _ => _ end] => destruct (getters_woken s) eqn:?
  end;
  repeat match goal with
  | |- context [put_now ?r ?s0] => destruct (put_gate r s0) as (?&?&?&?&?); destruct (put_now r s0); simpl in *
  | |- context [get_now ?t ?s0] => destruct (get_gate t s0) as (?&?&?&?); destruct (get_now t s0); simpl in *
  end.

Lemma step_gate_ok ev s : gate_ok s -> gate_ok (step ev s).2.
Proof.
  intros [H1 H2]. pose proof H2 as H2'. rewrite H1 in H2'. unfold gate_ok. destruct ev; try (gate_moves s; simpl;
    repeat match goal with H : ?f ?x = _ |- context [?f ?x] => rewrite H end; (split; [done|rewrite <- H2'; split; congruence])).
  - simpl. unfold pause. destruct (resume_deadline s) as [d|] eqn:Hd; [destruct (Qle_bool (now + retry_after_seconds) d); [simpl; split; [congruence|exact H2]|]|]; simpl; (split; [done|]); split; [by eexists|done|by eexists|done].
  - simpl. unfold resume, _clear_pause. destruct (negb (is_set s)); simpl; (split; [done|]); split; try done; by intros [].
  - simpl. unfold _auto_resume. destruct (timer s) as [t|] eqn:Ht; [destruct (Qle_bool t now)|]; simpl; rewrite ?Ht; try done.
    unfold _clear_pause. destruct (negb (is_set s)); simpl; (split; [done|]); split; try done; by intros [].
Qed.
Lemma run_gate_ok evs : forall s, gate_ok s -> gate_ok (run evs s).2.
Proof.
  induction evs as [|ev evs IH]; intros s H; simpl; [done|]. pose proof (step_gate_ok ev s H) as H'.
  destruct (step ev s) as [os s']. specialize (IH s' H'). by destruct (run evs s').
Qed.
Lemma pause_pauses now r s : gate_ok s -> paused_until (now + r) (pause now r s).2 /\ past_gate (pause now r s).2 = past_gate s.
Proof.
  intros [H1 H2]. unfold pause, paused_until. destruct (resume_deadline s) as [d|] eqn:Hd; simpl.
  - destruct (Qleb_spec (now + r) d); simpl; split; try done.
    + split; [apply H2; rewrite H1; eauto|]. exists d. done.
    + split; [done|]. eexists. split_and!; [done..|lra].
  - split; [|done]. split; [done|]. eexists. split_and!; [done..|lra].
Qed.
Lemma step_paused d ev s : before d ev -> paused_until d s ->
  paused_until d (step ev s).2 /\ gots (step ev s).1 + past_gate (step ev s).2 <= past_gate s.
Proof.
  intros Hev (Hs&t&Ht&Hd&Hle). unfold paused_until. destruct ev; simpl in Hev; try done.
  1-5: gate_moves s; simpl; unfold gots, past_gate in *; change (Zsum _ []) with 0; simpl in *;
    repeat match goal with H : _ ?x = _ :: _ |- _ => rewrite H in *; clear H end; zlen;
    (split; [split; [congruence|exists t; split_and!; congruence]|lia]).
  - simpl. destruct (pause_pauses now retry_after_seconds s) as [Hp1 Hp2]; [unfold gate_ok; rewrite Ht, Hd, Hs; by split; [|split]; eauto|].
    unfold pause in *. rewrite Hd in *. destruct (Qleb_spec (now + retry_after_seconds) t); simpl in *;
      unfold gots; change (Zsum _ []) with 0; (split; [|lia]); (split; [done|]).
    + exists t. done.
    + eexists. split_and!; [done..|lra].
  - simpl. unfold _auto_resume. rewrite Ht. destruct (Qleb_spec t now); [lra|]. simpl. unfold gots. change (Zsum _ []) with 0.
    split; [|lia]. split; [done|]. exists t. done.
Qed.
Lemma run_paused d evs : Forall (before d) evs -> forall s, paused_until d s ->
  paused_until d (run evs s).2 /\ gots (run evs s).1 + past_gate (run evs s).2 <= past_gate s.
Proof.
  induction 1 as [|ev evs Hev Hevs IH]; intros s H; simpl.
  { split; [done|]. unfold gots. change (Zsum _ []) with 0. lia. }
  destruct (step_paused d ev s Hev H) as [H' Hn]. destruct (step ev s) as [os s']. destruct (IH s' H') as [H'' Hn'].
  destruct (run evs s'). simpl in *. split; [done|]. unfold gots in *. rewrite Zsum_app. lia.
Qed.

Lemma init_gate_ok : gate_ok init.
Proof. split; [done|]. split; [done|]. by intros []. Qed.


(** The in-flight bound and the wake-ups: in every reachable state the free slots, the
    queued messages and the slots handed to submitters about to queue add up to the cap, so
    at most that many messages are queued; a submitter waits only while no slot is free or
    another was just woken; and consumers parked on a non-empty queue have at least as many
    woken consumers ahead of them as there are messages. *)
Theorem outbound_slots_are_conserved evs : 0 <= max_in_flight ->
  let s := (run evs init).2 in
  slots_ok s /\ 0 <= Zlen (queue s) <= max_in_flight.
Proof.
  intros H s. assert (Hs : slots_ok s).
  { apply run_slots_ok. unfold slots_ok. simpl. change (Zlen []) with 0. split_and!; try done. lia. }
  split; [done|]. destruct Hs as (H1&H2&_). pose proof (Zlen_nonneg (queue s)). pose proof (Zlen_nonneg (sem_woken (cap s))). lia.
Qed.

(** A pause of [r] seconds at [now], from any reachable state, keeps the gate shut until
    somebody resumes by hand or [now + r] has come, whatever shorter or longer pauses follow;
    meanwhile no more messages leave than there were consumers already past the gate when it
    shut. *)
Theorem pause_lets_out_only_consumers_past_the_gate pre now r evs : Forall (before (now + r)) evs ->
  let s := (run pre init).2 in
  let '(os, s') := run evs (step (Pause now r) s).2 in
  is_set s' = false /\ gots os <= past_gate s.
Proof.
  intros Hevs s. assert (Hs : gate_ok s) by (apply run_gate_ok, init_gate_ok).
  destruct (pause_pauses now r s Hs) as [Hp Hn]. simpl. destruct (run_paused (now + r) evs Hevs _ Hp) as [[H1 _] H2].
  destruct (run evs _) as [os s']. simpl in *. split; [done|]. pose proof (Zlen_nonneg (gate_woken s')).
  pose proof (Zlen_nonneg (getters s')). pose proof (Zlen_nonneg (getters_woken s')). unfold past_gate in H2 at 1. lia.
Qed.
End queue.

Lemma outbound_slots_are_conserved_witness :
  let evs := [Submit "a"; Submit "b"; Submit "c"; Consume 1; Submit "d"; SubmitResumed; SubmitResumed]%string in
  let s := (run None evs (init 2)).2 in
  snd <$> queue s = ["b"; "c"]%string /\ slots_ok 2 s /\ 0 <= Zlen (queue s) <= 2.
Proof. intros evs s. split; [vm_compute; reflexivity|]. apply (outbound_slots_are_conserved 2 None evs). lia. Defined.

(** A consumer parked on an empty queue when the pause starts hands out a message submitted
    during the pause; the one that arrives during it waits. *)
Lemma pause_lets_out_only_consumers_past_the_gate_witness :
  let pre := [Consume 1] in
  let evs := [Submit "a"; ConsumeGot; Consume 2; Submit "b"; Pause 10 5; AutoResume 59]%string in
  let s := (run None pre (init 8)).2 in
  let '(os, s') := run None evs (step None (Pause 0 60) s).2 in
  os = [Put "a"; Got "a" false false; Put "b"]%string /\ (is_set s' = false /\ gots os <= past_gate s).
Proof.
  intros pre evs s.
  assert (H : let '(os, s') := run None evs (step None (Pause 0 60) s).2 in is_set s' = false /\ gots os <= past_gate s).
  { apply (pause_lets_out_only_consumers_past_the_gate 8 None pre 0 60 evs). repeat constructor. }
  split; [vm_compute; reflexivity|exact H].
Defined.
