(* ===== verification/BurstLimiter.v ===== *)
(** * The burst limiter

    [orchestrator/burst_limiter.py]: a token bucket and a lock per (user, persona), kept in
    LRU-ordered dicts from which idle keys are evicted while other [acquire] calls are parked
    on a lock, in a back-pressure sleep or in an audit write.  The dicts hold references: the
    buckets and locks are objects in a store, so that an evicted key and a parked call that
    still holds its objects are told apart.  A step is what one task runs between two awaits;
    [asyncio.Lock]'s fairness and wake-up rules are written out.  Times are seconds of the
    monotonic clock; each step carries its readings. *)
From S2P Require Import Prelude.

Abbreviation Key := (string * string)%type.

(** ** Data *)
Record _BucketState := { tokens : Q; last_refill_monotonic : Q; empty_since_monotonic : option Q }.
(** [asyncio.Lock]: the flag (with the task that set it), the parked acquirers in order, and
    whether the first of them has been woken. *)
Record Lock := { locked_by : option Z; waiters : list Z; woken : bool }.

Inductive outcome :=
| Acquired (tokens_remaining : Z) (waited_seconds : Q)
| Dropped (waited_seconds empty_for : Q).
Inductive row := Capped (tokens_available wait_seconds : Q) (dropped : bool) | DroppedEvent (empty_for : Q).

(** Where an [acquire] call is parked: on the lock, in the sleep (over at [due] or later), in
    the write of the first of the audit rows. *)
Inductive phase :=
| Waiting
| Sleeping (bucket : nat) (wait_seconds due : Q)
| Auditing (bucket : nat) (rows : list row) (result : outcome).
Record Task := { t_key : Key; t_lock : nat; t_phase : phase }.

Record BurstLimiter := {
  _buckets : list (Key * nat); _locks : list (Key * nat); _active : gmap Key Z;
  bucket_store : gmap nat _BucketState; lock_store : gmap nat Lock; next_object : nat;
  tasks : gmap Z Task }.

Inductive obs :=
| Created (bucket : nat) (now : Q)
| Taken (bucket : nat)
| Returned (task : Z) (result : outcome)
| Raised (task : Z)
| AssertionFailed (task : Z).

(** [int(x)] truncates. *)
Definition py_int (q : Q) : Z := Z.quot (Qnum q) (QDen q).

Section limiter.
Context (_capacity : Z) (_refill_seconds _drop_after_seconds : Q) (_max_tracked_buckets : Z).

Definition init : BurstLimiter :=
  {| _buckets := []; _locks := []; _active := ∅; bucket_store := ∅; lock_store := ∅; next_object := 0; tasks := ∅ |}.

Definition with_dicts (b l : list (Key * nat)) (s : BurstLimiter) : BurstLimiter :=
  {| _buckets := b; _locks := l; _active := _active s; bucket_store := bucket_store s;
     lock_store := lock_store s; next_object := next_object s; tasks := tasks s |}.
Definition with_active (a : gmap Key Z) (s : BurstLimiter) : BurstLimiter :=
  {| _buckets := _buckets s; _locks := _locks s; _active := a; bucket_store := bucket_store s;
     lock_store := lock_store s; next_object := next_object s; tasks := tasks s |}.
Definition with_tasks (t : gmap Z Task) (s : BurstLimiter) : BurstLimiter :=
  {| _buckets := _buckets s; _locks := _locks s; _active := _active s; bucket_store := bucket_store s;
     lock_store := lock_store s; next_object := next_object s; tasks := t |}.
Definition set_lock (i : nat) (l : Lock) (s : BurstLimiter) : BurstLimiter :=
  {| _buckets := _buckets s; _locks := _locks s; _active := _active s; bucket_store := bucket_store s;
     lock_store := <[i := l]> (lock_store s); next_object := next_object s; tasks := tasks s |}.
Definition set_bucket (i : nat) (b : _BucketState) (s : BurstLimiter) : BurstLimiter :=
  {| _buckets := _buckets s; _locks := _locks s; _active := _active s; bucket_store := <[i := b]> (bucket_store s);
     lock_store := lock_store s; next_object := next_object s; tasks := tasks s |}.
(** A new object: its identity is fresh. *)
Definition fresh (s : BurstLimiter) : nat * BurstLimiter :=
  (next_object s,
   {| _buckets := _buckets s; _locks := _locks s; _active := _active s; bucket_store := bucket_store s;
      lock_store := lock_store s; next_object := S (next_object s); tasks := tasks s |}).

(** ** The dicts *)
Definition _lock_for (k : Key) (s : BurstLimiter) : nat * BurstLimiter :=
  match dict_get k (_locks s) with
  | Some i => (i, with_dicts (_buckets s) (move_to_end k i (_locks s)) s)
  | None =>
      let '(i, s) := fresh s in
      (i, with_dicts (_buckets s) (dict_set k i (_locks s))
            (set_lock i {| locked_by := None; waiters := []; woken := false |} s))
  end.

Definition _oldest_idle_key (s : BurstLimiter) : option Key :=
  list_find (fun k => default 0 (_active s !! k) = 0) (dict_keys (_buckets s)) ≫= fun x => Some x.2.
(** The loop runs at most once per tracked key. *)
Fixpoint evict_loop (fuel : nat) (s : BurstLimiter) : BurstLimiter :=
  match fuel with
  | O => s
  | S fuel =>
      if _max_tracked_buckets <? Zlen (_buckets s) then
        match _oldest_idle_key s with
        | None => s
        | Some k => evict_loop fuel (with_dicts (dict_del k (_buckets s)) (dict_del k (_locks s)) s)
        end
      else s
  end.
Definition _evict_if_needed (s : BurstLimiter) : BurstLimiter := evict_loop (length (_buckets s)) s.

Definition _bucket_for (k : Key) (now : Q) (s : BurstLimiter) : list obs * nat * BurstLimiter :=
  match dict_get k (_buckets s) with
  | Some i => ([], i, with_dicts (move_to_end k i (_buckets s)) (_locks s) s)
  | None =>
      let '(i, s) := fresh s in
      let s := set_bucket i {| tokens := inject_Z _capacity; last_refill_monotonic := now; empty_since_monotonic := None |} s in
      ([Created i now], i, _evict_if_needed (with_dicts (dict_set k i (_buckets s)) (_locks s) s))
  end.

Definition _refill (now : Q) (b : _BucketState) : _BucketState :=
  let elapsed := (now - last_refill_monotonic b)%Q in
  if Qle_bool elapsed 0 then b
  else
    let refilled := (elapsed / _refill_seconds)%Q in
    let t := py_min (inject_Z _capacity) (tokens b + refilled) in
    {| tokens := t; last_refill_monotonic := now;
       empty_since_monotonic := if Qle_bool 1 t then None else empty_since_monotonic b |}.

(** ** Leaving [acquire]: the lock, then the [finally]. *)
Definition _wake_up_first (l : Lock) : Lock :=
  {| locked_by := locked_by l; waiters := waiters l; woken := match waiters l with [] => false | _ => true end |}.
Definition release (i : nat) (s : BurstLimiter) : BurstLimiter :=
  match lock_store s !! i with
  | Some l => set_lock i (_wake_up_first {| locked_by := None; waiters := waiters l; woken := woken l |}) s
  | None => s
  end.
Definition leave (t : Z) (k : Key) (s : BurstLimiter) : BurstLimiter :=
  let remaining := default 0 (_active s !! k) - 1 in
  with_tasks (delete t (tasks s))
    (with_active (if remaining =? 0 then delete k (_active s) else <[k := remaining]> (_active s)) s).
Definition exit (t : Z) (tk : Task) (s : BurstLimiter) : BurstLimiter := leave t (t_key tk) (release (t_lock tk) s).

Definition park (t : Z) (tk : Task) (p : phase) (s : BurstLimiter) : BurstLimiter :=
  with_tasks (<[t := {| t_key := t_key tk; t_lock := t_lock tk; t_phase := p |}]> (tasks s)) s.

(** ** The critical section, from taking the lock to the first await or the return *)
Definition body (t : Z) (tk : Task) (now_new now : Q) (s : BurstLimiter) : list obs * BurstLimiter :=
  let '(os, i, s) := _bucket_for (t_key tk) now_new s in
  match bucket_store s !! i with
  | None => (os, s)
  | Some b0 =>
      let b := _refill now b0 in
      if Qle_bool 1 (tokens b) then
        let tok := (tokens b - 1)%Q in
        let b := {| tokens := tok; last_refill_monotonic := last_refill_monotonic b;
                    empty_since_monotonic := if Qltb tok 1 then Some now else empty_since_monotonic b |} in
        (os ++ [Taken i; Returned t (Acquired (py_int tok) 0)], exit t tk (set_bucket i b s))
      else
        let s := set_bucket i b s in
        let wait_seconds := ((1 - tokens b) * _refill_seconds)%Q in
        match empty_since_monotonic b with
        | None => (os ++ [AssertionFailed t], exit t tk s)
        | Some since =>
            if Qltb _drop_after_seconds wait_seconds then
              let empty_for := (now - since)%Q in
              (os, park t tk (Auditing i [Capped (tokens b) _drop_after_seconds true; DroppedEvent empty_for]
                                (Dropped _drop_after_seconds empty_for)) s)
            else (os, park t tk (Sleeping i wait_seconds (now + wait_seconds)) s)
        end
  end.

Definition take_lock (t : Z) (tk : Task) (l : Lock) (s : BurstLimiter) : BurstLimiter :=
  set_lock (t_lock tk) {| locked_by := Some t; waiters := filter (fun w => w <> t) (waiters l); woken := false |} s.

(** ** Steps *)
Inductive event :=
| Start (task : Z) (k : Key) (now_new now : Q)    (* a new call, up to its first await *)
| Locked (task : Z) (now_new now : Q)             (* a woken acquirer resumes *)
| Slept (task : Z) (now : Q)
| Audited (task : Z)                              (* one audit write returns *)
| Failed (task : Z).                              (* an audit write raises, or a cancellation is delivered *)
Definition readings (ev : event) : list Q :=
  match ev with Start _ _ a b | Locked _ a b => [a; b] | Slept _ a => [a] | _ => [] end.

Definition start (t : Z) (k : Key) (now_new now : Q) (s : BurstLimiter) : list obs * BurstLimiter :=
  match tasks s !! t with Some _ => ([], s) | None =>
    let s := with_active (<[k := default 0 (_active s !! k) + 1]> (_active s)) s in
    let '(i, s) := _lock_for k s in
    let tk := {| t_key := k; t_lock := i; t_phase := Waiting |} in
    let s := with_tasks (<[t := tk]> (tasks s)) s in
    match lock_store s !! i with
    | None => ([], s)
    | Some l =>
        match locked_by l, waiters l with
        | None, [] => body t tk now_new now (take_lock t tk l s)
        | _, _ => ([], set_lock i {| locked_by := locked_by l; waiters := waiters l ++ [t]; woken := woken l |} s)
        end
    end
  end.

Definition lock_resumed (t : Z) (now_new now : Q) (s : BurstLimiter) : list obs * BurstLimiter :=
  match tasks s !! t with
  | Some tk =>
      match lock_store s !! t_lock tk with
      | Some l => if woken l && bool_decide (head (waiters l) = Some t)
                  then body t tk now_new now (take_lock t tk l s) else ([], s)
      | None => ([], s)
      end
  | None => ([], s)
  end.

(** [_backpressure] after its sleep. *)
Definition slept (t : Z) (now : Q) (s : BurstLimiter) : list obs * BurstLimiter :=
  match tasks s !! t with
  | Some tk =>
      match t_phase tk with
      | Sleeping i wait_seconds due =>
          match bucket_store s !! i with
          | Some b0 => if Qle_bool due now then
              let b := _refill now b0 in
              let tok := (tokens b - 1)%Q in
              let b := {| tokens := tok; last_refill_monotonic := last_refill_monotonic b;
                          empty_since_monotonic := if Qltb tok 1 then Some now else None |} in
              ([Taken i], park t tk (Auditing i [Capped tok wait_seconds false] (Acquired (py_int tok) wait_seconds)) (set_bucket i b s))
              else ([], s)
          | None => ([], s)
          end
      | _ => ([], s)
      end
  | None => ([], s)
  end.

Definition audited (t : Z) (s : BurstLimiter) : list obs * BurstLimiter :=
  match tasks s !! t with
  | Some tk =>
      match t_phase tk with
      | Auditing i (_ :: (_ :: _) as rows) r => ([], park t tk (Auditing i (tail rows) r) s)
      | Auditing _ _ r => ([Returned t r], exit t tk s)
      | _ => ([], s)
      end
  | None => ([], s)
  end.

(** An exception at the await: out of the lock queue, or out of the critical section. *)
Definition failed (t : Z) (s : BurstLimiter) : list obs * BurstLimiter :=
  match tasks s !! t with
  | Some tk =>
      match t_phase tk, lock_store s !! t_lock tk with
      | Waiting, Some l =>
          let l' := {| locked_by := locked_by l; waiters := filter (fun w => w <> t) (waiters l); woken := woken l |} in
          ([Raised t], leave t (t_key tk)
             (set_lock (t_lock tk) (match locked_by l with None => _wake_up_first l' | Some _ => l' end) s))
      | _, _ => ([Raised t], exit t tk s)
      end
  | None => ([], s)
  end.

Definition step (ev : event) (s : BurstLimiter) : list obs * BurstLimiter :=
  match ev with
  | Start t k a b => start t k a b s
  | Locked t a b => lock_resumed t a b s
  | Slept t now => slept t now s
  | Audited t => audited t s
  | Failed t => failed t s
  end.
Fixpoint run (evs : list event) (s : BurstLimiter) : list obs * BurstLimiter :=
  match evs with
  | [] => ([], s)
  | ev :: evs' => let '(os, s') := step ev s in let '(os', s'') := run evs' s' in (os ++ os', s'')
  end.

(** ** What every interleaving keeps *)

(** A task whose phase is [Waiting] waits, unless it is the one running its critical section. *)
Definition waits (r : option Z) (t : Z) (tk : Task) : Prop := t_phase tk = Waiting /\ r <> Some t.
Definition bucket_of (p : phase) : option nat :=
  match p with Waiting => None | Sleeping i _ _ | Auditing i _ _ => Some i end.
Definition in_flight (k : Key) (m : gmap Z Task) : Z := Z.of_nat (size (filter (fun x => t_key x.2 = k) m)).

Definition lock_ok (r : option Z) (m : gmap Z Task) (i : nat) (l : Lock) : Prop :=
  NoDup (waiters l) /\
  (forall t, t ∈ waiters l -> exists tk, m !! t = Some tk /\ t_lock tk = i /\ waits r t tk) /\
  (forall t, locked_by l = Some t -> exists tk, m !! t = Some tk /\ t_lock tk = i /\ ~ waits r t tk) /\
  woken l = match locked_by l, waiters l with None, _ :: _ => true | _, _ => false end.
(** A task in flight against its lock. *)
Definition holds (r : option Z) (t : Z) (tk : Task) (l : Lock) : Prop :=
  (waits r t tk /\ t ∈ waiters l) \/ (~ waits r t tk /\ locked_by l = Some t).

(** [r] is the task running its critical section, if a step is under way. *)
Record wf (r : option Z) (s : BurstLimiter) : Prop := {
  wf_bkeys : NoDup (dict_keys (_buckets s));
  wf_lkeys : NoDup (dict_keys (_locks s));
  wf_active : forall k, default 0 (_active s !! k) = in_flight k (tasks s);
  wf_held : forall t tk, tasks s !! t = Some tk -> dict_get (t_key tk) (_locks s) = Some (t_lock tk) /\
              exists l, lock_store s !! t_lock tk = Some l /\ holds r t tk l;
  wf_locks : forall k i, dict_get k (_locks s) = Some i -> (i < next_object s)%nat /\
              exists l, lock_store s !! i = Some l /\ lock_ok r (tasks s) i l;
  wf_linj : forall k k' i, dict_get k (_locks s) = Some i -> dict_get k' (_locks s) = Some i -> k = k';
  wf_bucket : forall t tk i, tasks s !! t = Some tk -> bucket_of (t_phase tk) = Some i -> dict_get (t_key tk) (_buckets s) = Some i;
  wf_buckets : forall k i, dict_get k (_buckets s) = Some i -> (i < next_object s)%nat /\ is_Some (bucket_store s !! i);
  wf_binj : forall k k' i, dict_get k (_buckets s) = Some i -> dict_get k' (_buckets s) = Some i -> k = k' }.

(** ** Counting calls in flight *)
Lemma in_flight_insert k t tk m : m !! t = None ->
  in_flight k (<[t := tk]> m) = in_flight k m + (if decide (t_key tk = k) then 1 else 0).
Proof.
  intros Hm. unfold in_flight. rewrite map_filter_insert. simpl. case_decide.
  - rewrite map_size_insert_None; [lia|]. apply map_lookup_filter_None. by left.
  - rewrite (delete_id m t Hm). lia.
Qed.
Lemma in_flight_delete k t tk m : m !! t = Some tk ->
  in_flight k (delete t m) = in_flight k m - (if decide (t_key tk = k) then 1 else 0).
Proof.
  intros Hm. rewrite <- (insert_delete_id m t tk Hm) at 2. rewrite in_flight_insert by apply lookup_delete_eq. lia.
Qed.
Lemma in_flight_park k t tk tk' m : m !! t = Some tk -> t_key tk' = t_key tk -> in_flight k (<[t := tk']> m) = in_flight k m.
Proof.
  intros Hm Hk. rewrite <- insert_delete_eq, in_flight_insert by apply lookup_delete_eq.
  rewrite (in_flight_delete _ _ _ _ Hm), Hk. lia.
Qed.
Lemma in_flight_pos k t tk m : m !! t = Some tk -> t_key tk = k -> in_flight k m <> 0.
Proof.
  intros Hm Hk. pose proof (in_flight_delete k t tk m Hm) as H. rewrite decide_True in H by done.
  unfold in_flight in *. lia.
Qed.

Definition woken_ok (l : Lock) : Prop :=
  woken l = match locked_by l, waiters l with None, _ :: _ => true | _, _ => false end.
(** The entry of [t] after a change, against the new lock. *)
Definition entry_ok (r : option Z) (s : BurstLimiter) (t : Z) (k : Key) (i : nat) (l : Lock) (otk : option Task) : Prop :=
  match otk with
  | Some tk => t_key tk = k /\ t_lock tk = i /\
      ((waits r t tk /\ t ∈ waiters l /\ locked_by l <> Some t) \/ (~ waits r t tk /\ locked_by l = Some t /\ (t ∉ waiters l))) /\
      (forall j, bucket_of (t_phase tk) = Some j -> dict_get k (_buckets s) = Some j)
  | None => (t ∉ waiters l) /\ locked_by l <> Some t
  end.
Definition about (t : Z) (r : option Z) : Prop := r = None \/ r = Some t.

Lemma waits_other r r' t t' tk : about t r -> about t r' -> t' <> t -> waits r t' tk <-> waits r' t' tk.
Proof. intros Hr Hr' Hne. unfold waits. destruct Hr as [-> | ->], Hr' as [-> | ->]; naive_solver congruence. Qed.

(** One task and its lock change; every other task keeps its place. *)
Lemma wf_update r r' s s' t k i l l' :
  wf r s -> about t r -> about t r' ->
  _buckets s' = _buckets s -> _locks s' = _locks s -> next_object s' = next_object s ->
  (forall j, is_Some (bucket_store s !! j) -> is_Some (bucket_store s' !! j)) ->
  dict_get k (_locks s) = Some i -> lock_store s !! i = Some l -> lock_store s' = <[i := l']> (lock_store s) ->
  (forall t', t' <> t -> tasks s' !! t' = tasks s !! t') ->
  (forall tk, tasks s !! t = Some tk -> t_key tk = k) ->
  (forall k', default 0 (_active s' !! k') = in_flight k' (tasks s')) ->
  NoDup (waiters l') -> (forall t', t' <> t -> t' ∈ waiters l' <-> t' ∈ waiters l) ->
  (forall t', t' <> t -> locked_by l' = Some t' <-> locked_by l = Some t') -> woken_ok l' ->
  entry_ok r' s t k i l' (tasks s' !! t) -> wf r' s'.
Proof.
  intros H Hr Hr' Hb Hlk Hnx Hst Hk Hl Hls Hoth Hkey Hact Hnd Hw Hby Hwk He.
  assert (Hold : forall tk, tasks s !! t = Some tk -> t_lock tk = i).
  { intros tk Htk. destruct (wf_held _ _ H t tk Htk) as [Hd _]. rewrite (Hkey tk Htk) in Hd. congruence. }
  pose proof (fun t' tk => waits_other r r' t t' tk Hr Hr') as Hwo.
  assert (Hlook : forall j, lock_store s' !! j = if decide (j = i) then Some l' else lock_store s !! j).
  { intros j. rewrite Hls. case_decide; [subst; apply lookup_insert_eq|by rewrite lookup_insert_ne]. }
  constructor; rewrite ?Hb, ?Hlk, ?Hnx; try apply H; try exact Hact.
  - intros t' tk Htk. destruct (decide (t' = t)) as [->|Hne].
    + rewrite Htk in He. destruct He as (<-&<-&Hor&_). split; [done|]. exists l'.
      rewrite Hlook, decide_True by done. split; [done|]. unfold holds. naive_solver.
    + rewrite Hoth in Htk by done. destruct (wf_held _ _ H t' tk Htk) as (Hd&l0&Hl0&Hh). split; [done|].
      destruct (decide (t_lock tk = i)) as [Hi|Hi].
      * exists l'. rewrite Hlook, decide_True by done. split; [done|]. rewrite Hi in Hl0. rewrite Hl in Hl0. injection Hl0 as <-.
        unfold holds in *. rewrite <- (Hwo t' tk Hne), Hw, Hby by done. done.
      * exists l0. rewrite Hlook, decide_False by done. split; [done|]. unfold holds in *. by rewrite <- (Hwo t' tk Hne).
  - intros k' j Hj. destruct (wf_locks _ _ H k' j Hj) as (Hlt&l0&Hl0&H1&H2&H3&H4). split; [done|].
    rewrite Hlook. destruct (decide (j = i)) as [->|Hji].
    + exists l'. split; [done|]. rewrite Hl in Hl0. injection Hl0 as <-. split_and!; [done| | |exact Hwk].
      * intros t' Ht'. destruct (decide (t' = t)) as [->|Hne].
        -- destruct (tasks s' !! t) as [tk|]; simpl in He; naive_solver.
        -- rewrite Hoth by done. apply Hw in Ht'; [|done]. destruct (H2 t' Ht') as (tk&?&?&?). exists tk. by rewrite <- (Hwo t' tk Hne).
      * intros t' Ht'. destruct (decide (t' = t)) as [->|Hne].
        -- destruct (tasks s' !! t) as [tk|]; simpl in He; naive_solver.
        -- rewrite Hoth by done. apply Hby in Ht'; [|done]. destruct (H3 t' Ht') as (tk&?&?&?). exists tk. by rewrite <- (Hwo t' tk Hne).
    + exists l0. split; [done|]. split_and!; [done| | |done].
      * intros t' Ht'. destruct (H2 t' Ht') as (tk&Htk&Hlt'&?). destruct (decide (t' = t)) as [->|Hne].
        -- rewrite (Hold tk Htk) in Hlt'. congruence.
        -- exists tk. rewrite Hoth by done. by rewrite <- (Hwo t' tk Hne).
      * intros t' Ht'. destruct (H3 t' Ht') as (tk&Htk&Hlt'&?). destruct (decide (t' = t)) as [->|Hne].
        -- rewrite (Hold tk Htk) in Hlt'. congruence.
        -- exists tk. rewrite Hoth by done. by rewrite <- (Hwo t' tk Hne).
  - intros t' tk j Htk Hj. destruct (decide (t' = t)) as [->|Hne].
    + rewrite Htk in He. destruct He as (<-&_&_&He). by apply He.
    + rewrite Hoth in Htk by done. by apply (wf_bucket _ _ H t' tk).
  - intros k' j Hj. destruct (wf_buckets _ _ H k' j Hj). auto.
Qed.

(** ** The dict operations *)
Lemma lock_for_wf k s : wf None s ->
  let '(i, s') := _lock_for k s in
  wf None s' /\ dict_get k (_locks s') = Some i /\ _buckets s' = _buckets s /\ _active s' = _active s /\ tasks s' = tasks s /\
  bucket_store s' = bucket_store s /\ (next_object s <= next_object s')%nat /\ exists l, lock_store s' !! i = Some l /\ lock_ok None (tasks s) i l.
Proof.
  intros H. unfold _lock_for. destruct (dict_get k (_locks s)) as [i|] eqn:Hk.
  - destruct (wf_locks _ _ H k i Hk) as (Hlt&l&Hl&Hok).
    assert (Hget : forall k', dict_get k' (move_to_end k i (_locks s)) = dict_get k' (_locks s)).
    { intros k'. rewrite dict_get_move by apply H. by case_decide; subst. }
    split_and!; simpl; try done; [|by rewrite Hget|by exists l].
    constructor; simpl; intros *; rewrite ?Hget; try apply H. eauto using wf_bkeys, wf_lkeys with py.
  - simpl. assert (Hfresh : forall k' j, dict_get k' (_locks s) = Some j -> j <> next_object s).
    { intros k' j Hj. destruct (wf_locks _ _ H k' j Hj). lia. }
    assert (Hnew : lock_ok None (tasks s) (next_object s) {| locked_by := None; waiters := []; woken := false |}).
    { split_and!; simpl; [constructor|by intros ? ?%elem_of_nil|done|done]. }
    split_and!; try done; [|by rewrite dict_get_set, decide_True|lia|by eexists; rewrite lookup_insert_eq].
    constructor; simpl; try apply H.
    + eauto using wf_bkeys, wf_lkeys with py.
    + intros t tk Htk. destruct (wf_held _ _ H t tk Htk) as (Hd&l&Hl&Hh). rewrite dict_get_set, decide_False by congruence.
      split; [done|]. exists l. rewrite lookup_insert_ne; [done|]. symmetry. by apply (Hfresh (t_key tk)).
    + intros k' j. rewrite dict_get_set. case_decide as Hkk.
      * intros [= <-]. split; [lia|]. eexists. rewrite lookup_insert_eq. split; [done|exact Hnew].
      * intros Hj. destruct (wf_locks _ _ H k' j Hj) as (?&l&?&?). split; [lia|]. exists l.
        rewrite lookup_insert_ne; [done|]. symmetry. by apply (Hfresh k').
    + intros k1 k2 j. rewrite !dict_get_set. repeat case_decide; subst; try done.
      * intros [= <-] Hj. by destruct (Hfresh k2 _ Hj).
      * intros Hj [= <-]. by destruct (Hfresh k1 _ Hj).
      * apply (wf_linj _ _ H).
    + intros k' j Hj. destruct (wf_buckets _ _ H k' j Hj). split; [lia|done].
Qed.

(** Dropping a key nobody has in flight. *)
Lemma evict_key_wf r k s : wf r s -> default 0 (_active s !! k) = 0 ->
  wf r (with_dicts (dict_del k (_buckets s)) (dict_del k (_locks s)) s).
Proof.
  intros H Hidle. assert (Hno : forall t tk, tasks s !! t = Some tk -> t_key tk <> k).
  { intros t tk Htk Hk. rewrite (wf_active _ _ H) in Hidle. by apply (in_flight_pos k t tk (tasks s)) in Htk. }
  assert (Hb : forall k' i, dict_get k' (dict_del k (_buckets s)) = Some i -> dict_get k' (_buckets s) = Some i).
  { intros k' i. rewrite dict_get_del by apply H. by case_decide. }
  assert (Hl : forall k' i, dict_get k' (dict_del k (_locks s)) = Some i -> dict_get k' (_locks s) = Some i).
  { intros k' i. rewrite dict_get_del by apply H. by case_decide. }
  constructor; simpl; try apply H.
  - eauto using wf_bkeys, wf_lkeys with py.
  - eauto using wf_bkeys, wf_lkeys with py.
  - intros t tk Htk. rewrite dict_get_del, decide_False by (apply H || by apply (Hno t)). by apply (wf_held _ _ H).
  - intros k' i Hi. by apply (wf_locks _ _ H k' i), Hl.
  - intros k1 k2 i H1 H2. by apply (wf_linj _ _ H k1 k2 i); apply Hl.
  - intros t tk i Htk Hi. rewrite dict_get_del, decide_False by (apply H || by apply (Hno t)). by apply (wf_bucket _ _ H t tk).
  - intros k' i Hi. by apply (wf_buckets _ _ H k' i), Hb.
  - intros k1 k2 i H1 H2. by apply (wf_binj _ _ H k1 k2 i); apply Hb.
Qed.

Lemma oldest_idle_active s k : _oldest_idle_key s = Some k -> default 0 (_active s !! k) = 0.
Proof.
  unfold _oldest_idle_key. destruct (list_find _ _) as [[j k']|] eqn:Hf; simpl; [|done]. intros [= <-].
  by apply list_find_Some in Hf as (_&?&_).
Qed.
(** What eviction leaves alone: everything but the idle keys' entries. *)
Lemma evict_loop_wf r fuel : forall s, wf r s ->
  let s' := evict_loop fuel s in
  wf r s' /\ _active s' = _active s /\ bucket_store s' = bucket_store s /\ lock_store s' = lock_store s /\ tasks s' = tasks s /\
  next_object s' = next_object s /\
  (forall k, default 0 (_active s !! k) <> 0 -> dict_get k (_buckets s') = dict_get k (_buckets s)).
Proof.
  induction fuel as [|fuel IH]; intros s H; simpl; [done|].
  destruct (_ <? _); [|done]. destruct (_oldest_idle_key s) as [k|] eqn:Hk; [|done].
  apply oldest_idle_active in Hk. destruct (IH _ (evict_key_wf r k s H Hk)) as (?&?&?&?&?&?&Hget). split_and!; try done.
  intros k' Hk'. rewrite Hget by done. simpl. rewrite dict_get_del by apply H. rewrite decide_False; [done|]. congruence.
Qed.

(** ** The number of tracked buckets *)
Lemma keys_in_flight (ks : list Key) (m : gmap Z Task) : NoDup ks -> (forall k, k ∈ ks -> in_flight k m <> 0) -> Zlen ks <= Z.of_nat (size m).
Proof.
  intros Hnd Hk. unfold Zlen. assert (length ks <= length ((fun x => t_key x.2) <$> map_to_list m))%nat as Hle; [|rewrite length_fmap, length_map_to_list in Hle; lia].
  apply submseteq_length, NoDup_submseteq; [done|]. intros k Hin. specialize (Hk k Hin). unfold in_flight in Hk.
  destruct (decide (filter (fun x => t_key x.2 = k) m = ∅)) as [He|He]; [by rewrite He, map_size_empty in Hk|].
  apply map_choose in He as (t&tk&Htk). apply map_lookup_filter_Some in Htk as [Htk Hkk]. simpl in Hkk.
  apply list_elem_of_fmap. exists (t, tk). split; [done|]. by apply elem_of_map_to_list.
Qed.
Lemma evict_loop_bound r fuel : forall s, wf r s -> (length (_buckets s) <= fuel)%nat -> 0 <= _max_tracked_buckets ->
  Zlen (_buckets (evict_loop fuel s)) <= Z.max _max_tracked_buckets (Z.of_nat (size (tasks s))).
Proof.
  induction fuel as [|fuel IH]; intros s H Hf Hmax; simpl.
  { destruct (_buckets s); simpl in Hf; [change (Zlen []) with 0|]; lia. }
  destruct (Z.ltb_spec _max_tracked_buckets (Zlen (_buckets s))); [|lia].
  destruct (_oldest_idle_key s) as [k|] eqn:Hk.
  - pose proof (oldest_idle_active s k Hk) as Ha. apply (IH _ (evict_key_wf r k s H Ha)); [|done]. simpl.
    unfold _oldest_idle_key in Hk. destruct (list_find _ _) as [[n k']|] eqn:Hl; simplify_eq/=.
    apply list_find_Some in Hl as (Hl&_). apply list_elem_of_lookup_2 in Hl.
    assert (Hdel : (S (length (dict_del k (_buckets s))) = length (_buckets s))%nat); [|lia].
    clear -Hl. induction (_buckets s) as [|[j v] d IH]; [by apply elem_of_nil in Hl|]. simpl. case_decide as Hj; [done|]. simpl.
    rewrite IH; [done|]. unfold dict_keys in Hl. rewrite fmap_cons in Hl. by apply elem_of_cons in Hl as [?|?].
  - assert (Hall : Zlen (dict_keys (_buckets s)) <= Z.of_nat (size (tasks s))).
    { apply keys_in_flight; [apply H|]. intros k Hin. rewrite <- (wf_active _ _ H). intros Hz. unfold _oldest_idle_key in Hk.
      destruct (list_find _ _) as [?|] eqn:Hl; [done|]. apply list_find_None in Hl. rewrite Forall_forall in Hl. by apply (Hl k). }
    unfold dict_keys in Hall. rewrite Zlen_fmap in Hall. lia.
Qed.

Definition tracked (s : BurstLimiter) : Z := Zlen (_buckets s).
Definition calls (s : BurstLimiter) : Z := Z.of_nat (size (tasks s)).
Lemma move_to_end_length (k : Key) (i : nat) d : dict_get k d = Some i -> Zlen (move_to_end k i d) = Zlen d.
Proof.
  intros Hk. unfold move_to_end. rewrite Zlen_app, Zlen_singleton. induction d as [|[j v] d IH]; simpl in *; [done|].
  destruct (decide (k = j)); rewrite ?Zlen_cons; [lia|]. specialize (IH Hk). lia.
Qed.
Definition full_bucket (now : Q) : _BucketState :=
  {| tokens := inject_Z _capacity; last_refill_monotonic := now; empty_since_monotonic := None |}.

(** The bucket of a key in flight is in the dict after the eviction it may have caused. *)
Lemma bucket_for_wf r k now s : wf r s -> default 0 (_active s !! k) <> 0 ->
  let '(os, i, s') := _bucket_for k now s in
  wf r s' /\ dict_get k (_buckets s') = Some i /\ _active s' = _active s /\ tasks s' = tasks s /\ lock_store s' = lock_store s /\
  ((os = [] /\ bucket_store s' = bucket_store s /\ next_object s' = next_object s /\ dict_get k (_buckets s) = Some i) \/
   (os = [Created i now] /\ i = next_object s /\ bucket_store s' = <[i := full_bucket now]> (bucket_store s) /\
    next_object s' = S (next_object s))) /\
  (0 <= _max_tracked_buckets -> tracked s' <= Z.max (tracked s) (Z.max _max_tracked_buckets (calls s))).
Proof.
  intros H Hact. unfold _bucket_for. destruct (dict_get k (_buckets s)) as [i|] eqn:Hk.
  - assert (Hget : forall k', dict_get k' (move_to_end k i (_buckets s)) = dict_get k' (_buckets s)).
    { intros k'. rewrite dict_get_move by apply H. by case_decide; subst. }
    simpl. split_and!; try done; [|by rewrite Hget|by left|unfold tracked; simpl; rewrite move_to_end_length by done; lia].
    constructor; simpl; intros *; rewrite ?Hget; try apply H. eauto using wf_bkeys, wf_lkeys with py.
  - simpl. set (i := next_object s). set (s1 := with_dicts _ _ _).
    assert (Hfresh : forall k' j, dict_get k' (_buckets s) = Some j -> j <> i).
    { intros k' j Hj. destruct (wf_buckets _ _ H k' j Hj). subst i. lia. }
    assert (H1 : wf r s1).
    { constructor; simpl; try apply H.
      - eauto using wf_bkeys, wf_lkeys with py.
      - intros k' j Hj. destruct (wf_locks _ _ H k' j Hj). split; [lia|done].
      - intros t tk j Htk Hj. rewrite dict_get_set, decide_False; [by apply (wf_bucket _ _ H t tk)|].
        intros Hkk. pose proof (wf_bucket _ _ H t tk j Htk Hj). congruence.
      - intros k' j. rewrite dict_get_set. case_decide.
        + intros [= <-]. split; [lia|]. by rewrite lookup_insert_eq.
        + intros Hj. destruct (wf_buckets _ _ H k' j Hj). split; [lia|]. rewrite lookup_insert_ne; [done|].
          symmetry. by apply (Hfresh k').
      - intros k1 k2 j. rewrite !dict_get_set. repeat case_decide; subst; try done.
        + intros [= <-] Hj. by destruct (Hfresh k2 _ Hj).
        + intros Hj [= <-]. by destruct (Hfresh k1 _ Hj).
        + apply (wf_binj _ _ H). }
    destruct (evict_loop_wf r (length (_buckets s1)) s1 H1) as (Hwf&Ha&Hbs&Hls&Ht&Hn&Hget).
    unfold _evict_if_needed. split_and!; [done| |done|done|done| |].
    + rewrite Hget by done. simpl. by rewrite dict_get_set, decide_True.
    + right. rewrite Hbs, Hn. done.
    + intros Hmax. pose proof (evict_loop_bound r _ s1 H1 (le_n _) Hmax). unfold tracked, calls. simpl in *. lia.
Qed.

Lemma set_bucket_wf r i b s : wf r s -> wf r (set_bucket i b s).
Proof.
  intros H. constructor; simpl; try apply H. intros k j Hj. destruct (wf_buckets _ _ H k j Hj) as [? Hs]. split; [done|].
  destruct (decide (j = i)) as [->|Hne]; [by rewrite lookup_insert_eq|by rewrite lookup_insert_ne].
Qed.

(** ** The ends of a critical section *)
Lemma not_waits_holds r t tk l : holds r t tk l -> ~ waits r t tk -> locked_by l = Some t.
Proof. intros [[? ?]|[? ?]]; tauto. Qed.
Lemma lock_of r s t tk : wf r s -> tasks s !! t = Some tk ->
  dict_get (t_key tk) (_locks s) = Some (t_lock tk) /\
  exists l, lock_store s !! t_lock tk = Some l /\ lock_ok r (tasks s) (t_lock tk) l /\ holds r t tk l.
Proof.
  intros H Htk. destruct (wf_held _ _ H t tk Htk) as (Hd&l&Hl&Hh). split; [done|]. exists l.
  destruct (wf_locks _ _ H _ _ Hd) as (_&l'&Hl'&Hok). rewrite Hl in Hl'. injection Hl' as <-. done.
Qed.
Lemma leave_active r k t s tk : wf r s -> tasks s !! t = Some tk -> t_key tk = k ->
  forall k', default 0 ((if default 0 (_active s !! k) - 1 =? 0 then delete k (_active s)
                         else <[k := default 0 (_active s !! k) - 1]> (_active s)) !! k') = in_flight k' (delete t (tasks s)).
Proof.
  intros Hw Htk Hk k'. pose proof (wf_active _ _ Hw) as Hact.
  rewrite (in_flight_delete k' t tk) by done. rewrite Hk, <- !Hact.
  destruct (Z.eqb_spec (default 0 (_active s !! k) - 1) 0) as [H0|H0]; case_decide as Hkk; subst.
  - rewrite lookup_delete_eq. simpl. lia.
  - rewrite lookup_delete_ne by done. lia.
  - rewrite lookup_insert_eq. simpl. lia.
  - rewrite lookup_insert_ne by done. lia.
Qed.

Lemma exit_wf r t tk s : wf r s -> about t r -> tasks s !! t = Some tk -> ~ waits r t tk -> wf None (exit t tk s).
Proof.
  intros H Hr Htk Hnw. destruct (lock_of r s t tk H Htk) as (Hd&l&Hl&(Hnd&Hwait&Hby&Hwk)&Hh).
  pose proof (not_waits_holds _ _ _ _ Hh Hnw) as Hlb. unfold exit, release. rewrite Hl.
  apply (wf_update r None s _ t (t_key tk) (t_lock tk) l
    (_wake_up_first {| locked_by := None; waiters := waiters l; woken := woken l |})); simpl; auto.
  - by left.
  - intros t' Hne. by rewrite lookup_delete_ne.
  - intros tk' Htk'. congruence.
  - by apply (leave_active r (t_key tk) t s tk).
  - intros t' Hne. rewrite Hlb. naive_solver congruence.
  - unfold woken_ok. simpl. by destruct (waiters l).
  - rewrite lookup_delete_eq. simpl. split; [|done]. intros Hin. destruct (Hwait t Hin) as (tk'&Htk'&_&Hw). congruence.
Qed.
Lemma park_wf r t tk p j s : wf r s -> about t r -> tasks s !! t = Some tk -> ~ waits r t tk ->
  p <> Waiting -> bucket_of p = Some j -> dict_get (t_key tk) (_buckets s) = Some j -> wf None (park t tk p s).
Proof.
  intros H Hr Htk Hnw Hp Hj Hbk. destruct (lock_of r s t tk H Htk) as (Hd&l&Hl&(Hnd&Hwait&Hby&Hwk)&Hh).
  pose proof (not_waits_holds _ _ _ _ Hh Hnw) as Hlb. unfold park.
  apply (wf_update r None s _ t (t_key tk) (t_lock tk) l l); simpl; auto.
  - by left.
  - by rewrite insert_id.
  - intros t' Hne. by rewrite lookup_insert_ne.
  - intros tk' Htk'. congruence.
  - intros k'. rewrite (in_flight_park k' t tk) by done. apply H.
  - rewrite lookup_insert_eq. simpl. split_and!; [done|done| |].
    + right. unfold waits. simpl. split_and!; [naive_solver|done|].
      intros Hin. destruct (Hwait t Hin) as (tk'&Htk'&_&Hw). congruence.
    + intros j'. rewrite Hj. by intros [= <-].
Qed.

(** ** The steps *)
Lemma body_wf t tk now_new now s : wf (Some t) s -> tasks s !! t = Some tk -> wf None (body t tk now_new now s).2.
Proof.
  intros H Htk. pose proof (bucket_for_wf (Some t) (t_key tk) now_new s H) as Hb. unfold body.
  destruct (_bucket_for (t_key tk) now_new s) as [[os i] s1].
  destruct Hb as (H1&Hget&_&Hts&_&_&_); [rewrite (wf_active _ _ H); by apply (in_flight_pos _ t tk)|].
  destruct (wf_buckets _ _ H1 _ _ Hget) as [_ [b0 Hb0]]. rewrite Hb0.
  assert (Hnw : ~ waits (Some t) t tk) by (by intros [_ ?]). assert (Hab : about t (Some t)) by (by right).
  rewrite <- Hts in Htk.
  destruct (Qle_bool 1 _); simpl; [by apply (exit_wf (Some t)); [apply set_bucket_wf|..]|].
  destruct (empty_since_monotonic _); simpl; [|by apply (exit_wf (Some t)); [apply set_bucket_wf|..]].
  destruct (Qltb _drop_after_seconds _); simpl;
    by apply (park_wf (Some t) _ _ _ i); [apply set_bucket_wf|..].
Qed.

Lemma elem_remove (t t' : Z) (ws : list Z) : t' <> t -> t' ∈ filter (fun w => w <> t) ws <-> t' ∈ ws.
Proof. intros. rewrite list_elem_of_filter. naive_solver. Qed.
Lemma not_elem_remove (t : Z) (ws : list Z) : t ∉ filter (fun w => w <> t) ws.
Proof. rewrite list_elem_of_filter. naive_solver. Qed.

(** Taking a free lock: the task runs. *)
Lemma take_lock_wf t tk l s0 s : wf None s0 -> tasks s !! t = Some tk -> t_phase tk = Waiting ->
  dict_get (t_key tk) (_locks s0) = Some (t_lock tk) -> lock_store s0 !! t_lock tk = Some l ->
  lock_ok None (tasks s0) (t_lock tk) l -> locked_by l = None ->
  (forall t', t' <> t -> tasks s !! t' = tasks s0 !! t') -> (forall tk', tasks s0 !! t = Some tk' -> t_key tk' = t_key tk) ->
  (forall k', default 0 (_active s !! k') = in_flight k' (tasks s)) ->
  _buckets s = _buckets s0 -> _locks s = _locks s0 -> next_object s = next_object s0 -> bucket_store s = bucket_store s0 ->
  lock_store s = lock_store s0 -> wf (Some t) (take_lock t tk l s).
Proof.
  intros H Htk Hph Hd Hl (Hnd&_&_&_) Hfree Hoth Hkey Hact Hb Hlk Hn Hbs Hls.
  apply (wf_update None (Some t) s0 _ t (t_key tk) (t_lock tk) l
    {| locked_by := Some t; waiters := filter (fun w => w <> t) (waiters l); woken := false |}); simpl; auto; try (by left); try (by right).
  - by rewrite Hbs.
  - by rewrite Hls.
  - by apply NoDup_filter.
  - intros t' Hne. by apply elem_remove.
  - intros t' Hne. rewrite Hfree. naive_solver congruence.
  - done.
  - rewrite Htk. simpl. split_and!; [done|done| |by rewrite Hph].
    right. split_and!; [by intros [_ ?]|done|apply not_elem_remove].
Qed.

(** Only the locks, the dicts and waiting tasks change. *)
Definition quiet (s s' : BurstLimiter) : Prop :=
  bucket_store s' = bucket_store s /\ (next_object s <= next_object s')%nat /\
  tracked s' = tracked s /\ calls s' <= calls s + 1 /\
  forall t tk, tasks s' !! t = Some tk -> tasks s !! t = Some tk \/ t_phase tk = Waiting.
(** A step either runs the critical section of [t] or parks. *)
Definition enters (t : Z) (now_new now : Q) (s : BurstLimiter) (x : list obs * BurstLimiter) : Prop :=
  (exists tk s', x = body t tk now_new now s' /\ wf (Some t) s' /\ tasks s' !! t = Some tk /\ quiet s s') \/
  (exists s', x = ([], s') /\ wf None s' /\ quiet s s').
Lemma quiet_refl s : quiet s s.
Proof. split_and!; auto. lia. Qed.

Lemma start_enters t k now_new now s : wf None s -> enters t now_new now s (start t k now_new now s).
Proof.
  intros H. unfold start. destruct (tasks s !! t) as [?|] eqn:Ht; [right; exists s; auto using quiet_refl|].
  set (a := <[k := default 0 (_active s !! k) + 1]> (_active s)).
  pose proof (lock_for_wf k s H) as Hlf.
  assert (Hcomm : _lock_for k (with_active a s) = let '(i, s1) := _lock_for k s in (i, with_active a s1)).
  { unfold _lock_for. simpl. by destruct (dict_get k (_locks s)). }
  rewrite Hcomm. destruct (_lock_for k s) as [i s1]. destruct Hlf as (H1&Hd&Hbk&Ha&Hts&Hbs&Hnx&l&Hl&Hok). simpl. rewrite Hl.
  set (tk := {| t_key := k; t_lock := i; t_phase := Waiting |}).
  assert (Hact : forall k', default 0 (a !! k') = in_flight k' (<[t := tk]> (tasks s1))).
  { intros k'. rewrite Hts, in_flight_insert by done. rewrite <- (wf_active _ _ H). simpl. unfold a. case_decide as Hk.
    - subst. by rewrite lookup_insert_eq.
    - rewrite lookup_insert_ne by done. lia. }
  assert (Hnew : forall t', t' <> t -> <[t := tk]> (tasks s1) !! t' = tasks s1 !! t') by (intros; by rewrite lookup_insert_ne).
  assert (Hquiet : forall t' tk', <[t := tk]> (tasks s1) !! t' = Some tk' -> tasks s !! t' = Some tk' \/ t_phase tk' = Waiting).
  { intros t' tk'. destruct (decide (t' = t)) as [->|Hne]; [rewrite lookup_insert_eq; intros [= <-]; by right|].
    rewrite Hnew, Hts by done. by left. }
  assert (Hcalls : Z.of_nat (size (<[t := tk]> (tasks s1))) <= calls s + 1).
  { rewrite map_size_insert_None by (by rewrite Hts). unfold calls. rewrite Hts. lia. }
  rewrite <- Hts in Ht, Hok.
  assert (Htake : locked_by l = None -> wf (Some t) (take_lock t tk l (with_tasks (<[t := tk]> (tasks s1)) (with_active a s1)))).
  { intros Hfree. apply (take_lock_wf t tk l s1); simpl; auto; [apply lookup_insert_eq|]. intros tk' Htk'. congruence. }
  destruct Hok as (Hnd&Hwait&Hby&Hwk). assert (Hnot : t ∉ waiters l) by (intros Hin; destruct (Hwait t Hin) as (?&?&_); congruence).
  assert (Hq : (locked_by l <> None \/ waiters l <> []) -> wf None (set_lock i
     {| locked_by := locked_by l; waiters := waiters l ++ [t]; woken := woken l |} (with_tasks (<[t := tk]> (tasks s1)) (with_active a s1)))).
  { intros Hbusy. apply (wf_update None None s1 _ t k i l
      {| locked_by := locked_by l; waiters := waiters l ++ [t]; woken := woken l |}); simpl; auto; try by left.
    - intros tk' Htk'. congruence.
    - apply NoDup_app. split_and!; [done| |apply NoDup_singleton]. intros x Hx ->%list_elem_of_singleton. done.
    - intros t' Hne. rewrite elem_of_app, list_elem_of_singleton. naive_solver.
    - unfold woken_ok. simpl. rewrite Hwk. destruct (locked_by l), (waiters l); simpl; naive_solver.
    - rewrite lookup_insert_eq. simpl. split_and!; try done. left. split_and!.
      + done.
      + apply elem_of_app. right. by apply list_elem_of_singleton.
      + intros Hlb. destruct (Hby t Hlb) as (?&?&_). congruence. }
  destruct (locked_by l) eqn:Hlb, (waiters l) eqn:Hwl; simpl;
    [right|right|left; exists tk|right]; (eexists; split; [done|]); split_and!;
    first [apply Hq; naive_solver | apply lookup_insert_eq | by apply Htake | unfold quiet, tracked, calls; simpl; rewrite Hbk; by split_and!].
Qed.

Lemma lock_resumed_enters t now_new now s : wf None s -> enters t now_new now s (lock_resumed t now_new now s).
Proof.
  intros H. assert (Hid : enters t now_new now s ([], s)) by (right; exists s; auto using quiet_refl).
  unfold lock_resumed. destruct (tasks s !! t) as [tk|] eqn:Htk; [|done].
  destruct (lock_of None s t tk H Htk) as (Hd&l&Hl&Hok&Hh). rewrite Hl.
  destruct (woken l) eqn:Hwk, (decide (head (waiters l) = Some t)) as [Hhd|]; rewrite ?bool_decide_true, ?bool_decide_false by done; simpl; try done.
  destruct Hok as (Hnd&Hwait&Hby&Hw). rewrite Hwk in Hw.
  assert (Hin : t ∈ waiters l) by (destruct (waiters l); simplify_eq/=; apply list_elem_of_here).
  destruct (Hwait t Hin) as (tk'&Htk'&_&[Hph _]). rewrite Htk in Htk'. injection Htk' as <-.
  left. exists tk. eexists. split; [done|]. split_and!; [|done|exact (quiet_refl s)]. apply (take_lock_wf t tk l s); auto.
  - unfold lock_ok. rewrite Hwk. by split_and!.
  - by destruct (locked_by l).
  - intros tk' Htk'. congruence.
  - apply H.
Qed.

Lemma enters_wf t now_new now s x : enters t now_new now s x -> wf None x.2.
Proof. intros [(tk&s'&->&H&Htk&_)|(s'&->&H&_)]; [by apply body_wf|done]. Qed.

Lemma slept_wf t now s : wf None s -> wf None (slept t now s).2.
Proof.
  intros H. unfold slept. destruct (tasks s !! t) as [tk|] eqn:Htk; [|done]. destruct (t_phase tk) as [|i w due|] eqn:Hph; try done.
  destruct (bucket_store s !! i); [|done]. destruct (Qle_bool due now); [|done]. simpl.
  apply (park_wf None t tk _ i); simpl; try done; [by apply set_bucket_wf|by left|by intros [? _]; congruence|].
  apply (wf_bucket _ _ H t tk); [done|]. by rewrite Hph.
Qed.
Lemma audited_wf t s : wf None s -> wf None (audited t s).2.
Proof.
  intros H. unfold audited. destruct (tasks s !! t) as [tk|] eqn:Htk; [|done].
  destruct (t_phase tk) as [| |i rows res] eqn:Hph; try done.
  assert (Hnw : ~ waits None t tk) by (intros [? _]; congruence).
  assert (Hget : dict_get (t_key tk) (_buckets s) = Some i) by (apply (wf_bucket _ _ H t tk); [done|by rewrite Hph]).
  assert (Hex : wf None (exit t tk s)) by (apply (exit_wf None); [done|by left|done..]).
  destruct rows as [|? [|? rows]]; simpl; try done. apply (park_wf None t tk _ i); try done. by left.
Qed.
Lemma failed_wf t s : wf None s -> wf None (failed t s).2.
Proof.
  intros H. unfold failed. destruct (tasks s !! t) as [tk|] eqn:Htk; [|done].
  destruct (lock_of None s t tk H Htk) as (Hd&l&Hl&(Hnd&Hwait&Hby&Hwk)&Hh). rewrite Hl.
  assert (Hex : t_phase tk <> Waiting -> wf None (exit t tk s)) by (intros Hp; apply (exit_wf None); [done|by left|done|by intros [? _]]).
  destruct (t_phase tk) eqn:Hph; simpl; [|by apply Hex..]. clear Hex.
  assert (Hlb : locked_by l <> Some t) by (intros Hlb; destruct (Hby t Hlb) as (tk'&Htk'&_&Hn); destruct Hn; split; congruence).
  set (l1 := {| locked_by := locked_by l; waiters := filter (fun w => w <> t) (waiters l); woken := woken l |}).
  set (l' := match locked_by l with None => _wake_up_first l1 | Some _ => l1 end).
  assert (Hl' : waiters l' = waiters l1 /\ locked_by l' = locked_by l /\ woken_ok l').
  { unfold l', woken_ok. destruct (locked_by l) eqn:Hb; simpl; [by rewrite Hwk|]. by destruct (filter _ _). }
  destruct Hl' as (Hw1&Hb1&Hk1).
  apply (wf_update None None s _ t (t_key tk) (t_lock tk) l l'); simpl; auto; try by left.
  - intros t' Hne. by rewrite lookup_delete_ne.
  - intros tk' Htk'. congruence.
  - by apply (leave_active None (t_key tk) t s tk).
  - rewrite Hw1. by apply NoDup_filter.
  - intros t' Hne. rewrite Hw1. by apply elem_remove.
  - intros t' Hne. by rewrite Hb1.
  - rewrite lookup_delete_eq. simpl. rewrite Hw1, Hb1. split; [apply not_elem_remove|done].
Qed.

Lemma step_wf ev s : wf None s -> wf None (step ev s).2.
Proof.
  intros H. destruct ev; simpl; [apply (enters_wf task now_new now s)|apply (enters_wf task now_new now s)| | |];
    [by apply start_enters|by apply lock_resumed_enters|by apply slept_wf|by apply audited_wf|by apply failed_wf].
Qed.
Lemma init_wf : wf None init.
Proof.
  constructor; simpl; try done; try constructor.
Qed.
Lemma run_wf evs : forall s, wf None s -> wf None (run evs s).2.
Proof.
  induction evs as [|ev evs IH]; intros s H; simpl; [done|]. pose proof (step_wf ev s H) as H'.
  destruct (step ev s) as [os s']. specialize (IH s' H'). by destruct (run evs s').
Qed.

(** ** The tokens *)
Definition taken (i : nat) (os : list obs) : Z :=
  Zsum (fun o => match o with Taken j => if decide (i = j) then 1 else 0 | _ => 0 end) os.
Definition bucket_ok (d : Q) (b : _BucketState) : Prop :=
  (0 <= tokens b <= inject_Z _capacity)%Q /\ (last_refill_monotonic b <= d)%Q /\
  ((tokens b < 1)%Q -> is_Some (empty_since_monotonic b)).
(** What a bucket gave out since it was created, against what it held and was refilled. *)
Definition charged (os : list obs) (i : nat) (b : _BucketState) : Prop :=
  forall c, Created i c ∈ os ->
    (inject_Z (taken i os) + tokens b <= inject_Z _capacity + (last_refill_monotonic b - c) / _refill_seconds)%Q.
(** A sleep ends when the next token is due. *)
Definition sleeps_enough (b : _BucketState) (due : Q) : Prop :=
  ((1 - tokens b) * _refill_seconds <= due - last_refill_monotonic b)%Q.

Record metered (d : Q) (os : list obs) (s : BurstLimiter) : Prop := {
  mt_store : forall i b, bucket_store s !! i = Some b -> (i < next_object s)%nat /\ bucket_ok d b /\ charged os i b;
  mt_created : forall i c, Created i c ∈ os -> is_Some (bucket_store s !! i);
  mt_none : forall i, bucket_store s !! i = None -> taken i os = 0;
  mt_sleep : forall t tk i w due, tasks s !! t = Some tk -> t_phase tk = Sleeping i w due ->
               exists b, bucket_store s !! i = Some b /\ sleeps_enough b due;
  mt_assert : forall t, AssertionFailed t ∉ os }.

Lemma taken_app i os os' : taken i (os ++ os') = taken i os + taken i os'.
Proof. apply Zsum_app. Qed.

Lemma bucket_ok_later d d' b : (d <= d')%Q -> bucket_ok d b -> bucket_ok d' b.
Proof. intros Hd (?&?&?). split_and!; try done; lra. Qed.

Lemma metered_same d d' os s s' : metered d os s -> (d <= d')%Q -> bucket_store s' = bucket_store s ->
  (next_object s <= next_object s')%nat ->
  (forall t tk, tasks s' !! t = Some tk -> tasks s !! t = Some tk \/ t_phase tk = Waiting) -> metered d' os s'.
Proof.
  intros H Hd Hst Hn Ht. constructor; rewrite ?Hst; try apply H.
  - intros i b Hb. destruct (mt_store _ _ _ H i b Hb) as (?&?&?). split_and!; [lia|by apply (bucket_ok_later d)|done].
  - intros t tk i w due Htk Hp. destruct (Ht t tk Htk) as [?|?]; [by apply (mt_sleep _ _ _ H t tk i w)|congruence].
Qed.
(** One bucket changes, giving out [taken i new]. *)
Lemma metered_charge d d' os new s s' i b b' :
  metered d os s -> (d <= d')%Q -> bucket_store s !! i = Some b -> bucket_store s' = <[i := b']> (bucket_store s) ->
  next_object s' = next_object s ->
  (forall j c, Created j c ∉ new) -> (forall t, AssertionFailed t ∉ new) -> (forall j, j <> i -> taken j new = 0) ->
  bucket_ok d' b' ->
  (inject_Z (taken i new) + tokens b' <= tokens b + (last_refill_monotonic b' - last_refill_monotonic b) / _refill_seconds)%Q ->
  (forall t tk j w due, tasks s' !! t = Some tk -> t_phase tk = Sleeping j w due ->
     (j = i /\ sleeps_enough b' due) \/ (j <> i /\ tasks s !! t = Some tk)) ->
  metered d' (os ++ new) s'.
Proof.
  intros H Hd Hb Hst Hn Hnc Hna Hnt Hok Hsum Hsl.
  assert (Hcr : forall j c, Created j c ∈ os ++ new -> Created j c ∈ os) by (intros j c [?|?]%elem_of_app; [done|by destruct (Hnc j c)]).
  constructor; rewrite ?Hst, ?Hn.
  - intros j bj. destruct (decide (j = i)) as [->|Hne].
    + rewrite lookup_insert_eq. intros [= <-]. destruct (mt_store _ _ _ H i b Hb) as (?&?&Hch). split_and!; [done..|].
      intros c Hc%Hcr. specialize (Hch c Hc). rewrite taken_app, inject_Z_plus.
      unfold Qdiv in *. lra.
    + rewrite lookup_insert_ne by done. intros Hj. destruct (mt_store _ _ _ H j bj Hj) as (?&?&Hch).
      split_and!; [done|by apply (bucket_ok_later d)|].
      intros c Hc%Hcr. rewrite taken_app, Hnt, Z.add_0_r by done. by apply Hch.
  - intros j c Hc%Hcr. destruct (decide (j = i)) as [->|Hne]; [rewrite lookup_insert_eq; by eexists|].
    rewrite lookup_insert_ne by done. by apply (mt_created _ _ _ H j c).
  - intros j. destruct (decide (j = i)) as [->|Hne]; [by rewrite lookup_insert_eq|]. rewrite lookup_insert_ne by done.
    intros Hj. rewrite taken_app, Hnt by done. rewrite (mt_none _ _ _ H j Hj). done.
  - intros t tk j w due Htk Hp. destruct (Hsl t tk j w due Htk Hp) as [[-> ?]|[Hne ?]].
    + exists b'. by rewrite lookup_insert_eq.
    + rewrite lookup_insert_ne by done. by apply (mt_sleep _ _ _ H t tk j w).
  - intros t [?|?]%elem_of_app; [by apply (mt_assert _ _ _ H t)|by destruct (Hna t)].
Qed.

(** A bucket belongs to its key's call that runs: nobody sleeps on it. *)
Lemma sleeper_elsewhere r s t t' tk tk' i j : wf r s -> tasks s !! t = Some tk -> ~ waits r t tk ->
  dict_get (t_key tk) (_buckets s) = Some i -> t' <> t -> tasks s !! t' = Some tk' -> bucket_of (t_phase tk') = Some j -> j <> i.
Proof.
  intros H Htk Hnw Hi Hne Htk' Hj ->. pose proof (wf_bucket _ _ H t' tk' i Htk' Hj) as Hi'.
  pose proof (wf_binj _ _ H _ _ _ Hi Hi') as Hkey.
  destruct (lock_of r s t tk H Htk) as (Hd&l&Hl&_&Hh). destruct (lock_of r s t' tk' H Htk') as (Hd'&l'&Hl'&_&Hh').
  rewrite Hkey, Hd' in Hd. injection Hd as Hd. rewrite <- Hd, Hl' in Hl. injection Hl as <-.
  assert (Hnw' : ~ waits r t' tk') by (intros [Hp _]; by rewrite Hp in Hj).
  pose proof (not_waits_holds _ _ _ _ Hh Hnw). pose proof (not_waits_holds _ _ _ _ Hh' Hnw'). congruence.
Qed.
Lemma exit_fields t tk s : tasks (exit t tk s) = delete t (tasks s) /\ bucket_store (exit t tk s) = bucket_store s /\
  next_object (exit t tk s) = next_object s.
Proof. unfold exit, release. by destruct (lock_store s !! t_lock tk). Qed.

Section metering.
Context (Hcap : 1 <= _capacity) (Hrs : (0 < _refill_seconds)%Q).

Lemma elapsed_rate x : ((x / _refill_seconds) * _refill_seconds == x)%Q.
Proof using Hrs. field. lra. Qed.
Lemma elapsed_pos x : (0 <= x)%Q -> (0 <= x / _refill_seconds)%Q.
Proof using Hrs. intros. apply Qle_shift_div_l; [done|]. lra. Qed.
Lemma cap_ge_1 : (1 <= inject_Z _capacity)%Q.
Proof using Hcap. rewrite Zle_Qle in Hcap. done. Qed.

Lemma refill_ok d now b : bucket_ok d b -> (d <= now)%Q ->
  bucket_ok now (_refill now b) /\ (tokens b <= tokens (_refill now b))%Q /\
  (tokens (_refill now b) <= tokens b + (last_refill_monotonic (_refill now b) - last_refill_monotonic b) / _refill_seconds)%Q.
Proof using Hcap Hrs.
  intros (Ht&Hl&He) Hd. unfold _refill. destruct (Qleb_spec (now - last_refill_monotonic b) 0) as [H0|H0]; simpl.
  - split_and!; try done; [split_and!; try done; lra|lra|].
    pose proof (elapsed_pos (last_refill_monotonic b - last_refill_monotonic b) ltac:(lra)). lra.
  - pose proof (elapsed_pos (now - last_refill_monotonic b) ltac:(lra)) as Hx. set (x := ((now - last_refill_monotonic b) / _refill_seconds)%Q) in *.
    pose proof (py_min_glb (inject_Z _capacity) (tokens b + x) (tokens b) ltac:(lra) ltac:(lra)) as Hge.
    pose proof (py_min_le_l (inject_Z _capacity) (tokens b + x)). split_and!; [|done|apply py_min_le_r].
    split_and!; simpl; [lra|done|lra|]. intros Hlt. destruct (Qleb_spec 1 (py_min (inject_Z _capacity) (tokens b + x))); [lra|]. apply He. lra.
Qed.
Lemma refill_wakes now b due : sleeps_enough b due -> (due <= now)%Q -> (1 <= tokens (_refill now b))%Q.
Proof using Hcap Hrs.
  unfold sleeps_enough. intros Hs Hd. pose proof cap_ge_1. unfold _refill.
  destruct (Qleb_spec (now - last_refill_monotonic b) 0) as [H0|H0]; simpl.
  - destruct (Qlt_le_dec (tokens b) 1) as [Hlt|]; [|done]. assert (0 < (1 - tokens b) * _refill_seconds)%Q by (apply Qmult_lt_0_compat; lra). lra.
  - apply py_min_glb; [done|]. assert ((1 - tokens b) * _refill_seconds <= now - last_refill_monotonic b)%Q as Hle by lra.
    apply (Qle_shift_div_l _ _ _ Hrs) in Hle. lra.
Qed.

Lemma bucket_for_metered r k now d os s : wf r s -> default 0 (_active s !! k) <> 0 -> metered d os s -> (d <= now)%Q ->
  let '(os', i, s') := _bucket_for k now s in metered now (os ++ os') s' /\ is_Some (bucket_store s' !! i).
Proof using Hcap Hrs.
  intros H Ha Hm Hd. pose proof (bucket_for_wf r k now s H Ha) as Hb. destruct (_bucket_for k now s) as [[os' i] s'].
  destruct Hb as (H'&Hget&_&Hts&_&Hor&_). split; [|by apply (wf_buckets _ _ H' k)].
  destruct Hor as [(->&Hst&Hn&_)|(->&->&Hst&Hn)].
  - rewrite app_nil_r. apply (metered_same d now os s); try done; [lia|]. intros t tk. rewrite Hts. by left.
  - assert (Hnone : bucket_store s !! next_object s = None).
    { destruct (bucket_store s !! next_object s) eqn:Hs; [|done]. destruct (mt_store _ _ _ Hm _ _ Hs). lia. }
    assert (Htk : forall j, taken j (os ++ [Created (next_object s) now]) = taken j os).
    { intros j. rewrite taken_app. unfold taken at 2. rewrite Zsum_singleton. lia. }
    assert (Hcr : forall j c, j <> next_object s -> Created j c ∈ os ++ [Created (next_object s) now] -> Created j c ∈ os).
    { intros j c Hne [?|Hin]%elem_of_app; [done|]. apply list_elem_of_singleton in Hin. congruence. }
    constructor; rewrite ?Hst, ?Hn, ?Hts.
    + intros j b. destruct (decide (j = next_object s)) as [->|Hne].
      * rewrite lookup_insert_eq. intros [= <-]. pose proof cap_ge_1. split_and!; [lia|split_and!; simpl; try lra; done|].
        intros c [Hc|Hc]%elem_of_app.
        -- apply (mt_created _ _ _ Hm) in Hc as [? ?]. congruence.
        -- apply list_elem_of_singleton in Hc. injection Hc as ->. rewrite Htk, (mt_none _ _ _ Hm) by done. simpl.
           pose proof (elapsed_pos (now - now) ltac:(lra)). change (inject_Z 0) with 0%Q. lra.
      * rewrite lookup_insert_ne by done. intros Hb. destruct (mt_store _ _ _ Hm j b Hb) as (?&?&Hch).
        split_and!; [lia|by apply (bucket_ok_later d)|]. intros c Hc. rewrite Htk. by apply Hch, Hcr.
    + intros j c Hc. destruct (decide (j = next_object s)) as [->|Hne]; [rewrite lookup_insert_eq; by eexists|].
      rewrite lookup_insert_ne by done. by apply (mt_created _ _ _ Hm j c), Hcr.
    + intros j. destruct (decide (j = next_object s)) as [->|Hne]; [by rewrite lookup_insert_eq|].
      rewrite lookup_insert_ne, Htk by done. apply Hm.
    + intros t tk j w due Htk' Hp. destruct (mt_sleep _ _ _ Hm t tk j w due Htk' Hp) as (b&Hb&?). exists b.
      rewrite lookup_insert_ne; [done|]. congruence.
    + intros t [?|Hin]%elem_of_app; [by apply (mt_assert _ _ _ Hm t)|]. apply list_elem_of_singleton in Hin. done.
Qed.

(** The task that runs leaves with its bucket [i] charged and parked at [p], or gone. *)
Lemma leave_metered r d d' os new s s' t tk i b b' :
  wf r s -> tasks s !! t = Some tk -> ~ waits r t tk -> dict_get (t_key tk) (_buckets s) = Some i ->
  metered d os s -> (d <= d')%Q -> bucket_store s !! i = Some b -> bucket_store s' = <[i := b']> (bucket_store s) ->
  next_object s' = next_object s ->
  (forall j c, Created j c ∉ new) -> (forall t, AssertionFailed t ∉ new) -> (forall j, j <> i -> taken j new = 0) ->
  bucket_ok d' b' ->
  (inject_Z (taken i new) + tokens b' <= tokens b + (last_refill_monotonic b' - last_refill_monotonic b) / _refill_seconds)%Q ->
  (forall t', t' <> t -> tasks s' !! t' = tasks s !! t') ->
  (forall tk' j w due, tasks s' !! t = Some tk' -> t_phase tk' = Sleeping j w due -> j = i /\ sleeps_enough b' due) ->
  metered d' (os ++ new) s'.
Proof using Type.
  intros H Htk Hnw Hget Hm Hd Hb Hst Hn Hc Ha Ht Hok Hsum Hoth Hself.
  apply (metered_charge d d' os new s s' i b b'); try done. intros t' tk' j w due Htk' Hp.
  destruct (decide (t' = t)) as [->|Hne]; [left; by apply (Hself tk' j w)|]. right. rewrite Hoth in Htk' by done. split; [|done].
  apply (sleeper_elsewhere r s t t' tk tk' i j H Htk Hnw Hget Hne Htk'). by rewrite Hp.
Qed.

Lemma take_ok d b e : bucket_ok d b -> (1 <= tokens b)%Q -> ((tokens b - 1 < 1)%Q -> is_Some e) ->
  bucket_ok d {| tokens := tokens b - 1; last_refill_monotonic := last_refill_monotonic b; empty_since_monotonic := e |}.
Proof using Type. intros (Ht&Hl&He) H1 H2. split_and!; simpl; try done; lra. Qed.

Lemma body_metered t tk now_new now d os s : wf (Some t) s -> tasks s !! t = Some tk -> metered d os s ->
  (d <= now_new)%Q -> (now_new <= now)%Q ->
  metered now (os ++ (body t tk now_new now s).1) (body t tk now_new now s).2.
Proof using Hcap Hrs.
  intros H Htk Hm Hd1 Hd2. assert (Ha : default 0 (_active s !! t_key tk) <> 0).
  { rewrite (wf_active _ _ H). by apply (in_flight_pos _ t tk). }
  pose proof (bucket_for_wf (Some t) (t_key tk) now_new s H Ha) as Hb.
  pose proof (bucket_for_metered (Some t) (t_key tk) now_new d os s H Ha Hm Hd1) as Hm1. unfold body.
  destruct (_bucket_for (t_key tk) now_new s) as [[os1 i] s1]. destruct Hb as (H1&Hget&_&Hts&_&_&_). destruct Hm1 as [Hm1 [b0 Hb0]].
  rewrite Hb0. rewrite <- Hts in Htk. assert (Hnw : ~ waits (Some t) t tk) by (by intros [_ ?]).
  destruct (mt_store _ _ _ Hm1 i b0 Hb0) as (_&Hok0&_). destruct (refill_ok now_new now b0 Hok0 Hd2) as (Hok&_&Hsum).
  set (b := _refill now b0) in *. assert (Hla : (last_refill_monotonic b <= now)%Q) by apply Hok.
  pose proof (fun new s' b' => leave_metered (Some t) now_new now (os ++ os1) new s1 s' t tk i b0 b' H1 Htk Hnw Hget Hm1 Hd2 Hb0) as Hleave.
  assert (Hnil : forall s', bucket_store s' = <[i := b]> (bucket_store s1) -> next_object s' = next_object s1 ->
    (forall t', t' <> t -> tasks s' !! t' = tasks s1 !! t') ->
    (forall tk' j w due, tasks s' !! t = Some tk' -> t_phase tk' = Sleeping j w due -> j = i /\ sleeps_enough b due) ->
    metered now (os ++ os1) s').
  { intros s' Hst Hn Hoth Hself. rewrite <- (app_nil_r (os ++ os1)). apply (Hleave [] s' b); try done; try (by intros ? ? ?%elem_of_nil);
      try (by intros ? ?%elem_of_nil). change (inject_Z (taken i [])) with 0%Q. lra. }
  destruct (Qleb_spec 1 (tokens b)) as [Ht1|Ht1]; simpl; rewrite ?app_assoc.
  - destruct (exit_fields t tk (set_bucket i {| tokens := tokens b - 1; last_refill_monotonic := last_refill_monotonic b;
        empty_since_monotonic := if Qltb (tokens b - 1) 1 then Some now else empty_since_monotonic b |} s1)) as (E1&E2&E3).
    eapply Hleave; [by rewrite E2|by rewrite E3|..]; try rewrite E1; simpl.
    + intros j c [?|[?|?%elem_of_nil]%elem_of_cons]%elem_of_cons; done.
    + intros t' [?|[?|?%elem_of_nil]%elem_of_cons]%elem_of_cons; done.
    + intros j Hj. unfold taken. rewrite !Zsum_cons, decide_False by done. done.
    + apply take_ok; [done|done|]. intros Hlt. destruct (Qltb_spec (tokens b - 1) 1); [by eexists|lra].
    + unfold taken. rewrite !Zsum_cons, decide_True by done. change (inject_Z (1 + (0 + Zsum _ []))) with 1%Q. simpl. lra.
    + intros t' Hne. by rewrite lookup_delete_ne.
    + intros tk' j w due. by rewrite lookup_delete_eq.
  - destruct Hok as (_&_&He). destruct (He Ht1) as [since Hsince]. rewrite Hsince.
    destruct (Qltb _drop_after_seconds _); simpl; apply Hnil; simpl; try done; intros *;
      rewrite ?lookup_insert_eq; try (intros; by rewrite lookup_insert_ne).
    + intros [= <-]. done.
    + intros [= <-]. simpl. intros [= <- _ <-]. split; [done|]. unfold sleeps_enough. lra.
Qed.

Lemma slept_metered t now d os s : wf None s -> metered d os s -> (d <= now)%Q ->
  metered now (os ++ (slept t now s).1) (slept t now s).2.
Proof using Hcap Hrs.
  intros H Hm Hd. assert (Hid : metered now (os ++ []) s) by (rewrite app_nil_r; apply (metered_same d now os s); auto).
  unfold slept. destruct (tasks s !! t) as [tk|] eqn:Htk; [|done]. destruct (t_phase tk) as [|i w due|] eqn:Hph; try done.
  destruct (bucket_store s !! i) as [b0|] eqn:Hb0; [|done]. destruct (Qleb_spec due now) as [Hdue|]; [|done].
  destruct (mt_sleep _ _ _ Hm t tk i w due Htk Hph) as (b1&Hb1&Hsl). rewrite Hb0 in Hb1. injection Hb1 as <-.
  destruct (mt_store _ _ _ Hm i b0 Hb0) as (_&Hok0&_). destruct (refill_ok d now b0 Hok0 Hd) as (Hok&_&Hsum).
  pose proof (refill_wakes now b0 due Hsl Hdue) as Ht1. set (b := _refill now b0) in *.
  eapply (leave_metered None d now os _ s _ t tk i b0); try done; simpl; try done.
  - by intros [? _]; congruence.
  - apply (wf_bucket _ _ H t tk); [done|by rewrite Hph].
  - by intros j c ?%list_elem_of_singleton.
  - by intros t' ?%list_elem_of_singleton.
  - intros j Hj. unfold taken. by rewrite Zsum_singleton, decide_False.
  - apply take_ok; [done|done|]. intros Hlt. destruct (Qltb_spec (tokens b - 1) 1); [by eexists|lra].
  - unfold taken. rewrite Zsum_singleton, decide_True by done. simpl. change (inject_Z 1) with 1%Q. lra.
  - intros t' Hne. by rewrite lookup_insert_ne.
  - intros tk' j w' due'. rewrite lookup_insert_eq. by intros [= <-].
Qed.

Lemma silent_metered d d' os new s s' : metered d os s -> (d <= d')%Q -> bucket_store s' = bucket_store s ->
  next_object s' = next_object s ->
  (forall t tk, tasks s' !! t = Some tk -> tasks s !! t = Some tk \/ forall i w due, t_phase tk <> Sleeping i w due) ->
  (forall o, o ∈ new -> exists t, o = Raised t \/ exists r, o = Returned t r) -> metered d' (os ++ new) s'.
Proof using Type.
  intros Hm Hd Hst Hn Ht Hnew.
  assert (Htk : forall i, taken i (os ++ new) = taken i os).
  { intros i. rewrite taken_app. assert (taken i new = 0); [|lia]. clear -Hnew. induction new as [|o new IH]; [done|].
    unfold taken. rewrite Zsum_cons. fold (taken i new). rewrite IH by set_solver.
    destruct (Hnew o) as (?&[->|[? ->]]); [apply list_elem_of_here|done|done]. }
  assert (Hcr : forall i c, Created i c ∈ os ++ new -> Created i c ∈ os).
  { intros i c [?|Hin]%elem_of_app; [done|]. by destruct (Hnew _ Hin) as (?&[?|[? ?]]). }
  constructor; rewrite ?Hst, ?Hn.
  - intros i b Hb. destruct (mt_store _ _ _ Hm i b Hb) as (?&?&Hch). split_and!; [done|by apply (bucket_ok_later d)|].
    intros c Hc. rewrite Htk. by apply Hch, Hcr.
  - intros i c Hc. by apply (mt_created _ _ _ Hm i c), Hcr.
  - intros i. rewrite Htk. apply Hm.
  - intros t tk i w due Htk' Hp. destruct (Ht t tk Htk') as [?|Hno]; [by apply (mt_sleep _ _ _ Hm t tk i w)|by destruct (Hno i w due)].
  - intros t [?|Hin]%elem_of_app; [by apply (mt_assert _ _ _ Hm t)|]. by destruct (Hnew _ Hin) as (?&[?|[? ?]]).
Qed.

Lemma quiet_metered d os s s' : quiet s s' -> metered d os s -> metered d os s'.
Proof using Type. intros (Q1&Q2&_&_&Q3) Hm. apply (metered_same d d os s); auto. lra. Qed.
Lemma enters_metered t now_new now d os s x : enters t now_new now s x -> metered d os s ->
  (d <= now_new)%Q -> (now_new <= now)%Q -> metered now (os ++ x.1) x.2.
Proof using Hcap Hrs.
  intros [(tk&s'&->&H&Htk&Hq)|(s'&->&H&Hq)] Hm H1 H2; apply (quiet_metered _ _ _ _ Hq) in Hm.
  - by apply (body_metered t tk now_new now d).
  - simpl. rewrite app_nil_r. apply (metered_same d now os s'); auto. lra.
Qed.
Lemma audited_metered t d os s : metered d os s -> metered d (os ++ (audited t s).1) (audited t s).2.
Proof using Type.
  intros Hm. assert (Hid : metered d (os ++ []) s) by by rewrite app_nil_r.
  unfold audited. destruct (tasks s !! t) as [tk|] eqn:Htk; [|done]. destruct (t_phase tk) as [| |i rows res]; try done.
  destruct (exit_fields t tk s) as (E1&E2&E3).
  assert (Hex : metered d (os ++ [Returned t res]) (exit t tk s)).
  { apply (silent_metered d d os _ s); auto; [lra| |]; rewrite ?E1.
    - intros t' tk' [_ ?]%lookup_delete_Some. by left.
    - intros o ->%list_elem_of_singleton. eauto. }
  destruct rows as [|? [|? rows]]; simpl; try done. apply (silent_metered d d os _ s); simpl; auto; [lra| |].
  - intros t' tk'. destruct (decide (t' = t)) as [->|Hne]; [rewrite lookup_insert_eq; intros [= <-]; by right|].
    rewrite lookup_insert_ne by done. by left.
  - by intros o ?%elem_of_nil.
Qed.
Lemma failed_metered t d os s : metered d os s -> metered d (os ++ (failed t s).1) (failed t s).2.
Proof using Type.
  intros Hm. assert (Hid : metered d (os ++ []) s) by by rewrite app_nil_r.
  unfold failed. destruct (tasks s !! t) as [tk|] eqn:Htk; [|done]. destruct (exit_fields t tk s) as (E1&E2&E3).
  assert (Hex : forall s', tasks s' = delete t (tasks s) -> bucket_store s' = bucket_store s -> next_object s' = next_object s ->
    metered d (os ++ [Raised t]) s').
  { intros s' Et Eb En. apply (silent_metered d d os _ s); auto; [lra| |]; rewrite ?Et.
    - intros t' tk' [_ ?]%lookup_delete_Some. by left.
    - intros o ->%list_elem_of_singleton. eauto. }
  destruct (t_phase tk), (lock_store s !! t_lock tk) as [l|]; simpl; by apply Hex.
Qed.

Definition ordered_from (d : Q) (ts : list Q) : Prop := StronglySorted Qle (d :: ts).
Lemma last_default (q : Q) l : forall d d', List.last (q :: l) d = List.last (q :: l) d'.
Proof using Type. revert q. induction l as [|p l IH]; intros q d d'; [done|]. apply (IH p). Qed.
Lemma ordered_app d l l' : ordered_from d (l ++ l') -> ordered_from d l /\ ordered_from (List.last l d) l'.
Proof using Type.
  revert d. induction l as [|x l IH]; intros d; simpl; [intros H; split; [repeat constructor|done]|].
  intros H. apply StronglySorted_inv in H as [Hs Hd]. apply Forall_cons in Hd as [Hx Hd].
  destruct (IH x Hs) as [H1 H2]. split.
  - constructor; [done|]. constructor; [done|]. by apply Forall_app in Hd as [? _].
  - destruct l as [|q l]; [exact H2|]. rewrite (last_default q l d x). exact H2.
Qed.
Lemma step_metered ev d os s : wf None s -> metered d os s -> ordered_from d (readings ev) ->
  metered (List.last (readings ev) d) (os ++ (step ev s).1) (step ev s).2.
Proof using Hcap Hrs.
  intros H Hm Ho.
  assert (H2 : forall x y, readings ev = [x; y] -> (d <= x)%Q /\ (x <= y)%Q).
  { intros x y Hr. rewrite Hr in Ho. apply StronglySorted_inv in Ho as [Ho H1]. apply StronglySorted_inv in Ho as [_ H2].
    apply Forall_cons in H1 as [? _]. apply Forall_cons in H2 as [? _]. done. }
  destruct ev as [t k x y|t x y|t x|t|t]; simpl in *.
  - destruct (H2 x y eq_refl). by apply (enters_metered t x y d os s); [apply start_enters|..].
  - destruct (H2 x y eq_refl). by apply (enters_metered t x y d os s); [apply lock_resumed_enters|..].
  - apply (slept_metered t x d); try done. apply StronglySorted_inv in Ho as [_ H1]. by apply Forall_cons in H1 as [? _].
  - by apply audited_metered.
  - by apply failed_metered.
Qed.
Lemma run_metered evs : forall d os s, wf None s -> metered d os s -> ordered_from d (evs ≫= readings) ->
  metered (List.last (evs ≫= readings) d) (os ++ (run evs s).1) (run evs s).2.
Proof using Hcap Hrs.
  induction evs as [|ev evs IH]; intros d os s H Hm Ho; [simpl; by rewrite app_nil_r|]. rewrite bind_cons in *.
  apply ordered_app in Ho as [Ho1 Ho2]. pose proof (step_metered ev d os s H Hm Ho1) as Hm'. pose proof (step_wf ev s H) as H'.
  simpl. destruct (step ev s) as [os1 s1]. specialize (IH _ _ _ H' Hm' Ho2). rewrite <- app_assoc in IH.
  rewrite (surjective_pairing (run evs s1)). simpl. replace (List.last (readings ev ++ (evs ≫= readings)) d) with (List.last (evs ≫= readings) (List.last (readings ev) d)); [exact IH|].
  destruct (evs ≫= readings) as [|q l].
  - by rewrite app_nil_r.
  - destruct ev; simpl readings; try done; apply last_default.
Qed.
Lemma init_metered d : metered d [] init.
Proof using Type. constructor; simpl; try done; intros *; by intros ?%elem_of_nil. Qed.
End metering.


Lemma exit_tracked t tk s : tracked (exit t tk s) = tracked s.
Proof. unfold exit, release, tracked. by destruct (lock_store s !! t_lock tk). Qed.
Lemma body_tracked t tk now_new now s : wf (Some t) s -> tasks s !! t = Some tk -> 0 <= _max_tracked_buckets ->
  tracked (body t tk now_new now s).2 <= Z.max (tracked s) (Z.max _max_tracked_buckets (calls s)).
Proof.
  intros H Htk Hmax. pose proof (bucket_for_wf (Some t) (t_key tk) now_new s H) as Hb. unfold body.
  destruct (_bucket_for (t_key tk) now_new s) as [[os i] s1].
  destruct Hb as (_&_&_&_&_&_&Hb); [rewrite (wf_active _ _ H); by apply (in_flight_pos _ t tk)|]. specialize (Hb Hmax).
  destruct (bucket_store s1 !! i) as [b0|]; [|done].
  destruct (Qle_bool 1 _); simpl; [by rewrite exit_tracked|].
  destruct (empty_since_monotonic _); simpl; [|by rewrite exit_tracked]. by destruct (Qltb _drop_after_seconds _).
Qed.
Definition grows_at_most (s : BurstLimiter) (x : list obs * BurstLimiter) : Prop :=
  0 <= _max_tracked_buckets -> tracked x.2 <= Z.max (tracked s) (Z.max _max_tracked_buckets (calls s + 1)).

Lemma step_grows ev s : wf None s -> grows_at_most s (step ev s).
Proof.
  intros H Hmax. assert (He : forall t a b x, enters t a b s x -> tracked x.2 <= Z.max (tracked s) (Z.max _max_tracked_buckets (calls s + 1))).
  { intros t a b x [(tk&s'&->&H'&Htk&Hq)|(s'&->&H'&Hq)]; destruct Hq as (_&_&Hq1&Hq2&_).
    - pose proof (body_tracked t tk a b s' H' Htk Hmax). lia.
    - simpl. lia. }
  destruct ev as [t k x y|t x y|t x|t|t]; simpl.
  - by apply (He t x y), start_enters.
  - by apply (He t x y), lock_resumed_enters.
  - unfold slept. repeat case_match; simpl; unfold tracked; simpl; lia.
  - unfold audited. repeat case_match; simpl; rewrite ?exit_tracked; unfold tracked; simpl; lia.
  - unfold failed. repeat case_match; simpl; rewrite ?exit_tracked; unfold tracked; simpl; lia.
Qed.
(** The most calls that were in flight at once. *)
Fixpoint peak (evs : list event) (s : BurstLimiter) : Z :=
  match evs with [] => calls s | ev :: evs' => Z.max (calls s) (peak evs' (step ev s).2) end.
Lemma run_grows evs : forall s, wf None s -> 0 <= _max_tracked_buckets ->
  tracked (run evs s).2 <= Z.max (tracked s) (Z.max _max_tracked_buckets (peak evs s + 1)).
Proof.
  induction evs as [|ev evs IH]; intros s H Hmax; simpl; [lia|]. pose proof (step_grows ev s H Hmax) as Hg.
  pose proof (step_wf ev s H) as H'. destruct (step ev s) as [os s1]. specialize (IH s1 H' Hmax). simpl in *.
  rewrite (surjective_pairing (run evs s1)). simpl. lia.
Qed.

(** C33: eviction never takes a bucket or a lock from under a call: under any interleaving of
    calls, sleeps, audit writes, failures and cancellations, two calls for one key are never
    both past its lock; the bucket a parked call will charge and the lock it holds or waits
    for are the ones in the dicts; and a waiting call's lock is held by a parked call or has
    its first waiter woken, so nobody waits for ever on a free lock. *)
Theorem eviction_spares_calls_in_flight evs :
  let s := (run evs init).2 in
  (forall t t' tk tk', tasks s !! t = Some tk -> tasks s !! t' = Some tk' -> t_key tk = t_key tk' ->
     t_phase tk <> Waiting -> t_phase tk' <> Waiting -> t = t') /\
  (forall t tk, tasks s !! t = Some tk -> dict_get (t_key tk) (_locks s) = Some (t_lock tk) /\
     forall i, bucket_of (t_phase tk) = Some i -> dict_get (t_key tk) (_buckets s) = Some i) /\
  (forall t tk, tasks s !! t = Some tk -> t_phase tk = Waiting ->
     exists l, lock_store s !! t_lock tk = Some l /\
       ((exists t' tk', locked_by l = Some t' /\ tasks s !! t' = Some tk' /\ t_phase tk' <> Waiting) \/
        (woken l = true /\ exists t' tk', head (waiters l) = Some t' /\ tasks s !! t' = Some tk' /\ t_lock tk' = t_lock tk))).
Proof.
  intros s. assert (H : wf None s) by apply run_wf, init_wf. clearbody s.
  assert (Hw : forall t tk, waits None t tk <-> t_phase tk = Waiting) by (intros; unfold waits; naive_solver).
  split_and!.
  - intros t t' tk tk' Htk Htk' Hk Hp Hp'. destruct (lock_of None s t tk H Htk) as (Hd&l&Hl&_&Hh).
    destruct (lock_of None s t' tk' H Htk') as (Hd'&l'&Hl'&_&Hh'). rewrite Hk, Hd' in Hd. injection Hd as Hd.
    rewrite <- Hd, Hl' in Hl. injection Hl as <-. apply not_waits_holds in Hh; [|by rewrite Hw].
    apply not_waits_holds in Hh'; [|by rewrite Hw]. congruence.
  - intros t tk Htk. split; [apply (wf_held _ _ H t tk Htk)|]. intros i. by apply (wf_bucket _ _ H t tk).
  - intros t tk Htk Hp. destruct (lock_of None s t tk H Htk) as (Hd&l&Hl&(Hnd&Hwait&Hby&Hwk)&Hh). exists l. split; [done|].
    assert (Hin : t ∈ waiters l) by (destruct Hh as [[_ ?]|[Hn _]]; [done|destruct Hn; by apply Hw]).
    destruct (locked_by l) as [t'|] eqn:Hlb.
    + left. destruct (Hby t' eq_refl) as (tk'&?&_&Hn). exists t', tk'. rewrite Hw in Hn. done.
    + right. destruct (waiters l) as [|w ws]; [by apply elem_of_nil in Hin|]. split; [done|].
      destruct (Hwait w) as (tk'&?&?&_); [apply list_elem_of_here|]. by exists w, tk'.
Qed.

(** The rate: with a capacity of at least one and a clock that does not go back, a bucket
    created at [c] has given out by [t] at most [capacity + (t - c) / refill_seconds] tokens,
    back-pressured calls included, whatever the interleaving; and the assertion that an empty
    bucket has an empty-since time never fails. *)
Theorem burst_tokens_are_bounded evs d t i c :
  1 <= _capacity -> (0 < _refill_seconds)%Q -> ordered_from d (evs ≫= readings) -> (List.last (evs ≫= readings) d <= t)%Q ->
  let os := (run evs init).1 in
  Created i c ∈ os ->
  (inject_Z (taken i os) <= inject_Z _capacity + (t - c) / _refill_seconds)%Q /\ forall task, AssertionFailed task ∉ os.
Proof.
  intros Hcap Hrs Ho Ht os Hc. pose proof (run_metered Hcap Hrs evs d [] init init_wf (init_metered d) Ho) as H.
  rewrite app_nil_l in H. fold os in H. destruct (mt_created _ _ _ H i c Hc) as [b Hb].
  destruct (mt_store _ _ _ H i b Hb) as (_&((Hge&_)&Hl&_)&Hch). specialize (Hch c Hc). split; [|apply H].
  assert (0 <= (t - last_refill_monotonic b) / _refill_seconds)%Q by (apply elapsed_pos; [done|lra]). unfold Qdiv in *. lra.
Qed.

(** The memory bound: the buckets tracked never exceed the configured cap or, where more
    calls than that were once in flight together, the most that were plus one. *)
Theorem tracked_buckets_are_bounded evs : 0 <= _max_tracked_buckets ->
  tracked (run evs init).2 <= Z.max _max_tracked_buckets (peak evs init + 1).
Proof.
  intros Hmax. pose proof (run_grows evs init init_wf Hmax) as H. change (tracked init) with 0 in H. lia.
Qed.
End limiter.

Lemma tracked_buckets_are_bounded_witness :
  let k (x : string) := (x, "alfred"%string) in
  let evs := [Start 1 (k "a") 0 0; Start 2 (k "a") 0 0; Start 3 (k "b") 1 1; Start 4 (k "c") 2 2; Start 5 (k "d") 3 3]%string in
  dict_keys (_buckets (run 1 5 30 2 evs init).2) = [k "a"; k "d"]%string /\
  tracked (run 1 5 30 2 evs init).2 <= Z.max 2 (peak 1 5 30 2 evs init + 1).
Proof. intros k evs. split; [vm_compute; reflexivity|]. apply (tracked_buckets_are_bounded 1 5 30 2 evs). lia. Defined.

(** A call sleeps for its token while other keys churn past the cap of one bucket; it is
    served from its own bucket, and a second call for the key waits its turn. *)
Lemma burst_tokens_are_bounded_witness :
  let k (x : string) := (x, "alfred"%string) in
  let evs := [Start 1 (k "a") 0 0; Start 2 (k "a") 1 1; Start 3 (k "a") 1 1; Start 4 (k "b") 1 1; Start 5 (k "c") 2 2;
              Slept 2 5; Audited 2; Locked 3 5 5; Slept 3 10; Audited 3]%string in
  let os := (run 1 5 30 1 evs init).1 in
  taken 1 os = 3 /\
  ((inject_Z (taken 1 os) <= inject_Z 1 + (10 - 0) / 5)%Q /\ forall task, AssertionFailed task ∉ os).
Proof.
  intros k evs os. split; [vm_compute; reflexivity|].
  apply (burst_tokens_are_bounded 1 5 30 1 evs 0 10 1 0); [lia|reflexivity| |discriminate|].
  - vm_compute. repeat (constructor; [|repeat constructor; discriminate]). constructor.
  - vm_compute. repeat constructor.
Defined.
