(* ===== verification/CapabilityGate.v ===== *)
(** * The capability gate

    [security/capability_gate/policy.py] (the grant rows and the matching),
    [security/capability_gate/backend.py] (the [plugin_grants] table and its transactions),
    [security/capability_gate/_gate.py] (the gate over them, its rebuild and its heartbeat) and
    the seeding order of [bootstrap/gate_factory.py].  The git read and the JSON parse are
    the result a rebuild step carries; so are the failures of the database and of the audit
    sink.  The collation by which the database orders rows is a parameter. *)
From S2P Require Import Prelude.

(** ** [policy.py] *)
Record GrantRow := {
  plugin_id : string; subscriber_tier : string; hookpoint : string;
  content_tier : option string; proposal_branch : string }.
#[export] Instance GrantRow_eq_dec : EqDecision GrantRow.
Proof. solve_decision. Defined.
#[export] Program Instance GrantRow_countable : Countable GrantRow :=
  inj_countable' (fun g => (plugin_id g, subscriber_tier g, hookpoint g, content_tier g, proposal_branch g))
    (fun '(p, s, h, c, b) => {| plugin_id := p; subscriber_tier := s; hookpoint := h; content_tier := c; proposal_branch := b |}) _.
Next Obligation. by intros []. Qed.

Definition _VALID_SUBSCRIBER_TIERS : list string := ["system"; "operator"; "user-plugin"]%string.
Definition _VALID_CONTENT_TIERS : list string := ["T0"; "T1"; "T2"; "T3"]%string.

Inductive GateError := ValueError | SQLAlchemyError | ParserError | AuditError | CancelledError.
#[export] Instance GateError_eq_dec : EqDecision GateError.
Proof. solve_decision. Defined.

(** [__post_init__] *)
Definition mk_GrantRow (p s h : string) (c : option string) (b : string) : result GateError GrantRow :=
  if negb (bool_decide (s ∈ _VALID_SUBSCRIBER_TIERS)) then Err ValueError
  else match c with
       | Some c' => if negb (bool_decide (c' ∈ _VALID_CONTENT_TIERS)) then Err ValueError
                    else Ok {| plugin_id := p; subscriber_tier := s; hookpoint := h; content_tier := c; proposal_branch := b |}
       | None => Ok {| plugin_id := p; subscriber_tier := s; hookpoint := h; content_tier := c; proposal_branch := b |}
       end.

Definition GatePolicy : Type := gset GrantRow.
(** The loops return at the first matching grant; a set has no order, and neither has the answer. *)
Definition check_policy (pol : GatePolicy) (p h requested_tier : string) : bool :=
  existsb (fun g => bool_decide (plugin_id g = p) && bool_decide (subscriber_tier g = requested_tier)
                    && (bool_decide (hookpoint g = "*"%string) || bool_decide (hookpoint g = h))) (elements pol).
Definition check_plugin_load_policy (pol : GatePolicy) (p manifest_tier : string) : bool :=
  check_policy pol p "*" manifest_tier.
Definition check_content_clearance_policy (pol : GatePolicy) (p h c : string) : bool :=
  existsb (fun g => bool_decide (plugin_id g = p) && bool_decide (content_tier g = Some c)
                    && (bool_decide (hookpoint g = "*"%string) || bool_decide (hookpoint g = h))) (elements pol).

(** ** [backend.py] *)
Inductive GrantState := requested | approved | denied | revoked.
#[export] Instance GrantState_eq_dec : EqDecision GrantState.
Proof. solve_decision. Defined.
(** The UNIQUE columns: plugin, hookpoint, subscriber tier. *)
Abbreviation Identity := (string * string * string)%type.
Definition identity (g : GrantRow) : Identity := (plugin_id g, hookpoint g, subscriber_tier g).
Record PluginGrant := { pg_content_tier : option string; pg_proposal_branch : string; pg_state : GrantState }.
Record Database := { plugin_grants : gmap Identity PluginGrant; sync_hash : option string }.

Definition _LOAD_GRANTS_ROW_CAP : nat := N.to_nat 10000.
Definition _COMMS_ADAPTER_PROPOSAL_BRANCH : string := "bootstrap:first-party-comms-adapter".
Definition _FIRST_PARTY_PROPOSAL_BRANCH : string := "bootstrap:first-party-system".

Definition upsert (g : GrantRow) (t : gmap Identity PluginGrant) : gmap Identity PluginGrant :=
  <[identity g := {| pg_content_tier := content_tier g; pg_proposal_branch := proposal_branch g; pg_state := approved |}]> t.
Definition revoke (k : Identity) (t : gmap Identity PluginGrant) : gmap Identity PluginGrant := delete k t.

(** [_grant_sort_key] and Python's order on tuples of strings. *)
Definition _grant_sort_key (g : GrantRow) : list string :=
  [plugin_id g; hookpoint g; subscriber_tier g; default ""%string (content_tier g); proposal_branch g].
Fixpoint key_leb (a b : list string) : bool :=
  match a, b with
  | x :: a', y :: b' => match String.compare x y with Lt => true | Gt => false | Eq => key_leb a' b' end
  | [], _ => true
  | _ :: _, [] => false
  end.
Definition grant_le (g g' : GrantRow) : Prop := key_leb (_grant_sort_key g) (_grant_sort_key g') = true.
#[export] Instance grant_le_dec g g' : Decision (grant_le g g') := decide (key_leb (_grant_sort_key g) (_grant_sort_key g') = true).
Definition sorted_grants (gs : gset GrantRow) : list GrantRow := merge_sort grant_le (elements gs).

Definition apply_atomic (revokes upserts : gset GrantRow) (commit_hash : string) (db : Database) : Database :=
  let t := foldl (fun t g => revoke (identity g) t) (plugin_grants db) (sorted_grants revokes) in
  let t := foldl (fun t g => upsert g t) t (sorted_grants upserts) in
  {| plugin_grants := t; sync_hash := Some commit_hash |}.

Definition seed_first_party_grants (grants : gset GrantRow) (db : Database) : Database :=
  {| plugin_grants := foldl (fun t g => upsert g t) (plugin_grants db) (sorted_grants grants); sync_hash := sync_hash db |}.

Definition reconcile_comms_adapter_grants (desired : gset GrantRow) (db : Database) : Database :=
  let stale := filter (fun x => pg_proposal_branch x.2 = _COMMS_ADAPTER_PROPOSAL_BRANCH /\ x.1 ∉ (identity <$> elements desired))
                 (map_to_list (plugin_grants db)) in
  let t := foldl (fun t x => revoke x.1 t) (plugin_grants db) stale in
  {| plugin_grants := foldl (fun t g => upsert g t) t (sorted_grants desired); sync_hash := sync_hash db |}.

Fixpoint collect (rows : list (Identity * PluginGrant)) : result GateError (gset GrantRow) :=
  match rows with
  | [] => Ok ∅
  | ((p, h, s), r) :: rows' =>
      match mk_GrantRow p s h (pg_content_tier r) (pg_proposal_branch r) with
      | Err e => Err e
      | Ok g => match collect rows' with Err e => Err e | Ok gs => Ok ({[g]} ∪ gs) end
      end
  end.
Section gate.
Context (collation : relation (Identity * PluginGrant)) `{!forall x y, Decision (collation x y)}.
Definition load_grants (db : Database) : result GateError (gset GrantRow) :=
  collect (take _LOAD_GRANTS_ROW_CAP
    (merge_sort collation (filter (fun x => pg_state x.2 = approved) (map_to_list (plugin_grants db))))).

(** ** [_gate.py] *)
Definition _MAX_MISSED_HEARTBEATS : Z := 6.
(** Where the heartbeat task is: pinging (or asleep until the next ping), in the audit write
    of a transition, or dead of an exception of the audit sink. *)
Inductive heartbeat := Pinging | AuditEntering | AuditExiting (denied_dispatch_count : Z) | Dead.
Inductive audit_row := Rebuilt (commit_hash : string) (grant_count : Z) (ok : bool)
  | Unavailable (entering : bool) (denied_dispatch_count : option Z).

Record RealGate := {
  _policy : GatePolicy; _fail_closed : bool; _missed_heartbeats : Z; _denied_dispatch_count : Z;
  _heartbeat : heartbeat }.
Record World := { gate : RealGate; db : Database; audit : list audit_row }.

Definition with_gate (g : RealGate) (w : World) : World := {| gate := g; db := db w; audit := audit w |}.
Definition with_policy (pol : GatePolicy) (w : World) : World :=
  with_gate {| _policy := pol; _fail_closed := _fail_closed (gate w); _missed_heartbeats := _missed_heartbeats (gate w);
               _denied_dispatch_count := _denied_dispatch_count (gate w); _heartbeat := _heartbeat (gate w) |} w.
Definition emit (r : audit_row) (w : World) : World := {| gate := gate w; db := db w; audit := audit w ++ [r] |}.
Definition with_db (d : Database) (w : World) : World := {| gate := gate w; db := d; audit := audit w |}.

Definition create (d : Database) : result GateError RealGate :=
  match load_grants d with
  | Err e => Err e
  | Ok grants => Ok {| _policy := grants; _fail_closed := false; _missed_heartbeats := 0; _denied_dispatch_count := 0;
                       _heartbeat := Pinging |}
  end.
(** [bootstrap/gate_factory.py]: seed, reconcile, load. *)
Definition build_boot_real_gate (first_party extra_grants : gset GrantRow) (d : Database) : result GateError World :=
  let d := reconcile_comms_adapter_grants extra_grants (seed_first_party_grants (first_party ∪ extra_grants) d) in
  match create d with
  | Err e => Err e
  | Ok g => Ok {| gate := g; db := d; audit := [] |}
  end.

Definition deny (g : RealGate) : RealGate :=
  {| _policy := _policy g; _fail_closed := _fail_closed g; _missed_heartbeats := _missed_heartbeats g;
     _denied_dispatch_count := _denied_dispatch_count g + 1; _heartbeat := _heartbeat g |}.
Definition guarded (ask : GatePolicy -> bool) (g : RealGate) : bool * RealGate :=
  if _fail_closed g then (false, deny g) else (ask (_policy g), g).
Definition check (p h requested_tier : string) : RealGate -> bool * RealGate := guarded (fun pol => check_policy pol p h requested_tier).
Definition check_plugin_load (p manifest_tier : string) : RealGate -> bool * RealGate :=
  guarded (fun pol => check_plugin_load_policy pol p manifest_tier).
Definition check_content_clearance (p h c : string) : RealGate -> bool * RealGate :=
  guarded (fun pol => check_content_clearance_policy pol p h c).
Definition is_backing_store_available (g : RealGate) : bool := negb (_fail_closed g).

(** How a transaction fails: before it took effect, or after (the connection breaks while the
    answer to COMMIT is awaited, or the task is cancelled there). *)
Record Fault := { took_effect : bool; raised : GateError }.
(** What happens to a rebuild outside the gate: reading the cached hash raises, the git read
    and parse yield grants or raise, the transaction raises, the audit write returns.
    Rebuilds do not overlap. *)
Record Attempt := { hash_fails : bool; parsed : option (gset GrantRow); transaction : option Fault; audit_ok : bool }.

Definition _apply_grants (at_ : Attempt) (grants : gset GrantRow) (commit_hash : string) : M World GateError unit := fun w =>
  let revoked := _policy (gate w) ∖ grants in
  match transaction at_ with
  | None => (Ok tt, with_policy grants (with_db (apply_atomic revoked grants commit_hash (db w)) w))
  | Some x =>
      let w := if took_effect x then with_db (apply_atomic revoked grants commit_hash (db w)) w else w in
      if decide (raised x = SQLAlchemyError) then
        if audit_ok at_ then (Err SQLAlchemyError, emit (Rebuilt commit_hash (Z.of_nat (size grants)) false) w) else (Err AuditError, w)
      else (Err (raised x), w)
  end.

Definition rebuild_from_state_git (at_ : Attempt) (state_git_head : string) : M World GateError unit := fun w =>
  if hash_fails at_ then (Err SQLAlchemyError, w)
  else if decide (sync_hash (db w) = Some state_git_head) then (Ok tt, w)
  else match parsed at_ with
       | None => if audit_ok at_ then (Err ParserError, emit (Rebuilt state_git_head 0 false) w) else (Err AuditError, w)
       | Some grants =>
           (_apply_grants at_ grants state_git_head ;;;
            fun w => if audit_ok at_ then (Ok tt, emit (Rebuilt state_git_head (Z.of_nat (size grants)) true) w)
                     else (Err AuditError, w)) w
       end.

Definition with_heartbeat (closed : bool) (missed n : Z) (h : heartbeat) (w : World) : World :=
  with_gate {| _policy := _policy (gate w); _fail_closed := closed; _missed_heartbeats := missed;
               _denied_dispatch_count := n; _heartbeat := h |} w.
(** [_heartbeat_loop], from the ping to its next await, and after the audit write. *)
Definition pinged (ok : bool) (w : World) : World :=
  let g := gate w in
  match _heartbeat g with
  | Pinging =>
      if ok then with_heartbeat (_fail_closed g) 0 (_denied_dispatch_count g)
                   (if _fail_closed g then AuditExiting (_denied_dispatch_count g) else Pinging) w
      else
        let missed := _missed_heartbeats g + 1 in
        if (_MAX_MISSED_HEARTBEATS <=? missed) && negb (_fail_closed g)
        then with_heartbeat true missed (_denied_dispatch_count g) AuditEntering w
        else with_heartbeat (_fail_closed g) missed (_denied_dispatch_count g) Pinging w
  | _ => w
  end.
Definition audited (ok : bool) (w : World) : World :=
  let g := gate w in
  match _heartbeat g with
  | AuditEntering =>
      if ok then emit (Unavailable true None) (with_heartbeat (_fail_closed g) (_missed_heartbeats g) (_denied_dispatch_count g) Pinging w)
      else with_heartbeat (_fail_closed g) (_missed_heartbeats g) (_denied_dispatch_count g) Dead w
  | AuditExiting count =>
      if ok then emit (Unavailable false (Some count)) (with_heartbeat false (_missed_heartbeats g) 0 Pinging w)
      else with_heartbeat (_fail_closed g) (_missed_heartbeats g) (_denied_dispatch_count g) Dead w
  | _ => w
  end.

Inductive event :=
| Check (p h requested_tier : string) | CheckLoad (p manifest_tier : string) | CheckClearance (p h c : string)
| Rebuild (at_ : Attempt) (state_git_head : string)
| Pinged (ok : bool) | Audited (ok : bool).
(** The answer of a check, and the world after the event. *)
Definition step (ev : event) (w : World) : option bool * World :=
  match ev with
  | Check p h t => let '(b, g) := check p h t (gate w) in (Some b, with_gate g w)
  | CheckLoad p t => let '(b, g) := check_plugin_load p t (gate w) in (Some b, with_gate g w)
  | CheckClearance p h c => let '(b, g) := check_content_clearance p h c (gate w) in (Some b, with_gate g w)
  | Rebuild at_ head => (None, (rebuild_from_state_git at_ head w).2)
  | Pinged ok => (None, pinged ok w)
  | Audited ok => (None, audited ok w)
  end.
Definition run (evs : list event) (w : World) : World := foldl (fun w ev => (step ev w).2) w evs.
End gate.

(** ** Tables and the grants they hold *)
Definition row_of (g : GrantRow) : PluginGrant :=
  {| pg_content_tier := content_tier g; pg_proposal_branch := proposal_branch g; pg_state := approved |}.
Definition grant_of (x : Identity * PluginGrant) : GrantRow :=
  {| plugin_id := x.1.1.1; subscriber_tier := x.1.2; hookpoint := x.1.1.2;
     content_tier := pg_content_tier x.2; proposal_branch := pg_proposal_branch x.2 |}.
(** A row [__post_init__] accepts. *)
Definition valid (g : GrantRow) : Prop :=
  subscriber_tier g ∈ _VALID_SUBSCRIBER_TIERS /\ forall c, content_tier g = Some c -> c ∈ _VALID_CONTENT_TIERS.
(** The approved rows are exactly the grants of the policy. *)
Definition in_step (pol : GatePolicy) (d : Database) : Prop :=
  forall g, g ∈ pol <-> plugin_grants d !! identity g = Some (row_of g).
(** No two grants fight for one row. *)
Definition distinct (gs : gset GrantRow) : Prop := forall g g', g ∈ gs -> g' ∈ gs -> identity g = identity g' -> g = g'.

Lemma mk_GrantRow_valid p s h c b g : mk_GrantRow p s h c b = Ok g ->
  g = {| plugin_id := p; subscriber_tier := s; hookpoint := h; content_tier := c; proposal_branch := b |} /\ valid g.
Proof.
  unfold mk_GrantRow. destruct (bool_decide_reflect (s ∈ _VALID_SUBSCRIBER_TIERS)) as [Hs|]; [|done]. simpl.
  destruct c as [c|]; [destruct (bool_decide_reflect (c ∈ _VALID_CONTENT_TIERS)) as [Hc|]; [|done]|]; simpl; intros [= <-];
    (split; [done|]); split; simpl; try done; intros ? [= <-]; done.
Qed.
Lemma valid_mk_GrantRow p s h c b :
  valid {| plugin_id := p; subscriber_tier := s; hookpoint := h; content_tier := c; proposal_branch := b |} ->
  mk_GrantRow p s h c b = Ok {| plugin_id := p; subscriber_tier := s; hookpoint := h; content_tier := c; proposal_branch := b |}.
Proof.
  intros [Hs Hc]. unfold mk_GrantRow. simpl in *. rewrite bool_decide_true by done. simpl.
  destruct c as [c|]; [|done]. by rewrite bool_decide_true by auto.
Qed.
Lemma grant_row g : grant_of (identity g, row_of g) = g.
Proof. by destruct g. Qed.
Lemma row_grant k r : pg_state r = approved -> identity (grant_of (k, r)) = k /\ row_of (grant_of (k, r)) = r.
Proof. destruct k as [[? ?] ?], r. by intros [= ->]. Qed.

Lemma elem_sorted g gs : g ∈ sorted_grants gs <-> g ∈ gs.
Proof. unfold sorted_grants. by rewrite merge_sort_Permutation, elem_of_elements. Qed.
Lemma NoDup_sorted gs : NoDup (sorted_grants gs).
Proof. unfold sorted_grants. rewrite merge_sort_Permutation. apply NoDup_elements. Qed.

Lemma revokes_lookup (l : list GrantRow) : forall t k,
  foldl (fun t g => revoke (identity g) t) t l !! k = if decide (k ∈ identity <$> l) then None else t !! k.
Proof.
  induction l as [|g l IH]; intros t k; [done|].
  cbn [foldl]. rewrite IH, fmap_cons. unfold revoke. rewrite lookup_delete.
  repeat case_decide; try done; exfalso; set_solver.
Qed.
Lemma upserts_other (l : list GrantRow) : forall t k, k ∉ identity <$> l -> foldl (fun t g => upsert g t) t l !! k = t !! k.
Proof.
  induction l as [|g l IH]; intros t k Hk; [done|]. rewrite fmap_cons in Hk. apply not_elem_of_cons in Hk as [Hne Hk].
  cbn [foldl]. rewrite IH by done. unfold upsert. by rewrite lookup_insert_ne.
Qed.
Lemma upserts_lookup (l : list GrantRow) g : (forall g', g' ∈ l -> identity g' = identity g -> g' = g) ->
  forall t, g ∈ l -> foldl (fun t g => upsert g t) t l !! identity g = Some (row_of g).
Proof.
  induction l as [|g0 l IH]; intros Hd t Hg; [by apply elem_of_nil in Hg|]. cbn [foldl].
  destruct (decide (identity g ∈ identity <$> l)) as [Hin|Hout].
  - apply list_elem_of_fmap in Hin as (g'&Heq&Hg'). assert (g' = g) as -> by (apply Hd; [by apply list_elem_of_further|done]).
    apply IH; [|done]. intros g1 ?. apply Hd. by apply list_elem_of_further.
  - rewrite upserts_other by done. apply elem_of_cons in Hg as [->|Hg].
    + unfold upsert. by rewrite lookup_insert_eq.
    + destruct Hout. apply list_elem_of_fmap. by exists g.
Qed.
Lemma sorted_upserts_lookup gs g t : (forall g', g' ∈ gs -> identity g' = identity g -> g' = g) -> g ∈ gs ->
  foldl (fun t g => upsert g t) t (sorted_grants gs) !! identity g = Some (row_of g).
Proof. intros Hd Hg. apply upserts_lookup; [|by apply elem_sorted]. intros g' Hg'%elem_sorted. by apply Hd. Qed.

(** A committed transaction leaves the table with the new grants and nothing else approved. *)
Lemma apply_in_step pol grants hash d : in_step pol d -> distinct grants ->
  in_step grants (apply_atomic (pol ∖ grants) grants hash d).
Proof.
  intros Hin Hd g. unfold apply_atomic. cbn [plugin_grants]. split.
  - intros Hg. apply sorted_upserts_lookup; [|done]. intros g' Hg'. by apply Hd.
  - destruct (decide (identity g ∈ identity <$> sorted_grants grants)) as [Hi|Hi].
    + apply list_elem_of_fmap in Hi as (g'&Heq&Hg'). apply elem_sorted in Hg'. rewrite Heq, sorted_upserts_lookup; [|intros g1 Hg1; by apply Hd|done].
      intros [= Hc Hb]. assert (g' = g) as <-; [|done].
      unfold identity in Heq. destruct g, g'. simpl in *. congruence.
    + rewrite upserts_other, revokes_lookup by done. case_decide as Hr; [done|]. intros Hg%Hin.
      destruct (decide (g ∈ grants)) as [?|Hng]; [done|]. destruct Hr. apply list_elem_of_fmap. exists g. split; [done|].
      apply elem_sorted. by apply elem_of_difference.
Qed.

Section laws.
Context (collation : relation (Identity * PluginGrant)) `{!forall x y, Decision (collation x y)}.

Lemma collect_elem rows gs : collect rows = Ok gs -> (forall g, g ∈ gs <-> g ∈ grant_of <$> rows) /\ (forall g, g ∈ gs -> valid g).
Proof.
  revert gs. induction rows as [|[[[p h] s] r] rows IH]; intros gs; simpl.
  { intros [= <-]. split; [|intros g ?; set_solver]. intros g. split; [set_solver|by intros ?%elem_of_nil]. }
  destruct (mk_GrantRow p s h _ _) as [g0|] eqn:Hg0; [|done]. destruct (collect rows) as [gs'|] eqn:Hc; [|done].
  intros [= <-]. apply mk_GrantRow_valid in Hg0 as [-> Hv]. destruct (IH gs' eq_refl) as [H1 H2]. split.
  - intros g. rewrite elem_of_union, elem_of_singleton, elem_of_cons, H1. done.
  - intros g [->%elem_of_singleton|?]%elem_of_union; auto.
Qed.
Lemma collect_Ok rows : (forall x, x ∈ rows -> valid (grant_of x)) -> exists gs, collect rows = Ok gs.
Proof.
  induction rows as [|[[[p h] s] r] rows IH]; intros Hv; simpl; [eauto|].
  rewrite (valid_mk_GrantRow p s h) by apply (Hv ((p, h, s), r)), list_elem_of_here.
  destruct IH as [gs ->]; [|by eexists]. intros x Hx. by apply Hv, list_elem_of_further.
Qed.

Definition approved_rows (d : Database) : list (Identity * PluginGrant) :=
  filter (fun x => pg_state x.2 = approved) (map_to_list (plugin_grants d)).
(** No more than [load_grants] reads. *)
Definition small (d : Database) : Prop := (length (approved_rows d) <= _LOAD_GRANTS_ROW_CAP)%nat.
Lemma size_small d : (size (plugin_grants d) <= _LOAD_GRANTS_ROW_CAP)%nat -> small d.
Proof. intros Hs. unfold small, approved_rows. etrans; [apply length_filter|]. by rewrite length_map_to_list. Qed.
Lemma loaded_rows d : small d ->
  take _LOAD_GRANTS_ROW_CAP (merge_sort collation (approved_rows d)) ≡ₚ approved_rows d.
Proof.
  intros Hs. rewrite take_ge; [apply merge_sort_Permutation|]. by rewrite merge_sort_Permutation.
Qed.
Lemma approved_grants d g : g ∈ grant_of <$> approved_rows d <-> plugin_grants d !! identity g = Some (row_of g).
Proof.
  rewrite list_elem_of_fmap. split.
  - intros ([k r]&->&[Hap Hin]%list_elem_of_filter). simpl in Hap. destruct (row_grant k r Hap) as [-> ->].
    by apply elem_of_map_to_list in Hin.
  - intros Hl. exists (identity g, row_of g). split; [by rewrite grant_row|]. apply list_elem_of_filter. split; [done|].
    by apply elem_of_map_to_list.
Qed.
Lemma load_in_step d gs : small d -> load_grants collation d = Ok gs ->
  in_step gs d /\ forall g, g ∈ gs -> valid g.
Proof.
  intros Hs Hl. apply collect_elem in Hl as [H1 H2]. split; [|done]. intros g. rewrite H1.
  fold (approved_rows d). rewrite (loaded_rows d Hs). apply approved_grants.
Qed.
Lemma in_step_load d pol : small d -> in_step pol d -> (forall g, g ∈ pol -> valid g) ->
  load_grants collation d = Ok pol.
Proof.
  intros Hs Hin Hv. destruct (collect_Ok (take _LOAD_GRANTS_ROW_CAP (merge_sort collation (approved_rows d)))) as [gs Hgs].
  - intros x Hx. apply Hv, Hin, approved_grants. rewrite <- (loaded_rows d Hs). apply list_elem_of_fmap. by exists x.
  - unfold load_grants. fold (approved_rows d). rewrite Hgs. f_equal. apply set_eq. intros g.
    destruct (load_in_step d gs Hs Hgs) as [Hin' _]. by rewrite (Hin' g), (Hin g).
Qed.
End laws.

(** ** The gate over its table *)
(** What a parse yields: validated grants, no two for one row. *)
Definition well_parsed (ev : event) : Prop :=
  match ev with
  | Rebuild at_ _ => forall gs, parsed at_ = Some gs -> distinct gs /\ forall g, g ∈ gs -> valid g
  | _ => True
  end.
Definition coherent (w : World) : Prop := in_step (_policy (gate w)) (db w) /\ forall g, g ∈ _policy (gate w) -> valid g.

(** The transaction took effect, and raised. *)
Definition ambiguous (at_ : Attempt) : bool := match transaction at_ with Some x => took_effect x | None => false end.
Definition unambiguous (ev : event) : Prop := match ev with Rebuild at_ _ => ambiguous at_ = false | _ => True end.
(** What the table holds after a rebuild: the policy in memory, or, when the transaction took
    effect and raised, the new grants under the new commit beside the old policy. *)
Lemma rebuild_holds at_ head w : well_parsed (Rebuild at_ head) -> coherent w ->
  let '(r, w') := rebuild_from_state_git at_ head w in
  exists pol, in_step pol (db w') /\ (forall g, g ∈ pol -> valid g) /\ (r = Ok tt -> pol = _policy (gate w') /\ sync_hash (db w') = Some head) /\
    (pol = _policy (gate w') \/ ambiguous at_ = true /\ parsed at_ = Some pol /\ sync_hash (db w') = Some head /\ _policy (gate w') = _policy (gate w)).
Proof.
  intros Hp [Hin Hv]. unfold rebuild_from_state_git. destruct (hash_fails at_); [exists (_policy (gate w)); split_and!; by try left|].
  case_decide as Hh; [exists (_policy (gate w)); split_and!; by try left|].
  destruct (parsed at_) as [gs|] eqn:Hgs; [|destruct (audit_ok at_); exists (_policy (gate w)); split_and!; by try left]. destruct (Hp gs Hgs) as [Hd Hvg].
  assert (Hnew : in_step gs (apply_atomic (_policy (gate w) ∖ gs) gs head (db w))) by by apply apply_in_step.
  unfold bind, _apply_grants, ambiguous. destruct (transaction at_) as [[[] e]|]; cbn.
  - destruct (decide _), (audit_ok at_); exists gs; split_and!; try done; by right.
  - destruct (decide _), (audit_ok at_); exists (_policy (gate w)); split_and!; try done; by left.
  - destruct (audit_ok at_); exists gs; split_and!; try done; by left.
Qed.
Lemma rebuild_coherent at_ head w : ambiguous at_ = false -> well_parsed (Rebuild at_ head) -> coherent w -> coherent (rebuild_from_state_git at_ head w).2.
Proof.
  intros Ha Hp Hw. pose proof (rebuild_holds at_ head w Hp Hw) as H. destruct (rebuild_from_state_git at_ head w) as [r w']. destruct H as (pol&H1&H2&_&[Ep|[H _]]); [subst pol; by split|congruence].
Qed.
Lemma step_coherent ev w : unambiguous ev -> well_parsed ev -> coherent w -> coherent (step ev w).2.
Proof.
  intros Ha Hp Hw. destruct ev; simpl; unfold check, check_plugin_load, check_content_clearance, guarded, pinged, audited; try done.
  1-3: by destruct (_fail_closed (gate w)).
  - by apply rebuild_coherent.
  - destruct (_heartbeat (gate w)); try done. destruct ok; [done|]. by destruct (_ && _).
  - destruct (_heartbeat (gate w)); try done; by destruct ok.
Qed.
Lemma run_coherent evs : forall w, Forall unambiguous evs -> Forall well_parsed evs -> coherent w -> coherent (run evs w).
Proof.
  induction evs as [|ev evs IH]; intros w Ha Hp Hw; [done|]. apply Forall_cons in Hp as [Hev Hp], Ha as [Hea Ha].
  unfold run. cbn [foldl]. apply IH; [done..|]. by apply step_coherent.
Qed.

Lemma rebuild_applies at_ head w gs : hash_fails at_ = false -> sync_hash (db w) <> Some head -> parsed at_ = Some gs ->
  transaction at_ = None -> audit_ok at_ = true ->
  rebuild_from_state_git at_ head w =
  (Ok tt, emit (Rebuilt head (Z.of_nat (size gs)) true)
            (with_policy gs (with_db (apply_atomic (_policy (gate w) ∖ gs) gs head (db w)) w))).
Proof. intros H1 H2 H3 H4 H5. unfold rebuild_from_state_git, bind, _apply_grants. rewrite H1, decide_False, H3, H4, H5 by done. reflexivity. Qed.
Lemma rebuild_noop at_ head w : hash_fails at_ = false -> sync_hash (db w) = Some head ->
  rebuild_from_state_git at_ head w = (Ok tt, w).
Proof. intros H1 H2. unfold rebuild_from_state_git. by rewrite H1, decide_True. Qed.

(** C34: from a gate loaded at start, from a table of no more than the 10,000 approved rows that
    [load_grants] reads: whatever checks, pings and rebuilds follow, one rebuild at a time,
    and wherever one fails (hash read, parse, transaction before it took effect, audit write),
    the policy in memory is exactly the approved rows of the table, so that a restart loads
    the same policy as long as that table is small enough too; and a rebuild that returns has
    recorded its commit.  The first rebuild whose transaction takes effect and then raises
    leaves the table with the new grants under the new commit and memory with the policy it
    had.  No two parsed grants share a row. *)
Theorem table_and_policy_stay_in_step collation `{!forall x y, Decision (collation x y)} d g evs at_ head :
  small d -> create collation d = Ok g -> Forall unambiguous evs -> Forall well_parsed evs -> well_parsed (Rebuild at_ head) ->
  let w := run evs {| gate := g; db := d; audit := [] |} in
  let '(r, w') := rebuild_from_state_git at_ head w in
  coherent w /\
  exists pol, in_step pol (db w') /\ (r = Ok tt -> pol = _policy (gate w') /\ sync_hash (db w') = Some head) /\
    (pol = _policy (gate w') \/ ambiguous at_ = true /\ parsed at_ = Some pol /\ sync_hash (db w') = Some head /\ _policy (gate w') = _policy (gate w)) /\
    (small (db w') -> exists g', create collation (db w') = Ok g' /\ _policy g' = pol).
Proof.
  intros Hs Hc Hu Hevs Hat w. unfold create in Hc. destruct (load_grants collation d) as [pol|] eqn:Hl; [|done]. injection Hc as <-.
  assert (Hw : coherent w) by (apply run_coherent; [done..|]; by apply (load_in_step collation)).
  pose proof (rebuild_holds at_ head w Hat Hw) as Hq. destruct (rebuild_from_state_git at_ head w) as [r w']. destruct Hq as (pol'&H1&H2&H3&H4).
  split; [done|]. exists pol'. split_and!; try done. intros Hsm. unfold create. rewrite (in_step_load collation (db w') _ Hsm H1 H2). by eexists.
Qed.

(** ** The seeded defences *)
Definition DLP_MODULE : string := "alfred.security._extract_dlp_subscriber".
Definition first_party (p h : string) (c : option string) : GrantRow :=
  {| plugin_id := p; subscriber_tier := "system"; hookpoint := h; content_tier := c; proposal_branch := _FIRST_PARTY_PROPOSAL_BRANCH |}.
Definition FIRST_PARTY_SYSTEM_GRANTS : list GrantRow :=
  [first_party DLP_MODULE "security.quarantined.extract" None;
   first_party "alfred.orchestrator.tool_dispatch" "tool.dispatch" None;
   first_party "alfred.quarantined-llm" "quarantine.dereference" (Some "T3");
   first_party "t3.downgrade_to_orchestrator" "t3.downgrade_to_orchestrator" (Some "T3")]%string.

Lemma check_policy_spec pol p h t : check_policy pol p h t = true <->
  exists g, g ∈ pol /\ plugin_id g = p /\ subscriber_tier g = t /\ (hookpoint g = "*"%string \/ hookpoint g = h).
Proof.
  unfold check_policy. rewrite existsb_exists. split.
  - intros (g&Hg&Hb). exists g. rewrite !andb_true_iff, orb_true_iff, !bool_decide_eq_true in Hb.
    split; [by apply elem_of_elements, list_elem_of_In|tauto].
  - intros (g&Hg&?&?&?). exists g. split; [by apply list_elem_of_In, elem_of_elements|].
    rewrite !andb_true_iff, orb_true_iff, !bool_decide_eq_true. tauto.
Qed.

Lemma seeded_dlp_row extra d g : g = first_party DLP_MODULE "security.quarantined.extract" None ->
  (forall g', g' ∈ extra -> plugin_id g' <> DLP_MODULE) ->
  let d' := reconcile_comms_adapter_grants extra (seed_first_party_grants (list_to_set FIRST_PARTY_SYSTEM_GRANTS ∪ extra) d) in
  plugin_grants d' !! identity g = Some (row_of g).
Proof.
  intros Hg Hex d'. unfold d', reconcile_comms_adapter_grants. cbn [plugin_grants].
  assert (Hother : identity g ∉ identity <$> sorted_grants extra).
  { intros (g'&Heq&Hg'%elem_sorted)%list_elem_of_fmap. apply (Hex g' Hg'). subst g. unfold identity in Heq. by injection Heq. }
  rewrite upserts_other by done.
  assert (Hseed : foldl (fun t g => upsert g t) (plugin_grants d) (sorted_grants (list_to_set FIRST_PARTY_SYSTEM_GRANTS ∪ extra)) !! identity g
                  = Some (row_of g)).
  { apply sorted_upserts_lookup.
    - intros g' [Hin%elem_of_list_to_set|Hin]%elem_of_union Hid.
      + unfold FIRST_PARTY_SYSTEM_GRANTS in Hin. repeat (apply elem_of_cons in Hin as [->|Hin]; [subst g; done|]). by apply elem_of_nil in Hin.
      + exfalso. apply (Hex g' Hin). subst g. unfold identity in Hid. by injection Hid.
    - apply elem_of_union_l, elem_of_list_to_set. subst g. apply list_elem_of_here. }
  set (stale := filter _ (map_to_list _)).
  assert (Hst : forall t (l : list (Identity * PluginGrant)), identity g ∉ fst <$> l -> foldl (fun t x => revoke x.1 t) t l !! identity g = t !! identity g).
  { intros t l. revert t. induction l as [|x l IH]; intros t Hl; [done|]. rewrite fmap_cons in Hl. apply not_elem_of_cons in Hl as [Hx Hl].
    cbn [foldl]. rewrite IH by done. unfold revoke. by rewrite lookup_delete_ne. }
  rewrite Hst; [exact Hseed|]. intros ([k r]&Heq&[[Hbr _] Hin]%list_elem_of_filter)%list_elem_of_fmap. simpl in *. subst k.
  apply elem_of_map_to_list in Hin. unfold seed_first_party_grants in Hin. cbn [plugin_grants] in Hin. rewrite Hseed in Hin.
  injection Hin as <-. by subst g.
Qed.

(** After a commit that took effect and raised, memory and table part for good.  A gate grants
    "a"; the rebuild to a commit that grants "b" alone takes effect and raises; the same
    rebuild again finds its commit recorded and returns, with "a" still granted; the next one,
    to a commit that grants nothing, revokes in the table what memory has, which is "a", so
    that "b" stays there, and the process that starts next grants it. *)
Theorem ambiguous_commit_resurrects_a_grant :
  let g p := {| plugin_id := p; subscriber_tier := "operator"; hookpoint := "*"; content_tier := None; proposal_branch := "b" |}%string in
  let at_ gs x := {| hash_fails := false; parsed := Some gs; transaction := x; audit_ok := true |} in
  let broken := Some {| took_effect := true; raised := SQLAlchemyError |} in
  let any : relation (Identity * PluginGrant) := fun _ _ => True in
  let asks p gt := (check p "h" "operator" gt).1 in
  let w0 := {| gate := {| _policy := {[g "a"]}; _fail_closed := false; _missed_heartbeats := 0; _denied_dispatch_count := 0; _heartbeat := Pinging |};
               db := {| plugin_grants := {[identity (g "a") := row_of (g "a")]}; sync_hash := Some "c0" |}; audit := [] |}%string in
  let '(r1, w1) := rebuild_from_state_git (at_ {[g "b"]} broken) "c1" w0 in
  let '(r2, w2) := rebuild_from_state_git (at_ {[g "b"]} None) "c1" w1 in
  let '(r3, w3) := rebuild_from_state_git (at_ ∅ None) "c2" w2 in
  (r1, r2, r3) = (Err SQLAlchemyError, Ok tt, Ok tt) /\ asks "a" (gate w2) = true /\ asks "b" (gate w2) = false /\ asks "b" (gate w3) = false /\
  match create any (db w3) with Ok g' => asks "b" g' = true | Err _ => False end.
Proof. vm_compute. done. Qed.

(** A rebuild takes the host's own defences away: from a gate seeded with the first-party
    grants, a rebuild at a new commit whose tree does not grant the DLP subscriber (the seeds
    are not in that tree) deletes its row and makes the gate refuse it, in memory at once and
    in the table until the next boot seeds it again. *)
Theorem rebuild_revokes_seeded_defences collation `{!forall x y, Decision (collation x y)} extra d w head gs :
  build_boot_real_gate collation (list_to_set FIRST_PARTY_SYSTEM_GRANTS) extra d = Ok w -> small (db w) ->
  (forall g, g ∈ extra -> plugin_id g <> DLP_MODULE) ->
  (forall g, g ∈ gs -> plugin_id g <> DLP_MODULE) -> sync_hash (db w) <> Some head ->
  let asks w := (check DLP_MODULE "security.quarantined.extract" "system" (gate w)).1 in
  let '(r, w') := rebuild_from_state_git {| hash_fails := false; parsed := Some gs; transaction := None; audit_ok := true |} head w in
  asks w = true /\ r = Ok tt /\ asks w' = false /\
  plugin_grants (db w') !! (DLP_MODULE, "security.quarantined.extract", "system")%string = None.
Proof.
  intros Hmk Hsm Hex Hgs Hhd asks. set (g0 := first_party DLP_MODULE "security.quarantined.extract" None).
  unfold build_boot_real_gate in Hmk. pose proof (seeded_dlp_row extra d g0 eq_refl Hex) as Hrow. simpl in Hrow.
  set (d1 := reconcile_comms_adapter_grants _ _) in *. unfold create in Hmk.
  destruct (load_grants collation d1) as [pol|] eqn:Hl; [|done]. injection Hmk as <-. cbn [db gate] in *.
  destruct (load_in_step collation d1 pol Hsm Hl) as [Hin _]. pose proof (proj2 (Hin g0) Hrow) as Hg0.
  unfold rebuild_from_state_git. cbn [hash_fails db parsed]. rewrite decide_False by done. unfold bind, _apply_grants. simpl.
  split_and!; [|done| |].
  - unfold asks, check, guarded. simpl. apply check_policy_spec. exists g0. auto.
  - unfold asks, check, guarded. simpl. apply not_true_iff_false. intros (g&Hg&Hp&_)%check_policy_spec. by apply (Hgs g).
  - change (DLP_MODULE, "security.quarantined.extract", "system")%string with (identity g0).
    assert (Hng : g0 ∉ gs) by (intros Hg; by apply (Hgs g0)).
    rewrite upserts_other, revokes_lookup, decide_True; [done| |].
    + apply list_elem_of_fmap. exists g0. split; [done|]. apply elem_sorted. by apply elem_of_difference.
    + intros (g&Heq&Hg%elem_sorted)%list_elem_of_fmap. apply (Hgs g Hg). unfold identity in Heq. by injection Heq.
Qed.

Lemma in_step_singleton g h : in_step {[g]} {| plugin_grants := {[identity g := row_of g]}; sync_hash := h |}.
Proof.
  intros g'. cbn [plugin_grants]. rewrite elem_of_singleton, lookup_singleton_Some. split; [by intros ->|].
  intros [Hi Hr]. destruct g, g'. unfold identity, row_of in *. simpl in *. congruence.
Qed.
Lemma table_and_policy_stay_in_step_witness :
  let any : relation (Identity * PluginGrant) := fun _ _ => True in
  let g t := {| plugin_id := "p"; subscriber_tier := t; hookpoint := "*"; content_tier := Some "T2"; proposal_branch := "b" |}%string in
  let d := {| plugin_grants := {[identity (g "system") := row_of (g "system")]}; sync_hash := None |}%string in
  let at_ gs x := {| hash_fails := false; parsed := gs; transaction := x; audit_ok := true |} in
  let broken := Some {| took_effect := false; raised := SQLAlchemyError |} in
  let evs := [Rebuild (at_ (Some {[g "operator"]}) broken) "c1"; Pinged false; Rebuild (at_ None None) "c1"]%string in
  let g0 := {| _policy := {[g "system"%string]}; _fail_closed := false; _missed_heartbeats := 0; _denied_dispatch_count := 0; _heartbeat := Pinging |} in
  create any d = Ok g0 /\
  let w := run evs {| gate := g0; db := d; audit := [] |} in
  let '(r, w') := rebuild_from_state_git (at_ (Some {[g "operator"%string]}) None) "c2" w in
  coherent w /\
  exists pol, in_step pol (db w') /\ (r = Ok tt -> pol = _policy (gate w') /\ sync_hash (db w') = Some "c2"%string) /\
    (pol = _policy (gate w') \/ ambiguous (at_ (Some {[g "operator"%string]}) None) = true /\ Some {[g "operator"%string]} = Some pol /\
       sync_hash (db w') = Some "c2"%string /\ _policy (gate w') = _policy (gate w)) /\
    (small (db w') -> exists g', create any (db w') = Ok g' /\ _policy g' = pol).
Proof.
  intros any g d at_ broken evs g0.
  assert (Hsm : small d) by (apply size_small; unfold d; cbn [plugin_grants]; rewrite map_size_singleton; unfold _LOAD_GRANTS_ROW_CAP; lia).
  assert (Hv : forall t x, t ∈ _VALID_SUBSCRIBER_TIERS -> x ∈ ({[g t]} : gset GrantRow) -> valid x).
  { intros t x Ht ->%elem_of_singleton. split; [done|]. intros c [= <-]. cbn. set_solver. }
  assert (Hwp : forall x head, well_parsed (Rebuild (at_ (Some {[g "operator"%string]}) x) head)).
  { intros x0 head gs' [= <-]. split; [by intros x y ->%elem_of_singleton ->%elem_of_singleton|]. intros x. apply Hv. cbn. set_solver. }
  assert (Hc : create any d = Ok g0).
  { unfold create. rewrite (in_step_load any d {[g "system"%string]} Hsm); [done|apply in_step_singleton|]. intros x. apply Hv. cbn. set_solver. }
  split; [exact Hc|]. apply (table_and_policy_stay_in_step any d g0 evs); [exact Hsm|exact Hc|by repeat constructor| |apply Hwp].
  constructor; [apply Hwp|]. constructor; [exact I|]. constructor; [|constructor]. intros ? [=].
Defined.

Lemma rebuild_revokes_seeded_defences_witness :
  let any : relation (Identity * PluginGrant) := fun _ _ => True in
  let d := {| plugin_grants := ∅; sync_hash := Some "c1"%string |} in
  exists w, build_boot_real_gate any (list_to_set FIRST_PARTY_SYSTEM_GRANTS) ∅ d = Ok w /\
  let asks w := (check DLP_MODULE "security.quarantined.extract" "system" (gate w)).1 in
  let '(r, w') := rebuild_from_state_git {| hash_fails := false; parsed := Some ∅; transaction := None; audit_ok := true |} "c2" w in
  asks w = true /\ r = Ok tt /\ asks w' = false /\
  plugin_grants (db w') !! (DLP_MODULE, "security.quarantined.extract", "system")%string = None.
Proof.
  intros any d.
  assert (Hb : match build_boot_real_gate any (list_to_set FIRST_PARTY_SYSTEM_GRANTS) ∅ d with
               | Ok w => Nat.leb (size (plugin_grants (db w))) _LOAD_GRANTS_ROW_CAP && bool_decide (sync_hash (db w) <> Some "c2"%string)
               | Err _ => false end = true) by (vm_compute; reflexivity).
  destruct (build_boot_real_gate _ _ _ _) as [w|] eqn:Hw; [|done]. apply andb_true_iff in Hb as [Hsm%Nat.leb_le Hh%bool_decide_eq_true].
  exists w. split; [done|].
  apply (rebuild_revokes_seeded_defences any ∅ d w "c2" ∅ Hw (size_small _ Hsm)); [set_solver|set_solver|exact Hh].
Defined.

(** Two clearances of one plugin at one hookpoint and tier do not survive a restart: the
    policy in memory grants both, the table has one row for them and keeps the last, and the
    next process, which finds the commit already applied, does not rebuild. *)
Theorem restart_loses_colliding_clearance collation `{!forall x y, Decision (collation x y)} :
  let g c := {| plugin_id := "p"; subscriber_tier := "operator"; hookpoint := "*"; content_tier := Some c; proposal_branch := "b" |}%string in
  let at_ := {| hash_fails := false; parsed := Some {[g "T2"%string; g "T3"%string]}; transaction := None; audit_ok := true |} in
  let clears c g := (check_content_clearance "p" "h" c g).1 in
  exists g0, create collation {| plugin_grants := ∅; sync_hash := None |} = Ok g0 /\
  let '(r, w) := rebuild_from_state_git at_ "c1" {| gate := g0; db := {| plugin_grants := ∅; sync_hash := None |}; audit := [] |} in
  r = Ok tt /\ clears "T2"%string (gate w) = true /\ clears "T3"%string (gate w) = true /\
  exists g', create collation (db w) = Ok g' /\ clears "T2"%string g' = false /\ clears "T3"%string g' = true /\
    let w' := {| gate := g'; db := db w; audit := [] |} in rebuild_from_state_git at_ "c1" w' = (Ok tt, w').
Proof.
  intros g at_ clears. set (d := {| plugin_grants := ∅; sync_hash := None |}).
  set (grants := {[g "T2"%string; g "T3"%string]} : gset GrantRow).
  set (g0 := {| _policy := ∅; _fail_closed := false; _missed_heartbeats := 0; _denied_dispatch_count := 0; _heartbeat := Pinging |}).
  assert (Hl : load_grants collation d = Ok ∅) by reflexivity.
  exists g0. split; [unfold create; by rewrite Hl|].
  set (d' := apply_atomic (∅ ∖ grants) grants "c1" d).
  assert (Hb : match load_grants collation d' with
               | Ok pol => negb (check_content_clearance_policy pol "p" "h" "T2") && check_content_clearance_policy pol "p" "h" "T3"
               | Err _ => false end && check_content_clearance_policy grants "p" "h" "T2"
               && check_content_clearance_policy grants "p" "h" "T3" = true) by (vm_compute; reflexivity).
  rewrite (rebuild_applies at_ "c1" _ grants) by (reflexivity || discriminate). cbn [gate _policy db g0 d]. fold d'.
  destruct (load_grants collation d') as [pol|] eqn:Hpol; [|discriminate].
  rewrite !andb_true_iff, negb_true_iff in Hb. destruct Hb as [[[H1 H2] H3] H4].
  split; [reflexivity|]. split; [exact H3|]. split; [exact H4|].
  exists {| _policy := pol; _fail_closed := false; _missed_heartbeats := 0; _denied_dispatch_count := 0; _heartbeat := Pinging |}.
  split; [unfold create; change (db _) with d'; by rewrite Hpol|]. split; [exact H1|]. split; [exact H2|].
  apply rebuild_noop; reflexivity.
Qed.

(** ** The heartbeat *)
Definition no_recovery (ev : event) : Prop := ev <> Pinged true.
Definition misses (evs : list event) : Z := Zsum (fun ev => match ev with Pinged false => 1 | _ => 0 end) evs.
Fixpoint answers (evs : list event) (w : World) : list bool :=
  match evs with
  | [] => []
  | ev :: evs' => let '(a, w') := step ev w in option_list a ++ answers evs' w'
  end.
(** Shut and not about to reopen. *)
Definition shut (w : World) : Prop :=
  _fail_closed (gate w) = true /\ match _heartbeat (gate w) with AuditExiting _ => False | _ => True end.
Definition counting (n : Z) (w : World) : Prop :=
  _fail_closed (gate w) = false /\ _heartbeat (gate w) = Pinging /\ _missed_heartbeats (gate w) = n.

Lemma rebuild_gate at_ head w : let w' := (rebuild_from_state_git at_ head w).2 in
  _fail_closed (gate w') = _fail_closed (gate w) /\ _heartbeat (gate w') = _heartbeat (gate w) /\
  _missed_heartbeats (gate w') = _missed_heartbeats (gate w).
Proof.
  unfold rebuild_from_state_git, bind, _apply_grants. destruct (hash_fails at_); [done|]. case_decide; [done|].
  destruct (parsed at_), (audit_ok at_), (transaction at_) as [[[] e]|]; cbn; try destruct (decide _); done.
Qed.
Lemma step_shut ev w : no_recovery ev -> shut w -> shut (step ev w).2 /\ Forall (fun b => b = false) (option_list (step ev w).1).
Proof.
  intros Hn [Hc Hh]. unfold shut. destruct ev as [p h t|p t|p h c|at_ head|ok|ok]; simpl.
  1-3: unfold check, check_plugin_load, check_content_clearance, guarded; rewrite Hc; simpl; rewrite ?Hc; by repeat constructor.
  - pose proof (rebuild_gate at_ head w) as (E1&E2&_). simpl in E1, E2. rewrite E1, E2. by repeat constructor.
  - destruct ok; [done|]. unfold pinged. destruct (_heartbeat (gate w)) eqn:Hb; simpl; rewrite ?Hc, ?Hb; try done.
    rewrite andb_false_r. simpl. by repeat constructor.
  - unfold audited. destruct (_heartbeat (gate w)) eqn:Hb; simpl; rewrite ?Hc, ?Hb; try done. destruct ok; simpl; by repeat constructor.
Qed.
Lemma run_shut evs : forall w, Forall no_recovery evs -> shut w -> shut (run evs w) /\ Forall (fun b => b = false) (answers evs w).
Proof.
  induction evs as [|ev evs IH]; intros w Hn Hw; [by split; [|constructor]|]. apply Forall_cons in Hn as [Hev Hn].
  destruct (step_shut ev w Hev Hw) as [Hw' Ha]. destruct (IH _ Hn Hw') as [H1 H2]. unfold run in *. cbn [foldl answers].
  destruct (step ev w) as [a w']. simpl in *. split; [done|]. apply Forall_app. by split.
Qed.
Lemma step_counting ev w n : no_recovery ev -> counting n w -> n < 6 ->
  counting (n + misses [ev]) (step ev w).2 \/ (6 <= n + misses [ev] /\ shut (step ev w).2).
Proof.
  intros Hn (Hc&Hh&Hm) Hlt. unfold misses. rewrite Zsum_singleton. unfold counting, shut.
  destruct ev as [p h t|p t|p h c|at_ head|ok|ok]; simpl; rewrite ?Z.add_0_r.
  1-3: left; unfold check, check_plugin_load, check_content_clearance, guarded; by rewrite Hc.
  - left. pose proof (rebuild_gate at_ head w) as (E1&E2&E3). simpl in E1, E2, E3. by rewrite E1, E2, E3.
  - destruct ok; [done|]. unfold pinged. rewrite Hh, Hc, Hm. unfold _MAX_MISSED_HEARTBEATS.
    destruct (Z.leb_spec 6 (n + 1)); simpl; [right|left]; done.
  - left. unfold audited. by rewrite Hh.
Qed.
Lemma run_counting evs : forall w n, Forall no_recovery evs -> counting n w -> n < 6 -> 6 <= n + misses evs -> shut (run evs w).
Proof.
  induction evs as [|ev evs IH]; intros w n Hn Hw Hlt Hm; [unfold misses in Hm; change (Zsum _ []) with 0 in Hm; lia|].
  apply Forall_cons in Hn as [Hev Hn]. unfold run. cbn [foldl]. fold (run evs (step ev w).2).
  assert (Hs : misses (ev :: evs) = misses [ev] + misses evs) by (unfold misses; zlen; lia).
  destruct (step_counting ev w n Hev Hw Hlt) as [Hc|[_ Hsh]]; [|by apply run_shut].
  destruct (Z.lt_ge_cases (n + misses [ev]) 6) as [H|H]; [apply (IH _ (n + misses [ev])); auto; lia|].
  destruct Hc as (Hc&Hh&_). destruct (step_counting ev w n Hev Hw Hlt) as [(Hc'&_&Hm')|[_ ?]]; [|by apply run_shut].
  exfalso. clear -Hw Hm' H Hlt Hc' Hev. destruct Hw as (Hc&Hh&Hm). unfold misses in *. rewrite Zsum_singleton in *.
  destruct ev as [| | | |ok|]; try lia. destruct ok; [done|]. simpl in *. unfold pinged in *. rewrite Hh, Hc, Hm in *.
  unfold _MAX_MISSED_HEARTBEATS in *. destruct (Z.leb_spec 6 (n + 1)); [done|lia].
Qed.

(** Fail-closed: from an open gate whose heartbeat runs, once six pings in all have failed
    and none has succeeded (other calls, rebuilds and audit outcomes interleaved at will, the
    audit of the transition possibly failing), the gate reports the store unavailable, and
    every check of every kind is denied for as long as no ping succeeds. *)
Theorem gate_fails_closed_after_six_misses w evs evs' n :
  counting n w -> 0 <= n < 6 -> Forall no_recovery evs -> 6 <= n + misses evs -> Forall no_recovery evs' ->
  is_backing_store_available (gate (run evs w)) = false /\ Forall (fun b => b = false) (answers evs' (run evs w)) /\
  is_backing_store_available (gate (run evs' (run evs w))) = false.
Proof.
  intros Hw [_ Hlt] Hn Hm Hn'. pose proof (run_counting evs w n Hn Hw Hlt Hm) as Hs.
  destruct (run_shut evs' _ Hn' Hs) as [Hs' Ha]. unfold is_backing_store_available. destruct Hs as [-> _], Hs' as [-> _]. done.
Qed.
Lemma gate_fails_closed_after_six_misses_witness :
  let g := {| plugin_id := "p"; subscriber_tier := "system"; hookpoint := "*"; content_tier := None; proposal_branch := "b" |}%string in
  let w := {| gate := {| _policy := {[g]}; _fail_closed := false; _missed_heartbeats := 0; _denied_dispatch_count := 0; _heartbeat := Pinging |};
              db := {| plugin_grants := ∅; sync_hash := None |}; audit := [] |} in
  let evs := [Pinged false; Pinged false; Pinged false; Pinged false; Pinged false; Check "p" "h" "system"; Pinged false]%string in
  let evs' := [Check "p" "h" "system"; Audited false; CheckLoad "p" "system"]%string in
  answers evs w = [true] /\
  (is_backing_store_available (gate (run evs w)) = false /\ Forall (fun b => b = false) (answers evs' (run evs w)) /\
   is_backing_store_available (gate (run evs' (run evs w))) = false).
Proof.
  intros g w evs evs'. split; [vm_compute; reflexivity|].
  apply (gate_fails_closed_after_six_misses w evs evs' 0); [by split_and!|lia| |vm_compute; discriminate|]; repeat constructor; discriminate.
Defined.
