(* ===== verification/HookRegistry.v ===== *)
(** * Hooks: carriers, coroutines and the registry

    [hooks/context.py] (the carrier handed along a chain), [hooks/errors.py] (its
    exceptions) and [hooks/registry.py] (declarations of hookpoints and registration of
    subscribers, asked of a capability gate).  A subscriber's coroutine is its interaction
    tree: it returns, raises, sleeps (and learns whether the sleep was cancelled) or
    dispatches another hook chain.  The process-wide audit sink of a refused registration is
    the outcome the registration carries. *)
From S2P Require Import Prelude CapabilityGate.

(** ** [context.py] and [errors.py] *)
Inductive HookKind := pre | post | error | cancel.
#[export] Instance HookKind_eq_dec : EqDecision HookKind.
Proof. solve_decision. Defined.
#[export] Instance HookKind_countable : Countable HookKind.
Proof.
  refine (inj_countable' (fun k => match k with pre => 0%nat | post => 1%nat | error => 2%nat | cancel => 3%nat end)
    (fun n => match n with 0%nat => pre | 1%nat => post | 2%nat => error | _ => cancel end) _).
  by intros [].
Defined.

(** Why the host raised a [HookError]. *)
Inductive hook_error :=
| unknown_tier_in_declaration | carrier_tier_required | carrier_tier_must_be_none_for_meta_hookpoint
| allow_error_substitution_must_be_false_for_meta_hookpoint | hookpoint_drift
| subscriber_must_be_async | unknown_tier | hookpoint_not_declared | tier_not_subscribable | gate_refused
| dispatch_undeclared_hookpoint | publisher_drift (drift_kind : string) | chain_timeout (cleanup_timed_out : bool)
| internal_misuse.
Inductive exn :=
| HookRefusal (reason : string)
| HookError (why : hook_error)
| HookSubscriberError (name : string)
| RuntimeError
| TimeoutError
| CancelledError
| Raised (cls : string) (is_Exception : bool).
#[export] Instance hook_error_eq_dec : EqDecision hook_error.
Proof. solve_decision. Defined.
#[export] Instance exn_eq_dec : EqDecision exn.
Proof. solve_decision. Defined.
(** [isinstance(e, Exception)] *)
Definition is_Exception (e : exn) : bool :=
  match e with CancelledError => false | Raised _ b => b | _ => true end.
Definition class_name (e : exn) : string :=
  match e with
  | HookRefusal _ => "HookRefusal" | HookError _ => "HookError" | HookSubscriberError _ => "HookSubscriberError"
  | RuntimeError => "RuntimeError" | TimeoutError => "TimeoutError" | CancelledError => "CancelledError"
  | Raised c _ => c
  end%string.

(** Python objects as the dispatcher sees them: a class and a content, or an exception. *)
Inductive object := Object (cls contents : string) | ExcObject (e : option exn).

Record HookContext := {
  action_id : string; cx_hookpoint : string; input : object; correlation_id : string;
  cx_kind : HookKind; metadata : gmap string object }.
Definition with_input (new_input : object) (c : HookContext) : HookContext :=
  {| action_id := action_id c; cx_hookpoint := cx_hookpoint c; input := new_input; correlation_id := correlation_id c;
     cx_kind := cx_kind c; metadata := metadata c |}.
Definition with_metadata (k : string) (v : object) (c : HookContext) : HookContext :=
  {| action_id := action_id c; cx_hookpoint := cx_hookpoint c; input := input c; correlation_id := correlation_id c;
     cx_kind := cx_kind c; metadata := <[k := v]> (metadata c) |}.
Definition for_stage (h : string) (k : HookKind) (c : HookContext) : HookContext :=
  {| action_id := action_id c; cx_hookpoint := h; input := input c; correlation_id := correlation_id c;
     cx_kind := k; metadata := metadata c |}.

(** ** Coroutines *)

(** The arguments of [invoke]; [carrier_type] is the [isinstance] test of the class given. *)
Record call := {
  c_name : string; c_ctx : HookContext; c_kind : HookKind; c_subscribable : gset string; c_refusable : gset string;
  c_fail_closed : bool; c_exc : option exn; c_carrier_type : option (object -> bool) }.

Inductive coroutine (R : Type) :=
| Return (r : R)
| Raise (e : exn)
| Sleep (ms : Z) (k : bool -> coroutine R)
| Invoke (c : call) (k : result exn HookContext -> coroutine R).
Arguments Return {R} r.
Arguments Raise {R} e.
Arguments Sleep {R} ms k.
Arguments Invoke {R} c k.

(** ** [registry.py] *)
Inductive TrustTier := T0 | T1 | T2 | T3.
#[export] Instance TrustTier_eq_dec : EqDecision TrustTier.
Proof. solve_decision. Defined.

Definition _TIER_RANK : list (string * Z) := [("system", 0); ("operator", 1); ("user-plugin", 2)]%string.
Definition _META_HOOKPOINT_NAMES : list string := ["hooks.carrier_substituted"; "hooks.carrier_substitution_refused"]%string.
Definition HOOK_CHAIN_DEADLINE_MS : Z := 250.

Record HookpointMeta := {
  m_name : string; subscribable_tiers : gset string; refusable_tiers : gset string; fail_closed : bool;
  carrier_tier : option TrustTier; allow_error_substitution : bool }.
#[export] Instance HookpointMeta_eq_dec : EqDecision HookpointMeta.
Proof. solve_decision. Defined.

(** A hook function: its coroutine, its [__qualname__] and [__module__], and whether it is
    declared [async]. *)
Record HookFn := { hf_call : HookContext -> coroutine (option HookContext); qualname : string; module_ : string; is_async : bool }.
Record Subscriber := {
  hook_fn : HookFn; s_hookpoint : string; s_kind : HookKind; tier : string; origin_module : string; registration_seq : Z }.

(** What the registry asks of a capability gate. *)
Class Gate (G : Type) := gate_check : string -> string -> string -> G -> bool * G.
#[export] Instance RealGate_Gate : Gate RealGate := CapabilityGate.check.
(** [_DenyAllGate] *)
Inductive _DenyAllGate := mk_DenyAllGate.
#[export] Instance DenyAllGate_Gate : Gate _DenyAllGate := fun _ _ _ g => (false, g).

(** How the synchronous audit write of a refused registration ended: in the sink, in the
    structured-log fallback after the join timeout, or with the sink's exception. *)
Inductive emitted := Landed | FellBack | SinkRaised (e : exn).

Section registry.
Context {G : Type} `{!Gate G}.

Record HookRegistry := {
  gate : G; strict_declarations : bool; chain_deadline_ms : Z;
  _subscribers : gmap (string * HookKind) (list Subscriber); _hookpoints : gmap string HookpointMeta;
  _seq_counter : Z }.

Definition with_gate (g : G) (r : HookRegistry) : HookRegistry :=
  {| gate := g; strict_declarations := strict_declarations r; chain_deadline_ms := chain_deadline_ms r;
     _subscribers := _subscribers r; _hookpoints := _hookpoints r; _seq_counter := _seq_counter r |}.
Definition with_hookpoints (h : gmap string HookpointMeta) (r : HookRegistry) : HookRegistry :=
  {| gate := gate r; strict_declarations := strict_declarations r; chain_deadline_ms := chain_deadline_ms r;
     _subscribers := _subscribers r; _hookpoints := h; _seq_counter := _seq_counter r |}.

Definition hookpoint_meta (r : HookRegistry) (name : string) : option HookpointMeta := _hookpoints r !! name.

Definition register_hookpoint (name : string) (subscribable refusable : gset string) (closed : bool)
    (carrier : option TrustTier) (substitution : bool) : M HookRegistry exn unit := fun r =>
  let known := list_to_set (fst <$> _TIER_RANK) : gset string in
  let is_meta := bool_decide (name ∈ _META_HOOKPOINT_NAMES) in
  let new_meta := {| m_name := name; subscribable_tiers := subscribable; refusable_tiers := refusable; fail_closed := closed;
                     carrier_tier := carrier; allow_error_substitution := substitution |} in
  (raise_if negb (bool_decide ((subscribable ∪ refusable) ∖ known = ∅)) with HookError unknown_tier_in_declaration;
   raise_if bool_decide (carrier = None) && negb is_meta with HookError carrier_tier_required;
   raise_if negb (bool_decide (carrier = None)) && is_meta with HookError carrier_tier_must_be_none_for_meta_hookpoint;
   raise_if substitution && is_meta with HookError allow_error_substitution_must_be_false_for_meta_hookpoint;
   match _hookpoints r !! name with
   | Some stored => if decide (stored = new_meta) then modify (with_hookpoints (<[name := new_meta]> (_hookpoints r)))
                    else raise (HookError hookpoint_drift)
   | None => modify (with_hookpoints (<[name := new_meta]> (_hookpoints r)))
   end) r.

(** The sort key [( _TIER_RANK[s.tier], s.registration_seq )], and Python's stable sort. *)
Definition rank (t : string) : Z := default 0 (dict_get t _TIER_RANK).
Definition sub_le (a b : Subscriber) : Prop :=
  rank (tier a) < rank (tier b) \/ rank (tier a) = rank (tier b) /\ registration_seq a <= registration_seq b.
#[export] Instance sub_le_dec a b : Decision (sub_le a b) := ltac:(unfold sub_le; apply _).

Definition add (hf : HookFn) (hookpoint : string) (kind : HookKind) (t : string) (r : HookRegistry) : HookRegistry :=
  let sub := {| hook_fn := hf; s_hookpoint := hookpoint; s_kind := kind; tier := t; origin_module := module_ hf;
                registration_seq := _seq_counter r |} in
  let bucket := default [] (_subscribers r !! (hookpoint, kind)) in
  {| gate := gate r; strict_declarations := strict_declarations r; chain_deadline_ms := chain_deadline_ms r;
     _subscribers := <[(hookpoint, kind) := merge_sort sub_le (bucket ++ [sub])]> (_subscribers r);
     _hookpoints := _hookpoints r; _seq_counter := _seq_counter r + 1 |}.

Definition register (em : emitted) (hf : HookFn) (hookpoint : string) (kind : HookKind) (t : string) :
    M HookRegistry exn unit := fun r =>
  (raise_if negb (is_async hf) with HookError subscriber_must_be_async;
   raise_if bool_decide (dict_get t _TIER_RANK = None) with HookError unknown_tier;
   raise_if strict_declarations r && bool_decide (_hookpoints r !! hookpoint = None) with HookError hookpoint_not_declared;
   raise_if match _hookpoints r !! hookpoint with
            | Some meta => negb (bool_decide (t ∈ subscribable_tiers meta))
            | None => false
            end with match em with SinkRaised e => e | _ => HookError tier_not_subscribable end;
   fun r => let '(granted, g) := gate_check (module_ hf) hookpoint t (gate r) in
     if granted then (Ok tt, add hf hookpoint kind t (with_gate g r)) else (Err (HookError gate_refused), with_gate g r)) r.

Definition subscribers_for (r : HookRegistry) (hookpoint : string) (kind : HookKind) : list Subscriber :=
  default [] (_subscribers r !! (hookpoint, kind)).

Definition reset : M HookRegistry exn unit :=
  modify (fun r => {| gate := gate r; strict_declarations := strict_declarations r; chain_deadline_ms := chain_deadline_ms r;
                      _subscribers := ∅; _hookpoints := ∅; _seq_counter := _seq_counter r |}).
End registry.
Arguments HookRegistry : clear implicits.

(** ** What the registry promises *)
Section laws.
Context {G : Type} `{!Gate G}.

Definition init (g : G) (strict : bool) (ms c : Z) : HookRegistry G :=
  {| gate := g; strict_declarations := strict; chain_deadline_ms := ms; _subscribers := ∅; _hookpoints := ∅; _seq_counter := c |}.
Inductive op :=
| Declaring (name : string) (subscribable refusable : gset string) (closed : bool) (carrier : option TrustTier) (substitution : bool)
| Register (em : emitted) (hf : HookFn) (hookpoint : string) (kind : HookKind) (t : string)
| Reset.
(** The registry next to the history of admissions since the last reset, each with the state
    the gate was asked in. *)
Definition step (o : op) (x : HookRegistry G * list (Subscriber * G)) : HookRegistry G * list (Subscriber * G) :=
  let '(r, hist) := x in
  match o with
  | Declaring n s rf c ct sb => ((register_hookpoint n s rf c ct sb r).2, hist)
  | Register em hf h k t =>
      match register em hf h k t r with
      | (Ok _, r') => (r', hist ++ [({| hook_fn := hf; s_hookpoint := h; s_kind := k; tier := t; origin_module := module_ hf;
                                        registration_seq := _seq_counter r |}, gate r)])
      | (Err _, r') => (r', hist)
      end
  | Reset => ((reset r).2, [])
  end.
Definition run (ops : list op) x := foldl (fun x o => step o x) x ops.

Definition on (h : string) (k : HookKind) (s : Subscriber) : Prop := s_hookpoint s = h /\ s_kind s = k.
#[export] Instance on_dec h k s : Decision (on h k s) := ltac:(unfold on; apply _).
(** The chain the history asks for: the system tier first, then the operators', then the
    user plugins', each in registration order. *)
Definition chain_of (hist : list Subscriber) (h : string) (k : HookKind) : list Subscriber :=
  mjoin ((fun t => filter (fun s => tier s = t) (filter (on h k) hist)) <$> (fst <$> _TIER_RANK)).

Definition admissible (r : HookRegistry G) (x : Subscriber * G) : Prop :=
  let '(s, g) := x in
  is_async (hook_fn s) = true /\ tier s ∈ fst <$> _TIER_RANK /\
  (gate_check (module_ (hook_fn s)) (s_hookpoint s) (tier s) g).1 = true /\
  (strict_declarations r = true -> exists m, hookpoint_meta r (s_hookpoint s) = Some m /\ tier s ∈ subscribable_tiers m).

Instance sub_le_trans : Transitive sub_le.
Proof. intros a b c. unfold sub_le. lia. Qed.
Instance sub_le_total : Total sub_le.
Proof. intros a b. unfold sub_le. lia. Qed.

Lemma known_tier t : t ∈ fst <$> _TIER_RANK -> t = "system"%string /\ rank t = 0 \/ t = "operator"%string /\ rank t = 1 \/ t = "user-plugin"%string /\ rank t = 2.
Proof. unfold _TIER_RANK. intros Ht. cbn in Ht. repeat (apply elem_of_cons in Ht as [->|Ht]; [auto|]). by apply elem_of_nil in Ht. Qed.
Lemma dict_get_tier t : dict_get t _TIER_RANK <> None -> t ∈ fst <$> _TIER_RANK.
Proof. intros H. destruct (decide (t ∈ fst <$> _TIER_RANK)) as [|Hn]; [done|]. by apply dict_get_None in Hn. Qed.

(** Ordered by sequence number, a filter by tier is sorted; tiers follow in rank order. *)
Definition by_seq (a b : Subscriber) : Prop := registration_seq a < registration_seq b.
Lemma StronglySorted_filter {A} (R : relation A) (P : A -> Prop) `{!forall x, Decision (P x)} l :
  StronglySorted R l -> StronglySorted R (filter P l).
Proof.
  induction 1 as [|x l Hl IH Hx]; [constructor|]. rewrite filter_cons. case_decide; [|done]. constructor; [done|].
  rewrite Forall_forall in Hx |- *. intros y [_ Hy]%list_elem_of_filter. auto.
Qed.
Lemma tier_sorted t l : StronglySorted by_seq l -> StronglySorted sub_le (filter (fun s => tier s = t) l).
Proof.
  induction 1 as [|x l Hl IH Hx]; [constructor|]. rewrite filter_cons. case_decide as Ht; [|done]. constructor; [done|].
  rewrite Forall_forall in Hx |- *. intros y [Hty Hy]%list_elem_of_filter. right. rewrite Ht, Hty. split; [done|].
  apply Z.lt_le_incl. by apply Hx.
Qed.
Lemma chain_unfold hist h k : chain_of hist h k =
  filter (fun s => tier s = "system"%string) (filter (on h k) hist) ++
  filter (fun s => tier s = "operator"%string) (filter (on h k) hist) ++
  filter (fun s => tier s = "user-plugin"%string) (filter (on h k) hist).
Proof. unfold chain_of. cbn. by rewrite app_nil_r. Qed.
Lemma chain_sorted hist h k : StronglySorted by_seq hist -> StronglySorted sub_le (chain_of hist h k).
Proof.
  intros Hs. apply (StronglySorted_filter _ (on h k)) in Hs. rewrite chain_unfold.
  apply StronglySorted_app_2; [|by apply tier_sorted|apply StronglySorted_app_2; [|by apply tier_sorted..]].
  all: intros a b Ha Hb; rewrite ?elem_of_app, !list_elem_of_filter in *; left.
  - destruct Ha as [-> _]. destruct Hb as [[-> _]|[-> _]]; done.
  - destruct Ha as [-> _], Hb as [-> _]. done.
Qed.
Lemma tiers_permutation (l : list Subscriber) : (forall s, s ∈ l -> tier s ∈ fst <$> _TIER_RANK) ->
  filter (fun s => tier s = "system"%string) l ++ filter (fun s => tier s = "operator"%string) l ++
  filter (fun s => tier s = "user-plugin"%string) l ≡ₚ l.
Proof.
  induction l as [|s l IH]; intros Hl; [done|].
  assert (Hl' : forall x, x ∈ l -> tier x ∈ fst <$> _TIER_RANK) by (intros x ?; apply Hl; by apply list_elem_of_further).
  specialize (IH Hl'). rewrite !filter_cons.
  destruct (known_tier (tier s)) as [[Ht _]|[[Ht _]|[Ht _]]]; [apply Hl, list_elem_of_here|..]; rewrite Ht;
    repeat (first [rewrite decide_True by done|rewrite decide_False by done]); simpl.
  - by rewrite IH.
  - by rewrite <- Permutation_middle, IH.
  - by rewrite app_assoc, <- Permutation_middle, <- app_assoc, IH.
Qed.

Lemma chain_permutation hist h k : (forall s, s ∈ hist -> tier s ∈ fst <$> _TIER_RANK) -> chain_of hist h k ≡ₚ filter (on h k) hist.
Proof. intros Ht. rewrite chain_unfold. apply tiers_permutation. intros s [_ ?]%list_elem_of_filter. auto. Qed.
Lemma by_seq_inj l a b : StronglySorted by_seq l -> a ∈ l -> b ∈ l -> registration_seq a = registration_seq b -> a = b.
Proof.
  unfold by_seq. induction 1 as [|x l Hl IH Hx]; intros Ha Hb Heq; [by apply elem_of_nil in Ha|]. rewrite Forall_forall in Hx.
  apply elem_of_cons in Ha as [->|Ha], Hb as [->|Hb]; auto; exfalso.
  - specialize (Hx b Hb). lia.
  - specialize (Hx a Ha). lia.
Qed.
Lemma chain_merge_sort hist l h k : StronglySorted by_seq hist -> (forall s, s ∈ hist -> tier s ∈ fst <$> _TIER_RANK) ->
  l ≡ₚ filter (on h k) hist -> merge_sort sub_le l = chain_of hist h k.
Proof.
  intros Hs Ht Hl. apply (StronglySorted_unique_strong sub_le).
  - intros a b. rewrite merge_sort_Permutation, (chain_permutation hist) by done. rewrite Hl.
    intros [_ Ha]%list_elem_of_filter [_ Hb]%list_elem_of_filter Hab Hba. apply (by_seq_inj hist); auto. unfold sub_le in *. lia.
  - apply (StronglySorted_merge_sort sub_le).
  - by apply chain_sorted.
  - by rewrite merge_sort_Permutation, chain_permutation.
Qed.

Lemma register_Ok em hf h k t r r' : register em hf h k t r = (Ok tt, r') ->
  is_async hf = true /\ t ∈ fst <$> _TIER_RANK /\ (gate_check (module_ hf) h t (gate r)).1 = true /\
  (strict_declarations r = true -> exists m, hookpoint_meta r h = Some m /\ t ∈ subscribable_tiers m) /\
  exists g, r' = add hf h k t (with_gate g r).
Proof.
  unfold register, raise, hookpoint_meta. destruct (is_async hf); [|done]. simpl.
  case_bool_decide as Ht; [done|]. apply dict_get_tier in Ht.
  destruct (strict_declarations r && bool_decide (_hookpoints r !! h = None)) eqn:Hs; [done|].
  destruct (match _hookpoints r !! h with Some meta => _ | None => false end) eqn:Hm; [done|].
  destruct (gate_check _ _ _ _) as [[] g] eqn:Hg; [|done]. intros [= <-]. split_and!; try done; [|by exists g].
  intros Hstrict. rewrite Hstrict in Hs. destruct (_hookpoints r !! h) as [m|]; [|done]. exists m. split; [done|].
  apply negb_false_iff, bool_decide_eq_true in Hm. done.
Qed.
Lemma register_Err em hf h k t r e r' : register em hf h k t r = (Err e, r') -> exists g, r' = with_gate g r.
Proof.
  unfold register, raise. repeat (match goal with |- context [if ?b then _ else _] => destruct b end; [intros [= <- <-]; exists (gate r); by destruct r|]).
  destruct (gate_check _ _ _ _) as [[] g]; intros [=]; subst. by exists g.
Qed.
Lemma declare_keeps n s rf c ct sb (r : HookRegistry G) : let r' := (register_hookpoint n s rf c ct sb r).2 in
  _subscribers r' = _subscribers r /\ _seq_counter r' = _seq_counter r /\ strict_declarations r' = strict_declarations r /\
  forall h m, hookpoint_meta r h = Some m -> hookpoint_meta r' h = Some m.
Proof.
  unfold register_hookpoint, raise, modify, hookpoint_meta.
  repeat (match goal with |- context [if ?b then _ else _] => destruct b end; [done|]).
  destruct (_hookpoints r !! n) as [stored|] eqn:Hn; [case_decide as Hd; [|done]|]; split_and!; try done; intros h m Hm; simpl;
    (destruct (decide (h = n)) as [->|Hne]; [|by rewrite lookup_insert_ne]); [|congruence].
  rewrite lookup_insert_eq. congruence.
Qed.

Definition in_order (x : HookRegistry G * list (Subscriber * G)) : Prop :=
  let '(r, hist) := x in
  StronglySorted by_seq hist.*1 /\ (forall s, s ∈ hist.*1 -> registration_seq s < _seq_counter r) /\
  (forall x, x ∈ hist -> admissible r x) /\ forall h k, subscribers_for r h k = chain_of hist.*1 h k.

Lemma admissible_tiers r hist : (forall x, x ∈ hist -> admissible r x) -> forall s, s ∈ hist.*1 -> tier s ∈ fst <$> _TIER_RANK.
Proof. intros Ha s ([s' g]&->&Hin)%list_elem_of_fmap. by apply Ha in Hin as (_&?&_). Qed.

Lemma add_in_order em hf h k t r hist r' : in_order (r, hist) -> register em hf h k t r = (Ok tt, r') ->
  in_order (r', hist ++ [({| hook_fn := hf; s_hookpoint := h; s_kind := k; tier := t; origin_module := module_ hf;
                             registration_seq := _seq_counter r |}, gate r)]).
Proof.
  intros (Hs&Hlt&Had&Hch) Hr. apply register_Ok in Hr as (Has&Ht&Hg&Hm&g&->). set (sub := Build_Subscriber _ _ _ _ _ _).
  unfold in_order. rewrite fmap_app. cbn [fmap list_fmap fst].
  assert (Had' : forall x, x ∈ hist ++ [(sub, gate r)] -> admissible (add hf h k t (with_gate g r)) x).
  { intros x [Hx| ->%list_elem_of_singleton]%elem_of_app; [|split_and!; done].
    destruct x as [s gs]. exact (Had (s, gs) Hx). }
  assert (Hs' : StronglySorted by_seq (hist.*1 ++ [sub])).
  { apply StronglySorted_app_2; [|done|repeat constructor]. intros a b Ha ->%list_elem_of_singleton. exact (Hlt a Ha). }
  split_and!; [done| |done|].
  - intros s [Hin%Hlt| ->%list_elem_of_singleton]%elem_of_app; unfold add; cbn; lia.
  - intros h' k'. unfold subscribers_for, add. cbn [_subscribers with_gate].
    pose proof (admissible_tiers _ _ Had') as Ht'. rewrite fmap_app in Ht'.
    destruct (decide ((h', k') = (h, k))) as [[= -> ->]|Hne].
    + rewrite lookup_insert_eq. cbn [default]. apply chain_merge_sort; [done|done|].
      change (default [] (_subscribers r !! (h, k))) with (subscribers_for r h k). rewrite Hch, chain_permutation by (by eapply admissible_tiers).
      rewrite filter_app. f_equiv. rewrite filter_cons, decide_True by done. done.
    + rewrite lookup_insert_ne by congruence. change (default [] (_subscribers r !! (h', k'))) with (subscribers_for r h' k').
      rewrite Hch, !chain_unfold, filter_app, (filter_cons_False (on h' k') sub), app_nil_r; [done|].
      intros [E1 E2]. apply Hne. cbn in E1, E2. congruence.
Qed.
Lemma step_in_order o x : in_order x -> in_order (step o x).
Proof.
  destruct x as [r hist]. intros Hx. destruct o as [n s rf c ct sb|em hf h k t|]; cbn [step].
  - destruct Hx as (Hs&Hlt&Had&Hch). destruct (declare_keeps n s rf c ct sb r) as (E1&E2&E3&E4). split_and!.
    + done.
    + by rewrite E2.
    + intros [s' g] Hin. destruct (Had _ Hin) as (?&?&?&Hm). split_and!; [done..|]. rewrite E3. intros (m&?&?)%Hm. exists m. auto.
    + intros h k. unfold subscribers_for. rewrite E1. apply Hch.
  - destruct (register em hf h k t r) as [[[]|e] r'] eqn:Hr; [by eapply add_in_order|].
    apply register_Err in Hr as [g ->]. exact Hx.
  - cbn. split_and!; [constructor|by intros s ?%elem_of_nil|by intros s ?%elem_of_nil|done].
Qed.

(** C32: whatever is declared, registered, refused and reset, and whichever gate answers, each
    chain is the admissions since the last reset, system tier first, then operators, then
    user plugins, each tier in registration order; every admission was of an async function
    and a known tier, had the gate's grant at that moment, and in strict mode had its tier
    among those its hookpoint declares. *)
Theorem chains_refine_registration_history g strict ms c ops :
  let '(r, hist) := run ops (init g strict ms c, []) in
  (forall h k, subscribers_for r h k = chain_of hist.*1 h k) /\ forall x, x ∈ hist -> admissible r x.
Proof.
  assert (Hrun : forall x, in_order x -> in_order (run ops x)).
  { induction ops as [|o ops IH]; intros x Hx; [done|]. apply (IH (step o x)). by apply step_in_order. }
  specialize (Hrun (init g strict ms c, [])). destruct (run ops _) as [r hist].
  destruct Hrun as (_&_&?&?); [|done]. split_and!; [constructor|by intros s ?%elem_of_nil|by intros s ?%elem_of_nil|done].
Qed.
End laws.
