(* ===== verification/HookInvoke.v ===== *)
(** * Hooks: dispatch

    [hooks/invoke.py]: [invoke] with its re-entry guard, the four stage handlers with their
    [asyncio.timeout] scope, the substitution guards of the error stage, and [Flow.body].

    Time is an integer number of milliseconds.  A deadline that passes while a coroutine
    sleeps cancels the task of its scope; the cancellation runs down the chain of awaited
    tasks to the sleep and the scope sees the [CancelledError] only if it comes back up, as
    [Task.cancel] and [asyncio.timeout] have it.  The registry does not change during a
    dispatch; the sink answers at once, with an exception if [sink] says so. *)
From S2P Require Import Prelude CapabilityGate HookRegistry.
From Stdlib Require Import FunctionalExtensionality.

(** ** Audit rows, time and scopes *)
Inductive row :=
| Tier_rejected (hookpoint : string) (kind : HookKind) (drift_kind : string)
| Refusal (hookpoint subscriber_name subscriber_tier : string)
| Unauthorized_refusal (hookpoint subscriber_name subscriber_tier : string)
| Subscriber_error (hookpoint : string) (kind : HookKind) (subscriber_name exception_type : string)
| Chain_timeout (hookpoint : string) (kind : HookKind) (cleanup_timed_out : bool)
| Reentry_bypass (hookpoint : string) (kind : HookKind)
| Carrier_substitution (hookpoint subscriber_id : string) (source_tier : TrustTier)
| Carrier_substitution_refused (hookpoint subscriber_id : string) (attempted_source_tier : TrustTier) (reason : string).

Record scope := { deadline : Z; expired : bool }.
(** The enclosing timeout scopes, innermost first; each row with its correlation id. *)
Record state := { now : Z; scopes : list scope; rows : list (string * row) }.

Definition _CLEANUP_DEADLINE_MS : Z := 50.
Definition ERROR_EXC_METADATA_KEY : string := "error_exc".
Definition _DEFAULT_TIERS : gset string := {["system"%string; "operator"%string; "user-plugin"%string]}.

Definition at_time (t : Z) (s : state) : state := {| now := t; scopes := scopes s; rows := rows s |}.
Definition with_scopes (l : list scope) (s : state) : state := {| now := now s; scopes := l; rows := rows s |}.
Definition expire (t : Z) (sc : scope) : scope :=
  {| deadline := deadline sc; expired := expired sc || (deadline sc <=? t) |}.
Fixpoint next_deadline (l : list scope) : option Z :=
  match l with
  | [] => None
  | sc :: l' => if expired sc then next_deadline l'
                else Some (match next_deadline l' with Some t => Z.min (deadline sc) t | None => deadline sc end)
  end.
(** [await asyncio.sleep(ms)]: whether it was cancelled by a deadline. *)
Definition sleep (ms : Z) : M state exn bool := fun s =>
  let until := now s + Z.max 0 ms in
  match next_deadline (scopes s) with
  | Some t => if until <? t then (Ok false, at_time until s)
              else let t := Z.max (now s) t in (Ok true, with_scopes (expire t <$> scopes s) (at_time t s))
  | None => (Ok false, at_time until s)
  end.

(** ** Carriers' tiers *)
Definition _TRUST_TIER_RANK (t : TrustTier) : Z := match t with T0 => 0 | T1 => 1 | T2 => 2 | T3 => 3 end.
Definition _SUBSCRIBER_TIER_TO_SOURCE_TIER : list (string * TrustTier) :=
  [("system", T0); ("operator", T1); ("user-plugin", T3)]%string.
Definition source_tier_of (t : string) : TrustTier := default T3 (dict_get t _SUBSCRIBER_TIER_TO_SOURCE_TIER).
Definition _enforce_substitute_tier (carrier source : TrustTier) : bool := _TRUST_TIER_RANK source <=? _TRUST_TIER_RANK carrier.

Record SubstituteResult := { payload : object; source_tier : TrustTier; subscriber_id : string }.

(** A subscriber's task, the local variables of a handler over the state. *)
Inductive task := Running | Done.
Record frame := { st : state; chain_ctx : HookContext; last_good_ctx : HookContext; pending : option task }.
Definition with_pending (p : option task) (f : frame) : frame :=
  {| st := st f; chain_ctx := chain_ctx f; last_good_ctx := last_good_ctx f; pending := p |}.
Definition rewind (f : frame) : frame :=
  {| st := st f; chain_ctx := last_good_ctx f; last_good_ctx := last_good_ctx f; pending := pending f |}.
Definition fold_in (c : HookContext) (f : frame) : frame :=
  {| st := st f; chain_ctx := c; last_good_ctx := c; pending := pending f |}.

Section dispatch.
Context {G : Type} `{!Gate G} (r : HookRegistry G) (sink : list (string * row) -> string * row -> option exn)
  (** the time a task would still need that is not done when its chain times out *)
  (left_over : Z).

Definition emit (corr : string) (x : row) : M state exn unit := fun s =>
  match sink (rows s) (corr, x) with
  | Some e => (Err e, s)
  | None => (Ok tt, {| now := now s; scopes := scopes s; rows := rows s ++ [(corr, x)] |})
  end.
Definition lift {A} (m : M state exn A) : M frame exn A := fun f =>
  let '(res, s) := m (st f) in
  (res, {| st := s; chain_ctx := chain_ctx f; last_good_ctx := last_good_ctx f; pending := pending f |}).

Section chain.
(** [invoke] as the coroutines of this dispatch see it. *)
Context (self : call -> M state exn HookContext).

Fixpoint drive {R} (p : coroutine R) : M state exn R :=
  match p with
  | Return x => ret x
  | Raise e => raise e
  | Sleep ms k => cancelled <-- sleep ms; drive (k cancelled)
  | Invoke c k => fun s => let '(res, s') := self c s in drive (k res) s'
  end.

(** [_spawn_subscriber] and [await pending]. *)
Definition await_sub (sub : Subscriber) : M frame exn (option HookContext) := fun f =>
  let f := with_pending (Some Running) f in
  let '(res, f) := lift (drive (hf_call (hook_fn sub) (chain_ctx f))) f in
  (res, with_pending (Some Done) f).

Definition corr (f : frame) : string := correlation_id (chain_ctx f).
Definition _emit_subscriber_error_audit (name : string) (kind : HookKind) (sub : Subscriber) (e : exn) : M frame exn unit :=
  fun f => lift (emit (corr f) (Subscriber_error name kind (qualname (hook_fn sub)) (class_name e))) f.
(** The [except Exception] arm the walks share. *)
Definition subscriber_fault (name : string) (kind : HookKind) (closed : bool) (sub : Subscriber) (e : exn) : M frame exn unit :=
  _emit_subscriber_error_audit name kind sub e ;;;
  if closed then raise (HookSubscriberError (qualname (hook_fn sub))) else modify rewind.

Definition pre_step (name : string) (refusable : gset string) (closed : bool) (sub : Subscriber) : M frame exn unit := fun f =>
  match await_sub sub f with
  | (Err (HookRefusal why), f) =>
      let f := with_pending None f in
      if decide (tier sub ∈ refusable)
      then (lift (emit (corr f) (Refusal name (qualname (hook_fn sub)) (tier sub))) ;;; raise (HookRefusal why)) f
      else (lift (emit (corr f) (Unauthorized_refusal name (qualname (hook_fn sub)) (tier sub))) ;;; modify rewind) f
  | (Err e, f) => if is_Exception e then subscriber_fault name pre closed sub e (with_pending None f) else (Err e, f)
  | (Ok (Some c), f) => (Ok tt, fold_in c (with_pending None f))
  | (Ok None, f) => (Ok tt, with_pending None f)
  end.
Definition post_step (name : string) (closed : bool) (sub : Subscriber) : M frame exn unit := fun f =>
  match await_sub sub f with
  | (Err (HookRefusal why), f) => (Err (HookRefusal why), with_pending None f)
  | (Err e, f) => if is_Exception e then subscriber_fault name post closed sub e (with_pending None f) else (Err e, f)
  | (Ok (Some c), f) => (Ok tt, fold_in c (with_pending None f))
  | (Ok None, f) => (Ok tt, with_pending None f)
  end.
Definition cancel_step (name : string) (sub : Subscriber) : M frame exn unit := fun f =>
  match await_sub sub f with
  | (Err CancelledError, f) => (Err CancelledError, f)
  | (Err e, f) => (_emit_subscriber_error_audit name cancel sub e ;;; modify (with_pending None)) f
  | (Ok _, f) => (Ok tt, with_pending None f)
  end.

Definition _wrap_legacy_substitute_as_outcome (result_ctx : HookContext) (sub : Subscriber) (name corr : string)
    (carrier_type : option (object -> bool)) : M state exn (option SubstituteResult) :=
  let meta := hookpoint_meta r name in
  let source := source_tier_of (tier sub) in
  let payload := default (input result_ctx) (metadata result_ctx !! "substitute_payload"%string) in
  let refuse reason := emit corr (Carrier_substitution_refused name (qualname (hook_fn sub)) source reason) ;;; ret None in
  if match meta with Some m => negb (allow_error_substitution m) | None => false end then refuse "recursion_refused"%string
  else if match carrier_type with Some isinstance => negb (isinstance payload) | None => false end then refuse "payload_type_mismatch"%string
  else if match meta with
          | Some m => match carrier_tier m with Some c => negb (_enforce_substitute_tier c source) | None => false end
          | None => false
          end then refuse "tier_upgrade_refused"%string
  else emit corr (Carrier_substitution name (qualname (hook_fn sub)) source) ;;;
       ret (Some {| payload := payload; source_tier := source; subscriber_id := qualname (hook_fn sub) |}).

Fixpoint walk (step : Subscriber -> M frame exn unit) (subs : list Subscriber) : M frame exn unit :=
  match subs with
  | [] => ret tt
  | sub :: subs' => step sub ;;; walk step subs'
  end.
(** The error walk: the first accepted substitute ends it. *)
Fixpoint walk_error (name : string) (closed : bool) (carrier_type : option (object -> bool)) (subs : list Subscriber) :
    M frame exn (option (SubstituteResult * HookContext)) :=
  match subs with
  | [] => ret None
  | sub :: subs' => fun f =>
      match await_sub sub f with
      | (Err (HookRefusal why), f) => (Err (HookRefusal why), with_pending None f)
      | (Err e, f) =>
          if is_Exception e then (subscriber_fault name error closed sub e ;;; walk_error name closed carrier_type subs') (with_pending None f)
          else (Err e, f)
      | (Ok None, f) => walk_error name closed carrier_type subs' (with_pending None f)
      | (Ok (Some c), f) =>
          let f := with_pending None f in
          (outcome <-- lift (_wrap_legacy_substitute_as_outcome c sub name (corr f) carrier_type);
           match outcome with
           | Some o => ret (Some (o, c))
           | None => modify rewind ;;; walk_error name closed carrier_type subs'
           end) f
      end
  end.

Definition _handle_chain_timeout (f : frame) (name : string) (kind : HookKind) (closed : bool) : M state exn HookContext := fun s =>
  let '(cleanup_timed_out, s) :=
    match pending f with
    | Some Running => if left_over <=? _CLEANUP_DEADLINE_MS then (false, at_time (now s + left_over) s)
                      else (true, at_time (now s + _CLEANUP_DEADLINE_MS) s)
    | _ => (false, s)
    end in
  (emit (corr f) (Chain_timeout name kind cleanup_timed_out) ;;;
   if closed then raise (HookError (chain_timeout cleanup_timed_out)) else ret (chain_ctx f)) s.

(** [async with asyncio.timeout(deadline_seconds)] around a walk from [ctx], and the
    [except TimeoutError] arm over the locals the walk left. *)
Definition Zexpired (l : list scope) : nat := length (filter (fun sc => expired sc = true) l).
Definition close {A} (outer : nat) (res : result exn A) (s : state) : result exn A * state :=
  match scopes s with
  | sc :: rest =>
      (match res with
       | Err CancelledError => if expired sc && (Zexpired rest =? outer)%nat then Err TimeoutError else res
       | _ => res
       end, with_scopes rest s)
  | [] => (res, s)
  end.
Definition timed {A B} (ctx : HookContext) (body : M frame exn A) (on_timeout : frame -> M state exn B)
    (after : A -> frame -> M state exn B) : M state exn B := fun s =>
  let sc := {| deadline := now s + chain_deadline_ms r; expired := false |} in
  let '(res, f) := body {| st := with_scopes (sc :: scopes s) s; chain_ctx := ctx; last_good_ctx := ctx; pending := None |} in
  match close (Zexpired (scopes s)) res (st f) with
  | (Ok a, s') => after a f s'
  | (Err TimeoutError, s') => on_timeout f s'
  | (Err e, s') => (Err e, s')
  end.

Definition _enforce_subscribable_tiers (name : string) (ctx : HookContext) (kind : HookKind) (subscribable : gset string)
    (refusable : option (gset string)) (closed : option bool) : M state exn unit :=
  match hookpoint_meta r name with
  | None =>
      if strict_declarations r
      then emit (correlation_id ctx) (Tier_rejected name kind "undeclared_hookpoint") ;;; raise (HookError dispatch_undeclared_hookpoint)
      else ret tt
  | Some meta =>
      let drift_kind :=
        if decide (subscribable_tiers meta <> subscribable) then Some "subscribable_tiers"%string
        else if match refusable with Some x => bool_decide (refusable_tiers meta <> x) | None => false end then Some "refusable_tiers"%string
        else if match closed with Some x => bool_decide (fail_closed meta <> x) | None => false end then Some "fail_closed"%string
        else None in
      match drift_kind with
      | None => ret tt
      | Some d => emit (correlation_id ctx) (Tier_rejected name kind d) ;;; raise (HookError (publisher_drift d))
      end
  end.

Definition _run_pre (name : string) (ctx : HookContext) (subscribable refusable : gset string) (closed : bool) : M state exn HookContext :=
  _enforce_subscribable_tiers name ctx pre subscribable (Some refusable) (Some closed) ;;;
  timed ctx (walk (pre_step name refusable closed) (subscribers_for r name pre))
    (fun f => _handle_chain_timeout f name pre closed) (fun _ f => ret (chain_ctx f)).
Definition _run_post (name : string) (ctx : HookContext) (subscribable : gset string) (closed : bool) : M state exn HookContext :=
  _enforce_subscribable_tiers name ctx post subscribable None (Some closed) ;;;
  timed ctx (walk (post_step name closed) (subscribers_for r name post))
    (fun f => _handle_chain_timeout f name post closed) (fun _ f => ret (chain_ctx f)).
Definition _run_error (name : string) (ctx : HookContext) (exc : option exn) (subscribable : gset string) (closed : bool)
    (carrier_type : option (object -> bool)) : M state exn (option SubstituteResult * HookContext) :=
  _enforce_subscribable_tiers name ctx error subscribable None (Some closed) ;;;
  timed (with_metadata ERROR_EXC_METADATA_KEY (ExcObject exc) ctx) (walk_error name closed carrier_type (subscribers_for r name error))
    (fun f => timeout_ctx <-- _handle_chain_timeout f name error closed;
              ret (Some {| payload := input timeout_ctx; source_tier := T0; subscriber_id := "_handle_chain_timeout" |}, timeout_ctx))
    (fun o f => match o with
                | Some (outcome, c) => ret (Some outcome, c)
                | None => match exc with Some _ => ret (None, last_good_ctx f) | None => raise RuntimeError end
                end).
Definition _run_cancel (name : string) (ctx : HookContext) (exc : option exn) (subscribable : gset string) (closed : bool) :
    M state exn HookContext :=
  _enforce_subscribable_tiers name ctx cancel subscribable None (Some closed) ;;;
  timed (with_metadata ERROR_EXC_METADATA_KEY (ExcObject exc) ctx) (walk (cancel_step name) (subscribers_for r name cancel))
    (fun f => _handle_chain_timeout f name cancel closed)
    (fun _ _ => raise (default RuntimeError exc)).

Definition _dispatch_by_kind (c : call) (ctx : HookContext) : M state exn HookContext :=
  match c_kind c with
  | pre => _run_pre (c_name c) ctx (c_subscribable c) (c_refusable c) (c_fail_closed c)
  | post => _run_post (c_name c) ctx (c_subscribable c) (c_fail_closed c)
  | error =>
      x <-- _run_error (c_name c) ctx (c_exc c) (c_subscribable c) (c_fail_closed c) (c_carrier_type c);
      match x.1 with
      | None => raise (default RuntimeError (c_exc c))
      | Some o => ret (with_input (payload o) x.2)
      end
  | cancel => _run_cancel (c_name c) ctx (c_exc c) (c_subscribable c) (c_fail_closed c)
  end.
End chain.

Definition _invoke_internal (stack : list string) (ctx : HookContext) (kind : HookKind) : M state exn HookContext :=
  if decide (cx_hookpoint ctx ∈ stack)
  then emit (correlation_id ctx) (Reentry_bypass (cx_hookpoint ctx) kind) ;;; ret ctx
  else raise (HookError internal_misuse).
(** [stack] is the value of the [_reentry] context variable; [nested] is [invoke] under a
    stack. *)
Definition invoke_body (nested : list string -> call -> M state exn HookContext) (stack : list string) (c : call) : M state exn HookContext :=
  if bool_decide ((c_kind c = error \/ c_kind c = cancel) /\ c_exc c = None) then raise RuntimeError
  else
    let ctx := for_stage (c_name c) (c_kind c) (c_ctx c) in
    if decide (c_name c ∈ stack) then _invoke_internal stack ctx (c_kind c)
    else _dispatch_by_kind (nested (stack ++ [c_name c])) c ctx.
(** Nesting to depth [n]; deeper calls go to [bottom]. *)
Fixpoint invoke_to (bottom : list string -> call -> M state exn HookContext) (n : nat) (stack : list string) (c : call) :
    M state exn HookContext :=
  match n with
  | O => bottom stack c
  | S n' => invoke_body (invoke_to bottom n') stack c
  end.
(** The names that have ever had a subscriber bound the depth. *)
Definition hooked : gset string := set_map fst (dom (_subscribers r)).
Definition depth : nat := S (size hooked).
Definition invoke (stack : list string) (c : call) : M state exn HookContext :=
  invoke_to (fun _ _ => raise RuntimeError) depth stack c.

(** ** [Flow] *)
Definition default_call (name : string) (ctx : HookContext) (kind : HookKind) (exc : option exn) : call :=
  {| c_name := name; c_ctx := ctx; c_kind := kind; c_subscribable := _DEFAULT_TIERS; c_refusable := _DEFAULT_TIERS;
     c_fail_closed := false; c_exc := exc; c_carrier_type := None |}.
(** [Flow.body]: the flow's carrier after the block, or what the block raises. *)
Definition flow_body (stack : list string) (on_post on_error on_cancel : string) (ctx : HookContext) (block : coroutine unit) :
    M state exn HookContext := fun s =>
  match drive (invoke stack) block s with
  | (Ok _, s) => invoke stack (default_call on_post ctx post None) s
  | (Err CancelledError, s) =>
      (invoke stack (default_call on_cancel ctx cancel (Some CancelledError)) ;;; raise CancelledError) s
  | (Err e, s) => if is_Exception e then invoke stack (default_call on_error ctx error (Some e)) s else (Err e, s)
  end.
End dispatch.

(** ** A registry and carrier to run *)
(** A registry with one hook, at the hookpoint ["h"]. *)
Definition lone (ms : Z) (k : HookKind) (t : string) (body : HookContext -> coroutine (option HookContext)) : HookRegistry _DenyAllGate :=
  {| HookRegistry.gate := mk_DenyAllGate; strict_declarations := false; chain_deadline_ms := ms;
     _subscribers := {[("h"%string, k) := [{| hook_fn := {| hf_call := body; qualname := "hook"; module_ := "m"; is_async := true |};
                                              s_hookpoint := "h"; s_kind := k; tier := t; origin_module := "m"; registration_seq := 0 |}]]};
     _hookpoints := ∅; _seq_counter := 1 |}.
Definition blank : HookContext :=
  {| action_id := "a"; cx_hookpoint := "a"; input := Object "str" "x"; correlation_id := "k"; cx_kind := pre; metadata := ∅ |}%string.
Definition at_zero : state := {| now := 0; scopes := []; rows := [] |}.
Definition silent : list (string * row) -> string * row -> option exn := fun _ _ => None.


(** ** Nesting is bounded by the re-entry guard *)
Section termination.
Context {G : Type} `{!Gate G} (r : HookRegistry G) (sink : list (string * row) -> string * row -> option exn) (left_over : Z).
Implicit Type bottom : list string -> call -> M state exn HookContext.

Lemma dispatch_empty c ctx self self' : subscribers_for r (c_name c) (c_kind c) = [] ->
  _dispatch_by_kind r sink left_over self c ctx = _dispatch_by_kind r sink left_over self' c ctx.
Proof. intros H. unfold _dispatch_by_kind, _run_pre, _run_post, _run_error, _run_cancel. destruct (c_kind c); by rewrite H. Qed.
Lemma hooked_name name kind : subscribers_for r name kind <> [] -> name ∈ hooked r.
Proof.
  unfold subscribers_for. destruct (_subscribers r !! (name, kind)) eqn:Hk; [|done]. intros _.
  unfold hooked. apply elem_of_map. exists (name, kind). split; [done|]. apply elem_of_dom. by eexists.
Qed.
Lemma fresh_name_shrinks name stack : name ∈ hooked r -> name ∉ stack ->
  (size (hooked r ∖ list_to_set (stack ++ [name])) < size (hooked r ∖ list_to_set stack))%nat.
Proof. intros Hh Hs. apply subset_size. set_solver. Qed.

Lemma invoke_to_deep bottom bottom' n : forall m stack c,
  (size (hooked r ∖ list_to_set stack) < n)%nat -> (size (hooked r ∖ list_to_set stack) < m)%nat ->
  invoke_to r sink left_over bottom n stack c = invoke_to r sink left_over bottom' m stack c.
Proof.
  induction n as [|n IH]; intros m stack c Hn Hm; [lia|]. destruct m as [|m]; [lia|]. cbn [invoke_to]. unfold invoke_body.
  case_bool_decide; [done|]. case_decide as Hs; [done|].
  destruct (subscribers_for r (c_name c) (c_kind c)) eqn:Hsub; [by apply dispatch_empty|].
  f_equal. extensionality c'.
  assert (Hh : c_name c ∈ hooked r) by (apply (hooked_name _ (c_kind c)); congruence).
  pose proof (fresh_name_shrinks _ _ Hh Hs). apply IH; lia.
Qed.

(** C39: the re-entry guard bounds the nesting of dispatches.  With a registry that stays as it
    is, and subscribers whose own coroutines end (each is the tree of the sleeps and the
    dispatches it makes before it ends): however deep they dispatch further chains, no
    dispatch below a depth of one more than the number of hooked names is ever reached.  What
    would happen there ([bottom], anything at all) makes no difference to the outcome, the
    rows or the clock, so running with more depth than that is running with just that.  It
    says nothing of a subscriber that itself never ends or holds a cancellation back for
    ever: such a one keeps its dispatch from returning, whatever the nesting. *)
Theorem reentry_guard_bounds_nesting bottom n c s :
  invoke_to r sink left_over bottom (depth r + n) [] c s = invoke r sink left_over [] c s.
Proof.
  unfold invoke. assert (size (hooked r ∖ list_to_set []) <= size (hooked r))%nat by (apply subseteq_size; set_solver).
  by rewrite (invoke_to_deep bottom (fun _ _ => raise RuntimeError) _ (depth r)) by (unfold depth; lia).
Qed.
End termination.

(** ** Who may refuse, and what may be substituted *)
Section outcomes.
Context {G : Type} `{!Gate G} (r : HookRegistry G) (sink : list (string * row) -> string * row -> option exn) (left_over : Z).
Context (self : call -> M state exn HookContext).

Definition last_row (s : state) : option row := snd <$> last (rows s).
Lemma emit_Ok corr x s s' : emit sink corr x s = (Ok tt, s') -> last_row s' = Some x.
Proof. unfold emit. destruct (sink _ _); intros [=]; subst. unfold last_row. cbn. by rewrite last_snoc. Qed.
Lemma emit_Err corr x s e s' : emit sink corr x s = (Err e, s') -> s' = s /\ sink (rows s) (corr, x) = Some e.
Proof. unfold emit. destruct (sink _ _); intros [=]; by subst. Qed.
Lemma lift_inv {A} (m : M state exn A) f res f' : lift m f = (res, f') -> m (st f) = (res, st f') /\ chain_ctx f' = chain_ctx f /\ pending f' = pending f.
Proof. unfold lift. destruct (m (st f)) as [res' s]. by intros [= <- <-]. Qed.
Lemma close_rows {A} n (res : result exn A) s : rows (close n res s).2 = rows s.
Proof. unfold close. by destruct (scopes s). Qed.
Lemma close_res {A} n (res : result exn A) s : (close n res s).1 = res \/ (close n res s).1 = Err TimeoutError.
Proof. unfold close. destruct (scopes s) as [|sc l]; [by left|]. cbn. destruct res as [a|[]]; try (by left). destruct (_ && _); [by right|by left]. Qed.

(** The outcome of [timed], by where it came from. *)
Lemma timed_inv {A B} ctx (body : M frame exn A) (on_timeout : frame -> M state exn B) after s out :
  timed r ctx body on_timeout after s = out ->
  exists res f s', body {| st := with_scopes ({| deadline := now s + chain_deadline_ms r; expired := false |} :: scopes s) s;
                           chain_ctx := ctx; last_good_ctx := ctx; pending := None |} = (res, f) /\ rows s' = rows (st f) /\
    ((exists a, res = Ok a /\ after a f s' = out) \/ on_timeout f s' = out \/ exists e, res = Err e /\ out = (Err e, s')).
Proof.
  unfold timed. destruct (body _) as [res f]. intros H. exists res, f.
  destruct (close _ res (st f)) as [res' s'] eqn:Hc. exists s'. split; [done|].
  pose proof (close_rows (Zexpired (scopes s)) res (st f)) as Hr. rewrite Hc in Hr. split; [done|].
  pose proof (close_res (Zexpired (scopes s)) res (st f)) as Hres. rewrite Hc in Hres. simpl in Hres.
  destruct Hres as [->| ->]; [|by right; left]. destruct res as [a|e]; [left; by exists a|].
  destruct e; try (by right; left); right; right; by eexists.
Qed.
Lemma timeout_inv f name kind closed s out : _handle_chain_timeout sink left_over f name kind closed s = out ->
  (exists e, out.1 = Err e /\ (e = HookError (chain_timeout true) \/ e = HookError (chain_timeout false) \/ exists l x, sink l x = Some e)) \/
  exists b, out.1 = Ok (chain_ctx f) /\ last_row out.2 = Some (Chain_timeout name kind b).
Proof.
  intros <-. unfold _handle_chain_timeout. destruct (match pending f with Some Running => _ | _ => _ end) as [b s1].
  unfold bind. destruct (emit sink (corr f) (Chain_timeout name kind b) s1) as [[[]|e] s2] eqn:He.
  - destruct closed; [left; exists (HookError (chain_timeout b)); split; [done|]; destruct b; auto|]. right. exists b. split; [done|]. by eapply emit_Ok.
  - apply emit_Err in He as [_ He]. left. exists e. split; [done|]. right. right. by eexists _, _.
Qed.

Definition polite : Prop := forall l x why, sink l x <> Some (HookRefusal why).

Lemma emit_not_refusal corr x s why s' : polite -> emit sink corr x s = (Err (HookRefusal why), s') -> False.
Proof. intros Hp [_ H]%emit_Err. by apply Hp in H. Qed.
Lemma enforce_not_refusal name ctx kind sub ref cl s why s' : polite ->
  _enforce_subscribable_tiers r sink name ctx kind sub ref cl s = (Err (HookRefusal why), s') -> False.
Proof.
  intros Hp. unfold _enforce_subscribable_tiers. destruct (hookpoint_meta r name) as [m|].
  - destruct (if decide _ then _ else _) as [d|]; [|done]. unfold bind. destruct (emit _ _ _ s) as [[[]|e] s1] eqn:He; [done|].
    intros [= -> <-]. by eapply emit_not_refusal.
  - destruct (strict_declarations r); [|done]. unfold bind. destruct (emit _ _ _ s) as [[[]|e] s1] eqn:He; [done|].
    intros [= -> <-]. by eapply emit_not_refusal.
Qed.
Lemma lift_emit_not_refusal corr x f why f' : polite -> lift (emit sink corr x) f = (Err (HookRefusal why), f') -> False.
Proof. intros Hp [He _]%lift_inv. by eapply emit_not_refusal. Qed.
Lemma fault_not_refusal name kind closed sub e f why f' : polite ->
  subscriber_fault sink name kind closed sub e f = (Err (HookRefusal why), f') -> False.
Proof.
  intros Hp. unfold subscriber_fault, _emit_subscriber_error_audit, bind. destruct (lift _ f) as [[[]|e'] f1] eqn:Hl.
  - by destruct closed.
  - intros [= -> <-]. by eapply lift_emit_not_refusal.
Qed.

Lemma pre_step_refusal name refusable closed sub f why f' : polite ->
  pre_step sink self name refusable closed sub f = (Err (HookRefusal why), f') ->
  tier sub ∈ refusable /\ last_row (st f') = Some (Refusal name (qualname (hook_fn sub)) (tier sub)).
Proof.
  intros Hp. unfold pre_step. destruct (await_sub self sub f) as [[o|e] f1]; [by destruct o|].
  destruct (is_Exception e) eqn:Hx.
  - destruct e as [why'| | | | | |]; try (by intros ?%fault_not_refusal). case_decide as Ht; unfold bind;
      destruct (lift _ _) as [[[]|e'] f2] eqn:Hl; try done; try (intros [= -> <-]; by apply lift_emit_not_refusal in Hl).
    intros [= -> <-]. apply lift_inv in Hl as [Hl _]. split; [done|]. by eapply emit_Ok.
  - destruct e; try done; by rewrite Hx.
Qed.
Lemma walk_pre_refusal name refusable closed why subs : polite -> forall f f',
  walk (pre_step sink self name refusable closed) subs f = (Err (HookRefusal why), f') ->
  exists sub, sub ∈ subs /\ tier sub ∈ refusable /\ last_row (st f') = Some (Refusal name (qualname (hook_fn sub)) (tier sub)).
Proof.
  intros Hp. induction subs as [|sub subs IH]; intros f f'; [done|]. cbn [walk]. unfold bind.
  destruct (pre_step _ _ _ _ _ sub f) as [[[]|e] f1] eqn:Hs.
  - intros (sub'&?&?)%IH. exists sub'. split; [by apply list_elem_of_further|done].
  - intros [= -> <-]. exists sub. apply pre_step_refusal in Hs; [|done]. split; [apply list_elem_of_here|done].
Qed.
Lemma run_pre_refusal name ctx subscribable refusable closed s why s' : polite ->
  _run_pre r sink left_over self name ctx subscribable refusable closed s = (Err (HookRefusal why), s') ->
  exists sub, sub ∈ subscribers_for r name pre /\ tier sub ∈ refusable /\
    last_row s' = Some (Refusal name (qualname (hook_fn sub)) (tier sub)).
Proof.
  intros Hp. unfold _run_pre, bind. destruct (_enforce_subscribable_tiers _ _ _ _ _ _ _ _ s) as [[[]|e] s1] eqn:He;
    [|intros [= -> <-]; by apply enforce_not_refusal in He].
  intros (res&f&s2&Hb&Hr&[(a&->&Ha)|[Ht|(e&->&[= <- <-])]])%timed_inv; [done| |].
  - apply timeout_inv in Ht as [(e&He'&Hw)|(b&Hb'&_)]; [|done]. simpl in He'. injection He' as <-.
    destruct Hw as [?|[?|(l&x&Hx)]]; try done. by apply Hp in Hx.
  - apply walk_pre_refusal in Hb as (sub&?&?&Hl); [|done]. exists sub. split_and!; try done. unfold last_row. by rewrite Hr.
Qed.

(** What an accepted substitute passed. *)
Definition attested (name : string) (carrier_type : option (object -> bool)) (sub : Subscriber) (x : object) : Prop :=
  (forall m c, hookpoint_meta r name = Some m -> carrier_tier m = Some c ->
     _TRUST_TIER_RANK (source_tier_of (tier sub)) <= _TRUST_TIER_RANK c) /\
  (forall m, hookpoint_meta r name = Some m -> allow_error_substitution m = true) /\
  (forall isinstance, carrier_type = Some isinstance -> isinstance x = true).
Lemma wrap_Some c sub name corr ct s o s' :
  _wrap_legacy_substitute_as_outcome r sink c sub name corr ct s = (Ok (Some o), s') ->
  attested name ct sub (payload o) /\ last_row s' = Some (Carrier_substitution name (qualname (hook_fn sub)) (source_tier_of (tier sub))).
Proof.
  unfold _wrap_legacy_substitute_as_outcome, bind.
  do 3 (match goal with |- context [if ?b then _ else _] => let H := fresh "H" in destruct b eqn:H; [by destruct (emit _ _ _ s) as [[]]|] end).
  destruct (emit _ _ _ s) as [[[]|e] s1] eqn:He; [|done]. intros [= <- <-]. split; [|by eapply emit_Ok]. split_and!.
  - intros m c' Hm Hc. rewrite Hm, Hc in H1. apply negb_false_iff in H1. unfold _enforce_substitute_tier in H1. lia.
  - intros m Hm. rewrite Hm in H. by apply negb_false_iff.
  - intros f ->. by apply negb_false_iff in H0.
Qed.
Lemma walk_error_Some name closed ct subs : forall f o c f',
  walk_error r sink self name closed ct subs f = (Ok (Some (o, c)), f') ->
  exists sub, sub ∈ subs /\ attested name ct sub (payload o) /\
    last_row (st f') = Some (Carrier_substitution name (qualname (hook_fn sub)) (source_tier_of (tier sub))).
Proof.
  induction subs as [|sub subs IH]; intros f o c f'; [done|]. cbn [walk_error].
  assert (Hrec : forall f1, walk_error r sink self name closed ct subs f1 = (Ok (Some (o, c)), f') ->
    exists sub', sub' ∈ sub :: subs /\ attested name ct sub' (payload o) /\
      last_row (st f') = Some (Carrier_substitution name (qualname (hook_fn sub')) (source_tier_of (tier sub')))).
  { intros f1 (sub'&?&?)%IH. exists sub'. split; [by apply list_elem_of_further|done]. }
  destruct (await_sub self sub f) as [[[c1|]|e] f1].
  - unfold bind. destruct (lift _ _) as [[[o1|]|e] f2] eqn:Hl; [|apply Hrec|done].
    intros [= -> -> ->]. apply lift_inv in Hl as [Hl _]. apply wrap_Some in Hl as [??]. exists sub. split_and!; try done. apply list_elem_of_here.
  - apply Hrec.
  - destruct e as [| | | | | |cls []]; try done; cbn; unfold bind;
      (destruct (subscriber_fault _ _ _ _ _ _ _) as [[[]|e'] f2]; [apply Hrec|done]).
Qed.
End outcomes.

Section claims.
Context {G : Type} `{!Gate G} (r : HookRegistry G) (sink : list (string * row) -> string * row -> option exn) (left_over : Z).

Lemma invoke_dispatch c s : bool_decide ((c_kind c = error \/ c_kind c = cancel) /\ c_exc c = None) = false ->
  exists self, invoke r sink left_over [] c s =
    _dispatch_by_kind r sink left_over self c (for_stage (c_name c) (c_kind c) (c_ctx c)) s.
Proof.
  intros H. unfold invoke, depth. cbn [invoke_to]. unfold invoke_body. rewrite H, decide_False by (by intros ?%elem_of_nil). by eexists.
Qed.
End claims.

(** A refusal leaves a pre stage only by right: when [invoke] raises [HookRefusal] there,
    a subscriber of that chain whose tier is among the refusable ones refused, and the audit
    log ends with the row that says so; anyone else's refusal, a fault of any subscriber and
    a timeout never surface as a refusal. *)
Theorem refusals_surface_only_by_right {G} `{!Gate G} (r : HookRegistry G) sink left_over c s why s' :
  (forall l x why, sink l x <> Some (HookRefusal why)) -> c_kind c = pre ->
  invoke r sink left_over [] c s = (Err (HookRefusal why), s') ->
  exists sub, sub ∈ subscribers_for r (c_name c) pre /\ tier sub ∈ c_refusable c /\
    last_row s' = Some (Refusal (c_name c) (qualname (hook_fn sub)) (tier sub)).
Proof.
  intros Hp Hk. destruct (invoke_dispatch r sink left_over c s) as [self ->].
  { apply bool_decide_eq_false. rewrite Hk. intros [[?|?] _]; done. }
  unfold _dispatch_by_kind. rewrite Hk. by apply run_pre_refusal.
Qed.

(** An error stage launders nothing: when [invoke] of the error kind returns a carrier,
    either the chain timed out and its row is the last of the log, or the carrier holds the
    payload of a subscriber of that chain whose source tier is no less trusted than the
    hookpoint's carrier tier allows, at a hookpoint that allows substitution, of the type
    asked for, and the substitution's row is the last of the log. *)
Theorem error_stage_launders_nothing {G} `{!Gate G} (r : HookRegistry G) sink left_over c s ctx s' :
  c_kind c = error -> invoke r sink left_over [] c s = (Ok ctx, s') ->
  (exists b, last_row s' = Some (Chain_timeout (c_name c) error b)) \/
  exists sub, sub ∈ subscribers_for r (c_name c) error /\ attested r (c_name c) (c_carrier_type c) sub (input ctx) /\
    last_row s' = Some (Carrier_substitution (c_name c) (qualname (hook_fn sub)) (source_tier_of (tier sub))).
Proof.
  intros Hk. destruct (c_exc c) as [exc|] eqn:Hexc.
  2:{ unfold invoke, depth. cbn [invoke_to]. unfold invoke_body. rewrite bool_decide_true by auto. done. }
  destruct (invoke_dispatch r sink left_over c s) as [self ->].
  { apply bool_decide_eq_false. rewrite Hexc. by intros [_ ?]. }
  unfold _dispatch_by_kind. rewrite Hk. unfold bind at 1.
  destruct (_run_error _ _ _ _ _ _ _ _ _ _ s) as [[[o c1]|e] s1] eqn:Hr; [|done]. cbn [fst snd].
  destruct o as [o|]; [|done]. intros [= <- <-]. cbn [input with_input].
  unfold _run_error, bind in Hr. destruct (_enforce_subscribable_tiers _ _ _ _ _ _ _ _ s) as [[[]|e] s2]; [|done].
  apply timed_inv in Hr as (res&f&s3&Hb&Hrows&[(a&->&Ha)|[Ht|(e&->&?)]]); [| |done].
  - destruct a as [[o' c']|]; [|rewrite Hexc in Ha; done]. injection Ha as <- <- <-.
    apply walk_error_Some in Hb as (sub&?&?&Hl). right. exists sub. split_and!; try done. unfold last_row. by rewrite Hrows.
  - destruct (_handle_chain_timeout _ _ _ _ _ _ s3) as [[c2|e] s4] eqn:Hh; [|done]. injection Ht as <- <- <-.
    apply timeout_inv in Hh as [(e&?&_)|(b&Hc&Hl)]; [done|]. left. by exists b.
Qed.

Lemma refusals_surface_only_by_right_witness :
  let r := lone 250 pre "operator" (fun _ => Raise (HookRefusal "no")) in
  let c := default_call "h" blank pre None in
  exists s', invoke r silent 0 [] c at_zero = (Err (HookRefusal "no"), s') /\
  exists sub, sub ∈ subscribers_for r "h" pre /\ tier sub ∈ c_refusable c /\
    last_row s' = Some (Refusal "h" (qualname (hook_fn sub)) (tier sub)).
Proof.
  intros r c. set (s' := {| now := 0; scopes := []; rows := [("k", Refusal "h" "hook" "operator")] |}%string).
  assert (Hr : invoke r silent 0 [] c at_zero = (Err (HookRefusal "no"), s')) by (vm_compute; reflexivity).
  exists s'. split; [exact Hr|]. by apply (refusals_surface_only_by_right r silent 0 c at_zero "no").
Defined.

Lemma error_stage_launders_nothing_witness :
  let r := lone 250 error "system" (fun c => Return (Some (with_input (Object "str" "saved") c))) in
  let c := default_call "h" blank error (Some (Raised "ValueError" true)) in
  exists ctx s', invoke r silent 0 [] c at_zero = (Ok ctx, s') /\
  ((exists b, last_row s' = Some (Chain_timeout "h" error b)) \/
   exists sub, sub ∈ subscribers_for r "h" error /\ attested r "h" None sub (input ctx) /\
     last_row s' = Some (Carrier_substitution "h" (qualname (hook_fn sub)) (source_tier_of (tier sub)))).
Proof.
  intros r c. destruct (invoke r silent 0 [] c at_zero) as [res s'] eqn:Hr.
  assert (Hok : match (invoke r silent 0 [] c at_zero).1 with Ok _ => true | Err _ => false end = true) by (vm_compute; reflexivity).
  rewrite Hr in Hok. destruct res as [ctx|]; [|discriminate]. exists ctx, s'. split; [reflexivity|].
  exact (error_stage_launders_nothing r silent 0 c at_zero ctx s' eq_refl Hr).
Defined.
