(* ===== verification/HookTiming.v ===== *)
(** * Hooks: deadlines, cleanup and cancellation

    What the timeout scopes of [hooks/invoke.py] promise, over the dispatcher of
    [HookInvoke]: chains of hooks that let cancellations through keep their deadline, the
    secondary cleanup deadline is never used, and a cancelled [Flow.body] stays cancelled. *)
From S2P Require Import Prelude CapabilityGate HookRegistry HookInvoke.
From Stdlib Require Import FunctionalExtensionality.

(** ** Deadlines *)

(** A coroutine that lets a cancellation through at once. *)
Inductive obedient {R} : coroutine R -> Prop :=
| ob_Return x : obedient (Return x)
| ob_Raise e : obedient (Raise e)
| ob_Sleep ms k : k true = Raise CancelledError -> obedient (k false) -> obedient (Sleep ms k)
| ob_Invoke c k : k (Err CancelledError) = Raise CancelledError -> (forall res, obedient (k res)) -> obedient (Invoke c k).

(** No enclosing deadline has passed. *)
Definition ahead (t : Z) (sc : scope) : Prop := expired sc = false /\ t < deadline sc.
Definition calm (s : state) : Prop := Forall (ahead (now s)) (scopes s).
(** From a calm state to a calm state under the same scopes, or to the moment the next
    deadline passes, with its cancellation on the way up. *)
Definition on_time {A} (s : state) (out : result exn A * state) : Prop :=
  let '(res, s') := out in now s <= now s' /\
  ((scopes s' = scopes s /\ calm s') \/
   (next_deadline (scopes s) = Some (now s') /\ scopes s' = expire (now s') <$> scopes s /\ res = Err CancelledError)).
Definition timely {A} (m : M state exn A) : Prop := forall s, calm s -> on_time s (m s).

Lemma next_deadline_calm t l : Forall (ahead t) l ->
  match next_deadline l with
  | None => l = []
  | Some d => t < d /\ Forall (fun sc => expired sc = false /\ d <= deadline sc) l
  end.
Proof.
  induction 1 as [|sc l [He Hd] Hl IH]; [done|]. cbn. rewrite He. destruct (next_deadline l) as [d|].
  - destruct IH as [Ht IH]. split; [lia|]. constructor; [split; [done|lia]|]. eapply Forall_impl; [exact IH|]. intros sc' [??]. split; [done|lia].
  - subst l. split; [done|]. constructor; [split; [done|lia]|constructor].
Qed.
Lemma expire_before t l : Forall (fun sc => expired sc = false /\ t < deadline sc) l -> expire t <$> l = l.
Proof.
  induction 1 as [|sc l [He Ht] Hl IH]; [done|]. rewrite fmap_cons, IH. f_equal. destruct sc as [d e]. unfold expire. cbn in *. subst e.
  f_equal. lia.
Qed.

Definition instant {A} (m : M state exn A) : Prop := forall s, now (m s).2 = now s /\ scopes (m s).2 = scopes s.
Lemma timely_pure {A} (m : M state exn A) : instant m -> timely m.
Proof.
  intros H s Hs. destruct (H s) as [Hn Hsc]. destruct (m s) as [res s']. cbn in *. split; [lia|]. left. split; [done|]. unfold calm. by rewrite Hn, Hsc.
Qed.
Lemma timely_bind {A B} (m : M state exn A) (k : A -> M state exn B) : timely m -> (forall a, timely (k a)) -> timely (bind m k).
Proof.
  intros Hm Hk s Hs. unfold bind. specialize (Hm s Hs). destruct (m s) as [[a|e] s1]; cbn in Hm; destruct Hm as [H1 H2].
  - destruct H2 as [[Hsc Hc]|(_&_&?)]; [|done]. specialize (Hk a s1 Hc). destruct (k a s1) as [res s2]. cbn in *. rewrite Hsc in Hk.
    destruct Hk as [? Hk]. split; [lia|]. exact Hk.
  - cbn. split; [done|]. destruct H2 as [?|(?&?&[= ->])]; [by left|by right].
Qed.
Lemma instant_bind {A B} (m : M state exn A) (k : A -> M state exn B) : instant m -> (forall a, instant (k a)) -> instant (bind m k).
Proof.
  intros Hm Hk s. unfold bind. specialize (Hm s). destruct (m s) as [[a|e] s1]; [|done]. destruct Hm, (Hk a s1). split; etrans; eauto.
Qed.
Lemma timely_sleep ms {R} (k : bool -> M state exn R) : timely (k false) -> k true = raise CancelledError -> timely (bind (sleep ms) k).
Proof.
  intros Hk Ht s Hs. pose proof (next_deadline_calm _ _ Hs) as Hnd. unfold bind, sleep.
  destruct (next_deadline (scopes s)) as [d|] eqn:Hd.
  - destruct Hnd as [Hlt Hall]. cmp_case.
    + assert (Hc : calm (at_time (now s + Z.max 0 ms) s)).
      { unfold calm. cbn. eapply Forall_impl; [exact Hall|]. intros sc [??]. split; [done|lia]. }
      specialize (Hk _ Hc). destruct (k false _) as [res s2]. cbn in *. destruct Hk as [? Hk]. split; [lia|]. done.
    + rewrite Ht. unfold on_time, raise. cbn. rewrite Z.max_r by lia. split; [lia|]. right. rewrite Hd. done.
  - assert (Hc : calm (at_time (now s + Z.max 0 ms) s)) by (unfold calm; cbn; rewrite Hnd; constructor).
    specialize (Hk _ Hc). destruct (k false _) as [res s2]. cbn in *. destruct Hk as [? Hk]. split; [lia|exact Hk].
Qed.

Section timing.
Context {G : Type} `{!Gate G} (r : HookRegistry G) (sink : list (string * row) -> string * row -> option exn) (left_over : Z).

Lemma timely_emit corr x : timely (emit sink corr x).
Proof. apply timely_pure. intros s. unfold emit. by destruct (sink _ _). Qed.
Lemma timely_ret {A} (a : A) : timely (ret a).
Proof. by apply timely_pure. Qed.
Lemma timely_raise {A} e : timely (raise (A := A) e).
Proof. by apply timely_pure. Qed.
Hint Resolve timely_emit timely_ret timely_raise timely_bind : core.

Lemma timely_drive self {R} (p : coroutine R) : (forall c, timely (self c)) -> obedient p -> timely (drive self p).
Proof.
  intros Hself. induction 1 as [x|e|ms k Hk Hob IH|c k Hk Hob IH]; cbn [drive]; auto.
  - apply timely_sleep; [exact IH|]. by rewrite Hk.
  - intros s Hs. specialize (Hself c s Hs). destruct (self c s) as [res s1]. cbn in Hself. destruct Hself as [H1 [[Hsc Hc]|(H2&H3&->)]].
    + specialize (IH res s1 Hc). destruct (drive self (k res) s1) as [res2 s2]. cbn in *. rewrite Hsc in IH. destruct IH as [? IH]. split; [lia|done].
    + rewrite Hk. cbn. unfold on_time, raise. auto.
Qed.

(** The same of handlers over a frame; their task is done whenever they stop. *)
Definition settled (f : frame) : Prop := pending f <> Some Running.
Definition fine {A} (f : frame) (out : result exn A * frame) : Prop := on_time (st f) (out.1, st out.2) /\ settled out.2.
Definition ftimely {A} (m : M frame exn A) : Prop := forall f, calm (st f) -> settled f -> fine f (m f).

Lemma fine_trans {A} f f1 (out : result exn A * frame) : now (st f) <= now (st f1) -> scopes (st f1) = scopes (st f) -> fine f1 out -> fine f out.
Proof. intros Hn Hsc [[? H] ?]. rewrite Hsc in H. split; [split; [lia|done]|done]. Qed.
Lemma fine_cases {A} f (out : result exn A * frame) : fine f out ->
  now (st f) <= now (st out.2) /\ settled out.2 /\
  (scopes (st out.2) = scopes (st f) /\ calm (st out.2) \/ out.1 = Err CancelledError).
Proof. intros [[? H] ?]. split_and!; [done..|]. destruct H as [?|(_&_&?)]; auto. Qed.
Lemma ftimely_lift {A} (m : M state exn A) : timely m -> ftimely (lift m).
Proof. intros Hm f Hf Hset. specialize (Hm _ Hf). unfold lift. destruct (m (st f)) as [res s]. by split. Qed.
Lemma ftimely_bind {A B} (m : M frame exn A) (k : A -> M frame exn B) : ftimely m -> (forall a, ftimely (k a)) -> ftimely (bind m k).
Proof.
  intros Hm Hk f Hf Hset. specialize (Hm f Hf Hset). pose proof (fine_cases _ _ Hm) as (Hn&Hset1&Hc). unfold bind.
  destruct (m f) as [[a|e] f1]; cbn in *.
  - destruct Hc as [[Hsc Hc]|?]; [|done]. apply (fine_trans f f1); [done..|]. by apply Hk.
  - destruct Hm as [[? H] ?]. split; [split; [done|]|done]. destruct H as [?|(?&?&[= ->])]; [by left|by right].
Qed.
Lemma ftimely_local {A} (m : M frame exn A) : (forall f, st (m f).2 = st f) -> (forall f, settled f -> settled (m f).2) -> ftimely m.
Proof. intros H1 H2 f Hf Hset. split; [|by apply H2]. rewrite H1. split; [done|]. by left. Qed.
Lemma ftimely_pending {A} (m : M frame exn A) : ftimely m -> ftimely (fun f => m (with_pending None f)).
Proof. intros Hm f Hf Hset. apply (fine_trans f (with_pending None f)); [done..|]. by apply Hm. Qed.
Hint Resolve ftimely_lift ftimely_bind : core.

Lemma ftimely_fault name kind closed sub e : ftimely (subscriber_fault sink name kind closed sub e).
Proof.
  unfold subscriber_fault. apply ftimely_bind; [|intros _; destruct closed; by apply ftimely_local].
  unfold _emit_subscriber_error_audit. intros f. by apply ftimely_lift.
Qed.
Lemma ftimely_row {A} x (k : M frame exn A) : ftimely k -> ftimely (fun f => (lift (emit sink (corr f) x) ;;; k) f).
Proof. intros Hk f. apply ftimely_bind; auto. Qed.

Variable self : call -> M state exn HookContext.
Hypothesis self_timely : forall c, timely (self c).
Definition obedient_sub (sub : Subscriber) : Prop := forall c, obedient (hf_call (hook_fn sub) c).

Lemma await_fine sub f : obedient_sub sub -> calm (st f) -> fine f (await_sub self sub f) /\ pending (await_sub self sub f).2 = Some Done.
Proof.
  intros Hob Hf. pose proof (timely_drive self (hf_call (hook_fn sub) (chain_ctx f)) self_timely (Hob _) (st f) Hf) as H.
  unfold await_sub, lift. cbn [st with_pending chain_ctx]. destruct (drive _ _ _) as [res s1]. split; [|done]. by split.
Qed.
(** Await a subscriber: a cancellation ends the step, otherwise go on from a calm frame. *)
Lemma ftimely_await {A} sub (k : result exn (option HookContext) * frame -> result exn A * frame) : obedient_sub sub ->
  (forall f, k (Err CancelledError, f) = (Err CancelledError, f)) ->
  (forall res, ftimely (fun f => k (res, f))) -> ftimely (fun f => k (await_sub self sub f)).
Proof.
  intros Hob Hc Hk f Hf Hset. destruct (await_fine sub f Hob Hf) as [Hfine Hdone]. pose proof Hfine as [[Hn H] Hset1].
  destruct (await_sub self sub f) as [res f1]. cbn in *. destruct H as [[Hsc Hcalm]|(H1&H2&->)].
  - apply (fine_trans f f1); [done..|]. by apply Hk.
  - rewrite Hc. split; [split; [done|]|done]. by right.
Qed.
Ltac arm := first [by apply ftimely_local | apply (ftimely_pending (subscriber_fault _ _ _ _ _ _)), ftimely_fault].

Lemma ftimely_pre name refusable closed sub : obedient_sub sub -> ftimely (pre_step sink self name refusable closed sub).
Proof.
  intros Hob. apply (ftimely_await sub (fun x => match x with
    | (Err (HookRefusal why), f) => _ | (Err _e, f) => _ | (Ok (Some c), f) => _ | (Ok None, f) => _ end)); [done|done|].
  intros [[c|]|[why| | | | | |cls []]]; cbn [is_Exception]; try arm.
  case_decide.
  - apply (ftimely_pending (fun f => (lift (emit sink (corr f) (Refusal name (qualname (hook_fn sub)) (tier sub))) ;;; raise (HookRefusal why)) f)).
    apply ftimely_row. by apply ftimely_local.
  - apply (ftimely_pending (fun f => (lift (emit sink (corr f) (Unauthorized_refusal name (qualname (hook_fn sub)) (tier sub))) ;;; modify rewind) f)).
    apply ftimely_row. by apply ftimely_local.
Qed.
Lemma ftimely_post name closed sub : obedient_sub sub -> ftimely (post_step sink self name closed sub).
Proof.
  intros Hob. apply (ftimely_await sub (fun x => match x with
    | (Err (HookRefusal why), f) => _ | (Err _e, f) => _ | (Ok (Some c), f) => _ | (Ok None, f) => _ end)); [done|done|].
  intros [[c|]|[why| | | | | |cls []]]; cbn [is_Exception]; arm.
Qed.
Lemma ftimely_cancel name sub : obedient_sub sub -> ftimely (cancel_step sink self name sub).
Proof.
  intros Hob. apply (ftimely_await sub (fun x => match x with
    | (Err CancelledError, f) => _ | (Err _e, f) => _ | (Ok _o, f) => _ end)); [done|done|].
  intros [c|[]]; try (by apply ftimely_local); unfold _emit_subscriber_error_audit; apply ftimely_bind; try (intros _; by apply ftimely_local);
    intros f; by apply ftimely_lift.
Qed.
Lemma ftimely_walk step subs : (forall sub, sub ∈ subs -> ftimely (step sub)) -> ftimely (walk step subs).
Proof.
  induction subs as [|sub subs IH]; intros Hs; cbn [walk]; [by apply ftimely_local|].
  apply ftimely_bind; [apply Hs, list_elem_of_here|]. intros _. apply IH. intros x Hx. by apply Hs, list_elem_of_further.
Qed.
Lemma timely_wrap c sub name co ct : timely (_wrap_legacy_substitute_as_outcome r sink c sub name co ct).
Proof. unfold _wrap_legacy_substitute_as_outcome. repeat (match goal with |- context [if ?b then _ else _] => destruct b end; [auto|]). auto. Qed.
Lemma ftimely_walk_error name closed ct subs : (forall sub, sub ∈ subs -> obedient_sub sub) ->
  ftimely (walk_error r sink self name closed ct subs).
Proof.
  induction subs as [|sub subs IH]; intros Hob; cbn [walk_error]; [by apply ftimely_local|].
  assert (Hrec : ftimely (walk_error r sink self name closed ct subs)) by (apply IH; intros x ?; by apply Hob, list_elem_of_further).
  apply (ftimely_await sub (fun x => match x with
    | (Err (HookRefusal why), f) => _ | (Err _e, f) => _ | (Ok None, f) => _ | (Ok (Some c), f) => _ end));
    [apply Hob, list_elem_of_here|done|].
  intros [[c|]|[why| | | | | |cls []]]; cbn [is_Exception]; try (by apply ftimely_local);
    try (by apply (ftimely_pending (walk_error r sink self name closed ct subs)));
    try (apply (ftimely_pending (subscriber_fault sink name error closed sub _ ;;; walk_error r sink self name closed ct subs));
         apply ftimely_bind; [apply ftimely_fault|by intros _]).
  apply (ftimely_pending (fun f => (outcome <-- lift (_wrap_legacy_substitute_as_outcome r sink c sub name (corr f) ct);
    match outcome with
    | Some o => ret (Some (o, c))
    | None => modify rewind ;;; walk_error r sink self name closed ct subs
    end) f)).
  intros f. apply ftimely_bind; [apply ftimely_lift, timely_wrap|]. intros [o|]; [by apply ftimely_local|].
  apply ftimely_bind; [by apply ftimely_local|by intros _].
Qed.

Lemma instant_emit co x : instant (emit sink co x).
Proof. intros s. unfold emit. by destruct (sink _ _). Qed.
Lemma instant_timeout f name kind closed : settled f -> instant (_handle_chain_timeout sink left_over f name kind closed).
Proof.
  intros Hset s. unfold _handle_chain_timeout. destruct (pending f) as [[]|] eqn:Hp; [by destruct Hset| |];
    (apply (instant_bind (emit _ _ _)); [apply instant_emit|intros _; by destruct closed]).
Qed.
Lemma instant_enforce name ctx kind sub ref cl : instant (_enforce_subscribable_tiers r sink name ctx kind sub ref cl).
Proof.
  unfold _enforce_subscribable_tiers. destruct (hookpoint_meta r name) as [m|].
  - destruct (if decide _ then _ else _) as [d|]; [|done]. apply instant_bind; [apply instant_emit|done].
  - destruct (strict_declarations r); [|done]. apply instant_bind; [apply instant_emit|done].
Qed.

Hypothesis deadline_pos : 0 < chain_deadline_ms r.
(** A scope over a walk that keeps to deadlines keeps to them, and ends by its own. *)
Definition in_time {A} (m : M state exn A) : Prop :=
  forall s, calm s -> on_time s (m s) /\ now (m s).2 <= now s + chain_deadline_ms r.
Lemma on_time_instant {A B} s s1 (res : result exn A) (m : M state exn B) : now s <= now s1 -> scopes s1 = scopes s -> calm s1 -> instant m ->
  on_time s (m s1).
Proof.
  intros Hn Hsc Hc Hm. destruct (Hm s1) as [E1 E2]. destruct (m s1) as [x s2]. cbn in *. split; [lia|]. left. split; [congruence|].
  unfold calm. by rewrite E1, E2.
Qed.
Lemma Zexpired_calm t l : Forall (ahead t) l -> Zexpired l = 0%nat.
Proof. intros Hl. unfold Zexpired. rewrite filter_none; [done|]. intros sc Hsc. rewrite Forall_forall in Hl. destruct (Hl sc Hsc) as [-> _]. done. Qed.
Lemma expired_at_next t l d : Forall (ahead t) l -> next_deadline l = Some d -> Zexpired (expire d <$> l) <> 0%nat.
Proof.
  unfold Zexpired. intros Hl. revert d. induction Hl as [|sc l [He Hd] Hl IH]; intros d; [done|]. cbn [next_deadline]. rewrite He. intros [= Hmin].
  rewrite fmap_cons, filter_cons. case_decide as Hex; [done|]. unfold expire in Hex. cbn in Hex. rewrite He in Hex. cbn in Hex.
  destruct (next_deadline l) as [d'|]; [|exfalso; apply Hex; subst; lia].
  assert (d' = d) as -> by lia. by apply IH.
Qed.
Lemma timed_in_time {A B} ctx (body : M frame exn A) (on_timeout : frame -> M state exn B) after :
  ftimely body -> (forall f, settled f -> instant (on_timeout f)) -> (forall a f, instant (after a f)) ->
  in_time (timed r ctx body on_timeout after).
Proof.
  intros Hbody Hto Haf s Hs. set (sc := {| deadline := now s + chain_deadline_ms r; expired := false |}).
  set (f0 := {| st := with_scopes (sc :: scopes s) s; chain_ctx := ctx; last_good_ctx := ctx; pending := None |}).
  assert (Hf0 : calm (st f0)) by (constructor; [split; [done|cbn; lia]|exact Hs]).
  destruct (Hbody f0 Hf0 ltac:(done)) as [Hot Hset]. unfold timed. fold sc f0. destruct (body f0) as [res f1]. cbn [fst snd st] in *.
  destruct Hot as [Hn H]. rewrite (Zexpired_calm _ _ Hs).
  assert (Hgo : forall C (m : M state exn C), instant m -> scopes (st f1) = sc :: scopes s -> calm (st f1) ->
    on_time s (m (with_scopes (scopes s) (st f1))) /\ now (m (with_scopes (scopes s) (st f1))).2 <= now s + chain_deadline_ms r).
  { intros C m Hm Hsc Hc. unfold calm in Hc. rewrite Hsc in Hc. apply Forall_cons in Hc as [[_ Hd] Hc]. cbn in Hd.
    split; [by apply (on_time_instant (A := C) s (with_scopes (scopes s) (st f1)) (m s).1)|].
    rewrite (proj1 (Hm _)). cbn. lia. }
  assert (Hfire : now (st f1) = now s + chain_deadline_ms r -> calm (with_scopes (scopes s) (st f1)) ->
    on_time s (on_timeout f1 (with_scopes (scopes s) (st f1))) /\
    now (on_timeout f1 (with_scopes (scopes s) (st f1))).2 <= now s + chain_deadline_ms r).
  { intros Hnow Hc. split; [by apply (on_time_instant (A := B) s (with_scopes (scopes s) (st f1)) (Err TimeoutError)); auto|].
    rewrite (proj1 (Hto _ Hset _)). cbn. lia. }
  destruct H as [[Hsc Hc]|(Hnd&Hsc&Hres)].
  - cbn [scopes with_scopes st f0] in Hsc. unfold close. rewrite Hsc. cbn [expired sc andb].
    destruct res as [a|e]; [by apply Hgo|]. destruct e; try (by apply (Hgo B (raise _))); by apply Hgo; [apply Hto|..].
  - cbn [scopes with_scopes st f0] in Hnd, Hsc. unfold close. rewrite Hsc, Hres. cbn [fmap list_fmap].
    pose proof (next_deadline_calm _ _ Hs) as Hcalm. cbn [next_deadline expired sc deadline] in Hnd. cbn [expired expire sc deadline].
    destruct (next_deadline (scopes s)) as [d|] eqn:Hd.
    + destruct Hcalm as [Hlt Hall]. injection Hnd as Hnow. destruct (Z.le_gt_cases d (now s + chain_deadline_ms r)) as [Hle|Hgt].
      * assert (d = now (st f1)) as -> by lia.
        rewrite (proj2 (Nat.eqb_neq _ _) (expired_at_next _ _ _ Hs Hd)), andb_false_r.
        cbn. split; [|lia]. split; [lia|]. right. by rewrite Hd.
      * assert (Hnow' : now (st f1) = now s + chain_deadline_ms r) by lia.
        rewrite (expire_before (now (st f1)) (scopes s)), (Zexpired_calm _ _ Hs), Hnow', Z.leb_refl
          by (eapply Forall_impl; [exact Hall|]; intros ? [??]; split; [done|lia]).
        apply Hfire; [done|]. unfold calm. cbn. eapply Forall_impl; [exact Hall|]. intros ? [??]. split; [done|lia].
    + injection Hnd as Hnow. rewrite Hcalm in *. rewrite <- Hnow, Z.leb_refl. apply Hfire; [done|constructor].
Qed.
End timing.

Section keeping_time.
Context {G : Type} `{!Gate G} (r : HookRegistry G) (sink : list (string * row) -> string * row -> option exn) (left_over : Z).
Hypothesis deadline_pos : 0 < chain_deadline_ms r.
(** Every hook registered lets cancellations through at once, whatever carrier it gets. *)
Definition all_obedient : Prop := forall k subs sub, _subscribers r !! k = Some subs -> sub ∈ subs -> obedient_sub sub.

Lemma in_time_enforced {A} name ctx kind sub ref cl (m : M state exn A) : in_time r m ->
  in_time r (_enforce_subscribable_tiers r sink name ctx kind sub ref cl ;;; m).
Proof.
  intros Hm s Hs. unfold bind. destruct (instant_enforce r sink name ctx kind sub ref cl s) as [E1 E2].
  destruct (_enforce_subscribable_tiers _ _ _ _ _ _ _ _ s) as [[[]|e] s1]; cbn in E1, E2.
  - assert (Hs1 : calm s1) by (unfold calm; by rewrite E1, E2). specialize (Hm s1 Hs1). destruct (m s1) as [res s2]. cbn in *.
    rewrite E1, E2 in Hm. exact Hm.
  - split; [|cbn; lia]. split; [lia|]. left. split; [done|]. unfold calm. by rewrite E1, E2.
Qed.
Lemma in_time_then {A B} (m : M state exn A) (k : A -> M state exn B) : in_time r m -> (forall a, instant (k a)) -> in_time r (bind m k).
Proof.
  intros Hm Hk s Hs. destruct (Hm s Hs) as [H1 H2]. unfold bind. destruct (m s) as [[a|e] s1].
  - destruct (Hk a s1) as [E1 E2]. destruct H1 as [Hn [[Hsc Hc]|(_&_&?)]]; [|done]. cbn in H2. split; [|lia].
    by apply (on_time_instant (A := A) s s1 (Ok a)).
  - split; [|done]. destruct H1 as [Hn [?|(?&?&[= ->])]]; (split; [done|auto]).
Qed.
Lemma dispatch_in_time self c ctx : all_obedient -> (forall c, timely (self c)) ->
  in_time r (_dispatch_by_kind r sink left_over self c ctx).
Proof.
  intros Hob Hself.
  assert (Hsub : forall kind sub, sub ∈ subscribers_for r (c_name c) kind -> obedient_sub sub).
  { intros kind sub. unfold subscribers_for. destruct (_subscribers r !! _) eqn:Hk; [by apply (Hob _ _ _ Hk)|by intros ?%elem_of_nil]. }
  assert (Hto : forall f kind, settled f -> instant (_handle_chain_timeout sink left_over f (c_name c) kind (c_fail_closed c))).
  { intros f kind. apply instant_timeout. }
  unfold _dispatch_by_kind. destruct (c_kind c).
  - apply in_time_enforced, timed_in_time; [done| |auto|done]. apply ftimely_walk. intros sub ?. apply ftimely_pre; eauto.
  - apply in_time_enforced, timed_in_time; [done| |auto|done]. apply ftimely_walk. intros sub ?. apply ftimely_post; eauto.
  - apply in_time_then; [|by intros [[o|] c']]. apply in_time_enforced, timed_in_time; [done| | |].
    + apply ftimely_walk_error; eauto.
    + intros f Hf. apply instant_bind; [by apply Hto|done].
    + intros [[o c']|] f; [done|]. by destruct (c_exc c).
  - apply in_time_enforced, timed_in_time; [done| |auto|done]. apply ftimely_walk. intros sub ?. apply ftimely_cancel; eauto.
Qed.
Lemma invoke_timely n : all_obedient -> forall stack c, timely (invoke_to r sink left_over (fun _ _ => raise RuntimeError) n stack c).
Proof.
  intros Hob. induction n as [|n IH]; intros stack c; cbn [invoke_to]; [by apply timely_pure|]. unfold invoke_body.
  case_bool_decide; [by apply timely_pure|]. case_decide.
  - unfold _invoke_internal. case_decide; apply timely_pure; [|done]. apply (instant_bind (emit _ _ _)); [apply instant_emit|done].
  - intros s Hs. by apply dispatch_in_time.
Qed.
End keeping_time.

(** A chain of hooks that let a cancellation through at once keeps its deadline, however
    long they sleep and however they nest further chains: the dispatch returns or raises at
    most the chain deadline after it began. *)
Theorem obedient_chains_keep_their_deadline {G} `{!Gate G} (r : HookRegistry G) sink left_over c s :
  0 < chain_deadline_ms r -> all_obedient r -> scopes s = [] ->
  now s <= now (invoke r sink left_over [] c s).2 <= now s + chain_deadline_ms r.
Proof.
  intros Hpos Hob Hs. assert (Hc : calm s) by (unfold calm; rewrite Hs; constructor).
  pose proof (invoke_timely r sink left_over Hpos (depth r) Hob [] c s Hc) as Ht. fold (invoke r sink left_over [] c) in Ht.
  split; [destruct (invoke _ _ _ _ _ s); apply Ht|].
  destruct (bool_decide ((c_kind c = error \/ c_kind c = cancel) /\ c_exc c = None)) eqn:Hb.
  - unfold invoke, depth. cbn [invoke_to]. unfold invoke_body. rewrite Hb. cbn. lia.
  - unfold invoke, depth. cbn [invoke_to]. unfold invoke_body. rewrite Hb, decide_False by (by intros ?%elem_of_nil).
    apply dispatch_in_time; [done|done| |done]. intros c'. by apply invoke_timely.
Qed.

(** ** The cleanup bound is never used *)
Section settling.
Context {G : Type} `{!Gate G} (r : HookRegistry G) (sink : list (string * row) -> string * row -> option exn).
Context (self : call -> M state exn HookContext).
Definition settles {A} (m : M frame exn A) : Prop := forall f, settled f -> settled (m f).2.
Lemma settles_lift {A} (m : M state exn A) : settles (lift m).
Proof. intros f. unfold lift. by destruct (m (st f)). Qed.
Lemma settles_bind {A B} (m : M frame exn A) (k : A -> M frame exn B) : settles m -> (forall a, settles (k a)) -> settles (bind m k).
Proof. intros Hm Hk f Hf. unfold bind. specialize (Hm f Hf). destruct (m f) as [[a|e] f1]; [by apply Hk|done]. Qed.
Lemma settles_local {A} (g : frame -> frame) (a : A) : (forall f, settled f -> settled (g f)) -> settles (fun f => (Ok a, g f)).
Proof. intros Hg f. apply Hg. Qed.
Lemma settles_fault name kind closed sub e : settles (subscriber_fault sink name kind closed sub e).
Proof.
  unfold subscriber_fault. apply settles_bind; [intros f; apply settles_lift|]. intros _. destruct closed; [by intros f|]. by apply settles_local.
Qed.
Lemma await_settled sub f : settled (await_sub self sub f).2.
Proof. unfold await_sub. by destruct (lift _ _). Qed.

Lemma settles_pre name refusable closed sub : settles (pre_step sink self name refusable closed sub).
Proof.
  intros f _. unfold pre_step. pose proof (await_settled sub f). destruct (await_sub self sub f) as [[[c|]|[why| | | | | |cls []]] f1];
    cbn [is_Exception]; try done; try (by apply settles_fault).
  case_decide; (apply settles_bind; [apply settles_lift|intros _; by intros ?|done]).
Qed.
Lemma settles_post name closed sub : settles (post_step sink self name closed sub).
Proof.
  intros f _. unfold post_step. pose proof (await_settled sub f). destruct (await_sub self sub f) as [[[c|]|[why| | | | | |cls []]] f1];
    cbn [is_Exception]; try done; by apply settles_fault.
Qed.
Lemma settles_cancel name sub : settles (cancel_step sink self name sub).
Proof.
  intros f _. unfold cancel_step. pose proof (await_settled sub f). destruct (await_sub self sub f) as [[c|[]] f1]; try done;
    (apply settles_bind; [intros ?; apply settles_lift|by intros _ ?|done]).
Qed.
Lemma settles_walk step subs : (forall sub, settles (step sub)) -> settles (walk step subs).
Proof. intros Hs. induction subs; cbn [walk]; [by apply settles_local|by apply settles_bind]. Qed.
Lemma settles_walk_error name closed ct subs : settles (walk_error r sink self name closed ct subs).
Proof.
  induction subs as [|sub subs IH]; intros f Hf; [done|]. cbn [walk_error]. pose proof (await_settled sub f).
  destruct (await_sub self sub f) as [[[c|]|[why| | | | | |cls []]] f1]; cbn [is_Exception]; try done; try (by apply IH);
    try (by apply settles_bind; [apply settles_fault|intros _|]).
  apply settles_bind; [apply settles_lift| |done]. intros [o|]; [by intros ?|]. apply settles_bind; [by apply settles_local|by intros _].
Qed.
End settling.

Lemma timeout_settled sink lo lo' f name kind closed : settled f ->
  _handle_chain_timeout sink lo f name kind closed = _handle_chain_timeout sink lo' f name kind closed.
Proof. unfold _handle_chain_timeout, settled. by destruct (pending f) as [[]|]. Qed.
Section dead_bound.
Context {G : Type} `{!Gate G} (r : HookRegistry G) (sink : list (string * row) -> string * row -> option exn) (lo lo' : Z).
Lemma timed_ext {A B} ctx (body : M frame exn A) (h h' : frame -> M state exn B) after : settles body ->
  (forall f, settled f -> h f = h' f) -> timed r ctx body h after = timed r ctx body h' after.
Proof.
  intros Hb Hh. extensionality s. unfold timed.
  match goal with |- context [body ?f0] => pose proof (Hb f0 ltac:(done)) as Hset; destruct (body f0) as [res f1] end.
  cbn in Hset. destruct (close _ res (st f1)) as [[a|e] s']; [done|]. destruct e; try done. by rewrite Hh.
Qed.
Lemma dispatch_dead_bound self c ctx :
  _dispatch_by_kind r sink lo self c ctx = _dispatch_by_kind r sink lo' self c ctx.
Proof.
  unfold _dispatch_by_kind, _run_pre, _run_post, _run_error, _run_cancel. destruct (c_kind c); do 2 f_equal.
  - extensionality u. apply timed_ext; [apply settles_walk; intros; apply settles_pre|]. intros. by apply timeout_settled.
  - extensionality u. apply timed_ext; [apply settles_walk; intros; apply settles_post|]. intros. by apply timeout_settled.
  - extensionality u. apply timed_ext; [apply settles_walk_error|]. intros f Hf. by rewrite (timeout_settled sink lo lo').
  - extensionality u. apply timed_ext; [apply settles_walk; intros; apply settles_cancel|]. intros. by apply timeout_settled.
Qed.
Lemma invoke_dead_bound b n : forall stack c, invoke_to r sink lo b n stack c = invoke_to r sink lo' b n stack c.
Proof.
  induction n as [|n IH]; intros stack c; [done|]. cbn [invoke_to]. unfold invoke_body. case_bool_decide; [done|]. case_decide; [done|].
  rewrite (dispatch_dead_bound _ c). f_equal. extensionality c'. apply IH.
Qed.
End dead_bound.

(** A hook that sleeps past the deadline and cleans up for [d] when cancelled. *)
Definition slow_hook (ms d : Z) : HookContext -> coroutine (option HookContext) := fun _ =>
  Sleep (ms + 1) (fun cancelled => if cancelled then Sleep d (fun _ => Raise CancelledError) else Return None).
Definition slow_registry (ms d : Z) : HookRegistry _DenyAllGate := lone ms pre "user-plugin" (slow_hook ms d).
Lemma drive_slow self ms d t l c : 0 < ms -> 0 <= d ->
  drive self (slow_hook ms d c) {| now := t; scopes := [{| deadline := t + ms; expired := false |}]; rows := l |} =
  (Err CancelledError, {| now := t + ms + d; scopes := [{| deadline := t + ms; expired := true |}]; rows := l |}).
Proof.
  intros Hms Hd. unfold slow_hook. cbn [drive]. unfold bind, sleep at 1. cbn [next_deadline scopes expired deadline now].
  replace (t + Z.max 0 (ms + 1) <? t + ms) with false by lia. rewrite Z.max_r by lia. cbn [drive]. unfold bind, sleep.
  unfold at_time, with_scopes, expire. cbn [fmap list_fmap scopes expired deadline now rows]. rewrite Z.leb_refl. cbn [next_deadline expired orb].
  rewrite Z.max_r by lia. done.
Qed.

(** The secondary deadline on the cleanup of a cancelled hook is never used: no dispatch
    depends on how long an unfinished task would take, because the walk only sees the timeout
    once the task is done; so a hook that takes [d] to clean up holds its chain for [d] past
    the deadline, whatever [d], and the row of the timeout says the cleanup kept its bound. *)
Theorem cleanup_bound_is_dead ms d ctx t : 0 < ms -> 0 <= d ->
  (forall G `(!Gate G) (r : HookRegistry G) sink lo lo' c, invoke r sink lo [] c = invoke r sink lo' [] c) /\
  invoke (slow_registry ms d) silent 0 [] (default_call "h" ctx pre None) {| now := t; scopes := []; rows := [] |} =
  (Ok (for_stage "h" pre ctx), {| now := t + ms + d; scopes := []; rows := [(correlation_id ctx, Chain_timeout "h" pre false)] |}).
Proof.
  intros Hms Hd. split; [intros; apply invoke_dead_bound|].
  unfold invoke, depth. cbn [invoke_to]. unfold invoke_body. rewrite bool_decide_false by (by intros [[]]).
  rewrite decide_False by (by intros ?%elem_of_nil). unfold _dispatch_by_kind. cbn [c_kind default_call].
  unfold _run_pre, bind at 1. unfold _enforce_subscribable_tiers, hookpoint_meta, slow_registry, lone. cbn [_hookpoints c_name default_call].
  rewrite lookup_empty. cbn [strict_declarations]. unfold ret at 1. unfold timed, subscribers_for. cbn [_subscribers].
  rewrite lookup_singleton_eq. cbn [default walk from_option id]. unfold bind at 1, pre_step, await_sub, lift.
  cbn [with_pending st hook_fn hf_call chain_ctx]. unfold with_scopes at 1. cbn [now rows scopes chain_deadline_ms]. rewrite drive_slow by done. done.
Qed.
Lemma cleanup_bound_is_dead_witness :
  (forall G `(!Gate G) (r : HookRegistry G) sink lo lo' c, invoke r sink lo [] c = invoke r sink lo' [] c) /\
  invoke (slow_registry 250 3600000) silent 0 [] (default_call "h" blank pre None) at_zero =
  (Ok (for_stage "h" pre blank), {| now := 0 + 250 + 3600000; scopes := []; rows := [("k"%string, Chain_timeout "h" pre false)] |}).
Proof. apply (cleanup_bound_is_dead 250 3600000 blank 0); lia. Defined.

Lemma obedient_chains_keep_their_deadline_witness :
  let r := lone 250 pre "operator" (fun _ => Sleep 1000 (fun cancelled => if cancelled then Raise CancelledError else Return None)) in
  let c := default_call "h" blank pre None in
  all_obedient r /\ now at_zero <= now (invoke r silent 0 [] c at_zero).2 <= now at_zero + 250.
Proof.
  intros r c. assert (Hob : all_obedient r).
  { intros k subs sub Hk. unfold r, lone in Hk. cbn [_subscribers] in Hk. apply lookup_singleton_Some in Hk as [_ <-].
    intros ->%list_elem_of_singleton ctx. cbn. by repeat constructor. }
  split; [exact Hob|]. by apply (obedient_chains_keep_their_deadline r silent 0 c at_zero).
Defined.

(** ** [Flow.body] under cancellation *)
Section flow.
Context {G : Type} `{!Gate G} (r : HookRegistry G) (left_over : Z).
(** The hookpoint takes the tiers and the policy that [Flow.body] always passes. *)
Definition takes_defaults (name : string) : bool :=
  match hookpoint_meta r name with
  | None => negb (strict_declarations r)
  | Some m => bool_decide (subscribable_tiers m = _DEFAULT_TIERS) && negb (fail_closed m)
  end.

Lemma silent_emit co x s : exists s', emit silent co x s = (Ok tt, s').
Proof. unfold emit, silent. by eexists. Qed.
Lemma cancel_step_outcome self name sub f : (cancel_step silent self name sub f).1 = Ok tt \/ (cancel_step silent self name sub f).1 = Err CancelledError.
Proof.
  unfold cancel_step. destruct (await_sub self sub f) as [[c|[]] f1]; try (by left); try (by right);
    left; unfold bind, _emit_subscriber_error_audit, lift, emit, silent; done.
Qed.
Lemma cancel_walk_outcome self name subs : forall f,
  (walk (cancel_step silent self name) subs f).1 = Ok tt \/ (walk (cancel_step silent self name) subs f).1 = Err CancelledError.
Proof.
  induction subs as [|sub subs IH]; intros f; [by left|]. cbn [walk]. unfold bind.
  pose proof (cancel_step_outcome self name sub f) as Hs. destruct (cancel_step silent self name sub f) as [[[]|e] f1]; [apply IH|].
  right. destruct Hs as [?|[= ->]]; done.
Qed.
Lemma enforce_defaults name ctx kind s :
  let out := _enforce_subscribable_tiers r silent name ctx kind _DEFAULT_TIERS None (Some false) s in
  if takes_defaults name then out = (Ok tt, s) else exists w, out.1 = Err (HookError w).
Proof.
  unfold takes_defaults, _enforce_subscribable_tiers. cbn zeta. destruct (hookpoint_meta r name) as [m|].
  - destruct (bool_decide_reflect (subscribable_tiers m = _DEFAULT_TIERS)) as [Hsub|Hsub]; simpl.
    + rewrite decide_False by (by intros ?). destruct (fail_closed m); simpl; [by eexists|done].
    + rewrite decide_True by done. by eexists.
  - destruct (strict_declarations r); simpl; [by eexists|done].
Qed.
Lemma cancel_timed_outcome self name ctx s :
  let out := timed r ctx (walk (cancel_step silent self name) (subscribers_for r name cancel))
    (fun f => _handle_chain_timeout silent left_over f name cancel false) (fun _ _ => raise CancelledError) s in
  out.1 = Err CancelledError \/ exists c, out.1 = Ok c.
Proof.
  cbn zeta. destruct (timed _ _ _ _ _ s) as [res0 s0] eqn:Ht.
  apply timed_inv in Ht as (res&f&s'&Hb&_&[(a&_&[= <- <-])|[Ht|(e&->&[= -> ->])]]); [by left|right|left].
  - unfold _handle_chain_timeout in Ht. destruct (match pending f with Some Running => _ | _ => _ end) as [b s1].
    unfold bind, emit, silent in Ht. injection Ht as <- <-. by eexists.
  - pose proof (cancel_walk_outcome self name (subscribers_for r name cancel)
      {| st := with_scopes ({| deadline := now s + chain_deadline_ms r; expired := false |} :: scopes s) s;
         chain_ctx := ctx; last_good_ctx := ctx; pending := None |}) as H. rewrite Hb in H. cbn in H. by destruct H as [?|[= ->]].
Qed.
End flow.

(** A cancellation of the block of [Flow.body] survives every hook: whatever the
    subscribers of the cancel stage do (fail, time out, substitute, nest), the flow raises
    [CancelledError], and the post and error stages have no part in it; unless the cancel
    hookpoint was declared with narrower tiers or as failing closed (or, in strict mode, not
    at all), for then the dispatch is refused as drift and a [HookError] replaces the
    cancellation. *)
Theorem cancellation_survives_the_hooks {G} `{!Gate G} (r : HookRegistry G) lo p p' e e' k ctx block s s1 :
  drive (invoke r silent lo []) block s = (Err CancelledError, s1) ->
  flow_body r silent lo [] p e k ctx block s = flow_body r silent lo [] p' e' k ctx block s /\
  if takes_defaults r k then (flow_body r silent lo [] p e k ctx block s).1 = Err CancelledError
  else exists w, (flow_body r silent lo [] p e k ctx block s).1 = Err (HookError w).
Proof.
  intros Hb. unfold flow_body. rewrite Hb. split; [done|]. unfold bind.
  destruct (invoke_dispatch r silent lo (default_call k ctx cancel (Some CancelledError)) s1) as [self ->];
    [apply bool_decide_eq_false; by intros [_ ?]|].
  unfold _dispatch_by_kind, _run_cancel, bind. cbn [c_kind c_name c_ctx c_exc c_subscribable c_fail_closed default_call].
  pose proof (enforce_defaults r k (for_stage k cancel ctx) cancel s1) as He. cbn zeta in He.
  destruct (takes_defaults r k).
  - rewrite He. cbn [default].
    pose proof (cancel_timed_outcome r lo self k (with_metadata ERROR_EXC_METADATA_KEY (ExcObject (Some CancelledError)) (for_stage k cancel ctx)) s1) as Ht.
    cbn zeta in Ht. destruct (timed _ _ _ _ _ s1) as [[c|x] s2]; [done|]. by destruct Ht as [[= ->]|[? ?]].
  - destruct He as [w He]. exists w. destruct (_enforce_subscribable_tiers _ _ _ _ _ _ _ _ s1) as [[[]|x] s2]; simpl in *; [done|congruence].
Qed.
Lemma cancellation_survives_the_hooks_witness :
  let r := lone 250 cancel "operator" (fun _ => Raise (Raised "SystemExit" false)) in
  drive (invoke r silent 0 []) (R := unit) (Raise CancelledError) at_zero = (Err CancelledError, at_zero) /\
  (flow_body r silent 0 [] "p" "e" "h" blank (Raise CancelledError) at_zero =
   flow_body r silent 0 [] "" "" "h" blank (Raise CancelledError) at_zero /\
   if takes_defaults r "h" then (flow_body r silent 0 [] "p" "e" "h" blank (Raise CancelledError) at_zero).1 = Err CancelledError
   else exists w, (flow_body r silent 0 [] "p" "e" "h" blank (Raise CancelledError) at_zero).1 = Err (HookError w)).
Proof.
  intros r. split; [reflexivity|]. exact (cancellation_survives_the_hooks r 0 "p" "" "e" "" "h" blank (Raise CancelledError) at_zero at_zero eq_refl).
Defined.
