(* ===== verification/DispatchLoop.v ===== *)
(** * [state/dispatch_loop.py]: the proposal dispatch cycle, and the loop that runs it

    One cycle walks what was merged into the policy repository since the last one, runs the
    handler of every proposal not yet in the ledger, records each outcome once, and only
    then moves the sentinel.  A cycle is a program of the state-and-error monad over the
    database; the [n]-th thing it asks of the outside (a transaction, a git command, an
    audit write, a scan, a handler) is answered by the environment at [n], which may fail,
    fail after having committed, or kill the process.  Strings are byte strings; log lines
    and clock readings are left out.  [json.loads] and the payload model's validation are
    one parameter, as are the handlers. *)
From S2P Require Import Prelude.
From Stdlib Require Import Strings.Ascii.

(** What the code tells apart among exceptions: the two families of SQLAlchemy's, the
    [TimeoutExpired] of a git command and its other failures, a scan's refusal, the cycle's
    own marker, any other [Exception], and a cancellation or a dying process. *)
Inductive exn :=
| OperationalError | OtherSQLAlchemyError | TimeoutExpired | GitError | HookRefusal (reason : string)
| _PostHandlerAuditFailure | OtherException | Killed.
#[export] Instance exn_eq_dec : EqDecision exn.
Proof. solve_decision. Defined.
Definition is_sql (e : exn) : bool := match e with OperationalError | OtherSQLAlchemyError => true | _ => false end.
Definition is_exception (e : exn) : bool := match e with Killed => false | _ => true end.

Inductive result_kind := Applied | FailedHandler | FailedParse | FailedUnknownType.
Inductive FailureKind := handler_returned_failed | handler_uncaught_exception | payload_validation | unknown_proposal_type | blob_not_found.

(** [ProcessedProposal]: the ledger, keyed by type and id. *)
Record row := { r_type : string; r_id : string; r_blob : string; r_commit : string; r_result : result_kind;
                r_failure_kind : option FailureKind; r_failure_detail : option string; r_operator : option string }.
Definition key : Type := string * string.
Definition row_key (r : row) : key := (r_type r, r_id r).

(** [_ProposalBlobRef] *)
Record _ProposalBlobRef := { proposal_type : string; proposal_id : string; blob_sha : string; commit_sha : string; content_path : string }.
Definition ref_key (f : _ProposalBlobRef) : key := (proposal_type f, proposal_id f).

Inductive skip_reason := postgres_unreachable | postgres_data_violation | git_subprocess_timeout | state_git_unreachable | postgres_error | audit_write_failed_post_handler | cycle_uncaught_exception.
(** The audit rows, with what tells them apart. *)
Inductive audit_entry :=
| Processed (k : key) (res : result_kind) (kind : option FailureKind)
| DispatchFailed (k : key) (res : result_kind) (kind : FailureKind)
| DetailRedacted (branch : string) (kind : FailureKind) (detail : string) (redactions : Z)
| DlpOutboundRefused (scan_rule_matched : string)
| DlpScanFailed (branch : string)
| CycleSkipped (why : skip_reason).

Inductive outcome := applied | failed (reason : option string).
Record payload := { operator_user_id : option string; component_id : string }.
Inductive loaded := Valid (p : payload) | JSONDecodeError | ValidationError | LoadRaised.

(** What happened, in order. *)
Inductive mark := Called (k : key) (p : payload) | Inserted (r : row) | Withheld (f : _ProposalBlobRef) | Bumped (h : string).

(** What the outside answers: a transaction or an audit write is fine, or raises, having
    committed or not. *)
Record Env (W : Type) := {
  db : nat -> option (bool * exn); writer : nat -> option (bool * exn);
  rev_parse : nat -> string -> exn + string;
  diff : nat -> string -> string -> exn + string;
  show : nat -> string -> string -> exn + string;
  scan : nat -> string -> exn + string;
  exn_name : nat -> string;
  handle : nat -> string -> payload -> W -> (exn + outcome) * W }.
Arguments db {W}. Arguments writer {W}. Arguments rev_parse {W}. Arguments diff {W}. Arguments show {W}. Arguments scan {W}.
Arguments exn_name {W}. Arguments handle {W}.

Record World (W : Type) := { processed : list row; entries : list audit_entry; head_sha : option string; trace : list mark; tick : nat; effects : W }.
Arguments processed {W}. Arguments entries {W}. Arguments head_sha {W}. Arguments trace {W}. Arguments tick {W}. Arguments effects {W}.
Arguments Build_World {W}.

(** ** Strings *)
(** [s.split(c)] *)
Fixpoint split_on (c : ascii) (s : string) : list string :=
  match s with
  | EmptyString => [""%string]
  | String a s' => if decide (a = c) then ""%string :: split_on c s'
                   else match split_on c s' with w :: l => String a w :: l | [] => [String a ""] end
  end.
(** [s[:-len(t)]] when [s.endswith(t)] *)
Fixpoint before (t s : string) : option string :=
  if decide (s = t) then Some ""%string
  else match s with EmptyString => None | String a s' => String a <$> before t s' end.
Definition is_hex (a : ascii) : bool := (("0" <=? a)%char && (a <=? "9")%char) || (("a" <=? a)%char && (a <=? "f")%char).
(** [_PROPOSAL_ID_RE.fullmatch] *)
Definition valid_id (s : string) : bool := (String.length s =? 16)%nat && forallb is_hex (String.list_ascii_of_string s).
(** [s[:512]] *)
Definition _redacted_detail (s : string) : string := String.substring 0 512 s.
Definition string_le (s t : string) : Prop := String.leb s t = true.
#[export] Instance string_le_dec : RelDecision string_le.
Proof. intros s t. apply bool_eq_dec. Defined.

(** [_PATH_PREFIX_TO_PAYLOAD]: the path prefixes and the [proposal_type] of their payload. *)
Definition _PATH_PREFIX_TO_PAYLOAD : list (string * string) := [("policies/breaker-resets", "breaker-reset")]%string.

(** The shape filter of [_walk_added_blobs]: [policies/<type>/<id>.json]. *)
Definition proposal_path (path : string) : option (string * string) :=
  match split_on "/" path with
  | [policies; dir_name; file] =>
      if decide (policies = "policies"%string) then
        match before ".json" file with
        | Some proposal_id => if negb (bool_decide (dir_name = ""%string)) && valid_id proposal_id then Some (dir_name, proposal_id) else None
        | None => None
        end
      else None
  | _ => None
  end.
Definition added_paths (out : string) : list string :=
  merge_sort string_le (filter (fun p => p <> ""%string) (split_on "000"%char out)).
(** [_build_blob_ref] *)
Definition type_of_dir (dir_name : string) : string := default dir_name (dict_get ("policies/" ++ dir_name)%string _PATH_PREFIX_TO_PAYLOAD).
Definition _build_blob_ref (path dir_name proposal_id blob commit : string) : _ProposalBlobRef :=
  {| proposal_type := type_of_dir dir_name; proposal_id := proposal_id; blob_sha := blob; commit_sha := commit; content_path := path |}.

(** [except e if p e: h e] *)
Definition catching {S A} (p : exn -> bool) (m : M S exn A) (h : exn -> M S exn A) : M S exn A :=
  fun s => match m s with (Err e, s') => if p e then h e s' else (Err e, s') | r => r end.

Section cycle.
Context {W : Type} (env : Env W) (handlers : list string) (load : string -> string -> loaded).
Abbreviation Cycle A := (M (World W) exn A).

Definition ticked (s : World W) : World W :=
  {| processed := processed s; entries := entries s; head_sha := head_sha s; trace := trace s; tick := S (tick s); effects := effects s |}.
(** Ask the outside. *)
Definition ask {A} (f : nat -> exn + A) : Cycle A := fun s =>
  match f (tick s) with inl e => (Err e, ticked s) | inr a => (Ok a, ticked s) end.
(** [async with session_scope()]: committed when the body ends, rolled back when it or the
    commit raises; a commit may also raise after the fact. *)
Definition session {A} (body : Cycle A) : Cycle A := fun s =>
  match db env (tick s), body (ticked s) with
  | _, (Err e, _) => (Err e, ticked s)
  | None, (Ok a, s') => (Ok a, s')
  | Some (committed, e), (Ok _, s') => (Err e, if committed : bool then s' else ticked s)
  end.
Definition add_entry (e : audit_entry) (s : World W) : World W :=
  {| processed := processed s; entries := entries s ++ [e]; head_sha := head_sha s; trace := trace s; tick := tick s; effects := effects s |}.
(** [ctx.audit_writer.append_schema] *)
Definition append_schema (e : audit_entry) : Cycle unit := fun s =>
  match writer env (tick s) with
  | None => (Ok tt, add_entry e (ticked s))
  | Some (committed, x) => (Err x, if committed : bool then add_entry e (ticked s) else ticked s)
  end.
Definition note (m : mark) : Cycle unit := modify (fun s =>
  {| processed := processed s; entries := entries s; head_sha := head_sha s; trace := trace s ++ [m]; tick := tick s; effects := effects s |}).

Definition _emit_cycle_skipped (why : skip_reason) : Cycle unit := catching is_exception (append_schema (CycleSkipped why)) (fun _ => ret tt).
(** [raise _PostHandlerAuditFailure from exc], on the exceptions of [p]. *)
Definition audited (p : exn -> bool) (e : audit_entry) : Cycle unit := catching p (append_schema e) (fun _ => raise _PostHandlerAuditFailure).

Definition _read_sentinel : Cycle (option string) := session (fun s => (Ok (head_sha s), s)).
Definition _bump_sentinel (h : string) : Cycle unit := session (modify (fun s =>
  {| processed := processed s; entries := entries s; head_sha := Some h; trace := trace s ++ [Bumped h]; tick := tick s; effects := effects s |})).
Definition is_processed (k : key) (s : World W) : bool := existsb (fun r => bool_decide (row_key r = k)) (processed s).
(** [session.add] of a ledger row: the primary key refuses a second. *)
Definition insert_row (r : row) : Cycle unit := fun s =>
  if is_processed (row_key r) s then (Err OtherSQLAlchemyError, s)
  else (Ok tt, {| processed := processed s ++ [r]; entries := entries s; head_sha := head_sha s; trace := trace s ++ [Inserted r]; tick := tick s; effects := effects s |}).
Definition make_row (f : _ProposalBlobRef) (res : result_kind) (kind : option FailureKind) (detail operator : option string) : row :=
  {| r_type := proposal_type f; r_id := proposal_id f; r_blob := blob_sha f; r_commit := commit_sha f; r_result := res;
     r_failure_kind := kind; r_failure_detail := detail; r_operator := operator |}.

Definition _record_applied (f : _ProposalBlobRef) (operator : option string) : Cycle unit :=
  session (insert_row (make_row f Applied None None operator)) ;;;
  audited is_exception (Processed (ref_key f) Applied None).

(** The failure detail after the scan and the truncation, with the count of redactions;
    [None] is a withheld detail, whose audit row is out. *)
Definition scan_detail (f : _ProposalBlobRef) (failure_detail : option string) : Cycle (option (option string * Z)) :=
  match failure_detail with
  | None => ret (Some (None, 0))
  | Some d =>
      catching is_exception
        (scanned <-- ask (fun n => scan env n d); ret (Some (Some (_redacted_detail scanned), if decide (scanned = d) then 0 else 1)))
        (fun e => match e with
                  | HookRefusal reason => audited is_sql (DlpOutboundRefused reason)
                  | _ => audited is_sql (DlpScanFailed (content_path f))
                  end ;;; note (Withheld f) ;;; ret None)
  end.
Definition _record_failure (f : _ProposalBlobRef) (res : result_kind) (kind : FailureKind) (failure_detail operator : option string) (framework_error : bool) : Cycle unit :=
  d <-- scan_detail f failure_detail;
  match d with
  | None => ret tt
  | Some (detail, redactions) =>
      session (insert_row (make_row f res (Some kind) detail operator) ;;;
               modify (add_entry (DetailRedacted (content_path f) kind (default ""%string detail) redactions))) ;;;
      audited is_sql (if framework_error then DispatchFailed (ref_key f) res kind else Processed (ref_key f) res (Some kind))
  end.

(** The call of the handler: what it raises and what it does. *)
Definition call_handler (f : _ProposalBlobRef) (p : payload) : Cycle (exn + outcome) :=
  note (Called (ref_key f) p) ;;;
  fun s => let '(o, w) := handle env (tick s) (proposal_type f) p (effects s) in
           (Ok o, {| processed := processed s; entries := entries s; head_sha := head_sha s; trace := trace s; tick := S (tick s); effects := w |}).
Definition class_name : Cycle string := ask (fun n => inr (exn_name env n)).

Definition _dispatch_one (f : _ProposalBlobRef) : Cycle unit :=
  existing <-- session (fun s => (Ok (is_processed (ref_key f) s), s));
  if existing : bool then ret tt else
  if negb (bool_decide (proposal_type f ∈ handlers)) then
    _record_failure f FailedUnknownType unknown_proposal_type None None true else
  (* [next] of an empty search: a RuntimeError leaves the coroutine *)
  if negb (bool_decide (proposal_type f ∈ snd <$> _PATH_PREFIX_TO_PAYLOAD)) then raise OtherException else
  raw <-- catching (fun e => bool_decide (e = GitError)) (raw <-- ask (fun n => show env n (commit_sha f) (content_path f)); ret (Some raw)) (fun _ => ret None);
  match raw with
  | None => _record_failure f FailedParse blob_not_found None None true
  | Some raw =>
      match load (proposal_type f) raw with
      | JSONDecodeError | ValidationError => name <-- class_name; _record_failure f FailedParse payload_validation (Some name) None true
      | LoadRaised => raise OtherException
      | Valid p =>
          o <-- call_handler f p;
          match o with
          | inl e => if is_exception e then name <-- class_name; _record_failure f FailedHandler handler_uncaught_exception (Some name) (operator_user_id p) true
                     else raise e
          | inr applied => _record_applied f (operator_user_id p)
          | inr (failed reason) => _record_failure f FailedHandler handler_returned_failed (Some (default ""%string reason)) (operator_user_id p) false
          end
      end
  end.

(** [_walk_added_blobs] *)
Fixpoint resolve_blobs (current : string) (paths : list string) : Cycle (list _ProposalBlobRef) :=
  match paths with
  | [] => ret []
  | path :: paths =>
      match proposal_path path with
      | None => resolve_blobs current paths
      | Some (dir_name, proposal_id) =>
          blob <-- ask (fun n => rev_parse env n (current ++ ":" ++ path)%string);
          refs <-- resolve_blobs current paths; ret (_build_blob_ref path dir_name proposal_id blob current :: refs)
      end
  end.
Definition _walk_added_blobs (last current : string) : Cycle (list _ProposalBlobRef) :=
  if decide (last = current) then ret [] else
  out <-- ask (fun n => diff env n last current); resolve_blobs current (added_paths out).

(** A failure the cycle turns into a skip, or one that leaves it. *)
Definition skip_git (e : exn) : option skip_reason :=
  match e with TimeoutExpired => Some git_subprocess_timeout | GitError => Some state_git_unreachable | _ => None end.
Definition skip_sql (e : exn) : option skip_reason :=
  match e with OperationalError => Some postgres_unreachable | OtherSQLAlchemyError => Some postgres_data_violation | _ => None end.
Definition skip_blob (e : exn) : option skip_reason :=
  match e with _PostHandlerAuditFailure => Some audit_write_failed_post_handler | _ => skip_sql e end.
Definition skip_bump (e : exn) : option skip_reason := if is_sql e then Some postgres_error else None.
Definition or_skip {A} (why : exn -> option skip_reason) (m : Cycle A) : Cycle (option A) := fun s =>
  match m s with
  | (Ok a, s') => (Ok (Some a), s')
  | (Err e, s') => match why e with Some w => (_emit_cycle_skipped w ;;; ret None) s' | None => (Err e, s') end
  end.
Definition then_ {A} (m : Cycle (option A)) (k : A -> Cycle unit) : Cycle unit :=
  a <-- m; match a with Some a => k a | None => ret tt end.

Fixpoint dispatch_all (refs : list _ProposalBlobRef) : Cycle (option unit) :=
  match refs with
  | [] => ret (Some tt)
  | f :: refs => a <-- or_skip skip_blob (_dispatch_one f); match a with Some _ => dispatch_all refs | None => ret None end
  end.

Definition _proposal_dispatch_cycle : Cycle unit :=
  then_ (or_skip skip_sql _read_sentinel) (fun last =>
  then_ (or_skip skip_git (ask (fun n => rev_parse env n "origin/main"%string))) (fun current =>
  match last with
  | None => then_ (or_skip skip_bump (_bump_sentinel current)) ret
  | Some last =>
      then_ (or_skip skip_git (_walk_added_blobs last current)) (fun added =>
      then_ (dispatch_all added) (fun _ =>
      then_ (or_skip skip_bump (_bump_sentinel current)) ret))
  end)).

(** The supervisor's loop: an exception that left the cycle is audited and the next cycle
    runs; only a kill ends it.  (The waits between cycles do not touch the state.) *)
Definition loop_step : Cycle unit :=
  catching is_exception _proposal_dispatch_cycle (fun _ => _emit_cycle_skipped cycle_uncaught_exception).
End cycle.

(** ** What a dispatch does to the database *)
Section laws.
Context {W : Type} (env : Env W) (handlers : list string) (load : string -> string -> loaded).
Abbreviation Cycle A := (M (World W) exn A).
Definition keys (s : World W) : list key := row_key <$> processed s.

(** [s'] is [s] with rows, marks and audit entries added. *)
Record ext (s s' : World W) (rows : list row) (marks : list mark) (es : list audit_entry) : Prop := {
  ext_processed : processed s' = processed s ++ rows; ext_trace : trace s' = trace s ++ marks;
  ext_entries : entries s' = entries s ++ es; ext_head : head_sha s' = head_sha s }.
Abbreviation same s s' := (ext s s' [] [] []).
Lemma same_refl s : same s s.
Proof. split; by rewrite ?app_nil_r. Qed.
Lemma same_ticked s : same s (ticked s).
Proof. split; cbn; by rewrite ?app_nil_r. Qed.
Lemma ext_trans s s1 s2 R M E R' M' E' : ext s s1 R M E -> ext s1 s2 R' M' E' -> ext s s2 (R ++ R') (M ++ M') (E ++ E').
Proof. intros [] []. split; [rewrite app_assoc..|]; congruence. Qed.
Lemma ext_same_l s s1 s2 R M E : same s s1 -> ext s1 s2 R M E -> ext s s2 R M E.
Proof. apply (ext_trans s s1 s2 [] [] []). Qed.
Lemma ext_same_r s s1 s2 R M E : ext s s1 R M E -> same s1 s2 -> ext s s2 R M E.
Proof. intros H1 H2. pose proof (ext_trans _ _ _ _ _ _ _ _ _ H1 H2) as H. by rewrite !app_nil_r in H. Qed.
Lemma ext_keys s s' R M E : ext s s' R M E -> keys s' = keys s ++ (row_key <$> R).
Proof. intros []. unfold keys. by rewrite ext_processed0, fmap_app. Qed.
Lemma same_keys s s' : same s s' -> keys s' = keys s.
Proof. intros H%ext_keys. by rewrite H, app_nil_r. Qed.
Lemma is_processed_iff k s : is_processed k s = true <-> k ∈ keys s.
Proof.
  unfold is_processed, keys. rewrite existsb_exists, list_elem_of_fmap. split.
  - intros (r&Hr&H%bool_decide_eq_true). exists r. split; [done|]. by apply list_elem_of_In.
  - intros (r&->&Hr). exists r. split; [by apply list_elem_of_In|]. by apply bool_decide_eq_true.
Qed.

Lemma ask_same {A} (f : nat -> exn + A) s res s' : ask f s = (res, s') ->
  same s s' /\ match res with Ok a => f (tick s) = inr a | Err e => f (tick s) = inl e end.
Proof. unfold ask. destruct (f (tick s)) eqn:Hf; intros [= <- <-]; split; try done; apply same_ticked. Qed.
Lemma session_read {A} (g : World W -> A) s res s' : session env (fun s => (Ok (g s), s)) s = (res, s') ->
  same s s' /\ match res with Ok a => a = g (ticked s) | Err _ => True end.
Proof. unfold session. destruct (db env (tick s)) as [[[] e]|]; intros [= <- <-]; split; try done; apply same_ticked. Qed.
Lemma append_entry e s res s' : append_schema env e s = (res, s') ->
  ext s s' [] [] [e] \/ same s s' /\ exists x, res = Err x.
Proof.
  unfold append_schema, add_entry. assert (H : ext s (add_entry e (ticked s)) [] [] [e]) by (split; cbn; by rewrite ?app_nil_r).
  destruct (writer env (tick s)) as [[[] x]|]; intros [= <- <-]; [by left|right; split; [apply same_ticked|eauto]|by left].
Qed.
Lemma audited_entry p e s res s' : audited env p e s = (res, s') ->
  exists es, ext s s' [] [] es /\ (res = Ok tt -> es = [e]).
Proof.
  unfold audited, catching, raise. destruct (append_schema env e s) as [[[]|x] s1] eqn:H; apply append_entry in H as [H|[H [? ?]]]; try done.
  - intros [= <- <-]. eauto.
  - destruct (p x); intros [= <- <-]; exists [e]; done.
  - destruct (p x); intros [= <- <-]; exists []; done.
Qed.

(** A transaction that inserts a row, with more of the same transaction. *)
Definition writes_row (body : Cycle unit) (r : row) : Prop := forall s res s', body s = (res, s') ->
  (exists x, res = Err x) \/ (row_key r ∉ keys s) /\ exists es, ext s s' [r] [Inserted r] es.
Lemma insert_writes r : writes_row (insert_row r) r.
Proof.
  intros s res s'. unfold insert_row. destruct (is_processed (row_key r) s) eqn:H; intros [= <- <-]; [by left; eauto|right].
  split; [rewrite <- is_processed_iff; congruence|]. exists []. split; cbn; by rewrite ?app_nil_r.
Qed.
Lemma insert_with_writes r e : writes_row (insert_row r ;;; modify (add_entry e)) r.
Proof.
  intros s res s'. unfold bind. destruct (insert_row r s) as [[[]|x] s1] eqn:H; apply insert_writes in H as [[x' H]|[Hk [es He]]]; try done;
    intros [= <- <-]; [|by left; eauto..].
  right. split; [done|]. exists (es ++ [e]). apply (ext_trans _ s1 _ [r] [Inserted r] es [] [] [e] He). split; cbn; by rewrite ?app_nil_r.
Qed.
Lemma session_writes body r s res s' : writes_row body r -> session env body s = (res, s') ->
  same s s' /\ (exists x, res = Err x) \/ (row_key r ∉ keys s) /\ exists es, ext s s' [r] [Inserted r] es.
Proof.
  intros Hb. unfold session. destruct (body (ticked s)) as [[[]|x] s1] eqn:H.
  - apply Hb in H as [[? ?]|[Hk [es He]]]; [done|]. pose proof (same_ticked s) as Ht.
    assert (Hs1 : (row_key r ∉ keys s) /\ exists es, ext s s1 [r] [Inserted r] es).
    { split; [by rewrite <- (same_keys _ _ Ht)|]. exists es. by eapply ext_same_l. }
    destruct (db env (tick s)) as [[[] e]|]; intros [= <- <-]; [by right|left; split; [done|eauto]|by right].
  - intros Hs. left. assert (res = Err x /\ s' = ticked s) as [-> ->] by (destruct (db env (tick s)) as [[[] ?]|]; by injection Hs as <- <-).
    split; [apply same_ticked|eauto].
Qed.
(** The record of an outcome: the row, then its audit entry. *)
Lemma record_row body r p e s res s' : writes_row body r -> (session env body ;;; audited env p e) s = (res, s') ->
  same s s' /\ (exists x, res = Err x) \/
  (row_key r ∉ keys s) /\ exists es, ext s s' [r] [Inserted r] es /\ (res = Ok tt -> e ∈ es).
Proof.
  intros Hb. unfold bind. destruct (session env body s) as [[[]|x] s1] eqn:H; apply (session_writes _ _ _ _ _ Hb) in H as [[H [? ?]]|[Hk [es He]]]; try done.
  - intros Ha. right. split; [done|]. apply audited_entry in Ha as (es'&He'&Hes'). exists (es ++ es').
    split; [by apply (ext_trans _ s1 _ [r] [Inserted r] es [] [] es')|]. intros ->. rewrite Hes' by done. set_solver.
  - intros [= <- <-]. left. split; [done|eauto].
  - intros [= <- <-]. right. split; [done|]. exists es. split; [done|]. discriminate.
Qed.

(** The audit entry of a row. *)
Definition audits (r : row) (e : audit_entry) : Prop :=
  e = Processed (row_key r) (r_result r) (r_failure_kind r) \/
  exists kind, r_failure_kind r = Some kind /\ e = DispatchFailed (row_key r) (r_result r) kind.
(** A withheld failure detail: its own audit entry, and a scan that did not answer. *)
Definition withheld (f : _ProposalBlobRef) (es : list audit_entry) : Prop :=
  (DlpScanFailed (content_path f) ∈ es \/ exists rule, DlpOutboundRefused rule ∈ es) /\ exists n d e, scan env n d = inl e.

Lemma scan_detail_spec f d s res s' : scan_detail env f d s = (res, s') ->
  match res with
  | Ok (Some _) => same s s'
  | Ok None => d <> None /\ exists es, ext s s' [] [Withheld f] es /\ withheld f es
  | Err _ => exists es, ext s s' [] [] es
  end.
Proof.
  unfold scan_detail. destruct d as [d|]; [|intros [= <- <-]; apply same_refl]. unfold catching, bind.
  destruct (ask (fun n => scan env n d) s) as [[a|e] s1] eqn:H; apply ask_same in H as [Hs Ha]; [intros [= <- <-]; done|].
  destruct (is_exception e); [|intros [= <- <-]; eauto].
  set (m := match e with HookRefusal reason => _ | _ => _ end).
  assert (Hm : exists ev, m = audited env is_sql ev /\ (ev = DlpScanFailed (content_path f) \/ exists rule, ev = DlpOutboundRefused rule)).
  { unfold m. destruct e; eauto. }
  destruct Hm as (ev&->&Hev). destruct (audited env is_sql ev s1) as [[[]|x] s2] eqn:H; apply audited_entry in H as (es&He&Hes).
  - intros [= <- <-]. specialize (Hes eq_refl) as ->. split; [done|]. exists [ev]. split; [|split; [|eauto]].
    + apply (ext_same_l _ s1); [done|]. destruct He. split; cbn; rewrite ?app_nil_r in *; congruence.
    + destruct Hev as [->|[rule ->]]; [left; constructor|right; exists rule; constructor].
  - intros [= <- <-]. exists es. by apply (ext_same_l _ s1).
Qed.

(** Recording a failure: withheld, not recorded and raising, or recorded. *)
Lemma record_failure_spec f resl kind d op fw s res s' : _record_failure env f resl kind d op fw s = (res, s') ->
  (exists e es, res = Err e /\ ext s s' [] [] es) \/
  (res = Ok tt /\ d <> None /\ exists es, ext s s' [] [Withheld f] es /\ withheld f es) \/
  (exists r es, ext s s' [r] [Inserted r] es /\ row_key r = ref_key f /\ (ref_key f ∉ keys s) /\ r_result r = resl /\ (res = Ok tt -> Exists (audits r) es)).
Proof.
  unfold _record_failure, bind at 1. destruct (scan_detail env f d s) as [[[[detail n]|]|e] s1] eqn:H; apply scan_detail_spec in H.
  - intros Hr. set (r := make_row f resl (Some kind) detail op) in *.
    apply (record_row _ r) in Hr as [[Hs [x ->]]|[Hk (es&He&Hin)]]; [| |apply insert_with_writes].
    + left. exists x, []. split; [done|]. by apply (ext_same_l _ s1).
    + right; right. exists r, es. split; [by apply (ext_same_l _ s1)|]. rewrite (same_keys _ _ H) in Hk. split_and!; [done..|].
      intros Hok. apply Exists_exists. eexists. split; [by apply Hin|]. unfold audits. destruct fw; [right; by exists kind|by left].
  - intros [= <- <-]. right; left. destruct H as [Hd H]. done.
  - intros [= <- <-]. destruct H as [es H]. left. by exists e, es.
Qed.
(** Why a row says what it says. *)
Definition explained (f : _ProposalBlobRef) (calls : list mark) (res : result_kind) : Prop :=
  match res with
  | FailedUnknownType => calls = [] /\ proposal_type f ∉ handlers
  | FailedParse => calls = []
  | Applied | FailedHandler =>
      exists p raw n m w, calls = [Called (ref_key f) p] /\ show env n (commit_sha f) (content_path f) = inr raw /\
        load (proposal_type f) raw = Valid p /\ ((handle env m (proposal_type f) p w).1 = inr applied <-> res = Applied)
  end.
Inductive one (f : _ProposalBlobRef) (s : World W) : result exn unit -> World W -> Prop :=
| one_done s' : same s s' -> ref_key f ∈ keys s -> one f s (Ok tt) s'
| one_nothing e s' calls es : ext s s' [] calls es -> calls = [] \/ (exists p, calls = [Called (ref_key f) p] /\ (ref_key f ∉ keys s)) -> one f s (Err e) s'
| one_withheld s' calls es : ext s s' [] (calls ++ [Withheld f]) es -> calls = [] \/ (exists p, calls = [Called (ref_key f) p]) ->
    (ref_key f ∉ keys s) -> withheld f es -> one f s (Ok tt) s'
| one_row res s' calls r es : ext s s' [r] (calls ++ [Inserted r]) es -> row_key r = ref_key f -> (ref_key f ∉ keys s) ->
    explained f calls (r_result r) -> (res = Ok tt -> Exists (audits r) es) -> one f s res s'.

Lemma one_same f s s1 res s' : same s s1 -> one f s1 res s' -> one f s res s'.
Proof.
  intros H. destruct 1; rewrite (same_keys _ _ H) in *.
  - apply one_done; [by eapply ext_same_l|done].
  - eapply one_nothing; [by eapply ext_same_l|]. done.
  - eapply one_withheld; [by eapply ext_same_l|done..].
  - eapply one_row; [by eapply ext_same_l|done..].
Qed.
(** A failure recorded after the calls [calls]. *)
Lemma failure_one f resl kind d op fw s s1 res s' calls : ext s s1 [] calls [] -> (ref_key f ∉ keys s) ->
  calls = [] \/ (exists p, calls = [Called (ref_key f) p]) -> explained f calls resl ->
  _record_failure env f resl kind d op fw s1 = (res, s') -> one f s res s'.
Proof.
  intros H Hk Hc Hex Hr. pose proof (ext_keys _ _ _ _ _ H) as Hk1. cbn in Hk1. rewrite app_nil_r in Hk1.
  apply record_failure_spec in Hr as [(e&es&->&He)|[(->&Hd&es&He&Hw)|(r&es&He&Hr&_&<-&Hau)]].
  - eapply one_nothing; [by apply (ext_trans _ s1 _ [] calls [] [] [] es)|]. rewrite app_nil_r. naive_solver.
  - eapply one_withheld; [by apply (ext_trans _ s1 _ [] calls [] [] [Withheld f] es)|done..].
  - eapply one_row; [by apply (ext_trans _ s1 _ [] calls [] [r] [Inserted r] es)|done..].
Qed.
Lemma dispatch_one_spec f s res s' : _dispatch_one env handlers load f s = (res, s') -> one f s res s'.
Proof.
  unfold _dispatch_one, bind at 1. destruct (session env _ s) as [[b|e] s1] eqn:H; apply session_read in H as [Hs Hb].
  2: { intros [= <- <-]. eapply one_nothing; [exact Hs|by left]. }
  destruct b.
  { intros [= <- <-]. apply one_done; [done|]. symmetry in Hb. rewrite is_processed_iff in Hb. done. }
  assert (Hk : ref_key f ∉ keys s) by (rewrite <- (is_processed_iff _ s); intros Ht; cbn in Hb; unfold is_processed in *; cbn in Hb; congruence). clear Hb.
  intros Hd. apply (one_same _ _ s1); [done|]. rewrite <- (same_keys _ _ Hs) in Hk. clear s Hs. rename s1 into s.
  case_bool_decide as Hh; cbn [negb] in Hd.
  2: { refine (failure_one _ _ _ _ _ _ s s _ _ [] _ _ _ _ Hd); [apply same_refl|done|by left|by split]. }
  case_bool_decide as Hp; cbn [negb] in Hd.
  2: { injection Hd as <- <-. eapply one_nothing; [apply same_refl|by left]. }
  unfold catching, bind at 1 2 in Hd.
  destruct (ask (fun n => show env n (commit_sha f) (content_path f)) s) as [[raw|e] s1] eqn:H; apply ask_same in H as [Hs Ha].
  2: { case_bool_decide; cbn [ret] in Hd; unfold ret in Hd; cbn iota in Hd; [|injection Hd as <- <-; eapply one_nothing; [exact Hs|by left]].
       refine (failure_one _ _ _ _ _ _ s s1 _ _ [] _ _ _ _ Hd); [done|done|by left|done]. }
  unfold ret in Hd; cbn iota in Hd. destruct (load (proposal_type f) raw) as [p| | |] eqn:Hl.
  - unfold bind at 1, call_handler, bind at 1, note, modify in Hd.
    destruct (handle env _ (proposal_type f) p _) as [o w] eqn:Hw. cbn iota in Hd.
    match type of Hd with _ ?s2 = _ => assert (Hs2 : ext s s2 [] [Called (ref_key f) p] []) end.
    { apply (ext_same_l _ s1); [done|]. split; cbn; by rewrite ?app_nil_r. }
    match type of Hd with _ ?s2 = _ => set (s2' := s2) in * end.
    assert (Hx : forall res, (o = inr applied <-> res = Applied) -> res = Applied \/ res = FailedHandler -> explained f [Called (ref_key f) p] res).
    { intros res0 Ho [-> | ->]; exists p, raw, (tick s); do 2 eexists; (split_and!; [done..|]); by rewrite Hw. }
    destruct o as [e|[|reason]].
    + destruct (is_exception e); [unfold bind at 1, class_name, ask in Hd; cbn iota in Hd|injection Hd as <- <-; eapply one_nothing; [exact Hs2|eauto]].
      apply (failure_one f FailedHandler handler_uncaught_exception (Some (exn_name env (tick s2'))) (operator_user_id p) true s (ticked s2') res s' [Called (ref_key f) p]);
        [by apply (ext_same_r _ s2'); [|apply same_ticked]|done|eauto|by apply Hx; auto|done].
    + apply (record_row _ (make_row f Applied None None (operator_user_id p))) in Hd as [[He [x ->]]|[_ (es&He&Hin)]]; [| |apply insert_writes].
      * eapply one_nothing; [by apply (ext_same_r _ s2')|eauto].
      * eapply one_row; [by apply (ext_trans _ s2' _ [] [Called (ref_key f) p] [] [_] [Inserted _] es)|done..|by apply Hx; auto|].
        intros Hok. apply Exists_exists. eexists. split; [by apply Hin|by left].
    + refine (failure_one _ _ _ _ _ _ s s2' _ _ [Called (ref_key f) p] _ _ _ _ Hd); [done|done|eauto|by apply Hx; auto].
  - unfold bind at 1, class_name, ask in Hd; cbn iota in Hd; refine (failure_one _ _ _ _ _ _ s (ticked s1) _ _ [] _ _ _ _ Hd); [by apply (ext_same_r _ s1); [|apply same_ticked]|done|by left|done].
  - unfold bind at 1, class_name, ask in Hd; cbn iota in Hd; refine (failure_one _ _ _ _ _ _ s (ticked s1) _ _ [] _ _ _ _ Hd); [by apply (ext_same_r _ s1); [|apply same_ticked]|done|by left|done].
  - injection Hd as <- <-. eapply one_nothing; [exact Hs|by left].
Qed.
(** ** Histories: each proposal is recorded once, and never handled after that *)
Definition inserted (tr : list mark) : list row := omap (fun m => match m with Inserted r => Some r | _ => None end) tr.
Definition handled (res : result_kind) : bool := match res with Applied | FailedHandler => true | _ => false end.
Inductive sound : list mark -> Prop :=
| sound_nil : sound []
| sound_called tr k p : sound tr -> k ∉ row_key <$> inserted tr -> sound (tr ++ [Called k p])
| sound_inserted tr r : sound tr -> row_key r ∉ row_key <$> inserted tr ->
    (handled (r_result r) = true -> exists tr' p, tr = tr' ++ [Called (row_key r) p]) -> sound (tr ++ [Inserted r])
| sound_withheld tr f : sound tr -> sound (tr ++ [Withheld f])
| sound_bumped tr h : sound tr -> sound (tr ++ [Bumped h]).
Definition wf (s : World W) : Prop := sound (trace s) /\ processed s = inserted (trace s).
Lemma inserted_app tr tr' : inserted (tr ++ tr') = inserted tr ++ inserted tr'.
Proof. apply omap_app. Qed.
Lemma wf_keys s : wf s -> keys s = row_key <$> inserted (trace s).
Proof. intros [_ H]. unfold keys. by rewrite H. Qed.

Lemma ext_wf s s' R M E : ext s s' R M E -> wf s -> inserted M = R -> (sound (trace s) -> sound (trace s ++ M)) -> wf s'.
Proof. intros [] [Hs Hp] HR HM. split; [rewrite ext_trace0; auto|]. rewrite ext_trace0, inserted_app, ext_processed0, Hp. by rewrite HR. Qed.
Lemma same_wf s s' : same s s' -> wf s -> wf s'.
Proof. intros H Hw. eapply ext_wf; [exact H|done|done|]. by rewrite app_nil_r. Qed.
Lemma one_wf f s res s' : one f s res s' -> wf s -> wf s'.
Proof.
  intros H Hw. pose proof (wf_keys _ Hw) as Hk. destruct H as [s' H _|e s' calls es H Hc|s' calls es H Hc Hf _|res s' calls r es H Hr Hf Hex _]; rewrite ?Hk in *.
  - by eapply same_wf.
  - destruct Hc as [->|(p&->&Hc)]; (eapply ext_wf; [exact H|done|done|]); rewrite ?app_nil_r; [done|]. by constructor.
  - destruct Hc as [->|(p&->)]; (eapply ext_wf; [exact H|done|done|]); cbn; [by constructor|]. intros Hs.
    change [Called (ref_key f) p; Withheld f] with ([Called (ref_key f) p] ++ [Withheld f]). rewrite app_assoc. by repeat constructor.
  - assert (Hc : calls = [] /\ handled (r_result r) = false \/ exists p, calls = [Called (ref_key f) p]).
    { destruct (r_result r) eqn:Hrr; cbn in Hex; [destruct Hex as (p&_&_&_&_&->&_); eauto..|left; split; [done|done]|destruct Hex; by left]. }
    destruct Hc as [[-> Hn]|(p&->)]; (eapply ext_wf; [exact H|done|done|]); cbn; intros Hs.
    + apply sound_inserted; [done|by rewrite Hr|]. by rewrite Hn.
    + change [Called (ref_key f) p; Inserted r] with ([Called (ref_key f) p] ++ [Inserted r]). rewrite app_assoc. apply sound_inserted; [by constructor| |].
      * rewrite inserted_app, app_nil_r. by rewrite Hr.
      * intros _. rewrite <- Hr. eauto.
Qed.

Lemma emit_skipped_spec why s res s' : _emit_cycle_skipped env why s = (res, s') ->
  exists es, ext s s' [] [] es /\ (res = Err Killed \/ res = Ok tt /\ (es = [CycleSkipped why] \/ writer env (tick s) <> None)).
Proof.
  unfold _emit_cycle_skipped, catching, ret. unfold append_schema, add_entry. pose proof (same_ticked s) as Ht.
  assert (H : ext s (add_entry (CycleSkipped why) (ticked s)) [] [] [CycleSkipped why]) by (split; cbn; by rewrite ?app_nil_r).
  destruct (writer env (tick s)) as [[[] x]|]; [destruct (is_exception x) eqn:Hx..|]; intros [= <- <-].
  1,2: exists [CycleSkipped why]; split; [done|]. 1: right; split; [done|by right]. 1: left; by destruct x.
  1,2: exists []; split; [done|]. 1: right; split; [done|by right]. 1: left; by destruct x.
  exists [CycleSkipped why]. split; [done|]. right. split; [done|by left].
Qed.
(** A step of the cycle that may become a skip. *)
Lemma or_skip_spec {A} why (m : Cycle A) s res s' : or_skip env why m s = (res, s') ->
  (exists a, m s = (Ok a, s') /\ res = Ok (Some a)) \/
  (exists e s1 es, m s = (Err e, s1) /\ ext s1 s' [] [] es /\ (forall a, res <> Ok (Some a)) /\
     (res = Ok None -> (exists w, es = [CycleSkipped w]) \/ writer env (tick s1) <> None /\ tick s' = S (tick s1)) /\
     (forall x, res = Err x -> x = Killed \/ x = e /\ why e = None)).
Proof.
  unfold or_skip. destruct (m s) as [[a|e] s1] eqn:Hm; [intros [= <- <-]; left; eauto|]. destruct (why e) as [w|] eqn:Hw.
  - unfold bind. destruct (_emit_cycle_skipped env w s1) as [[[]|x] s2] eqn:H; pose proof H as Ht;
      apply emit_skipped_spec in H as (es&He&Hr); intros [= <- <-]; right; exists e, s1, es; (split_and!; [done..| |]); try done.
    + intros _. destruct Hr as [Hr|[_ [->|Hr]]]; [done|by left; eauto|right]. split; [done|].
      unfold _emit_cycle_skipped, catching, append_schema, ret in Ht. destruct (writer env (tick s1)) as [[[] y]|]; [..|done];
        destruct (is_exception y); by simplify_eq/=.
    + intros x' [= <-]. destruct Hr as [[= ->]|[? _]]; [by left|done].
  - intros [= <- <-]. right. exists e, s1, []. split_and!; [done|apply same_refl|done|done|]. intros x [= <-]. by right.
Qed.

(** Every row but perhaps the last is audited. *)
Definition all_but_last_audited (R : list row) (E : list audit_entry) : Prop := forall R0 r R1, R = R0 ++ r :: R1 -> R1 <> [] -> Exists (audits r) E.
Lemma dispatch_all_spec refs s res s' : dispatch_all env handlers load refs s = (res, s') ->
  exists R M E, ext s s' R M E /\ all_but_last_audited R E /\ (wf s -> wf s') /\
    (res = Ok (Some tt) -> Forall (fun r => Exists (audits r) E) R /\
       Forall (fun f => ref_key f ∈ keys s' \/ Withheld f ∈ M /\ withheld f E) refs).
Proof.
  revert s res s'. induction refs as [|f refs IH]; intros s res s'.
  { intros [= <- <-]. exists [], [], []. split_and!; [apply same_refl|by intros [] ? ? ?|done|done]. }
  cbn [dispatch_all]. unfold bind. destruct (or_skip env skip_blob (_dispatch_one env handlers load f) s) as [a s1] eqn:H.
  apply or_skip_spec in H as [(u&Ho&->)|(e&s0&es&Ho&He&Hne&_&_)]; apply dispatch_one_spec in Ho as Hone; pose proof (one_wf _ _ _ _ Hone) as Hwf.
  - destruct u. intros Hd. apply IH in Hd as (R&M&E&Hext&Hlast&Hw&Hok). clear IH Ho.
    assert (H1 : exists R1 M1 E1, ext s s1 R1 M1 E1 /\ (R1 = [] \/ exists r, R1 = [r] /\ Exists (audits r) E1) /\
                 (ref_key f ∈ keys s1 \/ Withheld f ∈ M1 /\ withheld f E1)).
    { inversion Hone as [? Hs Hk|? ? ? ? Hs|? calls ? Hs Hc Hf Hwi|? ? calls r ? Hs Hr Hf Hex Hau]; subst.
      - exists [], [], []. split_and!; [done|by left|left]. by rewrite (same_keys _ _ Hs).
      - do 3 eexists. split_and!; [exact Hs|by left|right]. split; [set_solver|done].
      - do 3 eexists. split_and!; [exact Hs|right; eauto|left]. rewrite (ext_keys _ _ _ _ _ Hs). set_solver. }
    destruct H1 as (R1&M1&E1&Hext1&HR1&Hf). exists (R1 ++ R), (M1 ++ M), (E1 ++ E).
    split_and!; [by eapply ext_trans| |auto|].
    + intros R0 r R2 HR HR2. apply Exists_app. destruct HR1 as [->|(r1&->&Hr1)]; [right; by eapply Hlast|].
      destruct R0 as [|r0 R0]; cbn in HR; injection HR as -> HR; [by left|right; by eapply Hlast].
    + intros Hres. destruct (Hok Hres) as [HR Hrefs]. split.
      * apply Forall_app. split; [destruct HR1 as [->|(r1&->&Hr1)]; [constructor|apply Forall_singleton, Exists_app; by left]|].
        eapply Forall_impl; [exact HR|]. intros r Hr. apply Exists_app. by right.
      * constructor; [|eapply Forall_impl; [exact Hrefs|]]; unfold withheld; [|set_solver].
        rewrite (ext_keys _ _ _ _ _ Hext). unfold withheld in Hf. set_solver.
  - intros Hd. assert (s' = s1 /\ res <> Ok (Some tt)) as [-> Hres].
    { destruct a as [[[]|]|]; [by destruct (Hne tt)|by injection Hd as <- <-..]. }
    assert (H1 : exists R1 M1 E1, ext s s0 R1 M1 E1 /\ (R1 = [] \/ exists r, R1 = [r])).
    { inversion Hone; subst; do 3 eexists; (split; [eassumption|]); eauto. }
    destruct H1 as (R1&M1&E1&Hext1&HR1). exists (R1 ++ []), (M1 ++ []), (E1 ++ es). split_and!; [by eapply ext_trans| | |done].
    + intros R0 r R2 HR HR2. rewrite app_nil_r in HR. destruct HR1 as [->|[r1 ->]]; destruct R0 as [|? [|]], R2; simplify_eq; done.
    + intros Hw. eapply ext_wf; [exact He|auto|done|by rewrite app_nil_r].
Qed.

(** ** The cycle *)
Lemma resolve_spec cur paths s res s' : resolve_blobs env cur paths s = (res, s') ->
  same s s' /\ match res with
               | Ok refs => forall path dir id, path ∈ paths -> proposal_path path = Some (dir, id) ->
                   exists f, f ∈ refs /\ ref_key f = (type_of_dir dir, id) /\ content_path f = path
               | Err _ => True
               end.
Proof.
  revert s res s'. induction paths as [|p paths IH]; intros s res s'; [intros [= <- <-]; split; [apply same_refl|by intros ? ? ? ?%elem_of_nil]|].
  cbn [resolve_blobs]. destruct (proposal_path p) as [[dir id]|] eqn:Hp.
  - unfold bind. destruct (ask _ s) as [[b|e] s1] eqn:Ha; apply ask_same in Ha as [Hs _]; [|intros [= <- <-]; by split].
    destruct (resolve_blobs env cur paths s1) as [[refs|e] s2] eqn:Hr; apply IH in Hr as [Hs2 Hrefs]; intros [= <- <-];
      (split; [by eapply ext_same_l|]); [|done].
    intros path d i [->|Hin]%elem_of_cons Hd; [rewrite Hp in Hd; injection Hd as <- <-; eexists; split; [constructor|done]|].
    destruct (Hrefs _ _ _ Hin Hd) as (f&Hf&?). exists f. split; [by constructor|done].
  - intros Hr. apply IH in Hr as [Hs Hrefs]. split; [done|]. destruct res; [|done].
    intros path d i [->|Hin]%elem_of_cons Hd; [congruence|]. by eapply Hrefs.
Qed.
Lemma walk_spec last cur s res s' : _walk_added_blobs env last cur s = (res, s') ->
  same s s' /\ match res with
               | Ok refs => last = cur \/ exists n out, diff env n last cur = inr out /\
                   forall path dir id, path ∈ added_paths out -> proposal_path path = Some (dir, id) ->
                     exists f, f ∈ refs /\ ref_key f = (type_of_dir dir, id) /\ content_path f = path
               | Err _ => True
               end.
Proof.
  unfold _walk_added_blobs. case_decide; [intros [= <- <-]; split; [apply same_refl|by left]|]. unfold bind.
  destruct (ask _ s) as [[out|e] s1] eqn:Ha; apply ask_same in Ha as [Hs Ha]; [|intros [= <- <-]; by split].
  intros Hr. apply resolve_spec in Hr as [Hs' Hr]. split; [by eapply ext_same_l|]. destruct res; [|done]. right. eauto.
Qed.

(** The cycle's last word is a skip row, or its audit write failed. *)
Definition reported (s : World W) : Prop :=
  (exists w, last (entries s) = Some (CycleSkipped w)) \/ exists t, tick s = S t /\ writer env t <> None.
Lemma skip_reported s s1 es : ext s s1 [] [] es -> (exists w, es = [CycleSkipped w]) \/ writer env (tick s) <> None /\ tick s1 = S (tick s) -> reported s1.
Proof.
  intros [] [[w ->]|[H1 H2]]; [left; exists w|right; by exists (tick s)]. by rewrite ext_entries0, last_snoc.
Qed.
Lemma then_inv {A} (m : Cycle (option A)) k s res s' : then_ m k s = (res, s') ->
  (exists a s1, m s = (Ok (Some a), s1) /\ k a s1 = (res, s')) \/ (m s = (Ok None, s') /\ res = Ok tt) \/ (exists e, m s = (Err e, s') /\ res = Err e).
Proof. unfold then_, bind. destruct (m s) as [[[a|]|e] s1]; [by eauto|intros [= <- <-]; auto|intros [= <- <-]; eauto]. Qed.
Lemma step_or_stop {A} why (m : Cycle A) k s res s' : (forall r s1, m s = (r, s1) -> same s s1) -> then_ (or_skip env why m) k s = (res, s') ->
  (exists a s1, m s = (Ok a, s1) /\ same s s1 /\ k a s1 = (res, s')) \/ (exists es, ext s s' [] [] es /\ (res = Ok tt -> reported s')).
Proof.
  intros Hm. intros [(a&s1&H&Hk)|[[H ->]|(e&H&->)]]%then_inv;
    apply or_skip_spec in H as [(b&Hb&Heq)|(e'&s0&es&Hb&He&Hne&Hrep&_)]; simplify_eq; try by destruct (Hne a).
  - left. do 2 eexists. split_and!; [exact Hb|by eapply Hm|done].
  - right. exists es. split; [apply (ext_same_l _ s0); eauto|]. intros _. eapply skip_reported; [exact He|]. by apply Hrep.
  - right. exists es. split; [apply (ext_same_l _ s0); eauto|]. done.
Qed.

Inductive cycled (s : World W) : result exn unit -> World W -> Prop :=
| stopped res s' R M E : ext s s' R M E -> all_but_last_audited R E -> (wf s -> wf s') -> (res = Ok tt -> reported s') -> cycled s res s'
| advanced res s' cur R M E es : processed s' = processed s ++ R -> trace s' = trace s ++ M ++ [Bumped cur] -> entries s' = entries s ++ E ++ es ->
    head_sha s' = Some cur -> Forall (fun r => Exists (audits r) E) R -> (wf s -> wf s') ->
    match head_sha s with
    | None => R = []
    | Some last => last = cur \/ exists n out, diff env n last cur = inr out /\
        forall path dir id, path ∈ added_paths out -> proposal_path path = Some (dir, id) ->
          (type_of_dir dir, id) ∈ keys s' \/ exists f, Withheld f ∈ trace s' /\ content_path f = path /\ withheld f (entries s')
    end -> (res = Ok tt -> reported s' \/ last (trace s') = Some (Bumped cur)) -> cycled s res s'.

(** The last step: the sentinel moves, or it does not. *)
Lemma bump_spec cur s res s' : then_ (or_skip env skip_bump (_bump_sentinel env cur)) ret s = (res, s') ->
  exists es, processed s' = processed s /\ entries s' = entries s ++ es /\
    (ext s s' [] [] es /\ (res = Ok tt -> reported s') \/
     trace s' = trace s ++ [Bumped cur] /\ head_sha s' = Some cur /\ (res = Ok tt -> reported s' \/ last (trace s') = Some (Bumped cur))).
Proof.
  assert (Hb : forall r s1, _bump_sentinel env cur s = (r, s1) -> same s s1 /\ r <> Ok tt \/
            processed s1 = processed s /\ entries s1 = entries s /\ trace s1 = trace s ++ [Bumped cur] /\ head_sha s1 = Some cur).
  { intros r s1. unfold _bump_sentinel, session, modify. destruct (db env (tick s)) as [[[] e]|]; intros [= <- <-]; [by right|left|by right].
    split; [apply same_ticked|done]. }
  intros [(a&s1&H&Hk)|[[H ->]|(e&H&->)]]%then_inv; apply or_skip_spec in H as [(b&H&Heq)|(e'&s0&es&H&He&Hne&Hrep&_)]; simplify_eq; try by destruct (Hne a).
  - apply Hb in H as [[_ H]|(H1&H2&H3&H4)]; [by destruct b|]. injection Hk as <- <-. exists []. rewrite app_nil_r. split_and!; [done..|].
    right. split_and!; [done..|]. intros _. right. by rewrite H3, last_snoc.
  - apply Hb in H as [[H _]|(H1&H2&H3&H4)]; exists es; pose proof He as He'; destruct He as [Hp Ht Hen Hh]; rewrite ?app_nil_r in *.
    + destruct H as [Hp0 Ht0 Hen0 Hh0]; rewrite ?app_nil_r in *. split_and!; [congruence..|left]. split; [split; rewrite ?app_nil_r; congruence|].
      intros _. apply (skip_reported s0 s' es He'). by apply Hrep.
    + split_and!; [congruence..|right]. split_and!; [congruence..|]. intros _. left. apply (skip_reported s0 s' es He'). by apply Hrep.
  - apply Hb in H as [[H _]|(H1&H2&H3&H4)]; exists es; pose proof He as He'; destruct He as [Hp Ht Hen Hh]; rewrite ?app_nil_r in *.
    + destruct H as [Hp0 Ht0 Hen0 Hh0]; rewrite ?app_nil_r in *. split_and!; [congruence..|left]. split; [split; rewrite ?app_nil_r; congruence|done].
    + split_and!; [congruence..|right]. split_and!; [congruence..|done].
Qed.
Lemma bump_wf cur s s' : processed s' = processed s -> trace s' = trace s ++ [Bumped cur] -> wf s -> wf s'.
Proof. intros Hp Ht [H1 H2]. split; [rewrite Ht; by constructor|]. by rewrite Hp, Ht, inserted_app, app_nil_r. Qed.
Lemma bumped s s1 cur res s' R M E : ext s s1 R M E -> (wf s -> wf s1) -> Forall (fun r => Exists (audits r) E) R ->
  match head_sha s with
  | None => R = []
  | Some last => last = cur \/ exists n out, diff env n last cur = inr out /\
      forall path dir id, path ∈ added_paths out -> proposal_path path = Some (dir, id) ->
        (type_of_dir dir, id) ∈ keys s1 \/ exists f, Withheld f ∈ trace s1 /\ content_path f = path /\ withheld f (entries s1)
  end -> then_ (or_skip env skip_bump (_bump_sentinel env cur)) ret s1 = (res, s') -> cycled s res s'.
Proof.
  intros [Hp Ht Hen Hh] Hw Hau Hcov Hb. apply bump_spec in Hb as (es&Hp'&Hen'&[[He Hrep]|(Ht'&Hh'&Hrep)]).
  - eapply stopped; [apply (ext_trans _ s1 _ R M E [] [] es); [by split|done]| | |done].
    + intros R0 r R1 HR _. rewrite app_nil_r in HR. rewrite Forall_forall in Hau. apply Exists_app. left. apply Hau. rewrite HR. set_solver.
    + intros H. eapply ext_wf; [exact He|auto|done|by rewrite app_nil_r].
  - eapply (advanced _ _ _ _ R M E es); [congruence|rewrite Ht', Ht; by rewrite <- app_assoc|rewrite Hen', Hen; by rewrite <- app_assoc|done|done| | |done].
    + intros H. eapply bump_wf; eauto.
    + destruct (head_sha s); [|done]. destruct Hcov as [->|(n&out&Hd&Hcov)]; [by left|right]. exists n, out. split; [done|].
      intros path dir id H1 H2. unfold keys in *. rewrite Hp', Ht', Hen'. destruct (Hcov path dir id H1 H2) as [H|(f&Hf&Hc&Hwi)]; [by left|right].
      exists f. unfold withheld in *. set_solver.
Qed.
Lemma cycle_spec s res s' : _proposal_dispatch_cycle env handlers load s = (res, s') -> cycled s res s'.
Proof.
  unfold _proposal_dispatch_cycle. intros H. assert (Hstop : forall s1 es, same s s1 -> ext s1 s' [] [] es -> (res = Ok tt -> reported s') -> cycled s res s').
  { intros s1 es H1 H2 Hr. eapply stopped; [by eapply ext_same_l|by intros [] ? ? ?| |done]. intros Hw. eapply ext_wf; [exact H2|by eapply same_wf|done|by rewrite app_nil_r]. }
  apply step_or_stop in H as [(lasth&s1&Hl&Hs1&H)|(es&He&Hr)]; [|by eapply Hstop; [apply same_refl|..]|by intros r s1 [? _]%session_read].
  apply session_read in Hl as [_ Hl]. cbn in Hl.
  apply step_or_stop in H as [(cur&s2&Hc&Hs2&H)|(es&He&Hr)]; [|by eapply Hstop|by intros r ? [? _]%ask_same].
  assert (Hs : same s s2) by by eapply ext_same_l. rewrite Hl in H. destruct (head_sha s) as [lasth'|] eqn:Hh.
  - apply step_or_stop in H as [(refs&s3&Hwk&Hs3&H)|(es&He&Hr)]; [|by eapply Hstop|by intros r ? [? _]%walk_spec].
    apply walk_spec in Hwk as [_ Hwk]. assert (Hss3 : same s s3) by by eapply ext_same_l.
    apply then_inv in H as [([]&s4&Hd&H)|[[Hd ->]|(e&Hd&->)]]; pose proof Hd as Hd0; apply dispatch_all_spec in Hd as (R&M&E&Hext&Hlast&Hw&Hok).
    + destruct (Hok eq_refl) as [HR Hrefs]. eapply (bumped s s4 cur res s' R M E); [by eapply ext_same_l| |done| |done].
      { intros ?. apply Hw. by eapply same_wf. }
      rewrite Hh. destruct Hwk as [->|(n&out&Hdf&Hwk)]; [by left|right]. exists n, out. split; [done|]. intros path dir id H1 H2.
      destruct (Hwk path dir id H1 H2) as (f&Hf&Hk&Hcp). rewrite Forall_forall in Hrefs. rewrite <- Hk. destruct (Hrefs f Hf) as [?|[Hm Hwi]]; [by left|right].
      exists f. destruct Hext as [_ Ht Hen _]. rewrite Ht, Hen. unfold withheld in *. set_solver.
    + eapply stopped; [by eapply ext_same_l|done|intros ?; apply Hw; by eapply same_wf|]. intros _.
      clear - Hd0. revert s3 Hd0. induction refs as [|f refs IH]; intros s3; [done|]. cbn [dispatch_all]. unfold bind.
      destruct (or_skip env skip_blob (_dispatch_one env handlers load f) s3) as [[[[]|]|e] s5] eqn:H; [apply IH| |done].
      intros [= ->]. apply or_skip_spec in H as [(?&_&?)|(e&s0&es&_&He&_&Hrep&_)]; [done|]. eapply skip_reported; [exact He|by apply Hrep].
    + eapply stopped; [by eapply ext_same_l|done|intros ?; apply Hw; by eapply same_wf|done].
  - eapply (bumped s s2 cur res s' [] [] []); [done|by apply same_wf|done| |done]. by rewrite Hh.
Qed.

(** ** Runs of the loop *)
Abbreviation loop := (loop_step env handlers load).
Fixpoint run (n : nat) (s : World W) : World W := match n with O => s | S n => run n (loop s).2 end.
Definition start (h : option string) (w : W) : World W := {| processed := []; entries := []; head_sha := h; trace := []; tick := 0; effects := w |}.

Lemma cycled_wf s res s' : cycled s res s' -> wf s -> wf s'.
Proof. by destruct 1. Qed.
Lemma loop_spec s res s' : loop s = (res, s') ->
  exists res1 s1 es, cycled s res1 s1 /\ ext s1 s' [] [] es /\
    (res = res1 /\ s' = s1 /\ (forall e, res = Err e -> e = Killed) \/ (exists e, res1 = Err e) /\ (res = Ok tt -> reported s') /\ (forall e, res = Err e -> e = Killed)).
Proof.
  unfold loop_step, catching. destruct (_proposal_dispatch_cycle env handlers load s) as [r s1] eqn:H. apply cycle_spec in H.
  destruct r as [[]|e]; [intros [= <- <-]; exists (Ok tt), s1, []; split_and!; [done|apply same_refl|by left]|].
  destruct (is_exception e) eqn:He.
  - intros Hs. pose proof Hs as Hs0. exists (Err e), s1. apply emit_skipped_spec in Hs as (es&Hes&Hr). exists es. split_and!; [done|done|right]. split_and!; [eauto| |].
    + intros ->. destruct Hr as [?|[_ Hr]]; [done|]. eapply skip_reported; [exact Hes|]. destruct Hr as [->|Hr]; [by left; eauto|right; split; [done|]].
      unfold _emit_cycle_skipped, catching, append_schema, ret in Hs0. destruct (writer env (tick s1)) as [[[] y]|]; [..|done]; destruct (is_exception y); by simplify_eq/=.
    + intros x ->. by destruct Hr as [[= ->]|[? _]].
  - intros [= <- <-]. exists (Err e), s1, []. split_and!; [done|apply same_refl|left]. split_and!; [done..|]. intros x [= <-]. by destruct e.
Qed.
Lemma loop_wf s : wf s -> wf (loop s).2.
Proof.
  intros Hw. destruct (loop s) as [res s'] eqn:H. apply loop_spec in H as (r&s1&es&Hc&He&_). apply (cycled_wf _ _ _ Hc) in Hw.
  eapply ext_wf; [exact He|done|done|by rewrite app_nil_r].
Qed.
Lemma cycles_wf n s : wf s -> wf (run n s).
Proof. revert s. induction n as [|n IH]; intros s Hw; [done|]. by apply IH, loop_wf. Qed.

Lemma sound_nodup tr : sound tr -> NoDup (row_key <$> inserted tr).
Proof.
  induction 1; [constructor|..]; rewrite inserted_app, ?app_nil_r; try done. rewrite fmap_app. apply NoDup_app. split_and!; [done| |apply NoDup_singleton].
  intros k Hk ->%list_elem_of_singleton. done.
Qed.
Lemma snoc_split {A} (tr a b : list A) m x : tr ++ [m] = a ++ x :: b -> (b = [] /\ a = tr /\ x = m) \/ exists b', b = b' ++ [m] /\ tr = a ++ x :: b'.
Proof.
  destruct b as [|y b _] using rev_ind; intros H.
  - apply app_inj_tail in H as [-> ->]. auto.
  - rewrite app_comm_cons, app_assoc in H. apply app_inj_tail in H as [-> ->]. right. eauto.
Qed.
Lemma sound_calls tr : sound tr -> forall a k p b, tr = a ++ Called k p :: b -> k ∉ row_key <$> inserted a.
Proof.
  induction 1 as [|tr k0 p0 Hs IH Hk|tr r Hs IH Hk Hh|tr f Hs IH|tr h Hs IH]; intros a k p b Heq; [by destruct a|..];
    apply snoc_split in Heq as [(->&->&[= -> ->])|(b'&->&->)]; eauto.
Qed.
Lemma sound_rows tr : sound tr -> forall r, r ∈ inserted tr -> handled (r_result r) = true -> exists a p b, tr = a ++ Called (row_key r) p :: Inserted r :: b.
Proof.
  induction 1 as [|tr k0 p0 Hs IH Hk|tr r0 Hs IH Hk Hh|tr f Hs IH|tr h Hs IH]; intros r Hr Hres; [by apply elem_of_nil in Hr|..];
    rewrite inserted_app in Hr; apply elem_of_app in Hr as [Hr|Hr]; try by apply elem_of_nil in Hr.
  1,2,4,5: destruct (IH r Hr Hres) as (a&p&b&->); exists a, p; eexists; rewrite <- app_assoc; reflexivity.
  apply list_elem_of_singleton in Hr as ->. destruct (Hh Hres) as (tr'&p&->). exists tr', p, []. by rewrite <- app_assoc.
Qed.

(** C35: through any number of cycles, failed transactions, commits that report failure, and
    kills at any point: the ledger has at most one row for a proposal, and a handler is never
    called for a proposal after its row is in; and a row that says the handler applied it or
    failed was written right after a call of the handler for that very proposal. *)
Theorem each_proposal_is_settled_once n h w :
  let s := run n (start h w) in
  NoDup (keys s) /\
  (forall a k p b, trace s = a ++ Called k p :: b -> k ∉ row_key <$> inserted a) /\
  (forall r, r ∈ processed s -> handled (r_result r) = true -> exists a p b, trace s = a ++ Called (row_key r) p :: Inserted r :: b).
Proof.
  intros s. assert (Hw : wf s) by (apply cycles_wf; split; [constructor|done]). rewrite (wf_keys _ Hw). destruct Hw as [Hs ->].
  split_and!; [by apply sound_nodup|by apply sound_calls|by apply sound_rows].
Qed.

(** The sentinel moves past nothing that is not settled: if a cycle leaves it elsewhere
    (and it was not being set for the first time), then each proposal of the diff it walked
    is in the ledger, or its failure detail was withheld by the scanner and that has its own
    audit row; and each row the cycle wrote has its audit entry. *)
Theorem sentinel_moves_past_settled_proposals s :
  let s' := (_proposal_dispatch_cycle env handlers load s).2 in
  head_sha s' = head_sha s \/
  exists cur, head_sha s' = Some cur /\
    match head_sha s with
    | None => processed s' = processed s
    | Some last => exists n out, diff env n last cur = inr out /\
        forall path dir id, path ∈ added_paths out -> proposal_path path = Some (dir, id) ->
          (type_of_dir dir, id) ∈ keys s' \/ exists f, Withheld f ∈ trace s' /\ content_path f = path /\ withheld f (entries s')
    end /\
    forall r, r ∈ processed s' -> r ∈ processed s \/ Exists (audits r) (entries s').
Proof.
  cbn zeta. destruct (_proposal_dispatch_cycle env handlers load s) as [res s'] eqn:H. apply cycle_spec in H. cbn.
  destruct H as [res s' R M E [_ _ _ Hh] _ _ _|res s' cur R M E es Hp Ht He Hh Hau Hw Hcov Hrep]; [by left|].
  assert (Hrows : forall r, r ∈ processed s' -> r ∈ processed s \/ Exists (audits r) (entries s')).
  { intros r. rewrite Hp, He. rewrite Forall_forall in Hau. intros [?|Hr]%elem_of_app; [by left|right]. apply Exists_app. right. apply Exists_app. left. by apply Hau. }
  destruct (head_sha s) as [last|] eqn:Hs; [destruct Hcov as [->|Hcov]; [by left|]|]; right; exists cur; split_and!; try done.
  by rewrite Hp, Hcov, app_nil_r.
Qed.

(** Only a kill ends the loop, and no cycle aborts in silence: it ends with the sentinel
    set, or its last word to the audit log is a skip row (or that write failed), even when
    an exception left the cycle; and a row whose audit entry failed is the last thing the
    cycle records. *)
Theorem no_cycle_aborts_in_silence s :
  let '(res, s') := loop s in
  match res with Ok _ => reported s' \/ exists cur, last (trace s') = Some (Bumped cur) | Err e => e = Killed end /\
  exists R E, processed s' = processed s ++ R /\ entries s' = entries s ++ E /\ all_but_last_audited R E.
Proof.
  destruct (loop s) as [res s'] eqn:H. apply loop_spec in H as (r1&s1&es&Hc&[Hp _ Hen _]&Hres). split.
  - destruct Hres as [(<-&<-&Hk)|(Hk1&Hrep&Hk)]; destruct res as [u|e]; [|by apply Hk|by left; destruct u; apply Hrep|by apply Hk].
    revert Hc. destruct u. remember (Ok tt) as r1 eqn:Hr. destruct 1 as [res s' R M E _ _ _ Hrep|res s' cur R M E es' _ _ _ _ _ _ _ Hrep]; [left|]; subst; auto.
    destruct (Hrep eq_refl); [by left|right; eauto].
  - destruct Hc as [res1 s1 R M E [Hp1 _ He1 _] Hau _ _|res1 s1 cur R M E es' Hp1 _ He1 _ Hau _ _ _].
    + exists R, (E ++ es). split_and!; [by rewrite Hp, app_nil_r|by rewrite Hen, He1, app_assoc|].
      intros R0 r R1 HR HR1. apply Exists_app. left. by eapply Hau.
    + exists R, (E ++ es' ++ es). split_and!; [by rewrite Hp, app_nil_r|by rewrite Hen, He1, <- !app_assoc|].
      intros R0 r R1 HR _. apply Exists_app. left. rewrite Forall_forall in Hau. apply Hau. rewrite HR. set_solver.
Qed.

(** ** A healthy cycle *)
(** Nothing outside fails, no handler dies, and what the repository shows can be loaded. *)
Record healthy : Prop := {
  fine_db : forall n, db env n = None; fine_writer : forall n, writer env n = None;
  fine_rev : forall n x, exists sha, rev_parse env n x = inr sha; fine_diff : forall n a b, exists out, diff env n a b = inr out;
  fine_show : forall n c p, exists raw, show env n c p = inr raw /\ forall t, load t raw <> LoadRaised;
  fine_scan : forall n d, exists d', scan env n d = inr d'; fine_handle : forall n t p w, (handle env n t p w).1 <> inl Killed;
  fine_registry : forall t, t ∈ handlers -> t ∈ snd <$> _PATH_PREFIX_TO_PAYLOAD }.
Hypothesis Hfine : healthy.

Definition returns {A} (m : Cycle A) (s : World W) : Prop := exists a s', m s = (Ok a, s').
Lemma ask_fine {A} (f : nat -> exn + A) (s : World W) a : f (tick s) = inr a -> ask f s = (Ok a, ticked s).
Proof. unfold ask. by intros ->. Qed.
Lemma session_fine {A} (body : Cycle A) s a s' : body (ticked s) = (Ok a, s') -> session env body s = (Ok a, s').
Proof. unfold session. rewrite (fine_db Hfine). by intros ->. Qed.
Lemma audited_fine p e s : audited env p e s = (Ok tt, add_entry e (ticked s)).
Proof. unfold audited, catching, append_schema. by rewrite (fine_writer Hfine). Qed.
Lemma insert_fine r (s : World W) : is_processed (row_key r) s = false -> exists s', insert_row r s = (Ok tt, s').
Proof. unfold insert_row. intros ->. eauto. Qed.
Lemma record_failure_fine f resl kind d op fw s : is_processed (ref_key f) s = false -> returns (_record_failure env f resl kind d op fw) s.
Proof.
  intros Hk. unfold returns, _record_failure. assert (H : exists x s1, scan_detail env f d s = (Ok (Some x), s1) /\ processed s1 = processed s).
  { unfold scan_detail. destruct d as [d|]; [|eexists _, s; done]. unfold catching, bind. destruct (fine_scan Hfine (tick s) d) as [d' Hd].
    rewrite (ask_fine _ _ d') by done. eexists _, _. done. }
  destruct H as ((detail&n)&s1&H&Hp). unfold bind at 1. rewrite H. set (r := make_row f resl (Some kind) detail op).
  destruct (insert_fine r (ticked s1)) as [s2 H2]; [unfold is_processed in *; cbn; by rewrite Hp|].
  unfold bind at 1. erewrite session_fine; [|unfold bind; rewrite H2; reflexivity]. rewrite audited_fine. eauto.
Qed.
Lemma dispatch_one_fine f s : returns (_dispatch_one env handlers load f) s.
Proof.
  unfold returns, _dispatch_one, bind at 1. erewrite session_fine by reflexivity. destruct (is_processed (ref_key f) (ticked s)) eqn:Hk; [by eexists _, _|].
  case_bool_decide as Hh; cbn [negb]; [|by apply record_failure_fine]. rewrite bool_decide_eq_true_2 by by apply (fine_registry Hfine). cbn [negb].
  destruct (fine_show Hfine (tick (ticked s)) (commit_sha f) (content_path f)) as (raw&Hr&Hl). unfold catching, bind at 1 2. rewrite (ask_fine _ _ raw) by done.
  unfold ret at 1; cbn iota. specialize (Hl (proposal_type f)). destruct (load (proposal_type f) raw) as [p| | |]; try done; try by apply record_failure_fine.
  unfold bind at 1, call_handler, bind at 1, note, modify. match goal with |- context [handle env ?n ?t p ?w] => pose proof (fine_handle Hfine n t p w) as Hd; destruct (handle env n t p w) as [o w'] end.
  cbn iota. destruct o as [e|[|reason]]; cbn in Hd; [|unfold _record_applied, bind; match goal with |- context [session env (insert_row ?r) ?s1] =>
    destruct (insert_fine r (ticked s1)) as [s2 H2]; [exact Hk|] end; erewrite session_fine by exact H2; rewrite audited_fine; eauto|by apply record_failure_fine].
  assert (is_exception e = true) as -> by by destruct e. by apply record_failure_fine.
Qed.
Lemma dispatch_all_fine refs s : exists s', dispatch_all env handlers load refs s = (Ok (Some tt), s').
Proof.
  revert s. induction refs as [|f refs IH]; intros s; [by eexists|]. cbn [dispatch_all]. unfold bind, or_skip.
  destruct (dispatch_one_fine f s) as ([]&s1&->). apply IH.
Qed.
Lemma resolve_fine cur paths s : returns (resolve_blobs env cur paths) s.
Proof.
  unfold returns. revert s. induction paths as [|p paths IH]; intros s; [by eexists _, _|]. cbn [resolve_blobs]. destruct (proposal_path p) as [[dir id]|]; [|apply IH].
  unfold bind. destruct (fine_rev Hfine (tick s) (cur ++ ":" ++ p)%string) as [sha Hs]. rewrite (ask_fine _ _ sha) by done.
  destruct (IH (ticked s)) as (refs&s2&->). by eexists _, _.
Qed.
Lemma bump_fine cur s : exists s', then_ (or_skip env skip_bump (_bump_sentinel env cur)) ret s = (Ok tt, s') /\ head_sha s' = Some cur.
Proof. unfold then_, bind, or_skip, _bump_sentinel. erewrite session_fine by reflexivity. eexists. split; [reflexivity|done]. Qed.

(** One healthy cycle catches up, whatever state earlier failures, kills and refused
    scans left: it returns, the sentinel is what the main branch resolved to, and every
    proposal that was merged since the old sentinel has its row in the ledger. *)
Theorem healthy_cycle_catches_up s :
  let '(res, s') := _proposal_dispatch_cycle env handlers load s in
  res = Ok tt /\ exists cur n, rev_parse env n "origin/main" = inr cur /\ head_sha s' = Some cur /\
    forall last, head_sha s = Some last -> last = cur \/ exists m out, diff env m last cur = inr out /\
      forall path dir id, path ∈ added_paths out -> proposal_path path = Some (dir, id) -> (type_of_dir dir, id) ∈ keys s'.
Proof.
  assert (H : exists s' cur n, _proposal_dispatch_cycle env handlers load s = (Ok tt, s') /\ rev_parse env n "origin/main" = inr cur /\ head_sha s' = Some cur).
  { unfold _proposal_dispatch_cycle. unfold then_ at 1, bind at 1, or_skip at 1, _read_sentinel. erewrite session_fine by reflexivity.
    unfold then_ at 1, bind at 1, or_skip at 1. destruct (fine_rev Hfine (tick (ticked s)) "origin/main") as [cur Hc]. rewrite (ask_fine _ _ cur) by done.
    destruct (head_sha (ticked s)) as [last|].
    2: { destruct (bump_fine cur (ticked (ticked s))) as (s'&->&?). by exists s', cur, (tick (ticked s)). }
    unfold then_ at 1, bind at 1, or_skip at 1. assert (Hw : returns (_walk_added_blobs env last cur) (ticked (ticked s))).
    { unfold returns, _walk_added_blobs. case_decide; [by eexists _, _|]. unfold bind. destruct (fine_diff Hfine (tick (ticked (ticked s))) last cur) as [out Ho].
      rewrite (ask_fine _ _ out) by done. apply resolve_fine. }
    destruct Hw as (refs&s3&->). unfold then_ at 1, bind at 1. destruct (dispatch_all_fine refs s3) as [s4 ->].
    destruct (bump_fine cur s4) as (s'&->&?). by exists s', cur, (tick (ticked s)). }
  destruct H as (s'&cur&n&Hc&Hn&Hh). rewrite Hc. split; [done|]. exists cur, n. split_and!; [done..|]. intros last Hlast.
  apply cycle_spec in Hc. inversion Hc as [? ? R M E [_ _ _ Hh'] _ _ Hrep|? ? cur' R M E es _ _ _ Hh' _ _ Hcov _]; subst; [left; congruence|].
  rewrite Hlast in Hcov. assert (cur' = cur) as -> by congruence. destruct Hcov as [->|(m&out&Hd&Hcov)]; [by left|right]. exists m, out. split; [done|].
  intros path dir id H1 H2. destruct (Hcov path dir id H1 H2) as [?|(f&_&_&_&(n'&d&e&Hscan))]; [done|]. destruct (fine_scan Hfine n' d) as [d' Hd']. congruence.
Qed.
End laws.

(** A repository with one reset to apply and one proposal of a type without a handler. *)
Definition sample_paths : string := "policies/breaker-resets/0123456789abcdef.json" ++ String "000" ("policies/grants/web/0123456789abcdef.json" ++ String "000" ("policies/config/00000000000000aa.json" ++ String "000" "")).
Definition sample_env : Env unit := {|
  db := fun _ => None; writer := fun _ => None; rev_parse := fun _ x => inr (if decide (x = "origin/main"%string) then "h2" else "b")%string;
  diff := fun _ _ _ => inr sample_paths; show := fun _ _ _ => inr "{}"%string; scan := fun _ d => inr d; exn_name := fun _ => "ValueError"%string;
  handle := fun _ _ _ w => (inr applied, w) |}.
Definition sample_load : string -> string -> loaded := fun _ _ => Valid {| operator_user_id := Some "ana"%string; component_id := "web"%string |}.
Lemma sample_healthy : healthy sample_env ["breaker-reset"%string] sample_load.
Proof.
  split; intros; cbn; eauto.
Qed.
Lemma healthy_cycle_catches_up_witness :
  keys (_proposal_dispatch_cycle sample_env ["breaker-reset"%string] sample_load (start (Some "h1"%string) tt)).2 =
    [("breaker-reset", "0123456789abcdef"); ("config", "00000000000000aa")]%string /\
  let '(res, s') := _proposal_dispatch_cycle sample_env ["breaker-reset"%string] sample_load (start (Some "h1"%string) tt) in
  res = Ok tt /\ exists cur n, rev_parse sample_env n "origin/main" = inr cur /\ head_sha s' = Some cur /\
    forall last, head_sha (start (Some "h1"%string) tt) = Some last -> last = cur \/ exists m out, diff sample_env m last cur = inr out /\
      forall path dir id, path ∈ added_paths out -> proposal_path path = Some (dir, id) -> (type_of_dir dir, id) ∈ keys s'.
Proof.
  split; [vm_compute; reflexivity|].
  exact (healthy_cycle_catches_up sample_env ["breaker-reset"%string] sample_load sample_healthy (start (Some "h1"%string) tt)).
Defined.

(** The same repository, where the handler fails and the scanner refuses its reason. *)
Definition refusing_env : Env unit := {|
  db := db sample_env; writer := writer sample_env; rev_parse := rev_parse sample_env; diff := diff sample_env; show := show sample_env;
  scan := fun _ _ => inl (HookRefusal "canary"); exn_name := exn_name sample_env;
  handle := fun _ _ _ w => (inr (failed (Some "no such component"%string)), w) |}.
(** What a cycle with nothing new to walk keeps. *)
Lemma idle_cycle s : head_sha s = Some "h2"%string ->
  let s' := (loop_step refusing_env ["breaker-reset"%string] sample_load s).2 in
  head_sha s' = Some "h2"%string /\ processed s' = processed s /\ entries s' = entries s /\ trace s' = trace s ++ [Bumped "h2"%string].
Proof. destruct s as [p e h tr t w]. cbn. intros ->. done. Qed.

Definition vanished (s : World unit) : Prop :=
  head_sha s = Some "h2"%string /\ keys s = [("config", "00000000000000aa")]%string /\
  entries s = [DlpOutboundRefused "canary"; DetailRedacted "policies/config/00000000000000aa.json" unknown_proposal_type "" 0;
               DispatchFailed ("config", "00000000000000aa")%string FailedUnknownType unknown_proposal_type] /\
  omap (fun m => match m with Called k _ => Some k | _ => None end) (trace s) = [("breaker-reset", "0123456789abcdef")]%string.
Lemma first_cycle : vanished (loop_step refusing_env ["breaker-reset"%string] sample_load (start (Some "h1"%string) tt)).2.
Proof. unfold vanished. split_and!; vm_compute; reflexivity. Qed.
Lemma run_next {W} (env : Env W) handlers load n s : run env handlers load (S n) s = run env handlers load n (loop_step env handlers load s).2.
Proof. done. Qed.
Lemma vanished_run n s : vanished s -> vanished (run refusing_env ["breaker-reset"%string] sample_load n s).
Proof.
  revert s. induction n as [|n IH]; intros s (Hh&Hk&He&Ht); [done|]. cbn [run]. apply IH.
  destruct (idle_cycle s Hh) as (Hh'&Hp'&He'&Ht'). unfold vanished, keys in *. rewrite Hp', He', Ht', omap_app, Ht, app_nil_r. done.
Qed.

(** A failed proposal can vanish: in this repository the handler of a breaker reset
    fails, the scanner refuses its reason, and the cycle moves on: however many cycles
    follow, the handler has been called once, the ledger has no row for the proposal, and
    the one audit entry of the refusal does not say which proposal it was. *)
Theorem withheld_proposal_vanishes n :
  let s' := run refusing_env ["breaker-reset"%string] sample_load (S n) (start (Some "h1"%string) tt) in
  head_sha s' = Some "h2"%string /\ keys s' = [("config", "00000000000000aa")]%string /\
  entries s' = [DlpOutboundRefused "canary"; DetailRedacted "policies/config/00000000000000aa.json" unknown_proposal_type "" 0;
                DispatchFailed ("config", "00000000000000aa")%string FailedUnknownType unknown_proposal_type] /\
  omap (fun m => match m with Called k _ => Some k | _ => None end) (trace s') = [("breaker-reset", "0123456789abcdef")]%string.
Proof. intros s'. change (vanished s'). unfold s'. rewrite run_next. apply vanished_run, first_cycle. Qed.
