(* ===== verification/EgressId.v ===== *)
(** * [egress/egress_id.py]: the identities of an outgoing request

    The deduplication key of an egress call and the digest of what it sends.  A [str] is
    its UTF-8 encoding; [hashlib.sha256(..).hexdigest()] is a parameter, and what the code
    relies on, that equal digests have equal preimages, is the hypothesis [sha256_inj]. *)
From S2P Require Import Prelude.
From Stdlib Require Import Strings.Ascii Strings.Byte DecimalString DecimalZ.

Record TurnEgressContext := { adapter_id : string; inbound_id : string; session_id : string }.

(** [n.to_bytes(w, "big")], which raises [OverflowError] from [256 ** w] on. *)
Fixpoint big_endian (w : nat) (n : Z) : list byte :=
  match w with
  | O => []
  | S w => big_endian w (n / 256) ++ [default x00 (Byte.of_N (Z.to_N (n mod 256)))]
  end.
Definition to_bytes (w : nat) (n : Z) : option (list byte) := if (0 <=? n) && (n <? 256 ^ Z.of_nat w) then Some (big_endian w n) else None.

Definition utf8 (s : string) : list byte := String.list_byte_of_string s.
Fixpoint _length_prefixed (fields : list string) : option (list byte) :=
  match fields with
  | [] => Some []
  | field :: fields =>
      let raw := utf8 field in
      prefix ← to_bytes 8 (Zlen raw); rest ← _length_prefixed fields; Some (prefix ++ raw ++ rest)
  end.

(** [format(n, "d")] *)
Definition decimal (n : Z) : string := NilEmpty.string_of_int (Z.to_int n).
(** [s.lower()] on the ASCII names of headers. *)
Definition lower_char (a : ascii) : ascii :=
  if (65 <=? Z.of_N (N_of_ascii a)) && (Z.of_N (N_of_ascii a) <=? 90) then ascii_of_N (N_of_ascii a + 32) else a.
Fixpoint lower (s : string) : string := match s with EmptyString => EmptyString | String a s => String (lower_char a) (lower s) end.

(** Tuples of strings compare lexicographically. *)
Definition pair_leb (x y : string * string) : bool :=
  match String.compare x.1 y.1 with Lt => true | Gt => false | Eq => String.leb x.2 y.2 end.
Definition pair_le (x y : string * string) : Prop := pair_leb x y = true.
#[export] Instance pair_le_dec : RelDecision pair_le.
Proof. intros x y. apply bool_eq_dec. Defined.
(** [sorted((k.lower(), v) for k, v in headers.items())] *)
Definition folded_headers (headers : list (string * string)) : list (string * string) :=
  merge_sort pair_le ((fun kv => (lower kv.1, kv.2)) <$> headers).
Definition flatten (l : list (string * string)) : list string := concat ((fun kv => [kv.1; kv.2]) <$> l).

Section hashes.
Context (sha256 : list byte -> string).

Definition compute_egress_id (ctx : TurnEgressContext) (call_index : Z) : option string :=
  sha256 <$> _length_prefixed [adapter_id ctx; inbound_id ctx; session_id ctx; decimal call_index].
Definition compute_egress_body_hash (request_descriptor : string) (headers : list (string * string)) (redacted_body : string) : option string :=
  sha256 <$> _length_prefixed (request_descriptor :: flatten (folded_headers headers) ++ [redacted_body]).
Definition compute_request_descriptor (method url schema_id : string) : option string :=
  sha256 <$> _length_prefixed [method; url; schema_id].
End hashes.

(** ** The encoding is unambiguous *)
Lemma big_endian_length w n : length (big_endian w n) = w.
Proof. revert n. induction w as [|w IH]; intros n; [done|]. cbn. rewrite length_app, IH. cbn. lia. Qed.
Lemma byte_of_residue n : exists b, Byte.of_N (Z.to_N (n mod 256)) = Some b /\ Z.of_N (Byte.to_N b) = n mod 256.
Proof.
  assert (Hn : 0 <= n mod 256 < 256) by (apply Z.mod_pos_bound; lia). destruct (Byte.of_N (Z.to_N (n mod 256))) as [b|] eqn:Hb.
  - exists b. split; [done|]. apply Byte.to_of_N in Hb. rewrite Hb. lia.
  - apply Byte.of_N_None_iff in Hb. lia.
Qed.
Lemma big_endian_inj w n m : 0 <= n < 256 ^ Z.of_nat w -> 0 <= m < 256 ^ Z.of_nat w -> big_endian w n = big_endian w m -> n = m.
Proof.
  revert n m. induction w as [|w IH]; intros n m Hn Hm; [cbn in *; lia|]. cbn. intros [H1 H2]%app_inj_tail.
  rewrite Nat2Z.inj_succ, Z.pow_succ_r in Hn, Hm by lia.
  assert (n / 256 = m / 256) as Hd by (apply IH; [..|done]; (split; [apply Z.div_pos; lia|apply Z.div_lt_upper_bound; lia])).
  destruct (byte_of_residue n) as (b&Hb&Hbn), (byte_of_residue m) as (b'&Hb'&Hbm). rewrite Hb, Hb' in H2. cbn in H2. subst b'.
  pose proof (Z.div_mod n 256). pose proof (Z.div_mod m 256). lia.
Qed.
Lemma to_bytes_inj w n m b : to_bytes w n = Some b -> to_bytes w m = Some b -> n = m.
Proof.
  unfold to_bytes. destruct ((0 <=? n) && _) eqn:Hn; [|done]. destruct ((0 <=? m) && _) eqn:Hm; [|done]. intros [= <-] [= H].
  apply (big_endian_inj w); lia || by rewrite H.
Qed.
Lemma to_bytes_length w n b : to_bytes w n = Some b -> length b = w.
Proof. unfold to_bytes. case_match; [|done]. intros [= <-]. apply big_endian_length. Qed.
Lemma utf8_inj s t : utf8 s = utf8 t -> s = t.
Proof. unfold utf8. intros H. rewrite <- (String.string_of_list_byte_of_string s), <- (String.string_of_list_byte_of_string t). by rewrite H. Qed.
Lemma length_prefixed_inj l l' b : _length_prefixed l = Some b -> _length_prefixed l' = Some b -> l = l'.
Proof.
  revert l' b. induction l as [|s l IH]; intros [|s' l'] b; cbn [_length_prefixed]; intros H H'; [done|..].
  - injection H as <-. apply bind_Some in H' as (p&Hp&H'). apply bind_Some in H' as (r&_&[= H']). apply to_bytes_length in Hp.
    apply (f_equal length) in H'. rewrite !length_app in H'. cbn in H'. lia.
  - injection H' as <-. apply bind_Some in H as (p&Hp&H). apply bind_Some in H as (r&_&[= H]). apply to_bytes_length in Hp.
    apply (f_equal length) in H. rewrite !length_app in H. cbn in H. lia.
  - apply bind_Some in H as (p&Hp&H), H' as (p'&Hp'&H'). apply bind_Some in H as (r&Hr&[= H]), H' as (r'&Hr'&[= H']). subst b.
    apply app_inj_1 in H' as [-> H']; [|apply to_bytes_length in Hp, Hp'; congruence].
    pose proof (to_bytes_inj _ _ _ _ Hp Hp') as Hlen. unfold Zlen in Hlen. apply app_inj_1 in H' as [Hs ->]; [|lia].
    apply utf8_inj in Hs as ->. f_equal. by eapply IH.
Qed.
Lemma decimal_inj n m : decimal n = decimal m -> n = m.
Proof.
  unfold decimal. intros H. apply (f_equal NilEmpty.int_of_string) in H. rewrite !NilEmpty.isi in H. injection H as H.
  by rewrite <- (DecimalZ.of_to n), <- (DecimalZ.of_to m), H.
Qed.
Lemma flatten_inj l l' : flatten l = flatten l' -> l = l'.
Proof.
  revert l'. induction l as [|[k v] l IH]; intros [|[k' v'] l']; cbn; intros H; try done. injection H as -> -> H. f_equal. by apply IH.
Qed.
#[export] Instance pair_le_total : Total pair_le.
Proof.
  intros [a b] [c d]. unfold pair_le, pair_leb. cbn. rewrite (String.compare_antisym c a). destruct (String.compare a c); cbn; auto. apply String.leb_total.
Qed.
#[export] Instance pair_le_antisymm : AntiSymm (=) pair_le.
Proof.
  intros [a b] [c d]. unfold pair_le, pair_leb. cbn. rewrite (String.compare_antisym c a). destruct (String.compare a c) eqn:H; cbn; try done.
  apply String.compare_eq_iff in H as ->. intros H1 H2. f_equal. by apply String.leb_antisym.
Qed.
Lemma string_lt_trans a b c : String.compare a b = Lt -> String.compare b c = Lt -> String.compare a c = Lt.
Proof.
  revert b c. induction a as [|x a IH]; intros [|y b] [|z c]; cbn; try done. unfold Ascii.compare.
  destruct (N.compare_spec (N_of_ascii x) (N_of_ascii y)), (N.compare_spec (N_of_ascii y) (N_of_ascii z)); try done; intros H1 H2;
    destruct (N.compare_spec (N_of_ascii x) (N_of_ascii z)); try lia; try done. by eapply IH.
Qed.
#[export] Instance pair_le_trans : Transitive pair_le.
Proof.
  intros [a b] [c d] [e f]. unfold pair_le, pair_leb, String.leb. cbn.
  destruct (String.compare a c) eqn:H1; [apply String.compare_eq_iff in H1 as ->| |done].
  - destruct (String.compare c e); [|done..]. destruct (String.compare b d) eqn:H2; [apply String.compare_eq_iff in H2 as ->; done| |done].
    destruct (String.compare d f) eqn:H3; [apply String.compare_eq_iff in H3 as <-; by rewrite H2| |done]. by rewrite (string_lt_trans b d f).
  - destruct (String.compare c e) eqn:H2; [apply String.compare_eq_iff in H2 as <-; by rewrite H1| |done]. by rewrite (string_lt_trans a c e).
Qed.
Lemma folded_perm h h' : folded_headers h = folded_headers h' <-> (fun kv => (lower kv.1, kv.2)) <$> h ≡ₚ (fun kv => (lower kv.1, kv.2)) <$> h'.
Proof.
  unfold folded_headers. split; intros H.
  - by rewrite <- (merge_sort_Permutation pair_le (_ <$> h)), <- (merge_sort_Permutation pair_le (_ <$> h')), H.
  - apply (StronglySorted_unique pair_le); [apply StronglySorted_merge_sort; apply _..|]. by rewrite !merge_sort_Permutation.
Qed.

Section identity.
Context (sha256 : list byte -> string) (sha256_inj : forall a b, sha256 a = sha256 b -> a = b).
Lemma hashed_inj l l' h : sha256 <$> _length_prefixed l = Some h -> sha256 <$> _length_prefixed l' = Some h -> l = l'.
Proof.
  intros (b&Hb&->)%fmap_Some (b'&Hb'&Heq)%fmap_Some. apply sha256_inj in Heq as ->. by eapply length_prefixed_inj.
Qed.
Lemma body_hash_inj d headers body d' headers' body' h : compute_egress_body_hash sha256 d headers body = Some h -> compute_egress_body_hash sha256 d' headers' body' = Some h ->
  d = d' /\ folded_headers headers = folded_headers headers' /\ body = body'.
Proof.
  intros H H'. pose proof (hashed_inj _ _ _ H H') as Heq. injection Heq as -> Heq. apply app_inj_tail in Heq as [Hf ->]. by apply flatten_inj in Hf as ->.
Qed.

(** The two digests identify what they are meant to: two calls have the same egress id
    just when adapter, inbound message, session and call index all agree, wherever the
    boundaries between the fields fall; and two requests have the same body hash just when
    method, URL, schema and body agree and the headers do up to order and the case of names. *)
Theorem egress_digests_identify_calls :
  (forall c i h c' i' h', compute_egress_id sha256 c i = Some h -> compute_egress_id sha256 c' i' = Some h' -> h = h' <-> c = c' /\ i = i') /\
  (forall method url schema headers body d h method' url' schema' headers' body' d' h',
     compute_request_descriptor sha256 method url schema = Some d -> compute_egress_body_hash sha256 d headers body = Some h ->
     compute_request_descriptor sha256 method' url' schema' = Some d' -> compute_egress_body_hash sha256 d' headers' body' = Some h' ->
     h = h' <-> method = method' /\ url = url' /\ schema = schema' /\ body = body' /\
                (fun kv => (lower kv.1, kv.2)) <$> headers ≡ₚ (fun kv => (lower kv.1, kv.2)) <$> headers').
Proof.
  split.
  - intros [a b s] i h [a' b' s'] i' h' H H'. split; [intros <-|intros [[= -> -> ->] ->]; congruence].
    pose proof (hashed_inj _ _ _ H H') as Heq. cbn in Heq. injection Heq as -> -> -> Heq. by apply decimal_inj in Heq as ->.
  - intros method url schema headers body d h method' url' schema' headers' body' d' h' Hd Hh Hd' Hh'. split.
    + intros <-. destruct (body_hash_inj _ _ _ _ _ _ _ Hh Hh') as (<-&Hf&<-). pose proof (hashed_inj _ _ _ Hd Hd') as Heq. injection Heq as -> -> ->.
      split_and!; try done. by apply folded_perm.
    + intros (->&->&->&->&Hp%folded_perm). rewrite Hd in Hd'. injection Hd' as <-. unfold compute_egress_body_hash in *. rewrite Hp in Hh. congruence.
Qed.
End identity.
Lemma egress_digests_identify_calls_witness :
  let sha := String.string_of_list_byte in
  compute_egress_id sha {| adapter_id := "web"; inbound_id := "12"; session_id := "3" |} 4 <>
    compute_egress_id sha {| adapter_id := "web"; inbound_id := "1"; session_id := "23" |} 4 /\
  (forall h', compute_egress_id sha {| adapter_id := "web"; inbound_id := "1"; session_id := "23" |} 4 = Some h' ->
     default "" (compute_egress_id sha {| adapter_id := "web"; inbound_id := "12"; session_id := "3" |} 4) <> h')%string.
Proof.
  split; [vm_compute; discriminate|]. intros h' H'.
  assert (Hinj : forall a b, String.string_of_list_byte a = String.string_of_list_byte b -> a = b).
  { intros a b H. rewrite <- (String.list_byte_of_string_of_list_byte a), <- (String.list_byte_of_string_of_list_byte b). by rewrite H. }
  intros Heq. destruct (proj1 (egress_digests_identify_calls _ Hinj) {| adapter_id := "web"; inbound_id := "12"; session_id := "3" |} 4 _ _ _ _ eq_refl H') as [H _].
  by destruct (H Heq).
Defined.
