(* ===== verification/EgressRelay.v ===== *)
(** * Tool egress: [memory/egress_idempotency.py], [egress/relay_client.py],
    [egress/response_inspection.py] and [egress/egress_response_extract.py]

    The ledger of egress intents, the relay client that commits an intent before it fires,
    and the extractor that turns the answer into what the orchestrator may see.  A call of
    [handle] is a process between its awaits; the system is a ledger, a wire, the staged
    raw bodies and any number of calls in flight, and an event lets one of them go on, starts
    one, cancels one or kills the process.  A transaction of the database commits, fails, or
    commits and reports a failure.  The scan for outbound data, the extraction and the
    canary match are answers of other components; JSON texts are the values they encode. *)
From S2P Require Import Prelude EgressId.
From Stdlib Require Import Strings.Ascii.

(** ** The ledger *)
Inductive ledger_state := committed_no_response | committed_with_response.
(** [ExtractionResult] *)
Inductive ExtractionResult := Extracted (data : string) | TypedRefusal (reason : string).
Record ledger_row := { lr_body_hash : string; lr_state : ledger_state; lr_response : option ExtractionResult; lr_language : option string; lr_committed_at : Q }.
Abbreviation ledger := (gmap string ledger_row).

Inductive CommitIntentResult := IntentFresh | IntentReplayComplete (response : option ExtractionResult) (language : option string) | IntentInDoubt.
Inductive failure :=
| EgressIdIntegrityError | EgressLedgerStateError | DatabaseError | OverflowError | EgressInDoubtError | EgressDeniedError (reason : string)
| RelayIOPlaneUnavailableError | InboundCanaryTripped | ExtractionFailed | HookFailed | AuditFailed | CancelledError | ProcessDied.

(** [async with session_scope()]: rolled back if the body raises. *)
Inductive txn := Commits | Fails | CommitsAndRaises.
Definition transaction {A} (o : txn) (body : M ledger failure A) : M ledger failure A := fun l =>
  match body l, o with
  | (Err e, _), _ => (Err e, l)
  | (Ok a, l'), Commits => (Ok a, l')
  | (Ok _, _), Fails => (Err DatabaseError, l)
  | (Ok _, l'), CommitsAndRaises => (Err DatabaseError, l')
  end.

(** [INSERT ... ON CONFLICT DO NOTHING RETURNING], then the [SELECT] of the loser. *)
Definition commit_intent (egress_id body_hash : string) (now : Q) : M ledger failure CommitIntentResult := fun l =>
  match l !! egress_id with
  | None => (Ok IntentFresh, <[egress_id := {| lr_body_hash := body_hash; lr_state := committed_no_response; lr_response := None; lr_language := None; lr_committed_at := now |}]> l)
  | Some row =>
      if negb (bool_decide (lr_body_hash row = body_hash)) then (Err EgressIdIntegrityError, l)
      else match lr_state row with
           | committed_with_response => (Ok (IntentReplayComplete (lr_response row) (lr_language row)), l)
           | committed_no_response => (Ok IntentInDoubt, l)
           end
  end.
Definition record_response (egress_id : string) (response : ExtractionResult) (language : option string) : M ledger failure unit := fun l =>
  match l !! egress_id with
  | Some row =>
      match lr_state row with
      | committed_no_response =>
          (Ok tt, <[egress_id := {| lr_body_hash := lr_body_hash row; lr_state := committed_with_response; lr_response := Some response; lr_language := language; lr_committed_at := lr_committed_at row |}]> l)
      | committed_with_response => (Ok tt, l)
      end
  | None => (Err EgressLedgerStateError, l)
  end.
Definition get_state (egress_id : string) (l : ledger) : option ledger_state := lr_state <$> l !! egress_id.
(** Nothing in the program calls it. *)
Definition prune_expired (older_than : Q) (l : ledger) : ledger := filter (fun kv => Qltb (lr_committed_at kv.2) older_than = false) l.

(** ** What is sent and what comes back *)
Record _RawToolRequest := { method : string; url : string; headers : list (string * string); body : string; idempotent : bool }.
Record EgressResponse := { status : Z; response_headers : list (string * string); response_body : list Byte.byte }.
Definition has_key (hs : list (string * string)) : list (string * string) := filter (fun kv => lower kv.1 = "idempotency-key"%string) hs.
(** The headers of an in-doubt refire. *)
Definition keyed_headers (egress_id : string) (hs : list (string * string)) : list (string * string) :=
  filter (fun kv => lower kv.1 <> "idempotency-key"%string) hs ++ [("Idempotency-Key"%string, egress_id)].

(** [str.strip()], on ASCII white space, and [s.split(";", 1)[0]]. *)
Definition is_space (a : ascii) : bool := let n := Z.of_N (N_of_ascii a) in ((9 <=? n) && (n <=? 13)) || ((28 <=? n) && (n <=? 32)).
Fixpoint lstrip (s : string) : string := match s with String a s' => if is_space a then lstrip s' else s | EmptyString => s end.
Fixpoint rstrip (s : string) : string :=
  match s with
  | String a s' => match rstrip s' with EmptyString => if is_space a then EmptyString else String a EmptyString | r => String a r end
  | EmptyString => EmptyString
  end.
Definition strip (s : string) : string := rstrip (lstrip s).
Fixpoint before_semicolon (s : string) : string := match s with String a s' => if decide (a = ";"%char) then EmptyString else String a (before_semicolon s') | EmptyString => EmptyString end.
Definition _parse_content_type (hs : list (string * string)) : option string :=
  match snd <$> filter (fun kv => lower kv.1 = "content-type"%string) hs with
  | [raw] => let raw := strip raw in
             if decide (raw = ""%string) then None
             else let bare := lower (strip (before_semicolon raw)) in if decide (bare = ""%string) then None else Some bare
  | _ => None
  end.
Inductive verdict := _Proceed | _SoftRefusal (subject_token : string) | _CanaryHit.
Record ResponsePolicy := { mime_allowlist : list string; max_bytes : Z; canary : option (list Byte.byte -> bool) }.
Definition inspect_response (r : EgressResponse) (policy : ResponsePolicy) : verdict :=
  if match canary policy with Some hit => hit (response_body r) | None => false end then _CanaryHit
  else match _parse_content_type (response_headers r) with
       | None => _SoftRefusal "mime_type_not_allowed"
       | Some mime =>
           if negb (bool_decide (mime ∈ mime_allowlist policy)) then _SoftRefusal "mime_type_not_allowed"
           else if max_bytes policy <? Zlen (response_body r) then _SoftRefusal "size_limit_exceeded"
           else _Proceed
       end.

(** ** A call of [EgressResponseExtractor.handle]

    Its arguments, with the text the outbound scan made of the body. *)
Record call := { raw_request : _RawToolRequest; ctx : TurnEgressContext; call_index : Z; schema_id : string; c_language : option string; redacted_text : string }.
Record EgressExtractOutcome := { o_result : ExtractionResult; deduplicated : bool; o_language : option string; o_status : option Z; policy_refusal_token : option string }.

Inductive pc :=
| Committing                                               (* commit_intent *)
| Waiting (hs : list (string * string))                    (* the semaphore *)
| Firing (hs : list (string * string)) (written : bool)    (* dial, write, read *)
| Refusing (e : failure) (holds : bool)                    (* the audit of a refusal *)
| Hooked (r : EgressResponse)                              (* post_fire_hook *)
| Inspecting (r : EgressResponse)                          (* inspect_response, on a thread *)
| Extracting (r : EgressResponse)                          (* quarantined_to_structured *)
| Recording (t2 : ExtractionResult) (next : option EgressExtractOutcome)   (* record_response, then the outcome or the canary's error *)
| Done (o : EgressExtractOutcome)
| Raised (e : failure).
(** A call, whether its intent was the fresh one, and where it is. *)
Record entry := { e_call : call; e_won : bool; e_pc : pc }.
Record sent := { s_call : nat; s_id : string; s_headers : list (string * string); s_body : string }.
Record system := { rows : ledger; calls : list entry; wire : list sent; staged : gset nat; refusals : list (nat * failure); records : list (nat * ExtractionResult) }.

Section relay.
Context (sha256 : list Byte.byte -> string) (policy : option ResponsePolicy) (concurrency : nat).

Definition call_id (c : call) : option string := compute_egress_id sha256 (ctx c) (call_index c).
Definition call_hash (c : call) : option string :=
  d ← compute_request_descriptor sha256 (method (raw_request c)) (url (raw_request c)) (schema_id c);
  compute_egress_body_hash sha256 d (headers (raw_request c)) (redacted_text c).

Definition slot_held (p : pc) : bool := match p with Firing _ _ => true | Refusing _ holds => holds | _ => false end.
Definition slots (l : list entry) : nat := length (filter (fun e => slot_held (e_pc e) = true) l).
Definition live (p : pc) : bool := match p with Done _ | Raised _ => false | _ => true end.

(** A new call computes its digests and awaits its intent. *)
Definition start (c : call) : entry :=
  {| e_call := c; e_won := false; e_pc := match call_id c, call_hash c with Some _, Some _ => Committing | _, _ => Raised OverflowError end |}.
Definition set_entry (i : nat) (e : entry) (s : system) : system :=
  {| rows := rows s; calls := <[i := e]> (calls s); wire := wire s; staged := staged s; refusals := refusals s; records := records s |}.
Definition goto (i : nat) (p : pc) (e : entry) (s : system) : system := set_entry i {| e_call := e_call e; e_won := e_won e; e_pc := p |} s.
Definition set_rows (l : ledger) (s : system) : system :=
  {| rows := l; calls := calls s; wire := wire s; staged := staged s; refusals := refusals s; records := records s |}.
Definition set_staged (b : gset nat) (s : system) : system :=
  {| rows := rows s; calls := calls s; wire := wire s; staged := b; refusals := refusals s; records := records s |}.

(** After [commit_intent]: the dispatch on the intent. *)
Definition intent_pc (c : call) (id : string) (res : result failure CommitIntentResult) : pc :=
  match res with
  | Err e => Raised e
  | Ok IntentFresh => Waiting (headers (raw_request c))
  | Ok (IntentReplayComplete (Some response) language) =>
      Done {| o_result := response; deduplicated := true; o_language := language; o_status := None; policy_refusal_token := None |}
  | Ok (IntentReplayComplete None _) => Raised DatabaseError
  | Ok IntentInDoubt => if idempotent (raw_request c) then Waiting (keyed_headers id (headers (raw_request c))) else Refusing EgressInDoubtError false
  end.
Definition won (res : result failure CommitIntentResult) : bool := match res with Ok IntentFresh => true | _ => false end.
(** Stage the raw body and hand it to the extractor. *)
Definition stage (i : nat) (r : EgressResponse) (e : entry) (s : system) : system := goto i (Extracting r) e (set_staged ({[i]} ∪ staged s) s).
Definition outcome_of (c : call) (res : ExtractionResult) (status : Z) (token : option string) : EgressExtractOutcome :=
  {| o_result := res; deduplicated := false; o_language := c_language c; o_status := Some status; policy_refusal_token := token |}.
Definition verdict_pc (c : call) (r : EgressResponse) (v : verdict) : option pc :=
  match v with
  | _CanaryHit => Some (Recording (TypedRefusal "refused_by_safety") None)
  | _SoftRefusal token => Some (Recording (TypedRefusal "cannot_extract") (Some (outcome_of c (TypedRefusal "cannot_extract") (status r) (Some token))))
  | _Proceed => None
  end.

Inductive event :=
| Txn (o : txn) (now : Q)                       (* the transaction it awaits ends *)
| Acquire                                       (* it gets a slot *)
| Write                                         (* the request frame is out *)
| Reply (r : string + EgressResponse)           (* a deny reason or a response *)
| IOFailed                                      (* dial, frame or timeout *)
| Audited (fine : bool)
| Resumed (fine : bool)                         (* the hook returned *)
| Inspected
| Finished (res : option ExtractionResult)      (* the extraction, or its failure *)
| Cancel (o : txn).                             (* with the fate of the transaction it awaits *)

Definition commit_step (o : txn) (now : Q) (cancelled : bool) (i : nat) (e : entry) (s : system) : system :=
  match call_id (e_call e), call_hash (e_call e) with
  | Some id, Some h =>
      let '(res, l) := transaction o (commit_intent id h now) (rows s) in
      if cancelled then goto i (Raised CancelledError) e (set_rows l s)
      else set_entry i {| e_call := e_call e; e_won := won res; e_pc := intent_pc (e_call e) id res |} (set_rows l s)
  | _, _ => s
  end.
Definition note_record (i : nat) (t2 : ExtractionResult) (s : system) : system :=
  {| rows := rows s; calls := calls s; wire := wire s; staged := staged s; refusals := refusals s; records := records s ++ [(i, t2)] |}.
Definition record_step (o : txn) (cancelled : bool) (i : nat) (t2 : ExtractionResult) (next : option EgressExtractOutcome) (e : entry) (s : system) : system :=
  match call_id (e_call e) with
  | Some id =>
      let '(res, l) := transaction o (record_response id t2 (c_language (e_call e))) (rows s) in
      goto i (if cancelled then Raised CancelledError
              else match res, next with Err x, _ => Raised x | Ok _, None => Raised InboundCanaryTripped | Ok _, Some out => Done out end) e (note_record i t2 (set_rows l s))
  | None => s
  end.
Definition send (i : nat) (hs : list (string * string)) (e : entry) (s : system) : system :=
  match call_id (e_call e) with
  | Some id => goto i (Firing hs true) e
      {| rows := rows s; calls := calls s; wire := wire s ++ [{| s_call := i; s_id := id; s_headers := hs; s_body := redacted_text (e_call e) |}];
         staged := staged s; refusals := refusals s; records := records s |}
  | None => s
  end.
Definition audit_refused (i : nat) (x : failure) (s : system) : system :=
  {| rows := rows s; calls := calls s; wire := wire s; staged := staged s; refusals := refusals s ++ [(i, x)]; records := records s |}.

Definition step_entry (i : nat) (ev : event) (e : entry) (s : system) : system :=
  match e_pc e, ev with
  | Committing, Txn o now => commit_step o now false i e s
  | Committing, Cancel o => commit_step o 0 true i e s
  | Waiting hs, Acquire => if (slots (calls s) <? concurrency)%nat then goto i (Firing hs false) e s else s
  | Firing hs false, Write => send i hs e s
  | Firing _ _, IOFailed => goto i (Refusing RelayIOPlaneUnavailableError true) e s
  | Firing _ true, Reply (inl reason) => goto i (Refusing (EgressDeniedError reason) false) e s
  | Firing _ true, Reply (inr r) => goto i (Hooked r) e s
  | Refusing x _, Audited fine => goto i (Raised (if fine : bool then x else AuditFailed)) e (if fine : bool then audit_refused i x s else s)
  | Hooked r, Resumed fine => if negb fine then goto i (Raised HookFailed) e s
      else match policy with None => stage i r e s | Some _ => goto i (Inspecting r) e s end
  | Inspecting r, Inspected =>
      match policy with
      | None => s
      | Some pol => match verdict_pc (e_call e) r (inspect_response r pol) with Some p => goto i p e s | None => stage i r e s end
      end
  | Extracting r, Finished (Some res) => goto i (Recording res (Some (outcome_of (e_call e) res (status r) None))) e (set_staged (staged s ∖ {[i]}) s)
  | Extracting r, Finished None => goto i (Raised ExtractionFailed) e (set_staged (staged s ∖ {[i]}) s)
  | Extracting r, Cancel _ => goto i (Raised CancelledError) e (set_staged (staged s ∖ {[i]}) s)
  | Recording t2 next, Txn o _ => record_step o false i t2 next e s
  | Recording t2 next, Cancel o => record_step o true i t2 next e s
  | Done _, _ | Raised _, _ => s
  | _, Cancel _ => goto i (Raised CancelledError) e s
  | _, _ => s
  end.

Inductive action := Start (c : call) | Step (i : nat) (ev : event) | Crash.
Definition die (e : entry) : entry := if live (e_pc e) then {| e_call := e_call e; e_won := e_won e; e_pc := Raised ProcessDied |} else e.
Definition act (a : action) (s : system) : system :=
  match a with
  | Start c => {| rows := rows s; calls := calls s ++ [start c]; wire := wire s; staged := staged s; refusals := refusals s; records := records s |}
  | Step i ev => match calls s !! i with Some e => step_entry i ev e s | None => s end
  | Crash => {| rows := rows s; calls := die <$> calls s; wire := wire s; staged := ∅; refusals := refusals s; records := records s |}
  end.
Definition init : system := {| rows := ∅; calls := []; wire := []; staged := ∅; refusals := []; records := [] |}.
Definition run (l : list action) (s : system) : system := foldl (fun s a => act a s) s l.

#[local] Arguments call_id : simpl never.
#[local] Arguments call_hash : simpl never.
#[local] Arguments keyed_headers : simpl never.

(** ** The ledger's law: a row keeps its hash, and a response once it has one *)
Definition kept (l l' : ledger) : Prop := forall id row, l !! id = Some row ->
  exists row', l' !! id = Some row' /\ lr_body_hash row' = lr_body_hash row /\ (forall r, lr_response row = Some r -> lr_response row' = Some r).
#[local] Instance kept_refl : Reflexive kept.
Proof. intros l id row H. eauto. Qed.
Lemma kept_new l id row : l !! id = None -> kept l (<[id := row]> l).
Proof.
  intros Hn id' row' H. exists row'. split; [|done]. rewrite lookup_insert_ne; [done|]. by intros ->; rewrite Hn in H.
Qed.
Lemma transaction_inv {A} o (m : M ledger failure A) l res l' : transaction o m l = (res, l') ->
  l' = l /\ (forall a, res <> Ok a) \/ exists a, m l = (Ok a, l') /\ (res = Ok a \/ forall b, res <> Ok b).
Proof.
  unfold transaction. destruct (m l) as [[a|e] l1]; [destruct o|]; intros [= <- <-]; [right; exists a; auto|by left|right; exists a; split; [done|by right]|by left].
Qed.
(** Rows have a response just when their state says so. *)
Definition stated (l : ledger) : Prop := forall id row, l !! id = Some row -> (lr_response row = None <-> lr_state row = committed_no_response).
Lemma commit_inv id h now l res l' : commit_intent id h now l = (Ok res, l') ->
  (res = IntentFresh /\ l !! id = None /\ exists row, l' = <[id := row]> l /\ lr_body_hash row = h /\ lr_response row = None /\ lr_state row = committed_no_response) \/
  (l' = l /\ exists row, l !! id = Some row /\ lr_body_hash row = h /\
     ((exists r lang, res = IntentReplayComplete r lang /\ lr_response row = r /\ lr_state row = committed_with_response) \/ res = IntentInDoubt)).
Proof.
  unfold commit_intent. destruct (l !! id) as [row|] eqn:H.
  - case_bool_decide as Hh; [|done]. cbn. destruct (lr_state row) eqn:Hs; intros [= <- <-]; right; split; try done; exists row; split_and!; eauto. left. eauto.
  - intros [= <- <-]. left. split_and!; [done..|]. by eexists.
Qed.
Lemma record_inv id t2 lang l l' : record_response id t2 lang l = (Ok tt, l') ->
  exists row, l !! id = Some row /\
    (l' = l \/ lr_state row = committed_no_response /\ exists row', l' = <[id := row']> l /\ lr_body_hash row' = lr_body_hash row /\ lr_response row' = Some t2 /\ lr_state row' = committed_with_response).
Proof.
  unfold record_response. destruct (l !! id) as [row|] eqn:H; [|done]. destruct (lr_state row) eqn:Hs; intros [= <-]; exists row; split; auto.
  right. split; [done|]. by eexists.
Qed.

Lemma stated_insert l id row : stated l -> (lr_response row = None <-> lr_state row = committed_no_response) -> stated (<[id := row]> l).
Proof. intros Hl Hr id' row' [[_ <-]|[_ H]]%lookup_insert_Some; [done|by eapply Hl]. Qed.

(** ** Who may send *)
Definition won_headers (e : entry) (id : string) (hs : list (string * string)) : Prop :=
  if e_won e then hs = headers (raw_request (e_call e)) else idempotent (raw_request (e_call e)) = true /\ hs = keyed_headers id (headers (raw_request (e_call e))).
Definition past (p : pc) : bool := match p with Committing | Refusing _ _ | Done _ | Raised _ => false | _ => true end.
Definition unsent (p : pc) : bool := match p with Committing | Waiting _ | Firing _ false => true | _ => false end.
Abbreviation the_id e := (call_id (e_call e)).
Abbreviation the_hash e := (call_hash (e_call e)).
Record entry_ok (l : ledger) (e : entry) : Prop := {
  ok_row : past (e_pc e) = true \/ e_won e = true -> exists id h row, the_id e = Some id /\ the_hash e = Some h /\ l !! id = Some row /\ lr_body_hash row = h;
  ok_hs : match e_pc e with Waiting hs | Firing hs _ => forall id, the_id e = Some id -> won_headers e id hs | _ => True end;
  ok_new : e_pc e = Committing -> e_won e = false }.
Definition sent_ok (l : list entry) (x : sent) : Prop := exists e, l !! s_call x = Some e /\ the_id e = Some (s_id x) /\ unsent (e_pc e) = false /\ won_headers e (s_id x) (s_headers x).
Record wire_inv (s : system) : Prop := {
  wi_entries : forall i e, calls s !! i = Some e -> entry_ok (rows s) e;
  wi_winner : forall i j e e' id, calls s !! i = Some e -> calls s !! j = Some e' -> e_won e = true -> e_won e' = true -> the_id e = Some id -> the_id e' = Some id -> i = j;
  wi_wire : forall x, x ∈ wire s -> sent_ok (calls s) x;
  wi_once : NoDup (s_call <$> wire s);
  wi_stated : stated (rows s) }.

Lemma entry_ok_kept l l' e : kept l l' -> entry_ok l e -> entry_ok l' e.
Proof.
  intros Hk [H1 H2 H3]. split; [|done..]. intros H. destruct (H1 H) as (id&h&row&?&?&Hr&?). destruct (Hk _ _ Hr) as (row'&?&?&_). exists id, h, row'. split_and!; congruence.
Qed.
(** One entry changes, the ledger grows, and perhaps its request goes out. *)
Lemma wire_update s s' i e e' : wire_inv s -> calls s !! i = Some e -> calls s' = <[i := e']> (calls s) -> e_call e' = e_call e -> kept (rows s) (rows s') -> stated (rows s') -> entry_ok (rows s') e' ->
  (e_won e' = e_won e \/ e_won e = false /\ forall id, the_id e = Some id -> rows s !! id = None) ->
  (wire s' = wire s /\ (unsent (e_pc e) = false -> unsent (e_pc e') = false /\ e_won e' = e_won e) \/
   exists x, wire s' = wire s ++ [x] /\ s_call x = i /\ unsent (e_pc e) = true /\ sent_ok (calls s') x) -> wire_inv s'.
Proof.
  intros [H1 H2 H3 H4 _] Hi Hc Hcall Hk Hst Hok Hwon Hw.
  assert (Hlt : (i < length (calls s))%nat) by by eapply lookup_lt_Some.
  assert (Hlook : forall j f, calls s' !! j = Some f -> j = i /\ f = e' \/ j <> i /\ calls s !! j = Some f).
  { intros j f. rewrite Hc. destruct (decide (j = i)) as [->|Hj]; [rewrite list_lookup_insert_eq by done; intros [= <-]; auto|].
    rewrite list_lookup_insert_ne by done. auto. }
  assert (Hnew : forall j f id, j <> i -> calls s !! j = Some f -> e_won f = true -> e_won e' = true -> the_id f = Some id -> the_id e = Some id -> False).
  { intros j f id Hj Hf Hwf Hwe Hidf Hide. destruct Hwon as [Heq|[_ Hnone]].
    - apply Hj. apply (H2 j i f e id); try done. congruence.
    - destruct (ok_row _ _ (H1 _ _ Hf)) as (id'&h&row&Hid'&_&Hr&_); [by right|]. assert (id' = id) as -> by congruence. by rewrite (Hnone id Hide) in Hr. }
  split.
  - intros j f [[-> ->]|[_ Hf]]%Hlook; [done|]. eapply entry_ok_kept; eauto.
  - intros j k f f' id [[-> ->]|[Hj Hf]]%Hlook [[-> ->]|[Hk' Hf']]%Hlook Hwf Hwf' Hidf Hidf'; rewrite ?Hcall in *; [done|by destruct (Hnew k f' id)|by destruct (Hnew j f id)|by eapply H2].
  - assert (Hold : forall x, x ∈ wire s -> (unsent (e_pc e) = false -> unsent (e_pc e') = false /\ e_won e' = e_won e) -> sent_ok (calls s') x).
    { intros x Hx Hun. destruct (H3 x Hx) as (f&Hf&Hid&Huf&Hhs). destruct (decide (s_call x = i)) as [Heq|Hne].
      - rewrite Heq in Hf. assert (f = e) as -> by congruence. destruct (Hun Huf) as [Hu Hwe]. exists e'. rewrite Heq, Hc, list_lookup_insert_eq by done.
        split_and!; [done|by rewrite Hcall|done|]. unfold won_headers in *. by rewrite Hwe, Hcall.
      - exists f. rewrite Hc, list_lookup_insert_ne by done. done. }
    destruct Hw as [[-> Hun]|(x&->&Hxi&Hu&Hx)]; [by intros x Hx; apply Hold|]. intros y [Hy| ->%list_elem_of_singleton]%elem_of_app; [|done].
    destruct (H3 y Hy) as (f&Hf&Hid&Huf&Hhs). destruct (decide (s_call y = i)) as [Heq|Hne]; [rewrite Heq in Hf; assert (f = e) as -> by congruence; congruence|].
    exists f. rewrite Hc, list_lookup_insert_ne by done. done.
  - destruct Hw as [[-> _]|(x&->&Hxi&Hu&_)]; [done|]. rewrite fmap_app. apply NoDup_app. split_and!; [done| |apply NoDup_singleton].
    intros j Hj ->%list_elem_of_singleton. apply list_elem_of_fmap in Hj as (y&Hy&Hin). destruct (H3 y Hin) as (f&Hf&_&Huf&_). rewrite <- Hy, Hxi in Hf. congruence.
  - done.
Qed.


Lemma commit_txn o id h now l res l' : stated l -> transaction o (commit_intent id h now) l = (res, l') ->
  kept l l' /\ stated l' /\ (won res = true -> l !! id = None) /\ (forall a, res = Ok a -> exists row, l' !! id = Some row /\ lr_body_hash row = h).
Proof.
  intros Hst [[-> Hno]|(a&Ha&Hres)]%transaction_inv.
  { split_and!; [done|done| |intros a Ha; by destruct (Hno a)]. destruct res as [[]|]; try done. by destruct (Hno IntentFresh). }
  apply commit_inv in Ha as [(->&Hn&row&->&Hhr&Hr&Hs)|(->&row&Hrow&Hhr&Ha)]; split_and!; try done; eauto.
  - by apply kept_new.
  - apply stated_insert; [done|]. by rewrite Hr, Hs.
  - intros a _. exists row. by rewrite lookup_insert_eq.
  - intros Hw. destruct Hres as [->|Hno]; [destruct Ha as [(r&lang&->&_)| ->]; done|destruct res as [[]|]; try done; by destruct (Hno IntentFresh)].
Qed.
(** A step that leaves the ledger and the wire alone. *)
Lemma wire_goto s s' i e p : wire_inv s -> calls s !! i = Some e -> calls s' = <[i := {| e_call := e_call e; e_won := e_won e; e_pc := p |}]> (calls s) ->
  rows s' = rows s -> wire s' = wire s -> p <> Committing -> (past p = true -> past (e_pc e) = true) ->
  match p with Waiting hs | Firing hs _ => forall id, the_id e = Some id -> won_headers e id hs | _ => True end ->
  (unsent (e_pc e) = false -> unsent p = false) -> wire_inv s'.
Proof.
  intros Hs Hi Hc Hr Hw Hp Hpast Hhs Hun. pose proof (wi_entries _ Hs _ _ Hi) as [O1 O2 O3].
  eapply (wire_update s); [done..| |by rewrite Hr|rewrite Hr; apply Hs| |by left|left; split; [done|]; intros H; split; [by apply Hun|done]]; [done|].
  rewrite Hr. split; cbn; [|done|done]. intros [H|H]; apply O1; auto.
Qed.
Lemma commit_wire s i e o now b : wire_inv s -> calls s !! i = Some e -> e_pc e = Committing -> wire_inv (commit_step o now b i e s).
Proof.
  intros Hs Hi Hpc. pose proof (wi_entries _ Hs _ _ Hi) as [O1 O2 O3]. pose proof (O3 Hpc) as Hnw.
  unfold commit_step. destruct (the_id e) as [id|] eqn:Hid; [|done]. destruct (the_hash e) as [h|] eqn:Hh; [|done].
  destruct (transaction o (commit_intent id h now) (rows s)) as [res l] eqn:Ht. apply commit_txn in Ht as (Hk&Hst&Hnew&Hrow); [|apply Hs].
  destruct b; (eapply (wire_update s _ i e); [done|done|reflexivity|done|exact Hk|exact Hst| | |left; split; [done|by rewrite Hpc]]).
  - split; cbn; [rewrite Hnw; by intros [?|?]|done|done].
  - by left.
  - assert (Hok : past (intent_pc (e_call e) id res) = true \/ won res = true -> exists a, res = Ok a) by (destruct res; [eauto|by intros [?|?]]).
    split; cbn.
    + intros H. destruct (Hok H) as [a Ha]. destruct (Hrow a Ha) as (row&?&?). by exists id, h, row.
    + destruct res as [[|[r|] lang|]|x]; cbn; try done.
      destruct (idempotent (raw_request (e_call e))) eqn:Hidem; [|done]. intros id' Hid'. unfold won_headers. cbn in *. by assert (id' = id) as -> by congruence.
    + destruct res as [[|[r|] lang|]|x]; cbn; by try destruct (idempotent _).
  - cbn. destruct (won res); [right; split; [done|]; intros id' Hid'|left; done]. assert (id' = id) as -> by congruence. by apply Hnew.
Qed.
Lemma record_wire s i e o b t2 next : wire_inv s -> calls s !! i = Some e -> unsent (e_pc e) = false -> wire_inv (record_step o b i t2 next e s).
Proof.
  intros Hs Hi Hun. pose proof (wi_entries _ Hs _ _ Hi) as [O1 O2 O3].
  unfold record_step. destruct (the_id e) as [id|] eqn:Hid; [|done].
  destruct (transaction o (record_response id t2 (c_language (e_call e))) (rows s)) as [res l] eqn:Ht.
  assert (Hk : kept (rows s) l /\ stated l).
  { pose proof (wi_stated _ Hs) as Hst. apply transaction_inv in Ht as [[-> _]|(a&Ha&_)]; [done|]. destruct a. apply record_inv in Ha as (row&Hrow&[->|(Hno&row'&->&Hh&Hr&Hw)]); [done|].
    split; [|apply stated_insert; [done|]; by rewrite Hr, Hw]. intros id' row0 H0. destruct (decide (id' = id)) as [->|Hne]; [|exists row0; by rewrite lookup_insert_ne]. exists row'. rewrite lookup_insert_eq.
    assert (row0 = row) as -> by congruence. split_and!; [done|done|]. intros r Hr0. apply (Hst _ _ Hrow) in Hno. congruence. }
  destruct Hk as [Hk Hst].
  eapply (wire_update s _ i e); [done|done|reflexivity|done|exact Hk|exact Hst| |by left|left; split; [done|intros _; split; [|done]]].
  - assert (Hok : forall p, past p = false -> p <> Committing -> entry_ok l {| e_call := e_call e; e_won := e_won e; e_pc := p |}).
    { intros p Hp Hc. split; cbn; [|by destruct p|done]. rewrite Hp. intros [?|Hw]; [done|]. destruct (O1 (or_intror Hw)) as (id'&h&row&?&?&Hrow&?).
      destruct (Hk _ _ Hrow) as (row'&?&?&_). exists id', h, row'. split_and!; congruence. }
    destruct b, res as [[]|x], next; by apply Hok.
  - cbn. by destruct b, res as [[]|x], next.
Qed.
Lemma send_wire s i e hs : wire_inv s -> calls s !! i = Some e -> e_pc e = Firing hs false -> wire_inv (send i hs e s).
Proof.
  intros Hs Hi Hpc. pose proof (wi_entries _ Hs _ _ Hi) as [O1 O2 O3]. unfold send. destruct (the_id e) as [id|] eqn:Hid; [|done]. rewrite Hpc in O1, O2.
  pose proof (lookup_lt_Some _ _ _ Hi) as Hlt. eapply (wire_update s _ i e); [done|done|reflexivity|done|reflexivity|apply Hs| |by left|right].
  - split; cbn; [intros _; rewrite Hid; apply O1; by left| |done]. intros id' Hid'. apply (O2 id'). congruence.
  - eexists. split_and!; [reflexivity|done|by rewrite Hpc|]. eexists. cbn. rewrite list_lookup_insert_eq by done. split_and!; [done|done|done|by apply O2].
Qed.
Lemma step_wire i ev s e : wire_inv s -> calls s !! i = Some e -> wire_inv (step_entry i ev e s).
Proof.
  intros Hs Hi. pose proof (wi_entries _ Hs _ _ Hi) as [O1 O2 O3]. unfold step_entry.
  assert (Hgo : forall p s1, rows s1 = rows s -> calls s1 = calls s -> wire s1 = wire s -> p <> Committing -> (past p = true -> past (e_pc e) = true) ->
    match p with Waiting hs | Firing hs _ => forall id, the_id e = Some id -> won_headers e id hs | _ => True end -> (unsent (e_pc e) = false -> unsent p = false) ->
    wire_inv (goto i p e s1)).
  { intros p s1 E1 E2 E3 H1 H2 H3 H4. eapply (wire_goto s _ i e p); try done. cbn. by rewrite E2. }
  assert (Hstage : forall r, past (e_pc e) = true -> unsent (e_pc e) = false -> wire_inv (stage i r e s)).
  { intros r Hp Hu. by apply Hgo. }
  destruct (e_pc e) as [|hs|hs [] |x holds|r|r|r|t2 next|out|x] eqn:Hpc; destruct ev as [o now| | |[reason|r']| |fine|fine| |[res|]|o]; try done;
    try (by apply Hgo); try (by apply commit_wire); try (by apply record_wire; rewrite ?Hpc); try (by apply send_wire).
  - by destruct (_ <? _)%nat; [apply Hgo|].
  - destruct fine; by apply Hgo.
  - destruct fine; cbn [negb]; [|by apply Hgo]. destruct policy; [by apply Hgo|by apply Hstage].
  - destruct policy as [pol|]; [|done]. destruct (inspect_response r pol); cbn [verdict_pc]; (by apply Hgo) || (by apply Hstage).
Qed.
Lemma act_wire a s : wire_inv s -> wire_inv (act a s).
Proof.
  intros Hs. destruct a as [c|i ev|]; cbn.
  - destruct Hs as [H1 H2 H3 H4 H5].
    assert (Hlook : forall i e, (calls s ++ [start c]) !! i = Some e -> calls s !! i = Some e \/ e = start c).
    { intros i e [?|[_ H]]%lookup_app_Some; [by left|right]. destruct (i - _)%nat as [|[]]; by simplify_eq/=. }
    split; cbn; try done.
    + intros i e [Hi| ->]%Hlook; [by eapply H1|]. unfold start. destruct (call_id c), (call_hash c); (split; cbn; [by intros [?|?]|done|done]).
    + intros i j e e' id [Hi| ->]%Hlook [Hj| ->]%Hlook; try done. by apply H2.
    + intros x Hx. destruct (H3 x Hx) as (e&He&?). exists e. split; [|done]. by apply lookup_app_l_Some.
  - destruct (calls s !! i) as [e|] eqn:Hi; [|done]. by apply step_wire.
  - destruct Hs as [H1 H2 H3 H4 H5].
    assert (Hlook : forall i e, (die <$> calls s) !! i = Some e -> exists e0, calls s !! i = Some e0 /\ e = die e0).
    { intros i e. rewrite list_lookup_fmap. intros (e0&Hi&->)%fmap_Some. eauto. }
    assert (Hdie : forall e, e_call (die e) = e_call e /\ e_won (die e) = e_won e /\ (unsent (e_pc (die e)) = true -> False)).
    { intros e. unfold die. by destruct (e_pc e) as [| |? []| | | | | | |] eqn:Hp; cbn; rewrite ?Hp. }
    split; cbn; try done.
    + intros i e (e0&Hi&->)%Hlook. destruct (H1 _ _ Hi) as [O1 O2 O3]. unfold die. destruct (live (e_pc e0)) eqn:Hl; [|by split]. split; cbn; [|done|done].
      intros [?|Hw]; [done|]. apply O1. by right.
    + intros i j e e' id (e0&Hi&->)%Hlook (e1&Hj&->)%Hlook. destruct (Hdie e0) as (->&->&_), (Hdie e1) as (->&->&_). by eapply H2.
    + intros x Hx. destruct (H3 x Hx) as (e&He&Hid&Hu&Hhs). destruct (Hdie e) as (E1&E2&E3). exists (die e). rewrite list_lookup_fmap, He. unfold won_headers in *. rewrite E1, E2.
      split_and!; [done|done| |done]. destruct (unsent (e_pc (die e))); [by destruct E3|done].
Qed.
Lemma run_wire l : wire_inv (run l init).
Proof.
  induction l as [|a l IH] using rev_ind; unfold run in *; [|rewrite foldl_app; by apply act_wire].
  split; cbn; try done; intros; by (apply elem_of_nil in H || constructor).
Qed.

(** ** What is recorded, staged and audited *)
Definition on_wire (p : pc) : bool := match p with Firing _ true | Hooked _ | Inspecting _ | Extracting _ | Recording _ _ => true | _ => false end.
Definition refused (x : failure) : bool := match x with EgressInDoubtError | EgressDeniedError _ | RelayIOPlaneUnavailableError => true | _ => false end.
(** A response on record for this id and hash. *)
Definition on_record (s : system) (id h : string) (r : ExtractionResult) : Prop :=
  exists j e, (j, r) ∈ records s /\ calls s !! j = Some e /\ the_id e = Some id /\ the_hash e = Some h.
(** What one entry may claim. *)
Record claims_ok (s : system) (i : nat) (e : entry) : Prop := {
  cl_sent : on_wire (e_pc e) = true -> i ∈ s_call <$> wire s;
  cl_replay : forall o, e_pc e = Done o -> deduplicated o = true -> exists id h, the_id e = Some id /\ the_hash e = Some h /\ on_record s id h (o_result o);
  cl_own : forall t2 o, e_pc e = Recording t2 (Some o) -> deduplicated o = false;
  cl_staged : i ∈ staged s <-> exists r, e_pc e = Extracting r;
  cl_refused : forall x, e_pc e = Raised x -> refused x = true -> (i, x) ∈ refusals s }.
Record claims_inv (s : system) : Prop := {
  ri_claims : forall i e, calls s !! i = Some e -> claims_ok s i e;
  ri_rows : forall id row r, rows s !! id = Some row -> lr_response row = Some r -> on_record s id (lr_body_hash row) r;
  ri_records : forall j r, (j, r) ∈ records s -> j ∈ s_call <$> wire s;
  ri_staged : forall i, i ∈ staged s -> (i < length (calls s))%nat }.

(** One entry changes; what the others claim stays. *)
Lemma claims_update s s' i e e' : claims_inv s -> calls s !! i = Some e -> calls s' = <[i := e']> (calls s) -> e_call e' = e_call e ->
  (exists w, wire s' = wire s ++ w) -> (exists q, refusals s' = refusals s ++ q) -> (exists q, records s' = records s ++ q /\ forall j r, (j, r) ∈ q -> j ∈ s_call <$> wire s) ->
  (forall j, j <> i -> j ∈ staged s' <-> j ∈ staged s) ->
  (forall id row r, rows s' !! id = Some row -> lr_response row = Some r -> (exists row0, rows s !! id = Some row0 /\ lr_body_hash row0 = lr_body_hash row /\ lr_response row0 = Some r) \/ on_record s' id (lr_body_hash row) r) ->
  ((forall id h r, on_record s id h r -> on_record s' id h r) -> claims_ok s' i e') -> claims_inv s'.
Proof.
  intros [H1 H2 H3 H4] Hi Hc Hcall [w Hw] [q Hq] (k&Hk&Hknew) Hst Hrows Hcl. pose proof (lookup_lt_Some _ _ _ Hi) as Hlt.
  assert (Hrec : forall id h r, on_record s id h r -> on_record s' id h r).
  { intros id h r (j&f&Hj&Hf&Hid&Hh). destruct (decide (j = i)) as [->|Hne].
    - assert (f = e) as -> by congruence. exists i, e'. rewrite Hk, Hc, list_lookup_insert_eq, Hcall by done. split_and!; [set_solver|done..].
    - exists j, f. rewrite Hk, Hc, list_lookup_insert_ne by done. split_and!; [set_solver|done..]. }
  split.
  - intros j f. rewrite Hc. destruct (decide (j = i)) as [->|Hj]; [rewrite list_lookup_insert_eq by done; intros [= <-]; auto|].
    rewrite list_lookup_insert_ne by done. intros Hf. destruct (H1 _ _ Hf) as [C1 C2 C3 C4 C5]. split; [..|done| |].
    + rewrite Hw, fmap_app. set_solver.
    + intros o Ho Hd. destruct (C2 o Ho Hd) as (id&h&?&?&?). exists id, h. auto.
    + by rewrite Hst.
    + rewrite Hq. set_solver.
  - intros id row r Hr Hresp. destruct (Hrows _ _ _ Hr Hresp) as [(row0&Hr0&<-&Hresp0)|?]; [|done]. by apply Hrec, (H2 _ row0).
  - intros j r. rewrite Hk, Hw, fmap_app. intros [Hj|Hj]%elem_of_app; apply elem_of_app; left; [by apply (H3 _ r)|by apply (Hknew _ r)].
  - intros j Hj. rewrite Hc, length_insert. destruct (decide (j = i)) as [->|Hne]; [done|]. apply H4, Hst; done.
Qed.
(** The ledger unchanged, nothing recorded. *)
Lemma claims_goto s s' i e p w : claims_inv s -> calls s !! i = Some e -> calls s' = <[i := {| e_call := e_call e; e_won := e_won e; e_pc := p |}]> (calls s) ->
  wire s' = wire s ++ w -> rows s' = rows s -> (exists q, refusals s' = refusals s ++ q) -> records s' = records s -> (forall j, j <> i -> j ∈ staged s' <-> j ∈ staged s) ->
  (on_wire p = true -> i ∈ s_call <$> wire s') -> (forall o, p = Done o -> False) -> (forall t2 o, p = Recording t2 (Some o) -> deduplicated o = false) ->
  (i ∈ staged s' <-> exists r, p = Extracting r) -> (forall x, p = Raised x -> refused x = true -> (i, x) ∈ refusals s') -> claims_inv s'.
Proof.
  intros Hs Hi Hc Hw Hr Hq Hk Hst C1 C2 C3 C4 C5. eapply (claims_update s); [done|done|exact Hc|done|eauto|done| |done| |].
  - exists []. rewrite Hk, app_nil_r. split; [done|]. by intros ? ? ?%elem_of_nil.
  - intros id row r H1 H2. left. exists row. by rewrite <- Hr.
  - intros _. split; cbn; try done. intros o Ho. by destruct (C2 o).
Qed.
Lemma plain_ok s i e : i ∉ staged s -> match e_pc e with Committing | Waiting _ | Firing _ false | Refusing _ _ => True | Raised x => refused x = false | _ => False end -> claims_ok s i e.
Proof.
  intros Hst Hp. destruct e as [c w p]. cbn in Hp. destruct p as [| |? []| | | | | | |]; try done; split; cbn; try done; try (by split; [|intros [? ?]]).
  intros x [= <-] Hx. congruence.
Qed.
Lemma commit_record s i e o now b : wire_inv s -> claims_inv s -> calls s !! i = Some e -> e_pc e = Committing -> claims_inv (commit_step o now b i e s).
Proof.
  intros Hws Hs Hi Hpc. unfold commit_step. destruct (the_id e) as [id|] eqn:Hid; [|done]. destruct (the_hash e) as [h|] eqn:Hh; [|done].
  destruct (transaction o (commit_intent id h now) (rows s)) as [res l] eqn:Ht.
  assert (Hrows : forall id row r, l !! id = Some row -> lr_response row = Some r -> exists row0, rows s !! id = Some row0 /\ lr_body_hash row0 = lr_body_hash row /\ lr_response row0 = Some r).
  { intros id' row r Hrow Hr. apply transaction_inv in Ht as [[-> _]|(a&Ha&_)]; [by exists row|].
    apply commit_inv in Ha as [(_&_&row0&->&_&Hr0&_)|(->&_)]; [|by exists row]. apply lookup_insert_Some in Hrow as [[_ <-]|[_ ?]]; [congruence|by exists row]. }
  assert (Hnst : i ∉ staged s) by (rewrite (cl_staged _ _ _ (ri_claims _ Hs _ _ Hi)), Hpc; by intros [? ?]).
  assert (Hres : forall x, res = Err x -> refused x = false).
  { intros x ->. unfold transaction, commit_intent in Ht. repeat case_match; by simplify_eq/=. }
  assert (Hrep : forall r lang, res = Ok (IntentReplayComplete (Some r) lang) -> on_record s id h r).
  { intros r lang ->. apply transaction_inv in Ht as [[_ Hno]|(a&Ha&[[= <-]|Hno])]; [by destruct (Hno (IntentReplayComplete (Some r) lang))| |by destruct (Hno (IntentReplayComplete (Some r) lang))].
    apply commit_inv in Ha as [(?&_)|(_&row&Hrow&<-&[(r'&lang'&[= <- <-]&Hresp&_)|?])]; try done. by apply (ri_rows _ Hs). }
  destruct b; (eapply (claims_update s _ i e); [done|done|reflexivity|done|exists []; by rewrite app_nil_r|exists []; by rewrite app_nil_r| |done|left; by eapply Hrows|intros Hmono]);
    try (exists []; rewrite app_nil_r; split; [done|by intros ? ? ?%elem_of_nil]).
  - by apply plain_ok.
  - destruct res as [[|[r|] lang|]|x]; cbn [intent_pc]; try (by apply plain_ok).
    + split; cbn; try done; [|by split; [|intros [? ?]]]. intros out [= <-] _. exists id, h. split_and!; [done|done|]. by apply Hmono, (Hrep r lang).
    + apply plain_ok; [done|]. cbn. by destruct (idempotent _).
    + apply plain_ok; [done|]. cbn. by apply Hres.
Qed.
Lemma record_record s i e o b t2 next : wire_inv s -> claims_inv s -> calls s !! i = Some e -> e_pc e = Recording t2 next -> claims_inv (record_step o b i t2 next e s).
Proof.
  intros Hws Hs Hi Hpc. destruct (ok_row _ _ (wi_entries _ Hws _ _ Hi)) as (id&h&row&Hid&Hh&Hrow&Hhash); [rewrite Hpc; by left|].
  pose proof (ri_claims _ Hs _ _ Hi) as [C1 C2 C3 C4 C5]. rewrite Hpc in C1, C3, C4. pose proof (lookup_lt_Some _ _ _ Hi) as Hlt.
  assert (Hnst : i ∉ staged s) by (rewrite C4; by intros [? ?]).
  unfold record_step. rewrite Hid. destruct (transaction o (record_response id t2 (c_language (e_call e))) (rows s)) as [res l] eqn:Ht.
  assert (Hres : forall x, res = Err x -> refused x = false).
  { intros x ->. unfold transaction, record_response in Ht. repeat case_match; by simplify_eq/=. }
  eapply (claims_update s _ i e); [done|done|reflexivity|done|exists []; by rewrite app_nil_r|exists []; by rewrite app_nil_r| |done| |].
  - exists [(i, t2)]. split; [done|]. intros j r [= -> ->]%list_elem_of_singleton. by apply C1.
  - intros id' row' r Hr' Hresp. apply transaction_inv in Ht as [[-> _]|([]&Ha&_)]; [left; by exists row'|].
    apply record_inv in Ha as (row0&Hrow0&[->|(_&row1&->&Hh1&Hr1&_)]); [left; by exists row'|]. cbn in Hr'.
    apply lookup_insert_Some in Hr' as [[<- <-]|[_ ?]]; [right|left; by exists row']. assert (row0 = row) as -> by congruence. assert (r = t2) as -> by congruence.
    eexists i, _. cbn. rewrite list_lookup_insert_eq by done. split_and!; [set_solver|done|done|]. cbn. congruence.
  - intros _. destruct b; [by apply plain_ok|]. destruct res as [[]|x]; [destruct next as [out|]|].
    + split; cbn; try done; [|by split; [|intros [? ?]]]. intros out' [= <-] Hd. rewrite (C3 t2 out eq_refl) in Hd. done.
    + by apply plain_ok.
    + apply plain_ok; [done|]. cbn. by apply Hres.
Qed.
Lemma step_record i ev s e : wire_inv s -> claims_inv s -> calls s !! i = Some e -> claims_inv (step_entry i ev e s).
Proof.
  intros Hws Hs Hi. pose proof (ri_claims _ Hs _ _ Hi) as [C1 C2 C3 C4 C5]. unfold step_entry.
  assert (Hgo : forall p, i ∉ staged s -> (on_wire p = true -> on_wire (e_pc e) = true) ->
    match p with Done _ | Extracting _ => False | Raised x => refused x = false | Recording _ (Some o) => deduplicated o = false | _ => True end -> claims_inv (goto i p e s)).
  { intros p Hnst H1 H2. eapply (claims_goto s _ i e p []); try done; [by rewrite app_nil_r|exists []; by rewrite app_nil_r|auto|by intros ? ->|by intros ? ? ->|by split; [|intros [? ->]]|].
    intros x -> Hx. congruence. }
  assert (Hstage : forall r, on_wire (e_pc e) = true -> claims_inv (stage i r e s)).
  { intros r H1. eapply (claims_goto s _ i e (Extracting r) []); try done; [by rewrite app_nil_r|exists []; by rewrite app_nil_r|cbn; set_solver|auto|]. cbn. split; [eauto|set_solver]. }
  assert (Hdrop : forall p, on_wire (e_pc e) = true -> match p with Raised x => refused x = false | Recording _ (Some o) => deduplicated o = false | _ => False end ->
    claims_inv (goto i p e (set_staged (staged s ∖ {[i]}) s))).
  { intros p H1 H2. eapply (claims_goto s _ i e p []); try done; [by rewrite app_nil_r|exists []; by rewrite app_nil_r|cbn; set_solver|auto|by intros ? ->|by intros ? ? ->| |].
    - cbn. split; [set_solver|]. by intros [r ->].
    - intros x -> Hx. congruence. }
  destruct (e_pc e) as [|hs|hs [] |x holds|r|r|r|t2 next|out|x] eqn:Hpc;
    try (assert (Hnst : i ∉ staged s) by (rewrite C4; by intros [? ?]));
    destruct ev as [o now| | |[reason|r']| |fine|fine| |[res|]|o]; try done; try (by apply Hgo); try (by apply Hdrop); try (by apply commit_record); try (by eapply record_record).
  - by destruct (_ <? _)%nat; [apply Hgo|].
  - unfold send. destruct (the_id e) as [id|]; [|done]. eapply (claims_goto s _ i e (Firing hs true) [_]); try done; [exists []; by rewrite app_nil_r| |by split; [|intros [? ?]]].
    intros _. cbn. rewrite fmap_app. set_solver.
  - destruct fine; [|by apply Hgo]. eapply (claims_goto s _ i e (Raised x) []); try done; [by rewrite app_nil_r|by eexists|by split; [|intros [? ?]]|].
    intros y [= <-] _. cbn. set_solver.
  - destruct fine; cbn [negb]; [|by apply Hgo]. destruct policy; [by apply Hgo|by apply Hstage].
  - destruct policy as [pol|]; [|done]. destruct (inspect_response r pol); cbn [verdict_pc]; (by apply Hgo) || (by apply Hstage).
Qed.
Lemma act_record a s : wire_inv s -> claims_inv s -> claims_inv (act a s).
Proof.
  intros Hws Hs. destruct a as [c|i ev|]; cbn.
  - destruct Hs as [H1 H2 H3 H4].
    assert (Hmono : forall id h r, on_record s id h r -> on_record (act (Start c) s) id h r).
    { intros id h r (j&e&?&He&?). exists j, e. split; [done|]. split; [by apply lookup_app_l_Some|done]. }
    split; cbn; try done.
    + intros i e [Hi|[Hle He]]%lookup_app_Some.
      * destruct (H1 _ _ Hi) as [C1 C2 C3 C4 C5]. split; try done. intros o Ho Hd. destruct (C2 o Ho Hd) as (id&h&?&?&?). exists id, h. split_and!; [done|done|]. by apply Hmono.
      * assert (e = start c) as -> by (destruct (i - _)%nat as [|[]]; by simplify_eq/=). apply plain_ok; [intros Hst; specialize (H4 _ Hst); lia|].
        unfold start. by destruct (call_id c), (call_hash c).
    + intros id row r Hr Hresp. by apply Hmono, (H2 _ row).
    + intros i Hi. rewrite length_app. specialize (H4 _ Hi). lia.
  - destruct (calls s !! i) as [e|] eqn:Hi; [|done]. by apply step_record.
  - destruct Hs as [H1 H2 H3 H4].
    assert (Hdie : forall e, e_call (die e) = e_call e) by (intros e; unfold die; by destruct (live _)).
    assert (Hmono : forall id h r, on_record s id h r -> on_record (act Crash s) id h r).
    { intros id h r (j&e&?&He&?). exists j, (die e). cbn. rewrite list_lookup_fmap, He, Hdie. done. }
    split; cbn; try done.
    + intros i e. rewrite list_lookup_fmap. intros (e0&Hi&->)%fmap_Some. unfold die. destruct (live (e_pc e0)) eqn:Hl; [by apply plain_ok|].
      destruct (H1 _ _ Hi) as [C1 C2 C3 C4 C5]. split; [by destruct (e_pc e0)| |by destruct (e_pc e0)| |done].
      * intros o Ho Hd. destruct (C2 o Ho Hd) as (id&h&?&?&?). exists id, h. split_and!; [done|done|]. by apply Hmono.
      * split; [set_solver|]. intros [r Hr]. by rewrite Hr in Hl.
    + intros id row r Hr Hresp. by apply Hmono, (H2 _ row).
Qed.
Lemma run_record l : claims_inv (run l init).
Proof.
  induction l as [|a l IH] using rev_ind; unfold run in *; [|rewrite foldl_app; apply act_record; [apply run_wire|done]].
  split; cbn; try done; intros; by apply elem_of_nil in H.
Qed.

(** ** The semaphore *)
Lemma slots_cons e l : slots (e :: l) = ((if slot_held (e_pc e) then 1 else 0) + slots l)%nat.
Proof. unfold slots. rewrite filter_cons. by destruct (slot_held (e_pc e)). Qed.
Lemma slots_insert i e e' l : l !! i = Some e ->
  (slots (<[i := e']> l) + (if slot_held (e_pc e) then 1 else 0) = slots l + (if slot_held (e_pc e') then 1 else 0))%nat.
Proof.
  revert i. induction l as [|f l IH]; intros [|i]; cbn [lookup]; [done..|intros [= ->]|intros H].
  - change (<[0%nat := e']> (e :: l)) with (e' :: l). rewrite !slots_cons. lia.
  - change (<[S i := e']> (f :: l)) with (f :: <[i := e']> l). rewrite !slots_cons. specialize (IH _ H). lia.
Qed.
Lemma slots_append e l : slots (l ++ [e]) = (slots l + (if slot_held (e_pc e) then 1 else 0))%nat.
Proof. unfold slots. rewrite filter_app, length_app, filter_cons. by destruct (slot_held (e_pc e)). Qed.
Lemma slots_die l : slots (die <$> l) = 0%nat.
Proof.
  induction l as [|e l IH]; [done|]. rewrite fmap_cons, slots_cons, IH. unfold die. destruct (live (e_pc e)) eqn:Hl; [done|]. by destruct (e_pc e).
Qed.
(** A step changes at most its own entry, and takes a slot only when one is free. *)
Lemma step_slots i ev e s : calls s !! i = Some e ->
  calls (step_entry i ev e s) = calls s \/
  exists e', calls (step_entry i ev e s) = <[i := e']> (calls s) /\ (slot_held (e_pc e') = true -> slot_held (e_pc e) = true \/ (slots (calls s) < concurrency)%nat).
Proof.
  intros Hi. unfold step_entry, commit_step, record_step, send, stage, goto, set_entry, verdict_pc, intent_pc.
  destruct (e_pc e) as [|hs|hs []|x holds|r|r|r|t2 next|out|x]; destruct ev as [o now| | |[reason|r']| |fine|fine| |[res|]|o]; cbn [negb]; try (by left);
    repeat (case_match; cbn [calls] in *; try (by left)); try (right; eexists; split; [reflexivity|]; cbn; try done; auto).
  all: repeat case_match; simplify_eq/=; try done; auto.
  right. by apply Nat.ltb_lt.
Qed.
Lemma run_slots l : (slots (calls (run l init)) <= concurrency)%nat.
Proof.
  induction l as [|a l IH] using rev_ind; unfold run in *; [cbn; lia|]. rewrite foldl_app. cbn [foldl]. set (s := foldl _ _ l) in *. destruct a as [c|i ev|]; cbn [act calls].
  - rewrite slots_append. unfold start. destruct (call_id c), (call_hash c); cbn; lia.
  - destruct (calls s !! i) as [e|] eqn:Hi; [|done]. destruct (step_slots i ev e s Hi) as [->|(e'&->&Hh)]; [done|]. pose proof (slots_insert i e e' _ Hi).
    destruct (slot_held (e_pc e')); [|destruct (slot_held (e_pc e)); lia]. destruct (Hh eq_refl) as [Hx|]; [rewrite Hx in *|destruct (slot_held (e_pc e))]; lia.
  - rewrite slots_die. lia.
Qed.

(** ** Theorems *)
Lemma keyed_has_key id hs : has_key (keyed_headers id hs) = [("Idempotency-Key"%string, id)].
Proof.
  unfold has_key, keyed_headers. rewrite filter_app, (filter_none _ (filter _ hs)); [done|]. intros kv [Hkv _]%list_elem_of_filter. done.
Qed.

(** C31: an egress fires at most once: whatever fails, is cancelled, dies and is replayed, of
    two requests on the wire with one egress id at least one belongs to a tool declared
    idempotent and carries the egress id as its only idempotency key. *)
Theorem egress_fires_at_most_once l m n x y : let s := run l init in
  m <> n -> wire s !! m = Some x -> wire s !! n = Some y -> s_id x = s_id y ->
  exists z e, z ∈ [x; y] /\ calls s !! s_call z = Some e /\ idempotent (raw_request (e_call e)) = true /\ has_key (s_headers z) = [("Idempotency-Key"%string, s_id z)].
Proof.
  intros s Hmn Hx Hy Hid. destruct (run_wire l) as [H1 H2 H3 H4 _]. fold s in H1, H2, H3, H4.
  destruct (H3 x) as (e&He&Hide&_&Hhx); [by eapply list_elem_of_lookup_2|]. destruct (H3 y) as (f&Hf&Hidf&_&Hhy); [by eapply list_elem_of_lookup_2|].
  unfold won_headers in *. destruct (e_won e) eqn:Hwe.
  2: { destruct Hhx as [Hi Hk]. exists x, e. rewrite Hk, keyed_has_key. split_and!; [set_solver|done..]. }
  destruct (e_won f) eqn:Hwf.
  2: { destruct Hhy as [Hi Hk]. exists y, f. rewrite Hk, keyed_has_key. split_and!; [set_solver|done..]. }
  destruct Hmn. apply (NoDup_lookup _ m n (s_call x) H4); rewrite list_lookup_fmap, ?Hx, ?Hy; [done|]. cbn. f_equal. symmetry.
  eapply (H2 _ _ e f (s_id x)); try done. congruence.
Qed.

(** A replayed answer is the answer to the same request: it was recorded by a call, with
    the same adapter, message, session and call index, whose request went out, with the same
    method, URL, schema and redacted body and the same headers up to order and case. *)
Theorem replayed_answer_is_for_the_same_request (sha256_inj : forall a b, sha256 a = sha256 b -> a = b) l i e o :
  let s := run l init in
  calls s !! i = Some e -> e_pc e = Done o -> deduplicated o = true ->
  exists j f, (j, o_result o) ∈ records s /\ calls s !! j = Some f /\ j ∈ s_call <$> wire s /\
    let c := e_call e in let c' := e_call f in
    ctx c' = ctx c /\ call_index c' = call_index c /\ method (raw_request c') = method (raw_request c) /\ url (raw_request c') = url (raw_request c) /\
    schema_id c' = schema_id c /\ redacted_text c' = redacted_text c /\ folded_headers (headers (raw_request c')) = folded_headers (headers (raw_request c)).
Proof.
  intros s Hi Ho Hd. destruct (run_record l) as [H1 _ H3 _]. fold s in H1, H3.
  destruct (cl_replay _ _ _ (H1 _ _ Hi) o Ho Hd) as (id&h&Hid&Hh&(j&f&Hj&Hf&Hidf&Hhf)). exists j, f. split_and!; [done|done|by eapply H3|]. cbn zeta.
  unfold call_id, compute_egress_id in *. pose proof (hashed_inj _ sha256_inj _ _ _ Hid Hidf) as Heq.
  destruct (ctx (e_call e)), (ctx (e_call f)). injection Heq as -> -> -> Hidx%decimal_inj. split; [done|]. split; [done|].
  unfold call_hash in *. apply bind_Some in Hh as (d&Hd1&Hh), Hhf as (d'&Hd2&Hhf). destruct (body_hash_inj _ sha256_inj _ _ _ _ _ _ _ Hh Hhf) as (<-&->&->).
  unfold compute_request_descriptor in *. pose proof (hashed_inj _ sha256_inj _ _ _ Hd1 Hd2) as Heq'. by injection Heq' as -> -> ->.
Qed.

(** No raw body is orphaned, no refusal is silent and the relay is not overrun: a raw
    body is staged for exactly the calls that are being extracted; each call that ended
    denied, in doubt or with the relay unreachable has its audit row; and at most
    [concurrency] calls hold a slot. *)
Theorem staged_bodies_audits_and_slots l : let s := run l init in
  (forall i, i ∈ staged s <-> exists e r, calls s !! i = Some e /\ e_pc e = Extracting r) /\
  (forall i e x, calls s !! i = Some e -> e_pc e = Raised x -> refused x = true -> (i, x) ∈ refusals s) /\
  (slots (calls s) <= concurrency)%nat.
Proof.
  intros s. destruct (run_record l) as [H1 _ _ H4]. fold s in H1, H4. split_and!; [| |apply run_slots].
  - intros i. split.
    + intros Hi. destruct (lookup_lt_is_Some_2 (calls s) i (H4 i Hi)) as [e He]. destruct (cl_staged _ _ _ (H1 _ _ He)) as [H _]. destruct (H Hi) as [r Hr]. eauto.
    + intros (e&r&He&Hr). apply (cl_staged _ _ _ (H1 _ _ He)). eauto.
  - intros i e x He. apply (cl_refused _ _ _ (H1 _ _ He)).
Qed.

Lemma commit_fresh id h now : exists l, transaction Commits (commit_intent id h now) ∅ = (Ok IntentFresh, l) /\ exists row, l !! id = Some row /\ lr_body_hash row = h /\ lr_state row = committed_no_response.
Proof. unfold transaction, commit_intent. rewrite lookup_empty. eexists. split; [reflexivity|]. eexists. rewrite lookup_insert_eq. done. Qed.
Lemma commit_doubt id h now l : (exists row, l !! id = Some row /\ lr_body_hash row = h /\ lr_state row = committed_no_response) ->
  transaction Commits (commit_intent id h now) l = (Ok IntentInDoubt, l).
Proof. intros (row&Hrow&<-&Hs). unfold transaction, commit_intent. rewrite Hrow, bool_decide_eq_true_2, Hs by done. done. Qed.

(** What a server does that runs a request without a key each time and one with a key once. *)
Fixpoint executions (seen : list string) (l : list sent) : nat :=
  match l with
  | [] => 0
  | x :: l => match has_key (s_headers x) with
              | [] => S (executions seen l)
              | (_, k) :: _ => if decide (k ∈ seen) then executions seen l else S (executions (k :: seen) l)
              end
  end.
(** The process dies after the request went out; the turn is run again. *)
Definition refire (c : call) : list action :=
  [Start c; Step 0 (Txn Commits 0); Step 0 Acquire; Step 0 Write; Crash; Start c; Step 1 (Txn Commits 1); Step 1 Acquire; Step 1 Write].
(** The idempotency key of a refire does not protect the first request: for any tool
    declared idempotent that sets no key of its own, if the process dies once the request
    is out and the turn runs again, the server receives it first without a key and then with
    the egress id as its key, and runs it twice. *)
Theorem refired_request_runs_twice c id h : call_id c = Some id -> call_hash c = Some h -> idempotent (raw_request c) = true ->
  has_key (headers (raw_request c)) = [] -> (0 < concurrency)%nat ->
  let s := run (refire c) init in
  s_id <$> wire s = [id; id] /\ has_key <$> (s_headers <$> wire s) = [[]; [("Idempotency-Key"%string, id)]] /\ executions [] (wire s) = 2%nat.
Proof.
  intros Hid Hh Hidem Hkey Hc. assert (Hst : start c = {| e_call := c; e_won := false; e_pc := Committing |}) by (unfold start; by rewrite Hid, Hh).
  assert (Hslot : forall l, Forall (fun e => slot_held (e_pc e) = false) l -> (slots l <? concurrency)%nat = true).
  { intros l Hl. apply Nat.ltb_lt. unfold slots. rewrite filter_none; [done|]. intros e He. rewrite Forall_forall in Hl. by rewrite (Hl e He). }
  set (hs := headers (raw_request c)) in *.
  destruct (commit_fresh id h 0) as (l1&H1&Hrow). pose proof (commit_doubt id h 1 l1 Hrow) as H2.
  unfold run, refire, init. cbn [foldl act calls app]. rewrite Hst. cbn -[transaction commit_intent Nat.ltb slots]. unfold commit_step. cbn -[transaction commit_intent Nat.ltb slots].
  rewrite Hid, Hh, H1. cbn -[transaction commit_intent Nat.ltb slots]. rewrite Hslot by by repeat constructor. cbn -[transaction commit_intent Nat.ltb slots]. unfold send. cbn -[transaction commit_intent Nat.ltb slots]. rewrite Hid. cbn -[transaction commit_intent Nat.ltb slots].
  unfold commit_step. cbn -[transaction commit_intent Nat.ltb slots]. rewrite Hid, Hh, H2. cbn -[transaction commit_intent Nat.ltb slots]. rewrite Hidem. cbn -[transaction commit_intent Nat.ltb slots]. rewrite Hslot by by repeat constructor. cbn -[transaction commit_intent Nat.ltb slots]. unfold send. cbn -[transaction commit_intent Nat.ltb slots]. rewrite Hid. cbn -[transaction commit_intent Nat.ltb slots]. fold hs.
  pose proof (keyed_has_key id hs) as Hk. unfold has_key in Hk, Hkey. rewrite Hkey, Hk. done.
Qed.
End relay.

(** A turn that fetches a page with a tool declared idempotent. *)
Definition sha : list Byte.byte -> string := String.string_of_list_byte.
Definition sample_call : call := {|
  raw_request := {| method := "GET"; url := "https://a.org/"; headers := [("Accept", "text/html")]; body := ""; idempotent := true |};
  ctx := {| adapter_id := "web"; inbound_id := "m1"; session_id := "s" |}; call_index := 0; schema_id := "Page:v1"; c_language := None; redacted_text := "" |}%string.
Lemma egress_fires_at_most_once_witness :
  exists x y, let s := run sha None 1 (refire sample_call) init in
  0%nat <> 1%nat /\ wire s !! 0%nat = Some x /\ wire s !! 1%nat = Some y /\ s_id x = s_id y /\
  exists z e, z ∈ [x; y] /\ calls s !! s_call z = Some e /\ idempotent (raw_request (e_call e)) = true /\ has_key (s_headers z) = [("Idempotency-Key"%string, s_id z)].
Proof.
  do 2 eexists. intros s. assert (Hx : wire s !! 0%nat = Some _) by (vm_compute; reflexivity). assert (Hy : wire s !! 1%nat = Some _) by (vm_compute; reflexivity).
  split; [done|]. split; [exact Hx|]. split; [exact Hy|]. split; [vm_compute; reflexivity|].
  apply (egress_fires_at_most_once sha None 1 (refire sample_call) 0 1 _ _ ltac:(done) Hx Hy). vm_compute. reflexivity.
Defined.
Lemma refired_request_runs_twice_witness :
  exists id h, call_id sha sample_call = Some id /\ call_hash sha sample_call = Some h /\ (0 < 1)%nat /\
  let s := run sha None 1 (refire sample_call) init in
  s_id <$> wire s = [id; id] /\ has_key <$> (s_headers <$> wire s) = [[]; [("Idempotency-Key"%string, id)]] /\ executions [] (wire s) = 2%nat.
Proof.
  do 2 eexists. assert (Hid : call_id sha sample_call = Some _) by (vm_compute; reflexivity). assert (Hh : call_hash sha sample_call = Some _) by (vm_compute; reflexivity).
  split; [exact Hid|]. split; [exact Hh|]. split; [lia|]. apply (refired_request_runs_twice sha None 1 sample_call _ _ Hid Hh eq_refl eq_refl). lia.
Defined.
Lemma replayed_answer_is_for_the_same_request_witness :
  let l := [Start sample_call; Step 0 (Txn Commits 0); Step 0 Acquire; Step 0 Write; Step 0 (Reply (inr {| status := 200; response_headers := []; response_body := [] |}));
            Step 0 (Resumed true); Step 0 (Finished (Some (Extracted "page"))); Step 0 (Txn Commits 1); Crash; Start sample_call; Step 1 (Txn Commits 2)] in
  let s := run sha None 1 l init in
  length (wire s) = 1%nat /\ exists e o, calls s !! 1%nat = Some e /\ e_pc e = Done o /\ deduplicated o = true /\ o_result o = Extracted "page" /\
  exists j f, (j, o_result o) ∈ records s /\ calls s !! j = Some f /\ j ∈ s_call <$> wire s /\
    let c := e_call e in let c' := e_call f in
    ctx c' = ctx c /\ call_index c' = call_index c /\ method (raw_request c') = method (raw_request c) /\ url (raw_request c') = url (raw_request c) /\
    schema_id c' = schema_id c /\ redacted_text c' = redacted_text c /\ folded_headers (headers (raw_request c')) = folded_headers (headers (raw_request c)).
Proof.
  intros l s. split; [vm_compute; reflexivity|]. do 2 eexists. assert (He : calls s !! 1%nat = Some _) by (vm_compute; reflexivity).
  assert (Hinj : forall a b, sha a = sha b -> a = b).
  { intros a b H. unfold sha in H. rewrite <- (String.list_byte_of_string_of_list_byte a), <- (String.list_byte_of_string_of_list_byte b). by rewrite H. }
  split; [exact He|]. split; [reflexivity|]. split; [reflexivity|]. split; [reflexivity|].
  apply (replayed_answer_is_for_the_same_request sha None 1 Hinj l 1 _ _ He eq_refl eq_refl).
Defined.
