(* ===== verification/WebAllowlist.v ===== *)
(** * [plugins/web_fetch/allowlist.py]: the three-way allowlist of web.fetch

    The construction of the effective entries, the check of a URL with the path
    normalisation of the standard library it relies on, and the broadening-cap report.
    [urlparse] is applied by the caller: a URL is its host part and its path.  A [str] is
    its UTF-8 encoding, and percent-escapes decode to bytes. *)
From S2P Require Import Prelude.
From Stdlib Require Import Strings.Ascii.

(** ** Strings *)
Definition startswith (s p : string) : bool := String.prefix p s.
Fixpoint split_slash (s : string) : list string :=
  match s with
  | EmptyString => [""%string]
  | String a s' => if decide (a = "/"%char) then ""%string :: split_slash s'
                   else match split_slash s' with w :: l => String a w :: l | [] => [String a ""] end
  end.
Definition endswith_slash (s : string) : bool := match last (String.list_ascii_of_string s) with Some a => bool_decide (a = "/"%char) | None => false end.
Definition with_slash (s : string) : string := if endswith_slash s then s else (s ++ "/")%string.

(** [urllib.parse.unquote]: a percent sign with two hex digits is a byte. *)
Definition hex_value (a : ascii) : option N :=
  let n := N_of_ascii a in
  if (48 <=? n)%N && (n <=? 57)%N then Some (n - 48)%N
  else if (65 <=? n)%N && (n <=? 70)%N then Some (n - 55)%N
  else if (97 <=? n)%N && (n <=? 102)%N then Some (n - 87)%N
  else None.
Fixpoint unquote (s : string) : string :=
  match s with
  | EmptyString => EmptyString
  | String a s1 =>
      match s1 with
      | String b (String c s3) =>
          match (if decide (a = "%"%char) then hex_value b else None), hex_value c with
          | Some h, Some l => String (ascii_of_N (16 * h + l)) (unquote s3)
          | _, _ => String a (unquote s1)
          end
      | _ => String a (unquote s1)
      end
  end.

(** [posixpath.normpath] *)
Definition normpath_step (rooted : bool) (comps : list string) (comp : string) : list string :=
  if decide (comp = ""%string \/ comp = "."%string) then comps
  else if negb (bool_decide (comp = ".."%string)) || (negb rooted && bool_decide (comps = [])) || bool_decide (last comps = Some ".."%string) then comps ++ [comp]
  else removelast comps.
Definition initial_slashes (path : string) : nat :=
  if startswith path "/" then if startswith path "//" && negb (startswith path "///") then 2 else 1 else 0.
Definition normpath (path : string) : string :=
  if decide (path = ""%string) then "."%string
  else let n := initial_slashes path in
       let comps := foldl (normpath_step (0 <? n)%nat) [] (split_slash path) in
       let joined := (String.concat "" (replicate n "/") ++ String.concat "/" comps)%string in
       if decide (joined = ""%string) then "."%string else joined.

(** ** Entries *)
Record AllowlistEntry := { domain : string; path_prefix : string }.
(** [AllowlistEntry(...)] raises [ValueError] on a prefix that is not absolute. *)
Definition make_entry (d p : string) : option AllowlistEntry := if startswith p "/" then Some {| domain := d; path_prefix := with_slash p |} else None.
Definition _prefix_chain_compatible (a b : string) : bool := startswith a b || startswith b a.
Definition _narrower (a b : string) : string := if (String.length b <=? String.length a)%nat then a else b.
Definition well_formed (e : AllowlistEntry) : Prop := make_entry (domain e) (path_prefix e) = Some e.

(** One pass of the intersection: the pairs of an entry with another tier. *)
Definition paired (e : AllowlistEntry) (tier : list AllowlistEntry) : list (option AllowlistEntry) :=
  (fun o => make_entry (domain e) (_narrower (path_prefix e) (path_prefix o))) <$>
  filter (fun o => domain o = domain e /\ _prefix_chain_compatible (path_prefix e) (path_prefix o) = true) tier.
Record AllowlistIntersection := { _manifest_capped_entries : list AllowlistEntry; _effective : list AllowlistEntry }.
Definition intersect (manifest operator session : list AllowlistEntry) : option AllowlistIntersection :=
  manifest_operator ← mapM id (manifest ≫= fun m => paired m operator);
  effective ← mapM id (manifest_operator ≫= fun mo => paired mo session);
  Some {| _manifest_capped_entries := filter (fun m => paired m operator = []) manifest; _effective := effective |}.

(** The path a URL is matched with; [None] is a [..] segment. *)
Definition candidate (path : string) : option string :=
  let decoded := unquote (if decide (path = ""%string) then "/"%string else path) in
  if bool_decide (".."%string ∈ split_slash decoded) then None
  else let norm := normpath decoded in Some (with_slash (if decide (norm = "."%string) then "/"%string else norm)).
Definition admits (netloc cand : string) (e : AllowlistEntry) : bool := bool_decide (domain e = netloc) && startswith cand (path_prefix e).
(** [check] returns, or raises [DomainNotAllowed]. *)
Definition check_url (al : AllowlistIntersection) (netloc path : string) : bool :=
  match candidate path with
  | None => false
  | Some cand => existsb (admits netloc cand) (_effective al)
  end.

Record BroadeningCapEvent := { manifest_domains : list string; operator_allowed_domains : list string; capped_domains : list AllowlistEntry }.
Definition broadening_cap_events (manifest operator : list AllowlistEntry) (al : AllowlistIntersection) : list BroadeningCapEvent :=
  match _manifest_capped_entries al with
  | [] => []
  | capped => [{| manifest_domains := domain <$> manifest; operator_allowed_domains := domain <$> operator; capped_domains := capped |}]
  end.

Example traversal_1 : candidate "/public/%2e%2E/admin" = None. Proof. reflexivity. Qed.
Example traversal_2 : candidate "/public//./a%20b" = Some "/public/a b/"%string. Proof. reflexivity. Qed.
Example traversal_3 : candidate "" = Some "/"%string. Proof. reflexivity. Qed.

(** ** The intersection is a conjunction *)
Lemma app_cons a (p q : string) : (String a p ++ q)%string = String a (p ++ q).
Proof. done. Qed.
Lemma app_empty (q : string) : ("" ++ q)%string = q.
Proof. done. Qed.
Lemma startswith_iff s p : startswith s p = true <-> exists r, s = (p ++ r)%string.
Proof.
  unfold startswith. revert s. induction p as [|a p IH]; intros s; [split; [intros _; by exists s|by destruct s]|].
  destruct s as [|b s]; [split; [done|by intros [r ?]]|]. cbn. destruct (ascii_dec a b) as [->|Hne].
  - rewrite IH. split; intros [r Hr]; exists r; rewrite app_cons in *; [by rewrite Hr|by injection Hr].
  - split; [done|]. intros [r Hr]. rewrite app_cons in Hr. by injection Hr as ->.
Qed.
Lemma startswith_refl s : startswith s s = true.
Proof. apply startswith_iff. exists ""%string. induction s as [|a s IH]; [done|]. by rewrite app_cons, <- IH. Qed.
(** Two prefixes of one path are on a chain, and the longer stands for both. *)
Lemma chain_narrower c a b : (_prefix_chain_compatible a b = true /\ startswith c (_narrower a b) = true) <-> startswith c a = true /\ startswith c b = true.
Proof.
  unfold _prefix_chain_compatible, _narrower. rewrite orb_true_iff, !startswith_iff.
  assert (Hlen : forall p q, String.length (p ++ q) = (String.length p + String.length q)%nat) by (intros p q; induction p as [|x p IHp]; [done|]; rewrite ?app_cons; cbn; by rewrite IHp).
  assert (Happ : forall p q r : string, ((p ++ q) ++ r)%string = (p ++ (q ++ r))%string) by (intros p q r; induction p as [|x p IHp]; [done|]; rewrite ?app_cons; cbn; by rewrite IHp).
  assert (Hnil : forall p : string, (p ++ "")%string = p) by (intros p; induction p as [|x p IHp]; [done|]; rewrite ?app_cons; cbn; by rewrite IHp).
  split.
  - intros [[[r Hr]|[r Hr]] Hc]; [subst a|subst b]; rewrite Hlen in Hc.
    + rewrite (proj2 (Nat.leb_le _ _)) in Hc by lia. destruct Hc as [t ->]. split; [eauto|]. exists (r ++ t)%string. by rewrite Happ.
    + destruct (Nat.leb_spec (String.length a + String.length r) (String.length a)) as [Hle|_].
      * assert (r = ""%string) as -> by (destruct r; [done|cbn in Hle; lia]). rewrite Hnil in *. eauto.
      * destruct Hc as [t ->]. split; [|eauto]. exists (r ++ t)%string. by rewrite Happ.
  - intros [[r Hr] [t Ht]]. subst c. split; [|destruct (Nat.leb_spec (String.length b) (String.length a)); eauto].
    revert b r t Ht. induction a as [|x a IH]; intros b r t Ht; [right; by exists b|]. destruct b as [|y b]; [left; by exists (String x a)|].
    rewrite !app_cons in Ht. injection Ht as <- Ht. destruct (IH b r t Ht) as [[q ->]|[q ->]]; [left|right]; by exists q.
Qed.
Lemma slash_snoc s : endswith_slash (s ++ "/") = true.
Proof.
  unfold endswith_slash. assert (String.list_ascii_of_string (s ++ "/") = String.list_ascii_of_string s ++ ["/"%char]) as ->; [|by rewrite last_snoc].
  induction s as [|a s IH]; [done|]. rewrite app_cons. cbn. by rewrite IH.
Qed.
Lemma make_entry_well_formed d p e : make_entry d p = Some e -> well_formed e.
Proof.
  unfold make_entry, well_formed, with_slash. destruct (startswith p "/") eqn:Hp; [|done]. intros [= <-]. cbn. unfold make_entry, with_slash.
  destruct (endswith_slash p) eqn:He; [by rewrite Hp, He|]. rewrite slash_snoc. apply startswith_iff in Hp as [r ->].
  assert (startswith (("/" ++ r) ++ "/") "/" = true) as ->; [|done]. apply startswith_iff. exists (r ++ "/")%string. by rewrite !app_cons, !app_empty.
Qed.
Lemma narrower_well_formed d a b : well_formed {| domain := d; path_prefix := a |} -> well_formed {| domain := d; path_prefix := b |} ->
  make_entry d (_narrower a b) = Some {| domain := d; path_prefix := _narrower a b |}.
Proof. unfold well_formed, _narrower. cbn. intros Ha Hb. by destruct (_ <=? _)%nat. Qed.

Lemma admits_narrower netloc cand e o : domain o = domain e -> _prefix_chain_compatible (path_prefix e) (path_prefix o) = true ->
  admits netloc cand {| domain := domain e; path_prefix := _narrower (path_prefix e) (path_prefix o) |} = admits netloc cand e && admits netloc cand o.
Proof.
  intros Hd Hc. unfold admits. cbn [domain path_prefix]. rewrite Hd. pose proof (chain_narrower cand (path_prefix e) (path_prefix o)) as H.
  case_bool_decide; [|done]. cbn [andb]. apply eq_true_iff_eq. rewrite andb_true_iff. tauto.
Qed.
Lemma admits_both netloc cand e o : admits netloc cand e = true -> admits netloc cand o = true ->
  domain o = domain e /\ _prefix_chain_compatible (path_prefix e) (path_prefix o) = true.
Proof.
  unfold admits. rewrite !andb_true_iff, !bool_decide_eq_true. intros [He H1] [Ho H2]. split; [congruence|]. by apply (chain_narrower cand).
Qed.

(** The pairs of an entry, all constructed, admit what both tiers admit. *)
Lemma paired_some e tier : well_formed e -> Forall well_formed tier ->
  exists l, mapM id (paired e tier) = Some l /\ Forall well_formed l /\
    forall netloc cand, existsb (admits netloc cand) l = admits netloc cand e && existsb (admits netloc cand) tier.
Proof.
  intros He Ht. induction Ht as [|o tier Ho Ht (l&Hl&Hwf&Hl')]; [exists []; split_and!; [done|done|intros; by rewrite andb_false_r]|].
  unfold paired in *. rewrite filter_cons. destruct (decide _) as [[Hd Hc]|Hn].
  - rewrite fmap_cons. cbn [mapM]. rewrite (narrower_well_formed (domain e)); [|by destruct e|by rewrite <- Hd; destruct o].
    cbn. change (mapM (fun x => x)) with (mapM (M := option) (A := option AllowlistEntry) id). rewrite Hl. eexists. split; [reflexivity|]. split.
    + constructor; [|done]. by eapply make_entry_well_formed, narrower_well_formed; [destruct e|rewrite <- Hd; destruct o].
    + intros netloc cand. cbn [existsb]. rewrite Hl', (admits_narrower _ _ e o) by done. destruct (admits netloc cand e), (admits netloc cand o); done.
  - exists l. split; [done|]. split; [done|]. intros netloc cand. rewrite Hl'. cbn [existsb].
    destruct (admits netloc cand e) eqn:He1, (admits netloc cand o) eqn:Ho1; cbn [andb orb]; try done. exfalso. by eapply Hn, admits_both.
Qed.
(** One step of the construction, over a whole tier. *)
Lemma paired_tier l tier : Forall well_formed l -> Forall well_formed tier -> exists k, mapM id (l ≫= fun e => paired e tier) = Some k /\ Forall well_formed k /\
  forall netloc cand, existsb (admits netloc cand) k = existsb (admits netloc cand) l && existsb (admits netloc cand) tier.
Proof.
  intros Hl Ht. induction Hl as [|e l He Hl (k&Hk&Hw&Hall)]; [by exists []|]. destruct (paired_some e tier He Ht) as (k'&Hk'&Hw'&Hall').
  exists (k' ++ k). cbn [mbind list_bind]. split; [|split; [by apply Forall_app|]].
  - apply mapM_Some in Hk, Hk'. apply mapM_Some. by apply Forall2_app.
  - intros netloc cand. rewrite existsb_app, Hall, Hall'. cbn [existsb]. by rewrite andb_orb_distrib_l.
Qed.

(** ** Paths as lists of segments *)
Lemma string_app_assoc (p q r : string) : ((p ++ q) ++ r)%string = (p ++ (q ++ r))%string.
Proof. induction p as [|x p IHp]; [done|]. by rewrite !app_cons, IHp. Qed.
Lemma split_slash_nonempty s : split_slash s <> [].
Proof. destruct s as [|a s]; [done|]. cbn. destruct (decide _); [done|]. by destruct (split_slash s). Qed.
Lemma split_slash_app q r : split_slash (q ++ "/" ++ r) = split_slash q ++ split_slash r.
Proof.
  induction q as [|a q IH]; [by rewrite app_empty, app_cons, app_empty|]. rewrite app_cons. cbn [split_slash].
  destruct (decide _); [by rewrite IH|]. rewrite IH. pose proof (split_slash_nonempty q). by destruct (split_slash q).
Qed.
Lemma concat_app l k : l <> [] -> k <> [] -> String.concat "/" (l ++ k) = (String.concat "/" l ++ "/" ++ String.concat "/" k)%string.
Proof.
  intros Hl Hk. induction l as [|w l IH]; [done|]. destruct l as [|w' l]; [by destruct k|].
  change (String.concat "/" ((w :: w' :: l) ++ k)) with (w ++ "/" ++ String.concat "/" ((w' :: l) ++ k))%string. rewrite IH by done.
  change (String.concat "/" (w :: w' :: l)) with (w ++ "/" ++ String.concat "/" (w' :: l))%string. by rewrite !string_app_assoc.
Qed.
Lemma concat_split s : String.concat "/" (split_slash s) = s.
Proof.
  induction s as [|a s IH]; [done|]. cbn [split_slash]. pose proof (split_slash_nonempty s) as Hn. destruct (decide _) as [->|Hne].
  - change (_ :: split_slash s) with ([""%string] ++ split_slash s). by rewrite concat_app, IH.
  - destruct (split_slash s) as [|w l]; [done|]. destruct l as [|w' l]; cbn in *; [by rewrite IH|]. by rewrite <- IH.
Qed.
(** A segment has no slash: it is its own split. *)
Definition segment (w : string) : Prop := split_slash w = [w].
Lemma split_slash_segments s : Forall segment (split_slash s).
Proof.
  induction s as [|a s IH]; [by constructor|]. cbn [split_slash]. destruct (decide _); [by constructor|].
  destruct (split_slash s) as [|w l] eqn:Hs; [by destruct (split_slash_nonempty s)|]. apply Forall_cons in IH as [Hw Hl]. constructor; [|done].
  unfold segment in *. cbn [split_slash]. destruct (decide _); [done|]. by rewrite Hw.
Qed.
Lemma split_concat l : l <> [] -> Forall segment l -> split_slash (String.concat "/" l) = l.
Proof.
  intros Hn Hl. induction Hl as [|w l Hw Hl IH]; [done|]. destruct l as [|w' l]; [done|].
  change (String.concat "/" (w :: w' :: l)) with (w ++ "/" ++ String.concat "/" (w' :: l))%string. by rewrite split_slash_app, IH, Hw.
Qed.
Lemma endswith_slash_iff s : endswith_slash s = true <-> exists q, s = (q ++ "/")%string.
Proof.
  split; [|by intros [q ->]; apply slash_snoc]. induction s as [|a s IH]; [done|]. destruct s as [|b s].
  - unfold endswith_slash. cbn. case_bool_decide; [|done]. subst a. by exists ""%string.
  - intros H. destruct IH as [q Hq]; [exact H|]. exists (String a q). by rewrite Hq, app_cons.
Qed.
Lemma split_snoc q : split_slash (q ++ "/") = split_slash q ++ [""%string].
Proof. exact (split_slash_app q ""). Qed.
Lemma split_with_slash s : last (split_slash s) <> Some ""%string -> split_slash (with_slash s) = split_slash s ++ [""%string].
Proof.
  intros Hl. unfold with_slash. destruct (endswith_slash s) eqn:He; [|apply split_snoc].
  apply endswith_slash_iff in He as [q ->]. by rewrite split_snoc, last_snoc in Hl.
Qed.
(** A prefix match between slash-terminated paths is one between segments. *)
Lemma startswith_segments c p cs ps : split_slash c = cs ++ [""%string] -> split_slash p = ps ++ [""%string] -> ps <> [] -> cs <> [] ->
  startswith c p = true <-> ps `prefix_of` cs.
Proof.
  intros Hc Hp Hn Hcn. assert (Hpq : p = (String.concat "/" ps ++ "/")%string) by (rewrite <- (concat_split p), Hp; by rewrite concat_app).
  assert (Hsp : split_slash (String.concat "/" ps) = ps) by (apply split_concat; [done|]; pose proof (split_slash_segments p) as Hf; rewrite Hp in Hf; by apply Forall_app in Hf as [? _]).
  rewrite startswith_iff. split.
  - intros [r ->]. rewrite Hpq, string_app_assoc, split_slash_app, Hsp in Hc. destruct (exists_last (split_slash_nonempty r)) as (rs&x&Hr).
    rewrite Hr, app_assoc in Hc. apply app_inj_tail in Hc as [<- _]. by exists rs.
  - intros [rs ->]. exists (String.concat "/" (rs ++ [""%string])). rewrite <- (concat_split c), Hc, <- app_assoc, concat_app by (done || by destruct rs).
    by rewrite Hpq, string_app_assoc.
Qed.

(** ** The path that is matched *)
(** The segments of a path as a router sees them: decoded, without empty and [.]
    segments, after the slashes the path starts with (one, or exactly two). *)
Definition clean (segs : list string) : list string := filter (fun w => ~ (w = ""%string \/ w = "."%string)) segs.
Definition route (path : string) : option (list string) :=
  let decoded := unquote (if decide (path = ""%string) then "/"%string else path) in
  if bool_decide (".."%string ∈ split_slash decoded) then None
  else let comps := clean (split_slash decoded) in
       Some (replicate (if decide (comps = []) then Nat.max 1 (initial_slashes decoded) else initial_slashes decoded) ""%string ++ comps).

Lemma normpath_clean rooted segs acc : ".."%string ∉ segs -> foldl (normpath_step rooted) acc segs = acc ++ clean segs.
Proof.
  unfold clean. revert acc. induction segs as [|w segs IH]; intros acc Hn; [by rewrite app_nil_r|]. apply not_elem_of_cons in Hn as [Hw Hn]. cbn [foldl]. rewrite IH by done.
  unfold normpath_step. rewrite filter_cons, (bool_decide_eq_false_2 (w = ".."%string)) by done. repeat destruct (decide _); try tauto. cbn [negb orb]. by rewrite <- app_assoc.
Qed.
Lemma initial_slashes_cases s : (initial_slashes s = 0 \/ initial_slashes s = 1 \/ initial_slashes s = 2)%nat.
Proof. unfold initial_slashes. destruct (startswith s "/"); [|by left]. destruct (_ && _); auto. Qed.
Lemma slashes_split n l : (n <= 2)%nat -> l <> [] -> Forall segment l ->
  split_slash (String.concat "" (replicate n "/"%string) ++ String.concat "/" l) = replicate n ""%string ++ l.
Proof.
  intros Hn Hl Hs. assert (n = 0 \/ n = 1 \/ n = 2)%nat as [->|[->| ->]] by lia.
  - exact (split_concat l Hl Hs).
  - change (split_slash ("" ++ "/" ++ String.concat "/" l) = [""%string] ++ l). by rewrite split_slash_app, split_concat.
  - change (split_slash ("" ++ "/" ++ ("" ++ "/" ++ String.concat "/" l)) = [""%string] ++ [""%string] ++ l). by rewrite !split_slash_app, split_concat.
Qed.
Lemma normpath_segments decoded : decoded <> ""%string -> ".."%string ∉ split_slash decoded ->
  let comps := clean (split_slash decoded) in
  split_slash (with_slash (if decide (normpath decoded = "."%string) then "/"%string else normpath decoded)) =
  replicate (if decide (comps = []) then Nat.max 1 (initial_slashes decoded) else initial_slashes decoded) ""%string ++ comps ++ [""%string].
Proof.
  intros Hne Hdots comps. unfold normpath. rewrite (decide_False (P := decoded = ""%string)), normpath_clean by done. rewrite app_nil_l. fold comps.
  pose proof (initial_slashes_cases decoded) as Hn. set (n := initial_slashes decoded) in *. destruct (decide (comps = [])) as [->|Hc].
  - by destruct Hn as [->|[->| ->]].
  - assert (Hs : Forall segment comps) by (apply list.Forall_forall; intros w [_ Hw]%list_elem_of_filter; by eapply list.Forall_forall in Hw; [|apply split_slash_segments]).
    assert (Hsp := slashes_split n comps ltac:(lia) Hc Hs). set (joined := (String.concat "" _ ++ _)%string) in *.
    assert (Hlast : exists x, last comps = Some x /\ x <> ""%string /\ x <> "."%string).
    { destruct (exists_last Hc) as (k&x&Hk). exists x. rewrite Hk, last_snoc. split; [done|]. assert (Hx : x ∈ comps) by (rewrite Hk; set_solver).
      unfold comps, clean in Hx. apply list_elem_of_filter in Hx. tauto. }
    destruct Hlast as (x&Hx&Hx1&Hx2).
    assert (Hend : last (split_slash joined) = Some x) by (by rewrite Hsp, last_app, Hx).
    assert (Hj : joined <> ""%string /\ joined <> "."%string) by (split; intros Hj; rewrite Hj in Hend; injection Hend; congruence).
    destruct Hj as [Hj1 Hj2]. rewrite (decide_False (P := joined = ""%string)), decide_False by done.
    rewrite split_with_slash, Hsp by congruence. by rewrite app_assoc.
Qed.
Lemma unquote_nonempty s : unquote s = ""%string -> s = ""%string.
Proof. destruct s as [|a [|b [|c s]]]; try done. cbn. by repeat case_match. Qed.
Lemma candidate_route path : match candidate path, route path with
  | Some cand, Some segs => split_slash cand = segs ++ [""%string] /\ segs <> []
  | None, None => True
  | _, _ => False
  end.
Proof.
  unfold candidate, route. set (decoded := unquote _). destruct (bool_decide (_ ∈ _)) eqn:Hd; [done|]. apply bool_decide_eq_false in Hd.
  split.
  - etransitivity; [apply (normpath_segments decoded); [|done]|by rewrite <- app_assoc]. subst decoded. intros H%unquote_nonempty. by destruct (decide _).
  - destruct (decide (clean (split_slash decoded) = [])) as [->|Hc]; [|by intros [_ Hn]%app_eq_nil]. by destruct (initial_slashes_cases decoded) as [->|[->| ->]].
Qed.
Definition entry_segments (e : AllowlistEntry) : list string := removelast (split_slash (path_prefix e)).
Lemma entry_segments_split e : well_formed e -> split_slash (path_prefix e) = entry_segments e ++ [""%string] /\ entry_segments e <> [].
Proof.
  unfold well_formed, make_entry, entry_segments, with_slash. destruct (startswith _ _); [|done]. destruct e as [d p]. cbn. intros [= H].
  assert (Hs : endswith_slash p = true) by (destruct (endswith_slash p) eqn:He; [done|]; rewrite <- H in He; by rewrite slash_snoc in He).
  apply endswith_slash_iff in Hs as [q ->]. rewrite split_snoc, removelast_last. split; [done|apply split_slash_nonempty].
Qed.
Lemma existsb_admits netloc cand segs tier : Forall well_formed tier -> split_slash cand = segs ++ [""%string] -> segs <> [] ->
  existsb (admits netloc cand) tier = true <-> exists e, e ∈ tier /\ domain e = netloc /\ entry_segments e `prefix_of` segs.
Proof.
  intros Hw Hc Hn. assert (Hk : forall e, e ∈ tier -> admits netloc cand e = true <-> domain e = netloc /\ entry_segments e `prefix_of` segs).
  { intros e He. unfold admits. rewrite andb_true_iff, bool_decide_eq_true. eapply list.Forall_forall in Hw; [|done]. apply entry_segments_split in Hw as [Hp Hpn].
    by rewrite (startswith_segments cand _ segs (entry_segments e)). }
  rewrite existsb_exists. split; intros (e&He&H); exists e; [apply list_elem_of_In in He|rewrite <- list_elem_of_In]; split; try done; by apply Hk.
Qed.

(** What a tier permits: an entry of the host whose segments begin the path's. *)
Definition permits (netloc : string) (segs : list string) (tier : list AllowlistEntry) : Prop :=
  exists e, e ∈ tier /\ domain e = netloc /\ entry_segments e `prefix_of` segs.
Lemma intersect_some m o s : Forall well_formed m -> Forall well_formed o -> Forall well_formed s -> exists al, intersect m o s = Some al /\ Forall well_formed (_effective al) /\
  forall netloc cand, existsb (admits netloc cand) (_effective al) = existsb (admits netloc cand) m && existsb (admits netloc cand) o && existsb (admits netloc cand) s.
Proof.
  intros Hm Ho Hs. unfold intersect. destruct (paired_tier m o Hm Ho) as (mo&->&Hmo&H1). destruct (paired_tier mo s Hmo Hs) as (k&Hk&Hw&H2).
  cbn. change (mapM (fun x => x)) with (mapM (M := option) (A := option AllowlistEntry) id). rewrite Hk. eexists. split; [reflexivity|]. split; [done|].
  intros netloc cand. cbn [_effective]. by rewrite H2, H1.
Qed.
(** The intersection is conjunctive, segment by segment.  From entries the constructor
    accepts, construction raises nothing, and the check passes exactly the URLs whose
    decoded path has no [..] segment and whose segments begin, in the manifest and in the
    operator's list and in the session's grant, with those of an entry for that host: no
    tier can widen another, neither by a longer name ([/public] against [/publicadmin]),
    nor by an escaped traversal, nor by empty or [.] segments. *)
Theorem allowlist_is_a_conjunction manifest operator session :
  Forall well_formed manifest -> Forall well_formed operator -> Forall well_formed session ->
  exists al, intersect manifest operator session = Some al /\ forall netloc path,
    check_url al netloc path = true <->
    exists segs, route path = Some segs /\ permits netloc segs manifest /\ permits netloc segs operator /\ permits netloc segs session.
Proof.
  intros Hm Ho Hs. destruct (intersect_some manifest operator session) as (al&Hal&Hw&Hall); [done..|]. exists al. split; [done|]. intros netloc path.
  unfold check_url. pose proof (candidate_route path) as Hr. destruct (candidate path) as [cand|], (route path) as [segs|]; try done; [|naive_solver].
  destruct Hr as [Hc Hn]. rewrite Hall, !andb_true_iff, !(existsb_admits netloc cand segs) by done. unfold permits. naive_solver.
Qed.
Lemma allowlist_is_a_conjunction_witness :
  let e d p := {| domain := d; path_prefix := p |} in
  exists al, intersect [e "a.org" "/"] [e "a.org" "/public/"; e "b.org" "/"] [e "a.org" "/"] = Some al /\ (forall netloc path,
    check_url al netloc path = true <->
    exists segs, route path = Some segs /\ permits netloc segs [e "a.org" "/"] /\ permits netloc segs [e "a.org" "/public/"; e "b.org" "/"] /\ permits netloc segs [e "a.org" "/"])%string.
Proof. cbv zeta. apply allowlist_is_a_conjunction; repeat constructor. Defined.

(** The cap report is exact.  Constructing the intersection caps precisely the manifest
    entries none of whose paths, on their host, any operator entry admits, in the order
    the manifest declares them, whatever the session grants; one event reports them all,
    and there is an event exactly when an entry was capped. *)
Theorem capped_entries_share_no_path manifest operator session al : intersect manifest operator session = Some al ->
  (forall e, e ∈ _manifest_capped_entries al <->
    e ∈ manifest /\ forall netloc cand, admits netloc cand e = true -> existsb (admits netloc cand) operator = false) /\
  _manifest_capped_entries al `sublist_of` manifest /\
  (capped_domains <$> broadening_cap_events manifest operator al = match _manifest_capped_entries al with [] => [] | capped => [capped] end).
Proof.
  unfold intersect. intros H. apply bind_Some in H as (mo&_&H). apply bind_Some in H as (k&_&[= <-]). cbn [_manifest_capped_entries]. split_and!.
  - intros e. rewrite list_elem_of_filter, (and_comm (_ = [])). apply and_iff_compat_l. unfold paired. split.
    + intros Hnil netloc cand He. apply not_true_iff_false. rewrite existsb_exists. intros (o&Ho&Hao).
      apply fmap_nil_inv in Hnil. eapply (filter_nil_not_elem_of _ _ o Hnil); [by eapply admits_both|by apply list_elem_of_In].
    + intros Hno. destruct (filter _ operator) as [|o l] eqn:Hf; [done|exfalso]. assert (Ho : o ∈ filter (fun o => domain o = domain e /\ _prefix_chain_compatible (path_prefix e) (path_prefix o) = true) operator) by (rewrite Hf; by constructor).
      apply list_elem_of_filter in Ho as [[Hd Hc] Ho].
      assert (Hself : admits (domain e) (_narrower (path_prefix e) (path_prefix o)) {| domain := domain e; path_prefix := _narrower (path_prefix e) (path_prefix o) |} = true).
      { unfold admits. cbn. rewrite bool_decide_eq_true_2 by done. apply startswith_refl. }
      rewrite admits_narrower in Hself by done. apply andb_true_iff in Hself as [He Hao]. specialize (Hno _ _ He). apply not_true_iff_false in Hno. apply Hno. apply existsb_exists. exists o. split; [by apply list_elem_of_In|done].
  - apply sublist_filter.
  - unfold broadening_cap_events. cbn. by destruct (filter _ manifest).
Qed.
Lemma capped_entries_share_no_path_witness :
  let e d p := {| domain := d; path_prefix := p |} in
  let m := [e "a.org" "/admin/"; e "c.org" "/"; e "b.org" "/x/"]%string in let o := [e "a.org" "/public/"; e "b.org" "/"]%string in
  exists al, intersect m o o = Some al /\ _manifest_capped_entries al = [e "a.org" "/admin/"; e "c.org" "/"]%string /\ (forall x, x ∈ _manifest_capped_entries al <->
    x ∈ m /\ forall netloc cand, admits netloc cand x = true -> existsb (admits netloc cand) o = false).
Proof. intros e m o. eexists. split; [vm_compute; reflexivity|]. split; [reflexivity|]. apply (capped_entries_share_no_path m o o). vm_compute. reflexivity. Defined.
