(* ===== verification/PreResolution.v ===== *)
(** * [_PreResolutionLimiter] of [comms_mcp/inbound.py]

    The coarse limit on messages of a sender that is not resolved yet, over an
    [OrderedDict] of recent hits.  The dictionary is the list of its items in order; the
    monotonic clock is read by each call. *)
From S2P Require Import Prelude.

Definition _PRE_RESOLUTION_LIMIT_PER_MINUTE : Z := 50.
Definition _PRE_RESOLUTION_WINDOW_SECONDS : Q := 60 # 1.
Definition _PRE_RESOLUTION_MAX_TRACKED_KEYS : nat := N.to_nat 10000.

Section limiter.
Context {K : Type} `{EqDecision K}.
#[local] Abbreviation Hits := (list (K * list Q)).

(** [OrderedDict]: [get], assignment (in place, or at the end), [move_to_end]. *)
Fixpoint get_item (k : K) (h : Hits) : option (list Q) :=
  match h with [] => None | (k', l) :: h => if decide (k' = k) then Some l else get_item k h end.
Fixpoint set_item (k : K) (v : list Q) (h : Hits) : Hits :=
  match h with [] => [(k, v)] | (k', l) :: h => if decide (k' = k) then (k, v) :: h else (k', l) :: set_item k v h end.
Definition move_to_end (k : K) (h : Hits) : Hits :=
  match get_item k h with Some l => filter (fun x => x.1 <> k) h ++ [(k, l)] | None => h end.

Record _PreResolutionLimiter := { _limit : Z; _window : Q; _max_tracked : nat; _hits : Hits }.
Definition with_hits (h : Hits) (l : _PreResolutionLimiter) : _PreResolutionLimiter :=
  {| _limit := _limit l; _window := _window l; _max_tracked := _max_tracked l; _hits := h |}.
Definition fresh_limiter : _PreResolutionLimiter :=
  {| _limit := _PRE_RESOLUTION_LIMIT_PER_MINUTE; _window := _PRE_RESOLUTION_WINDOW_SECONDS; _max_tracked := _PRE_RESOLUTION_MAX_TRACKED_KEYS; _hits := [] |}.

(** [popitem(last=False)] while there are more than the bound. *)
Fixpoint pop_first (n : nat) (h : Hits) : Hits :=
  match h with [] => [] | x :: h' => if (n <? length h)%nat then pop_first n h' else h end.
Definition _evict_if_needed (l : _PreResolutionLimiter) : _PreResolutionLimiter := with_hits (pop_first (_max_tracked l) (_hits l)) l.

Definition check_and_record (key : K) (now : Q) (l : _PreResolutionLimiter) : bool * _PreResolutionLimiter :=
  let cutoff := (now - _window l)%Q in
  let '(timestamps, l) :=
    match get_item key (_hits l) with
    | None => ([], _evict_if_needed (with_hits (set_item key [] (_hits l)) l))
    | Some ts => (ts, with_hits (move_to_end key (_hits l)) l)
    end in
  let fresh := filter (fun ts => Qltb cutoff ts = true) timestamps in
  if _limit l <=? Zlen fresh then (false, with_hits (set_item key fresh (_hits l)) l)
  else (true, with_hits (set_item key (fresh ++ [now]) (_hits l)) l).

(** A run of checks, with the admitted ones in order. *)
Fixpoint checks (xs : list (K * Q)) (l : _PreResolutionLimiter) : list (K * Q) * _PreResolutionLimiter :=
  match xs with
  | [] => ([], l)
  | (k, now) :: xs => let '(ok, l) := check_and_record k now l in let '(adm, l) := checks xs l in ((if ok then [(k, now)] else []) ++ adm, l)
  end.
End limiter.
Arguments _PreResolutionLimiter : clear implicits.

(** ** The dictionary *)
Section proofs.
Context {K : Type} `{EqDecision K}.
Implicit Types (k : K) (h : list (K * list Q)) (l : _PreResolutionLimiter K).
Definition keys_of h : list K := fst <$> h.

Lemma get_set k k' v h : get_item k' (set_item k v h) = if decide (k = k') then Some v else get_item k' h.
Proof. induction h as [|[k0 l0] h IH]; cbn; [by destruct (decide _)|]. destruct (decide (k0 = k)) as [->|]; cbn; repeat destruct (decide _); congruence. Qed.
Lemma keys_set k v h : keys_of (set_item k v h) = if decide (k ∈ keys_of h) then keys_of h else keys_of h ++ [k].
Proof.
  unfold keys_of. induction h as [|[k0 l0] h IH]; cbn; [done|]. destruct (decide (k0 = k)) as [->|]; cbn; [by rewrite decide_True by constructor|].
  rewrite IH. repeat destruct (decide _); try done; set_solver.
Qed.
Lemma get_filter k k' h : k <> k' -> get_item k' (filter (fun x => x.1 <> k) h) = get_item k' h.
Proof. intros Hk. induction h as [|[k0 l0] h IH]; [done|]. rewrite filter_cons. cbn [fst]. destruct (decide (k0 = k)) as [->|]; [rewrite decide_False by tauto|rewrite decide_True by done]; cbn [get_item]; destruct (decide _); congruence. Qed.
Lemma get_app k h h' : get_item k (h ++ h') = match get_item k h with Some l => Some l | None => get_item k h' end.
Proof. induction h as [|[k0 l0] h IH]; cbn; [done|]. by destruct (decide _). Qed.
Lemma get_filter_same k h : get_item k (filter (fun x => x.1 <> k) h) = None.
Proof. induction h as [|[k0 l0] h IH]; [done|]. rewrite filter_cons. cbn [fst]. destruct (decide (k0 = k)) as [->|]; [rewrite decide_False by tauto|rewrite decide_True by done]; cbn [get_item]; [done|by rewrite decide_False]. Qed.
Lemma get_move k k' h : get_item k' (move_to_end k h) = get_item k' h.
Proof.
  unfold move_to_end. destruct (get_item k h) as [v|] eqn:Hk; [|done]. rewrite get_app. destruct (decide (k = k')) as [->|Hne].
  - by rewrite get_filter_same, Hk; cbn; rewrite decide_True.
  - rewrite get_filter by done. cbn. rewrite decide_False by done. by destruct (get_item k' h).
Qed.
Lemma get_None k h : get_item k h = None <-> k ∉ keys_of h.
Proof. unfold keys_of. induction h as [|[k0 l0] h IH]; cbn; [set_solver|]. destruct (decide _); set_solver. Qed.
Lemma keys_move k h : NoDup (keys_of h) -> NoDup (keys_of (move_to_end k h)) /\ length (move_to_end k h) = length h /\ (forall x, x ∈ keys_of (move_to_end k h) <-> x ∈ keys_of h).
Proof.
  intros Hnd. unfold move_to_end. destruct (get_item k h) as [v|] eqn:Hk; [|done].
  assert (Hin : k ∈ keys_of h) by (destruct (decide (k ∈ keys_of h)) as [|Hn]; [done|]; apply get_None in Hn; congruence). clear Hk.
  assert (Hf : keys_of (filter (fun x => x.1 <> k) h) = filter (fun x => x <> k) (keys_of h)) by (unfold keys_of; by rewrite list_filter_fmap).
  assert (Hperm : keys_of (filter (fun x => x.1 <> k) h ++ [(k, v)]) ≡ₚ keys_of h).
  { unfold keys_of at 1. rewrite fmap_app. fold (keys_of (filter (fun x => x.1 <> k) h)). rewrite Hf. apply NoDup_Permutation; [|done|].
    - apply NoDup_app. split; [by apply NoDup_filter|]. split; [|apply NoDup_singleton]. intros x Hx%list_elem_of_filter ->%list_elem_of_singleton. tauto.
    - intros x. rewrite elem_of_app, list_elem_of_filter. cbn. destruct (decide (x = k)) as [->|]; set_solver. }
  split; [by rewrite Hperm|]. split; [|intros x; by rewrite Hperm]. apply Permutation_length in Hperm. unfold keys_of in Hperm. by rewrite !length_fmap in Hperm.
Qed.
Lemma pop_first_small n h : (length h <= n)%nat -> pop_first n h = h.
Proof. destruct h as [|x h]; [done|]. intros Hl. cbn [pop_first]. by rewrite (proj2 (Nat.ltb_ge _ _) Hl). Qed.
Lemma pop_first_length n h : (length (pop_first n h) <= n)%nat.
Proof. induction h as [|x h IH]; cbn [pop_first]; [cbn; lia|]. destruct (Nat.ltb_spec n (length (x :: h))); [done|lia]. Qed.
Lemma pop_first_suffix n h : exists h0, h = h0 ++ pop_first n h.
Proof. induction h as [|x h [h0 IH]]; [by exists []|]. cbn [pop_first]. destruct (_ <? _)%nat; [exists (x :: h0); by rewrite IH at 1|by exists []]. Qed.
Lemma pop_first_last n h k (ks : list K) : (0 < n)%nat -> keys_of h = ks ++ [k] -> k ∈ keys_of (pop_first n h).
Proof.
  intros Hn. revert ks. induction h as [|x h IH]; intros ks Hk; [by destruct ks|]. cbn [pop_first]. destruct (Nat.ltb_spec n (length (x :: h))) as [Hl|]; [|rewrite Hk; set_solver].
  destruct ks as [|k0 ks]; cbn in Hk; [injection Hk as _ Hk; apply (f_equal length) in Hk; rewrite length_fmap in Hk; cbn in *; lia|]. injection Hk as _ Hk. by apply (IH ks).
Qed.

(** ** The rate *)
Definition times k (past : list (K * Q)) : list Q := snd <$> filter (fun x => x.1 = k) past.
Definition after (c : Q) (ts : list Q) : list Q := filter (fun x => Qltb c x = true) ts.
(** The hits of [k] in the window that ends at [t]. *)
Definition within (w : Q) k (t : Q) (past : list (K * Q)) : list Q := filter (fun x => Qle_bool x t = true) (after (t - w) (times k past)).
Fixpoint clocked (T : Q) (xs : list (K * Q)) : Prop := match xs with [] => True | (_, now) :: xs => (T <= now)%Q /\ clocked now xs end.

Lemma times_app k past past' : times k (past ++ past') = times k past ++ times k past'.
Proof. unfold times. by rewrite filter_app, fmap_app. Qed.
Lemma times_one k k' now : times k [(k', now)] = if decide (k' = k) then [now] else [].
Proof. unfold times. rewrite filter_cons. cbn. by destruct (decide _). Qed.
Lemma after_after c c' ts : (c <= c')%Q -> after c' (after c ts) = after c' ts.
Proof.
  intros Hc. unfold after. rewrite list_filter_filter. apply filter_ext_in. intros x _. destruct (Qltb_spec c' x), (Qltb_spec c x); split; try tauto; try done. lra.
Qed.
Lemma Zlen_filter_le {A} (P : A -> Prop) `{!forall x, Decision (P x)} (ts : list A) : Zlen (filter P ts) <= Zlen ts.
Proof. unfold Zlen. pose proof (length_filter P ts). lia. Qed.

Record tracked (T : Q) (all : list K) (past : list (K * Q)) l : Prop := {
  tr_nodup : NoDup (keys_of (_hits l));
  tr_known : keys_of (_hits l) ⊆ all;
  tr_past : Forall (fun x => x.2 <= T)%Q past;
  tr_times : forall k, exists c, (c <= T - _window l)%Q /\ default [] (get_item k (_hits l)) = after c (times k past);
  tr_rate : forall k t, Zlen (within (_window l) k t past) <= _limit l }.

(** The dictionary as [check_and_record] leaves it before it filters the hits. *)
Lemma touched all l k hits0 : NoDup (keys_of (_hits l)) -> keys_of (_hits l) ⊆ all -> k ∈ all -> (length (remove_dups all) <= _max_tracked l)%nat ->
  hits0 = match get_item k (_hits l) with None => pop_first (_max_tracked l) (set_item k [] (_hits l)) | Some _ => move_to_end k (_hits l) end ->
  NoDup (keys_of hits0) /\ keys_of hits0 ⊆ all /\ k ∈ keys_of hits0 /\ forall k', default [] (get_item k' hits0) = default [] (get_item k' (_hits l)).
Proof.
  intros Hnd Hall Hk Hmax ->. destruct (get_item k (_hits l)) as [v|] eqn:Hg.
  - destruct (keys_move k _ Hnd) as (Hnd'&_&Hin). split_and!; [done|set_solver| |intros k'; by rewrite get_move].
    apply Hin. destruct (decide (k ∈ keys_of (_hits l))) as [|Hn]; [done|]. apply get_None in Hn. congruence.
  - assert (Hn := Hg). apply get_None in Hn. assert (Hkeys := keys_set k [] (_hits l)). rewrite decide_False in Hkeys by done.
    assert (Hnd' : NoDup (keys_of (set_item k [] (_hits l)))) by (rewrite Hkeys; apply NoDup_app; split_and!; [done|set_solver|apply NoDup_singleton]).
    rewrite pop_first_small.
    + split_and!; [done|rewrite Hkeys; set_solver|rewrite Hkeys; set_solver|]. intros k'. rewrite get_set. destruct (decide (k = k')) as [<-|]; [by rewrite Hg|done].
    + etransitivity; [|exact Hmax]. rewrite <- (length_fmap fst). apply submseteq_length, NoDup_submseteq; [done|]. intros x. fold (keys_of (set_item k [] (_hits l))).
      rewrite Hkeys, elem_of_remove_dups. set_solver.
Qed.

Definition admitted (ok : bool) k (now : Q) : list (K * Q) := if ok then [(k, now)] else [].
(** What a check does to the dictionary, in one equation. *)
Lemma check_cases k now l ok l' : check_and_record k now l = (ok, l') ->
  let hits0 := match get_item k (_hits l) with None => pop_first (_max_tracked l) (set_item k [] (_hits l)) | Some _ => move_to_end k (_hits l) end in
  let fresh := after (now - _window l) (default [] (get_item k (_hits l))) in
  ok = negb (_limit l <=? Zlen fresh) /\ l' = with_hits (set_item k (if ok then fresh ++ [now] else fresh) hits0) l.
Proof.
  unfold check_and_record, after. destruct (get_item k (_hits l)) as [v|]; cbn; destruct (_ <=? _) eqn:Hl; intros [= <- <-]; try done.
Qed.
Lemma within_admitted w k k' t now ok past : (0 < w)%Q -> Forall (fun x => x.2 <= now)%Q past ->
  Zlen (within w k t (past ++ admitted ok k' now)) <= Zlen (within w k t past) \/ k = k' /\ ok = true /\ Zlen (within w k t (past ++ admitted ok k' now)) <= Zlen (after (now - w) (times k past)) + 1.
Proof.
  intros Hw Hpast. unfold admitted. destruct ok; [|left; by rewrite app_nil_r]. unfold within, after. rewrite times_app, times_one.
  destruct (decide (k' = k)) as [->|]; [|left; by rewrite app_nil_r]. destruct (Qleb_spec now t) as [Ht|Ht].
  - right. split_and!; [done|done|]. rewrite filter_app, Zlen_filter_le, Zlen_app.
    assert (Hmono : forall ts, Zlen (filter (fun x => Qltb (t - w) x = true) ts) <= Zlen (filter (fun x => Qltb (now - w) x = true) ts)).
    { intros ts. induction ts as [|x ts IH]; [done|]. rewrite !filter_cons. destruct (Qltb_spec (t - w) x), (Qltb_spec (now - w) x); repeat destruct (decide _); try done; rewrite ?Zlen_cons; try lia. lra. }
    specialize (Hmono (times k past)). pose proof (Zlen_filter_le (fun x => Qltb (t - w) x = true) [now]) as H1. rewrite Zlen_singleton in H1. lia.
  - left. rewrite !filter_app, Zlen_app. rewrite (filter_none _ (filter _ [now])); [rewrite Zlen_nil; lia|].
    intros x [_ ->%list_elem_of_singleton]%list_elem_of_filter Hle. apply Qle_bool_iff in Hle. lra.
Qed.
Lemma check_tracked T all past k now l ok l' : tracked T all past l -> (T <= now)%Q -> (0 < _window l)%Q -> k ∈ all ->
  (length (remove_dups all) <= _max_tracked l)%nat -> check_and_record k now l = (ok, l') ->
  tracked now all (past ++ admitted ok k now) l' /\ _window l' = _window l /\ _limit l' = _limit l /\ _max_tracked l' = _max_tracked l.
Proof.
  intros [Hnd Hall Hpast Htimes Hrate] HT Hw Hk Hmax Hc. apply check_cases in Hc as [Hok ->]. set (fresh := after _ _) in *. match goal with |- context [set_item k _ ?h] => set (hits0 := h) in * end.
  split; [|done]. destruct (touched all l k hits0) as (Hnd0&Hall0&Hk0&Hget0); [done..|].
  assert (Hfresh : fresh = after (now - _window l) (times k past)) by (destruct (Htimes k) as (c&Hc&Hg); unfold fresh; rewrite Hg; apply after_after; lra).
  assert (Hpast' : Forall (fun x => x.2 <= now)%Q past) by (eapply list.Forall_impl; [exact Hpast|]; intros x Hx; cbn in *; lra).
  assert (Hkeys : keys_of (set_item k (if ok then fresh ++ [now] else fresh) hits0) = keys_of hits0) by (by rewrite keys_set, decide_True).
  split; cbn [_hits with_hits _window _limit]; rewrite ?Hkeys; [done|done| | |].
  - apply Forall_app. split; [done|]. unfold admitted. destruct ok; repeat constructor. cbn. lra.
  - intros k'. rewrite get_set. destruct (decide (k = k')) as [<-|Hne].
    + exists (now - _window l)%Q. split; [lra|]. cbn. unfold admitted. destruct ok; [|by rewrite app_nil_r].
      rewrite times_app, times_one, decide_True by done. unfold after. rewrite filter_app. fold (after (now - _window l) (times k past)). rewrite <- Hfresh. f_equal.
      rewrite filter_all; [done|]. intros x ->%list_elem_of_singleton. destruct (Qltb_spec (now - _window l) now); [done|lra].
    + destruct (Htimes k') as (c&Hc&Hg). exists c. split; [lra|]. rewrite Hget0, Hg. unfold admitted. destruct ok; [|by rewrite app_nil_r].
      by rewrite times_app, times_one, decide_False, app_nil_r.
  - intros k' t. destruct (within_admitted (_window l) k' k t now ok past Hw Hpast') as [Hle|(->&->&Hle)]; [specialize (Hrate k' t); lia|].
    symmetry in Hok. apply negb_true_iff, Z.leb_gt in Hok. rewrite Hfresh in Hok. lia.
Qed.

Lemma checks_tracked all xs : forall T past l adm l', clocked T xs -> tracked T all past l -> (0 < _window l)%Q -> xs.*1 ⊆ all ->
  (length (remove_dups all) <= _max_tracked l)%nat -> checks xs l = (adm, l') -> forall k t, Zlen (within (_window l) k t (past ++ adm)) <= _limit l.
Proof.
  induction xs as [|[k now] xs IH]; cbn [checks clocked fmap list_fmap]; intros T past l adm l' Hcl Hinv Hw Hin Hmax Hc.
  - injection Hc as <- <-. rewrite app_nil_r. apply Hinv.
  - destruct (check_and_record k now l) as [ok l1] eqn:H1. destruct (checks xs l1) as [adm1 l2] eqn:H2. injection Hc as <- <-. destruct Hcl as [HT Hcl].
    destruct (check_tracked T all past k now l ok l1) as (Hinv'&E1&E2&E3); [done|done|done|set_solver|done|done|].
    rewrite <- E1, <- E2, app_assoc. eapply IH; rewrite ?E1, ?E3; try done. set_solver.
Qed.
Lemma check_size k now l ok l' : (0 < _max_tracked l)%nat -> NoDup (keys_of (_hits l)) -> (length (_hits l) <= _max_tracked l)%nat -> check_and_record k now l = (ok, l') ->
  NoDup (keys_of (_hits l')) /\ (length (_hits l') <= _max_tracked l')%nat /\ _max_tracked l' = _max_tracked l.
Proof.
  intros Hmax Hnd Hlen Hc. apply check_cases in Hc as [_ ->]. cbn [_hits with_hits _max_tracked].
  match goal with |- context [set_item k ?v ?h] => set (hits0 := h); set (v0 := v) end.
  assert (H0 : NoDup (keys_of hits0) /\ (length hits0 <= _max_tracked l)%nat /\ k ∈ keys_of hits0).
  { subst hits0. destruct (get_item k (_hits l)) as [v|] eqn:Hg.
    - destruct (keys_move k _ Hnd) as (H1&H2&H3). split_and!; [done|lia|]. apply H3. destruct (decide (k ∈ keys_of (_hits l))) as [|Hn]; [done|]. apply get_None in Hn. congruence.
    - apply get_None in Hg. assert (Hkeys := keys_set k [] (_hits l)). rewrite decide_False in Hkeys by done. destruct (pop_first_suffix (_max_tracked l) (set_item k [] (_hits l))) as [h0 Hh0].
      assert (Hnd' : NoDup (keys_of (set_item k [] (_hits l)))) by (rewrite Hkeys; apply NoDup_app; split_and!; [done|set_solver|apply NoDup_singleton]).
      split; [|split; [apply pop_first_length|]].
      + rewrite Hh0 in Hnd'. unfold keys_of in *. rewrite fmap_app in Hnd'. by apply NoDup_app in Hnd' as (_&_&?).
      + apply (pop_first_last (_max_tracked l) _ k (keys_of (_hits l))); done. }
  destruct H0 as (H1&H2&H3). assert (Hk : keys_of (set_item k v0 hits0) = keys_of hits0) by (by rewrite keys_set, decide_True). rewrite Hk. split; [done|]. split; [|done].
  rewrite <- (length_fmap fst). fold (keys_of (set_item k v0 hits0)). rewrite Hk. unfold keys_of. by rewrite length_fmap.
Qed.
Lemma checks_size xs : forall l adm l', (0 < _max_tracked l)%nat -> NoDup (keys_of (_hits l)) -> (length (_hits l) <= _max_tracked l)%nat -> checks xs l = (adm, l') -> (length (_hits l') <= _max_tracked l)%nat.
Proof.
  induction xs as [|[k now] xs IH]; cbn [checks]; intros l adm l' Hm Hnd Hl Hc; [by injection Hc as <- <-|].
  destruct (check_and_record k now l) as [ok l1] eqn:H1. destruct (checks xs l1) as [adm1 l2] eqn:H2. injection Hc as <- <-.
  destruct (check_size k now l ok l1) as (Hnd'&Hl'&E); [done..|]. rewrite <- E. eapply IH; rewrite ?E; try done. by rewrite <- E.
Qed.

(** The coarse limit holds.  Whatever the checks, no more senders are tracked than the
    bound; and as long as no more distinct senders than that turn up, each has at most 50
    messages admitted in any 60 seconds of the (monotonic) clock. *)
Theorem unresolved_senders_are_rate_bounded T (xs : list (K * Q)) adm l : clocked T xs -> checks xs fresh_limiter = (adm, l) ->
  (length (_hits l) <= _PRE_RESOLUTION_MAX_TRACKED_KEYS)%nat /\
  ((length (remove_dups xs.*1) <= _PRE_RESOLUTION_MAX_TRACKED_KEYS)%nat ->
   forall k t, Zlen (within _PRE_RESOLUTION_WINDOW_SECONDS k t adm) <= _PRE_RESOLUTION_LIMIT_PER_MINUTE).
Proof.
  intros Hcl Hc. assert (Hpos : (0 < _PRE_RESOLUTION_MAX_TRACKED_KEYS)%nat) by (unfold _PRE_RESOLUTION_MAX_TRACKED_KEYS; lia). split.
  - eapply (checks_size xs fresh_limiter); [done|constructor|cbn; lia|done].
  - intros Hd k t. refine (checks_tracked xs.*1 xs T [] fresh_limiter adm l Hcl _ _ _ Hd Hc k t); [|done|done]. split; cbn; [constructor|set_solver|constructor| |done].
    intros k'. exists (T - _PRE_RESOLUTION_WINDOW_SECONDS)%Q. split; [lra|done].
Qed.
End proofs.

Lemma unresolved_senders_are_rate_bounded_witness :
  let xs : list (Z * Q) := [(7, 1%Q); (7, 2%Q)] in exists adm l, checks xs fresh_limiter = (adm, l) /\ adm = xs /\ Zlen (within (60 # 1) 7 (2 # 1) adm) <= 50.
Proof.
  intros xs. do 2 eexists. split; [reflexivity|]. split; [reflexivity|].
  apply (proj2 (unresolved_senders_are_rate_bounded 0 xs _ _ ltac:(cbn; repeat split; lra) eq_refl)). vm_compute. lia.
Defined.
