(* ===== verification/InboundPipeline.v ===== *)
(** * The inbound pipeline

    [comms_mcp/inbound.py] ([process_inbound_message]),
    [comms_mcp/forwarded_inbound_receiver.py], the forwarded arm of
    [plugins/inbound_disposition.py], and the three stores they use
    ([memory/inbound_idempotency.py], [memory/forwarded_dispatch_attempts.py] and the ack
    tracker of [SeqTracker]).

    A handler is its interaction tree: what it awaits, or does to a shared object without
    awaiting, and how it goes on with the answer.  The system runs any number of handlers
    over the shared stores; an action starts one, or lets one go on with the answer the
    outside gives to what it awaits (with the reading of the clock), or rebinds the tracker
    to a new connection, or ends the process.  Any await may raise or be cancelled, before
    or after it took effect.  The audit sink, identity resolution, the burst limiter, the
    promoter, the extractor and the orchestrator are such answers; envelope and body parsing
    (pydantic) and the sender's peppered hash are parameters.  Log lines are left out. *)
From S2P Require Import Prelude SeqTracker PreResolution.

(** ** Messages *)
Definition key : Type := string * string.
(** A JSON object as its fields; a sender's id as its code points. *)
Definition Body : Type := list (string * string).
Record InboundMessageNotification := {
  adapter_id : string; inbound_id : string; platform_user_id : list N; body : Body;
  sub_payload_refs : list string; addressing_signal : string; wire_seq : option Z }.
Definition key_of (n : InboundMessageNotification) : key := (adapter_id n, inbound_id n).
Definition with_wire_seq (s : option Z) (n : InboundMessageNotification) : InboundMessageNotification :=
  {| adapter_id := adapter_id n; inbound_id := inbound_id n; platform_user_id := platform_user_id n; body := body n;
     sub_payload_refs := sub_payload_refs n; addressing_signal := addressing_signal n; wire_seq := s |}.
Record ResolvedInbound := { canonical_user_id : string; persona : string; language : string; r_adapter_id : string; display_name : string }.
Record PromotedBody := { p_body : Body; p_kinds : gset string }.

Inductive exn := CancelledError | ForwardedInboundAuditWriteError | PromoterRequiredError | ValueError | OtherException.
Definition is_exception (e : exn) : bool := match e with CancelledError => false | _ => true end.

(** The signed rows, by event. *)
Inductive row :=
| budget_capped | burst_dropped | binding_requested | t3_promoted (sub_payload_kinds : gset string) | promoter_required
| replay_observed | dispatch_failed | poisoned (attempt_count : Z) | forwarded_dropped (adapter reason : string).

Definition _MAX_PLATFORM_USER_ID_LEN : Z := 512.
Definition _FORWARDED_DISPATCH_ATTEMPT_CEILING : Z := 5.
(** [REQUIRED_CLASSIFIERS_BY_KIND]: the kinds whose set is not empty. *)
Definition requires_classifiers (kind : string) : bool := bool_decide (kind = "discord"%string).
Definition _inbound_message_cheap_validate (platform_user_id : list N) (b : Body) : bool :=
  negb (bool_decide (platform_user_id = [])) && (Zlen platform_user_id <=? _MAX_PLATFORM_USER_ID_LEN) && negb (bool_decide (b = [])).

(** ** Handlers *)
Section pipeline.
Context {X Y : Type}.  (* what the extractor and [ingest] return *)

Inductive prog :=
| Return
| Raise (e : exn)
| HasCommitted (k : key) (c : result exn bool -> prog)
| CommitOnce (k : key) (c : result exn bool -> prog)
| AttemptCount (k : key) (c : result exn Z -> prog)
| Increment (k : key) (c : result exn unit -> prog)
| Append (r : row) (c : result exn unit -> prog)
| Resolve (n : InboundMessageNotification) (c : result exn (option ResolvedInbound) -> prog)
| Acquire (r : ResolvedInbound) (c : result exn bool -> prog)  (* [Acquired], or [Dropped] *)
| Promote (b : Body) (c : result exn PromotedBody -> prog)
| Extract (b : Body) (r : ResolvedInbound) (c : result exn X -> prog)
| Ingest (n : InboundMessageNotification) (x : X) (r : ResolvedInbound) (c : result exn Y -> prog)
| Dispatch (y : Y) (c : result exn unit -> prog)
| RequestRestart (c : result exn unit -> prog)
(* without awaiting *)
| CheckAndRecord (who : string * string) (c : bool -> prog)
| Observe (t : nat) (s : Z) (c : result exn unit -> prog).

(** An await in the code: an exception goes up. *)
Local Notation "x <~ op ; p" := (op (fun r => match r with Ok x => p | Err e => Raise e end)) (at level 100, op at next level, right associativity).
Local Notation "op ;~ p" := (op (fun r => match r with Ok _ => p | Err e => Raise e end)) (at level 100, right associativity).
Fixpoint catch (p : prog) (h : exn -> prog) : prog :=
  match p with
  | Return => Return
  | Raise e => h e
  | HasCommitted k c => HasCommitted k (fun r => catch (c r) h)
  | CommitOnce k c => CommitOnce k (fun r => catch (c r) h)
  | AttemptCount k c => AttemptCount k (fun r => catch (c r) h)
  | Increment k c => Increment k (fun r => catch (c r) h)
  | Append w c => Append w (fun r => catch (c r) h)
  | Resolve n c => Resolve n (fun r => catch (c r) h)
  | Acquire v c => Acquire v (fun r => catch (c r) h)
  | Promote b c => Promote b (fun r => catch (c r) h)
  | Extract b v c => Extract b v (fun r => catch (c r) h)
  | Ingest n x v c => Ingest n x v (fun r => catch (c r) h)
  | Dispatch y c => Dispatch y (fun r => catch (c r) h)
  | RequestRestart c => RequestRestart (fun r => catch (c r) h)
  | CheckAndRecord w c => CheckAndRecord w (fun b => catch (c b) h)
  | Observe t s c => Observe t s (fun r => catch (c r) h)
  end.

(** [audit_hash.hash_platform_user_id], keyed by the broker's pepper; [None] is its
    [MissingAuditHashPepperError] or [AuditHashBrokerNotWiredError]. *)
Variable hash_platform_user_id : list N -> option string.

(** [observe] when there is a tracker and a sequence number. *)
Definition _drain_forwarded_seq (ack_tracker : option nat) (seq : option Z) (p : prog) : prog :=
  match ack_tracker, seq with Some t, Some s => Observe t s ;~ p | _, _ => p end.
(** A signed row of the forwarded path: a failure to write it escalates. *)
Definition signed (r : row) (p : prog) : prog :=
  Append r (fun res => match res with Ok _ => p | Err e => Raise (if is_exception e then ForwardedInboundAuditWriteError else e) end).

Record wiring := { sub_payload_promoter : bool; ack_tracker : option nat; commit_at_dispatch_edge : bool }.

(** From the limiter to the dispatch. *)
Definition dispatch_and_settle (w : wiring) (n : InboundMessageNotification) (ingested : Y) : prog :=
  if commit_at_dispatch_edge w
  then Dispatch ingested (fun res =>
         match res with
         | Err e => if is_exception e then signed dispatch_failed (Raise e) else Raise e
         | Ok _ => CommitOnce (key_of n) ;~ _drain_forwarded_seq (ack_tracker w) (wire_seq n) Return
         end)
  else Dispatch ingested ;~ Return.
Definition promote_and_extract (w : wiring) (n : InboundMessageNotification) (resolved : ResolvedInbound)
    (p : X -> gset string -> prog) : prog :=
  if sub_payload_promoter w
  then promoted <~ Promote (body n); extracted <~ Extract (p_body promoted) resolved; p extracted (p_kinds promoted)
  else extracted <~ Extract (body n) resolved; p extracted (list_to_set (sub_payload_refs n)).
Definition admitted_message (w : wiring) (n : InboundMessageNotification) (resolved : ResolvedInbound) : prog :=
  promote_and_extract w n resolved (fun extracted kinds =>
    let rest := Append (t3_promoted kinds) ;~ ingested <~ Ingest n extracted resolved; dispatch_and_settle w n ingested in
    if commit_at_dispatch_edge w then Increment (key_of n) ;~ rest else rest).
Definition resolve_and_admit (w : wiring) (n : InboundMessageNotification) : prog :=
  let drain := if commit_at_dispatch_edge w then _drain_forwarded_seq (ack_tracker w) (wire_seq n) Return else Return in
  resolved <~ Resolve n;
  match resolved with
  | None => Append binding_requested ;~ drain
  | Some resolved =>
      acquired <~ Acquire resolved;
      if acquired then admitted_message w n resolved
      else if commit_at_dispatch_edge w then Append burst_dropped ;~ drain else Return
  end.
Definition accepted_message (w : wiring) (n : InboundMessageNotification) : prog :=
  match hash_platform_user_id (platform_user_id n) with
  | None => Raise OtherException
  | Some platform_user_id_hash => CheckAndRecord (adapter_id n, platform_user_id_hash) (fun ok =>
    if ok then
      if commit_at_dispatch_edge w
      then attempts <~ AttemptCount (key_of n);
           if _FORWARDED_DISPATCH_ATTEMPT_CEILING <=? attempts
           then signed (poisoned attempts) (_drain_forwarded_seq (ack_tracker w) (wire_seq n) Return)
           else resolve_and_admit w n
      else resolve_and_admit w n
    else Append budget_capped ;~
         if commit_at_dispatch_edge w then _drain_forwarded_seq (ack_tracker w) (wire_seq n) Return else Return)
  end.
Definition process_inbound_message (w : wiring) (n : InboundMessageNotification) : prog :=
  if negb (_inbound_message_cheap_validate (platform_user_id n) (body n)) then Return
  else if negb (sub_payload_promoter w) && requires_classifiers (adapter_id n)
  then Append promoter_required ;~ Raise PromoterRequiredError
  else if commit_at_dispatch_edge w
  then committed <~ HasCommitted (key_of n);
       if committed then signed replay_observed (_drain_forwarded_seq (ack_tracker w) (wire_seq n) Return)
       else accepted_message w n
  else fresh <~ CommitOnce (key_of n);
       if fresh then _drain_forwarded_seq (ack_tracker w) (wire_seq n) (accepted_message w n)
       else Append replay_observed ;~ Return.

(** ** The forwarded receiver and its disposition *)
Context {Params : Type}.
Record GatewayAdapterInboundEnvelope := { e_adapter_id : string; e_body : string }.
(** pydantic: [model_validate] of the envelope, [model_validate_json] of the body; [None] is
    a [ValidationError]. *)
Variable model_validate : Params -> option GatewayAdapterInboundEnvelope.
Variable model_validate_json : string -> option InboundMessageNotification.

Inductive reparsed := Reparsed (n : InboundMessageNotification) | InboundEnvelopeBodyMismatchError | InboundBodyMalformedError.
Definition reparse_forwarded_inbound (envelope : GatewayAdapterInboundEnvelope) : reparsed :=
  match model_validate_json (e_body envelope) with
  | None => InboundBodyMalformedError
  | Some n => if decide (adapter_id n = e_adapter_id envelope) then Reparsed (with_wire_seq None n) else InboundEnvelopeBodyMismatchError
  end.

Definition _audit_drop (adapter reason : string) (p : prog) : prog := signed (forwarded_dropped adapter reason) p.
(** The drop of an exception that left the admission region. *)
Definition receive_fault (tracker : option nat) (seq : option Z) : prog :=
  _audit_drop "<unparseable_envelope>" "receive_fault" (_drain_forwarded_seq tracker seq Return).
Definition admission_drop (tracker : option nat) (seq : option Z) (adapter reason : string) : prog :=
  _audit_drop adapter reason
    match tracker, seq with
    | Some t, Some s => Observe t s (fun res => match res with Ok _ => Return | Err e => if is_exception e then receive_fault tracker seq else Raise e end)
    | _, _ => Return
    end.
(** [receive], with [_admit_and_reparse] inlined where its exceptions are caught. *)
Definition receive (registry : gset string) (tracker : option nat) (params : Params) (seq : option Z) : prog :=
  match model_validate params with
  | None => receive_fault tracker seq
  | Some envelope =>
      if decide (e_adapter_id envelope ∈ registry) then
        match reparse_forwarded_inbound envelope with
        | InboundEnvelopeBodyMismatchError => admission_drop tracker seq (e_adapter_id envelope) "envelope_body_mismatch"
        | InboundBodyMalformedError => admission_drop tracker seq (e_adapter_id envelope) "body_malformed"
        | Reparsed n => process_inbound_message {| sub_payload_promoter := true; ack_tracker := tracker; commit_at_dispatch_edge := true |} (with_wire_seq seq n)
        end
      else admission_drop tracker seq (e_adapter_id envelope) "unknown_adapter"
  end.
Definition _route_forwarded_inbound (registry : gset string) (tracker : option nat) (params : Params) (seq : option Z) : prog :=
  catch (receive registry tracker params seq) (fun e =>
    match e with
    | ForwardedInboundAuditWriteError => RequestRestart (fun res => match res with Err CancelledError => Raise CancelledError | _ => Return end)
    | e => if is_exception e then Return else Raise e
    end).
(** [InboundMessageHandler.process], from a session whose tracker is [tracker]. *)
Definition process (promoter : bool) (tracker : option nat) (n : InboundMessageNotification) : prog :=
  process_inbound_message {| sub_payload_promoter := promoter; ack_tracker := tracker; commit_at_dispatch_edge := false |} n.

(** ** The system *)
(** What a handler did, with the answer it got; a write of a store also whether it took effect. *)
Inductive entry :=
| Read_committed (k : key) (r : result exn bool) | Commit_tried (k : key) (took : bool) (r : result exn bool)
| Counted (k : key) (r : result exn Z) | Incremented (k : key) (took : bool) (r : result exn unit)
| Appended (w : row) (r : result exn unit)
| Resolved (n : InboundMessageNotification) (r : result exn (option ResolvedInbound)) | Acquired (v : ResolvedInbound) (r : result exn bool)
| Promoted (b : Body) (r : result exn PromotedBody) | Extracted (b : Body) (v : ResolvedInbound) (r : result exn X)
| Ingested (n : InboundMessageNotification) (x : X) (v : ResolvedInbound) (r : result exn Y) | Dispatched (y : Y) (r : result exn unit)
| Restart_requested (r : result exn unit)
| Checked (who : string * string) (ok : bool) | Observed (t : nat) (s : Z) (r : result exn unit).

(** A handler: whether it is the forwarded path's, the message it is about if that parsed, the
    tracker and the sequence number it was given, and how it goes on. *)
Record call := { c_forwarded : bool; c_about : option InboundMessageNotification; c_tracker : option nat; c_seq : option Z; c_prog : prog }.
Definition goes_on (p : prog) (c : call) : call :=
  {| c_forwarded := c_forwarded c; c_about := c_about c; c_tracker := c_tracker c; c_seq := c_seq c; c_prog := p |}.
Record system := {
  committed : gset key; attempts : gmap key Z; trackers : list Tracker.BoundedSeqAckTracker; current : option nat;
  limiters : gmap (bool * string) (_PreResolutionLimiter (string * string)); calls : list call; log : list (nat * entry) }.

(** The answer of the outside: the operation takes effect and returns (with this value, where
    the stores do not determine it), or raises, having taken effect or not. *)
Inductive answer :=
| Proceeds | Raises (took_effect : bool) (e : exn)
| Resolves (r : option ResolvedInbound) | Acquires (b : bool) | Promotes (p : PromotedBody) | Extracts (x : X) | Ingests (y : Y).
Definition took_effect (a : answer) : bool := match a with Raises b _ => b | _ => true end.
Definition done_with {A} (v : A) (a : answer) : option (result exn A) := match a with Proceeds => Some (Ok v) | Raises _ e => Some (Err e) | _ => None end.

Definition set_committed (c : gset key) (s : system) : system :=
  {| committed := c; attempts := attempts s; trackers := trackers s; current := current s; limiters := limiters s; calls := calls s; log := log s |}.
Definition set_attempts (c : gmap key Z) (s : system) : system :=
  {| committed := committed s; attempts := c; trackers := trackers s; current := current s; limiters := limiters s; calls := calls s; log := log s |}.
Definition set_trackers (l : list Tracker.BoundedSeqAckTracker) (c : option nat) (s : system) : system :=
  {| committed := committed s; attempts := attempts s; trackers := l; current := c; limiters := limiters s; calls := calls s; log := log s |}.
Definition set_limiters (l : gmap (bool * string) (_PreResolutionLimiter (string * string))) (s : system) : system :=
  {| committed := committed s; attempts := attempts s; trackers := trackers s; current := current s; limiters := l; calls := calls s; log := log s |}.
Definition set_calls (l : list call) (s : system) : system :=
  {| committed := committed s; attempts := attempts s; trackers := trackers s; current := current s; limiters := limiters s; calls := l; log := log s |}.
Definition note (i : nat) (x : entry) (s : system) : system :=
  {| committed := committed s; attempts := attempts s; trackers := trackers s; current := current s; limiters := limiters s; calls := calls s; log := log s ++ [(i, x)] |}.

(** The stores: [INSERT .. ON CONFLICT DO NOTHING RETURNING], a read, an upsert and a read. *)
Definition commit_once (k : key) (s : system) : bool * system := (bool_decide (k ∉ committed s), set_committed ({[k]} ∪ committed s) s).
Definition has_committed (k : key) (s : system) : bool := bool_decide (k ∈ committed s).
Definition attempt_count (k : key) (s : system) : Z := default 0 (attempts s !! k).
Definition increment (k : key) (s : system) : system := set_attempts (<[k := attempt_count k s + 1]> (attempts s)) s.

(** One await: its entry, how the handler goes on, and the stores after it.  [None] is an
    answer of another operation. *)
Definition awaited (p : prog) (a : answer) (s : system) : option (entry * prog * system) :=
  match p with
  | HasCommitted k c => r ← done_with (has_committed k s) a; Some (Read_committed k r, c r, s)
  | CommitOnce k c => r ← done_with (commit_once k s).1 a; Some (Commit_tried k (took_effect a) r, c r, if took_effect a then (commit_once k s).2 else s)
  | AttemptCount k c => r ← done_with (attempt_count k s) a; Some (Counted k r, c r, s)
  | Increment k c => r ← done_with tt a; Some (Incremented k (took_effect a) r, c r, if took_effect a then increment k s else s)
  | Append w c => r ← done_with tt a; Some (Appended w r, c r, s)
  | Dispatch y c => r ← done_with tt a; Some (Dispatched y r, c r, s)
  | RequestRestart c => r ← done_with tt a; Some (Restart_requested r, c r, s)
  | Resolve n c => match a with Resolves v => Some (Resolved n (Ok v), c (Ok v), s) | Raises _ e => Some (Resolved n (Err e), c (Err e), s) | _ => None end
  | Acquire v c => match a with Acquires b => Some (Acquired v (Ok b), c (Ok b), s) | Raises _ e => Some (Acquired v (Err e), c (Err e), s) | _ => None end
  | Promote b c => match a with Promotes v => Some (Promoted b (Ok v), c (Ok v), s) | Raises _ e => Some (Promoted b (Err e), c (Err e), s) | _ => None end
  | Extract b w c => match a with Extracts v => Some (Extracted b w (Ok v), c (Ok v), s) | Raises _ e => Some (Extracted b w (Err e), c (Err e), s) | _ => None end
  | Ingest n x w c => match a with Ingests v => Some (Ingested n x w (Ok v), c (Ok v), s) | Raises _ e => Some (Ingested n x w (Err e), c (Err e), s) | _ => None end
  | Return | Raise _ | CheckAndRecord _ _ | Observe _ _ _ => None
  end.

(** What a handler does before its next await. *)
Definition seq_error (e : SeqError) : exn := ValueError.
Fixpoint settle (i : nat) (forwarded : bool) (now : Q) (p : prog) (s : system) : prog * system :=
  match p with
  | CheckAndRecord who c =>
      let id := (forwarded, who.1) in
      let '(ok, l) := check_and_record who now (default fresh_limiter (limiters s !! id)) in
      settle i forwarded now (c ok) (note i (Checked who ok) (set_limiters (<[id := l]> (limiters s)) s))
  | Observe t q c =>
      let '(r, tr) := match trackers s !! t with Some tr => Tracker.observe q tr | None => (Ok tt, Tracker.init) end in
      let r := match r with Ok _ => Ok tt | Err e => Err (seq_error e) end in
      settle i forwarded now (c r) (note i (Observed t q r) (set_trackers (<[t := tr]> (trackers s)) (current s) s))
  | p => (p, s)
  end.

Inductive action :=
| Receive (params : Params) (seq : option Z) (now : Q)
| Process (promoter : bool) (n : InboundMessageNotification) (now : Q)
| Go (i : nat) (a : answer) (now : Q)
| Connect
| Crash.

Variable registry : gset string.
Definition about (params : Params) (seq : option Z) : option InboundMessageNotification :=
  envelope ← model_validate params;
  if decide (e_adapter_id envelope ∈ registry)
  then match reparse_forwarded_inbound envelope with Reparsed n => Some (with_wire_seq seq n) | _ => None end else None.
Definition set_prog (i : nat) (p : prog) (s : system) : system := set_calls (alter (goes_on p) i (calls s)) s.
Definition advance (i : nat) (now : Q) (s : system) : system :=
  match calls s !! i with
  | Some c => let '(p, s) := settle i (c_forwarded c) now (c_prog c) s in set_prog i p s
  | None => s
  end.
Definition start (c : call) (now : Q) (s : system) : system := advance (length (calls s)) now (set_calls (calls s ++ [c]) s).
Definition received (tracker : option nat) (params : Params) (seq : option Z) : call :=
  {| c_forwarded := true; c_about := about params seq; c_tracker := tracker; c_seq := seq; c_prog := _route_forwarded_inbound registry tracker params seq |}.
Definition processed (promoter : bool) (tracker : option nat) (n : InboundMessageNotification) : call :=
  {| c_forwarded := false; c_about := Some n; c_tracker := tracker; c_seq := wire_seq n; c_prog := process promoter tracker n |}.
Definition step (x : action) (s : system) : system :=
  match x with
  | Receive params seq now => start (received (current s) params seq) now s
  | Process promoter n now => start (processed promoter (current s) n) now s
  | Go i a now =>
      match calls s !! i with
      | Some c => match awaited (c_prog c) a s with
                  | Some (x, p, s) => advance i now (set_prog i p (note i x s))
                  | None => s
                  end
      | None => s
      end
  | Connect => set_trackers (trackers s ++ [Tracker.init]) (Some (length (trackers s))) s
  | Crash => {| committed := committed s; attempts := attempts s; trackers := trackers s; current := None; limiters := ∅;
                calls := goes_on (Raise CancelledError) <$> calls s; log := log s |}
  end.
Definition run (xs : list action) (s : system) : system := foldl (fun s x => step x s) s xs.
Definition init : system := {| committed := ∅; attempts := ∅; trackers := []; current := None; limiters := ∅; calls := []; log := [] |}.

(** ** The language of a handler *)
(** The next entry of a handler, and how it goes on. *)
Inductive goes : prog -> entry -> prog -> Prop :=
| g_HasCommitted k c r : goes (HasCommitted k c) (Read_committed k r) (c r)
| g_CommitOnce k c o r : goes (CommitOnce k c) (Commit_tried k o r) (c r)
| g_AttemptCount k c r : goes (AttemptCount k c) (Counted k r) (c r)
| g_Increment k c o r : goes (Increment k c) (Incremented k o r) (c r)
| g_Append w c r : goes (Append w c) (Appended w r) (c r)
| g_Resolve n c r : goes (Resolve n c) (Resolved n r) (c r)
| g_Acquire v c r : goes (Acquire v c) (Acquired v r) (c r)
| g_Promote b c r : goes (Promote b c) (Promoted b r) (c r)
| g_Extract b v c r : goes (Extract b v c) (Extracted b v r) (c r)
| g_Ingest n x v c r : goes (Ingest n x v c) (Ingested n x v r) (c r)
| g_Dispatch y c r : goes (Dispatch y c) (Dispatched y r) (c r)
| g_RequestRestart c r : goes (RequestRestart c) (Restart_requested r) (c r)
| g_CheckAndRecord w c b : goes (CheckAndRecord w c) (Checked w b) (c b)
| g_Observe t q c r : goes (Observe t q c) (Observed t q r) (c r).
(** Every entry of [p], after the trace [tr], is allowed by the rule [R]. *)
Fixpoint obeys (R : list entry -> entry -> Prop) (p : prog) (tr : list entry) : Prop :=
  match p with
  | Return | Raise _ => True
  | HasCommitted k c => forall r, R tr (Read_committed k r) /\ obeys R (c r) (tr ++ [Read_committed k r])
  | CommitOnce k c => forall o r, R tr (Commit_tried k o r) /\ obeys R (c r) (tr ++ [Commit_tried k o r])
  | AttemptCount k c => forall r, R tr (Counted k r) /\ obeys R (c r) (tr ++ [Counted k r])
  | Increment k c => forall o r, R tr (Incremented k o r) /\ obeys R (c r) (tr ++ [Incremented k o r])
  | Append w c => forall r, R tr (Appended w r) /\ obeys R (c r) (tr ++ [Appended w r])
  | Resolve n c => forall r, R tr (Resolved n r) /\ obeys R (c r) (tr ++ [Resolved n r])
  | Acquire v c => forall r, R tr (Acquired v r) /\ obeys R (c r) (tr ++ [Acquired v r])
  | Promote b c => forall r, R tr (Promoted b r) /\ obeys R (c r) (tr ++ [Promoted b r])
  | Extract b v c => forall r, R tr (Extracted b v r) /\ obeys R (c r) (tr ++ [Extracted b v r])
  | Ingest n x v c => forall r, R tr (Ingested n x v r) /\ obeys R (c r) (tr ++ [Ingested n x v r])
  | Dispatch y c => forall r, R tr (Dispatched y r) /\ obeys R (c r) (tr ++ [Dispatched y r])
  | RequestRestart c => forall r, R tr (Restart_requested r) /\ obeys R (c r) (tr ++ [Restart_requested r])
  | CheckAndRecord w c => forall b, R tr (Checked w b) /\ obeys R (c b) (tr ++ [Checked w b])
  | Observe t q c => forall r, R tr (Observed t q r) /\ obeys R (c r) (tr ++ [Observed t q r])
  end.
Lemma obeys_goes R p x p' tr : goes p x p' -> obeys R p tr -> R tr x /\ obeys R p' (tr ++ [x]).
Proof. by destruct 1; cbn. Qed.

(** What a forwarded handler may do next. *)
Definition terminal (w : row) : Prop := match w with budget_capped | burst_dropped | binding_requested | poisoned _ | forwarded_dropped _ _ => True | _ => False end.
Definition dropped (tr : list entry) : Prop := exists w, terminal w /\ Appended w (Ok tt) ∈ tr.
Definition replayed (k : key) (tr : list entry) : Prop := Read_committed k (Ok true) ∈ tr /\ Appended replay_observed (Ok tt) ∈ tr.
Definition delivered (k : key) (tr : list entry) : Prop := (exists y, Dispatched y (Ok tt) ∈ tr) /\ exists o b, Commit_tried k o (Ok b) ∈ tr.
Definition under_ceiling (k : key) (tr : list entry) : Prop := exists m, m < _FORWARDED_DISPATCH_ATTEMPT_CEILING /\ Counted k (Ok m) ∈ tr.
Definition is_dispatch (x : entry) : Prop := match x with Dispatched _ _ => True | _ => False end.
Definition is_increment (x : entry) : Prop := match x with Incremented _ _ _ => True | _ => False end.
(** The body a handler extracts: the promoted one, or the message's own where a direct
    handler has no promoter and the kind needs none. *)
Definition extractable (forwarded : bool) (n : InboundMessageNotification) (tr : list entry) (b : Body) : Prop :=
  (exists p, b = p_body p /\ Promoted (body n) (Ok p) ∈ tr) \/ forwarded = false /\ b = body n /\ requires_classifiers (adapter_id n) = false.
Definition quarantined (forwarded : bool) (m : option InboundMessageNotification) (tr : list entry) (x : entry) : Prop :=
  match x with
  | Extracted b v _ => exists n, m = Some n /\ extractable forwarded n tr b /\ Resolved n (Ok (Some v)) ∈ tr /\ Acquired v (Ok true) ∈ tr
  | Ingested n x v _ => m = Some n /\ exists b, Extracted b v (Ok x) ∈ tr
  | Dispatched y _ => exists n x v, Ingested n x v (Ok y) ∈ tr
  | _ => True
  end.
Definition mine (m : option InboundMessageNotification) (k : key) : Prop := exists n, m = Some n /\ k = key_of n.
Definition forwarded_rule (m : option InboundMessageNotification) (t : option nat) (q : option Z) (tr : list entry) (x : entry) : Prop :=
  match x with
  | Observed t' q' _ => t = Some t' /\ q = Some q' /\ (dropped tr \/ exists k, mine m k /\ (replayed k tr \/ delivered k tr))
  | Commit_tried k _ _ => mine m k /\ exists y, Dispatched y (Ok tt) ∈ tr
  | Dispatched _ _ => Forall (fun x => ~ is_dispatch x) tr /\ exists k o, mine m k /\ Incremented k o (Ok tt) ∈ tr
  | Incremented k _ _ => mine m k /\ Forall (fun x => ~ is_increment x) tr /\ under_ceiling k tr
  | Read_committed k _ => mine m k /\ tr = []
  | Counted k _ => mine m k /\ Read_committed k (Ok false) ∈ tr
  | _ => True
  end.
Definition direct_rule (m : option InboundMessageNotification) (t : option nat) (q : option Z) (tr : list entry) (x : entry) : Prop :=
  match x with
  | Observed t' q' _ => t = Some t' /\ q = Some q' /\ exists k o, mine m k /\ Commit_tried k o (Ok true) ∈ tr
  | Commit_tried k _ _ => mine m k /\ tr = []
  | Dispatched _ _ => Forall (fun x => ~ is_dispatch x) tr /\ exists k o, mine m k /\ Commit_tried k o (Ok true) ∈ tr
  | Incremented _ _ _ | Read_committed _ _ | Counted _ _ => False
  | _ => True
  end.
Definition rule (forwarded : bool) (m : option InboundMessageNotification) (t : option nat) (q : option Z) (tr : list entry) (x : entry) : Prop :=
  (if forwarded then forwarded_rule m t q tr x else direct_rule m t q tr x) /\ quarantined forwarded m tr x /\
  forall n, m = Some n -> _inbound_message_cheap_validate (platform_user_id n) (body n) = true.

(** The traces of a handler, one await at a time. *)
Ltac decide_branch := match goal with
  | |- context [accepted_message _ _] => unfold accepted_message
  | |- context [if negb ?b then _ else _] => destruct b eqn:?; cbn [negb]
  | |- context [if ?a <=? ?b then _ else _] => destruct (Z.leb_spec a b)
  | |- context [if is_exception ?e then _ else _] => destruct e; cbn [is_exception]
  | |- context [if ?b then _ else _] => destruct b eqn:?
  | |- context [match ?o with Some _ => _ | None => _ end] => destruct o eqn:?
  | |- context [match ?e with CancelledError => _ | _ => _ end] => destruct e
  end.
Ltac walk_step := first
  [ exact I
  | match goal with
    | u : unit |- _ => destruct u
    | |- forall r : result _ _, _ => let r := fresh "r" in intros r; destruct r as [?|?]
    | |- forall (o : bool) (r : result _ _), _ => let o := fresh "o" in intros o
    | |- forall b : bool, _ => intros []
    | |- obeys _ _ _ /\ _ => split
    | |- _ /\ obeys _ _ _ => split
    | |- obeys _ _ _ => first [progress cbn -[Z.leb rule andb] | decide_branch]
    end ].
Ltac in_trace := by repeat constructor.
Ltac mine_tac := by eexists.
Ltac rule_leaf := unfold rule; cbn -[_inbound_message_cheap_validate]; simplify_eq; (split; [|split; [try exact I; try done|try done; by intros ? [= <-]]]); split_and?; try done;
  repeat match goal with |- exists n, Some ?m = Some n /\ _ => exists m; split_and!; [reflexivity|..] | |- exists k, mine _ k /\ _ => eexists; split; [mine_tac|] | |- exists k o, mine _ k /\ _ => do 2 eexists; split; [mine_tac|] end;
  first [ in_trace | mine_tac | left; eexists; split; [|in_trace]; exact I | by repeat constructor; intros [] | eexists; in_trace
        | eexists; split; [|in_trace]; lia | left; split; in_trace | right; split; eexists; in_trace | left; eexists; split; [reflexivity|in_trace]
        | right; eexists; split; [mine_tac|left; split; in_trace] | right; eexists; split; [mine_tac|right; split; [eexists; in_trace|do 2 eexists; in_trace]] | do 3 eexists; in_trace ].
Lemma forwarded_obeys tracker params seq :
  obeys (rule true (about params seq) tracker seq) (_route_forwarded_inbound registry tracker params seq) [].
Proof.
  unfold _route_forwarded_inbound, receive, about. destruct (model_validate params) as [envelope|]; cbn [mbind option_bind].
  2:{ destruct tracker, seq; repeat walk_step. all: rule_leaf. }
  destruct (decide _). 2:{ destruct (reparse_forwarded_inbound envelope), tracker, seq; repeat walk_step. all: rule_leaf. }
  destruct (reparse_forwarded_inbound envelope) as [n| |].
  2-3: destruct tracker, seq; repeat walk_step; rule_leaf.
  unfold process_inbound_message. destruct tracker, seq; repeat walk_step. all: rule_leaf.
Qed.
Lemma direct_obeys promoter tracker n : obeys (rule false (Some n) tracker (wire_seq n)) (process promoter tracker n) [].
Proof.
  unfold process, process_inbound_message. destruct tracker, (wire_seq n) eqn:Hq, promoter; repeat walk_step. all: rule_leaf.
Qed.

(** ** One entry at a time *)
Definition is_sync (x : entry) : Prop := match x with Checked _ _ | Observed _ _ _ => True | _ => False end.
Definition plain (x : entry) : Prop :=
  match x with Read_committed _ _ | Commit_tried _ _ _ | Counted _ _ | Incremented _ _ _ | Checked _ _ | Observed _ _ _ => False | _ => True end.
(** What an entry does to the stores, and what it answers. *)
Inductive effect (s : system) : entry -> system -> Prop :=
| ef_read k r : (forall b, r = Ok b -> b = has_committed k s) -> effect s (Read_committed k r) s
| ef_commit k o r : (forall b, r = Ok b -> o = true /\ b = (commit_once k s).1) -> effect s (Commit_tried k o r) (if o then (commit_once k s).2 else s)
| ef_count k r : (forall m, r = Ok m -> m = attempt_count k s) -> effect s (Counted k r) s
| ef_increment k o r : (forall u, r = Ok u -> o = true) -> effect s (Incremented k o r) (if o then increment k s else s)
| ef_plain x : plain x -> effect s x s
| ef_checked w ok l : effect s (Checked w ok) (set_limiters l s)
| ef_observed t q r tr : (forall tr0, trackers s !! t = Some tr0 -> tr = (Tracker.observe q tr0).2) -> effect s (Observed t q r) (set_trackers (<[t := tr]> (trackers s)) (current s) s).

Lemma awaited_goes p a s x p' s' : awaited p a s = Some (x, p', s') -> goes p x p' /\ effect s x s' /\ ~ is_sync x.
Proof.
  destruct p; cbn; try done; intros H; destruct a; cbn in H; simplify_eq; (split; [constructor|split; [|exact (fun x => x)]]);
    first [apply ef_commit|apply ef_increment|constructor]; try exact I; try by intros ? [= <-]. all: done.
Qed.
Lemma effect_frame s x s' : effect s x s' -> calls s' = calls s /\ log s' = log s /\ current s' = current s /\ length (trackers s') = length (trackers s).
Proof. destruct 1; try (by destruct o); cbn; rewrite ?length_insert; done. Qed.

(** An invariant of the system is one of the single entries, of new handlers, connections
    and crashes; an awaited entry may use what holds between the steps. *)
Inductive fresh (s : system) : call -> Prop :=
| f_received params seq : fresh s (received (current s) params seq)
| f_processed promoter n : fresh s (processed promoter (current s) n).
Section preserve.
Variables P between : system -> Prop.
Hypothesis emits : forall s i c x p s', P s -> is_sync x \/ between s -> calls s !! i = Some c -> goes (c_prog c) x p -> effect s x s' ->
  P (set_prog i p (note i x s')).
Hypothesis starts : forall s c, P s -> fresh s c -> P (set_calls (calls s ++ [c]) s).
Hypothesis connects : forall s, P s -> P (step Connect s).
Hypothesis crashes : forall s, P s -> P (step Crash s).

Lemma set_prog_lookup i p s c : calls s !! i = Some c -> calls (set_prog i p s) !! i = Some (goes_on p c).
Proof. intros Hc. cbn. by rewrite list_lookup_alter_eq, Hc. Qed.
Lemma set_prog_twice i p p' s : set_prog i p (set_prog i p' s) = set_prog i p s.
Proof.
  unfold set_prog, set_calls. cbn. f_equal. apply list_eq. intros j. destruct (decide (i = j)) as [->|Hne].
  - rewrite !list_lookup_alter_eq. by destruct (calls s !! j).
  - by rewrite !list_lookup_alter_ne.
Qed.
Lemma settle_preserves i fw now p : forall sy, is_Some (calls sy !! i) -> P (set_prog i p sy) ->
  let '(p', s') := settle i fw now p sy in P (set_prog i p' s') /\ is_Some (calls s' !! i).
Proof.
  induction p; intros sy [d Hd] HP; try (split; [done|by exists d]).
  - cbn [settle]. destruct (check_and_record _ _ _) as [ok l]. apply H; [by exists d|].
    pose proof (emits _ i _ (Checked who ok) (c ok) _ HP (or_introl I) (set_prog_lookup _ _ _ _ Hd)
      (g_CheckAndRecord _ _ _) (ef_checked _ who ok (<[(fw, who.1) := l]> (limiters sy)))) as HP'. by rewrite <- (set_prog_twice i _ (CheckAndRecord who c)).
  - set (o := match trackers sy !! t with Some tr => Tracker.observe s tr | None => (Ok tt, Tracker.init) end).
    set (r := match o.1 with Ok _ => Ok tt | Err e => Err (seq_error e) end : result exn unit).
    assert (Hr : settle i fw now (Observe t s c) sy = settle i fw now (c r) (note i (Observed t s r) (set_trackers (<[t := o.2]> (trackers sy)) (current sy) sy))) by (unfold r, o; cbn [settle]; destruct (trackers sy !! t) as [tr|]; [by destruct (Tracker.observe s tr)|done]).
    rewrite Hr. apply H; [by exists d|]. rewrite <- (set_prog_twice i _ (Observe t s c)).
    apply (emits _ i _ (Observed t s r) (c r) (set_trackers (<[t := o.2]> (trackers sy)) (current sy) (set_prog i (Observe t s c) sy)) HP (or_introl I) (set_prog_lookup _ _ _ _ Hd) (g_Observe _ _ _ _)).
    apply (ef_observed (set_prog i _ sy) t s r o.2). cbn. intros tr0 Ht. unfold o. by rewrite Ht.
Qed.
Lemma set_prog_same i c s : calls s !! i = Some c -> set_prog i (c_prog c) s = s.
Proof.
  intros Hc. unfold set_prog, set_calls. destruct s. cbn in *. f_equal. apply list_eq. intros j. destruct (decide (i = j)) as [->|]; [|by rewrite list_lookup_alter_ne].
  rewrite list_lookup_alter_eq, Hc. cbn. by destruct c.
Qed.
Lemma advance_preserves i now s : P s -> P (advance i now s).
Proof.
  intros HP. unfold advance. destruct (calls s !! i) as [c|] eqn:Hc; [|done]. pose proof (settle_preserves i (c_forwarded c) now (c_prog c) s) as H.
  destruct (settle _ _ _ _ _) as [p s']. apply H; [by exists c|by rewrite (set_prog_same i c)].
Qed.
Lemma step_preserves x s : P s -> between s -> P (step x s).
Proof.
  intros HP Hb. destruct x as [params seq now|promoter n now|i a now| |]; [| | |by apply connects|by apply crashes].
  - apply advance_preserves, starts; [done|constructor].
  - apply advance_preserves, starts; [done|constructor].
  - cbn. destruct (calls s !! i) as [c|] eqn:Hc; [|done]. destruct (awaited (c_prog c) a s) as [[[x p] s']|] eqn:Ha; [|done].
    apply awaited_goes in Ha as (Hg&He&_). apply advance_preserves. eapply emits; eauto.
Qed.
End preserve.

(** ** What the log says *)
Definition own (i : nat) (l : list (nat * entry)) : list entry := snd <$> filter (fun x => x.1 = i) l.
Definition commits (k : key) (l : list (nat * entry)) : Prop := exists j r, (j, Commit_tried k true r) ∈ l.
Definition increment_of (k : key) (x : nat * entry) : option nat := match x.2 with Incremented k' true _ => if decide (k' = k) then Some x.1 else None | _ => None end.
Definition observation_of (t : nat) (x : nat * entry) : option Z := match x.2 with Observed t' q _ => if decide (t' = t) then Some q else None | _ => None end.
Definition stored (l : list (nat * entry)) (x : entry) : Prop :=
  match x with
  | Read_committed k (Ok b) => b = true <-> commits k l
  | Commit_tried k o (Ok b) => o = true /\ (b = false <-> commits k l)
  | Counted k (Ok m) => m = Zlen (omap (increment_of k) l)
  | Incremented k o (Ok _) => o = true
  | _ => True
  end.
Definition call_rule (c : call) : list entry -> entry -> Prop := rule (c_forwarded c) (c_about c) (c_tracker c) (c_seq c).

Record wf (s : system) : Prop := {
  wf_calls : forall i c, calls s !! i = Some c -> obeys (call_rule c) (c_prog c) (own i (log s));
  wf_log : forall l1 i x l2, log s = l1 ++ (i, x) :: l2 -> (exists c, calls s !! i = Some c /\ call_rule c (own i l1) x) /\ stored l1 x;
  wf_committed : forall k, k ∈ committed s <-> commits k (log s);
  wf_attempts : forall k, attempt_count k s = Zlen (omap (increment_of k) (log s));
  wf_valid : (forall t, current s = Some t -> (t < length (trackers s))%nat) /\ forall i c t, calls s !! i = Some c -> c_tracker c = Some t -> (t < length (trackers s))%nat;
  wf_trackers : forall t tr, trackers s !! t = Some tr -> tr = Tracker.run (omap (observation_of t) (log s)) Tracker.init }.

Lemma own_app i l l' : own i (l ++ l') = own i l ++ own i l'.
Proof. unfold own. by rewrite filter_app, fmap_app. Qed.
Lemma own_one i j x : own i [(j, x)] = if decide (j = i) then [x] else [].
Proof. unfold own. rewrite filter_cons. cbn. by destruct (decide _). Qed.
Lemma own_in i x l : x ∈ own i l <-> (i, x) ∈ l.
Proof.
  unfold own. rewrite list_elem_of_fmap. split; [intros ([j y]&->&[Hj Hy]%list_elem_of_filter); cbn in *; by subst|].
  intros Hx. exists (i, x). split; [done|]. by apply list_elem_of_filter.
Qed.
Lemma omap_snoc {A B} (f : A -> option B) l x : omap f (l ++ [x]) = omap f l ++ match f x with Some y => [y] | None => [] end.
Proof. by rewrite omap_app. Qed.
Lemma commits_snoc k l i x : commits k (l ++ [(i, x)]) <-> commits k l \/ exists r, x = Commit_tried k true r.
Proof. unfold commits. setoid_rewrite elem_of_app. setoid_rewrite list_elem_of_singleton. naive_solver. Qed.
Lemma log_snoc_split {A} (l : list A) y l1 x l2 : l ++ [y] = l1 ++ x :: l2 -> (l2 = [] /\ l1 = l /\ x = y) \/ exists l3, l2 = l3 ++ [y] /\ l = l1 ++ x :: l3.
Proof.
  intros H. destruct l2 as [|z l2 _] using rev_ind; [left; apply app_inj_tail in H as [-> ->]; done|]. right. exists l2.
  rewrite app_comm_cons, app_assoc in H. by apply app_inj_tail in H as [-> ->].
Qed.
Lemma calls_set_prog i p s j c : calls (set_prog i p s) !! j = Some c -> exists c0, calls s !! j = Some c0 /\ call_rule c = call_rule c0 /\ c_tracker c = c_tracker c0 /\
  c_about c = c_about c0 /\ c_forwarded c = c_forwarded c0 /\ (j <> i -> c = c0) /\ (j = i -> c_prog c = p).
Proof.
  cbn. destruct (decide (i = j)) as [->|Hne]; [rewrite list_lookup_alter_eq|rewrite list_lookup_alter_ne by done; intros ->; eexists; by split_and!].
  destruct (calls s !! j) as [c0|]; [|done]. intros [= <-]. eexists. by split_and!.
Qed.

Lemma emits_wf s i c x p s' : wf s -> calls s !! i = Some c -> goes (c_prog c) x p -> effect s x s' -> wf (set_prog i p (note i x s')).
Proof.
  intros [Hcalls Hlog Hcom Hatt [Hcur Hval] Htr] Hc Hg He. destruct (effect_frame _ _ _ He) as (E1&E2&E3&E4).
  destruct (obeys_goes _ _ _ _ _ Hg (Hcalls _ _ Hc)) as [Hrule Hob].
  assert (Hst : stored (log s) x).
  { destruct He; cbn; try done; repeat match goal with |- context [match ?r with Ok _ => _ | Err _ => _ end] => destruct r; try done end.
    - specialize (H _ eq_refl) as ->. unfold has_committed. rewrite bool_decide_eq_true. apply Hcom.
    - destruct (H _ eq_refl) as [-> ->]. cbn. split; [done|]. rewrite bool_decide_eq_false, <- Hcom. destruct (decide (k ∈ committed s)); tauto.
    - by rewrite (H _ eq_refl), Hatt.
    - by rewrite (H _ eq_refl).
    - by destruct x. }
  split; cbn [log set_prog set_calls note committed attempts trackers current]; rewrite ?E2.
  - intros j cj Hj. apply calls_set_prog in Hj as (c0&Hj&->&_&_&_&Hne&Heq). cbn [note calls] in Hj. rewrite E1 in Hj. rewrite own_app, own_one.
    destruct (decide (i = j)) as [->|Hij]; [|rewrite app_nil_r, Hne by done; by apply Hcalls]. rewrite Heq by done. by assert (c0 = c) as -> by congruence.
  - intros l1 j y l2 Hs. assert (Hkeep : forall j c0, calls s !! j = Some c0 -> exists c1, calls (set_prog i p (note i x s')) !! j = Some c1 /\ call_rule c1 = call_rule c0).
    { intros j' c0 Hj'. cbn. rewrite E1. destruct (decide (i = j')) as [->|]; [rewrite list_lookup_alter_eq, Hj'|rewrite list_lookup_alter_ne, Hj' by done]; by eexists. }
    apply log_snoc_split in Hs as [(->&->&[= -> ->])|(l3&->&Hs)].
    + split; [|done]. destruct (Hkeep _ _ Hc) as (c1&H1&H2). exists c1. by rewrite H2.
    + destruct (Hlog _ _ _ _ Hs) as [(c0&Hj&Hr) Hst']. split; [|done]. destruct (Hkeep _ _ Hj) as (c1&H1&H2). exists c1. by rewrite H2.
  - intros k. rewrite commits_snoc, <- Hcom. destruct He; try destruct o; cbn; split; intros Hk; try (by left); try (destruct Hk as [Hk|[? ?]]; [done|by subst]).
    + set_solver.
    + destruct Hk as [Hk|[? [= -> _]]]; set_solver.
  - intros k. rewrite omap_snoc, Zlen_app, <- Hatt. destruct He; cbn [increment_of snd fst]; try destruct o; rewrite ?Zlen_nil; try (unfold attempt_count; cbn; lia).
    + unfold increment, attempt_count. cbn. rewrite lookup_insert. destruct (decide (k0 = k)) as [->|]; cbn; unfold Zlen; cbn; lia.
    + unfold increment_of, attempt_count. cbn. destruct x; try done; unfold Zlen; cbn; lia.
  - rewrite E3, E4. split; [done|]. intros j cj t Hj Ht. apply calls_set_prog in Hj as (c0&Hj&_&Et&_). cbn [note calls] in Hj. rewrite E1 in Hj. rewrite Et in Ht. by eapply Hval.
  - intros t tr Ht. rewrite omap_snoc. revert Ht. destruct He; cbn; try destruct o; cbn; rewrite ?app_nil_r; try apply Htr.
    { intros Ht. rewrite (Htr _ _ Ht) at 1. f_equal. unfold observation_of. cbn. destruct x; try done; by rewrite app_nil_r. }
    assert (Htl : (t0 < length (trackers s))%nat) by (apply (Hval i c); [done|]; destruct Hrule as [Hr _]; cbn in Hr; destruct (c_forwarded c); apply Hr).
    destruct (decide (t0 = t)) as [->|Hne]; [|rewrite list_lookup_insert_ne, app_nil_r by done; apply Htr]. rewrite list_lookup_insert_eq by done. intros [= <-].
    destruct (lookup_lt_is_Some_2 _ _ Htl) as [tr1 Htr1]. rewrite (H _ Htr1), (Htr _ _ Htr1) at 1. unfold Tracker.run. by rewrite foldl_app.
Qed.

Lemma omap_none {A B} (f : A -> option B) l : (forall x, x ∈ l -> f x = None) -> omap f l = [].
Proof. induction l as [|x l IH]; intros Hl; [done|]. cbn. rewrite (Hl x) by constructor. apply IH. intros y Hy. apply Hl. by constructor. Qed.
Lemma own_fresh s i : wf s -> calls s !! i = None -> own i (log s) = [].
Proof.
  intros Hwf Hi. destruct (own i (log s)) as [|x l] eqn:Ho; [done|]. assert (Hin : x ∈ own i (log s)) by (rewrite Ho; constructor).
  apply own_in, list_elem_of_split in Hin as (l1&l2&Hl). apply (wf_log _ Hwf) in Hl as [(c&Hc&_) _]. congruence.
Qed.
Lemma fresh_obeys s c : fresh s c -> obeys (call_rule c) (c_prog c) [] /\ (forall t, c_tracker c = Some t -> current s = Some t).
Proof. destruct 1; (split; [|done]); [apply forwarded_obeys|apply direct_obeys]. Qed.
Lemma starts_wf s c : wf s -> fresh s c -> wf (set_calls (calls s ++ [c]) s).
Proof.
  intros Hwf Hf. pose proof Hwf as [Hcalls Hlog Hcom Hatt [Hcur Hval] Htr]. apply fresh_obeys in Hf as [Hob Ht].
  assert (Hold : forall i c0, calls s !! i = Some c0 -> (calls s ++ [c]) !! i = Some c0) by (intros i c0 Hi; by apply lookup_app_l_Some).
  split; cbn [calls set_calls log committed trackers current]; [| |done|done| |done].
  - intros i c0 [Hi|[Hge Hi]]%lookup_app_Some; [by apply Hcalls|]. apply list_lookup_singleton_Some in Hi as [Hi <-].
    rewrite own_fresh; [done|done|]. apply lookup_ge_None. lia.
  - intros l1 i x l2 Hs. destruct (Hlog _ _ _ _ Hs) as [(c0&Hi&Hr) Hst]. split; [|done]. exists c0. auto.
  - split; [done|]. intros i c0 t [Hi|[Hge Hi]]%lookup_app_Some Hc; [by eapply Hval|]. apply list_lookup_singleton_Some in Hi as [_ <-]. auto.
Qed.
Lemma connects_wf s : wf s -> wf (step Connect s).
Proof.
  intros Hwf. pose proof Hwf as [Hcalls Hlog Hcom Hatt [Hcur Hval] Htr]. split; cbn [calls step set_trackers log committed trackers current]; try done.
  - rewrite length_app. cbn. split; [intros t [= <-]; lia|]. intros i c t Hi Hc. specialize (Hval _ _ _ Hi Hc). lia.
  - intros t tr [Ht|[Hge Ht]]%lookup_app_Some; [by apply Htr|]. apply list_lookup_singleton_Some in Ht as [Ht <-].
    assert (omap (observation_of t) (log s) = []) as ->; [|done]. apply omap_none. intros [i x] Hin. unfold observation_of. cbn. destruct x as [| | | | | | | | | | | | |t' q r]; try done.
    destruct (decide (t' = t)) as [->|]; [|done]. exfalso. apply list_elem_of_split in Hin as (l1&l2&Hl). apply Hlog in Hl as [(c&Hc&[Hr _]) _].
    assert (c_tracker c = Some t) as Hct by (cbn in Hr; destruct (c_forwarded c); apply Hr). specialize (Hval _ _ _ Hc Hct). lia.
Qed.
Lemma crashes_wf s : wf s -> wf (step Crash s).
Proof.
  intros Hwf. pose proof Hwf as [Hcalls Hlog Hcom Hatt [Hcur Hval] Htr]. split; cbn [calls step set_trackers log committed trackers current]; try done.
  - intros i c Hi. apply list_lookup_fmap_Some in Hi as (c0&->&Hc). exact I.
  - intros l1 i x l2 Hs. destruct (Hlog _ _ _ _ Hs) as [(c0&Hi&Hr) Hst]. split; [|done]. exists (goes_on (Raise CancelledError) c0). by rewrite list_lookup_fmap, Hi.
  - split; [done|]. intros i c t Hi Hc. apply list_lookup_fmap_Some in Hi as (c0&->&Hc0). by eapply Hval.
Qed.
Lemma system_step_wf x s : wf s -> wf (step x s).
Proof.
  intros Hwf. apply (step_preserves wf (fun _ => True)); try done; [|apply starts_wf|apply connects_wf|apply crashes_wf].
  intros s0 i c y p s' H0 _. by apply emits_wf.
Qed.
Lemma start_wf_init : wf init.
Proof. split; cbn; try done; [by intros []|]. intros k. split; [done|]. intros (j&r&[]%elem_of_nil). Qed.
Lemma system_wf xs : wf (run xs init).
Proof. unfold run. induction xs as [|x xs IH] using rev_ind; [apply start_wf_init|]. rewrite foldl_app. by apply system_step_wf. Qed.

(** ** What is acknowledged was settled *)
Lemma log_entry s l1 l2 i x : wf s -> log s = l1 ++ l2 -> (i, x) ∈ l1 ->
  exists a b c, l1 = a ++ (i, x) :: b /\ calls s !! i = Some c /\ call_rule c (own i a) x /\ stored a x.
Proof.
  intros Hwf Hl Hin. apply list_elem_of_split in Hin as (a&b&->). rewrite <- app_assoc in Hl. apply (wf_log _ Hwf) in Hl as [(c&Hc&Hr) Hs]. by exists a, b, c.
Qed.
Lemma own_incl i x a b : x ∈ own i a -> (i, x) ∈ a ++ b.
Proof. intros Hx%own_in. by apply elem_of_app; left. Qed.
Lemma mine_inj m k k' : mine m k -> mine m k' -> k = k'.
Proof. intros (n&->&->) (n'&[= <-]&->). done. Qed.
(** A handler of the same message made its commit, on the forwarded path after it had
    dispatched it. *)
Definition settled (s : system) (k : key) (l : list (nat * entry)) : Prop :=
  exists j c, calls s !! j = Some c /\ mine (c_about c) k /\ (exists r, (j, Commit_tried k true r) ∈ l) /\
    (c_forwarded c = true -> exists y, (j, Dispatched y (Ok tt)) ∈ l).
Lemma commits_settled s k l1 l2 : wf s -> log s = l1 ++ l2 -> commits k l1 -> settled s k l1.
Proof.
  intros Hwf Hl (j&r&Hj). destruct (log_entry _ _ _ _ _ Hwf Hl Hj) as (a&b&c&->&Hc&[Hr _]&_). exists j, c. split; [done|].
  destruct (c_forwarded c); cbn in Hr; destruct Hr as [Hm Hr]; split_and!; eauto; [|done]. destruct Hr as [y Hy]. exists y. by apply own_incl.
Qed.
Lemma settled_mono s k l l' : settled s k l -> settled s k (l ++ l').
Proof. intros (j&c&Hc&Hm&[r Hr]&Hd). exists j, c. split_and!; [done|done|exists r; set_solver|]. intros Hf. destruct (Hd Hf) as [y Hy]. exists y. set_solver. Qed.

(** C28: No handler acknowledges a message before the message is settled.  Whatever the
    schedule of the handlers, the failures, cancellations and crashes, whenever a handler
    observes a sequence number it is the number the handler was given, on the tracker of the
    connection the message came in on, and the observation comes after either a signed row
    recorded the drop of the message, or a handler of the same message (this one, or an
    earlier one this one is a replay of) had durably committed it, which on the forwarded
    path is after its dispatch had returned.  (The rule is on what each handler observes for
    its own message; the legs of a connection number their frames separately and share its
    tracker, so the observation of one leg's frame also counts for another leg's frame of
    the same number.) *)
Theorem acknowledged_messages_are_settled xs l1 i t q r l2 : let s := run xs init in
  log s = l1 ++ (i, Observed t q r) :: l2 ->
  exists c, calls s !! i = Some c /\ c_tracker c = Some t /\ c_seq c = Some q /\
    ((exists w, terminal w /\ (i, Appended w (Ok tt)) ∈ l1) \/ exists k, mine (c_about c) k /\ settled s k l1).
Proof.
  intros s Hl. assert (Hwf : wf s) by apply system_wf. pose proof Hl as Hlog. apply (wf_log _ Hwf) in Hl as [(c&Hc&[Hr _]) _]. exists c. split; [done|].
  assert (Hown : forall x, x ∈ own i l1 -> exists a b, l1 = a ++ (i, x) :: b /\ stored a x).
  { intros x Hx%own_in. destruct (log_entry _ _ _ _ _ Hwf Hlog Hx) as (a&b&c'&->&_&_&Hst). eauto. }
  assert (Hcommit : forall k o b, Commit_tried k o (Ok b) ∈ own i l1 -> settled s k l1).
  { intros k o b Hx. pose proof (Hown _ Hx) as (a&b'&_&[-> _]). eapply commits_settled; [done..|]. exists i, (Ok b). by apply own_in. }
  destruct (c_forwarded c); cbn in Hr.
  - destruct Hr as (H1&H2&[(w&Hw&Hin)|(k&Hm&[[Hread _]|[_ (o&b&Hin)]])]); (split; [done|split; [done|]]).
    + left. exists w. split; [done|]. by apply own_in.
    + right. exists k. split; [done|]. destruct (Hown _ Hread) as (a&b&->&Hst). apply settled_mono. rewrite <- app_assoc in Hlog.
      eapply commits_settled; [done..|]. by apply Hst.
    + right. exists k. split; [done|]. by eapply Hcommit.
  - destruct Hr as (H1&H2&k&o&Hm&Hin). split; [done|]. split; [done|]. right. exists k. split; [done|]. by eapply Hcommit.
Qed.

(** ** Committed messages *)
(** What a handler that dispatches has found the commit of its message to be. *)
Lemma dispatch_uncommitted s l1 i y r l2 c k : wf s -> log s = l1 ++ (i, Dispatched y r) :: l2 -> calls s !! i = Some c -> mine (c_about c) k ->
  exists a x b, l1 = a ++ (i, x) :: b /\ ~ commits k a /\ (c_forwarded c = false -> x = Commit_tried k true (Ok true)).
Proof.
  intros Hwf Hl Hc Hm. pose proof Hl as Hlog. apply (wf_log _ Hwf) in Hl as [(c'&Hc'&[Hr _]) _]. assert (c' = c) as -> by congruence.
  assert (Hown : forall x l l', l1 = l ++ l' -> x ∈ own i l -> exists a b, l = a ++ (i, x) :: b /\ stored a x /\ call_rule c (own i a) x).
  { intros x l l' -> Hx%own_in. rewrite <- app_assoc in Hlog. destruct (log_entry _ _ _ _ _ Hwf Hlog Hx) as (a&b&c'&->&Hci&Hrule&Hst). exists a, b. assert (c' = c) as -> by congruence. done. }
  destruct (c_forwarded c) eqn:Hf; cbn in Hr.
  - destruct Hr as (_&k'&o&Hm'&Hin). assert (k' = k) as -> by (by eapply mine_inj).
    destruct (Hown _ _ [] (eq_sym (app_nil_r _)) Hin) as (a1&b1&->&_&[Hr1 _]). rewrite Hf in Hr1. destruct Hr1 as (_&_&m&_&Hcount).
    destruct (Hown _ a1 _ eq_refl Hcount) as (a2&b2&->&_&[Hr2 _]). rewrite Hf in Hr2. destruct Hr2 as (_&Hread). rewrite <- !app_assoc in *.
    destruct (Hown _ a2 _ eq_refl Hread) as (a3&b3&->&Hst&_). exists a3, (Read_committed k (Ok false)), (b3 ++ (i, Counted k (Ok m)) :: b2 ++ (i, Incremented k o (Ok tt)) :: b1).
    rewrite <- !app_assoc. split; [done|]. split; [|done]. intros Hcom. cbn in Hst. apply Hst in Hcom. done.
  - destruct Hr as (_&k'&o&Hm'&Hin). assert (k' = k) as -> by (by eapply mine_inj). destruct (Hown _ _ [] (eq_sym (app_nil_r _)) Hin) as (a&b&->&[-> Hst]&_).
    exists a, (Commit_tried k true (Ok true)), b. split; [done|]. split; [|done]. intros Hcom. apply Hst in Hcom. done.
Qed.

(** A committed message is not run again.  A handler that did nothing before an
    effective commit of its message never dispatches it, whatever its path and whichever
    handler or path made the commit. *)
Theorem committed_messages_are_not_run_again xs l1 l2 j c k : let s := run xs init in
  log s = l1 ++ l2 -> commits k l1 -> calls s !! j = Some c -> mine (c_about c) k -> own j l1 = [] -> Forall (fun x => ~ is_dispatch x) (own j l2).
Proof.
  intros s Hl Hcom Hc Hm Hown. apply list.Forall_forall. intros x Hx%own_in Hd. destruct x; try done. apply list_elem_of_split in Hx as (a&b&->).
  rewrite app_assoc in Hl. destruct (dispatch_uncommitted s _ _ _ _ _ c k (system_wf xs) Hl Hc Hm) as (a'&x&b'&Heq&Hno&_).
  apply app_eq_app in Heq as (l&[[-> Hl']|[-> _]]).
  - destruct l as [|z l]; [by rewrite app_nil_r in Hcom|]. injection Hl' as <- _. assert (Hin : x ∈ own j (a' ++ (j, x) :: l)) by (apply own_in; set_solver). rewrite Hown in Hin. by apply elem_of_nil in Hin.
  - apply Hno. destruct Hcom as (i&r'&Hi). exists i, r'. set_solver.
Qed.

Lemma prefix_take {A} (l a b : list A) : l = a ++ b -> a = take (length a) l.
Proof. intros ->. by rewrite take_app_length. Qed.
Lemma take_commits k (l : list (nat * entry)) m n i r : l !! m = Some (i, Commit_tried k true r) -> (m < n)%nat -> commits k (take n l).
Proof. intros Hm Hlt. exists i, r. apply (list_elem_of_lookup_2 _ m). by rewrite lookup_take_lt. Qed.
Lemma direct_runs_once s m n i j y y' r r' ci cj k : wf s -> (m < n)%nat -> log s !! m = Some (i, Dispatched y r) -> log s !! n = Some (j, Dispatched y' r') ->
  calls s !! i = Some ci -> calls s !! j = Some cj -> c_forwarded ci = false -> c_forwarded cj = false -> mine (c_about ci) k -> mine (c_about cj) k -> False.
Proof.
  intros Hwf Hlt Hm Hn Hi Hj Hfi Hfj Hmi Hmj. apply list_elem_of_split_length in Hm as (l1&l2&Hl&->). apply list_elem_of_split_length in Hn as (k1&k2&Hk&->).
  destruct (dispatch_uncommitted _ _ _ _ _ _ _ _ Hwf Hl Hi Hmi) as (a&x&b&Ha&Hnoa&Hx). rewrite (Hx Hfi) in Ha.
  destruct (dispatch_uncommitted _ _ _ _ _ _ _ _ Hwf Hk Hj Hmj) as (a'&x'&b'&Ha'&Hnoa'&Hx'). rewrite (Hx' Hfj) in Ha'.
  assert (Ea : log s !! length a = Some (i, Commit_tried k true (Ok true))) by (rewrite Hl, Ha, <- app_assoc; by apply list_lookup_middle).
  assert (Ea' : log s !! length a' = Some (j, Commit_tried k true (Ok true))) by (rewrite Hk, Ha', <- app_assoc; by apply list_lookup_middle).
  assert (Ta : a = take (length a) (log s)) by (rewrite Hl, Ha, <- app_assoc; by eapply prefix_take).
  assert (Ta' : a' = take (length a') (log s)) by (rewrite Hk, Ha', <- app_assoc; by eapply prefix_take).
  destruct (Nat.lt_trichotomy (length a) (length a')) as [H|[H|H]].
  - apply Hnoa'. rewrite Ta'. apply (take_commits _ _ _ _ _ _ Ea H).
  - rewrite H in Ea. assert (i = j) as -> by congruence. pose proof Hk as Hk'. apply (wf_log _ Hwf) in Hk' as [(c&Hc&[Hr _]) _]. assert (c = cj) as -> by congruence. rewrite Hfj in Hr. destruct Hr as [Hr _].
    assert (Hin : Dispatched y r ∈ own j k1); [|by apply (proj1 (list.Forall_forall _ _) Hr) in Hin; apply Hin].
    apply own_in. assert (k1 = take (length k1) (log s)) as -> by (rewrite Hk; by eapply prefix_take).
    apply (list_elem_of_lookup_2 _ (length l1)). rewrite lookup_take_lt by done. rewrite Hl. by apply list_lookup_middle.
  - apply Hnoa. rewrite Ta. apply (take_commits _ _ _ _ _ _ Ea' H).
Qed.
(** A direct message runs at most once, over the whole life of its database: of all the
    dispatches there ever are, crashes and restarts included, no two are by direct handlers
    of the same message. *)
Theorem direct_messages_run_at_most_once xs m n i j y y' r r' ci cj k : let s := run xs init in
  log s !! m = Some (i, Dispatched y r) -> log s !! n = Some (j, Dispatched y' r') -> calls s !! i = Some ci -> calls s !! j = Some cj ->
  c_forwarded ci = false -> c_forwarded cj = false -> mine (c_about ci) k -> mine (c_about cj) k -> m = n.
Proof.
  intros s Hm Hn Hi Hj Hfi Hfj Hmi Hmj. destruct (Nat.lt_trichotomy m n) as [H|[H|H]]; [exfalso|done|exfalso].
  - by eapply (direct_runs_once s m n i j); [apply system_wf|..].
  - by eapply (direct_runs_once s n m j i); [apply system_wf|..].
Qed.

(** ** The attempt ceiling *)
Definition live_b (p : prog) : bool := match p with Return | Raise _ => false | _ => true end.
(** The forwarded handlers of a message in flight, and those of them past the ceiling check
    that have not counted their attempt yet. *)
Definition flying (k : key) (s : system) (i : nat) : bool :=
  match calls s !! i with Some c => c_forwarded c && live_b (c_prog c) && bool_decide (key_of <$> c_about c = Some k) | None => false end.
Definition counted_b (k : key) (x : entry) : bool := match x with Counted k' (Ok m) => bool_decide (k' = k) && (m <? _FORWARDED_DISPATCH_ATTEMPT_CEILING) | _ => false end.
Definition increment_b (x : entry) : bool := match x with Incremented _ _ _ => true | _ => false end.
Definition pending (k : key) (s : system) (i : nat) : bool := flying k s i && existsb (counted_b k) (own i (log s)) && negb (existsb increment_b (own i (log s))).
Definition in_flight (k : key) (s : system) : list nat := filter (fun i => flying k s i = true) (seq 0 (length (calls s))).
Definition pendings (k : key) (s : system) : list nat := filter (fun i => pending k s i = true) (seq 0 (length (calls s))).

Lemma count_le (f g : nat -> bool) l : (forall j, f j = true -> g j = true) -> Zlen (filter (fun j => f j = true) l) <= Zlen (filter (fun j => g j = true) l).
Proof.
  intros Hfg. induction l as [|j l IH]; [done|]. rewrite !filter_cons. specialize (Hfg j).
  repeat destruct (decide _); rewrite ?Zlen_cons; try lia. tauto.
Qed.
Lemma count_lt (f g : nat -> bool) i l : (forall j, f j = true -> g j = true) -> i ∈ l -> g i = true -> f i = false ->
  Zlen (filter (fun j => f j = true) l) + 1 <= Zlen (filter (fun j => g j = true) l).
Proof.
  intros Hfg Hi Hg Hf. apply list_elem_of_split in Hi as (a&b&->). rewrite !filter_app, !filter_cons, !Zlen_app, decide_False, decide_True by congruence.
  rewrite Zlen_cons. pose proof (count_le f g a Hfg). pose proof (count_le f g b Hfg). lia.
Qed.
Lemma mine_key m k : mine m k <-> key_of <$> m = Some k.
Proof. unfold mine. destruct m as [n|]; cbn; naive_solver. Qed.
Lemma goes_live p x p' : goes p x p' -> live_b p = true.
Proof. by destruct 1. Qed.
Lemma existsb_snoc {A} (f : A -> bool) l x : existsb f (l ++ [x]) = existsb f l || f x.
Proof. rewrite existsb_app. cbn. by rewrite orb_false_r. Qed.

Section ceiling.
Variables (k : key) (cap : Z).
Definition under_cap (s : system) : Prop := wf s /\ attempt_count k s + Zlen (pendings k s) <= _FORWARDED_DISPATCH_ATTEMPT_CEILING - 1 + cap.

(** What an entry leaves of the other handlers. *)
Lemma pending_other i p x s s' j : calls s' = calls s -> log s' = log s -> j <> i -> pending k (set_prog i p (note i x s')) j = pending k s j.
Proof.
  intros E1 E2 Hne. unfold pending, flying. cbn [log set_prog set_calls note calls]. rewrite E1, E2, own_app, own_one, decide_False, app_nil_r by done. by rewrite list_lookup_alter_ne.
Qed.
Lemma flying_self s i c x p : calls s !! i = Some c -> goes (c_prog c) x p -> c_forwarded c = true -> mine (c_about c) k -> flying k s i = true.
Proof. intros Hc Hg Hf Hm. unfold flying. rewrite Hc, Hf, (goes_live _ _ _ Hg). cbn. apply bool_decide_eq_true. by apply mine_key. Qed.
Lemma pending_self s s' i c x p : calls s' = calls s -> log s' = log s -> calls s !! i = Some c -> goes (c_prog c) x p ->
  pending k (set_prog i p (note i x s')) i = true -> flying k s i = true /\ increment_b x = false /\ (counted_b k x = true \/ pending k s i = true).
Proof.
  intros E1 E2 Hc Hg. unfold pending. intros [[Hf Hx]%andb_true_iff Hn]%andb_true_iff.
  assert (Hf' : flying k s i = true).
  { unfold flying in *. cbn [set_prog set_calls note calls] in Hf. rewrite E1, list_lookup_alter_eq, Hc in Hf. rewrite Hc. cbn in Hf.
    apply andb_true_iff in Hf as [[H1 _]%andb_true_iff H3]. by rewrite H1, H3, (goes_live _ _ _ Hg). }
  cbn [log set_prog set_calls note] in Hx, Hn. rewrite E2, own_app, own_one, decide_True, existsb_snoc in Hx, Hn by done.
  apply negb_true_iff, orb_false_iff in Hn as [Hn1 Hn2]. split_and!; [done|done|]. rewrite Hf', Hn1. cbn. apply orb_true_iff in Hx as [Hx|Hx]; [right; by rewrite Hx|by left].
Qed.
Lemma emits_cap s i c x p s' : under_cap s -> is_sync x \/ Zlen (in_flight k s) <= cap -> calls s !! i = Some c -> goes (c_prog c) x p -> effect s x s' ->
  under_cap (set_prog i p (note i x s')).
Proof.
  intros [Hwf Hcap] Hb Hc Hg He. split; [by eapply emits_wf|]. destruct (effect_frame _ _ _ He) as (E1&E2&_&_).
  destruct (obeys_goes _ _ _ _ _ Hg (wf_calls _ Hwf _ _ Hc)) as [[Hrule _] _].
  set (s1 := set_prog i p (note i x s')). assert (Hlen : length (calls s1) = length (calls s)) by (cbn; by rewrite length_alter, E1).
  assert (Hother : forall j, j <> i -> pending k s1 j = pending k s j) by (intros j; by apply pending_other).
  assert (Hself := pending_self s s' i c x p E1 E2 Hc Hg). fold s1 in Hself.
  assert (Hatt : attempt_count k s1 = attempt_count k s + match increment_of k (i, x) with Some _ => 1 | None => 0 end).
  { rewrite (wf_attempts _ Hwf), (wf_attempts s1) by (by eapply emits_wf). cbn [log s1 set_prog set_calls note]. rewrite E2, omap_snoc, Zlen_app. by destruct (increment_of k (i, x)). }
  destruct (counted_b k x) eqn:Hx.
  - destruct x as [| |k' [m|]| | | | | | | | | | |]; try done. cbn in Hx. apply andb_true_iff in Hx as [->%bool_decide_eq_true Hm%Z.ltb_lt].
    assert (Hle : Zlen (pendings k s1) <= Zlen (in_flight k s)).
    { unfold pendings, in_flight. rewrite Hlen. apply count_le. intros j Hj. destruct (decide (j = i)) as [->|Hne]; [by apply Hself|]. rewrite Hother in Hj by done.
      unfold pending in Hj. by apply andb_true_iff in Hj as [[? _]%andb_true_iff _]. }
    destruct Hb as [[]|Hb]. assert (m = attempt_count k s) by (inversion He as [| |? ? Hr| | | |]; subst; [by apply Hr|done]). cbn in Hatt. lia.
  - assert (Hsub : forall j, pending k s1 j = true -> pending k s j = true).
    { intros j Hj. destruct (decide (j = i)) as [->|Hne]; [|by rewrite <- Hother]. destruct (Hself Hj) as (_&_&[?|?]); [congruence|done]. }
    destruct (increment_of k (i, x)) as [i'|] eqn:Hi.
    + destruct x as [| | |k' [|] r| | | | | | | | | |]; try done. cbn in Hi. destruct (decide (k' = k)) as [->|]; [|done].
      destruct (c_forwarded c) eqn:Hf; [|done]. destruct Hrule as (Hm&Hno&m&Hlt&Hin).
      assert (Hp : pending k s i = true).
      { unfold pending. rewrite (flying_self s i c _ _ Hc Hg Hf Hm). cbn. apply andb_true_iff. split.
        - apply existsb_exists. exists (Counted k (Ok m)). split; [by apply list_elem_of_In|]. cbn. rewrite bool_decide_eq_true_2 by done. by apply Z.ltb_lt.
        - apply negb_true_iff, not_true_iff_false. rewrite existsb_exists. intros (y&Hy%list_elem_of_In&Hyi). apply (proj1 (list.Forall_forall _ _) Hno) in Hy. by destruct y. }
      assert (Hp1 : pending k s1 i = false) by (apply not_true_iff_false; intros H1; destruct (Hself H1) as (_&H2&_); done).
      pose proof (count_lt (pending k s1) (pending k s) i (seq 0 (length (calls s))) Hsub) as Hlt'. unfold pendings in *. rewrite Hlen.
      assert (i ∈ seq 0 (length (calls s))) as Hin' by (apply elem_of_seq; apply lookup_lt_Some in Hc; lia). specialize (Hlt' Hin' Hp Hp1). lia.
    + pose proof (count_le (pending k s1) (pending k s) (seq 0 (length (calls s))) Hsub) as Hle. unfold pendings in *. rewrite Hlen. lia.
Qed.
Lemma starts_cap s c : under_cap s -> fresh s c -> under_cap (set_calls (calls s ++ [c]) s).
Proof.
  intros [Hwf Hcap] Hf. split; [by apply starts_wf|]. change (attempt_count k (set_calls (calls s ++ [c]) s)) with (attempt_count k s).
  assert (pendings k (set_calls (calls s ++ [c]) s) = pendings k s) as ->; [|done]. unfold pendings. cbn [set_calls calls]. rewrite length_app, seq_app, filter_app. cbn [length seq].
  rewrite (filter_none _ [(0 + length (calls s))%nat]), app_nil_r.
  - apply filter_ext_in. intros j Hj%elem_of_seq. unfold pending, flying. cbn [set_calls calls log]. by rewrite lookup_app_l by lia.
  - intros j ->%list_elem_of_singleton. cbn. unfold pending. cbn [set_calls log]. rewrite own_fresh; [cbn; by rewrite andb_false_r|done|]. apply lookup_ge_None. lia.
Qed.
Lemma crashes_cap s : under_cap s -> under_cap (step Crash s).
Proof.
  intros [Hwf Hcap]. split; [by apply crashes_wf|]. change (attempt_count k (step Crash s)) with (attempt_count k s).
  etransitivity; [|exact Hcap]. apply Z.add_le_mono_l. unfold pendings. cbn [step calls]. rewrite length_fmap. apply count_le.
  intros j. unfold pending at 1, flying. cbn [step calls]. rewrite list_lookup_fmap. destruct (calls s !! j) as [c|]; cbn; by rewrite ?andb_false_r.
Qed.
Lemma run_cap xs : 0 <= cap -> (forall ys zs, xs = ys ++ zs -> Zlen (in_flight k (run ys init)) <= cap) -> under_cap (run xs init).
Proof.
  intros H0. induction xs as [|x xs IH] using rev_ind; intros Hb.
  - split; [apply start_wf_init|]. change (pendings k (run [] init)) with (@nil nat). unfold attempt_count. cbn [run foldl init attempts]. rewrite lookup_empty. cbn. unfold _FORWARDED_DISPATCH_ATTEMPT_CEILING, Zlen. cbn. lia.
  - unfold run. rewrite foldl_app. apply (step_preserves under_cap (fun s => Zlen (in_flight k s) <= cap)).
    + intros; by eapply emits_cap.
    + apply starts_cap.
    + intros s [Hwf Hc]. split; [by apply connects_wf|done].
    + apply crashes_cap.
    + apply IH. intros ys zs ->. apply (Hb ys (zs ++ [x])). by rewrite app_assoc.
    + by apply (Hb xs [x]).
Qed.
End ceiling.

(** The forwarded dispatches of a message, by handler. *)
Definition dispatch_of (k : key) (s : system) (x : nat * entry) : option nat :=
  match x.2, calls s !! x.1 with Dispatched _ _, Some c => if c_forwarded c && bool_decide (key_of <$> c_about c = Some k) then Some x.1 else None | _, _ => None end.
Definition dispatches (k : key) (s : system) : list nat := omap (dispatch_of k s) (log s).
Lemma dispatch_of_Some k s i x i' : dispatch_of k s (i, x) = Some i' -> i' = i /\ is_dispatch x /\ exists c, calls s !! i = Some c /\ c_forwarded c = true /\ mine (c_about c) k.
Proof.
  unfold dispatch_of. cbn. destruct x; try done. destruct (calls s !! i) as [c|]; [|done]. destruct (c_forwarded c && _) eqn:Hb; [|done]. intros [= <-].
  apply andb_true_iff in Hb as [H1 H2%bool_decide_eq_true]. split; [done|]. split; [done|]. exists c. split_and!; [done|done|]. by apply mine_key.
Qed.
Lemma dispatches_counted k s : wf s -> Zlen (dispatches k s) <= attempt_count k s.
Proof.
  intros Hwf. rewrite (wf_attempts _ Hwf). unfold Zlen. apply inj_le, submseteq_length, NoDup_submseteq.
  - unfold dispatches. assert (Hp : forall l1 l2, log s = l1 ++ l2 -> NoDup (omap (dispatch_of k s) l1)); [|by apply (Hp _ []); rewrite app_nil_r].
    induction l1 as [|[i x] l1 IH] using rev_ind; intros l2 Hl; [constructor|]. rewrite omap_snoc. rewrite <- app_assoc in Hl. apply NoDup_app. split; [by eapply IH|].
    destruct (dispatch_of k s (i, x)) as [i'|] eqn:Hx; [|split; [set_solver|constructor]]. split; [|apply NoDup_singleton].
    intros j Hj ->%list_elem_of_singleton. apply dispatch_of_Some in Hx as (->&Hd&c&Hc&Hf&Hm). apply list_elem_of_omap in Hj as ([j y]&Hj&Hy).
    apply dispatch_of_Some in Hy as (->&Hdy&_). apply (wf_log _ Hwf) in Hl as [(c'&Hc'&[Hr _]) _]. assert (c' = c) as -> by congruence. rewrite Hf in Hr.
    destruct x; try done. destruct Hr as [Hr _]. apply own_in in Hj. by apply (proj1 (list.Forall_forall _ _) Hr) in Hj.
  - intros i Hi. apply list_elem_of_omap in Hi as ([j x]&Hin&Hx). apply dispatch_of_Some in Hx as (->&Hd&c&Hc&Hf&Hm).
    apply list_elem_of_split in Hin as (l1&l2&Hl). pose proof Hl as Hlog. apply (wf_log _ Hwf) in Hl as [(c'&Hc'&[Hr _]) _]. assert (c' = c) as -> by congruence. rewrite Hf in Hr.
    destruct x; try done. destruct Hr as (_&k'&o&Hm'&Hi%own_in). assert (k' = k) as -> by (by eapply mine_inj). pose proof Hi as Hi'.
    destruct (log_entry _ _ _ _ _ Hwf Hlog Hi) as (a&b&_&_&_&_&Ho). cbn in Ho. subst o. apply list_elem_of_omap. exists (j, Incremented k true (Ok tt)). split; [rewrite Hlog; set_solver|].
    unfold increment_of. cbn. by rewrite decide_True.
Qed.
(** A poison message is run a bounded number of times.  Over any run, crashes included,
    in which no more than [cap] handlers of a forwarded message are in flight at once, it is
    dispatched at most [cap - 1] times more than the ceiling of five; one at a time, at most
    five times.  (The check and the count of an attempt are separate transactions, so the
    excess is real: [Concrete.race_passes_the_ceiling].) *)
Theorem forwarded_dispatches_are_bounded xs k cap : 0 <= cap -> (forall ys zs, xs = ys ++ zs -> Zlen (in_flight k (run ys init)) <= cap) ->
  Zlen (dispatches k (run xs init)) <= _FORWARDED_DISPATCH_ATTEMPT_CEILING - 1 + cap.
Proof.
  intros H0 Hb. destruct (run_cap k cap xs H0 Hb) as [Hwf Hc]. pose proof (dispatches_counted k _ Hwf). pose proof (Zlen_nonneg (pendings k (run xs init))). lia.
Qed.

(** ** What reaches the orchestrator *)
(** The orchestrator is given only what the quarantine made of the message.  What a
    handler dispatches is what [ingest] made of an extraction, by that handler and in this
    order: the sender was resolved, the burst limiter let the message in, the sub-payloads
    were promoted (or the kind has none to promote), and the extractor was given the
    promoted body; and nothing is extracted before the first three. *)
Theorem only_extractions_are_dispatched xs l1 i x l2 : let s := run xs init in log s = l1 ++ (i, x) :: l2 ->
  exists c, calls s !! i = Some c /\ match x with
    | Dispatched y _ => exists n v e b, c_about c = Some n /\ extractable (c_forwarded c) n (own i l1) b /\
        (i, Resolved n (Ok (Some v))) ∈ l1 /\ (i, Acquired v (Ok true)) ∈ l1 /\ (i, Extracted b v (Ok e)) ∈ l1 /\ exists v', (i, Ingested n e v' (Ok y)) ∈ l1
    | Extracted b v _ => exists n, c_about c = Some n /\ extractable (c_forwarded c) n (own i l1) b /\ (i, Resolved n (Ok (Some v))) ∈ l1 /\ (i, Acquired v (Ok true)) ∈ l1
    | _ => True
    end.
Proof.
  intros s Hl. assert (Hwf : wf s) by apply system_wf. pose proof Hl as Hlog. apply (wf_log _ Hwf) in Hl as [(c&Hc&(_&Hr&_)) _]. exists c. split; [done|].
  assert (Hown : forall y, y ∈ own i l1 -> exists a b, l1 = a ++ (i, y) :: b /\ quarantined (c_forwarded c) (c_about c) (own i a) y).
  { intros y Hy%own_in. destruct (log_entry _ _ _ _ _ Hwf Hlog Hy) as (a&b&c'&->&Hci&(_&Hq&_)&_). exists a, b. by assert (c' = c) as -> by congruence. }
  destruct x; try done; cbn in Hr.
  - destruct Hr as (n&Hn&He&H1%own_in&H2%own_in). by exists n.
  - destruct Hr as (n&e&v'&Hin). destruct (Hown _ Hin) as (a&b&->&Hq). destruct Hq as (Hn&bd&He).
    assert (He' : Extracted bd v' (Ok e) ∈ own i (a ++ (i, Ingested n e v' (Ok y)) :: b)) by (rewrite own_app; set_solver).
    destruct (Hown _ He') as (a2&b2&Heq&(n'&Hn'&Hx&H1%own_in&H2%own_in)). assert (n' = n) as -> by congruence. rewrite Heq.
    exists n, v', e, bd. split; [done|]. split; [|split_and!; [set_solver|set_solver|set_solver|]].
    + destruct Hx as [(p&->&Hp)|Hx]; [left; exists p; split; [done|]; rewrite own_app; set_solver|by right].
    + exists v'. rewrite <- Heq. apply own_in in Hin. set_solver.
Qed.

(** ** A frame the cheap check refuses *)
Lemma invalid_silent s i c n : wf s -> calls s !! i = Some c -> c_about c = Some n -> _inbound_message_cheap_validate (platform_user_id n) (body n) = false -> own i (log s) = [].
Proof.
  intros Hwf Hc Hn Hv. destruct (own i (log s)) as [|x l] eqn:Ho; [done|]. assert (Hin : x ∈ own i (log s)) by (rewrite Ho; constructor).
  apply own_in, list_elem_of_split in Hin as (l1&l2&Hl). apply (wf_log _ Hwf) in Hl as [(c'&Hc'&(_&_&H)) _]. assert (c' = c) as -> by congruence. rewrite (H _ Hn) in Hv. done.
Qed.
(** A forwarded frame with an empty body is dropped without a trace and stalls its leg.
    If whatever a connection delivers under a sequence number fails the cheap check (the
    wire model lets an empty body through), then however often it is delivered no handler
    of it writes a row, counts an attempt or observes it, and the cumulative
    acknowledgement of the connection never reaches it, whatever else is acknowledged. *)
Theorem empty_body_stalls_its_leg xs t q tr : let s := run xs init in 0 <= q -> trackers s !! t = Some tr ->
  (forall i c, calls s !! i = Some c -> c_tracker c = Some t -> c_seq c = Some q ->
     exists n, c_about c = Some n /\ _inbound_message_cheap_validate (platform_user_id n) (body n) = false) ->
  Tracker.cumulative_ack tr < q /\ forall i c, calls s !! i = Some c -> c_tracker c = Some t -> c_seq c = Some q -> own i (log s) = [].
Proof.
  intros s Hq Htr Hinv. assert (Hwf : wf s) by apply system_wf. split.
  - rewrite (wf_trackers _ Hwf _ _ Htr). set (seqs := omap _ _). destruct (tracker_run_wf seqs Tracker.init tracker_init_wf) as ([Htop _]&_&Hadm).
    assert (Hno : q ∉ seqs).
    { intros Hin. apply list_elem_of_omap in Hin as ([i x]&Hin&Hx). unfold observation_of in Hx. cbn in Hx. destruct x as [| | | | | | | | | | | | |t' q' r]; try done. destruct (decide (t' = t)) as [->|]; [|done]. injection Hx as ->.
      apply list_elem_of_split in Hin as (l1&l2&Hl). apply (wf_log _ Hwf) in Hl as [(c&Hc&(Hr&_&Hv)) _].
      assert (c_tracker c = Some t /\ c_seq c = Some q) as [H1 H2] by (cbn in Hr; destruct (c_forwarded c); destruct Hr as (H1&H2&_); done).
      destruct (Hinv _ _ Hc H1 H2) as (n&Hn&Hf). rewrite (Hv _ Hn) in Hf. done. }
    destruct (Z.lt_ge_cases (Tracker.cumulative_ack (Tracker.run seqs Tracker.init)) q) as [|Hge]; [done|]. exfalso.
    assert (Ha : SeqTracker.admitted (Tracker.run seqs Tracker.init) q) by (left; unfold Tracker.cumulative_ack in Hge; lia). apply Hadm in Ha as [[Ha|Ha]|Ha]; [cbn in Ha; lia|by apply elem_of_empty in Ha|done].
  - intros i c Hc H1 H2. destruct (Hinv _ _ Hc H1 H2) as (n&Hn&Hf). by eapply invalid_silent.
Qed.

(** ** A calm delivery *)
(** The answers of an outside that does not raise, and a handler driven by them alone. *)
Record calm := { a_resolve : option ResolvedInbound; a_acquire : bool; a_promote : PromotedBody; a_extract : X; a_ingest : Y }.
Definition calm_answer (o : calm) (p : prog) : answer :=
  match p with
  | Resolve _ _ => Resolves (a_resolve o) | Acquire _ _ => Acquires (a_acquire o) | Promote _ _ => Promotes (a_promote o)
  | Extract _ _ _ => Extracts (a_extract o) | Ingest _ _ _ _ => Ingests (a_ingest o) | _ => Proceeds
  end.
Definition next_of (o : calm) (i : nat) (s : system) : answer := match calls s !! i with Some c => calm_answer o (c_prog c) | None => Proceeds end.
Fixpoint drive (n : nat) (o : calm) (now : Q) (i : nat) (s : system) : system :=
  match n with O => s | S n => drive n o now i (step (Go i (next_of o i s) now) s) end.

Definition resume (i : nat) (now : Q) (r : entry * prog * system) : system :=
  let '(x, p, s) := r in let '(p, s) := settle i true now p (note i x s) in set_prog i p s.
Lemma settle_calls i fw now p l : forall s, settle i fw now p (set_calls l s) = let '(p', s') := settle i fw now p s in (p', set_calls l s').
Proof.
  induction p; intros s1; try done; cbn [settle].
  - cbn [set_calls limiters]. destruct (check_and_record _ _ _) as [ok h]. by etransitivity; [|apply H].
  - cbn [set_calls trackers]. destruct (trackers s1 !! t) as [tr|]; [destruct (Tracker.observe s tr)|]; by (etransitivity; [|apply H]).
Qed.
Lemma settle_frame i fw now p : forall s, calls (settle i fw now p s).2 = calls s.
Proof.
  induction p; intros s1; try done; cbn [settle].
  - destruct (check_and_record _ _ _) as [ok h]. by rewrite H.
  - destruct (trackers s1 !! t) as [tr|]; [destruct (Tracker.observe s tr)|]; by rewrite H.
Qed.
Lemma awaited_calls p a l s : awaited p a (set_calls l s) = (fun r => (r.1, set_calls l r.2)) <$> awaited p a s.
Proof. destruct p, a; try done; cbn; by try destruct took_effect0. Qed.
Lemma drive_next n o now i p s c : calls s !! i = Some c -> c_forwarded c = true ->
  drive (S n) o now i (set_prog i p s) = drive n o now i (match awaited p (calm_answer o p) s with Some r => resume i now r | None => set_prog i p s end).
Proof.
  intros Hc Hf. cbn [drive]. f_equal. unfold next_of. cbn [step]. rewrite (set_prog_lookup i p s c Hc). cbn [goes_on c_prog]. rewrite (awaited_calls p (calm_answer o p) (alter (goes_on p) i (calls s)) s : awaited p (calm_answer o p) (set_prog i p s) = _).
  destruct (awaited p (calm_answer o p) s) as [[[x p'] s']|] eqn:Ha; [|done]. cbn. apply awaited_goes in Ha as (_&He&_). destruct (effect_frame _ _ _ He) as (E1&_).
  assert (Hs : set_prog i p' (note i x (set_calls (alter (goes_on p) i (calls s)) s')) = set_prog i p' (note i x s')).
  { rewrite <- (set_prog_twice i p' p (note i x s')). unfold set_prog, note, set_calls. cbn. by rewrite E1. }
  rewrite Hs. unfold advance. rewrite (set_prog_lookup i p' (note i x s') c) by (cbn; by rewrite E1). cbn [goes_on c_forwarded c_prog]. rewrite Hf. rewrite (settle_calls i true now p' (alter (goes_on p') i (calls s')) (note i x s') : settle i true now p' (set_prog i p' (note i x s')) = _).
  pose proof (settle_frame i true now p' (note i x s')) as Hfr. destruct (settle i true now p' (note i x s')) as [p2 s2]. cbn [snd] in Hfr.
  rewrite <- (set_prog_twice i p2 p' s2). unfold set_prog, set_calls. cbn. by rewrite Hfr.
Qed.

Lemma drive_done n o now i p s c : calls s !! i = Some c -> c_forwarded c = true -> awaited p (calm_answer o p) s = None -> drive n o now i (set_prog i p s) = set_prog i p s.
Proof. intros Hc Hf Ha. induction n as [|n IH]; [done|]. by rewrite (drive_next n o now i p s c Hc Hf), Ha. Qed.
Lemma drive_run n o now i s : exists ys, drive n o now i s = run ys s.
Proof. revert s. induction n as [|n IH]; intros s; [by exists []|]. cbn [drive]. destruct (IH (step (Go i (next_of o i s) now) s)) as [ys ->]. by exists (Go i (next_of o i s) now :: ys). Qed.
Definition hashes (n : InboundMessageNotification) : Prop := exists h, hash_platform_user_id (platform_user_id n) = Some h.
Definition limiter_admits (n : InboundMessageNotification) (now : Q) (s : system) : bool :=
  match hash_platform_user_id (platform_user_id n) with
  | Some h => (check_and_record (adapter_id n, h) now (default fresh_limiter (limiters s !! (true, adapter_id n)))).1
  | None => false
  end.

Lemma observe_admits tr q : tracker_wf tr -> 0 <= q -> q <= Tracker.tr_contiguous_high tr + _MAX_OOO_GAP -> SeqTracker.admitted (Tracker.observe q tr).2 q.
Proof.
  intros Hwf Hq Hgap. destruct (Tracker.observe q tr) as [r tr'] eqn:Ho. destruct (observe_spec _ _ _ _ Hwf Ho) as (_&_&[(?&_&_)|[(_&_&Hw&_)|(_&_&_&Hadm)]]).
  - lia.
  - exfalso. unfold Tracker.in_window in Hw. cmp_cases; done || lia.
  - apply Hadm. by right.
Qed.

Section delivery.
Variables (o : calm) (now : Q) (s : system) (c : call) (i t : nat) (q : Z) (tr0 : Tracker.BoundedSeqAckTracker).
Hypotheses (Hc : calls s !! i = Some c) (Hf : c_forwarded c = true) (Ht : trackers s !! t = Some tr0).
Ltac calm_step := rewrite (drive_next _ o now i _ _ c); [|exact Hc|exact Hf]; cbn [awaited calm_answer done_with mbind option_bind catch resume settle].
Ltac calm_stop := rewrite (drive_done _ o now i Return _ c); [|exact Hc|exact Hf|reflexivity].
Lemma observe_ok tr : 0 <= q -> (Tracker.observe q tr).1 = Ok tt.
Proof. intros Hq. unfold Tracker.observe, bind, get, ret, put. destruct (Z.ltb_spec q 0); [lia|]. by destruct (negb _). Qed.
Ltac calm_drain Hq := match goal with |- context [match ?o with Some tr => Tracker.observe q tr | None => _ end] =>
    change o with (trackers s !! t); rewrite Ht; pose proof (observe_ok tr0 Hq); destruct (Tracker.observe q tr0) as [[?|?] ?]; [|done] end; cbn [catch settle is_exception].
Definition acks (tr : list entry) : Prop := exists r, Observed t q r ∈ tr.
Definition runs (tr : list entry) : Prop := exists y r, Dispatched y r ∈ tr.
(** The trace of a driven handler, and how it can be read off. *)
Definition ends_with (P : list entry -> Prop) (p : prog) : Prop := exists s' tr,
  drive 12 o now i (set_prog i p s) = set_prog i Return s' /\ calls s' = calls s /\ own i (log s') = own i (log s) ++ tr /\
  (acks tr -> trackers s' !! t = Some (Tracker.observe q tr0).2) /\ P tr.
Ltac calm_end := calm_stop; do 2 eexists; split; [reflexivity|]; split; [reflexivity|]; split; [cbn [log set_prog set_calls note set_trackers set_limiters took_effect commit_once increment set_attempts set_committed fst snd]; rewrite !own_app, !own_one, !decide_True, <- ?app_assoc by done; reflexivity|];
  split; [first [intros _; cbn; by rewrite list_lookup_insert_eq by (by eapply lookup_lt_Some)|intros (r&Hin); exfalso; set_solver]|].
Lemma calm_drop w h : 0 <= q -> ends_with (fun tr => acks tr /\ ~ runs tr) (catch (signed w (_drain_forwarded_seq (Some t) (Some q) Return)) h).
Proof.
  intros Hq. unfold ends_with, signed, _drain_forwarded_seq. cbn [catch]. calm_step. calm_drain Hq; calm_end.
  all: split; [eexists; in_trace|]; intros (y&r&Hin); set_solver.
Qed.
Definition runnable (n : InboundMessageNotification) : Prop :=
  (key_of n ∉ committed s) /\ attempt_count (key_of n) s < _FORWARDED_DISPATCH_ATTEMPT_CEILING /\ limiter_admits n now s = true /\ is_Some (a_resolve o) /\ a_acquire o = true.
Ltac calm_ack := split; [split; [intros _; first [by left|right; by eexists]|intros _; eexists; in_trace]|].
Ltac calm_settle := calm_ack; split; [intros (y&r&Hin); exfalso; set_solver|intros (H1&H2&H3&[? H4]&H5); exfalso; first [congruence|lia|done]].
Lemma calm_process n h : h OtherException = Return -> 0 <= q -> wire_seq n = Some q -> _inbound_message_cheap_validate (platform_user_id n) (body n) = true ->
  ends_with (fun tr => (acks tr <-> key_of n ∈ committed s \/ hashes n) /\ (runs tr <-> runnable n)) (catch (process_inbound_message {| sub_payload_promoter := true; ack_tracker := Some t; commit_at_dispatch_edge := true |} n) h).
Proof.
  intros Hh Hq Hw Hv. unfold ends_with, process_inbound_message. rewrite Hv. cbn [negb andb sub_payload_promoter commit_at_dispatch_edge ack_tracker catch]. unfold runnable, limiter_admits.
  calm_step. unfold has_committed. case_bool_decide as Hcom; cbn [catch settle].
  { unfold signed, _drain_forwarded_seq. rewrite Hw. cbn [catch settle]. calm_step. calm_drain Hq; calm_end; calm_settle. }
  unfold accepted_message. destruct (hash_platform_user_id (platform_user_id n)) as [hashed|] eqn:Hhash; cbn [catch settle fst].
  2:{ rewrite Hh. cbn [settle]. calm_end. split.
      - split; [intros (r&Hin); exfalso; set_solver|]. intros [Hx|[? Hx]]; [done|congruence].
      - split; [intros (y&r&Hin); exfalso; set_solver|]. by intros (_&_&?&_). }
  change (limiters (note _ _ s)) with (limiters s).
  destruct (check_and_record _ _ _) as [ok l]. destruct ok; cbn [catch settle commit_at_dispatch_edge ack_tracker].
  2:{ unfold _drain_forwarded_seq. rewrite Hw. cbn [catch settle]. calm_step. calm_drain Hq; calm_end; calm_settle. }
  calm_step. match goal with |- context [if _ <=? ?m then _ else _] => change m with (attempt_count (key_of n) s) end.
  destruct (Z.leb_spec _FORWARDED_DISPATCH_ATTEMPT_CEILING (attempt_count (key_of n) s)); cbn [catch settle].
  { unfold signed, _drain_forwarded_seq. rewrite Hw. cbn [catch settle]. calm_step. calm_drain Hq; calm_end; calm_settle. }
  unfold resolve_and_admit. cbn [catch settle commit_at_dispatch_edge ack_tracker]. calm_step. destruct (a_resolve o) as [v|] eqn:Hres; cbn [catch settle].
  2:{ unfold _drain_forwarded_seq. rewrite Hw. cbn [catch settle]. calm_step. calm_drain Hq; calm_end; calm_settle. }
  calm_step. destruct (a_acquire o) eqn:Hacq; cbn [catch settle].
  2:{ unfold _drain_forwarded_seq. rewrite Hw. cbn [catch settle]. calm_step. calm_drain Hq; calm_end; calm_settle. }
  unfold admitted_message, promote_and_extract, dispatch_and_settle, _drain_forwarded_seq. cbn [catch settle sub_payload_promoter commit_at_dispatch_edge ack_tracker]. rewrite Hw.
  do 7 calm_step. calm_drain Hq; calm_end; (calm_ack; split; [intros _; split_and!; eauto|intros _; do 2 eexists; in_trace]).
Qed.
Lemma calm_admission adapter reason h : 0 <= q -> ends_with (fun tr => acks tr /\ ~ runs tr) (catch (admission_drop (Some t) (Some q) adapter reason) h).
Proof.
  intros Hq. unfold ends_with, admission_drop, _audit_drop, signed. cbn [catch]. calm_step. calm_drain Hq; calm_end.
  all: split; [eexists; in_trace|]; intros (y&r&Hin); set_solver.
Qed.
(** A whole delivery: it is acknowledged unless it parses to a message the cheap check
    refuses, and dispatched where it parses to one that may run. *)
Definition acceptable (n : InboundMessageNotification) : Prop := _inbound_message_cheap_validate (platform_user_id n) (body n) = true.
(** The exceptions: a message the cheap check refuses, and one whose sender must be hashed
    (it is not committed yet) where there is no pepper. *)
Definition settleable (n : InboundMessageNotification) : Prop := acceptable n /\ (key_of n ∈ committed s \/ hashes n).
Lemma calm_receive params : 0 <= q -> ends_with (fun tr =>
    (acks tr <-> forall n, about params (Some q) = Some n -> settleable n) /\
    (runs tr <-> exists n, about params (Some q) = Some n /\ acceptable n /\ runnable n)) (_route_forwarded_inbound registry (Some t) params (Some q)).
Proof.
  intros Hq. assert (Hdrop : forall p, about params (Some q) = None -> ends_with (fun tr => acks tr /\ ~ runs tr) p -> ends_with (fun tr =>
    (acks tr <-> forall n, about params (Some q) = Some n -> settleable n) /\
    (runs tr <-> exists n, about params (Some q) = Some n /\ acceptable n /\ runnable n)) p).
  { intros p Hn (s'&tr&E&E1&E2&E3&Ha&Hr). exists s', tr. do 4 (split; [done|]). rewrite Hn. split; split; try done. by intros (n&?&_). }
  unfold _route_forwarded_inbound, receive. unfold about in Hdrop |- *. destruct (model_validate params) as [envelope|]; cbn [mbind option_bind] in Hdrop |- *; [|by apply Hdrop; [|apply calm_drop]].
  destruct (decide (e_adapter_id envelope ∈ registry)); [|by apply Hdrop; [|apply calm_admission]].
  destruct (reparse_forwarded_inbound envelope) as [n| |]; [|by apply Hdrop; [|apply calm_admission]..]. clear Hdrop.
  set (m := with_wire_seq (Some q) n). destruct (_inbound_message_cheap_validate (platform_user_id m) (body m)) eqn:Hv.
  - destruct (calm_process m (fun e => match e with
      | ForwardedInboundAuditWriteError => RequestRestart (fun res => match res with Err CancelledError => Raise CancelledError | _ => Return end)
      | e => if is_exception e then Return else Raise e end) eq_refl Hq eq_refl Hv) as (s'&tr&E&E1&E2&E3&Ha&Hr).
    exists s', tr. do 4 (split; [done|]). split; split.
    + intros Hx%Ha ? [= <-]. by split.
    + intros Hx. apply Ha. by destruct (Hx _ eq_refl).
    + intros Hx%Hr. by exists m.
    + intros (?&[= <-]&_&Hx). by apply Hr.
  - exists s, []. unfold process_inbound_message. rewrite Hv. cbn [negb catch]. split; [by calm_stop|]. split; [done|]. split; [by rewrite app_nil_r|]. split; [by intros (r&[]%elem_of_nil)|]. split; split.
    + intros (r&[]%elem_of_nil).
    + intros H. destruct (H _ eq_refl) as [Ha _]. unfold acceptable in Ha. congruence.
    + intros (y&r&[]%elem_of_nil).
    + intros (?&[= <-]&H&_). unfold acceptable in H. congruence.
Qed.
End delivery.

Lemma start_prog c now s : (forall fw, settle (length (calls s)) fw now (c_prog c) (set_calls (calls s ++ [c]) s) = (c_prog c, set_calls (calls s ++ [c]) s)) ->
  start c now s = set_prog (length (calls s)) (c_prog c) (set_calls (calls s ++ [c]) s).
Proof. intros Hs. unfold start, advance. cbn [set_calls calls]. rewrite lookup_app_r, Nat.sub_diag by done. cbn. by rewrite Hs. Qed.
(** C29: A forwarded frame the code can read is settled by one undisturbed delivery.  From any
    state the system can reach, a frame with a sequence number given to a connected core
    whose awaits neither raise nor are cancelled runs to its end: its number is observed on
    the connection's tracker, with two exceptions: a message the cheap check refuses, and
    one not committed yet where the sender cannot be hashed for want of a pepper.  An
    observed number is then among those the tracker has admitted, unless it lies beyond the
    tracker's window.  The message is dispatched exactly when the frame parses, its sender
    and body pass that check, it is not committed, its attempts are below the ceiling, its
    sender can be hashed, the limiter has room, its sender is known and the burst limiter
    lets it in. *)
Theorem calm_delivery_is_acknowledged xs o now params t q : let s := run xs init in current s = Some t -> 0 <= q ->
  let i := length (calls s) in let s' := drive 12 o now i (step (Receive params (Some q) now) s) in let tr := own i (log s') in
  c_prog <$> calls s' !! i = Some Return /\
  (acks t q tr <-> forall n, about params (Some q) = Some n -> settleable s n) /\
  (acks t q tr -> exists before after, trackers s !! t = Some before /\ trackers s' !! t = Some after /\
     (q <= Tracker.tr_contiguous_high before + _MAX_OOO_GAP -> SeqTracker.admitted after q)) /\
  (runs tr <-> exists n, about params (Some q) = Some n /\ acceptable n /\ runnable o now s n).
Proof.
  intros s Hcur Hq i s' tr. assert (Hwf : wf s) by apply system_wf. subst tr s'. cbn [step]. rewrite Hcur. set (c := received (Some t) params (Some q)). set (s1 := set_calls (calls s ++ [c]) s).
  assert (Hc : calls s1 !! i = Some c) by (cbn; unfold i; by rewrite lookup_app_r, Nat.sub_diag).
  destruct (lookup_lt_is_Some_2 _ _ (proj1 (wf_valid _ Hwf) _ Hcur)) as [before Hb].
  destruct (calm_receive o now s1 c i t q before Hc eq_refl Hb params Hq) as (s'&tr&E&E1&E2&E3&Ha&Hr).
  rewrite start_prog.
  - fold s1 i. cbn [c_prog c received]. rewrite E. rewrite (set_prog_lookup i Return s' c) by (by rewrite E1). split; [done|]. cbn [log trackers set_prog set_calls]. rewrite E2. change (log s1) with (log s). rewrite (own_fresh _ _ Hwf) by (apply lookup_ge_None; done). split; [exact Ha|]. split; [|exact Hr].
    intros Hack. exists before, (Tracker.observe q before).2. split; [done|]. split; [by apply E3|].
    apply observe_admits; [|done]. rewrite (wf_trackers _ Hwf _ _ Hb). apply (tracker_run_wf _ _ tracker_init_wf).
  - intros fw. cbn [c c_prog received]. unfold _route_forwarded_inbound, receive.
    destruct (model_validate params) as [envelope|]; [|done]. destruct (decide _); [|done]. destruct (reparse_forwarded_inbound envelope); [|done..].
    unfold process_inbound_message. by destruct (negb _).
Qed.
End pipeline.

(** ** Concrete runs *)
Module Concrete.
Definition hello : InboundMessageNotification :=
  {| adapter_id := "discord"; inbound_id := "m1"; platform_user_id := [49%N]; body := [("content", "hi")]; sub_payload_refs := []; addressing_signal := "dm"; wire_seq := None |}.
Definition hollow : InboundMessageNotification :=
  {| adapter_id := "discord"; inbound_id := "m2"; platform_user_id := [49%N]; body := []; sub_payload_refs := []; addressing_signal := "dm"; wire_seq := None |}.
Definition hash (_ : list N) : option string := Some "h".
Definition envelope_of (params : string) : option GatewayAdapterInboundEnvelope :=
  if String.eqb params "junk" then None else Some {| e_adapter_id := "discord"; e_body := params |}.
Definition body_of (b : string) : option InboundMessageNotification :=
  if String.eqb b "hello" then Some hello else if String.eqb b "hollow" then Some hollow else None.
Abbreviation state := (@system unit unit).
Abbreviation go := (@run unit unit hash string envelope_of body_of {["discord"]}).
Definition alice : ResolvedInbound := {| canonical_user_id := "u"; persona := "p"; language := "en"; r_adapter_id := "discord"; display_name := "d" |}.
Definition outside : @calm unit unit := {| a_resolve := Some alice; a_acquire := true; a_promote := {| p_body := [("content", "hi")]; p_kinds := ∅ |}; a_extract := tt; a_ingest := tt |}.
Abbreviation act := (@action unit unit string).
Definition at_ (i : nat) (l : list (@answer unit unit)) : list act := (fun a => Go i a 0) <$> l.
(** Up to the dispatch, and after it. *)
Definition upto_dispatch : list (@answer unit unit) :=
  [Proceeds; Proceeds; Resolves (Some alice); Acquires true; Promotes (a_promote outside); Extracts tt; Proceeds; Proceeds; Ingests tt].
Definition deliver (q : Z) (i : nat) (l : list answer) : list act := Receive "hello" (Some q) 0 :: at_ i l.
Definition delivery : list act := Connect :: deliver 0 0 (upto_dispatch ++ [Proceeds; Proceeds]).
Definition k1 : key := ("discord", "m1").

Lemma prefixes_capped (P : state -> Z) cap xs : forallb (fun n => P (go (take n xs) init) <=? cap) (seq 0 (S (length xs))) = true ->
  forall ys zs, xs = ys ++ zs -> P (go ys init) <= cap.
Proof.
  intros Hb ys zs ->. rewrite forallb_forall in Hb. specialize (Hb (length ys)). rewrite take_app_length in Hb.
  apply Z.leb_le, Hb, in_seq. rewrite length_app. lia.
Qed.

(** Two deliveries of a message in flight at once, four times having failed: each passes the
    check before either is counted, and there are six dispatches. *)
Definition failing (i : nat) : list act := deliver (Z.of_nat i) i (upto_dispatch ++ [Raises false OtherException; Proceeds]).
Definition race : list act :=
  Connect :: failing 0 ++ failing 1 ++ failing 2 ++ failing 3 ++ deliver 4 4 [Proceeds; Proceeds] ++ deliver 5 5 (upto_dispatch ++ [Raises false OtherException; Proceeds])
    ++ at_ 4 (drop 2 upto_dispatch ++ [Raises false OtherException; Proceeds]).
Example race_passes_the_ceiling : Zlen (dispatches k1 (go race init)) = 6.
Proof. vm_compute. reflexivity. Qed.

(** Without a pepper the sender is not hashed: a delivery reads the commit table and ends, with
    no row, no attempt counted and nothing observed. *)
Theorem missing_pepper_leaves_the_frame : let s := @run unit unit (fun _ => None) string envelope_of body_of {["discord"]} delivery init in
  own 0 (log s) = [Read_committed k1 (Ok false)] /\ c_prog <$> calls s !! 0%nat = Some Return /\ attempt_count k1 s = 0.
Proof. vm_compute. done. Qed.
End Concrete.

Section witnesses.
Import Concrete.
Abbreviation sys xs := (go xs init).
(** The log of a delivery, cut before and after an entry. *)
Abbreviation logged xs n x := (log (sys xs) = take n (log (sys xs)) ++ x :: drop (S n) (log (sys xs))).
Lemma acknowledged_messages_are_settled_witness : logged delivery 12 (0%nat, Observed 0 0 (Ok tt)) /\
  exists c, calls (sys delivery) !! 0%nat = Some c /\ c_tracker c = Some 0%nat /\ c_seq c = Some 0 /\
    ((exists w, terminal w /\ (0%nat, Appended w (Ok tt)) ∈ take 12 (log (sys delivery))) \/ exists k, mine (c_about c) k /\ settled (sys delivery) k (take 12 (log (sys delivery)))).
Proof.
  assert (H : logged delivery 12 (0%nat, Observed 0 0 (Ok tt))) by (vm_compute; reflexivity). split; [exact H|].
  exact (acknowledged_messages_are_settled hash envelope_of body_of {["discord"]} delivery _ 0 0 0 _ _ H).
Defined.
Lemma committed_messages_are_not_run_again_witness : let xs := delivery ++ deliver 1 1 [Proceeds; Proceeds] in
  (commits k1 (take 13 (log (sys xs))) /\ own 1 (take 13 (log (sys xs))) = []) /\ Forall (fun x => ~ is_dispatch x) (own 1 (drop 13 (log (sys xs)))).
Proof.
  intros xs. assert (H1 : commits k1 (take 13 (log (sys xs)))) by (exists 0%nat, (Ok true); apply (list_elem_of_lookup_2 _ 11); vm_compute; reflexivity).
  assert (H2 : own 1 (take 13 (log (sys xs))) = []) by (vm_compute; reflexivity). split; [by split|].
  assert (H3 : log (sys xs) = take 13 (log (sys xs)) ++ drop 13 (log (sys xs))) by (symmetry; apply take_drop).
  assert (H4 : calls (sys xs) !! 1%nat = Some {| c_forwarded := true; c_about := Some (with_wire_seq (Some 1) hello); c_tracker := Some 0%nat; c_seq := Some 1; c_prog := Return |}) by (vm_compute; reflexivity).
  exact (committed_messages_are_not_run_again hash envelope_of body_of {["discord"]} xs _ _ 1 _ k1 H3 H1 H4 (ex_intro _ _ (conj eq_refl eq_refl)) H2).
Defined.
Definition direct_run : list act := Process true hello 0 :: at_ 0 ([Proceeds; Resolves (Some alice); Acquires true; Promotes (a_promote outside); Extracts tt; Proceeds; Ingests tt; Proceeds]).
Lemma direct_messages_run_at_most_once_witness : log (sys direct_run) !! 8%nat = Some (0%nat, Dispatched tt (Ok tt)) /\ 8%nat = 8%nat.
Proof.
  assert (H : log (sys direct_run) !! 8%nat = Some (0%nat, Dispatched tt (Ok tt))) by (vm_compute; reflexivity). split; [exact H|].
  assert (Hc : calls (sys direct_run) !! 0%nat = Some {| c_forwarded := false; c_about := Some hello; c_tracker := None; c_seq := None; c_prog := Return |}) by (vm_compute; reflexivity).
  assert (Hm : mine (Some hello) k1) by (by eexists).
  exact (direct_messages_run_at_most_once hash envelope_of body_of {["discord"]} direct_run 8 8 0 0 tt tt (Ok tt) (Ok tt) _ _ k1 H H Hc Hc eq_refl eq_refl Hm Hm).
Defined.
Definition attempts_in_turn : list act := Connect :: failing 0 ++ failing 1.
Lemma forwarded_dispatches_are_bounded_witness : Zlen (dispatches k1 (sys attempts_in_turn)) = 2 /\ Zlen (dispatches k1 (sys attempts_in_turn)) <= _FORWARDED_DISPATCH_ATTEMPT_CEILING - 1 + 1.
Proof.
  split; [vm_compute; reflexivity|]. apply (forwarded_dispatches_are_bounded hash envelope_of body_of {["discord"]} attempts_in_turn k1 1); [done|].
  apply (prefixes_capped (fun s => Zlen (in_flight k1 s)) 1 attempts_in_turn). vm_compute. reflexivity.
Defined.
Lemma only_extractions_are_dispatched_witness : logged delivery 10 (0%nat, Dispatched tt (Ok tt)) /\
  exists c, calls (sys delivery) !! 0%nat = Some c /\ exists n v e b, c_about c = Some n /\ extractable (c_forwarded c) n (own 0 (take 10 (log (sys delivery)))) b /\
    (0%nat, Resolved n (Ok (Some v))) ∈ take 10 (log (sys delivery)) /\ (0%nat, Acquired v (Ok true)) ∈ take 10 (log (sys delivery)) /\
    (0%nat, Extracted b v (Ok e)) ∈ take 10 (log (sys delivery)) /\ exists v', (0%nat, Ingested n e v' (Ok tt)) ∈ take 10 (log (sys delivery)).
Proof.
  assert (H : logged delivery 10 (0%nat, Dispatched tt (Ok tt))) by (vm_compute; reflexivity). split; [exact H|].
  exact (only_extractions_are_dispatched hash envelope_of body_of {["discord"]} delivery _ 0 _ _ H).
Defined.
(** A hollow message under sequence number 0, redelivered, and a good one acknowledged
    under 1. *)
Definition stalled : list act := [Connect; Receive "hollow" (Some 0) 0; Receive "hollow" (Some 0) 0] ++ deliver 1 2 (upto_dispatch ++ [Proceeds; Proceeds]).
Lemma empty_body_stalls_its_leg_witness : exists tr, trackers (sys stalled) !! 0%nat = Some tr /\ Tracker.cumulative_ack tr < 0 /\
  forall i c, calls (sys stalled) !! i = Some c -> c_tracker c = Some 0%nat -> c_seq c = Some 0 -> own i (log (sys stalled)) = [].
Proof.
  assert (Hi : forall i c, calls (sys stalled) !! i = Some c -> c_tracker c = Some 0%nat -> c_seq c = Some 0 ->
     exists n, c_about c = Some n /\ _inbound_message_cheap_validate (platform_user_id n) (body n) = false).
  { intros i c Hi _ Hs. pose proof (lookup_lt_Some _ _ _ Hi) as Hl. assert (E : length (calls (sys stalled)) = 3%nat) by (vm_compute; reflexivity). rewrite E in Hl. clear E.
    destruct i as [|[|[|?]]]; [| | |lia]; vm_compute in Hi; injection Hi as <-; [eexists; split; reflexivity|eexists; split; reflexivity|discriminate Hs]. }
  destruct (trackers (sys stalled) !! 0%nat) as [tr|] eqn:Htr; [|exfalso; revert Htr; vm_compute; discriminate]. exists tr. split; [reflexivity|].
  exact (empty_body_stalls_its_leg hash envelope_of body_of {["discord"]} stalled 0 0 tr (Z.le_refl 0) Htr Hi).
Defined.
Lemma calm_delivery_is_acknowledged_witness : let s := sys [Connect] in let s' := drive hash envelope_of body_of {["discord"]} 12 outside 0 0 (step hash envelope_of body_of {["discord"]} (Receive "hello" (Some 0) 0) s) in
  current s = Some 0%nat /\ acks 0 0 (own 0 (log s')) /\ runs (own 0 (log s')).
Proof.
  intros s s'. split; [reflexivity|]. destruct (calm_delivery_is_acknowledged hash envelope_of body_of {["discord"]} [Connect] outside 0 "hello" 0 0 eq_refl) as (_&Ha&_&Hr); [done|].
  split; [apply Ha|apply Hr].
  - intros n [= <-]. split; [reflexivity|]. right. by eexists.
  - exists (with_wire_seq (Some 0) hello). split; [reflexivity|]. split; [reflexivity|]. unfold runnable.
    split; [refine (bool_decide_unpack _ _); vm_compute; exact I|]. split; [vm_compute; reflexivity|]. split; [vm_compute; reflexivity|]. split; [exists alice; reflexivity|reflexivity].
Defined.
End witnesses.
