(* ===== verification/TurnWorld.v ===== *)
(** * The world of a conversation turn

    What a turn of [orchestrator/core.py] and the tool chokepoint of
    [orchestrator/tool_dispatch.py] do to the world, as a state-and-exception monad: the
    stores they write ([memory/replay_journal.py], [memory/turn_side_effects.py], the
    episodic rows of a session and [memory/working.py]), the budget guard, and a log of what
    was asked, called and audited.

    The outside is a record of functions of the number of the call: what an await returns,
    or that it raises (an error of the service, a cancellation, the deadline, or the death of
    the process) with or without having taken effect, and what other tasks and processes did
    to the stores meanwhile.  SQL and provider calls, the tools, the capability gate, the DLP
    scan, [json], the message catalogue and the hooks on episodic writes are such functions. *)
From S2P Require Import Prelude BudgetGuard.

(** ** Values *)
(** A [str] by its code points, where its length or content matters. *)
Definition text : Type := list N.
Definition key : Type := string * string.
Record ToolCall := { call_id : string; call_name : string; arguments : list (string * string) }.
Inductive Role := system | user | assistant | tool.
Record Message := { role : Role; m_content : text; m_tool_calls : list ToolCall; tool_call_id : option string }.
Record CompletionResponse := {
  content : text; tokens_in : Z; tokens_out : Z; cost_usd : pyfloat; model : string; stop_reason : string; tool_calls : list ToolCall }.
Record JournalEntry := { call_index : Z; iteration : Z; tool_call : ToolCall }.
Definition Data : Type := list (string * string).

(** The classes of exception the code tells apart; [Killed] is the death of the process,
    which no handler sees. *)
Inductive exn :=
| Killed | CancelledError (by_deadline : bool)
| Budget (e : BudgetError) | PreCheckRefused | InboundCanaryTripped | OutboundCanaryTripped
| WebFetchRateLimited | WebFetchDomainNotAllowed | WebFetchActionTimeout | WebFetchError
| DowngradeDeniedError | ReplayIterationCeilingError | AlfredError
| TimeoutError | SQLAlchemyError | PyValueError | TypeError | RuntimeError | OtherException.
Definition is_exception (e : exn) : bool := match e with Killed | CancelledError _ => false | _ => true end.
Definition is_web_fetch (e : exn) : bool :=
  match e with WebFetchRateLimited | WebFetchDomainNotAllowed | WebFetchActionTimeout | WebFetchError => true | _ => false end.
Definition is_alfred (e : exn) : bool :=
  match e with InboundCanaryTripped | OutboundCanaryTripped | DowngradeDeniedError | ReplayIterationCeilingError | AlfredError => true | e => is_web_fetch e end.

(** ** The log *)
Inductive phase :=
| budget_pre_check | budget_post_charge | provider_call (iteration : Z) | completed | phase_commit (name : string) | turn_cancelled | turn_timeout.
Inductive row :=
| tool_row (tool : string) (index : Z) (result_tier : option string) (dispatch_outcome result : string)
| downgrade_row
| turn_row (p : phase) (result : string) (cost_actual_usd : pyfloat)
| action_timeout_row.
Inductive entry :=
| Audited (r : row) | Unwritten (r : row)  (* durable, or an append that raised *)
| Called (k : key) (index : Z) (c : ToolCall)
| Asked (ms : list Message) | Completed (r : CompletionResponse)
| Gated (allowed : bool) | Scanned (x s : text) | Downgraded (d : Data).

(** ** Stores *)
(** The rows of [tool_call_journal] in insertion order; its primary key is the message and
    the call index. *)
Definition journal_row : Type := key * JournalEntry.
Definition row_id (r : journal_row) : key * Z := (r.1, call_index r.2).
(** A gate of the side-effect ledger, and an episodic row with the gate it was written
    under. *)
Inductive gate := user_turn | assistant_turn.
Record Episode := { e_user : string; e_role : Role; e_content : text; e_tier : string; e_cost : pyfloat }.
Record write := { w_gate : option (key * gate); w_episode : Episode }.
Record Turn := { t_role : Role; t_content : text }.
Definition max_turns : nat := 40.

Record world := {
  tick : nat; journal : list journal_row; ledger : gmap key (bool * bool); episodes : list write;
  staged : list (key * gate) * list write; budget : BudgetGuard; memory : list Turn; log : list entry }.
Definition set_tick n (w : world) : world := {| tick := n; journal := journal w; ledger := ledger w; episodes := episodes w; staged := staged w; budget := budget w; memory := memory w; log := log w |}.
Definition set_journal j (w : world) : world := {| tick := tick w; journal := j; ledger := ledger w; episodes := episodes w; staged := staged w; budget := budget w; memory := memory w; log := log w |}.
Definition set_db l e (w : world) : world := {| tick := tick w; journal := journal w; ledger := l; episodes := e; staged := staged w; budget := budget w; memory := memory w; log := log w |}.
Definition set_staged s (w : world) : world := {| tick := tick w; journal := journal w; ledger := ledger w; episodes := episodes w; staged := s; budget := budget w; memory := memory w; log := log w |}.
Definition set_budget b (w : world) : world := {| tick := tick w; journal := journal w; ledger := ledger w; episodes := episodes w; staged := staged w; budget := b; memory := memory w; log := log w |}.
Definition set_memory m (w : world) : world := {| tick := tick w; journal := journal w; ledger := ledger w; episodes := episodes w; staged := staged w; budget := budget w; memory := m; log := log w |}.
Definition note (x : entry) (w : world) : world := {| tick := tick w; journal := journal w; ledger := ledger w; episodes := episodes w; staged := staged w; budget := budget w; memory := memory w; log := log w ++ [x] |}.

#[export] Instance gate_dec : EqDecision gate.
Proof. solve_decision. Defined.

(** [_APPEND_SQL] for a batch in one transaction, and [_READ_SQL]. *)
Definition batch (k : key) (it : Z) (calls : list (Z * ToolCall)) : list journal_row :=
  (fun x => (k, {| call_index := x.1; iteration := it; tool_call := x.2 |})) <$> calls.
Definition insert_batch (rows : list journal_row) (j : list journal_row) : option (list journal_row) :=
  if bool_decide (NoDup (row_id <$> j ++ rows)) then Some (j ++ rows) else None.
Definition index_le (a b : JournalEntry) : Prop := call_index a <= call_index b.
#[export] Instance index_le_dec a b : Decision (index_le a b) := Z_le_dec _ _.
Definition rows_of (k : key) (j : list journal_row) : list JournalEntry := snd <$> filter (fun r => r.1 = k) j.
Definition read_rows (k : key) (j : list journal_row) : list JournalEntry := merge_sort index_le (rows_of k j).

(** The gates of a message: [_TRY_APPLY_USER_TURN_SQL] and [_TRY_APPLY_ASSISTANT_TURN_SQL]
    return a row when the named column was false. *)
Definition gate_of (g : gate) (b : bool * bool) : bool := match g with user_turn => b.1 | assistant_turn => b.2 end.
Definition gates (k : key) (w : world) : bool * bool := default (false, false) (ledger w !! k).
Definition set_gate (g : gate) (b : bool * bool) : bool * bool := match g with user_turn => (true, b.2) | assistant_turn => (b.1, true) end.
Definition mark (x : key * gate) (l : gmap key (bool * bool)) : gmap key (bool * bool) :=
  <[x.1 := set_gate x.2 (default (false, false) (l !! x.1))]> l.

(** ** What others do meanwhile *)
(** Another writer of the journal, a whole phase of another turn, a charge of another turn
    to the shared guard.  A transaction that wrote the gates of a message holds them locked. *)
Inductive foreign :=
| Appends (k : key) (it : Z) (calls : list (Z * ToolCall))
| Phases (k : key) (g : gate) (e : Episode)
| Charges (b : BudgetGuard -> BudgetGuard).
Definition foreign_step (w : world) (f : foreign) : world :=
  match f with
  | Appends k it calls => match insert_batch (batch k it calls) (journal w) with Some j => set_journal j w | None => w end
  | Phases k g e =>
      if bool_decide (k ∈ (staged w).1.*1) then w
      else if gate_of g (gates k w) then w
      else set_db (mark (k, g) (ledger w)) (episodes w ++ [{| w_gate := Some (k, g); w_episode := e |}]) w
  | Charges b => set_budget (b (budget w)) w
  end.

Inductive fate := Goes | Fails (took : bool) (e : exn).
Inductive notice :=
| unknown_tool (tool : string) | invalid_arguments (tool : string) | not_permitted (tool : string) | rate_limited (tool : string)
| domain_not_allowed (tool : string) | timeout (tool : string) | error (tool : string) | timeout_unexpected (tool : string)
| refused (tool reason : string) | budget_exhausted_mid_turn | budget_overrun_mid_turn | too_many_tool_calls | max_iterations_reached.
Inductive EgressExtractOutcome := TypedRefusal (reason : string) | Extracted (data : Data).
Record outside := {
  fate_of : nat -> fate; meanwhile : nat -> list foreign; budget_env : nat -> Env;
  completion : nat -> CompletionResponse; internal_result : nat -> text; external_result : nat -> EgressExtractOutcome;
  gate_check : nat -> bool; clearance : nat -> bool; dlp_scan : nat -> text -> result exn text;
  json_dumps : Data -> result exn text; hooked : nat -> Episode -> Episode; t : notice -> text; system_prompt : text }.

(** ** Effects *)
Definition T (A : Type) : Type := M world exn A.
Definition catch {A} (m : T A) (h : exn -> T A) : T A := fun w => match m w with (Err e, w) => h e w | r => r end.
(** [except E:] for the exceptions that satisfy [p]. *)
Definition except {A} (p : exn -> bool) (m : T A) (h : exn -> T A) : T A := catch m (fun e => if p e then h e else raise e).
(** Errors together with the value of a flag at the time. *)
Definition flagged {A} (b : bool) (m : T A) : M world (bool * exn) A := fun w => match m w with (Ok a, w) => (Ok a, w) | (Err e, w) => (Err (b, e), w) end.
Definition unflag {A} (m : M world (bool * exn) A) (h : bool -> exn -> T A) : T A := fun w => match m w with (Ok a, w) => (Ok a, w) | (Err (b, e), w) => h b e w end.
Definition tell (x : entry) : T unit := modify (note x).

Section effects.
Variable out : outside.
(** A call without an await; and an await, which others may precede. *)
Definition ask {A} (f : nat -> world -> result exn A * world) : T A := fun w => f (tick w) (set_tick (S (tick w)) w).
Definition await {A} (f : nat -> world -> result exn A * world) : T A := ask (fun n w =>
  let w := foldl foreign_step w (meanwhile out n) in
  match fate_of out n with
  | Goes => f n w
  | Fails took e => (Err e, if took then (f n w).2 else w)
  end).

(** [AuditWriter.append] and [append_schema]. *)
Definition append (r : row) : T unit :=
  catch (await (fun _ w => (Ok tt, note (Audited r) w))) (fun e => tell (Unwritten r) ;;; raise e).
(** [PostgresReplayJournal]. *)
Definition append_batch (k : key) (it : Z) (calls : list (Z * ToolCall)) : T unit :=
  match calls with
  | [] => raise PyValueError
  | _ => await (fun _ w => match insert_batch (batch k it calls) (journal w) with Some j => (Ok tt, set_journal j w) | None => (Err SQLAlchemyError, w) end)
  end.
Definition read (k : key) : T (list JournalEntry) := await (fun _ w => (Ok (read_rows k (journal w)), w)).
(** [PostgresTurnSideEffectLedger], and [EpisodicMemory.record], inside a transaction. *)
Definition try_apply (k : key) (g : gate) : T bool :=
  await (fun _ w => if gate_of g (gates k w) then (Ok false, w) else (Ok true, set_staged ((staged w).1 ++ [(k, g)], (staged w).2) w)).
Definition record (g : option (key * gate)) (e : Episode) : T unit :=
  await (fun n w => (Ok tt, set_staged ((staged w).1, (staged w).2 ++ [{| w_gate := g; w_episode := hooked out n e |}]) w)).
(** [WorkingMemory]: a deque of bounded length, whose lock is not contended. *)
Definition remember (r : Role) (c : text) : T unit := modify (fun w =>
  let m := memory w ++ [{| t_role := r; t_content := c |}] in set_memory (drop (length m - max_turns) m) w).
Definition turns : T (list Turn) := fun w => (Ok (memory w), w).

(** [session_scope]: commit, or roll back whatever ends the body; the flag is
    [body_completed]. *)
Definition commit : T unit := await (fun _ w => (Ok tt, set_db (foldl (fun l x => mark x l) (ledger w) (staged w).1) (episodes w ++ (staged w).2) w)).
Definition rollback {A} (e : exn) : T A :=
  match e with Killed => raise Killed | e => await (fun _ w => (Ok tt, w)) ;;; raise e end.
Definition undoing {A} (body_completed : bool) (m : T A) : M world (bool * exn) A := flagged body_completed (catch m rollback).
Definition closing {E A} (m : M world E A) : M world E A := fun w => let '(r, w) := m w in (r, set_staged ([], []) w).
Definition session_scope {A} (body : T A) : M world (bool * exn) A := closing (a <-- undoing false body; undoing true commit ;;; ret a).

(** [BudgetGuard], a synchronous object. *)
Definition on_budget {A} (f : Env -> M BudgetGuard BudgetError A) : T A := ask (fun n w =>
  let '(r, b) := f (budget_env out n) (budget w) in (match r with Ok a => Ok a | Err e => Err (Budget e) end, set_budget b w)).
(** [ProviderRouter.complete]. *)
Definition complete (ms : list Message) : T CompletionResponse :=
  tell (Asked ms) ;;; r <-- await (fun n w => (Ok (completion out n), w)); tell (Completed r) ;;; ret r.
End effects.

(** ** What a computation adds to the log

    [logs m Q]: from any world, [m] appends to the log some entries which, with its result,
    satisfy [Q].  The rules compute [Q] backwards through a program. *)
Definition logs {E A} (m : M world E A) (Q : result E A -> list entry -> Prop) : Prop :=
  forall w, exists l, log (m w).2 = log w ++ l /\ Q (m w).1 l.
Lemma logs_mono {E A} (m : M world E A) (Q Q' : result E A -> list entry -> Prop) : (forall r l, Q r l -> Q' r l) -> logs m Q -> logs m Q'.
Proof. intros H Hm w. destruct (Hm w) as (l&E1&HQ). exists l. auto. Qed.
Lemma logs_and {E A} (m : M world E A) (Q Q' : result E A -> list entry -> Prop) : logs m Q -> logs m Q' -> logs m (fun r l => Q r l /\ Q' r l).
Proof.
  intros H H' w. destruct (H w) as (l&E1&HQ), (H' w) as (l'&E2&HQ'). rewrite E1 in E2. apply app_inv_head in E2 as <-. by exists l.
Qed.
Lemma logs_ret {E A} (a : A) (Q : result E A -> list entry -> Prop) : Q (Ok a) [] -> logs (ret a) Q.
Proof. intros H w. exists []. by rewrite app_nil_r. Qed.
Lemma logs_raise {E A} (e : E) (Q : result E A -> list entry -> Prop) : Q (Err e) [] -> logs (raise e) Q.
Proof. intros H w. exists []. by rewrite app_nil_r. Qed.
Lemma logs_tell x (Q : result exn unit -> list entry -> Prop) : Q (Ok tt) [x] -> logs (tell x) Q.
Proof. intros H w. by exists [x]. Qed.
Lemma logs_bind {E A B} (m : M world E A) (k : A -> M world E B) (Q : result E B -> list entry -> Prop) :
  logs m (fun r l => match r with Ok a => logs (k a) (fun r' l' => Q r' (l ++ l')) | Err e => Q (Err e) l end) -> logs (bind m k) Q.
Proof.
  intros H w. unfold bind. destruct (H w) as (l&E1&HQ). destruct (m w) as [[a|e] w']; cbn in *; [|by exists l].
  destruct (HQ w') as (l'&E2&HQ'). exists (l ++ l'). by rewrite E2, E1, app_assoc.
Qed.
Lemma logs_catch {A} (m : T A) (h : exn -> T A) (Q : result exn A -> list entry -> Prop) :
  logs m (fun r l => match r with Ok a => Q (Ok a) l | Err e => logs (h e) (fun r' l' => Q r' (l ++ l')) end) -> logs (catch m h) Q.
Proof.
  intros H w. unfold catch. destruct (H w) as (l&E1&HQ). destruct (m w) as [[a|e] w']; cbn in *; [by exists l|].
  destruct (HQ w') as (l'&E2&HQ'). exists (l ++ l'). by rewrite E2, E1, app_assoc.
Qed.
Lemma logs_flagged {A} b (m : T A) (Q : result (bool * exn) A -> list entry -> Prop) :
  logs m (fun r l => Q (match r with Ok a => Ok a | Err e => Err (b, e) end) l) -> logs (flagged b m) Q.
Proof. intros H w. unfold flagged. destruct (H w) as (l&E1&HQ). exists l. by destruct (m w) as [[a|e] w']. Qed.
Lemma logs_unflag {A} (m : M world (bool * exn) A) (h : bool -> exn -> T A) (Q : result exn A -> list entry -> Prop) :
  logs m (fun r l => match r with Ok a => Q (Ok a) l | Err (b, e) => logs (h b e) (fun r' l' => Q r' (l ++ l')) end) -> logs (unflag m h) Q.
Proof.
  intros H w. unfold unflag. destruct (H w) as (l&E1&HQ). destruct (m w) as [[a|[b e]] w']; cbn in *; [by exists l|].
  destruct (HQ w') as (l'&E2&HQ'). exists (l ++ l'). by rewrite E2, E1, app_assoc.
Qed.
Lemma logs_closing {E A} (m : M world E A) (Q : result E A -> list entry -> Prop) : logs m Q -> logs (closing m) Q.
Proof. intros H w. unfold closing. destruct (H w) as (l&E1&HQ). exists l. by destruct (m w) as [r w']. Qed.

Lemma foreign_log w fs : log (foldl foreign_step w fs) = log w.
Proof.
  revert w. induction fs as [|f fs IH]; intros w; [done|]. cbn. rewrite IH. destruct f as [k it calls|k g e|b]; [| |done]; cbn.
  - by destruct (insert_batch _ _).
  - case_bool_decide; [done|]. by destruct (gate_of _ _).
Qed.
Section log_rules.
Variable out : outside.
Lemma logs_ask {A} (f : nat -> world -> result exn A * world) (Q : result exn A -> list entry -> Prop) :
  (forall n, logs (f n) Q) -> logs (ask f) Q.
Proof. intros H w. unfold ask. destruct (H (tick w) (set_tick (S (tick w)) w)) as (l&E1&HQ). by exists l. Qed.
Lemma logs_await {A} (f : nat -> world -> result exn A * world) (Q : result exn A -> list entry -> Prop) :
  (forall n, logs (f n) (fun r l => Q r l /\ forall e, Q (Err e) l)) -> (forall e, Q (Err e) []) -> logs (await out f) Q.
Proof.
  intros H H0. unfold await. apply logs_ask. intros n w. destruct (fate_of out n) as [|took e].
  - destruct (H n (foldl foreign_step w (meanwhile out n))) as (l&E1&HQ&_). exists l. by rewrite E1, foreign_log.
  - destruct took; cbn; [|exists []; by rewrite foreign_log, app_nil_r].
    destruct (H n (foldl foreign_step w (meanwhile out n))) as (l&E1&_&HQ). exists l. by rewrite foreign_log in E1.
Qed.
(** An await that leaves the log alone. *)
Lemma logs_await_quiet {A} (f : nat -> world -> result exn A * world) (Q : result exn A -> list entry -> Prop) :
  (forall n w, log (f n w).2 = log w /\ Q (f n w).1 []) -> (forall e, Q (Err e) []) -> logs (await out f) Q.
Proof.
  intros H H0. apply logs_await; [|done]. intros n w. exists []. destruct (H n w) as [-> ?]. rewrite app_nil_r. auto.
Qed.
Lemma logs_append r (Q : result exn unit -> list entry -> Prop) :
  Q (Ok tt) [Audited r] -> (forall e, Q (Err e) [Unwritten r]) -> (forall e, Q (Err e) [Audited r; Unwritten r]) -> logs (append out r) Q.
Proof.
  intros H1 H2 H3. unfold append. apply logs_catch, logs_await.
  - intros n w. exists [Audited r]. split; [done|]. split; [done|]. intros e. apply logs_bind, logs_tell, logs_raise. apply H3.
  - intros e. apply logs_bind, logs_tell, logs_raise. apply H2.
Qed.
Lemma logs_append_batch k it calls (Q : result exn unit -> list entry -> Prop) : Q (Ok tt) [] -> (forall e, Q (Err e) []) -> logs (append_batch out k it calls) Q.
Proof.
  intros H1 H2. unfold append_batch. destruct calls as [|c calls]; [by apply logs_raise|]. apply logs_await_quiet; [|done].
  intros n w. destruct (insert_batch _ _); cbn; auto.
Qed.
Lemma logs_read k (Q : result exn (list JournalEntry) -> list entry -> Prop) : (forall l, Q (Ok l) []) -> (forall e, Q (Err e) []) -> logs (read out k) Q.
Proof. intros H1 H2. apply logs_await_quiet; intros; cbn; auto. Qed.
Lemma logs_try_apply k g (Q : result exn bool -> list entry -> Prop) : (forall b, Q (Ok b) []) -> (forall e, Q (Err e) []) -> logs (try_apply out k g) Q.
Proof. intros H1 H2. apply logs_await_quiet; [|done]. intros n w. destruct (gate_of _ _); cbn; auto. Qed.
Lemma logs_record g e (Q : result exn unit -> list entry -> Prop) : Q (Ok tt) [] -> (forall e, Q (Err e) []) -> logs (record out g e) Q.
Proof. intros H1 H2. apply logs_await_quiet; intros; cbn; auto. Qed.
Lemma logs_rollback {A} (e : exn) (Q : result exn A -> list entry -> Prop) : (forall e, Q (Err e) []) -> logs (rollback out e) Q.
Proof.
  intros H. unfold rollback. destruct e; try (by apply logs_raise); apply logs_bind, logs_await_quiet; intros; cbn; auto; (split; [done|]); by apply logs_raise.
Qed.
Lemma logs_commit (Q : result exn unit -> list entry -> Prop) : Q (Ok tt) [] -> (forall e, Q (Err e) []) -> logs (commit out) Q.
Proof. intros H1 H2. apply logs_await_quiet; intros; cbn; auto. Qed.
Lemma logs_remember r c (Q : result exn unit -> list entry -> Prop) : Q (Ok tt) [] -> logs (remember r c) Q.
Proof. intros H w. exists []. by rewrite app_nil_r. Qed.
Lemma logs_turns (Q : result exn (list Turn) -> list entry -> Prop) : (forall l, Q (Ok l) []) -> logs turns Q.
Proof. intros H w. exists []. rewrite app_nil_r. cbn. auto. Qed.
Lemma logs_on_budget {A} (f : Env -> M BudgetGuard BudgetError A) (Q : result exn A -> list entry -> Prop) :
  (forall a, Q (Ok a) []) -> (forall e, Q (Err (Budget e)) []) -> logs (on_budget out f) Q.
Proof.
  intros H1 H2. apply logs_ask. intros n w. exists []. destruct (f _ _) as [[a|e] b]; cbn; rewrite app_nil_r; auto.
Qed.
Lemma logs_complete ms (Q : result exn CompletionResponse -> list entry -> Prop) :
  (forall r, Q (Ok r) [Asked ms; Completed r]) -> (forall e, Q (Err e) [Asked ms]) -> logs (complete out ms) Q.
Proof.
  intros H1 H2. unfold complete. apply logs_bind, logs_tell, logs_bind, logs_await_quiet; [|apply H2].
  intros n w. split; [done|]. apply logs_bind, logs_tell, logs_ret, H1.
Qed.
End log_rules.

(** Computing what a program adds to the log. *)
Ltac log_step := first
  [ apply logs_ret | apply logs_raise | apply logs_tell | apply logs_bind | apply logs_catch | apply logs_flagged | apply logs_unflag | apply logs_closing
  | apply logs_append | apply logs_append_batch | apply logs_read | apply logs_try_apply | apply logs_record | apply logs_rollback | apply logs_commit
  | apply logs_remember | apply logs_turns | apply logs_on_budget | apply logs_complete ].

(** ** What a computation keeps

    An invariant is stable if the steps that touch neither the journal nor the database keep
    it, and can rely on the outside if what others do keeps it; a program then keeps it where
    its own writes and calls do. *)
Definition keeps (I : world -> Prop) {E A} (m : M world E A) : Prop := forall w, I w -> I (m w).2.
(** What holds of the result and the world after a computation. *)
Definition hoare {E A} (P : world -> Prop) (m : M world E A) (Q : result E A -> world -> Prop) : Prop := forall w, P w -> Q (m w).1 (m w).2.
Definition is_called (x : entry) : bool := match x with Called _ _ _ => true | _ => false end.
Class Stable (I : world -> Prop) : Prop := {
  stable_tick n w : I w -> I (set_tick n w);
  stable_note x w : is_called x = false -> I w -> I (note x w);
  stable_budget b w : I w -> I (set_budget b w);
  stable_memory m w : I w -> I (set_memory m w) }.
Class Rely (out : outside) (I : world -> Prop) : Prop := rely n w : I w -> I (foldl foreign_step w (meanwhile out n)).
Lemma rely_steps out (I : world -> Prop) : (forall n f w, f ∈ meanwhile out n -> I w -> I (foreign_step w f)) -> Rely out I.
Proof.
  intros H n. specialize (H n). revert H. induction (meanwhile out n) as [|f fs IH]; intros H w Hw; [done|]. cbn. apply IH; [intros; apply H; [by constructor|done]|]. apply H; [constructor|done].
Qed.
Create HintDb keeps.
Section keeps_rules.
Context (I : world -> Prop).
Lemma keeps_ret {E A} (a : A) : keeps I (ret a : M world E A).
Proof. by intros w. Qed.
Lemma keeps_raise {E A} (e : E) : keeps I (raise e : M world E A).
Proof. by intros w. Qed.
Lemma keeps_bind {E A B} (m : M world E A) (k : A -> M world E B) : keeps I m -> (forall a, keeps I (k a)) -> keeps I (bind m k).
Proof. intros Hm Hk w Hw. unfold bind. specialize (Hm w Hw). destruct (m w) as [[a|e] w']; [by apply Hk|done]. Qed.
Lemma keeps_catch {A} (m : T A) (h : exn -> T A) : keeps I m -> (forall e, keeps I (h e)) -> keeps I (catch m h).
Proof. intros Hm Hk w Hw. unfold catch. specialize (Hm w Hw). destruct (m w) as [[a|e] w']; [done|by apply Hk]. Qed.
Lemma keeps_except {A} (p : exn -> bool) (m : T A) (h : exn -> T A) : keeps I m -> (forall e, keeps I (h e)) -> keeps I (except p m h).
Proof. intros Hm Hk. apply keeps_catch; [done|]. intros e. destruct (p e); [done|apply keeps_raise]. Qed.
Lemma keeps_flagged {A} b (m : T A) : keeps I m -> keeps I (flagged b m).
Proof. intros Hm w Hw. unfold flagged. specialize (Hm w Hw). by destruct (m w) as [[a|e] w']. Qed.
Lemma keeps_unflag {A} (m : M world (bool * exn) A) (h : bool -> exn -> T A) : keeps I m -> (forall b e, keeps I (h b e)) -> keeps I (unflag m h).
Proof. intros Hm Hk w Hw. unfold unflag. specialize (Hm w Hw). destruct (m w) as [[a|[b e]] w']; [done|by apply Hk]. Qed.
Lemma keeps_hoare {E A B} (m : M world E A) (k : A -> M world E B) (Q : A -> world -> Prop) :
  hoare I m (fun r w => match r with Ok a => Q a w | Err _ => I w end) -> (forall a, hoare (Q a) (k a) (fun _ => I)) -> keeps I (bind m k).
Proof. intros Hm Hk w Hw. unfold bind. specialize (Hm w Hw). destruct (m w) as [[a|e] w']; [by apply (Hk a)|done]. Qed.
Context `{!Stable I}.
Lemma keeps_tell x : is_called x = false -> keeps I (tell x).
Proof. intros Hx w Hw. by apply (stable_note (I := I)). Qed.
Lemma keeps_ask {A} (f : nat -> world -> result exn A * world) : (forall n, keeps I (f n)) -> keeps I (ask f).
Proof. intros Hf w Hw. apply Hf. by apply stable_tick. Qed.
Section with_outside.
Context (out : outside) `{!Rely out I}.
Lemma keeps_await {A} (f : nat -> world -> result exn A * world) : (forall n, keeps I (f n)) -> keeps I (await out f).
Proof.
  intros Hf. apply keeps_ask. intros n w Hw. apply (rely (out := out) n) in Hw. destruct (fate_of out n) as [|[] e]; [by apply Hf|by apply Hf|done].
Qed.
Lemma keeps_append r : keeps I (append out r).
Proof.
  apply keeps_catch; [apply keeps_await; intros n w Hw; by apply (stable_note (I := I) (Audited r))|]. intros e. apply keeps_bind; [by apply keeps_tell|intros; apply keeps_raise].
Qed.
Lemma keeps_read k : keeps I (read out k).
Proof. apply keeps_await. by intros n w. Qed.
Lemma keeps_remember r c : keeps I (remember r c).
Proof. intros w Hw. by apply stable_memory. Qed.
Lemma keeps_turns : keeps I turns.
Proof. by intros w. Qed.
Lemma keeps_on_budget {A} (f : Env -> M BudgetGuard BudgetError A) : keeps I (on_budget out f).
Proof. apply keeps_ask. intros n w Hw. destruct (f _ _) as [[a|e] b]; by apply (stable_budget (I := I) b). Qed.
Lemma keeps_complete ms : keeps I (complete out ms).
Proof. apply keeps_bind; [by apply keeps_tell|intros _]. apply keeps_bind; [apply keeps_await; by intros n w|]. intros r. apply keeps_bind; [by apply keeps_tell|intros; apply keeps_ret]. Qed.
End with_outside.
End keeps_rules.
#[export] Hint Resolve keeps_ret keeps_raise keeps_append keeps_read keeps_remember keeps_turns keeps_on_budget keeps_complete : keeps.
#[export] Hint Extern 1 (Stable _) => typeclasses eauto : keeps.
#[export] Hint Extern 1 (Rely _ _) => typeclasses eauto : keeps.
Ltac keeps_step := first
  [ solve [auto with keeps]
  | match goal with |- keeps _ (if ?b then _ else _) => destruct b | |- keeps _ (match ?x with _ => _ end) => destruct x | |- keeps _ (let '(_, _) := ?x in _) => destruct x end
  | apply keeps_bind; [|intros ?] | apply keeps_except; [|intros ?] | apply keeps_catch; [|intros ?] | apply keeps_flagged
  | apply keeps_unflag; [|intros ? ?] | by apply keeps_tell ].
