(* ===== verification/ToolDispatch.v ===== *)
(** * The tool chokepoint

    [orchestrator/tool_registry.py] and [dispatch_tool] of [orchestrator/tool_dispatch.py],
    over the world of [TurnWorld].  What a branch writes to the audit log is kept as the tool,
    the index, the tier, the outcome and the result of its row; log lines are left out. *)
From S2P Require Import Prelude BudgetGuard TurnWorld.

(** ** The registry *)
(** The part of an input schema [arguments_conform] reads: [required] and [properties] where
    they are a list and a mapping, and whether [additionalProperties] is [False]. *)
Record InputSchema := { required : option (list string); additional_properties_false : bool; properties : option (list string) }.
Inductive ToolKind := ExternalToolSpec | InternalToolSpec.
Record ToolSpec := { kind : ToolKind; name : string; input_schema : InputSchema; result_tier : string }.
Definition FIRST_PARTY_LE_T2_TOOL_ALLOWLIST : list string := ["clock.now"%string].
Inductive RegistryError := DuplicateName | ToolTierClaimError.
Definition ToolRegistry : Type := list ToolSpec.
Definition registry_get (n : string) (r : ToolRegistry) : option ToolSpec := snd <$> list_find (fun s => name s = n) r.
Definition register (r : result RegistryError ToolRegistry) (s : ToolSpec) : result RegistryError ToolRegistry :=
  match r with
  | Ok by_name =>
      if registry_get (name s) by_name is Some _ then Err DuplicateName
      else if bool_decide (result_tier s <> "T3"%string /\ name s ∉ FIRST_PARTY_LE_T2_TOOL_ALLOWLIST) then Err ToolTierClaimError
      else Ok (by_name ++ [s])
  | e => e
  end.
Definition make_registry (specs : list ToolSpec) : result RegistryError ToolRegistry := foldl register (Ok []) specs.
Definition arguments_conform (args : list (string * string)) (s : InputSchema) : bool :=
  match required s with Some l => forallb (fun x => bool_decide (x ∈ args.*1)) l | None => true end &&
  (if additional_properties_false s
   then match properties s with Some allowed => forallb (fun x => bool_decide (x ∈ allowed)) (args.*1) | None => true end
   else true).

(** ** The chokepoint *)
Section dispatch.
Variable out : outside.
Local Abbreviation append := (append out).
Local Abbreviation await := (await out).

Definition invoke {A} (k : key) (index : Z) (call : ToolCall) (f : nat -> A) : T A :=
  tell (Called k index call) ;;; await (fun n w => (Ok (f n), w)).
Definition gate_allows : T bool := ask (fun n w => (Ok (gate_check out n), note (Gated (gate_check out n)) w)).
Definition scan (x : text) : T text :=
  ask (fun n w => match dlp_scan out n x with Ok s => (Ok s, note (Scanned x s) w) | Err e => (Err e, w) end).
Definition dumps (d : Data) : T text := fun w => (json_dumps out d, w).
Definition downgrade_to_orchestrator (d : Data) : T Data :=
  cleared <-- ask (fun n w => (Ok (clearance out n), w));
  if cleared then append downgrade_row ;;; tell (Downgraded d) ;;; ret d else raise DowngradeDeniedError.

(** [_TotalityGuard]: its flag is that of the error. *)
Definition escalating {A} (p : exn -> bool) (m : T A) (r : row) : M world (bool * exn) A :=
  fun w => match m w with
  | (Err e, w) => if p e then flagged true (append r ;;; raise e) w else (Err (false, e), w)
  | (Ok a, w) => (Ok a, w)
  end.
Definition guarded {A} (fallback : row) (region : M world (bool * exn) A) : T A :=
  unflag region (fun audited e => if is_exception e && negb audited then append fallback ;;; raise e else raise e).

Definition is_outbound_canary (e : exn) : bool := match e with OutboundCanaryTripped => true | _ => false end.
Section one.
Variables (k : key) (registry : ToolRegistry) (call : ToolCall) (index : Z).
Definition audited (tool : string) (tier : option string) (outcome res : string) : row := tool_row tool index tier outcome res.
Definition unexpected (tool tier : string) : row := audited tool (Some tier) "unexpected_error" "fault".
(** The last steps of both paths: the scan, whose canary escalates, and the row. *)
Definition scan_and_audit (tool tier : string) (x : text) : M world (bool * exn) text :=
  clean <-- escalating is_outbound_canary (scan x) (audited tool (Some tier) "dlp_canary" "quarantined");
  flagged false (append (audited tool (Some tier) "dispatched" "success")) ;;; ret clean.
Definition dispatch_internal (tool : string) : T text :=
  content <-- except is_exception (invoke k index call (internal_result out)) (fun e => append (unexpected tool "T2") ;;; raise e);
  guarded (unexpected tool "T2") (scan_and_audit tool "T2" content).
Definition cross (tool : string) (d : Data) : T text :=
  guarded (unexpected tool "T3") (
    data <-- escalating is_alfred (downgrade_to_orchestrator d) (audited tool (Some "T3"%string) "downgrade_denied" "refused");
    x <-- flagged false (dumps data);
    scan_and_audit tool "T3" x).
(** The handlers of a failed external dispatch. *)
Definition external_failed (tool : string) (e : exn) : T text :=
  let answered outcome res (m : notice) := append (audited tool (Some "T3"%string) outcome res) ;;; ret (t out m) in
  match e with
  | InboundCanaryTripped => append (audited tool (Some "T3"%string) "canary_tripped" "quarantined") ;;; raise e
  | WebFetchRateLimited => answered "rate_limited"%string "rate_limited"%string (rate_limited tool)
  | WebFetchDomainNotAllowed => answered "domain_not_allowed"%string "refused"%string (domain_not_allowed tool)
  | WebFetchActionTimeout => answered "timeout"%string "refused"%string (timeout tool)
  | WebFetchError => answered "tool_error"%string "refused"%string (error tool)
  | TimeoutError => answered "unexpected_timeout"%string "refused"%string (timeout_unexpected tool)
  | e => if is_exception e then append (unexpected tool "T3") ;;; raise e else raise e
  end.
Definition dispatch_external (tool : string) : T text := fun w =>
  match invoke k index call (external_result out) w with
  | (Err e, w) => external_failed tool e w
  | (Ok (TypedRefusal reason), w) => (append (audited tool (Some "T3"%string) "tool_refused" "refused") ;;; ret (t out (refused tool reason))) w
  | (Ok (Extracted d), w) => cross tool d w
  end.
Definition dispatch_tool : T text :=
  match registry_get (call_name call) registry with
  | None => append (audited (call_name call) None "unknown_tool" "refused") ;;; ret (t out (unknown_tool (call_name call)))
  | Some spec =>
      if negb (arguments_conform (arguments call) (input_schema spec))
      then append (audited (name spec) (Some (result_tier spec)) "invalid_arguments" "refused") ;;; ret (t out (invalid_arguments (name spec)))
      else
      allowed <-- gate_allows;
      if negb allowed
      then append (audited (name spec) (Some (result_tier spec)) "gate_denied" "refused") ;;; ret (t out (not_permitted (name spec)))
      else match kind spec with
           | InternalToolSpec => dispatch_internal (name spec)
           | ExternalToolSpec => dispatch_external (name spec)
           end
  end.
End one.
End dispatch.

(** ** Every dispatch is audited *)
Definition is_tool_row (x : entry) : option row := match x with Audited (tool_row _ _ _ _ _ as r) => Some r | _ => None end.
Definition tool_rows (l : list entry) : list row := omap is_tool_row l.
Definition unwritten (x : entry) : bool := match x with Unwritten _ => true | _ => false end.
Definition all_written (l : list entry) : Prop := existsb unwritten l = false.
Section audit.
Variable out : outside.
Lemma logs_invoke {A} k i c (f : nat -> A) (Q : result exn A -> list entry -> Prop) :
  (forall a, Q (Ok a) [Called k i c]) -> (forall e, Q (Err e) [Called k i c]) -> logs (invoke out k i c f) Q.
Proof. intros H1 H2. unfold invoke. apply logs_bind, logs_tell, logs_await_quiet; intros; cbn; auto. Qed.
Lemma logs_gate_allows (Q : result exn bool -> list entry -> Prop) : (forall b, Q (Ok b) [Gated b]) -> logs (gate_allows out) Q.
Proof. intros H. apply logs_ask. intros n w. exists [Gated (gate_check out n)]. split; [done|apply H]. Qed.
Lemma logs_scan x (Q : result exn text -> list entry -> Prop) : (forall s, Q (Ok s) [Scanned x s]) -> (forall e, Q (Err e) []) -> logs (scan out x) Q.
Proof. intros H1 H2. apply logs_ask. intros n w. destruct (dlp_scan out n x) as [s|e]; [exists [Scanned x s]; split; [done|apply H1]|exists []; rewrite app_nil_r; split; [done|apply H2]]. Qed.
Lemma logs_dumps d (Q : result exn text -> list entry -> Prop) : Q (json_dumps out d) [] -> logs (dumps out d) Q.
Proof. intros H w. exists []. by rewrite app_nil_r. Qed.
Lemma logs_downgrade d (Q : result exn Data -> list entry -> Prop) : Q (Ok d) [Audited downgrade_row; Downgraded d] -> Q (Err DowngradeDeniedError) [] ->
  (forall e, Q (Err e) [Unwritten downgrade_row]) -> (forall e, Q (Err e) [Audited downgrade_row; Unwritten downgrade_row]) -> logs (downgrade_to_orchestrator out d) Q.
Proof.
  intros H1 H2 H3 H4. unfold downgrade_to_orchestrator. apply logs_bind, logs_ask. intros n w. exists []. rewrite app_nil_r. split; [done|]. cbn.
  destruct (clearance out n); [|by apply logs_raise]. apply logs_bind, logs_append; auto. apply logs_bind, logs_tell, logs_ret. done.
Qed.
Lemma logs_escalating {A} (p : exn -> bool) (m : T A) r (Q : result (bool * exn) A -> list entry -> Prop) :
  logs m (fun x l => match x with
    | Ok a => Q (Ok a) l
    | Err e => if p e then Q (Err (true, e)) (l ++ [Audited r]) /\ (forall e, Q (Err (true, e)) (l ++ [Unwritten r])) /\ (forall e, Q (Err (true, e)) (l ++ [Audited r; Unwritten r]))
               else Q (Err (false, e)) l
    end) -> logs (escalating out p m r) Q.
Proof.
  intros H w. unfold escalating. destruct (H w) as (l&E1&HQ). destruct (m w) as [[a|e] w']; cbn in *; [by exists l|]. destruct (p e); [|by exists l].
  destruct HQ as (H1&H2&H3). assert (Hl : logs (flagged true (append out r ;;; (raise e : T A))) (fun x l' => Q x (l ++ l'))).
  { apply logs_flagged, logs_bind, logs_append; try (intros; cbn; auto). by apply logs_raise. }
  destruct (Hl w') as (l'&E2&HQ). exists (l ++ l'). by rewrite E2, E1, app_assoc.
Qed.
Lemma logs_guarded {A} r (m : M world (bool * exn) A) (Q : result exn A -> list entry -> Prop) :
  logs m (fun x l => match x with
    | Ok a => Q (Ok a) l
    | Err (b, e) => if is_exception e && negb b then Q (Err e) (l ++ [Audited r]) /\ (forall e, Q (Err e) (l ++ [Unwritten r])) /\ (forall e, Q (Err e) (l ++ [Audited r; Unwritten r]))
                    else Q (Err e) l
    end) -> logs (guarded out r m) Q.
Proof.
  intros H. unfold guarded. apply logs_unflag. eapply logs_mono; [|exact H]. intros [a|[b e]] l; [done|]. destruct (is_exception e && negb b).
  - intros (H1&H2&H3). apply logs_bind, logs_append; try (intros; cbn; auto). by apply logs_raise.
  - intros HQ. apply logs_raise. by rewrite app_nil_r.
Qed.

(** The rows of a dispatch, when every append went through. *)
Definition row_is (tool : string) (index : Z) (x : row) : Prop := exists tier outcome res, x = tool_row tool index tier outcome res.
Definition audited_once (tool : string) (index : Z) (r : result exn text) (l : list entry) : Prop :=
  all_written l -> match r with
    | Ok _ => exists x, tool_rows l = [x] /\ row_is tool index x
    | Err e => if is_exception e then exists x, tool_rows l = [x] /\ row_is tool index x else tool_rows l = [] \/ exists x, tool_rows l = [x] /\ row_is tool index x
    end.
Lemma once_unwritten tool index r l : existsb unwritten l = true -> audited_once tool index r l.
Proof. unfold audited_once, all_written. intros -> [=]. Qed.
Lemma once_row tool index r l tier outcome res : tool_rows l = [tool_row tool index tier outcome res] -> audited_once tool index r l.
Proof.
  intros Hl _. assert (H : exists x, tool_rows l = [x] /\ row_is tool index x) by (eexists; split; [exact Hl|by repeat eexists]).
  destruct r as [s|e]; [done|]. destruct (is_exception e); [done|by right].
Qed.
Lemma once_none tool index e l : is_exception e = false -> tool_rows l = [] -> audited_once tool index (Err e) l.
Proof. intros He Hl _. rewrite He. by left. Qed.
Ltac settled := intros; first
  [ eapply once_row; reflexivity | apply once_unwritten; rewrite ?existsb_app; cbn; rewrite ?orb_true_r; first [reflexivity|done] | apply once_none; [done|reflexivity] ].
(** A guarded region leaves no row when it fails with the flag down, and one otherwise. *)
Definition region_once {A} (tool : string) (index : Z) (r : result (bool * exn) A) (l : list entry) : Prop :=
  existsb unwritten l = true \/
  match r with Err (false, _) => tool_rows l = [] | _ => exists tier outcome res, tool_rows l = [tool_row tool index tier outcome res] end.
Lemma guarded_once {A} tool index tier (m : M world (bool * exn) A) (Q : result exn A -> list entry -> Prop) :
  (forall a l, region_once tool index (Ok a : result (bool * exn) A) l -> Q (Ok a) l) ->
  (forall e l, is_exception e = false -> tool_rows l = [] -> Q (Err e) l) ->
  (forall e l, existsb unwritten l = true \/ (exists tier outcome res, tool_rows l = [tool_row tool index tier outcome res]) -> Q (Err e) l) ->
  logs m (region_once tool index) -> logs (guarded out (unexpected index tool tier) m) Q.
Proof.
  intros H1 H2 H3 Hm. apply logs_guarded. eapply logs_mono; [|exact Hm]. intros [a|[b e]] l Hr; [by apply H1|].
  destruct (is_exception e) eqn:He, b; cbn.
  - apply H3. by destruct Hr; [left|right].
  - split; [|split]; intros; apply H3.
    + destruct Hr as [Hr|Hr]; [left; rewrite existsb_app, Hr; done|right]. unfold tool_rows in *. rewrite omap_app, Hr. by repeat eexists.
    + left. rewrite existsb_app. by rewrite orb_true_r.
    + left. rewrite existsb_app. by rewrite orb_true_r.
  - apply H3. by destruct Hr; [left|right].
  - destruct Hr as [Hr|Hr]; [apply H3; by left|by apply H2].
Qed.
Ltac in_region := intros; first [left; rewrite ?existsb_app; cbn; rewrite ?orb_true_r; reflexivity | right; cbn; first [reflexivity | by repeat eexists]].
Lemma scan_and_audit_region index tool tier x Q :
  (forall r l, region_once tool index r l -> Q r l) -> logs (scan_and_audit out index tool tier x) Q.
Proof.
  intros H. unfold scan_and_audit. apply logs_bind, logs_escalating, logs_scan.
  - intros s. apply logs_bind, logs_flagged, logs_append; [apply logs_ret|intros..]; apply H; in_region.
  - intros e. destruct e; cbn; try (apply H; in_region). split; [|split; intros]; apply H; in_region.
Qed.
Lemma audited_region {A} tool index pre (a : A) (s : text) l : tool_rows pre = [] -> region_once tool index (Ok a : result (bool * exn) A) l -> audited_once tool index (Ok s) (pre ++ l).
Proof.
  intros Hp [Hl|(x&y&z&Hl)]; [apply once_unwritten; by rewrite existsb_app, Hl, orb_true_r|]. apply (once_row _ _ _ _ x y z). unfold tool_rows in *. by rewrite omap_app, Hp.
Qed.
Lemma guarded_audited tool index tier (m : M world (bool * exn) text) pre : tool_rows pre = [] -> logs m (region_once tool index) ->
  logs (guarded out (unexpected index tool tier) m) (fun r l => audited_once tool index r (pre ++ l)).
Proof.
  intros Hp. apply guarded_once.
  - intros a l. by apply audited_region.
  - intros e l He Hl. apply once_none; [done|]. unfold tool_rows in *. by rewrite omap_app, Hp.
  - intros e l [Hl|(x&y&z&Hl)]; [apply once_unwritten; by rewrite existsb_app, Hl, orb_true_r|]. apply (once_row _ _ _ _ x y z). unfold tool_rows in *. by rewrite omap_app, Hp.
Qed.

Lemma dispatch_internal_once k call index tool : logs (dispatch_internal out k call index tool) (audited_once tool index).
Proof.
  unfold dispatch_internal, except. apply logs_bind, logs_catch, logs_invoke.
  - intros x. apply guarded_audited; [done|]. by apply scan_and_audit_region.
  - intros e. destruct (is_exception e) eqn:He; [|apply logs_raise; settled].
    apply logs_bind, logs_append; [apply logs_raise|..]; settled.
Qed.
Lemma region_app {A} tool index pre (r : result (bool * exn) A) l : tool_rows pre = [] -> region_once tool index r l -> region_once tool index r (pre ++ l).
Proof.
  intros Hp [Hl|Hl]; [left; by rewrite existsb_app, Hl, orb_true_r|right]. unfold tool_rows in *. by rewrite omap_app, Hp.
Qed.
Lemma cross_once index tool d pre : tool_rows pre = [] -> logs (cross out index tool d) (fun r l => audited_once tool index r (pre ++ l)).
Proof.
  intros Hp. apply guarded_audited; [done|]. apply logs_bind, logs_escalating, logs_downgrade; [|cbn; split; [|split; intros]; in_region|..].
  - apply logs_bind, logs_flagged, logs_dumps. destruct (json_dumps out d) as [x|e]; [|in_region].
    apply scan_and_audit_region. intros r l Hr. by apply (region_app _ _ ([Audited downgrade_row; Downgraded d] ++ [])).
  - intros e. destruct (is_alfred e); [split; [|split; intros]|]; in_region.
  - intros e. destruct (is_alfred e); [split; [|split; intros]|]; in_region.
Qed.
Lemma external_failed_once index tool e pre : tool_rows pre = [] -> logs (external_failed out index tool e) (fun r l => audited_once tool index r (pre ++ l)).
Proof.
  intros Hp. assert (Hrow : forall r l a b c, tool_rows l = [tool_row tool index a b c] -> audited_once tool index r (pre ++ l)).
  { intros r l x y z Hl. eapply once_row. unfold tool_rows in *. by rewrite omap_app, Hp. }
  assert (Hun : forall r l, existsb unwritten l = true -> audited_once tool index r (pre ++ l)).
  { intros r l Hl. apply once_unwritten. by rewrite existsb_app, Hl, orb_true_r. }
  destruct e; cbn [external_failed is_exception];
    try (apply logs_raise, once_none; [done|]; unfold tool_rows in *; by rewrite omap_app, Hp);
    (apply logs_bind, logs_append; [first [apply logs_ret|apply logs_raise]; by eapply Hrow|intros; by apply Hun|intros; by apply Hun]).
Qed.
Lemma dispatch_external_once k call index tool : logs (dispatch_external out k call index tool) (audited_once tool index).
Proof.
  intros w. unfold dispatch_external.
  assert (Hi : logs (invoke out k index call (external_result out)) (fun _ l => l = [Called k index call])) by (by apply logs_invoke).
  destruct (Hi w) as (l&E1&->). destruct (invoke _ _ _ _ _ w) as [[o|e] w']; cbn in E1.
  - assert (H : logs (match o with TypedRefusal reason => append out (audited index tool (Some "T3"%string) "tool_refused" "refused") ;;; ret (t out (refused tool reason)) | Extracted d => cross out index tool d end)
        (fun r l => audited_once tool index r ([Called k index call] ++ l))).
    { destruct o as [reason|d]; [|by apply cross_once]. apply logs_bind, logs_append; [apply logs_ret|..]; settled. }
    destruct (H w') as (l'&E2&HQ). exists ([Called k index call] ++ l'). destruct o; (split; [rewrite E2, E1; by rewrite app_assoc|exact HQ]).
  - destruct (external_failed_once index tool e [Called k index call] eq_refl w') as (l'&E2&HQ). exists ([Called k index call] ++ l').
    split; [rewrite E2, E1; by rewrite app_assoc|exact HQ].
Qed.

(** C7: Every dispatch of a tool is audited once.  Whatever the tool, the gate, the quarantine
    and the scans do, and wherever it fails, one call of the chokepoint writes exactly one
    row for that tool and index before it returns or raises, provided no append fails; only
    a cancellation or the death of the process may leave no row. *)
Theorem every_dispatch_is_audited_once k registry call index w :
  let '(r, w') := dispatch_tool out k registry call index w in exists l, log w' = log w ++ l /\ audited_once (call_name call) index r l.
Proof.
  enough (H : logs (dispatch_tool out k registry call index) (audited_once (call_name call) index)).
  { specialize (H w). by destruct (dispatch_tool _ _ _ _ _ w). }
  unfold dispatch_tool. unfold registry_get. destruct (list_find _ registry) as [[i spec]|] eqn:Hf; cbn.
  - apply list_find_Some in Hf as (_&<-&_). destruct (negb _); [apply logs_bind, logs_append; [apply logs_ret|..]; settled|].
    apply logs_bind, logs_gate_allows. intros b. destruct (negb b); [apply logs_bind, logs_append; [apply logs_ret|..]; settled|].
    destruct (kind spec); [apply dispatch_external_once|apply dispatch_internal_once].
  - apply logs_bind, logs_append; [apply logs_ret|..]; settled.
Qed.
End audit.

(** ** What the planner gets *)
Definition call_of (x : entry) : option (key * Z * ToolCall) := match x with Called k i c => Some (k, i, c) | _ => None end.
Definition called (l : list entry) : list (key * Z * ToolCall) := omap call_of l.
Section cleared.
Variable out : outside.
Implicit Types (l : list entry) (r : result exn text).
(** A result is a notice of the catalogue, or what the scan let through; of an external tool,
    the scan was given what [json] made of data whose downgrade was cleared and recorded. *)
Definition scanned (external : bool) (s : text) l : Prop :=
  exists x, Scanned x s ∈ l /\ (external = true -> exists d, json_dumps out d = Ok x /\ Downgraded d ∈ l /\ Audited downgrade_row ∈ l).
Definition cleared (external : bool) r l : Prop := match r with Ok s => (exists m, s = t out m) \/ scanned external s l | Err _ => True end.
Lemma scanned_app external s l l' : scanned external s l -> scanned external s (l' ++ l).
Proof.
  intros (x&Hx&He). exists x. split; [set_solver|]. intros H. destruct (He H) as (d&?&?&?). exists d. split; [done|]. set_solver.
Qed.
(** Only [c] is called, and what is returned is cleared. *)
Definition clears (external : bool) (c : list (key * Z * ToolCall)) r l : Prop := called l = c /\ cleared external r l.
Ltac cleared_leaf := intros; (split; [reflexivity|]); first [exact I | left; eexists; reflexivity | done].
Lemma scan_and_audit_clears index tool tier x pre external c (Q : result (bool * exn) text -> list entry -> Prop) : called pre = c ->
  (external = true -> exists d, json_dumps out d = Ok x /\ Downgraded d ∈ pre /\ Audited downgrade_row ∈ pre) ->
  (forall s l, clears external c (Ok s) (pre ++ l) -> Q (Ok s) l) -> (forall b e l, called l = [] -> Q (Err (b, e)) l) ->
  logs (scan_and_audit out index tool tier x) Q.
Proof.
  intros Hc He H1 H2. unfold scan_and_audit. apply logs_bind, logs_escalating, logs_scan.
  - intros s. apply logs_bind, logs_flagged, logs_append; [apply logs_ret, H1|intros; by apply H2..]. split; [unfold called in *; by rewrite omap_app, Hc, app_nil_r|].
    right. exists x. split; [set_solver|]. intros Hx. destruct (He Hx) as (d&?&?&?). exists d. split; [done|]. set_solver.
  - intros e. destruct (is_outbound_canary e); [split; [|split; intros]|]; by apply H2.
Qed.
Lemma guarded_clears {A} fallback (m : M world (bool * exn) A) (Q : result exn A -> list entry -> Prop) :
  (forall e l, called l = [] -> Q (Err e) l) -> called [Audited fallback] = [] ->
  logs m (fun o l => match o with Ok a => Q (Ok a) l | Err _ => called l = [] end) -> logs (guarded out fallback m) Q.
Proof.
  intros H0 Hf Hm. apply logs_guarded. eapply logs_mono; [|exact Hm]. intros [a|[b e]] l; [done|]. intros Hl.
  destruct (is_exception e && negb b); [split; [|split; intros]|]; apply H0; unfold called in *; rewrite ?omap_app, ?Hl; done.
Qed.
Lemma called_snoc l l' c : called l = c -> called l' = [] -> called (l ++ l') = c.
Proof. unfold called. intros H1 H2. by rewrite omap_app, H1, H2, app_nil_r. Qed.
Lemma dispatch_internal_clears k call index tool : logs (dispatch_internal out k call index tool) (clears false [(k, index, call)]).
Proof.
  unfold dispatch_internal, except. apply logs_bind, logs_catch, logs_invoke.
  - intros x. apply guarded_clears; [|done|].
    + intros e l Hl. split; [by apply called_snoc|done].
    + by apply (scan_and_audit_clears _ _ _ _ [Called k index call] false [(k, index, call)]).
  - intros e. destruct (is_exception e); [|apply logs_raise; cleared_leaf]. apply logs_bind, logs_append; [apply logs_raise|..]; cleared_leaf.
Qed.
Lemma cross_clears k call index tool d : logs (cross out index tool d) (fun r l => clears true [(k, index, call)] r ([Called k index call] ++ l)).
Proof.
  apply guarded_clears; [|done|].
  - intros e l Hl. split; [by apply called_snoc|done].
  - apply logs_bind, logs_escalating, logs_downgrade; [|cbn; split; [|split; intros]; done|intros e; destruct (is_alfred e); [split; [|split; intros]|]; done..].
    apply logs_bind, logs_flagged, logs_dumps. destruct (json_dumps out d) as [x|e] eqn:Hd; [|done].
    apply (scan_and_audit_clears _ _ _ _ ([Called k index call] ++ [Audited downgrade_row; Downgraded d]) true [(k, index, call)]); [done| |done|].
    + intros _. exists d. split; [done|]. set_solver.
    + intros b e l Hl. unfold called in *. cbn. by rewrite Hl.
Qed.
Lemma dispatch_external_clears k call index tool : logs (dispatch_external out k call index tool) (clears true [(k, index, call)]).
Proof.
  intros w. unfold dispatch_external.
  assert (Hi : logs (invoke out k index call (external_result out)) (fun _ l => l = [Called k index call])) by (by apply logs_invoke).
  destruct (Hi w) as (l&E1&->). destruct (invoke _ _ _ _ _ w) as [[o|e] w']; cbn in E1.
  - assert (H : logs (match o with TypedRefusal reason => append out (audited index tool (Some "T3"%string) "tool_refused" "refused") ;;; ret (t out (refused tool reason)) | Extracted d => cross out index tool d end)
        (fun r l => clears true [(k, index, call)] r ([Called k index call] ++ l))).
    { destruct o as [reason|d]; [|by apply cross_clears]. apply logs_bind, logs_append; [apply logs_ret|..]; cleared_leaf. }
    destruct (H w') as (l'&E2&HQ). exists ([Called k index call] ++ l'). destruct o; (split; [rewrite E2, E1; by rewrite app_assoc|exact HQ]).
  - assert (H : logs (external_failed out index tool e) (fun r l => clears true [(k, index, call)] r ([Called k index call] ++ l))).
    { destruct e; cbn [external_failed is_exception]; try (apply logs_raise; cleared_leaf);
        (apply logs_bind, logs_append; [first [apply logs_ret|apply logs_raise]|..]; cleared_leaf). }
    destruct (H w') as (l'&E2&HQ). exists ([Called k index call] ++ l'). split; [rewrite E2, E1; by rewrite app_assoc|exact HQ].
Qed.
Lemma dispatch_tool_clears k registry call index : logs (dispatch_tool out k registry call index)
  (fun r l =>
    (called l = [] \/ called l = [(k, index, call)] /\ exists spec l', registry_get (call_name call) registry = Some spec /\
       arguments_conform (arguments call) (input_schema spec) = true /\ l = Gated true :: l') /\
    match r with Err _ => True | Ok s => (exists m, s = t out m) \/
      exists spec, registry_get (call_name call) registry = Some spec /\ scanned (match kind spec with ExternalToolSpec => true | InternalToolSpec => false end) s l end).
Proof.
  unfold dispatch_tool. destruct (registry_get _ registry) as [spec|] eqn:Hs.
  2:{ apply logs_bind, logs_append; [apply logs_ret|..]; (split; [by left|]); first [exact I|left; by eexists]. }
  destruct (arguments_conform _ _) eqn:Hconf; cbn [negb].
  2:{ apply logs_bind, logs_append; [apply logs_ret|..]; (split; [by left|]); first [exact I|left; by eexists]. }
  apply logs_bind, logs_gate_allows. intros [|]; cbn [negb].
  2:{ apply logs_bind, logs_append; [apply logs_ret|..]; (split; [by left|]); first [exact I|left; by eexists]. }
  assert (Hend : forall r l external, external = match kind spec with ExternalToolSpec => true | InternalToolSpec => false end -> clears external [(k, index, call)] r l ->
    (called ([Gated true] ++ l) = [] \/ called ([Gated true] ++ l) = [(k, index, call)] /\ exists spec0 l', Some spec = Some spec0 /\
       arguments_conform (arguments call) (input_schema spec0) = true /\ [Gated true] ++ l = Gated true :: l') /\
    match r with Err _ => True | Ok s => (exists m, s = t out m) \/
      exists spec0, Some spec = Some spec0 /\ scanned (match kind spec0 with ExternalToolSpec => true | InternalToolSpec => false end) s ([Gated true] ++ l) end).
  { intros r l external -> [Hc Hr]. split; [right; split; [by cbn; rewrite <- Hc|by exists spec, l]|]. destruct r as [s|e]; [|done].
    destruct Hr as [Hr|Hr]; [by left|right]. exists spec. split; [done|]. by apply scanned_app. }
  destruct (kind spec) eqn:Hk.
  - eapply logs_mono; [|apply dispatch_external_clears]. intros r l. by apply Hend.
  - eapply logs_mono; [|apply dispatch_internal_clears]. intros r l. by apply Hend.
Qed.
End cleared.

(** ** The entries of a dispatch *)
Definition tool_entry (k : key) (index : Z) (call : ToolCall) (x : entry) : Prop :=
  match x with
  | Audited (tool_row _ _ _ _ _) | Audited downgrade_row | Unwritten (tool_row _ _ _ _ _) | Unwritten downgrade_row | Gated _ | Scanned _ _ | Downgraded _ => True
  | Called k' i c => k' = k /\ i = index /\ c = call
  | _ => False
  end.
Lemma logs_any {E A} (m : M world E A) (P : entry -> Prop) (Q : result E A -> list entry -> Prop) :
  logs m (fun _ => Forall P) -> (forall r l, Forall P l -> Q r l) -> logs m Q.
Proof. intros Hm H. eapply logs_mono; [|exact Hm]. auto. Qed.
Section entries.
Variables (out : outside) (k : key) (index : Z) (call : ToolCall).
Local Abbreviation P := (Forall (tool_entry k index call)).
Ltac leaf := repeat match goal with |- _ /\ _ => split | |- forall _, _ => intro | |- Forall _ (_ ++ _) => apply Forall_app; split | |- Forall _ (_ :: _) => constructor | |- Forall _ [] => constructor end; try done.
Lemma scan_and_audit_entries tool tier x : logs (scan_and_audit out index tool tier x) (fun _ => P).
Proof.
  apply logs_bind, logs_escalating, logs_scan.
  - intros s. apply logs_bind, logs_flagged, logs_append; [apply logs_ret|..]; leaf.
  - intros e. destruct (is_outbound_canary e); leaf.
Qed.
Lemma guarded_entries {A} tool tier (m : M world (bool * exn) A) : logs m (fun _ => P) -> logs (guarded out (unexpected index tool tier) m) (fun _ => P).
Proof.
  intros Hm. apply logs_guarded. eapply logs_mono; [|exact Hm]. intros [a|[b e]] l Hl; [done|]. destruct (is_exception e && negb b); leaf.
Qed.
Lemma cross_entries tool d : logs (cross out index tool d) (fun _ => P).
Proof.
  apply guarded_entries, logs_bind, logs_escalating, logs_downgrade; [|cbn; leaf|intros e; destruct (is_alfred e); leaf..].
  apply logs_bind, logs_flagged, logs_dumps. destruct (json_dumps out d) as [x|e]; [|leaf].
  eapply logs_any; [apply scan_and_audit_entries|]. leaf.
Qed.
Lemma external_failed_entries tool e : logs (external_failed out index tool e) (fun _ => P).
Proof.
  destruct e; cbn [external_failed is_exception]; first [apply logs_raise; leaf | apply logs_bind, logs_append; [first [apply logs_ret|apply logs_raise]|..]; leaf].
Qed.
Lemma dispatch_tool_entries registry : logs (dispatch_tool out k registry call index) (fun _ => P).
Proof.
  unfold dispatch_tool. destruct (registry_get _ registry) as [spec|]; [|apply logs_bind, logs_append; [apply logs_ret|..]; leaf].
  destruct (negb _); [apply logs_bind, logs_append; [apply logs_ret|..]; leaf|].
  apply logs_bind, logs_gate_allows. intros b. destruct (negb b); [apply logs_bind, logs_append; [apply logs_ret|..]; leaf|].
  destruct (kind spec).
  - intros w. unfold dispatch_external.
    assert (Hi : logs (invoke out k index call (external_result out)) (fun _ => P)) by (apply logs_invoke; leaf).
    destruct (Hi w) as (l&E1&Hl). destruct (invoke _ _ _ _ _ w) as [[o|e] w']; cbn in E1.
    + assert (H : logs (match o with TypedRefusal reason => append out (audited index (name spec) (Some "T3"%string) "tool_refused" "refused") ;;; ret (t out (refused (name spec) reason)) | Extracted d => cross out index (name spec) d end) (fun _ => P)).
      { destruct o as [reason|d]; [|apply cross_entries]. apply logs_bind, logs_append; [apply logs_ret|..]; leaf. }
      destruct (H w') as (l'&E2&HQ). exists (l ++ l'). destruct o; (split; [rewrite E2, E1; by rewrite app_assoc|leaf]).
    + destruct (external_failed_entries (name spec) e w') as (l'&E2&HQ). exists (l ++ l'). split; [rewrite E2, E1; by rewrite app_assoc|leaf].
  - unfold dispatch_internal, except. apply logs_bind, logs_catch, logs_invoke.
    + intros x. eapply logs_any; [apply guarded_entries, scan_and_audit_entries|]. leaf.
    + intros e. destruct (is_exception e); [|apply logs_raise; leaf]. apply logs_bind, logs_append; [apply logs_raise|..]; leaf.
Qed.
End entries.

(** ** The registry *)
Definition tier_allowed (s : ToolSpec) : Prop := result_tier s = "T3"%string \/ name s ∈ FIRST_PARTY_LE_T2_TOOL_ALLOWLIST.
Lemma registry_get_None n (r : ToolRegistry) : registry_get n r = None <-> n ∉ name <$> r.
Proof.
  unfold registry_get. split.
  - intros H Hin. apply list_elem_of_fmap in Hin as (s&->&Hs). destruct (list_find _ r) as [x|] eqn:Hf; [done|]. eapply list_find_None in Hf. rewrite list.Forall_forall in Hf. by apply (Hf s).
  - intros H. destruct (list_find _ r) as [[i s]|] eqn:Hf; [|done]. apply list_find_Some in Hf as (Hl&<-&_). destruct H. apply list_elem_of_fmap. exists s. split; [done|]. by eapply list_elem_of_lookup_2.
Qed.
Lemma register_ok r s r' : register (Ok r) s = Ok r' <-> r' = r ++ [s] /\ (name s ∉ name <$> r) /\ tier_allowed s.
Proof.
  unfold register, tier_allowed. pose proof (registry_get_None (name s) r) as Hg. destruct (registry_get (name s) r) as [x|].
  - split; [done|]. intros (_&H&_). apply Hg in H. done.
  - case_bool_decide as Hb; [split; [done|]; intros (_&_&[H|H]); naive_solver|]. split.
    + intros [= <-]. split_and!; [done|by apply Hg|]. destruct (decide (result_tier s = "T3"%string)); [by left|right]. apply not_and_l in Hb as [Hb|Hb]; [done|]. by apply dec_stable.
    + by intros (->&_&_).
Qed.
Lemma register_err e specs : foldl register (Err e) specs = Err e.
Proof. by induction specs. Qed.
(** C8: The registry is built exactly when no tool claims a tier it may not.  Construction
    succeeds when and only when the names are distinct and every tool is declared T3 or is on
    the first-party list, and the registry then holds the given tools, in order. *)
Theorem registry_admits_no_tier_claims specs r :
  make_registry specs = Ok r <-> r = specs /\ NoDup (name <$> specs) /\ Forall tier_allowed specs.
Proof.
  unfold make_registry. rewrite <- (app_nil_l specs) at 2. change (Forall tier_allowed specs) with (Forall tier_allowed specs).
  enough (H : forall pre, NoDup (name <$> pre) -> Forall tier_allowed pre ->
    foldl register (Ok pre) specs = Ok r <-> r = pre ++ specs /\ NoDup (name <$> pre ++ specs) /\ Forall tier_allowed (pre ++ specs)).
  { specialize (H [] ltac:(constructor) ltac:(constructor)). exact H. }
  induction specs as [|s specs IH]; intros pre Hn Ht; [rewrite app_nil_r; cbn; naive_solver|]. cbn [foldl].
  destruct (register (Ok pre) s) as [r'|e] eqn:Hr.
  - apply register_ok in Hr as (->&Hs&Ha). rewrite IH; [by rewrite <- app_assoc| |].
    + rewrite fmap_app. apply NoDup_app. split_and!; [done| |by apply NoDup_singleton]. intros x Hx ->%list_elem_of_singleton. done.
    + apply Forall_app. split; [done|by constructor].
  - rewrite register_err. split; [done|]. intros (_&Hd&Hf). exfalso. assert (Hok : register (Ok pre) s = Ok (pre ++ [s])).
    { apply register_ok. split; [done|]. split.
      - rewrite fmap_app in Hd. apply NoDup_app in Hd as (_&Hd&_). intros Hin. apply (Hd _ Hin). cbn. by left.
      - apply Forall_app in Hf as [_ Hf]. by inversion Hf. }
    congruence.
Qed.

(** ** A row written twice *)
Module Concrete.
Definition clock : ToolSpec := {| kind := InternalToolSpec; name := "clock.now"; input_schema := {| required := None; additional_properties_false := false; properties := Some [] |}; result_tier := "T2" |}.
Definition now_call : ToolCall := {| call_id := "c1"; call_name := "clock.now"; arguments := [] |}.
Definition no_env : Env := {| user_loader := fun _ => Row (Finite 100); current_version := 0; created_on := 0; today := 0 |}.
Definition reply (calls : list ToolCall) : CompletionResponse :=
  {| content := [111%N; 107%N]; tokens_in := 1; tokens_out := 1; cost_usd := Finite (1 # 100); model := "m"; stop_reason := match calls with [] => "end_turn" | _ => "tool_use" end; tool_calls := calls |}.
(** Everything goes through, but for the fates given. *)
Definition goes (fates : nat -> fate) (completions : nat -> CompletionResponse) : outside := {|
  fate_of := fates; meanwhile := fun _ => []; budget_env := fun _ => no_env; completion := completions; internal_result := fun _ => [49%N];
  external_result := fun _ => TypedRefusal "cannot_extract"; gate_check := fun _ => true; clearance := fun _ => true; dlp_scan := fun _ x => Ok x;
  json_dumps := fun _ => Ok []; hooked := fun _ e => e; t := fun _ => []; system_prompt := [] |}.
Definition start : world := {| tick := 0; journal := []; ledger := ∅; episodes := []; staged := ([], []);
  budget := {| _per_call_max_usd := 1; _user_budgets := ∅ |}; memory := []; log := [] |}.
End Concrete.
Import Concrete.
Definition row_lost : outside := goes (fun n => if (n =? 3)%nat then Fails true SQLAlchemyError else Goes) (fun _ => reply []).
(** A dispatch whose success row is written by an append that then raises leaves two rows.
    The flag of the guard is not raised for the row of a success, so the handler writes a
    second row that calls the dispatch faulted. *)
Theorem faulted_success_row_is_doubled : let '(r, w) := dispatch_tool row_lost ("a", "m")%string [clock] now_call 0 start in
  r = Err SQLAlchemyError /\ tool_rows (log w) =
    [tool_row "clock.now" 0 (Some "T2"%string) "dispatched" "success"; tool_row "clock.now" 0 (Some "T2"%string) "unexpected_error" "fault"].
Proof. vm_compute. split; reflexivity. Qed.

(** ** What a dispatch keeps *)
Section kept.
Context (out : outside) (I : world -> Prop) `{!Stable I} `{!Rely out I}.
Lemma keeps_escalating {A} (p : exn -> bool) (m : T A) r : keeps I m -> keeps I (escalating out p m r).
Proof.
  intros Hm w Hw. unfold escalating. specialize (Hm w Hw). destruct (m w) as [[a|e] w']; [done|]. destruct (p e); [|done].
  apply (keeps_flagged I true (append out r ;;; (raise e : T A))); [|done]. apply keeps_bind; [by apply keeps_append|intros; apply keeps_raise].
Qed.
Lemma keeps_guarded {A} r (m : M world (bool * exn) A) : keeps I m -> keeps I (guarded out r m).
Proof. intros Hm. apply keeps_unflag; [done|]. intros b e. destruct (_ && _); repeat keeps_step. Qed.
Lemma keeps_scan x : keeps I (scan out x).
Proof. apply keeps_ask; [done|]. intros n w Hw. destruct (dlp_scan out n x) as [s|e]; [by apply (stable_note (I := I) (Scanned x s))|done]. Qed.
Lemma keeps_scan_and_audit index tool tier x : keeps I (scan_and_audit out index tool tier x).
Proof. apply keeps_bind; [by apply keeps_escalating, keeps_scan|]. intros s. repeat keeps_step. Qed.
Lemma keeps_downgrade d : keeps I (downgrade_to_orchestrator out d).
Proof. unfold downgrade_to_orchestrator. apply keeps_bind; [apply keeps_ask; [done|]; by intros n w|]. intros []; repeat keeps_step. Qed.
Lemma keeps_cross index tool d : keeps I (cross out index tool d).
Proof.
  apply keeps_guarded, keeps_bind; [by apply keeps_escalating, keeps_downgrade|]. intros d'. apply keeps_bind; [apply keeps_flagged; by intros w|]. intros x. apply keeps_scan_and_audit.
Qed.
Variables (k : key) (registry : ToolRegistry) (call : ToolCall) (index : Z).
Hypothesis Hcall : forall w, I w -> I (note (Called k index call) w).
Lemma keeps_invoke {A} (f : nat -> A) : keeps I (invoke out k index call f).
Proof. apply keeps_bind; [by intros w; apply Hcall|]. intros _. apply keeps_await; [done|done|]. by intros n w. Qed.
Lemma keeps_dispatch_tool : keeps I (dispatch_tool out k registry call index).
Proof.
  unfold dispatch_tool. destruct (registry_get _ _) as [spec|]; [|repeat keeps_step]. destruct (negb _); [repeat keeps_step|].
  apply keeps_bind; [apply keeps_ask; [done|]; intros n w Hw; by apply (stable_note (I := I) (Gated (gate_check out n)))|]. intros b. destruct (negb b); [repeat keeps_step|]. destruct (kind spec).
  - intros w Hw. unfold dispatch_external. pose proof (keeps_invoke (external_result out) w Hw) as Hi. destruct (invoke _ _ _ _ _ w) as [[[reason|d]|e] w']; cbn in Hi.
    + by apply (keeps_bind I (append out (audited index (name spec) (Some "T3"%string) "tool_refused" "refused")) (fun _ => ret (t out (refused (name spec) reason)))); [by apply keeps_append|intros; apply keeps_ret|].
    + by apply keeps_cross.
    + assert (H : keeps I (external_failed out index (name spec) e)) by (destruct e; cbn [external_failed is_exception]; repeat keeps_step). by apply H.
  - unfold dispatch_internal. apply keeps_bind; [apply keeps_except; [apply keeps_invoke|intros; repeat keeps_step]|]. intros x. apply keeps_guarded, keeps_scan_and_audit.
Qed.
End kept.
