(* ===== verification/Orchestrator.v ===== *)
(** * The conversation turn

    [orchestrator/core.py]: one turn of the agent, from the user's message to the reply, with
    the replay of a journalled prefix, the budget, the tool loop, the two committed phases and
    the audit rows, over the world of [TurnWorld] and the chokepoint of [ToolDispatch].  An
    audit row is kept as its phase, its result and its actual cost; metrics, log lines, the
    redaction of subjects and the persona template are left out. *)
From S2P Require Import Prelude BudgetGuard EgressId TurnWorld ToolDispatch.

(** [orchestrator/loop_constants.py] *)
Definition MAX_TOOL_ITERATIONS : Z := 8.
Definition MAX_TOOL_CALLS_PER_ITERATION : Z := 8.
Definition TOOL_RESULT_MAX_CHARS : nat := N.to_nat 8192.

(** "…[truncated]" *)
Definition marker : text := [8230; 91; 116; 114; 117; 110; 99; 97; 116; 101; 100; 93]%N.
Definition truncate_to (limit : nat) (s : text) : text :=
  if (length s <=? limit)%nat then s
  else if (limit <=? length marker)%nat then take limit marker
  else take (limit - length marker) s ++ marker.
Definition _truncate_tool_result (s : text) : text := truncate_to TOOL_RESULT_MAX_CHARS s.

Lemma truncate_length s : (length (_truncate_tool_result s) <= TOOL_RESULT_MAX_CHARS)%nat.
Proof.
  unfold _truncate_tool_result, truncate_to. destruct (Nat.leb_spec (length s) TOOL_RESULT_MAX_CHARS); [done|].
  destruct (Nat.leb_spec TOOL_RESULT_MAX_CHARS (length marker)); rewrite ?length_app, length_take; lia.
Qed.
Definition fadd (a b : pyfloat) : pyfloat :=
  match a, b with
  | Finite a, Finite b => Finite (a + b)%Q
  | NaN, _ | _, NaN | Infinity, NegInfinity | NegInfinity, Infinity => NaN
  | Infinity, _ | _, Infinity => Infinity
  | NegInfinity, _ | _, NegInfinity => NegInfinity
  end.
Definition zero : pyfloat := Finite 0.

Record _TurnOutcome := {
  answer : text; final_response : CompletionResponse; final_result_token : string; final_exit_reason : option string;
  answer_from_provider : bool; per_turn_spent_usd : pyfloat; pending_completion_cost : pyfloat }.
(** The collaborators a turn may lack. *)
Record wiring := { tool_registry : option ToolRegistry; gate_wired : bool; dlp_wired : bool; side_effect_ledger : bool; replay_journal : bool }.
Record TurnInput := { user : string; trace_id : string; user_input_text : text; user_input_tier : string; egress_context : option TurnEgressContext }.

(** A loop of awaits; [itertools.groupby] on the iteration; the order of the replay. *)
Fixpoint each {A B} (f : A -> T B) (l : list A) : T (list B) :=
  match l with [] => ret [] | a :: l => b <-- f a; bs <-- each f l; ret (b :: bs) end.
Fixpoint groupby (l : list JournalEntry) : list (Z * list JournalEntry) :=
  match l with
  | [] => []
  | e :: l => match groupby l with
              | (it, g) :: gs => if it =? iteration e then (it, e :: g) :: gs else (iteration e, [e]) :: (it, g) :: gs
              | [] => [(iteration e, [e])]
              end
  end.
Definition entry_le (a b : JournalEntry) : Prop := iteration a < iteration b \/ iteration a = iteration b /\ call_index a <= call_index b.
#[export] Instance entry_le_dec a b : Decision (entry_le a b).
Proof. unfold entry_le. apply _. Defined.
Definition zmax {A} (f : A -> Z) (d : Z) (l : list A) : Z := foldl (fun m x => Z.max m (f x)) d l.
(** [enumerate], from [call_index]. *)
Fixpoint enumerate {A} (i : Z) (l : list A) : list (Z * A) := match l with [] => [] | a :: l => (i, a) :: enumerate (i + 1) l end.

Definition is_budget (e : exn) : bool := match e with Budget _ | PreCheckRefused => true | _ => false end.
Definition is_unknown_user (e : exn) : bool := match e with Budget (UnknownBudgetUserError _) => true | _ => false end.
Definition message (r : Role) (c : text) : Message := {| role := r; m_content := c; m_tool_calls := []; tool_call_id := None |}.
Definition requesting (c : text) (calls : list ToolCall) : Message := {| role := assistant; m_content := c; m_tool_calls := calls; tool_call_id := None |}.

Section turn.
Variables (out : outside) (wi : wiring).
Local Abbreviation append := (append out).

Definition _dispatch_and_wrap_tool_call (k : key) (registry : ToolRegistry) (call : ToolCall) (index : Z) : T Message :=
  result_t2 <-- dispatch_tool out k registry call index;
  ret {| role := tool; m_content := _truncate_tool_result result_t2; m_tool_calls := []; tool_call_id := Some (call_id call) |}.

(** ** The replay of the journalled prefix *)
Definition replay_group (k : key) (registry : ToolRegistry) (g : Z * list JournalEntry) : T (list Message) :=
  results <-- each (fun e => _dispatch_and_wrap_tool_call k registry (tool_call e) (call_index e)) g.2;
  ret (requesting [] (tool_call <$> g.2) :: results).
Definition _fast_forward_journalled_calls (k : key) (forwarded_context : bool) : T (list Message * Z * Z) :=
  match tool_registry wi with
  | None => ret ([], 0, 0)
  | Some registry =>
      if negb forwarded_context then ret ([], 0, 0)
      else if negb (replay_journal wi) then ret ([], 0, 0)
      else
      entries <-- read out k;
      match entries with
      | [] => ret ([], 0, 0)
      | _ =>
          if negb (gate_wired wi && dlp_wired wi) then raise RuntimeError
          else
          locals <-- each (replay_group k registry) (groupby (merge_sort entry_le entries));
          ret (concat locals, zmax call_index (-1) entries + 1, zmax iteration (-1) entries + 1)
      end
  end.

(** ** The tool loop *)
Record loop_state := { local : list Message; next_index : Z; spent_usd : pyfloat; pending : pyfloat; response : option CompletionResponse }.
Definition loop_exit : Type := option text * string * option string * loop_state.
Definition with_pending (c : pyfloat) (st : loop_state) : loop_state :=
  {| local := local st; next_index := next_index st; spent_usd := spent_usd st; pending := c; response := response st |}.
Definition with_local (l : list Message) (i : Z) (st : loop_state) : loop_state :=
  {| local := l; next_index := i; spent_usd := spent_usd st; pending := pending st; response := response st |}.

Definition _audit_unknown_budget_user (p : phase) : T unit := append (turn_row p "unknown_budget_user" zero).
Definition pre_check (slug : string) : T bool :=
  except is_budget
    (estimate <-- on_budget out (fun env => estimate_for env slug); on_budget out (fun env => would_exceed env slug (Finite estimate)))
    (fun e => (if is_unknown_user e then _audit_unknown_budget_user budget_pre_check else ret tt) ;;; raise e).
Definition provider_completion (i : Z) (ms : list Message) : T CompletionResponse :=
  except is_exception (complete out ms) (fun e => append (turn_row (provider_call i) "provider_failed" zero) ;;; raise e).
Definition charge (slug : string) (cost : pyfloat) : T string :=
  except is_budget (on_budget out (fun env => check_and_charge env slug cost) ;;; ret "success"%string)
    (fun e => if is_unknown_user e then _audit_unknown_budget_user budget_post_charge ;;; raise e else ret "budget_overrun"%string).
Definition charged (r : CompletionResponse) (st : loop_state) : loop_state :=
  {| local := local st; next_index := next_index st; spent_usd := fadd (spent_usd st) (cost_usd r); pending := cost_usd r; response := Some r |}.

(** What the calls of a completion do: the journal, then each dispatch in order. *)
Definition dispatch_calls (k : key) (i : Z) (calls : list ToolCall) (st : loop_state) : T (list Message) :=
  match tool_registry wi with
  | Some registry =>
      if gate_wired wi && dlp_wired wi then
        (if replay_journal wi then append_batch out k i (enumerate (next_index st) calls) else ret tt) ;;;
        each (fun x => _dispatch_and_wrap_tool_call k registry x.2 x.1) (enumerate (next_index st) calls)
      else raise RuntimeError
  | None => raise RuntimeError
  end.
(** [range(start, MAX_TOOL_ITERATIONS)], by the number of iterations left. *)
Fixpoint act_loop (left : nat) (k : key) (slug : string) (base : list Message) (st : loop_state) : T loop_exit :=
  match left with
  | O => ret (None, "success"%string, None, st)
  | S left' =>
      let i := MAX_TOOL_ITERATIONS - Z.of_nat left in
      over <-- pre_check slug;
      if over : bool
      then match response st with
           | None => append (turn_row budget_pre_check "budget_blocked" zero) ;;; raise PreCheckRefused
           | Some _ => ret (Some (t out budget_exhausted_mid_turn), "budget_blocked"%string, Some "budget_exhausted_mid_turn"%string, st)
           end
      else
      r <-- provider_completion i (base ++ local st);
      charge_result <-- charge slug (cost_usd r);
      let st := charged r st in
      if bool_decide (stop_reason r <> "tool_use"%string \/ tool_calls r = [])
      then ret (Some (content r), charge_result, None, st)
      else
      append (turn_row (provider_call i) charge_result (cost_usd r)) ;;;
      let st := with_pending zero st in
      if bool_decide (charge_result = "budget_overrun"%string)
      then ret (Some (t out budget_overrun_mid_turn), "budget_overrun"%string, Some "budget_overrun_mid_turn"%string, st)
      else if MAX_TOOL_CALLS_PER_ITERATION <? Zlen (tool_calls r)
      then ret (Some (t out too_many_tool_calls), "refused"%string, Some "too_many_tool_calls"%string, st)
      else if i =? MAX_TOOL_ITERATIONS - 1
      then ret (Some (t out max_iterations_reached), "refused"%string, Some "max_iterations_reached"%string, st)
      else
      results <-- dispatch_calls k i (tool_calls r) st;
      act_loop left' k slug base (with_local (local st ++ requesting (content r) (tool_calls r) :: results) (next_index st + Zlen (tool_calls r)) st)
  end.

(** ** A turn *)
Definition key_of (c : TurnEgressContext) : key := (adapter_id c, inbound_id c).
Definition _synthesize_egress_context (u : TurnInput) : TurnEgressContext :=
  {| adapter_id := "orchestrator.synthetic"; inbound_id := trace_id u; session_id := user u |}.
Definition context_of (u : TurnInput) : TurnEgressContext := default (_synthesize_egress_context u) (egress_context u).

Definition turn_messages (u : TurnInput) (history : list Turn) (thread_current_user_message : bool) : list Message :=
  message system (system_prompt out) :: ((fun x => message (t_role x) (t_content x)) <$> history) ++
  (if thread_current_user_message then [message TurnWorld.user (user_input_text u)] else []).
Definition outcome_of (x : loop_exit) : T _TurnOutcome :=
  let '(final_content, token, exit_reason, st) := x in
  match response st with
  | None => raise RuntimeError
  | Some r => ret {| answer := default (content r) final_content; final_response := r; final_result_token := token; final_exit_reason := exit_reason;
                     answer_from_provider := match exit_reason with None => true | Some _ => false end;
                     per_turn_spent_usd := spent_usd st; pending_completion_cost := pending st |}
  end.
Definition _orient_and_act (u : TurnInput) (thread_current_user_message : bool) : T _TurnOutcome :=
  history <-- turns;
  ff <-- _fast_forward_journalled_calls (key_of (context_of u)) (match egress_context u with Some _ => true | None => false end);
  let '(replayed, index, start_iteration) := ff in
  if MAX_TOOL_ITERATIONS <=? start_iteration then raise ReplayIterationCeilingError
  else
  x <-- act_loop (Z.to_nat (MAX_TOOL_ITERATIONS - start_iteration)) (key_of (context_of u)) (user u) (turn_messages u history thread_current_user_message)
          {| local := replayed; next_index := index; spent_usd := zero; pending := zero; response := None |};
  outcome_of x.

Definition gated (k : key) (g : gate) : T bool := if side_effect_ledger wi then try_apply out k g else ret true.
Definition _observe_user_turn (u : TurnInput) : T bool :=
  let k := key_of (context_of u) in
  applied <-- gated k user_turn;
  if applied : bool
  then record out (Some (k, user_turn)) {| e_user := user u; e_role := TurnWorld.user; e_content := user_input_text u; e_tier := user_input_tier u; e_cost := zero |} ;;; ret true
  else ret false.
Definition _persist_assistant_turn (u : TurnInput) (o : _TurnOutcome) : T bool :=
  let k := key_of (context_of u) in
  applied <-- gated k assistant_turn;
  if applied : bool
  then record out (Some (k, assistant_turn)) {| e_user := user u; e_role := assistant; e_content := answer o; e_tier := "T2";
         e_cost := if answer_from_provider o then cost_usd (final_response o) else zero |} ;;; ret true
  else ret false.
(** [_run_committed_phase]: a failed commit is audited, and goes up. *)
Definition swallowing (m : T unit) : T unit := except is_exception m (fun _ => ret tt).
Definition _run_committed_phase (name : string) (body : T bool) : T bool :=
  unflag (session_scope out body) (fun body_completed e =>
    (if body_completed && is_exception e then swallowing (append (turn_row (phase_commit name) "failed" zero)) else ret tt) ;;; raise e).
Definition _emit_turn_completed_row (o : _TurnOutcome) : T unit := append (turn_row completed (final_result_token o) (pending_completion_cost o)).
Definition _run_turn_phases (u : TurnInput) : T text :=
  user_turn_applied <-- _run_committed_phase "observe_user_turn" (_observe_user_turn u);
  (if user_turn_applied then remember TurnWorld.user (user_input_text u) else ret tt) ;;;
  outcome <-- _orient_and_act u (negb user_turn_applied);
  assistant_turn_applied <-- _run_committed_phase "persist_assistant_turn" (_persist_assistant_turn u outcome);
  (if assistant_turn_applied then remember assistant (answer outcome) else ret tt) ;;;
  _emit_turn_completed_row outcome ;;;
  ret (answer outcome).

(** [DeadlineWrapper.run]: the cancellation of an expired deadline becomes [TimeoutError]. *)
Definition within_deadline {A} (m : T A) : T A := catch m (fun e => raise (match e with CancelledError true => TimeoutError | e => e end)).
Definition handle_user_message (u : TurnInput) : T text :=
  catch (within_deadline (_run_turn_phases u)) (fun e =>
    match e with
    | TimeoutError =>
        append action_timeout_row ;;; await out (fun _ w => (Ok tt, w)) ;;;
        append (turn_row turn_timeout "cancelled" zero) ;;; raise (CancelledError false)
    | CancelledError _ => swallowing (append (turn_row turn_cancelled "cancelled" zero)) ;;; raise e
    | e => raise e
    end).
End turn.

(** Turns one after the other, whatever came of each; the working memory is what the pool
    hands out. *)
Fixpoint conversation (out : outside) (wi : wiring) (us : list (TurnInput * list Turn)) (w : world) : world :=
  match us with
  | [] => w
  | (u, m) :: us => conversation out wi us (handle_user_message out wi u (set_memory m w)).2
  end.

(** ** Rules *)
Section rules.
Variables (out : outside) (wi : wiring).
Lemma logs_each {A B} (f : A -> T B) l (P : list entry -> Prop) : P [] -> (forall l1 l2, P l1 -> P l2 -> P (l1 ++ l2)) ->
  (forall a, a ∈ l -> logs (f a) (fun _ => P)) -> logs (each f l) (fun _ => P).
Proof.
  intros H0 Happ. induction l as [|a l IH]; intros Hf; [by apply logs_ret|]. cbn. apply logs_bind.
  eapply logs_mono; [|apply Hf; constructor]. intros [b|e] l1 H1; [|done]. apply logs_bind.
  eapply logs_mono; [|apply IH; intros; apply Hf; by constructor]. intros [bs|e] l2 H2; [|by apply Happ]. apply logs_ret. rewrite app_nil_r. by apply Happ.
Qed.
Lemma logs_except {A} (p : exn -> bool) (m : T A) (h : exn -> T A) (Q : result exn A -> list entry -> Prop) :
  logs m (fun r l => match r with Ok a => Q (Ok a) l | Err e => if p e then logs (h e) (fun r' l' => Q r' (l ++ l')) else Q (Err e) l end) -> logs (except p m h) Q.
Proof.
  intros H. unfold except. apply logs_catch. eapply logs_mono; [|exact H]. intros [a|e] l; [done|]. intros HQ. destruct (p e); [done|]. apply logs_raise. by rewrite app_nil_r.
Qed.
(** A phase adds nothing to the log but the row of a failed commit. *)
Lemma logs_phase name (body : T bool) (Q : result exn bool -> list entry -> Prop) : logs body (fun _ l => l = []) ->
  (forall b, Q (Ok b) []) -> (forall e l, l ⊆ [Audited (turn_row (phase_commit name) "failed" zero); Unwritten (turn_row (phase_commit name) "failed" zero)] -> Q (Err e) l) ->
  logs (_run_committed_phase out name body) Q.
Proof.
  intros Hb H1 H2. unfold _run_committed_phase. apply logs_unflag, logs_closing, logs_bind.
  assert (Herr : forall e, Q (Err e) []) by (intros; apply H2; set_solver).
  assert (Hh : forall b e, logs ((if b && is_exception e then swallowing (append out (turn_row (phase_commit name) "failed" zero)) else ret tt) ;;; (raise e : T bool)) Q).
  { intros b e. apply logs_bind. destruct (b && is_exception e); [|by apply logs_ret, logs_raise].
    unfold swallowing. apply logs_except, logs_append.
    - apply logs_raise, H2. set_solver.
    - intros e'. destruct (is_exception e'); [apply logs_ret, logs_raise|]; apply H2; set_solver.
    - intros e'. destruct (is_exception e'); [apply logs_ret, logs_raise|]; apply H2; set_solver. }
  unfold undoing. apply logs_flagged, logs_catch. eapply logs_mono; [|exact Hb]. intros [b|e] l ->.
  - apply logs_bind, logs_flagged, logs_catch, logs_commit; [by apply logs_ret|]. intros e. apply logs_rollback. intros e'. apply Hh.
  - apply logs_rollback. intros e'. apply Hh.
Qed.
Lemma logs_gated k g (Q : result exn bool -> list entry -> Prop) : (forall b, Q (Ok b) []) -> (forall e, Q (Err e) []) -> logs (gated out wi k g) Q.
Proof. intros H1 H2. unfold gated. destruct (side_effect_ledger wi); [by apply logs_try_apply|by apply logs_ret]. Qed.
Lemma logs_observe u : logs (_observe_user_turn out wi u) (fun _ l => l = []).
Proof. apply logs_bind, logs_gated; [|done]. intros [|]; [|by apply logs_ret]. apply logs_bind, logs_record; [by apply logs_ret|done]. Qed.
Lemma logs_persist u o : logs (_persist_assistant_turn out wi u o) (fun _ l => l = []).
Proof. apply logs_bind, logs_gated; [|done]. intros [|]; [|by apply logs_ret]. apply logs_bind, logs_record; [by apply logs_ret|done]. Qed.
End rules.

(** ** The cost of the completions *)
Definition nonzero (c : pyfloat) : bool := match c with Finite q => negb (Qeq_bool q 0) | _ => true end.
Definition cost_on_row (x : entry) : option pyfloat := match x with Audited (turn_row _ _ c) => if nonzero c then Some c else None | _ => None end.
Definition cost_incurred (x : entry) : option pyfloat := match x with Completed r => if nonzero (cost_usd r) then Some (cost_usd r) else None | _ => None end.
Definition on_rows (l : list entry) : list pyfloat := omap cost_on_row l.
Definition incurred (l : list entry) : list pyfloat := omap cost_incurred l.
(** All is on the rows, but for some of the costs in [rest]. *)
Definition owing (rest : list pyfloat) (l : list entry) : Prop := incurred l = on_rows l ++ rest.
Definition pending_costs (c : pyfloat) : list pyfloat := if nonzero c then [c] else [].
(** The state of the accounts at the end of a computation. *)
Definition paid {A} (left_by : A -> list pyfloat) (r : result exn A) (l : list entry) : Prop :=
  match r with Ok a => owing (left_by a) l | Err _ => exists rest, owing rest l /\ (length rest <= 1)%nat end.
Definition free (x : entry) : Prop := cost_on_row x = None /\ cost_incurred x = None.
Definition silent (x : entry) : Prop := match x with Asked _ => False | _ => True end.
Definition aside (x : entry) : Prop := free x /\ silent x.
Ltac free_leaf := repeat match goal with |- _ /\ _ => split | |- forall _, _ => intro | |- Forall _ (_ ++ _) => apply Forall_app; split | |- Forall _ (_ :: _) => constructor | |- Forall _ [] => constructor end; try done.
Section costs.
Variables (out : outside) (wi : wiring).
Lemma owing_free l : Forall free l -> owing [] l.
Proof. unfold owing. induction 1 as [|x l [H1 H2] Hl IH]; [done|]. unfold incurred, on_rows in *. cbn. rewrite H1, H2. by rewrite IH. Qed.
Lemma owing_app rest l l' : owing [] l -> owing rest l' -> owing rest (l ++ l').
Proof. unfold owing, incurred, on_rows. intros H1 H2. rewrite !omap_app, H1, H2, app_nil_r. by rewrite app_assoc. Qed.
Lemma free_none l : Forall free l -> incurred l = [] /\ on_rows l = [].
Proof. unfold incurred, on_rows. induction 1 as [|x l [H1 H2] Hl [IH1 IH2]]; [done|]. cbn. by rewrite H1, H2, IH1, IH2. Qed.
Lemma owing_free_l rest l l' : Forall free l -> owing rest l' -> owing rest (l ++ l').
Proof. intros [H1 H2]%free_none. unfold owing, incurred, on_rows in *. by rewrite !omap_app, H1, H2. Qed.
Lemma owing_free_r rest l l' : owing rest l -> Forall free l' -> owing rest (l ++ l').
Proof. intros H [H1 H2]%free_none. unfold owing, incurred, on_rows in *. by rewrite !omap_app, H1, H2, !app_nil_r. Qed.
Lemma paid_free_l {A} (f : A -> list pyfloat) r l l' : Forall free l -> paid f r l' -> paid f r (l ++ l').
Proof. intros Hl. destruct r as [a|e]; cbn; [by apply owing_free_l|]. intros (rest&H&?). exists rest. split; [by apply owing_free_l|done]. Qed.
Lemma paid_app {A} (f : A -> list pyfloat) r l l' : owing [] l -> paid f r l' -> paid f r (l ++ l').
Proof. intros Hl. destruct r as [a|e]; cbn; [by apply owing_app|]. intros (rest&H&?). exists rest. split; [by apply owing_app|done]. Qed.
Lemma aside_free l : Forall aside l -> Forall free l.
Proof. intros H. eapply Forall_impl; [exact H|]. by intros x []. Qed.
Lemma aside_silent l : Forall aside l -> Forall silent l.
Proof. intros H. eapply Forall_impl; [exact H|]. by intros x []. Qed.
Lemma tool_entry_aside k i c x : tool_entry k i c x -> aside x.
Proof. destruct x as [[]|[]| | | | | |]; by cbn. Qed.
Lemma wrap_aside k registry call i : logs (_dispatch_and_wrap_tool_call out k registry call i) (fun _ => Forall aside).
Proof.
  apply logs_bind. eapply logs_any; [apply dispatch_tool_entries|]. intros [s|e] l Hl; [apply logs_ret; rewrite app_nil_r|]; (eapply Forall_impl; [exact Hl|apply tool_entry_aside]).
Qed.
Lemma wraps_aside {A} (f : A -> T Message) l : (forall a, logs (f a) (fun _ => Forall aside)) -> logs (each f l) (fun _ => Forall aside).
Proof. intros Hf. apply logs_each; [done|intros; by apply Forall_app|done]. Qed.
Lemma replay_aside k b : logs (_fast_forward_journalled_calls out wi k b) (fun _ => Forall aside).
Proof.
  unfold _fast_forward_journalled_calls. destruct (tool_registry wi) as [registry|]; [|by apply logs_ret]. destruct (negb b); [by apply logs_ret|]. destruct (negb _); [by apply logs_ret|].
  apply logs_bind, logs_read; [|done]. intros [|e l]; [by apply logs_ret|]. destruct (negb _); [by apply logs_raise|]. apply logs_bind.
  eapply logs_any; [apply (logs_each _ _ (Forall aside)); [done|intros; by apply Forall_app|]|].
  - intros g _. apply logs_bind. eapply logs_any; [apply wraps_aside; intros; apply wrap_aside|]. intros [ms|?] l' Hl; [apply logs_ret|]; free_leaf.
  - intros [ms|?] l' Hl; [apply logs_ret|]; free_leaf.
Qed.
Lemma dispatch_calls_aside k i calls st : logs (dispatch_calls out wi k i calls st) (fun _ => Forall aside).
Proof.
  unfold dispatch_calls. destruct (tool_registry wi) as [registry|]; [|by apply logs_raise]. destruct (_ && _); [|by apply logs_raise].
  apply logs_bind. destruct (replay_journal wi); [apply logs_append_batch; [|done]|apply logs_ret]; (eapply logs_any; [apply wraps_aside; intros; apply wrap_aside|]); free_leaf.
Qed.
Lemma pre_check_aside slug : logs (pre_check out slug) (fun _ => Forall aside).
Proof.
  unfold pre_check. apply logs_except, logs_bind, logs_on_budget.
  - intros q. apply logs_on_budget; [free_leaf|]. intros e. cbn. apply logs_bind. destruct e; cbn; try (by apply logs_ret, logs_raise). apply logs_append; [apply logs_raise|..]; free_leaf.
  - intros e. cbn. apply logs_bind. destruct e; cbn; try (by apply logs_ret, logs_raise). apply logs_append; [apply logs_raise|..]; free_leaf.
Qed.
Lemma charge_aside slug c : logs (charge out slug c) (fun _ => Forall aside).
Proof.
  unfold charge. apply logs_except, logs_bind, logs_on_budget; [intros; apply logs_ret; free_leaf|].
  intros e. destruct e; cbn; try (by apply logs_ret). apply logs_bind, logs_append; [apply logs_raise|..]; free_leaf.
Qed.
Lemma loop_paid left k slug base : forall st, pending st = zero ->
  logs (act_loop out wi left k slug base st) (paid (fun x : loop_exit => pending_costs (pending x.2))).
Proof.
  induction left as [|left IH]; intros st Hst; [apply logs_ret; cbn; by rewrite Hst|]. cbn [act_loop].
  apply logs_bind. eapply logs_any; [apply pre_check_aside|]. intros [over|e] l1 H1%aside_free; [|exists []; split; [by apply owing_free|cbn; lia]].
  destruct over.
  { destruct (response st).
    - apply logs_ret. cbn. rewrite Hst, app_nil_r. by apply owing_free.
    - apply logs_bind, logs_append; [apply logs_raise|..]; intros; exists []; (split; [apply owing_free; free_leaf|cbn; lia]). }
  apply logs_bind. unfold provider_completion. apply logs_except, logs_complete.
  2:{ intros e. destruct (is_exception e); [apply logs_bind, logs_append; [apply logs_raise|..]|]; intros; exists []; (split; [apply owing_free; free_leaf|cbn; lia]). }
  intros r. apply logs_bind. eapply logs_any; [apply charge_aside|]. intros [res|e] l2 H2%aside_free.
  2:{ exists (pending_costs (cost_usd r)). split; [|unfold pending_costs; destruct (nonzero _); cbn; lia].
      apply owing_free_l; [done|]. rewrite <- (app_nil_r (pending_costs _)). apply owing_free_r; [|done]. unfold owing, pending_costs. cbn. destruct (nonzero _); by rewrite ?app_nil_r. }
  set (l := [Asked (base ++ local st); Completed r]).
  assert (Hl : owing (pending_costs (cost_usd r)) (l1 ++ l ++ l2)).
  { apply owing_free_l; [done|]. apply owing_free_r; [|done]. unfold owing, pending_costs. cbn. by destruct (nonzero _). }
  case_bool_decide; [apply logs_ret; cbn; by rewrite !app_nil_r|].
  assert (Hrow : forall p res, owing [] (l1 ++ l ++ l2 ++ [Audited (turn_row p res (cost_usd r))])).
  { intros p res0. apply owing_free_l; [done|]. unfold owing, incurred, on_rows. rewrite !omap_app. destruct (free_none _ H2) as [E1 E2]. unfold incurred, on_rows in E1, E2. rewrite E1, E2. cbn. by destruct (nonzero _). }
  assert (Hun : forall x, owing (pending_costs (cost_usd r)) (l1 ++ l ++ l2 ++ [Unwritten x])).
  { intros x. rewrite !app_assoc. apply owing_free_r; [by rewrite <- !app_assoc|free_leaf]. }
  apply logs_bind, logs_append.
  2:{ intros e. exists (pending_costs (cost_usd r)). split; [apply Hun|]. unfold pending_costs; destruct (nonzero _); cbn; lia. }
  2:{ intros e. exists []. split; [|cbn; lia]. change [Audited ?a; Unwritten ?b] with ([Audited a] ++ [Unwritten b]). rewrite !app_assoc. apply owing_free_r; [by rewrite <- !app_assoc|free_leaf]. }
  case_bool_decide; [apply logs_ret, Hrow|]. destruct (_ <? _); [apply logs_ret, Hrow|].
  destruct (_ =? _); [apply logs_ret, Hrow|].
  apply logs_bind. eapply logs_any; [apply dispatch_calls_aside|]. intros [ms|e] l3 H3%aside_free.
  - eapply logs_mono; [|by apply IH]. intros r' l' Hr. rewrite !app_assoc. apply paid_app; [|done]. apply owing_free_r; [|done]. rewrite <- !app_assoc. apply Hrow.
  - exists []. split; [|cbn; lia]. rewrite !app_assoc. apply owing_free_r; [|done]. rewrite <- !app_assoc. apply Hrow.
Qed.
Lemma owing_short l : Forall free l -> forall e : exn, paid (A := text) (fun _ => []) (Err e) l.
Proof. intros Hl e. exists []. split; [by apply owing_free|cbn; lia]. Qed.
Lemma orient_paid u b : logs (_orient_and_act out wi u b) (paid (fun o => pending_costs (pending_completion_cost o))).
Proof.
  unfold _orient_and_act. apply logs_bind, logs_turns. intros history. apply logs_bind. eapply logs_any; [apply replay_aside|].
  intros [[[ms i] start]|e] l Hl%aside_free; [|exists []; split; [by apply owing_free|cbn; lia]]. destruct (_ <=? _); [apply logs_raise; exists []; rewrite app_nil_r; split; [by apply owing_free|cbn; lia]|].
  apply logs_bind. eapply logs_mono; [|by apply loop_paid]. intros [[[[c token] why] st]|e] l' H'.
  - cbn in H'. unfold outcome_of. destruct (response st) as [r|].
    + apply logs_ret. cbn. rewrite app_nil_r. by apply owing_free_l.
    + apply logs_raise. rewrite app_nil_r. exists (pending_costs (pending st)). split; [by apply (owing_free_l _ l)|]. unfold pending_costs. destruct (nonzero _); cbn; lia.
  - destruct H' as (rest&H&Hle). exists rest. split; [by apply (owing_free_l _ l)|done].
Qed.
Lemma phase_aside name body : logs body (fun _ l => l = []) -> logs (_run_committed_phase out name body) (fun _ => Forall aside).
Proof.
  intros H. apply logs_phase; [done|done|]. intros e l Hl. apply Forall_forall. intros x Hx. specialize (Hl x Hx). apply list_elem_of_In in Hx. set_unfold in Hl. by destruct Hl as [->|[->|[]]].
Qed.
Lemma phases_paid u : logs (_run_turn_phases out wi u) (paid (fun _ => [])).
Proof.
  unfold _run_turn_phases. apply logs_bind. eapply logs_any; [apply phase_aside, logs_observe|]. intros [b|e] l1 H1%aside_free; [|by apply owing_short].
  apply logs_bind. assert (Hm : logs (if b then remember TurnWorld.user (user_input_text u) else ret tt : T unit) (fun r l => r = Ok tt /\ l = [])) by (destruct b; [by apply logs_remember|by apply logs_ret]).
  eapply logs_mono; [|exact Hm]. intros r l [-> ->]. clear Hm. apply logs_bind. eapply logs_mono; [|apply orient_paid]. intros [o|e] l2 H2.
  2:{ destruct H2 as (rest&H&Hle). exists rest. split; [by apply (owing_free_l _ l1)|done]. }
  assert (Howed : forall l, Forall free l -> forall e : exn, paid (A := text) (fun _ => []) (Err e) (l1 ++ [] ++ l2 ++ l)).
  { intros l Hl e. exists (pending_costs (pending_completion_cost o)). split; [|unfold pending_costs; destruct (nonzero _); cbn; lia]. apply owing_free_l; [done|]. by apply (owing_free_r _ l2 l). }
  apply logs_bind. eapply logs_any; [apply phase_aside, logs_persist|]. intros [b'|e] l3 H3%aside_free; [|by apply Howed].
  apply logs_bind. assert (Hm : logs (if b' then remember assistant (answer o) else ret tt : T unit) (fun r l => r = Ok tt /\ l = [])) by (destruct b'; [by apply logs_remember|by apply logs_ret]).
  eapply logs_mono; [|exact Hm]. intros r l [-> ->]. clear Hm. apply logs_bind. unfold _emit_turn_completed_row.
  assert (Hrow : forall r x, incurred [x] = [] -> on_rows [x] = pending_costs (pending_completion_cost o) -> owing [] (l1 ++ [] ++ l2 ++ l3 ++ [] ++ [x] ++ r) <-> owing [] r).
  { intros r x Hx1 Hx2. destruct (free_none _ H1) as [A1 A2], (free_none _ H3) as [B1 B2]. cbn in H2. unfold owing, incurred, on_rows in *. rewrite !omap_app, A1, A2, B1, B2, H2, Hx1, Hx2. cbn.
    rewrite !app_nil_r, <- ?app_assoc. split; [intros H; apply app_inv_head in H; by apply app_inv_head in H|by intros ->]. }
  apply logs_append.
  - apply logs_ret. cbn [paid]. apply Hrow; [done| |done]. unfold on_rows, pending_costs. cbn. by destruct (nonzero _).
  - intros e. rewrite app_nil_l. apply (Howed (l3 ++ _)). apply Forall_app. split; [done|]. by repeat constructor.
  - intros e. exists []. split; [|cbn; lia]. change [Audited ?a; Unwritten ?b] with ([Audited a] ++ [Unwritten b]). apply Hrow; [done| |done]. unfold on_rows, pending_costs. cbn. by destruct (nonzero _).
Qed.
(** The handlers of a turn add nothing that counts. *)
Lemma logs_turn u (Q : result exn text -> list entry -> Prop) : logs (_run_turn_phases out wi u) Q ->
  (forall e e' l l', Q (Err e) l -> Forall aside l' -> Q (Err e') (l ++ l')) -> logs (handle_user_message out wi u) Q.
Proof.
  intros Hp Hq. unfold handle_user_message, within_deadline. apply logs_catch, logs_catch. eapply logs_mono; [|exact Hp]. intros [s|e] l Hl; [done|]. apply logs_raise. rewrite app_nil_r.
  assert (Hraise : forall e', logs (raise e' : T text) (fun r' l' => Q r' (l ++ l'))) by (intros; apply logs_raise, (Hq e); [done|constructor]).
  assert (Hc : logs (swallowing (append out (turn_row turn_cancelled "cancelled" zero)) ;;; raise (CancelledError false) : T text) (fun r' l' => Q r' (l ++ l'))).
  { apply logs_bind. unfold swallowing. apply logs_except, logs_append; [apply logs_raise, (Hq e); [done|free_leaf]|..];
    intros e'; (destruct (is_exception e'); [apply logs_ret, logs_raise|]; (apply (Hq e); [done|free_leaf])). }
  assert (Ht : logs (append out action_timeout_row ;;; await out (fun _ w => (Ok tt, w)) ;;; append out (turn_row turn_timeout "cancelled" zero) ;;; raise (CancelledError false) : T text) (fun r' l' => Q r' (l ++ l'))).
  { apply logs_bind, logs_append; [|intros; apply (Hq e); [done|free_leaf]..]. apply logs_bind, logs_await_quiet; [|intros; apply (Hq e); [done|free_leaf]].
    intros n w'. split; [done|]. apply logs_bind, logs_append; [apply logs_raise|..]; intros; (apply (Hq e); [done|free_leaf]). }
  destruct e; try apply Hraise; [destruct by_deadline; [exact Ht|exact Hc]|exact Ht].
Qed.
End costs.
(** C5: What a turn spends is on its rows.  When a turn returns, the non-zero costs on the audit
    rows it wrote are exactly those of the completions it received, in order; when it raises,
    at whatever point, at most the cost of the last completion is missing. *)
Theorem completion_costs_are_on_the_rows out wi u w :
  let '(r, w') := handle_user_message out wi u w in exists l rest, log w' = log w ++ l /\
    incurred l = on_rows l ++ rest /\ (length rest <= 1)%nat /\ (forall s, r = Ok s -> rest = []).
Proof.
  enough (H : logs (handle_user_message out wi u) (paid (fun _ => []))).
  { specialize (H w). destruct (handle_user_message out wi u w) as [r w']. destruct H as (l&E&H). destruct r as [s|e]; [by exists l, []; split_and!; [..|cbn; lia|done]|].
    destruct H as (rest&H&Hle). by exists l, rest. }
  apply logs_turn; [apply phases_paid|]. intros e e' l l' (rest&H&Hle) Hl'%aside_free. exists rest. split; [by apply owing_free_r|done].
Qed.

(** ** What the parts of a turn keep *)
Class StableDB (I : world -> Prop) : Prop := {
  stable_staged s w : I w -> I (set_staged s w);
  stable_db l e w : I w -> I (set_db l e w) }.
Section kept.
Context (out : outside) (wi : wiring) (I : world -> Prop) `{!Stable I} `{!Rely out I}.
Lemma keeps_each {A B} (f : A -> T B) l : (forall a, a ∈ l -> keeps I (f a)) -> keeps I (each f l).
Proof.
  induction l as [|a l IH]; intros Hf; [apply keeps_ret|]. cbn. apply keeps_bind; [apply Hf; constructor|]. intros b. apply keeps_bind; [apply IH; intros; apply Hf; by constructor|]. intros bs. apply keeps_ret.
Qed.
Lemma keeps_wrap k registry call i : (forall w, I w -> I (note (Called k i call) w)) -> keeps I (_dispatch_and_wrap_tool_call out k registry call i).
Proof. intros H. apply keeps_bind; [by apply keeps_dispatch_tool|]. intros s. apply keeps_ret. Qed.
Lemma keeps_swallowing m : keeps I m -> keeps I (swallowing m).
Proof. intros Hm. apply keeps_except; [done|]. intros e. apply keeps_ret. Qed.
Lemma keeps_pre_check slug : keeps I (pre_check out slug).
Proof. unfold pre_check, _audit_unknown_budget_user. repeat keeps_step. Qed.
Lemma keeps_provider i ms : keeps I (provider_completion out i ms).
Proof. unfold provider_completion. repeat keeps_step. Qed.
Lemma keeps_charge slug c : keeps I (charge out slug c).
Proof. unfold charge, _audit_unknown_budget_user. repeat keeps_step. Qed.
Lemma keeps_completed o : keeps I (_emit_turn_completed_row out o).
Proof. unfold _emit_turn_completed_row. repeat keeps_step. Qed.
Lemma keeps_outcome x : keeps I (outcome_of x).
Proof. unfold outcome_of. repeat keeps_step. Qed.
(** The replay, where what was read may be called; and the loop, where what was journalled
    may be. *)
Lemma keeps_replay k b :
  (forall registry, tool_registry wi = Some registry -> replay_journal wi = true -> hoare I (read out k) (fun r w => match r with
     | Ok es => exists J, Stable J /\ Rely out J /\ J w /\ (forall w, J w -> I w) /\ forall e w, e ∈ es -> J w -> J (note (Called k (call_index e) (tool_call e)) w)
     | Err _ => I w end)) ->
  keeps I (_fast_forward_journalled_calls out wi k b).
Proof.
  intros Hread. unfold _fast_forward_journalled_calls. destruct (tool_registry wi) as [registry|]; [|apply keeps_ret]. destruct (negb b); [apply keeps_ret|].
  destruct (replay_journal wi); [|apply keeps_ret]. cbn. intros w Hw. unfold bind. specialize (Hread registry eq_refl eq_refl w Hw). destruct (read out k w) as [[es|e] w']; [|done].
  destruct Hread as (J&HJ&HR&Hw'&HI&Hnote). cbn in Hw'. apply HI. destruct es as [|e es]; [done|]. destruct (negb _); [done|].
  match goal with |- J (match each ?f ?l w' with _ => _ end).2 => assert (H : keeps J (each f l)) end.
  2:{ specialize (H w' Hw'). by destruct (each _ _ w') as [[ms|x] w2]. }
  clear -HJ HR Hnote. set (all := e :: es) in *. clearbody all.
  assert (Hin : forall g x, g ∈ groupby (merge_sort entry_le all) -> x ∈ g.2 -> x ∈ all).
  { intros g x Hg Hx. assert (Hp : x ∈ merge_sort entry_le all); [|by rewrite merge_sort_Permutation in Hp]. revert g Hg Hx. generalize (merge_sort entry_le all). clear.
    induction l as [|y l IH]; intros g Hg Hx; cbn in Hg; [by apply elem_of_nil in Hg|]. destruct (groupby l) as [|[it h] gs] eqn:E.
    - apply list_elem_of_singleton in Hg as ->. apply list_elem_of_singleton in Hx as ->. constructor.
    - destruct (it =? iteration y); apply elem_of_cons in Hg as [->|Hg]; cbn in Hx.
      + apply elem_of_cons in Hx as [->|Hx]; [constructor|]. constructor. apply (IH (it, h)); [constructor|done].
      + constructor. apply (IH g); [by constructor|done].
      + apply list_elem_of_singleton in Hx as ->. constructor.
      + constructor. apply (IH g); [done|done]. }
  enough (H : forall l, (forall g, g ∈ l -> g ∈ groupby (merge_sort entry_le all)) -> keeps J (each (replay_group out k registry) l)) by (by apply H).
  induction l as [|g l IH]; intros Hl; [apply keeps_ret|]. cbn. apply keeps_bind; [|intros; apply keeps_bind; [apply IH; intros; apply Hl; by constructor|intros; apply keeps_ret]].
  assert (Hg : forall x, x ∈ g.2 -> x ∈ all) by (intros x; apply Hin, Hl; constructor). clear IH Hl.
  unfold replay_group. apply keeps_bind; [|intros; apply keeps_ret]. generalize dependent (g.2). intros xs Hxs.
  induction xs as [|x xs IH]; [apply keeps_ret|]. cbn. apply keeps_bind; [|intros; apply keeps_bind; [apply IH; intros; apply Hxs; by constructor|intros; apply keeps_ret]].
  apply keeps_bind; [|intros; apply keeps_ret]. apply keeps_dispatch_tool; [done|done|]. intros w. apply Hnote, Hxs. constructor.
Qed.
(** A turn keeps what its two phases and its middle keep. *)
Lemma keeps_turn_parts u : keeps I (_run_committed_phase out "observe_user_turn" (_observe_user_turn out wi u)) ->
  (forall o, keeps I (_run_committed_phase out "persist_assistant_turn" (_persist_assistant_turn out wi u o))) ->
  (forall b, keeps I (_orient_and_act out wi u b)) -> keeps I (handle_user_message out wi u).
Proof.
  intros Hobs Hper Ho. unfold handle_user_message, within_deadline. apply keeps_catch; [apply keeps_catch; [|intros; apply keeps_raise]|].
  - unfold _run_turn_phases. apply keeps_bind; [exact Hobs|]. intros b. apply keeps_bind; [destruct b; repeat keeps_step|]. intros _. apply keeps_bind; [apply Ho|]. intros o.
    apply keeps_bind; [apply Hper|]. intros b'. apply keeps_bind; [destruct b'; repeat keeps_step|]. intros _. apply keeps_bind; [apply keeps_completed|intros; apply keeps_ret].
  - intros e. assert (Hc : keeps I (swallowing (append out (turn_row turn_cancelled "cancelled" zero)))) by (by apply keeps_swallowing, keeps_append).
    destruct e; try apply keeps_raise; [apply keeps_bind; [done|intros; apply keeps_raise]|]. apply keeps_bind; [by apply keeps_append|]. intros _.
    apply keeps_bind; [apply keeps_await; [done|done|]; by intros n w|]. intros _. apply keeps_bind; [by apply keeps_append|intros; apply keeps_raise].
Qed.
Context `{!StableDB I}.
Lemma keeps_closing {E A} (m : M world E A) : keeps I m -> keeps I (closing m).
Proof. intros Hm w Hw. unfold closing. specialize (Hm w Hw). destruct (m w) as [r w']. by apply (stable_staged (I := I)). Qed.
Lemma keeps_rollback {A} (e : exn) : keeps I (rollback out e : T A).
Proof. destruct e; try apply keeps_raise; (apply keeps_bind; [apply keeps_await; [done|done|]; by intros n w|intros; apply keeps_raise]). Qed.
Lemma keeps_scope (body : T bool) : keeps I body -> keeps I (session_scope out body).
Proof.
  intros Hb. apply keeps_closing, keeps_bind; [apply keeps_flagged, keeps_catch; [done|intros; apply keeps_rollback]|]. intros b.
  apply keeps_bind; [|intros; apply keeps_ret]. apply keeps_flagged, keeps_catch; [|intros; apply keeps_rollback]. apply keeps_await; [done|done|]. intros n w Hw. by apply (stable_db (I := I)).
Qed.
Lemma keeps_phase name (body : T bool) : keeps I body -> keeps I (_run_committed_phase out name body).
Proof.
  intros Hb. apply keeps_unflag; [by apply keeps_scope|]. intros b e. apply keeps_bind; [|intros; apply keeps_raise]. destruct (b && is_exception e); [|apply keeps_ret]. by apply keeps_swallowing, keeps_append.
Qed.
Lemma keeps_gated k g : keeps I (gated out wi k g).
Proof. unfold gated. destruct (side_effect_ledger wi); [|apply keeps_ret]. apply keeps_await; [done|done|]. intros n w Hw. destruct (gate_of _ _); [done|]. by apply (stable_staged (I := I)). Qed.
Lemma keeps_record g e : keeps I (record out g e).
Proof. apply keeps_await; [done|done|]. intros n w Hw. by apply (stable_staged (I := I)). Qed.
Lemma keeps_observe u : keeps I (_observe_user_turn out wi u).
Proof. apply keeps_bind; [apply keeps_gated|]. intros []; [|apply keeps_ret]. apply keeps_bind; [apply keeps_record|intros; apply keeps_ret]. Qed.
Lemma keeps_persist u o : keeps I (_persist_assistant_turn out wi u o).
Proof. apply keeps_bind; [apply keeps_gated|]. intros []; [|apply keeps_ret]. apply keeps_bind; [apply keeps_record|intros; apply keeps_ret]. Qed.
Lemma keeps_turn u : (forall b, keeps I (_orient_and_act out wi u b)) -> keeps I (handle_user_message out wi u).
Proof. apply keeps_turn_parts; intros; apply keeps_phase; [apply keeps_observe|apply keeps_persist]. Qed.
End kept.
Section loop.
Context (out : outside) (wi : wiring) (I : world -> Prop) `{!Stable I} `{!Rely out I}.
(** The loop and the middle of a turn, whose iteration and next call index stay in a
    relation [ok]. *)
Variable ok : Z -> Z -> Prop.
Hypothesis ok_next : forall i n calls, ok i n -> (0 <= calls <= MAX_TOOL_CALLS_PER_ITERATION) -> ok (i + 1) (n + calls).
Variable k : key.
Hypothesis Hdispatch : forall i calls st, ok i (next_index st) -> i < MAX_TOOL_ITERATIONS - 1 -> Zlen calls <= MAX_TOOL_CALLS_PER_ITERATION -> keeps I (dispatch_calls out wi k i calls st).
Lemma keeps_loop_ok left slug base : forall st, ok (MAX_TOOL_ITERATIONS - Z.of_nat left) (next_index st) -> keeps I (act_loop out wi left k slug base st).
Proof.
  induction left as [|left IH]; intros st Hok; [apply keeps_ret|]. cbn [act_loop]. apply keeps_bind; [by apply keeps_pre_check|]. intros []; [repeat keeps_step|].
  apply keeps_bind; [by apply keeps_provider|]. intros r. apply keeps_bind; [by apply keeps_charge|]. intros res. case_bool_decide; [apply keeps_ret|].
  apply keeps_bind; [by apply keeps_append|]. intros _. case_bool_decide; [apply keeps_ret|]. destruct (_ <? _) eqn:Hn; [apply keeps_ret|]. apply Z.ltb_ge in Hn.
  destruct (_ =? _) eqn:Hi; [apply keeps_ret|]. apply Z.eqb_neq in Hi. apply keeps_bind; [apply Hdispatch; [done|unfold MAX_TOOL_ITERATIONS in *; lia|done]|]. intros ms. apply IH. cbn -[Zlen].
  replace (MAX_TOOL_ITERATIONS - Z.of_nat left) with (MAX_TOOL_ITERATIONS - Z.of_nat (S left) + 1) by lia. apply ok_next; [done|]. unfold Zlen in *. lia.
Qed.
Definition resumes (r : result exn (list Message * Z * Z)) : Prop := match r with Ok (_, n, i) => i < MAX_TOOL_ITERATIONS -> ok i n | Err _ => True end.
Lemma keeps_orient_ok u b : key_of (context_of u) = k ->
  hoare I (_fast_forward_journalled_calls out wi k (match egress_context u with Some _ => true | None => false end)) (fun r w => I w /\ resumes r) ->
  keeps I (_orient_and_act out wi u b).
Proof.
  intros Hk Hff. unfold _orient_and_act. rewrite Hk. apply keeps_bind; [apply keeps_turns|]. intros h. apply (keeps_hoare _ _ _ (fun x w => I w /\ resumes (Ok x))).
  { intros w Hw. specialize (Hff w Hw). destruct (_fast_forward_journalled_calls _ _ _ _ w) as [[x|e] w']; cbn in *; [done|by destruct Hff]. }
  intros [[ms n] i] w [Hw Hr]. destruct (_ <=? _) eqn:Hi; [done|]. apply Z.leb_gt in Hi. revert w Hw. apply keeps_bind; [|intros; apply keeps_outcome]. apply keeps_loop_ok. cbn.
  rewrite Z2Nat.id by lia. replace (_ - (_ - i)) with i by lia. by apply Hr.
Qed.
End loop.

(** ** Every dispatch is of a journalled call *)
Definition journalled (known : list journal_row) (w : world) : Prop :=
  NoDup (row_id <$> journal w) /\
  (forall k i c, Called k i c ∈ log w -> exists it, (k, {| call_index := i; iteration := it; tool_call := c |}) ∈ journal w) /\
  known ⊆ journal w.
Lemma insert_batch_Some rows j j' : insert_batch rows j = Some j' -> j' = j ++ rows /\ NoDup (row_id <$> j').
Proof. unfold insert_batch. case_bool_decide as H; [|done]. by intros [= <-]. Qed.
Lemma journalled_append known rows w j : insert_batch rows (journal w) = Some j -> journalled known w -> journalled (known ++ rows) (set_journal j w).
Proof.
  intros (->&Hn)%insert_batch_Some (_&Hc&Hk). split_and!; [done| |].
  - intros k i c (it&Hin)%Hc. exists it. cbn. set_solver.
  - cbn. set_solver.
Qed.
Lemma journalled_weaken known known' w : known' ⊆ known -> journalled known w -> journalled known' w.
Proof. intros H (?&?&?). split_and!; [done|done|set_solver]. Qed.
#[export] Instance journalled_stable known : Stable (journalled known).
Proof.
  split; try done. intros x w Hx (Hn&Hc&Hk). split_and!; [done| |done]. intros k i c [Hin|Hin]%elem_of_app; [by apply Hc|]. apply list_elem_of_singleton in Hin as <-. done.
Qed.
#[export] Instance journalled_rely out known : Rely out (journalled known).
Proof.
  apply rely_steps. intros _ [k it calls|k g e|b] w _ H; [| |done]; cbn.
  - destruct (insert_batch _ _) as [j|] eqn:E; [|done]. eapply journalled_weaken; [|by eapply journalled_append]. set_solver.
  - case_bool_decide; [done|]. by destruct (gate_of _ _).
Qed.
#[export] Instance journalled_db known : StableDB (journalled known).
Proof. by split. Qed.
Lemma journalled_call known k i it c w : (k, {| call_index := i; iteration := it; tool_call := c |}) ∈ known -> journalled known w -> journalled known (note (Called k i c) w).
Proof.
  intros Hin (Hn&Hc&Hk). split_and!; [done| |done]. intros k' i' c' [H|H]%elem_of_app; [by apply Hc|]. apply list_elem_of_singleton in H as [= -> -> ->]. exists it. by apply Hk.
Qed.
Lemma read_rows_in k j e : e ∈ read_rows k j -> (k, e) ∈ j.
Proof.
  unfold read_rows, rows_of. rewrite merge_sort_Permutation. intros ([k' e']&->&[Hk H]%list_elem_of_filter)%list_elem_of_fmap. cbn in *. by subst.
Qed.
Section consistency.
Context (out : outside) (wi : wiring) (Hj : replay_journal wi = true).
Lemma replay_journalled k b : keeps (journalled []) (_fast_forward_journalled_calls out wi k b).
Proof.
  apply keeps_replay. intros _ _ _ w Hw. unfold read. assert (Hin : keeps (journalled []) (fun w : world => (Ok (read_rows k (journal w)) : result exn _, w))) by (by intros ?).
  pose proof (keeps_read (journalled []) out k w Hw) as Hk. unfold read in Hk. destruct (await out _ w) as [[es|e] w'] eqn:E; [|done]. cbn in Hk |- *. clear Hin.
  assert (Hes : forall e, e ∈ es -> (k, e) ∈ journal w').
  { unfold await, ask in E. destruct (fate_of out (tick w)) as [|took e]; [|done]. injection E as <- <-. intros e. apply read_rows_in. }
  exists (journalled ((fun e => (k, e)) <$> es)). split_and!; [apply _|apply _| | |].
  - destruct Hk as (?&?&_). split_and!; [done|done|]. intros r (e&->&He)%list_elem_of_fmap. by apply Hes.
  - intros w2. apply journalled_weaken. set_solver.
  - intros e w2 He. apply (journalled_call _ _ _ (iteration e)). apply list_elem_of_fmap. exists e. split; [by destruct e|done].
Qed.
Lemma enumerate_batch {A} (l : list A) i x : x ∈ enumerate i l -> exists n, x.1 = i + Z.of_nat n.
Proof. revert i. induction l as [|a l IH]; intros i H; [by apply elem_of_nil in H|]. apply elem_of_cons in H as [->|H]; [exists 0%nat; cbn; lia|]. destruct (IH _ H) as [n ->]. exists (S n). lia. Qed.
Lemma append_batch_journalled k it calls : hoare (journalled []) (append_batch out k it calls) (fun r => match r with Ok _ => journalled (batch k it calls) | Err _ => journalled [] end).
Proof.
  intros w Hw. unfold append_batch. destruct calls as [|c calls]; [done|]. unfold await, ask.
  assert (Hw' : journalled [] (foldl foreign_step (set_tick (S (tick w)) w) (meanwhile out (tick w)))) by (apply (rely (I := journalled [])); done).
  assert (Hi : forall w, journalled [] w -> match insert_batch (batch k it (c :: calls)) (journal w) with Some j => journalled (batch k it (c :: calls)) (set_journal j w) | None => True end).
  { intros w2 H2. destruct (insert_batch _ _) as [j|] eqn:E; [|done]. by apply (journalled_append []). }
  destruct (fate_of out (tick w)) as [|[] e]; cbn.
  - specialize (Hi _ Hw'). by destruct (insert_batch _ _).
  - specialize (Hi _ Hw'). destruct (insert_batch _ _); [|done]. eapply journalled_weaken; [|exact Hi]. set_solver.
  - done.
Qed.
Lemma dispatch_calls_journalled k i calls st : keeps (journalled []) (dispatch_calls out wi k i calls st).
Proof.
  unfold dispatch_calls. destruct (tool_registry wi) as [registry|]; [|apply keeps_raise]. destruct (_ && _); [|apply keeps_raise]. rewrite Hj.
  apply (keeps_hoare _ _ _ (fun _ => journalled (batch k i (enumerate (next_index st) calls)))).
  { intros w Hw. pose proof (append_batch_journalled k i (enumerate (next_index st) calls) w Hw). by destruct (append_batch _ _ _ _ w) as [[?|?] ?]. }
  intros _ w Hw. cbn. apply (journalled_weaken (batch k i (enumerate (next_index st) calls))); [set_solver|].
  refine (keeps_each _ _ _ _ w Hw). intros [n c] Hx. apply keeps_wrap; [apply _|apply _|]. intros w'. apply (journalled_call _ _ _ i).
  unfold batch. apply list_elem_of_fmap. by exists (n, c).
Qed.
Lemma turn_journalled u : keeps (journalled []) (handle_user_message out wi u).
Proof.
  apply keeps_turn; [apply _..|]. intros b. apply (keeps_orient_ok _ _ _ (fun _ _ => True) ltac:(done) (key_of (context_of u))); [intros; apply dispatch_calls_journalled|done|].
  intros w Hw. split; [by apply replay_journalled|]. by destruct (_fast_forward_journalled_calls _ _ _ _ w) as [[[[? ?] ?]|?] ?].
Qed.
Lemma conversation_journalled us w : journalled [] w -> journalled [] (conversation out wi us w).
Proof. revert w. induction us as [|[u m] us IH]; intros w Hw; [done|]. apply IH. apply turn_journalled. by apply (stable_memory (I := journalled [])). Qed.
End consistency.
(** C2: A replayed turn repeats the calls it had decided on.  However many turns run, one after
    the other, on a world that starts empty, whatever fails, is cancelled or dies at whatever
    point, and whatever others write to the journal meanwhile: two dispatches of a tool for
    the same message under the same call index, and so under the same egress id, are of the
    same call with the same arguments, and that call is in the journal. *)
Theorem replays_repeat_the_journalled_calls out wi us w : replay_journal wi = true -> journal w = [] -> log w = [] ->
  let w' := conversation out wi us w in
  (forall k i c c', Called k i c ∈ log w' -> Called k i c' ∈ log w' -> c = c') /\
  forall k i c, Called k i c ∈ log w' -> exists it, (k, {| call_index := i; iteration := it; tool_call := c |}) ∈ journal w'.
Proof.
  intros Hj H1 H2 w'. destruct (conversation_journalled out wi Hj us w) as (Hn&Hc&_).
  { split_and!; [rewrite H1; constructor| |set_solver]. intros k i c Hin. rewrite H2 in Hin. by apply elem_of_nil in Hin. }
  split; [|exact Hc]. intros k i c c' (it&A)%Hc (it'&B)%Hc. apply list_elem_of_lookup in A as [m A], B as [n B].
  assert (m = n) as ->; [|by congruence]. apply (NoDup_lookup (row_id <$> journal w') m n (k, i)); [done|apply list_lookup_fmap_Some..].
  - by exists (k, {| call_index := i; iteration := it; tool_call := c |}).
  - by exists (k, {| call_index := i; iteration := it'; tool_call := c' |}).
Qed.

(** ** The side effects of a message happen once *)
(** An invariant that calls and the journal do not matter to. *)
Section indifferent.
Context (out : outside) (wi : wiring) (I : world -> Prop) `{!Stable I} `{!Rely out I}.
Hypothesis Hcall : forall k i c w, I w -> I (note (Called k i c) w).
Hypothesis Hjournal : forall j w, I w -> I (set_journal j w).
Lemma keeps_append_batch k it calls : keeps I (append_batch out k it calls).
Proof.
  unfold append_batch. destruct calls as [|c calls]; [apply keeps_raise|]. apply keeps_await; [done|done|]. intros n w Hw. destruct (insert_batch _ _); [by apply Hjournal|done].
Qed.
Lemma keeps_dispatch_calls k i calls st : keeps I (dispatch_calls out wi k i calls st).
Proof.
  unfold dispatch_calls. destruct (tool_registry wi) as [registry|]; [|apply keeps_raise]. destruct (_ && _); [|apply keeps_raise].
  apply keeps_bind; [destruct (replay_journal wi); [apply keeps_append_batch|apply keeps_ret]|]. intros _. apply keeps_each. intros x _. apply keeps_wrap; [done|done|]. intros w. apply Hcall.
Qed.
Lemma keeps_orient u b : keeps I (_orient_and_act out wi u b).
Proof.
  apply (keeps_orient_ok _ _ _ (fun _ _ => True) ltac:(done) (key_of (context_of u))); [intros; apply keeps_dispatch_calls|done|]. intros w Hw.
  split; [|by destruct (_fast_forward_journalled_calls _ _ _ _ w) as [[[[? ?] ?]|?] ?]]. revert w Hw. apply keeps_replay. intros _ _ _ w Hw.
  pose proof (keeps_read I out (key_of (context_of u)) w Hw) as H. destruct (read _ _ w) as [[es|e] w']; [|done].
  exists I. split; [done|]. split; [done|]. split; [done|]. split; [done|]. intros e w2 _. apply Hcall.
Qed.
End indifferent.

Definition written (k : key) (g : gate) (l : list write) : list write := filter (fun x => w_gate x = Some (k, g)) l.
Definition once (w : world) : Prop := forall k g, length (written k g (episodes w)) = if gate_of g (gates k w) then 1%nat else 0%nat.
(** Between phases; and in a transaction that holds the gate, with what it has staged. *)
Definition idle (w : world) : Prop := once w /\ staged w = ([], []).
Definition holding (k : key) (g : gate) (n : nat) (w : world) : Prop :=
  once w /\ gate_of g (gates k w) = false /\ exists es, staged w = ([(k, g)], es) /\ Forall (fun x => w_gate x = Some (k, g)) es /\ length es = n.
Lemma gate_mark k g k' g' l : gate_of g' (default (false, false) (mark (k, g) l !! k')) =
  if decide (k' = k /\ g' = g) then true else gate_of g' (default (false, false) (l !! k')).
Proof.
  unfold mark. cbn. destruct (decide (k = k')) as [<-|Hne].
  - rewrite lookup_insert_eq. cbn. destruct g, g'; cbn; destruct (decide _) as [[_ ?]|?]; try done; naive_solver.
  - rewrite lookup_insert_ne by done. rewrite decide_False by naive_solver. done.
Qed.
(** A gated write keeps the count right when its gate was open. *)
Lemma once_mark k g x w : once w -> gate_of g (gates k w) = false -> w_gate x = Some (k, g) -> once (set_db (mark (k, g) (ledger w)) (episodes w ++ [x]) w).
Proof.
  intros Ho Hg Hx k' g'. specialize (Ho k' g'). unfold written, gates in *. cbn -[mark]. rewrite filter_app, length_app, gate_mark, Ho. cbn -[mark].
  destruct (decide (w_gate x = Some (k', g'))) as [Heq|Hne].
  - rewrite Hx in Heq. injection Heq as <- <-. rewrite Hg. by rewrite decide_True by done.
  - rewrite (decide_False (P := k' = k /\ g' = g)) by (intros [-> ->]; done). cbn. by rewrite Nat.add_0_r.
Qed.
Lemma once_foreign f w : once w -> once (foreign_step w f).
Proof.
  intros Ho. destruct f as [k it calls|k g e|b]; cbn; [by destruct (insert_batch _ _)| |done]. case_bool_decide; [done|]. destruct (gate_of g (gates k w)) eqn:Hg; [done|]. by apply once_mark.
Qed.
Lemma foreign_staged f w : staged (foreign_step w f) = staged w.
Proof. destruct f; cbn; [by destruct (insert_batch _ _)| |done]. case_bool_decide; [done|]. by destruct (gate_of _ _). Qed.
#[export] Instance idle_stable : Stable idle.
Proof. by split. Qed.
#[export] Instance idle_rely out : Rely out idle.
Proof. apply rely_steps. intros _ f w _ [Ho Hs]. split; [by apply once_foreign|by rewrite foreign_staged]. Qed.
#[export] Instance holding_stable k g n : Stable (holding k g n).
Proof. by split. Qed.
#[export] Instance holding_rely out k g n : Rely out (holding k g n).
Proof.
  apply rely_steps. intros _ f w _ (Ho&Hg&es&Hs&Hes). split; [by apply once_foreign|]. split; [|exists es; by rewrite foreign_staged].
  destruct f as [k' it calls|k' g' e|b]; cbn -[mark]; [by destruct (insert_batch _ _)| |done]. rewrite Hs. cbn -[mark]. case_bool_decide as Hb; [done|]. destruct (gate_of g' (gates k' w)); [done|].
  unfold gates in *. cbn -[mark]. rewrite gate_mark. rewrite decide_False; [done|]. intros [-> _]. set_solver.
Qed.
#[export] Instance once_stable : Stable once.
Proof. by split. Qed.
#[export] Instance once_rely out : Rely out once.
Proof. apply rely_steps. intros _ f w _. apply once_foreign. Qed.
Lemma hoare_await {A} out (P : world -> Prop) (f : nat -> world -> result exn A * world) (Q : result exn A -> world -> Prop) : Stable P -> Rely out P ->
  (forall n w, P w -> Q (f n w).1 (f n w).2 /\ forall e, Q (Err e) (f n w).2) -> (forall e w, P w -> Q (Err e) w) -> hoare P (await out f) Q.
Proof.
  intros HP HR Hf He w Hw. unfold await, ask.
  assert (Hw' : P (foldl foreign_step (set_tick (S (tick w)) w) (meanwhile out (tick w)))) by (apply (rely (I := P)); by apply stable_tick).
  destruct (fate_of out (tick w)) as [|[] e]; cbn; [by apply Hf|by apply Hf|by apply He].
Qed.
Lemma hoare_bind {E A B} (P : world -> Prop) (m : M world E A) (k : A -> M world E B) (R : A -> world -> Prop) (Q : result E B -> world -> Prop) :
  hoare P m (fun r w => match r with Ok a => R a w | Err e => Q (Err e) w end) -> (forall a, hoare (R a) (k a) Q) -> hoare P (bind m k) Q.
Proof. intros Hm Hk w Hw. unfold bind. specialize (Hm w Hw). destruct (m w) as [[a|e] w']; [by apply (Hk a)|done]. Qed.
Section once_only.
Context (out : outside) (wi : wiring) (Hl : side_effect_ledger wi = true).
(** What the body of a phase leaves staged. *)
Definition staging (k : key) (g : gate) (r : result exn bool) (w : world) : Prop :=
  match r with Ok true => holding k g 1 w | Ok false => idle w | Err _ => once w end.
Lemma gated_stages k g : hoare idle (gated out wi k g) (fun r w => match r with Ok true => holding k g 0 w | Ok false => idle w | Err _ => once w end).
Proof.
  unfold gated. rewrite Hl. apply hoare_await; [apply _|apply _| |by intros ? ? []]. intros n w [Ho Hs]. destruct (gate_of g (gates k w)) eqn:Hg; cbn; [done|].
  split; [|done]. split; [done|]. split; [done|]. exists []. by rewrite Hs.
Qed.
Lemma record_stages k g e : hoare (holding k g 0) (record out (Some (k, g)) e) (fun r w => match r with Ok _ => holding k g 1 w | Err _ => once w end).
Proof.
  apply hoare_await; [apply _|apply _| |by intros ? ? []]. intros n w (Ho&Hg&es&Hs&_&He). destruct es; [|done]. rewrite Hs. split; [|done]. split; [done|]. split; [done|].
  eexists. split; [done|]. by repeat constructor.
Qed.
Lemma phase_body_stages k g e : hoare idle (b <-- gated out wi k g; if b : bool then record out (Some (k, g)) e ;;; ret true else ret false) (staging k g).
Proof.
  eapply hoare_bind; [exact (gated_stages k g)|]. intros []; [|by intros w]. eapply hoare_bind; [exact (record_stages k g e)|]. by intros [] w.
Qed.
Lemma commit_once k g (b : bool) : hoare (if b then holding k g 1 else idle) (commit out) (fun _ => once).
Proof.
  apply hoare_await; [destruct b; apply _|destruct b; apply _| |by destruct b; intros ? ? []]. intros n w H. enough (Ho : once (set_db (foldl (fun l x => mark x l) (ledger w) (staged w).1) (episodes w ++ (staged w).2) w)) by done.
  destruct b; [|destruct H as [Ho Hs]; rewrite Hs; intros k' g'; unfold written; rewrite app_nil_r; apply Ho].
  destruct H as (Ho&Hg&es&Hs&He&Hn). destruct es as [|x [|]]; try done. rewrite Hs. apply once_mark; [done|done|]. exact (Forall_inv He).
Qed.
Lemma keeps_rollback_any (I : world -> Prop) `{!Stable I} `{!Rely out I} {A} (e : exn) : keeps I (rollback out e : T A).
Proof. destruct e; try apply keeps_raise; (apply keeps_bind; [apply keeps_await; [done|done|]; by intros n w|intros; apply keeps_raise]). Qed.
Lemma undoing_once {A} (P : world -> Prop) (R : A -> world -> Prop) b (m : T A) : hoare P m (fun r w => match r with Ok a => R a w | Err _ => once w end) ->
  hoare P (undoing out b m) (fun r w => match r with Ok a => R a w | Err _ => once w end).
Proof.
  intros Hm w Hw. unfold undoing, flagged, catch. specialize (Hm w Hw). destruct (m w) as [[a|e] w']; [done|]. pose proof (keeps_rollback_any once e w' Hm (A := A)) as H.
  assert (Hr : exists e', (rollback out e w' : result exn A * world).1 = Err e').
  { unfold rollback, bind. destruct e; try (by eexists); destruct (await _ _ _) as [[[]|?] ?]; by eexists. }
  destruct Hr as [e' Hr]. destruct (rollback out e w') as [r w2]. cbn in Hr, H. by subst.
Qed.
Lemma scope_once k g (body : T bool) : hoare idle body (staging k g) -> keeps idle (session_scope out body).
Proof.
  intros Hb w Hw. unfold session_scope, closing.
  assert (H : once ((a <-- undoing out false body; undoing out true (commit out) ;;; ret a) w).2).
  { apply (hoare_bind idle _ _ (fun b => if b : bool then holding k g 1 else idle) (fun _ => once)); [| |done].
    - intros w' Hw'. pose proof (undoing_once idle (fun b => if b : bool then holding k g 1 else idle) false body) as Hu.
      assert (Hb' : hoare idle body (fun r w => match r with Ok b => (if b : bool then holding k g 1 else idle) w | Err _ => once w end)).
      { intros w2 H2. specialize (Hb w2 H2). by destruct (body w2) as [[[]|?] ?]. }
      specialize (Hu Hb' w' Hw'). by destruct (undoing out false body w') as [[[]|?] ?].
    - intros b. apply (hoare_bind _ _ _ (fun _ => once) (fun _ => once)); [|by intros [] w'].
      intros w' Hw'. pose proof (undoing_once (if b then holding k g 1 else idle) (fun _ : unit => once) true (commit out)) as Hu.
      assert (Hc : hoare (if b then holding k g 1 else idle) (commit out) (fun r w => match r with Ok _ => once w | Err _ => once w end)).
      { intros w2 H2. pose proof (commit_once k g b w2 H2) as H3. by destruct (commit out w2) as [[[]|?] ?]. }
      specialize (Hu Hc w' Hw'). by destruct (undoing out true (commit out) w') as [[[]|?] ?]. }
  destruct (bind _ _ w) as [r w']. by split.
Qed.
Lemma phase_once name k g e : keeps idle (_run_committed_phase out name (b <-- gated out wi k g; if b : bool then record out (Some (k, g)) e ;;; ret true else ret false)).
Proof.
  apply keeps_unflag; [eapply scope_once, phase_body_stages|]. intros b x. apply keeps_bind; [|intros; apply keeps_raise].
  destruct (b && is_exception x); [|apply keeps_ret]. apply keeps_swallowing, keeps_append; apply _.
Qed.
Lemma turn_once u : keeps idle (handle_user_message out wi u).
Proof. apply keeps_turn_parts; [apply _|apply _|apply phase_once|intros; apply phase_once|]. intros b. apply keeps_orient; [apply _|apply _|done|done]. Qed.
Lemma conversation_once us w : idle w -> idle (conversation out wi us w).
Proof. revert w. induction us as [|[u m] us IH]; intros w Hw; [done|]. apply IH, turn_once. by apply (stable_memory (I := idle)). Qed.
End once_only.
(** C1: The side effects of a message happen once.  With the ledger wired, after any turns of
    any messages, one after the other, from a world whose rows and gates agree, whatever
    fails, is cancelled, dies or commits without saying so, and with other writers of the same
    rows: for each message at most one episodic row was written for the user's turn and at
    most one for the reply, exactly when its gate is set; and no transaction is left open. *)
Theorem side_effects_happen_once out wi us w : side_effect_ledger wi = true -> ledger w = ∅ -> episodes w = [] -> staged w = ([], []) ->
  let w' := conversation out wi us w in
  staged w' = ([], []) /\ forall k g, length (written k g (episodes w')) = if gate_of g (gates k w') then 1%nat else 0%nat.
Proof.
  intros Hl H1 H2 H3 w'. destruct (conversation_once out wi Hl us w) as [Ho Hs]; [|done]. split; [|done]. intros k g. unfold gates. rewrite H1, H2, lookup_empty. by destruct g.
Qed.

(** ** The journal of a message is bounded *)
(** A row lies below the last iteration, and its index among those its iteration can reach. *)
Definition in_bounds (e : JournalEntry) : Prop :=
  0 <= iteration e < MAX_TOOL_ITERATIONS - 1 /\ 0 <= call_index e < MAX_TOOL_CALLS_PER_ITERATION * (iteration e + 1).
Definition bounded (w : world) : Prop := NoDup (row_id <$> journal w) /\ forall k e, (k, e) ∈ journal w -> in_bounds e.
(** What other runs of a turn write to the journal. *)
Definition others_in_bounds (out : outside) : Prop :=
  forall n k it calls i c, Appends k it calls ∈ meanwhile out n -> (i, c) ∈ calls -> in_bounds {| call_index := i; iteration := it; tool_call := c |}.
#[export] Instance bounded_stable : Stable bounded.
Proof. by split. Qed.
#[export] Instance bounded_db : StableDB bounded.
Proof. by split. Qed.
Lemma bounded_insert k it calls w : (forall i c, (i, c) ∈ calls -> in_bounds {| call_index := i; iteration := it; tool_call := c |}) -> bounded w ->
  match insert_batch (batch k it calls) (journal w) with Some j => bounded (set_journal j w) | None => True end.
Proof.
  intros Hc [_ Hb]. destruct (insert_batch _ _) as [j|] eqn:E; [|done]. apply insert_batch_Some in E as [-> Hn]. split; [done|].
  intros k' e [H|H]%elem_of_app; [by apply (Hb k')|]. apply list_elem_of_fmap in H as ([i c]&[= -> ->]&Hin). by apply Hc.
Qed.
Lemma zmax_bound {A} (f : A -> Z) d l b : d <= b -> (forall x, x ∈ l -> f x <= b) -> d <= zmax f d l <= b.
Proof.
  unfold zmax. revert d. induction l as [|x l IH]; intros d Hd Hl; cbn; [lia|]. assert (f x <= b) by (apply Hl; constructor).
  destruct (IH (Z.max d (f x))) as [? ?]; [lia|intros; apply Hl; by constructor|lia].
Qed.
Lemma zmax_ge {A} (f : A -> Z) d l x : x ∈ l -> f x <= zmax f d l.
Proof.
  unfold zmax. revert d. induction l as [|y l IH]; intros d Hx; [by apply elem_of_nil in Hx|]. cbn. apply elem_of_cons in Hx as [->|Hx]; [|by apply IH].
  enough (forall m, m <= foldl (fun m x => Z.max m (f x)) m l) as H by (specialize (H (Z.max d (f y))); lia). clear. induction l as [|z l IH]; intros m; cbn; [lia|]. specialize (IH (Z.max m (f z))). lia.
Qed.
Section bounded_journal.
Context (out : outside) (wi : wiring) (Hothers : others_in_bounds out).
#[local] Instance bounded_rely : Rely out bounded.
Proof.
  apply rely_steps. intros n [k it calls|k g e|b] w Hf Hw; [| |done]; cbn.
  - pose proof (bounded_insert k it calls w (fun i c => Hothers n k it calls i c Hf) Hw) as H. by destruct (insert_batch _ _).
  - case_bool_decide; [done|]. by destruct (gate_of _ _).
Qed.
(** Where iteration [i] of the loop is, and the call index it goes on from. *)
Definition on_course (i n : Z) : Prop := 0 <= i /\ 0 <= n <= MAX_TOOL_CALLS_PER_ITERATION * i.
Lemma on_course_next i n calls : on_course i n -> 0 <= calls <= MAX_TOOL_CALLS_PER_ITERATION -> on_course (i + 1) (n + calls).
Proof. unfold on_course, MAX_TOOL_CALLS_PER_ITERATION. lia. Qed.
Lemma enumerate_range {A} (l : list A) i x : x ∈ enumerate i l -> i <= x.1 < i + Zlen l.
Proof.
  revert i. induction l as [|a l IH]; intros i H; [by apply elem_of_nil in H|]. unfold Zlen in *. cbn [enumerate length] in *. apply elem_of_cons in H as [->|H]; [cbn; lia|].
  specialize (IH _ H). lia.
Qed.
Lemma dispatch_calls_bounded k i calls st : on_course i (next_index st) -> i < MAX_TOOL_ITERATIONS - 1 -> Zlen calls <= MAX_TOOL_CALLS_PER_ITERATION ->
  keeps bounded (dispatch_calls out wi k i calls st).
Proof.
  intros [H0 Hn] Hi Hc. unfold dispatch_calls. destruct (tool_registry wi) as [registry|]; [|apply keeps_raise]. destruct (_ && _); [|apply keeps_raise]. apply keeps_bind.
  - destruct (replay_journal wi); [|apply keeps_ret]. unfold append_batch. destruct calls as [|c calls]; [apply keeps_raise|]. apply keeps_await; [apply _..|]. intros n w Hw.
    pose proof (bounded_insert k i (enumerate (next_index st) (c :: calls)) w) as H. destruct (insert_batch _ _); [|done]. apply H; [|done].
    intros j x Hx%enumerate_range. unfold in_bounds, MAX_TOOL_ITERATIONS, MAX_TOOL_CALLS_PER_ITERATION in *. cbn [fst iteration call_index] in *. lia.
  - intros _. apply keeps_each. intros x _. by apply keeps_wrap; [apply _..|].
Qed.
Lemma replay_bounded k b : hoare bounded (_fast_forward_journalled_calls out wi k b) (fun r w => bounded w /\
  match r with Ok (_, n, i) => i < MAX_TOOL_ITERATIONS /\ on_course i n | Err _ => True end).
Proof.
  intros w Hw. split.
  { revert w Hw. apply keeps_replay; [apply _..|]. intros _ _ _ w Hw. pose proof (keeps_read bounded out k w Hw) as H. destruct (read _ _ w) as [[es|e] w']; [|done].
    exists bounded. by split_and!; [apply _|apply _|..]. }
  unfold _fast_forward_journalled_calls. destruct (tool_registry wi) as [registry|]; [|done]. destruct (negb b); [done|]. destruct (negb _); [done|].
  assert (Hread : hoare bounded (read out k) (fun r _ => match r with Ok es => forall e, e ∈ es -> in_bounds e | Err _ => True end)).
  { apply hoare_await; [apply _..| |done]. intros n w' [_ Hb]. split; [|done]. intros e He%read_rows_in. by apply Hb in He. }
  specialize (Hread w Hw). unfold bind. destruct (read out k w) as [[es|e] w']; [|done]. cbn in Hread. destruct es as [|e es]; [done|]. destruct (negb _); [done|].
  destruct (each _ _ w') as [[ls|x] w2]; [|done]. cbn [fst].
  assert (Hit : -1 <= zmax iteration (-1) (e :: es) <= MAX_TOOL_ITERATIONS - 2).
  { apply zmax_bound; [done|]. intros x [Hx _]%Hread. unfold MAX_TOOL_ITERATIONS in *. lia. }
  assert (Hidx : -1 <= zmax call_index (-1) (e :: es) <= MAX_TOOL_CALLS_PER_ITERATION * (zmax iteration (-1) (e :: es) + 1) - 1).
  { apply zmax_bound; [unfold MAX_TOOL_CALLS_PER_ITERATION; lia|]. intros x Hx. destruct (Hread x Hx) as [_ Hx2]. pose proof (zmax_ge iteration (-1) _ x Hx). unfold MAX_TOOL_CALLS_PER_ITERATION in *. lia. }
  change (zmax iteration (-1) (e :: es) + 1 < MAX_TOOL_ITERATIONS /\ on_course (zmax iteration (-1) (e :: es) + 1) (zmax call_index (-1) (e :: es) + 1)). unfold on_course, MAX_TOOL_ITERATIONS, MAX_TOOL_CALLS_PER_ITERATION in *. lia.
Qed.
Lemma conversation_bounded us w : bounded w -> bounded (conversation out wi us w).
Proof.
  revert w. induction us as [|[u m] us IH]; intros w Hw; [done|]. apply IH. cut (keeps bounded (handle_user_message out wi u)); [intros H; apply H; by apply (stable_memory (I := bounded))|].
  apply keeps_turn; [apply _..|]. intros b. apply (keeps_orient_ok _ _ _ on_course on_course_next (key_of (context_of u))); [apply dispatch_calls_bounded|done|].
  intros w' Hw'. destruct (replay_bounded (key_of (context_of u)) (match egress_context u with Some _ => true | None => false end) w' Hw') as [Hb Hr].
  destruct (_fast_forward_journalled_calls _ _ _ _ w') as [[[[ms n] i]|e] w2]; [|done]. split; [done|]. intros _. by destruct Hr.
Qed.
Lemma bounded_rows k w : bounded w -> Zlen (rows_of k (journal w)) <= MAX_TOOL_CALLS_PER_ITERATION * (MAX_TOOL_ITERATIONS - 1).
Proof.
  intros [Hn Hb]. assert (Hd : NoDup (call_index <$> rows_of k (journal w))).
  { clear Hb. induction (journal w) as [|[k' e] j IH]; [constructor|]. unfold rows_of in *. cbn in Hn. apply NoDup_cons in Hn as [Hx Hn]. rewrite filter_cons.
    case_decide as Hk0; cbn in Hk0; [subst k'|]; [|by apply IH]. rewrite !fmap_cons. constructor; [|by apply IH]. intros (e'&Hc&((k2&e2)&->&[Hk Hin]%list_elem_of_filter)%list_elem_of_fmap)%list_elem_of_fmap.
    apply Hx. cbn in *. subst k2. apply list_elem_of_fmap. exists (k, e2). split; [|done]. unfold row_id. cbn. by rewrite Hc. }
  assert (Hs : (call_index <$> rows_of k (journal w)) ⊆+ seqZ 0 (MAX_TOOL_CALLS_PER_ITERATION * (MAX_TOOL_ITERATIONS - 1))).
  { apply NoDup_submseteq; [done|]. intros i (e&->&((k2&e2)&->&[Hk Hin]%list_elem_of_filter)%list_elem_of_fmap)%list_elem_of_fmap. apply Hb in Hin. apply elem_of_seqZ.
    unfold in_bounds, MAX_TOOL_CALLS_PER_ITERATION, MAX_TOOL_ITERATIONS in *. cbn. lia. }
  apply submseteq_length in Hs. rewrite length_fmap, length_seqZ in Hs. unfold Zlen. unfold MAX_TOOL_CALLS_PER_ITERATION, MAX_TOOL_ITERATIONS in *. lia.
Qed.
End bounded_journal.
(** C6: The tool calls of a message are bounded over all its replays.  However many turns run
    from an empty journal, and with other runs that keep to the same bounds, a message has at
    most 56 rows in the journal; and whatever the replay of its prefix returns, the loop
    resumes below the ceiling, at a call index it could have reached, so that the turn never
    ends on its replay ceiling. *)
Theorem journal_of_a_message_is_bounded out wi us w : others_in_bounds out -> journal w = [] ->
  let w' := conversation out wi us w in
  (forall k, Zlen (rows_of k (journal w')) <= 56) /\
  forall k forwarded, match (_fast_forward_journalled_calls out wi k forwarded w').1 with
    | Ok (_, index, start) => 0 <= start < MAX_TOOL_ITERATIONS /\ 0 <= index <= MAX_TOOL_CALLS_PER_ITERATION * start
    | Err _ => True
    end.
Proof.
  intros Ho Hj w'. assert (Hb : bounded w') by (apply conversation_bounded; [done|]; split; rewrite Hj; [constructor|by intros k e H%elem_of_nil]).
  split; [intros k; by apply bounded_rows|]. intros k b. destruct (replay_bounded out wi Ho k b w' Hb) as [_ H].
  destruct (_fast_forward_journalled_calls _ _ _ _ _) as [[[[? ?] ?]|?] ?]; [|done]. cbn in *. unfold on_course in H. lia.
Qed.

(** ** What the planner is shown of the tools *)
Section prompts.
Variables (out : outside) (wi : wiring).
(** A message with the id of a call carries a notice of the catalogue, or a text the outbound
    scan let through and that was extracted and downgraded where the tool is external; cut to
    the limit. *)
Definition vetted (l : list entry) (m : Message) : Prop := forall cid, tool_call_id m = Some cid -> exists s, m_content m = _truncate_tool_result s /\
  ((exists x, s = t out x) \/ exists registry name spec, tool_registry wi = Some registry /\ registry_get name registry = Some spec /\
     scanned out (match kind spec with ExternalToolSpec => true | InternalToolSpec => false end) s l).
Definition prompts (pre l : list entry) : Prop := forall l1 ms l2, l = l1 ++ Asked ms :: l2 -> Forall (vetted (pre ++ l1)) ms.
Lemma scanned_mono external s l l' : l ⊆ l' -> scanned out external s l -> scanned out external s l'.
Proof. intros Hl (x&Hx&He). exists x. split; [set_solver|]. intros H. destruct (He H) as (d&?&?&?). exists d. split; [done|]. set_solver. Qed.
Lemma vetted_mono l l' m : l ⊆ l' -> vetted l m -> vetted l' m.
Proof.
  intros Hl Hm cid Hc. destruct (Hm cid Hc) as (s&Hs&[Hn|(rs&n&sp&H1&H2&H3)]); exists s; (split; [done|]); [by left|right].
  exists rs, n, sp. split; [done|]. split; [done|]. by apply (scanned_mono _ _ l).
Qed.
Lemma all_vetted_mono l l' ms : l ⊆ l' -> Forall (vetted l) ms -> Forall (vetted l') ms.
Proof. intros Hl H. eapply Forall_impl; [exact H|]. intros m. by apply vetted_mono. Qed.
Lemma prompts_mono pre pre' l : pre ⊆ pre' -> prompts pre l -> prompts pre' l.
Proof. intros Hp H l1 ms l2 Hl. eapply all_vetted_mono; [|by eapply H]. set_solver. Qed.
Lemma prompts_app pre l l' : prompts pre l -> prompts (pre ++ l) l' -> prompts pre (l ++ l').
Proof.
  intros H H' l1 ms l2 E. apply app_eq_app in E as (l3&[[-> E]|[-> E]]).
  - destruct l3 as [|x l3]; cbn in E.
    + pose proof (H' [] ms l2 (eq_sym E)) as Hms. by rewrite !app_nil_r in *.
    + injection E as <- ->. by apply (H l1 ms l3).
  - rewrite app_assoc. by apply (H' l3 ms l2).
Qed.
Lemma prompts_silent pre l : Forall silent l -> prompts pre l.
Proof. intros H l1 ms l2 ->. apply Forall_app in H as [_ H]. by apply Forall_cons in H as [[] _]. Qed.
Lemma prompts_ask pre ms : Forall (vetted pre) ms -> prompts pre [Asked ms].
Proof. intros H l1 ms' l2 E. destruct l1 as [|y l1]; [|by destruct l1]. injection E as -> _. by rewrite app_nil_r. Qed.
Lemma no_id_vetted l ms : Forall (fun m => tool_call_id m = None) ms -> Forall (vetted l) ms.
Proof. intros H. eapply Forall_impl; [exact H|]. intros m Hm cid Hc. congruence. Qed.
(** Results that are vetted by what was logged on the way. *)
Definition vets {A} (f : A -> list Message) (r : result exn A) (l : list entry) : Prop := match r with Ok a => Forall (vetted l) (f a) | Err _ => True end.
Lemma wrap_vets k registry call i : tool_registry wi = Some registry -> logs (_dispatch_and_wrap_tool_call out k registry call i) (vets (fun m => [m])).
Proof.
  intros Hr. apply logs_bind. eapply logs_mono; [|apply dispatch_tool_clears]. intros [s|e] l [_ H]; [|done]. apply logs_ret. rewrite app_nil_r. apply Forall_singleton.
  intros cid _. exists s. split; [done|]. destruct H as [H|(spec&H1&H2)]; [by left|right]. by exists registry, (call_name call), spec.
Qed.
Lemma each_vets {A B} (f : A -> T B) (g : B -> list Message) l : (forall a, logs (f a) (vets g)) -> logs (each f l) (vets (fun bs => concat (map g bs))).
Proof.
  intros Hf. induction l as [|a l IH]; [apply logs_ret; constructor|]. cbn [each]. apply logs_bind. eapply logs_mono; [|apply Hf]. intros [b|e] l1 H1; [|done]. apply logs_bind.
  eapply logs_mono; [|exact IH]. intros [bs|e] l2 H2; [|done]. apply logs_ret. rewrite app_nil_r. cbn. apply Forall_app.
  split; [by apply (all_vetted_mono l1); [set_solver|]|by apply (all_vetted_mono l2); [set_solver|]].
Qed.
Lemma concat_singles {A} (l : list A) : concat (map (fun m => [m]) l) = l.
Proof. induction l as [|a l IH]; [done|]. cbn. by rewrite IH. Qed.
Lemma wraps_vet {A} k registry (f : A -> ToolCall * Z) l : tool_registry wi = Some registry ->
  logs (each (fun a => _dispatch_and_wrap_tool_call out k registry (f a).1 (f a).2) l) (vets (fun ms => ms)).
Proof.
  intros Hr. eapply logs_mono; [|apply (each_vets _ (fun m => [m])); intros; by apply wrap_vets]. intros [ms|e] l' H; [|done]. cbn in *. by rewrite concat_singles in H.
Qed.
Lemma dispatch_calls_vet k i calls st : logs (dispatch_calls out wi k i calls st) (vets (fun ms => ms)).
Proof.
  unfold dispatch_calls. destruct (tool_registry wi) as [registry|] eqn:Hr; [|by apply logs_raise]. destruct (_ && _); [|by apply logs_raise].
  apply logs_bind. assert (H : logs (each (fun x => _dispatch_and_wrap_tool_call out k registry x.2 x.1) (enumerate (next_index st) calls)) (fun r l => vets (fun ms => ms) r ([] ++ l))).
  { by apply (wraps_vet k registry (fun x : Z * ToolCall => (x.2, x.1))). }
  destruct (replay_journal wi); [apply logs_append_batch; [exact H|done]|apply logs_ret; exact H].
Qed.
Lemma replay_vets k b : logs (_fast_forward_journalled_calls out wi k b) (vets (fun x => x.1.1)).
Proof.
  unfold _fast_forward_journalled_calls. destruct (tool_registry wi) as [registry|] eqn:Hr; [|apply logs_ret; constructor]. destruct (negb b); [apply logs_ret; constructor|].
  destruct (negb _); [apply logs_ret; constructor|]. apply logs_bind, logs_read; [|done]. intros [|e es]; [apply logs_ret; constructor|]. destruct (negb _); [by apply logs_raise|].
  apply logs_bind. eapply logs_mono; [|apply (each_vets _ (fun ms => ms))].
  - intros [ls|x] l H; [|done]. apply logs_ret. cbn in *. rewrite app_nil_r. by rewrite map_id in H.
  - intros g. unfold replay_group. apply logs_bind. eapply logs_mono; [|by apply (wraps_vet k registry (fun e => (tool_call e, call_index e)))].
    intros [ms|x] l H; [|done]. apply logs_ret. rewrite app_nil_r. constructor; [by intros cid|done].
Qed.
Lemma silent_then pre l l' : Forall silent l -> prompts (pre ++ l) l' -> prompts pre (l ++ l').
Proof. intros H. apply prompts_app. by apply prompts_silent. Qed.
Lemma then_silent pre l l' : prompts pre l -> Forall silent l' -> prompts pre (l ++ l').
Proof. intros H H'. apply prompts_app; [done|by apply prompts_silent]. Qed.
Ltac quiet := intros; apply prompts_silent; free_leaf.
Lemma loop_prompts left k slug base : Forall (fun m => tool_call_id m = None) base -> forall st pre, Forall (vetted pre) (local st) ->
  logs (act_loop out wi left k slug base st) (fun _ => prompts pre).
Proof.
  intros Hb. induction left as [|left IH]; intros st pre Hst; [apply logs_ret; quiet|]. cbn [act_loop].
  apply logs_bind. eapply logs_any; [apply pre_check_aside|]. intros [over|e] l1 H1%aside_silent; [|quiet]. destruct over.
  { destruct (response st); [apply logs_ret; quiet|]. apply logs_bind, logs_append; [apply logs_raise|..]; quiet. }
  assert (Hask : forall l, Forall silent l -> prompts pre (l1 ++ [Asked (base ++ local st)] ++ l)).
  { intros l Hl. apply silent_then; [done|]. apply then_silent; [|done]. apply prompts_ask, Forall_app. split; [by apply no_id_vetted|]. by apply (all_vetted_mono pre); [set_solver|]. }
  apply logs_bind. unfold provider_completion. apply logs_except, logs_complete.
  2:{ intros e. destruct (is_exception e); [apply logs_bind, logs_append; [apply logs_raise|..]|]; intros; apply Hask; free_leaf. }
  intros r. apply logs_bind. eapply logs_any; [apply charge_aside|]. intros res l2 H2%aside_silent.
  destruct res as [res|e]; [|apply (Hask (Completed r :: l2)); free_leaf].
  assert (Hend : forall l, Forall silent l -> prompts pre (l1 ++ [Asked (base ++ local st); Completed r] ++ l2 ++ l)) by (intros l Hl; apply (Hask (Completed r :: l2 ++ l)); free_leaf).
  case_bool_decide; [apply logs_ret, Hend; free_leaf|]. apply logs_bind, logs_append; [|intros; apply Hend; free_leaf..].
  case_bool_decide; [apply logs_ret, Hend; free_leaf|]. destruct (_ <? _); [apply logs_ret, Hend; free_leaf|]. destruct (_ =? _); [apply logs_ret, Hend; free_leaf|].
  apply logs_bind. eapply logs_mono; [|apply (logs_and _ _ _ (dispatch_calls_aside _ _ _ _ _ _) (dispatch_calls_vet _ _ _ _))]. intros [ms|e] l3 [H3%aside_silent Hv]; [|apply Hend; free_leaf].
  set (l := l1 ++ [Asked (base ++ local st); Completed r] ++ l2 ++ [Audited (turn_row (provider_call (MAX_TOOL_ITERATIONS - Z.of_nat (S left))) res (cost_usd r))]).
  eapply logs_mono; [|eapply (IH _ ((pre ++ l) ++ l3))].
  - intros r' l' Hl'. match goal with |- prompts _ ?g => replace g with ((l ++ l3) ++ l') by (unfold l; by rewrite <- !app_assoc) end.
    apply prompts_app; [unfold l; rewrite <- !app_assoc; apply Hend; free_leaf|]. by rewrite app_assoc.
  - apply Forall_app. split; [by apply (all_vetted_mono pre); [set_solver|]|]. constructor; [by intros cid|]. by apply (all_vetted_mono l3); [set_solver|].
Qed.
Lemma no_ids u h b : Forall (fun m => tool_call_id m = None) (turn_messages out u h b).
Proof. constructor; [done|]. apply Forall_app. split; [|destruct b; repeat constructor]. apply Forall_forall. by intros m (x&->&_)%list_elem_of_fmap. Qed.
Lemma orient_prompts u b pre : logs (_orient_and_act out wi u b) (fun _ => prompts pre).
Proof.
  unfold _orient_and_act. apply logs_bind, logs_turns. intros h. apply logs_bind. eapply logs_mono; [|apply (logs_and _ _ _ (replay_aside _ _ _ _) (replay_vets _ _))].
  intros [[[ms i] start]|e] l [Hl%aside_silent Hv]; [|quiet]. destruct (_ <=? _); [apply logs_raise; quiet|]. apply logs_bind.
  assert (Hms : Forall (vetted (pre ++ l)) ms) by (by apply (all_vetted_mono l); [set_solver|]).
  eapply logs_mono; [|apply (loop_prompts _ _ _ _ (no_ids u h b) _ (pre ++ l)); exact Hms].
  assert (Hp : forall l', prompts (pre ++ l) l' -> prompts pre ([] ++ l ++ l')) by (intros l'; exact (silent_then pre l l' Hl)).
  intros [x|e'] l' H'; [|by apply Hp]. unfold outcome_of. destruct x as [[[c token] why] st].
  destruct (response st); [apply logs_ret|apply logs_raise]; rewrite app_nil_r; by apply Hp.
Qed.
Lemma phases_prompts u : logs (_run_turn_phases out wi u) (fun _ => prompts []).
Proof.
  unfold _run_turn_phases. apply logs_bind. eapply logs_any; [apply phase_aside, logs_observe|]. intros [b|e] l1 H1%aside_silent; [|quiet].
  apply logs_bind. eapply logs_mono with (Q := fun _ l => l = []); [|destruct b; [by apply logs_remember|by apply logs_ret]]. intros [[]|e] l ->; [|quiet]. cbn [app].
  apply logs_bind. eapply logs_mono; [|apply (orient_prompts u (negb b) l1)]. intros r l2 H2.
  assert (Hend : forall l, Forall silent l -> prompts [] (l1 ++ l2 ++ l)) by (intros l Hl; apply silent_then; [done|]; by apply then_silent).
  destruct r as [o|e]; [|specialize (Hend [] ltac:(constructor)); by rewrite app_nil_r in Hend].
  apply logs_bind. eapply logs_any; [apply phase_aside, logs_persist|]. intros [b'|e] l3 H3%aside_silent; [|by apply Hend].
  apply logs_bind. eapply logs_mono with (Q := fun _ l => l = []); [|destruct b'; [by apply logs_remember|by apply logs_ret]]. intros [[]|e] l ->; [|apply Hend; free_leaf].
  apply logs_bind, logs_append; [apply logs_ret|..]; intros; apply Hend; free_leaf.
Qed.
End prompts.

(** ** A turn that dies and is replayed *)
Import Concrete.
Definition fully_wired : wiring := {| tool_registry := Some [clock]; gate_wired := true; dlp_wired := true; side_effect_ledger := true; replay_journal := true |}.
Definition hello : TurnInput := {| user := "ada"; trace_id := "t"; user_input_text := [104%N; 105%N]; user_input_tier := "T1";
  egress_context := Some {| adapter_id := "a"; inbound_id := "m"; session_id := "ada" |} |}.
(** The process dies while it waits for the completion that follows the tool's result. *)
Definition dies_once : outside := goes (fun n => if (n =? 16)%nat then Fails true Killed else Goes) (fun n => if (n <? 10)%nat then reply [now_call] else reply []).
Definition told_twice : list (TurnInput * list Turn) := [(hello, []); (hello, [])].
Lemma replays_repeat_the_journalled_calls_witness : let w' := conversation dies_once fully_wired told_twice start in
  called (log w') = [(("a", "m")%string, 0, now_call); (("a", "m")%string, 0, now_call)] /\
  (forall k i c c', Called k i c ∈ log w' -> Called k i c' ∈ log w' -> c = c') /\
  forall k i c, Called k i c ∈ log w' -> exists it, (k, {| call_index := i; iteration := it; tool_call := c |}) ∈ journal w'.
Proof. split; [vm_compute; reflexivity|]. exact (replays_repeat_the_journalled_calls dies_once fully_wired told_twice start eq_refl eq_refl eq_refl). Defined.
Lemma side_effects_happen_once_witness : let w' := conversation dies_once fully_wired told_twice start in
  map w_gate (episodes w') = [Some (("a", "m")%string, user_turn); Some (("a", "m")%string, assistant_turn)] /\
  staged w' = ([], []) /\ forall k g, length (written k g (episodes w')) = if gate_of g (gates k w') then 1%nat else 0%nat.
Proof. split; [vm_compute; reflexivity|]. exact (side_effects_happen_once dies_once fully_wired told_twice start eq_refl eq_refl eq_refl eq_refl). Defined.
Lemma journal_of_a_message_is_bounded_witness : let w' := conversation dies_once fully_wired told_twice start in
  Zlen (journal w') = 1 /\ (forall k, Zlen (rows_of k (journal w')) <= 56) /\
  forall k forwarded, match (_fast_forward_journalled_calls dies_once fully_wired k forwarded w').1 with
    | Ok (_, index, start) => 0 <= start < MAX_TOOL_ITERATIONS /\ 0 <= index <= MAX_TOOL_CALLS_PER_ITERATION * start
    | Err _ => True
    end.
Proof.
  split; [vm_compute; reflexivity|]. refine (journal_of_a_message_is_bounded dies_once fully_wired told_twice start _ eq_refl).
  intros n k it calls i c H. exfalso. exact (proj1 (elem_of_nil _) H).
Defined.
