(* ===== verification/Programs.v ===== *)
(** * Programs over their collaborators

    A coroutine that mostly calls others ([dispatch_web_fetch], [QuarantinedExtractor.extract],
    [dispatch_extraction]) is a tree of the calls it makes: [Perform] makes one and goes on by
    what it answers or raises.  [execute] runs one against an environment, which may answer
    anything; [wp] is the rule that holds of every environment.  [E] are the exceptions a
    program tells apart, [O] the calls it makes. *)
From S2P Require Import Prelude.

Inductive program (E : Type) (O : Type -> Type) (A : Type) : Type :=
| Return (r : result E A)
| Perform {B : Type} (o : O B) (k : result E B -> program E O A).
Arguments Return {E O A} r.
Arguments Perform {E O A B} o k.
(** One call, with what it answered. *)
Inductive entry (E : Type) (O : Type -> Type) : Type := | Ev {B : Type} (o : O B) (r : result E B).
Arguments Ev {E O B} o r.

Section programs.
Context {exn : Type} {op : Type -> Type}.
#[local] Abbreviation prog := (program exn op).
#[local] Abbreviation event := (entry exn op).
Fixpoint seq {A B} (p : prog A) (k : result exn A -> prog B) : prog B :=
  match p with Return r => k r | Perform o c => Perform o (fun r => seq (c r) k) end.
Definition ret {A} (a : A) : prog A := Return (Ok a).
Definition raise {A} (e : exn) : prog A := Return (Err e).
Definition call {A} (o : op A) : prog A := Perform o Return.
Definition bind {A B} (p : prog A) (k : A -> prog B) : prog B := seq p (fun r => match r with Ok a => k a | Err e => raise e end).
Definition except {A} (c : exn -> bool) (p : prog A) (h : exn -> prog A) : prog A :=
  seq p (fun r => match r with Err e => if c e then h e else raise e | Ok a => ret a end).
(** [try: p finally: h] *)
Definition finally {A} (p : prog A) (h : prog unit) : prog A := seq p (fun r => bind h (fun _ => Return r)).
End programs.
Declare Scope prog_scope.
Delimit Scope prog_scope with prog.
Notation "x <~ p ; k" := (bind p (fun x => k)) (at level 100, p at next level, right associativity) : prog_scope.
Notation "p ;; k" := (bind p (fun _ => k)) (at level 100, right associativity) : prog_scope.

Section rules.
Context {exn : Type} {op : Type -> Type}.
#[local] Abbreviation prog := (program exn op).
#[local] Abbreviation event := (entry exn op).
#[local] Open Scope prog_scope.
Fixpoint each {A B} (f : A -> prog B) (l : list A) : prog (list B) :=
  match l with [] => ret [] | a :: l => b <~ f a; bs <~ each f l; ret (b :: bs) end.

(** ** Executions *)
(** The collaborators answer by what was asked of them before. *)
Definition environment : Type := list event -> forall B, op B -> result exn B.
Fixpoint execute {A} (env : environment) (l : list event) (p : prog A) : list event * result exn A :=
  match p with
  | Return r => (l, r)
  | Perform o k => let r := env l _ o in execute env (l ++ [Ev o r]) (k r)
  end.
Definition wp {A} (p : prog A) (Q : list event -> result exn A -> Prop) : Prop :=
  forall env l, exists m, (execute env l p).1 = l ++ m /\ Q m (execute env l p).2.
Lemma wp_mono {A} (p : prog A) (Q Q' : list event -> result exn A -> Prop) : wp p Q -> (forall m r, Q m r -> Q' m r) -> wp p Q'.
Proof. intros H HQ env l. destruct (H env l) as (m&E&H'). exists m. auto. Qed.
Lemma wp_return {A} (r : result exn A) (Q : list event -> result exn A -> Prop) : Q [] r -> wp (Return r) Q.
Proof. intros H env l. exists []. by rewrite app_nil_r. Qed.
Lemma wp_perform {A B} (o : op B) (k : result exn B -> prog A) (Q : list event -> result exn A -> Prop) : (forall r, wp (k r) (fun m => Q (Ev o r :: m))) -> wp (Perform o k) Q.
Proof. intros H env l. cbn. destruct (H (env l B o) env (l ++ [Ev o (env l B o)])) as (m&E&H'). exists (Ev o (env l B o) :: m). split; [|done]. by rewrite E, <- app_assoc. Qed.
Lemma wp_true {A} (p : prog A) : wp p (fun _ _ => True).
Proof. induction p as [r|B o k IH]; [by apply wp_return|]. apply wp_perform. intros r. apply IH. Qed.
Lemma execute_seq {A B} (p : prog A) (k : result exn A -> prog B) env l : execute env l (seq p k) = let '(l', r) := execute env l p in execute env l' (k r).
Proof. revert l. induction p as [r|C o c IH]; intros l; [done|]. cbn. apply IH. Qed.
Lemma wp_seq {A B} (p : prog A) (k : result exn A -> prog B) (Q : list event -> result exn B -> Prop) : wp p (fun m r => wp (k r) (fun m' => Q (m ++ m'))) -> wp (seq p k) Q.
Proof.
  intros H env l. destruct (H env l) as (m&E&H'). rewrite execute_seq. destruct (execute env l p) as [l' r]. cbn in *. subst l'. destruct (H' env (l ++ m)) as (m'&E'&HQ).
  exists (m ++ m'). by rewrite app_assoc.
Qed.
Lemma wp_call {A} (o : op A) (Q : list event -> result exn A -> Prop) : (forall r, Q [Ev o r] r) -> wp (call o) Q.
Proof. intros H. apply wp_perform. intros r. apply wp_return, H. Qed.
Lemma wp_bind {A B} (p : prog A) (k : A -> prog B) (Q : list event -> result exn B -> Prop) :
  wp p (fun m r => match r with Ok a => wp (k a) (fun m' => Q (m ++ m')) | Err e => Q m (Err e) end) -> wp (bind p k) Q.
Proof. intros H. apply wp_seq. eapply wp_mono; [exact H|]. intros m [a|e] H'; [done|]. apply wp_return. by rewrite app_nil_r. Qed.
Lemma wp_except {A} (c : exn -> bool) (p : prog A) (h : exn -> prog A) (Q : list event -> result exn A -> Prop) :
  wp p (fun m r => match r with Ok a => Q m (Ok a) | Err e => if c e then wp (h e) (fun m' => Q (m ++ m')) else Q m (Err e) end) -> wp (except c p h) Q.
Proof. intros H. apply wp_seq. eapply wp_mono; [exact H|]. intros m [a|e] H'; [|destruct (c e); [done|]]; apply wp_return; by rewrite app_nil_r. Qed.
Lemma wp_finally {A} (p : prog A) (h : prog unit) (Q : list event -> result exn A -> Prop) :
  wp p (fun m r => wp h (fun m' x => Q (m ++ m') (match x with Ok _ => r | Err e => Err e end))) -> wp (finally p h) Q.
Proof. intros H. apply wp_seq. eapply wp_mono; [exact H|]. intros m r H'. apply wp_bind. eapply wp_mono; [exact H'|]. intros m' [x|e] HQ; [|done]. apply wp_return. by rewrite app_nil_r. Qed.
Lemma wp_each {A B} (f : A -> prog B) l (G : A -> B -> list event -> Prop) (Qe : list event -> exn -> Prop) :
  (forall a b m m', G a b m -> G a b (m ++ m')) -> (forall a b m m', G a b m' -> G a b (m ++ m')) -> (forall m m' e, Qe m' e -> Qe (m ++ m') e) ->
  (forall a, a ∈ l -> wp (f a) (fun m r => match r with Ok b => G a b m | Err e => Qe m e end)) ->
  wp (each f l) (fun m r => match r with Ok bs => Forall2 (fun a b => G a b m) l bs | Err e => Qe m e end).
Proof.
  intros H1 H2 H3. induction l as [|a l IH]; intros Hf; [by apply wp_return|]. cbn. apply wp_bind. eapply wp_mono; [apply Hf; constructor|]. intros m [b|e] Hb; [|done].
  apply wp_bind. eapply wp_mono; [apply IH; intros; apply Hf; by constructor|]. intros m' [bs|e] Hbs; [|by apply H3]. apply wp_return. rewrite app_nil_r. constructor; [by apply H1|].
  eapply Forall2_impl; [exact Hbs|]. intros a' b'. apply H2.
Qed.

Lemma wp_and {A} (p : prog A) (Q Q' : list event -> result exn A -> Prop) : wp p Q -> wp p Q' -> wp p (fun m r => Q m r /\ Q' m r).
Proof. intros H H' env l. destruct (H env l) as (m&E&HQ), (H' env l) as (m'&E'&HQ'). rewrite E in E'. apply app_inv_head in E' as <-. by exists m. Qed.
(** One environment, from one history: what [wp] says of all of them. *)
Definition runs {A} (env : environment) (l : list event) (p : prog A) (Q : result exn A -> list event -> Prop) : Prop := Q (execute env l p).2 (execute env l p).1.
Lemma runs_mono {A} env l (p : prog A) (Q Q' : result exn A -> list event -> Prop) : runs env l p Q -> (forall r l', Q r l' -> Q' r l') -> runs env l p Q'.
Proof. unfold runs. auto. Qed.
Lemma runs_seq {A B} env l (p : prog A) (k : result exn A -> prog B) Q : runs env l p (fun r l' => runs env l' (k r) Q) -> runs env l (seq p k) Q.
Proof. unfold runs. rewrite execute_seq. by destruct (execute env l p). Qed.
Lemma runs_call {A} env l (o : op A) Q : Q (env l _ o) (l ++ [Ev o (env l _ o)]) -> runs env l (call o) Q.
Proof. done. Qed.
Lemma runs_return {A} env l (r : result exn A) Q : Q r l -> runs env l (Return r) Q.
Proof. done. Qed.
Lemma runs_bind {A B} env l (p : prog A) (k : A -> prog B) Q : runs env l p (fun r l' => match r with Ok a => runs env l' (k a) Q | Err e => Q (Err e) l' end) -> runs env l (bind p k) Q.
Proof. intros H. apply runs_seq. eapply runs_mono; [exact H|]. by intros [a|e] l'. Qed.
Lemma runs_finally {A} env l (p : prog A) (h : prog unit) Q : runs env l p (fun r l' => runs env l' h (fun x l'' => Q (match x with Ok _ => r | Err e => Err e end) l'')) -> runs env l (finally p h) Q.
Proof. intros H. apply runs_seq. eapply runs_mono; [exact H|]. intros r l' H'. apply runs_bind. eapply runs_mono; [exact H'|]. by intros [x|e] l''. Qed.
Lemma wp_forall_each {A B} (G : event -> Prop) (f : A -> prog B) l : (forall a, wp (f a) (fun m _ => Forall G m)) -> wp (each f l) (fun m _ => Forall G m).
Proof.
  intros H. induction l as [|a l IH]; [by apply wp_return|]. cbn. apply wp_bind. eapply wp_mono; [apply H|]. intros m [b|e] Hm; [|done]. apply wp_bind. eapply wp_mono; [exact IH|].
  intros m' [bs|e] Hm'; [apply wp_return; rewrite app_nil_r|]; by apply Forall_app.
Qed.

Definition raised (l : list event) (e : exn) : Prop := exists B (o : op B), Ev o (Err e) ∈ l.
(** Whose an exception is: a collaborator's, or one of those the part raises itself. *)
Definition blamed {A} (own : exn -> Prop) (m : list event) (r : result exn A) : Prop := match r with Ok _ => True | Err e => raised m e \/ own e end.
Lemma raised_more m1 m2 m3 e : raised m2 e -> raised (m1 ++ m2 ++ m3) e.
Proof. intros (B&o&H). exists B, o. set_solver. Qed.
Lemma blamed_call {A} (o : op A) own : wp (call o) (blamed own).
Proof. apply wp_call. intros [x|e]; [done|left]. exists A, o. constructor. Qed.
Lemma blamed_bind {A B} (p : prog A) (k : A -> prog B) own : wp p (blamed own) -> (forall a, wp (k a) (blamed own)) -> wp (bind p k) (blamed own).
Proof.
  intros Hp Hk. apply wp_bind. eapply wp_mono; [exact Hp|]. intros m [a|e] Hm; [|done]. eapply wp_mono; [apply Hk|]. intros m' [b|e] Hm'; [done|].
  destruct Hm' as [(C&o&Hin)|?]; [left; exists C, o; set_solver|by right].
Qed.
Lemma blamed_except {A} c (p : prog A) (h : exn -> prog A) own : wp p (blamed own) -> (forall e, wp (h e) (blamed (fun e' => e' = e \/ own e'))) -> wp (except c p h) (blamed own).
Proof.
  intros Hp Hh. apply wp_except. eapply wp_mono; [exact Hp|]. intros m [a|e] Hm; [done|]. destruct (c e); [|done]. eapply wp_mono; [apply Hh|]. intros m' [b|e'] Hm'; [done|].
  destruct Hm' as [(C&o&Hin)|[->|?]]; [left; exists C, o; set_solver| |by right]. destruct Hm as [(C&o&Hin)|?]; [left; exists C, o; set_solver|by right].
Qed.
Lemma blamed_each {A B} (f : A -> prog B) l own : (forall a, wp (f a) (blamed own)) -> wp (each f l) (blamed own).
Proof. intros H. induction l as [|a l IH]; [by apply wp_return|]. cbn [each]. apply blamed_bind; [done|]. intros b. apply blamed_bind; [done|]. intros bs. by apply wp_return. Qed.
End rules.
Ltac blame := repeat first [apply blamed_call | apply blamed_bind; [|intros ?] | apply blamed_except; [|intros ?] | apply blamed_each; intros ? | apply wp_return; cbn; by auto].

(** ** Rows, and what calls for them

    [row_of] is the row a call asks to be written, [owed] the one an answer calls for. *)
Section accounts.
Context {exn : Type} {op : Type -> Type} {R : Type} (row_of owed : entry exn op -> option R).
#[local] Abbreviation prog := (program exn op).
#[local] Abbreviation event := (entry exn op).
Definition rows (l : list event) : list R := omap row_of l.
Definition owes (l : list event) : list R := omap owed l.
(** Nothing owed and nothing written; or what is owed is written, at most one row. *)
Definition nothing (l : list event) : Prop := rows l = [] /\ owes l = [].
Definition settled (l : list event) : Prop := rows l = owes l /\ (length (rows l) <= 1)%nat.
Lemma nothing_settled l : nothing l -> settled l.
Proof. intros [H1 H2]. split; rewrite H1; [done|cbn; lia]. Qed.
Lemma nothing_app l l' : nothing l -> nothing l' -> nothing (l ++ l').
Proof. unfold nothing, rows, owes. intros [H1 H2] [H3 H4]. by rewrite !omap_app, H1, H2, H3, H4. Qed.
Lemma settled_app l l' : nothing l -> settled l' -> settled (l ++ l').
Proof. unfold nothing, settled, rows, owes. intros [H1 H2] [H3 H4]. by rewrite !omap_app, H1, H2. Qed.
Lemma settled_then l l' : settled l -> nothing l' -> settled (l ++ l').
Proof. unfold nothing, settled, rows, owes. intros [H1 H2] [H3 H4]. rewrite !omap_app, H3, H4, !app_nil_r. done. Qed.
(** A part that returns leaves nothing behind; one that raises has settled. *)
Definition clean {A} (m : list event) (r : result exn A) : Prop := match r with Ok _ => nothing m | Err _ => settled m end.
End accounts.
