(* ===== verification/RedisStore.v ===== *)
(** * The commands of Redis the code relies on

    [plugins/web_fetch/handle_cap.py] and [plugins/web_fetch/rate_limit.py] keep their counts
    in Redis, as sorted sets and counters under keys that expire.  [Redis] is the interface:
    the commands, each given the server's time in milliseconds, and what a reader finds under
    a key.  [RedisLaws] is their documented behaviour; [Tables] is a store that has it. *)
From S2P Require Import Prelude.

Class Redis (R : Type) := {
  zset : Z -> string -> R -> gmap string Z;      (* the members of a sorted set and their scores *)
  number : Z -> string -> R -> option Z;         (* GET *)
  deadline : string -> R -> option Z;            (* when the key goes, if it has a time to live *)
  ZREMRANGEBYSCORE : Z -> string -> Z -> R -> R; (* from -inf *)
  ZADD : Z -> string -> Z -> string -> R -> R;
  ZREM : Z -> string -> string -> R -> R;
  INCR : Z -> string -> R -> R;
  EXPIRE : Z -> string -> Z -> R -> R }.

Section laws.
Context {R : Type} `{!Redis R}.
Definition alive (at_ : Z) (k : string) (r : R) : bool := match deadline k r with Some d => at_ <? d | None => true end.
Definition present (at_ : Z) (k : string) (r : R) : Prop := zset at_ k r <> ∅ \/ number at_ k r <> None.
(** The command changes at most the key it names. *)
Definition touches (at_ : Z) (k : string) (f : R -> R) : Prop :=
  forall r k', k' <> k -> zset at_ k' (f r) = zset at_ k' r /\ number at_ k' (f r) = number at_ k' r /\ deadline k' (f r) = deadline k' r.
End laws.
Class RedisLaws (R : Type) `{!Redis R} : Prop := {
  zset_ages t t' k (r : R) : t <= t' -> zset t' k r = if alive t' k r then zset t k r else ∅;
  number_ages t t' k (r : R) : t <= t' -> number t' k r = if alive t' k r then number t k r else None;
  zremrangebyscore_touches t k c : touches t k (ZREMRANGEBYSCORE t k c);
  zset_zremrangebyscore t k c (r : R) : zset t k (ZREMRANGEBYSCORE t k c r) = filter (fun x => c < x.2) (zset t k r);
  deadline_zremrangebyscore t k c (r : R) : zset t k (ZREMRANGEBYSCORE t k c r) <> ∅ -> deadline k (ZREMRANGEBYSCORE t k c r) = deadline k r;
  zadd_touches t k s m : touches t k (ZADD t k s m);
  zset_zadd t k s m (r : R) : zset t k (ZADD t k s m r) = <[m := s]> (zset t k r);
  zrem_touches t k m : touches t k (ZREM t k m);
  zset_zrem t k m (r : R) : zset t k (ZREM t k m r) = base.delete m (zset t k r);
  deadline_zrem t k m (r : R) : zset t k (ZREM t k m r) <> ∅ -> deadline k (ZREM t k m r) = deadline k r;
  incr_touches t k : touches t k (INCR t k);
  number_incr t k (r : R) : number t k (INCR t k r) = Some (default 0 (number t k r) + 1);
  expire_touches t k n : touches t k (EXPIRE t k n);
  zset_expire t k n (r : R) : 0 < n -> zset t k (EXPIRE t k n r) = zset t k r;
  number_expire t k n (r : R) : 0 < n -> number t k (EXPIRE t k n r) = number t k r;
  deadline_expire t k n (r : R) : present t k r -> deadline k (EXPIRE t k n r) = Some (t + 1000 * n) }.

(** ** A store that has it *)
Record Tables := { sets : gmap string (gmap string Z); numbers : gmap string Z; deadlines : gmap string Z }.
Definition with_sets s (r : Tables) : Tables := {| sets := s; numbers := numbers r; deadlines := deadlines r |}.
Definition with_numbers n (r : Tables) : Tables := {| sets := sets r; numbers := n; deadlines := deadlines r |}.
Definition with_deadlines d (r : Tables) : Tables := {| sets := sets r; numbers := numbers r; deadlines := d |}.
Definition no_tables : Tables := {| sets := ∅; numbers := ∅; deadlines := ∅ |}.
Definition gone (t : Z) (k : string) (r : Tables) : bool := match deadlines r !! k with Some d => d <=? t | None => false end.
(** An expired key is dropped before the command that names it. *)
Definition purge (t : Z) (k : string) (r : Tables) : Tables :=
  if gone t k r then {| sets := base.delete k (sets r); numbers := base.delete k (numbers r); deadlines := base.delete k (deadlines r) |} else r.
Definition set_of (k : string) (r : Tables) : gmap string Z := default ∅ (sets r !! k).
Definition update_set (t : Z) (k : string) (f : gmap string Z -> gmap string Z) (r : Tables) : Tables :=
  let r := purge t k r in with_sets (<[k := f (set_of k r)]> (sets r)) r.
#[export] Instance tables_redis : Redis Tables := {|
  zset t k r := if gone t k r then ∅ else set_of k r;
  number t k r := if gone t k r then None else numbers r !! k;
  deadline k r := deadlines r !! k;
  ZREMRANGEBYSCORE t k c := update_set t k (filter (fun x => c < x.2));
  ZADD t k s m := update_set t k (<[m := s]>);
  ZREM t k m := update_set t k (base.delete m);
  INCR t k r := let r := purge t k r in with_numbers (<[k := default 0 (numbers r !! k) + 1]> (numbers r)) r;
  EXPIRE t k n r := with_deadlines (<[k := t + 1000 * n]> (deadlines r)) (purge t k r) |}.

Lemma purge_gone t k r : gone t k (purge t k r) = false.
Proof. unfold purge. destruct (gone t k r) eqn:H; [|done]. unfold gone. cbn. by rewrite lookup_delete_eq. Qed.
Lemma purge_other t k k' r : k' <> k -> sets (purge t k r) !! k' = sets r !! k' /\ numbers (purge t k r) !! k' = numbers r !! k' /\ deadlines (purge t k r) !! k' = deadlines r !! k'.
Proof. intros H. unfold purge. destruct (gone t k r); cbn; rewrite ?lookup_delete_ne by done; done. Qed.
Lemma purge_set t k r : set_of k (purge t k r) = if gone t k r then ∅ else set_of k r.
Proof. unfold purge, set_of. destruct (gone t k r); cbn; [by rewrite lookup_delete_eq|done]. Qed.
Lemma purge_number t k r : numbers (purge t k r) !! k = if gone t k r then None else numbers r !! k.
Proof. unfold purge. destruct (gone t k r); cbn; [by rewrite lookup_delete_eq|done]. Qed.
Lemma purge_deadline t k r : deadlines (purge t k r) !! k = if gone t k r then None else deadlines r !! k.
Proof. unfold purge. destruct (gone t k r); cbn; [by rewrite lookup_delete_eq|done]. Qed.
Lemma gone_same t k r r' : deadlines r !! k = deadlines r' !! k -> gone t k r = gone t k r'.
Proof. unfold gone. by intros ->. Qed.
Lemma update_set_touches t k f : touches t k (update_set t k f).
Proof.
  intros r k' H. destruct (purge_other t k k' r H) as (H1&H2&H3). cbn. rewrite (gone_same t k' (update_set t k f r) r) by done. unfold set_of. cbn.
  rewrite lookup_insert_ne by done. by rewrite H1, H2.
Qed.
Lemma update_set_set t k f r : zset t k (update_set t k f r) = f (zset t k r).
Proof. cbn. rewrite (gone_same t k _ (purge t k r)), purge_gone by done. unfold update_set, set_of at 1. cbn. rewrite lookup_insert_eq. cbn. by rewrite purge_set. Qed.
Lemma update_set_deadline t k f r : f ∅ = ∅ -> zset t k (update_set t k f r) <> ∅ -> deadline k (update_set t k f r) = deadline k r.
Proof. rewrite update_set_set. intros Hf. cbn. destruct (gone t k r) eqn:H; [by rewrite Hf|]. intros _. by rewrite purge_deadline, H. Qed.
#[export] Instance tables_laws : RedisLaws Tables.
Proof.
  split.
  - intros t t' k r Ht. cbn. unfold alive, gone. cbn. destruct (deadlines r !! k) as [d|]; [|done]. destruct (Z.leb_spec d t'), (Z.ltb_spec t' d), (Z.leb_spec d t); try lia; done.
  - intros t t' k r Ht. cbn. unfold alive, gone. cbn. destruct (deadlines r !! k) as [d|]; [|done]. destruct (Z.leb_spec d t'), (Z.ltb_spec t' d), (Z.leb_spec d t); try lia; done.
  - intros. apply update_set_touches.
  - intros. apply update_set_set.
  - intros t k c r. apply update_set_deadline. apply map_filter_empty.
  - intros. apply update_set_touches.
  - intros. apply update_set_set.
  - intros. apply update_set_touches.
  - intros. apply update_set_set.
  - intros t k m r. apply update_set_deadline. apply delete_empty.
  - intros t k r k' H. destruct (purge_other t k k' r H) as (H1&H2&H3). cbn. rewrite (gone_same t k' _ r) by done. unfold set_of. cbn. rewrite lookup_insert_ne by done. by rewrite H1, H2.
  - intros t k r. cbn. rewrite (gone_same t k _ (purge t k r)), purge_gone by done. rewrite lookup_insert_eq. by rewrite purge_number.
  - intros t k n r k' H. destruct (purge_other t k k' r H) as (H1&H2&H3). cbn. rewrite (gone_same t k' _ r) by (cbn; by rewrite lookup_insert_ne). unfold set_of. cbn.
    rewrite lookup_insert_ne by done. by rewrite H1, H2.
  - intros t k n r Hn. cbn. unfold gone at 1. cbn. rewrite lookup_insert_eq. destruct (Z.leb_spec (t + 1000 * n) t); [lia|]. apply purge_set.
  - intros t k n r Hn. cbn. unfold gone at 1. cbn. rewrite lookup_insert_eq. destruct (Z.leb_spec (t + 1000 * n) t); [lia|]. apply purge_number.
  - intros t k n r _. cbn. by rewrite lookup_insert_eq.
Qed.
