(* ===== verification/WebQuota.v ===== *)
(** * What a user may fetch: [HandleCap] and [RateLimiter]

    [plugins/web_fetch/handle_cap.py] and [plugins/web_fetch/rate_limit.py]: the number of
    fetches a user has in flight, and the fetches per domain, per user and per day.  Each
    check is one script that Redis runs alone; a call of it may fail, before or after the
    script ran.  The lazy creation of the client is left out. *)
From S2P Require Import Prelude RedisStore.
From stdpp Require Import pretty.
From Stdlib Require Import Ascii.
#[local] Open Scope Z_scope.

(** The host's clock and the server's, in milliseconds. *)
Record Clocks := { host_ms : Z; server_ms : Z }.
Inductive QuotaError := WebFetchRateLimited (bucket : string) | ValueError | RuntimeError | RedisError | CancelledError.
(** What happens to the round trip of a command. *)
Inductive Fate := Arrives | Breaks (took_effect : bool) (e : QuotaError).

Definition _DEFAULT_PER_USER_CAP : Z := 5.
Record HandleCapConfig := { per_user : Z }.
Definition make_handle_cap_config (n : Z) : result QuotaError HandleCapConfig := if n <? 1 then Err ValueError else Ok {| per_user := n |}.
Definition _OUTER_KEY_TTL_FLOOR_SECONDS : Z := 600.
Definition _KEY_PREFIX_USER : string := "alfred:handles:user:".
Definition _validate_argv (cap expiry_ms now_ms outer_ttl : Z) : result QuotaError unit :=
  if existsb (fun v => v <=? 0) [cap; expiry_ms; now_ms; outer_ttl] then Err ValueError
  else if expiry_ms <=? now_ms then Err ValueError else Ok tt.

Record RateLimitConfig := { per_domain_per_minute : Z; per_user_per_minute : Z; per_user_daily : Z }.
Definition default_rate_limits : RateLimitConfig := {| per_domain_per_minute := 10; per_user_per_minute := 30; per_user_daily := 100 |}.
Definition _WINDOW_SECONDS : Z := 60.
Definition _DAILY_TTL_SECONDS : Z := 48 * 3600.
Definition domain_key (domain : string) : string := "alfred:rate:" +:+ domain.
Definition user_key (user : string) : string := "alfred:rate:user:" +:+ user.
Definition daily_key (user today : string) : string := "alfred:fetch_budget:" +:+ user +:+ ":" +:+ today.
Definition seq_key (k : string) : string := k +:+ ":seq".

Section quota.
Context {R : Type} `{!Redis R}.
Definition script (A : Type) : Type := M R QuotaError A.
Definition trip {A} (f : Fate) (m : script A) : script A :=
  match f with Arrives => m | Breaks took e => fun r => (Err e, if took then (m r).2 else r) end.
Definition reads {A} (f : R -> A) : script A := fun r => (Ok (f r), r).

(** [_RESERVE_SCRIPT] *)
Definition reserve_script (t : Z) (key : string) (cap : Z) (handle_id : string) (expiry_ms now_ms outer_ttl : Z) : script string :=
  modify (ZREMRANGEBYSCORE t key now_ms) ;;;
  live <-- reads (fun r => Z.of_nat (size (zset t key r)));
  if cap <=? live then ret "exceeded"%string
  else modify (ZADD t key expiry_ms handle_id) ;;; modify (EXPIRE t key outer_ttl) ;;; ret "ok"%string.
Definition _try_reserve_with_args (f : Fate) (t : Z) (user_id handle_id : string) (cap expiry_ms now_ms outer_ttl : Z) : script unit :=
  match _validate_argv cap expiry_ms now_ms outer_ttl with
  | Err e => raise e
  | Ok _ =>
      result <-- trip f (reserve_script t (_KEY_PREFIX_USER +:+ user_id) cap handle_id expiry_ms now_ms outer_ttl);
      if bool_decide (result = "exceeded"%string) then raise (WebFetchRateLimited "handle_cap")
      else if bool_decide (result <> "ok"%string) then raise RuntimeError else ret tt
  end.
Definition try_reserve (config : HandleCapConfig) (f : Fate) (c : Clocks) (user_id handle_id : string) (handle_ttl_seconds : Z) : script unit :=
  let now_ms := host_ms c in
  _try_reserve_with_args f (server_ms c) user_id handle_id (per_user config) (now_ms + handle_ttl_seconds * 1000) now_ms
    (Z.max (handle_ttl_seconds * 2) _OUTER_KEY_TTL_FLOOR_SECONDS).
(** [release] swallows what Redis raises, and nothing else. *)
Definition release (f : Fate) (c : Clocks) (user_id handle_id : string) : script unit := fun r =>
  match trip f (modify (ZREM (server_ms c) (_KEY_PREFIX_USER +:+ user_id) handle_id)) r with
  | (Err RedisError, r) => (Ok tt, r)
  | x => x
  end.

(** [_RATE_LIMIT_SCRIPT] *)
Definition member (now_ms seq : Z) : string := pretty now_ms +:+ ":" +:+ pretty seq.
Definition rate_limit_script (t : Z) (dk uk day : string) (domain_limit user_limit daily_limit window_s daily_ttl now_ms : Z) : script string :=
  let cutoff_ms := now_ms - window_s * 1000 in
  modify (ZREMRANGEBYSCORE t dk cutoff_ms) ;;;
  domain_count <-- reads (fun r => Z.of_nat (size (zset t dk r)));
  if domain_limit <=? domain_count then ret "per_domain"%string else
  modify (ZREMRANGEBYSCORE t uk cutoff_ms) ;;;
  user_count <-- reads (fun r => Z.of_nat (size (zset t uk r)));
  if user_limit <=? user_count then ret "per_user"%string else
  daily_count <-- reads (fun r => default 0 (number t day r));
  if daily_limit <=? daily_count then ret "daily_budget"%string else
  modify (INCR t (seq_key dk)) ;;; seq_domain <-- reads (fun r => default 0 (number t (seq_key dk) r));
  modify (INCR t (seq_key uk)) ;;; seq_user <-- reads (fun r => default 0 (number t (seq_key uk) r));
  let domain_expire := window_s + 5 in
  modify (ZADD t dk now_ms (member now_ms seq_domain)) ;;; modify (EXPIRE t dk domain_expire) ;;; modify (EXPIRE t (seq_key dk) domain_expire) ;;;
  modify (ZADD t uk now_ms (member now_ms seq_user)) ;;; modify (EXPIRE t uk domain_expire) ;;; modify (EXPIRE t (seq_key uk) domain_expire) ;;;
  modify (INCR t day) ;;; modify (EXPIRE t day daily_ttl) ;;;
  ret "ok"%string.
Definition check_and_increment (config : RateLimitConfig) (f : Fate) (c : Clocks) (today domain user_id : string) : script unit :=
  bucket <-- trip f (rate_limit_script (server_ms c) (domain_key domain) (user_key user_id) (daily_key user_id today)
    (per_domain_per_minute config) (per_user_per_minute config) (per_user_daily config) _WINDOW_SECONDS _DAILY_TTL_SECONDS (host_ms c));
  if bool_decide (bucket = "ok"%string) then ret tt
  else if bool_decide (bucket ∉ ["per_domain"; "per_user"; "daily_budget"]%string) then raise RuntimeError
  else raise (WebFetchRateLimited bucket).
End quota.

(** ** The commands over time *)
Section store.
Context {R : Type} `{!Redis R} `{!RedisLaws R}.
(** A command leaves other keys as they are, then and later. *)
Lemma touches_later t t' k k' (f : R -> R) r : touches t k f -> t <= t' -> k' <> k -> zset t' k' (f r) = zset t' k' r /\ number t' k' (f r) = number t' k' r.
Proof.
  intros Hf Ht Hk. destruct (Hf r k' Hk) as (H1&H2&H3). rewrite !(zset_ages t t'), !(number_ages t t'), H1, H2 by done. unfold alive. by rewrite H3.
Qed.
Lemma zset_shrinks t t' k (r : R) : t <= t' -> zset t' k r = zset t k r \/ zset t' k r = ∅.
Proof. intros Ht. rewrite (zset_ages t t') by done. destruct (alive _ _ _); auto. Qed.
Lemma size_ages t t' k (r : R) : t <= t' -> (size (zset t' k r) <= size (zset t k r))%nat.
Proof. intros Ht. destruct (zset_shrinks t t' k r Ht) as [->| ->]; [done|]. rewrite map_size_empty. lia. Qed.
(** A member that would be there later stays through a command that keeps it. *)
Lemma zset_stays t t' k m s (f : R -> R) r : t <= t' -> zset t' k r !! m = Some s -> zset t k (f r) !! m = Some s -> deadline k (f r) = deadline k r -> zset t' k (f r) !! m = Some s.
Proof.
  intros Ht H1 H2 Hd. rewrite (zset_ages t t') by done. rewrite (zset_ages t t') in H1 by done. unfold alive in *. rewrite Hd. by destruct (match deadline k r with Some d => t' <? d | None => true end).
Qed.
Lemma zset_now t t' k m s (r : R) : t <= t' -> zset t' k r !! m = Some s -> zset t k r !! m = Some s.
Proof. intros Ht H. destruct (zset_shrinks t t' k r Ht) as [<-|E]; [done|]. by rewrite E in H. Qed.
Lemma lookup_nonempty {A} (z : gmap string A) m s : z !! m = Some s -> z <> ∅.
Proof. by intros H ->. Qed.
Lemma expire_stays t t' k n m s (r : R) : t <= t' < t + 1000 * n -> zset t k r !! m = Some s -> zset t' k (EXPIRE t k n r) !! m = Some s.
Proof.
  intros Ht H. rewrite (zset_ages t t') by lia. unfold alive. rewrite deadline_expire by (left; by eapply lookup_nonempty). destruct (Z.ltb_spec t' (t + 1000 * n)); [|lia].
  by rewrite zset_expire by lia.
Qed.
Lemma touches_id t k : touches t k (fun r : R => r).
Proof. by intros r k' H. Qed.
Lemma touches_comp t k (f g : R -> R) : touches t k f -> touches t k g -> touches t k (fun r => g (f r)).
Proof. intros Hf Hg r k' H. destruct (Hg (f r) k' H) as (E1&E2&E3), (Hf r k' H) as (F1&F2&F3). by rewrite E1, E2, E3. Qed.
Lemma evicts_stays t t' k c m s (r : R) : t <= t' -> zset t' k r !! m = Some s -> c < s -> zset t' k (ZREMRANGEBYSCORE t k c r) !! m = Some s.
Proof.
  intros Ht H Hs. assert (Hn : zset t k (ZREMRANGEBYSCORE t k c r) !! m = Some s).
  { rewrite zset_zremrangebyscore. apply map_lookup_filter_Some. split; [by eapply zset_now|done]. }
  apply (zset_stays t t' k m s (ZREMRANGEBYSCORE t k c)); [done|done|done|]. apply deadline_zremrangebyscore. by eapply lookup_nonempty.
Qed.
Lemma removes_stays t t' k h m s (r : R) : t <= t' -> zset t' k r !! m = Some s -> m <> h -> zset t' k (ZREM t k h r) !! m = Some s.
Proof.
  intros Ht H Hm. assert (Hn : zset t k (ZREM t k h r) !! m = Some s) by (rewrite zset_zrem, lookup_delete_ne by done; by eapply zset_now).
  apply (zset_stays t t' k m s (ZREM t k h)); [done|done|done|]. apply deadline_zrem. by eapply lookup_nonempty.
Qed.
Lemma adds_stays t t' k n x h m s (r : R) : t <= t' < t + 1000 * n -> zset t k r !! m = Some s -> m <> h -> zset t' k (EXPIRE t k n (ZADD t k x h r)) !! m = Some s.
Proof. intros Ht H Hm. apply expire_stays; [done|]. by rewrite zset_zadd, lookup_insert_ne. Qed.
Lemma adds_now t t' k n x h (r : R) : t <= t' < t + 1000 * n -> zset t' k (EXPIRE t k n (ZADD t k x h r)) !! h = Some x.
Proof. intros Ht. apply expire_stays; [done|]. by rewrite zset_zadd, lookup_insert_eq. Qed.
Lemma size_evicts t k c (r : R) : (size (zset t k (ZREMRANGEBYSCORE t k c r)) <= size (zset t k r))%nat.
Proof. rewrite zset_zremrangebyscore. apply map_size_filter. Qed.
Lemma size_removes t k h (r : R) : (size (zset t k (ZREM t k h r)) <= size (zset t k r))%nat.
Proof. rewrite zset_zrem. apply map_subseteq_size, delete_subseteq. Qed.
Lemma size_adds t k n x h (r : R) : 0 < n -> (size (zset t k (EXPIRE t k n (ZADD t k x h r))) <= S (size (zset t k r)))%nat.
Proof. intros Hn. rewrite zset_expire, zset_zadd by done. rewrite map_size_insert. destruct (zset t k r !! h); cbn; lia. Qed.
End store.

(** ** The handle cap *)
Definition handles (user : string) : string := _KEY_PREFIX_USER +:+ user.
Lemma handles_inj u u' : handles u = handles u' -> u = u'.
Proof. by intros [= H]. Qed.
Inductive call := Reserve (user handle_id : string) | Free (user handle_id : string).
Record event := { at_ : Clocks; fate : Fate; what : call }.
Definition after (c c' : Clocks) : Prop := host_ms c <= host_ms c' /\ server_ms c <= server_ms c'.
(** The server's clock does not go back. *)
Definition served (c c' : Clocks) : Prop := server_ms c <= server_ms c'.
Section cap.
Context {R : Type} `{!Redis R} `{!RedisLaws R}.
Variables (config : HandleCapConfig) (ttl : Z).
Definition perform (e : event) : script (R := R) unit :=
  match what e with Reserve u h => try_reserve config (fate e) (at_ e) u h ttl | Free u h => release (fate e) (at_ e) u h end.
(** Calls of any tasks, in the order Redis serves them, with what each caller saw. *)
Fixpoint run (es : list event) (r : R) : list (event * result QuotaError unit) * R :=
  match es with [] => ([], r) | e :: es => let '(x, r) := perform e r in let '(log, r) := run es r in ((e, x) :: log, r) end.
(** Neither clock has passed the reservation's time to live. *)
Definition fresh (c : Clocks) (e : event) : Prop := host_ms c < host_ms (at_ e) + 1000 * ttl /\ server_ms c < server_ms (at_ e) + 1000 * ttl.
#[export] Instance fresh_dec c e : Decision (fresh c e).
Proof. unfold fresh. apply _. Defined.
Definition frees (u h : string) (x : event * result QuotaError unit) : bool := match what x.1 with Free u' h' => bool_decide (u' = u /\ h' = h) | _ => false end.
Definition reserves (u : string) (x : event * result QuotaError unit) : option string :=
  match what x.1, x.2 with Reserve u' h, Ok _ => if decide (u' = u) then Some h else None | _, _ => None end.
(** The slots [u] holds: reserved, not released since, and within their time. *)
Fixpoint held (c : Clocks) (u : string) (log : list (event * result QuotaError unit)) : list string :=
  match log with
  | [] => []
  | x :: log => match reserves u x with
                | Some h => if decide (fresh c x.1) then if existsb (frees u h) log then held c u log else h :: held c u log else held c u log
                | None => held c u log
                end
  end.

Lemma reserve_script_touches t key cap h x now outer : touches t key (fun r : R => (reserve_script t key cap h x now outer r).2).
Proof.
  intros r k' H. unfold reserve_script, bind, modify, reads, ret. cbn. destruct (_ <=? _); cbn; [by apply zremrangebyscore_touches|].
  apply (touches_comp t key (fun r => ZADD t key x h (ZREMRANGEBYSCORE t key now r)) (EXPIRE t key outer)); [|apply expire_touches|done].
  apply (touches_comp t key (ZREMRANGEBYSCORE t key now)); [apply zremrangebyscore_touches|apply zadd_touches].
Qed.
Lemma reserve_script_spec t key cap h x now outer (r : R) : 0 < outer ->
  let '(res, r') := reserve_script t key cap h x now outer r in
  (res = Ok "exceeded"%string \/ res = Ok "ok"%string /\ forall t', t <= t' < t + 1000 * outer -> zset t' key r' !! h = Some x) /\
  (Z.of_nat (size (zset t key r)) <= cap -> Z.of_nat (size (zset t key r')) <= cap) /\
  forall t' m s, t <= t' < t + 1000 * outer -> zset t' key r !! m = Some s -> now < s -> m <> h -> zset t' key r' !! m = Some s.
Proof.
  intros Ho. unfold reserve_script, bind, modify, reads, ret. cbn. pose proof (size_evicts t key now r) as Hs. destruct (Z.leb_spec cap (Z.of_nat (size (zset t key (ZREMRANGEBYSCORE t key now r))))); cbn.
  - split; [by left|]. split; [lia|]. intros t' m s Ht Hm Hnow _. apply evicts_stays; [lia|done|done].
  - split; [right; split; [done|]; intros t' Ht; by apply adds_now|]. split.
    + pose proof (size_adds t key outer x h (ZREMRANGEBYSCORE t key now r) Ho). lia.
    + intros t' m s Ht Hm Hnow Hne. apply adds_stays; [done| |done]. apply (zset_now t t'); [lia|]. apply evicts_stays; [lia|done|done].
Qed.
(** What one call does to the slots of a user; [kept] is a slot at a later time. *)
Definition kept (c : Clocks) (u h : string) (e : event) (r : R) : Prop := fresh c e -> zset (server_ms c) (handles u) r !! h = Some (host_ms (at_ e) + 1000 * ttl).
Definition bounded (c : Clocks) (r : R) : Prop := forall u, Z.of_nat (size (zset (server_ms c) (handles u) r)) <= per_user config.
Lemma bounded_ages c c' r : served c c' -> bounded c r -> bounded c' r.
Proof. intros Hc Hb u. specialize (Hb u). pose proof (size_ages _ _ (handles u) r Hc). lia. Qed.
Definition outer_ttl : Z := Z.max (ttl * 2) _OUTER_KEY_TTL_FLOOR_SECONDS.
(** A call is its script, or its script lost, or nothing. *)
Lemma try_reserve_cases f c u h r : let '(x, r') := try_reserve config f c u h ttl r in
  let s := reserve_script (server_ms c) (handles u) (per_user config) h (host_ms c + ttl * 1000) (host_ms c) outer_ttl r in
  (r' = r \/ r' = s.2) /\ (x = Ok tt -> r' = s.2 /\ s.1 = Ok "ok"%string).
Proof.
  unfold try_reserve, _try_reserve_with_args. destruct (_validate_argv _ _ _ _); [|by split; [left|]]. fold outer_ttl. change (_KEY_PREFIX_USER +:+ u) with (handles u). unfold bind, trip.
  destruct f as [|took e]; [|destruct took; by split; [auto|]]. destruct (reserve_script _ _ _ _ _ _ _ r) as [[s|e] r']; cbn; [|by split; [right|]].
  case_bool_decide; [by split; [right|]|]. case_bool_decide as Hs; [by split; [right|]|]. split; [by right|]. intros _. split; [done|]. f_equal. by destruct (decide (s = "ok"%string)).
Qed.
Lemma release_cases f c u h (r : R) : (release f c u h r).2 = r \/ (release f c u h r).2 = ZREM (server_ms c) (handles u) h r.
Proof. unfold release, trip, modify. destruct f as [|took e]; [by right|]. destruct e, took; cbn; auto. Qed.
Lemma outer_ttl_pos : 0 < outer_ttl /\ ttl <= outer_ttl.
Proof. unfold outer_ttl, _OUTER_KEY_TTL_FLOOR_SECONDS. lia. Qed.
Definition user_of (e : event) : string := match what e with Reserve u _ | Free u _ => u end.
Definition script_of (e : event) (r : R) : R := match what e with
  | Reserve u h => (reserve_script (server_ms (at_ e)) (handles u) (per_user config) h (host_ms (at_ e) + ttl * 1000) (host_ms (at_ e)) outer_ttl r).2
  | Free u h => ZREM (server_ms (at_ e)) (handles u) h r
  end.
Lemma perform_cases e r : (perform e r).2 = r \/ (perform e r).2 = script_of e r.
Proof.
  unfold perform, script_of. destruct (what e) as [u h|u h]; [|by apply release_cases]. pose proof (try_reserve_cases (fate e) (at_ e) u h r) as H. destruct (try_reserve _ _ _ _ _ _ r). by destruct H.
Qed.
Lemma script_touches e : touches (server_ms (at_ e)) (handles (user_of e)) (script_of e).
Proof. unfold user_of, script_of. destruct (what e); [apply reserve_script_touches|apply zrem_touches]. Qed.
Lemma perform_bounded e r : bounded (at_ e) r -> bounded (at_ e) (perform e r).2.
Proof.
  intros Hb u. destruct (perform_cases e r) as [->| ->]; [done|]. destruct (decide (u = user_of e)) as [->|Hne].
  - specialize (Hb (user_of e)). unfold script_of, user_of in *. destruct (what e) as [u h|u h]; [|pose proof (size_removes (server_ms (at_ e)) (handles u) h r); lia].
    pose proof (reserve_script_spec (server_ms (at_ e)) (handles u) (per_user config) h (host_ms (at_ e) + ttl * 1000) (host_ms (at_ e)) outer_ttl r (proj1 outer_ttl_pos)) as H.
    destruct (reserve_script _ _ _ _ _ _ _ r) as [x r']. destruct H as (_&H&_). by apply H.
  - destruct (script_touches e r (handles u)) as [-> _]; [intros H; apply Hne, handles_inj, H|done].
Qed.
Lemma perform_keeps e e0 u h c r : served (at_ e0) (at_ e) -> after (at_ e) c -> what e <> Free u h -> (forall u', what e <> Reserve u' h) ->
  kept c u h e0 r -> kept c u h e0 (perform e r).2.
Proof.
  intros H0 [Hc1 Hc2] Hf Hr Hk Hfresh. specialize (Hk Hfresh). destruct (perform_cases e r) as [->| ->]; [done|]. unfold served in H0. destruct Hfresh as [F1 F2], outer_ttl_pos as [O1 O2].
  destruct (decide (u = user_of e)) as [->|Hne].
  - unfold script_of, user_of in *. destruct (what e) as [u h'|u h'].
    + pose proof (reserve_script_spec (server_ms (at_ e)) (handles u) (per_user config) h' (host_ms (at_ e) + ttl * 1000) (host_ms (at_ e)) outer_ttl r O1) as H.
      destruct (reserve_script _ _ _ _ _ _ _ r) as [x r']. destruct H as (_&_&H). apply H; [lia|done|lia|]. intros ->. by apply (Hr u).
    + apply removes_stays; [lia|done|]. congruence.
  - destruct (touches_later (server_ms (at_ e)) (server_ms c) (handles (user_of e)) (handles u) (script_of e) r) as [-> _]; [apply script_touches|done|intros H; apply Hne, handles_inj, H|done].
Qed.
Lemma perform_adds e u h c r : what e = Reserve u h -> (perform e r).1 = Ok tt -> after (at_ e) c -> kept c u h e (perform e r).2.
Proof.
  intros Hw Hx [Hc1 Hc2] [F1 F2]. unfold perform in *. rewrite Hw in *. pose proof (try_reserve_cases (fate e) (at_ e) u h r) as H. destruct (try_reserve _ _ _ _ _ _ r) as [x r']. cbn [fst snd] in *. subst x.
  destruct H as [_ H]. destruct (H eq_refl) as [-> Hok]. pose proof (reserve_script_spec (server_ms (at_ e)) (handles u) (per_user config) h (host_ms (at_ e) + ttl * 1000) (host_ms (at_ e)) outer_ttl r (proj1 outer_ttl_pos)) as Hs.
  revert Hs Hok. destruct (reserve_script _ _ _ _ _ _ _ r) as [y r2]. cbn [fst snd]. intros Hs ->. destruct Hs as ([Hs|[_ Hs]]&_); [done|]. pose proof outer_ttl_pos. rewrite Hs by lia. f_equal. lia.
Qed.
(** ** Runs *)
Definition reserved_id (e : event) : option string := match what e with Reserve _ h => Some h | _ => None end.
Lemma quota_run_keeps es e0 u h c r : Forall (fun e => served (at_ e0) (at_ e) /\ after (at_ e) c) es -> h ∉ omap reserved_id es -> existsb (frees u h) (run es r).1 = false ->
  kept c u h e0 r -> kept c u h e0 (run es r).2.
Proof.
  revert r. induction es as [|e es IH]; intros r Hes Hd Hf Hk; [done|]. apply Forall_cons in Hes as [[H1 H2] Hes]. cbn [run] in *. pose proof (perform_keeps e e0 u h c r H1 H2) as Hp.
  destruct (perform e r) as [x r1]. specialize (IH r1 Hes). destruct (run es r1) as [log r2]. cbn in Hf, Hp, IH |- *. apply orb_false_iff in Hf as [Hf1 Hf2]. unfold frees in Hf1. cbn in Hf1, Hd. unfold reserved_id in Hd.
  apply IH; [|done|apply Hp; [| |done]].
  - intros Hin. apply Hd. destruct (what e); [by constructor|done].
  - intros Hw. rewrite Hw in Hf1. by apply bool_decide_eq_false_1 in Hf1; apply Hf1.
  - intros u' Hw. rewrite Hw in Hd. apply Hd. constructor.
Qed.
(** Redis serves the calls one after the other, and no clock was read later than at [c]. The
    callers read the host's clock before they are served, in any order. *)
Definition in_order (c : Clocks) (es : list event) : Prop := StronglySorted (fun a b => served (at_ a) (at_ b)) es /\ Forall (fun e => after (at_ e) c) es.
Lemma held_in es r c u h : h ∈ held c u (run es r).1 -> h ∈ omap reserved_id es.
Proof.
  revert r. induction es as [|e es IH]; intros r Hh; cbn [run] in Hh; [by apply elem_of_nil in Hh|]. destruct (perform e r) as [x r1]. specialize (IH r1). destruct (run es r1) as [log r2]. cbn in *. unfold reserves, reserved_id in *. cbn in Hh.
  destruct (what e) as [u' h'|u' h']; [|by apply IH]. destruct x; [|constructor; by apply IH]. destruct (decide (u' = u)); [|constructor; by apply IH]. destruct (decide _); [|constructor; by apply IH].
  destruct (existsb _ _); [constructor; by apply IH|]. apply elem_of_cons in Hh as [->|Hh]; [constructor|]. constructor; by apply IH.
Qed.
Lemma held_spec es r c u : in_order c es -> NoDup (omap reserved_id es) ->
  NoDup (held c u (run es r).1) /\ forall h, h ∈ held c u (run es r).1 -> is_Some (zset (server_ms c) (handles u) (run es r).2 !! h).
Proof.
  intros [Hs Hc] Hd. revert r. induction es as [|e es IH]; intros r; [split; [constructor|by intros h H%elem_of_nil]|]. apply StronglySorted_inv in Hs as [Hs He]. apply Forall_cons in Hc as [Hce Hc].
  assert (Hd' : NoDup (omap reserved_id es)) by (cbn in Hd; destruct (reserved_id e); [by apply NoDup_cons in Hd as [_ Hd]|done]). cbn [run].
  pose proof (perform_adds e) as Ha. specialize (IH Hs Hc Hd'). destruct (perform e r) as [x r1] eqn:E. specialize (IH r1). pose proof (held_in es r1 c u) as Hin. pose proof (quota_run_keeps es e u) as Hk.
  destruct (run es r1) as [log r2] eqn:E2. cbn in IH, Hin |- *. destruct IH as [IH1 IH2]. destruct (reserves u (e, x)) as [h|] eqn:Hx; [|done]. destruct (decide (fresh c e)) as [Hf|]; [|done]. destruct (existsb (frees u h) log) eqn:Hfr; [done|].
  unfold reserves in Hx. cbn in Hx. destruct (what e) as [u' h'|] eqn:Hw; [|done]. destruct x as [[]|]; [|done]. destruct (decide (u' = u)) as [->|]; [|done]. injection Hx as ->.
  assert (Hh : h ∉ omap reserved_id es) by (cbn in Hd; unfold reserved_id in Hd at 1; rewrite Hw in Hd; by apply NoDup_cons in Hd as [Hd _]). split.
  - constructor; [|done]. intros H. by apply Hh, Hin.
  - intros h2 [->|H2]%elem_of_cons; [|by apply IH2]. eexists. specialize (Hk h c r1). rewrite E2 in Hk. apply Hk; [|done|done| |done].
    + clear -He Hc. induction es as [|e' es IH]; [constructor|]. apply Forall_cons in He as [? He], Hc as [? Hc]. constructor; [done|by apply IH].
    + specialize (Ha u h c r eq_refl). rewrite E in Ha. by apply Ha.
Qed.
Lemma run_bounded es c0 c r : bounded c0 r -> Forall (fun e => served c0 (at_ e)) es -> served c0 c -> in_order c es -> bounded c (run es r).2.
Proof.
  revert c0 r. induction es as [|e es IH]; intros c0 r Hb H0 Hc [Hs Hes]; [by eapply bounded_ages|]. apply StronglySorted_inv in Hs as [Hs He]. apply Forall_cons in H0 as [H0 _], Hes as [Hec Hes]. cbn [run].
  pose proof (perform_bounded e r (bounded_ages _ _ _ H0 Hb)) as Hp. destruct (perform e r) as [x r1]. specialize (IH (at_ e) r1 Hp He (proj2 Hec) (conj Hs Hes)). by destruct (run es r1).
Qed.
Lemma run_bounded_from_empty es c r : (forall t k, zset t k r = ∅) -> 0 <= per_user config -> in_order c es -> bounded c (run es r).2.
Proof.
  intros Hr Hcap Hes. assert (Hb : forall c0, bounded c0 r) by (intros c0 u; rewrite Hr, map_size_empty; lia). destruct es as [|e es]; [by apply Hb|]. pose proof Hes as [Hs Hc].
  apply StronglySorted_inv in Hs as [_ He]. apply Forall_cons in Hc as [Hc _]. apply (run_bounded (e :: es) (at_ e)); [apply Hb| |apply Hc|exact Hes]. constructor; [unfold served; lia|exact He].
Qed.
End cap.
Lemma length_le_size {A} (l : list string) (z : gmap string A) : NoDup l -> (forall x, x ∈ l -> is_Some (z !! x)) -> (length l <= size z)%nat.
Proof.
  intros Hn Hl. rewrite <- length_map_to_list, <- (length_fmap fst). apply submseteq_length, NoDup_submseteq; [done|]. intros x [s Hx]%Hl. apply list_elem_of_fmap. exists (x, s). split; [done|]. by apply elem_of_map_to_list.
Qed.
(** C27: A user never holds more slots than the cap.  On a Redis that starts without sorted
    sets and serves one call after the other by a clock that does not go back, for any calls
    of [try_reserve] and [release] by any tasks, with round trips that break before or after
    the script: at any time, the slots of a user that were reserved, not released since, and
    whose time to live neither clock has passed are at most [per_user], which is positive.
    The tasks read the host's clock before they are served, in any order, but none reads it
    later than the time that is judged.  Handle ids are unique, and all reservations ask for
    the same time to live. *)
Theorem slots_never_exceed_the_cap {R : Type} `{!Redis R} `{!RedisLaws R} config ttl es (r : R) c u : 1 <= per_user config ->
  (forall t k, zset t k r = ∅) -> in_order c es -> NoDup (omap reserved_id es) ->
  Z.of_nat (length (held ttl c u (run config ttl es r).1)) <= per_user config.
Proof.
  intros Hcap Hr Hes Hd. destruct (held_spec config ttl es r c u Hes Hd) as [H1 H2].
  assert (Hb : bounded config c (run config ttl es r).2) by (apply run_bounded_from_empty; [done|lia|done]).
  specialize (Hb u). pose proof (length_le_size _ _ H1 H2). lia.
Qed.

(** ** The rate limits *)
Section window.
Context {R : Type} `{!Redis R} `{!RedisLaws R}.
Definition window_ms : Z := 60000.
Definition recent (now : Z) (x : string * Z) : Prop := now - window_ms < x.2.
#[export] Instance recent_dec now x : Decision (recent now x).
Proof. unfold recent. apply _. Defined.
(** What a script run at [t] does to a window and its counter: it admits nothing, or adds the
    member numbered [q]. *)
Inductive window_step (t now limit : Z) (k : string) (r r' : R) : option Z -> Prop :=
| window_kept :
    (forall t', t <= t' -> zset t' k r' = zset t' k r \/ zset t' k r' = filter (recent now) (zset t' k r)) ->
    (forall t', t <= t' -> number t' (seq_key k) r' = number t' (seq_key k) r) ->
    window_step t now limit k r r' None
| window_added q :
    q = default 0 (number t (seq_key k) r) + 1 ->
    Z.of_nat (size (filter (recent now) (zset t k r))) < limit ->
    (forall t', t <= t' < t + 65000 -> zset t' k r' = <[member now q := now]> (filter (recent now) (zset t k r)) /\ number t' (seq_key k) r' = Some q) ->
    window_step t now limit k r r' (Some q).
Lemma evict_later t t' k now (r : R) : t <= t' -> zset t' k (ZREMRANGEBYSCORE t k (now - window_ms) r) = filter (recent now) (zset t' k r).
Proof.
  intros Ht. rewrite (zset_ages t t' k r Ht), (zset_ages t t' k (ZREMRANGEBYSCORE _ _ _ r) Ht). pose proof (deadline_zremrangebyscore t k (now - window_ms) r) as Hd. rewrite zset_zremrangebyscore in *.
  change (filter (fun x => now - window_ms < x.2) (zset t k r)) with (filter (recent now) (zset t k r)) in *.
  destruct (decide (filter (recent now) (zset t k r) = ∅)) as [E|E].
  - rewrite E. destruct (alive t' k r), (alive t' k _); rewrite ?E, ?map_filter_empty; done.
  - unfold alive. rewrite Hd by done. destruct (match deadline k r with Some d => t' <? d | None => true end); [done|]. by rewrite map_filter_empty.
Qed.
Lemma number_lives t t' k n v (r : R) : t <= t' < t + 1000 * n -> number t k r = Some v -> number t' k (EXPIRE t k n r) = Some v.
Proof.
  intros Ht Hv. rewrite (number_ages t t') by lia. unfold alive. rewrite deadline_expire by (right; congruence). destruct (Z.ltb_spec t' (t + 1000 * n)); [|lia]. by rewrite number_expire by lia.
Qed.
Lemma zset_lives t t' k n (r : R) : t <= t' < t + 1000 * n -> zset t k r <> ∅ -> zset t' k (EXPIRE t k n r) = zset t k r.
Proof.
  intros Ht Hv. rewrite (zset_ages t t') by lia. unfold alive. rewrite deadline_expire by (by left). destruct (Z.ltb_spec t' (t + 1000 * n)); [|lia]. by rewrite zset_expire by lia.
Qed.
Lemma frame_zset t t' k k' (f : R -> R) r : touches t k f -> t <= t' -> k' <> k -> zset t' k' (f r) = zset t' k' r.
Proof. intros Hf Ht Hk. by destruct (touches_later t t' k k' f r Hf Ht Hk). Qed.
Lemma frame_number t t' k k' (f : R -> R) r : touches t k f -> t <= t' -> k' <> k -> number t' k' (f r) = number t' k' r.
Proof. intros Hf Ht Hk. by destruct (touches_later t t' k k' f r Hf Ht Hk). Qed.
End window.
(** Observing a store through commands on other keys. *)
Ltac framed := repeat match goal with
  | |- context [zset ?t' ?k (ZREMRANGEBYSCORE ?t ?k' ?c ?r)] => rewrite (frame_zset t t' k' k (ZREMRANGEBYSCORE t k' c) r (zremrangebyscore_touches _ _ _)) by (done || lia)
  | |- context [zset ?t' ?k (ZADD ?t ?k' ?s ?m ?r)] => rewrite (frame_zset t t' k' k (ZADD t k' s m) r (zadd_touches _ _ _ _)) by (done || lia)
  | |- context [zset ?t' ?k (INCR ?t ?k' ?r)] => rewrite (frame_zset t t' k' k (INCR t k') r (incr_touches _ _)) by (done || lia)
  | |- context [zset ?t' ?k (EXPIRE ?t ?k' ?n ?r)] => rewrite (frame_zset t t' k' k (EXPIRE t k' n) r (expire_touches _ _ _)) by (done || lia)
  | |- context [number ?t' ?k (ZREMRANGEBYSCORE ?t ?k' ?c ?r)] => rewrite (frame_number t t' k' k (ZREMRANGEBYSCORE t k' c) r (zremrangebyscore_touches _ _ _)) by (done || lia)
  | |- context [number ?t' ?k (ZADD ?t ?k' ?s ?m ?r)] => rewrite (frame_number t t' k' k (ZADD t k' s m) r (zadd_touches _ _ _ _)) by (done || lia)
  | |- context [number ?t' ?k (INCR ?t ?k' ?r)] => rewrite (frame_number t t' k' k (INCR t k') r (incr_touches _ _)) by (done || lia)
  | |- context [number ?t' ?k (EXPIRE ?t ?k' ?n ?r)] => rewrite (frame_number t t' k' k (EXPIRE t k' n) r (expire_touches _ _ _)) by (done || lia)
  end.
Section script.
Context {R : Type} `{!Redis R} `{!RedisLaws R}.
Variables (t : Z) (dk uk day : string) (dl ul daily_limit daily_ttl now : Z).
Hypothesis Hkeys : NoDup [dk; uk; seq_key dk; seq_key uk; day].
Hypothesis Httl : 0 < daily_ttl.
Local Abbreviation script_run := (rate_limit_script (R := R) t dk uk day dl ul daily_limit _WINDOW_SECONDS daily_ttl now).
(** The script admits, or says which limit is reached. *)
Definition admits (r r' : R) : Prop :=
  (exists q, window_step t now dl dk r r' (Some q)) /\ (exists q, window_step t now ul uk r r' (Some q)) /\
  default 0 (number t day r) < daily_limit /\ forall t', t <= t' < t + 1000 * daily_ttl -> number t' day r' = Some (default 0 (number t day r) + 1).
Definition refuses (r r' : R) : Prop :=
  window_step t now dl dk r r' None /\ window_step t now ul uk r r' None /\ forall t', t <= t' -> number t' day r' = number t' day r.
Lemma keys_differ : dk <> uk /\ dk <> seq_key dk /\ dk <> seq_key uk /\ dk <> day /\ uk <> seq_key dk /\ uk <> seq_key uk /\ uk <> day /\ seq_key dk <> seq_key uk /\ seq_key dk <> day /\ seq_key uk <> day.
Proof. repeat (apply NoDup_cons in Hkeys as [? Hkeys]). set_solver. Qed.
Lemma kept_evicted k limit (r : R) r' : (forall t', t <= t' -> zset t' k r' = zset t' k (ZREMRANGEBYSCORE t k (now - window_ms) r)) ->
  (forall t', t <= t' -> number t' (seq_key k) r' = number t' (seq_key k) r) -> window_step t now limit k r r' None.
Proof. intros H1 H2. apply window_kept; [|done]. intros t' Ht. right. by rewrite H1, (evict_later t t') by done. Qed.
Lemma script_cases r : let '(x, r') := script_run r in
  (x = Ok "ok"%string /\ admits r r') \/ (x <> Ok "ok"%string /\ refuses r r').
Proof.
  destruct keys_differ as (?&?&?&?&?&?&?&?&?&?). unfold rate_limit_script, bind, modify, reads, ret. cbn -[member]. change (_WINDOW_SECONDS * 1000) with window_ms. change (_WINDOW_SECONDS + 5) with 65.
  set (r1 := ZREMRANGEBYSCORE t dk (now - window_ms) r). destruct (Z.leb_spec dl (Z.of_nat (size (zset t dk r1)))) as [Hd|Hd]; cbn -[member].
  { right. split; [done|]. split; [|split].
    - apply kept_evicted; [done|]. intros t' Ht. unfold r1. by framed.
    - apply window_kept; intros t' Ht; [left|]; unfold r1; by framed.
    - intros t' Ht. unfold r1. by framed. }
  set (r2 := ZREMRANGEBYSCORE t uk (now - window_ms) r1). assert (Hsame : window_step t now dl dk r r2 None /\ window_step t now ul uk r r2 None /\ forall t', t <= t' -> number t' day r2 = number t' day r).
  { split; [|split].
    - apply kept_evicted; intros t' Ht; unfold r2, r1; by framed.
    - apply kept_evicted; intros t' Ht; unfold r2, r1; framed; [|done]. rewrite !(evict_later t t') by done. f_equal. by framed.
    - intros t' Ht. unfold r2, r1. by framed. }
  destruct (Z.leb_spec ul (Z.of_nat (size (zset t uk r2)))) as [Hu|Hu]; cbn -[member]; [by right|].
  destruct (Z.leb_spec daily_limit (default 0 (number t day r2))) as [Hday|Hday]; cbn -[member]; [by right|].
  left. split; [done|]. set (qd := default 0 (number t (seq_key dk) r2) + 1).
  assert (Ed : number t (seq_key dk) (INCR t (seq_key dk) r2) = Some qd) by apply number_incr.
  assert (Eu : number t (seq_key uk) (INCR t (seq_key uk) (INCR t (seq_key dk) r2)) = Some (default 0 (number t (seq_key uk) r) + 1)) by (rewrite number_incr; unfold r2, r1; by framed).
  rewrite Ed, Eu. cbn [default from_option id].
  assert (E1 : zset t dk r1 = filter (recent now) (zset t dk r)) by (unfold r1; apply evict_later; lia).
  assert (E2 : zset t uk r2 = filter (recent now) (zset t uk r)) by (unfold r2; rewrite evict_later by lia; f_equal; unfold r1; by framed).
  split; [|split; [|split]].
  - exists qd. apply window_added; [unfold qd, r2, r1; by framed|by rewrite <- E1|]. intros t' Ht. split.
    + framed. rewrite zset_lives by (try lia; rewrite zset_zadd; apply insert_non_empty). rewrite zset_zadd, <- E1. f_equal. unfold r2. by framed.
    + framed. rewrite (number_lives t t' _ _ qd); [done|lia|]. framed. apply number_incr.
  - exists (default 0 (number t (seq_key uk) r) + 1). apply window_added; [done|by rewrite <- E2|]. intros t' Ht. split.
    + framed. rewrite zset_lives by (try lia; rewrite zset_zadd; apply insert_non_empty). rewrite zset_zadd, <- E2. f_equal. by framed.
    + framed. rewrite (number_lives t t' _ _ (default 0 (number t (seq_key uk) r) + 1)); [done|lia|]. framed. exact Eu.
  - destruct Hsame as (_&_&Hsame). by rewrite <- Hsame by lia.
  - intros t' Ht. destruct Hsame as (_&_&Hsame). rewrite <- (Hsame t) by lia. rewrite (number_lives t t' _ _ (default 0 (number t day r2) + 1)); [done|lia|]. rewrite number_incr. do 2 f_equal. by framed.
Qed.
(** Other keys are left alone. *)
Lemma script_frame r t' k : t <= t' -> k ∉ [dk; uk; seq_key dk; seq_key uk; day] -> zset t' k (script_run r).2 = zset t' k r /\ number t' k (script_run r).2 = number t' k r.
Proof.
  intros Ht Hk. assert (k <> dk /\ k <> uk /\ k <> seq_key dk /\ k <> seq_key uk /\ k <> day) as (?&?&?&?&?) by set_solver.
  unfold rate_limit_script, bind, modify, reads, ret. cbn -[member]. destruct (_ <=? _); cbn -[member]; [by split; framed|]. destruct (_ <=? _); cbn -[member]; [by split; framed|].
  destruct (_ <=? _); cbn -[member]; by split; framed.
Qed.
End script.

(** ** Names of keys *)
Lemma append_length s t : String.length (s +:+ t) = (String.length s + String.length t)%nat.
Proof. induction s as [|a s IH]; [done|]. change (String.length (String a s +:+ t)) with (S (String.length (s +:+ t))). rewrite IH. done. Qed.
Lemma append_inj s1 s2 t1 t2 : String.length t1 = String.length t2 -> s1 +:+ t1 = s2 +:+ t2 -> s1 = s2 /\ t1 = t2.
Proof.
  intros Ht. revert s2. induction s1 as [|a s1 IH]; intros [|b s2] H; [done| | |].
  - exfalso. apply (f_equal String.length) in H. rewrite !append_length in H. cbn in H. lia.
  - exfalso. apply (f_equal String.length) in H. rewrite !append_length in H. cbn in H. lia.
  - change (String a (s1 +:+ t1) = String b (s2 +:+ t2)) in H. injection H as <- H. by destruct (IH _ H) as [<- <-].
Qed.
Lemma seq_key_inj k k' : seq_key k = seq_key k' -> k = k'.
Proof. intros H. by apply append_inj in H as [-> _]. Qed.
Lemma seq_key_longer k : k <> seq_key k.
Proof. intros H. apply (f_equal String.length) in H. unfold seq_key in H. rewrite append_length in H. cbn in H. lia. Qed.
Lemma daily_key_inj u u' d d' : String.length d = String.length d' -> daily_key u d = daily_key u' d' -> u = u' /\ d = d'.
Proof.
  unfold daily_key. intros Hd H. apply (inj (String.append "alfred:fetch_budget:")) in H. apply append_inj in H as [-> H]; [|by rewrite !append_length, Hd].
  split; [done|]. by apply (inj (String.append ":")) in H.
Qed.
Lemma daily_not_domain u d x : daily_key u d <> domain_key x.
Proof. unfold daily_key, domain_key. discriminate. Qed.
Lemma daily_not_user u d x : daily_key u d <> user_key x.
Proof. unfold daily_key, user_key. discriminate. Qed.
Lemma daily_not_seq u d x : daily_key u d <> seq_key (domain_key x) /\ daily_key u d <> seq_key (user_key x).
Proof. unfold daily_key, domain_key, user_key, seq_key. split; discriminate. Qed.
Fixpoint no_colon (s : string) : bool := match s with EmptyString => true | String a s => negb (Ascii.eqb a ":"%char) && no_colon s end.
Lemma no_colon_digits x s : no_colon s = true -> no_colon (pretty_N_go x s) = true.
Proof.
  revert s. induction (N.lt_wf_0 x) as [x _ IH]. intros s Hs. destruct (decide (0 < x)%N) as [Hx|Hx]; [|replace x with 0%N by lia; by rewrite pretty_N_go_0].
  rewrite pretty_N_go_step by done. apply IH; [apply N.div_lt; lia|]. cbn. rewrite Hs, andb_true_r. unfold pretty_N_char. by repeat case_match.
Qed.
Lemma no_colon_N x : no_colon (pretty (x : N)) = true.
Proof. unfold pretty, pretty_N. destruct (decide _); [done|]. by apply no_colon_digits. Qed.
Lemma no_colon_Z x : no_colon (pretty (x : Z)) = true.
Proof. destruct x; [done|apply no_colon_N|]. change (no_colon (pretty (Npos p)) = true). apply no_colon_N. Qed.
Lemma colon_inj s s' t t' : no_colon s = true -> no_colon s' = true -> s +:+ String ":"%char t = s' +:+ String ":"%char t' -> s = s' /\ t = t'.
Proof.
  revert s'. induction s as [|a s IH]; intros [|b s'] Hs Hs' H.
  - by injection H.
  - change (String ":"%char t = String b (s' +:+ String ":"%char t')) in H. injection H as <- _. done.
  - change (String a (s +:+ String ":"%char t) = String ":"%char t') in H. injection H as -> _. done.
  - change (String a (s +:+ String ":"%char t) = String b (s' +:+ String ":"%char t')) in H. injection H as <- H. cbn in Hs, Hs'. apply andb_true_iff in Hs as [_ Hs], Hs' as [_ Hs']. by destruct (IH s' Hs Hs' H) as [-> ->].
Qed.
Lemma member_inj now now' q q' : member now q = member now' q' -> now = now' /\ q = q'.
Proof. unfold member. intros H. apply colon_inj in H as [H1 H2]; [|apply no_colon_Z..]. by apply (inj _) in H1, H2. Qed.

(** ** A window over time *)
Definition current (c c0 : Clocks) : Prop := host_ms c - window_ms < host_ms c0 /\ server_ms c < server_ms c0 + 65000.
#[export] Instance current_dec c c0 : Decision (current c c0).
Proof. unfold current. apply _. Defined.
Lemma current_before c c' c0 : after c c' -> current c' c0 -> current c c0.
Proof. unfold after, current. lia. Qed.
Lemma after_refl c : after c c.
Proof. unfold after. lia. Qed.
Lemma after_trans c1 c2 c3 : after c1 c2 -> after c2 c3 -> after c1 c3.
Proof. unfold after. lia. Qed.
Section window_over_time.
Context {R : Type} `{!Redis R} `{!RedisLaws R}.
Variables (k : string) (limit : Z).
(** The admissions that reached the server, with their numbers. *)
Record window_holds (c : Clocks) (r : R) (A : list (Clocks * Z)) : Prop := {
  w_size : Z.of_nat (size (zset (server_ms c) k r)) <= limit;
  w_past : Forall (fun a => after a.1 c) A;
  w_kept c' a : after c c' -> a ∈ A -> current c' a.1 ->
    zset (server_ms c') k r !! member (host_ms a.1) a.2 = Some (host_ms a.1) /\ exists n, number (server_ms c') (seq_key k) r = Some n /\ a.2 <= n;
  w_numbers c' : after c c' -> NoDup (snd <$> filter (fun a => current c' a.1) A) }.
Lemma window_ages c c' r A : after c c' -> window_holds c r A -> window_holds c' r A.
Proof.
  intros Hc [H1 H2 H3 H4]. split.
  - pose proof (size_ages _ _ k r (proj2 Hc)). lia.
  - eapply Forall_impl; [exact H2|]. intros a Ha. exact (after_trans _ _ _ Ha Hc).
  - intros c2 a H. apply H3. exact (after_trans _ _ _ Hc H).
  - intros c2 H. apply H4. exact (after_trans _ _ _ Hc H).
Qed.
Lemma window_step_kept c r r' A : window_step (server_ms c) (host_ms c) limit k r r' None -> window_holds c r A -> window_holds c r' A.
Proof.
  intros Hstep [H1 H2 H3 H4]. inversion Hstep as [Hz Hn|]; subst. split; [|done| |done].
  - destruct (Hz (server_ms c)) as [->| ->]; [lia|done|]. assert (size (filter (recent (host_ms c)) (zset (server_ms c) k r)) <= size (zset (server_ms c) k r))%nat by apply map_size_filter. lia.
  - intros c' a Hc Ha Hcur. destruct (H3 c' a Hc Ha Hcur) as [E1 E2]. rewrite Hn by apply Hc. split; [|done]. destruct (Hz (server_ms c')) as [->| ->]; [apply Hc|done|].
    apply map_lookup_filter_Some. split; [done|]. unfold recent. cbn. destruct Hcur, Hc. lia.
Qed.
Lemma window_step_added c r r' A q : window_step (server_ms c) (host_ms c) limit k r r' (Some q) -> window_holds c r A -> window_holds c r' (A ++ [(c, q)]).
Proof.
  intros Hstep [H1 H2 H3 H4]. inversion Hstep as [|q' Hq Hlt Hz]; subst q'.
  assert (Hless : forall c' a, after c c' -> a ∈ A -> current c' a.1 -> a.2 < q).
  { intros c' a Hc Ha Hcur. destruct (H3 c a (after_refl c) Ha (current_before c c' _ Hc Hcur)) as [_ (n&E&Hn)]. rewrite E in Hq. cbn in Hq. lia. }
  split.
  - destruct (Hz (server_ms c)) as [-> _]; [lia|]. rewrite map_size_insert. destruct (_ !! _); cbn; lia.
  - apply Forall_app. split; [done|]. constructor; [apply after_refl|constructor].
  - intros c' a Hc Ha Hcur. assert (Ht : server_ms c <= server_ms c' < server_ms c + 65000).
    { split; [apply Hc|]. apply elem_of_app in Ha as [Ha|Ha]; [|apply list_elem_of_singleton in Ha as ->; apply Hcur]. rewrite Forall_forall in H2. specialize (H2 _ Ha). destruct H2, Hcur. lia. }
    destruct (Hz _ Ht) as [-> ->]. apply elem_of_app in Ha as [Ha|Ha].
    + specialize (Hless c' a Hc Ha Hcur). split; [|exists q; split; [done|lia]]. rewrite lookup_insert_ne; [|].
      * destruct (H3 c a (after_refl c) Ha (current_before c c' _ Hc Hcur)) as [E _]. apply map_lookup_filter_Some. split; [done|]. unfold recent. cbn. destruct Hcur, Hc. lia.
      * intros [_ E]%member_inj. lia.
    + apply list_elem_of_singleton in Ha as ->. cbn. rewrite lookup_insert_eq. split; [done|]. by exists q.
  - intros c' Hc. rewrite filter_app, fmap_app. apply NoDup_app. split; [by apply H4|]. split.
    + intros x (a&->&[Hcur Ha]%list_elem_of_filter)%list_elem_of_fmap Hx. specialize (Hless c' a Hc Ha Hcur). apply list_elem_of_fmap in Hx as (b&Hb&[_ Hin]%list_elem_of_filter). apply list_elem_of_singleton in Hin as ->. cbn in Hb. lia.
    + rewrite filter_cons, filter_nil. destruct (decide _); repeat constructor. set_solver.
Qed.
End window_over_time.

(** ** Runs of the rate limiter *)
Record fetch := { f_at : Clocks; f_fate : Fate; f_domain : string; f_user : string }.
Definition dk (e : fetch) : string := domain_key (f_domain e).
Definition uk (e : fetch) : string := user_key (f_user e).
(** No domain of the run is named so that its keys are those of a user. *)
Definition apart (es : list fetch) : Prop :=
  (forall e e', e ∈ es -> e' ∈ es -> dk e <> uk e') /\
  forall k k', k ∈ (dk <$> es) ++ (uk <$> es) -> k' ∈ (dk <$> es) ++ (uk <$> es) -> k <> seq_key k'.
(** [strftime] with [%Y-%m-%d], until the year 9999: dates have one length, and the times of a
    date lie within a day. *)
Definition in_era (ms : Z) : Prop := 0 <= ms < 253402300800000.
Record calendar (date : Z -> string) : Prop := {
  date_length ms ms' : in_era ms -> in_era ms' -> String.length (date ms) = String.length (date ms');
  date_day ms ms' : in_era ms -> in_era ms' -> date ms = date ms' -> ms' - ms < 86400000 }.
(** The server's clock gains at most five seconds on the host's. *)
Definition paced (c c' : Clocks) : Prop := server_ms c' - server_ms c <= host_ms c' - host_ms c + 5000.
Section fetches.
Context {R : Type} `{!Redis R} `{!RedisLaws R}.
Variables (config : RateLimitConfig) (date : Z -> string).
Hypothesis Hdate : calendar date.
Definition day (e : fetch) : string := date (host_ms (f_at e)).
Definition perform_fetch (e : fetch) : script (R := R) unit := check_and_increment config (f_fate e) (f_at e) (day e) (f_domain e) (f_user e).
Fixpoint run_fetches (es : list fetch) (r : R) : list (fetch * result QuotaError unit) * R :=
  match es with [] => ([], r) | e :: es => let '(x, r) := perform_fetch e r in let '(log, r) := run_fetches es r in ((e, x) :: log, r) end.
Definition let_in (x : fetch * result QuotaError unit) : Prop := x.2 = Ok tt.
#[export] Instance let_in_dec x : Decision (let_in x).
Proof. destruct x as [e [[]|y]]; [left|right]; done. Defined.
Definition fetch_script (e : fetch) (r : R) : result QuotaError string * R := rate_limit_script (server_ms (f_at e)) (dk e) (uk e) (daily_key (f_user e) (day e))
  (per_domain_per_minute config) (per_user_per_minute config) (per_user_daily config) _WINDOW_SECONDS _DAILY_TTL_SECONDS (host_ms (f_at e)) r.
Lemma perform_fetch_cases e r : let '(x, r') := perform_fetch e r in
  (r' = r \/ r' = (fetch_script e r).2) /\ (x = Ok tt -> fetch_script e r = (Ok "ok"%string, r')).
Proof.
  unfold perform_fetch, check_and_increment, fetch_script, bind, trip. fold (dk e) (uk e). destruct (f_fate e) as [|[] y]; [|by split; [right|]|by split; [left|]].
  destruct (rate_limit_script _ _ _ _ _ _ _ _ _ _ r) as [[s|y] r']; cbn; [|by split; [right|]]. case_bool_decide as Hs; [subst s; by split; [right|]|]. case_bool_decide; by split; [right|].
Qed.
Lemma fetch_keys e : dk e <> uk e -> dk e <> seq_key (uk e) -> uk e <> seq_key (dk e) -> NoDup [dk e; uk e; seq_key (dk e); seq_key (uk e); daily_key (f_user e) (day e)].
Proof.
  intros H1 H2 H3. pose proof (seq_key_longer (dk e)). pose proof (seq_key_longer (uk e)). pose proof (daily_not_domain (f_user e) (day e) (f_domain e)). pose proof (daily_not_user (f_user e) (day e) (f_user e)).
  destruct (daily_not_seq (f_user e) (day e) (f_domain e)) as [D1 _]. destruct (daily_not_seq (f_user e) (day e) (f_user e)) as [_ D2]. fold (dk e) (uk e) in *.
  assert (seq_key (dk e) <> seq_key (uk e)) by (intros E; by apply seq_key_inj in E). repeat (apply NoDup_cons; split; [set_solver|]). constructor.
Qed.
(** What a fetch does to any window of the run. *)
Definition window_of (dom : bool) (x : string) : string := if dom then domain_key x else user_key x.
Definition named (dom : bool) (e : fetch) : string := if dom then f_domain e else f_user e.
Definition limit_of (dom : bool) : Z := if dom then per_domain_per_minute config else per_user_per_minute config.
Lemma window_of_inj dom x y : window_of dom x = window_of dom y -> x = y.
Proof. destruct dom; cbn; unfold domain_key, user_key; by intros H%(inj _). Qed.
Lemma window_in dom x es e0 : e0 ∈ es -> named dom e0 = x -> window_of dom x ∈ (dk <$> es) ++ (uk <$> es).
Proof. intros H <-. apply elem_of_app. destruct dom; [left|right]; apply list_elem_of_fmap; by exists e0. Qed.
Lemma perform_window es e e0 dom x r : apart es -> e ∈ es -> e0 ∈ es -> named dom e0 = x ->
  let '(y, r') := perform_fetch e r in exists o, window_step (server_ms (f_at e)) (host_ms (f_at e)) (limit_of dom) (window_of dom x) r r' o /\ (y = Ok tt -> named dom e = x -> o <> None).
Proof.
  intros [Ha1 Ha2] He He0 Hx. pose proof (perform_fetch_cases e r) as H. destruct (perform_fetch e r) as [y r']. destruct H as [Hr Hy].
  assert (Hin : forall d, window_of d (named d e) ∈ (dk <$> es) ++ (uk <$> es)) by (intros d; by apply (window_in d _ es e)).
  pose proof (window_in dom x es e0 He0 Hx) as Hk. assert (Hkeys := fetch_keys e (Ha1 e e He He) (Ha2 _ _ (Hin true) (Hin false)) (Ha2 _ _ (Hin false) (Hin true))).
  assert (Hsame : window_step (server_ms (f_at e)) (host_ms (f_at e)) (limit_of dom) (window_of dom x) r r None) by (apply window_kept; auto).
  assert (Hs := script_cases (server_ms (f_at e)) _ _ _ (per_domain_per_minute config) (per_user_per_minute config) (per_user_daily config) _DAILY_TTL_SECONDS (host_ms (f_at e)) Hkeys eq_refl r). fold (fetch_script e r) in Hs.
  assert (Hf := fun t' k => script_frame (server_ms (f_at e)) (dk e) (uk e) (daily_key (f_user e) (day e)) (per_domain_per_minute config) (per_user_per_minute config) (per_user_daily config) _DAILY_TTL_SECONDS (host_ms (f_at e)) Hkeys eq_refl r t' k). fold (fetch_script e r) in Hf.
  destruct (decide (named dom e = x)) as [Hd|Hd].
  - destruct (fetch_script e r) as [z r2]. cbn in Hr. destruct Hs as [[-> (Hs1&Hs2&_)]|[Hz (Hs1&Hs2&_)]].
    + assert (Hsome : exists q, window_step (server_ms (f_at e)) (host_ms (f_at e)) (limit_of dom) (window_of dom x) r r2 (Some q)) by (rewrite <- Hd; destruct dom; [exact Hs1|exact Hs2]).
      destruct y as [[]|y]; [injection (Hy eq_refl) as ->; destruct Hsome as [q Hs]; by exists (Some q)|]. destruct Hr as [->| ->]; [by exists None|]. destruct Hsome as [q Hs]. by exists (Some q).
    + exists None. split; [|intros Hok; injection (Hy Hok) as ->; by destruct Hz]. destruct Hr as [->| ->]; [done|]. rewrite <- Hd. destruct dom; [exact Hs1|exact Hs2].
  - exists None. split; [|done]. destruct Hr as [->| ->]; [done|].
    assert (Hne : (window_of dom x ∉ [dk e; uk e; seq_key (dk e); seq_key (uk e); daily_key (f_user e) (day e)]) /\ (seq_key (window_of dom x) ∉ [dk e; uk e; seq_key (dk e); seq_key (uk e); daily_key (f_user e) (day e)])).
    { assert (window_of dom x <> dk e /\ window_of dom x <> uk e) as [N1 N2].
      { destruct dom; split.
        - intros E. by apply (window_of_inj true) in E.
        - subst x. by apply Ha1.
        - subst x. intros E. by apply (Ha1 e e0).
        - intros E. by apply (window_of_inj false) in E. }
      assert (window_of dom x <> daily_key (f_user e) (day e)) by (destruct dom; [apply not_eq_sym, daily_not_domain|apply not_eq_sym, daily_not_user]).
      assert (seq_key (window_of dom x) <> daily_key (f_user e) (day e)) by (destruct dom; apply not_eq_sym; apply daily_not_seq).
      pose proof (Ha2 _ _ Hk (Hin true)). pose proof (Ha2 _ _ Hk (Hin false)). pose proof (Ha2 _ _ (Hin true) Hk). pose proof (Ha2 _ _ (Hin false) Hk). cbn in *. fold (dk e) (uk e) in *.
      assert (seq_key (window_of dom x) <> seq_key (dk e)) by (intros E; by apply seq_key_inj in E). assert (seq_key (window_of dom x) <> seq_key (uk e)) by (intros E; by apply seq_key_inj in E). set_solver. }
    destruct Hne as [Hne1 Hne2]. apply window_kept; intros t' Ht; [left|]; by apply Hf.
Qed.
(** The fetches let in that count for a window at a time, and for a day. *)
Definition counts (dom : bool) (x : string) (c : Clocks) (y : fetch * result QuotaError unit) : Prop := let_in y /\ named dom y.1 = x /\ host_ms c - window_ms < host_ms (f_at y.1).
#[export] Instance counts_dec dom x c y : Decision (counts dom x c y).
Proof. unfold counts. apply _. Defined.
Definition counts_day (u d : string) (y : fetch * result QuotaError unit) : Prop := let_in y /\ f_user y.1 = u /\ day y.1 = d.
#[export] Instance counts_day_dec u d y : Decision (counts_day u d y).
Proof. unfold counts_day. apply _. Defined.
Definition in_sequence (c0 c : Clocks) (es : list fetch) : Prop :=
  StronglySorted (fun a b => after (f_at a) (f_at b) /\ paced (f_at a) (f_at b)) es /\ Forall (fun e => after c0 (f_at e) /\ after (f_at e) c /\ paced (f_at e) c) es.
Lemma in_sequence_cons c0 c e es : in_sequence c0 c (e :: es) -> after c0 (f_at e) /\ after (f_at e) c /\ paced (f_at e) c /\ Forall (fun a => paced (f_at e) (f_at a)) es /\ in_sequence (f_at e) c es.
Proof.
  intros [Hs Hf]. apply StronglySorted_inv in Hs as [Hs He]. apply Forall_cons in Hf as [(H1&H2&H3) Hf]. rewrite Forall_forall in He, Hf.
  split; [done|]. split; [done|]. split; [done|]. split; [apply Forall_forall; intros a Ha; by apply He|]. split.
  { clear -Hs. induction Hs as [|a l Hs IH Hl]; constructor; [done|done]. } apply Forall_forall. intros a Ha. specialize (Hf a Ha). split; [by apply He|]. by destruct Hf.
Qed.
Lemma run_window es0 e0 dom x : apart es0 -> e0 ∈ es0 -> named dom e0 = x -> forall es c0 c r A, es ⊆ es0 -> in_sequence c0 c es -> after c0 c ->
  window_holds (window_of dom x) (limit_of dom) c0 r A -> let '(log, r') := run_fetches es r in
  exists B, window_holds (window_of dom x) (limit_of dom) c r' (A ++ B) /\ (length (filter (counts dom x c) log) <= length (filter (fun a => current c a.1) B))%nat.
Proof.
  intros Ha He0 Hx. induction es as [|e es IH]; intros c0 c r A Hes Hseq Hc Hw; cbn [run_fetches].
  { exists []. rewrite app_nil_r. split; [by apply (window_ages _ _ c0)|done]. }
  apply in_sequence_cons in Hseq as (H1&H2&H3&_&Hseq). apply (window_ages _ _ c0 (f_at e)) in Hw; [|done].
  assert (He : e ∈ es0) by (apply Hes; constructor). pose proof (perform_window es0 e e0 dom x r Ha He He0 Hx) as Hp. destruct (perform_fetch e r) as [y r1]. destruct Hp as (o&Hstep&Ho).
  assert (Hnext : exists B, window_holds (window_of dom x) (limit_of dom) (f_at e) r1 (A ++ B) /\ (length (filter (counts dom x c) [(e, y)]) <= length (filter (fun a => current c a.1) B))%nat).
  { destruct o as [q|].
    - exists [(f_at e, q)]. split; [exact (window_step_added _ _ _ _ _ _ _ Hstep Hw)|]. rewrite !filter_cons, !filter_nil. destruct (decide (counts dom x c (e, y))) as [(_&_&Hr)|]; [|cbn; lia].
      rewrite decide_True; [done|]. split; [done|]. unfold paced, window_ms in *. cbn in *. lia.
    - exists []. rewrite app_nil_r. split; [by apply (window_step_kept _ _ _ r)|]. rewrite filter_cons, filter_nil. rewrite decide_False; [done|]. intros (Hl&Hn&_). by apply Ho. }
  destruct Hnext as (B&HB&Hlen). specialize (IH (f_at e) c r1 (A ++ B)). destruct (run_fetches es r1) as [log r2]. destruct IH as (B'&HB'&Hlen'); [set_solver|done|done|done|].
  exists (B ++ B'). rewrite app_assoc. split; [done|]. change ((e, y) :: log) with ([(e, y)] ++ log). rewrite !filter_app, !length_app. lia.
Qed.
Lemma NoDup_members (l : list (Clocks * Z)) : NoDup (snd <$> l) -> NoDup ((fun a => member (host_ms a.1) a.2) <$> l).
Proof.
  induction l as [|a l IH]; intros H; [constructor|]. apply NoDup_cons in H as [H1 H2]. apply NoDup_cons. split; [|by apply IH]. intros (b&E&Hb)%list_elem_of_fmap.
  apply H1. apply member_inj in E as [_ E]. apply list_elem_of_fmap. by exists b.
Qed.
Lemma window_count k limit c r A : window_holds k limit c r A -> Z.of_nat (length (filter (fun a => current c a.1) A)) <= limit.
Proof.
  intros [H1 H2 H3 H4]. pose proof (length_le_size ((fun a => member (host_ms a.1) a.2) <$> filter (fun a => current c a.1) A) (zset (server_ms c) k r) (NoDup_members _ (H4 c (after_refl c)))) as H.
  rewrite length_fmap in H. enough (length (filter (fun a => current c a.1) A) <= size (zset (server_ms c) k r))%nat by lia. apply H. intros m (a&->&[Hc Ha]%list_elem_of_filter)%list_elem_of_fmap.
  destruct (H3 c a (after_refl c) Ha Hc) as [E _]. by eexists.
Qed.
(** The daily counter holds at least what it let in on its day, until two days after it last
    did. *)
Definition spent_today (c : Clocks) (k : string) (r : R) : Z := default 0 (number (server_ms c) k r).
Record day_holds (u d : string) (c : Clocks) (r : R) (n : Z) (since : Clocks) : Prop := {
  d_limit : n <= per_user_daily config;
  d_sign : 0 <= spent_today c (daily_key u d) r;
  d_past : after since c;
  d_kept c' : after c c' -> server_ms c' < server_ms since + 1000 * _DAILY_TTL_SECONDS -> n <= spent_today c' (daily_key u d) r }.
Lemma spent_ages c c' k r : after c c' -> spent_today c' k r = spent_today c k r \/ spent_today c' k r = 0.
Proof. intros [_ Hc]. unfold spent_today. rewrite (number_ages _ _ k r Hc). destruct (alive _ _ _); auto. Qed.
Lemma day_ages u d c c' r n since : after c c' -> day_holds u d c r n since -> day_holds u d c' r n since.
Proof.
  intros Hc [H1 H2 H3 H4]. split; [done| |exact (after_trans _ _ _ H3 Hc)|].
  - destruct (spent_ages c c' (daily_key u d) r Hc) as [->| ->]; lia.
  - intros c2 H. apply H4. exact (after_trans _ _ _ Hc H).
Qed.
Lemma day_frame u d c r r' n since : (forall c', after c c' -> number (server_ms c') (daily_key u d) r' = number (server_ms c') (daily_key u d) r) -> day_holds u d c r n since -> day_holds u d c r' n since.
Proof.
  intros Hf [H1 H2 H3 H4]. unfold spent_today in *. split; unfold spent_today; [done|by rewrite Hf by apply after_refl|done|]. intros c' Hc Hs. rewrite Hf by done. by apply H4.
Qed.
Lemma perform_day es e u ms r n since : let d := date ms in in_era ms -> apart es -> e ∈ es -> in_era (host_ms (f_at e)) -> (in_era (host_ms since) /\ date (host_ms since) = d) /\ paced since (f_at e) \/ n = 0 -> day_holds u d (f_at e) r n since ->
  let '(y, r') := perform_fetch e r in (y <> Ok tt \/ f_user e <> u \/ day e <> d) /\ day_holds u d (f_at e) r' n since \/ day e = d /\ day_holds u d (f_at e) r' (n + 1) (f_at e).
Proof.
  intros d Hms [Ha1 Ha2] He Hera Hsince Hd. pose proof (perform_fetch_cases e r) as H. destruct (perform_fetch e r) as [y r']. destruct H as [Hr Hy].
  assert (Hin : forall dm, window_of dm (named dm e) ∈ (dk <$> es) ++ (uk <$> es)) by (intros dm; by apply (window_in dm _ es e)).
  assert (Hkeys := fetch_keys e (Ha1 e e He He) (Ha2 _ _ (Hin true) (Hin false)) (Ha2 _ _ (Hin false) (Hin true))).
  assert (Hs := script_cases (server_ms (f_at e)) _ _ _ (per_domain_per_minute config) (per_user_per_minute config) (per_user_daily config) _DAILY_TTL_SECONDS (host_ms (f_at e)) Hkeys eq_refl r). fold (fetch_script e r) in Hs.
  assert (Hf := fun t' k => script_frame (server_ms (f_at e)) (dk e) (uk e) (daily_key (f_user e) (day e)) (per_domain_per_minute config) (per_user_per_minute config) (per_user_daily config) _DAILY_TTL_SECONDS (host_ms (f_at e)) Hkeys eq_refl r t' k). fold (fetch_script e r) in Hf.
  destruct (decide (f_user e = u /\ day e = d)) as [[Hu Hday]|Hne].
  - destruct (fetch_script e r) as [z r2]. cbn in Hr. rewrite Hu, Hday in *. destruct Hs as [[-> (_&_&Hlt&Hnum)]|[Hz (_&_&Hnum)]].
    + assert (Hmore : day_holds u d (f_at e) r2 (n + 1) (f_at e)).
      { assert (Hnow : n <= spent_today (f_at e) (daily_key u d) r).
        { destruct Hsince as [[[Hsera Hsince] Hpaced]| ->]; [|apply (d_sign _ _ _ _ _ _ Hd)]. apply (d_kept _ _ _ _ _ _ Hd); [apply after_refl|]. pose proof (date_day _ Hdate (host_ms since) (host_ms (f_at e)) Hsera Hera (eq_trans Hsince (eq_sym Hday))).
          unfold paced, _DAILY_TTL_SECONDS in *. lia. }
        unfold spent_today in *. pose proof (d_sign _ _ _ _ _ _ Hd) as Hsign. unfold spent_today in Hsign. split; unfold spent_today.
        - lia.
        - rewrite Hnum; [cbn; lia|]. unfold _DAILY_TTL_SECONDS. lia.
        - apply after_refl.
        - intros c' Hc Hlater. rewrite Hnum; [cbn; lia|]. split; [apply Hc|done]. }
      destruct y as [[]|y]; [right; injection (Hy eq_refl) as ->; done|]. destruct Hr as [->| ->]; [left; split; [by left|done]|by right].
    + left. split; [left; intros Hok; injection (Hy Hok) as ->; by destruct Hz|]. destruct Hr as [->| ->]; [done|]. apply (day_frame _ _ _ r); [|done]. intros c' Hc. apply Hnum, Hc.
  - left. split; [destruct (decide (f_user e = u)); [right; right; intros E; by apply Hne|by right; left]|]. destruct Hr as [->| ->]; [done|]. apply (day_frame _ _ _ r); [|done]. intros c' Hc.
    apply Hf; [apply Hc|]. pose proof (daily_not_domain u d (f_domain e)). pose proof (daily_not_user u d (f_user e)). destruct (daily_not_seq u d (f_domain e)) as [D1 _]. destruct (daily_not_seq u d (f_user e)) as [_ D2].
    fold (dk e) (uk e) in *.
    assert (daily_key u d <> daily_key (f_user e) (day e)); [|set_solver].
    intros [E1 E2]%daily_key_inj; [by apply Hne|]. by apply (date_length _ Hdate).
Qed.
Lemma run_day es0 u ms : in_era ms -> apart es0 -> Forall (fun e => in_era (host_ms (f_at e))) es0 -> let d := date ms in forall es c0 c r n since, es ⊆ es0 -> in_sequence c0 c es -> after c0 c -> (in_era (host_ms since) /\ date (host_ms since) = d) /\ Forall (fun e => paced since (f_at e)) es \/ n = 0 -> day_holds u d c0 r n since -> let '(log, r') := run_fetches es r in n + Z.of_nat (length (filter (counts_day u d) log)) <= per_user_daily config.
Proof.
  intros Hms Ha Hera d. induction es as [|e es IH]; intros c0 c r n since Hes Hseq Hc Hsince Hd; cbn [run_fetches]; [cbn; destruct Hd; lia|].
  apply in_sequence_cons in Hseq as (H1&H2&H3&H4&Hseq). assert (Hsince1 : (in_era (host_ms since) /\ date (host_ms since) = d) /\ paced since (f_at e) \/ n = 0) by (destruct Hsince as [[? Hp]|?]; [left; by apply Forall_cons in Hp as [? _]|by right]).
  assert (Hsince2 : (in_era (host_ms since) /\ date (host_ms since) = d) /\ Forall (fun e => paced since (f_at e)) es \/ n = 0) by (destruct Hsince as [[? Hp]|?]; [left; by apply Forall_cons in Hp as [_ ?]|by right]). apply (day_ages _ _ c0 (f_at e)) in Hd; [|done].
  assert (He : e ∈ es0) by (apply Hes; constructor). assert (Herae : in_era (host_ms (f_at e))) by (rewrite Forall_forall in Hera; by apply Hera). pose proof (perform_day es0 e u ms r n since Hms Ha He Herae Hsince1 Hd) as Hstep. fold d in Hstep. destruct (perform_fetch e r) as [y r1].
  assert (Hes' : es ⊆ es0) by set_solver. destruct Hstep as [[Hno Hd']|[Hday Hd']].
  - specialize (IH (f_at e) c r1 n since Hes' Hseq H2 Hsince2 Hd'). destruct (run_fetches es r1) as [log r2]. rewrite filter_cons, decide_False; [done|]. unfold counts_day, let_in. cbn. tauto.
  - specialize (IH (f_at e) c r1 (n + 1) (f_at e) Hes' Hseq H2 (or_introl (conj (conj Herae Hday) H4)) Hd'). destruct (run_fetches es r1) as [log r2]. rewrite filter_cons. destruct (decide _); cbn [length]; lia.
Qed.
End fetches.
(** The rate limits hold.  On a Redis that starts empty, for any fetches by any tasks in
    the order Redis serves them, with round trips that break before or after the script,
    ordered clocks of which the server's gains at most five seconds, and names whose keys do
    not clash: at any time, of the fetches let in during the last minute at most
    [per_domain_per_minute] are of one domain and [per_user_per_minute] of one user, and a
    user is let in [per_user_daily] times a day. *)
Theorem fetch_rates_are_bounded {R : Type} `{!Redis R} `{!RedisLaws R} config date es (r : R) c0 c :
  calendar date -> Forall (fun e => in_era (host_ms (f_at e))) es ->
  0 <= per_domain_per_minute config -> 0 <= per_user_per_minute config -> 0 <= per_user_daily config ->
  (forall t k, zset t k r = ∅) -> (forall t k, number t k r = None) -> apart es -> in_sequence c0 c es -> after c0 c ->
  let log := (run_fetches config date es r).1 in
  (forall e dom, e ∈ es -> Z.of_nat (length (filter (counts dom (named dom e) c) log)) <= limit_of config dom) /\
  forall u ms, in_era ms -> Z.of_nat (length (filter (counts_day date u (date ms)) log)) <= per_user_daily config.
Proof.
  intros Hdate Hera H1 H2 H3 Hz Hn Ha Hseq Hc log. split.
  - intros e dom He. assert (Hw : window_holds (window_of dom (named dom e)) (limit_of config dom) c0 r []).
    { split; [rewrite Hz, map_size_empty; destruct dom; cbn; lia|constructor|by intros c' a _ H%elem_of_nil|intros; constructor]. }
    pose proof (run_window config date Hdate es e dom (named dom e) Ha He eq_refl es c0 c r [] ltac:(done) Hseq Hc Hw) as H. subst log. destruct (run_fetches config date es r) as [log r']. destruct H as (B&HB&Hcount).
    apply window_count in HB. cbn in *. lia.
  - intros u ms Hms. assert (Hd : day_holds config u (date ms) c0 r 0 c0) by (split; unfold spent_today; intros; rewrite ?Hn; try done; apply after_refl).
    pose proof (run_day config date Hdate es u ms Hms Ha Hera es c0 c r 0 c0 ltac:(done) Hseq Hc (or_intror eq_refl) Hd) as H. subst log. by destruct (run_fetches config date es r).
Qed.

(** ** Both limits at work *)
Module Concrete.
Definition at_second (n : Z) : Clocks := {| host_ms := 1000000 + 1000 * n; server_ms := 1000 * n |}.
Definition two : HandleCapConfig := {| per_user := 2 |}.
(** The third reservation waits for the release of the first; the first two callers are
    served in the order opposite to that in which they read the clock. *)
Definition three_handles : list event :=
  (fun x => {| at_ := {| host_ms := host_ms (at_second x.1.1); server_ms := server_ms (at_second x.1.2) |}; fate := Arrives; what := x.2 |}) <$>
  [(2, 1, Reserve "ada" "h1"); (1, 2, Reserve "ada" "h2"); (3, 3, Reserve "ada" "h3"); (4, 4, Free "ada" "h1"); (5, 5, Reserve "ada" "h4")].
(** Dates as three bytes of the number of the day. *)
Definition date (ms : Z) : string :=
  let n := Z.to_N (ms / 86400000) in
  String (ascii_of_N (n / 65536)) (String (ascii_of_N (n / 256 mod 256)) (String (ascii_of_N (n mod 256)) EmptyString)).
Definition one_a_minute : RateLimitConfig := {| per_domain_per_minute := 1; per_user_per_minute := 2; per_user_daily := 2 |}.
Definition four_fetches : list fetch :=
  (fun x => {| f_at := at_second x.1; f_fate := Arrives; f_domain := x.2; f_user := "ada" |}) <$>
  [(1, "a.org"%string); (2, "a.org"%string); (3, "b.org"%string); (70, "c.org"%string)].
End Concrete.
Import Concrete.
Lemma date_calendar : calendar date.
Proof.
  split; [done|]. intros ms ms' H H' E. unfold date in E.
  assert (Hinj : forall a b, (a < 256)%N -> (b < 256)%N -> ascii_of_N a = ascii_of_N b -> a = b).
  { intros a b Ha Hb Hab. apply (f_equal N_of_ascii) in Hab. by rewrite !N_ascii_embedding in Hab. }
  unfold in_era in *. assert (B : forall x, 0 <= x < 253402300800000 -> (Z.to_N (x / 86400000) < 2932898)%N) by (intros x Hx; assert (x / 86400000 < 2932898) by (apply Z.div_lt_upper_bound; lia); lia).
  pose proof (B ms H) as B1. pose proof (B ms' H') as B2. injection E as E1 E2 E3.
  apply Hinj in E1; [|apply N.Div0.div_lt_upper_bound; lia..]. apply Hinj in E2; [|apply N.mod_lt; lia..]. apply Hinj in E3; [|apply N.mod_lt; lia..].
  assert (Hn : Z.to_N (ms / 86400000) = Z.to_N (ms' / 86400000)).
  { revert B1 B2 E1 E2 E3. generalize (Z.to_N (ms / 86400000)) (Z.to_N (ms' / 86400000)). intros n m. clear. intros.
    pose proof (N.div_mod n 256). pose proof (N.div_mod m 256). pose proof (N.div_mod (n / 256) 256). pose proof (N.div_mod (m / 256) 256).
    rewrite !N.Div0.div_div in *. change (256 * 256)%N with 65536%N in *. lia. }
  assert (ms / 86400000 = ms' / 86400000) by (apply Z2N.inj; [apply Z.div_pos; lia..|done]).
  pose proof (Z.div_mod ms 86400000). pose proof (Z.div_mod ms' 86400000). pose proof (Z.mod_pos_bound ms 86400000). pose proof (Z.mod_pos_bound ms' 86400000). lia.
Qed.
Lemma slots_never_exceed_the_cap_witness : let log := (run two 120 three_handles no_tables).1 in
  snd <$> log = [Ok tt; Ok tt; Err (WebFetchRateLimited "handle_cap"); Ok tt; Ok tt] /\
  Z.of_nat (length (held 120 (at_second 6) "ada" log)) <= per_user two.
Proof.
  split; [vm_compute; reflexivity|]. apply (slots_never_exceed_the_cap two 120 three_handles no_tables (at_second 6) "ada"); [done|done| |].
  - split; [|repeat (constructor; [unfold after; cbn; lia|]); constructor]. repeat (constructor; [|repeat (constructor; [unfold served; cbn; lia|]); constructor]). constructor.
  - apply (bool_decide_unpack _). vm_compute. exact I.
Defined.
Lemma fetch_rates_are_bounded_witness : let log := (run_fetches one_a_minute date four_fetches no_tables).1 in
  snd <$> log = [Ok tt; Err (WebFetchRateLimited "per_domain"); Ok tt; Err (WebFetchRateLimited "daily_budget")] /\
  (forall e dom, e ∈ four_fetches -> Z.of_nat (length (filter (counts dom (named dom e) (at_second 71)) log)) <= limit_of one_a_minute dom) /\
  forall u ms, in_era ms -> Z.of_nat (length (filter (counts_day date u (date ms)) log)) <= per_user_daily one_a_minute.
Proof.
  split; [vm_compute; reflexivity|].
  apply (fetch_rates_are_bounded one_a_minute date four_fetches no_tables (at_second 0) (at_second 71) date_calendar); [|done|done|done|done|done| | |].
  - repeat (constructor; [unfold in_era; cbn; lia|]). constructor.
  - split.
    + assert (H : Forall (fun e => Forall (fun e' => dk e <> uk e') four_fetches) four_fetches) by (repeat constructor; discriminate). rewrite Forall_forall in H. intros e e' He He'. specialize (H e He). rewrite Forall_forall in H. by apply H.
    + assert (H : Forall (fun k => Forall (fun k' => k <> seq_key k') ((dk <$> four_fetches) ++ (uk <$> four_fetches))) ((dk <$> four_fetches) ++ (uk <$> four_fetches))) by (repeat constructor; discriminate).
      rewrite Forall_forall in H. intros k k' Hk Hk'. specialize (H k Hk). rewrite Forall_forall in H. by apply H.
  - split; [|repeat (constructor; [unfold after, paced; cbn; lia|]); constructor]. repeat (constructor; [|repeat (constructor; [unfold after, paced; cbn; lia|]); constructor]). constructor.
  - unfold after. cbn. lia.
Defined.
