(* ===== verification/WebFetch.v ===== *)
(** * One fetch of the web: [dispatch_web_fetch]

    [plugins/web_fetch/fetch_dispatcher.py]: the gates a [web.fetch] passes before it may
    reach the network, the slot it holds meanwhile, and the row it leaves.  The dispatcher is
    a program over the calls it makes of its collaborators (the outbound scan, the secret
    broker, the audit writer, the quotas of [WebQuota], the extractor of [EgressRelay]); a
    call answers anything, or raises.  Of an audit row the constant columns and the
    identifiers of the turn are left out. *)
From S2P Require Import Prelude EgressId EgressRelay WebAllowlist WebQuota Programs.
From Stdlib Require Import Qround.

(** The classes of exception the dispatcher tells apart. *)
Inductive exn :=
| WebFetchError (message_key : string) | WebFetchDomainNotAllowed | WebFetchRateLimited (bucket : string)
| WebFetchActionTimeout (egress_id : option string) (destination_host : string) (in_doubt : bool) (ledger_state : string)
| InboundCanaryTripped | TimeoutError | SecretSubstitutionNotAllowed | UnknownSecretError | OtherException
| CancelledError.
Definition is_exception (e : exn) : bool := match e with CancelledError => false | _ => true end.
Definition is_rate_limited (e : exn) : bool := match e with WebFetchRateLimited _ => true | _ => false end.
Definition is_secret_refusal (e : exn) : bool := match e with SecretSubstitutionNotAllowed | UnknownSecretError => true | _ => false end.

(** A row of [WEB_FETCH_FIELDS]. *)
Record fetch_row := {
  r_url : string; r_domain : string; r_status : option Z; r_bucket : option string; r_tier : string; r_dlp : string; r_canary : bool; r_result : string }.

(** ** Programs over the collaborators *)
Inductive op : Type -> Type :=
| Scan (x : string) : op string
| Substitute (x : string) : op string
| CapEmitted : op bool                    (* the latch of the configuration is set *)
| AppendCapped (e : BroadeningCapEvent) : op unit
| Latch : op unit
| Append (r : fetch_row) : op unit
| CheckAndIncrement (domain user_id : string) : op unit
| NewId : op string                       (* uuid4 *)
| TryReserve (user_id handle_id : string) (ttl : Z) : op unit
| Extract (q : _RawToolRequest) : op EgressExtractOutcome   (* extractor.handle, under the deadline *)
| LedgerState (egress_id : option string) : op string       (* bounded by its own deadline *)
| Release (user_id handle_id : string) : op unit.
#[local] Abbreviation prog := (program exn op).
#[local] Abbreviation event := (entry exn op).
#[local] Open Scope prog_scope.

(** ** The dispatcher *)
Definition _DEFAULT_HANDLE_RESERVATION_TTL_SECONDS : Z := 120.
Definition reservation_ttl (action_deadline_seconds : Q) : Z := Z.max _DEFAULT_HANDLE_RESERVATION_TTL_SECONDS (Qceiling action_deadline_seconds * 2).
Record FetchDispatchConfig := { manifest_allowed_entries : list AllowlistEntry; operator_allowed_entries : list AllowlistEntry; allowlist : AllowlistIntersection }.
(** What [urlparse] finds in a URL, the host or nothing, the authority and the path; and the
    digest of an egress id. *)
Record urls := { _safe_hostname : string -> string; netloc : string -> string; path : string -> string; sha256 : list Byte.byte -> string }.

Section dispatch.
Variables (P : urls) (config : FetchDispatchConfig) (egress_ctx : TurnEgressContext) (index : Z) (action_deadline_seconds : Q).
Definition refused_row (clean_url dlp : string) : fetch_row :=
  {| r_url := clean_url; r_domain := _safe_hostname P clean_url; r_status := None; r_bucket := None; r_tier := "T3"; r_dlp := dlp; r_canary := false; r_result := "refused" |}.
Definition _refuse {A} (clean_url dlp message_key : string) : prog A :=
  call (Append (refused_row clean_url dlp)) ;; raise (WebFetchError message_key).
Definition scan_fields (url : string) (headers : list (string * string)) : prog (string * list (string * string)) :=
  except is_exception
    (clean_url <~ call (Scan url);
     clean_headers <~ each (fun h => v <~ call (Scan h.2); ret (h.1, v)) headers;
     ret (clean_url, clean_headers))
    (fun e => call (Append {| r_url := "<REDACTED_DLP_FAILURE>"; r_domain := _safe_hostname P url; r_status := None; r_bucket := None; r_tier := "T3";
                              r_dlp := "dlp_scan_error"; r_canary := false; r_result := "dlp_scan_error" |}) ;; raise e).
Definition emit_capped : prog unit :=
  emitted <~ call CapEmitted;
  if emitted : bool then ret tt
  else each (fun e => call (AppendCapped e)) (broadening_cap_events (manifest_allowed_entries config) (operator_allowed_entries config) (allowlist config)) ;; call Latch.
Definition check_allowlist (clean_url : string) : prog unit :=
  if check_url (allowlist config) (netloc P clean_url) (path P clean_url) then ret tt
  else call (Append {| r_url := clean_url; r_domain := _safe_hostname P clean_url; r_status := None; r_bucket := None; r_tier := "T3";
                       r_dlp := "domain_not_allowed"; r_canary := false; r_result := "domain_not_allowed" |}) ;; raise WebFetchDomainNotAllowed.
(** A quota that refuses is audited with its bucket. *)
Definition limited (clean_url dlp : string) (p : prog unit) : prog unit :=
  except is_rate_limited p (fun e =>
    call (Append {| r_url := clean_url; r_domain := _safe_hostname P clean_url; r_status := None; r_bucket := match e with WebFetchRateLimited b => Some b | _ => None end;
                    r_tier := "T3"; r_dlp := dlp; r_canary := false; r_result := "rate_limited" |}) ;; raise e).
Definition _classify_action_timeout (destination_host : string) : prog exn :=
  let egress_id := compute_egress_id (sha256 P) egress_ctx index in
  except is_exception
    (state <~ call (LedgerState egress_id);
     ret (WebFetchActionTimeout egress_id destination_host (bool_decide (state = "committed_no_response"%string)) state))
    (fun _ => ret (WebFetchActionTimeout egress_id destination_host true "read_unavailable")).
Definition is_canary_or_timeout (e : exn) : bool := match e with InboundCanaryTripped | TimeoutError => true | _ => false end.
Definition extract (clean_url : string) (q : _RawToolRequest) : prog EgressExtractOutcome :=
  except is_canary_or_timeout (call (Extract q)) (fun e =>
    match e with
    | InboundCanaryTripped =>
        call (Append {| r_url := clean_url; r_domain := _safe_hostname P clean_url; r_status := None; r_bucket := None; r_tier := "T3";
                        r_dlp := "inbound_canary_tripped"; r_canary := true; r_result := "quarantined" |}) ;; raise e
    | _ => timeout_exc <~ _classify_action_timeout (_safe_hostname P clean_url); raise timeout_exc
    end).
Definition outcome_row (clean_url : string) (o : EgressExtractOutcome) : fetch_row :=
  {| r_url := clean_url; r_domain := _safe_hostname P clean_url;
     r_status := match o_status o with Some s => if (100 <=? s) && (s <=? 599) then Some s else None | None => None end;
     r_bucket := None; r_tier := "T2";
     r_dlp := match o_result o with Extracted _ => "clean" | TypedRefusal reason => default reason (policy_refusal_token o) end;
     r_canary := false; r_result := match o_result o with Extracted _ => "success" | TypedRefusal _ => "refused" end |}.
Definition fire (user_id clean_url handle_id : string) (q : _RawToolRequest) : prog EgressExtractOutcome :=
  finally (outcome <~ extract clean_url q; call (Append (outcome_row clean_url outcome)) ;; ret outcome)
    (except is_exception (call (Release user_id handle_id)) (fun _ => ret tt)).
Definition dispatch_web_fetch (url : string) (headers : list (string * string)) (user_id : string) : prog EgressExtractOutcome :=
  scanned <~ scan_fields url headers;
  let '(clean_url, clean_headers) := scanned in
  if bool_decide (clean_url <> url) then _refuse clean_url "url_secret_refused" "web.fetch.error.url_secret_refused"
  else if bool_decide (clean_headers <> headers) then _refuse clean_url "header_secret_refused" "web.fetch.error.header_secret_refused"
  else
  auth_headers <~ except is_secret_refusal (each (fun h => v <~ call (Substitute h.2); ret (h.1, v)) clean_headers)
    (fun _ => _refuse clean_url "secret_substitution_refused" "web.fetch.error.secret_substitution_refused");
  emit_capped ;;
  check_allowlist clean_url ;;
  limited clean_url "rate_limited" (call (CheckAndIncrement (_safe_hostname P clean_url) user_id)) ;;
  handle_id <~ call NewId;
  limited clean_url "handle_cap_exceeded" (call (TryReserve user_id handle_id (reservation_ttl action_deadline_seconds))) ;;
  fire user_id clean_url handle_id {| method := "GET"; url := url; headers := auth_headers; body := ""; idempotent := true |}.
End dispatch.

(** ** The gates, and the slot *)
(** Neither asks for a slot, nor gives one back, nor reaches the network. *)
Definition quiet (x : event) : Prop := match x with @Ev _ _ B o _ => match o with TryReserve _ _ _ | Extract _ | Release _ _ => False | _ => True end end.
Section gates.
Variables (P : urls) (config : FetchDispatchConfig) (egress_ctx : TurnEgressContext) (index : Z) (action_deadline_seconds : Q).
Definition scanned_as (a b : string * string) (m : list event) : Prop := b.1 = a.1 /\ Ev (Scan a.2) (Ok b.2) ∈ m.
Definition substituted_as (a b : string * string) (m : list event) : Prop := b.1 = a.1 /\ Ev (Substitute a.2) (Ok b.2) ∈ m.
(** What must have happened before a request reaches the network. *)
Record cleared (u : string) (hs : list (string * string)) (user : string) (q : _RawToolRequest) (pre : list event) : Prop := {
  c_request : method q = "GET"%string /\ url q = u /\ body q = ""%string /\ idempotent q = true;
  c_url : Ev (Scan u) (Ok u) ∈ pre;
  c_scanned : Forall (fun h => Ev (Scan h.2) (Ok h.2) ∈ pre) hs;
  c_substituted : Forall2 (fun h h' => substituted_as h h' pre) hs (headers q);
  c_allowed : check_url (allowlist config) (netloc P u) (path P u) = true;
  c_rate : Ev (CheckAndIncrement (_safe_hostname P u) user) (Ok tt) ∈ pre }.
Ltac leaf := repeat match goal with |- forall _, _ => intro | |- Forall _ (_ ++ _) => apply Forall_app; split | |- Forall _ (_ :: _) => constructor | |- Forall _ [] => constructor end; try done.
Lemma quiet_refuse {A} clean dlp key : wp (_refuse P clean dlp key : prog A) (fun m r => Forall quiet m /\ exists e, r = Err e).
Proof. apply wp_bind, wp_call. intros [x|e]; [apply wp_return|]; (split; [leaf|by eexists]). Qed.
Lemma quiet_scan u hs : wp (scan_fields P u hs) (fun m _ => Forall quiet m).
Proof.
  apply wp_except, wp_bind, wp_call. assert (Hh : forall e l, Forall quiet l -> wp (call (Append {| r_url := "<REDACTED_DLP_FAILURE>"; r_domain := _safe_hostname P u; r_status := None; r_bucket := None; r_tier := "T3";
      r_dlp := "dlp_scan_error"; r_canary := false; r_result := "dlp_scan_error" |}) ;; raise e : prog (string * list (string * string))) (fun m' _ => Forall quiet (l ++ m'))).
  { intros e l Hl. apply wp_bind, wp_call. intros [x|e']; [apply wp_return|]; leaf. }
  intros [c|e]; [|destruct (is_exception e); [apply (Hh e [Ev (Scan u) (Err e)]); leaf|leaf]]. apply wp_bind. eapply wp_mono.
  - apply (wp_forall_each quiet). intros h. apply wp_bind, wp_call. intros [v|e]; [apply wp_return|]; leaf.
  - intros m [x|e] Hm; [apply wp_return; leaf|]. destruct (is_exception e); [apply (Hh e (Ev (Scan u) (Ok c) :: m)); leaf|leaf].
Qed.
Lemma scan_scans u hs : wp (scan_fields P u hs) (fun m r => match r with Ok (c, chs) => Ev (Scan u) (Ok c) ∈ m /\ Forall2 (fun a b => scanned_as a b m) hs chs | Err _ => True end).
Proof.
  apply wp_except, wp_bind, wp_call. assert (Hh : forall e (Q : list event -> Prop) r, wp (call (Append r) ;; raise e : prog (string * list (string * string)))
     (fun m' r => match r with Ok (c, chs) => Q m' | Err _ => True end)).
  { intros e Q r. apply wp_bind, wp_call. intros [x|e']; [by apply wp_return|done]. }
  intros [c|e]; [|destruct (is_exception e); [|done]; eapply wp_mono; [apply (Hh e (fun _ => False))|by intros m [[? ?]|?]]]. apply wp_bind. eapply wp_mono.
  - apply (wp_each _ hs scanned_as (fun _ _ => True)); [..|done|].
    + intros a b m m' [H1 H2]. split; [done|set_solver].
    + intros a b m m' [H1 H2]. split; [done|set_solver].
    + intros h _. apply wp_bind, wp_call. intros [v|e]; [apply wp_return|done]. split; [done|]. cbn. set_solver.
  - intros m [x|e] Hm.
    + apply wp_return. rewrite app_nil_r. split; [set_solver|]. eapply Forall2_impl; [exact Hm|]. intros a b [H1 H2]. split; [done|set_solver].
    + destruct (is_exception e); [|done]. eapply wp_mono; [apply (Hh e (fun _ => False))|by intros m' [[? ?]|?]].
Qed.
Lemma substitutes (chs : list (string * string)) (h : prog (list (string * string))) : (wp h (fun m r => Forall quiet m /\ exists e, r = Err e)) ->
  wp (except is_secret_refusal (each (fun h => v <~ call (Substitute h.2); ret (h.1, v)) chs) (fun _ => h))
    (fun m r => Forall quiet m /\ match r with Ok hs => Forall2 (fun a b => substituted_as a b m) chs hs | Err _ => True end).
Proof.
  intros Hh. apply wp_except. eapply wp_mono; [apply wp_and|].
  - apply (wp_forall_each quiet). intros a. apply wp_bind, wp_call. intros [v|e]; [apply wp_return|]; leaf.
  - apply (wp_each _ chs substituted_as (fun _ _ => True)); [..|done|].
    + intros a b m m' [H1 H2]. split; [done|set_solver].
    + intros a b m m' [H1 H2]. split; [done|set_solver].
    + intros a _. apply wp_bind, wp_call. intros [v|e]; [apply wp_return|done]. split; [done|]. cbn. set_solver.
  - intros m [hs|e] [Hm H]; [done|]. destruct (is_secret_refusal e); [|done]. eapply wp_mono; [exact Hh|]. intros m' r [Hm' [e' ->]]. split; [leaf|done].
Qed.
Lemma quiet_capped : wp (emit_capped config) (fun m _ => Forall quiet m).
Proof.
  apply wp_bind, wp_call. intros [[]|e]; [apply wp_return; leaf| |leaf]. apply wp_bind. eapply wp_mono; [apply (wp_forall_each quiet); intros a; apply wp_call; leaf|].
  intros m [x|e] Hm; [apply wp_call; leaf|leaf].
Qed.
Lemma quiet_allowlist u : wp (check_allowlist P config u) (fun m r => Forall quiet m /\ match r with Ok _ => check_url (allowlist config) (netloc P u) (path P u) = true | Err _ => True end).
Proof.
  unfold check_allowlist. destruct (check_url _ _ _); [apply wp_return; by split; [leaf|]|]. apply wp_bind, wp_call. intros [x|e]; [apply wp_return|]; by split; [leaf|].
Qed.
(** A quota that is granted is its last answer. *)
Lemma limited_spec u dlp (o : op unit) : wp (limited P u dlp (call o)) (fun m r => match r with Ok x => m = [Ev o (Ok tt)] | Err _ => exists e rest, m = Ev o (Err e) :: rest /\ Forall quiet rest end).
Proof.
  apply wp_except, wp_call. intros [[]|e]; [done|]. destruct (is_rate_limited e); [|by exists e, []]. apply wp_bind, wp_call. intros [x|e']; [apply wp_return|]; (eexists e, [_]; split; [done|]; leaf).
Qed.
Lemma fire_spec user u h q : wp (fire P egress_ctx index user u h q) (fun m _ => exists y mid x, m = Ev (Extract q) y :: mid ++ [Ev (Release user h) x] /\ Forall quiet mid).
Proof.
  apply wp_finally. assert (Hrel : forall m, (exists y mid, m = Ev (Extract q) y :: mid /\ Forall quiet mid) ->
    wp (except is_exception (call (Release user h)) (fun _ => ret tt)) (fun m' _ => exists y mid x, m ++ m' = Ev (Extract q) y :: mid ++ [Ev (Release user h) x] /\ Forall quiet mid)).
  { intros m (y&mid&->&Hm). apply wp_except, wp_call. intros [x|e]; [by exists y, mid, (Ok x)|]. destruct (is_exception e); [apply wp_return; rewrite app_nil_r|]; by exists y, mid, (Err e). }
  apply wp_bind. unfold extract. apply wp_except, wp_call. intros [o|e]; [apply wp_bind, wp_call; intros [x|e]; [apply wp_return|]; apply Hrel; eexists _, _; (split; [reflexivity|leaf])|].
  destruct e; cbn [is_canary_or_timeout]; try (apply Hrel; eexists _, _; (split; [reflexivity|leaf])).
  - apply wp_bind, wp_call. intros [x|e]; [apply wp_return|]; apply Hrel; eexists _, _; (split; [reflexivity|leaf]).
  - apply wp_bind. unfold _classify_action_timeout. apply wp_except, wp_bind, wp_call. intros [st|e]; [apply wp_return|destruct (is_exception e); [apply wp_return|]]; try apply wp_return; apply Hrel; eexists _, _; (split; [reflexivity|leaf]).
Qed.
(** Nothing; or one slot asked for in vain; or one slot, around one request: the last two
    behind every gate. *)
Definition gated (u : string) (hs : list (string * string)) (user : string) (l : list event) : Prop :=
  Forall quiet l \/ exists pre h q, cleared u hs user q pre /\ Forall quiet pre /\
    let reserve := TryReserve user h (reservation_ttl action_deadline_seconds) in
    (exists e rest, l = pre ++ Ev reserve (Err e) :: rest /\ Forall quiet rest) \/
    (exists y mid x, l = pre ++ [Ev reserve (Ok tt); Ev (Extract q) y] ++ mid ++ [Ev (Release user h) x] /\ Forall quiet mid).
Lemma dispatch_gated u hs user : wp (dispatch_web_fetch P config egress_ctx index action_deadline_seconds u hs user) (fun m _ => gated u hs user m).
Proof.
  unfold dispatch_web_fetch. apply wp_bind. eapply wp_mono; [apply wp_and; [apply quiet_scan|apply scan_scans]|]. intros m1 [[c chs]|e] [Q1 H1]; [|by left].
  case_bool_decide as Hc; [eapply wp_mono; [apply quiet_refuse|]; intros m r [Hm _]; left; leaf|].
  case_bool_decide as Hh; [eapply wp_mono; [apply quiet_refuse|]; intros m r [Hm _]; left; leaf|].
  assert (c = u) as -> by (by destruct (decide (c = u))). assert (chs = hs) as -> by (by destruct (decide (chs = hs))). destruct H1 as [Hu Hs].
  apply wp_bind. eapply wp_mono; [apply substitutes, quiet_refuse|]. intros m2 [auth|e] [Q2 H2]; [|left; leaf].
  apply wp_bind. eapply wp_mono; [apply quiet_capped|]. intros m3 r3 Q3. destruct r3 as [x3|e]; [|left; leaf].
  apply wp_bind. eapply wp_mono; [apply quiet_allowlist|]. intros m4 r4 [Q4 H4]. destruct r4 as [x4|e]; [|left; leaf].
  apply wp_bind. eapply wp_mono; [apply limited_spec; done|]. intros m5 [x5|e] H5; [subst m5|destruct H5 as (e'&rest&->&H5); left; leaf].
  apply wp_bind, wp_call. intros [h|e]; [|left; leaf].
  set (q := {| method := "GET"; url := u; headers := auth; body := ""; idempotent := true |}).
  set (pre := m1 ++ m2 ++ m3 ++ m4 ++ [Ev (CheckAndIncrement (_safe_hostname P u) user) (Ok tt); Ev NewId (Ok h)]).
  assert (Hpre : cleared u hs user q pre).
  { split; [done|set_solver| | |done|set_solver].
    - apply Forall_forall. intros a [i Hi]%list_elem_of_lookup. destruct (Forall2_lookup_lr _ _ _ _ _ _ Hs Hi Hi) as [_ H]. set_solver.
    - eapply Forall2_impl; [exact H2|]. intros a b [Ha1 Ha2]. split; [done|set_solver]. }
  apply wp_bind. eapply wp_mono; [apply limited_spec; done|]. intros m6 r6 H6. destruct r6 as [x6|e].
  - subst m6. eapply wp_mono; [apply fire_spec|]. intros m7 r (y&mid&x&->&Hmid). right. exists pre, h, q. split; [done|]. split; [unfold pre; leaf|]. right. exists y, mid, x. split; [|done]. unfold pre. by rewrite <- !app_assoc.
  - destruct H6 as (e'&rest&->&Hrest). right. exists pre, h, q. split; [done|]. split; [unfold pre; leaf|]. left. exists e', rest. split; [|done]. unfold pre. by rewrite <- !app_assoc.
Qed.
End gates.
(** C26: A fetch reaches the network only behind every gate, and asks to give back a slot it was
    given.  Whatever the collaborators answer or raise, one of three: no slot was asked for,
    nothing fired or released; or one slot was asked for and that call raised, and nothing
    fired or released after it (a refusal took no slot; a round trip that broke after the
    script had run has taken one, which stays until its time to live is over); or one slot
    was given, one request fired under it, and the release of that slot was asked for as the
    last thing, on every exit (a release that Redis fails leaves the slot to its time to live
    too).  By the time a slot is asked for, the scan had let the URL and every header through
    unchanged, each header had its secrets substituted by the broker, the allowlist admits
    the URL, and the rate limits had let the user in; the request is that URL with those
    headers. *)
Theorem fetch_fires_behind_every_gate P config egress_ctx index deadline url headers user env :
  let '(l, r) := execute env [] (dispatch_web_fetch P config egress_ctx index deadline url headers user) in
  gated P config deadline url headers user l.
Proof. destruct (dispatch_gated P config egress_ctx index deadline url headers user env []) as (m&E&H). destruct (execute _ _ _) as [l r]. cbn in *. by subst. Qed.

(** ** The row of an exit *)
Definition row_of (x : event) : option fetch_row := match x with @Ev _ _ B o _ => match o with Append r => Some r | _ => None end end.
Section accounts.
Variables (P : urls) (config : FetchDispatchConfig) (egress_ctx : TurnEgressContext) (index : Z) (action_deadline_seconds : Q) (u : string).
Definition plain_row (dlp result : string) (bucket : option string) (canary : bool) : fetch_row :=
  {| r_url := u; r_domain := _safe_hostname P u; r_status := None; r_bucket := bucket; r_tier := "T3"; r_dlp := dlp; r_canary := canary; r_result := result |}.
Definition dlp_error_row : fetch_row :=
  {| r_url := "<REDACTED_DLP_FAILURE>"; r_domain := _safe_hostname P u; r_status := None; r_bucket := None; r_tier := "T3"; r_dlp := "dlp_scan_error"; r_canary := false; r_result := "dlp_scan_error" |}.
(** The row that an answer calls for. *)
Definition owed (x : event) : option fetch_row :=
  match x with
  | @Ev _ _ B o r => match o in op B return result exn B -> option fetch_row with
      | Scan _ => fun r => match r with Err e => if is_exception e then Some dlp_error_row else None | Ok _ => None end
      | Substitute _ => fun r => match r with Err e => if is_secret_refusal e then Some (refused_row P u "secret_substitution_refused") else None | Ok _ => None end
      | CheckAndIncrement _ _ => fun r => match r with Err (WebFetchRateLimited b) => Some (plain_row "rate_limited" "rate_limited" (Some b) false) | _ => None end
      | TryReserve _ _ _ => fun r => match r with Err (WebFetchRateLimited b) => Some (plain_row "handle_cap_exceeded" "rate_limited" (Some b) false) | _ => None end
      | Extract _ => fun r => match r with
          | Ok o => Some (outcome_row P u o)
          | Err InboundCanaryTripped => Some (plain_row "inbound_canary_tripped" "quarantined" None true)
          | Err _ => None end
      | _ => fun _ => None end r
  end.
#[local] Abbreviation rows := (Programs.rows row_of).
#[local] Abbreviation owes := (Programs.owes owed).
#[local] Abbreviation nothing := (Programs.nothing row_of owed).
#[local] Abbreviation settled := (Programs.settled row_of owed).
#[local] Abbreviation clean := (Programs.clean row_of owed).
Ltac leaf := by (split; cbn; lia || done).
Lemma scan_clean hs : wp (scan_fields P u hs) clean.
Proof.
  apply wp_except, wp_bind, wp_call. assert (Hh : forall e l, owes l = [dlp_error_row] -> rows l = [] -> wp (call (Append dlp_error_row) ;; raise e : prog (string * list (string * string))) (fun m' r => clean (l ++ m') r)).
  { intros e l H1 H2. apply wp_bind, wp_call. intros [x|e']; [apply wp_return|]; unfold Programs.clean, Programs.settled, Programs.rows, Programs.owes in *; rewrite !omap_app, H1, H2; by split. }
  intros [c|e]; [|destruct (is_exception e) eqn:He; [apply (Hh e [Ev (Scan u) (Err e)]); [cbn; by rewrite He|done]|split; cbn; rewrite ?He; [done|lia]]]. apply wp_bind.
  apply wp_mono with (Q := fun m r => match r with Ok _ => nothing m | Err e => rows m = [] /\ owes m = if is_exception e then [dlp_error_row] else [] end).
  - induction hs as [|h hs IH]; [by apply wp_return|]. cbn [each]. apply wp_bind, wp_bind, wp_call. intros [v|e]; [apply wp_return|by destruct (is_exception e) eqn:He; cbn; rewrite ?He]. apply wp_bind.
    eapply wp_mono; [exact IH|]. intros m [b|e] [H1 H2]; [apply wp_return; rewrite !app_nil_r|]; exact (conj H1 H2).
  - intros m [x|e] Hm; [apply wp_return; rewrite app_nil_r; destruct Hm; by split|]. destruct Hm as [H1 H2]. destruct (is_exception e); [by apply (Hh e (Ev (Scan u) (Ok c) :: m))|]. apply nothing_settled. by split.
Qed.
Lemma refuse_row {A} c dlp key : wp (_refuse P c dlp key : prog A) (fun m r => rows m = [refused_row P c dlp] /\ owes m = [] /\ exists e, r = Err e /\ (e = WebFetchError key \/ raised m e)).
Proof.
  apply wp_bind, wp_call. intros [x|e]; [apply wp_return; split_and!; [done|done|]; eexists; split; [done|by left]|]. split_and!; [done|done|]. eexists. split; [done|]. right. eexists _, _. constructor.
Qed.
Lemma substitutes_accounts (chs : list (string * string)) : wp (except is_secret_refusal (each (fun h => v <~ call (Substitute h.2); ret (h.1, v)) chs)
    (fun _ => _refuse P u "secret_substitution_refused" "web.fetch.error.secret_substitution_refused"))
  (fun m r => match r with Ok _ => nothing m | Err e => settled m /\ (raised m e \/ e = WebFetchError "web.fetch.error.secret_substitution_refused" /\ rows m = [refused_row P u "secret_substitution_refused"]) end).
Proof.
  apply wp_except. apply wp_mono with (Q := fun m r => match r with Ok _ => nothing m | Err e => rows m = [] /\ owes m = (if is_secret_refusal e then [refused_row P u "secret_substitution_refused"] else []) /\ raised m e end).
  - induction chs as [|h hs IH]; [by apply wp_return|]. cbn [each]. apply wp_bind, wp_bind, wp_call. intros [v|e]; [apply wp_return|destruct (is_secret_refusal e) eqn:He; cbn; rewrite ?He; (split_and!; [done|done|eexists _, _; constructor])].
    apply wp_bind. eapply wp_mono; [exact IH|]. intros m [b|e]; [intros [H1 H2]; apply wp_return; rewrite !app_nil_r; exact (conj H1 H2)|].
    intros (H1&H2&C&o&H3). split; [exact H1|split; [exact H2|]]. exists C, o. set_solver.
  - intros m [x|e] Hm; [done|]. destruct Hm as (H1&H2&H3). destruct (is_secret_refusal e); [|split; [by apply nothing_settled|by left]].
    eapply wp_mono; [apply refuse_row|]. intros m' r (R1&R2&e'&->&He'). unfold Programs.settled, Programs.rows, Programs.owes in *. rewrite !omap_app, H1, H2, R1, R2. split; [by split|].
    destruct He' as [->|(C&o&?)]; [by right|left; exists C, o; set_solver].
Qed.
Lemma capped_clean : wp (emit_capped config) (fun m _ => nothing m).
Proof.
  apply wp_bind, wp_call. intros [[]|e]; [by apply wp_return| |done]. apply wp_bind.
  assert (H : forall l, wp (each (fun e => call (AppendCapped e)) l) (fun m _ => nothing m)).
  { induction l as [|a l IH]; [by apply wp_return|]. cbn [each]. apply wp_bind, wp_call. intros [x|e]; [|done]. apply wp_bind. eapply wp_mono; [exact IH|]. intros m [b|e] [H1 H2]; [apply wp_return; rewrite app_nil_r|]; exact (conj H1 H2). }
  eapply wp_mono; [apply H|]. intros m [x|e] [H1 H2]; [apply wp_call; intros r; (apply nothing_app; [done|]); apply nothing_app; [exact (conj H1 H2)|done]|exact (conj H1 H2)].
Qed.
Ltac limited := apply wp_except, wp_call; intros [x|e]; [by split|]; destruct e; cbn [is_rate_limited]; try (by split; cbn; [|lia]);
  apply wp_bind, wp_call; intros [y|e]; [apply wp_return|]; by split; cbn; [|lia].
Lemma rate_clean dom user : wp (limited P u "rate_limited" (call (CheckAndIncrement dom user))) clean.
Proof. limited. Qed.
Lemma reserve_clean user h ttl : wp (limited P u "handle_cap_exceeded" (call (TryReserve user h ttl))) clean.
Proof. limited. Qed.
Lemma scan_blamed hs : wp (scan_fields P u hs) (blamed (fun _ => False)).
Proof. unfold scan_fields. blame. Qed.
Lemma capped_blamed : wp (emit_capped config) (blamed (fun _ => False)).
Proof. apply blamed_bind; [blame|]. intros []; blame. Qed.
Lemma limited_blamed dlp o : wp (limited P u dlp (call o)) (blamed (fun _ => False)).
Proof. unfold limited. blame. Qed.
Ltac raised_here := left; eexists _, _; cbn; repeat first [solve [constructor 1] | constructor 2].
(** What a fetch that raises a timeout knows of it. *)
Definition timed_out (m : list event) (e : exn) : Prop := exists q doubt st,
  Ev (Extract q) (Err TimeoutError) ∈ m /\ e = WebFetchActionTimeout (compute_egress_id (sha256 P) egress_ctx index) (_safe_hostname P u) doubt st /\
  (doubt = true \/ st <> "committed_no_response"%string /\ Ev (LedgerState (compute_egress_id (sha256 P) egress_ctx index)) (Ok st) ∈ m).
Lemma fire_accounts user h q : wp (fire P egress_ctx index user u h q) (fun m r => settled m /\
  match r with Ok o => rows m = [outcome_row P u o] | Err e => raised m e \/ timed_out m e end).
Proof.
  apply wp_finally. assert (Hrel : forall m (r : result exn EgressExtractOutcome), settled m -> match r with Ok o => rows m = [outcome_row P u o] | Err e => raised m e \/ timed_out m e end ->
    wp (except is_exception (call (Release user h)) (fun _ => ret tt)) (fun m' x => settled (m ++ m') /\
      match (match x with Ok _ => r | Err e => Err e end) with Ok o => rows (m ++ m') = [outcome_row P u o] | Err e => raised (m ++ m') e \/ timed_out (m ++ m') e end)).
  { intros m r Hm Hr. assert (Hmore : forall m', nothing m' -> settled (m ++ m') /\ match r with Ok o => rows (m ++ m') = [outcome_row P u o] | Err e => raised (m ++ m') e \/ timed_out (m ++ m') e end).
    { intros m' Hm'. split; [by apply settled_then|]. destruct r as [o|e]; [unfold Programs.rows in *; destruct Hm' as [E _]; unfold Programs.rows in E; by rewrite omap_app, Hr, E|].
      destruct Hr as [(B&o&Hin)|(q0&d&st&Hin&E&Hd)]; [left; exists B, o; set_solver|]. right. exists q0, d, st. split; [set_solver|]. split; [done|]. destruct Hd as [?|[? ?]]; [by left|right; split; [done|set_solver]]. }
    apply wp_except, wp_call. intros [x|e]; [by apply Hmore|]. destruct (is_exception e); [apply wp_return; rewrite app_nil_r; by apply Hmore|].
    split; [by apply settled_then|]. left. exists unit, (Release user h). set_solver. }
  apply wp_bind. unfold extract. apply wp_except, wp_call. intros [o|e].
  { apply wp_bind, wp_call. intros [x|e]; [apply wp_return; by apply Hrel|]. apply Hrel; [done|]. raised_here. }
  destruct e; cbn [is_canary_or_timeout]; try (apply Hrel; [by split; cbn; [|lia]|raised_here]).
  - apply wp_bind, wp_call. intros [x|e]; [apply wp_return|]; (apply Hrel; [done|raised_here]).
  - assert (Ht : forall m' doubt st, nothing m' -> (doubt = true \/ st <> "committed_no_response"%string /\ Ev (LedgerState (compute_egress_id (sha256 P) egress_ctx index)) (Ok st) ∈ m') ->
      settled ([Ev (Extract q) (Err TimeoutError)] ++ m') /\ timed_out ([Ev (Extract q) (Err TimeoutError)] ++ m') (WebFetchActionTimeout (compute_egress_id (sha256 P) egress_ctx index) (_safe_hostname P u) doubt st)).
    { intros m' doubt st Hm' Hd. split; [apply settled_app; done || by apply nothing_settled|]. exists q, doubt, st. split; [set_solver|]. split; [done|]. destruct Hd as [?|[? ?]]; [by left|right; split; [done|set_solver]]. }
    apply wp_bind. unfold _classify_action_timeout. apply wp_except, wp_bind, wp_call. intros [st|e]; [apply wp_return|destruct (is_exception e)].
    + apply wp_return. destruct (Ht [Ev (LedgerState (compute_egress_id (sha256 P) egress_ctx index)) (Ok st)] (bool_decide (st = "committed_no_response"%string)) st) as [T1 T2]; [done| |apply Hrel; [exact T1|right; exact T2]].
      case_bool_decide; [by left|right; split; [done|constructor]].
    + apply wp_return, wp_return. destruct (Ht [Ev (LedgerState (compute_egress_id (sha256 P) egress_ctx index)) (Err e)] true "read_unavailable"%string) as [T1 T2]; [done|by left|apply Hrel; [exact T1|right; exact T2]].
    + apply Hrel; [by split; cbn; [|lia]|]. raised_here.
Qed.
(** The three refusals the dispatcher makes of itself, each with its row. *)
Definition refuses (hs : list (string * string)) (m : list event) (e : exn) : Prop := exists row e0, rows m = [row] /\ owes m = [] /\ (e = e0 \/ raised m e) /\
  ((exists c, c <> u /\ Ev (Scan u) (Ok c) ∈ m /\ row = refused_row P c "url_secret_refused" /\ e0 = WebFetchError "web.fetch.error.url_secret_refused") \/
   (exists h c, h ∈ hs /\ c <> h.2 /\ Ev (Scan h.2) (Ok c) ∈ m /\ row = refused_row P u "header_secret_refused" /\ e0 = WebFetchError "web.fetch.error.header_secret_refused") \/
   (check_url (allowlist config) (netloc P u) (path P u) = false /\ row = plain_row "domain_not_allowed" "domain_not_allowed" None false /\ e0 = WebFetchDomainNotAllowed)).
Definition accounted (hs : list (string * string)) (m : list event) (r : result exn EgressExtractOutcome) : Prop :=
  match r with
  | Ok o => rows m = [outcome_row P u o] /\ owes m = rows m
  | Err e => refuses hs m e \/ settled m /\ (raised m e \/ timed_out m e \/ e = WebFetchError "web.fetch.error.secret_substitution_refused" /\ rows m = [refused_row P u "secret_substitution_refused"])
  end.
Lemma changed_header (hs chs : list (string * string)) m : Forall2 (fun a b => scanned_as a b m) hs chs -> chs <> hs -> exists h c, h ∈ hs /\ c <> h.2 /\ Ev (Scan h.2) (Ok c) ∈ m.
Proof.
  induction 1 as [|[n v] [n' v'] hs chs [E Hin] H IH]; [done|]. cbn in *. subst n'. intros Hne. destruct (decide (v' = v)) as [->|Hv]; [|exists (n, v), v'; split; [constructor|done]].
  destruct IH as (h&c&?&?&?); [congruence|]. exists h, c. split; [by constructor|done].
Qed.
Lemma accounted_more hs m m' r : nothing m -> accounted hs m' r -> accounted hs (m ++ m') r.
Proof.
  intros Hm. assert (Er : rows (m ++ m') = rows m') by (unfold Programs.rows; rewrite omap_app; destruct Hm as [E _]; unfold Programs.rows in E; by rewrite E).
  assert (Eo : owes (m ++ m') = owes m') by (unfold Programs.owes; rewrite omap_app; destruct Hm as [_ E]; unfold Programs.owes in E; by rewrite E).
  assert (Hr : forall e, raised m' e -> raised (m ++ m') e) by (intros e (B&o&H); exists B, o; set_solver).
  destruct r as [o|e]; unfold accounted; [by rewrite Er, Eo|]. intros [(row&e0&H1&H2&H3&H4)|[H1 H2]].
  - left. exists row, e0. rewrite Er, Eo. split; [done|]. split; [done|]. split; [by destruct H3; auto|].
    destruct H4 as [(c&?&?&?)|[(h&c&?&?&?&?)|?]]; [left; exists c; set_solver|right; left; exists h, c; set_solver|by right; right].
  - right. split; [by apply settled_app|]. rewrite Er. destruct H2 as [H2|[(q&d&st&Hin&E&Hd)|H2]]; [by auto| |by auto]. right; left. exists q, d, st. split; [set_solver|]. split; [done|].
    destruct Hd as [?|[? ?]]; [by left|right; split; [done|set_solver]].
Qed.
Lemma accounted_err {A} hs (m : list event) (e : exn) : clean m (Err e : result exn A) -> blamed (fun _ => False) m (Err e : result exn A) -> accounted hs m (Err e).
Proof. intros H [Hr|[]]. right. split; [done|by left]. Qed.
Lemma accounted_bind {A} hs (p : prog A) (k : A -> prog EgressExtractOutcome) :
  wp p clean -> wp p (blamed (fun _ => False)) -> (forall a, wp (k a) (accounted hs)) -> wp (bind p k) (accounted hs).
Proof.
  intros Hc Hb Hk. apply wp_bind. eapply wp_mono; [apply wp_and; [exact Hc|exact Hb]|]. intros m [a|e] [H1 H2]; [|by apply (accounted_err (A := A))].
  eapply wp_mono; [apply Hk|]. intros m' r. by apply accounted_more.
Qed.
Lemma allowlist_accounts hs (k : unit -> prog EgressExtractOutcome) : wp (k tt) (accounted hs) -> wp (bind (check_allowlist P config u) k) (accounted hs).
Proof.
  intros Hk. apply wp_bind. unfold check_allowlist. destruct (check_url _ _ _) eqn:Hu; [by apply wp_return|]. apply wp_bind, wp_call.
  intros [x|e]; [apply wp_return|]; left; eexists _, _; (split; [done|]; split; [done|]; split; [|by right; right]); [by left|right; eexists _, _; constructor].
Qed.
Lemma refusal_accounts hs (m : list event) clean_url dlp key : nothing m ->
  (clean_url <> u /\ Ev (Scan u) (Ok clean_url) ∈ m /\ dlp = "url_secret_refused"%string /\ key = "web.fetch.error.url_secret_refused"%string \/
   clean_url = u /\ (exists h c, h ∈ hs /\ c <> h.2 /\ Ev (Scan h.2) (Ok c) ∈ m) /\ dlp = "header_secret_refused"%string /\ key = "web.fetch.error.header_secret_refused"%string) ->
  wp (_refuse P clean_url dlp key) (fun m' r => accounted hs (m ++ m') r).
Proof.
  intros [N1 N2] H. eapply wp_mono; [apply refuse_row|]. intros m' r (R1&R2&e&->&He). left. exists (refused_row P clean_url dlp), (WebFetchError key).
  unfold Programs.rows, Programs.owes in *. rewrite !omap_app, N1, N2, R1, R2. split; [done|]. split; [done|]. split; [destruct He as [?|(B&o&?)]; [by left|right; exists B, o; set_solver]|].
  destruct H as [(?&?&->&->)|(->&(h&c&?&?&?)&->&->)]; [left; exists clean_url; set_solver|right; left; exists h, c; set_solver].
Qed.
Lemma dispatch_accounts hs user : wp (dispatch_web_fetch P config egress_ctx index action_deadline_seconds u hs user) (accounted hs).
Proof.
  unfold dispatch_web_fetch. apply wp_bind. eapply wp_mono; [apply wp_and; [apply wp_and; [apply scan_clean|apply scan_blamed]|apply scan_scans]|].
  intros m1 [[c chs]|e] [[C1 B1] H1]; [|by apply (accounted_err (A := string * list (string * string)))]. destruct H1 as [Hu Hs]. cbn in C1.
  case_bool_decide as Hc; [apply refusal_accounts; [done|by left]|]. assert (c = u) as -> by (by destruct (decide (c = u))).
  case_bool_decide as Hh; [apply refusal_accounts; [done|right; split; [done|split; [by eapply changed_header|done]]]|].
  eapply wp_mono; [|intros m r; by apply accounted_more]. apply wp_bind. eapply wp_mono; [apply substitutes_accounts|].
  intros m2 [auth|e] C2; [|destruct C2 as [S2 [B2|B2]]; right; auto].
   eapply wp_mono; [|intros m r; by apply accounted_more].
    apply accounted_bind; [eapply wp_mono; [apply capped_clean|]; intros m [x|e] Hm; [done|by apply nothing_settled]|apply capped_blamed|]. intros [].
    apply allowlist_accounts. apply accounted_bind; [apply rate_clean|apply limited_blamed|]. intros [].
    apply accounted_bind; [apply wp_call; intros [h|e]; [done|by apply nothing_settled]|apply blamed_call|]. intros h.
    apply accounted_bind; [apply reserve_clean|apply limited_blamed|]. intros [].
    eapply wp_mono; [apply fire_accounts|]. intros m [o|e] [H1 H2]; [by split; [|destruct H1]|right]. split; [done|]. destruct H2; auto.
Qed.
End accounts.
(** Every exit of a fetch is accounted for, by at most one row (one counts when the
    writer is asked for it).  A fetch that returns wrote the row of its outcome and no other.  One that raises wrote what the answers call for (a
    scan that failed, a secret the broker refused, a quota that refused, a tripped canary, an
    outcome whose row could not be written) and nothing else, or it refused of itself, for a
    secret in the URL, one in a header, or a domain off the allowlist, and wrote that. *)
Theorem every_exit_is_accounted_for P config egress_ctx index deadline url headers user env :
  let '(l, r) := execute env [] (dispatch_web_fetch P config egress_ctx index deadline url headers user) in
  accounted P config egress_ctx index url headers l r.
Proof. destruct (dispatch_accounts P config egress_ctx index deadline url headers user env []) as (m&E&H). destruct (execute _ _ _) as [l r]. cbn in *. by subst. Qed.
