(* ===== verification/Quarantine.v ===== *)
(** * The lift from the quarantine: [QuarantinedExtractor]

    [security/quarantine.py]: the only way from untrusted content to structured data.  The
    extractor asks the quarantined model through its transport, checks what comes back against
    closed vocabularies and the caller's schema, runs the hook chains around it and records one
    row.  It is a program over those calls; what pydantic makes of a dict and a schema is a
    parameter, correlation ids are left out. *)
From S2P Require Import Prelude Programs.

(** What [json] reads and writes. *)
#[warnings="-register-all"]
Inductive json := JNull | JBool (b : bool) | JNumber (q : Q) | JString (s : string) | JArray (l : list json) | JObject (d : list (string * json)).
Definition dict : Type := list (string * json).
Definition dict_get (k : string) (d : dict) : option json := x ← list_find (fun x => x.1 = k) d; Some x.2.2.
Definition TypedRefusalReason : list string :=
  ["cannot_extract"; "refused_by_safety"; "ambiguous_input"; "provider_refused"; "provider_unavailable"; "dlp_outbound_refused"; "post_stage_refused"; "nonce_check_failed"]%string.
Definition ExtractionMode : list string := ["native_constrained"; "json_object_unconstrained"; "prompt_embedded_fallback"]%string.
Inductive ExtractionResult := Extracted (data : dict) (extraction_mode : string) | TypedRefusal (reason : string).
Definition EXTRACTION_MAX_RETRIES : nat := 2.
Definition BROKER_SOCKET_COUNT : nat := EXTRACTION_MAX_RETRIES + 1.

(** ** The prompt of a retry *)
Definition _RETRY_CATEGORY_LABELS : list (string * string) :=
  [("schema_mismatch", "the previous response did not match the schema"); ("json_parse_error", "the previous response was not valid JSON");
   ("missing_required_field", "the previous response was missing one or more required fields"); ("unknown", "the previous response was invalid")]%string.
Definition newline : string := String (Ascii.ascii_of_nat 10) "".
Definition _build_retry_prompt (validator_error_category schema_json : string) : option string :=
  x ← list_find (fun x => x.1 = validator_error_category) _RETRY_CATEGORY_LABELS;
  Some ("Previous extraction failed: " +:+ x.2.2 +:+ "." +:+ newline +:+ newline +:+ "Try again. Output valid JSON matching this schema:" +:+ newline +:+ schema_json)%string.

(** ** The extractor *)
Inductive exn := HookRefusal (hook_id : string) | HookError | PluginProtocolViolation | ValidationError | TypeError | AlfredError (key : string) | OtherException (name : string) | CancelledError.
Definition is_exception (e : exn) : bool := match e with CancelledError => false | _ => true end.
(** [HookRefusal] is one. *)
Definition is_hook_error (e : exn) : bool := match e with HookRefusal _ | HookError => true | _ => false end.
Definition is_validation_error (e : exn) : bool := match e with ValidationError => true | _ => false end.
Inductive DispatchResult := ControlResult (payload : dict) | NoControlResult.
(** A row of [QUARANTINE_EXTRACT_FIELDS]. *)
Record extract_row := { x_event : string; x_mode : string; x_schema : string; x_version : Z; x_result : string; x_refusing_hook : option string }.
Inductive op : Type -> Type :=
| PreChain (schema_name handle_id : string) : op unit
| PostChain (input : ExtractionResult) : op unit
| ErrorChain (exc : exn) : op bool              (* whether it returned; if not, it raised [exc] itself *)
| Dispatch (method handle_id schema_json : string) (schema_version : Z) : op DispatchResult
| Append (r : extract_row) : op unit
| CheckContentClearance (plugin_id hookpoint content_tier : string) : op bool.
#[local] Abbreviation prog := (program exn op).
#[local] Abbreviation event := (entry exn op).
#[local] Open Scope prog_scope.
(** A schema class, and what its [model_validate] makes of a dict. *)
Record Schema := { s_name : string; is_extraction_schema : bool; model_json_schema : string; model_validate : dict -> result exn unit }.
Definition _PLUGIN_ID : string := "alfred.quarantined-llm".
Record _BodyAuditMetadata := { audit_result : string; audit_extraction_mode : string; b_schema_name : string; b_schema_version : Z }.

Section extractor.
Variable schema : Schema.
Definition _emit_extract_audit (result mode : string) (refusing_hook_id : option string) : prog unit :=
  call (Append {| x_event := "quarantine.extract"; x_mode := mode; x_schema := s_name schema; x_version := 1; x_result := result; x_refusing_hook := refusing_hook_id |}).
Definition _emit_transport_failed_audit : prog unit :=
  call (Append {| x_event := "quarantine.transport_failed"; x_mode := "none"; x_schema := s_name schema; x_version := 1; x_result := "transport_failed"; x_refusing_hook := None |}).
Definition _emit_protocol_violation_audit : prog unit :=
  call (Append {| x_event := "quarantine.protocol_violation"; x_mode := "none"; x_schema := s_name schema; x_version := 1; x_result := "protocol_violation"; x_refusing_hook := None |}).
Definition violation {A} : prog A := _emit_protocol_violation_audit ;; raise PluginProtocolViolation.
(** What a payload says, checked: [get_args] of the literal types are the lists above. *)
Definition member (vocabulary : list string) (v : option json) : option string := match v with Some (JString s) => if decide (s ∈ vocabulary) then Some s else None | _ => None end.
Definition _extract_body (handle_id : string) : prog (ExtractionResult * _BodyAuditMetadata) :=
  result_raw <~ except is_exception (call (Dispatch "quarantine.extract" handle_id (model_json_schema schema) 1)) (fun e => _emit_transport_failed_audit ;; raise e);
  match result_raw with
  | NoControlResult => violation
  | ControlResult payload =>
      match member ["extracted"; "typed_refusal"]%string (dict_get "kind" payload) with
      | None => violation
      | Some kind =>
          if bool_decide (kind = "extracted"%string) then
            match dict_get "data" payload with
            | Some (JObject data) =>
                match member ExtractionMode (dict_get "extraction_mode" payload) with
                | None => violation
                | Some mode =>
                    except is_validation_error (Return (model_validate schema data)) (fun _ => violation) ;;
                    ret (Extracted data mode, {| audit_result := "extracted"; audit_extraction_mode := mode; b_schema_name := s_name schema; b_schema_version := 1 |})
                end
            | _ => violation
            end
          else
            match member TypedRefusalReason (dict_get "reason" payload) with
            | None => violation
            | Some reason => ret (TypedRefusal reason, {| audit_result := "refused"; audit_extraction_mode := "refused"; b_schema_name := s_name schema; b_schema_version := 1 |})
            end
      end
  end.
Definition _dispatch_error_chain (exc : exn) : prog unit :=
  returned <~ except is_hook_error (call (ErrorChain exc)) (fun _ => ret true); ret tt.
(** [except Exception as e: await self._dispatch_error_chain(exc=e, ...); raise] *)
Definition with_error_chain {A} (p : prog A) : prog A := except is_exception p (fun e => _dispatch_error_chain e ;; raise e).
Definition extract (handle_id : string) : prog ExtractionResult :=
  if negb (is_extraction_schema schema) then raise TypeError else
  with_error_chain (call (PreChain (s_name schema) handle_id)) ;;
  body <~ with_error_chain (_extract_body handle_id);
  let '(result, body_audit) := body in
  except is_exception (call (PostChain result)) (fun e =>
    match e with
    | HookRefusal hook_id => _emit_extract_audit "post_stage_refused" "refused" (Some hook_id) ;; _dispatch_error_chain e ;; raise e
    | _ => _dispatch_error_chain e ;; raise e
    end) ;;
  _emit_extract_audit (audit_result body_audit) (audit_extraction_mode body_audit) None ;;
  ret result.
Definition quarantined_to_structured (handle_id : string) : prog ExtractionResult :=
  cleared <~ call (CheckContentClearance _PLUGIN_ID "quarantine.dereference" "T3");
  if cleared : bool then extract handle_id else raise (AlfredError "security.quarantine.dereference_denied").
End extractor.

(** ** What a payload amounts to *)
(** Nothing, or what validation makes of it. *)
Definition lift (schema : Schema) (d : DispatchResult) : option (result exn ExtractionResult) :=
  payload ← match d with ControlResult payload => Some payload | NoControlResult => None end;
  kind ← member ["extracted"; "typed_refusal"]%string (dict_get "kind" payload);
  if bool_decide (kind = "extracted"%string) then
    match dict_get "data" payload with
    | Some (JObject data) =>
        mode ← member ExtractionMode (dict_get "extraction_mode" payload);
        match model_validate schema data with Ok _ => Some (Ok (Extracted data mode)) | Err e => if is_validation_error e then None else Some (Err e) end
    | _ => None
    end
  else reason ← member TypedRefusalReason (dict_get "reason" payload); Some (Ok (TypedRefusal reason)).
Definition metadata (schema : Schema) (x : ExtractionResult) : _BodyAuditMetadata :=
  match x with
  | Extracted _ mode => {| audit_result := "extracted"; audit_extraction_mode := mode; b_schema_name := s_name schema; b_schema_version := 1 |}
  | TypedRefusal _ => {| audit_result := "refused"; audit_extraction_mode := "refused"; b_schema_name := s_name schema; b_schema_version := 1 |}
  end.
Section rows.
Variable schema : Schema.
Definition row (event mode result : string) (hook : option string) : extract_row :=
  {| x_event := event; x_mode := mode; x_schema := s_name schema; x_version := 1; x_result := result; x_refusing_hook := hook |}.
Definition transport_row := row "quarantine.transport_failed" "none" "transport_failed" None.
Definition violation_row := row "quarantine.protocol_violation" "none" "protocol_violation" None.
Definition refused_row (hook : string) := row "quarantine.extract" "refused" "post_stage_refused" (Some hook).
Definition outcome_row (x : ExtractionResult) := row "quarantine.extract" (audit_extraction_mode (metadata schema x)) (audit_result (metadata schema x)) None.
(** What an append leaves of the exception that would have followed it. *)
Definition after (x : result exn unit) (e : exn) : exn := match x with Ok _ => e | Err e' => e' end.
Definition body_ends (ev : result exn DispatchResult -> event) (m : list event) (r : result exn (ExtractionResult * _BodyAuditMetadata)) : Prop :=
  exists d, match d with
    | Err e => if is_exception e then exists x, m = [ev d; Ev (Append transport_row) x] /\ r = Err (after x e) else m = [ev d] /\ r = Err e
    | Ok d' => match lift schema d' with
        | None => exists x, m = [ev d; Ev (Append violation_row) x] /\ r = Err (after x PluginProtocolViolation)
        | Some (Ok y) => m = [ev d] /\ r = Ok (y, metadata schema y)
        | Some (Err e) => m = [ev d] /\ r = Err e end
    end.
Definition asked (handle_id : string) : result exn DispatchResult -> event := Ev (Dispatch "quarantine.extract" handle_id (model_json_schema schema) 1).
Lemma violation_wp {A} (l : list event) (Q : list event -> result exn A -> Prop) :
  (forall x, Q (l ++ [Ev (Append violation_row) x]) (Err (after x PluginProtocolViolation))) -> wp (violation schema) (fun m r => Q (l ++ m) r).
Proof. intros H. apply wp_bind, wp_call. intros [x|e]; [apply wp_return, (H (Ok x))|apply (H (Err e))]. Qed.
Lemma body_wp handle_id : wp (_extract_body schema handle_id) (body_ends (asked handle_id)).
Proof.
  apply wp_bind, wp_except, wp_call. intros [d|e].
  2: { destruct (is_exception e) eqn:He; [|exists (Err e); by rewrite He]. apply wp_bind, wp_call. intros [x|e']; [apply wp_return|]; exists (Err e); rewrite He; [by exists (Ok x)|by exists (Err e')]. }
  assert (Hv : lift schema d = None -> wp (violation schema) (fun m r => body_ends (asked handle_id) ([asked handle_id (Ok d)] ++ m) r)).
  { intros Hl. apply violation_wp. intros x. exists (Ok d). rewrite Hl. by exists x. }
  assert (Hs : forall y, lift schema d = Some (Ok y) -> body_ends (asked handle_id) [asked handle_id (Ok d)] (Ok (y, metadata schema y))) by (intros y Hl; exists (Ok d); by rewrite Hl).
  assert (Hr : forall e, lift schema d = Some (Err e) -> body_ends (asked handle_id) [asked handle_id (Ok d)] (Err e)) by (intros e Hl; exists (Ok d); by rewrite Hl).
  assert (Hl : lift schema d = None -> lift schema d = None) by done. unfold lift at 1 in Hl. unfold lift in Hv, Hs, Hr. destruct d as [payload|]; [|by apply Hv]. cbn -[member bool_decide except bind violation lift] in *.
  destruct (member _ (dict_get "kind" payload)) as [kind|]; [|by apply Hv]. cbn -[member bool_decide except bind violation lift] in *. case_bool_decide.
  - destruct (dict_get "data" payload) as [[]|]; try by apply Hv. destruct (member _ _) as [mode|]; [|by apply Hv]. cbn -[except bind violation lift] in *.
    apply wp_bind, wp_except, wp_return. destruct (model_validate schema d) as [[]|e]; [by apply wp_return, Hs|]. destruct (is_validation_error e) eqn:He; [|by apply Hr].
    apply (violation_wp []). intros x. exists (Ok (ControlResult payload)). rewrite Hl by done. by exists x.
  - destruct (member _ _) as [reason|]; [by apply wp_return, (Hs (TypedRefusal reason))|by apply Hv].
Qed.

(** ** Rows, and the exceptions that surface *)
Definition row_of (x : event) : option extract_row := match x with @Ev _ _ B o _ => match o with Append r => Some r | _ => None end end.
(** A row that was written: its append returned. *)
Definition written_of (x : event) : option extract_row :=
  match x with @Ev _ _ B o r => match o in op B return result exn B -> option extract_row with Append row => fun r => match r with Ok _ => Some row | Err _ => None end | _ => fun _ => None end r end.
Definition owed (x : event) : option extract_row :=
  match x with
  | @Ev _ _ B o r => match o in op B return result exn B -> option extract_row with
      | Dispatch _ _ _ _ => fun r => match r with
          | Ok d => match lift schema d with None => Some violation_row | Some _ => None end
          | Err e => if is_exception e then Some transport_row else None end
      | PostChain y => fun r => match r with Ok _ => Some (outcome_row y) | Err (HookRefusal hook) => Some (refused_row hook) | Err _ => None end
      | _ => fun _ => None end r
  end.
#[local] Abbreviation rows := (Programs.rows row_of).
#[local] Abbreviation written := (Programs.rows written_of).
#[local] Abbreviation owes := (Programs.owes owed).
#[local] Abbreviation settled := (Programs.settled row_of owed).
(** Whose an exception is. *)
Definition explained (m : list event) (e : exn) : Prop :=
  raised m e \/ (exists d, lift schema d = Some (Err e)) \/ e = TypeError /\ is_extraction_schema schema = false \/ e = PluginProtocolViolation /\ written m = [violation_row] \/
  e = AlfredError "security.quarantine.dereference_denied" /\ Ev (CheckContentClearance _PLUGIN_ID "quarantine.dereference" "T3") (Ok false) ∈ m.
(** The calls of an extraction that returned. *)
Definition returned (handle_id : string) (m : list event) (x : ExtractionResult) : Prop := exists d, lift schema d = Some (Ok x) /\
  m = [Ev (PreChain (s_name schema) handle_id) (Ok tt); asked handle_id (Ok d); Ev (PostChain x) (Ok tt); Ev (Append (outcome_row x)) (Ok tt)].
Definition extracted (handle_id : string) (m : list event) (r : result exn ExtractionResult) : Prop :=
  settled m /\ match r with Ok x => returned handle_id m x | Err e => explained m e end.
Lemma error_chain_wp {A} (l : list event) (e : exn) (Q : list event -> result exn A -> Prop) :
  (forall x, Q (l ++ [Ev (ErrorChain e) x]) (Err (match x with Err e' => if is_hook_error e' then e else e' | Ok _ => e end))) -> wp (_dispatch_error_chain e ;; raise e) (fun m r => Q (l ++ m) r).
Proof.
  intros H. apply wp_bind. unfold _dispatch_error_chain. apply wp_bind, wp_except, wp_call. intros [x|e']; [apply wp_return, wp_return; rewrite !app_nil_r; apply (H (Ok x))|]. specialize (H (Err e')). cbn in H.
  destruct (is_hook_error e'); [apply wp_return, wp_return, wp_return; rewrite !app_nil_r; exact H|exact H].
Qed.
Definition failed {A} (m : list event) (r : result exn A) : Prop := settled m /\ match r with Ok _ => False | Err e => explained m e end.
Lemma told_fails {A} l e : settled l -> explained l e -> wp (_dispatch_error_chain e ;; raise e : prog A) (fun m => failed (l ++ m)).
Proof.
  intros Hs He. apply error_chain_wp. intros x. split; [by apply settled_then|]. assert (H : explained (l ++ [Ev (ErrorChain e) x]) e).
  { destruct He as [(B&o&H)|[H|[H|[[-> H]|[-> H]]]]]; [left; exists B, o; set_solver|by right; left|by right; right; left|right; right; right; left; unfold Programs.rows in *; by rewrite omap_app, H|right; right; right; right; set_solver]. }
  destruct x as [y|e']; [done|]. destruct (is_hook_error e'); [done|]. left. exists bool, (ErrorChain e). set_solver.
Qed.
Lemma stage_wp {A} l (p : prog A) (Q : list event -> result exn A -> Prop) :
  wp p (fun m r => match r with Ok _ => Q (l ++ m) r | Err e => failed (l ++ m) r end) -> (forall m e, failed m (Err e : result exn A) -> Q m (Err e)) ->
  wp (with_error_chain p) (fun m r => Q (l ++ m) r).
Proof.
  intros Hp HQ. apply wp_except. eapply wp_mono; [exact Hp|]. intros m [a|e] H; [done|]. destruct (is_exception e); [|by apply HQ].
  destruct H as [Hs He]. eapply wp_mono; [by apply told_fails|]. intros m' [a|e'] [Hs' He']; [done|]. apply HQ. by rewrite app_assoc.
Qed.
Lemma body_fails handle_id m (e : exn) : body_ends (asked handle_id) m (Err e) -> failed (A := ExtractionResult) (Ev (PreChain (s_name schema) handle_id) (Ok tt) :: m) (Err e).
Proof.
  assert (Hr : forall B (o : op B) l, raised (l ++ [Ev o (Err e)]) e) by (intros B o l; exists B, o; set_solver).
  intros ([d|e0]&H).
  - destruct (lift schema d) as [[y|e']|] eqn:Hl; [by destruct H| |].
    + destruct H as [-> H]. injection H as <-. split; [|right; left; by exists d]. split; cbn -[lift]; rewrite ?Hl; [done|cbn; lia].
    + destruct H as (x&->&H). injection H as ->. split; [split; cbn -[lift]; rewrite ?Hl; [done|cbn; lia]|]. destruct x as [x|e']; [right; right; right; left; by split|]. left. eexists _, _. right. right. constructor.
  - destruct (is_exception e0) eqn:He; [destruct H as (x&->&H)|destruct H as [-> H]]; injection H as ->; (split; [split; cbn; rewrite ?He; [done|cbn; lia]|]); left.
    + destruct x as [x|e']; [exists DispatchResult|exists unit]; eexists; cbn; [right; left|right; right; left].
    + eexists _, _. right. left.
Qed.
(** What follows the body, when it returned. *)
Definition finish (x : ExtractionResult) : prog ExtractionResult :=
  except is_exception (call (PostChain x)) (fun e =>
    match e with
    | HookRefusal hook_id => _emit_extract_audit schema "post_stage_refused" "refused" (Some hook_id) ;; _dispatch_error_chain e ;; raise e
    | _ => _dispatch_error_chain e ;; raise e
    end) ;;
  _emit_extract_audit schema (audit_result (metadata schema x)) (audit_extraction_mode (metadata schema x)) None ;;
  ret x.
Lemma finish_wp handle_id x d : lift schema d = Some (Ok x) ->
  wp (finish x) (fun m => extracted handle_id ([Ev (PreChain (s_name schema) handle_id) (Ok tt); asked handle_id (Ok d)] ++ m)).
Proof.
  intros Hl. apply wp_bind, wp_except, wp_call.
  intros [[]|e].
  - apply wp_bind, wp_call. intros [[]|e]; [apply wp_return; rewrite app_nil_r|]; (split; [split; cbn -[lift]; rewrite ?Hl; [done|cbn; lia]|]); [by exists d|]. left. eexists _, _. cbn. right. right. right. left.
  - set (l := [Ev (PreChain (s_name schema) handle_id) (Ok tt); asked handle_id (Ok d); Ev (PostChain x) (Err e)] : list event). assert (Hr : raised l e) by (exists unit, (PostChain x); unfold l; set_solver).
    destruct (is_exception e) eqn:He; [|split; [split; cbn -[lift]; rewrite ?Hl; destruct e; done || (cbn; lia)|by left]].
    apply wp_mono with (Q := fun m => failed (A := unit) (l ++ m)); [|by intros m [y|e'] [Hs He']].
    assert (Hf : owes l = [] -> wp (_dispatch_error_chain e ;; raise e : prog unit) (fun m => failed (l ++ m))).
    { intros Ho. apply told_fails; [|by left]. apply nothing_settled. split; [done|exact Ho]. }
    destruct e; try (apply Hf; cbn -[lift]; by rewrite Hl).
    apply wp_bind, wp_call. intros [[]|e].
    + apply wp_mono with (Q := fun m => failed (A := unit) ((l ++ [Ev (Append (refused_row hook_id)) (Ok tt)]) ++ m)); [|intros m r; by rewrite <- app_assoc].
      apply told_fails; [split; cbn -[lift]; rewrite ?Hl; done || (cbn; lia)|left; exists unit, (PostChain x); unfold l; set_solver].
    + split; [split; cbn -[lift]; rewrite ?Hl; done || (cbn; lia)|]. left. exists unit, (Append (refused_row hook_id)). unfold l. set_solver.
Qed.
Lemma extract_wp handle_id : wp (extract schema handle_id) (extracted handle_id).
Proof.
  unfold extract. destruct (is_extraction_schema schema) eqn:Hs; cbn [negb]; [|apply wp_return; split; [split; [done|cbn; lia]|right; right; by left]].
  apply wp_bind, wp_except, wp_call. set (p1 := Ev (PreChain (s_name schema) handle_id)). intros [[]|e].
  2: { assert (Hp : settled [p1 (Err e)] /\ explained [p1 (Err e)] e) by (unfold p1; split; [split; [done|cbn; lia]|left; exists unit, (PreChain (s_name schema) handle_id); constructor]).
       destruct (is_exception e); [|exact Hp]. destruct Hp. eapply wp_mono; [by apply (told_fails (A := unit) [p1 (Err e)])|]. by intros m [y|e'] [H1 H2]. }
  apply wp_bind, wp_except. eapply wp_mono; [apply body_wp|]. intros m [[x meta]|e] Hb.
  - assert (exists d, m = [asked handle_id (Ok d)] /\ lift schema d = Some (Ok x) /\ meta = metadata schema x) as (d&->&Hl&->).
    { destruct Hb as [[d|e] H]; [|destruct (is_exception e); [destruct H as (y&_&H)|destruct H as [_ H]]; discriminate].
      destruct (lift schema d) as [[y|e']|] eqn:Hl; [|by destruct H|by destruct H as (y&_&H)]. destruct H as [-> H]. injection H as -> ->. by exists d. }
    by apply (finish_wp handle_id x d).
  - apply body_fails in Hb. destruct (is_exception e); [|by destruct Hb]. destruct Hb as [H1 H2].
    eapply wp_mono; [by apply (told_fails (A := ExtractionResult * _BodyAuditMetadata) (p1 (Ok tt) :: m))|]. by intros m' [y|e'] [H3 H4].
Qed.
Definition cleared : result exn bool -> event := Ev (CheckContentClearance _PLUGIN_ID "quarantine.dereference" "T3").
Lemma structured_wp handle_id : wp (quarantined_to_structured schema handle_id) (fun m r => settled m /\ match r with Ok x => exists m', m = cleared (Ok true) :: m' /\ returned handle_id m' x | Err e => explained m e end).
Proof.
  apply wp_bind, wp_call. intros [[]|e].
  - eapply wp_mono; [apply extract_wp|]. intros m r [H1 H2]. split; [exact H1|]. destruct r as [x|e]; [by exists m|].
    destruct H2 as [(B&o&H)|[H|[H|[H|[-> H]]]]]; [left; exists B, o; set_solver|by right; left|by right; right; left|by right; right; right; left|right; right; right; right; set_solver].
  - apply wp_return. split; [split; [done|cbn; lia]|]. right; right; right; right. split; [done|constructor].
  - split; [split; [done|cbn; lia]|]. left. exists bool, (CheckContentClearance _PLUGIN_ID "quarantine.dereference" "T3"). constructor.
Qed.
(** Only behind the clearance and the first chain is anything asked of the model. *)
Definition dispatches (x : event) : bool := match x with @Ev _ _ B o _ => match o with Dispatch _ _ _ _ => true | _ => false end end.
Definition quiet (x : event) : Prop := dispatches x = false /\ row_of x = None.
Lemma quiet_rows m : Forall quiet m -> rows m = [].
Proof. induction 1 as [|x m [_ Hx] _ IH]; [done|]. unfold Programs.rows in *. cbn. by rewrite Hx. Qed.
(** Of at most one append, either it returned or it raised. *)
Lemma written_or_raised m : (length (rows m) <= 1)%nat -> written m = rows m \/ written m = [] /\ exists row e, rows m = [row] /\ Ev (Append row) (Err e) ∈ m.
Proof.
  induction m as [|[B o x] m IH]; [by left|]. unfold Programs.rows in *. destruct o; cbn; try (intros [Hw|(Hw&row&e&H1&H2)]%IH; [by left|right]; split; [done|]; exists row, e; split; [done|by right]).
  intros H. assert (Hm : omap row_of m = []) by (destruct (omap row_of m); cbn in *; [done|lia]). rewrite Hm in *. destruct IH as [Hw|(_&row&e&?&_)]; [cbn; lia| |done]. rewrite Hw.
  destruct x as [u|e]; [by left|]. right. split; [done|]. exists r, e. split; [done|left].
Qed.
Lemma error_chain_quiet (e : exn) A : wp (_dispatch_error_chain e ;; raise e : prog A) (fun m r => Forall quiet m /\ exists e', r = Err e').
Proof. apply (error_chain_wp []). intros x. split; [by repeat constructor|by eexists]. Qed.
Lemma structured_gated handle_id : wp (quarantined_to_structured schema handle_id) (fun m _ => Forall quiet m \/ exists m', m = cleared (Ok true) :: Ev (PreChain (s_name schema) handle_id) (Ok tt) :: m').
Proof.
  apply wp_bind, wp_call. intros [[]|e]; [|apply wp_return|]; try (left; by repeat constructor).
  unfold extract. destruct (is_extraction_schema schema); cbn [negb]; [|apply wp_return; left; by repeat constructor].
  apply wp_bind, wp_except, wp_call. intros [[]|e].
  - eapply wp_mono; [apply wp_true|]. intros m r _. right. by exists m.
  - destruct (is_exception e); [|left; by repeat constructor]. eapply wp_mono; [apply error_chain_quiet|]. intros m r [Hm [e' ->]]. left. by repeat constructor.
Qed.
End rows.
Lemma member_some voc v s : member voc v = Some s -> v = Some (JString s) /\ s ∈ voc.
Proof. unfold member. destruct v as [[]|]; try discriminate. case_decide; [|discriminate]. by intros [= ->]. Qed.
Lemma lift_ok schema d x : lift schema d = Some (Ok x) -> exists payload, d = ControlResult payload /\
  match x with
  | Extracted data mode => dict_get "kind" payload = Some (JString "extracted") /\ dict_get "data" payload = Some (JObject data) /\ model_validate schema data = Ok tt /\
      dict_get "extraction_mode" payload = Some (JString mode) /\ mode ∈ ExtractionMode
  | TypedRefusal reason => dict_get "kind" payload = Some (JString "typed_refusal") /\ dict_get "reason" payload = Some (JString reason) /\ reason ∈ TypedRefusalReason
  end.
Proof.
  unfold lift. destruct d as [payload|]; [|discriminate]. intros H. apply bind_Some in H as (p&[= <-]&H). exists payload. split; [done|].
  apply bind_Some in H as (kind&[E Hk]%member_some&H). rewrite E. case_bool_decide as Hx.
  - subst kind. destruct (dict_get "data" payload) as [[]|]; try discriminate. apply bind_Some in H as (mode&[Em Hm]%member_some&H).
    destruct (model_validate schema d) as [[]|e] eqn:Hv; [|by destruct (is_validation_error e)]. injection H as <-. by rewrite Em.
  - apply bind_Some in H as (reason&[Er Hr]%member_some&[= <-]). rewrite Er. split; [|done]. assert (kind = "typed_refusal"%string) as -> by set_solver; done.
Qed.
(** C9: What leaves the quarantine has been cleared, checked and recorded.  A result is
    returned only after exactly five calls: the capability gate cleared the dereference, the
    hooks before it let it pass, the model was asked, the hooks after it (the scan for secrets
    among them) let this very result pass, and its row was written.  Data is what the payload
    carries, validated by the caller's schema; a mode and a reason are of the closed
    vocabularies.  And on no run is the model asked anything before the first two. *)
Theorem extraction_returns_only_validated_data schema handle_id env :
  let '(l, r) := execute env [] (quarantined_to_structured schema handle_id) in
  match r with
  | Ok x => exists payload,
      l = [cleared (Ok true); Ev (PreChain (s_name schema) handle_id) (Ok tt); asked schema handle_id (Ok (ControlResult payload)); Ev (PostChain x) (Ok tt); Ev (Append (outcome_row schema x)) (Ok tt)] /\
      match x with
      | Extracted data mode => dict_get "kind" payload = Some (JString "extracted") /\ dict_get "data" payload = Some (JObject data) /\ model_validate schema data = Ok tt /\
          dict_get "extraction_mode" payload = Some (JString mode) /\ mode ∈ ExtractionMode
      | TypedRefusal reason => dict_get "kind" payload = Some (JString "typed_refusal") /\ dict_get "reason" payload = Some (JString reason) /\ reason ∈ TypedRefusalReason
      end
  | Err _ => True
  end /\
  (Forall (fun x => dispatches x = false) l \/ exists m, l = cleared (Ok true) :: Ev (PreChain (s_name schema) handle_id) (Ok tt) :: m).
Proof.
  destruct (wp_and _ _ _ (structured_wp schema handle_id) (structured_gated schema handle_id) env []) as (m&E&[_ H]&G). destruct (execute _ _ _) as [l r]. cbn in *. subst l.
  split; [|destruct G as [G|G]; [left; eapply Forall_impl; [exact G|]; by intros x []|by right]].
  destruct r as [x|e]; [|done]. destruct H as (m'&->&d&Hl&->).
  destruct (lift_ok _ _ _ Hl) as (payload&->&Hx). by exists payload.
Qed.
(** C12: The rows of an extraction are the ones its answers call for, at most one.  A transport
    that fails calls for the row of the failure, an answer that is not what the wire promises
    for that of the violation, a refusal by the hooks after the model for that of the refusal,
    a result that passed every hook for that of the result; nothing else is asked of the
    journal.  The row is written, or its one append raised.  Without the clearance, or when the
    hooks before the model refuse, there is no row at all.  A result is returned only with its
    row written.  An exception that surfaces was raised by a collaborator or by the schema, or
    is the violation whose row was written, the denied clearance, or a class that is no
    extraction schema. *)
Theorem every_extraction_is_accounted_for schema handle_id env :
  let '(l, r) := execute env [] (quarantined_to_structured schema handle_id) in
  let written := Programs.rows written_of l in
  let owes := Programs.owes (owed schema) l in
  Programs.rows row_of l = owes /\ (length owes <= 1)%nat /\
  (written = owes \/ written = [] /\ exists row e, owes = [row] /\ Ev (Append row) (Err e) ∈ l) /\
  (owes = [] \/ exists m, l = cleared (Ok true) :: Ev (PreChain (s_name schema) handle_id) (Ok tt) :: m) /\
  match r with Ok x => written = [outcome_row schema x] | Err e => explained schema l e end.
Proof.
  destruct (wp_and _ _ _ (structured_wp schema handle_id) (structured_gated schema handle_id) env []) as (m&E&[[H1 H3] H2]&G). destruct (execute _ _ _) as [l r]. cbn in *. subst l. rewrite <- H1.
  split; [done|]. split; [done|]. split; [by apply written_or_raised|]. split; [destruct G as [G|G]; [left; by apply quiet_rows|by right]|].
  destruct r as [x|e]; [|done]. by destruct H2 as (m'&->&d&Hl&->).
Qed.
(** The hooks before the model refuse: there is no row of the extraction. *)
Theorem early_refusal_leaves_no_row schema handle_id hook : is_extraction_schema schema = true ->
  let env : environment := fun _ B o => match o in op B return result exn B with
    | PreChain _ _ => Err (HookRefusal hook) | PostChain _ => Ok tt | Append _ => Ok tt | CheckContentClearance _ _ _ => Ok true | ErrorChain e => Err e
    | Dispatch _ _ _ _ => Ok NoControlResult end in
  let '(l, r) := execute env [] (quarantined_to_structured schema handle_id) in Programs.rows row_of l = [] /\ r = Err (HookRefusal hook).
Proof. intros H. unfold quarantined_to_structured, extract. cbn -[is_extraction_schema negb]. by destruct (is_extraction_schema schema). Qed.
(** The error chain can displace the failure it is told of: a subscriber's exception that is
    no hook error surfaces in place of the transport's. *)
Definition displaced : environment := fun _ B o =>
  match o in op B return result exn B with
  | PreChain _ _ => Ok tt | PostChain _ => Ok tt | Append _ => Ok tt | CheckContentClearance _ _ _ => Ok true
  | ErrorChain _ => Err (OtherException "audit sink") | Dispatch _ _ _ _ => Err (OtherException "transport")
  end.
Theorem error_chain_displaces_the_failure : forall schema handle_id, is_extraction_schema schema = true ->
  (execute displaced [] (quarantined_to_structured schema handle_id)).2 = Err (OtherException "audit sink").
Proof. intros schema handle_id H. unfold quarantined_to_structured, extract. cbn -[is_extraction_schema negb]. by destruct (is_extraction_schema schema). Qed.
