(* ===== verification/QuarantineBroker.v ===== *)
(** * The sockets of an extraction: [broker_connected_sockets] and [_run_broker_preamble]

    [egress/control_fd_broker.py] and [security/quarantine_transport.py]: before the child may
    extract it is passed one connected socket per attempt; each is recorded, and a batch that
    fails is refused, after the child that may hold a part of it has been torn down.  Both are
    programs over the sockets, the auditor and the child.  The deadlines are exceptions an await
    may raise; file descriptors and the metrics are left out. *)
From S2P Require Import Prelude Quarantine Programs.
#[local] Open Scope Z_scope.

Inductive exn :=
| ControlFdBrokerError (reason : string) (destination : option string) (delivered : nat)
| IOPlaneUnavailableError | QuarantineChildSpawnError
| TimeoutError (expired : bool)               (* whether it is the preamble's own deadline *)
| OtherException (name : string) | CancelledError.
Inductive op : Type -> Type :=
| ResolveProxyAddr : op string                                      (* host and port *)
| ConnectAll (count : nat) : op (list (option exn))                 (* gather: the failure of each, if it failed *)
| SendOne : op unit
| CloseAll : op unit
| RecordSuccess (destination : string) (socket_ordinal : nat) : op unit
| RecordFailure (destination reason : string) : op unit
| Aclose : op unit
| Abort : op unit.
#[local] Abbreviation prog := (program exn op).
#[local] Abbreviation event := (entry exn op).
#[local] Open Scope prog_scope.

Section broker.
Variable configured : bool.    (* a control socket and a proxy address *)
Definition stamped {A} (destination : string) (delivered : nat) (p : prog A) : prog A :=
  seq p (fun r => match r with Err (ControlFdBrokerError reason _ _) => raise (ControlFdBrokerError reason (Some destination) delivered) | _ => Return r end).
Fixpoint send_all (destination : string) (todo delivered : nat) : prog unit :=
  match todo with O => ret tt | S todo => stamped destination delivered (call SendOne) ;; send_all destination todo (S delivered) end.
Definition first_failure (outcomes : list (option exn)) : option exn := head (omap id outcomes).
Definition broker_connected_sockets (count : nat) : prog (list string) :=
  destination <~ call ResolveProxyAddr;
  finally
    (outcomes <~ stamped destination 0 (call (ConnectAll count));
     match first_failure outcomes with
     | Some e => stamped destination 0 (raise e)
     | None => send_all destination (length outcomes) 0 ;; ret (replicate count destination)
     end)
    (call CloseAll).
Definition broker_sockets (count : nat) : prog (list string) := if configured then broker_connected_sockets count else raise QuarantineChildSpawnError.

Definition _abort_child_now : prog unit := except (fun e => match e with CancelledError => false | _ => true end) (call Abort) (fun _ => ret tt).
Definition _revoke_child_capability : prog unit :=
  except (fun _ => true) (call Aclose) (fun e => _abort_child_now ;; match e with CancelledError => raise e | _ => ret tt end).
Definition _BROKER_FAILURE_REFUSAL_REASON : string := "provider_unavailable".
Definition _UNRESOLVED_DESTINATION : string := "<unresolved>".
Definition _GENERIC_BROKER_REFUSAL_REASON : string := "control_fd_broker_failed".
Definition _broker_failure_refusal : dict := [("kind", JString "typed_refusal"); ("reason", JString _BROKER_FAILURE_REFUSAL_REASON)]%string.
Definition _refuse_broker (destination reason : string) (revoke : bool) : prog (option dict) :=
  (if revoke then _revoke_child_capability else ret tt) ;;
  call (RecordFailure destination reason) ;;
  ret (Some _broker_failure_refusal).
(** [None] is to proceed to the wire. *)
Definition _run_broker_preamble : prog (option dict) :=
  except (fun _ => true)
    (destinations <~ broker_sockets BROKER_SOCKET_COUNT;
     each (fun x => call (RecordSuccess x.2 x.1)) (imap pair destinations) ;; ret None)
    (fun e => match e with
     | TimeoutError false => _revoke_child_capability ;; raise e
     | TimeoutError true => _refuse_broker _UNRESOLVED_DESTINATION _GENERIC_BROKER_REFUSAL_REASON true
     | ControlFdBrokerError reason destination delivered => _refuse_broker (default _UNRESOLVED_DESTINATION destination) reason (0 <? delivered)%nat
     | IOPlaneUnavailableError | QuarantineChildSpawnError => _refuse_broker _UNRESOLVED_DESTINATION _GENERIC_BROKER_REFUSAL_REASON false
     | _ => _revoke_child_capability ;; raise e
     end).
End broker.

(** ** What a failed batch leaves behind *)
(** A socket may be with the child: its send returned, or was cut short.  A send that reports
    its failure has queued nothing. *)
Definition delivers (x : event) : bool :=
  match x with @Ev _ _ B o r => match o in op B return result exn B -> bool with
    | SendOne => fun r => match r with Err (ControlFdBrokerError _ _ _) => false | _ => true end
    | _ => fun _ => false end r end.
Definition reached (m : list event) : Prop := Exists (fun x => delivers x = true) m.
Definition revoked (m : list event) : Prop := exists r, Ev Aclose r ∈ m /\ (r = Ok tt \/ exists r', Ev Abort r' ∈ m).
(** A class of the broker's own, raised by another: the auditor, the close, a send. *)
Definition broker_class (e : exn) : bool := match e with ControlFdBrokerError _ _ _ | IOPlaneUnavailableError | QuarantineChildSpawnError => true | _ => false end.
Definition misraised (x : event) : bool :=
  match x with @Ev _ _ B o r => match r with Ok _ => false | Err e =>
    match o with
    | RecordSuccess _ _ | CloseAll => broker_class e
    | SendOne => match e with IOPlaneUnavailableError | QuarantineChildSpawnError => true | _ => false end
    | _ => false end end end.
Definition masked (m : list event) : Prop := Exists (fun x => misraised x = true) m.
Definition safe_failure (m : list event) (e : exn) : Prop :=
  match e with ControlFdBrokerError _ _ (S _) => True | _ => broker_class e = true -> reached m -> masked m end.
Lemma safe_masked m m' e : masked m' -> safe_failure (m ++ m') e.
Proof. intros H. assert (masked (m ++ m')) by (apply Exists_app; by right). destruct e as [? ? []| | | | |]; cbn; auto. Qed.
Lemma masked_app m m' : masked (m ++ m') <-> masked m \/ masked m'.
Proof. apply Exists_app. Qed.
Lemma reached_app m m' : reached (m ++ m') <-> reached m \/ reached m'.
Proof. apply Exists_app. Qed.
Lemma idle m : Forall (fun x => delivers x = false) m -> ~ reached m.
Proof. intros H Hr. apply Exists_exists in Hr as (x&Hx&Hd). rewrite Forall_forall in H. by rewrite (H x Hx) in Hd. Qed.
Ltac idle := apply idle; by repeat constructor.
Definition send_failure (k : nat) (m : list event) (e : exn) : Prop :=
  match e with ControlFdBrokerError _ _ n => (k <= n)%nat /\ (n = O -> ~ reached m) | IOPlaneUnavailableError | QuarantineChildSpawnError => masked m | _ => True end.
Lemma send_all_wp d todo : forall k, wp (send_all d todo k) (fun m r => match r with Ok _ => True | Err e => send_failure k m e end).
Proof.
  induction todo as [|todo IH]; intros k; [by apply wp_return|]. cbn [send_all]. apply wp_bind, wp_seq, wp_call. intros [[]|e].
  - apply wp_return. eapply wp_mono; [apply IH|]. intros m [x|e] H; [done|]. destruct e as [r0 d0 n| | | | |]; cbn in *; try done; [|by right..].
    destruct H as [Hn H0]. split; [lia|]. intros ->. lia.
  - destruct e; apply wp_return; cbn; try done; [|by left..]. split; [done|]. intros _. idle.
Qed.
Lemma safe_idle m e : ~ reached m -> safe_failure m e.
Proof. intros H. destruct e as [? ? []| | | | |]; cbn; done. Qed.
Lemma safe_send m0 m e : ~ reached m0 -> send_failure 0 m e -> safe_failure (m0 ++ m) e.
Proof.
  intros H0 H. destruct e as [? ? []| | | | |]; cbn in *; try done; [|intros _ _; apply masked_app; by right..]. intros _ [Hr|Hr]%reached_app; [done|]. by destruct H as [_ []].
Qed.
Lemma broker_wp configured count : wp (broker_sockets configured count) (fun m r => match r with Ok ds => exists d, ds = replicate count d | Err e => safe_failure m e end).
Proof.
  unfold broker_sockets. destruct configured; [|apply wp_return; intros _ H; by apply idle in H]. apply wp_bind, wp_call. intros [d|e].
  2: { assert (H : ~ reached [Ev ResolveProxyAddr (Err e)]) by idle. destruct e as [? ? []| | | | |]; cbn; intros; done. }
  apply wp_finally.
  apply wp_mono with (Q := fun m r => match r with Ok ds => exists d, ds = replicate count d | Err e => safe_failure (Ev ResolveProxyAddr (Ok d) :: m) e end).
  2: { intros m r H. apply wp_call. intros [[]|e].
       - destruct r as [ds|e]; [done|]. destruct e as [? ? []| | | | |]; cbn in *; try done; intros Hc [Hr|Hr]%(reached_app (_ :: m));
           first [by apply (masked_app (_ :: m)); left; apply H | exfalso; revert Hr; idle].
       - destruct (broker_class e) eqn:He; [apply (safe_masked (_ :: m)); left; cbn; exact He|]. destruct e; cbn in *; done. }
  apply wp_bind, wp_seq, wp_call. intros [outcomes|e].
  2: { assert (H : forall e', safe_failure [Ev ResolveProxyAddr (Ok d); Ev (ConnectAll count) (Err e)] e') by (intros e'; apply safe_idle; idle). destruct e; apply wp_return, H. }
  apply wp_return. destruct (first_failure outcomes) as [e|].
  - apply wp_seq, wp_return. assert (H : forall e', safe_failure [Ev ResolveProxyAddr (Ok d); Ev (ConnectAll count) (Ok outcomes)] e') by (intros e'; apply safe_idle; idle). destruct e; apply wp_return, H.
  - apply wp_bind. eapply wp_mono; [apply send_all_wp|]. intros m [x|e] H; [apply wp_return; by exists d|].
    apply (safe_send [Ev ResolveProxyAddr (Ok d); Ev (ConnectAll count) (Ok outcomes)]); [idle|done].
Qed.
Lemma revoke_wp : wp _revoke_child_capability (fun m _ => revoked m /\ ~ reached m).
Proof.
  apply wp_except, wp_call. intros [[]|e]; [split; [exists (Ok tt); split; [constructor|by left]|idle]|].
  apply wp_bind. unfold _abort_child_now. apply wp_except, wp_call.
  assert (H : forall x, revoked [Ev Aclose (Err e); Ev Abort x] /\ ~ reached [Ev Aclose (Err e); Ev Abort x]) by (intros x; split; [exists (Err e); split; [constructor|right; exists x; right; constructor]|idle]).
  intros [[]|e']; [destruct e; apply wp_return, H|]. destruct e'; try apply wp_return; try apply H; destruct e; apply wp_return, H.
Qed.
Definition contained (m : list event) : Prop := reached m -> revoked m \/ masked m.
Definition refused (m : list event) (r : result exn (option dict)) : Prop :=
  match r with Ok o => o = Some _broker_failure_refusal /\ exists d reason, Ev (RecordFailure d reason) (Ok tt) ∈ m | Err _ => True end.
Lemma refuse_wp m d reason (revoke : bool) : (revoke = false -> contained m) -> wp (_refuse_broker d reason revoke) (fun m' r => contained (m ++ m') /\ refused (m ++ m') r).
Proof.
  intros H. apply wp_bind. apply wp_mono with (Q := fun m' _ => contained (m ++ m')).
  - destruct revoke; [eapply wp_mono; [apply revoke_wp|]; intros m' _ [(r&Hr&Hr') _] _; left; exists r; destruct Hr' as [?|[r' ?]]; (split; [set_solver|]); [by left|right; exists r'; set_solver]|].
    apply wp_return. rewrite app_nil_r. by apply H.
  - intros m' [x|e] Hc; [|done]. apply wp_bind, wp_call.
    assert (Hc' : forall x, contained (m ++ m' ++ [Ev (RecordFailure d reason) x])).
    { intros y. rewrite app_assoc. intros [Hr|Hr]%reached_app; [|exfalso; revert Hr; idle]. destruct (Hc Hr) as [(r&Hr1&Hr2)|Hm]; [left|right; apply masked_app; by left].
      exists r. split; [set_solver|]. destruct Hr2 as [?|[r' ?]]; [by left|right; exists r'; set_solver]. }
    intros [[]|e]; [apply wp_return; rewrite app_nil_r; split; [apply Hc'|]; split; [done|]; exists d, reason; set_solver|by split].
Qed.
Definition recorded (m : list event) : Prop := exists d, forall k, (k < BROKER_SOCKET_COUNT)%nat -> Ev (RecordSuccess d k) (Ok tt) ∈ m.
Lemma region_wp configured : wp (destinations <~ broker_sockets configured BROKER_SOCKET_COUNT; each (fun x => call (RecordSuccess x.2 x.1)) (imap pair destinations) ;; ret (@None dict))
  (fun m r => match r with Ok o => o = None /\ recorded m | Err e => safe_failure m e end).
Proof.
  apply wp_bind. eapply wp_mono; [apply broker_wp|]. intros m [ds|e] H; [|done]. destruct H as [d ->]. apply wp_bind.
  eapply wp_mono; [apply (wp_each _ _ (fun x _ m => Ev (RecordSuccess x.2 x.1) (Ok tt) ∈ m) (fun m e => broker_class e = true -> masked m))|].
  - set_solver.
  - set_solver.
  - intros m1 m2 e H Hb. apply masked_app. auto.
  - intros [k x] _. apply wp_call. intros [[]|e]; cbn; [constructor|]. intros Hb. by left.
  - intros m' [us|e] H; cbn beta iota in H.
    + apply wp_return. split; [done|]. exists d. intros k Hk. rewrite app_nil_r. apply elem_of_app. right. rewrite Forall2_lookup in H. specialize (H k).
      rewrite list_lookup_imap, lookup_replicate_2 in H by done. cbn in H. by inversion H.
    + destruct e as [? ? []| | | | |]; cbn in *; try done; intros; apply masked_app; right; by apply H.
Qed.
Lemma preamble_wp configured : wp (_run_broker_preamble configured) (fun m r => match r with Ok None => recorded m | _ => contained m /\ refused m r end).
Proof.
  apply wp_except. eapply wp_mono; [apply region_wp|]. intros m [o|e] H; [by destruct H as [-> H]|].
  assert (Hm : forall (p : prog (option dict)), wp p (fun m' r => contained (m ++ m') /\ refused (m ++ m') r) -> wp p (fun m' r => match r with Ok None => recorded (m ++ m') | _ => contained (m ++ m') /\ refused (m ++ m') r end)).
  { intros p Hp. eapply wp_mono; [exact Hp|]. intros m' [[p'|]|e'] [H1 H2]; [done|by destruct H2|done]. }
  assert (Hrev : wp (_revoke_child_capability ;; raise e : prog (option dict)) (fun m' r => contained (m ++ m') /\ refused (m ++ m') r)).
  { apply wp_bind. eapply wp_mono; [apply revoke_wp|]. intros m' [x|e'] [(r&Hr&Hr') _]; [apply wp_return; rewrite app_nil_r|];
      (split; [|done]); intros _; left; exists r; (split; [set_solver|]); destruct Hr' as [?|[r' ?]]; [by left|right; exists r'; set_solver|by left|right; exists r'; set_solver]. }
  destruct e as [reason d n| | |[]| |]; apply Hm; try exact Hrev.
  - apply refuse_wp. intros Hn Hr. destruct n as [|n]; [|done]. right. by apply H.
  - apply refuse_wp. intros _ Hr. right. by apply H.
  - apply refuse_wp. intros _ Hr. right. by apply H.
  - by apply refuse_wp.
Qed.
