(* ===== verification/QuarantineChild.v ===== *)
(** * The quarantined model: [dispatch_extraction]

    [security/quarantine_child/provider_dispatch.py]: one extraction in the child process that
    holds the untrusted content: up to three attempts at a provider, each on a socket of its
    own, under one deadline.  It is a program over the clock, the provider source and the
    sleep; [json] is a parameter.  A [str] is its UTF-8 bytes, so the decoding of the content
    gives it back.  The log lines, and the clock readings only they use, are left out. *)
From S2P Require Import Prelude Quarantine Programs.
#[local] Open Scope Z_scope.

Inductive exn := TimeoutError | ProviderUnavailableError | ValidationError | JSONDecodeError | ProviderMalformedToolArgumentsError | TypeError | OtherException (name : string) | CancelledError.
(** A request of one user message: with the forced tool and its schema, or without. *)
Record CompletionRequest := { prompt : string; forced_tool : option (string * dict); max_tokens : Z }.
Record CompletionResponse := { tool_calls : list dict; content : string; cost_usd : Q }.
Inductive op : Type -> Type :=
| Monotonic : op Q
| Bind (budget_seconds : Q) : op unit                                     (* source.bind, entered *)
| Complete (request : CompletionRequest) (timeout : Q) : op CompletionResponse
| Unbind : op unit                                                        (* and left *)
| Sleep (seconds : Q) : op unit.
#[local] Abbreviation prog := (program exn op).
#[local] Abbreviation event := (entry exn op).
#[local] Open Scope prog_scope.

Definition _EXTRACT_TOOL_NAME : string := "extract_structured_data".
Definition _MAX_TOTAL_WALL_CLOCK_SECONDS : Q := 20.
Definition _BACKOFF_BASE_SECONDS : Q := 1 # 2.
Definition _categorise_validator_error (e : exn) : string := match e with JSONDecodeError => "json_parse_error" | _ => "schema_mismatch" end.
Definition _build_extraction_prompt (content schema_json : string) (retry_category : option string) : option string :=
  match retry_category with
  | None => Some ("Extract structured data matching this schema:" +:+ newline +:+ schema_json +:+ newline +:+ newline +:+ "Content:" +:+ newline +:+ content)%string
  | Some category => _build_retry_prompt category schema_json
  end.
Definition refusal (reason : string) (cost : Q) : dict := [("kind", JString "typed_refusal"); ("reason", JString reason); ("cost_usd", JNumber cost)]%string.
Definition extracted_as (data : dict) (mode : string) (cost : Q) : dict :=
  [("kind", JString "extracted"); ("data", JObject data); ("extraction_mode", JString mode); ("cost_usd", JNumber cost)]%string.

Section dispatch.
Variables (loads : string -> result exn json) (dumps : dict -> string).
Variables (native_constrained_generation : bool) (resolved_max_tokens : Z).
Definition _cached_parsed_schema (schema_json : string) : result exn dict :=
  match loads schema_json with Ok (JObject d) => Ok d | Ok _ => Err TypeError | Err e => Err e end.
Definition _validate_response (raw : string) : result exn dict :=
  match loads raw with Ok (JObject d) => Ok d | Ok _ => Err JSONDecodeError | Err e => Err e end.
Definition _call_provider (prompt : string) (schema : dict) (timeout : Q) : prog (string * Q) :=
  if native_constrained_generation then
    response <~ call (Complete {| prompt := prompt; forced_tool := Some (_EXTRACT_TOOL_NAME, schema); max_tokens := resolved_max_tokens |} timeout);
    match tool_calls response with [] => raise ProviderMalformedToolArgumentsError | arguments :: _ => ret (dumps arguments, cost_usd response) end
  else
    response <~ call (Complete {| prompt := prompt; forced_tool := None; max_tokens := resolved_max_tokens |} timeout);
    ret (content response, cost_usd response).

Section extraction.
Variables (content_text schema_json : string) (parsed_schema : dict) (deadline_monotonic : Q).
Definition extraction_mode : string := if native_constrained_generation then "native_constrained" else "prompt_embedded_fallback".
(** [async with source.bind(...) as provider: ... await asyncio.wait_for(...)] *)
Definition attempted (prompt : string) (remaining_budget : Q) : prog (string * Q) :=
  call (Bind remaining_budget) ;;
  finally (now <~ call Monotonic; _call_provider prompt parsed_schema (deadline_monotonic - now)%Q) (call Unbind).
Definition backoff (attempt : nat) : prog unit :=
  if decide (attempt < EXTRACTION_MAX_RETRIES)%nat then
    now <~ call Monotonic;
    call (Sleep (py_max 0 (py_min (_BACKOFF_BASE_SECONDS * inject_Z (2 ^ Z.of_nat attempt)) (deadline_monotonic - now))))
  else ret tt.
Fixpoint attempts (todo : nat) (attempt : nat) (retry_category : option string) (cost_total : Q) : prog dict :=
  match todo with
  | O => ret (refusal "cannot_extract" cost_total)
  | S todo =>
      now <~ call Monotonic;
      let remaining_budget := (deadline_monotonic - now)%Q in
      if Qle_bool remaining_budget 0 then ret (refusal "cannot_extract" cost_total) else
      match _build_extraction_prompt content_text schema_json retry_category with
      | None => raise (OtherException "ValueError")
      | Some prompt =>
          let failed e cost_total :=
            match e with
            | TimeoutError => ret (refusal "cannot_extract" cost_total)
            | ProviderUnavailableError => ret (refusal "provider_unavailable" cost_total)
            | ValidationError | JSONDecodeError | ProviderMalformedToolArgumentsError =>
                backoff attempt ;; attempts todo (S attempt) (Some (_categorise_validator_error e)) cost_total
            | _ => raise e
            end in
          seq (attempted prompt remaining_budget) (fun r =>
            match r with
            | Err e => failed e cost_total
            | Ok (raw_response, call_cost) =>
                match _validate_response raw_response with
                | Ok validated => ret (extracted_as validated extraction_mode (cost_total + call_cost)%Q)
                | Err e => failed e (cost_total + call_cost)%Q
                end
            end)
      end
  end.
End extraction.
Definition dispatch_extraction (content_text schema_json : string) : prog dict :=
  match _cached_parsed_schema schema_json with
  | Err e => raise e
  | Ok parsed_schema =>
      now <~ call Monotonic;
      attempts content_text schema_json parsed_schema (now + _MAX_TOTAL_WALL_CLOCK_SECONDS)%Q (EXTRACTION_MAX_RETRIES + 1) 0 None 0
  end.
(** [__main__.handle_extract], the body popped from the cache. *)
Definition handle_extract (popped : option string) (schema_json : string) : prog dict :=
  match popped with
  | Some c => if bool_decide (c = ""%string) then ret [("kind", JString "typed_refusal"); ("reason", JString "cannot_extract")]%string else dispatch_extraction c schema_json
  | None => ret [("kind", JString "typed_refusal"); ("reason", JString "cannot_extract")]%string
  end.
End dispatch.

(** ** The budget *)
(** What a call may take, when what it waits on keeps the bound it is given. *)
Definition takes {B} (unbinding : Q) (o : op B) : Q :=
  match o with Monotonic => 0 | Bind t => py_max t 0 | Complete _ t => py_max t 0 | Unbind => unbinding | Sleep t => py_max t 0 end%Q.
Lemma py_max_cases t : (0 <= t /\ py_max t 0 <= t \/ t <= 0 /\ py_max t 0 <= 0)%Q.
Proof. unfold py_max. destruct (Qltb_spec t 0); [right|left]; lra. Qed.
(** [time l] is the time once [l] has happened: a call takes what it may and at most [slack]
    more, and a reading falls within the call that makes it. *)
Record timed (env : environment) (time : list event -> Q) (unbinding slack : Q) : Prop := {
  t_slack : (0 <= slack)%Q; t_unbinding : (0 <= unbinding)%Q;
  t_call l B (o : op B) : (time l <= time (l ++ [Ev o (env l B o)]) <= time l + takes unbinding o + slack)%Q;
  t_clock l t : env l Q Monotonic = Ok t -> (time l <= t <= time (l ++ [Ev Monotonic (Ok t)]))%Q }.
Section budget.
Variables (loads : string -> result exn json) (dumps : dict -> string) (native : bool) (tokens : Z) (text schema_json : string) (schema : dict).
Variables (env : @environment exn op) (time : list event -> Q) (unbinding slack : Q).
Hypothesis Ht : timed env time unbinding slack.
Lemma runs_clock {A} l (k : Q -> prog A) Q : (forall t l', (time l <= t <= time l')%Q -> (time l' <= time l + slack)%Q -> runs env l' (k t) Q) ->
  (forall e l', (time l' <= time l + slack)%Q -> Q (Err e) l') -> runs env l (now <~ call Monotonic; k now) Q.
Proof.
  intros Hk He. apply runs_bind, runs_call. pose proof (t_call _ _ _ _ Ht l _ Monotonic) as H. cbn [takes] in H.
  destruct (env l _ Monotonic) as [t|e] eqn:E; [|apply He; lra]. pose proof (t_clock _ _ _ _ Ht l t E). apply Hk; lra.
Qed.
Section deadline.
Variable D : Q.
Lemma attempted_time p remaining l : (time l + remaining <= D + slack)%Q -> (0 < remaining)%Q ->
  runs env l (attempted dumps native tokens schema D p remaining) (fun _ l' => (time l' <= D + unbinding + 6 * slack)%Q).
Proof.
  intros Hl Hr. pose proof (t_slack _ _ _ _ Ht). pose proof (t_unbinding _ _ _ _ Ht). apply runs_bind, runs_call.
  pose proof (t_call _ _ _ _ Ht l _ (Bind remaining)) as H1. cbn [takes] in H1. pose proof (py_max_cases remaining) as Hm. destruct (env l _ (Bind remaining)) as [[]|e]; [|lra].
  apply runs_finally. set (l1 := l ++ _) in *.
  assert (Hu : forall (r : result exn (string * Q)) l', (time l' <= D + 5 * slack)%Q -> runs env l' (call Unbind) (fun _ l'' => (time l'' <= D + unbinding + 6 * slack)%Q)).
  { intros r l' H'. apply runs_call. pose proof (t_call _ _ _ _ Ht l' _ Unbind) as H2. cbn [takes] in H2. lra. }
  apply runs_clock; [|intros e l' H'; apply (Hu (Err e)); lra]. intros t l' H2 H3.
  assert (Hc : forall q, (time (l' ++ [Ev (Complete q (D - t)) (env l' _ (Complete q (D - t)))]) <= D + 5 * slack)%Q).
  { intros q. pose proof (t_call _ _ _ _ Ht l' _ (Complete q (D - t)%Q)) as H4. cbn [takes] in H4. pose proof (py_max_cases (D - t)) as Hm'. lra. }
  unfold _call_provider. destruct native; apply runs_bind, runs_call; destruct (env l' _ _) as [r|e] eqn:E; rewrite <- E.
  - destruct (tool_calls r); apply runs_return, (Hu (Err TypeError)), Hc.
  - apply (Hu (Err e)), Hc.
  - apply runs_return, (Hu (Err TypeError)), Hc.
  - apply (Hu (Err e)), Hc.
Qed.
Lemma backoff_time attempt l : (time l <= D + unbinding + 6 * slack)%Q -> runs env l (backoff D attempt) (fun _ l' => (time l' <= D + unbinding + 8 * slack)%Q).
Proof.
  intros Hl. pose proof (t_slack _ _ _ _ Ht). pose proof (t_unbinding _ _ _ _ Ht). unfold backoff. destruct (decide _); [|apply runs_return; lra].
  apply runs_clock; [|intros e l' H'; lra]. intros t l' H1 H2. apply runs_call. set (s := py_max _ _).
  pose proof (t_call _ _ _ _ Ht l' _ (Sleep s)) as H3. cbn [takes] in H3. pose proof (py_max_cases s) as Hm. assert (s <= 0 \/ s <= D - t)%Q as [Hs|Hs]; [|lra..].
  subst s. unfold py_max, py_min. destruct (Qltb_spec (D - t) (_BACKOFF_BASE_SECONDS * inject_Z (2 ^ Z.of_nat attempt))); cmp_cases; lra || (left; lra) || (right; lra).
Qed.
Lemma attempts_time todo : forall attempt category cost l, (time l <= D + unbinding + 8 * slack)%Q ->
  runs env l (attempts loads dumps native tokens text schema_json schema D todo attempt category cost) (fun _ l' => (time l' <= D + unbinding + 9 * slack)%Q).
Proof.
  pose proof (t_slack _ _ _ _ Ht). pose proof (t_unbinding _ _ _ _ Ht). induction todo as [|todo IH]; intros attempt category cost l Hl; [apply runs_return; lra|]. cbn [attempts].
  apply runs_clock; [|intros e l' H'; lra]. intros t l' H1 H2. destruct (Qleb_spec (D - t) 0); [apply runs_return; lra|].
  destruct (_build_extraction_prompt text schema_json category) as [p|]; [|apply runs_return; lra].
  apply runs_seq. eapply runs_mono; [apply attempted_time; lra|]. intros r l'' HA. cbn in HA.
  assert (Hb : forall e c, runs env l'' (backoff D attempt ;; attempts loads dumps native tokens text schema_json schema D todo (S attempt) (Some (_categorise_validator_error e)) c)
    (fun _ l' => (time l' <= D + unbinding + 9 * slack)%Q)).
  { intros e c. apply runs_bind. eapply runs_mono; [by apply backoff_time|]. intros [x|e1] l3 H4; [by apply IH|lra]. }
  assert (Hf : forall e c, runs env l'' (match e with TimeoutError => ret (refusal "cannot_extract" c) | ProviderUnavailableError => ret (refusal "provider_unavailable" c)
     | ValidationError | JSONDecodeError | ProviderMalformedToolArgumentsError =>
         backoff D attempt ;; attempts loads dumps native tokens text schema_json schema D todo (S attempt) (Some (_categorise_validator_error e)) c
     | _ => raise e end) (fun _ l' => (time l' <= D + unbinding + 9 * slack)%Q)).
  { intros e c. destruct e; try apply Hb; apply runs_return; lra. }
  destruct r as [[raw c]|e]; [|apply Hf]. destruct (_validate_response loads raw); [apply runs_return; lra|apply Hf].
Qed.
End deadline.
End budget.

(** ** What was asked, and what is answered *)
Section tally.
Variables (loads : string -> result exn json) (dumps : dict -> string) (native : bool) (tokens : Z) (text schema_json : string) (schema : dict).
(** What a provider's answer says, and what it cost. *)
Definition heard (r : CompletionResponse) : result exn (string * Q) :=
  if native then match tool_calls r with [] => Err ProviderMalformedToolArgumentsError | a :: _ => Ok (dumps a, cost_usd r) end else Ok (content r, cost_usd r).
Definition prompt_of (x : event) : option string := match x with @Ev _ _ B o _ => match o with Complete q _ => Some (prompt q) | _ => None end end.
Definition heard_of (x : event) : option (string * Q) :=
  match x with @Ev _ _ B o r => match o in op B return result exn B -> option (string * Q) with
    | Complete _ _ => fun r => match r with Ok r => match heard r with Ok x => Some x | Err _ => None end | Err _ => None end
    | _ => fun _ => None end r end.
Definition binding (x : event) : option Q := match x with @Ev _ _ B o _ => match o with Bind b => Some b | _ => None end end.
Definition opened (x : event) : option unit := match x with @Ev _ _ B o r => match o in op B return result exn B -> option unit with Bind _ => fun r => match r with Ok _ => Some tt | Err _ => None end | _ => fun _ => None end r end.
Definition left_ (x : event) : option unit := match x with @Ev _ _ B o _ => match o with Unbind => Some tt | _ => None end end.
Definition leaves_well (m : list event) : Prop := forall e, Ev Unbind (Err e) ∉ m.
Definition total (cost : Q) (l : list (string * Q)) : Q := fold_left (fun c x => c + x.2)%Q l cost.
Definition retry_prompt (p : string) : Prop := exists category, category ∈ ["json_parse_error"; "schema_mismatch"]%string /\ _build_retry_prompt category schema_json = Some p.
(** An attempt: a socket taken is given back, and a provider is asked once. *)
Inductive attempt_log (p : string) (remaining : Q) : list event -> result exn (string * Q) -> Prop :=
| al_refused e : attempt_log p remaining [Ev (Bind remaining) (Err e)] (Err e)
| al_clock e x : attempt_log p remaining [Ev (Bind remaining) (Ok tt); Ev Monotonic (Err e); Ev Unbind x] (Err (match x with Ok _ => e | Err e' => e' end))
| al_asked t q a b x : prompt q = p -> attempt_log p remaining [Ev (Bind remaining) (Ok tt); Ev Monotonic (Ok t); Ev (Complete q b) a; Ev Unbind x]
    (match x with Ok _ => match a with Ok r => heard r | Err e => Err e end | Err e' => Err e' end).
Lemma attempted_wp D p remaining : wp (attempted dumps native tokens schema D p remaining) (attempt_log p remaining).
Proof.
  apply wp_bind, wp_call. intros [[]|e]; [|constructor]. apply wp_finally, wp_bind, wp_call. intros [t|e].
  2: { apply wp_call. intros [[]|e']; [apply (al_clock p remaining e (Ok tt))|apply (al_clock p remaining e (Err e'))]. }
  unfold _call_provider. assert (H : forall q a x (r : result exn (string * Q)), prompt q = p -> r = match a with Ok r => heard r | Err e => Err e end ->
    attempt_log p remaining [Ev (Bind remaining) (Ok tt); Ev Monotonic (Ok t); Ev (Complete q (D - t)) a; Ev Unbind x] (match x with Ok _ => r | Err e => Err e end)) by (intros q a x r Hq ->; by constructor).
  destruct native eqn:Hn; apply wp_bind, wp_call; intros [r|e]; try (apply wp_call; intros x; by apply H).
  - destruct (tool_calls r) eqn:Hr; apply wp_return, wp_call; intros x; apply H; unfold heard; rewrite ?Hn, ?Hr; done.
  - apply wp_return, wp_call. intros x. apply H; unfold heard; rewrite ?Hn; done.
Qed.
#[local] Abbreviation prompts := (omap prompt_of).
#[local] Abbreviation heards := (omap heard_of).
Definition blames (m : list event) (e : exn) : Prop := raised m e \/ exists raw c, (raw, c) ∈ heards m /\ loads raw = Err e.
Definition first_prompt : option string := _build_extraction_prompt text schema_json None.
Definition answered (cost : Q) (m : list event) (r : result exn dict) : Prop :=
  match r with
  | Ok payload => exists c, (leaves_well m -> c = total cost (heards m)) /\
      (payload = refusal "cannot_extract" c \/ payload = refusal "provider_unavailable" c /\ blames m ProviderUnavailableError \/
       exists raw x data, last (heards m) = Some (raw, x) /\ loads raw = Ok (JObject data) /\ payload = extracted_as data (extraction_mode native) c)
  | Err e => blames m e
  end.
Record tally (todo : nat) (firsts : list string) (cost : Q) (m : list event) (r : result exn dict) : Prop := {
  y_prompts : exists ps qs, prompts m = ps ++ qs /\ ps `sublist_of` firsts /\ Forall retry_prompt qs;
  y_count : (length (prompts m) <= length (omap binding m) <= todo)%nat;
  y_paired : length (omap opened m) = length (omap left_ m);
  y_answer : answered cost m r }.
(** What passes between the attempts. *)
Definition silent (m : list event) : Prop := Forall (fun x => prompt_of x = None /\ heard_of x = None /\ binding x = None /\ opened x = None /\ left_ x = None) m.
Lemma silent_omap {B} (f : event -> option B) m : Forall (fun x => f x = None) m -> omap f m = [].
Proof. induction 1 as [|x m H _ IH]; [done|]. cbn. by rewrite H. Qed.
Lemma silent_all m : silent m -> prompts m = [] /\ heards m = [] /\ omap binding m = [] /\ omap opened m = [] /\ omap left_ m = [].
Proof. intros H. split_and!; apply silent_omap; eapply Forall_impl; try exact H; cbn; intros x (?&?&?&?&?); done. Qed.
Lemma backoff_wp D attempt : wp (backoff D attempt) (fun m r => silent m /\ match r with Err e => raised m e | Ok _ => True end).
Proof.
  unfold backoff. destruct (decide _); [|apply wp_return; by repeat constructor]. apply wp_bind, wp_call. intros [t|e]; [|split; [by repeat constructor|eexists _, _; constructor]].
  apply wp_call. intros [x|e]; (split; [by repeat constructor|]); [done|]. eexists _, _. right. constructor.
Qed.
Lemma attempt_tally p remaining m r : attempt_log p remaining m r ->
  (prompts m = [] \/ prompts m = [p]) /\ (length (omap binding m) = 1)%nat /\ length (omap opened m) = length (omap left_ m) /\
  match r with Ok x => heards m = [x] | Err e => (leaves_well m -> heards m = []) /\ (raised m e \/ e = ProviderMalformedToolArgumentsError) end.
Proof.
  intros [e|e x|t q a b x Hq].
  - split; [by left|]. split; [done|]. split; [done|]. split; [done|]. left. eexists _, _. constructor.
  - split; [by left|]. split; [done|]. split; [done|]. split; [done|]. left. destruct x as [x|e']; eexists _, _; [right; left|right; right; left].
  - split; [right; cbn; by rewrite Hq|]. split; [done|]. split; [done|]. destruct x as [[]|e'].
    + cbn. destruct a as [a|e]; [|split; [done|left; eexists _, _; right; right; left]]. destruct (heard a) as [y|e] eqn:Ha; [done|]. split; [done|]. right.
      unfold heard in Ha. destruct native; [|done]. destruct (tool_calls a); congruence.
    + split; [|left; eexists _, _; right; right; right; left]. intros H. exfalso. apply (H e'). right; right; right; left.
Qed.
Lemma total_app cost l l' : total cost (l ++ l') = total (total cost l) l'.
Proof. apply fold_left_app. Qed.
Lemma blames_more m1 m2 m3 e : blames m2 e -> blames (m1 ++ m2 ++ m3) e.
Proof. intros [H|(raw&c&H&Hl)]; [left; by apply raised_more|right]. exists raw, c. rewrite !omap_app. set_solver. Qed.
Definition asked_now (firsts : list string) (p : string) : Prop := firsts = [p] \/ retry_prompt p.
Lemma asked_prompts firsts p ps : asked_now firsts p -> ps = [] \/ ps = [p] -> exists ps' qs, ps = ps' ++ qs /\ ps' `sublist_of` firsts /\ Forall retry_prompt qs.
Proof.
  intros Hp [->| ->]; [exists [], []; split_and!; [done|apply sublist_nil_l|constructor]|]. destruct Hp as [->|Hp]; [exists [p], []|exists [], [p]]; split_and!; try done; [apply sublist_nil_l|by constructor].
Qed.
(** An attempt that ends the extraction, and one that is followed by others. *)
Lemma tally_end todo firsts cost t p remaining m ra mb r : asked_now firsts p -> attempt_log p remaining m ra -> silent mb ->
  answered cost (Ev Monotonic (Ok t) :: m ++ mb) r -> tally (S todo) firsts cost (Ev Monotonic (Ok t) :: m ++ mb) r.
Proof.
  intros Hp Hm Hb Hr. destruct (attempt_tally _ _ _ _ Hm) as (H1&H2&H3&_). destruct (silent_all _ Hb) as (B1&B2&B3&B4&B5).
  split; [|cbn; rewrite !omap_app, !length_app, B1, B3, H2; destruct H1 as [->| ->]; cbn; lia|cbn; by rewrite !omap_app, B4, B5, !app_nil_r|done].
  cbn. rewrite omap_app, B1, app_nil_r. by eapply asked_prompts.
Qed.
Lemma clock_answered cost t m r : answered cost m r -> answered cost (Ev Monotonic (Ok t) :: m) r.
Proof.
  assert (Hb : forall e, blames m e -> blames (Ev Monotonic (Ok t) :: m) e) by (intros e He; apply (blames_more [Ev Monotonic (Ok t)] m []) in He; by rewrite app_nil_r in He).
  destruct r as [payload|e]; [|apply Hb]. intros (c&Hc&Hp). exists c. split; [intros Hw; apply Hc; intros e He; apply (Hw e); by right|]. destruct Hp as [?|[[? ?]|?]]; auto.
Qed.
Lemma clock_tally todo firsts cost t m r : tally todo firsts cost m r -> tally todo firsts cost (Ev Monotonic (Ok t) :: m) r.
Proof. intros [H1 H2 H3 H4]. split; [exact H1|exact H2|exact H3|by apply clock_answered]. Qed.
Lemma leaves_well_app m1 m2 : leaves_well (m1 ++ m2) -> leaves_well m1 /\ leaves_well m2.
Proof. intros H. split; intros e He; apply (H e); set_solver. Qed.
Lemma tally_retry todo firsts cost cost' t p remaining ma ra mb m r : asked_now firsts p -> attempt_log p remaining ma ra -> silent mb ->
  (leaves_well ma -> cost' = total cost (heards ma)) -> tally todo [] cost' m r -> tally (S todo) firsts cost (Ev Monotonic (Ok t) :: ma ++ mb ++ m) r.
Proof.
  intros Hp Hm Hb Hc [(ps&qs&Y1&->%sublist_nil_r&Yq) Y2 Y3 Y4]. destruct (attempt_tally _ _ _ _ Hm) as (H1&H2&H3&_). destruct (silent_all _ Hb) as (B1&B2&B3&B4&B5). cbn in Y1.
  destruct (asked_prompts _ _ _ Hp H1) as (ps&qs'&E1&Hps&Hqs). split.
  - exists ps, (qs' ++ qs). cbn. rewrite !omap_app, B1, E1, Y1. cbn. split; [by rewrite <- app_assoc|]. split; [done|]. by apply Forall_app.
  - cbn. rewrite !omap_app, !length_app, B1, B3, H2. destruct H1 as [->| ->]; cbn; lia.
  - cbn. rewrite !omap_app, !length_app, B4, B5, H3, Y3. lia.
  - destruct r as [payload|e]; [|apply (blames_more (Ev Monotonic (Ok t) :: ma ++ mb) m []) in Y4; cbn in Y4; rewrite app_nil_r, <- app_assoc in Y4; exact Y4].
    destruct Y4 as (c&Yc&Hpay). exists c. cbn -[total]. rewrite !omap_app, B2. cbn -[total]. split.
    + intros [_ [Hw1 [_ Hw2]%leaves_well_app]%leaves_well_app]%(leaves_well_app [Ev Monotonic (Ok t)]). rewrite total_app, <- Hc by done. by apply Yc.
    + destruct Hpay as [->|[[-> Hbl]|(raw&x&data&E&Hl&->)]]; [by left|right; left|right; right].
      * split; [done|]. apply (blames_more (Ev Monotonic (Ok t) :: ma ++ mb) m []) in Hbl. cbn in Hbl. rewrite app_nil_r, <- app_assoc in Hbl. exact Hbl.
      * exists raw, x, data. split; [|done]. by apply last_app_Some; left.
Qed.
Definition known (category : string) : Prop := category ∈ ["json_parse_error"; "schema_mismatch"]%string.
Definition firsts (category : option string) : list string := match category with None => option_list first_prompt | Some _ => [] end.
Definition option_all (P : string -> Prop) (o : option string) : Prop := match o with Some c => P c | None => True end.
Lemma prompt_known category : option_all known category -> exists p, _build_extraction_prompt text schema_json category = Some p /\ asked_now (firsts category) p.
Proof.
  destruct category as [c|]; [|intros _; eexists; split; [done|by left]]. intros Hc. assert (c = "json_parse_error" \/ c = "schema_mismatch")%string as [->| ->] by (cbn in Hc; unfold known in Hc; set_solver); eexists; (split; [reflexivity|right]); [exists "json_parse_error"%string|exists "schema_mismatch"%string]; (split; [set_solver|reflexivity]).
Qed.
Definition retried (e : exn) : bool := match e with ValidationError | JSONDecodeError | ProviderMalformedToolArgumentsError => true | _ => false end.
Lemma attempts_wp D todo : forall attempt category cost, option_all known category ->
  wp (attempts loads dumps native tokens text schema_json schema D todo attempt category cost) (tally todo (firsts category) cost).
Proof.
  induction todo as [|todo IH]; intros attempt category cost Hcat.
  { apply wp_return. split; [by eexists [], []; split_and!; [done|apply sublist_nil_l|]|done|done|]. exists cost. split; [done|by left]. }
  cbn [attempts]. apply wp_bind, wp_call.
  assert (H0 : forall x r, answered cost [Ev Monotonic x] r -> tally (S todo) (firsts category) cost [Ev Monotonic x] r).
  { intros x r Hr. split; [by eexists [], []; split_and!; [done|apply sublist_nil_l|]|cbn; lia|done|done]. }
  intros [t|e]; [|apply H0; left; eexists _, _; constructor]. destruct (Qle_bool (D - t) 0); [apply wp_return, H0; exists cost; split; [done|by left]|].
  destruct (prompt_known _ Hcat) as (p&->&Hp). apply wp_seq. eapply wp_mono; [apply attempted_wp|]. intros ma ra Hma.
  assert (Hf : forall e cost', (leaves_well ma -> cost' = total cost (heards ma)) -> blames (Ev Monotonic (Ok t) :: ma) e \/ retried e = true ->
    wp (match e with TimeoutError => ret (refusal "cannot_extract" cost') | ProviderUnavailableError => ret (refusal "provider_unavailable" cost')
       | ValidationError | JSONDecodeError | ProviderMalformedToolArgumentsError =>
           backoff D attempt ;; attempts loads dumps native tokens text schema_json schema D todo (S attempt) (Some (_categorise_validator_error e)) cost'
       | _ => raise e end) (fun m => tally (S todo) (firsts category) cost ([Ev Monotonic (Ok t)] ++ ma ++ m))).
  { intros e cost' Hc Hb. assert (Hend : forall r, answered cost (Ev Monotonic (Ok t) :: ma) r -> wp (Return r) (fun m => tally (S todo) (firsts category) cost ([Ev Monotonic (Ok t)] ++ ma ++ m))).
    { intros r Hr. apply wp_return. apply (tally_end todo _ cost t p (D - t) ma ra []); [done|done|constructor|]. by rewrite app_nil_r. }
    assert (Hret : forall pay, pay = refusal "cannot_extract" cost' \/ pay = refusal "provider_unavailable" cost' /\ blames (Ev Monotonic (Ok t) :: ma) ProviderUnavailableError -> answered cost (Ev Monotonic (Ok t) :: ma) (Ok pay)).
    { intros pay Hpay. exists cost'. split; [|destruct Hpay; auto]. intros [_ Hw]%(leaves_well_app [Ev Monotonic (Ok t)]). by apply Hc. }
    assert (Hre : retried e = true -> known (_categorise_validator_error e) -> wp (backoff D attempt ;; attempts loads dumps native tokens text schema_json schema D todo (S attempt) (Some (_categorise_validator_error e)) cost')
      (fun m => tally (S todo) (firsts category) cost ([Ev Monotonic (Ok t)] ++ ma ++ m))).
    { intros _ Hk. apply wp_bind. eapply wp_mono; [apply backoff_wp|]. intros mb [x|e'] [Hs Hr].
      - eapply wp_mono; [by apply (IH (S attempt) (Some (_categorise_validator_error e)) cost')|]. intros m r Hm. cbn in Hm. by apply (tally_retry todo _ cost cost' t p (D - t) ma ra mb m r).
      - apply (tally_end todo _ cost t p (D - t) ma ra mb); [done|done|done|]. left. apply (raised_more (Ev Monotonic (Ok t) :: ma) mb []) in Hr. cbn in Hr. by rewrite app_nil_r in Hr. }
    destruct e; cbn [retried] in Hb; try (destruct Hb as [Hb|Hb]; [|discriminate]; by apply Hend); [| |by apply Hre; [|unfold known; cbn; set_solver]..].
    - apply Hend, Hret. by left.
    - destruct Hb as [Hb|Hb]; [|discriminate]. apply Hend, Hret. by right. }
  destruct (attempt_tally _ _ _ _ Hma) as (_&_&_&Hh). destruct ra as [[raw c]|e].
  - unfold _validate_response. assert (Hin : (raw, c) ∈ heards (Ev Monotonic (Ok t) :: ma)) by (cbn; rewrite Hh; set_solver).
    assert (Hc : leaves_well ma -> (cost + c)%Q = total cost (heards ma)) by (by rewrite Hh).
    destruct (loads raw) as [j|e] eqn:Hl; [|apply Hf; [done|left; right; by exists raw, c]]. destruct j as [| | | | |data]; try (by apply (Hf JSONDecodeError (cost + c)%Q); [|right]).
    apply wp_return. apply (tally_end todo _ cost t p (D - t) ma (Ok (raw, c)) []); [done|done|constructor|]. rewrite app_nil_r. exists (cost + c)%Q. split; [intros [_ Hw]%(leaves_well_app [Ev Monotonic (Ok t)]); by apply Hc|].
    right; right. exists raw, c, data. cbn. by rewrite Hh.
  - destruct Hh as [Hh He]. apply Hf; [intros Hw; by rewrite (Hh Hw)|]. destruct He as [He| ->]; [left; left|by right].
    apply (raised_more [Ev Monotonic (Ok t)] ma []) in He. by rewrite app_nil_r in He.
Qed.
End tally.

(** C13: An extraction ends within its budget.  When every call keeps the bound it is given (a
    bind its budget, a completion its timeout, a sleep its length) up to some slack, [dispatch_extraction]
    returns or raises no later than twenty seconds after it began, the one unbinding that may
    still be under way, and ten times the slack.  Nothing is assumed of what the provider
    answers, of [json] or of the attempts that fail. *)
Theorem extraction_ends_within_its_budget loads dumps native tokens text schema_json env time unbinding slack : timed env time unbinding slack ->
  (time (execute env [] (dispatch_extraction loads dumps native tokens text schema_json)).1 <= time [] + _MAX_TOTAL_WALL_CLOCK_SECONDS + unbinding + 10 * slack)%Q.
Proof.
  intros Ht. pose proof (t_slack _ _ _ _ Ht). pose proof (t_unbinding _ _ _ _ Ht). unfold dispatch_extraction, _MAX_TOTAL_WALL_CLOCK_SECONDS. destruct (_cached_parsed_schema loads schema_json) as [schema|e]; [|cbn; lra].
  assert (Hr : runs env [] (now <~ call Monotonic; attempts loads dumps native tokens text schema_json schema (now + 20)%Q (EXTRACTION_MAX_RETRIES + 1) 0 None 0)
    (fun _ l' => time l' <= time [] + 20 + unbinding + 10 * slack)%Q); [|exact Hr].
  apply (runs_clock _ _ _ _ Ht); [|intros e l' H'; lra]. intros t l' H1 H2. eapply runs_mono; [apply (attempts_time _ _ _ _ _ _ _ _ _ _ _ Ht); lra|]. intros r l'' H3. cbn in H3. lra.
Qed.
(** An extraction asks at most three times, and what it answers is what it heard.  A
    provider is bound at most three times and each is let go again; it is asked at most once
    while bound, at first for the content and afterwards with a prompt made of a word of a
    closed list and the schema: nothing of an answer reaches a later prompt.  The payload is
    data parsed from the last answer, or a refusal, which blames the provider only for its own
    exception; its cost is the sum over every answer heard, unless a provider was let go with an
    exception.  What is raised was raised by a collaborator or by the parser. *)
Theorem extraction_accounts_for_its_calls loads dumps native tokens text schema_json env :
  let '(l, r) := execute env [] (dispatch_extraction loads dumps native tokens text schema_json) in
  tally loads dumps native schema_json (EXTRACTION_MAX_RETRIES + 1) (option_list (first_prompt text schema_json)) 0 l r \/
  exists e, l = [] /\ _cached_parsed_schema loads schema_json = Err e /\ r = Err e.
Proof.
  unfold dispatch_extraction. destruct (_cached_parsed_schema loads schema_json) as [schema|e]; [|right; by exists e].
  assert (H : wp (now <~ call Monotonic; attempts loads dumps native tokens text schema_json schema (now + _MAX_TOTAL_WALL_CLOCK_SECONDS)%Q (EXTRACTION_MAX_RETRIES + 1) 0 None 0)
    (tally loads dumps native schema_json (EXTRACTION_MAX_RETRIES + 1) (option_list (first_prompt text schema_json)) 0)).
  { apply wp_bind, wp_call. intros [t|e]; [|split; [by eexists [], []; split_and!; [done|apply sublist_nil_l|]|cbn; lia|done|left; eexists _, _; constructor]].
    eapply wp_mono; [by apply attempts_wp|]. intros m r Hm. by apply clock_tally. }
  destruct (H env []) as (m&E&Hm). destruct (execute env [] _) as [l r]. cbn in *. subst. by left.
Qed.

(** A provider that is slow and talks no JSON: two answers of eight seconds, and a third cut
    off by the deadline. *)
Module Slow.
Definition upto (cap t : Q) : Q := py_max (py_min cap t) 0.
Definition lasts (x : event) : Q :=
  match x with @Ev _ _ B o _ => match o with Bind t => upto 1 t | Complete _ t => upto 8 t | Sleep t => upto t t | Monotonic | Unbind => 0%Q end end.
Definition time (l : list event) : Q := fold_left (fun t x => t + lasts x)%Q l 0%Q.
Definition slow : @environment exn op := fun l B o =>
  match o in op B return result exn B with
  | Monotonic => Ok (time l) | Bind _ => Ok tt | Unbind => Ok tt | Sleep _ => Ok tt
  | Complete _ t => if Qle_bool 8 t then Ok {| tool_calls := []; content := "page"; cost_usd := 1 # 10 |} else Err TimeoutError
  end.
Definition loads (s : string) : result exn json := if bool_decide (s = "{}"%string) then Ok (JObject []) else Err JSONDecodeError.
Lemma time_snoc l x : time (l ++ [x]) = (time l + lasts x)%Q.
Proof. unfold time. by rewrite fold_left_app. Qed.
Lemma upto_bounds cap t : (0 <= upto cap t <= py_max t 0)%Q.
Proof. unfold upto, py_max, py_min. destruct (Qltb_spec t cap), (Qltb_spec t 0), (Qltb_spec cap 0); lra. Qed.
Lemma slow_timed : timed slow time 0 0.
Proof.
  split; [lra|lra| |].
  - intros l B o. rewrite time_snoc. destruct o; cbn [lasts takes]; try lra; match goal with |- context [upto ?c ?t] => pose proof (upto_bounds c t) end; lra.
  - intros l t [= <-]. rewrite time_snoc. cbn [lasts]. lra.
Qed.
End Slow.
Lemma extraction_ends_within_its_budget_witness :
  let '(l, r) := execute Slow.slow [] (dispatch_extraction Slow.loads (fun _ => "{}"%string) false 1024 "content" "{}") in
  (exists cost, r = Ok (refusal "cannot_extract" cost) /\ cost == 2 # 10)%Q /\ length l = 20%nat /\ (Slow.time l == 20)%Q /\
  (Slow.time (execute Slow.slow [] (dispatch_extraction Slow.loads (fun _ => "{}"%string) false 1024 "content" "{}")).1 <= Slow.time [] + _MAX_TOTAL_WALL_CLOCK_SECONDS + 0 + 10 * 0)%Q.
Proof.
  pose proof (extraction_ends_within_its_budget Slow.loads (fun _ => "{}"%string) false 1024 "content" "{}" Slow.slow Slow.time 0 0 Slow.slow_timed) as H.
  destruct (execute _ _ _) as [l r] eqn:E. split; [|split; [|split; [|exact H]]]; clear H;
    vm_compute in E; injection E as <- <-; first [reflexivity | eexists; split; reflexivity].
Defined.
