(* ===== verification/QuarantineLink.v ===== *)
(** * The link to the quarantined child

    [security/quarantine_transport.py] and the server of [security/quarantine_child/__main__.py]:
    staged bodies, the dispatches that share the one child under a lock, the frames between
    them, and the reads of the reply, which run on threads and outlive a coroutine that gives
    them up.  The steps are those of the parties, in any order; the preamble is that of
    [QuarantineBroker], by what it comes to, the child's extraction that of [QuarantineChild].
    A byte is a [Z]; [json.dumps] and [json.loads] are
    parameters. *)
From S2P Require Import Prelude Quarantine QuarantineChild Programs.
#[local] Open Scope Z_scope.

Definition _LENGTH_HEADER_BYTES : nat := 4.
Definition be32 (n : Z) : list Z := [n / 16777216; n / 65536 mod 256; n / 256 mod 256; n mod 256].
Definition un32 (l : list Z) : Z := match l with [a; b; c; d] => a * 16777216 + b * 65536 + c * 256 + d | _ => 0 end.
Inductive link_exn := StagingHandleNotConfiguredError | QuarantineChildSpawnError | BrokenPipeError | LinkCancelled | OtherFailure (name : string).
Inductive request := Ingest (handle_id context : string) | Extraction (handle_id schema_json : string).
(** Where a dispatch is: waiting for the lock, at the preamble, reading a header or a body. *)
Inductive phase := Queued | Brokering (context : string) | Header (context : string) | Body (context : string) (header : list Z) | Ended (r : result link_exn dict).
Record dispatched := { c_handle : string; c_schema : string; c_phase : phase }.
Inductive note := Staged (handle_id context : string) | Drained (call : nat) (handle_id context : string) | Received (call : nat) (payload : dict).
Record link := {
  staged : gmap string string; holder : option nat; calls : gmap nat dispatched;       (* the host *)
  inbox : list request; content_cache : gmap string string; alive : bool;               (* the child *)
  stdout : list Z; reads : list (nat * nat);                                             (* the pipe, and the reads it is to serve *)
  notes : list note }.

(** A read of the reply that is given up: its thread may have begun, and will still read. *)
Inductive action :=
| RecordBody (nonce_configured : bool) (handle_id body : string)
| DiscardStaged (handle_id : string)
| Start (call : nat) (handle_id schema_json : string)
| Acquire (call : nat)
| Preamble (call : nat) (outcome : option (result link_exn dict)) (revoked : bool)
| WriteFails (call : nat) (ingested : bool)
| CancelQueued (call : nat)
| ChildTakes (env : @environment exn op) (cut : option nat)
| ChildDies
| Deliver
| EndOfFile
| Abandon (call : nat) (begun : bool).

Section link.
Variables (loads : string -> result exn json) (dumps : dict -> string) (native : bool) (tokens : Z).
(** [json.dumps(...).encode] and [json.loads], of bytes. *)
Variables (json_encode : json -> list Z) (json_decode : list Z -> result link_exn json).
Definition result_body (payload : dict) : list Z := json_encode (JObject [("jsonrpc", JString "2.0"); ("result", JObject payload)])%string.
Definition _decode_result_payload (raw : list Z) : result link_exn dict :=
  match json_decode (drop _LENGTH_HEADER_BYTES raw) with
  | Ok (JObject o) => match dict_get "result" o with Some (JObject d) => Ok d | _ => Ok [] end
  | Ok _ => Err (OtherFailure "AttributeError")
  | Err e => Err e
  end.
Definition _frame_from_result (payload : dict) : list Z := be32 (Z.of_nat (length (result_body payload))) ++ result_body payload.
Definition set_phase (i : nat) (p : phase) (s : link) : link :=
  {| staged := staged s; holder := holder s; calls := alter (fun c => {| c_handle := c_handle c; c_schema := c_schema c; c_phase := p |}) i (calls s);
     inbox := inbox s; content_cache := content_cache s; alive := alive s; stdout := stdout s; reads := reads s; notes := notes s |}.
Definition with_host (st : gmap string string) (h : option nat) (ns : list note) (s : link) : link :=
  {| staged := st; holder := h; calls := calls s; inbox := inbox s; content_cache := content_cache s; alive := alive s; stdout := stdout s; reads := reads s; notes := notes s ++ ns |}.
Definition with_child (i : list request) (c : gmap string string) (a : bool) (s : link) : link :=
  {| staged := staged s; holder := holder s; calls := calls s; inbox := i; content_cache := c; alive := a; stdout := stdout s; reads := reads s; notes := notes s |}.
Definition with_pipe (o : list Z) (r : list (nat * nat)) (s : link) : link :=
  {| staged := staged s; holder := holder s; calls := calls s; inbox := inbox s; content_cache := content_cache s; alive := alive s; stdout := o; reads := r; notes := notes s |}.
Definition phase_of (i : nat) (s : link) : option phase := c_phase <$> calls s !! i.
(** A dispatch that ends lets the lock go. *)
Definition ends (i : nat) (r : result link_exn dict) (s : link) : link := with_host (staged s) None [] (set_phase i (Ended r) s).
Definition child_takes (env : @environment exn op) (cut : option nat) (s : link) : option link :=
  if negb (alive s) then None else
  match inbox s with
  | [] => None
  | Ingest h context :: rest => Some (with_child rest (<[h := context]> (content_cache s)) true s)
  | Extraction h schema_json :: rest =>
      let s' := with_child rest (base.delete h (content_cache s)) true s in
      match (execute env [] (handle_extract loads dumps native tokens (content_cache s !! h) schema_json)).2 with
      | Err _ => Some (with_child rest (base.delete h (content_cache s)) false s)       (* the server dies of it *)
      | Ok payload =>
          if 4294967296 <=? Z.of_nat (length (result_body payload)) then Some (with_child rest (base.delete h (content_cache s)) false s) else
          match cut with
          | None => Some (with_pipe (stdout s ++ _frame_from_result payload) (reads s) s')
          | Some k => Some (with_pipe (stdout s ++ take k (_frame_from_result payload)) (reads s) (with_child rest (base.delete h (content_cache s)) false s))
          end
      end
  end.
(** The pipe serves the read that came first; one whose dispatch has gone is served all the same. *)
Definition deliver (s : link) : option link :=
  match reads s with
  | [] => None
  | (i, n) :: rest =>
      if decide (n <= length (stdout s))%nat then
        let bytes := take n (stdout s) in let s' := with_pipe (drop n (stdout s)) rest s in
        match phase_of i s with
        | Some (Header context) => Some (with_pipe (stdout s') (reads s' ++ [(i, Z.to_nat (un32 bytes))]) (set_phase i (Body context bytes) s'))
        | Some (Body _ header) => match _decode_result_payload (header ++ bytes) with
            | Ok payload => Some (with_host (staged s') None [Received i payload] (set_phase i (Ended (Ok payload)) s'))
            | Err e => Some (ends i (Err e) s')
            end
        | _ => Some s'
        end
      else None
  end.
Definition reading (p : option phase) : bool := match p with Some (Header _) | Some (Body _ _) => true | _ => false end.
Definition step (a : action) (s : link) : option link :=
  match a with
  | RecordBody configured h body => Some (if configured then with_host (<[h := body]> (staged s)) (holder s) [Staged h body] s else s)
  | DiscardStaged h => Some (with_host (base.delete h (staged s)) (holder s) [] s)
  | Start i h schema => match calls s !! i with
      | Some _ => None
      | None => Some {| staged := staged s; holder := holder s; calls := <[i := {| c_handle := h; c_schema := schema; c_phase := Queued |}]> (calls s);
                        inbox := inbox s; content_cache := content_cache s; alive := alive s; stdout := stdout s; reads := reads s; notes := notes s |}
      end
  | Acquire i => match calls s !! i, holder s with
      | Some {| c_handle := h; c_phase := Queued |}, None =>
          match staged s !! h with
          | None => Some (set_phase i (Ended (Err StagingHandleNotConfiguredError)) s)
          | Some context => Some (set_phase i (Brokering context) (with_host (base.delete h (staged s)) (Some i) [Drained i h context] s))
          end
      | _, _ => None
      end
  | Preamble i outcome revoked => match calls s !! i with
      | Some {| c_handle := h; c_schema := schema; c_phase := Brokering context |} =>
          match outcome with
          | Some r => Some (ends i r (with_child (inbox s) (content_cache s) (alive s && negb revoked) s))
          | None => if alive s then Some (set_phase i (Header context) (with_pipe (stdout s) (reads s ++ [(i, _LENGTH_HEADER_BYTES)]) (with_child (inbox s ++ [Ingest h context; Extraction h schema]) (content_cache s) true s))) else None
          end
      | _ => None
      end
  | WriteFails i ingested => match calls s !! i with
      | Some {| c_handle := h; c_phase := Brokering context |} =>
          Some (ends i (Err BrokenPipeError) (with_child (inbox s ++ if ingested then [Ingest h context] else []) (content_cache s) (alive s) s))
      | _ => None
      end
  | CancelQueued i => match phase_of i s with Some Queued => Some (set_phase i (Ended (Err LinkCancelled)) s) | _ => None end
  | ChildTakes env cut => child_takes env cut s
  | ChildDies => Some (with_child (inbox s) (content_cache s) false s)
  | Deliver => deliver s
  | EndOfFile => match reads s with
      | (i, n) :: rest => if alive s then None else if decide (n <= length (stdout s))%nat then None else
          let s' := with_pipe [] rest s in Some (if reading (phase_of i s) then ends i (Err QuarantineChildSpawnError) s' else s')
      | [] => None
      end
  | Abandon i begun => if reading (phase_of i s) then
        Some (ends i (Err QuarantineChildSpawnError) (with_pipe (stdout s) (if begun then reads s else filter (fun x => x.1 <> i) (reads s)) s))
      else None
  end.
Fixpoint run (l : list action) (s : link) : option link := match l with [] => Some s | a :: l => s' ← step a s; run l s' end.
Definition boot : link := {| staged := ∅; holder := None; calls := ∅; inbox := []; content_cache := ∅; alive := true; stdout := []; reads := []; notes := [] |}.

(** ** The conversation *)
(** What the child makes of a body. *)
Definition extracts (context schema_json : string) (payload : dict) : Prop := exists env, (execute env [] (handle_extract loads dumps native tokens (Some context) schema_json)).2 = Ok payload.
Definition is_ingest (q : request) : Prop := match q with Ingest _ _ => True | Extraction _ _ => False end.
Definition ingests (l : list request) (c : gmap string string) : gmap string string := fold_left (fun c q => match q with Ingest h x => <[h := x]> c | Extraction _ _ => c end) l c.
Definition fits (p : dict) : Prop := Z.of_nat (length (result_body p)) < 4294967296.
Definition asked (h context schema : string) (s : link) : Prop :=
  stdout s = [] /\ (alive s = true -> exists l, inbox s = l ++ [Extraction h schema] /\ Forall is_ingest l /\ ingests l (content_cache s) !! h = Some context).
Definition answering (bytes : dict -> list Z) (context schema : string) (s : link) : Prop :=
  (alive s = true -> inbox s = []) /\ exists p, extracts context schema p /\ fits p /\ stdout s `prefix_of` bytes p /\ (alive s = true -> stdout s = bytes p).
Definition quiet (s : link) : Prop := reads s = [] /\ (alive s = true -> stdout s = [] /\ Forall is_ingest (inbox s)).
Definition wire (i : nat) (d : dispatched) (s : link) : Prop :=
  match c_phase d with
  | Header c => reads s = [(i, _LENGTH_HEADER_BYTES)] /\ (asked (c_handle d) c (c_schema d) s \/ answering _frame_from_result c (c_schema d) s)
  | Body c h => reads s = [(i, Z.to_nat (un32 h))] /\ (alive s = true -> inbox s = []) /\ exists p, extracts c (c_schema d) p /\ fits p /\ h = be32 (Z.of_nat (length (result_body p))) /\ stdout s `prefix_of` result_body p /\ (alive s = true -> stdout s = result_body p)
  | _ => True
  end.
Definition context_of (p : phase) : option string := match p with Brokering c | Header c | Body c _ => Some c | _ => None end.
Record inv (s : link) : Prop := {
  i_busy : forall i d, calls s !! i = Some d -> is_Some (context_of (c_phase d)) -> holder s = Some i;
  i_drained : forall i d c, calls s !! i = Some d -> context_of (c_phase d) = Some c -> Drained i (c_handle d) c ∈ notes s;
  i_wire : forall i d, calls s !! i = Some d -> wire i d s;
  i_quiet : (forall i d, calls s !! i = Some d -> reading (Some (c_phase d)) = false) -> quiet s;
  i_received : forall i p, Received i p ∈ notes s -> exists h c schema p0, Drained i h c ∈ notes s /\ extracts c schema p0 /\ _decode_result_payload (_frame_from_result p0) = Ok p }.
Lemma boot_inv : inv boot.
Proof. split; try done. intros i p H. by apply not_elem_of_nil in H. Qed.
Lemma be32_round n : 0 <= n < 4294967296 -> un32 (be32 n) = n.
Proof.
  intros H. unfold be32, un32. pose proof (Z.div_mod n 256). pose proof (Z.div_mod (n / 256) 256). pose proof (Z.div_mod (n / 65536) 256).
  assert (n / 256 / 256 = n / 65536) by (rewrite Z.div_div; [done|lia..]). assert (n / 65536 / 256 = n / 16777216) by (rewrite Z.div_div; [done|lia..]). lia.
Qed.
Definition at_phase (d : dispatched) (p : phase) : dispatched := {| c_handle := c_handle d; c_schema := c_schema d; c_phase := p |}.
Definition received_ok (s : link) : Prop := forall i p, Received i p ∈ notes s -> exists h c schema p0, Drained i h c ∈ notes s /\ extracts c schema p0 /\ _decode_result_payload (_frame_from_result p0) = Ok p.
(** The dispatch that has the lock, or takes it, moves on. *)
Lemma inv_moves i d p s s' : inv s -> calls s !! i = Some d -> default i (holder s) = i -> calls s' = alter (fun d => at_phase d p) i (calls s) ->
  (is_Some (context_of p) -> holder s' = Some i) -> (forall x, x ∈ notes s -> x ∈ notes s') -> (forall c, context_of p = Some c -> Drained i (c_handle d) c ∈ notes s') ->
  wire i (at_phase d p) s' -> (reading (Some p) = false -> quiet s') -> received_ok s' -> inv s'.
Proof.
  intros [Hb Hd Hw Hq Hr] Hi Hh Hc Hb' Hn Hd' Hw' Hq' Hr'.
  assert (Ho : forall j dj, calls s' !! j = Some dj -> j = i /\ dj = at_phase d p \/ calls s !! j = Some dj /\ context_of (c_phase dj) = None).
  { intros j dj Hj. rewrite Hc in Hj. destruct (decide (j = i)) as [->|Hji]; [left; rewrite lookup_alter_eq, Hi in Hj; by injection Hj as <-|right]. rewrite lookup_alter_ne in Hj by done. split; [done|].
    destruct (context_of (c_phase dj)) eqn:E; [|done]. assert (holder s = Some j) as E' by (apply (Hb j dj); [done|by rewrite E]). rewrite E' in Hh. by cbn in Hh. }
  split.
  - intros j dj Hj. destruct (Ho j dj Hj) as [[-> ->]|[_ E]]; [exact Hb'|]. rewrite E. by intros [? ?].
  - intros j dj c Hj. destruct (Ho j dj Hj) as [[-> ->]|[_ E]]; [apply Hd'|by rewrite E].
  - intros j dj Hj. destruct (Ho j dj Hj) as [[-> ->]|[_ E]]; [exact Hw'|]. unfold wire. by destruct (c_phase dj).
  - intros H. apply Hq'. apply (H i (at_phase d p)). rewrite Hc, lookup_alter_eq. by rewrite Hi.
  - exact Hr'.
Qed.
(** One that does not have it comes, or goes. *)
Lemma inv_idles i d s s' : inv s -> (forall d0, calls s !! i = Some d0 -> context_of (c_phase d0) = None) -> context_of (c_phase d) = None -> calls s' = <[i := d]> (calls s) ->
  holder s' = holder s -> notes s' = notes s -> reads s' = reads s -> stdout s' = stdout s -> alive s' = alive s -> inbox s' = inbox s -> content_cache s' = content_cache s -> inv s'.
Proof.
  intros [Hb Hd Hw Hq Hr] H0 Hi Hc E1 E2 E3 E4 E5 E6 E7.
  assert (Ho : forall j dj, calls s' !! j = Some dj -> context_of (c_phase dj) = None \/ calls s !! j = Some dj).
  { intros j dj Hj. rewrite Hc in Hj. destruct (decide (j = i)) as [->|Hji]; [left; rewrite lookup_insert_eq in Hj; by injection Hj as <-|right]. by rewrite lookup_insert_ne in Hj. }
  split; rewrite ?E1, ?E2.
  - intros j dj Hj. destruct (Ho j dj Hj) as [E|Hj']; [rewrite E; by intros [? ?]|by apply (Hb j dj)].
  - intros j dj c Hj. destruct (Ho j dj Hj) as [E|Hj']; [by rewrite E|by apply (Hd j dj)].
  - intros j dj Hj. destruct (Ho j dj Hj) as [E|Hj']; [unfold wire; by destruct (c_phase dj)|]. specialize (Hw j dj Hj'). unfold wire, asked, answering in *. by rewrite E3, E4, E5, E6, E7.
  - intros H. unfold quiet. rewrite E3, E4, E5, E6. apply Hq. intros j dj Hj. destruct (decide (j = i)) as [->|Hji]; [by specialize (H0 _ Hj); destruct (c_phase dj)|].
    apply (H j dj). rewrite Hc. by rewrite lookup_insert_ne.
  - exact Hr.
Qed.
(** The child, or the pipe, moves. *)
Lemma inv_child s s' : inv s -> calls s' = calls s -> holder s' = holder s -> notes s' = notes s -> (forall i d, wire i d s -> wire i d s') -> (quiet s -> quiet s') -> inv s'.
Proof.
  intros [Hb Hd Hw Hq Hr] E1 E2 E3 Hw' Hq'. split; rewrite ?E1, ?E2, ?E3; [exact Hb|exact Hd| | |exact Hr].
  - intros i d Hi. apply Hw', Hw, Hi.
  - intros H. apply Hq', Hq, H.
Qed.
Lemma extraction_wire i d h schema rest s : wire i d s -> alive s = true -> inbox s = Extraction h schema :: rest -> reading (Some (c_phase d)) = true ->
  exists c, c_phase d = Header c /\ reads s = [(i, _LENGTH_HEADER_BYTES)] /\ stdout s = [] /\ h = c_handle d /\ schema = c_schema d /\ rest = [] /\ content_cache s !! h = Some c.
Proof.
  intros Hd Ha Hi Hp. unfold wire, asked, answering in Hd. destruct (c_phase d) as [|c|c|c n|r]; try done.
  - destruct Hd as [Hr [[Ho Hx]|[Hx _]]]; [|by rewrite Hx in Hi]. destruct (Hx Ha) as (l&El&Hl&Hc). rewrite Hi in El.
    destruct l as [|q l]; [|injection El as <- ->; by inversion Hl]. injection El as -> -> ->. exists c. done.
  - destruct Hd as (_&Hx&_). by rewrite Hx in Hi.
Qed.
Lemma not_reading_wire i d s : reading (Some (c_phase d)) = false -> wire i d s.
Proof. unfold wire. by destruct (c_phase d). Qed.
Lemma child_takes_inv env cut s s' : inv s -> child_takes env cut s = Some s' -> inv s'.
Proof.
  intros Hs H. unfold child_takes in H. destruct (alive s) eqn:Ha; [|done]. cbn [negb] in H. destruct (inbox s) as [|[h x|h schema] rest] eqn:Hi; [done| |].
  - injection H as <-. apply (inv_child s); [done..| |].
    + intros i d Hd. unfold wire, asked, answering in *. cbn. destruct (c_phase d) as [|c|c|c n|r]; try done.
      * destruct Hd as [Hr [[Ho Hx]|[Hx _]]]; [|by rewrite Hx in Hi]. split; [done|left]. split; [done|]. intros _. destruct (Hx Ha) as (l&El&Hl&Hc). rewrite Hi in El.
        destruct l as [|q l]; [done|]. injection El as <- ->. exists l. inversion Hl. done.
      * destruct Hd as (_&Hx&_). by rewrite Hx in Hi.
    + intros [Hr Hx]. split; [done|]. intros _. destruct (Hx Ha) as [Ho Hf]. split; [done|]. rewrite Hi in Hf. by inversion Hf.
  - assert (Hq : ~ quiet s) by (intros [_ Hx]; destruct (Hx Ha) as [_ Hf]; rewrite Hi in Hf; by inversion Hf).
    assert (Hmove : forall s', calls s' = calls s -> holder s' = holder s -> notes s' = notes s -> reads s' = reads s ->
      (forall d c, c_phase d = Header c -> stdout s = [] -> h = c_handle d -> schema = c_schema d -> rest = [] -> content_cache s !! h = Some c -> asked (c_handle d) c (c_schema d) s' \/ answering _frame_from_result c (c_schema d) s') -> inv s').
    { intros s1 E1 E2 E3 E4 Hx. apply (inv_child s); [done..| |by intros ?]. intros i d Hd. destruct (reading (Some (c_phase d))) eqn:Hp; [|by apply not_reading_wire].
      destruct (extraction_wire _ _ _ _ _ _ Hd Ha Hi Hp) as (c&Ep&Er&Eo&Eh&Es&Ec&El). unfold wire. rewrite Ep, E4. split; [done|]. by apply Hx. }
    assert (Hdead : forall d c, stdout s = [] -> asked (c_handle d) c (c_schema d) (with_child rest (base.delete h (content_cache s)) false s)) by (intros d c E; split; [exact E|done]).
    destruct (execute env [] _) as [l r] eqn:E. cbn [snd] in H. destruct r as [p|e]; [|injection H as <-; apply Hmove; auto]. destruct (Z.leb_spec 4294967296 (Z.of_nat (length (result_body p)))); [injection H as <-; apply Hmove; auto|].
    assert (Hx : forall c, content_cache s !! h = Some c -> extracts c schema p) by (intros c Ec; exists env; by rewrite <- Ec, E).
    destruct cut as [k|]; injection H as <-; apply Hmove; try done; intros d c Ep Eo Eh Es Er Ec; right; unfold answering; cbn -[_frame_from_result]; rewrite Eo; (split; [done|]); exists p; subst schema; split_and!; auto; try done.
    apply prefix_take.
Qed.
(** Who a read is for. *)
Lemma reader s i n rest : inv s -> reads s = (i, n) :: rest -> exists d, calls s !! i = Some d /\ reading (Some (c_phase d)) = true /\ rest = [] /\ holder s = Some i.
Proof.
  intros [Hb Hd Hw Hq Hr] E. pose (P := fun (_ : nat) d => reading (Some (c_phase d)) = false). assert (HP : forall j d, Decision (P j d)) by (intros; unfold P; apply _).
  destruct (decide (map_Forall P (calls s))) as [H|H].
  - destruct (Hq H) as [Hx _]. by rewrite Hx in E.
  - destruct (proj1 (map_not_Forall P (calls s)) H) as (j&d&Hj&Hp). apply not_false_is_true in Hp. pose proof (Hw j d Hj) as Hwj.
    assert (Hij : reads s = [(j, n)] /\ holder s = Some j).
    { assert (holder s = Some j) by (apply (Hb j d Hj); destruct (c_phase d); try done; by eexists). split; [|done]. unfold wire in Hwj. destruct (c_phase d); try done; destruct Hwj as [Hx _]; rewrite Hx in E |- *; by injection E as <- <- _. }
    destruct Hij as [Hx Hh]. rewrite Hx in E. injection E as <- <-. by exists d.
Qed.
Lemma frame_length p : length (_frame_from_result p) = (4 + length (result_body p))%nat.
Proof. unfold _frame_from_result. by rewrite length_app. Qed.
Lemma frame_header p o : fits p -> o `prefix_of` _frame_from_result p -> (_LENGTH_HEADER_BYTES <= length o)%nat ->
  take _LENGTH_HEADER_BYTES o = be32 (Z.of_nat (length (result_body p))) /\ drop _LENGTH_HEADER_BYTES o `prefix_of` result_body p /\ (o = _frame_from_result p -> drop _LENGTH_HEADER_BYTES o = result_body p).
Proof.
  intros Hf [k E] Hl. assert (Hx : o = be32 (Z.of_nat (length (result_body p))) ++ drop _LENGTH_HEADER_BYTES o).
  { rewrite <- (take_drop _LENGTH_HEADER_BYTES o) at 1. f_equal. apply (f_equal (take _LENGTH_HEADER_BYTES)) in E. rewrite take_app_le in E by done. by rewrite <- E. }
  split_and!.
  - rewrite Hx, take_app_le by done. change (take _LENGTH_HEADER_BYTES (be32 ?n)) with (be32 n). done.
  - exists k. rewrite Hx in E. unfold _frame_from_result in E. rewrite <- app_assoc in E. by apply app_inv_head in E.
  - intros ->. done.
Qed.
Lemma un32_length p : fits p -> Z.to_nat (un32 (be32 (Z.of_nat (length (result_body p))))) = length (result_body p).
Proof. intros Hf. rewrite be32_round; [apply Nat2Z.id|]. unfold fits in Hf. lia. Qed.
Lemma drained_quiet p s : (alive s = true -> inbox s = []) -> quiet (with_pipe (drop (length (result_body p)) (result_body p)) [] s).
Proof. intros Hin. split; [done|]. intros Ha. cbn -[drop]. rewrite drop_all, Hin by done. done. Qed.
Lemma deliver_inv s s' : inv s -> deliver s = Some s' -> inv s'.
Proof.
  intros Hs H. unfold deliver in H. destruct (reads s) as [|[i n] rest] eqn:E; [done|]. destruct (reader _ _ _ _ Hs E) as (d&Hi&Hp&->&Hh).
  destruct (decide _) as [Hl|]; [|done]. unfold phase_of in H. rewrite Hi in H. cbn [fmap option_fmap option_map] in H. pose proof (i_wire _ Hs _ _ Hi) as Hw. unfold wire in Hw.
  destruct (c_phase d) as [|c|c|c h|r] eqn:Ep; try done; cbn -[drop take _decode_result_payload] in H.
  - injection H as <-. destruct Hw as [Hr Hw]. rewrite Hr in E. injection E as <-. destruct Hw as [[Ho _]|(Hin&p&Hx&Hf&Hpre&Heq)]; [rewrite Ho in Hl; unfold _LENGTH_HEADER_BYTES in Hl; cbn in Hl; lia|].
    destruct (frame_header p (stdout s) Hf Hpre Hl) as (F1&F2&F3).
    apply (inv_moves i d (Body c (take _LENGTH_HEADER_BYTES (stdout s))) s); try done; [by rewrite Hh|intros c' [= <-]; apply (i_drained _ Hs i d); [done|by rewrite Ep]| |exact (i_received _ Hs)].
    unfold wire. cbn -[drop take un32]. split; [done|]. split; [exact Hin|]. exists p. split_and!; try done. intros Ha. by apply F3, Heq.
  - destruct Hw as (Hr&Hin&p&Hx&Hf&->&Hpre&Heq). rewrite Hr, un32_length in E by done. assert (n = length (result_body p)) as -> by congruence. assert (Hst : stdout s = result_body p).
    { destruct Hpre as [k Hk]. pose proof (f_equal length Hk) as Hn. rewrite length_app in Hn. destruct k; [by rewrite app_nil_r in Hk|cbn in Hn; lia]. }
    rewrite Hst, take_ge in H by done. fold (_frame_from_result p) in H. destruct (_decode_result_payload _) as [q|e] eqn:Eq; injection H as <-.
    + apply (inv_moves i d (Ended (Ok q)) s); try done; [by rewrite Hh|by intros [? ?]|set_solver|intros _; by apply drained_quiet|].
      intros j q' Hj. cbn in Hj |- *. apply elem_of_app in Hj as [Hj|Hj].
      * destruct (i_received _ Hs _ _ Hj) as (h&c0&schema&p0&?&?&?). exists h, c0, schema, p0. split; [set_solver|done].
      * apply list_elem_of_singleton in Hj. injection Hj as -> ->. exists (c_handle d), c, (c_schema d), p. split; [|done]. apply elem_of_app. left. apply (i_drained _ Hs i d); [done|by rewrite Ep].
    + apply (inv_moves i d (Ended (Err e)) s); try done; [by rewrite Hh|by intros [? ?]|set_solver|intros _; by apply drained_quiet|].
      intros j q' Hj. cbn in Hj |- *. rewrite app_nil_r in Hj |- *. by apply Hs.
Qed.
Lemma inv_notes st l s : inv s -> (forall i p, Received i p ∉ l) -> inv (with_host st (holder s) l s).
Proof.
  intros [Hb Hd Hw Hq Hr] Hl. split; [exact Hb| |exact Hw|exact Hq|].
  - intros i d c Hi Hc. apply elem_of_app. left. by apply (Hd i d).
  - intros i p [Hi|Hi]%elem_of_app; [|by apply Hl in Hi]. destruct (Hr _ _ Hi) as (h&c&schema&p0&?&?&?). exists h, c, schema, p0. split; [apply elem_of_app; by left|done].
Qed.
Definition gives_up (a : action) : bool := match a with Abandon _ _ => true | _ => false end.
Lemma free_quiet s : inv s -> holder s = None -> quiet s.
Proof.
  intros Hs Hh. apply (i_quiet _ Hs). intros j d Hj. destruct (reading (Some (c_phase d))) eqn:E; [|done].
  assert (holder s = Some j) as Hx; [|by rewrite Hx in Hh]. apply (i_busy _ Hs j d Hj). destruct (c_phase d); try discriminate E; by eexists.
Qed.
Lemma acquire_inv i s s' : inv s -> step (Acquire i) s = Some s' -> inv s'.
Proof.
  intros Hs H. cbn [step] in H. destruct (calls s !! i) as [[h schema p]|] eqn:Hi; [|discriminate H]. destruct p; try discriminate H. destruct (holder s) eqn:Hh; [discriminate H|].
  destruct (staged s !! h) as [c|]; injection H as <-.
  - apply (inv_moves i {| c_handle := h; c_schema := schema; c_phase := Queued |} (Brokering c) s); [exact Hs|exact Hi|by rewrite Hh|reflexivity|reflexivity| | |exact I| |].
    + intros x Hx. apply elem_of_app. by left.
    + intros c' [= <-]. apply elem_of_app. right. constructor.
    + intros _. exact (free_quiet s Hs Hh).
    + intros j p Hj. cbn in Hj |- *. apply elem_of_app in Hj as [Hj|Hj]; [|apply list_elem_of_singleton in Hj; discriminate Hj].
      destruct (i_received _ Hs _ _ Hj) as (h'&c'&schema'&p0&?&?&?). exists h', c', schema', p0. split; [apply elem_of_app; by left|done].
  - apply (inv_moves i {| c_handle := h; c_schema := schema; c_phase := Queued |} (Ended (Err StagingHandleNotConfiguredError)) s); [exact Hs|exact Hi|by rewrite Hh|reflexivity| | | |exact I| |].
    + by intros [? ?].
    + done.
    + done.
    + intros _. exact (free_quiet s Hs Hh).
    + exact (i_received _ Hs).
Qed.
(** The dispatch at its preamble, and the pipe before it. *)
Lemma brokering_quiet i d c s : inv s -> calls s !! i = Some d -> c_phase d = Brokering c -> holder s = Some i /\ quiet s /\ Drained i (c_handle d) c ∈ notes s.
Proof.
  intros Hs Hi Hp. assert (Hh : holder s = Some i) by (apply (i_busy _ Hs i d Hi); rewrite Hp; by eexists). split; [exact Hh|]. split; [|apply (i_drained _ Hs i d); [exact Hi|by rewrite Hp]].
  apply (i_quiet _ Hs). intros j dj Hj. destruct (reading (Some (c_phase dj))) eqn:E; [|done]. assert (holder s = Some j) as Hx by (apply (i_busy _ Hs j dj Hj); destruct (c_phase dj); try discriminate E; by eexists).
  rewrite Hh in Hx. injection Hx as ->. rewrite Hi in Hj. injection Hj as <-. by rewrite Hp in E.
Qed.
(** It ends before anything was asked. *)
Lemma preamble_ends i d c r inb a s : inv s -> calls s !! i = Some d -> c_phase d = Brokering c -> (a = true -> alive s = true) -> (Forall is_ingest (inbox s) -> Forall is_ingest inb) ->
  inv (ends i r (with_child inb (content_cache s) a s)).
Proof.
  intros Hs Hi Hp Ha Hin. destruct (brokering_quiet _ _ _ _ Hs Hi Hp) as (Hh&[Hq1 Hq2]&_).
  apply (inv_moves i d (Ended r) s); [exact Hs|exact Hi|by rewrite Hh|reflexivity| | |discriminate|exact I| |].
  - by intros [? ?].
  - intros x Hx. apply elem_of_app. by left.
  - intros _. split; [exact Hq1|]. intros E. destruct (Hq2 (Ha E)) as [? ?]. split; [done|]. by apply Hin.
  - intros j p Hj. cbn in Hj |- *. rewrite app_nil_r in Hj |- *. by apply Hs.
Qed.
Lemma preamble_inv i o revoked s s' : inv s -> step (Preamble i o revoked) s = Some s' -> inv s'.
Proof.
  intros Hs H. cbn [step] in H. destruct (calls s !! i) as [[h schema p]|] eqn:Hi; [|discriminate H]. destruct p as [|c| | |]; try discriminate H. destruct o as [r|].
  - injection H as <-. eapply preamble_ends; [exact Hs|exact Hi|reflexivity|by destruct (alive s)|done].
  - destruct (alive s) eqn:Ha; [|discriminate H]. injection H as <-. destruct (brokering_quiet _ _ _ _ Hs Hi eq_refl) as (Hh&[Hq1 Hq2]&Hd). cbn [c_handle] in Hd.
    apply (inv_moves i {| c_handle := h; c_schema := schema; c_phase := Brokering c |} (Header c) s); [exact Hs|exact Hi|by rewrite Hh|reflexivity|by intros _|by intros x|by intros c' [= <-]| |discriminate|exact (i_received _ Hs)].
    unfold wire. cbn. rewrite Hq1. split; [done|left]. destruct (Hq2 Ha) as [Ho Hf]. split; [exact Ho|]. intros _. exists (inbox s ++ [Ingest h c]). split; [cbn; by rewrite <- app_assoc|].
    split; [apply Forall_app; split; [exact Hf|by repeat constructor]|]. unfold ingests. cbn. rewrite fold_left_app. cbn. apply lookup_insert_eq.
Qed.
Lemma write_fails_inv i ingested s s' : inv s -> step (WriteFails i ingested) s = Some s' -> inv s'.
Proof.
  intros Hs H. cbn [step] in H. destruct (calls s !! i) as [[h schema p]|] eqn:Hi; [|discriminate H]. destruct p as [|c| | |]; try discriminate H. injection H as <-.
  eapply preamble_ends; [exact Hs|exact Hi|reflexivity|done|]. intros Hf. apply Forall_app. split; [done|]. destruct ingested; by repeat constructor.
Qed.
Lemma end_of_file_inv s s' : inv s -> step EndOfFile s = Some s' -> inv s'.
Proof.
  intros Hs H. cbn [step] in H. destruct (reads s) as [|[i n] rest] eqn:E; [discriminate H|]. destruct (alive s) eqn:Ha; [discriminate H|]. destruct (decide _); [discriminate H|].
  destruct (reader _ _ _ _ Hs E) as (d&Hi&Hp&->&Hh). unfold phase_of in H. rewrite Hi in H. cbn [fmap option_fmap option_map] in H. rewrite Hp in H. injection H as <-.
  apply (inv_moves i d (Ended (Err QuarantineChildSpawnError)) s); [exact Hs|exact Hi|by rewrite Hh|reflexivity| | |discriminate|exact I| |].
  - by intros [? ?].
  - intros x Hx. apply elem_of_app. by left.
  - intros _. split; [reflexivity|]. cbn. rewrite Ha. discriminate.
  - intros j p Hj. cbn in Hj |- *. rewrite app_nil_r in Hj |- *. by apply Hs.
Qed.
Lemma dies_inv s : inv s -> inv (with_child (inbox s) (content_cache s) false s).
Proof.
  intros Hs. apply (inv_child s); [exact Hs|reflexivity|reflexivity|reflexivity| |].
  - intros i d Hd. unfold wire, asked, answering in *. cbn. destruct (c_phase d) as [|c|c|c n|r]; try exact I.
    + destruct Hd as [Hr [[Ho _]|[_ (p&?&?&?&_)]]]; (split; [exact Hr|]); [left; split; [exact Ho|discriminate]|right]. split; [discriminate|]. exists p. split_and!; [done..|discriminate].
    + destruct Hd as (Hr&_&p&?&?&?&?&_). split; [exact Hr|]. split; [discriminate|]. exists p. split_and!; [done..|discriminate].
  - intros [Hr _]. split; [exact Hr|discriminate].
Qed.
Lemma step_inv a s s' : gives_up a = false -> inv s -> step a s = Some s' -> inv s'.
Proof.
  intros Ha Hs H. destruct a as [b h x|h|i h schema|i|i o r|i g|i|env cut| | | |i b]; [..|discriminate Ha].
  - cbn [step] in H. injection H as <-. destruct b; [|exact Hs]. apply inv_notes; [exact Hs|]. intros i p Hi. apply list_elem_of_singleton in Hi. discriminate Hi.
  - cbn [step] in H. injection H as <-. apply inv_notes; [exact Hs|]. intros i p Hi. by apply not_elem_of_nil in Hi.
  - cbn [step] in H. destruct (calls s !! i) eqn:Hi; [discriminate H|]. injection H as <-.
    eapply (inv_idles i); [exact Hs| | |reflexivity|reflexivity..]; [intros d0 Hd; rewrite Hi in Hd; discriminate Hd|reflexivity].
  - by apply (acquire_inv i s).
  - by apply (preamble_inv i o r s).
  - by apply (write_fails_inv i g s).
  - cbn [step] in H. unfold phase_of in H. destruct (calls s !! i) as [d|] eqn:Hi; [|discriminate H]. cbn [fmap option_fmap option_map] in H. destruct (c_phase d) eqn:Hp; try discriminate H. injection H as <-.
    apply (inv_idles i (at_phase d (Ended (Err LinkCancelled))) s); try reflexivity; [exact Hs|intros d0 Hd; rewrite Hi in Hd; injection Hd as <-; by rewrite Hp|].
    cbn -[alter]. apply map_eq. intros j. destruct (decide (j = i)) as [->|Hj]; [by rewrite lookup_alter_eq, lookup_insert_eq, Hi|by rewrite lookup_alter_ne, lookup_insert_ne].
  - by apply (child_takes_inv env cut s).
  - cbn [step] in H. injection H as <-. by apply dies_inv.
  - by apply (deliver_inv s).
  - by apply (end_of_file_inv s).
Qed.
Lemma run_inv l s s' : Forall (fun a => gives_up a = false) l -> inv s -> run l s = Some s' -> inv s'.
Proof.
  intros Hl. revert s. induction Hl as [|a l Ha Hl IH]; intros s Hs H; cbn [run mbind option_bind] in H; [injection H as <-; exact Hs|].
  destruct (step a s) as [s1|] eqn:E; [|discriminate H]. apply (IH s1); [by apply (step_inv a s)|exact H].
Qed.
End link.
(** A provider that gives its prompt back, and answers that are their own text. *)
Module Echo.
Definition echo : @environment exn op := fun l B o =>
  match o in op B return result exn B with
  | Monotonic => Ok 0%Q | Bind _ => Ok tt | Unbind => Ok tt | Sleep _ => Ok tt
  | Complete q _ => Ok {| tool_calls := []; content := prompt q; cost_usd := 0 |}
  end.
Definition loads (s : string) : result exn json := if bool_decide (s = "{}"%string) then Ok (JObject []) else Ok (JObject [("text", JString s)]%string).
Definition text_of (j : json) : string :=
  match j with
  | JObject o => match dict_get "result" o with
      | Some (JObject r) => match dict_get "data" r with Some (JObject d) => match dict_get "text" d with Some (JString s) => s | _ => "" end | _ => "" end
      | _ => "" end
  | _ => "" end%string.
Definition json_encode (j : json) : list Z := Z.of_nat ∘ Ascii.nat_of_ascii <$> String.list_ascii_of_string (text_of j).
Definition json_decode (l : list Z) : result link_exn json :=
  Ok (JObject [("result", JObject [("text", JString (String.string_of_list_ascii (Ascii.ascii_of_nat ∘ Z.to_nat <$> l)))])])%string.
Definition go : list action -> link -> option link := run loads (fun _ => "{}"%string) false 1024 json_encode json_decode.
Definition child (n : nat) : list action := repeat (ChildTakes echo None) n.
Definition two_bodies : list action := [RecordBody true "h1" "first"; RecordBody true "h2" "second"; Start 1 "h1" "{}"; Start 2 "h2" "{}"]%string.
Definition asks (i : nat) : list action := [Acquire i; Preamble i None false].
Definition both : list action := two_bodies ++ asks 1 ++ child 2 ++ [Deliver; Deliver] ++ asks 2 ++ child 2 ++ [Deliver; Deliver].
Definition abandoned : list action := two_bodies ++ asks 1 ++ [Abandon 1 false] ++ asks 2 ++ child 4 ++ [Deliver; Deliver].
Definition final (l : list action) : link := default boot (go l boot).
Definition answer (text : string) : dict := [("text", JString ("Extract structured data matching this schema:" +:+ newline +:+ "{}" +:+ newline +:+ newline +:+ "Content:" +:+ newline +:+ text))]%string.
End Echo.
(** A read given up leaves the answer in the pipe, and the next dispatch takes it for its own:
    the second call receives what was made of the first body. *)
Theorem abandoned_reply_reaches_the_next_dispatch : exists s, Echo.go Echo.abandoned boot = Some s /\ Drained 2 "h2" "second" ∈ notes s /\ Received 2 (Echo.answer "first") ∈ notes s.
Proof.
  assert (N : notes (Echo.final Echo.abandoned) = [Staged "h1" "first"; Staged "h2" "second"; Drained 1 "h1" "first"; Drained 2 "h2" "second"; Received 2 (Echo.answer "first")]%string) by (vm_compute; reflexivity).
  exists (Echo.final Echo.abandoned). split; [vm_compute; reflexivity|]. rewrite N. split; repeat first [apply list_elem_of_here | apply list_elem_of_further].
Qed.
