(* ===== verification/Substitution.v ===== *)
(** * Substitution in texts

    [re.sub] and [re.search] as the code uses them: a [str] is the list of its code points, a
    pattern says how much of what follows a position it matches and what it captures, and a
    substitution replaces the leftmost matches that do not overlap.  [finditer] cuts a text
    into what it keeps and what it matches; the lemmas say that this cutting is the only one a
    pattern allows. *)
From S2P Require Import Prelude.
#[local] Open Scope nat_scope.

Definition text : Type := list Z.
(** A literal: the code points of its (ASCII) characters. *)
Definition u (s : string) : text := Z.of_nat ∘ Ascii.nat_of_ascii <$> String.list_ascii_of_string s.
Fixpoint starts (v s : text) : bool :=
  match v, s with [], _ => true | a :: v, b :: s => (a =? b)%Z && starts v s | _ :: _, [] => false end.
(** [v in s] *)
Fixpoint contains (v s : text) : bool := starts v s || match s with [] => false | _ :: s => contains v s end.
Definition occurs (v s : text) : Prop := exists a b, s = a ++ v ++ b.

Lemma starts_spec v s : starts v s = true <-> v `prefix_of` s.
Proof.
  revert s. induction v as [|a v IH]; intros [|b s]; cbn; [split; [by exists []|done]|split; [by exists (b :: s)|done]|split; [done|intros [k [=]]]|].
  rewrite andb_true_iff, Z.eqb_eq, IH. split; [intros [-> [k ->]]; by exists k|intros [k [= -> ->]]; split; [done|by exists k]].
Qed.
Lemma starts_take v s : starts v s = true -> take (length v) s = v.
Proof. intros [k ->]%starts_spec. by rewrite take_app_length. Qed.
Lemma contains_spec v s : contains v s = true <-> occurs v s.
Proof.
  induction s as [|c s IH]; cbn; rewrite ?orb_false_r, ?orb_true_iff, starts_spec.
  - split; [intros [k E]; by exists [], k|]. intros (a&b&E). symmetry in E. apply app_eq_nil in E as [_ E]. apply app_eq_nil in E as [-> _]. by exists [].
  - rewrite IH. split.
    + intros [[k E]|(a&b&->)]; [by exists [], k|by exists (c :: a), b].
    + intros ([|x a]&b&E); [left; by exists b|right]. injection E as -> ->. by exists a, b.
Qed.

(** A match at a position: its length, which is not zero, and what it captures; the pattern
    sees the character before the position. *)
Definition pattern (B : Type) : Type := option Z -> text -> option (nat * B).
Inductive piece (B : Type) := Kept (c : Z) | Matched (span : text) (b : B).
Arguments Kept {B} c.
Arguments Matched {B} span b.
Section substitution.
Context {B E : Type}.
Fixpoint finditer (p : pattern B) (skip : nat) (prev : option Z) (s : text) : list (piece B) :=
  match s with
  | [] => []
  | c :: r => match skip with
      | S k => finditer p k (Some c) r
      | O => match p prev s with
          | Some (n, b) => Matched (take n s) b :: finditer p (n - 1) (Some c) r
          | None => Kept c :: finditer p 0 (Some c) r
          end
      end
  end.
Definition pieces (p : pattern B) (s : text) : list (piece B) := finditer p 0 None s.
Definition is_match (x : piece B) : bool := match x with Matched _ _ => true | Kept _ => false end.
(** [pattern.search(s) is not None] *)
Definition search (p : pattern B) (s : text) : bool := existsb is_match (pieces p s).
(** [pattern.sub(f, s)], where [f] may raise. *)
Fixpoint render (f : text -> B -> result E text) (l : list (piece B)) : result E text :=
  match l with
  | [] => Ok []
  | Kept c :: l => match render f l with Ok t => Ok (c :: t) | Err e => Err e end
  | Matched v b :: l => match f v b with
      | Ok w => match render f l with Ok t => Ok (w ++ t) | Err e => Err e end
      | Err e => Err e
      end
  end.
Definition sub (p : pattern B) (f : text -> B -> result E text) (s : text) : result E text := render f (pieces p s).
(** With a replacement that cannot raise. *)
Definition replaced (f : text -> B -> text) (x : piece B) : text := match x with Kept c => [c] | Matched v b => f v b end.
Definition original (x : piece B) : text := match x with Kept c => [c] | Matched v _ => v end.
Definition sub_with (p : pattern B) (f : text -> B -> text) (s : text) : text := pieces p s ≫= replaced f.

Lemma render_total (f : text -> B -> result E text) (g : text -> B -> text) l : (forall v b, Matched v b ∈ l -> f v b = Ok (g v b)) -> render f l = Ok (l ≫= replaced g).
Proof.
  induction l as [|[c|v b] l IH]; intros H; [done|cbn; rewrite IH; [done|set_solver]|]. cbn. rewrite H by constructor. rewrite IH; [done|]. intros v' b' Hx. apply H. by constructor.
Qed.
Lemma render_ok f l t : render f l = Ok t -> exists ws, Forall2 (fun x w => match x with Kept c => w = [c] | Matched v b => f v b = Ok w end) l ws /\ t = concat ws.
Proof.
  revert t. induction l as [|[c|v b] l IH]; intros t H; cbn in H; [injection H as <-; by exists []| |].
  - destruct (render f l) as [t'|] eqn:E1; [|discriminate H]. injection H as <-. destruct (IH _ eq_refl) as (ws&Hw&->). exists ([c] :: ws). split; [by constructor|done].
  - destruct (f v b) as [w|] eqn:Ef; [|discriminate H]. destruct (render f l) as [t'|] eqn:E1; [|discriminate H]. injection H as <-. destruct (IH _ eq_refl) as (ws&Hw&->).
    exists (w :: ws). split; [by constructor|done].
Qed.
(** The exception is that of the first match whose replacement raises. *)
Lemma render_err f l e : render f l = Err e -> exists l1 v b l2, l = l1 ++ Matched v b :: l2 /\ f v b = Err e /\ forall v' b', Matched v' b' ∈ l1 -> exists w, f v' b' = Ok w.
Proof.
  induction l as [|[c|v b] l IH]; intros H; cbn in H; [discriminate H| |].
  - destruct (render f l) as [t'|e'] eqn:E1; [discriminate H|]. injection H as ->. destruct (IH eq_refl) as (l1&v&b&l2&->&?&Hl). exists (Kept c :: l1), v, b, l2. split_and!; [done..|]. intros v' b' [[=]|?]%elem_of_cons. by eapply Hl.
  - destruct (f v b) as [w|e'] eqn:Ef; [|injection H as ->; exists [], v, b, l; split_and!; [done..|]; intros v' b' Hx; by apply not_elem_of_nil in Hx].
    destruct (render f l) as [t'|e'] eqn:E1; [discriminate H|]. injection H as ->. destruct (IH eq_refl) as (l1&v1&b1&l2&->&?&Hl). exists (Matched v b :: l1), v1, b1, l2. split_and!; [done..|].
    intros v' b' [[= -> ->]|?]%elem_of_cons; [by exists w|by eapply Hl].
Qed.

(** ** The cutting *)
Definition sound (p : pattern B) : Prop := forall prev s n b, p prev s = Some (n, b) -> 1 <= n <= length s.
Definition after (prev : option Z) (s : text) : option Z := match last s with Some c => Some c | None => prev end.
Lemma after_app prev a b : after prev (a ++ b) = after (after prev a) b.
Proof. unfold after. rewrite last_app. by destruct (last b). Qed.
Lemma finditer_skip p k prev s : k <= length s -> finditer p k prev s = finditer p 0 (after prev (take k s)) (drop k s).
Proof.
  revert k prev. induction s as [|c s IH]; intros [|k] prev Hk; cbn in Hk; [done|lia|by rewrite take_0, drop_0|]. cbn [finditer take drop]. rewrite IH by lia. f_equal.
  change (c :: take k s) with ([c] ++ take k s). by rewrite after_app.
Qed.
Lemma finditer_match p prev c s n b : sound p -> p prev (c :: s) = Some (n, b) ->
  finditer p 0 prev (c :: s) = Matched (take n (c :: s)) b :: finditer p 0 (after prev (take n (c :: s))) (drop n (c :: s)).
Proof.
  intros Hs H. pose proof (Hs _ _ _ _ H) as [H1 H2]. cbn [finditer]. rewrite H. f_equal. destruct n as [|n]; [lia|]. replace (S n - 1) with n by lia. cbn in H2. rewrite finditer_skip by lia. cbn [take drop]. f_equal.
  change (c :: take n s) with ([c] ++ take n s). by rewrite after_app.
Qed.
(** What follows a piece is cut as it would be on its own. *)
Lemma finditer_app p prev s a b : sound p -> finditer p 0 prev s = a ++ b -> s = (a ≫= original) ++ (b ≫= original) /\ b = finditer p 0 (after prev (a ≫= original)) (b ≫= original).
Proof.
  intros Hs. revert prev a b. remember (length s) as k eqn:Hk. revert s Hk. induction (lt_wf k) as [k _ IH]; intros s -> prev a b H.
  destruct a as [|x a].
  - cbn in H |- *. unfold after. cbn. assert (Hx : b ≫= original = s); [|rewrite Hx; by split]. subst b. destruct s as [|c s]; [done|].
    destruct (p prev (c :: s)) as [[n y]|] eqn:Ep.
    + rewrite (finditer_match _ _ _ _ _ _ Hs Ep). cbn [mbind list_bind original]. pose proof (Hs _ _ _ _ Ep) as [H1 H2].
      destruct (IH (length (drop n (c :: s))) ltac:(rewrite length_drop; lia) _ eq_refl (after prev (take n (c :: s))) [] _ eq_refl) as [E1 _]. change (drop n (c :: s) = finditer p 0 (after prev (take n (c :: s))) (drop n (c :: s)) ≫= original) in E1. rewrite <- E1. apply take_drop.
    + cbn [finditer]. rewrite Ep. cbn [mbind list_bind original app]. f_equal. destruct (IH (length s) ltac:(cbn; lia) _ eq_refl (Some c) [] _ eq_refl) as [E1 _]. symmetry. exact E1.
  - destruct s as [|c s]; [by destruct a|]. destruct (p prev (c :: s)) as [[n y]|] eqn:Ep.
    + rewrite (finditer_match _ _ _ _ _ _ Hs Ep) in H. injection H as <- H. pose proof (Hs _ _ _ _ Ep) as [H1 H2]. destruct (IH (length (drop n (c :: s))) ltac:(rewrite length_drop; lia) _ eq_refl _ _ _ H) as [E1 E2].
      cbn [mbind list_bind original]. rewrite <- app_assoc, <- E1. split; [symmetry; apply take_drop|]. by rewrite after_app.
    + cbn [finditer] in H. rewrite Ep in H. injection H as <- H. destruct (IH (length s) ltac:(cbn; lia) _ eq_refl _ _ _ H) as [E1 E2]. cbn [mbind list_bind original app]. split; [by rewrite <- E1|].
      change (c :: a ≫= original) with ([c] ++ (a ≫= original)). by rewrite after_app.
Qed.
Lemma pieces_original p s : sound p -> pieces p s ≫= original = s.
Proof. intros Hs. destruct (finditer_app p None s [] (pieces p s) Hs eq_refl) as [E1 _]. by symmetry. Qed.
(** A kept character begins no match, a matched span is one. *)
Lemma pieces_at p s a x b : sound p -> pieces p s = a ++ x :: b -> s = (a ≫= original) ++ original x ++ (b ≫= original) /\
  match x with
  | Kept c => p (last (a ≫= original)) (c :: (b ≫= original)) = None
  | Matched v y => p (last (a ≫= original)) (v ++ (b ≫= original)) = Some (length v, y)
  end.
Proof.
  intros Hs H. destruct (finditer_app p None s a (x :: b) Hs H) as [E1 E2]. split; [exact E1|]. replace (after None (a ≫= original)) with (last (a ≫= original)) in E2 by (unfold after; by destruct (last _)).
  cbn [mbind list_bind] in E2. destruct (original x ++ (b ≫= original)) as [|c r] eqn:Et; [discriminate E2|].
  destruct (p (last (a ≫= original)) (c :: r)) as [[n y]|] eqn:Ep.
  - rewrite (finditer_match _ _ _ _ _ _ Hs Ep) in E2. injection E2 as -> E2. pose proof (Hs _ _ _ _ Ep) as [H1 H2]. cbn [original] in Et. rewrite Et, Ep, length_take. f_equal. f_equal. lia.
  - cbn [finditer] in E2. rewrite Ep in E2. injection E2 as -> E2. cbn in Et. injection Et as Et. by rewrite Et.
Qed.
Lemma search_false p s : search p s = false <-> pieces p s = Kept <$> s.
Proof.
  unfold search, pieces. generalize (@None Z) as prev. induction s as [|c s IH]; intros prev; [done|]. cbn [finditer]. destruct (p prev (c :: s)) as [[n b]|] eqn:Ep; cbn; [split; discriminate|].
  rewrite IH. split; [by intros ->|by intros [=]].
Qed.
Lemma kept_bind (g : piece B -> text) l : (forall c, g (Kept c) = [c]) -> (Kept <$> l) ≫= g = l.
Proof. intros H. induction l as [|c l IH]; [done|]. rewrite fmap_cons, bind_cons, H, IH. done. Qed.
Lemma sub_without p f s : search p s = false -> sub p f s = Ok s.
Proof. intros H%search_false. unfold sub. rewrite H. clear H. induction s as [|c s IH]; [done|]. cbn. by rewrite IH. Qed.
End substitution.
