(* ===== verification/SecretBroker.v ===== *)
(** * The secret broker

    [security/secrets.py]: the only reader of secrets: the layered path of the secrets file,
    the checks of that file, [get] with its precedences, the filling of placeholders, and the
    redactor with its cache.  Reading the file is a program over the file system, which may
    answer anything.  A [Path] is the list of its components, innermost first, so that the
    parent of the root is the root; the log lines are left out. *)
From S2P Require Import Prelude Substitution Programs.
#[local] Open Scope Z_scope.

Definition SUPPORTED_SECRETS : list text := u <$> ["deepseek_api_key"; "anthropic_api_key"; "discord_bot_token"; "audit.hash_pepper"; "quarantine_provider_api_key"]%string.
Definition _PREFER_FILE : list text := u <$> ["discord_bot_token"; "quarantine_provider_api_key"]%string.
Definition MAX_REDACTOR_PATTERNS : nat := 256.
Definition _GIT_WALK_MAX_DEPTH : nat := 12.
Definition _ENV_PREFIX : text := u "ALFRED_".
Definition upper (s : text) : text := (fun c => if (97 <=? c) && (c <=? 122) then c - 32 else c) <$> s.
Inductive exn :=
| UnknownSecretError (name : text) | SecretSubstitutionNotAllowed (ref : text)
| SecretBrokerFileMissingError | SecretBrokerPermissionsError | SecretBrokerNotAFileError | SecretBrokerMalformedError | SecretBrokerUnreadableError
| FileNotFoundError | OSError | TOMLDecodeError | UnicodeDecodeError | TimeoutExpired | KeyError | OtherException (name : string).
Definition is_os_error (e : exn) : bool := match e with FileNotFoundError | OSError => true | _ => false end.

(** ** The file *)
Definition path : Type := list text.
Definition parent (p : path) : path := tail p.
Record stat_result := { st_mode : Z; st_uid : Z }.
Inductive op : Type -> Type :=
| Exists (p : path) : op bool
| GitMarker (dir : path) : op bool                          (* (dir / ".git").exists() *)
| CheckIgnore (repo p : path) : op Z                        (* git check-ignore: its return code *)
| Lstat (p : path) : op stat_result
| GetUid : op Z
| Stat (p : path) : op stat_result
| LoadToml (p : path) : op (list (text * option text)).     (* None: not a string *)
#[local] Abbreviation prog := (program exn op).
#[local] Abbreviation event := (entry exn op).
#[local] Open Scope prog_scope.
Inductive _SecretsLayer := constructor_layer | env_layer | settings_default_layer.
Definition S_IFMT (mode : Z) : Z := Z.land mode 61440.
Definition S_ISLNK (mode : Z) : bool := S_IFMT mode =? 40960.
Definition S_ISREG (mode : Z) : bool := S_IFMT mode =? 32768.
Definition or_none (v : option text) : option text := match v with Some [] => None | _ => v end.
Definition _resolve_secrets_path (Path : text -> path) (constructor_arg : option path) (env : gmap text text) (settings_default : option path) : option (path * _SecretsLayer) :=
  match constructor_arg with
  | Some p => Some (p, constructor_layer)
  | None => match or_none (env !! u "ALFRED_SECRETS_FILE") with
      | Some value => Some (Path value, env_layer)
      | None => match settings_default with Some p => Some (p, settings_default_layer) | None => None end
      end
  end.
Fixpoint walk (depth : nat) (current : path) : prog (option path) :=
  match depth with
  | O => ret None
  | S depth =>
      found <~ call (GitMarker current);
      if (found : bool) then ret (Some current) else if bool_decide (parent current = current) then ret None else walk depth (parent current)
  end.
Definition _walk_for_git_parent (p : path) : prog (option path) := walk _GIT_WALK_MAX_DEPTH (parent p).
Definition _secret_is_gitignored (repo secrets_path : path) : prog bool :=
  except (fun e => match e with TimeoutExpired => true | _ => is_os_error e end)
    (returncode <~ call (CheckIgnore repo secrets_path); ret (returncode =? 0)) (fun _ => ret false).
Definition _validate_secrets_file_security (p : path) : prog unit :=
  lstat_result <~ call (Lstat p);
  if S_ISLNK (st_mode lstat_result) then raise SecretBrokerPermissionsError else
  uid <~ call GetUid;
  if negb (st_uid lstat_result =? uid) then raise SecretBrokerPermissionsError else
  if negb (S_ISREG (st_mode lstat_result)) then raise SecretBrokerNotAFileError else
  if negb (Z.land (st_mode lstat_result) 63 =? 0) then raise SecretBrokerPermissionsError else
  parent_stat <~ call (Stat (parent p));
  if negb (Z.land (st_mode parent_stat) 18 =? 0) then raise SecretBrokerPermissionsError else ret tt.
Definition dict_of {A} (l : list (text * A)) : gmap text A := foldl (fun d x => <[x.1 := x.2]> d) ∅ l.
Definition strings_of (data : list (text * option text)) : list (text * text) := omap (fun x => v ← x.2; Some (x.1, v)) data.
Definition _load_toml_file (p : path) : prog (gmap text text) := data <~ call (LoadToml p); ret (dict_of (strings_of data)).
(** The two [except] clauses of the load, the same in [__init__] and [reload]. *)
Definition load_failed (e : exn) : exn := match e with TOMLDecodeError | UnicodeDecodeError => SecretBrokerMalformedError | _ => if is_os_error e then SecretBrokerUnreadableError else e end.
Definition read_file (p : path) : prog (gmap text text) := _validate_secrets_file_security p ;; _load_toml_file p.
Definition redactor : Type := list text * gmap text text.
Record broker := {
  _env : gmap text text; _secrets_file_path : option path; _file_secrets : gmap text text;
  _redactor_version : Z; _redactor_cache : option (Z * redactor); _overflow_warned : bool; alfred_redactor_pattern_overflow_total : Z }.
Section config.
Variables (Path : text -> path) (env : gmap text text) (secrets_file : option path) (require_file allow_inside_git_worktree : bool) (settings_default : option path).
Definition unloaded (p : option path) (fs : gmap text text) : broker :=
  {| _env := env; _secrets_file_path := p; _file_secrets := fs; _redactor_version := 0; _redactor_cache := None; _overflow_warned := false; alfred_redactor_pattern_overflow_total := 0 |}.
Definition git_checked (p : path) (layer : _SecretsLayer) : prog unit :=
  if allow_inside_git_worktree then ret tt else
  git_parent <~ _walk_for_git_parent p;
  match git_parent with
  | None => ret tt
  | Some repo =>
      ignored <~ match layer with settings_default_layer => _secret_is_gitignored repo p | _ => ret false end;
      if (ignored : bool) then ret tt else raise SecretBrokerPermissionsError
  end.
Definition __init__ : prog broker :=
  match _resolve_secrets_path Path secrets_file env settings_default with
  | None => if require_file then raise SecretBrokerFileMissingError else ret (unloaded None ∅)
  | Some (p, layer) =>
      there <~ call (Exists p);
      if negb there then (if require_file then raise SecretBrokerFileMissingError else ret (unloaded (Some p) ∅)) else
      git_checked p layer ;;
      fs <~ except (fun _ => true) (read_file p) (fun e => raise (load_failed e));
      ret (unloaded (Some p) fs)
  end.
End config.
Definition with_secrets (fs : gmap text text) (v : Z) (s : broker) : broker :=
  {| _env := _env s; _secrets_file_path := _secrets_file_path s; _file_secrets := fs; _redactor_version := v; _redactor_cache := _redactor_cache s;
     _overflow_warned := _overflow_warned s; alfred_redactor_pattern_overflow_total := alfred_redactor_pattern_overflow_total s |}.
Definition _bump_redactor_version (s : broker) : broker := with_secrets (_file_secrets s) (_redactor_version s + 1) s.
Definition reread (s : broker) : prog (gmap text text) :=
  match _secrets_file_path s with
  | None => ret ∅
  | Some p =>
      there <~ call (Exists p);
      if negb there then ret ∅ else
      except (fun _ => true) (read_file p) (fun e => match e with FileNotFoundError => ret ∅ | _ => raise (load_failed e) end)
  end.
(** An exception leaves the broker as it was. *)
Definition reload (s : broker) : prog broker := fs <~ reread s; ret (_bump_redactor_version (with_secrets fs (_redactor_version s) s)).

(** ** The secrets *)
Definition get (s : broker) (name : text) : result exn text :=
  if negb (bool_decide (name ∈ SUPPORTED_SECRETS)) then Err (UnknownSecretError name) else
  let env_value := or_none (_env s !! (_ENV_PREFIX ++ upper name)) in
  let file_value := or_none (_file_secrets s !! name) in
  let value := if bool_decide (name ∈ _PREFER_FILE) then match file_value with Some v => Some v | None => env_value end else match env_value with Some v => Some v | None => file_value end in
  match value with None | Some [] => Err (UnknownSecretError name) | Some v => Ok v end.
Definition has (s : broker) (name : text) : bool := if negb (bool_decide (name ∈ SUPPORTED_SECRETS)) then false else match get s name with Ok _ => true | Err _ => false end.
Fixpoint text_leb (a b : text) : bool := match a, b with [], _ => true | _ :: _, [] => false | x :: a, y :: b => (x <? y) || ((x =? y) && text_leb a b) end.
Definition _known_with_values (s : broker) : list (text * text) := omap (fun name => match get s name with Ok v => Some (name, v) | Err _ => None end) (sorted_by text_leb SUPPORTED_SECRETS).
Definition known (s : broker) : list text := fst <$> _known_with_values s.

(** [{{secret:<name>}}], and the name *)
Definition brace (c : Z) : bool := (c =? 123) || (c =? 125).
Definition _SECRET_PLACEHOLDER : pattern text := fun _ s =>
  if starts (u "{{secret:") s then
    let rest := drop 9 s in let ref := takeb (fun c => negb (brace c)) rest in
    if starts (u "}}") (drop (length ref) rest) then Some ((9 + length ref + 2)%nat, ref) else None
  else None.
Definition name_char (c : Z) : bool := ((97 <=? c) && (c <=? 122)) || ((48 <=? c) && (c <=? 57)) || (c =? 95) || (c =? 46).
Definition _VALID_SECRET_NAME (s : text) : bool := negb (bool_decide (s = [])) && forallb name_char s.
Definition _replace (s : broker) (allowed_secrets : gset text) (ref : text) : result exn text :=
  if negb (_VALID_SECRET_NAME ref) || negb (bool_decide (ref ∈ allowed_secrets)) then Err (SecretSubstitutionNotAllowed ref) else get s ref.
Definition substitute (s : broker) (t : text) (allowed_secrets : gset text) : result exn text :=
  if negb (contains (u "{{secret:") t) then Ok t else sub _SECRET_PLACEHOLDER (fun _ ref => _replace s allowed_secrets ref) t.

(** ** The redactor *)
Definition longer (x y : text * text) : bool := (length y.2 <=? length x.2)%nat.
Definition marker (name : text) : text := u "[REDACTED:" ++ name ++ u "]".
Definition alternation (values : list text) : pattern text := fun _ s => v ← find (fun v => starts v s) values; Some (length v, v).
Definition compiled (pairs : list (text * text)) : redactor := (snd <$> pairs, dict_of ((fun x => (x.2, x.1)) <$> pairs)).
Definition rebuild (s : broker) : redactor * broker :=
  let pairs := sorted_by longer (_known_with_values s) in
  let over := (MAX_REDACTOR_PATTERNS <? length pairs)%nat in
  let c := compiled (if over then take MAX_REDACTOR_PATTERNS pairs else pairs) in
  let warn := over && negb (_overflow_warned s) in
  (c, {| _env := _env s; _secrets_file_path := _secrets_file_path s; _file_secrets := _file_secrets s; _redactor_version := _redactor_version s;
         _redactor_cache := Some (_redactor_version s, c); _overflow_warned := _overflow_warned s || warn;
         alfred_redactor_pattern_overflow_total := alfred_redactor_pattern_overflow_total s + if warn then 1 else 0 |}).
Definition redact (s : broker) (t : text) : result exn text * broker :=
  let '(c, s') := match _redactor_cache s with Some (v, c) => if v =? _redactor_version s then (c, s) else rebuild s | None => rebuild s end in
  if bool_decide (c.2 = ∅) then (Ok t, s') else
  (sub (alternation c.1) (fun v _ => match c.2 !! v with Some name => Ok (marker name) | None => Err KeyError end) t, s').
(** What changes a broker, and what comes of it. *)
Inductive action := Redact (t : text) | Reload (files : @environment exn op) | Bump.
Definition step (s : broker) (a : action) : broker :=
  match a with
  | Redact t => (redact s t).2
  | Reload files => match (execute files [] (reload s)).2 with Ok s' => s' | Err _ => s end
  | Bump => _bump_redactor_version s
  end.

(** ** Sorting *)
Lemma sorted_by_longer l : StronglySorted (fun x y => longer x y = true) (sorted_by longer l).
Proof.
  apply sorted_by_sorted; unfold longer; clear; [intros x y H%Nat.leb_gt; apply Nat.leb_le; lia|intros x y z H1%Nat.leb_le H2%Nat.leb_le; apply Nat.leb_le; lia].
Qed.
Lemma find_first {A} (f : A -> bool) l x : find f l = Some x -> f x = true /\ exists l1 l2, l = l1 ++ x :: l2 /\ Forall (fun y => f y = false) l1.
Proof.
  induction l as [|y l IH]; [discriminate|]. cbn. destruct (f y) eqn:E; [intros [= <-]; split; [exact E|by exists [], l]|]. intros H. destruct (IH H) as (?&l1&l2&->&?). split; [done|]. exists (y :: l1), l2. split; [done|by constructor].
Qed.
Lemma dict_of_snoc {A} (l : list (text * A)) k v : dict_of (l ++ [(k, v)]) = <[k := v]> (dict_of l).
Proof. unfold dict_of. by rewrite foldl_app. Qed.
Lemma dict_of_elem {A} (l : list (text * A)) k v : dict_of l !! k = Some v -> (k, v) ∈ l.
Proof.
  induction l as [|[k' v'] l IH] using rev_ind; [done|]. rewrite dict_of_snoc. intros [[-> ->]|[_ H]]%lookup_insert_Some; set_solver.
Qed.
Lemma dict_of_dom {A} (l : list (text * A)) k v : (k, v) ∈ l -> is_Some (dict_of l !! k).
Proof.
  induction l as [|[k' v'] l IH] using rev_ind; [intros H; by apply not_elem_of_nil in H|]. rewrite dict_of_snoc. destruct (decide (k = k')) as [->|Hk]; [rewrite lookup_insert_eq; by eexists|].
  rewrite lookup_insert_ne by done. intros [H|H]%elem_of_app; [by apply IH|]. apply list_elem_of_singleton in H. by injection H as -> ->.
Qed.

(** ** What is live *)
Lemma get_ok s name v : get s name = Ok v -> name ∈ SUPPORTED_SECRETS /\ v <> [].
Proof.
  unfold get. case_bool_decide; [|discriminate]. cbn [negb]. intros H'. split; [done|]. intros ->. by destruct (if bool_decide _ then _ else _) as [[|]|].
Qed.
Lemma known_spec s name v : (name, v) ∈ _known_with_values s <-> get s name = Ok v.
Proof.
  unfold _known_with_values. rewrite list_elem_of_omap. split.
  - intros (n&_&H). destruct (get s n) eqn:E; [|discriminate H]. by injection H as -> ->.
  - intros H. exists name. rewrite H, sorted_by_perm. split; [|done]. by apply (get_ok s name v).
Qed.
Lemma omap_short {A B} (f : A -> option B) l : (length (omap f l) <= length l)%nat.
Proof. induction l as [|x l IH]; cbn; [lia|]. destruct (f x); cbn; lia. Qed.
Lemma known_short s : (length (sorted_by longer (_known_with_values s)) <= MAX_REDACTOR_PATTERNS)%nat.
Proof.
  rewrite sorted_by_perm. unfold _known_with_values. etransitivity; [apply omap_short|]. rewrite sorted_by_perm. cbn. unfold MAX_REDACTOR_PATTERNS. lia.
Qed.
Definition live (s : broker) : list (text * text) := sorted_by longer (_known_with_values s).
#[local] Arguments live : simpl never.
Lemma live_spec s name v : (name, v) ∈ live s <-> get s name = Ok v.
Proof. unfold live. by rewrite sorted_by_perm, known_spec. Qed.
Lemma rebuild_compiled s : (rebuild s).1 = compiled (live s).
Proof. unfold rebuild. cbn [fst]. pose proof (known_short s) as H. apply Nat.ltb_ge in H. by rewrite H. Qed.
Lemma alternation_sound values : Forall (fun v => v <> []) values -> sound (alternation values).
Proof.
  intros Hv prev s n b H. unfold alternation in H. destruct (find (fun v => starts v s) values) as [v|] eqn:E; [|discriminate H]. injection H as <- <-. apply find_some in E as [Hin Hs].
  rewrite starts_spec in Hs. destruct Hs as [k ->]. rewrite Forall_forall in Hv. specialize (Hv v (proj2 (list_elem_of_In _ _) Hin)). rewrite length_app. destruct v; [done|]. cbn. lia.
Qed.
Lemma live_values s : Forall (fun v => v <> []) (snd <$> live s).
Proof. apply Forall_fmap, Forall_forall. intros [n v] H%live_spec. by apply get_ok in H as [_ ?]. Qed.
(** The name a value is shown under. *)
Definition name_of (s : broker) (v : text) : text := match (compiled (live s)).2 !! v with Some n => n | None => [] end.
Lemma name_of_live s v : v ∈ snd <$> live s -> (compiled (live s)).2 !! v = Some (name_of s v) /\ get s (name_of s v) = Ok v.
Proof.
  intros [[n v'] [-> Hin]]%list_elem_of_fmap. cbn [snd]. assert (Hx : is_Some ((compiled (live s)).2 !! v')) by (apply (dict_of_dom _ v' n), list_elem_of_fmap; by exists (n, v')).
  destruct Hx as [m Hm]. unfold name_of. rewrite Hm. split; [done|]. cbn. apply dict_of_elem, list_elem_of_fmap in Hm as [[n' v''] [[= -> ->] H]]. by apply live_spec.
Qed.
Definition hidden (s : broker) : text -> list (piece text) := pieces (alternation (snd <$> live s)).
Definition shown (s : broker) (v _ : text) : text := marker (name_of s v).
Lemma alternation_captures values prev s n b : alternation values prev s = Some (n, b) -> b ∈ values /\ take n s = b /\ starts b s = true /\ n = length b.
Proof.
  unfold alternation. destruct (find (fun v => starts v s) values) as [v|] eqn:E; [|discriminate]. intros [= <- <-]. apply find_some in E as [Hin Hs]. split_and!; [by apply list_elem_of_In|by apply starts_take|exact Hs|done].
Qed.
Lemma pieces_captured s t v b : Matched v b ∈ hidden s t -> v = b /\ v ∈ snd <$> live s.
Proof.
  intros (l1&l2&H)%list_elem_of_split. destruct (pieces_at _ _ _ _ _ (alternation_sound _ (live_values s)) H) as [_ Hp]. cbn beta iota in Hp.
  apply alternation_captures in Hp as (Hin&Ht&_&_). rewrite take_app_length in Ht. subst b. split; [done|exact Hin].
Qed.
(** A broker compiles what is live, or has it in its cache. *)
Definition coherent (s : broker) : Prop := forall v c, _redactor_cache s = Some (v, c) -> v <= _redactor_version s /\ (v = _redactor_version s -> c = compiled (live s)).
Lemma redact_spec s t : coherent s -> (redact s t).1 = Ok (hidden s t ≫= replaced (shown s)).
Proof.
  intros Hc. unfold redact. assert (E : exists s', (match _redactor_cache s with Some (v, c) => if v =? _redactor_version s then (c, s) else rebuild s | None => rebuild s end) = (compiled (live s), s')).
  { assert (Hr : rebuild s = (compiled (live s), (rebuild s).2)) by (rewrite <- rebuild_compiled; by destruct (rebuild s)). destruct (_redactor_cache s) as [[v c]|] eqn:Ec; [|by eexists]. destruct (Hc _ _ Ec) as [_ Hv].
    destruct (Z.eqb_spec v (_redactor_version s)) as [Hx|]; [rewrite (Hv Hx); by eexists|by eexists]. }
  destruct E as [s' ->]. assert (Hs : sub (alternation (snd <$> live s)) (fun v _ => match (compiled (live s)).2 !! v with Some name => Ok (marker name) | None => Err KeyError end) t = Ok (hidden s t ≫= replaced (shown s))).
  { apply render_total. intros v b Hin. destruct (pieces_captured _ _ _ _ Hin) as [_ Hv]. destruct (name_of_live _ _ Hv) as [-> _]. done. }
  case_bool_decide as Hempty; [|exact Hs]. cbn [fst]. rewrite <- Hs. symmetry. apply sub_without. apply search_false.
  assert (Hl : live s = []). { destruct (live s) as [|[n v] l] eqn:El; [done|]. cbn [compiled snd] in Hempty. destruct (dict_of_dom ((fun x : text * text => (x.2, x.1)) <$> (n, v) :: l) v n) as [m Hm]; [cbn; constructor|]. rewrite Hempty in Hm. discriminate Hm. }
  rewrite Hl. unfold pieces. clear. generalize (@None Z). induction t as [|c t IH]; intros prev; [done|].
  change (Kept c :: finditer (alternation []) 0 (Some c) t = Kept c :: (Kept <$> t)). f_equal. apply IH.
Qed.
Lemma live_ext s s' : _env s' = _env s -> _file_secrets s' = _file_secrets s -> live s' = live s.
Proof. intros E1 E2. unfold live, _known_with_values. f_equal. apply list_omap_ext. apply Forall_Forall2_diag. by apply Forall_true; intros n; unfold get; rewrite E1, E2. Qed.

(** ** The cache *)
Lemma coherent_fresh s : _redactor_cache s = None -> coherent s.
Proof. intros H v c E. rewrite H in E. discriminate E. Qed.
Lemma coherent_bump fs s : coherent s -> coherent (with_secrets fs (_redactor_version s + 1) s).
Proof. intros H v c E. destruct (H v c E) as [Hv _]. cbn [with_secrets _redactor_version]. split; lia. Qed.
Lemma coherent_redact s t : coherent s -> coherent (redact s t).2.
Proof.
  intros H. assert (Hr : coherent (rebuild s).2).
  { intros v c E. pose proof (rebuild_compiled s) as Hc. rewrite (live_ext s) by done. unfold rebuild in E, Hc |- *. cbn [fst snd _redactor_cache _redactor_version] in E, Hc |- *. injection E as <- <-. split; [lia|]. by intros _. }
  assert (E : exists c s', (match _redactor_cache s with Some (v, c) => if v =? _redactor_version s then (c, s) else rebuild s | None => rebuild s end) = (c, s') /\ coherent s').
  { destruct (rebuild s) as [c s'] eqn:Er. cbn in Hr. destruct (_redactor_cache s) as [[v c']|]; [destruct (v =? _)|]; (do 2 eexists; split; [reflexivity|assumption]). }
  destruct E as (c&s'&E&Hs'). unfold redact. rewrite E. by case_bool_decide.
Qed.
Lemma reload_ok files s s' : (execute files [] (reload s)).2 = Ok s' -> exists fs, s' = with_secrets fs (_redactor_version s + 1) s.
Proof.
  unfold reload. assert (Hw : wp (bind (reread s) (fun fs => ret (_bump_redactor_version (with_secrets fs (_redactor_version s) s)))) (fun _ r => match r with Ok s' => exists fs, s' = with_secrets fs (_redactor_version s + 1) s | Err _ => True end)).
  { apply wp_bind. eapply wp_mono; [apply wp_true|]. intros m [fs|e] _; [|done]. apply wp_return. by exists fs. }
  destruct (Hw files []) as (m&_&H). intros E. by rewrite E in H.
Qed.
Lemma coherent_run l s : coherent s -> coherent (fold_left step l s).
Proof.
  revert s. induction l as [|a l IH]; intros s H; [done|]. cbn [fold_left]. apply IH. destruct a as [t|files|]; cbn [step]; [by apply coherent_redact| |by apply coherent_bump].
  destruct (execute files [] (reload s)).2 as [s'|e] eqn:E; [|done]. apply reload_ok in E as [fs ->]. by apply coherent_bump.
Qed.

(** ** What is hidden *)
Definition label {B B'} (f : text -> B') (x : piece B) : piece B' := match x with Kept c => Kept c | Matched v _ => Matched v (f v) end.
Lemma label_bind {B B' C} (f : text -> B') (g : piece B' -> list C) (l : list (piece B)) : (label f <$> l) ≫= g = l ≫= (fun x => g (label f x)).
Proof. induction l as [|x l IH]; [done|]. cbn. by rewrite <- IH. Qed.
Lemma bind_same {A C} (f g : A -> list C) l : (forall x, f x = g x) -> l ≫= f = l ≫= g.
Proof. intros H. induction l as [|x l IH]; [done|]. cbn. by rewrite IH, H. Qed.
Lemma label_original {B B'} (f : text -> B') (l : list (piece B)) : (label f <$> l) ≫= original = l ≫= original.
Proof. rewrite label_bind. apply bind_same. by intros []. Qed.
Lemma fmap_split {A C} (f : A -> C) l a x b : f <$> l = a ++ x :: b -> exists a' x' b', l = a' ++ x' :: b' /\ a = f <$> a' /\ x = f x' /\ b = f <$> b'.
Proof. intros H. apply fmap_app_inv in H as (a'&r&->&H&->). symmetry in H. apply fmap_cons_inv in H as (x'&b'&->&->&->). by exists a', x', b'. Qed.
Lemma alternation_longest (l : list (text * text)) prev s n w v name : StronglySorted (fun x y => longer x y = true) l -> (name, v) ∈ l -> v `prefix_of` s -> alternation (snd <$> l) prev s = Some (n, w) -> (length v <= length w)%nat.
Proof.
  intros Hl Hin Hv H. unfold alternation in H. destruct (find (fun v => starts v s) (snd <$> l)) as [w'|] eqn:E; [|discriminate H]. injection H as <- <-.
  apply find_first in E as (_&l1&l2&E&Hl1). apply fmap_app_inv in E as (k1&k2&->&E2&->). symmetry in E2. apply fmap_cons_inv in E2 as ([n2 w2]&k3&->&_&->).
  apply elem_of_app in Hin as [Hin|[Hin|Hin]%elem_of_cons].
  - rewrite Forall_fmap, Forall_forall in Hl1. specialize (Hl1 _ Hin). cbn in Hl1. apply starts_spec in Hv. by rewrite Hv in Hl1.
  - injection Hin as -> ->. done.
  - apply StronglySorted_app in Hl as (_&_&Hl). inversion Hl as [|? ? _ Hx]; subst. rewrite Forall_forall in Hx. specialize (Hx _ Hin). by apply Nat.leb_le in Hx.
Qed.
Lemma alternation_finds (l : list (text * text)) prev s v name : (name, v) ∈ l -> v `prefix_of` s -> alternation (snd <$> l) prev s <> None.
Proof.
  intros Hin Hv H. unfold alternation in H. destruct (find (fun v => starts v s) (snd <$> l)) as [w|] eqn:E; [discriminate H|]. pose proof (find_none _ _ E v) as Hn. apply starts_spec in Hv. cbn in Hn. rewrite Hv in Hn.
  discriminate Hn. apply list_elem_of_In, list_elem_of_fmap. by exists (name, v).
Qed.
(** C14: after any calls of [redact] and [reload], whatever the file system answered them and
    whether they raised, [redact] cuts its text into what it keeps and what it hides: the
    output is the text with each hidden span replaced by [[REDACTED:name]]; a hidden span is
    the value that [get] now gives that name; and where a value of a live secret stands in the
    text and its first character was not hidden by an earlier span, a span is hidden that is
    at least as long.  So the compiled cache is never stale, and no secret is kept from its
    start. *)
Theorem redaction_hides_every_live_secret env p fs l t : let s := fold_left step l (unloaded env p fs) in
  exists ps : list (piece text), ps ≫= original = t /\ (redact s t).1 = Ok (ps ≫= replaced (fun _ name => marker name)) /\
  (forall v name, Matched v name ∈ ps -> get s name = Ok v) /\
  (forall a x b name v, ps = a ++ x :: b -> get s name = Ok v -> v `prefix_of` original x ++ (b ≫= original) -> exists w name', x = Matched w name' /\ (length v <= length w)%nat).
Proof.
  intros s. assert (Hc : coherent s) by (by apply coherent_run, coherent_fresh). generalize dependent s. clear. intros s Hc. exists (label (name_of s) <$> hidden s t). split_and!.
  - rewrite label_original. apply pieces_original, alternation_sound, live_values.
  - rewrite redact_spec by done. f_equal. rewrite label_bind. apply bind_same. by intros [].
  - intros v name (x&Hx&Hin)%list_elem_of_fmap. destruct x as [|v' b]; [discriminate Hx|]. injection Hx as -> ->. apply pieces_captured in Hin as [_ Hin]. by apply name_of_live.
  - intros a x b name v H Hg Hv. apply fmap_split in H as (a'&x'&b'&H&->&->&->). destruct (pieces_at _ _ _ _ _ (alternation_sound _ (live_values s)) H) as [_ Hp].
    rewrite label_original in Hv. apply live_spec in Hg. destruct x' as [c|w y]; cbn [label original] in Hv |- *.
    + exfalso. by apply (alternation_finds _ (last (a' ≫= original)) _ _ _ Hg Hv).
    + exists w, (name_of s w). split; [done|]. pose proof (alternation_captures _ _ _ _ _ Hp) as (_&Hy&_&_). rewrite take_app_length in Hy. subst y. eapply alternation_longest; [apply sorted_by_longer|exact Hg|exact Hv|exact Hp].
Qed.

(** ** What is filled *)
Lemma placeholder_match prev s n ref : _SECRET_PLACEHOLDER prev s = Some (n, ref) -> Forall (fun c => brace c = false) ref /\ take n s = u "{{secret:" ++ ref ++ u "}}" /\ (1 <= n <= length s)%nat.
Proof.
  unfold _SECRET_PLACEHOLDER. destruct (starts (u "{{secret:") s) eqn:E1; [|discriminate]. destruct (starts (u "}}") _) eqn:E2; [|discriminate]. intros [= <- <-].
  apply starts_spec in E1 as [r ->], E2 as [k E2]. change 9%nat with (length (u "{{secret:")) in *. rewrite drop_app_length in *. set (ref := takeb _ r) in *.
  assert (Hr : r = ref ++ u "}}" ++ k) by (rewrite <- E2, <- (take_drop (length ref) r) at 1; f_equal; unfold ref at 1; by rewrite <- (takeb_dropb (fun c => negb (brace c)) r) at 2; rewrite take_app_length).
  split_and!.
  - apply Forall_forall. intros c Hc%takeb_all. by destruct (brace c).
  - rewrite Hr. rewrite !app_assoc, <- (app_assoc _ ref). rewrite take_app_le; [|rewrite !length_app; cbn; lia]. apply take_ge. rewrite !length_app. cbn. lia.
  - lia.
  - rewrite Hr, !length_app. cbn. lia.
Qed.
Lemma takeb_app {A} (p : A -> bool) l k : Forall (fun x => p x = true) l -> takeb p (l ++ k) = l ++ takeb p k.
Proof. induction 1 as [|x l Hx _ IH]; [done|]. cbn. by rewrite Hx, IH. Qed.
Lemma placeholder_finds prev ref k : Forall (fun c => brace c = false) ref -> _SECRET_PLACEHOLDER prev (u "{{secret:" ++ ref ++ u "}}" ++ k) <> None.
Proof.
  intros Hr. unfold _SECRET_PLACEHOLDER. rewrite (proj2 (starts_spec (u "{{secret:") _)) by (by eexists). change 9%nat with (length (u "{{secret:")). rewrite drop_app_length.
  rewrite takeb_app by (eapply Forall_impl; [exact Hr|]; intros c; cbn; by intros ->). change (takeb (fun c => negb (brace c)) (u "}}" ++ k)) with (@nil Z). rewrite app_nil_r, drop_app_length, (proj2 (starts_spec (u "}}") _)) by (by eexists). discriminate.
Qed.
Lemma placeholder_sound : sound _SECRET_PLACEHOLDER.
Proof. intros prev s n ref H. by apply placeholder_match in H as (_&_&?). Qed.
Lemma substitute_sub s t allowed : substitute s t allowed = sub _SECRET_PLACEHOLDER (fun _ ref => _replace s allowed ref) t.
Proof.
  unfold substitute. destruct (contains (u "{{secret:") t) eqn:E; [done|]. cbn [negb]. symmetry. apply sub_without. unfold search, pieces. generalize (@None Z). induction t as [|c t IH]; intros prev; [done|].
  cbn [contains] in E. apply orb_false_iff in E as [E1 E2]. cbn [finditer]. unfold _SECRET_PLACEHOLDER at 1. rewrite E1. cbn. by apply IH.
Qed.
Definition named (ref : text) : text := u "{{secret:" ++ ref ++ u "}}".
Definition fill (s : broker) (ref : text) : text := match get s ref with Ok v => v | Err _ => [] end.
(** C16: [substitute] cuts its text into what it keeps and placeholders [{{secret:ref}}], and
    no placeholder is kept.  It returns only if every [ref] is a well-formed name, on the list
    the caller allows, of a secret that is live, and then the text with each placeholder
    replaced by the value [get] gives, which is not searched again.  Otherwise it raises for
    the first placeholder at fault: [SecretSubstitutionNotAllowed] if its name is malformed or
    not allowed, and what [get] raises if it is. *)
Theorem substitution_fills_only_allowed_names s t allowed_secrets :
  exists ps : list (piece text), ps ≫= original = t /\ (forall v ref, Matched v ref ∈ ps -> v = named ref) /\
  (forall a c b ref, ps = a ++ Kept c :: b -> Forall (fun c => brace c = false) ref -> ~ named ref `prefix_of` c :: (b ≫= original)) /\
  match substitute s t allowed_secrets with
  | Ok out => out = ps ≫= replaced (fun _ ref => fill s ref) /\ forall v ref, Matched v ref ∈ ps -> _VALID_SECRET_NAME ref = true /\ ref ∈ allowed_secrets /\ get s ref = Ok (fill s ref)
  | Err e => exists a v ref b, ps = a ++ Matched v ref :: b /\ (forall v ref, Matched v ref ∈ a -> _VALID_SECRET_NAME ref = true /\ ref ∈ allowed_secrets /\ get s ref = Ok (fill s ref)) /\
      (e = SecretSubstitutionNotAllowed ref /\ (_VALID_SECRET_NAME ref = false \/ ref ∉ allowed_secrets) \/ _VALID_SECRET_NAME ref = true /\ ref ∈ allowed_secrets /\ get s ref = Err e)
  end.
Proof.
  exists (pieces _SECRET_PLACEHOLDER t). rewrite substitute_sub. split; [apply pieces_original, placeholder_sound|]. split; [|split].
  - intros v ref (a&b&H)%list_elem_of_split. destruct (pieces_at _ _ _ _ _ placeholder_sound H) as [_ Hp]. apply placeholder_match in Hp as (_&Hp&_). by rewrite take_app_length in Hp.
  - intros a c b ref H Hr [k Hk]. destruct (pieces_at _ _ _ _ _ placeholder_sound H) as [_ Hp]. cbn beta iota in Hp. rewrite Hk in Hp. unfold named in Hp. rewrite <- !app_assoc in Hp. by eapply placeholder_finds.
  - assert (Hf : forall ref w, _replace s allowed_secrets ref = Ok w -> _VALID_SECRET_NAME ref = true /\ ref ∈ allowed_secrets /\ get s ref = Ok (fill s ref) /\ w = fill s ref).
    { intros ref w. unfold _replace, fill. destruct (_VALID_SECRET_NAME ref); [|discriminate]. case_bool_decide; [|discriminate]. cbn. by intros ->. }
    unfold sub. destruct (render _ _) as [out|e] eqn:E.
    + split; [|intros v ref Hin].
      * assert (Hx : forall v ref, Matched v ref ∈ pieces _SECRET_PLACEHOLDER t -> _replace s allowed_secrets ref = Ok (fill s ref)).
        { intros v ref Hin. apply render_ok in E as (ws&Hw&_). apply list_elem_of_lookup in Hin as [i Hi]. destruct (Forall2_lookup_l _ _ _ _ _ Hw Hi) as (w&_&Hx). pose proof (Hf _ _ Hx) as (_&_&_&->). exact Hx. }
        rewrite (render_total _ (fun _ ref => fill s ref)) in E by (intros v ref; apply Hx). by injection E as <-.
      * apply render_ok in E as (ws&Hw&_). apply list_elem_of_lookup in Hin as [i Hi]. destruct (Forall2_lookup_l _ _ _ _ _ Hw Hi) as (w&_&Hx). by pose proof (Hf _ _ Hx) as (?&?&?&_).
    + apply render_err in E as (a&v&ref&b&E&Hr&Ha). exists a, v, ref, b. split; [exact E|]. split; [intros v' ref' Hin; destruct (Ha _ _ Hin) as [w Hw]; by pose proof (Hf _ _ Hw) as (?&?&?&_)|].
      unfold _replace in Hr. destruct (_VALID_SECRET_NAME ref); [|injection Hr as <-; left; split; [done|by left]]. case_bool_decide; [|injection Hr as <-; left; split; [done|by right]]. cbn in Hr. by right.
Qed.

(** ** What is loaded *)
Definition loads (x : event) : bool := match x with @Ev _ _ B o _ => match o with LoadToml _ => true | _ => false end end.
Definition loaded_of (x : event) : option (path * result exn (list (text * option text))) :=
  match x with @Ev _ _ B o r => match o in op B return result exn B -> option (path * result exn (list (text * option text))) with LoadToml p => fun r => Some (p, r) | _ => fun _ => None end r end.
Definition quiet (m : list event) : Prop := Forall (fun x => loads x = false) m.
(** The answers of the file system that let a file through. *)
Definition secure (p : path) (m : list event) : Prop :=
  exists st uid dir, Ev (Lstat p) (Ok st) ∈ m /\ S_ISLNK (st_mode st) = false /\ Ev GetUid (Ok uid) ∈ m /\ st_uid st = uid /\ S_ISREG (st_mode st) = true /\ Z.land (st_mode st) 63 = 0 /\
    Ev (Stat (parent p)) (Ok dir) ∈ m /\ Z.land (st_mode dir) 18 = 0.
Definition uncommitted (allowed : bool) (layer : _SecretsLayer) (p : path) (m : list event) : Prop :=
  allowed = true \/ (forall k, (k < _GIT_WALK_MAX_DEPTH)%nat -> Ev (GitMarker (drop (S k) p)) (Ok false) ∈ m) \/
  layer = settings_default_layer /\ exists repo, Ev (GitMarker repo) (Ok true) ∈ m /\ Ev (CheckIgnore repo p) (Ok 0) ∈ m.
(** A part that reads nothing, or reads the file last. *)
Definition reads (p : path) (G : list event -> Prop) (m : list event) (r : result exn (gmap text text)) : Prop :=
  quiet m /\ (exists e, r = Err e) \/ exists a x, m = a ++ [Ev (LoadToml p) x] /\ quiet a /\ G a /\ match x with Ok data => r = Ok (dict_of (strings_of data)) | Err e => exists e, r = Err e end.
Lemma quiet_app a b : quiet a -> quiet b -> quiet (a ++ b).
Proof. intros Ha Hb. by apply Forall_app. Qed.
Lemma validate_wp p : wp (_validate_secrets_file_security p) (fun m r => quiet m /\ match r with Ok _ => secure p m | Err _ => True end).
Proof.
  assert (Hq : forall B (o : op B) r, loads (Ev o r) = false -> quiet [Ev o r]) by (intros; by repeat constructor).
  apply wp_bind, wp_call. intros [st|e]; [|split; [by apply Hq|done]]. destruct (S_ISLNK _) eqn:E1; [apply wp_return; rewrite app_nil_r; split; [by apply Hq|done]|].
  apply wp_bind, wp_call. intros [uid|e]; [|split; [by repeat constructor|done]]. destruct (Z.eqb_spec (st_uid st) uid) as [E2|]; cbn [negb]; [|apply wp_return; split; [by repeat constructor|done]].
  destruct (S_ISREG _) eqn:E3; cbn [negb]; [|apply wp_return; split; [by repeat constructor|done]]. destruct (Z.eqb_spec (Z.land (st_mode st) 63) 0) as [E4|]; cbn [negb]; [|apply wp_return; split; [by repeat constructor|done]].
  apply wp_bind, wp_call. intros [dir|e]; [|split; [by repeat constructor|done]]. destruct (Z.eqb_spec (Z.land (st_mode dir) 18) 0) as [E5|]; cbn [negb]; apply wp_return; (split; [by repeat constructor|]); [|done].
  exists st, uid, dir. cbn. split_and!; first [done | set_solver].
Qed.
Lemma read_file_wp p : wp (read_file p) (reads p (secure p)).
Proof.
  apply wp_bind. eapply wp_mono; [apply validate_wp|]. intros m [[]|e] [Hq Hs]; [|left; split; [exact Hq|by eexists]].
  apply wp_bind, wp_call. intros [data|e]; [apply wp_return; rewrite app_nil_r|]; right; exists m; eexists; (split; [reflexivity|]); split_and!; try done. by eexists.
Qed.
Lemma walk_wp depth p j : wp (walk depth (drop j p)) (fun m r => quiet m /\ match r with Ok None => forall k, (k < depth)%nat -> Ev (GitMarker (drop (j + k) p)) (Ok false) ∈ m | Ok (Some repo) => Ev (GitMarker repo) (Ok true) ∈ m | Err _ => True end).
Proof.
  revert j. induction depth as [|depth IH]; intros j; [apply wp_return; split; [constructor|lia]|]. cbn [walk]. apply wp_bind, wp_call. intros [[]|e]; [apply wp_return; split; [by repeat constructor|constructor]| |split; [by repeat constructor|done]].
  assert (Hp : parent (drop j p) = drop (S j) p) by (unfold parent; rewrite <- Nat.add_1_r, <- drop_drop; by destruct (drop j p)). rewrite Hp. case_bool_decide as Hr.
  - apply wp_return. split; [by repeat constructor|]. intros k _. assert (Hk : drop (j + k) p = drop j p); [|rewrite Hk; constructor].
    clear Hp IH. induction k as [|k IHk]; [by rewrite Nat.add_0_r|]. rewrite Nat.add_succ_r, <- Nat.add_1_r, <- drop_drop, IHk, drop_drop, Nat.add_1_r. exact Hr.
  - eapply wp_mono; [apply (IH (S j))|]. intros m r [Hq H]. split; [by constructor|]. destruct r as [[repo|]|e]; [by constructor| |done]. intros k Hk. destruct k as [|k]; [rewrite Nat.add_0_r; constructor|]. right. replace (j + S k)%nat with (S j + k)%nat by lia. apply H. lia.
Qed.
Lemma git_wp allowed p layer : wp (git_checked allowed p layer) (fun m r => quiet m /\ match r with Ok _ => uncommitted allowed layer p m | Err _ => True end).
Proof.
  unfold git_checked. destruct allowed; [apply wp_return; split; [constructor|by left]|]. apply wp_bind. eapply wp_mono; [apply (walk_wp _ p 1)|]. intros m [[repo|]|e] [Hq Hm]; [| |done].
  - assert (Hi : wp (match layer with settings_default_layer => _secret_is_gitignored repo p | _ => ret false end) (fun m r => quiet m /\ match r with Ok true => layer = settings_default_layer /\ Ev (CheckIgnore repo p) (Ok 0) ∈ m | _ => True end)).
    { destruct layer; [apply wp_return; split; constructor..|]. apply wp_except, wp_bind, wp_call. intros [rc|e]; [apply wp_return; split; [by repeat constructor|]; destruct (Z.eqb_spec rc 0) as [->|]; [split; [done|constructor]|done]|].
      destruct e; cbn; try (split; [by repeat constructor|done]); apply wp_return; (split; [by repeat constructor|done]). }
    apply wp_bind. eapply wp_mono; [exact Hi|]. intros m' [[]|e] [Hq' H]; [| |split; [by apply quiet_app|done]]; apply wp_return; rewrite app_nil_r; (split; [by apply quiet_app|]); [|done].
    right. right. destruct H as [Hl H]. split; [exact Hl|]. exists repo. set_solver.
  - apply wp_return. rewrite app_nil_r. split; [exact Hq|]. right. left. exact Hm.
Qed.
Definition found (Path : text -> path) (secrets_file : option path) (env : gmap text text) (settings_default : option path) (p : path) (layer : _SecretsLayer) : Prop := _resolve_secrets_path Path secrets_file env settings_default = Some (p, layer).
Definition vetted (Path : text -> path) (env : gmap text text) (secrets_file : option path) (require_file allow : bool) (settings_default : option path) (l : list event) (r : result exn broker) : Prop :=
  (forall q x, Ev (LoadToml q) x ∈ l -> exists layer a, found Path secrets_file env settings_default q layer /\ l = a ++ [Ev (LoadToml q) x] /\ quiet a /\ uncommitted allow layer q a /\ secure q a /\
     forall data, x = Ok data -> r = Ok (unloaded env (Some q) (dict_of (strings_of data)))) /\
  match r with
  | Ok s => _env s = env /\ (_file_secrets s <> ∅ -> exists q data, Ev (LoadToml q) (Ok data) ∈ l /\ _file_secrets s = dict_of (strings_of data)) /\
      (require_file = true -> exists q data, Ev (LoadToml q) (Ok data) ∈ l)
  | Err _ => True
  end.
Lemma quiet_loads m q x : quiet m -> Ev (LoadToml q) x ∉ m.
Proof. intros Hq Hin. unfold quiet in Hq. rewrite Forall_forall in Hq. by specialize (Hq _ Hin). Qed.
Section init.
Variables (Path : text -> path) (env : gmap text text) (secrets_file : option path) (require_file allow : bool) (settings_default : option path).
#[local] Abbreviation vetted' := (vetted Path env secrets_file require_file allow settings_default).
Lemma vetted_none m r : quiet m -> (forall s, r = Ok s -> require_file = false /\ exists p, s = unloaded env p ∅) -> vetted' m r.
Proof.
  intros Hq Hr. split; [intros q x Hin; by apply quiet_loads in Hin|]. destruct r as [s|e]; [|done]. destruct (Hr s eq_refl) as [-> [p ->]]. done.
Qed.
Lemma vetted_loads p layer m0 a x r : found Path secrets_file env settings_default p layer -> quiet m0 -> quiet a -> uncommitted allow layer p m0 -> secure p a ->
  (forall data, x = Ok data -> r = Ok (unloaded env (Some p) (dict_of (strings_of data)))) -> (forall s, r = Ok s -> exists data, x = Ok data) -> vetted' (m0 ++ a ++ [Ev (LoadToml p) x]) r.
Proof.
  intros Hf Hq0 Ha Hg Hs Hr1 Hr2. split.
  - intros q y [Hin|[Hin|Hin]%elem_of_app]%elem_of_app; [by apply quiet_loads in Hin|by apply quiet_loads in Hin|]. apply list_elem_of_singleton, (f_equal loaded_of) in Hin. injection Hin as -> ->.
    exists layer, (m0 ++ a). split_and!; [done|by rewrite app_assoc|by apply quiet_app| | |done].
    + destruct Hg as [?|[Hg|[? (repo&?&?)]]]; [by left|right; left; intros k Hk; specialize (Hg k Hk); set_solver|right; right; split; [done|exists repo; set_solver]].
    + destruct Hs as (st&uid&dir&?&?&?&?&?&?&?&?). exists st, uid, dir. split_and!; try done; set_solver.
  - destruct r as [s|e]; [|done]. destruct (Hr2 s eq_refl) as [data ->]. specialize (Hr1 data eq_refl). injection Hr1 as ->. assert (Hin : Ev (LoadToml p) (Ok data) ∈ m0 ++ a ++ [Ev (LoadToml p) (Ok data)]) by set_solver.
    split_and!; [done|intros _; exists p, data; split; [exact Hin|done]|intros _; by exists p, data].
Qed.
Lemma none_wp p (Q : list event -> result exn broker -> Prop) : (forall r, (forall s, r = Ok s -> require_file = false /\ exists p, s = unloaded env p ∅) -> Q [] r) -> wp (if require_file then raise SecretBrokerFileMissingError else ret (unloaded env p ∅)) Q.
Proof. intros H. destruct require_file; apply wp_return, H; [discriminate|]. intros s [= <-]. split; [done|by eexists]. Qed.
Lemma init_wp : wp (__init__ Path env secrets_file require_file allow settings_default) vetted'.
Proof.
  unfold __init__. destruct (_resolve_secrets_path _ _ _ _) as [[p layer]|] eqn:Er; [|apply none_wp; intros r Hr; apply vetted_none; [constructor|exact Hr]].
  apply wp_bind, wp_call. intros [[]|e]; [|apply none_wp; intros r Hr; apply vetted_none; [by repeat constructor|exact Hr]|apply vetted_none; [by repeat constructor|discriminate]].
  apply wp_bind. eapply wp_mono; [apply git_wp|]. intros m [[]|e] [Hq Hg]; [|apply vetted_none; [by apply quiet_app; [repeat constructor|]|discriminate]].
  apply wp_bind, wp_except. eapply wp_mono; [apply read_file_wp|]. set (m0 := [Ev (Exists p) (Ok true)] ++ m). assert (Hq0 : quiet m0) by (by apply quiet_app; [repeat constructor|]).
  intros m' r [[Hm' [e ->]]|(a&x&->&Ha&Hs&Hx)]; [apply wp_return; rewrite app_nil_r, app_assoc; apply vetted_none; [by apply quiet_app|discriminate]|].
  assert (Hg' : uncommitted allow layer p m0) by (destruct Hg as [?|[Hg|[? (repo&?&?)]]]; [by left|right; left; intros k Hk; specialize (Hg k Hk); set_solver|right; right; split; [done|exists repo; set_solver]]).
  destruct x as [data|e]; [subst r|destruct Hx as [e' ->]]; apply wp_return; rewrite ?app_nil_r, ?app_assoc; rewrite <- app_assoc; apply (vetted_loads p layer); try done; [by intros d [= ->]|intros s _; by exists data].
Qed.
End init.
(** C17: whatever the file system answers, the constructor reads a secrets file at most once,
    as the last thing it does, and only the file the layers name, after it was told that the
    file is no symbolic link, belongs to the user, is regular, is open to nobody else, and
    lies in a directory nobody else may write to; and, unless the caller waives it, that none
    of its twelve nearest directories holds a [.git], or, for the default path alone, that git
    ignores it.  The broker it returns holds the strings of that file, or no file secrets when
    there is none; nothing of a file whose checks or whose parse failed. *)
Theorem secrets_load_only_behind_the_checks Path env secrets_file require_file allow settings_default files :
  let '(l, r) := execute files [] (__init__ Path env secrets_file require_file allow settings_default) in
  (forall q x, Ev (LoadToml q) x ∈ l -> exists layer a, found Path secrets_file env settings_default q layer /\ l = a ++ [Ev (LoadToml q) x] /\ quiet a /\ uncommitted allow layer q a /\ secure q a /\
     forall data, x = Ok data -> r = Ok (unloaded env (Some q) (dict_of (strings_of data)))) /\
  match r with
  | Ok s => _env s = env /\ (_file_secrets s <> ∅ -> exists q data, Ev (LoadToml q) (Ok data) ∈ l /\ _file_secrets s = dict_of (strings_of data)) /\
      (require_file = true -> exists q data, Ev (LoadToml q) (Ok data) ∈ l)
  | Err _ => True
  end.
Proof. destruct (init_wp Path env secrets_file require_file allow settings_default files []) as (m&E&H). destruct (execute _ _ _) as [l r]. cbn in E, H. subst l. exact H. Qed.
(** [reload] makes the checks of the file again, not those of the directories above it. *)
Theorem reload_reads_behind_the_file_checks s files : let '(l, r) := execute files [] (reload s) in
  match r with
  | Ok s' => _redactor_version s' = _redactor_version s + 1 /\ (_file_secrets s' = ∅ \/ exists q a data, _secrets_file_path s = Some q /\ l = a ++ [Ev (LoadToml q) (Ok data)] /\ secure q a /\ _file_secrets s' = dict_of (strings_of data))
  | Err _ => True
  end.
Proof.
  assert (Hw : wp (reload s) (fun l r => match r with Ok s' => _redactor_version s' = _redactor_version s + 1 /\ (_file_secrets s' = ∅ \/ exists q a data, _secrets_file_path s = Some q /\ l = a ++ [Ev (LoadToml q) (Ok data)] /\ secure q a /\ _file_secrets s' = dict_of (strings_of data)) | Err _ => True end)).
  { apply wp_bind. eapply (wp_mono _ (fun m r => match r with Ok fs => fs = ∅ \/ exists q a data, _secrets_file_path s = Some q /\ m = a ++ [Ev (LoadToml q) (Ok data)] /\ secure q a /\ fs = dict_of (strings_of data) | Err _ => True end)).
    - unfold reread. destruct (_secrets_file_path s) as [p|]; [|apply wp_return; by left]. apply wp_bind, wp_call. intros [[]|e]; [|apply wp_return; by left|done].
      apply wp_except. eapply wp_mono; [apply read_file_wp|]. intros m r [[Hm [e ->]]|(a&x&->&Ha&(st&uid&dir&?&?&?&?&?&?&?&?)&Hx)]; [destruct e; apply wp_return; cbn; by try left|].
      destruct x as [data|e]; [subst r; cbn beta iota|destruct Hx as [e' ->]; destruct e'; apply wp_return; cbn; by try left]. right. exists p, ([Ev (Exists p) (Ok true)] ++ a), data. rewrite <- app_assoc.
      split_and!; try done. exists st, uid, dir. split_and!; try done; set_solver.
    - intros m [fs|e] H; [|done]. apply wp_return. rewrite app_nil_r. split; [done|exact H]. }
  destruct (Hw files []) as (m&E&H). destruct (execute _ _ _) as [l r]. cbn in E, H. subst l. exact H.
Qed.
(** Where two secrets overlap, the one that begins first is hidden, whatever its length, and
    the rest of the longer one is left in the open. *)
Theorem overlapping_secret_leaks_its_tail : let s := unloaded (dict_of [(u "ALFRED_DEEPSEEK_API_KEY", u "ab"); (u "ALFRED_ANTHROPIC_API_KEY", u "bcdefgh")]%string) None ∅ in
  get s (u "anthropic_api_key") = Ok (u "bcdefgh") /\ (redact s (u "x=abcdefgh")).1 = Ok (u "x=[REDACTED:deepseek_api_key]cdefgh").
Proof. split; vm_compute; reflexivity. Qed.
