(* ===== verification/GatewayRelay.v ===== *)
(** * The gateway's tool-egress relay

    [gateway/egress_relay.py], with the parts of [egress/allowlist.py] and
    [egress/relay_protocol.py] it uses: one connection of the core, one request frame, the
    gates, the request to the outside world, and one reply frame.  It is a program over the
    streams, the resolver, the client and the audit sink.  [urlsplit], [ipaddress], the parse
    of a frame, and [str.lower] and [str.strip] beyond ASCII are parameters; a deadline that
    [asyncio.wait_for] lets expire is an answer of the call it cuts off.  Metrics and log
    lines are left out. *)
From stdpp Require Import pretty.
From S2P Require Import Prelude Substitution Programs SecretBroker OutboundDlp.
#[local] Open Scope Z_scope.

Inductive EgressRelayDenyReason :=
| DESTINATION_NOT_ALLOWLISTED | LITERAL_IP_TARGET | RESOLVED_IP_NOT_GLOBAL | DLP_REDACTED | CANARY_TRIPPED | RESPONSE_TOO_LARGE | MALFORMED_ENVELOPE | UPSTREAM_REDIRECT_REFUSED.
#[export] Instance EgressRelayDenyReason_eq_dec : EqDecision EgressRelayDenyReason.
Proof. solve_decision. Defined.
Definition headers_t : Type := list (text * text).
Record EgressRequest := { method : text; url : text; headers : headers_t; body : text; egress_id : text }.
Inductive EgressRelayReply := Forwarded (status : Z) (headers : headers_t) (body : text) | Denied (reason : EgressRelayDenyReason).
Definition EgressDestination : Type := text * Z.
(** [None] is the destination that was not read. *)
Inductive audit_row :=
| ForwardedRow (destination : EgressDestination) (method : text) (status : Z) (egress_id : text) (dlp_redactions : Z)
| DeniedRow (destination : option EgressDestination) (reason : EgressRelayDenyReason)
| CanaryRow (destination : option EgressDestination) (reason : EgressRelayDenyReason).
Record SplitResult := { scheme : text; hostname : option text; port : option (option Z); path : text; query : text; fragment : text }.  (* port: None raises ValueError *)
Record outgoing := { o_method : text; o_url : text; o_headers : headers_t; o_content : text; sni_hostname : text }.
Record response := { status_code : Z; is_redirect : bool; response_headers : headers_t }.
Inductive exn := FrameTooLargeError | IncompleteReadError | TimeoutError | ValidationError | UnicodeEncodeError | TransportError | OSError | CancelledError | Expired | OutOfFuel | OtherException (name : string).
Inductive op : Type -> Type :=
| ReadExactly (n : Z) : op text | Resolve (host : text) : op text | OpenClient : op unit | Send (request : outgoing) : op response | NextChunk : op (option text)
| CloseResponse : op unit | CloseClient : op unit | Audit (row : audit_row) : op unit | WriteFrame (reply : EgressRelayReply) : op unit | CloseWriter : op unit.
#[local] Abbreviation prog := (program exn op).
#[local] Abbreviation event := (entry exn op).
#[local] Open Scope prog_scope.

Definition _DEFAULT_TOOL_PORT : Z := 443.
Definition _ALLOWED_METHODS : list text := [u "GET"].
Definition _REQUEST_FRAME_CAP : Z := 4 * 1024 * 1024.
Definition _LENGTH_PREFIX_BYTES : Z := 4.
Definition _STRIP_HEADERS : list text := u <$> ["connection"; "proxy-connection"; "keep-alive"; "te"; "trailer"; "transfer-encoding"; "upgrade"; "proxy-authorization"; "proxy-authenticate"; "host"; "content-length"]%string.
Definition from_bytes_big (l : text) : Z := fold_left (fun n b => n * 256 + b) l 0.
Fixpoint split (sep : Z) (s : text) : list text :=
  match s with
  | [] => [[]]
  | c :: s => if c =? sep then [] :: split sep s else match split sep s with w :: l => (c :: w) :: l | [] => [[c]] end
  end.
(** [host, sep, tail = s.rpartition(":")]: [None] when there is no separator. *)
Fixpoint rpartition (sep : Z) (s : text) : option (text * text) :=
  match s with
  | [] => None
  | c :: s => match rpartition sep s with Some (h, t) => Some (c :: h, t) | None => if c =? sep then Some ([], s) else None end
  end.
Definition is_digit (c : Z) : bool := between 48 57 c.
Definition int_of (s : text) : Z := fold_left (fun n c => n * 10 + (c - 48)) s 0.
Definition isdigit (s : text) : bool := negb (bool_decide (s = [])) && forallb is_digit s.

Section relay.
Variables (lower strip : text -> text) (urlsplit : text -> option SplitResult) (urlunsplit : text -> text -> text -> text -> text -> text).
Variables (is_ip : text -> bool) (is_global : text -> option bool) (model_validate_json : text -> option EgressRequest).
Variables (unicode_word : Z -> bool) (same_letter : Z -> Z).

(** ** The allowlist *)
Definition valid_port (p : Z) : bool := between 1 65535 p.
Definition allowlist_entry (item : text) : option (list EgressDestination) :=
  let entry := strip item in
  if bool_decide (entry = []) then Some [] else
  match rpartition 58 entry with
  | None => Some [(lower entry, _DEFAULT_TOOL_PORT)]
  | Some (host, port_str) =>
      if negb (isdigit port_str) then None else
      if negb (valid_port (int_of port_str)) then None else
      if bool_decide (host = []) then None else Some [(lower host, int_of port_str)]
  end.
(** [None] is the [ValueError] that stops the boot. *)
Definition resolve_tool_egress_allowlist (raw : option text) : option (list EgressDestination) :=
  match raw with None | Some [] => Some [] | Some raw => @concat _ <$> mapM allowlist_entry (split 44 raw) end.
Definition host_port_from_url (u : text) : option EgressDestination :=
  parts ← urlsplit u;
  host ← hostname parts;
  p ← port parts;
  Some (host, default 443 p).
Definition strip_brackets (s : text) : text := let b c := (c =? 91) || (c =? 93) in reverse (dropb b (reverse (dropb b s))).
Definition is_literal_ip (host : text) : bool := is_ip (strip_brackets host).
Definition is_globally_routable (host_or_ip : text) : bool := match is_global (strip_brackets host_or_ip) with Some b => b | None => false end.

(** ** What is sent *)
Definition nominated (h : headers_t) : list text := h ≫= fun x => if bool_decide (lower x.1 = u "connection") then lower ∘ strip <$> filter (fun name => strip name <> []) (split 44 x.2) else [].
Definition _safe_headers (h : headers_t) : headers_t := filter (fun x => lower x.1 ∉ _STRIP_HEADERS ++ nominated h) h.
Definition int_text (n : Z) : text := u (pretty n).
Definition _ip_url (url resolved_ip : text) : text :=
  match urlsplit url with
  | None => []
  | Some parts =>
      let host_for_url := if bool_decide (58 ∈ resolved_ip) then u "[" ++ resolved_ip ++ u "]" else resolved_ip in
      let netloc := match port parts with Some (Some p) => host_for_url ++ u ":" ++ int_text p | _ => host_for_url end in
      urlunsplit (scheme parts) netloc (path parts) (query parts) (fragment parts)
  end.
(** [headers["Host"] = host], where no key is left that lowers to host. *)
Definition build_request (req : EgressRequest) (host resolved_ip : text) : outgoing :=
  {| o_method := method req; o_url := _ip_url (url req) resolved_ip; o_headers := _safe_headers (headers req) ++ [(u "Host", host)]; o_content := body req; sni_hostname := host |}.
Fixpoint join (sep : text) (l : list text) : text := match l with [] => [] | [w] => w | w :: l => w ++ sep ++ join sep l end.
Definition egressing (req : EgressRequest) : list text := body req :: url req :: (snd <$> headers req).
Definition _scannable_egress_text (req : EgressRequest) : text := join [10] (egressing req).
(** [build_gateway_egress_dlp]: no broker, an audit sink that drops its rows. *)
Definition resolve_canary_tokens (raw : text) : list text := filter (fun part => part <> []) (strip <$> split 44 raw).
Definition build_gateway_egress_dlp (raw : text) : OutboundDlp := {| has_broker := false; _canary := Some (resolve_canary_tokens raw) |}.
Definition _drop_dlp_audit : @environment OutboundDlp.exn OutboundDlp.op := fun _ B o =>
  match o in OutboundDlp.op B return result OutboundDlp.exn B with OutboundDlp.Audit _ => Ok tt | RedactKnown t => Ok t end.

Section serving.
Variables (_allowlist : list EgressDestination) (_dlp : OutboundDlp) (_response_byte_cap : Z).
Definition scan_for_outbound (t : text) : result OutboundDlp.exn (text * OutboundDlpScanResult) := (execute _drop_dlp_audit [] (OutboundDlp.scan_for_outbound unicode_word same_letter _dlp t)).2.
Definition wait_for {A} (p : prog A) : prog A := except (fun e => match e with Expired => true | _ => false end) p (fun _ => raise TimeoutError).
Definition read_frame (max_len : Z) : prog text :=
  prefix <~ call (ReadExactly _LENGTH_PREFIX_BYTES);
  let length := from_bytes_big prefix in
  if max_len <? length then raise FrameTooLargeError else call (ReadExactly length).
Definition malformed (e : exn) : bool := match e with FrameTooLargeError | IncompleteReadError | TimeoutError | ValidationError => true | _ => false end.
Definition read_request : prog (option EgressRequest) :=
  except malformed
    (frame <~ wait_for (read_frame _REQUEST_FRAME_CAP); match model_validate_json frame with Some req => ret (Some req) | None => raise ValidationError end)
    (fun _ => ret None).
Definition _deny (reason : EgressRelayDenyReason) (destination : option EgressDestination) (canary : bool) : prog EgressRelayReply :=
  call (Audit (if canary then CanaryRow destination reason else DeniedRow destination reason)) ;; ret (Denied reason).
Definition _emit (reply : EgressRelayReply) : prog unit := call (WriteFrame reply).
Definition refuse (reason : EgressRelayDenyReason) (destination : option EgressDestination) (canary : bool) : prog unit := reply <~ _deny reason destination canary; _emit reply.
(** [None] is over the cap.  Every chunk has a byte, so that the fuel is enough. *)
Fixpoint bounded_read (fuel : nat) (total : Z) (chunks : text) : prog (option text) :=
  match fuel with
  | O => raise OutOfFuel
  | S fuel =>
      chunk <~ call NextChunk;
      match chunk with
      | None => ret (Some chunks)
      | Some chunk => if _response_byte_cap <? total + Zlen chunk then ret None else bounded_read fuel (total + Zlen chunk) (chunks ++ chunk)
      end
  end.
Definition _bounded_read : prog (option text) := bounded_read (Z.to_nat _response_byte_cap + 2) 0 [].
Definition _forwarded (req : EgressRequest) (r : response) (content : text) (destination : EgressDestination) (dlp_redactions : Z) : prog EgressRelayReply :=
  call (Audit (ForwardedRow destination (method req) (status_code r) (egress_id req) dlp_redactions)) ;;
  ret (Forwarded (status_code r) (_safe_headers (response_headers r)) content).
Definition _forward (req : EgressRequest) (destination : EgressDestination) (resolved_ip : text) (dlp_redactions : Z) : prog EgressRelayReply :=
  call OpenClient ;;
  finally
    (r <~ call (Send (build_request req destination.1 resolved_ip));
     finally
       (if is_redirect r then _deny UPSTREAM_REDIRECT_REFUSED (Some destination) false else
        content <~ _bounded_read;
        match content with
        | None => _deny RESPONSE_TOO_LARGE (Some destination) false
        | Some content => _forwarded req r content destination dlp_redactions
        end)
       (call CloseResponse))
    (call CloseClient).
Definition gates (req : EgressRequest) : prog unit :=
  if negb (bool_decide (method req ∈ _ALLOWED_METHODS)) then refuse MALFORMED_ENVELOPE None false else
  match host_port_from_url (url req) with
  | None => refuse MALFORMED_ENVELOPE None false
  | Some destination =>
      if negb (match urlsplit (url req) with Some parts => bool_decide (scheme parts = u "https") | None => false end) then refuse MALFORMED_ENVELOPE (Some destination) false else
      if is_literal_ip destination.1 then refuse LITERAL_IP_TARGET (Some destination) false else
      if negb (bool_decide (destination ∈ _allowlist)) then refuse DESTINATION_NOT_ALLOWLISTED (Some destination) false else
      resolved_ip <~ call (Resolve destination.1);
      if negb (is_globally_routable resolved_ip) then refuse RESOLVED_IP_NOT_GLOBAL (Some destination) false else
      let scannable := _scannable_egress_text req in
      match scan_for_outbound scannable with
      | Err (OutboundCanaryTripped _) => refuse CANARY_TRIPPED (Some destination) true
      | Err _ => raise UnicodeEncodeError
      | Ok (redacted_text, scan_result) =>
          if negb (bool_decide (redacted_text = scannable)) then refuse DLP_REDACTED (Some destination) false else
          reply <~ wait_for (_forward req destination resolved_ip (dlp_redactions_count scan_result));
          _emit reply
      end
  end.
Definition io_failure (e : exn) : bool := match e with TransportError | TimeoutError | OSError => true | _ => false end.
Definition _serve_connection : prog unit :=
  finally
    (except io_failure
       (req <~ read_request;
        match req with
        | None => refuse MALFORMED_ENVELOPE None false
        | Some req => gates req
        end)
       (fun _ => ret tt))
    (except (fun e => match e with OSError => true | _ => false end) (call CloseWriter) (fun _ => ret tt)).

(** ** What a clean scan means, field by field *)
Lemma join_field (l : list text) w : w ∈ l -> exists a b, join [10] l = a ++ w ++ b /\ (a = [] \/ last a = Some 10) /\ (b = [] \/ head b = Some 10).
Proof.
  induction l as [|v l IH]; intros Hin; [by apply not_elem_of_nil in Hin|]. destruct l as [|v' l]; [apply list_elem_of_singleton in Hin as ->; exists [], []; rewrite app_nil_r; auto|].
  change (join [10] (v :: v' :: l)) with (v ++ [10] ++ join [10] (v' :: l)). apply elem_of_cons in Hin as [->|Hin]; [exists [], ([10] ++ join [10] (v' :: l)); auto|].
  destruct (IH Hin) as (a&b&->&Ha&Hb). exists (v ++ [10] ++ a), b. rewrite <- !app_assoc. split; [done|]. split; [right|done]. rewrite !last_app. destruct Ha as [->| ->]; [done|done].
Qed.
Lemma scan_raises_refused t res : has_broker _dlp = false -> scan_for_outbound t = Ok (t, res) -> (forall a k n, t = a ++ k -> ~ shape unicode_word (last a) k n) /\ canary same_letter _dlp t = None /\ dlp_redactions_count res = 0.

Proof.
  intros Hb H. unfold scan_for_outbound, OutboundDlp.scan_for_outbound, bind in H. rewrite execute_seq, scan_rest, Hb in H. destruct (rest_wp unicode_word same_letter _dlp t t _drop_dlp_audit []) as (m&_&Hw).
  destruct (execute _drop_dlp_audit [] (rest _ _ _ _ _)) as [l [[o stages]|e]]; cbn in H, Hw; [|discriminate H]. injection H as -> <-. destruct Hw as (Ho&Hs&Hc&_). split; [|split; [exact Hc|]].
  - destruct (shapes_change unicode_word t) as [[K _]|C]; [by apply shapes_kept|]. rewrite <- Ho in C. exfalso. by apply (changes_not_undone t t t C); [left|].
  - subst stages. unfold stages_of. rewrite <- Ho. by rewrite !bool_decide_true.
Qed.
Lemma shape_within prev (a b k : text) n : shape unicode_word prev k n -> (b = [] \/ head b = Some 10) -> shape unicode_word prev (k ++ b) n.
Proof.
  intros (span&k'&->&->&_&_&_&_&Hk&Hany)%shape_span Hb. rewrite <- app_assoc. apply Hany. destruct k' as [|c k']; [|done]. destruct b as [|c b]; [done|]. destruct Hb as [|[= ->]]; done.
Qed.
Lemma shape_prev prev prev' k n : shape unicode_word prev k n -> word_at unicode_word prev' = false -> shape unicode_word prev' k n.
Proof. intros [_ H] Hp. by split. Qed.
Lemma field_shapes (l : list text) w : w ∈ l -> (forall a k n, join [10] l = a ++ k -> ~ shape unicode_word (last a) k n) -> forall a k n, w = a ++ k -> ~ shape unicode_word (last a) k n.
Proof.
  intros Hin H a k n -> Hs. destruct (join_field _ _ Hin) as (x&y&E&Hx&Hy). apply (H (x ++ a) (k ++ y) n); [by rewrite E, <- !app_assoc|]. apply shape_within; [exact []| |done]. eapply shape_prev; [exact Hs|].
  rewrite last_app. destruct (last a) as [c|] eqn:El; [by destruct Hs as [? _]|]. destruct Hx as [->| ->]; done.
Qed.
Lemma field_canaries (l : list text) w tokens token : w ∈ l -> first_match same_letter tokens (join [10] l) = None -> token ∈ tokens -> ~ occurs (same_letter <$> token) (same_letter <$> w).
Proof.
  intros Hin H Ht (p&q&E). destruct (join_field _ _ Hin) as (x&y&Ej&_). pose proof (find_none _ _ H token (proj1 (list_elem_of_In _ _) Ht)) as Hn. cbn beta in Hn. apply not_true_iff_false in Hn. apply Hn, contains_spec.
  exists ((same_letter <$> x) ++ p), (q ++ (same_letter <$> y)). rewrite Ej, !fmap_app, E. by rewrite <- !app_assoc.
Qed.

(** ** The log of a connection *)
Definition sent (x : event) : option outgoing := match x with @Ev _ _ B o _ => match o with Send q => Some q | _ => None end end.
Definition row_of (x : event) : option audit_row := match x with @Ev _ _ B o _ => match o with Audit row => Some row | _ => None end end.
Definition reply_of (x : event) : option EgressRelayReply := match x with @Ev _ _ B o _ => match o with WriteFrame r => Some r | _ => None end end.
Definition opened (x : event) : option unit := match x with @Ev _ _ B o r => match o in op B return result exn B -> option unit with OpenClient => fun r => match r with Ok _ => Some tt | Err _ => None end | _ => fun _ => None end r end.
Definition closed (x : event) : option unit := match x with @Ev _ _ B o _ => match o with CloseClient => Some tt | _ => None end end.
Definition answered (x : event) : option unit := match x with @Ev _ _ B o r => match o in op B return result exn B -> option unit with Send _ => fun r => match r with Ok _ => Some tt | Err _ => None end | _ => fun _ => None end r end.
Definition ended (x : event) : option unit := match x with @Ev _ _ B o _ => match o with CloseResponse => Some tt | _ => None end end.
Definition writer_closed (x : event) : option unit := match x with @Ev _ _ B o _ => match o with CloseWriter => Some tt | _ => None end end.
Definition sends (m : list event) : list outgoing := omap sent m.
Definition rows (m : list event) : list audit_row := omap row_of m.
Definition replies (m : list event) : list EgressRelayReply := omap reply_of m.
Definition balanced (m : list event) : Prop := omap opened m = omap closed m /\ omap answered m = omap ended m /\ omap writer_closed m = [].
(** A row and the reply it stands for. *)
Definition of_reply (row : audit_row) (reply : EgressRelayReply) : Prop :=
  match row, reply with
  | ForwardedRow _ _ status _ n, Forwarded status' _ _ => status = status' /\ n = 0
  | DeniedRow _ reason, Denied reason' => reason = reason' /\ reason <> CANARY_TRIPPED
  | CanaryRow _ reason, Denied reason' => reason = reason' /\ reason = CANARY_TRIPPED
  | _, _ => False
  end.
Definition empty_chunk : event := Ev NextChunk (Ok (Some [])).
Definition blame (m : list event) (e : exn) : Prop := raised m e \/ e = UnicodeEncodeError \/ e = TimeoutError /\ raised m Expired \/ e = OutOfFuel /\ empty_chunk ∈ m.
Lemma blame_more a m b e : blame m e -> blame (a ++ m ++ b) e.
Proof. intros [H|[->|[[-> H]|[-> H]]]]; [left; by apply raised_more|right; by left|right; right; left; split; [done|by apply raised_more]|right; right; right; split; [done|set_solver]]. Qed.
Lemma blame_l m b e : blame m e -> blame (m ++ b) e. Proof. apply (blame_more []). Qed.
Lemma blame_r a m e : blame m e -> blame (a ++ m) e. Proof. intros H. rewrite <- (app_nil_r m). by apply blame_more. Qed.
Lemma raised_here {B} (o : op B) (e : exn) m : raised (Ev o (Err e) :: m) e.
Proof. exists B, o. constructor. Qed.
(** Nothing but reads. *)
Definition silent (m : list event) : Prop := sends m = [] /\ rows m = [] /\ replies m = [] /\ balanced m.
Lemma silent_nil : silent []. Proof. done. Qed.
Lemma silent_app a b : silent a -> silent b -> silent (a ++ b).
Proof. intros (A1&A2&A3&A4&A5&A6) (B1&B2&B3&B4&B5&B6). unfold silent, balanced, sends, rows, replies in *. rewrite !omap_app, A1, A2, A3, A4, A5, A6, B1, B2, B3, B4, B5, B6. done. Qed.
Lemma silent_read n r : silent [Ev (ReadExactly n) r]. Proof. done. Qed.
Lemma read_frame_wp : wp (read_frame _REQUEST_FRAME_CAP) (fun m r => silent m /\ match r with Ok frame => exists n, n <= _REQUEST_FRAME_CAP /\ Ev (ReadExactly n) (Ok frame) ∈ m | Err e => raised m e \/ e = FrameTooLargeError end).
Proof.
  apply wp_bind, wp_call. intros [prefix|e]; [|split; [done|left; apply raised_here]]. cbv zeta. destruct (Z.ltb_spec _REQUEST_FRAME_CAP (from_bytes_big prefix)); [apply wp_return; split; [done|by right]|].
  apply wp_call. intros [frame|e]; (split; [done|]); [exists (from_bytes_big prefix); split; [done|set_solver]|left; apply (raised_more [_] [_] []), raised_here].
Qed.
Lemma read_wp : wp read_request (fun m r => silent m /\ match r with Ok (Some req) => exists n frame, n <= _REQUEST_FRAME_CAP /\ Ev (ReadExactly n) (Ok frame) ∈ m /\ model_validate_json frame = Some req | Ok None => True | Err e => raised m e end).
Proof.
  unfold read_request. apply wp_except, wp_bind. unfold wait_for. apply wp_except. eapply wp_mono; [apply read_frame_wp|]. intros m [frame|e] [Hm H].
  - destruct H as (n&Hn&Hin). destruct (model_validate_json frame) as [req|] eqn:E; apply wp_return; cbn; rewrite ?app_nil_r; [split; [done|by exists n, frame]|apply wp_return; by rewrite app_nil_r].
  - destruct H as [H| ->]; [|cbn; apply wp_return; by rewrite app_nil_r]. destruct e; try (split; [exact Hm|exact H]); apply wp_return; rewrite ?app_nil_r; try (split; [exact Hm|done]). cbn. apply wp_return. by rewrite app_nil_r.
Qed.
Definition refused (reason : EgressRelayDenyReason) (row : audit_row) (m : list event) (r : result exn unit) : Prop :=
  (exists x, m = [Ev (Audit row) (Ok tt); Ev (WriteFrame (Denied reason)) x] /\ r = x) \/ exists e, m = [Ev (Audit row) (Err e)] /\ r = Err e.
Lemma deny_refuse_wp reason destination canary : wp (refuse reason destination canary) (refused reason (if canary then CanaryRow destination reason else DeniedRow destination reason)).
Proof.
  unfold refuse, _deny, _emit. apply wp_bind, wp_bind, wp_call. intros [[]|e]; [|right; by exists e]. apply wp_return, wp_call. intros r. left. exists r. by destruct canary.
Qed.
Lemma raised_r (a m : list event) (e : exn) : raised m e -> raised (a ++ m) e.
Proof. intros H. rewrite <- (app_nil_r m). by apply raised_more. Qed.
Lemma units (l k : list unit) : l = k -> () :: l = k ++ [()].
Proof. intros <-. induction l as [|[] l IH]; [done|]. cbn. by rewrite <- IH. Qed.
Lemma bounded_read_wp fuel total chunks : total = Zlen chunks -> wp (bounded_read fuel total chunks) (fun m r => silent m /\
  match r with Ok (Some c) => Zlen c <= Z.max total _response_byte_cap | Ok None => True | Err e => raised m e \/ e = OutOfFuel /\ (empty_chunk ∈ m \/ Z.of_nat fuel < Z.max 0 (_response_byte_cap - total) + 1) end).
Proof.
  revert total chunks. induction fuel as [|fuel IH]; intros total chunks Ht; [apply wp_return; split; [done|right; split; [done|right; lia]]|].
  cbn [bounded_read]. apply wp_bind, wp_call. intros [[chunk|]|e]; [|apply wp_return; split; [done|lia]|split; [done|left; apply raised_here]].
  destruct (Z.ltb_spec _response_byte_cap (total + Zlen chunk)) as [Hc|Hc]; [by apply wp_return|]. eapply wp_mono; [apply IH; rewrite Zlen_app; lia|]. intros m r [Hm Hr]. split; [by apply (silent_app [_])|].
  pose proof (Zlen_nonneg chunk). destruct r as [[c|]|e]; [lia|done|]. destruct Hr as [Hr|[-> Hr]]; [left; by apply (raised_r [_])|right; split; [done|]]. destruct Hr as [Hr|Hr]; [left; by right|].
  destruct chunk as [|c chunk]; [left; constructor|right]. rewrite Zlen_cons in *. pose proof (Zlen_nonneg chunk). lia.
Qed.
(** The row, and its append returned. *)
Definition row_written (row : audit_row) (m : list event) : Prop := rows m = [row] /\ Ev (Audit row) (Ok tt) ∈ m.
Lemma row_written_around a row m b : rows a = [] -> rows b = [] -> row_written row m -> row_written row (a ++ m ++ b).
Proof. unfold row_written, rows. intros Ha Hb [H1 H2]. rewrite !omap_app, Ha, H1, Hb. split; [done|set_solver]. Qed.
(** A reply decided on, with its row. *)
Definition decided (m : list event) (r : result exn EgressRelayReply) : Prop :=
  sends m = [] /\ replies m = [] /\ balanced m /\ match r with Ok reply => exists row, row_written row m /\ of_reply row reply | Err e => (length (rows m) <= 1)%nat /\ blame m e end.
Lemma deny_wp reason destination : reason <> CANARY_TRIPPED -> wp (_deny reason destination false) decided.
Proof.
  intros Hr. apply wp_bind, wp_call. intros [[]|e]; [apply wp_return|]; split_and!; try done; [eexists; split; [split; [done|constructor]|done]|left; apply raised_here].
Qed.
Lemma decided_after m0 m r : silent m0 -> decided m r -> decided (m0 ++ m) r.
Proof.
  intros (A1&A2&A3&A4&A5&A6) (B1&B2&(B4&B5&B6)&B7). assert (Hr : rows (m0 ++ m) = rows m) by (unfold rows in *; by rewrite omap_app, A2).
  unfold decided, balanced, row_written in *. rewrite Hr. unfold sends, replies in *. rewrite !omap_app, A1, A3, A4, A5, A6, B1, B2, B4, B5, B6. split_and!; try done.
  destruct r as [reply|e]; [destruct B7 as (row&[B7 B8]&B9); exists row; set_solver|]. destruct B7 as [B7 B8]. split; [done|by apply blame_r].
Qed.
Definition forwarding (q : outgoing) (m : list event) (r : result exn EgressRelayReply) : Prop :=
  balanced m /\ replies m = [] /\ match r with Ok reply => sends m = [q] /\ exists row, row_written row m /\ of_reply row reply | Err e => (sends m = [] \/ sends m = [q]) /\ (length (rows m) <= 1)%nat /\ blame m e end.
Lemma respond_wp req destination r : wp
    (if is_redirect r then _deny UPSTREAM_REDIRECT_REFUSED (Some destination) false else
     content <~ _bounded_read;
     match content with None => _deny RESPONSE_TOO_LARGE (Some destination) false | Some content => _forwarded req r content destination 0 end) decided.
Proof.
  destruct (is_redirect r); [by apply deny_wp|]. apply wp_bind. eapply wp_mono; [by apply bounded_read_wp|]. intros m [[content|]|e] [Hm Hr].
  - apply wp_bind, wp_call. intros [[]|e]; [apply wp_return|]; (apply decided_after; [done|]); split_and!; try done; [eexists; split; [split; [done|constructor]|done]|left; apply raised_here].
  - eapply wp_mono; [by apply deny_wp|]. intros m' r' H. by apply decided_after.
  - destruct Hm as (A1&A2&A3&A4). split_and!; try done; [rewrite A2; cbn; lia|]. destruct Hr as [Hr|[-> [Hr|Hr]]]; [by left|right; right; right; done|lia].
Qed.
Lemma forward_wp req destination ip : wp (_forward req destination ip 0) (forwarding (build_request req destination.1 ip)).
Proof.
  unfold _forward. apply wp_bind, wp_call. intros [[]|e]; [|split_and!; try done; [by left|cbn; lia|left; apply raised_here]].
  apply wp_finally. set (q := build_request req destination.1 ip). assert (Hs : wp (r <~ call (Send q); finally (if is_redirect r then _deny UPSTREAM_REDIRECT_REFUSED (Some destination) false else
      content <~ _bounded_read; match content with None => _deny RESPONSE_TOO_LARGE (Some destination) false | Some content => _forwarded req r content destination 0 end) (call CloseResponse)) (forwarding q)).
  { apply wp_bind, wp_call. intros [r|e]; [|split_and!; try done; [by right|cbn; lia|left; apply raised_here]]. apply wp_finally. eapply wp_mono; [apply respond_wp|]. intros m r' (B1&B2&(B4&B5&B6)&B7).
    apply wp_call. intros x. assert (Hr : rows (Ev (Send q) (Ok r) :: m ++ [Ev CloseResponse x]) = rows m) by (unfold rows; cbn; by rewrite omap_app, app_nil_r).
    cbn [app]. unfold forwarding, balanced, row_written. rewrite Hr. unfold sends, replies in *. cbn. rewrite !omap_app, B1, B2, B4, B6. cbn. rewrite !app_nil_r. split_and!; try done; [by apply units|].
    assert (Hx : match x with Ok _ => True | Err e => raised (Ev (Send q) (Ok r) :: m ++ [Ev CloseResponse x]) e end) by (destruct x; [done|exists unit, CloseResponse; set_solver]).
    destruct x as [[]|e]; [destruct r' as [reply|e]|].
    - split; [done|]. destruct B7 as (row&[B7 B8]&B9). exists row. set_solver.
    - split; [by right|]. destruct B7 as [B7 B8]. split; [done|]. apply (blame_more [_] m [_] e B8).
    - split; [by right|]. split; [destruct r' as [reply|e']; [destruct B7 as (row&[B7 _]&_); rewrite B7; cbn; lia|by destruct B7]|by left]. }
  eapply wp_mono; [exact Hs|]. intros m r ((B4&B5&B6)&B2&B7). apply wp_call. intros x. assert (Hr : rows (Ev OpenClient (Ok tt) :: m ++ [Ev CloseClient x]) = rows m) by (unfold rows; cbn; by rewrite omap_app, app_nil_r).
  cbn [app]. unfold forwarding, balanced, row_written in *. rewrite Hr. unfold sends, replies in *. cbn. rewrite !omap_app, B2, B5, B6. cbn. rewrite !app_nil_r. split_and!; try done; [by apply units|].
  assert (Hx : match x with Ok _ => True | Err e => raised (Ev OpenClient (Ok tt) :: m ++ [Ev CloseClient x]) e end) by (destruct x; [done|exists unit, CloseClient; set_solver]).
  destruct x as [[]|e].
  - destruct r as [reply|e]; [destruct B7 as (B7&row&[B8 B9]&B10); split; [done|]; exists row; set_solver|]. destruct B7 as (B7&B8&B9). split_and!; [done..|]. apply (blame_more [_] m [_] e B9).
  - destruct r as [reply|e']; [destruct B7 as (B7&row&[B8 _]&_)|destruct B7 as (B7&B8&_)]; split_and!; try done; [by right|rewrite B8; cbn; lia|by left|by left].
Qed.
(** No reply, and at most one row; or one reply, as the last thing, and before it one row, which
    was written and is the reply's, and for a forwarded one a request. *)
Definition told (m : list event) : Prop :=
  replies m = [] /\ (length (rows m) <= 1)%nat \/
  exists a reply row x, m = a ++ [Ev (WriteFrame reply) x] /\ replies a = [] /\ row_written row a /\ of_reply row reply /\
    match reply with Forwarded _ _ _ => length (sends a) = 1%nat | Denied _ => True end.
Definition accounted (m : list event) (r : result exn unit) : Prop :=
  balanced m /\ (length (sends m) <= 1)%nat /\
  told m /\
  match r with Ok _ => exists reply, Ev (WriteFrame reply) (Ok tt) ∈ m | Err e => blame m e end.
Lemma refused_accounted reason row m r : refused reason row m r -> of_reply row (Denied reason) -> accounted m r /\ sends m = [].
Proof.
  intros [(x&->&->)|(e&->&->)] Hr.
  - split; [|done]. split_and!; [done|cbn; lia| |destruct x as [[]|e]; [exists (Denied reason); set_solver|left; exists unit, (WriteFrame (Denied reason)); set_solver]].
    right. exists [Ev (Audit row) (Ok tt)], (Denied reason), row, x. split_and!; try done; [split; [done|constructor]].
  - split; [|done]. split_and!; [done|cbn; lia|left; by split; [|cbn; lia]|left; apply raised_here].
Qed.
Lemma refuse_accounted reason destination canary : canary = bool_decide (reason = CANARY_TRIPPED) -> wp (refuse reason destination canary) (fun m r => accounted m r /\ sends m = []).
Proof. intros ->. eapply wp_mono; [apply deny_refuse_wp|]. intros m r H. eapply refused_accounted; [exact H|]. by destruct reason. Qed.
Lemma accounted_after m0 m r : silent m0 -> accounted m r -> accounted (m0 ++ m) r.
Proof.
  intros (A1&A2&A3&A4&A5&A6) ((B4&B5&B6)&B1&B2&B7). assert (Ht : told (m0 ++ m)).
  { destruct B2 as [[B2 B3]|(a&reply&row&x&->&B2&[B3 B8]&B9&B10)]; [left; unfold rows, replies in *; by rewrite !omap_app, A2, A3|].
    right. exists (m0 ++ a), reply, row, x. unfold row_written, sends, rows, replies in *. rewrite app_assoc, !omap_app, A1, A2, A3. split_and!; try done. set_solver. }
  unfold accounted, balanced, sends in *. rewrite !omap_app, A1, A4, A5, A6, B4, B5, B6. split_and!; try done.
  destruct r as [[]|e]; [destruct B7 as [reply B7]; exists reply; set_solver|by apply blame_r].
Qed.
(** What stands behind the request that is sent. *)
Definition cleared (req : EgressRequest) (destination : EgressDestination) (ip : text) : Prop :=
  method req = u "GET" /\ host_port_from_url (url req) = Some destination /\ (exists parts, urlsplit (url req) = Some parts /\ scheme parts = u "https") /\
  is_literal_ip destination.1 = false /\ destination ∈ _allowlist /\ is_globally_routable ip = true /\
  (forall field a k n, field ∈ egressing req -> field = a ++ k -> ~ shape unicode_word (last a) k n) /\
  (forall field tokens token, field ∈ egressing req -> _canary _dlp = Some tokens -> token ∈ tokens -> ~ occurs (same_letter <$> token) (same_letter <$> field)).
Definition behind (req : EgressRequest) (m : list event) : Prop :=
  sends m = [] \/ exists destination ip b, m = Ev (Resolve destination.1) (Ok ip) :: b /\ cleared req destination ip /\ sends b = [build_request req destination.1 ip].
Lemma gates_wp req : has_broker _dlp = false -> wp (gates req) (fun m r => accounted m r /\ behind req m).
Proof.
  intros Hb. assert (Hno : forall reason destination canary, canary = bool_decide (reason = CANARY_TRIPPED) -> wp (refuse reason destination canary) (fun m r => accounted m r /\ behind req m)).
  { intros reason destination canary Hc. eapply wp_mono; [by apply refuse_accounted|]. intros m r [H1 H2]. split; [exact H1|by left]. }
  unfold gates. case_bool_decide as Hm; cbn [negb]; [|by apply Hno]. destruct (host_port_from_url (url req)) as [destination|] eqn:Eh; [|by apply Hno].
  destruct (match urlsplit (url req) with Some parts => bool_decide (scheme parts = u "https") | None => false end) eqn:Es; cbn [negb]; [|by apply Hno]. destruct (is_literal_ip destination.1) eqn:El; [by apply Hno|].
  case_bool_decide as Ha; cbn [negb]; [|by apply Hno]. apply wp_bind, wp_call. intros [ip|e]; [|split; [split_and!; [done|cbn; lia|left; by split; [|cbn; lia]|left; apply raised_here]|by left]].
  assert (Hs0 : silent [Ev (Resolve destination.1) (Ok ip)]) by done. assert (Hafter : forall m r, accounted m r /\ sends m = [] -> accounted ([Ev (Resolve destination.1) (Ok ip)] ++ m) r /\ behind req ([Ev (Resolve destination.1) (Ok ip)] ++ m)).
  { intros m r [H1 H2]. split; [by apply accounted_after|left; exact H2]. }
  destruct (is_globally_routable ip) eqn:Eg; cbn [negb]; [|eapply wp_mono; [by apply refuse_accounted|exact Hafter]].
  destruct (scan_for_outbound (_scannable_egress_text req)) as [[redacted res]|e] eqn:Ec.
  2: { destruct e; try (apply wp_return; apply Hafter; split; [split_and!; [done|cbn; lia|left; by split; [|cbn; lia]|right; by left]|done]). eapply wp_mono; [by apply refuse_accounted|exact Hafter]. }
  case_bool_decide as Hr; cbn [negb]; [subst redacted|eapply wp_mono; [by apply refuse_accounted|exact Hafter]]. destruct (scan_raises_refused _ _ Hb Ec) as (C1&C2&->).
  assert (Hcleared : cleared req destination ip).
  { split_and!; try done; [by apply list_elem_of_singleton in Hm|destruct (urlsplit (url req)) as [parts|]; [exists parts; split; [done|by apply bool_decide_eq_true in Es]|discriminate Es]| |].
    - intros field a k n Hf. by apply (field_shapes (egressing req)).
    - intros field tokens token Hf Ht. apply (field_canaries (egressing req)); [done|]. unfold canary in C2. by rewrite Ht in C2. }
  set (q := build_request req destination.1 ip). assert (Hbehind : forall b, sends b = [] \/ sends b = [q] -> behind req ([Ev (Resolve destination.1) (Ok ip)] ++ b)) by (intros b [H|H]; [by left|right; by exists destination, ip, b]).
  assert (Hafter' : forall m r, accounted m r -> sends m = [] \/ sends m = [q] -> accounted ([Ev (Resolve destination.1) (Ok ip)] ++ m) r /\ behind req ([Ev (Resolve destination.1) (Ok ip)] ++ m)) by (intros m r H1 H2; split; [by apply accounted_after|by apply Hbehind]).
  apply wp_bind. unfold wait_for. apply wp_except. eapply wp_mono; [apply forward_wp|]. fold q. intros m r (Hbal&Hrep&Hr). destruct r as [reply|e].
  - destruct Hr as (Hsend&row&Hrow&Hof). apply wp_call. intros x. apply Hafter'; [|unfold sends in *; rewrite omap_app, Hsend; by right]. assert (Ht : told (m ++ [Ev (WriteFrame reply) x])).
    { right. exists m, reply, row, x. split_and!; try done. destruct reply; [by rewrite Hsend|done]. }
    unfold accounted, balanced, sends in *. destruct Hbal as (B4&B5&B6). rewrite !omap_app, Hsend, B4, B5, B6. cbn. rewrite !app_nil_r.
    split_and!; try done. destruct x as [[]|e]; [exists reply; set_solver|left; exists unit, (WriteFrame reply); set_solver].
  - destruct Hr as (Hsend&Hrow&Hbl). assert (Hacc : forall e', blame m e' -> accounted m (Err e')).
    { intros e' He. split_and!; [done|destruct Hsend as [->| ->]; cbn; lia|by left|done]. }
    destruct e; try (apply Hafter'; [by apply Hacc|exact Hsend]). apply wp_return. rewrite app_nil_r. apply Hafter'; [|exact Hsend]. apply Hacc. right. right. left. split; [done|]. destruct Hbl as [Hbl|[[=]|[[[=] _]|[[=] _]]]]. exact Hbl.
Qed.
Definition read_behind (m : list event) : Prop :=
  sends m = [] \/ exists req destination ip n frame a b, m = a ++ Ev (Resolve destination.1) (Ok ip) :: b /\ n <= _REQUEST_FRAME_CAP /\ Ev (ReadExactly n) (Ok frame) ∈ a /\ model_validate_json frame = Some req /\
    cleared req destination ip /\ sends a = [] /\ sends b = [build_request req destination.1 ip].
Lemma connection_wp : has_broker _dlp = false -> wp (req <~ read_request; match req with None => refuse MALFORMED_ENVELOPE None false | Some req => gates req end) (fun m r => accounted m r /\ read_behind m).
Proof.
  intros Hb. apply wp_bind. eapply wp_mono; [apply read_wp|]. intros m [[req|]|e] [Hm Hr].
  - destruct Hr as (n&frame&Hn&Hin&Hp). eapply wp_mono; [by apply gates_wp|]. intros m' r [H1 H2]. split; [by apply accounted_after|]. destruct Hm as (Hs&_). destruct H2 as [H2|(destination&ip&b&->&Hc&H2)].
    + left. unfold sends in *. by rewrite omap_app, Hs, H2.
    + right. exists req, destination, ip, n, frame, m, b. done.
  - eapply wp_mono; [by apply refuse_accounted|]. intros m' r [H1 H2]. split; [by apply accounted_after|]. left. destruct Hm as (Hs&_). unfold sends in *. by rewrite omap_app, Hs, H2.
  - destruct Hm as (A1&A2&A3&A4). split; [|by left]. split_and!; [done|by rewrite A1; cbn; lia|left; rewrite A2; by split; [|cbn; lia]|by left].
Qed.
(** What becomes of the outcome of a connection when its writer is closed. *)
Definition ends_as (x : result exn unit) (c : result exn unit) : result exn unit :=
  match c with
  | Err e => match e with OSError => match x with Err e => if io_failure e then Ok tt else Err e | Ok _ => Ok tt end | _ => Err e end
  | Ok _ => match x with Err e => if io_failure e then Ok tt else Err e | Ok _ => Ok tt end
  end.
Definition connection (l : list event) (r : result exn unit) : Prop := exists m x c, l = m ++ [Ev CloseWriter c] /\ r = ends_as x c /\ accounted m x /\ read_behind m.
Lemma serve_wp : has_broker _dlp = false -> wp _serve_connection connection.
Proof.
  intros Hb. unfold _serve_connection. apply wp_finally, wp_except. eapply wp_mono; [by apply connection_wp|]. intros m x [H1 H2].
  assert (Hc : forall y, y = match x with Err e => if io_failure e then Ok tt else Err e | Ok _ => Ok tt end ->
    wp (except (fun e => match e with OSError => true | _ => false end) (call CloseWriter) (fun _ => ret tt)) (fun m' z => connection (m ++ m') (match z with Ok _ => y | Err e => Err e end))).
  { intros y ->. apply wp_except, wp_call. intros [[]|e]; [exists m, x, (Ok tt); done|]. destruct e; try (exists m, x; eexists; split_and!; done). apply wp_return. rewrite app_nil_r. exists m, x, (Err OSError). done. }
  destruct x as [[]|e]; [by apply Hc|]. destruct (io_failure e) eqn:Ee.
  - apply wp_return. rewrite app_nil_r. by apply Hc.
  - by apply Hc. 
Qed.
End serving.

(** C24: whatever the core sends, the resolver, the server and every other party answer, a
    connection sends at most one request, and only after it read one frame within the cap that
    parses to a GET of an https URL whose host is no literal address and is allowlisted with
    its port; after the host resolved to a globally routable address; and with no canary and
    no key shape in the body, the URL or the value of any header.  The request goes to that
    address under the name of the host, with the body as it came, and with the headers that
    are neither hop-by-hop nor nominated by a Connection header, and the host's. *)
Theorem requests_leave_only_behind_every_gate allowlist canaries cap env :
  let dlp := build_gateway_egress_dlp canaries in let '(l, r) := execute env [] (_serve_connection allowlist dlp cap) in
  sends l = [] \/ exists req destination ip n frame a b, l = a ++ Ev (Resolve destination.1) (Ok ip) :: b /\ n <= _REQUEST_FRAME_CAP /\ Ev (ReadExactly n) (Ok frame) ∈ a /\ model_validate_json frame = Some req /\
    method req = u "GET" /\ host_port_from_url (url req) = Some destination /\ (exists parts, urlsplit (url req) = Some parts /\ scheme parts = u "https") /\
    is_literal_ip destination.1 = false /\ destination ∈ allowlist /\ is_globally_routable ip = true /\
    (forall field a k n, field ∈ body req :: url req :: (snd <$> headers req) -> field = a ++ k -> ~ shape unicode_word (last a) k n) /\
    (forall field token, field ∈ body req :: url req :: (snd <$> headers req) -> token ∈ resolve_canary_tokens canaries -> ~ occurs (same_letter <$> token) (same_letter <$> field)) /\
    sends a = [] /\ exists q, sends b = [q] /\ o_method q = method req /\ o_url q = _ip_url (url req) ip /\ o_content q = body req /\ sni_hostname q = destination.1 /\ (u "Host", destination.1) ∈ o_headers q /\
      forall k v, (k, v) ∈ o_headers q -> (k, v) = (u "Host", destination.1) \/ (k, v) ∈ headers req /\ lower k ∉ _STRIP_HEADERS ++ nominated (headers req).
Proof.
  cbv zeta. destruct (serve_wp allowlist (build_gateway_egress_dlp canaries) cap eq_refl env []) as (m&E&H). destruct (execute _ _ _) as [l r]. cbn in E, H. subst l. destruct H as (m0&x&c&->&_&_&H). destruct H as [H|(req&destination&ip&n&frame&a&b&->&Hn&Hin&Hp&Hc&Ha&Hb)].
  - left. unfold sends in *. by rewrite omap_app, H.
  - right. destruct Hc as (C1&C2&C3&C4&C5&C6&C7&C8). exists req, destination, ip, n, frame, a, (b ++ [Ev CloseWriter c]). rewrite <- app_assoc. split_and!; try done.
    + intros field token Hf Ht. by apply (C8 field (resolve_canary_tokens canaries)).
    + exists (build_request req destination.1 ip). split_and!; try done; [unfold sends in *; by rewrite omap_app, Hb|apply elem_of_app; right; constructor|].
      intros k v [Hk|Hk%list_elem_of_singleton]%elem_of_app; [right|by left]. apply list_elem_of_filter in Hk as [? ?]. done.
Qed.
(** C25: a connection asks to close its writer once, as the last thing it does, and every client
    and every response it got open it asks to close.  It writes no reply, and asks for one
    row at most; or it writes one reply, as the last thing before it closes, and asked for
    exactly one row before, which was written: a forwarded reply has the row of its status,
    with no redaction, and one request was sent; a refusal has the row of its reason, and that
    of a canary is its own.  It ends quietly if the reply was delivered, or if a transport
    failed or the deadline expired; any other exception is one that a collaborator raised, or
    a URL that UTF-8 cannot encode, or a body that goes on without bytes. *)
Theorem every_connection_is_accounted_for allowlist canaries cap env :
  let '(l, r) := execute env [] (_serve_connection allowlist (build_gateway_egress_dlp canaries) cap) in
  exists m x c, l = m ++ [Ev CloseWriter c] /\ omap writer_closed m = [] /\ omap opened m = omap closed m /\ omap answered m = omap ended m /\
    (replies m = [] /\ (length (rows m) <= 1)%nat \/
     exists a reply row y, m = a ++ [Ev (WriteFrame reply) y] /\ replies a = [] /\ rows a = [row] /\ Ev (Audit row) (Ok tt) ∈ a /\ of_reply row reply /\
       match reply with Forwarded _ _ _ => length (sends a) = 1%nat | Denied _ => True end) /\
    match x with Ok _ => exists reply, Ev (WriteFrame reply) (Ok tt) ∈ m | Err e => blame m e end /\ r = ends_as x c.
Proof.
  destruct (serve_wp allowlist (build_gateway_egress_dlp canaries) cap eq_refl env []) as (m&E&H). destruct (execute _ _ _) as [l r]. cbn in E, H. subst l. destruct H as (m0&x&c&->&->&((B1&B2&B3)&_&H1&H2)&_).
  exists m0, x, c. split_and!; try done. destruct H1 as [H1|(a&reply&row&y&->&H3&[H4 H5]&H6&H7)]; [by left|right]. by exists a, reply, row, y.
Qed.
End relay.
