(* ===== verification/AsyncLock.v ===== *)
(** * asyncio.Lock

    The mutex of the standard library that the per-key registries of the program are made
    of: a flag and a queue of futures. [lock_acquire] is the part of [Lock.acquire] before
    its only await, [lock_resume] the part after it, run by a task whose future is done or
    cancelled; the queue is served in its order, and the flag is set by the task that
    resumes, not by the one that releases. The laws say that an owner is alone and that a
    lock nobody owns has a first waiter that can run. *)
From stdpp Require Import base list option.
From S2P Require Import Prelude.

(** The future a task waits on. *)
Inductive fut := Pending | Woken | Dead.
#[export] Instance fut_eq_dec : EqDecision fut. Proof. solve_decision. Defined.

Record Lock := { locked : bool; waiters : list (nat * fut) }.

Definition new_lock : Lock := {| locked := false; waiters := [] |}.

(** [_wake_up_first]: a future that is done already is left alone. *)
Definition wake_up_first (l : Lock) : Lock :=
  match waiters l with
  | (t, Pending) :: ws => {| locked := locked l; waiters := (t, Woken) :: ws |}
  | _ => l
  end.

(** [acquire] up to its await: [true] is the return without waiting. *)
Definition lock_acquire (t : nat) (l : Lock) : bool * Lock :=
  if negb (locked l) && forallb (fun w => bool_decide (w.2 = Dead)) (waiters l) then (true, {| locked := true; waiters := waiters l |})
  else (false, {| locked := locked l; waiters := waiters l ++ [(t, Pending)] |}).

(** The future of a waiting task. *)
Definition lock_future (t : nat) (l : Lock) : option fut := dict_get t (waiters l).

(** [Task.cancel] of a waiting task: its future is cancelled unless it is done. *)
Definition lock_cancel (t : nat) (l : Lock) : Lock :=
  match lock_future t l with
  | Some Pending => {| locked := locked l; waiters := dict_set t Dead (waiters l) |}
  | _ => l
  end.

(** [acquire] after its await, which [cancelled] says to have raised. *)
Definition lock_resume (t : nat) (cancelled : bool) (l : Lock) : Lock :=
  let l := {| locked := locked l; waiters := dict_del t (waiters l) |} in
  if cancelled then (if locked l then l else wake_up_first l) else {| locked := true; waiters := waiters l |}.

(** [release]; releasing a lock that is not acquired raises. *)
Definition lock_release (l : Lock) : option Lock :=
  if locked l then Some (wake_up_first {| locked := false; waiters := waiters l |}) else None.

(** ** What its users rely on *)

(** [o] is the owner; nobody else is awake, and a lock without an owner has woken its first
    waiter or found it cancelled. *)
Record lock_ok (o : option nat) (l : Lock) : Prop := {
  ok_locked : locked l = bool_decide (is_Some o);
  ok_nodup : NoDup (dict_keys (waiters l));
  ok_owner t : o = Some t -> t ∉ dict_keys (waiters l);
  ok_woken t : lock_future t l = Some Woken -> o = None /\ fst <$> head (waiters l) = Some t;
  ok_head : o = None -> snd <$> head (waiters l) <> Some Pending
}.

Lemma new_lock_ok : lock_ok None new_lock.
Proof. split; try done. apply NoDup_nil_2. Qed.

Lemma future_waits t f l : lock_future t l = Some f -> t ∈ dict_keys (waiters l).
Proof. intros H. destruct (decide (t ∈ dict_keys (waiters l))) as [|Hn]; [done|]. apply dict_get_None in Hn. unfold lock_future in H. congruence. Qed.

Lemma lock_acquire_ok t o l : lock_ok o l -> o <> Some t -> t ∉ dict_keys (waiters l) ->
  let '(got, l') := lock_acquire t l in
  if got then o = None /\ lock_ok (Some t) l' else lock_ok o l' /\ lock_future t l' = Some Pending.
Proof.
  intros [H1 H2 H3 H4 H5] Ho Ht. unfold lock_acquire. destruct (negb (locked l) && _) eqn:E; cbn.
  - apply andb_prop in E as [El Ed]. rewrite negb_true_iff in El. rewrite El in H1. destruct o; [done|]. split; [done|].
    split; cbn; try done; [intros u [= <-]; done|]. intros u Hu. apply dict_get_elem in Hu.
    rewrite forallb_forall in Ed. apply list_elem_of_In in Hu. apply Ed in Hu. cbn in Hu. by rewrite bool_decide_eq_false_2 in Hu.
  - assert (Hd : lock_future t l = None) by by apply dict_get_None.
    unfold lock_future in *. split; [split|cbn; rewrite dict_get_app, Hd; cbn; by rewrite decide_True].
    all: cbn; unfold lock_future; cbn.
    + done.
    + unfold dict_keys in *. rewrite fmap_app. apply NoDup_app. split_and!; [done| |apply NoDup_singleton]. by intros u Hu ->%list_elem_of_singleton.
    + intros u Hu. unfold dict_keys in *. rewrite fmap_app, not_elem_of_app. split; [by apply H3|]. by intros ->%list_elem_of_singleton.
    + intros u. rewrite dict_get_app. destruct (dict_get u (waiters l)) eqn:Eu; cbn; [intros [= ->]|case_decide; done].
      apply H4 in Eu as [-> Hh]. by destruct (waiters l).
    + intros ->. specialize (H5 eq_refl). destruct (waiters l); [|done]. cbn in *. by rewrite H1 in E.
Qed.

Lemma wake_up_first_ok l : locked l = false -> NoDup (dict_keys (waiters l)) ->
  (forall t, lock_future t l = Some Woken -> fst <$> head (waiters l) = Some t) -> lock_ok None (wake_up_first l).
Proof.
  intros H1 H2 H3. unfold wake_up_first, lock_future, dict_keys in *. destruct (waiters l) as [|[t []] ws] eqn:E; split; unfold lock_future; cbn in *; rewrite ?E; cbn; try done.
  - intros u. case_decide; [by intros; simplify_eq|]. intros Hu. specialize (H3 u). rewrite decide_False in H3 by done. apply H3 in Hu. by simplify_eq.
  - intros u. specialize (H3 u). case_decide; [by intros; simplify_eq|]. intros Hu. apply H3 in Hu. by simplify_eq.
  - intros u. specialize (H3 u). case_decide; [by intros; simplify_eq|]. intros Hu. apply H3 in Hu. by simplify_eq.
Qed.

Lemma wake_up_first_keys l : dict_keys (waiters (wake_up_first l)) = dict_keys (waiters l).
Proof. unfold wake_up_first. by destruct (waiters l) as [|[t []] ws] eqn:E; cbn; rewrite ?E. Qed.

Lemma lock_cancel_ok t o l : lock_ok o l -> lock_ok o (lock_cancel t l).
Proof.
  intros [H1 H2 H3 H4 H5]. unfold lock_cancel. destruct (lock_future t l) as [[]|] eqn:E; try by split.
  assert (Hk : dict_keys (dict_set t Dead (waiters l)) = dict_keys (waiters l)).
  { rewrite dict_keys_set, decide_True; [done|]. by eapply future_waits. }
  split; cbn [waiters locked]; [done|by rewrite Hk|intros u; rewrite Hk; apply H3|unfold lock_future in *; cbn..].
  - intros u. rewrite dict_get_set. case_decide; [done|]. intros Hu. apply H4 in Hu as [-> Hh]. split; [done|].
    destruct (waiters l) as [|[v f] ws]; [done|]. cbn in *. by case_decide.
  - intros Ho. specialize (H5 Ho). destruct (waiters l) as [|[v f] ws]; [done|]. cbn in *. by case_decide.
Qed.
Lemma lock_cancel_keys t l : dict_keys (waiters (lock_cancel t l)) = dict_keys (waiters l).
Proof.
  unfold lock_cancel. destruct (lock_future t l) as [[]|] eqn:E; [|done..]. cbn [waiters]. rewrite dict_keys_set, decide_True; [done|]. by eapply future_waits.
Qed.

(** Taking a task out of the queue. *)
Lemma waiters_del o t l : lock_ok o l -> let ws := dict_del t (waiters l) in
  NoDup (dict_keys ws) /\ (forall u, u ∈ dict_keys ws <-> u ∈ dict_keys (waiters l) /\ u <> t) /\
  (forall u, dict_get u ws = if decide (u = t) then None else lock_future u l) /\
  (forall u, u <> t -> fst <$> head (waiters l) = Some u -> fst <$> head ws = Some u).
Proof.
  intros [H1 H2 H3 H4 H5]. split_and!; [by apply dict_del_NoDup|intros u; by apply dict_del_keys|intros u; by apply dict_get_del|].
  intros u Hu. destruct (waiters l) as [|[v f] ws]; [done|]. cbn. intros [= ->]. by rewrite decide_False.
Qed.

Lemma lock_resume_ok t o l (c : bool) : lock_ok o l -> (if c then lock_future t l <> Some Pending /\ is_Some (lock_future t l) else lock_future t l = Some Woken) ->
  (c = false -> o = None) /\ lock_ok (if c then o else Some t) (lock_resume t c l).
Proof.
  intros H Hf. destruct (waiters_del o t l H) as (W1&W2&W3&W4). destruct H as [H1 H2 H3 H4 H5]. unfold lock_resume. destruct c.
  - split; [done|]. cbn. destruct (locked l) eqn:E.
    + split; cbn; unfold lock_future; cbn; try done.
      * intros u Hu. rewrite W2. intros [Hin _]. by eapply H3.
      * intros u. rewrite W3. case_decide; [done|]. intros Hu. apply H4 in Hu as [-> _]. done.
      * intros ->. done.
    + destruct o; [done|]. apply wake_up_first_ok; cbn; [done|done|]. unfold lock_future. cbn. intros u. rewrite W3. case_decide; [done|].
      intros Hu. apply H4 in Hu as [_ Hh]. by apply W4.
  - destruct (H4 _ Hf) as [-> Hh]. split; [done|]. split; cbn; unfold lock_future; cbn; try done.
    + intros u [= <-]. rewrite W2. tauto.
    + intros u. rewrite W3. case_decide; [done|]. intros Hu. apply H4 in Hu as [_ Hu]. congruence.
Qed.
Lemma lock_resume_keys t o l c u : lock_ok o l -> u ∈ dict_keys (waiters (lock_resume t c l)) <-> u ∈ dict_keys (waiters l) /\ u <> t.
Proof.
  intros H. destruct (waiters_del o t l H) as (_&W&_). unfold lock_resume. destruct c; cbn; [|apply W]. destruct (locked l); [apply W|]. rewrite wake_up_first_keys. apply W.
Qed.

Lemma lock_release_ok t l : lock_ok (Some t) l -> exists l', lock_release l = Some l' /\ lock_ok None l' /\ dict_keys (waiters l') = dict_keys (waiters l).
Proof.
  intros [H1 H2 H3 H4 H5]. unfold lock_release. rewrite H1. cbn. eexists. split; [done|]. split; [|by rewrite wake_up_first_keys].
  apply wake_up_first_ok; cbn; [done|done|]. unfold lock_future in *. cbn. intros u Hu. apply H4 in Hu as [? _]. done.
Qed.

(** A future that is done stays done. *)
Lemma wake_up_first_pending u l : lock_future u (wake_up_first l) = Some Pending -> lock_future u l = Some Pending.
Proof. unfold wake_up_first, lock_future. destruct (waiters l) as [|[v []] ws] eqn:E; cbn; rewrite ?E; try done. cbn. by case_decide. Qed.
Lemma lock_release_pending u l l' : lock_release l = Some l' -> lock_future u l' = Some Pending -> lock_future u l = Some Pending.
Proof. unfold lock_release. destruct (locked l); [|done]. intros [= <-] H. by apply wake_up_first_pending in H. Qed.
Lemma lock_resume_pending o t c u l : lock_ok o l -> lock_future u (lock_resume t c l) = Some Pending -> lock_future u l = Some Pending.
Proof.
  intros H. destruct (waiters_del o t l H) as (_&_&W&_). assert (Hd : forall b, lock_future u {| locked := b; waiters := dict_del t (waiters l) |} = Some Pending -> lock_future u l = Some Pending).
  { intros b. unfold lock_future at 1. cbn. rewrite W. by case_decide. }
  unfold lock_resume. destruct c; [|by apply Hd]. cbn [locked]. destruct (locked l); [apply Hd|]. intros E%wake_up_first_pending. by apply Hd in E.
Qed.
Lemma lock_cancel_pending t u l : lock_future u (lock_cancel t l) = Some Pending -> lock_future u l = Some Pending /\ u <> t.
Proof.
  unfold lock_cancel. destruct (lock_future t l) as [[]|] eqn:E; [|intros H; split; [done|congruence]..]. unfold lock_future. cbn. rewrite dict_get_set. by case_decide.
Qed.

(** ** A lock and the tasks that use it

    [I] says who is inside, [W] who waits and [C] which of these is to be cancelled. *)
Definition guards (I W C : nat -> Prop) (l : Lock) : Prop := exists o, lock_ok o l /\ (forall t, o = Some t <-> I t) /\ (forall t, t ∈ dict_keys (waiters l) <-> W t) /\ (forall t, C t -> lock_future t l <> Some Pending).

Lemma guards_new (I W C : nat -> Prop) : (forall t, ~ I t) -> (forall t, ~ W t) -> guards I W C new_lock.
Proof. intros HI HW. exists None. split_and!; [apply new_lock_ok|..|done]; intros t; [by split; [|intros ?%HI]|split; [by intros ?%not_elem_of_nil|by intros ?%HW]]. Qed.
Lemma guards_ext (I W C I' W' C' : nat -> Prop) l : guards I W C l -> (forall t, I' t <-> I t) -> (forall t, W' t <-> W t) -> (forall t, C' t -> C t) -> guards I' W' C' l.
Proof. intros (o&Hl&Ho&Hw&Hc) H1 H2 H3. exists o. split_and!; [done|..]; intros t; [by rewrite H1|by rewrite H2|auto]. Qed.
Lemma guards_alone I W C l t u : guards I W C l -> I t -> I u -> t = u.
Proof. intros (o&_&Ho&_) Ht%Ho Hu%Ho. congruence. Qed.
Lemma guards_acquire I W C l t : guards I W C l -> ~ I t -> ~ W t -> ~ C t ->
  let '(got, l') := lock_acquire t l in if got then (forall u, ~ I u) /\ guards (fun u => u = t) W C l' else guards I (fun u => W u \/ u = t) C l'.
Proof.
  intros (o&Hl&Ho&Hw&Hc) HI HW HC. assert (Hot : o <> Some t) by by rewrite Ho. assert (Htw : t ∉ dict_keys (waiters l)) by by rewrite Hw.
  pose proof (lock_acquire_ok t o l Hl Hot Htw) as H. assert (Hk : waiters (lock_acquire t l).2 = if (lock_acquire t l).1 then waiters l else waiters l ++ [(t, Pending)]) by (unfold lock_acquire; by destruct (negb _ && _)).
  destruct (lock_acquire t l) as [[] l']; cbn in Hk.
  - destruct H as [-> H]. split; [by intros u ?%Ho|]. exists (Some t). unfold lock_future in *. rewrite Hk. split_and!; [done|..|done|done]. intros u. split; [by intros [= <-]|by intros ->].
  - destruct H as [H _]. exists o. split_and!; [done|done|..]; intros u; unfold dict_keys, lock_future in *; rewrite Hk.
    + rewrite fmap_app, elem_of_app, Hw. csimpl. by rewrite list_elem_of_singleton.
    + intros Hu. rewrite dict_get_app. specialize (Hc u Hu). destruct (dict_get u (waiters l)) eqn:E; [done|]. cbn. by case_decide as Ht; [subst u|].
Qed.
(** A woken or cancelled waiter runs. *)
Lemma guards_resume I W C l t f : guards I W C l -> W t -> lock_future t l = Some f -> f <> Pending -> forall c : bool, (f = Dead -> c = true) ->
  guards (fun u => if c then I u else u = t) (fun u => W u /\ u <> t) (fun u => C u /\ u <> t) (lock_resume t c l) /\ (c = false -> forall u, ~ I u).
Proof.
  intros (o&Hl&Ho&Hw&Hc) HW Hf Hp c Hd. assert (Hfu : if c then lock_future t l <> Some Pending /\ is_Some (lock_future t l) else lock_future t l = Some Woken).
  { rewrite Hf. destruct c; [split; [congruence|done]|]. destruct f; try done. by specialize (Hd eq_refl). }
  destruct (lock_resume_ok t o l c Hl Hfu) as [Hno Hok]. split.
  - exists (if c then o else Some t). split_and!; [done|..]; intros u.
    + destruct c; [apply Ho|]. split; [by intros [= ->]|by intros ->].
    + by rewrite (lock_resume_keys t o l c u Hl), Hw.
    + intros [Hu _] Hfu'. apply (Hc u Hu). by eapply lock_resume_pending.
  - intros -> u Hu. apply Ho in Hu. by rewrite (Hno eq_refl) in Hu.
Qed.
Lemma guards_cancel I W C l t (C' : nat -> Prop) : guards I W C l -> (forall u, C' u -> u = t \/ C u) -> guards I W C' (lock_cancel t l).
Proof.
  intros (o&Hl&Ho&Hw&Hc) HC. exists o. split_and!; [by apply lock_cancel_ok|done|intros u; by rewrite lock_cancel_keys|]. intros u Hu [Hf Hut]%lock_cancel_pending. destruct (HC u Hu) as [|Hcu]; [done|]. by apply (Hc u Hcu).
Qed.
Lemma guards_release I W C l t : guards I W C l -> I t -> exists l', lock_release l = Some l' /\ guards (fun _ => False) W C l'.
Proof.
  intros (o&Hl&Ho&Hw&Hc) Ht%Ho. subst o. destruct (lock_release_ok t l Hl) as (l'&E&Hok&Hk). exists l'. split; [done|]. exists None. split_and!; [done|done|intros u; by rewrite Hk|].
  intros u Hu Hf. apply (Hc u Hu). by eapply lock_release_pending.
Qed.
