(* ===== verification/WorkingPool.v ===== *)
(** * The pool of working memories

    [memory/working_pool.py] with the buffers of [memory/working.py] it hands out: entries in
    the order of their insertion, the registry of per-key locks, the keys in use, and the
    objects made so far, which callers share by reference. Any number of tasks call [acquire]
    and [release], and anybody calls [evict]; a step of the system is what one task does
    between two awaits. The load of the episodes, [active_user_count] and the clock, which does not
    go back, are the step's inputs. *)
From S2P Require Import Prelude TurnWorld AsyncLock.
#[local] Open Scope Z_scope.

(** ** The objects *)
Definition Key : Type := string * string.
(** A [WorkingMemory] by its index among the objects made. *)
Record _PoolEntry := { wm : nat; last_released_at : Z }.
#[export] Instance _PoolEntry_dec : EqDecision _PoolEntry. Proof. solve_decision. Defined.
(** A call of [acquire] that waits: for the lock of its key, with the cancellation the task
    is to be delivered when it runs, or for the rehydration. *)
Inductive call := Locking (k : Key) (cancelling : bool) | Loading (k : Key).
Inductive happening :=
| LoadBegun (k : Key) | LoadFailed (k : Key) | Inserted (k : Key) (m : nat)
| Trimmed (k : Key) (crowded : bool) | Removed (k : Key)
| Got (t : nat) (k : Key) (m : nat) | Raised (t : nat) (k : Key).
Record Pool := {
  _max_entries : option Z; _entries : list (Key * _PoolEntry); _locks : gmap Key Lock; _in_use : gset Key;
  objects : list (list Turn); calls : gmap nat call; monotonic : Z; history : list happening }.
Definition with_lock (k : Key) (l : Lock) (p : Pool) : Pool :=
  {| _max_entries := _max_entries p; _entries := _entries p; _locks := <[k := l]> (_locks p); _in_use := _in_use p; objects := objects p; calls := calls p; monotonic := monotonic p; history := history p |}.
Definition with_entries (es : list (Key * _PoolEntry)) (u : gset Key) (p : Pool) : Pool :=
  {| _max_entries := _max_entries p; _entries := es; _locks := _locks p; _in_use := u; objects := objects p; calls := calls p; monotonic := monotonic p; history := history p |}.
Definition with_objects (os : list (list Turn)) (p : Pool) : Pool :=
  {| _max_entries := _max_entries p; _entries := _entries p; _locks := _locks p; _in_use := _in_use p; objects := os; calls := calls p; monotonic := monotonic p; history := history p |}.
Definition with_calls (c : gmap nat call) (p : Pool) : Pool :=
  {| _max_entries := _max_entries p; _entries := _entries p; _locks := _locks p; _in_use := _in_use p; objects := objects p; calls := c; monotonic := monotonic p; history := history p |}.
Definition happens (hs : list happening) (p : Pool) : Pool :=
  {| _max_entries := _max_entries p; _entries := _entries p; _locks := _locks p; _in_use := _in_use p; objects := objects p; calls := calls p; monotonic := monotonic p; history := history p ++ hs |}.
Definition with_clock (now : Z) (p : Pool) : Pool :=
  {| _max_entries := _max_entries p; _entries := _entries p; _locks := _locks p; _in_use := _in_use p; objects := objects p; calls := calls p; monotonic := now; history := history p |}.
Definition new_pool (max_entries : option Z) : Pool :=
  {| _max_entries := max_entries; _entries := []; _locks := ∅; _in_use := ∅; objects := []; calls := ∅; monotonic := 0; history := [] |}.

(** ** WorkingMemory *)
(** [append], a deque with [maxlen]; its lock is held over no await, so it never waits. *)
Definition append_turn (x : Turn) (buf : list Turn) : list Turn := let b := buf ++ [x] in drop (length b - max_turns) b.
Definition append_to (m : nat) (x : Turn) (p : Pool) : Pool := with_objects (alter (append_turn x) m (objects p)) p.

(** ** WorkingMemoryPool *)
Definition _cap (users : Z) (p : Pool) : Z := match _max_entries p with Some n => n | None => Z.max 50 (users * 2) end.
Definition _get_lock (k : Key) (p : Pool) : Lock := default new_lock (_locks p !! k).
(** Keys by when they became idle. *)
Definition idle_before (a b : Key * _PoolEntry) : bool := last_released_at a.2 <=? last_released_at b.2.
Definition idle (p : Pool) : list (Key * _PoolEntry) := filter (fun x => x.1 ∉ _in_use p) (_entries p).
Fixpoint trim (cap : Z) (idle_keys : list Key) (es : list (Key * _PoolEntry)) : list (Key * _PoolEntry) :=
  match idle_keys with
  | victim :: rest => if cap <? Zlen es then trim cap rest (dict_del victim es) else es
  | [] => es
  end.
Definition _evict_to_cap (users : Z) (p : Pool) : Pool :=
  let cap := _cap users p in
  if Zlen (_entries p) <=? cap then p else
  with_entries (trim cap (dict_keys (sorted_by idle_before (idle p))) (_entries p)) (_in_use p) p.
(** The entries a trim took, with whether all it left are in use. *)
Definition trimmed (p p' : Pool) : list happening :=
  (fun x => Trimmed x.1 (bool_decide (idle p' = []))) <$> filter (fun x => x.1 ∉ dict_keys (_entries p')) (_entries p).
Definition ends (t : nat) (p : Pool) : Pool := with_calls (delete t (calls p)) p.
(** The exit of [async with lock], and of the call. *)
Definition exits (t : nat) (k : Key) (r : option nat) (p : Pool) : Pool :=
  match lock_release (_get_lock k p) with
  | Some l => happens [match r with Some m => Got t k m | None => Raised t k end] (ends t (with_lock k l p))
  | None => happens [Raised t k] (ends t p)
  end.
Definition hands_out (t : nat) (k : Key) (m : nat) (p : Pool) : Pool := exits t k (Some m) (with_entries (_entries p) ({[k]} ∪ _in_use p) p).
(** The body of [acquire] inside the lock, up to the rehydration. *)
Definition looks_up (t : nat) (k : Key) (p : Pool) : Pool :=
  match dict_get k (_entries p) with
  | Some entry => hands_out t k (wm entry) p
  | None => happens [LoadBegun k] (with_calls (<[t := Loading k]> (calls p)) p)
  end.
(** [acquire] up to its first await. *)
Definition acquire (t : nat) (k : Key) (p : Pool) : Pool :=
  let '(got, l) := lock_acquire t (_get_lock k p) in
  let p := with_lock k l p in
  if got then looks_up t k p else with_calls (<[t := Locking k false]> (calls p)) p.
(** A task that waited for the lock runs. *)
Definition resumes (t : nat) (p : Pool) : option Pool :=
  match calls p !! t with
  | Some (Locking k cancelling) =>
      match lock_future t (_get_lock k p) with
      | None | Some Pending => None
      | Some f =>
          let cancelled := cancelling || bool_decide (f = Dead) in
          let p := with_lock k (lock_resume t cancelled (_get_lock k p)) p in
          Some (if cancelled then happens [Raised t k] (ends t p) else looks_up t k p)
      end
  | _ => None
  end.
(** [Task.cancel] of a task that waits for the lock. *)
Definition cancels (t : nat) (p : Pool) : option Pool :=
  match calls p !! t with
  | Some (Locking k _) => let l := _get_lock k p in
      Some (with_lock k (lock_cancel t l) (with_calls (<[t := Locking k (bool_decide (lock_future t l <> Some Pending))]> (calls p)) p))
  | _ => None
  end.
(** The rehydration ends: the episodes, oldest first, or an exception, and the rest of
    [acquire]. *)
Definition _rehydrate (recent : list Turn) : list Turn := foldl (fun b x => append_turn x b) [] recent.
Definition loaded (t : nat) (now users : Z) (recent : option (list Turn)) (p : Pool) : option Pool :=
  match calls p !! t with
  | Some (Loading k) =>
      let p := ends t p in
      Some match recent with
           | None => exits t k None (happens [LoadFailed k] p)
           | Some l =>
               let m := length (objects p) in
               let p := happens [Inserted k m] (with_entries (dict_set k {| wm := m; last_released_at := now |} (_entries p)) (_in_use p) (with_objects (objects p ++ [_rehydrate l]) p)) in
               let p' := _evict_to_cap users p in
               hands_out t k m (happens (trimmed p p') p')
           end
  | _ => None
  end.
Definition release (k : Key) (now : Z) (p : Pool) : Pool :=
  let u := _in_use p ∖ {[k]} in
  match dict_get k (_entries p) with
  | None => with_entries (_entries p) u p
  | Some entry => with_entries (dict_set k {| wm := wm entry; last_released_at := now |} (_entries p)) u p
  end.
Definition evict (k : Key) (p : Pool) : Pool :=
  let p' := with_entries (dict_del k (_entries p)) (_in_use p ∖ {[k]}) p in
  match dict_get k (_entries p) with None => p' | Some _ => happens [Removed k] p' end.

(** ** The system *)
Inductive action :=
| Acquire (t : nat) (k : Key) | Resume (t : nat) | Cancel (t : nat) | Loaded (t : nat) (now users : Z) (recent : option (list Turn))
| Release (k : Key) (now : Z) | Evict (k : Key) | Append (m : nat) (x : Turn).
(** [time.monotonic] does not go back. *)
Definition reads (a : action) : option Z := match a with Loaded _ now _ _ | Release _ now => Some now | _ => None end.
Definition step (a : action) (p : Pool) : option Pool :=
  if default (monotonic p) (reads a) <? monotonic p then None else
  let p := with_clock (default (monotonic p) (reads a)) p in
  match a with
  | Acquire t k => match calls p !! t with Some _ => None | None => Some (acquire t k p) end
  | Resume t => resumes t p
  | Cancel t => cancels t p
  | Loaded t now users recent => loaded t now users recent p
  | Release k now => Some (release k now p)
  | Evict k => Some (evict k p)
  | Append m x => Some (append_to m x p)
  end.
Fixpoint run (l : list action) (p : Pool) : option Pool := match l with [] => Some p | a :: l => p' ← step a p; run l p' end.

(** ** The account of a key *)
Definition tells (x y : happening) : Z := match x, y with
  | LoadBegun k, LoadBegun k' | LoadFailed k, LoadFailed k' | Inserted k _, Inserted k' _ => if decide (k = k') then 1 else 0
  | Removed k, (Removed k' | Trimmed k' _) => if decide (k = k') then 1 else 0
  | _, _ => 0
  end.
Definition loads (k : Key) (h : list happening) : Z := Zsum (tells (LoadBegun k)) h.
Definition failures (k : Key) (h : list happening) : Z := Zsum (tells (LoadFailed k)) h.
Definition insertions (k : Key) (h : list happening) : Z := Zsum (tells (Inserted k 0)) h.
Definition removals (k : Key) (h : list happening) : Z := Zsum (tells (Removed k)) h.
(** The last object made for a key. *)
Definition latest (k : Key) (h : list happening) : option nat :=
  fold_left (fun o x => match x with Inserted k' m => if decide (k = k') then Some m else o | _ => o end) h None.
Definition present (k : Key) (p : Pool) : Z := match dict_get k (_entries p) with Some _ => 1 | None => 0 end.

#[local] Arguments latest : simpl never.
#[local] Arguments loads : simpl never.
#[local] Arguments failures : simpl never.
#[local] Arguments insertions : simpl never.
#[local] Arguments removals : simpl never.

Lemma latest_app k h x : latest k (h ++ [x]) = match x with Inserted k' m => if decide (k = k') then Some m else latest k h | _ => latest k h end.
Proof. unfold latest. rewrite fold_left_app. by destruct x. Qed.
Lemma latest_quiet k h l : (forall x, x ∈ l -> match x with Inserted _ _ => False | _ => True end) -> latest k (h ++ l) = latest k h.
Proof.
  induction l as [|x l IH] using rev_ind; intros H; [by rewrite app_nil_r|]. rewrite app_assoc, latest_app.
  pose proof (H x ltac:(set_solver)). destruct x; [| |done|..]; apply IH; intros y Hy; apply H; set_solver.
Qed.
Lemma get_lock_with k k' l p : _get_lock k' (with_lock k l p) = if decide (k' = k) then l else _get_lock k' p.
Proof. unfold _get_lock, with_lock. cbn. case_decide as E; [rewrite E; by rewrite lookup_insert_eq|]. by rewrite lookup_insert_ne. Qed.

(** ** What every step keeps *)
(** What a lock is to the calls. *)
Definition served (h : option (nat * Key)) (c : gmap nat call) (k : Key) (l : Lock) : Prop :=
  guards (fun t => c !! t = Some (Loading k) \/ h = Some (t, k)) (fun t => exists b, c !! t = Some (Locking k b)) (fun t => c !! t = Some (Locking k true)) l.
(** [h] is the task that runs inside the lock of a key, in the middle of a step. *)
Record sound (h : option (nat * Key)) (p : Pool) : Prop := {
  s_nodup : NoDup (dict_keys (_entries p));
  s_lock k : served h (calls p) k (_get_lock k p);
  s_free t k : h = Some (t, k) -> calls p !! t = None;
  s_loading t k : calls p !! t = Some (Loading k) -> dict_get k (_entries p) = None
}.
Definition loading (h : option (nat * Key)) (k : Key) (p : Pool) : Z := if locked (_get_lock k p) && negb (bool_decide (snd <$> h = Some k)) then 1 else 0.
Definition latest_got (h : list happening) : Prop := forall a t k m b, h = a ++ Got t k m :: b -> latest k a = Some m.
Record accounts (h : option (nat * Key)) (p : Pool) : Prop := {
  a_loads k : loads k (history p) = failures k (history p) + insertions k (history p) + loading h k p;
  a_insertions k : insertions k (history p) = removals k (history p) + present k p;
  a_latest k e : dict_get k (_entries p) = Some e -> latest k (history p) = Some (wm e);
  a_got : latest_got (history p)
}.
Definition inv (h : option (nat * Key)) (p : Pool) : Prop := sound h p /\ accounts h p.

Lemma new_pool_inv n : inv None (new_pool n).
Proof.
  split; split; cbn; try done.
  - apply NoDup_nil_2.
  - intros k. exists None. change (_get_lock k (new_pool n)) with (default new_lock ((∅ : gmap Key Lock) !! k)). rewrite lookup_empty. split; [apply new_lock_ok|]. split; [intros t; split; [done|intros [?|?]; [|done]; by simplify_map_eq]|].
    split; intros t; [split; [by intros ?%not_elem_of_nil|by intros [c Hc]; rewrite lookup_empty in Hc]|by rewrite lookup_empty].
  - by intros [] ???.
Qed.

Lemma latest_got_snoc h x : latest_got h -> (forall t k m, x = Got t k m -> latest k h = Some m) -> latest_got (h ++ [x]).
Proof.
  intros H Hx a t k m b E. destruct b as [|y b _] using rev_ind.
  - apply app_inj_tail in E as [-> ->]. by eapply Hx.
  - rewrite app_comm_cons, app_assoc in E. apply app_inj_tail in E as [E _]. by eapply H.
Qed.
Lemma latest_got_quiet h l : latest_got h -> (forall x, x ∈ l -> match x with Got _ _ _ => False | _ => True end) -> latest_got (h ++ l).
Proof.
  intros H. induction l as [|x l IH] using rev_ind; intros Hl; [by rewrite app_nil_r|]. rewrite app_assoc. apply latest_got_snoc.
  - apply IH. intros y Hy. apply Hl. set_solver.
  - intros t k m ->. by specialize (Hl (Got t k m) ltac:(set_solver)).
Qed.

Lemma Zsum_nil {A} (f : A -> Z) : Zsum f [] = 0.
Proof. done. Qed.
Lemma Zsum_none {A} (f : A -> Z) l : (forall x, x ∈ l -> f x = 0) -> Zsum f l = 0.
Proof. induction l as [|x l IH]; intros H; [done|]. rewrite Zsum_cons, (H x), IH by set_solver. done. Qed.
Lemma accounts_step h h' hs p p' : accounts h p -> history p' = history p ++ hs -> latest_got (history p ++ hs) ->
  (forall j, loads j hs + loading h j p = failures j hs + insertions j hs + loading h' j p') ->
  (forall j, insertions j hs + present j p = removals j hs + present j p') ->
  (forall j e, dict_get j (_entries p') = Some e -> latest j (history p ++ hs) = Some (wm e)) -> accounts h' p'.
Proof.
  intros [A1 A2 A3 A4] E Hg H1 H2 H3. split; rewrite ?E; [intros j|intros j|done|done].
  - specialize (A1 j). specialize (H1 j). unfold loads, failures, insertions in *. rewrite !Zsum_app. lia.
  - specialize (A2 j). specialize (H2 j). unfold removals, insertions in *. rewrite !Zsum_app. lia.
Qed.
Lemma loading_locks h j p p' : _locks p' = _locks p -> loading h j p' = loading h j p.
Proof. unfold loading, _get_lock. by intros ->. Qed.
(** The tallies of a few things that happen. *)
Ltac tally := unfold loads, failures, insertions, removals; rewrite ?Zsum_cons, ?Zsum_nil; cbn [tells].

(** *** The lock *)
Definition about (k : Key) (x : option call) : Prop := match x with Some (Locking j _ | Loading j) => j = k | None => True end.
Lemma get_lock_calls j c p : _get_lock j (with_calls c p) = _get_lock j p.
Proof. done. Qed.
(** A task moves: one lock changes, and its call on that lock's key. *)
Lemma sound_moves h h' t k l c p : sound h p -> (h = None \/ h = Some (t, k)) -> (h' = None \/ h' = Some (t, k)) ->
  (forall u, u <> t -> c !! u = calls p !! u) -> about k (calls p !! t) -> about k (c !! t) ->
  served h' c k l -> (h' = Some (t, k) -> c !! t = None) -> (c !! t = Some (Loading k) -> dict_get k (_entries p) = None) -> sound h' (with_calls c (with_lock k l p)).
Proof.
  intros [H1 H2 H4 H5] Hh Hh' Hc Ha Ha' Hk Hf Hl. split; cbn [_entries with_calls with_lock calls]; [done| | |].
  - intros j. rewrite get_lock_calls, get_lock_with. case_decide as Hj; [by subst j|]. destruct (H2 j) as (o&Hok&Ho&Hw&Hp). exists o. split_and!; [done|..]; intros u.
    all: destruct (decide (u = t)) as [->|Hu]; [|rewrite (Hc u Hu); try first [exact (Hw u)|exact (Hp u)]].
    + rewrite Ho. unfold about in *. destruct (calls p !! t) as [[]|], (c !! t) as [[]|]; naive_solver.
    + rewrite Ho. naive_solver.
    + rewrite Hw. unfold about in *. destruct (calls p !! t) as [[]|], (c !! t) as [[]|]; naive_solver.
    + unfold about in *. destruct (c !! t) as [[]|]; naive_solver.
  - intros u j E. rewrite E in Hh'. destruct Hh' as [|[= -> ->]]; [done|]. by apply Hf.
  - intros u j Hu. destruct (decide (u = t)) as [->|Hut]; [|rewrite (Hc u Hut) in Hu; by eapply H5]. rewrite Hu in Ha'. cbn in Ha'. subst j. by apply Hl.
Qed.
Lemma loading_calls h' c j p : loading h' j (with_calls c p) = loading h' j p.
Proof. done. Qed.
Lemma loading_moves h' k l j p : loading h' j (with_lock k l p) = if decide (j = k) then (if locked l && negb (bool_decide (snd <$> h' = Some k)) then 1 else 0) else loading h' j p.
Proof. unfold loading. rewrite get_lock_with. case_decide as E; [by rewrite E|done]. Qed.
Lemma loading_elsewhere t k j p : j <> k -> loading (Some (t, k)) j p = loading None j p.
Proof. intros H. unfold loading. cbn. by rewrite (bool_decide_eq_false_2 (Some k = Some j)), (bool_decide_eq_false_2 (None = Some j)) by congruence. Qed.
(** Nothing is told, and no entry changes. *)
Lemma accounts_same h h' p p' : accounts h p -> history p' = history p -> _entries p' = _entries p -> (forall j, loading h' j p' = loading h j p) -> accounts h' p'.
Proof. intros [A1 A2 A3 A4] E1 E2 Hl. split; intros *; rewrite ?E1; [by rewrite Hl|unfold present; by rewrite E2|by rewrite E2; apply A3|done]. Qed.

(** The task inside leaves: its call ends. *)
Lemma sound_exits t k p : sound (Some (t, k)) p -> exists l, lock_release (_get_lock k p) = Some l /\ sound None (ends t (with_lock k l p)) /\
  (forall j, loading None j (ends t (with_lock k l p)) = loading (Some (t, k)) j p).
Proof.
  intros Hs. pose proof Hs as [H1 H2 H4 H5]. assert (Ht : calls p !! t = None) by by eapply H4. destruct (guards_release _ _ _ _ t (H2 k)) as (l&El&Hg); [by right|]. exists l. split; [done|].
  unfold ends. cbn [calls with_lock]. rewrite (delete_id (calls p) t) by done. split.
  - apply (sound_moves (Some (t, k)) None t); try done; [by right|by left|by rewrite Ht|by rewrite Ht| |by rewrite Ht]. eapply guards_ext; [exact Hg|..|done|done]. intros u. split; [|done].
    intros [Hu|?]; [|done]. assert (u = t) as -> by (eapply (guards_alone _ _ _ _ _ _ (H2 k)); [by left|by right]). by rewrite Ht in Hu.
  - intros j. rewrite ?loading_calls, loading_moves. case_decide as E; [subst j|by rewrite loading_elsewhere]. destruct Hg as (o&Hok&Ho&_). unfold loading. rewrite (ok_locked _ _ Hok). destruct o; [by destruct (proj1 (Ho n) eq_refl)|].
    cbn. by rewrite (bool_decide_eq_true_2 (Some k = Some k)), andb_false_r by done.
Qed.
Lemma exits_inv t k r p : inv (Some (t, k)) p -> (forall m, r = Some m -> latest k (history p) = Some m) -> inv None (exits t k r p).
Proof.
  intros [Hs [A1 A2 A3 A4]] Hr. unfold exits. destruct (sound_exits t k p Hs) as (l&->&Hs'&Hl). split; [by destruct Hs'|].
  eapply (accounts_step _ _ [match r with Some m => Got t k m | None => Raised t k end]); [by split|done|apply latest_got_snoc; [done|]| | |].
  - destruct r; [|done]. intros ??? [= -> -> ->]. by apply Hr.
  - intros j. rewrite <- Hl. destruct r; by tally.
  - intros j. destruct r; by tally.
  - intros j e He. rewrite latest_app. destruct r; by apply A3.
Qed.
Lemma inv_use h u p : inv h p -> inv h (with_entries (_entries p) u p).
Proof. intros [[] []]. by split; split. Qed.
Lemma hands_out_inv t k m p : inv (Some (t, k)) p -> latest k (history p) = Some m -> inv None (hands_out t k m p).
Proof. intros H Hm. apply exits_inv; [by apply inv_use|]. by intros ? [= ->]. Qed.
Lemma sound_get_lock h k c p : sound h (with_calls c (with_lock k (_get_lock k p) p)) -> sound h (with_calls c p).
Proof. intros [S1 S2 S4 S5]. split; [done| |done|done]. intros j. specialize (S2 j). rewrite get_lock_calls, get_lock_with in S2. rewrite get_lock_calls. case_decide as Hj; [by subst j|exact S2]. Qed.
(** A load begins. *)
Lemma looks_up_inv t k p : inv (Some (t, k)) p -> inv None (looks_up t k p).
Proof.
  intros H. unfold looks_up. destruct (dict_get k (_entries p)) as [e|] eqn:E.
  { apply hands_out_inv; [done|]. by apply H. }
  destruct H as [Hs HA]. pose proof Hs as [H1 H2 H4 H5]. destruct (H2 k) as (o&Hl&Ho&Hw&Hp). assert (o = Some t) as -> by (apply Ho; by right).
  assert (Ht : calls p !! t = None) by by eapply H4.
  assert (Hs' : sound None (with_calls (<[t := Loading k]> (calls p)) (with_lock k (_get_lock k p) p))).
  { apply (sound_moves (Some (t, k)) None t); try done; [by right|by left|intros u Hu; by simplify_map_eq|by rewrite Ht|by simplify_map_eq|]. exists (Some t). split_and!; [done|..]; intros u.
    - rewrite Ho. destruct (decide (u = t)) as [->|Hu]; simplify_map_eq; naive_solver.
    - rewrite Hw. destruct (decide (u = t)) as [->|Hu]; simplify_map_eq; [|done]. rewrite Ht. naive_solver.
    - intros Hlk. destruct (decide (u = t)) as [->|Hu]; simplify_map_eq. by apply Hp. }
  split.
  - apply sound_get_lock in Hs'. by destruct Hs'.
  - eapply (accounts_step _ _ [LoadBegun k]); [exact HA|done|apply latest_got_snoc; [apply HA|done]| |intros j; by tally|intros j e He; rewrite latest_app; by apply HA].
    intros j. tally. destruct (decide (j = k)) as [->|Hj]; [|rewrite loading_elsewhere by done; change (loading None j (happens _ _)) with (loading None j p); lia]. unfold loading. change (_get_lock k (happens _ _)) with (_get_lock k p). rewrite (ok_locked _ _ Hl). cbn. by rewrite bool_decide_eq_true_2.
Qed.
Lemma looks_up_ends t k p : looks_up t k (ends t p) = looks_up t k p.
Proof.
  unfold looks_up, hands_out, exits, ends, with_calls, with_entries, happens, with_lock, _get_lock. cbn. destruct (dict_get k (_entries p)); cbn.
  - destruct (lock_release _); cbn; by rewrite delete_delete_eq.
  - by rewrite insert_delete_eq.
Qed.
Lemma pool_acquire_inv t k p : inv None p -> calls p !! t = None -> inv None (acquire t k p).
Proof.
  intros [Hs HA] Ht. pose proof Hs as [H1 H2 H4 H5]. unfold acquire.
  pose proof (guards_acquire _ _ _ _ t (H2 k)) as Hg. cbn beta in Hg. rewrite Ht in Hg. specialize (Hg ltac:(naive_solver) ltac:(naive_solver) ltac:(done)).
  assert (Hlk : forall l, lock_acquire t (_get_lock k p) = (false, l) -> locked l = locked (_get_lock k p)) by (intros l; unfold lock_acquire; destruct (negb _ && _); [done|by intros [= <-]]).
  assert (Hfree : forall l, lock_acquire t (_get_lock k p) = (true, l) -> locked (_get_lock k p) = false /\ locked l = true) by (intros l; unfold lock_acquire; destruct (locked _); [done|]; cbn; by destruct (forallb _ _); [intros [= <-]|]).
  destruct (lock_acquire t (_get_lock k p)) as [[] l].
  - destruct Hg as [Hno Hg]. destruct (Hfree l eq_refl) as [Hf Hf']. apply looks_up_inv. split.
    + apply (sound_moves None (Some (t, k)) t _ l (calls p)); try done; [by left|by right|by rewrite Ht|by rewrite Ht| |by rewrite Ht].
      eapply guards_ext; [exact Hg|..|done|done]. intros u. split; [|intros ->; by right]. intros [Hu|[= ->]]; [|done]. destruct (Hno u). by left.
    + eapply accounts_same; [exact HA|done..|]. intros j. rewrite loading_moves. case_decide as Hj; [subst j|by rewrite loading_elsewhere].
      unfold loading. rewrite Hf, Hf'. cbn. by rewrite bool_decide_eq_true_2.
  - specialize (Hlk l eq_refl). split.
    + apply (sound_moves None None t); try done; [by left|by left|intros u Hu; by simplify_map_eq|by rewrite Ht|by simplify_map_eq| |by simplify_map_eq].
      eapply guards_ext; [exact Hg|..]; intros u; destruct (decide (u = t)) as [->|Hu]; simplify_map_eq; naive_solver.
    + eapply accounts_same; [exact HA|done..|]. intros j. rewrite ?loading_calls, loading_moves. case_decide as Hj; [subst j; unfold loading; by rewrite Hlk|done].
Qed.

(** A task that has waited for the lock runs. *)
Lemma resumes_inv t p p' : inv None p -> resumes t p = Some p' -> inv None p'.
Proof.
  intros [Hs HA] E. pose proof Hs as [H1 H2 H4 H5]. unfold resumes in E. destruct (calls p !! t) as [[k c|]|] eqn:Ht; [|done..].
  destruct (lock_future t (_get_lock k p)) as [f|] eqn:Hf; [|done]. assert (Hfp : f <> Pending) by by destruct f. set (cancelled := c || bool_decide (f = Dead)) in *.
  assert (E' : p' = if cancelled then happens [Raised t k] (ends t (with_lock k (lock_resume t cancelled (_get_lock k p)) p)) else looks_up t k (with_lock k (lock_resume t cancelled (_get_lock k p)) p)) by (by destruct f; [|injection E|injection E]).
  clear E. destruct (guards_resume _ _ _ _ t f (H2 k) (ex_intro _ c Ht) Hf Hfp cancelled) as [Hg Hno].
  { intros ->. subst cancelled. by rewrite orb_true_r. }
  assert (Hlk : locked (lock_resume t cancelled (_get_lock k p)) = if cancelled then locked (_get_lock k p) else true).
  { unfold lock_resume. destruct cancelled; [|done]. cbn. destruct (locked (_get_lock k p)) eqn:El; [done|]. unfold wake_up_first. cbn. by destruct (dict_del t _) as [|[? []] ?]. }
  assert (Hnl : cancelled = false -> locked (_get_lock k p) = false).
  { intros Hc. destruct (H2 k) as (o&Hl&Ho&_). rewrite (ok_locked _ _ Hl). destruct o as [u|]; [|done]. destruct (Hno Hc u). by apply Ho. }
  set (l := lock_resume t cancelled (_get_lock k p)) in *.
  assert (Hsv : sound (if cancelled then None else Some (t, k)) (ends t (with_lock k l p))).
  { apply (sound_moves None _ t); try done; [by left|by destruct cancelled; auto|intros u Hu; cbn; by simplify_map_eq|by rewrite Ht|cbn; by simplify_map_eq| |intros _; cbn; by simplify_map_eq|cbn; by simplify_map_eq].
    eapply guards_ext; [exact Hg|..]; cbn [calls with_lock]; intros u; destruct (decide (u = t)) as [->|Hu]; simplify_map_eq; destruct cancelled; try (specialize (Hno eq_refl u)); naive_solver. }
  assert (Hld : forall j, loading (if cancelled then None else Some (t, k)) j (with_lock k l p) = loading None j p).
  { intros j. rewrite loading_moves. case_decide as Hj; [subst j|destruct cancelled; [done|by rewrite loading_elsewhere]]. unfold loading. rewrite Hlk. destruct cancelled; [done|].
    rewrite (Hnl eq_refl). cbn. by rewrite (bool_decide_eq_true_2 (Some k = Some k)). }
  rewrite E'. destruct cancelled.
  - split; [by destruct Hsv|]. eapply (accounts_step _ _ [Raised t k]); [exact HA|done|apply latest_got_snoc; [apply HA|done]| |intros j; by tally|intros j e He; rewrite latest_app; by apply HA].
    intros j. tally. by rewrite <- Hld.
  - rewrite <- looks_up_ends. apply looks_up_inv. split; [done|]. eapply accounts_same; [exact HA|done..|exact Hld].
Qed.
Lemma cancels_inv t p p' : inv None p -> cancels t p = Some p' -> inv None p'.
Proof.
  intros [Hs HA] E. pose proof Hs as [H1 H2 H4 H5]. unfold cancels in E. destruct (calls p !! t) as [[k c|]|] eqn:Ht; [|done..]. injection E as <-.
  set (c' := bool_decide _). change (with_lock k ?l (with_calls ?c p)) with (with_calls c (with_lock k l p)). split.
  - apply (sound_moves None None t); try done; [by left|by left|intros u Hu; by simplify_map_eq|by rewrite Ht|by simplify_map_eq| |by simplify_map_eq].
    assert (Hg : served None (<[t := Locking k c']> (calls p)) k (lock_cancel t (_get_lock k p))); [|exact Hg]. eapply guards_ext; [apply (guards_cancel _ _ _ _ t (fun u => <[t := Locking k c']> (calls p) !! u = Some (Locking k true)) (H2 k))|..]; try done; intros u.
    all: destruct (decide (u = t)) as [->|Hu]; simplify_map_eq; naive_solver.
  - eapply accounts_same; [exact HA|done..|]. intros j. rewrite loading_calls, loading_moves. case_decide as Hj; [subst j|done]. unfold loading. replace (locked (lock_cancel t _)) with (locked (_get_lock k p)); [done|]. unfold lock_cancel. by destruct (lock_future _ _) as [[]|].
Qed.

(** *** The trim *)
Lemma dict_del_filter {V} k (d : list (Key * V)) : NoDup (dict_keys d) -> dict_del k d = filter (fun x => x.1 <> k) d.
Proof.
  unfold dict_keys. induction d as [|[j v] d IH]; [done|]. rewrite fmap_cons, filter_cons. intros [Hn Hd]%NoDup_cons. cbn in *. case_decide as E; [subst j|].
  - rewrite decide_False by tauto. rewrite filter_all; [done|]. intros [i w] Hi. cbn. intros ->. apply Hn, list_elem_of_fmap. by exists (k, w).
  - rewrite decide_True by done. by rewrite IH.
Qed.
Lemma dict_del_Zlen {V} k (d : list (Key * V)) : k ∈ dict_keys d -> Zlen (dict_del k d) = Zlen d - 1.
Proof.
  unfold dict_keys. induction d as [|[j v] d IH]; [by intros ?%not_elem_of_nil|]. rewrite fmap_cons, elem_of_cons. cbn. intros H. case_decide as E; zlen; [lia|]. destruct H as [?|H]; [done|]. rewrite (IH H). lia.
Qed.
Lemma trim_spec cap ks es : NoDup (dict_keys es) -> NoDup ks -> (forall k, k ∈ ks -> k ∈ dict_keys es) -> exists n, (n <= length ks)%nat /\
  trim cap ks es = filter (fun x => x.1 ∉ take n ks) es /\ Zlen (trim cap ks es) = Zlen es - Z.of_nat n /\ (n = length ks \/ Zlen es - Z.of_nat n <= cap) /\ (n = 0%nat \/ cap <= Zlen es - Z.of_nat n).
Proof.
  revert es. induction ks as [|k ks IH]; intros es He Hk Hin; cbn.
  { exists 0%nat. split_and!; [done| |lia|by left|by left]. rewrite filter_all; [done|]. intros x _. cbn. apply not_elem_of_nil. }
  apply NoDup_cons in Hk as [Hn Hk]. destruct (Z.ltb_spec cap (Zlen es)) as [Hc|Hc]; cycle 1.
  { exists 0%nat. split_and!; [lia| |lia|right; lia|by left]. rewrite filter_all; [done|]. intros x _. cbn. apply not_elem_of_nil. }
  assert (Hlen : Zlen (dict_del k es) = Zlen es - 1) by (apply dict_del_Zlen, Hin, list_elem_of_here).
  destruct (IH (dict_del k es)) as (n&N1&N2&N3&N4&N5); [by apply dict_del_NoDup|done| |].
  { intros j Hj. apply dict_del_keys; [done|]. split; [apply Hin; by apply list_elem_of_further|]. by intros ->. }
  exists (S n). split_and!; [lia| |lia|destruct N4; [left; lia|right; lia]|right; destruct N5; [subst n; lia|lia]].
  rewrite N2, dict_del_filter by done. rewrite list_filter_filter. apply filter_ext_in. intros x _. cbn. rewrite not_elem_of_cons. tauto.
Qed.

Lemma idle_keys_in p : NoDup (dict_keys (_entries p)) -> let ks := dict_keys (sorted_by idle_before (idle p)) in
  NoDup ks /\ (forall k, k ∈ ks <-> k ∈ dict_keys (_entries p) /\ k ∉ _in_use p) /\ length ks = length (idle p).
Proof.
  intros Hn. cbn. assert (Hp : dict_keys (sorted_by idle_before (idle p)) ≡ₚ dict_keys (idle p)) by (unfold dict_keys; by rewrite sorted_by_perm).
  split_and!; [rewrite Hp|intros k; rewrite Hp|by rewrite Hp; unfold dict_keys; rewrite length_fmap].
  - eapply sublist_NoDup; [exact Hn|]. unfold dict_keys, idle. apply fmap_sublist, sublist_filter.
  - unfold dict_keys, idle. rewrite !list_elem_of_fmap. split; [intros (x&->&[? ?]%list_elem_of_filter); eauto|]. intros [(x&->&Hx) Hu]. exists x. by rewrite list_elem_of_filter.
Qed.
Lemma evict_spec users p : NoDup (dict_keys (_entries p)) -> exists n, let ks := dict_keys (sorted_by idle_before (idle p)) in
  _evict_to_cap users p = with_entries (filter (fun x => x.1 ∉ take n ks) (_entries p)) (_in_use p) p /\
  (n <= length ks)%nat /\ Zlen (filter (fun x => x.1 ∉ take n ks) (_entries p)) = Zlen (_entries p) - Z.of_nat n /\
  (n = length ks \/ Zlen (_entries p) - Z.of_nat n <= _cap users p) /\ (n = 0%nat \/ _cap users p <= Zlen (_entries p) - Z.of_nat n).
Proof.
  intros Hn. destruct (idle_keys_in p Hn) as (K1&K2&K3). unfold _evict_to_cap. destruct (Z.leb_spec (Zlen (_entries p)) (_cap users p)) as [Hc|Hc].
  - exists 0%nat. cbv zeta. rewrite (filter_all (fun x => x.1 ∉ take 0 _)) by (intros x _; apply not_elem_of_nil). split_and!; [by destruct p|lia|lia|right; lia|by left].
  - destruct (trim_spec (_cap users p) _ _ Hn K1 (fun k Hk => proj1 (proj1 (K2 k) Hk))) as (n&N1&N2&N3&N4&N5). exists n. cbn. rewrite <- N2. done.
Qed.
(** What is left, key by key. *)
Lemma evict_entries users p : NoDup (dict_keys (_entries p)) -> let p' := _evict_to_cap users p in
  sublist (_entries p') (_entries p) /\ _in_use p' = _in_use p /\ _locks p' = _locks p /\ calls p' = calls p /\ history p' = history p /\ objects p' = objects p /\
  (forall x, x ∈ _entries p -> x ∉ _entries p' -> (x.1 ∉ _in_use p) /\ (x.1 ∉ dict_keys (_entries p'))).
Proof.
  intros Hn. destruct (evict_spec users p Hn) as (n&E&_). destruct (idle_keys_in p Hn) as (_&K2&_). cbn. rewrite E. cbn. split_and!; try done; [apply sublist_filter|].
  intros x Hx Hx'. rewrite list_elem_of_filter in Hx'. destruct (decide (x.1 ∈ take n (dict_keys (sorted_by idle_before (idle p))))) as [Hin|]; [|tauto].
  split; [by apply K2; eapply elem_of_take in Hin as (i&Hi&_); eapply list_elem_of_lookup_2|]. unfold dict_keys. rewrite list_elem_of_fmap. intros (y&Ey&[Hy Hyin]%list_elem_of_filter). apply Hy. by rewrite <- Ey.
Qed.
Lemma trimmed_removals users p j : NoDup (dict_keys (_entries p)) -> let p' := _evict_to_cap users p in
  removals j (trimmed p p') + present j p' = present j p.
Proof.
  intros Hn p'. destruct (evict_entries users p Hn) as (Hs&_). fold p' in Hs. unfold trimmed, removals. rewrite Zsum_fmap. unfold present.
  assert (Hn' : NoDup (dict_keys (_entries p'))) by (eapply sublist_NoDup; [exact Hn|]; by apply fmap_sublist).
  assert (H0 : forall l, j ∉ dict_keys l -> Zsum (fun x : Key * _PoolEntry => tells (Removed j) (Trimmed x.1 (bool_decide (idle p' = [])))) (filter (fun x => x.1 ∉ dict_keys (_entries p')) l) = 0).
  { intros l Hl. apply Zsum_none. intros x [_ Hx]%list_elem_of_filter. cbn. case_decide as E; [|done]. subst j. destruct Hl. unfold dict_keys. apply list_elem_of_fmap. eauto. }
  destruct (dict_get j (_entries p)) as [e|] eqn:E.
  - destruct (dict_get j (_entries p')) as [e'|] eqn:E'.
    + rewrite Zsum_none; [done|]. intros x [Hx _]%list_elem_of_filter. cbn. case_decide as Ej; [|done]. subst j. destruct Hx. unfold dict_keys. apply list_elem_of_fmap. exists (x.1, e'). split; [done|]. by apply dict_get_elem.
    + apply dict_get_elem, list_elem_of_split in E as (l1&l2&El). apply dict_get_None in E'. rewrite El in Hn |- *. rewrite filter_app, filter_cons. cbn [fst]. rewrite decide_True by done. rewrite Zsum_app, Zsum_cons.
      unfold dict_keys in Hn. rewrite fmap_app, fmap_cons in Hn. apply NoDup_app in Hn as (_&Hd&[Hd2 _]%NoDup_cons). rewrite !H0; [cbn; by rewrite decide_True|exact Hd2|].
      intros Hj. apply (Hd j Hj), list_elem_of_here.
  - rewrite H0 by by apply dict_get_None. destruct (dict_get j (_entries p')) as [e'|] eqn:E'; [|done]. exfalso. apply dict_get_None in E. apply E. eapply elem_of_submseteq; [|apply sublist_submseteq, fmap_sublist, Hs].
    apply list_elem_of_fmap. exists (j, e'). split; [done|]. by apply dict_get_elem.
Qed.

(** *** The steps *)
Lemma sound_entries h p p' : sound h p -> _locks p' = _locks p -> calls p' = calls p -> NoDup (dict_keys (_entries p')) ->
  (forall t k, calls p !! t = Some (Loading k) -> dict_get k (_entries p') = None) -> sound h p'.
Proof. intros [H1 H2 H4 H5] E1 E2 Hn Hl. split; rewrite ?E2; try done. intros k. replace (_get_lock k p') with (_get_lock k p) by (unfold _get_lock; by rewrite E1). apply H2. Qed.
(** A task whose load is over is inside the lock. *)
Lemma sound_loaded t k p : sound None p -> calls p !! t = Some (Loading k) -> sound (Some (t, k)) (ends t p) /\
  (forall j, loading None j p = loading (Some (t, k)) j p + (if decide (j = k) then 1 else 0)) /\ (forall u j, delete t (calls p) !! u = Some (Loading j) -> j <> k).
Proof.
  intros Hs Ht. pose proof Hs as [H1 H2 H4 H5]. destruct (H2 k) as (o&Hl&Ho&Hw&Hp). assert (o = Some t) as -> by (apply Ho; by left). split_and!.
  - apply sound_get_lock with k. apply (sound_moves None (Some (t, k)) t); try done; [by left|by right|intros u Hu; by simplify_map_eq|by rewrite Ht|by simplify_map_eq| |intros _; by simplify_map_eq|by simplify_map_eq].
    exists (Some t). split_and!; [done|..]; intros u.
    + destruct (decide (u = t)) as [->|Hu]; simplify_map_eq; [naive_solver|]. rewrite Ho. naive_solver.
    + rewrite Hw. destruct (decide (u = t)) as [->|Hu]; simplify_map_eq; naive_solver.
    + intros Hlk. destruct (decide (u = t)) as [->|Hu]; simplify_map_eq. by apply Hp.
  - intros j. case_decide as Hj; [subst j|rewrite loading_elsewhere by done; lia]. unfold loading. rewrite (ok_locked _ _ Hl). cbn. by rewrite (bool_decide_eq_true_2 (Some k = Some k)).
  - intros u j Hu ->. destruct (decide (u = t)) as [->|Hut]; simplify_map_eq. assert (Some t = Some u) as [= <-] by (apply Ho; by left). done.
Qed.
Lemma accounts_tell h p hs : accounts h p -> (forall x, x ∈ hs -> match x with Got _ _ _ | Inserted _ _ | LoadBegun _ => False | _ => True end) -> forall h' p',
  history p' = history p ++ hs -> (forall j, loading h j p = failures j hs + loading h' j p') -> (forall j, present j p = removals j hs + present j p') -> (forall x, x ∈ _entries p' -> x ∈ _entries p) ->
  NoDup (dict_keys (_entries p)) -> accounts h' p'.
Proof.
  intros HA Hhs h' p' E Hl Hp Hin Hn.
  assert (Hz : forall (f : happening -> Z), (forall x, match x with Got _ _ _ | Inserted _ _ | LoadBegun _ => False | _ => True end -> f x = 0) -> Zsum f hs = 0).
  { intros f Hf. apply Zsum_none. intros x Hx. by apply Hf, Hhs. }
  assert (loads0 : forall j, loads j hs = 0) by (intros j; apply Hz; by intros []). assert (ins0 : forall j, insertions j hs = 0) by (intros j; apply Hz; by intros []).
  eapply accounts_step; [exact HA|exact E| | | |].
  - apply latest_got_quiet; [apply HA|]. intros x Hx. specialize (Hhs x Hx). by destruct x.
  - intros j. rewrite loads0, ins0, Hl. lia.
  - intros j. rewrite ins0, Hp. lia.
  - intros j e He. rewrite latest_quiet by (intros x Hx; specialize (Hhs x Hx); by destruct x). apply HA. apply dict_elem_get; [done|]. apply Hin. by apply dict_get_elem.
Qed.
Lemma inserted_inv t k m now os p : inv None p -> calls p !! t = Some (Loading k) ->
  inv (Some (t, k)) (happens [Inserted k m] (with_entries (dict_set k {| wm := m; last_released_at := now |} (_entries p)) (_in_use p) (with_objects os (ends t p)))).
Proof.
  intros [Hs HA] Ht. destruct (sound_loaded t k p Hs Ht) as (Hs'&Hl&Hu). pose proof Hs as [H1 H2 H4 H5]. specialize (H5 t k Ht) as Hnone. split.
  - eapply sound_entries; [exact Hs'|done|done|by apply dict_set_NoDup|]. cbn. intros u j Huj. rewrite dict_get_set, decide_False by by eapply Hu. eapply H5. by eapply lookup_delete_Some.
  - eapply (accounts_step _ _ [Inserted k m]); [exact HA|done|apply latest_got_snoc; [apply HA|done]|..].
    + intros j. tally. rewrite Hl. change (loading _ j (happens _ _)) with (loading (Some (t, k)) j p). lia.
    + intros j. tally. unfold present. cbn. rewrite dict_get_set. case_decide as E; [subst j; by rewrite Hnone|lia].
    + intros j e. rewrite latest_app. cbn. rewrite dict_get_set. repeat case_decide; try congruence; [by intros [= <-]|apply HA].
Qed.
Lemma trim_inv users h p : inv h p -> inv h (happens (trimmed p (_evict_to_cap users p)) (_evict_to_cap users p)).
Proof.
  intros [Hs HA]. pose proof Hs as [H1 H2 H4 H5]. destruct (evict_entries users p H1) as (E1&E2&E3&E4&E5&E6&_).
  assert (Hin : forall x, x ∈ _entries (_evict_to_cap users p) -> x ∈ _entries p) by (intros x Hx; eapply elem_of_submseteq; [exact Hx|by apply sublist_submseteq]). split.
  - eapply sound_entries; [exact Hs|done|done|eapply sublist_NoDup; [exact H1|by apply fmap_sublist]|]. cbn. intros t k Ht. apply dict_get_None. specialize (H5 t k Ht). apply dict_get_None in H5. intros Hk. apply H5. eapply elem_of_submseteq; [exact Hk|]. by apply sublist_submseteq, fmap_sublist.
  - eapply (accounts_tell h p); [exact HA| |cbn; by rewrite E5| | |exact Hin|done].
    + unfold trimmed. intros x (y&->&_)%list_elem_of_fmap. done.
    + intros j. rewrite (loading_locks h j p (happens _ _)) by exact E3. unfold failures, trimmed. rewrite Zsum_fmap. symmetry. rewrite Zsum_none by done. lia.
    + intros j. symmetry. exact (trimmed_removals users p j H1).
Qed.
Lemma loaded_inv t now users r p p' : inv None p -> loaded t now users r p = Some p' -> inv None p'.
Proof.
  intros H E. unfold loaded in E. destruct (calls p !! t) as [[|k]|] eqn:Ht; [done| |done]. destruct r as [l|]; injection E as <-.
  - apply hands_out_inv; [by apply (trim_inv users), inserted_inv|]. set (q := happens [Inserted _ _] _). destruct (evict_entries users q) as (_&_&_&_&Eh&_).
    { destruct (inserted_inv t k (length (objects p)) now (objects p ++ [_rehydrate l]) p H Ht) as [[Hn _ _ _] _]. exact Hn. }
    cbn [history happens]. rewrite Eh, latest_quiet by (unfold trimmed; by intros x (y&->&_)%list_elem_of_fmap). subst q. cbn [history happens]. by rewrite latest_app, decide_True.
  - apply exits_inv; [|done]. destruct H as [Hs HA]. destruct (sound_loaded t k p Hs Ht) as (Hs'&Hl&_). split; [by destruct Hs'|].
    eapply (accounts_tell None p [LoadFailed k]); [exact HA|by intros x ->%list_elem_of_singleton|done| |done|done|apply Hs]. intros j. tally. rewrite Hl. change (loading _ j (happens _ _)) with (loading (Some (t, k)) j p). lia.
Qed.
Lemma release_inv k now p : inv None p -> inv None (release k now p).
Proof.
  intros [Hs HA]. pose proof Hs as [H1 H2 H4 H5]. unfold release. destruct (dict_get k (_entries p)) as [e|] eqn:E; [|by apply inv_use]. split.
  - eapply sound_entries; [exact Hs|done|done|by apply dict_set_NoDup|]. cbn. intros t j Ht. rewrite dict_get_set. case_decide as Hj; [|by eapply H5]. subst j. by rewrite (H5 t k Ht) in E.
  - destruct HA as [A1 A2 A3 A4]. split; cbn; [done| | |done].
    + intros j. rewrite A2. unfold present. cbn. rewrite dict_get_set. case_decide as Hj; [subst j; by rewrite E|done].
    + intros j e'. rewrite dict_get_set. case_decide as Hj; [subst j; intros [= <-]; exact (A3 k e E)|apply A3].
Qed.
Lemma evict_inv k p : inv None p -> inv None (evict k p).
Proof.
  intros [Hs HA]. pose proof Hs as [H1 H2 H4 H5].
  assert (Hs' : sound None (with_entries (dict_del k (_entries p)) (_in_use p ∖ {[k]}) p)).
  { eapply sound_entries; [exact Hs|done|done|by apply dict_del_NoDup|]. cbn. intros t j Ht. rewrite dict_get_del by done. case_decide; [done|]. by eapply H5. }
  assert (Hin : forall x, x ∈ dict_del k (_entries p) -> x ∈ _entries p) by (intros x; rewrite dict_del_filter by done; by intros [_ ?]%list_elem_of_filter).
  unfold evict. destruct (dict_get k (_entries p)) as [e|] eqn:E; (split; [by destruct Hs'|]).
  - eapply (accounts_tell None p [Removed k]); [exact HA|by intros x ->%list_elem_of_singleton|done|intros j; by tally| |exact Hin|done].
    intros j. tally. unfold present. cbn. rewrite dict_get_del by done. case_decide as Hj; [subst j; by rewrite E|]. lia.
  - eapply (accounts_tell None p []); [exact HA|by intros x ?%not_elem_of_nil|by rewrite app_nil_r|intros j; by tally| |exact Hin|done].
    intros j. tally. unfold present. cbn. rewrite dict_get_del by done. case_decide as Hj; [subst j; by rewrite E|]. lia.
Qed.
Lemma inv_clock h now p : inv h p -> inv h (with_clock now p).
Proof. intros [[] []]. by split; split. Qed.
Lemma pool_step_inv a p p' : inv None p -> step a p = Some p' -> inv None p'.
Proof.
  intros H E. unfold step in E. destruct (_ <? _); [done|]. apply (inv_clock None (default (monotonic p) (reads a))) in H. set (q := with_clock _ p) in *. clearbody q. destruct a; cbn in E.
  - destruct (calls q !! t) eqn:Ht; [done|]. injection E as <-. by apply pool_acquire_inv.
  - by eapply resumes_inv.
  - by eapply cancels_inv.
  - by eapply loaded_inv.
  - injection E as <-. by apply release_inv.
  - injection E as <-. by apply evict_inv.
  - injection E as <-. destruct H as [[] []]. by split; split.
Qed.
Lemma pool_run_inv l p p' : inv None p -> run l p = Some p' -> inv None p'.
Proof. revert p. induction l as [|a l IH]; intros p H; cbn; [by intros [= <-]|]. destruct (step a p) as [q|] eqn:E; [|done]. cbn. apply IH. by eapply pool_step_inv. Qed.

(** *** The clock *)
(** The clock is not behind any entry. *)
Definition timed (p : Pool) : Prop := forall x, x ∈ _entries p -> last_released_at x.2 <= monotonic p.
Lemma dict_set_elem {V} (k : Key) (v : V) d x : x ∈ dict_set k v d -> x = (k, v) \/ x ∈ d.
Proof.
  induction d as [|[j w] d IH]; cbn; [intros ->%list_elem_of_singleton; by left|]. case_decide as E; [subst j|]; rewrite !elem_of_cons; naive_solver.
Qed.
Lemma timed_trim users p : NoDup (dict_keys (_entries p)) -> timed p -> timed (_evict_to_cap users p).
Proof.
  intros Hn Ht x Hx. destruct (evict_spec users p Hn) as (n&E&_). rewrite E in *. cbn in *. apply list_elem_of_filter in Hx as [_ Hx]. by apply Ht.
Qed.
Lemma timed_entries p p' : _entries p' = _entries p -> monotonic p' = monotonic p -> timed p -> timed p'.
Proof. unfold timed. by intros -> ->. Qed.
Lemma timed_exits t k r p : timed p -> timed (exits t k r p).
Proof. unfold exits. by destruct (lock_release _). Qed.
Lemma timed_looks_up t k p : timed p -> timed (looks_up t k p).
Proof. unfold looks_up. destruct (dict_get k (_entries p)); [|done]. intros H. by apply timed_exits. Qed.
Lemma timed_set k e p p' : timed p -> _entries p' = dict_set k e (_entries p) -> monotonic p' = monotonic p -> last_released_at e <= monotonic p -> timed p'.
Proof. unfold timed. intros H -> -> He x [->|Hx]%dict_set_elem; [done|]. by apply H. Qed.
Lemma timed_step a p p' : inv None p -> timed p -> step a p = Some p' -> timed p'.
Proof.
  intros Hi Ht E. unfold step in E. destruct (Z.ltb_spec (default (monotonic p) (reads a)) (monotonic p)) as [|Hc]; [done|]. apply (inv_clock None (default (monotonic p) (reads a))) in Hi.
  assert (Ht' : timed (with_clock (default (monotonic p) (reads a)) p)) by (intros x Hx; specialize (Ht x Hx); cbn; lia). assert (Hm : forall now, reads a = Some now -> monotonic (with_clock (default (monotonic p) (reads a)) p) = now) by (by intros now ->).
  clear Ht. set (q := with_clock _ p) in *. clearbody q. destruct Hi as [[Hn _ _ _] _]. destruct a as [t k|t|t|t now users r|k now|k|o x]; cbn in E.
  - destruct (calls q !! t); [done|]. injection E as <-. unfold acquire. destruct (lock_acquire t _) as [[] l]; [by apply timed_looks_up|done].
  - unfold resumes in E. destruct (calls q !! t) as [[j c|]|]; [|done..]. destruct (lock_future t _) as [[]|]; [done| | |done]; injection E as <-; destruct (c || _); by apply timed_looks_up || exact Ht'.
  - unfold cancels in E. destruct (calls q !! t) as [[j c|]|]; [|done..]. by injection E as <-.
  - unfold loaded in E. destruct (calls q !! t) as [[|j]|]; [done| |done]. destruct r as [r|]; injection E as <-; apply timed_exits; [|done].
    eapply timed_entries; [| |apply (timed_trim users (happens [Inserted j (length (objects (ends t q)))] (with_entries (dict_set j {| wm := length (objects (ends t q)); last_released_at := now |} (_entries (ends t q))) (_in_use (ends t q)) (with_objects (objects (ends t q) ++ [_rehydrate r]) (ends t q)))))]; [done|done|by apply dict_set_NoDup|].
    eapply timed_set; [exact Ht'|done|done|]. cbn. by rewrite (Hm now eq_refl).
  - injection E as <-. unfold release. destruct (dict_get k (_entries q)) eqn:Ek; [|done]. eapply timed_set; [exact Ht'|done|done|]. cbn. by rewrite (Hm now eq_refl).
  - injection E as <-. assert (H : timed (with_entries (dict_del k (_entries q)) (_in_use q ∖ {[k]}) q)).
    { intros x. cbn. rewrite dict_del_filter by done. intros [_ Hx]%list_elem_of_filter. by apply Ht'. }
    unfold evict. by destruct (dict_get k (_entries q)).
  - by injection E as <-.
Qed.
Lemma insert_last {A} (le : A -> A -> bool) (y x : A) l : le y x = true -> insert_by le y (l ++ [x]) = insert_by le y l ++ [x].
Proof. intros H. induction l as [|z l IH]; cbn; [by rewrite H|]. destruct (le y z); [done|]. by rewrite IH. Qed.
Lemma sorted_snoc_max {A} (le : A -> A -> bool) (x : A) l : (forall y, y ∈ l -> le y x = true) -> sorted_by le (l ++ [x]) = sorted_by le l ++ [x].
Proof.
  unfold sorted_by. induction l as [|y l IH]; intros H; [done|]. cbn. rewrite IH by (intros z Hz; apply H; by apply list_elem_of_further). apply insert_last, H, list_elem_of_here.
Qed.
(** A trim that takes the last entry to have come, which nothing became idle after, takes
    every idle one. *)
Lemma fresh_trim users p es k e : NoDup (dict_keys (_entries p)) -> _entries p = es ++ [(k, e)] -> (forall x, x ∈ es -> last_released_at x.2 <= last_released_at e) ->
  dict_get k (_entries (_evict_to_cap users p)) = None -> idle (_evict_to_cap users p) = [].
Proof.
  intros Hn Ee Hl Hk. destruct (evict_spec users p Hn) as (n&E&Hle&_). destruct (idle_keys_in p Hn) as (K1&K2&K3). destruct (decide (k ∈ _in_use p)) as [Hu|Hu].
  { exfalso. apply dict_get_None in Hk. apply Hk. rewrite E. cbn. apply list_elem_of_fmap. exists (k, e). split; [done|]. apply list_elem_of_filter. split; [|rewrite Ee; set_solver].
    cbn. intros Hin. eapply elem_of_take in Hin as (i&Hi&_). apply list_elem_of_lookup_2 in Hi. by apply K2 in Hi as [_ ?]. }
  assert (Hi : idle p = filter (fun x => x.1 ∉ _in_use p) es ++ [(k, e)]) by (unfold idle; by rewrite Ee, filter_app, filter_cons, decide_True).
  rewrite Hi, sorted_snoc_max in E, K1, K2, Hle by (intros y [_ Hy]%list_elem_of_filter; unfold idle_before; cbn; apply Z.leb_le; by apply Hl).
  unfold dict_keys in E, K1, Hle. rewrite fmap_app in E, K1, Hle. cbn in E, K1, Hle. rewrite length_app in Hle. cbn in Hle. set (ks := fst <$> sorted_by idle_before (filter _ es)) in *.
  assert (Hnk : n = S (length ks)).
  { destruct (decide (n = S (length ks))) as [|Hne]; [done|]. exfalso. apply dict_get_None in Hk. apply Hk. rewrite E. cbn. apply list_elem_of_fmap. exists (k, e). split; [done|]. apply list_elem_of_filter. split; [|rewrite Ee; set_solver].
    cbn. rewrite take_app_le by lia. intros Hin. eapply elem_of_take in Hin as (i&Hi'&_). apply list_elem_of_lookup_2 in Hi'. apply NoDup_app in K1 as (_&Hd&_). apply (Hd k Hi'). apply list_elem_of_here. }
  rewrite take_ge in E by (rewrite length_app; cbn; lia). rewrite E. unfold idle at 1. cbn. rewrite list_filter_filter. apply filter_none. intros x Hx [Hxu Hxk]. apply Hxk.
  specialize (K2 x.1). unfold dict_keys in K2. rewrite fmap_app in K2. apply K2. split; [|done]. by apply list_elem_of_fmap_2.
Qed.

(** *** What is kept while a key is in use *)
(** No step but its release, its forced removal and a load of its own takes a key in use out
    of the pool. *)
Definition keeps_key (k : Key) (a : action) : Prop := match a with Release j _ | Evict j => j <> k | _ => True end.
Definition holds_key (k : Key) (m : nat) (p : Pool) : Prop := k ∈ _in_use p /\ wm <$> dict_get k (_entries p) = Some m.
Lemma holds_exits t j r k m p : holds_key k m p -> holds_key k m (exits t j r p).
Proof. unfold exits, holds_key. destruct (lock_release _); cbn; done. Qed.
Lemma holds_looks_up t j k m p : holds_key k m p -> holds_key k m (looks_up t j p).
Proof. unfold looks_up, hands_out. destruct (dict_get j (_entries p)); [|done]. intros [H1 H2]. apply holds_exits. split; cbn; [set_solver|done]. Qed.
Lemma holds_trim users k m p : NoDup (dict_keys (_entries p)) -> holds_key k m p -> holds_key k m (_evict_to_cap users p).
Proof.
  intros Hn [Hu Hm]. destruct (evict_entries users p Hn) as (E1&E2&_&_&_&_&E7). split; [by rewrite E2|]. destruct (dict_get k (_entries p)) as [e|] eqn:E; [|done]. cbn in Hm. injection Hm as <-.
  apply dict_get_elem in E. assert (Hin : (k, e) ∈ _entries (_evict_to_cap users p)).
  { destruct (decide ((k, e) ∈ _entries (_evict_to_cap users p))) as [|Hno]; [done|]. by destruct (E7 _ E Hno) as [? _]. }
  apply dict_elem_get in Hin; [by rewrite Hin|]. eapply sublist_NoDup; [exact Hn|by apply fmap_sublist].
Qed.
Lemma holds_step a k m p p' : inv None p -> step a p = Some p' -> keeps_key k a -> holds_key k m p -> holds_key k m p'.
Proof.
  intros Hi E Ha H. unfold step in E. destruct (_ <? _); [done|]. apply (inv_clock None (default (monotonic p) (reads a))) in Hi. assert (Hc : holds_key k m (with_clock (default (monotonic p) (reads a)) p)) by exact H.
  clear H. rename Hc into H. set (q := with_clock _ p) in *. clearbody q. clear p. rename q into p. destruct Hi as [[Hn Hlk _ Hld] _]. destruct a as [t j|t|t|t now users r|j now|j|o x]; cbn in E, Ha.
  - destruct (calls p !! t); [done|]. injection E as <-. unfold acquire. destruct (lock_acquire t _) as [[] l]; [by apply holds_looks_up|done].
  - unfold resumes in E. destruct (calls p !! t) as [[j c|]|]; [|done..]. destruct (lock_future t _) as [[]|]; [done| | |done]; injection E as <-; destruct (c || _); by apply holds_looks_up || exact H.
  - unfold cancels in E. destruct (calls p !! t) as [[j c|]|]; [|done..]. by injection E as <-.
  - unfold loaded in E. destruct (calls p !! t) as [[|j]|] eqn:Ht; [done| |done]. destruct r as [r|]; injection E as <-; [|by apply holds_exits].
    assert (Hjk : k <> j) by (intros ->; destruct H as [_ Hm]; by rewrite (Hld t j Ht) in Hm). unfold hands_out. apply holds_exits. set (q := happens [Inserted _ _] _).
    assert (Hq : holds_key k m (_evict_to_cap users q)).
    { apply holds_trim; [by apply dict_set_NoDup|]. destruct H as [Hu Hm]. split; [done|]. subst q. cbn. by rewrite dict_get_set, decide_False. }
    destruct Hq as [Hu Hm]. split; cbn; [set_solver|done].
  - injection E as <-. destruct H as [Hu Hm]. unfold release, holds_key. destruct (dict_get j (_entries p)) eqn:Ej; cbn; [rewrite dict_get_set, decide_False by done|]; (split; [set_solver|done]).
  - injection E as <-. destruct H as [Hu Hm]. unfold evict, holds_key. destruct (dict_get j (_entries p)) eqn:Ej; cbn; rewrite dict_get_del, decide_False by done; (split; [set_solver|done]).
  - by injection E as <-.
Qed.


(** *** What a call comes to *)
Definition subject (a : action) : option nat := match a with Acquire t _ | Resume t | Cancel t | Loaded t _ _ _ => Some t | _ => None end.
(** The entry of a key was trimmed as it was made, when all the others were in use. *)
Definition trimmed_at_once (k : Key) (m : nat) (a : list happening) : Prop := exists a1 a2, a = a1 ++ Inserted k m :: a2 /\ Trimmed k true ∈ a2.
Definition came_to (t : nat) (k : Key) (p : Pool) : Prop :=
  match calls p !! t with
  | Some c => about k (Some c)
  | None => (exists a m, history p = a ++ [Got t k m] /\ (holds_key k m p \/ trimmed_at_once k m a)) \/ exists a, history p = a ++ [Raised t k]
  end.
Definition grows (t : option nat) (p p' : Pool) : Prop := (exists hs, history p' = history p ++ hs) /\ forall u, t <> Some u -> calls p' !! u = calls p !! u.
Lemma grows_trans t p q r : grows t p q -> grows t q r -> grows t p r.
Proof. intros [(h1&E1) H1] [(h2&E2) H2]. split; [exists (h1 ++ h2); by rewrite E2, E1, app_assoc|]. intros u Hu. by rewrite H2, H1. Qed.
Lemma grows_same t p p' : history p' = history p -> calls p' = calls p -> grows t p p'.
Proof. intros E1 E2. split; [exists []; by rewrite app_nil_r|by rewrite E2]. Qed.
Lemma grows_exits t k r p : grows (Some t) p (exits t k r p).
Proof. unfold exits. destruct (lock_release _); (split; [by eexists|intros u Hu; cbn; apply lookup_delete_ne; congruence]). Qed.
Lemma grows_looks_up t k p : grows (Some t) p (looks_up t k p).
Proof.
  unfold looks_up. destruct (dict_get k _); [eapply grows_trans; [|apply grows_exits]; by apply grows_same|]. split; [by eexists|]. intros u Hu. cbn. apply lookup_insert_ne. congruence.
Qed.
Lemma exits_sound t k r p : sound (Some (t, k)) p -> calls (exits t k r p) !! t = None /\ history (exits t k r p) = history p ++ [match r with Some m => Got t k m | None => Raised t k end].
Proof. intros H. unfold exits. destruct (sound_exits t k p H) as (l&->&_). cbn. by rewrite lookup_delete_eq. Qed.
Lemma looks_up_came t k p : sound (Some (t, k)) p -> came_to t k (looks_up t k p).
Proof.
  intros H. unfold looks_up. destruct (dict_get k (_entries p)) as [e|] eqn:E; [|unfold came_to; cbn; by rewrite lookup_insert_eq].
  unfold hands_out. set (q := with_entries _ _ p). assert (Hq : sound (Some (t, k)) q) by by destruct H. unfold came_to. destruct (exits_sound t k (Some (wm e)) q Hq) as [-> ->]. left. exists (history q), (wm e). split; [done|left].
  apply holds_exits. split; [set_solver|]. cbn. by rewrite E.
Qed.
Lemma loaded_came t now users r k p : inv None p -> timed p -> calls p !! t = Some (Loading k) -> monotonic p = now -> forall p', loaded t now users r p = Some p' -> came_to t k p' /\ grows (Some t) p p'.
Proof.
  intros Hi Ht Hc Hnow p' E. pose proof Hi as [Hs HA]. destruct (sound_loaded t k p Hs Hc) as (Hs'&_&_). pose proof Hs as [H1 _ _ H5]. specialize (H5 t k Hc) as Hnone.
  assert (Hg : grows (Some t) p (ends t p)) by (split; [exists []; by rewrite app_nil_r|intros u Hu; cbn; apply lookup_delete_ne; congruence]).
  unfold loaded in E. rewrite Hc in E. destruct r as [r|]; injection E as <-.
  - set (m := length _) in *. set (q := happens [Inserted k m] _) in *. pose proof (inserted_inv t k m now (objects p ++ [_rehydrate r]) p Hi Hc) as [Hq HqA]. pose proof Hq as [Hqn _ _ _].
    pose proof (trim_inv users (Some (t, k)) q (conj Hq HqA)) as [Hw _]. destruct (evict_entries users q Hqn) as (_&Eu&_&Ec&Eh&_&_).
    set (w := happens (trimmed q (_evict_to_cap users q)) (_evict_to_cap users q)) in *. assert (Hw' : sound (Some (t, k)) (with_entries (_entries w) ({[k]} ∪ _in_use w) w)) by by destruct Hw.
    split.
    + unfold came_to, hands_out. destruct (exits_sound t k (Some m) _ Hw') as [-> ->]. left. eexists _, m. split; [done|]. destruct (dict_get k (_entries (_evict_to_cap users q))) as [e|] eqn:Ek.
      * left. apply holds_exits. split; [set_solver|]. cbn. rewrite Ek. cbn. f_equal. assert (Hin : (k, e) ∈ _entries q). { eapply elem_of_submseteq; [by apply dict_get_elem|]. by apply sublist_submseteq, (evict_entries users q Hqn). }
        apply (dict_elem_get k e) in Hin; [|done]. cbn in Hin. rewrite dict_get_set, decide_True in Hin by done. by injection Hin as <-.
      * right. exists (history p), (trimmed q (_evict_to_cap users q)). split; [subst w; cbn [history happens with_entries]; rewrite Eh; cbn; by rewrite <- app_assoc|].
        assert (Hd : forall e (d : list (Key * _PoolEntry)), dict_get k d = None -> dict_set k e d = d ++ [(k, e)]) by (intros e d; induction d as [|[j w'] d IH]; cbn; [done|case_decide; [done|intros Hk; by rewrite IH]]).
        assert (Hidle : idle (_evict_to_cap users q) = []).
        { eapply fresh_trim; [exact Hqn|cbn; by apply Hd| |done]. intros x Hx. cbn. specialize (Ht x Hx). lia. }
        unfold trimmed. rewrite Hidle, bool_decide_eq_true_2 by done. apply list_elem_of_fmap. exists (k, {| wm := m; last_released_at := now |}). split; [done|]. apply list_elem_of_filter. split; [by apply dict_get_None|]. cbn. rewrite Hd by done. set_solver.
    + unfold hands_out. eapply grows_trans; [exact Hg|]. eapply grows_trans; [|apply grows_exits]. split; [|intros u _; subst w; cbn; by rewrite Ec]. subst w. cbn [history happens with_entries]. rewrite Eh. eexists. cbn. by rewrite <- app_assoc.
  - assert (Hf : sound (Some (t, k)) (happens [LoadFailed k] (ends t p))) by by destruct Hs'. split.
    + unfold came_to. destruct (exits_sound t k None _ Hf) as [-> ->]. right. by eexists.
    + eapply grows_trans; [exact Hg|]. eapply grows_trans; [|apply grows_exits]. split; [by eexists|done].
Qed.
Lemma resumes_came t k c p p' : inv None p -> calls p !! t = Some (Locking k c) -> resumes t p = Some p' -> came_to t k p' /\ grows (Some t) p p'.
Proof.
  intros [Hs HA] Hc E. pose proof Hs as [H1 H2 H4 H5]. unfold resumes in E. rewrite Hc in E. destruct (lock_future t (_get_lock k p)) as [f|] eqn:Hf; [|done]. assert (Hfp : f <> Pending) by by destruct f.
  set (cancelled := c || bool_decide (f = Dead)) in *.
  assert (E' : p' = if cancelled then happens [Raised t k] (ends t (with_lock k (lock_resume t cancelled (_get_lock k p)) p)) else looks_up t k (with_lock k (lock_resume t cancelled (_get_lock k p)) p)) by (by destruct f; [|injection E|injection E]).
  clear E. destruct (guards_resume _ _ _ _ t f (H2 k) (ex_intro _ c Hc) Hf Hfp cancelled) as [Hg Hno].
  { intros ->. subst cancelled. by rewrite orb_true_r. }
  set (l := lock_resume t cancelled (_get_lock k p)) in *. rewrite E'. destruct cancelled.
  - split; [unfold came_to; cbn; rewrite lookup_delete_eq; right; by eexists|]. split; [by eexists|]. intros u Hu. cbn. apply lookup_delete_ne. congruence.
  - split; [|eapply grows_trans; [|apply grows_looks_up]; by apply grows_same]. rewrite <- looks_up_ends. apply looks_up_came.
    apply (sound_moves None _ t); try done; [by left|by right|intros u Hu; cbn; by simplify_map_eq|by rewrite Hc|cbn; by simplify_map_eq| |intros _; cbn; by simplify_map_eq|cbn; by simplify_map_eq].
    eapply guards_ext; [exact Hg|..]; cbn [calls with_lock]; intros u; specialize (Hno eq_refl u); destruct (decide (u = t)) as [->|Hu]; simplify_map_eq; naive_solver.
Qed.
Lemma acquire_came t k p : inv None p -> calls p !! t = None -> came_to t k (acquire t k p) /\ grows (Some t) p (acquire t k p).
Proof.
  intros [Hs HA] Hc. pose proof Hs as [H1 H2 H4 H5]. unfold acquire. pose proof (guards_acquire _ _ _ _ t (H2 k)) as Hg. cbn beta in Hg. rewrite Hc in Hg. specialize (Hg ltac:(naive_solver) ltac:(naive_solver) ltac:(done)).
  destruct (lock_acquire t (_get_lock k p)) as [[] l].
  - destruct Hg as [Hno Hg]. split; [|eapply grows_trans; [|apply grows_looks_up]; by apply grows_same]. apply looks_up_came.
    apply (sound_moves None (Some (t, k)) t _ l (calls p)); try done; [by left|by right|by rewrite Hc|by rewrite Hc| |by rewrite Hc].
    eapply guards_ext; [exact Hg|..|done|done]. intros u. split; [|intros ->; by right]. intros [Hu|[= ->]]; [|done]. destruct (Hno u). by left.
  - split; [unfold came_to; cbn; by rewrite lookup_insert_eq|]. split; [exists []; by rewrite app_nil_r|]. intros u Hu. cbn. apply lookup_insert_ne. congruence.
Qed.
Lemma step_came t k a p p' : inv None p -> timed p -> step a p = Some p' -> subject a = Some t -> match a with Acquire _ j => j = k | Cancel _ => False | _ => about k (calls p !! t) /\ is_Some (calls p !! t) end ->
  came_to t k p' /\ grows (Some t) p p'.
Proof.
  intros Hi Ht E Ha Hk. unfold step in E. destruct (Z.ltb_spec (default (monotonic p) (reads a)) (monotonic p)) as [|Hc]; [done|]. set (q := with_clock (default (monotonic p) (reads a)) p) in *.
  assert (Hq : inv None q) by by apply inv_clock. assert (Hg : grows (Some t) p q) by by apply grows_same. assert (Htq : timed q) by (intros x Hx; specialize (Ht x Hx); cbn; lia).
  cut (came_to t k p' /\ grows (Some t) q p'); [intros [H1 H2]; split; [done|eapply grows_trans; [exact Hg|exact H2]]|]. destruct a as [u j|u|u|u now users r|j now|j|o x]; cbn in Ha; simplify_eq.
  - destruct (calls q !! t) eqn:Eq; [done|]. injection E as <-. by apply acquire_came.
  - destruct Hk as [Hk [c Hc']]. destruct c as [j b|j]; [|unfold resumes in E; change (calls q) with (calls p) in E; by rewrite Hc' in E]. rewrite Hc' in Hk. cbn in Hk. subst j. by eapply resumes_came.
  - done.
  - destruct Hk as [Hk [c Hc']]. destruct c as [j b|j]; [unfold loaded in E; change (calls q) with (calls p) in E; by rewrite Hc' in E|]. rewrite Hc' in Hk. cbn in Hk. subst j. by apply (loaded_came t now users r k q).
Qed.
Lemma grows_loaded t now users r p p' : loaded t now users r p = Some p' -> grows (Some t) p p'.
Proof.
  unfold loaded. destruct (calls p !! t) as [[|k]|]; [done| |done]. assert (Hg : grows (Some t) p (ends t p)) by (split; [exists []; by rewrite app_nil_r|intros u Hu; cbn; apply lookup_delete_ne; congruence]).
  destruct r as [r|]; intros [= <-]; (eapply grows_trans; [exact Hg|]); (eapply grows_trans; [|apply grows_exits]); [|split; [by eexists|done]].
  set (q := happens [Inserted k _] _). assert (Hq : history (_evict_to_cap users q) = history q /\ calls (_evict_to_cap users q) = calls q) by (unfold _evict_to_cap; by destruct (_ <=? _)).
  destruct Hq as [E1 E2]. split; [|intros u _; cbn; by rewrite E2]. cbn [history happens with_entries]. rewrite E1. eexists. cbn. by rewrite <- app_assoc.
Qed.
Lemma pool_step_grows a p p' : step a p = Some p' -> grows (subject a) p p'.
Proof.
  intros E. unfold step in E. destruct (_ <? _); [done|]. set (q := with_clock _ p) in *. assert (Hg : grows (subject a) p q) by by apply grows_same. eapply grows_trans; [exact Hg|]. clear Hg. clearbody q.
  destruct a as [t k|t|t|t now users r|j now|j|o x]; cbn in E |- *.
  - destruct (calls q !! t); [done|]. injection E as <-. unfold acquire. destruct (lock_acquire t _) as [[] l]; [eapply grows_trans; [|apply grows_looks_up]; by apply grows_same|].
    split; [exists []; by rewrite app_nil_r|]. intros u Hu. cbn. apply lookup_insert_ne. congruence.
  - unfold resumes in E. destruct (calls q !! t) as [[k c|k]|]; [|done..]. destruct (lock_future t _) as [[]|]; [done| | |done]; injection E as <-; destruct (c || _).
    all: first [eapply grows_trans; [|apply grows_looks_up]; by apply grows_same|split; [by eexists|intros u Hu; cbn; apply lookup_delete_ne; congruence]].
  - unfold cancels in E. destruct (calls q !! t) as [[k c|k]|]; [|done..]. injection E as <-. split; [exists []; by rewrite app_nil_r|]. intros u Hu. cbn. apply lookup_insert_ne. congruence.
  - by eapply grows_loaded.
  - injection E as <-. unfold release. destruct (dict_get j _); by apply grows_same.
  - injection E as <-. unfold evict. destruct (dict_get j _); [split; [by eexists|done]|by apply grows_same].
  - injection E as <-. by apply grows_same.
Qed.
Lemma cancel_came t k c p p' : step (Cancel t) p = Some p' -> calls p !! t = Some c -> about k (Some c) -> exists c', calls p' !! t = Some c' /\ about k (Some c').
Proof.
  unfold step. cbn. rewrite Z.ltb_irrefl. unfold cancels. cbn. intros E Hc Hk. rewrite Hc in E. destruct c as [j b|j]; [|done]. injection E as <-. cbn. rewrite lookup_insert_eq. by eexists.
Qed.
(** The memory that [acquire] returned is the pool's, unless its key was removed since or its
    entry was trimmed at once. *)
Definition kept (t : nat) (k : Key) (m : nat) (p : Pool) : Prop := exists a b, history p = a ++ Got t k m :: b /\ (holds_key k m p \/ Removed k ∈ b \/ trimmed_at_once k m a).
Lemma kept_got t k m p : came_to t k p -> calls p !! t = None -> last (history p) = Some (Got t k m) -> kept t k m p.
Proof.
  unfold came_to. intros H Hc Hl. rewrite Hc in H. destruct H as [(a&m'&E&H)|(a&E)]; rewrite E, last_snoc in Hl; [injection Hl as ->|done]. exists a, []. split; [done|]. tauto.
Qed.
Lemma kept_step a t k m p p' : inv None p -> step a p = Some p' -> (forall now, a <> Release k now) -> kept t k m p -> kept t k m p'.
Proof.
  intros Hi E Ha (l&b&El&H). destruct (pool_step_grows a p p' E) as [(hs&Eh) _]. exists l, (b ++ hs). rewrite Eh, El, <- app_assoc. split; [done|]. destruct H as [H|[H|H]]; [|right; left; set_solver|by right; right].
  assert (Hcase : a = Evict k \/ keeps_key k a).
  { destruct a as [| | | |j now|j|]; cbn; try by right. - right. intros ->. by eapply Ha. - destruct (decide (j = k)) as [->|]; [by left|by right]. }
  destruct Hcase as [->|Hk].
  - right. left. unfold step in E. cbn in E. rewrite Z.ltb_irrefl in E. injection E as <-. destruct H as [Hu Hm]. unfold evict in Eh. cbn in Eh. destruct (dict_get k (_entries p)); [|done]. cbn in Eh. apply app_inv_head in Eh as <-. set_solver.
  - left. by eapply holds_step.
Qed.

(** *** The objects are one key's each *)
Definition made_for (x : happening) : option Key := match x with Inserted k _ => Some k | _ => None end.
Definition numbered (p : Pool) : Prop := length (omap made_for (history p)) = length (objects p) /\ forall k m, Inserted k m ∈ history p -> omap made_for (history p) !! m = Some k.
Lemma numbered_more p p' hs : numbered p -> history p' = history p ++ hs -> length (objects p') = length (objects p) -> (forall x, x ∈ hs -> made_for x = None) -> numbered p'.
Proof.
  intros [H1 H2] Eh Eo Hs. assert (Hn : omap made_for hs = []).
  { clear -Hs. induction hs as [|x hs IH]; [done|]. cbn. rewrite (Hs x), IH by set_solver. done. }
  split; rewrite Eh, omap_app, Hn, app_nil_r; [by rewrite Eo|]. intros k m [Hk|Hk]%elem_of_app; [by apply H2|]. by specialize (Hs _ Hk).
Qed.
Lemma numbered_exits t k r p : numbered p -> numbered (exits t k r p).
Proof. intros H. unfold exits. destruct (lock_release _); (eapply (numbered_more p _ [_]); [done|done|done|]); intros x ->%list_elem_of_singleton; by destruct r. Qed.
Lemma numbered_looks_up t k p : numbered p -> numbered (looks_up t k p).
Proof. intros H. unfold looks_up. destruct (dict_get k _); [by apply numbered_exits|]. eapply (numbered_more p _ [_]); [done|done|done|]. by intros x ->%list_elem_of_singleton. Qed.
Lemma numbered_step a p p' : numbered p -> step a p = Some p' -> numbered p'.
Proof.
  intros H E. unfold step in E. destruct (_ <? _); [done|]. set (q := with_clock _ p) in *. assert (Hq : numbered q) by exact H. clearbody q. clear H p. rename Hq into H.
  destruct a as [t k|t|t|t now users r|j now|j|o x]; cbn in E.
  - destruct (calls q !! t); [done|]. injection E as <-. unfold acquire. destruct (lock_acquire t _) as [[] l]; [by apply numbered_looks_up|done].
  - unfold resumes in E. destruct (calls q !! t) as [[k c|k]|]; [|done..]. destruct (lock_future t _) as [[]|]; [done| | |done]; injection E as <-; destruct (c || _).
    all: first [by apply numbered_looks_up|eapply (numbered_more q _ [_]); [done|done|done|by intros x ->%list_elem_of_singleton]].
  - unfold cancels in E. destruct (calls q !! t) as [[k c|k]|]; [|done..]. by injection E as <-.
  - unfold loaded in E. destruct (calls q !! t) as [[|k]|]; [done| |done]. destruct r as [r|]; injection E as <-; apply numbered_exits.
    + set (w := happens [Inserted k _] _). assert (Hw : numbered w).
      { destruct H as [H1 H2]. split; subst w; cbn; rewrite omap_app; cbn; [rewrite !length_app; cbn; lia|]. intros k' m [Hk|Hk%list_elem_of_singleton]%elem_of_app; [by apply lookup_app_l_Some, H2|]. injection Hk as -> ->. rewrite <- H1. by apply list_lookup_middle. }
      assert (Ew : history (_evict_to_cap users w) = history w /\ objects (_evict_to_cap users w) = objects w) by (unfold _evict_to_cap; by destruct (_ <=? _)). destruct Ew as [E1 E2].
      eapply (numbered_more w _ (trimmed w (_evict_to_cap users w))); [exact Hw|cbn; by rewrite E1|cbn; by rewrite E2|]. unfold trimmed. by intros x (y&->&_)%list_elem_of_fmap.
    + eapply (numbered_more q _ [_]); [done|done|done|]. by intros x ->%list_elem_of_singleton.
  - injection E as <-. unfold release. by destruct (dict_get j _).
  - injection E as <-. unfold evict. destruct (dict_get j _); [|done]. eapply (numbered_more q _ [_]); [done|done|done|]. by intros x ->%list_elem_of_singleton.
  - injection E as <-. destruct H as [H1 H2]. split; cbn; [by rewrite length_alter|done].
Qed.
Lemma latest_inserted k h m : latest k h = Some m -> Inserted k m ∈ h.
Proof.
  induction h as [|x h IH] using rev_ind; [done|]. rewrite latest_app. destruct x; try (intros H; specialize (IH H); set_solver). case_decide as E; [intros [= ->]; subst; set_solver|intros H; specialize (IH H); set_solver].
Qed.
Lemma got_key t u k j m p : inv None p -> numbered p -> Got t k m ∈ history p -> Got u j m ∈ history p -> k = j.
Proof.
  intros [_ [_ _ _ Hg]] [_ Hn] (a&b&E)%list_elem_of_split (c&d&E')%list_elem_of_split. assert (H1 : Inserted k m ∈ history p) by (rewrite E; apply Hg, latest_inserted in E; set_solver).
  assert (H2 : Inserted j m ∈ history p) by (rewrite E'; apply Hg, latest_inserted in E'; set_solver). apply Hn in H1, H2. congruence.
Qed.

(** ** The properties *)
(** C20: for every sequence of calls, cancellations, releases and removals, and every key:
    the loads begun are the failed ones, plus one for every time the key left the pool, plus
    the one whose memory is in the pool, plus the one that is on; at most one task loads a
    key; every [acquire] returns the last memory made for its key, which is the one in the
    pool while there is one; and a key's lock that nobody holds has no first waiter that has
    not been woken. *)
Theorem one_load_per_residence n l p k : run l (new_pool n) = Some p ->
  loads k (history p) = failures k (history p) + removals k (history p) + present k p + (if locked (_get_lock k p) then 1 else 0) /\
  (forall t u, calls p !! t = Some (Loading k) -> calls p !! u = Some (Loading k) -> t = u) /\
  (forall a t m b, history p = a ++ Got t k m :: b -> latest k a = Some m) /\
  (forall e, dict_get k (_entries p) = Some e -> latest k (history p) = Some (wm e)) /\
  (if locked (_get_lock k p) then exists t, calls p !! t = Some (Loading k) else snd <$> head (waiters (_get_lock k p)) <> Some Pending).
Proof.
  intros H. apply pool_run_inv in H as [[H1 H2 H4 H5] [A1 A2 A3 A4]]; [|apply new_pool_inv]. destruct (H2 k) as (o&Hl&Ho&_). split_and!.
  - rewrite (A1 k), (A2 k). unfold loading. cbn. rewrite andb_true_r. lia.
  - intros t u Ht Hu. assert (o = Some t) by (apply Ho; by left). assert (o = Some u) by (apply Ho; by left). congruence.
  - intros a t m b E. by eapply A4.
  - apply A3.
  - pose proof (ok_locked _ _ Hl) as El. destruct (locked _); [|apply Hl; by destruct o]. destruct o as [t|]; [|done]. exists t. by destruct (proj1 (Ho t) eq_refl).
Qed.

Definition kA : Key := ("alfred", "ann"). 
Definition kB : Key := ("alfred", "bob").
Definition kC : Key := ("alfred", "cid").
(** Three tasks ask for one key while the first one loads it; the second gives up. *)
Definition contended : list action := [Acquire 1 kA; Acquire 2 kA; Acquire 3 kA; Cancel 2; Loaded 1 5 1 (Some []); Resume 2; Resume 3].
Lemma one_load_per_residence_witness : option_map history (run contended (new_pool None)) = Some [LoadBegun kA; Inserted kA 0; Got 1 kA 0; Raised 2 kA; Got 3 kA 0] /\
  exists p, run contended (new_pool None) = Some p /\ loads kA (history p) = 1.
Proof.
  split; [by vm_compute|]. destruct (run contended (new_pool None)) as [p|] eqn:E; [|by vm_compute in E]. exists p. split; [done|].
  destruct (one_load_per_residence None contended p kA E) as (Hc&_). rewrite Hc. vm_compute in E. injection E as <-. by vm_compute.
Defined.

(** The trim of any pool that is reached keeps the order of the entries, leaves as many
    as the cap allows or as are in use, whichever is more, takes no entry whose key is in
    use, and takes none that became idle later than an idle one it leaves. *)
Theorem trim_takes_the_oldest_idle_entries n l p users : run l (new_pool n) = Some p -> let p' := _evict_to_cap users p in
  sublist (_entries p') (_entries p) /\
  Zlen (_entries p') = Z.min (Zlen (_entries p)) (Z.max (_cap users p) (Zlen (filter (fun x => x.1 ∈ _in_use p) (_entries p)))) /\
  (forall x, x ∈ _entries p -> x ∉ _entries p' -> (x.1 ∉ _in_use p) /\ forall y, y ∈ idle p' -> last_released_at x.2 <= last_released_at y.2).
Proof.
  intros H p'. apply pool_run_inv in H as [[Hn _ _ _] _]; [|apply new_pool_inv]. destruct (evict_entries users p Hn) as (E1&E2&_&_&_&_&E7). split; [done|].
  destruct (evict_spec users p Hn) as (m&Em&Hm&Hlen&Hle&Hge). destruct (idle_keys_in p Hn) as (K1&K2&K3). fold p' in Em, E1, E2, E7. split.
  - rewrite Em. cbn [_entries with_entries]. rewrite Hlen. assert (Hsum : Zlen (_entries p) = Zlen (filter (fun x => x.1 ∈ _in_use p) (_entries p)) + Z.of_nat (length (idle p))).
    { unfold idle, Zlen. clear. induction (_entries p) as [|x es IH]; [done|]. rewrite !filter_cons. destruct (decide (x.1 ∈ _in_use p)); [rewrite decide_False by tauto|rewrite decide_True by done]; cbn [length]; lia. }
    rewrite K3 in *. lia.
  - intros x Hx Hx'. destruct (E7 x Hx Hx') as [Hu Hk]. split; [done|]. intros y [Hyu Hy]%list_elem_of_filter. rewrite E2 in Hyu.
    pose proof (sorted_by_sorted idle_before (idle p) (fun a b => ltac:(unfold idle_before; lia)) (fun a b c => ltac:(unfold idle_before; lia))) as Hs.
    set (s := sorted_by idle_before (idle p)) in *. rewrite <- (take_drop m s) in Hs. apply StronglySorted_app_1_elem_of with (x1 := x) (x2 := y) in Hs; [unfold idle_before in Hs; lia| |].
    all: assert (Hin : forall z, z ∈ _entries p -> z.1 ∉ _in_use p -> z ∈ s) by (intros z Hz Hzu; subst s; rewrite sorted_by_perm; by apply list_elem_of_filter).
    + specialize (Hin x Hx Hu). rewrite <- (take_drop m s), elem_of_app in Hin. destruct Hin as [|Hd]; [done|]. exfalso. apply Hx'. rewrite Em. cbn. apply list_elem_of_filter. split; [|done]. intros Ht.
      unfold dict_keys in Ht, K1. rewrite <- (take_drop m s), fmap_app in K1. rewrite <- fmap_take in Ht. apply NoDup_app in K1 as (_&Hd'&_). apply (Hd' x.1); [done|]. by apply list_elem_of_fmap_2.
    + rewrite Em in Hy. cbn in Hy. apply list_elem_of_filter in Hy as [Hyk Hye]. specialize (Hin y Hye Hyu). rewrite <- (take_drop m s), elem_of_app in Hin. destruct Hin as [Ht|]; [|done]. exfalso. apply Hyk. unfold dict_keys. rewrite <- fmap_take. by apply list_elem_of_fmap_2.
Qed.

(** Two entries under a cap of one, of which one is in use. *)
Definition oversubscribed : list action := [Acquire 1 kA; Loaded 1 1 1 (Some []); Acquire 2 kB; Loaded 2 2 1 (Some []); Acquire 3 kB; Loaded 3 3 1 (Some []); Release kA 4].
Lemma trim_takes_the_oldest_idle_entries_witness : exists p, run oversubscribed (new_pool (Some 1)) = Some p /\ Zlen (_entries p) = 2 /\ Zlen (_entries (_evict_to_cap 1 p)) = 1.
Proof.
  destruct (run oversubscribed (new_pool (Some 1))) as [p|] eqn:E; [|by vm_compute in E]. exists p. split; [done|].
  destruct (trim_takes_the_oldest_idle_entries (Some 1) oversubscribed p 1 E) as (_&Hz&_). rewrite Hz. vm_compute in E. injection E as <-. by vm_compute.
Defined.

(** *** What it does not keep *)
(** When every other entry is in use, the entry a load has just made is the only one the
    trim may take, and its key is marked in use after that: the memory handed out is not in
    the pool, and the next [acquire] makes a second one. *)
Theorem full_pool_trims_the_entry_it_just_made :
  option_map history (run [Acquire 1 kA; Loaded 1 1 1 (Some []); Acquire 2 kB; Loaded 2 2 1 (Some []); Acquire 3 kB; Loaded 3 3 1 (Some [])] (new_pool (Some 1)))
  = Some [LoadBegun kA; Inserted kA 0; Got 1 kA 0; LoadBegun kB; Inserted kB 1; Trimmed kB true; Got 2 kB 1; LoadBegun kB; Inserted kB 2; Got 3 kB 2].
Proof. by vm_compute. Qed.
(** The keys in use are a set: the first of two holders to release makes the entry idle, and
    a trim takes it under the second. *)
Theorem second_holder_loses_its_entry :
  option_map history (run [Acquire 1 kA; Loaded 1 1 1 (Some []); Acquire 2 kA; Release kA 2; Acquire 3 kB; Loaded 3 3 1 (Some []); Acquire 4 kA; Loaded 4 4 1 (Some [])] (new_pool (Some 1)))
  = Some [LoadBegun kA; Inserted kA 0; Got 1 kA 0; Got 2 kA 0; LoadBegun kB; Inserted kB 1; Trimmed kA false; Got 3 kB 1; LoadBegun kA; Inserted kA 2; Trimmed kA true; Got 4 kA 2].
Proof. by vm_compute. Qed.
