(* ===== verification/RealTurn.v ===== *)
(** * The turn adapter

    [RealTurnOrchestratorAdapter] of [comms_mcp/real_turn_adapter.py], over the pool of
    working memories. [ingest], with [downgrade_to_orchestrator] of [security/quarantine.py],
    is a program over its collaborators. [dispatch] runs in many tasks at once: a task is
    where it waits, and a step is what one task does between two awaits; the turn, the audit
    writes, the scan and the send are inputs. [_locks_guard] is held over no await, so it never
    makes a task wait; the language of the task's context is left out. *)
From S2P Require Import Prelude BudgetGuard TurnWorld AsyncLock WorkingPool Programs.
#[local] Open Scope Z_scope.
#[local] Open Scope prog_scope.

Inductive _RefusalStage := downgrade_denied | downgrade_malformed | budget_denied | dlp_canary_tripped | turn_error | send_failed.
Definition _PERSONA : string := "alfred".

(** ** ingest *)
Inductive value := VStr (s : text) | VOther.
Inductive ExtractionResult := Extracted (data : gmap string value) | TypedRefusal.
Record InboundNotification := { n_adapter_id : string; n_inbound_id : string; n_platform_user_id : string }.
Record _InboundUser := { slug : string; display_name : string; language : string }.
Record TurnEgressContext := { egress_adapter : string; egress_inbound : string; egress_session : string }.
Record _PreparedTurn := { p_content : text; p_user : _InboundUser; p_egress : TurnEgressContext; p_adapter_id : string; p_target_platform_id : string }.
Inductive _IngestOutcome := Prepared (p : _PreparedTurn) | _RefusalReply (adapter_id target_platform_id : string) | _HaltNoReply (s : _RefusalStage).
Inductive op : Type -> Type :=
| CheckContentClearance : op bool
| AppendDowngrade : op unit
| AppendRefused (s : _RefusalStage) : op unit.
#[local] Abbreviation prog := (program exn op).

Definition downgrade_to_orchestrator (data : gmap string value) : prog (gmap string value) :=
  allowed <~ call CheckContentClearance;
  if (allowed : bool) then call AppendDowngrade ;; ret data else raise DowngradeDeniedError.
Definition _emit_refused (s : _RefusalStage) : prog unit := call (AppendRefused s).
Definition is_downgrade_denied (e : exn) : bool := match e with DowngradeDeniedError => true | _ => false end.
Definition ingest (n : InboundNotification) (extracted : ExtractionResult) (canonical_user_id lang name : string) : prog _IngestOutcome :=
  match extracted with
  | TypedRefusal => ret (_RefusalReply (n_adapter_id n) (n_platform_user_id n))
  | Extracted data =>
      cleared <~ except is_downgrade_denied (d <~ downgrade_to_orchestrator data; ret (Some d)) (fun _ => _emit_refused downgrade_denied ;; ret None);
      match cleared with
      | None => ret (_HaltNoReply downgrade_denied)
      | Some cleared =>
          match cleared !! "text" with
          | Some (VStr t) => ret (Prepared {|
              p_content := t; p_user := {| slug := canonical_user_id; display_name := name; language := lang |};
              p_egress := {| egress_adapter := n_adapter_id n; egress_inbound := n_inbound_id n; egress_session := canonical_user_id |};
              p_adapter_id := n_adapter_id n; p_target_platform_id := n_platform_user_id n |})
          | _ => _emit_refused downgrade_malformed ;; ret (_HaltNoReply downgrade_malformed)
          end
      end
  end.

(** ** dispatch *)
(** Where a task waits: for the turn lock (with the cancellation it is to be delivered), in
    [acquire] of the pool, in [handle_user_message], in the audit write of a handler inside
    the lock (with how the handler ends), in [send_outbound], or in the audit write of the
    send's handler. *)
Inductive frame :=
| WaitTurn (k : Key) (cancelling : bool) | InAcquire (k : Key) | Turning (k : Key) (m : nat)
| Refusing (k : Key) (m : nat) (s : _RefusalStage) (after : result exn unit)
| Sending (with_context : bool) (scanned : text) | SendRefusing (e : exn) | Done (r : result exn unit).
Inductive event :=
| Began (t : nat) (x : option _IngestOutcome) | SenderUnbound (t : nat)
| Row (t : nat) (s : _RefusalStage) | Unwritten (t : nat) (s : _RefusalStage) | Turned (t : nat) (answer : text) | Sent (t : nat) (body : text)
| NotAcquired (t : nat).
Record adapter := { sender_bound : bool; _turn_locks : gmap Key Lock; _pool : Pool; frames : gmap nat frame; told : list event }.
Definition set_frame (t : nat) (f : frame) (s : adapter) : adapter :=
  {| sender_bound := sender_bound s; _turn_locks := _turn_locks s; _pool := _pool s; frames := <[t := f]> (frames s); told := told s |}.
Definition set_turn_lock (k : Key) (l : Lock) (s : adapter) : adapter :=
  {| sender_bound := sender_bound s; _turn_locks := <[k := l]> (_turn_locks s); _pool := _pool s; frames := frames s; told := told s |}.
Definition set_pool (p : Pool) (s : adapter) : adapter :=
  {| sender_bound := sender_bound s; _turn_locks := _turn_locks s; _pool := p; frames := frames s; told := told s |}.
Definition tell (es : list event) (s : adapter) : adapter :=
  {| sender_bound := sender_bound s; _turn_locks := _turn_locks s; _pool := _pool s; frames := frames s; told := told s ++ es |}.
Definition bind_outbound_sender (s : adapter) : adapter :=
  {| sender_bound := true; _turn_locks := _turn_locks s; _pool := _pool s; frames := frames s; told := told s |}.
Definition new_adapter (max_entries : option Z) : adapter := {| sender_bound := false; _turn_locks := ∅; _pool := new_pool max_entries; frames := ∅; told := [] |}.

Section dispatch.
(** The scan of the outbound body, synchronous. *)
Variable scan_for_outbound : text -> result exn text.

Definition _turn_lock_for (k : Key) (s : adapter) : Lock := default new_lock (_turn_locks s !! k).
(** [_send] up to its await: the request is built from the scanned body. *)
Definition _send (t : nat) (with_context : bool) (body : text) (s : adapter) : adapter :=
  match scan_for_outbound body with
  | Ok b => set_frame t (Sending with_context b) s
  | Err e => set_frame t (if is_exception e && with_context then SendRefusing e else Done (Err e)) s
  end.
(** The exit of [async with lock], and what comes after it. *)
Definition leaves (t : nat) (k : Key) (after : adapter -> adapter) (s : adapter) : adapter :=
  match lock_release (_turn_lock_for k s) with
  | Some l => after (set_turn_lock k l s)
  | None => set_frame t (Done (Err RuntimeError)) s
  end.
(** The [finally] clause, then the exit. *)
Definition finishes (t : nat) (k : Key) (now : Z) (after : adapter -> adapter) (s : adapter) : option adapter :=
  p ← WorkingPool.step (Release k now) (_pool s); Some (leaves t k after (set_pool p s)).
(** What a call of [acquire] has come to; [e] is what it raised, if it raised. *)
Definition after_acquire (t : nat) (k : Key) (e : exn) (s : adapter) : adapter :=
  match calls (_pool s) !! t with
  | Some _ => set_frame t (InAcquire k) s
  | None => match last (history (_pool s)) with
            | Some (Got _ _ m) => set_frame t (Turning k m) s
            | _ => leaves t k (set_frame t (Done (Err e))) (tell [NotAcquired t] s)
            end
  end.
Definition acquires (t : nat) (k : Key) (s : adapter) : option adapter :=
  p ← WorkingPool.step (Acquire t k) (_pool s); Some (after_acquire t k RuntimeError (set_pool p s)).
Definition key_of (p : _PreparedTurn) : Key := (_PERSONA, slug (p_user p)).
(** [dispatch] up to its first await. *)
Definition dispatch (t : nat) (ingested : option _IngestOutcome) (reply : text) (s : adapter) : option adapter :=
  if negb (sender_bound s) then Some (set_frame t (Done (Err RuntimeError)) (tell [SenderUnbound t] s)) else
  match ingested with
  | Some (_HaltNoReply _) => Some (set_frame t (Done (Ok tt)) s)
  | Some (_RefusalReply _ _) => Some (_send t false reply s)
  | None => Some (set_frame t (Done (Err RuntimeError)) s)
  | Some (Prepared p) =>
      let k := key_of p in
      let '(got, l) := lock_acquire t (_turn_lock_for k s) in
      let s := set_turn_lock k l s in
      if got then acquires t k s else Some (set_frame t (WaitTurn k false) s)
  end.
(** A task that waited for the turn lock runs, or is cancelled. *)
Definition turn_resumes (t : nat) (s : adapter) : option adapter :=
  match frames s !! t with
  | Some (WaitTurn k cancelling) =>
      match lock_future t (_turn_lock_for k s) with
      | None | Some Pending => None
      | Some f =>
          let cancelled := cancelling || bool_decide (f = Dead) in
          let s := set_turn_lock k (lock_resume t cancelled (_turn_lock_for k s)) s in
          if cancelled then Some (set_frame t (Done (Err (CancelledError false))) s) else acquires t k s
      end
  | _ => None
  end.
Definition turn_cancels (t : nat) (s : adapter) : option adapter :=
  match frames s !! t with
  | Some (WaitTurn k _) => let l := _turn_lock_for k s in
      Some (set_turn_lock k (lock_cancel t l) (set_frame t (WaitTurn k (bool_decide (lock_future t l <> Some Pending))) s))
  | _ => None
  end.
(** [acquire] goes on: [a] is the step of the pool. *)
Definition pool_moves (t : nat) (a : action) (e : exn) (s : adapter) : option adapter :=
  match frames s !! t with
  | Some (InAcquire k) => p ← WorkingPool.step a (_pool s); Some (after_acquire t k e (set_pool p s))
  | _ => None
  end.
(** [handle_user_message] ends. *)
Definition turn_ends (t : nat) (now : Z) (r : result exn text) (s : adapter) : option adapter :=
  match frames s !! t with
  | Some (Turning k m) =>
      match r with
      | Ok answer => finishes t k now (_send t true answer) (tell [Turned t answer] s)
      | Err (Budget _) | Err PreCheckRefused => Some (set_frame t (Refusing k m budget_denied (Ok tt)) s)
      | Err OutboundCanaryTripped => Some (set_frame t (Refusing k m dlp_canary_tripped (Ok tt)) s)
      | Err e => if is_exception e then Some (set_frame t (Refusing k m turn_error (Err e)) s) else finishes t k now (set_frame t (Done (Err e))) s
      end
  | _ => None
  end.
Definition wrote (t : nat) (st : _RefusalStage) (r : result exn unit) : event := match r with Ok _ => Row t st | Err _ => Unwritten t st end.
Definition refusal_ends (t : nat) (now : Z) (r : result exn unit) (s : adapter) : option adapter :=
  match frames s !! t with
  | Some (Refusing k m st after) => finishes t k now (set_frame t (Done (match r with Ok _ => after | Err e => Err e end))) (tell [wrote t st r] s)
  | _ => None
  end.
Definition send_ends (t : nat) (r : result exn unit) (s : adapter) : option adapter :=
  match frames s !! t with
  | Some (Sending c b) => Some match r with
      | Ok _ => set_frame t (Done (Ok tt)) (tell [Sent t b] s)
      | Err e => set_frame t (if is_exception e && c then SendRefusing e else Done (Err e)) s
      end
  | _ => None
  end.
Definition send_refusal_ends (t : nat) (r : result exn unit) (s : adapter) : option adapter :=
  match frames s !! t with
  | Some (SendRefusing e) => Some (set_frame t (Done (match r with Ok _ => Err e | Err e' => Err e' end)) (tell [wrote t send_failed r] s))
  | _ => None
  end.

Inductive move :=
| Bind | Dispatch (t : nat) (x : option _IngestOutcome) (reply : text) | TurnResume (t : nat) | TurnCancel (t : nat)
| PoolResume (t : nat) | PoolCancel (t : nat) | PoolLoaded (t : nat) (now users : Z) (recent : option (list Turn)) (e : exn)
| Remember (t : nat) (x : Turn) | TurnEnds (t : nat) (now : Z) (r : result exn text) | RefusalEnds (t : nat) (now : Z) (r : result exn unit)
| SendEnds (t : nat) (r : result exn unit) | SendRefusalEnds (t : nat) (r : result exn unit) | Forget (k : Key).
Definition turn_step (a : move) (s : adapter) : option adapter :=
  match a with
  | Bind => Some (bind_outbound_sender s)
  | Dispatch t x reply => match frames s !! t with Some _ => None | None => dispatch t x reply (tell [Began t x] s) end
  | TurnResume t => turn_resumes t s
  | TurnCancel t => turn_cancels t s
  | PoolResume t => pool_moves t (Resume t) (CancelledError false) s
  | PoolCancel t => match frames s !! t with Some (InAcquire _) => p ← WorkingPool.step (Cancel t) (_pool s); Some (set_pool p s) | _ => None end
  | PoolLoaded t now users recent e => pool_moves t (Loaded t now users recent) e s
  | Remember t x => match frames s !! t with Some (Turning _ m) => p ← WorkingPool.step (Append m x) (_pool s); Some (set_pool p s) | _ => None end
  | TurnEnds t now r => turn_ends t now r s
  | RefusalEnds t now r => refusal_ends t now r s
  | SendEnds t r => send_ends t r s
  | SendRefusalEnds t r => send_refusal_ends t r s
  | Forget k => p ← WorkingPool.step (Evict k) (_pool s); Some (set_pool p s)
  end.
Fixpoint turn_run (l : list move) (s : adapter) : option adapter := match l with [] => Some s | a :: l => s' ← turn_step a s; turn_run l s' end.
End dispatch.

(** ** Who is inside a turn lock *)
Definition inside (k : Key) (f : option frame) : Prop := match f with Some (InAcquire j | Turning j _ | Refusing j _ _ _) => j = k | _ => False end.
Definition holding (f : option frame) : option (Key * nat) := match f with Some (Turning k m | Refusing k m _ _) => Some (k, m) | _ => None end.
Definition outside (f : frame) : Prop := match f with Sending _ _ | SendRefusing _ | Done _ => True | _ => False end.
(** The lock a task deals with, if any, is that of [k]. *)
Definition on (k : Key) (f : option frame) : Prop := match f with Some (WaitTurn j _ | InAcquire j | Turning j _ | Refusing j _ _ _) => j = k | _ => True end.
Definition turn_guards (fs : gmap nat frame) (k : Key) (l : Lock) : Prop :=
  guards (fun t => inside k (fs !! t)) (fun t => exists c, fs !! t = Some (WaitTurn k c)) (fun t => fs !! t = Some (WaitTurn k true)) l.
Definition called (t : nat) (f : option frame) (p : Pool) : Prop :=
  match calls p !! t with Some c => exists k, f = Some (InAcquire k) /\ about k (Some c) | None => forall k, f <> Some (InAcquire k) end.
Record turns_ok (s : adapter) : Prop := {
  o_pool : inv None (_pool s); o_timed : timed (_pool s);
  o_lock k : turn_guards (frames s) k (_turn_lock_for k s);
  o_calls t : called t (frames s !! t) (_pool s);
  o_kept t k m : holding (frames s !! t) = Some (k, m) -> kept t k m (_pool s)
}.
Lemma new_adapter_ok n : turns_ok (new_adapter n).
Proof.
  split; cbn.
  - apply new_pool_inv.
  - by intros x ?%not_elem_of_nil.
  - intros k. unfold _turn_lock_for. cbn. rewrite lookup_empty. apply guards_new; intros t; [by rewrite lookup_empty; intros []|intros [c Hc]; by rewrite lookup_empty in Hc].
  - intros t. unfold called. cbn. by rewrite lookup_empty.
  - intros t k m. by rewrite lookup_empty.
Qed.
(** One task moves, one turn lock changes, and the pool. *)
Lemma turns_move s s' t k f l : turns_ok s -> frames s' = <[t := f]> (frames s) -> (forall j, _turn_lock_for j s' = if decide (j = k) then l else _turn_lock_for j s) ->
  on k (frames s !! t) -> on k (Some f) -> turn_guards (frames s') k l -> inv None (_pool s') -> timed (_pool s') -> grows (Some t) (_pool s) (_pool s') -> called t (Some f) (_pool s') ->
  (forall u j m, u <> t -> holding (frames s !! u) = Some (j, m) -> kept u j m (_pool s')) -> (forall j m, holding (Some f) = Some (j, m) -> kept t j m (_pool s')) -> turns_ok s'.
Proof.
  intros [H1 H2 H3 H4 H5] Ef El Hon Hon' Hg Hi Ht [_ Hc] Hcf Hk Hkf. split; [done|done|..].
  - intros j. rewrite El. case_decide as Hj; [by subst j|]. unfold turn_guards. rewrite Ef. eapply guards_ext; [apply H3|..]; intros u; destruct (decide (u = t)) as [->|Hu]; simplify_map_eq; try done.
    all: unfold inside, on in *; destruct (frames s !! t) as [[]|], f; naive_solver.
  - intros u. rewrite Ef. destruct (decide (u = t)) as [->|Hu]; simplify_map_eq; [done|]. unfold called. rewrite Hc by congruence. apply H4.
  - intros u j m. rewrite Ef. destruct (decide (u = t)) as [->|Hu]; simplify_map_eq; [apply Hkf|by apply Hk].
Qed.
(** The pool changes under the tasks. *)
Lemma turns_pool s p : turns_ok s -> inv None p -> timed p -> (forall t, called t (frames s !! t) p) -> (forall t k m, holding (frames s !! t) = Some (k, m) -> kept t k m p) -> turns_ok (set_pool p s).
Proof. intros [H1 H2 H3 H4 H5] Hi Ht Hc Hk. split; done. Qed.
Lemma holding_inside k m f : holding f = Some (k, m) -> inside k f.
Proof. destruct f as [[]|]; cbn; naive_solver. Qed.
Lemma inside_alone s t u k : turns_ok s -> inside k (frames s !! t) -> inside k (frames s !! u) -> t = u.
Proof. intros [_ _ H _ _]. apply (guards_alone _ _ _ _ _ _ (H k)). Qed.
Lemma set_lock_for k l s j : _turn_lock_for j (set_turn_lock k l s) = if decide (j = k) then l else _turn_lock_for j s.
Proof. unfold _turn_lock_for, set_turn_lock. cbn. case_decide as E; [rewrite E; by rewrite lookup_insert_eq|by rewrite lookup_insert_ne]. Qed.

(** *** Acquiring *)
(** [t] is inside the turn lock of [k] alone, and its call of the pool has come to
    something. *)
Definition alone_in (s : adapter) (t : nat) (k : Key) (l : Lock) : Prop :=
  guards (fun u => u = t) (fun u => u <> t /\ exists c, frames s !! u = Some (WaitTurn k c)) (fun u => u <> t /\ frames s !! u = Some (WaitTurn k true)) l.
Lemma alone_stays s t k l f : alone_in s t k l -> turns_ok s -> inside k (Some f) -> (forall u, inside k (frames s !! u) -> u = t) -> turn_guards (<[t := f]> (frames s)) k l.
Proof.
  intros H Hs Hf Hal. eapply guards_ext; [exact H|..]; intros u; destruct (decide (u = t)) as [->|Hu]; simplify_map_eq; try naive_solver; unfold inside in Hf; destruct f; naive_solver.
Qed.
Lemma alone_leaves s t k l f : alone_in s t k l -> outside f -> (forall u, inside k (frames s !! u) -> u = t) -> exists l', lock_release l = Some l' /\ turn_guards (<[t := f]> (frames s)) k l'.
Proof.
  intros H Hf Hal. destruct (guards_release _ _ _ _ t H eq_refl) as (l'&E&Hg). exists l'. split; [done|]. eapply guards_ext; [exact Hg|..]; intros u; destruct (decide (u = t)) as [->|Hu]; simplify_map_eq; try naive_solver; destruct f; naive_solver.
Qed.
Lemma after_acquire_ok s0 s t k l e : turns_ok s0 -> frames s = frames s0 -> (forall j, _turn_lock_for j s = if decide (j = k) then l else _turn_lock_for j s0) -> on k (frames s0 !! t) ->
  (forall u, inside k (frames s0 !! u) -> u = t) -> alone_in s0 t k l -> inv None (_pool s) -> timed (_pool s) -> grows (Some t) (_pool s0) (_pool s) -> came_to t k (_pool s) ->
  (forall u j m, u <> t -> holding (frames s0 !! u) = Some (j, m) -> kept u j m (_pool s)) -> turns_ok (after_acquire t k e s).
Proof.
  intros H0 Ef El Hon Hal Hl Hi Ht Hg Hc Hk. unfold after_acquire. destruct (calls (_pool s) !! t) as [c|] eqn:Ec.
  - eapply (turns_move s0 _ t k (InAcquire k) l); try done; cbn; rewrite ?Ef; try done; [by apply alone_stays|]. unfold called. rewrite Ec. exists k. split; [done|]. unfold came_to in Hc. by rewrite Ec in Hc.
  - assert (Hd : turns_ok (leaves t k (set_frame t (Done (Err e))) (tell [NotAcquired t] s))).
    { unfold leaves. change (_turn_lock_for k (tell _ s)) with (_turn_lock_for k s). rewrite El, decide_True by done. destruct (alone_leaves s0 t k l (Done (Err e)) Hl I Hal) as (l'&->&Hg').
      eapply (turns_move s0 _ t k (Done (Err e)) l'); try done; cbn; rewrite ?Ef; try done; [|unfold called; by rewrite Ec].
      intros j. transitivity (_turn_lock_for j (set_turn_lock k l' s)); [done|]. rewrite set_lock_for, El. by case_decide. }
    destruct (last (history (_pool s))) as [[]|] eqn:Eh; try exact Hd.
    eapply (turns_move s0 _ t k (Turning k m) l); try done; cbn; rewrite ?Ef; try done; [by apply alone_stays|unfold called; by rewrite Ec|].
    intros j m' [= <- <-]. pose proof Hc as Hc'. unfold came_to in Hc'. rewrite Ec in Hc'. destruct Hc' as [(a&m'&E&_)|(a&E)]; rewrite E, last_snoc in Eh; simplify_eq. apply kept_got; [done|done|]. by rewrite E, last_snoc.
Qed.

(** *** The steps *)
Lemma step_timed_inv s a p : turns_ok s -> WorkingPool.step a (_pool s) = Some p -> inv None p /\ timed p /\ grows (subject a) (_pool s) p.
Proof. intros [H1 H2 _ _ _] E. split_and!; [by eapply pool_step_inv|by eapply timed_step|by eapply pool_step_grows]. Qed.
Lemma kept_others s a p : turns_ok s -> WorkingPool.step a (_pool s) = Some p -> (forall k now, a <> Release k now) -> forall u j m, holding (frames s !! u) = Some (j, m) -> kept u j m p.
Proof. intros Hs E Ha u j m Hu. eapply kept_step; [apply Hs|exact E|by intros now|by apply Hs]. Qed.
Definition same_but (s s' : adapter) : Prop := frames s' = frames s /\ _turn_locks s' = _turn_locks s /\ _pool s' = _pool s.
Definition sets_frame (t : nat) (f : frame) (g : adapter -> adapter) : Prop := forall s, frames (g s) = <[t := f]> (frames s) /\ _turn_locks (g s) = _turn_locks s /\ _pool (g s) = _pool s.
Lemma same_ok s s' : same_but s s' -> turns_ok s -> turns_ok s'.
Proof. intros (E1&E2&E3) [H1 H2 H3 H4 H5]. split; rewrite ?E1, ?E3; try done. intros k. unfold _turn_lock_for. rewrite E2. apply H3. Qed.
Lemma turn_lock_same s s' j : _turn_locks s' = _turn_locks s -> _turn_lock_for j s' = _turn_lock_for j s.
Proof. unfold _turn_lock_for. by intros ->. Qed.
(** A task that is in no lock goes from one await to the next. *)
Lemma outside_ok s t f g : turns_ok s -> match frames s !! t with Some f0 => outside f0 | None => True end -> outside f -> sets_frame t f g -> turns_ok (g s).
Proof.
  intros Hs Hf Hf' Hg. destruct (Hg s) as (E1&E2&E3). pose proof Hs as [H1 H2 H3 H4 H5].
  eapply (turns_move s _ t kA f (_turn_lock_for kA s)); try done; rewrite ?E3; try done.
  - intros j. rewrite (turn_lock_same s) by done. by case_decide; subst.
  - unfold on. by destruct (frames s !! t) as [[]|].
  - unfold on. by destruct f.
  - rewrite E1. eapply guards_ext; [apply H3|..]; intros u; destruct (decide (u = t)) as [->|Hu]; simplify_map_eq; try done; destruct (frames s !! t) as [[]|], f; naive_solver.
  - by apply grows_same.
  - specialize (H4 t). unfold called in *. destruct (calls (_pool s) !! t); [|by destruct f]. destruct H4 as (k&Ek&_). by rewrite Ek in Hf.
  - intros u j m _. apply H5.
  - by destruct f.
Qed.
(** [finally: release], the exit of the lock, and what comes after. *)
Lemma finishes_ok s s1 s' t k m now f g : turns_ok s -> same_but s s1 -> holding (frames s !! t) = Some (k, m) -> outside f -> sets_frame t f g -> finishes t k now g s1 = Some s' -> turns_ok s'.
Proof.
  intros Hs (E1&E2&E3) Hh Hf Hg E. unfold finishes in E. rewrite E3 in E. destruct (WorkingPool.step (Release k now) (_pool s)) as [p|] eqn:Ep; [|done]. cbn in E. injection E as <-.
  destruct (step_timed_inv s _ _ Hs Ep) as (Hi&Ht&Hgr). pose proof Hs as [H1 H2 H3 H4 H5]. pose proof (holding_inside _ _ _ Hh) as Hin.
  assert (Hal : alone_in s t k (_turn_lock_for k s)).
  { eapply guards_ext; [apply H3|..]; intros u; [|split|by intros [_ ?]].
    - split; [by intros ->|]. intros Hu. by eapply inside_alone.
    - by intros [_ ?].
    - intros [c Hc]. split; [|by exists c]. intros ->. by rewrite Hc in Hin. }
  destruct (alone_leaves s t k _ f Hal Hf) as (l&El&Hgd); [intros u Hu; by eapply inside_alone|]. unfold leaves. rewrite (turn_lock_same s (set_pool p s1)) by exact E2. rewrite El.
  destruct (Hg (set_turn_lock k l (set_pool p s1))) as (F1&F2&F3). cbn in F1, F2, F3.
  eapply (turns_move s _ t k f l); try done; rewrite ?F1, ?F3; cbn; rewrite ?E1; try done.
  - intros j. rewrite (turn_lock_same (set_turn_lock k l (set_pool p s1))) by done. rewrite set_lock_for. case_decide; [done|]. by apply turn_lock_same.
  - unfold on, inside in *. by destruct (frames s !! t) as [[]|].
  - by destruct f.
  - split; [apply Hgr|]. intros u _. by apply Hgr.
  - specialize (H4 t). unfold called in *. destruct Hgr as [_ ->]; [|done]. destruct (calls (_pool s) !! t); [|by destruct f]. destruct H4 as (j&Ej&_). by rewrite Ej in Hh.
  - intros u j m' Hu Huj. eapply kept_step; [exact H1|exact Ep| |by apply H5]. intros now' [= <- _]. apply Hu. eapply inside_alone; [exact Hs|by eapply holding_inside|exact Hin].
  - by destruct f.
Qed.
(** [acquire] is called inside the turn lock that was taken. *)
Lemma acquires_ok s0 t k l s' : turns_ok s0 -> match frames s0 !! t with None => True | Some (WaitTurn j _) => j = k | Some _ => False end -> (forall u, ~ inside k (frames s0 !! u)) -> alone_in s0 t k l ->
  acquires t k (set_turn_lock k l s0) = Some s' -> turns_ok s'.
Proof.
  intros H0 Hf Hno Hal E. unfold acquires in E. destruct (WorkingPool.step (Acquire t k) (_pool _)) as [p|] eqn:Ep; [|done]. cbn in E. injection E as <-. cbn in Ep.
  destruct (step_timed_inv s0 _ _ H0 Ep) as (Hi&Ht&Hg). pose proof H0 as [H1 H2 H3 H4 H5]. eapply (after_acquire_ok s0 _ t k l); try done; cbn.
  - intros j. apply set_lock_for.
  - unfold on. by destruct (frames s0 !! t) as [[]|].
  - intros u Hu. by destruct (Hno u).
  - by apply (step_came t k _ _ _ H1 H2 Ep).
  - intros u j m _. by eapply kept_others.
Qed.
Lemma dispatch_ok scan t x reply s s' : turns_ok s -> frames s !! t = None -> dispatch scan t x reply s = Some s' -> turns_ok s'.
Proof.
  intros Hs Ht E. pose proof Hs as [H1 H2 H3 H4 H5]. assert (Hout : forall r, turns_ok (set_frame t (Done r) s)) by (intros r; apply (outside_ok s t (Done r)); [done|by rewrite Ht|done|done]).
  unfold dispatch in E. destruct (sender_bound s); cbn in E; [|injection E as <-; eapply same_ok; [|by apply Hout]; done]. destruct x as [[p|a tg|st]|]; [|injection E as <-|by injection E as <-|by injection E as <-].
  - set (k := key_of p) in *. pose proof (guards_acquire _ _ _ _ t (H3 k)) as Hg. cbn beta in Hg. rewrite Ht in Hg. specialize (Hg ltac:(by intros []) ltac:(by intros [? ?]) ltac:(done)).
    destruct (lock_acquire t (_turn_lock_for k s)) as [[] l].
    + destruct Hg as [Hno Hg]. eapply acquires_ok; [exact Hs|by rewrite Ht|exact Hno| |exact E]. eapply guards_ext; [exact Hg|done|..]; intros u; destruct (decide (u = t)) as [->|Hu]; rewrite ?Ht; naive_solver.
    + injection E as <-. eapply (turns_move s _ t k (WaitTurn k false) l); try done; cbn; rewrite ?Ht; try done.
      * intros j. transitivity (_turn_lock_for j (set_turn_lock k l s)); [done|apply set_lock_for].
      * eapply guards_ext; [exact Hg|..]; intros u; destruct (decide (u = t)) as [->|Hu]; rewrite ?lookup_insert_eq, ?lookup_insert_ne by done; rewrite ?Ht; [done|done|split; [by right|by eexists]|split; [by left|by intros [?|?]]|done|done].
      * by apply grows_same.
      * specialize (H4 t). unfold called in *. rewrite Ht in H4. destruct (calls (_pool s) !! t); [|done]. by destruct H4 as (?&?&_).
      * intros u j m _. apply H5.
  - unfold _send. destruct (scan reply); (eapply outside_ok; [done|by rewrite Ht| |done]); cbn; [done|by destruct (is_exception e)].
Qed.
Lemma turn_resumes_ok t s s' : turns_ok s -> turn_resumes t s = Some s' -> turns_ok s'.
Proof.
  intros Hs E. pose proof Hs as [H1 H2 H3 H4 H5]. unfold turn_resumes in E. destruct (frames s !! t) as [[k c| | | | | |]|] eqn:Ht; try done.
  destruct (lock_future t _) as [f|] eqn:Hf; [|done]. assert (Hfp : f <> Pending) by by destruct f. set (cancelled := c || bool_decide (f = Dead)) in *.
  destruct (guards_resume _ _ _ _ t f (H3 k) (ex_intro _ c Ht) Hf Hfp cancelled) as [Hg Hno].
  { intros ->. subst cancelled. by rewrite orb_true_r. }
  set (l := lock_resume t cancelled _) in *. assert (E' : (if cancelled then Some (set_frame t (Done (Err (CancelledError false))) (set_turn_lock k l s)) else acquires t k (set_turn_lock k l s)) = Some s') by (by destruct f).
  clear E. destruct cancelled.
  - injection E' as <-. eapply (turns_move s _ t k (Done _) l); try done; cbn; rewrite ?Ht; try done.
    + intros j. transitivity (_turn_lock_for j (set_turn_lock k l s)); [done|apply set_lock_for].
    + eapply guards_ext; [exact Hg|..]; intros u; destruct (decide (u = t)) as [->|Hu]; simplify_map_eq; naive_solver.
    + by apply grows_same.
    + specialize (H4 t). unfold called in *. rewrite Ht in H4. destruct (calls (_pool s) !! t); [|done]. by destruct H4 as (?&?&_).
    + intros u j m _. apply H5.
  - eapply acquires_ok; [exact Hs|by rewrite Ht|by apply Hno| |exact E']. eapply guards_ext; [exact Hg|done|..]; intros u; naive_solver.
Qed.
Lemma turn_cancels_ok t s s' : turns_ok s -> turn_cancels t s = Some s' -> turns_ok s'.
Proof.
  intros Hs E. pose proof Hs as [H1 H2 H3 H4 H5]. unfold turn_cancels in E. destruct (frames s !! t) as [[k c| | | | | |]|] eqn:Ht; try done. injection E as <-. set (c' := bool_decide _).
  eapply (turns_move s _ t k (WaitTurn k c') (lock_cancel t (_turn_lock_for k s))); try done; cbn; rewrite ?Ht; try done.
  - intros j. transitivity (_turn_lock_for j (set_turn_lock k (lock_cancel t (_turn_lock_for k s)) s)); [done|apply set_lock_for].
  - eapply guards_ext; [apply (guards_cancel _ _ _ _ t (fun u => <[t := WaitTurn k c']> (frames s) !! u = Some (WaitTurn k true)) (H3 k))|..]; try done; intros u.
    all: destruct (decide (u = t)) as [->|Hu]; rewrite ?lookup_insert_eq, ?lookup_insert_ne by done; rewrite ?Ht; try done; first [intros ?; by left|intros ?; by right|split; by eexists].
  - by apply grows_same.
  - specialize (H4 t). rewrite Ht in H4. unfold called in *. destruct (calls (_pool s) !! t); [|done]. by destruct H4 as (?&?&_).
  - intros u j m _. apply H5.
Qed.
Lemma pool_moves_ok t a e s s' : turns_ok s -> subject a = Some t -> match a with Cancel _ | Acquire _ _ => False | _ => True end -> pool_moves t a e s = Some s' -> turns_ok s'.
Proof.
  intros Hs Ha Hc E. pose proof Hs as [H1 H2 H3 H4 H5]. unfold pool_moves in E. destruct (frames s !! t) as [[|k| | | | |]|] eqn:Ht; try done. destruct (WorkingPool.step a (_pool s)) as [p|] eqn:Ep; [|done]. cbn in E. injection E as <-.
  destruct (step_timed_inv s a p Hs Ep) as (Hi&Htm&Hg). rewrite Ha in Hg. assert (Hin : inside k (frames s !! t)) by by rewrite Ht.
  pose proof (H4 t) as Hcall. rewrite Ht in Hcall. unfold called in Hcall. destruct (calls (_pool s) !! t) as [c|] eqn:Ec; [|by destruct (Hcall k)]. destruct Hcall as (j&[= <-]&Hab).
  eapply (after_acquire_ok s _ t k (_turn_lock_for k s)); try done; cbn.
  - intros j. case_decide; [by subst j|done].
  - by rewrite Ht.
  - intros u Hu. by eapply inside_alone.
  - eapply guards_ext; [apply H3|..]; intros u; [|split|by intros [_ ?]].
    + split; [by intros ->|]. intros Hu. by eapply inside_alone.
    + by intros [_ ?].
    + intros [b Hb]. split; [|by exists b]. intros ->. by rewrite Ht in Hb.
  - apply (step_came t k a _ _ H1 H2 Ep Ha). destruct a; try done; rewrite Ec; by split; [|eexists].
  - intros u j m _. eapply kept_others; [done|exact Ep|]. intros j' now ->. done.
Qed.
Lemma pool_only_ok s a p : turns_ok s -> WorkingPool.step a (_pool s) = Some p -> match a with Release _ _ | Acquire _ _ | Resume _ | Loaded _ _ _ _ => False | _ => True end -> turns_ok (set_pool p s).
Proof.
  intros Hs Ep Ha. destruct (step_timed_inv s a p Hs Ep) as (Hi&Ht&Hg). pose proof Hs as [H1 H2 H3 H4 H5]. apply turns_pool; try done.
  - intros t. specialize (H4 t). unfold called in *. destruct (decide (subject a = Some t)) as [Hst|Hst]; [|destruct Hg as [_ ->]; [exact H4|done]].
    destruct a as [| |u| | | |]; try done. cbn in Hst. injection Hst as ->. destruct (calls (_pool s) !! t) as [c|] eqn:Ec; [|exfalso; unfold WorkingPool.step in Ep; cbn in Ep; rewrite Z.ltb_irrefl in Ep; unfold cancels in Ep; cbn in Ep; by rewrite Ec in Ep].
    destruct H4 as (k&Ek&Hk). destruct (cancel_came t k c _ p Ep Ec Hk) as (c'&->&Hk'). by exists k.
  - eapply kept_others; [done|exact Ep|]. by intros k now ->.
Qed.
Lemma refuses_ok s t k m st r : turns_ok s -> frames s !! t = Some (Turning k m) -> turns_ok (set_frame t (Refusing k m st r) s).
Proof.
  intros Hs Ht. pose proof Hs as [H1 H2 H3 H4 H5]. eapply (turns_move s _ t k (Refusing k m st r) (_turn_lock_for k s)); try done; cbn; rewrite ?Ht; try done.
  - intros j. by case_decide; [subst j|].
  - eapply guards_ext; [apply H3|..]; intros u; destruct (decide (u = t)) as [->|Hu]; rewrite ?lookup_insert_eq, ?lookup_insert_ne by done; rewrite ?Ht; try done; (split; by intros [? ?]).
  - by apply grows_same.
  - specialize (H4 t). unfold called in *. rewrite Ht in H4. destruct (calls (_pool s) !! t); [|done]. by destruct H4 as (?&?&_).
  - intros u j m' _. apply H5.
  - intros j m' [= <- <-]. apply H5. by rewrite Ht.
Qed.
Lemma sets_done t r : sets_frame t (Done r) (set_frame t (Done r)).
Proof. done. Qed.
Lemma sends_ok scan t c body : exists f, outside f /\ sets_frame t f (_send scan t c body).
Proof. unfold _send. destruct (scan body) as [x|e]; [by exists (Sending c x)|]. exists (if is_exception e && c then SendRefusing e else Done (Err e)). split; [by destruct (_ && _)|done]. Qed.
Lemma turn_ends_ok scan t now r s s' : turns_ok s -> turn_ends scan t now r s = Some s' -> turns_ok s'.
Proof.
  intros Hs E. unfold turn_ends in E. destruct (frames s !! t) as [[| |k m| | | |]|] eqn:Ht; try done. assert (Hh : holding (frames s !! t) = Some (k, m)) by by rewrite Ht.
  assert (Hd : forall e s', finishes t k now (set_frame t (Done (Err e))) s = Some s' -> turns_ok s') by (intros e x Ex; by refine (finishes_ok s s x t k m now (Done (Err e)) _ Hs _ Hh _ _ Ex)).
  assert (Hr : forall st r, turns_ok (set_frame t (Refusing k m st r) s)) by (intros; by apply refuses_ok).
  destruct r as [answer|e].
  - destruct (sends_ok scan t true answer) as (f&Hf&Hg). by refine (finishes_ok s (tell [Turned t answer] s) s' t k m now f _ Hs _ Hh Hf Hg E).
  - destruct e; cbn in E; first [injection E as <-; apply Hr|by eapply Hd].
Qed.
Lemma turn_step_ok scan a s s' : turns_ok s -> turn_step scan a s = Some s' -> turns_ok s'.
Proof.
  intros Hs E. destruct a as [|t x reply|t|t|t|t|t now users recent e|t x|t now r|t now r|t r|t r|k]; cbn in E.
  - injection E as <-. by apply (same_ok s).
  - destruct (frames s !! t) eqn:Ht; [done|]. eapply (dispatch_ok scan t x reply (tell [Began t x] s)); [by apply (same_ok s)|done|exact E].
  - by eapply turn_resumes_ok.
  - by eapply turn_cancels_ok.
  - by apply (pool_moves_ok t (Resume t) (CancelledError false) s).
  - destruct (frames s !! t) as [[]|]; try done. destruct (WorkingPool.step _ _) as [p|] eqn:Ep; [|done]. cbn in E. injection E as <-. by eapply pool_only_ok.
  - by apply (pool_moves_ok t (Loaded t now users recent) e s).
  - destruct (frames s !! t) as [[]|]; try done. destruct (WorkingPool.step _ _) as [p|] eqn:Ep; [|done]. cbn in E. injection E as <-. by eapply pool_only_ok.
  - by eapply turn_ends_ok.
  - unfold refusal_ends in E. destruct (frames s !! t) as [[| | |k m st after| | |]|] eqn:Ht; try done. by refine (finishes_ok s (tell [wrote t st r] s) s' t k m now (Done _) _ Hs _ _ _ (sets_done t _) E); [|rewrite Ht|].
  - unfold send_ends in E. destruct (frames s !! t) as [[| | | |c b| |]|] eqn:Ht; try done. injection E as <-. destruct r as [[]|e].
    + apply (outside_ok (tell [Sent t b] s) t (Done (Ok tt)) (set_frame t (Done (Ok tt)))); [by apply (same_ok s)|cbn; by rewrite Ht|done|done].
    + apply (outside_ok s t (if is_exception e && c then SendRefusing e else Done (Err e)) (set_frame t _)); [done|by rewrite Ht|by destruct (_ && _)|done].
  - unfold send_refusal_ends in E. destruct (frames s !! t) as [[| | | | |e|]|] eqn:Ht; try done. injection E as <-.
    set (f := Done _). apply (outside_ok (tell [wrote t send_failed r] s) t f (set_frame t f)); [by apply (same_ok s)|cbn; by rewrite Ht|done|done].
  - destruct (WorkingPool.step _ _) as [p|] eqn:Ep; [|done]. cbn in E. injection E as <-. by eapply pool_only_ok.
Qed.
Lemma turn_run_ok scan l s s' : turns_ok s -> turn_run scan l s = Some s' -> turns_ok s'.
Proof. revert s. induction l as [|a l IH]; intros s Hs; cbn; [by intros [= <-]|]. destruct (turn_step scan a s) as [x|] eqn:E; [|done]. cbn. apply IH. by eapply turn_step_ok. Qed.

(** *** A run of the adapter is a run of the pool *)
Lemma after_acquire_pool t k e s : _pool (after_acquire t k e s) = _pool s.
Proof. unfold after_acquire, leaves. destruct (calls _ !! t); [done|]. destruct (last _) as [[]|]; try done; by destruct (lock_release _). Qed.
Lemma acquires_pool t k s s' : acquires t k s = Some s' -> WorkingPool.step (Acquire t k) (_pool s) = Some (_pool s').
Proof. unfold acquires. destruct (WorkingPool.step _ _); [|done]. intros [= <-]. by rewrite after_acquire_pool. Qed.
Lemma finishes_pool t k now g s s' : (exists f, sets_frame t f g) -> finishes t k now g s = Some s' -> WorkingPool.step (Release k now) (_pool s) = Some (_pool s').
Proof.
  intros [f Hg]. unfold finishes. destruct (WorkingPool.step _ _) as [p|]; [|done]. intros [= <-]. unfold leaves. destruct (lock_release _) as [l|]; [|done]. by destruct (Hg (set_turn_lock k l (set_pool p s))) as (_&_&->).
Qed.
Lemma turn_step_pool scan a s s' : turn_step scan a s = Some s' -> _pool s' = _pool s \/ exists b, WorkingPool.step b (_pool s) = Some (_pool s').
Proof.
  assert (Hsend : forall t c body s, _pool (_send scan t c body s) = _pool s) by (intros; unfold _send; by destruct (scan _)).
  intros E. destruct a as [|t x reply|t|t|t|t|t now users recent e|t x|t now r|t now r|t r|t r|k]; cbn in E.
  - injection E as <-. by left.
  - destruct (frames s !! t); [done|]. unfold dispatch in E. destruct (negb _); [injection E as <-; by left|]. destruct x as [[p|a tg|st]|]; try (injection E as <-; left; rewrite ?Hsend; done).
    destruct (lock_acquire t _) as [[] l]; [right; eexists; by apply acquires_pool in E|injection E as <-; by left].
  - unfold turn_resumes in E. destruct (frames s !! t) as [[]|]; try done. destruct (lock_future t _) as [[]|]; try done; destruct (_ || _); first [right; eexists; by apply acquires_pool in E|injection E as <-; by left].
  - unfold turn_cancels in E. destruct (frames s !! t) as [[]|]; try done. injection E as <-. by left.
  - unfold pool_moves in E. destruct (frames s !! t) as [[]|]; try done. destruct (WorkingPool.step _ _) as [p|] eqn:Ep; [|done]. injection E as <-. right. exists (Resume t). by rewrite after_acquire_pool.
  - destruct (frames s !! t) as [[]|]; try done. destruct (WorkingPool.step _ _) as [p|] eqn:Ep; [|done]. injection E as <-. right. by exists (Cancel t).
  - unfold pool_moves in E. destruct (frames s !! t) as [[]|]; try done. destruct (WorkingPool.step _ _) as [p|] eqn:Ep; [|done]. injection E as <-. right. eexists. by rewrite after_acquire_pool.
  - destruct (frames s !! t) as [[| |k m| | | |]|]; try done. destruct (WorkingPool.step _ _) as [p|] eqn:Ep; [|done]. injection E as <-. right. by exists (Append m x).
  - unfold turn_ends in E. destruct (frames s !! t) as [[| |k m| | | |]|]; try done. destruct r as [answer|e].
    + right. eexists. apply finishes_pool in E; [exact E|]. destruct (sends_ok scan t true answer) as (f&_&Hf). by exists f.
    + destruct e; cbn in E; first [injection E as <-; by left|right; eexists; apply finishes_pool in E; [exact E|eexists; apply sets_done]].
  - unfold refusal_ends in E. destruct (frames s !! t) as [[]|]; try done. right. eexists. apply finishes_pool in E; [exact E|eexists; apply sets_done].
  - unfold send_ends in E. destruct (frames s !! t) as [[]|]; try done. left. by destruct r; injection E as <-.
  - unfold send_refusal_ends in E. destruct (frames s !! t) as [[]|]; try done. injection E as <-. by left.
  - destruct (WorkingPool.step _ _) as [p|] eqn:Ep; [|done]. injection E as <-. right. by exists (Evict k).
Qed.
Lemma turn_run_pool scan l s s' : turn_run scan l s = Some s' -> exists l', WorkingPool.run l' (_pool s) = Some (_pool s').
Proof.
  revert s. induction l as [|a l IH]; intros s; cbn; [intros [= <-]; by exists []|]. destruct (turn_step scan a s) as [x|] eqn:E; [|done]. cbn. intros (l'&El)%IH.
  destruct (turn_step_pool _ _ _ _ E) as [E'|[b E']]; [rewrite <- E'; by exists l'|]. exists (b :: l'). cbn. by rewrite E'.
Qed.
Lemma pool_run_numbered l p p' : numbered p -> WorkingPool.run l p = Some p' -> numbered p'.
Proof. revert p. induction l as [|a l IH]; intros p Hp; cbn; [by intros [= <-]|]. destruct (WorkingPool.step a p) as [q|] eqn:E; [|done]. cbn. apply IH. by eapply numbered_step. Qed.

(** *** The account of a dispatch *)
(** What [dispatch] answers with a halt and does not raise again. *)
Definition deterministic (e : exn) : bool := match e with Budget _ | PreCheckRefused | OutboundCanaryTripped => true | _ => false end.
Definition settled (t : nat) (r : result exn unit) (l : list event) : Prop :=
  match r with
  | Ok _ => (exists b, Sent t b ∈ l) \/ Row t budget_denied ∈ l \/ Row t dlp_canary_tripped ∈ l
  | Err e => is_exception e = false \/ (Row t turn_error ∈ l /\ deterministic e = false) \/ Row t send_failed ∈ l \/ (exists st, Unwritten t st ∈ l) \/ NotAcquired t ∈ l \/ SenderUnbound t ∈ l
  end.
Definition accounted (t : nat) (f : option frame) (l : list event) : Prop :=
  match f with
  | Some (Done r) => settled t r l
  | Some (Sending c _) => c = true
  | Some (Refusing _ _ st after) => match st with budget_denied | dlp_canary_tripped => after = Ok tt | turn_error => exists e, after = Err e /\ deterministic e = false | _ => False end
  | None => False
  | _ => True
  end.
Definition prepared (t : nat) (l : list event) : Prop := exists p, Began t (Some (Prepared p)) ∈ l.
Record books (scan : text -> result exn text) (s : adapter) : Prop := {
  b_turns t : prepared t (told s) -> accounted t (frames s !! t) (told s);
  b_began t : frames s !! t = None -> forall x, Began t x ∉ told s;
  b_sent t b : Sent t b ∈ told s -> exists x, scan x = Ok b;
  b_sending t c b : frames s !! t = Some (Sending c b) -> exists x, scan x = Ok b
}.
Lemma settled_more t r l l' : settled t r l -> settled t r (l ++ l').
Proof. unfold settled. destruct r as [|e]; setoid_rewrite elem_of_app; naive_solver. Qed.
Lemma turn_accounted_more t f l l' : accounted t f l -> accounted t f (l ++ l').
Proof. destruct f as [[]|]; cbn; try done. apply settled_more. Qed.
(** A task moves on, and something is told. *)
Lemma books_move scan s s' t f es : books scan s -> frames s' = <[t := f]> (frames s) -> told s' = told s ++ es -> (forall u x, Began u x ∉ es) ->
  (prepared t (told s) -> accounted t (Some f) (told s ++ es)) -> (forall u b, Sent u b ∈ es -> exists x, scan x = Ok b) -> (forall c b, f = Sending c b -> exists x, scan x = Ok b) -> books scan s'.
Proof.
  intros [H1 H2 H3 H4] Ef Et Hes Ha Hs Hf. split; rewrite ?Ef, ?Et.
  - intros u [p Hp]. assert (Hp' : prepared u (told s)) by (exists p; apply elem_of_app in Hp as [|Hp]; [done|by apply Hes in Hp]). destruct (decide (u = t)) as [->|Hu]; simplify_map_eq; [by apply Ha|]. by apply turn_accounted_more, H1.
  - intros u Hu x. destruct (decide (u = t)) as [->|Hut]; simplify_map_eq. specialize (H2 u Hu x). rewrite not_elem_of_app. split; [done|apply Hes].
  - intros u b [Hb|Hb]%elem_of_app; [by eapply H3|by eapply Hs].
  - intros u c b. destruct (decide (u = t)) as [->|Hu]; simplify_map_eq; [intros [= ->]; by eapply Hf|apply H4].
Qed.
Lemma books_start scan s s' t f x es : books scan s -> frames s !! t = None -> frames s' = <[t := f]> (frames s) -> told s' = told s ++ Began t x :: es ->
  (forall y, y ∈ es -> match y with Began _ _ | Sent _ _ => False | _ => True end) -> ((exists p, x = Some (Prepared p)) -> accounted t (Some f) (told s')) -> (forall c b, f = Sending c b -> exists a, scan a = Ok b) -> books scan s'.
Proof.
  intros [H1 H2 H3 H4] Hn Ef Et Hes Ha Hf. split; rewrite ?Ef.
  - intros u [p Hp]. rewrite Et in Hp. destruct (decide (u = t)) as [->|Hu]; simplify_map_eq.
    + apply Ha. apply elem_of_app in Hp as [Hp|[Hp|Hp]%elem_of_cons]; [by destruct (H2 t Hn _ Hp)|injection Hp as <-; by exists p|by specialize (Hes _ Hp)].
    + rewrite Et. apply turn_accounted_more, H1. exists p. apply elem_of_app in Hp as [Hp|[Hp|Hp]%elem_of_cons]; [done|by injection Hp as -> _|by specialize (Hes _ Hp)].
  - intros u Hu y. destruct (decide (u = t)) as [->|Hut]; simplify_map_eq. rewrite Et. intros [Hp|[Hp|Hp]%elem_of_cons]%elem_of_app; [by apply (H2 u Hu y)|by injection Hp as -> _|by specialize (Hes _ Hp)].
  - intros u b. rewrite Et. intros [Hp|[Hp|Hp]%elem_of_cons]%elem_of_app; [by eapply H3|done|by specialize (Hes _ Hp)].
  - intros u c b. destruct (decide (u = t)) as [->|Hu]; simplify_map_eq; [intros [= ->]; by eapply Hf|apply H4].
Qed.
Lemma books_pool scan s p : books scan s -> books scan (set_pool p s).
Proof. by intros []. Qed.
(** What [after_acquire], [_send] and the exit do to the frames and the log. *)
Lemma after_acquire_does t k e s : exists f es, frames (after_acquire t k e s) = <[t := f]> (frames s) /\ told (after_acquire t k e s) = told s ++ es /\
  ((es = [] /\ inside k (Some f)) \/ es = [NotAcquired t]) /\ (forall l, accounted t (Some f) (l ++ es) \/ exists r, f = Done (Ok r)) /\ match f with Sending _ _ | Done (Ok _) => False | _ => True end.
Proof.
  unfold after_acquire. destruct (calls _ !! t) as [c|]; [exists (InAcquire k), []; rewrite app_nil_r; split_and!; try done; [by left|by intros; left]|].
  assert (Hd : exists f es, frames (leaves t k (set_frame t (Done (Err e))) (tell [NotAcquired t] s)) = <[t := f]> (frames s) /\ told (leaves t k (set_frame t (Done (Err e))) (tell [NotAcquired t] s)) = told s ++ es /\
    ((es = [] /\ inside k (Some f)) \/ es = [NotAcquired t]) /\ (forall l, accounted t (Some f) (l ++ es) \/ exists r, f = Done (Ok r)) /\ match f with Sending _ _ | Done (Ok _) => False | _ => True end).
  { unfold leaves. destruct (lock_release _); eexists (Done (Err _)), [NotAcquired t]; (split_and!; [done|done|by right| |done]); intros h; left; right; right; right; right; left; set_solver. }
  destruct (last _) as [[]|]; try exact Hd. exists (Turning k m), []. rewrite app_nil_r. split_and!; try done; [by left|by intros; left].
Qed.
Lemma send_does scan t c body s : exists f, frames (_send scan t c body s) = <[t := f]> (frames s) /\ told (_send scan t c body s) = told s /\ (c = true -> forall l, accounted t (Some f) l) /\ (forall c' b, f = Sending c' b -> exists a, scan a = Ok b).
Proof.
  unfold _send. destruct (scan body) as [b|e] eqn:E.
  - exists (Sending c b). split_and!; try done. intros c' b' [= _ ->]. by exists body.
  - eexists. split_and!; [done|done| |by destruct (_ && _)]. intros -> l. rewrite andb_true_r. destruct (is_exception e) eqn:Ee; [done|by left].
Qed.
Lemma finishes_does s1 s' t k now g : finishes t k now g s1 = Some s' -> (exists l, lock_release (_turn_lock_for k s1) = Some l) -> exists x, s' = g x /\ frames x = frames s1 /\ told x = told s1.
Proof.
  unfold finishes. destruct (WorkingPool.step _ _) as [p|]; [|done]. intros [= <-] [l El]. unfold leaves. change (_turn_lock_for k (set_pool p s1)) with (_turn_lock_for k s1). rewrite El. by eexists.
Qed.
Lemma inside_releases s t k : turns_ok s -> inside k (frames s !! t) -> exists l, lock_release (_turn_lock_for k s) = Some l.
Proof. intros [_ _ H _ _] Hin. destruct (guards_release _ _ _ _ t (H k) Hin) as (l&El&_). by exists l. Qed.
Lemma books_dispatch scan t x reply s s' : books scan s -> frames s !! t = None -> dispatch scan t x reply (tell [Began t x] s) = Some s' -> books scan s'.
Proof.
  intros Hb Ht E. unfold dispatch in E. destruct (negb _).
  { injection E as <-. eapply (books_start scan s _ t (Done (Err RuntimeError)) x [SenderUnbound t]); try done; [by cbn; rewrite <- app_assoc|by intros y ->%list_elem_of_singleton|]. intros _. cbn. right. right. right. right. right. set_solver. }
  destruct x as [[p|a tg|st]|].
  - destruct (lock_acquire t _) as [[] l].
    + unfold acquires in E. destruct (WorkingPool.step _ _) as [q|]; [|done]. injection E as <-. destruct (after_acquire_does t (key_of p) RuntimeError (set_pool q (set_turn_lock (key_of p) l (tell [Began t (Some (Prepared p))] s)))) as (f&es&Ef&Et&Hes&Ha&Hf).
      eapply (books_start scan s _ t f _ es); [exact Hb|exact Ht|exact Ef|by rewrite Et; cbn; rewrite <- app_assoc| | |by intros c b ->].
      * destruct Hes as [[-> _]| ->]; [by intros y ?%not_elem_of_nil|by intros y ->%list_elem_of_singleton].
      * intros _. rewrite Et. destruct (Ha (told (tell [Began t (Some (Prepared p))] s))) as [|[r ->]]; done.
    + injection E as <-. by eapply (books_start scan s _ t (WaitTurn (key_of p) false) _ []); try done; intros y ?%not_elem_of_nil.
  - injection E as <-. destruct (send_does scan t false reply (tell [Began t (Some (_RefusalReply a tg))] s)) as (f&Ef&Et&_&Hf). eapply (books_start scan s _ t f _ []); [exact Hb|exact Ht|exact Ef|by rewrite Et|by intros y ?%not_elem_of_nil|by intros [p ?]|exact Hf].
  - injection E as <-. eapply (books_start scan s _ t (Done (Ok tt)) _ []); try done; [by intros y ?%not_elem_of_nil|by intros [p ?]].
  - injection E as <-. eapply (books_start scan s _ t (Done (Err RuntimeError)) _ []); try done; [by intros y ?%not_elem_of_nil|by intros [p ?]].
Qed.
Lemma books_acquire scan t k e s p : books scan s -> books scan (after_acquire t k e (set_pool p s)).
Proof.
  intros Hb. destruct (after_acquire_does t k e (set_pool p s)) as (f&es&Ef&Et&Hes&Ha&Hf). eapply (books_move scan s _ t f es); [exact Hb|exact Ef|exact Et|..].
  - intros u x. destruct Hes as [[-> _]| ->]; [apply not_elem_of_nil|set_solver].
  - intros _. destruct (Ha (told s)) as [|[r ->]]; done.
  - intros u b. destruct Hes as [[-> _]| ->]; [by intros ?%not_elem_of_nil|set_solver].
  - by intros c b ->.
Qed.
Lemma books_frame scan s t f es s1 : books scan s -> frames s1 = frames s -> told s1 = told s ++ es -> (forall y, y ∈ es -> match y with Began _ _ | Sent _ _ => False | _ => True end) ->
  (prepared t (told s) -> accounted t (Some f) (told s ++ es)) -> (forall c b, f = Sending c b -> exists x, scan x = Ok b) -> books scan (set_frame t f s1).
Proof.
  intros Hb E1 E2 Hes Ha Hf. eapply (books_move scan s _ t f es); [done|by cbn; rewrite E1|exact E2|..].
  - intros u x Hx. by specialize (Hes _ Hx).
  - done.
  - intros u b Hx. by specialize (Hes _ Hx).
  - done.
Qed.
Lemma books_turn_ends scan t now r s s' : turns_ok s -> books scan s -> turn_ends scan t now r s = Some s' -> books scan s'.
Proof.
  intros Hs Hb E. unfold turn_ends in E. destruct (frames s !! t) as [[| |k m| | | |]|] eqn:Ht; try done. destruct (inside_releases s t k Hs) as [l El]; [by rewrite Ht|].
  assert (Hr : forall st r', match st with budget_denied | dlp_canary_tripped => r' = Ok tt | turn_error => exists e, r' = Err e /\ deterministic e = false | _ => False end -> books scan (set_frame t (Refusing k m st r') s)).
  { intros st r' Ha. by apply (books_frame scan s t _ []); [|done|rewrite app_nil_r|intros y ?%not_elem_of_nil| |]. }
  assert (Hd : forall e, is_exception e = false -> finishes t k now (set_frame t (Done (Err e))) s = Some s' -> books scan s').
  { intros e He Ed. destruct (finishes_does s s' t k now _ Ed) as (x&->&Ef&Et); [by exists l|]. apply (books_frame scan s t _ [] x); [done|done|by rewrite app_nil_r|by intros y ?%not_elem_of_nil|by left|done]. }
  destruct r as [answer|e].
  - destruct (finishes_does _ s' t k now _ E) as (x&->&Ef&Et); [by exists l|]. destruct (send_does scan t true answer x) as (f&Ef'&Et'&Ha&Hf).
    eapply (books_move scan s _ t f [Turned t answer]); [exact Hb|by rewrite Ef', Ef|by rewrite Et', Et|by intros u y ?%list_elem_of_singleton|intros _; by apply Ha|by intros u b ?%list_elem_of_singleton|exact Hf].
  - destruct e; cbn in E; first [injection E as <-; apply Hr; first [done|by eexists]|by eapply Hd; [|exact E]].
Qed.
Lemma books_step scan a s s' : turns_ok s -> books scan s -> turn_step scan a s = Some s' -> books scan s'.
Proof.
  intros Hs Hb E. pose proof Hb as [B1 B2 B3 B4]. assert (Hnone : forall y : event, y ∈ [] -> match y with Began _ _ | Sent _ _ => False | _ => True end) by by intros y ?%not_elem_of_nil.
  destruct a as [|t x reply|t|t|t|t|t now users recent e|t x|t now r|t now r|t r|t r|k]; cbn in E.
  - injection E as <-. by destruct Hb.
  - destruct (frames s !! t) eqn:Ht; [done|]. by eapply books_dispatch.
  - unfold turn_resumes in E. destruct (frames s !! t) as [[k c| | | | | |]|] eqn:Ht; try done.
    assert (Hc : forall l, books scan (set_frame t (Done (Err (CancelledError false))) (set_turn_lock k l s))) by (intros l; apply (books_frame scan s t _ []); [done|done|by rewrite app_nil_r|done|by left|done]).
    assert (Hacq : forall l, acquires t k (set_turn_lock k l s) = Some s' -> books scan s').
    { intros l. unfold acquires. destruct (WorkingPool.step _ _) as [p|]; [|done]. intros [= <-]. apply books_acquire. by destruct Hb. }
    destruct (lock_future t _) as [[]|]; try done; destruct (_ || _); first [by eapply Hacq|injection E as <-; apply Hc].
  - unfold turn_cancels in E. destruct (frames s !! t) as [[k c| | | | | |]|] eqn:Ht; try done. injection E as <-. set (f := WaitTurn k _).
    assert (H : books scan (set_frame t f s)) by (apply (books_frame scan s t f []); [done|done|by rewrite app_nil_r|done|done|done]). by destruct H.
  - unfold pool_moves in E. destruct (frames s !! t) as [[]|]; try done. destruct (WorkingPool.step _ _) as [p|]; [|done]. injection E as <-. by apply books_acquire.
  - destruct (frames s !! t) as [[]|]; try done. destruct (WorkingPool.step _ _) as [p|]; [|done]. injection E as <-. by apply books_pool.
  - unfold pool_moves in E. destruct (frames s !! t) as [[]|]; try done. destruct (WorkingPool.step _ _) as [p|]; [|done]. injection E as <-. by apply books_acquire.
  - destruct (frames s !! t) as [[]|]; try done. destruct (WorkingPool.step _ _) as [p|]; [|done]. injection E as <-. by apply books_pool.
  - by eapply books_turn_ends.
  - unfold refusal_ends in E. destruct (frames s !! t) as [[| | |k m st after| | |]|] eqn:Ht; try done. destruct (inside_releases s t k Hs) as [l El]; [by rewrite Ht|].
    destruct (finishes_does _ s' t k now _ E) as (x&->&Ef&Et); [by exists l|]. apply (books_frame scan s t _ [wrote t st r] x); [done|done|done| | |done].
    + intros y ->%list_elem_of_singleton. by destruct r.
    + intros Hp. specialize (B1 t Hp). rewrite Ht in B1. cbn in B1 |- *. destruct r as [u|e]; [|right; right; right; left; exists st; set_solver].
      destruct st; try done; [subst after; right; left; set_solver|subst after; right; right; set_solver|]. destruct B1 as (e&->&He). right. left. split; [set_solver|done].
  - unfold send_ends in E. destruct (frames s !! t) as [[| | | |c b| |]|] eqn:Ht; try done. injection E as <-. destruct r as [u|e].
    + eapply (books_move scan s _ t (Done (Ok tt)) [Sent t b]); [exact Hb|done|done|set_solver| | |done].
      * intros _. left. exists b. set_solver.
      * intros v b' [= -> ->]%list_elem_of_singleton. by eapply B4.
    + apply (books_frame scan s t _ []); [done|done|by rewrite app_nil_r|done| |by destruct (_ && _)]. intros Hp. specialize (B1 t Hp). rewrite Ht in B1. cbn in B1. subst c. rewrite andb_true_r. destruct (is_exception e) eqn:Ee; [done|by left].
  - unfold send_refusal_ends in E. destruct (frames s !! t) as [[| | | | |e|]|] eqn:Ht; try done. injection E as <-. apply (books_frame scan s t _ [wrote t send_failed r] _ Hb); [done|done| | |done].
    + intros y ->%list_elem_of_singleton. by destruct r.
    + intros _. destruct r as [u|e']; cbn; [right; right; left; set_solver|right; right; right; left; exists send_failed; set_solver].
  - destruct (WorkingPool.step _ _) as [p|]; [|done]. injection E as <-. by apply books_pool.
Qed.
Lemma books_run scan l s s' : turns_ok s -> books scan s -> turn_run scan l s = Some s' -> books scan s'.
Proof. revert s. induction l as [|a l IH]; intros s Hs Hb; cbn; [by intros [= <-]|]. destruct (turn_step scan a s) as [x|] eqn:E; [|done]. cbn. apply IH; [by eapply turn_step_ok|by eapply books_step]. Qed.
Lemma new_adapter_books scan n : books scan (new_adapter n).
Proof. split; cbn; [by intros t [p ?%not_elem_of_nil]|intros t _ x; apply not_elem_of_nil|by intros t b ?%not_elem_of_nil|intros t c b; by rewrite lookup_empty]. Qed.

(** ** The properties *)
(** C18: in every run of the adapter: at most one task is past the turn lock of a user (in
    [acquire], in the turn, or in the audit write of a handler); the memory that a turn holds
    is the one the pool has for its user, unless the user was removed from the pool since, or
    the pool was full of entries in use when the memory was made; no two turns hold one
    memory; and a turn lock nobody is past has a first waiter that has been woken. *)
Theorem turns_of_one_user_do_not_overlap scan n l s : turn_run scan l (new_adapter n) = Some s ->
  (forall t u k, inside k (frames s !! t) -> inside k (frames s !! u) -> t = u) /\
  (forall t k m, holding (frames s !! t) = Some (k, m) -> kept t k m (_pool s)) /\
  (forall t u k j m, holding (frames s !! t) = Some (k, m) -> holding (frames s !! u) = Some (j, m) -> t = u) /\
  (forall k, (forall t, ~ inside k (frames s !! t)) -> snd <$> head (waiters (_turn_lock_for k s)) <> Some Pending).
Proof.
  intros E. assert (Hs : turns_ok s) by (eapply turn_run_ok; [apply new_adapter_ok|exact E]). destruct (turn_run_pool _ _ _ _ E) as [l' El']. assert (Hn : numbered (_pool s)) by (eapply pool_run_numbered; [|exact El']; split; [done|by intros k m ?%not_elem_of_nil]).
  pose proof Hs as [H1 _ H3 _ H5]. split_and!; [intros t u k; by apply inside_alone|exact H5|..].
  - intros t u k j m Ht Hu. destruct (H5 t k m Ht) as (a&b&Ea&_), (H5 u j m Hu) as (c&d&Ec&_). assert (k = j) as <-.
    { eapply (got_key t u k j m (_pool s)); [done|done|rewrite Ea; set_solver|rewrite Ec; set_solver]. }
    apply (inside_alone s t u k Hs); by eapply holding_inside.
  - intros k Hk. destruct (H3 k) as (o&Hl&Ho&_). apply Hl. destruct o as [t|]; [|done]. by destruct (Hk t (proj1 (Ho t) eq_refl)).
Qed.

(** C19: in every run of the adapter, every task that was given a prepared turn and has ended:
    without an exception, its reply was sent or its refusal (the budget, the canary) was
    written; with one, the task was cancelled, or the refusal was written as a turn error and
    the exception is none of those that halt (a budget error of any kind, the canary), or it
    was written as a failed send, or that write itself raised, or the memory could not be
    had, or no sender was bound. And whatever was sent was scanned. *)
Theorem dispatch_accounts_for_every_turn scan n l s : turn_run scan l (new_adapter n) = Some s ->
  (forall t p r, Began t (Some (Prepared p)) ∈ told s -> frames s !! t = Some (Done r) -> settled t r (told s)) /\
  (forall t b, Sent t b ∈ told s -> exists x, scan x = Ok b).
Proof.
  intros E. destruct (books_run scan l _ s (new_adapter_ok n) (new_adapter_books scan n) E) as [B1 _ B3 _]. split; [|exact B3].
  intros t p r Hp Hf. specialize (B1 t (ex_intro _ p Hp)). by rewrite Hf in B1.
Qed.

(** [ingest] gives the orchestrator a text only behind a clearance and a downgrade row
    that was written, and it is the extracted one, for the user it was asked for; a refused
    extraction is answered, and writes nothing; a halt has its row; and what [ingest] raises
    a collaborator raised. *)
Theorem ingest_prepares_only_cleared_text n x uid lang name : wp (ingest n x uid lang name) (fun m r =>
  match r with
  | Ok (Prepared p) => Ev CheckContentClearance (Ok true) ∈ m /\ Ev AppendDowngrade (Ok tt) ∈ m /\
      (exists data, x = Extracted data /\ data !! "text" = Some (VStr (p_content p))) /\ slug (p_user p) = uid /\ egress_session (p_egress p) = uid /\ egress_inbound (p_egress p) = n_inbound_id n
  | Ok (_RefusalReply a t) => x = TypedRefusal /\ m = [] /\ a = n_adapter_id n /\ t = n_platform_user_id n
  | Ok (_HaltNoReply st) => Ev (AppendRefused st) (Ok tt) ∈ m
  | Err e => raised m e
  end).
Proof.
  assert (Hhalt : forall m st, wp (_emit_refused st ;; ret (_HaltNoReply st)) (fun m' (r : result exn _IngestOutcome) => match r with Ok (_HaltNoReply st) => Ev (AppendRefused st) (Ok tt) ∈ m ++ m' | Ok _ => False | Err e => raised (m ++ m') e end)).
  { intros m st. apply wp_bind, wp_call. intros [[]|e]; [apply wp_return; set_solver|]. eexists _, (AppendRefused st). set_solver. }
  unfold ingest. destruct x as [data|]; [|by apply wp_return]. apply wp_bind, wp_except.
  eapply wp_mono with (Q := fun m r => match r with Ok c => c = Some data /\ Ev CheckContentClearance (Ok true) ∈ m /\ Ev AppendDowngrade (Ok tt) ∈ m | Err e => is_downgrade_denied e = true \/ raised m e end).
  { unfold downgrade_to_orchestrator. apply wp_bind, wp_bind, wp_call. intros [[]|e]; [|by apply wp_return; left|right; eexists _, CheckContentClearance; constructor].
    apply wp_bind, wp_call. intros [[]|e]; [do 2 apply wp_return; set_solver|]. right. eexists _, AppendDowngrade. set_solver. }
  intros m [c|e] H.
  - destruct H as (->&Hc&Hd). destruct (data !! "text") as [[t|]|] eqn:Et; [apply wp_return; rewrite app_nil_r; split_and!; try done; by exists data|..]; (eapply wp_mono; [apply (Hhalt m)|]); intros m' [[]|e]; done.
  - destruct (is_downgrade_denied e) eqn:Ee; [|by destruct H]. apply wp_bind, wp_call. intros [[]|e']; [do 2 apply wp_return; set_solver|]. eexists _, (AppendRefused downgrade_denied). set_solver.
Qed.

(** *** Runs *)
Definition turn_for (name : string) : _IngestOutcome :=
  Prepared {| p_content := [104%N]; p_user := {| slug := name; display_name := name; language := "en-US" |};
    p_egress := {| egress_adapter := "tui"; egress_inbound := "i1"; egress_session := name |}; p_adapter_id := "tui"; p_target_platform_id := "u1" |}.
(** Ann writes twice and Bob once; Ann's first turn is refused by the budget, and her second
    one runs after it, with the memory the first one had. *)
Definition sample_run : list move := [Bind; Dispatch 1 (Some (turn_for "ann")) []; Dispatch 2 (Some (turn_for "ann")) []; Dispatch 3 (Some (turn_for "bob")) [];
  PoolLoaded 1 1 1 (Some []) OtherException; PoolLoaded 3 2 1 (Some []) OtherException; Remember 1 {| t_role := user; t_content := [104%N] |};
  TurnEnds 1 3 (Err (Budget (BudgetGuard.BudgetExceededError 2%Q 1%Q))); RefusalEnds 1 4 (Ok tt); TurnResume 2; TurnEnds 3 5 (Ok [105%N]); SendEnds 3 (Ok tt)].
Definition echo (x : text) : result exn text := Ok x.
Lemma turns_of_one_user_do_not_overlap_witness : (forall s, turn_run echo sample_run (new_adapter None) = Some s ->
  holding (frames s !! 2%nat) = Some (kA, 0%nat) /\ forall t, inside kA (frames s !! t) -> t = 2%nat) /\ bool_decide (is_Some (turn_run echo sample_run (new_adapter None))) = true.
Proof.
  split; [|by vm_compute]. intros s E. destruct (turns_of_one_user_do_not_overlap echo None sample_run s E) as (H&_&_&_).
  assert (Hh : holding (frames s !! 2%nat) = Some (kA, 0%nat)) by (vm_compute in E; injection E as <-; by vm_compute).
  split; [done|]. intros t Ht. apply (H t 2%nat kA Ht). by eapply holding_inside.
Defined.
Lemma dispatch_accounts_for_every_turn_witness : (forall s, turn_run echo sample_run (new_adapter None) = Some s -> frames s !! 1%nat = Some (Done (Ok tt)) /\ settled 1 (Ok tt) (told s)) /\ bool_decide (is_Some (turn_run echo sample_run (new_adapter None))) = true.
Proof.
  split; [|by vm_compute]. intros s E. destruct (dispatch_accounts_for_every_turn echo None sample_run s E) as [H _].
  assert (Hf : frames s !! 1%nat = Some (Done (Ok tt)) /\ exists p, Began 1 (Some (Prepared p)) ∈ told s).
  { vm_compute in E. injection E as <-. split; [by vm_compute|]. eexists. constructor. }
  destruct Hf as [Hf [p Hp]]. split; [done|]. by apply (H 1%nat p).
Defined.

(** The budget refuses before the first completion, by the bare [BudgetError] of the
    orchestrator: the refusal is written as such, and is not raised again. *)
Example a_bare_budget_error_halts :
  (s ← turn_run echo [Bind; Dispatch 1 (Some (turn_for "ann")) []; PoolLoaded 1 1 1 (Some []) OtherException; TurnEnds 1 2 (Err PreCheckRefused); RefusalEnds 1 3 (Ok tt)] (new_adapter None);
   f ← frames s !! 1%nat; Some (f, drop 1 (told s))) = Some (Done (Ok tt), [Row 1 budget_denied]).
Proof. by vm_compute. Qed.

(** The scan of the answer raises on a canary. Raised by a tool of the turn the same exception
    ends the dispatch without one; raised by the scan it is a failed send, and raised again. *)
Theorem canary_in_the_answer_is_raised_again :
  let start := [Bind; Dispatch 1 (Some (turn_for "ann")) []; PoolLoaded 1 1 1 (Some []) OtherException] in
  let outcome scan l := s ← turn_run scan (start ++ l) (new_adapter None); f ← frames s !! 1%nat; Some (f, drop 1 (told s)) in
  outcome (fun _ => Err OutboundCanaryTripped) [TurnEnds 1 2 (Ok [105%N]); SendRefusalEnds 1 (Ok tt)] = Some (Done (Err OutboundCanaryTripped), [Turned 1 [105%N]; Row 1 send_failed]) /\
  outcome echo [TurnEnds 1 2 (Err OutboundCanaryTripped); RefusalEnds 1 3 (Ok tt)] = Some (Done (Ok tt), [Row 1 dlp_canary_tripped]).
Proof. split; by vm_compute. Qed.
