(* ===== verification/Tasks.v ===== *)
(** * Coroutines over a shared object

    What the methods of an object do when many tasks of one event loop call them at once.
    A [task] is a coroutine: it reads and writes the shared attributes between two awaits,
    and at an await it leaves the loop to the others. [world] is the object with the tasks
    that are inside its methods; a turn of the loop starts a coroutine, completes what one
    waits for, or resumes one and runs it to its next await. [wp] is what is true of a
    task's own awaits and of its end whatever the others do in between; [solo] runs one
    task with nobody else there. *)
From S2P Require Import Prelude.

Inductive task (S O E A : Type) : Type :=
| Done (r : result E A)
| Local (f : S -> S) (k : S -> task S O E A)
| Await (o : O) (k : result E unit -> task S O E A).
Arguments Done {S O E A}. Arguments Local {S O E A}. Arguments Await {S O E A}.

Fixpoint tseq {S O E A B} (t : task S O E A) (k : result E A -> task S O E B) : task S O E B :=
  match t with
  | Done r => k r
  | Local f g => Local f (fun s => tseq (g s) k)
  | Await o g => Await o (fun r => tseq (g r) k)
  end.

Section combinators.
Context {S O E : Type}.
#[local] Abbreviation task := (task S O E).

Definition tret {A} (a : A) : task A := Done (Ok a).
Definition traise {A} (e : E) : task A := Done (Err e).
Definition tbind {A B} (t : task A) (k : A -> task B) : task B :=
  tseq t (fun r => match r with Ok a => k a | Err e => traise e end).
Definition await (o : O) : task unit := Await o Done.
(** What the attributes are now. *)
Definition look {A} (k : S -> task A) : task A := Local (fun s => s) k.
(** An assignment. *)
Definition assign (f : S -> S) : task unit := Local f (fun _ => tret tt).
(** [try: t except c as e: h]. *)
Definition texcept {A} (c : E -> bool) (t : task A) (h : E -> task A) : task A :=
  tseq t (fun r => match r with Err e => if c e then h e else Done r | Ok _ => Done r end).
(** [try: t finally: h]. *)
Definition tfinally {A} (t : task A) (h : task unit) : task A := tseq t (fun r => tbind h (fun _ => Done r)).

(** To the next await. *)
Fixpoint advance {A} (t : task A) (s : S) : task A * S :=
  match t with Local f k => advance (k s) (f s) | _ => (t, s) end.

Lemma advance_tseq {A B} (t : task A) (k : result E A -> task B) s :
  advance (tseq t k) s = match advance t s with (Done r, s') => advance (k r) s' | (t', s') => advance (tseq t' k) s' end.
Proof. revert s. induction t as [r|f g IH|o g IH]; intros s; cbn; [done| |done]. by rewrite IH. Qed.

(** ** The other tasks may do anything *)
Fixpoint wp {A} (t : task A) (Q : list (O * result E unit) -> result E A -> Prop) : Prop :=
  match t with
  | Done r => Q [] r
  | Local f k => forall s, wp (k s) Q
  | Await o k => forall r, wp (k r) (fun m => Q ((o, r) :: m))
  end.

Lemma wp_task_mono {A} (t : task A) : forall Q Q' : list (O * result E unit) -> result E A -> Prop, (forall m r, Q m r -> Q' m r) -> wp t Q -> wp t Q'.
Proof. induction t as [r|f k IH|o k IH]; intros Q Q' H; cbn; [apply H| |]; intros Hw x; eapply IH; eauto. cbn. eauto. Qed.
Lemma wp_any {A} (t : task A) (Q : list (O * result E unit) -> result E A -> Prop) : (forall m r, Q m r) -> wp t Q.
Proof. revert Q. induction t as [r|f k IH|o k IH]; intros Q H; cbn; auto. Qed.
Lemma wp_tseq {A B} (t : task A) (k : result E A -> task B) : forall Q : list (O * result E unit) -> result E B -> Prop,
  wp t (fun m r => wp (k r) (fun m' => Q (m ++ m'))) -> wp (tseq t k) Q.
Proof. induction t as [r|f g IH|o g IH]; intros Q; cbn; [done| |]; intros Hw x; apply IH, Hw. Qed.
Lemma wp_tbind {A B} (t : task A) (k : A -> task B) (Q : list (O * result E unit) -> result E B -> Prop) :
  wp t (fun m r => match r with Ok a => wp (k a) (fun m' => Q (m ++ m')) | Err e => Q m (Err e) end) -> wp (tbind t k) Q.
Proof. intros H. apply wp_tseq. eapply wp_task_mono; [|exact H]. intros m [a|e] Hm; cbn; [done|]. by rewrite app_nil_r. Qed.
Lemma wp_texcept {A} (c : E -> bool) (t : task A) (h : E -> task A) (Q : list (O * result E unit) -> result E A -> Prop) :
  wp t (fun m r => match r with Err e => if c e then wp (h e) (fun m' => Q (m ++ m')) else Q m r | Ok _ => Q m r end) -> wp (texcept c t h) Q.
Proof. intros H. apply wp_tseq. eapply wp_task_mono; [|exact H]. intros m [a|e] Hm; cbn; [|destruct (c e); cbn]; rewrite ?app_nil_r; done. Qed.
End combinators.

Declare Scope task_scope.
Notation "x <~~ m ; k" := (tbind m (fun x => k)) (at level 100, m at next level, right associativity) : task_scope.
Notation "m ;~ k" := (tbind m (fun _ => k)) (at level 100, right associativity) : task_scope.

(** ** The loop *)
Section loop.
Context {S O E A : Type}.
(** [ready o s]: what [o] waits for can complete; [effect o r s]: what completing it with
    [r] does to the shared state. *)
Context (ready : O -> S -> bool) (effect : O -> result E unit -> S -> S).

(** A task, and the completion it has not been resumed with. *)
Record world := { shared : S; tasks : list (task S O E A * option (result E unit)); events : list (nat * (O * result E unit)) }.
Inductive turn := Call (t : task S O E A) | Complete (i : nat) (r : result E unit) | Resume (i : nat).

Definition take_turn (a : turn) (w : world) : world :=
  match a with
  | Call t => let '(t', s') := advance t (shared w) in
      {| shared := s'; tasks := tasks w ++ [(t', None)]; events := events w |}
  | Complete i r =>
      match tasks w !! i with
      | Some (Await o k, None) =>
          if ready o (shared w) then
            {| shared := effect o r (shared w); tasks := <[i := (Await o k, Some r)]> (tasks w); events := events w ++ [(i, (o, r))] |}
          else w
      | _ => w
      end
  | Resume i =>
      match tasks w !! i with
      | Some (Await o k, Some r) => let '(t', s') := advance (k r) (shared w) in
          {| shared := s'; tasks := <[i := (t', None)]> (tasks w); events := events w |}
      | _ => w
      end
  end.
Definition take_turns (l : list turn) (w : world) : world := foldl (fun w a => take_turn a w) w l.

(** The awaits of task [i]. *)
Definition own_events (i : nat) (w : world) : list (O * result E unit) :=
  omap (fun x => if decide (x.1 = i) then Some x.2 else None) (events w).

(** What is still true of the task [i]: the rest of it keeps [Q] of its awaits so far. *)
Definition keeps (Q : list (O * result E unit) -> result E A -> Prop) (i : nat) (w : world) : Prop :=
  exists t x, tasks w !! i = Some (t, x) /\
    match t, x with
    | Await _ k, Some r => wp (k r) (fun m => Q (own_events i w ++ m))
    | _, _ => wp t (fun m => Q (own_events i w ++ m))
    end.

Lemma advance_wp (t : task S O E A) : forall s Q, wp t Q -> wp (advance t s).1 Q.
Proof. induction t as [r|f k IH|o k IH]; intros s Q Hw; cbn in *; [done| |done]. apply IH, Hw. Qed.

Lemma keeps_waiting Q i w t : tasks w !! i = Some (t, None) -> wp t (fun m => Q (own_events i w ++ m)) -> keeps Q i w.
Proof. intros Ht Hw. exists t, None. split; [done|]. by destruct t. Qed.

Lemma take_turn_keeps Q i a w : keeps Q i w -> keeps Q i (take_turn a w).
Proof.
  intros (t&x&Hi&Hw). destruct a as [t'|j r|j]; cbn.
  - destruct (advance t' (shared w)) as [t'' s']. exists t, x. cbn. split; [|exact Hw].
    rewrite lookup_app_l; [done|]. by eapply lookup_lt_Some.
  - destruct (tasks w !! j) as [[[?|? ?|o k] [?|]]|] eqn:Hj; try (exists t, x; done).
    destruct (ready o _); [|by exists t, x].
    unfold keeps, own_events. cbn. destruct (decide (j = i)) as [->|Hne].
    + rewrite Hj in Hi. injection Hi as <- <-. exists (Await o k), (Some r). cbn. rewrite list_lookup_insert_eq by (by eapply lookup_lt_Some).
      split; [done|]. rewrite omap_app. cbn. rewrite decide_True by done. eapply wp_task_mono; [|apply (Hw r)].
      intros m x. cbn. by rewrite <- app_assoc.
    + exists t, x. rewrite list_lookup_insert_ne by done. split; [done|]. rewrite omap_app. cbn. by rewrite decide_False, app_nil_r by done.
  - destruct (tasks w !! j) as [[[?|? ?|o k] [r|]]|] eqn:Hj; try (exists t, x; done).
    destruct (advance (k r) (shared w)) as [t' s'] eqn:Ha. destruct (decide (j = i)) as [->|Hne].
    + rewrite Hj in Hi. injection Hi as <- <-. apply (keeps_waiting _ _ _ t').
      * cbn. by rewrite list_lookup_insert_eq by (by eapply lookup_lt_Some).
      * change t' with (t', s').1. rewrite <- Ha. by apply advance_wp.
    + exists t, x. cbn. by rewrite list_lookup_insert_ne by done.
Qed.
Lemma take_turns_keep Q i l : forall w, keeps Q i w -> keeps Q i (take_turns l w).
Proof. induction l as [|a l IH]; intros w H; [done|]. by apply IH, take_turn_keeps. Qed.

(** Nobody has events before it is there. *)
Definition no_ghosts (w : world) : Prop := forall i x, (i, x) ∈ events w -> (i < length (tasks w))%nat.
Lemma take_turn_no_ghosts a w : no_ghosts w -> no_ghosts (take_turn a w).
Proof.
  intros H. destruct a as [t|j r|j]; cbn.
  - destruct (advance _ _). intros i x Hx. cbn in *. rewrite length_app. apply H in Hx. cbn. lia.
  - destruct (tasks w !! j) as [[[?|? ?|o k] [?|]]|] eqn:Hj; try done. destruct (ready o _); [|done].
    intros i x Hx. cbn in *. rewrite length_insert. apply elem_of_app in Hx as [Hx|Hx%list_elem_of_singleton]; [by eapply H|].
    injection Hx as -> _. by eapply lookup_lt_Some.
  - destruct (tasks w !! j) as [[[?|? ?|o k] [r|]]|]; try done. destruct (advance _ _). intros i x Hx. cbn in *. rewrite length_insert. by eapply H.
Qed.
Lemma take_turns_no_ghosts l : forall w, no_ghosts w -> no_ghosts (take_turns l w).
Proof. induction l as [|a l IH]; intros w H; [done|]. by apply IH, take_turn_no_ghosts. Qed.

(** A task called in a world that has seen anything and that others interfere with in any
    way has kept [Q] if it has ended. *)
Lemma wp_of_a_call Q (t : task S O E A) before after w : no_ghosts w -> wp t Q ->
  let i := length (tasks (take_turns before w)) in
  let w' := take_turns after (take_turn (Call t) (take_turns before w)) in
  keeps Q i w' /\ forall r x, tasks w' !! i = Some (Done r, x) -> Q (own_events i w') r.
Proof.
  intros Hg Hw i w'. assert (Hk : keeps Q i w').
  { apply take_turns_keep. pose proof (take_turns_no_ghosts before w Hg) as Hg'. cbn.
    destruct (advance t _) as [t' s'] eqn:Ha. apply (keeps_waiting _ _ _ t').
    - cbn. rewrite lookup_app_r by lia. by rewrite Nat.sub_diag.
    - assert (He : own_events i {| shared := s'; tasks := tasks (take_turns before w) ++ [(t', None)]; events := events (take_turns before w) |} = []).
      { unfold own_events. cbn. clear Ha Hw. set (l := events (take_turns before w)) in *.
        assert (Hl : forall x, x ∈ l -> x.1 <> i). { intros [j x] Hx He. apply Hg' in Hx. unfold i in He. cbn in *. lia. }
        clearbody l i. clear -Hl. induction l as [|y l IH]; [done|]. cbn. destruct (decide (y.1 = i)) as [He|_]; [destruct (Hl y); [left|done]|]. apply IH. set_solver. }
      rewrite He. change t' with (t', s').1. rewrite <- Ha. by apply advance_wp. }
  split; [done|]. intros r x Hr. destruct Hk as (t'&x'&Ht&Hq). rewrite Hr in Ht. injection Ht as <- <-. cbn in Hq. by rewrite app_nil_r in Hq.
Qed.
End loop.
Arguments world : clear implicits.
Arguments turn : clear implicits.

(** ** A task alone *)
Section solo.
Context {S O E : Type} (env : O -> result E unit) (effect : O -> result E unit -> S -> S).
Fixpoint solo {A} (t : task S O E A) (s : S) : list (O * result E unit) * result E A * S :=
  match t with
  | Done r => ([], r, s)
  | Local f k => solo (k s) (f s)
  | Await o k => let '(m, r, s') := solo (k (env o)) (effect o (env o) s) in ((o, env o) :: m, r, s')
  end.
Lemma solo_tseq {A B} (t : task S O E A) (k : result E A -> task S O E B) s :
  solo (tseq t k) s = let '(m, r, s') := solo t s in let '(m', r', s'') := solo (k r) s' in (m ++ m', r', s'').
Proof.
  revert s. induction t as [r|f g IH|o g IH]; intros s; cbn; [by destruct (solo (k r) s) as [[? ?] ?]|done|].
  rewrite IH. destruct (solo (g (env o)) _) as [[m r] s']. by destruct (solo (k r) s') as [[? ?] ?].
Qed.
Lemma solo_tbind {A B} (t : task S O E A) (k : A -> task S O E B) s :
  solo (tbind t k) s = let '(m, r, s') := solo t s in
    match r with Ok a => let '(m', r', s'') := solo (k a) s' in (m ++ m', r', s'') | Err e => (m, Err e, s') end.
Proof. unfold tbind. rewrite solo_tseq. destruct (solo t s) as [[m [a|e]] s']; [done|]. cbn. by rewrite app_nil_r. Qed.
End solo.
