(* ===== verification/SupervisorCore.v ===== *)
(** * The supervisor

    [Supervisor] of [supervisor/core.py], [PluginLifecycle] of
    [supervisor/plugin_lifecycle.py], the hookpoint helpers of [supervisor/breaker.py] and
    the transaction scope of [memory/db.py], over [CircuitBreaker]: one breaker per
    component, told to the audit log and kept in a table. The methods are coroutines
    ([Tasks]) over one shared object, called by any number of tasks at once; a breaker
    object is an entry of the dict, its [_save_lock] an element of [saving]. Audit writes,
    sessions, hook chains and the drain of the task group are awaits that return or raise
    as they like. The heartbeat is in [CapabilityMonitor]; the correlation ids, the
    timestamps and the log lines are left out. *)
From S2P Require Import Prelude SlidingWindow CircuitBreaker Tasks.
#[local] Open Scope Z_scope.
#[local] Open Scope task_scope.

Inductive exn :=
| SQLAlchemyError | CancelledError | ControlSignal | TimeoutError | ValueError | NoSuchComponentError
| AlreadyStarted | NoActiveTaskGroup | TaskGroupClosed | DictChanged | OutboundDlpUnwired | UnknownStateValue
| OtherError (n : nat).
#[export] Instance exn_eq_dec : EqDecision exn. Proof. solve_decision. Defined.

(** ** Data *)
Inductive stopped_result := stopped_success | stopped_cancelled_with_errors | stopped_persistence_failed.
Inductive reset_result := reset_success | reset_persistence_failed.
(** What [append] and [append_schema] are given. *)
Inductive Row :=
| LifecycleStopped (component_count : Z) (error_type : option exn) (res : stopped_result)
| BreakerReset (cid : string) (old_state new_state : BreakerState) (trips : Z) (operator_user_id : string) (res : reset_result)
| BreakerTripped (cid : string) (trips : Z) (last_failure_type : string) (breaker_state : BreakerState)
| PluginRestartRequested (plugin_id reason requester : string)
| DispatchCycleSkipped (skip_reason : string)
| PluginLoaded (plugin_id manifest_tier : string) (breaker_state : BreakerState)
| PluginLoadRefused (plugin_id manifest_tier : string) (breaker_state : BreakerState)
| PluginCrashed (plugin_id manifest_tier : string) (restart_count : Z) (breaker_state : BreakerState) (exception_type : string)
| PluginQuarantined (plugin_id manifest_tier : string) (restart_count : Z) (breaker_state : BreakerState) (kill_succeeded : bool) (trips : Z).
Inductive Hook :=
| LoadedHook (plugin_id manifest_tier breaker_state : string)
| CrashedHook (plugin_id exception_type breaker_state : string) (restart_count : Z)
| QuarantinedHook (plugin_id : string) (trips : Z) (kill_succeeded : bool).
(** What the methods await. [WaitRun] is the [wait_for] of [stop], [AwaitRunTask] the await
    after its [cancel]; [Enter], [Close] and [Rollback] are the scope's own. *)
Inductive op :=
| WaitStarted | WaitShutdown | GroupExit | WaitRun | AwaitRunTask | RunCycle | WaitTick
| Enter | Close | Rollback | SaveLock (cid : string) | Merge (cid : string) (row : CircuitBreakerState) | Get (cid : string)
| Commit (rows : list (string * CircuitBreakerState))
| Append (row : Row) | InvokeHook (h : Hook).

(** [_task_group] is [Some true] while the group takes tasks and [Some false] once it has
    exited; [circuit_breakers] is the table. *)
Record Supervisor := {
  _breakers : list (string * CircuitBreaker);
  _run_task : bool;
  _task_group : option bool;
  _shutdown_event : bool;
  _started_event : bool;
  saving : gset string;
  circuit_breakers : Table }.

Definition with_breakers (d : list (string * CircuitBreaker)) (s : Supervisor) : Supervisor :=
  {| _breakers := d; _run_task := _run_task s; _task_group := _task_group s; _shutdown_event := _shutdown_event s;
     _started_event := _started_event s; saving := saving s; circuit_breakers := circuit_breakers s |}.
Definition with_run (run : bool) (group : option bool) (shutdown started : bool) (s : Supervisor) : Supervisor :=
  {| _breakers := _breakers s; _run_task := run; _task_group := group; _shutdown_event := shutdown;
     _started_event := started; saving := saving s; circuit_breakers := circuit_breakers s |}.
Definition with_saving (l : gset string) (s : Supervisor) : Supervisor :=
  {| _breakers := _breakers s; _run_task := _run_task s; _task_group := _task_group s; _shutdown_event := _shutdown_event s;
     _started_event := _started_event s; saving := l; circuit_breakers := circuit_breakers s |}.
Definition with_table (t : Table) (s : Supervisor) : Supervisor :=
  {| _breakers := _breakers s; _run_task := _run_task s; _task_group := _task_group s; _shutdown_event := _shutdown_event s;
     _started_event := _started_event s; saving := saving s; circuit_breakers := t |}.

(** A new [Supervisor] in front of a table. *)
Definition new_supervisor (db : Table) : Supervisor :=
  {| _breakers := []; _run_task := false; _task_group := None; _shutdown_event := false; _started_event := false;
     saving := ∅; circuit_breakers := db |}.

Definition ready (o : op) (s : Supervisor) : bool :=
  match o with
  | WaitStarted => _started_event s
  | WaitShutdown => _shutdown_event s
  | SaveLock c => bool_decide (c ∉ saving s)
  | _ => true
  end.
Definition write_rows (rows : list (string * CircuitBreakerState)) (db : Table) : Table :=
  foldl (fun t x => <[x.1 := x.2]> t) db rows.
Definition effect (o : op) (r : result exn unit) (s : Supervisor) : Supervisor :=
  match o, r with
  | SaveLock c, Ok _ => with_saving (saving s ∪ {[c]}) s
  | Commit rows, Ok _ => with_table (write_rows rows (circuit_breakers s)) s
  | _, _ => s
  end.
#[local] Abbreviation task := (task Supervisor op exn).
#[local] Abbreviation append r := (@await Supervisor op exn (Append r)).

(** ** Sessions *)
Definition session_scope {A} (body : task A) : task A :=
  await Enter ;~
  texcept (fun _ => true) (a <~~ body ; await Close ;~ tret a) (fun e => await Rollback ;~ traise e).

(** [save_to_db]: the row is read with the lock held; what the session holds is returned. *)
Definition row_of (b : CircuitBreaker) : CircuitBreakerState :=
  {| row_state := value (state b); row_trip_count := trip_count b; row_last_trip_at := last_trip_at b |}.
Definition save_to_db (cid : string) : task (option (string * CircuitBreakerState)) :=
  await (SaveLock cid) ;~
  tfinally (look (fun s => match dict_get cid (_breakers s) with
                           | Some b => await (Merge cid (row_of b)) ;~ tret (Some (cid, row_of b))
                           | None => tret None
                           end))
           (assign (fun s => with_saving (saving s ∖ {[cid]}) s)).

(** [for breaker in self._breakers.values()]: [n] is the size of the dict when the loop
    starts, compared before each step, and [k] the steps left. *)
Fixpoint save_breakers (n i k : nat) (staged : list (string * CircuitBreakerState)) : task (list (string * CircuitBreakerState)) :=
  look (fun s =>
    if decide (length (_breakers s) <> n) then traise DictChanged
    else match k, _breakers s !! i with
         | S k, Some (cid, _) => x <~~ save_to_db cid ; save_breakers n (S i) k (staged ++ option_list x)
         | _, _ => tret staged
         end).

(** ** The life of the supervisor *)
Definition start : task unit :=
  look (fun s => if _run_task s then traise AlreadyStarted
                 else assign (fun s => with_run true (_task_group s) false false s) ;~ await WaitStarted).
(** The task [start] creates. *)
Definition _run : task unit :=
  assign (fun s => with_run (_run_task s) (Some true) (_shutdown_event s) true s) ;~
  tfinally (tseq (await WaitShutdown) (fun _ => await GroupExit)) (assign (fun s => with_run (_run_task s) ((fun _ => false) <$> _task_group s) (_shutdown_event s) (_started_event s) s)).

Definition is_control (e : exn) : bool := match e with CancelledError | ControlSignal => true | _ => false end.
Definition is_sqlalchemy (e : exn) : bool := match e with SQLAlchemyError => true | _ => false end.
(** The drain: how the run task failed, if it did. *)
Definition drain : task (option exn) :=
  texcept (fun _ => true) (await WaitRun ;~ tret None)
    (fun e => match e with
              | TimeoutError => texcept (fun _ => true) (await AwaitRunTask ;~ tret None) (fun e => tret (Some e))
              | _ => if is_control e then traise e else tret (Some e)
              end).
Definition stop : task unit :=
  look (fun s => if _run_task s then
    assign (fun s => with_run true (_task_group s) true (_started_event s) s) ;~
    force_cancel_exc <~~ drain ;
    texcept is_sqlalchemy
      (session_scope (rows <~~ look (fun s => save_breakers (length (_breakers s)) 0 (length (_breakers s)) []) ; await (Commit rows)))
      (fun e => look (fun s => append (LifecycleStopped (Zlen (_breakers s)) (Some e) stopped_persistence_failed)) ;~
                assign (fun s => with_run false None (_shutdown_event s) (_started_event s) s) ;~
                traise e) ;~
    look (fun s => append (LifecycleStopped (Zlen (_breakers s)) force_cancel_exc
                             (match force_cancel_exc with Some _ => stopped_cancelled_with_errors | None => stopped_success end))) ;~
    assign (fun s => with_run false None (_shutdown_event s) (_started_event s) s)
  else tret tt).
Definition register_plugin_task : task unit :=
  look (fun s => match _task_group s with
                 | None => traise NoActiveTaskGroup
                 | Some false => traise TaskGroupClosed
                 | Some true => tret tt
                 end).

(** ** The breakers *)
Definition new_breaker (cid : string) : CircuitBreaker := init cid _FAILURE_THRESHOLD _FAILURE_WINDOW_SECONDS _RE_ARM_SECONDS.
Definition get_or_create_breaker (cid : string) (s : Supervisor) : CircuitBreaker * Supervisor :=
  match dict_get cid (_breakers s) with
  | Some b => (b, s)
  | None => (new_breaker cid, with_breakers (dict_set cid (new_breaker cid) (_breakers s)) s)
  end.
Definition set_breaker (cid : string) (b : CircuitBreaker) (s : Supervisor) : Supervisor := with_breakers (dict_set cid b (_breakers s)) s.

Definition reset_breaker (cid operator_user_id : string) : task unit :=
  Local (fun s => match dict_get cid (_breakers s) with Some breaker => set_breaker cid (reset breaker).2 s | None => s end)
  (fun s => match dict_get cid (_breakers s) with
    | None => traise NoSuchComponentError
    | Some breaker =>
        let row := BreakerReset cid (state breaker) CLOSED (trip_count breaker) operator_user_id in
        texcept is_sqlalchemy (session_scope (x <~~ save_to_db cid ; await (Commit (option_list x))))
          (fun e => append (row reset_persistence_failed) ;~ traise e) ;~
        append (row reset_success)
    end).

(** [clock i] is what the [i]-th [record_failure] reads. *)
Definition _drive_breaker_open (clock : nat -> Q) (b : CircuitBreaker) : CircuitBreaker :=
  foldl (fun b i => (record_failure (clock i) b).2) b (seq 0 (Z.to_nat (_failure_threshold b))).

Definition _TRIP_BREAKER_REASONS : list string := ["comms_handler_repeated_failures"; "plugin_lifecycle_crash"].
Definition _PLUGIN_RESTART_REASONS : list string := ["unknown_notification"; "handler_repeated_failures"; "manifest_handshake_failure"].
Definition _PLUGIN_RESTART_REQUESTER : string := "AlfredPluginSession".

Definition trip_breaker (cid reason : string) (clock : nat -> Q) : task unit :=
  if decide (reason ∉ _TRIP_BREAKER_REASONS) then traise ValueError
  else Local (fun s => let '(breaker, s) := get_or_create_breaker cid s in
                       if decide (state breaker = OPEN) then s else set_breaker cid (_drive_breaker_open clock breaker) s)
         (fun s => let breaker := (get_or_create_breaker cid s).1 in
                   if decide (state breaker = OPEN) then tret tt
                   else let breaker := _drive_breaker_open clock breaker in
                        append (BreakerTripped cid (trip_count breaker) reason (state breaker))).

Definition request_plugin_restart (adapter_id reason : string) (clock : nat -> Q) : task unit :=
  if decide (reason ∉ _PLUGIN_RESTART_REASONS) then traise ValueError
  else assign (fun s => let '(breaker, s) := get_or_create_breaker adapter_id s in
                        if decide (state breaker = OPEN) then s else set_breaker adapter_id (_drive_breaker_open clock breaker) s) ;~
       append (PluginRestartRequested adapter_id reason _PLUGIN_RESTART_REQUESTER).

(** [load_all_breakers]; [now] is the clock [load_from_db] reads. *)
Fixpoint load_breakers (now : Q) (n i k : nat) : task unit :=
  look (fun s =>
    if decide (length (_breakers s) <> n) then traise DictChanged
    else match k, _breakers s !! i with
         | S k, Some (cid, _) =>
             await (Get cid) ;~
             look (fun s => match dict_get cid (_breakers s) with
                            | Some b => let '(r, b) := load_from_db now (circuit_breakers s) b in
                                assign (set_breaker cid b) ;~
                                match r with Ok _ => load_breakers now n (S i) k | Err _ => traise UnknownStateValue end
                            | None => tret tt
                            end)
         | _, _ => tret tt
         end).
Definition load_all_breakers (now : Q) : task unit :=
  session_scope (look (fun s => load_breakers now (length (_breakers s)) 0 (length (_breakers s)))).

(** The loop of [_proposal_dispatch_loop], for at most [fuel] cycles: [false] says it is
    still running. [RunCycle] is [_proposal_dispatch_cycle]. *)
Fixpoint dispatch_cycles (fuel : nat) : task bool :=
  match fuel with
  | O => tret false
  | S fuel =>
      look (fun s => if _shutdown_event s then tret true else
        texcept (fun e => negb (is_control e)) (await RunCycle)
          (fun _ => texcept (fun e => negb (is_control e)) (append (DispatchCycleSkipped "cycle_uncaught_exception")) (fun _ => tret tt)) ;~
        tseq (await WaitTick) (fun r => match r with Ok _ | Err TimeoutError => dispatch_cycles fuel | Err e => traise e end))
  end.
Definition _build_proposal_context (outbound_dlp : bool) : task unit := if outbound_dlp then tret tt else traise OutboundDlpUnwired.
Definition _proposal_dispatch_loop (outbound_dlp : bool) (fuel : nat) : task bool := _build_proposal_context outbound_dlp ;~ dispatch_cycles fuel.

(** ** PluginLifecycle *)
Definition invoke_hook (h : Hook) : task unit := await (InvokeHook h).
Definition start_plugin (plugin_id manifest_tier : string) (allowed : bool) : task bool :=
  look (fun s => let st := state (get_or_create_breaker plugin_id s).1 in
    if negb allowed then append (PluginLoadRefused plugin_id manifest_tier st) ;~ tret false
    else append (PluginLoaded plugin_id manifest_tier st) ;~
         invoke_hook (LoadedHook plugin_id manifest_tier (value st)) ;~ tret true).
Definition on_crash (plugin_id manifest_tier exception_type : string) (restart_count : Z) (kill_succeeded : bool) (now : Q) : task unit :=
  Local (fun s => let '(b, s) := get_or_create_breaker plugin_id s in set_breaker plugin_id (record_failure now b).2 s)
    (fun s => let b := (record_failure now (get_or_create_breaker plugin_id s).1).2 in
       if decide (state b = OPEN) then
         append (PluginQuarantined plugin_id manifest_tier restart_count (state b) kill_succeeded (trip_count b)) ;~
         look (fun s => invoke_hook (QuarantinedHook plugin_id (trip_count (get_or_create_breaker plugin_id s).1) kill_succeeded))
       else append (PluginCrashed plugin_id manifest_tier restart_count (state b) exception_type) ;~
            invoke_hook (CrashedHook plugin_id exception_type (value (state b)) restart_count)).

(** ** Facts of the breakers *)
Definition opened_at (t : Q) (b : CircuitBreaker) : CircuitBreaker := set_failures [] (with_live OPEN (trip_count b + 1) (Some t) b).
(** No reading of one drive is the window or more after an earlier one of it. *)
Definition quick (clock : nat -> Q) (b : CircuitBreaker) : Prop :=
  forall i j, (i <= j)%nat -> Z.of_nat j < _failure_threshold b -> (clock j - clock i < _failure_window_seconds b)%Q.

Lemma drive_steps clock b n : quick clock b -> state b <> OPEN -> Z.of_nat n <= _failure_threshold b ->
  let b' := foldl (fun b i => (record_failure (clock i) b).2) b (seq 0 n) in
  (exists i, (i < n)%nat /\ b' = opened_at (clock i) b) \/
  (exists pre, b' = set_failures (pre ++ (clock <$> seq 0 n)) b) /\ (Z.of_nat n < _failure_threshold b \/ n = O).
Proof.
  intros Hq Ho. induction n as [|n IH]; intros Hn; [right; split; [|by right]; exists (_recent_failures b); cbn; rewrite app_nil_r; by destruct b|].
  intros b'. subst b'. rewrite seq_S, foldl_snoc, Nat.add_0_l. destruct (IH ltac:(lia)) as [(i&Hi&->)|((pre&->)&_)].
  - left. exists i. split; [lia|]. done.
  - set (l := filter (fun f => Qltb (clock n - _failure_window_seconds b) f = true) (pre ++ (clock <$> seq 0 n)) ++ [clock n]).
    assert (Hl : exists pre', l = pre' ++ (clock <$> seq 0 (S n))).
    { exists (filter (fun f => Qltb (clock n - _failure_window_seconds b) f = true) pre). unfold l.
      rewrite filter_app, seq_S, fmap_app, <- app_assoc. do 2 f_equal. apply filter_all. intros f (i&->&Hi)%list_elem_of_fmap.
      apply elem_of_seq in Hi. specialize (Hq i n ltac:(lia) ltac:(lia)). destruct (Qltb_spec (clock n - _failure_window_seconds b) (clock i)); [done|lra]. }
    destruct Hl as [pre' Hl]. unfold record_failure. cbn -[seq]. rewrite decide_False by done. fold l.
    destruct (Z.leb_spec (_failure_threshold b) (Zlen l)) as [Ht|Ht]; cbn -[seq].
    + left. exists n. split; [lia|]. done.
    + right. split; [exists pre'; rewrite <- seq_S, Hl; done|]. left. rewrite Hl, Zlen_app, Zlen_fmap in Ht. unfold Zlen in Ht. rewrite length_seq in Ht. lia.
Qed.
(** On a clock that is quick enough a drive opens the breaker. *)
Lemma drive_opens clock b : quick clock b -> state b <> OPEN -> 0 < _failure_threshold b ->
  exists t, _drive_breaker_open clock b = opened_at t b.
Proof.
  intros Hq Ho Ht. destruct (drive_steps clock b (Z.to_nat (_failure_threshold b)) Hq Ho ltac:(lia)) as [(i&_&H)|[_ [H|H]]]; [|lia..]. by exists (clock i).
Qed.

(** Whatever the clock says, a drive opens the breaker, once, or leaves all but its failures. *)
Lemma drive_ends clock b : state b <> OPEN -> (exists t, _drive_breaker_open clock b = opened_at t b) \/ exists l, _drive_breaker_open clock b = set_failures l b.
Proof.
  intros Ho. unfold _drive_breaker_open. induction (seq 0 (Z.to_nat (_failure_threshold b))) as [|i l IH] using rev_ind; [right; exists (_recent_failures b); by destruct b|].
  rewrite foldl_snoc. destruct IH as [[t ->]|[fs ->]]; [by left; exists t|]. unfold record_failure. cbn. rewrite decide_False by done.
  destruct (_ <=? _); cbn; [left; by eexists|right; by eexists].
Qed.

(** The dict of the breakers after [get_or_create_breaker] and an assignment to the entry. *)
Lemma get_or_create_get cid s : dict_get cid (_breakers (get_or_create_breaker cid s).2) = Some (get_or_create_breaker cid s).1.
Proof. unfold get_or_create_breaker. destruct (dict_get cid (_breakers s)) eqn:H; cbn; [done|]. by rewrite dict_get_set, decide_True. Qed.
Lemma get_or_create_ne cid c s : c <> cid -> dict_get c (_breakers (get_or_create_breaker cid s).2) = dict_get c (_breakers s).
Proof. intros. unfold get_or_create_breaker. destruct (dict_get cid (_breakers s)); cbn; [done|]. by rewrite dict_get_set, decide_False. Qed.
Lemma get_set_breaker c cid b s : dict_get c (_breakers (set_breaker cid b s)) = if decide (c = cid) then Some b else dict_get c (_breakers s).
Proof. apply dict_get_set. Qed.

(** The trips of a component, 0 before it has a breaker. *)
Definition trips_of (s : Supervisor) (cid : string) : Z := from_option trip_count 0 (dict_get cid (_breakers s)).
Definition grows (s s' : Supervisor) : Prop := forall c, trips_of s c <= trips_of s' c.
Lemma grows_refl s s' : _breakers s' = _breakers s -> grows s s'.
Proof. intros H c. unfold trips_of. rewrite H. lia. Qed.
Lemma trips_get_or_create cid c s : trips_of (get_or_create_breaker cid s).2 c = trips_of s c.
Proof. unfold trips_of, get_or_create_breaker. destruct (dict_get cid (_breakers s)) eqn:H; cbn; [done|]. rewrite dict_get_set. case_decide; subst; by rewrite ?H. Qed.
Lemma trips_get_or_create_fst cid s : trip_count (get_or_create_breaker cid s).1 = trips_of s cid.
Proof. rewrite <- (trips_get_or_create cid). unfold trips_of. by rewrite get_or_create_get. Qed.
Lemma trips_set_breaker cid c b s : trips_of (set_breaker cid b s) c = if decide (c = cid) then trip_count b else trips_of s c.
Proof. unfold trips_of. rewrite get_set_breaker. by case_decide. Qed.
Lemma grows_set cid b s : trips_of s cid <= trip_count b -> grows s (set_breaker cid b s).
Proof. intros H c. rewrite trips_set_breaker. case_decide; subst; lia. Qed.
Lemma record_failure_trips now b : trip_count b <= trip_count (record_failure now b).2.
Proof. unfold record_failure. case_decide; cbn; [lia|]. destruct (_ <=? _); cbn; lia. Qed.
Lemma drive_trips clock b : trip_count b <= trip_count (_drive_breaker_open clock b).
Proof.
  unfold _drive_breaker_open. generalize (seq 0 (Z.to_nat (_failure_threshold b))) as l. intros l. revert b.
  induction l as [|i l IH]; intros b; cbn; [lia|]. pose proof (record_failure_trips (clock i) b). specialize (IH (record_failure (clock i) b).2). lia.
Qed.
Lemma grows_opened cid clock s :
  grows s (let '(b, s') := get_or_create_breaker cid s in if decide (state b = OPEN) then s' else set_breaker cid (_drive_breaker_open clock b) s').
Proof.
  pose proof (trips_get_or_create_fst cid s) as Hf. pose proof (fun c => trips_get_or_create cid c s) as Hg.
  destruct (get_or_create_breaker cid s) as [b s']. cbn in *. intros c. case_decide; [by rewrite Hg|].
  rewrite trips_set_breaker, Hg. case_decide; [|lia]. subst. pose proof (drive_trips clock b). lia.
Qed.

(** Every breaker of a supervisor has the thresholds of the module. *)
Definition stock (s : Supervisor) : Prop := forall c b, dict_get c (_breakers s) = Some b ->
  component_id b = c /\ _failure_threshold b = _FAILURE_THRESHOLD /\ _failure_window_seconds b = _FAILURE_WINDOW_SECONDS /\ _re_arm_seconds b = _RE_ARM_SECONDS.
(** ** Each opening is told once *)
(** The methods, for a client that calls them in any number of tasks. *)
Inductive method :=
| MStart | MRun | MStop | MRegister | MDispatchLoop (outbound_dlp : bool) (fuel : nat)
| MReset (cid operator_user_id : string) | MTrip (cid reason : string) (clock : nat -> Q) | MRestart (adapter_id reason : string) (clock : nat -> Q)
| MLoad (now : Q) | MStartPlugin (plugin_id manifest_tier : string) (allowed : bool)
| MOnCrash (plugin_id manifest_tier exception_type : string) (restart_count : Z) (kill_succeeded : bool) (now : Q).
Definition body (m : method) : task unit :=
  match m with
  | MStart => start | MRun => _run | MStop => stop | MRegister => register_plugin_task
  | MDispatchLoop dlp fuel => _proposal_dispatch_loop dlp fuel ;~ tret tt
  | MReset cid operator => reset_breaker cid operator
  | MTrip cid reason clock => trip_breaker cid reason clock
  | MRestart adapter reason clock => request_plugin_restart adapter reason clock
  | MLoad now => load_all_breakers now
  | MStartPlugin p tier allowed => start_plugin p tier allowed ;~ tret tt
  | MOnCrash p tier e n killed now => on_crash p tier e n killed now
  end.
Inductive move := MCall (m : method) | MComplete (i : nat) (r : result exn unit) | MResume (i : nat).
Definition turn_of (m : move) : turn Supervisor op exn unit :=
  match m with MCall m => Call (body m) | MComplete i r => Complete i r | MResume i => Resume i end.
(** A call of [load_all_breakers], which sets the counts back to those of the table. *)
Definition loads (m : move) : bool := match m with MCall (MLoad _) => true | _ => false end.
Definition loop (l : list move) (s : Supervisor) : world Supervisor op exn unit :=
  take_turns ready effect (turn_of <$> l) {| shared := s; tasks := []; events := [] |}.

(** The opening a row tells: that of a trip which says that the breaker is open. *)
Definition tells (o : op) : option (string * Z) := match o with Append (BreakerTripped c n _ OPEN) => Some (c, n) | _ => None end.
Definition safe (f : Supervisor -> Supervisor) : Prop := forall s, grows s (f s).
Fixpoint silent {A} (t : task A) : Prop :=
  match t with
  | Done _ => True
  | Local f k => safe f /\ forall s, silent (k s)
  | Await o k => tells o = None /\ forall r, silent (k r)
  end.

Lemma silent_tseq {A B} (t : task A) (k : result exn A -> task B) : silent t -> (forall r, silent (k r)) -> silent (tseq t k).
Proof. intros Ht Hk. induction t as [r|f g IH|o g IH]; cbn in *; [done| |]; destruct Ht; split; auto. Qed.
Lemma silent_tbind {A B} (t : task A) (k : A -> task B) : silent t -> (forall a, silent (k a)) -> silent (tbind t k).
Proof. intros Ht Hk. apply silent_tseq; [done|]. by intros []. Qed.
Lemma silent_texcept {A} c (t : task A) (h : exn -> task A) : silent t -> (forall e, silent (h e)) -> silent (texcept c t h).
Proof. intros Ht Hh. apply silent_tseq; [done|]. intros [|e]; [done|]. by destruct (c e). Qed.
Lemma silent_tfinally {A} (t : task A) (h : task unit) : silent t -> silent h -> silent (tfinally t h).
Proof. intros Ht Hh. apply silent_tseq; [done|]. intros r. by apply silent_tbind. Qed.
Lemma safe_same f : (forall s, _breakers (f s) = _breakers s) -> safe f.
Proof. intros H s. by apply grows_refl. Qed.
Lemma silent_look {A} (k : Supervisor -> task A) : (forall s, silent (k s)) -> silent (look k).
Proof. split; [|done]. by apply safe_same. Qed.
Lemma silent_assign f : safe f -> silent (assign f). Proof. done. Qed.
Lemma silent_await o : tells o = None -> silent (await o). Proof. done. Qed.
Ltac silence := repeat first
  [ intros ? | exact I | reflexivity | done | apply silent_tbind | apply silent_texcept | apply silent_tfinally | apply silent_look | apply silent_assign | apply silent_tseq
  | apply safe_same | match goal with |- silent (match ?x with _ => _ end) => destruct x end ].

Lemma safe_update cid (g : CircuitBreaker -> CircuitBreaker) : (forall b, trip_count b <= trip_count (g b)) ->
  safe (fun s => let '(b, s') := get_or_create_breaker cid s in set_breaker cid (g b) s').
Proof.
  intros Hg s. pose proof (trips_get_or_create_fst cid s) as Hf. pose proof (fun c => trips_get_or_create cid c s) as Ht.
  destruct (get_or_create_breaker cid s) as [b s']. cbn in *. intros c. specialize (Hg b). rewrite trips_set_breaker, Ht. case_decide; subst; lia.
Qed.

Lemma session_scope_silent {A} (t : task A) : silent t -> silent (session_scope t).
Proof. intros H. unfold session_scope. silence. Qed.
Lemma save_to_db_silent cid : silent (save_to_db cid).
Proof. unfold save_to_db. silence. Qed.
Lemma save_breakers_silent k : forall n i staged, silent (save_breakers n i k staged).
Proof. induction k as [|k IH]; intros; cbn [save_breakers]; silence. Qed.
Lemma dispatch_loop_silent dlp fuel : silent (_proposal_dispatch_loop dlp fuel).
Proof.
  unfold _proposal_dispatch_loop. apply silent_tbind; [by destruct dlp|]. intros _.
  induction fuel; cbn [dispatch_cycles]; silence.
Qed.
Lemma reset_breaker_silent cid operator : silent (reset_breaker cid operator).
Proof.
  unfold reset_breaker. split.
  - intros s. destruct (dict_get cid (_breakers s)) as [b|] eqn:Hb; [|by apply grows_refl]. apply grows_set. unfold trips_of. by rewrite Hb.
  - intros s. destruct (dict_get cid (_breakers s)) as [b|]; [|done]. silence.
Qed.
Lemma stop_silent : silent stop.
Proof. unfold stop, drain. silence. apply save_breakers_silent. Qed.

(** Every method but the trip and the load is silent; a trip writes one row. *)
Lemma method_silent m : match m with MTrip _ _ _ | MLoad _ => True | _ => silent (body m) end.
Proof.
  destruct m; cbn [body]; try exact I.
  - unfold start. silence.
  - unfold _run. silence.
  - apply stop_silent.
  - unfold register_plugin_task. silence.
  - apply silent_tbind; [apply dispatch_loop_silent|done].
  - apply reset_breaker_silent.
  - unfold request_plugin_restart. case_decide; [done|]. apply silent_tbind; [apply silent_assign; intros s; apply grows_opened|done].
  - unfold start_plugin. silence.
  - unfold on_crash. split; [apply (safe_update plugin_id (fun b => (record_failure now b).2)), record_failure_trips|].
    intros s. silence.
Qed.

(** The openings whose row has been written or tried, and those whose row a task is writing. *)
Definition told (w : world Supervisor op exn unit) : list (string * Z) := omap (fun x => tells x.2.1) (events w).
Definition telling (x : task unit * option (result exn unit)) : option (string * Z) := match x with (Await o _, None) => tells o | _ => None end.
Definition issued (w : world Supervisor op exn unit) : list (string * Z) := told w ++ omap telling (tasks w).
(** At an await, with nothing to tell after it. *)
Definition settled (t : task unit) : Prop := match t with Done _ => True | Local _ _ => False | Await _ k => forall r, silent (k r) end.
Record telling_ok (s0 : Supervisor) (w : world Supervisor op exn unit) : Prop := {
  tell_settled t x : (t, x) ∈ tasks w -> settled t;
  tell_once : NoDup (issued w);
  tell_counts c n : (c, n) ∈ issued w -> trips_of s0 c < n <= trips_of (shared w) c;
  tell_grows : grows s0 (shared w) }.

Lemma advance_silent (t : task unit) : forall s, silent t -> let '(t', s') := advance t s in
  settled t' /\ telling (t', None) = None /\ grows s s'.
Proof.
  induction t as [r|f k IH|o k IH]; intros s Ht; cbn in *.
  - split_and!; try done. by apply grows_refl.
  - destruct Ht as [Hf Hk]. specialize (IH s (f s) (Hk s)). destruct (advance (k s) (f s)) as [t' s'].
    destruct IH as (?&?&Hg). specialize (Hf s). split_and!; auto. intros c. specialize (Hg c). specialize (Hf c). lia.
  - destruct Ht as [Ho Hk]. split_and!; try done. by apply grows_refl.
Qed.
(** A trip of a breaker that is not open tells the opening it has made, or, when the clock
    goes ahead so far that the drive does not open it, none. *)
Lemma trip_tells cid reason clock s : let '(t', s') := advance (trip_breaker cid reason clock) s in
  settled t' /\ grows s s' /\ (forall c n, telling (t', None) = Some (c, n) -> trips_of s c < n <= trips_of s' c).
Proof.
  unfold trip_breaker. destruct (decide (reason ∉ _)) as [Hr|Hr]; [cbn; split_and!; try done; by apply grows_refl|]. cbn [advance].
  pose proof (grows_opened cid clock s) as Hg. pose proof (trips_get_or_create_fst cid s) as Hf. pose proof (fun b c => trips_set_breaker cid c b (get_or_create_breaker cid s).2) as Hs.
  destruct (get_or_create_breaker cid s) as [b s1]. cbn [fst snd] in *. destruct (decide (state b = OPEN)) as [Ho|Ho]; [by cbn|]. cbn [advance await]. split_and!; [done|exact Hg|].
  destruct (drive_ends clock b Ho) as [[t E]|[l E]]; rewrite E; cbn; [|by destruct (state b)].
  intros c n [= <- <-]. specialize (Hs (opened_at t b) cid). rewrite decide_True in Hs by done. cbn in Hs. lia.
Qed.
(** A call tells at most the opening it has made. *)
Lemma call_tells m s : loads (MCall m) = false -> let '(t', s') := advance (body m) s in
  settled t' /\ grows s s' /\ (forall c n, telling (t', None) = Some (c, n) -> trips_of s c < n <= trips_of s' c).
Proof.
  intros Hl. assert (Hm : silent (body m) -> let '(t', s') := advance (body m) s in settled t' /\ grows s s' /\
      (forall c n, telling (t', None) = Some (c, n) -> trips_of s c < n <= trips_of s' c)).
  { intros Hm. pose proof (advance_silent (body m) s Hm) as Ha. destruct (advance (body m) s) as [t' s']. destruct Ha as (?&Ht&?). split_and!; auto. rewrite Ht. done. }
  pose proof (method_silent m) as Hk. destruct m; try exact (Hm Hk); [apply trip_tells|done].
Qed.

Lemma omap_insert (l : list (task unit * option (result exn unit))) i x y : l !! i = Some x ->
  exists l1 l2, omap telling l = l1 ++ option_list (telling x) ++ l2 /\ omap telling (<[i := y]> l) = l1 ++ option_list (telling y) ++ l2.
Proof.
  intros H. assert (Hi : (i < length l)%nat) by by eapply lookup_lt_Some.
  exists (omap telling (take i l)), (omap telling (drop (S i) l)).
  assert (Ho : forall z r, omap telling (z :: r) = option_list (telling z) ++ omap telling r) by (intros z r; csimpl; by destruct (telling z)).
  split.
  - rewrite <- (take_drop_middle l i x H) at 1. by rewrite omap_app, Ho.
  - rewrite insert_take_drop by done. by rewrite omap_app, Ho.
Qed.
Lemma telling_ok_frame s0 w w' : telling_ok s0 w -> grows (shared w) (shared w') ->
  (forall t x, (t, x) ∈ tasks w' -> settled t) -> issued w' ≡ₚ issued w -> telling_ok s0 w'.
Proof.
  intros [H2 H3 H4 H5] Hg Ht Hi. split; [done|by rewrite Hi| |].
  - intros c n. rewrite Hi. intros Hc%H4. specialize (Hg c). lia.
  - intros c. specialize (H5 c). specialize (Hg c). lia.
Qed.
Lemma move_telling_ok s0 a w : loads a = false -> telling_ok s0 w -> telling_ok s0 (take_turn ready effect (turn_of a) w).
Proof.
  intros Hp H. pose proof H as [H2 H3 H4 H5]. destruct a as [m|i r|i]; cbn.
  - pose proof (call_tells m (shared w) Hp) as Hc. destruct (advance (body m) (shared w)) as [t' s']. destruct Hc as (Ht&Hg&Hn).
    assert (Hi : issued {| shared := s'; tasks := tasks w ++ [(t', None)]; events := events w |} = issued w ++ option_list (telling (t', None))).
    { unfold issued, told. cbn [events tasks]. by rewrite omap_app, app_assoc. }
    split; cbn [shared tasks].
    + intros t x [?|[= -> ->]%list_elem_of_singleton]%elem_of_app; eauto.
    + rewrite Hi. destruct (telling (t', None)) as [[c n]|] eqn:Hk; cbn; [|by rewrite app_nil_r]. apply NoDup_app. split_and!; [done| |apply NoDup_singleton].
      intros [c' n'] Hin [= -> ->]%list_elem_of_singleton. apply H4 in Hin. specialize (Hn c n eq_refl). lia.
    + intros c n. rewrite Hi. intros [Hin|Hin]%elem_of_app; [apply H4 in Hin; specialize (Hg c); lia|].
      destruct (telling (t', None)) as [[c' n']|] eqn:Hk; [|by apply elem_of_nil in Hin].
      apply list_elem_of_singleton in Hin as [= -> ->]. specialize (Hn c' n' eq_refl). specialize (H5 c'). lia.
    + intros c. specialize (H5 c). specialize (Hg c). lia.
  - destruct (tasks w !! i) as [[[?|? ?|o k] [?|]]|] eqn:Hi; try done. destruct (ready o _); [|done].
    assert (Hsame : _breakers (effect o r (shared w)) = _breakers (shared w)) by by destruct o, r.
    apply (telling_ok_frame s0 w); cbn; try done.
    + by apply grows_refl.
    + intros t x Hin. apply list_elem_of_lookup in Hin as [j Hj]. destruct (decide (i = j)) as [<-|Hne].
      * rewrite list_lookup_insert_eq in Hj by (by eapply lookup_lt_Some). injection Hj as <- <-. eapply H2. by eapply list_elem_of_lookup_2.
      * rewrite list_lookup_insert_ne in Hj by done. eapply H2. by eapply list_elem_of_lookup_2.
    + unfold issued, told. cbn. destruct (omap_insert (tasks w) i _ (Await o k, Some r) Hi) as (l1&l2&->&->). rewrite omap_app. csimpl.
      destruct (tells o); cbn; rewrite ?app_nil_r; [|done]. rewrite <- app_assoc. apply Permutation_app_head. cbn. apply Permutation_middle.
  - destruct (tasks w !! i) as [[[?|? ?|o k] [r|]]|] eqn:Hi; try done.
    assert (Hk : silent (k r)). { assert (Hin : (Await o k, Some r) ∈ tasks w) by by eapply list_elem_of_lookup_2. apply H2 in Hin. apply Hin. }
    pose proof (advance_silent (k r) (shared w) Hk) as Ha. destruct (advance (k r) (shared w)) as [t' s'] eqn:He. destruct Ha as (Ht&Hn&Hg).
    apply (telling_ok_frame s0 w); cbn; auto.
    + intros t x Hin. apply list_elem_of_lookup in Hin as [j Hj]. destruct (decide (i = j)) as [<-|Hne].
      * rewrite list_lookup_insert_eq in Hj by (by eapply lookup_lt_Some). by injection Hj as <- <-.
      * rewrite list_lookup_insert_ne in Hj by done. eapply H2. by eapply list_elem_of_lookup_2.
    + unfold issued, told. cbn. destruct (omap_insert (tasks w) i _ (t', None) Hi) as (l1&l2&->&->). by rewrite Hn.
Qed.
Lemma loop_telling_ok l : forall s0 w, Forall (fun a => loads a = false) l -> telling_ok s0 w -> telling_ok s0 (take_turns ready effect (turn_of <$> l) w).
Proof. induction l as [|a l IH]; intros s0 w Hp H; [done|]. apply Forall_cons in Hp as [??]. cbn. apply IH; [done|]. by apply move_telling_ok. Qed.

(** C21: from any state of the breakers, whatever was loaded before: as long as
    [load_all_breakers] is not called again, the methods are called in any number of tasks,
    interleaved in any way, with any clock, and answered in any way, and no two rows of trips
    that say OPEN tell the same opening: they are of different components or carry
    different counts, and each count is above the one the component began with and not above
    its count now.  (A row of a trip that does not say OPEN tells no opening: see
    [slow_drive_does_not_open].  The row of a quarantine repeats the count of its component
    and is not one of these.) *)
Theorem openings_are_told_once s0 l : Forall (fun a => loads a = false) l ->
  let w := loop l s0 in
  NoDup (told w) /\ forall c n, (c, n) ∈ told w -> trips_of s0 c < n <= trips_of (shared w) c.
Proof.
  intros Hp w. assert (H : telling_ok s0 w).
  { apply loop_telling_ok; [done|]. split; cbn; [intros t x Hin; by apply elem_of_nil in Hin|apply NoDup_nil_2|intros c n Hin; by apply elem_of_nil in Hin|by apply grows_refl]. }
  destruct H as [_ H3 H4 _]. split; [unfold issued in H3; apply NoDup_app in H3; tauto|]. intros c n Hin. apply H4, elem_of_app. by left.
Qed.
Lemma openings_are_told_once_witness :
  let clock (i : nat) := inject_Z (Z.of_nat i) in
  let l := [MCall (MTrip "a" "plugin_lifecycle_crash" clock); MCall (MTrip "a" "plugin_lifecycle_crash" clock); MCall (MReset "a" "op");
            MCall (MTrip "a" "plugin_lifecycle_crash" clock); MComplete 3 (Ok tt); MComplete 0 (Err SQLAlchemyError)] in
  told (loop l (new_supervisor ∅)) = [("a", 2); ("a", 1)] /\ NoDup (told (loop l (new_supervisor ∅))).
Proof. intros clock l. split; [vm_compute; reflexivity|]. apply (openings_are_told_once (new_supervisor ∅) l). by repeat constructor. Defined.

(** ** Every stop and every reset is accounted for *)
Definition written (m : list (op * result exn unit)) : list (Row * result exn unit) :=
  omap (fun x => match x.1 with Append row => Some (row, x.2) | _ => None end) m.
Definition committed (m : list (op * result exn unit)) : Prop := exists rows, (Commit rows, Ok tt) ∈ m.
(** [e] came out of an await, or the dict grew under the loop. *)
Definition blamed (m : list (op * result exn unit)) (e : exn) : Prop := e = DictChanged \/ exists o, (o, Err e) ∈ m.
Definition quiet {A} (P : list (op * result exn unit) -> Prop) (m : list (op * result exn unit)) (r : result exn A) : Prop :=
  written m = [] /\ match r with Ok _ => P m | Err e => blamed m e end.

Definition stop_settles (m : list (op * result exn unit)) (r : result exn unit) : Prop :=
  match written m, r with
  | [], Ok _ => m = []
  | [], Err e => (is_control e = true /\ m = [(WaitRun, Err e)]) \/ (is_sqlalchemy e = false /\ blamed m e)
  | [(LifecycleStopped _ err stopped_persistence_failed, x)], _ =>
      err = Some SQLAlchemyError /\ blamed m SQLAlchemyError /\ r = (match x with Ok _ => Err SQLAlchemyError | _ => x end)
  | [(LifecycleStopped _ err stopped_success, x)], _ =>
      err = None /\ committed m /\ r = x /\ ((WaitRun, Ok tt) ∈ m \/ (WaitRun, Err TimeoutError) ∈ m /\ (AwaitRunTask, Ok tt) ∈ m)
  | [(LifecycleStopped _ err stopped_cancelled_with_errors, x)], _ =>
      committed m /\ r = x /\ exists e, err = Some e /\ ((WaitRun, Err e) ∈ m \/ (WaitRun, Err TimeoutError) ∈ m /\ (AwaitRunTask, Err e) ∈ m)
  | _, _ => False
  end.
Definition reset_settles (cid operator : string) (m : list (op * result exn unit)) (r : result exn unit) : Prop :=
  match written m, r with
  | [], Ok _ => False
  | [], Err e => (e = NoSuchComponentError /\ m = []) \/ (is_sqlalchemy e = false /\ blamed m e)
  | [(BreakerReset c _ new _ who reset_persistence_failed, x)], _ =>
      c = cid /\ new = CLOSED /\ who = operator /\ blamed m SQLAlchemyError /\ r = (match x with Ok _ => Err SQLAlchemyError | _ => x end)
  | [(BreakerReset c _ new _ who reset_success, x)], _ => c = cid /\ new = CLOSED /\ who = operator /\ committed m /\ r = x
  | _, _ => False
  end.
Definition settles (c : method) : list (op * result exn unit) -> result exn unit -> Prop :=
  match c with MStop => stop_settles | MReset cid operator => reset_settles cid operator | _ => fun _ _ => True end.

Lemma written_app m m' : written (m ++ m') = written m ++ written m'.
Proof. apply omap_app. Qed.
Lemma blamed_l m m' e : blamed m e -> blamed (m ++ m') e.
Proof. intros [->|[o H]]; [by left|right; exists o; apply elem_of_app; by left]. Qed.
Lemma blamed_r m m' e : blamed m' e -> blamed (m ++ m') e.
Proof. intros [->|[o H]]; [by left|right; exists o; apply elem_of_app; by right]. Qed.
Lemma committed_l m m' : committed m -> committed (m ++ m').
Proof. intros [rows H]. exists rows. apply elem_of_app. by left. Qed.
Lemma committed_r m m' : committed m' -> committed (m ++ m').
Proof. intros [rows H]. exists rows. apply elem_of_app. by right. Qed.

#[local] Abbreviation anything := (fun _ : list (op * result exn unit) => True).
Lemma quiet_await o : (forall row, o <> Append row) -> wp (await o : task unit) (quiet (fun m => m = [(o, Ok tt)])).
Proof. intros Ho r. cbn. unfold quiet, written. split; [destruct o; try done; by destruct (Ho row)|]. destruct r as [[]|e]; [done|]. right. exists o. apply list_elem_of_here. Qed.
Lemma quiet_mono {A} (t : task A) (P P' : list (op * result exn unit) -> Prop) : (forall m, P m -> P' m) -> wp t (quiet P) -> wp t (quiet P').
Proof. intros H. apply wp_task_mono. intros m [a|e] [? ?]; split; auto. Qed.
Lemma quiet_tbind {A B} (t : task A) (k : A -> task B) P P' : wp t (quiet P) ->
  (forall a m, P m -> wp (k a) (quiet (fun m' => P' (m ++ m')))) -> wp (tbind t k) (quiet P').
Proof.
  intros Ht Hk. apply wp_tbind. eapply wp_task_mono; [|exact Ht]. intros m [a|e] [Hm Hr]; [|done].
  eapply wp_task_mono; [|apply (Hk a m Hr)]. intros m' [b|e] [Hm' Hr']; (split; [by rewrite written_app, Hm, Hm'|]); [done|]. by apply blamed_r.
Qed.
Lemma quiet_tfinally {A} (t : task A) (h : task unit) P : wp t (quiet anything) -> wp h (quiet anything) ->
  (forall m, P m) -> wp (tfinally t h) (quiet P).
Proof.
  intros Ht Hh HP. apply wp_tseq. eapply wp_task_mono; [|exact Ht]. intros m r [Hm Hr]. apply wp_tbind. eapply wp_task_mono; [|exact Hh].
  intros m' [[]|e] [Hm' Hr']; cbn; rewrite ?app_nil_r; (split; [by rewrite written_app, Hm, Hm'|]).
  - destruct r as [a|e]; [apply HP|by apply blamed_l].
  - by apply blamed_r.
Qed.
Lemma session_scope_quiet {A} (t : task A) P : wp t (quiet P) -> (forall m m' m'', P m -> P (m' ++ m ++ m'')) -> wp (session_scope t) (quiet P).
Proof.
  intros Ht HP. eapply quiet_tbind; [by apply quiet_await|]. intros [] m ->. apply wp_texcept.
  apply (wp_task_mono _ (quiet (fun m => P ([(Enter, Ok tt)] ++ m)))).
  - intros m [a|e] [Hm Hr]; [by split|]. apply wp_tbind. apply (wp_task_mono _ (quiet (fun m => m = [(Rollback, Ok tt)]))); [|by apply quiet_await].
    intros m' [[]|e'] [Hm' Hr']; cbn; rewrite ?app_nil_r; (split; [by rewrite written_app, Hm, Hm'|]); [by apply blamed_l|by apply blamed_r].
  - eapply quiet_tbind; [exact Ht|]. intros a m Hm. eapply quiet_tbind; [by apply quiet_await|]. intros [] m' ->. cbn. split; [done|].
    by apply (HP m [(Enter, Ok tt)] [(Close, Ok tt)]).
Qed.
Lemma save_to_db_quiet cid : wp (save_to_db cid) (quiet anything).
Proof.
  eapply quiet_tbind; [by apply quiet_await|]. intros [] m _. apply quiet_tfinally; [|done|done].
  intros s. destruct (dict_get cid (_breakers s)); [|done]. eapply quiet_tbind; [by apply quiet_await|]. done.
Qed.
Lemma save_breakers_quiet k : forall n i staged, wp (save_breakers n i k staged) (quiet anything).
Proof.
  induction k as [|k IH]; intros n i staged s; cbn [save_breakers]; (case_decide; [split; [done|by left]|]); [done|].
  destruct (_breakers s !! i) as [[cid b]|]; [|done]. eapply quiet_tbind; [apply save_to_db_quiet|]. intros x m _. apply (quiet_mono _ anything); [done|apply IH].
Qed.
Lemma commit_quiet rows : wp (await (Commit rows) : task unit) (quiet committed).
Proof. apply (quiet_mono _ (fun m => m = [(Commit rows, Ok tt)])); [|by apply quiet_await]. intros m ->. exists rows. apply list_elem_of_here. Qed.
Lemma committed_in m m' m'' : committed m -> committed (m' ++ m ++ m'').
Proof. intros. by apply committed_r, committed_l. Qed.

Lemma reset_accounts cid operator : wp (reset_breaker cid operator) (reset_settles cid operator).
Proof.
  unfold reset_breaker. cbn [wp]. intros s. destruct (dict_get cid (_breakers s)) as [b|]; [|by left]. cbv zeta.
  set (row := BreakerReset cid (state b) CLOSED (trip_count b) operator). apply wp_tbind, wp_texcept.
  apply (wp_task_mono _ (quiet committed)).
  - intros m [[]|e] [Hm Hr].
    + intros x. cbn. unfold reset_settles. rewrite written_app, Hm. cbn. split_and!; try done. by apply committed_l.
    + destruct (is_sqlalchemy e) eqn:He.
      * destruct e; try discriminate. intros [[]|e']; cbn; unfold reset_settles; rewrite ?app_nil_r, written_app, Hm; cbn; split_and!; try done; by apply blamed_l.
      * unfold reset_settles. rewrite Hm. right. done.
  - apply session_scope_quiet; [|intros; by apply committed_in]. eapply quiet_tbind; [apply save_to_db_quiet|].
    intros x m _. eapply quiet_mono; [|apply commit_quiet]. intros m' Hm'. by apply committed_r.
Qed.

Definition drained (m : list (op * result exn unit)) (r : result exn (option exn)) : Prop :=
  match r with
  | Ok None => m = [(WaitRun, Ok tt)] \/ m = [(WaitRun, Err TimeoutError); (AwaitRunTask, Ok tt)]
  | Ok (Some e) => m = [(WaitRun, Err e)] \/ m = [(WaitRun, Err TimeoutError); (AwaitRunTask, Err e)]
  | Err e => m = [(WaitRun, Err e)] /\ is_control e = true
  end.
Lemma drain_drained : wp drain drained.
Proof. unfold drain. intros [[]|e]; cbn; [by left|]. destruct e; cbn; try (by left); try done. intros [[]|e]; cbn; by right. Qed.
Lemma drained_writes_nothing m r : drained m r -> written m = [].
Proof. destruct r as [[e|]|e]; cbn; [intros [->| ->]|intros [->| ->]|intros [-> _]]; done. Qed.

Lemma stop_accounts : wp stop stop_settles.
Proof.
  unfold stop, look. cbn [wp]. intros s. destruct (_run_task s); [|done]. apply wp_tbind. intros s'. cbn [app]. apply wp_tbind. eapply wp_task_mono; [|apply drain_drained].
  intros m0 r0 Hd. pose proof (drained_writes_nothing _ _ Hd) as H0. destruct r0 as [force|e].
  2: { destruct Hd as [-> Hc]. unfold stop_settles. cbn. by left. }
  apply wp_tbind, wp_texcept. apply (wp_task_mono _ (quiet committed)).
  - intros m [[]|e] [Hm Hr].
    + intros s1 x. destruct x as [[]|ex]; cbn; [intros _|]; unfold stop_settles; rewrite !written_app, H0, Hm; destruct force as [e|]; cbn.
      all: split_and!; try done; try (by apply committed_r, committed_l).
      all: cbn in Hd; try (exists e; split; [done|]); destruct Hd as [->| ->]; [left|right; split]; set_solver.
    + destruct (is_sqlalchemy e) eqn:He.
      * destruct e; try discriminate. intros s1 [[]|e']; cbn; [intros _ | ]; unfold stop_settles; rewrite ?app_nil_r, !written_app, H0, Hm; cbn; split_and!; try done; by apply blamed_r, blamed_l.
      * cbn [app]. unfold stop_settles. rewrite written_app, H0, Hm. right. split; [done|]. by apply blamed_r.
  - apply session_scope_quiet; [|intros; by apply committed_in].
    eapply (quiet_tbind _ _ anything); [intros s1; apply save_breakers_quiet|]. intros rows m _.
    eapply quiet_mono; [|apply commit_quiet]. intros m' Hm'. by apply committed_r.
Qed.
Lemma method_accounts c : wp (body c) (settles c).
Proof. destruct c; try (by apply wp_any); [apply stop_accounts|apply reset_accounts]. Qed.

Lemma take_turns_app l l' w : take_turns ready effect (l ++ l') w = take_turns (A := unit) ready effect l' (take_turns ready effect l w).
Proof. apply foldl_app. Qed.

(** C22: however many tasks are in the methods, and however the sessions, the audit log and the
    run task answer: a [stop] or a [reset_breaker] that has ended wrote one
    row and ended as that write did, or wrote none.  A row that says success or
    cancelled comes after a commit, and says how the run task ended; one that says
    persistence_failed comes after a [SQLAlchemyError], which is raised again if the row is
    written.  Without a row the call did nothing (not started, no such component), or was
    cancelled in the drain, or raised what an await raised that is no [SQLAlchemyError], or
    found that the dict of the breakers had grown under its loop. *)
Theorem exits_are_accounted_for s0 before after c :
  let i := length (tasks (loop before s0)) in
  let w := loop (before ++ MCall c :: after) s0 in
  forall r x, tasks w !! i = Some (Done r, x) -> settles c (own_events i w) r.
Proof.
  intros i w r x Hr. unfold w, loop in Hr |- *. rewrite fmap_app in Hr |- *. rewrite take_turns_app in Hr |- *. csimpl in *.
  pose proof (wp_of_a_call ready effect (settles c) (body c) (turn_of <$> before) (turn_of <$> after) {| shared := s0; tasks := []; events := [] |}) as H.
  destruct H as [_ H]; [by intros ?? ?%elem_of_nil|apply method_accounts|]. exact (H r x Hr).
Qed.
Lemma exits_are_accounted_for_witness :
  let l := [MCall MStart; MCall MRun; MComplete 0 (Ok tt); MResume 0; MCall (MOnCrash "p" "system" "OSError" 0 true 5)] in
  let after := [MComplete 3 (Ok tt); MResume 3; MComplete 3 (Ok tt); MResume 3; MComplete 3 (Ok tt); MResume 3; MComplete 3 (Ok tt); MResume 3;
                MComplete 3 (Err SQLAlchemyError); MResume 3; MComplete 3 (Ok tt); MResume 3; MComplete 3 (Ok tt); MResume 3] in
  let w := loop (l ++ MCall MStop :: after) (new_supervisor ∅) in
  own_events 3 w = [(WaitRun, Ok tt); (Enter, Ok tt); (SaveLock "p", Ok tt); (Merge "p" {| row_state := "CLOSED"; row_trip_count := 0; row_last_trip_at := None |}, Ok tt);
    (Commit [("p", {| row_state := "CLOSED"; row_trip_count := 0; row_last_trip_at := None |})], Err SQLAlchemyError); (Rollback, Ok tt);
    (Append (LifecycleStopped 1 (Some SQLAlchemyError) stopped_persistence_failed), Ok tt)] /\
  settles MStop (own_events 3 w) (Err SQLAlchemyError).
Proof.
  intros l after w. split; [vm_compute; reflexivity|]. apply (exits_are_accounted_for (new_supervisor ∅) l after MStop (Err SQLAlchemyError) None). vm_compute. reflexivity.
Defined.

(** ** A stop and a start *)
Definition calm (o : op) : result exn unit := Ok tt.
#[local] Abbreviation alone := (solo calm effect).

Lemma write_rows_get rows : forall db c, NoDup (fst <$> rows) ->
  write_rows rows db !! c = match dict_get c rows with Some r => Some r | None => db !! c end.
Proof.
  induction rows as [|[c' r] rows IH]; intros db c Hn; [done|]. rewrite fmap_cons in Hn. apply NoDup_cons in Hn as [Hc Hn].
  change (write_rows _ db) with (write_rows rows (<[c' := r]> db)). rewrite IH by done. cbn [dict_get]. destruct (decide (c = c')) as [->|Hne].
  - cbn [fst] in Hc. apply dict_get_None in Hc. rewrite Hc. by rewrite lookup_insert_eq.
  - destruct (dict_get c rows); [done|]. by rewrite lookup_insert_ne.
Qed.
Lemma dict_get_fmap {A B} (f : string -> A -> B) (d : list (string * A)) c :
  dict_get c ((fun x => (x.1, f x.1 x.2)) <$> d) = f c <$> dict_get c d.
Proof. induction d as [|[c' a] d IH]; [done|]. cbn. case_decide; subst; done. Qed.
Lemma dict_set_middle {A} (c : string) (a b : A) l1 l2 : c ∉ fst <$> l1 -> dict_set c b (l1 ++ (c, a) :: l2) = l1 ++ (c, b) :: l2.
Proof. induction l1 as [|[c' x] l1 IH]; cbn; intros H; [by rewrite decide_True|]. rewrite decide_False by set_solver. rewrite IH by set_solver. done. Qed.
Lemma dict_get_middle {A} (c : string) (a : A) l1 l2 : c ∉ fst <$> l1 -> dict_get c (l1 ++ (c, a) :: l2) = Some a.
Proof. intros H. rewrite dict_get_app. apply dict_get_None in H. rewrite H. cbn. by rewrite decide_True. Qed.

Lemma alone_session {A} (t : task A) s :
  alone (session_scope t) s = let '(m, r, s') := alone t s in
    match r with Ok a => ((Enter, Ok tt) :: m ++ [(Close, Ok tt)], Ok a, s') | Err e => ((Enter, Ok tt) :: m ++ [(Rollback, Ok tt)], Err e, s') end.
Proof.
  unfold session_scope. rewrite solo_tbind. cbn -[tbind texcept]. unfold texcept. rewrite solo_tseq, solo_tbind. destruct (alone t s) as [[m [a|e]] s']; cbn; by rewrite ?app_nil_r.
Qed.
Lemma alone_save cid b s : dict_get cid (_breakers s) = Some b -> cid ∉ saving s ->
  alone (save_to_db cid) s = ([(SaveLock cid, Ok tt); (Merge cid (row_of b), Ok tt)], Ok (Some (cid, row_of b)), s).
Proof.
  intros Hb Hs. unfold save_to_db. rewrite solo_tbind. cbn. rewrite Hb. cbn. do 2 f_equal.
  destruct s as [d r g sh st sv db]. unfold with_saving. cbn in *. f_equal. set_solver.
Qed.
Lemma alone_saves k : forall i staged s, NoDup (dict_keys (_breakers s)) -> saving s = ∅ -> length (_breakers s) = (i + k)%nat ->
  exists m, alone (save_breakers (length (_breakers s)) i k staged) s = (m, Ok (staged ++ ((fun x => (x.1, row_of x.2)) <$> drop i (_breakers s))), s).
Proof.
  induction k as [|k IH]; intros i staged s Hn Hs Hl; cbn [save_breakers look solo]; rewrite decide_False by tauto.
  - rewrite drop_ge by lia. exists []. by rewrite app_nil_r.
  - destruct (_breakers s !! i) as [[cid b]|] eqn:Hi; [|apply lookup_ge_None in Hi; lia]. rewrite solo_tbind.
    assert (Hb : dict_get cid (_breakers s) = Some b) by (apply dict_elem_get; [done|by eapply list_elem_of_lookup_2]).
    rewrite (alone_save cid b s Hb) by (rewrite Hs; set_solver). change (option_list (Some (cid, row_of b))) with [(cid, row_of b)].
    destruct (IH (S i) (staged ++ [(cid, row_of b)]) s Hn Hs ltac:(lia)) as [m ->]. eexists. f_equal. f_equal. f_equal.
    rewrite (drop_S _ _ _ Hi). cbn. by rewrite <- app_assoc.
Qed.
Lemma alone_drain s : alone drain s = ([(WaitRun, Ok tt)], Ok None, s). Proof. done. Qed.
Lemma alone_stop s : NoDup (dict_keys (_breakers s)) -> saving s = ∅ -> _run_task s = true ->
  exists m, alone stop s = (m, Ok tt, with_table (write_rows ((fun x => (x.1, row_of x.2)) <$> _breakers s) (circuit_breakers s))
                                        (with_run false None true (_started_event s) s)).
Proof.
  intros Hn Hs Hr. unfold stop. cbn [look solo]. rewrite Hr, solo_tbind. cbn [assign solo tret]. rewrite solo_tbind, alone_drain, solo_tbind.
  unfold texcept. rewrite solo_tseq, alone_session, solo_tbind. cbn [look solo].
  destruct (alone_saves (length (_breakers s)) 0 [] (with_run true (_task_group s) true (_started_event s) s) Hn Hs eq_refl) as [m Hm].
  cbn [_breakers with_run] in Hm. cbn [_breakers with_run]. rewrite Hm. cbn. eexists. rewrite ?app_nil_r. reflexivity.
Qed.

(** What [load_from_db] makes of a row that [save_to_db] wrote. *)
Definition rearmed (now : Q) (rearm : Q) (b : CircuitBreaker) : BreakerState :=
  match state b, last_trip_at b with
  | OPEN, Some t => if Qle_bool rearm (now - t) then HALF_OPEN else OPEN
  | s, _ => s
  end.
Lemma load_saved now db cid b fresh : db !! cid = Some (row_of b) -> component_id fresh = cid ->
  load_from_db now db fresh = (Ok tt, with_live (rearmed now (_re_arm_seconds fresh) b) (trip_count b) (last_trip_at b) fresh).
Proof.
  intros Hd Hc. unfold load_from_db, rearmed. rewrite Hc, Hd. cbn. destruct (state b) eqn:Hs; cbn; try done. unfold maybe_rearm. cbn.
  destruct (last_trip_at b) as [t|]; [|done]. by destruct (Qle_bool _ _).
Qed.
Lemma alone_loads now k : forall i s, NoDup (dict_keys (_breakers s)) -> length (_breakers s) = (i + k)%nat ->
  (forall c b, (c, b) ∈ drop i (_breakers s) -> (load_from_db now (circuit_breakers s) b).1 = Ok tt) ->
  exists m, alone (load_breakers now (length (_breakers s)) i k) s =
    (m, Ok tt, with_breakers (take i (_breakers s) ++ ((fun x => (x.1, (load_from_db now (circuit_breakers s) x.2).2)) <$> drop i (_breakers s))) s).
Proof.
  induction k as [|k IH]; intros i s Hn Hl Hok; cbn [load_breakers look solo]; rewrite decide_False by tauto.
  - rewrite drop_ge, take_ge by lia. exists []. cbn. rewrite app_nil_r. by destruct s.
  - destruct (_breakers s !! i) as [[cid b]|] eqn:Hi; [|apply lookup_ge_None in Hi; lia].
    assert (Hb : dict_get cid (_breakers s) = Some b) by (apply dict_elem_get; [done|by eapply list_elem_of_lookup_2]).
    pose proof (drop_S _ _ _ Hi) as Hd. pose proof (Hok cid b ltac:(rewrite Hd; by left)) as Hr.
    cbn [tbind tseq await solo calm effect look]. rewrite Hb. destruct (load_from_db now (circuit_breakers s) b) as [r b'] eqn:Hload. cbn in Hr. subst r.
    cbn [tbind tseq assign solo tret]. set (s1 := set_breaker cid b' s).
    assert (Hs1 : _breakers s1 = take i (_breakers s) ++ (cid, b') :: drop (S i) (_breakers s)).
    { unfold s1. cbn. rewrite <- (take_drop_middle _ _ _ Hi) at 1. apply dict_set_middle.
      unfold dict_keys in Hn. rewrite <- (take_drop_middle _ _ _ Hi), fmap_app, fmap_cons in Hn. apply NoDup_app in Hn as (_&Hn&_).
      intros Hin. apply (Hn cid Hin). by left. }
    assert (Hlen : length (take i (_breakers s)) = i) by (rewrite length_take; lia).
    assert (Hl1 : length (_breakers s1) = length (_breakers s)) by (rewrite Hs1, length_app, Hlen; cbn; rewrite length_drop; lia).
    rewrite <- Hl1. destruct (IH (S i) s1) as [m Hm].
    + unfold s1. cbn. by apply dict_set_NoDup.
    + lia.
    + intros c x Hx. apply (Hok c). rewrite Hs1, drop_app_ge in Hx by lia. rewrite Hlen in Hx. replace (S i - i)%nat with 1%nat in Hx by lia. rewrite Hd. right. exact Hx.
    + rewrite Hm. eexists. f_equal. rewrite Hs1, take_app_ge, drop_app_ge, Hlen by lia. replace (S i - i)%nat with 1%nat by lia. cbn.
      rewrite drop_0, Hd, fmap_cons, <- app_assoc. cbn [fst snd app]. by rewrite Hload.
Qed.

Definition register (ids : list string) (s : Supervisor) : Supervisor := foldl (fun s c => (get_or_create_breaker c s).2) s ids.
Lemma register_breakers ids : forall s, NoDup ids -> (forall c, c ∈ ids -> c ∉ dict_keys (_breakers s)) ->
  register ids s = with_breakers (_breakers s ++ ((fun c => (c, new_breaker c)) <$> ids)) s.
Proof.
  induction ids as [|c ids IH]; intros s Hn Hf; cbn; [rewrite app_nil_r; by destruct s|]. apply NoDup_cons in Hn as [Hc Hn].
  assert (Hg : (get_or_create_breaker c s).2 = with_breakers (_breakers s ++ [(c, new_breaker c)]) s).
  { unfold get_or_create_breaker. assert (H : c ∉ dict_keys (_breakers s)) by (apply Hf; by left).
    pose proof H as H0. apply dict_get_None in H0. rewrite H0. cbn. f_equal. clear -H.
    induction (_breakers s) as [|[c' b] d IH]; [done|]. cbn in *. rewrite decide_False by set_solver. by rewrite IH by set_solver. }
  rewrite Hg. unfold register in IH. rewrite IH.
  - cbn. by rewrite <- app_assoc.
  - done.
  - intros c' Hc'. unfold dict_keys. cbn. rewrite fmap_app. cbn. intros [Hin|Hin]%elem_of_app; [by apply (Hf c'); [right|]|]. set_solver.
Qed.

(** C23: a supervisor that stops undisturbed, and a new one in front of its table on which the
    components are registered and [load_all_breakers] is then run ([start] does not run it):
    the stop saves and the load gives back, for every component registered again, its state,
    its trip count and the time of its last trip, but that an open breaker whose re-arm time
    has passed is half-open; its failure window and its backoff are new. *)
Theorem restart_restores_every_breaker s ids now :
  stock s -> NoDup (dict_keys (_breakers s)) -> saving s = ∅ -> _run_task s = true -> NoDup ids -> ids ⊆ dict_keys (_breakers s) ->
  let '(_, stopped, s1) := alone stop s in
  let '(_, loaded, s2) := alone (load_all_breakers now) (register ids (new_supervisor (circuit_breakers s1))) in
  stopped = Ok tt /\ _run_task s1 = false /\ loaded = Ok tt /\ dict_keys (_breakers s2) = ids /\
  forall c, c ∈ ids -> exists b, dict_get c (_breakers s) = Some b /\
    dict_get c (_breakers s2) = Some (with_live (rearmed now _RE_ARM_SECONDS b) (trip_count b) (last_trip_at b) (new_breaker c)).
Proof.
  intros Hst Hn Hs Hr Hi Hsub. destruct (alone_stop s Hn Hs Hr) as [m ->]. set (db := write_rows _ _).
  assert (Hrow : forall c b, dict_get c (_breakers s) = Some b -> db !! c = Some (row_of b)).
  { intros c b Hb. unfold db. rewrite write_rows_get; [by rewrite (dict_get_fmap (fun _ => row_of)), Hb|]. rewrite <- list_fmap_compose. exact Hn. }
  assert (Hc : forall c, c ∈ ids -> exists b, dict_get c (_breakers s) = Some b /\
    load_from_db now db (new_breaker c) = (Ok tt, with_live (rearmed now _RE_ARM_SECONDS b) (trip_count b) (last_trip_at b) (new_breaker c))).
  { intros c Hin. apply Hsub in Hin. destruct (dict_get c (_breakers s)) as [b|] eqn:Hb; [|by apply dict_get_None in Hb]. exists b. split; [done|].
    by apply (load_saved now db c); [apply Hrow|]. }
  change (circuit_breakers (with_table db _)) with db. rewrite register_breakers; [|done|intros c _ H; by apply elem_of_nil in H].
  unfold load_all_breakers. rewrite alone_session. cbn [look solo]. set (s2 := with_breakers _ (new_supervisor db)).
  assert (Hk : dict_keys (_breakers s2) = ids) by (unfold s2, dict_keys; cbn; rewrite <- list_fmap_compose; apply list_fmap_id).
  destruct (alone_loads now (length (_breakers s2)) 0 s2) as [m2 Hm2]; [by rewrite Hk|lia| |].
  { intros c b. rewrite drop_0. unfold s2. cbn. intros (c'&[= -> ->]&Hin)%list_elem_of_fmap. destruct (Hc c' Hin) as (b&_&Hl). cbn [circuit_breakers new_supervisor with_breakers]. by rewrite Hl. }
  rewrite Hm2. rewrite take_0, app_nil_l. rewrite drop_0. split_and!; try done.
  - unfold dict_keys. cbn [_breakers with_breakers]. rewrite <- list_fmap_compose. exact Hk.
  - intros c Hin. destruct (Hc c Hin) as (b&Hb&Hl). exists b. split; [done|]. cbn [_breakers with_breakers].
    rewrite (dict_get_fmap (fun _ b => (load_from_db now (circuit_breakers s2) b).2)). unfold s2. cbn [_breakers with_breakers new_supervisor app circuit_breakers].
    assert (Hg : dict_get c ((fun c => (c, new_breaker c)) <$> ids) = Some (new_breaker c)).
    { clear -Hin. induction ids as [|c' ids IH]; [by apply elem_of_nil in Hin|]. cbn. case_decide; subst; [done|]. apply IH. set_solver. }
    rewrite Hg. cbn. by rewrite Hl.
Qed.
Lemma restart_restores_every_breaker_witness :
  let b := (record_failure 9 (record_failure 8 (record_failure 7 (new_breaker "a")).2).2).2 in
  let s := with_run true (Some true) false true (with_breakers [("a", b); ("b", new_breaker "b")] (new_supervisor ∅)) in
  let '(_, stopped, s1) := alone stop s in
  let '(_, loaded, s2) := alone (load_all_breakers 3608) (register ["b"; "a"] (new_supervisor (circuit_breakers s1))) in
  stopped = Ok tt /\ _run_task s1 = false /\ loaded = Ok tt /\ dict_keys (_breakers s2) = ["b"; "a"] /\
  forall c, c ∈ ["b"; "a"] -> exists b, dict_get c (_breakers s) = Some b /\
    dict_get c (_breakers s2) = Some (with_live (rearmed 3608 _RE_ARM_SECONDS b) (trip_count b) (last_trip_at b) (new_breaker c)).
Proof.
  intros b s. apply (restart_restores_every_breaker s ["b"; "a"] 3608).
  - intros c x. cbn. repeat (case_decide; [subst; intros [= <-]; by vm_compute|]). done.
  - apply (bool_decide_unpack _). vm_compute. exact I.
  - reflexivity.
  - reflexivity.
  - apply (bool_decide_unpack _). vm_compute. exact I.
  - set_solver.
Defined.

(** ** Interleavings the methods do not survive *)
(** [start] loads nothing: on a new supervisor in front of a table with an open breaker, the
    component that is registered after it is closed. *)
Theorem start_alone_restores_nothing :
  let db : Table := {[ "a" := {| row_state := "OPEN"; row_trip_count := 3; row_last_trip_at := Some 7%Q |} ]} in
  let '(_, r, s) := solo (fun _ => Ok tt) effect start (new_supervisor db) in
  r = Ok tt /\ (get_or_create_breaker "a" s).1 = new_breaker "a".
Proof. by vm_compute. Qed.
(** The drive counts on a clock that does not run away: with readings further apart than the
    failure window the breaker stays closed, and the row of the trip says CLOSED. *)
Theorem slow_drive_does_not_open :
  let w := loop [MCall (MTrip "a" "plugin_lifecycle_crash" (fun i => inject_Z (300 * Z.of_nat i))); MComplete 0 (Ok tt)] (new_supervisor ∅) in
  written (own_events 0 w) = [(BreakerTripped "a" 0 "plugin_lifecycle_crash" CLOSED, Ok tt)] /\ told w = [].
Proof. by vm_compute. Qed.
(** A load between two trips sets the count back, so the second opening is told under the
    number of the first. *)
Theorem late_load_repeats_an_opening :
  let trip n := MCall (MTrip "a" "plugin_lifecycle_crash" (fun i => inject_Z (Z.of_nat (n + i)))) in
  let db : Table := {[ "a" := {| row_state := "CLOSED"; row_trip_count := 0; row_last_trip_at := None |} ]} in
  let step i := [MComplete i (Ok tt); MResume i] in
  told (loop (trip 0%nat :: step 0%nat ++ MCall (MLoad 9) :: step 1%nat ++ step 1%nat ++ trip 10%nat :: step 2%nat) (new_supervisor db)) = [("a", 1); ("a", 1)].
Proof. by vm_compute. Qed.

Definition ticks (n : nat) : nat -> Q := fun i => inject_Z (Z.of_nat (n + i)).
(** [start], and a crash of the component "a". *)
Definition running : list move := [MCall MStart; MCall MRun; MComplete 0 (Ok tt); MResume 0; MCall (MOnCrash "a" "system" "OSError" 0 true 5)].
(** The next [n] awaits of task [i] return. *)
Definition returns (i n : nat) : list move := concat (replicate n [MComplete i (Ok tt); MResume i]).
Definition closed (n : Z) (t : option Q) : CircuitBreakerState := {| row_state := "CLOSED"; row_trip_count := n; row_last_trip_at := t |}.
Definition row_open (n : Z) (t : option Q) : CircuitBreakerState := {| row_state := "OPEN"; row_trip_count := n; row_last_trip_at := t |}.

(** A component that trips for the first time while [stop] saves the breakers makes it raise
    out of its loop: nothing is saved, no row is written, and the supervisor is left running
    to itself, so that it cannot be started again. *)
Theorem new_breaker_breaks_the_stop :
  let w := loop (running ++ MCall MStop :: returns 3 3 ++ MCall (MTrip "b" "plugin_lifecycle_crash" (ticks 6)) :: returns 3 2 ++ [MCall MStart]) (new_supervisor ∅) in
  fst <$> tasks w !! 3%nat = Some (traise DictChanged) /\ written (own_events 3 w) = [] /\ circuit_breakers (shared w) = ∅ /\
  _run_task (shared w) = true /\ fst <$> tasks w !! 5%nat = Some (traise AlreadyStarted).
Proof. vm_compute. done. Qed.

(** The lock of [save_to_db] is released before the commit: of two resets with a trip
    between them, the one that read first can commit last, and the row has then lost the
    second trip.  And a trip after the reset and before its session is open is what the
    reset saves, under a row that says success and CLOSED. *)
Theorem reset_commits_out_of_order :
  let trip n := MCall (MTrip "a" "plugin_lifecycle_crash" (ticks n)) in
  let reset := MCall (MReset "a" "op") in
  let w := loop (trip 0%nat :: reset :: returns 1 3 ++ [trip 10%nat; reset] ++ returns 3 6 ++ returns 1 3) (new_supervisor ∅) in
  let w' := loop (trip 0%nat :: reset :: trip 10%nat :: returns 1 6) (new_supervisor ∅) in
  (trips_of (shared w) "a" = 2 /\ circuit_breakers (shared w) !! "a" = Some (closed 1 (Some 2%Q)) /\
   written (own_events 3 w) = [(BreakerReset "a" OPEN CLOSED 2 "op" reset_success, Ok tt)]) /\
  circuit_breakers (shared w') !! "a" = Some (row_open 2 (Some 12%Q)) /\
  written (own_events 1 w') = [(BreakerReset "a" OPEN CLOSED 1 "op" reset_success, Ok tt)].
Proof. vm_compute. done. Qed.

(** A run task that is cancelled after the drain's timeout and ends as a cancelled task
    does is recorded as a stop with errors. *)
Theorem clean_cancel_is_recorded_as_error :
  let w := loop (running ++ [MCall MStop; MComplete 3 (Err TimeoutError); MResume 3; MComplete 3 (Err CancelledError); MResume 3] ++ returns 3 6) (new_supervisor ∅) in
  written (own_events 3 w) = [(LifecycleStopped 1 (Some CancelledError) stopped_cancelled_with_errors, Ok tt)].
Proof. vm_compute. done. Qed.

(** One cycle of the dispatch loop: it raises what [is_control] says passes, and every
    other failure of the cycle is given one row and the loop waits for its next tick. *)
Lemma dispatch_cycle_survives fuel s e x : _shutdown_event s = false -> is_control e = false -> (forall e', x = Err e' -> is_control e' = false) ->
  exists k1 k2, fst (advance (_proposal_dispatch_loop true (S fuel)) s) = Await RunCycle k1 /\
    k1 (Err e) = Await (Append (DispatchCycleSkipped "cycle_uncaught_exception")) k2 /\
    exists k3, k2 x = Await WaitTick k3 /\ k3 (Err TimeoutError) = dispatch_cycles fuel.
Proof.
  intros Hs He Hx. cbn. rewrite Hs. eexists _, _. split; [done|]. split; [by destruct e|].
  destruct x as [[]|e']; [by eexists|]. specialize (Hx e' eq_refl). destruct e'; try discriminate; by eexists.
Qed.
