(* ===== verification/CapabilityMonitor.v ===== *)
(** * The capability-gate monitor

    [CapabilityGateMonitor] of [supervisor/capability_monitor.py] with the loop of
    [supervisor/core.py] that runs it: one task probes the gate and writes a row when the
    gate's backing store becomes unavailable and one when it is back, while any task counts
    the dispatches denied in between. A step is what happens between two awaits: a probe up
    to its row, the end of the row's write, a denial, the end of the wait between two ticks.
    The ids are an input of the probes that use one. *)
From S2P Require Import Prelude.
#[local] Open Scope Z_scope.

Inductive transition := entering_fail_closed | exiting_fail_closed.
#[export] Instance transition_eq_dec : EqDecision transition. Proof. solve_decision. Defined.
(** The subject of [supervisor.capability_gate_unavailable]. *)
Record Subject := { state_transition : transition; denied_dispatch_count : Z; backing_store_error_type : string; correlation_id : string }.

(** Where the heartbeat task is: in the write of a row, in the wait for the next tick, or
    ended, by the shutdown or by what a write raised. *)
Inductive phase := Emitting (row : Subject) | Ticking | Ended (raised : bool).

Record Monitor := {
  _in_fail_closed : bool;
  _outage_correlation_id : option string;
  _denied_dispatch_count : Z;
  heartbeat : phase }.
Definition new_monitor : Monitor :=
  {| _in_fail_closed := false; _outage_correlation_id := None; _denied_dispatch_count := 0; heartbeat := Ticking |}.
Definition with_phase (p : phase) (m : Monitor) : Monitor :=
  {| _in_fail_closed := _in_fail_closed m; _outage_correlation_id := _outage_correlation_id m; _denied_dispatch_count := _denied_dispatch_count m; heartbeat := p |}.

Definition record_denied_dispatch (m : Monitor) : Monitor :=
  if _in_fail_closed m then
    {| _in_fail_closed := _in_fail_closed m; _outage_correlation_id := _outage_correlation_id m;
       _denied_dispatch_count := _denied_dispatch_count m + 1; heartbeat := heartbeat m |}
  else m.

(** [_emit_transition]: the row; [fallback] is the id made when there is none. *)
Definition _emit_transition (t : transition) (denied : Z) (error_type : string) (override : option string) (fallback : string) (m : Monitor) : Subject :=
  {| state_transition := t; denied_dispatch_count := denied; backing_store_error_type := error_type;
     correlation_id := match override with Some i => i | None => default fallback (_outage_correlation_id m) end |}.
(** [run_one_heartbeat] up to its await, and after it. *)
Definition run_one_heartbeat (available : bool) (uuid : string) (m : Monitor) : Monitor :=
  if negb available && negb (_in_fail_closed m) then
    with_phase (Emitting (_emit_transition entering_fail_closed 0 "unavailable" (Some uuid) uuid m)) m
  else if available && _in_fail_closed m then
    with_phase (Emitting (_emit_transition exiting_fail_closed (_denied_dispatch_count m) "" (_outage_correlation_id m) uuid m)) m
  else with_phase Ticking m.
Definition emitted (row : Subject) (m : Monitor) : Monitor :=
  match state_transition row with
  | entering_fail_closed => {| _in_fail_closed := true; _outage_correlation_id := Some (correlation_id row); _denied_dispatch_count := 0; heartbeat := Ticking |}
  | exiting_fail_closed => {| _in_fail_closed := false; _outage_correlation_id := None; _denied_dispatch_count := 0; heartbeat := Ticking |}
  end.

(** A tick of [_capability_heartbeat_loop] that finds the shutdown event clear probes; one
    that finds it set ends the loop. [Written ok] ends the write of the row. *)
Inductive step := Tick (shutdown : bool) (available : bool) (uuid : string) | Written (ok : bool) | Denied.
Definition take (s : step) (m : Monitor) : Monitor :=
  match s, heartbeat m with
  | Tick true _ _, Ticking => with_phase (Ended false) m
  | Tick false available uuid, Ticking => run_one_heartbeat available uuid m
  | Written true, Emitting row => emitted row m
  | Written false, Emitting _ => with_phase (Ended true) m
  | Denied, _ => record_denied_dispatch m
  | _, _ => m
  end.
(** The rows written, with the monitor. *)
Definition take_logged (x : Monitor * list Subject) (s : step) : Monitor * list Subject :=
  (take s x.1, x.2 ++ match s, heartbeat x.1 with Written true, Emitting row => [row] | _, _ => [] end).
Definition run_monitor (l : list step) : Monitor * list Subject := foldl take_logged (new_monitor, []) l.

(** ** What a reader of the log sees *)
(** The rows of the outages that are over and of the one announced, if any. *)
Inductive outages : list Subject -> option string -> Prop :=
| no_outage : outages [] None
| announced rows id : outages rows None ->
    outages (rows ++ [{| state_transition := entering_fail_closed; denied_dispatch_count := 0; backing_store_error_type := "unavailable"; correlation_id := id |}]) (Some id)
| closed rows id n : outages rows (Some id) -> 0 <= n ->
    outages (rows ++ [{| state_transition := exiting_fail_closed; denied_dispatch_count := n; backing_store_error_type := ""; correlation_id := id |}]) None.

(** The monitor between two steps. *)
Record monitor_ok (m : Monitor) (rows : list Subject) : Prop := {
  mon_rows : outages rows (_outage_correlation_id m);
  mon_id : _in_fail_closed m = bool_decide (is_Some (_outage_correlation_id m));
  mon_count : 0 <= _denied_dispatch_count m;
  mon_idle : _in_fail_closed m = false -> _denied_dispatch_count m = 0;
  mon_row row : heartbeat m = Emitting row -> match state_transition row with
    | entering_fail_closed => _in_fail_closed m = false /\ denied_dispatch_count row = 0 /\ backing_store_error_type row = "unavailable"
    | exiting_fail_closed => _outage_correlation_id m = Some (correlation_id row) /\ backing_store_error_type row = "" /\
        0 <= denied_dispatch_count row <= _denied_dispatch_count m
    end }.

Lemma monitor_take_ok s m rows : monitor_ok m rows -> monitor_ok (take_logged (m, rows) s).1 (take_logged (m, rows) s).2.
Proof.
  intros [H1 H2 H3 H4 H5]. unfold take_logged, take. cbn [fst snd].
  destruct s as [[] available uuid|[]|]; destruct (heartbeat m) as [row| |e] eqn:Hh; cbn; rewrite ?app_nil_r; try (by split; rewrite ?Hh); try (by split).
  - unfold run_one_heartbeat. destruct (_in_fail_closed m) eqn:Hf, available; cbn; split; cbn; rewrite ?Hf; try done.
    + intros row [= <-]. cbn. symmetry in H2. apply bool_decide_eq_true in H2 as [id Hid]. rewrite Hid. cbn. split_and!; (done || lia).
    + intros row [= <-]. done.
  - specialize (H5 row eq_refl). destruct row as [[] n err id]; cbn in *; unfold emitted; cbn.
    + destruct H5 as (Hf&->&->). rewrite Hf in H2. split; cbn; try done. apply announced.
      destruct (_outage_correlation_id m); [|done]. by rewrite bool_decide_eq_true_2 in H2 by done.
    + destruct H5 as (Hid&->&Hn). split; cbn; try done. apply closed; [by rewrite <- Hid|lia].
  - unfold record_denied_dispatch. destruct (_in_fail_closed m) eqn:Hf; cbn; split; cbn; rewrite ?Hf, ?Hh; try done; [lia|].
    intros row' Hr. specialize (H5 row' Hr). destruct (state_transition row'); [by destruct H5|]. destruct H5 as (?&?&?). split_and!; (done || lia).
  - unfold record_denied_dispatch. destruct (_in_fail_closed m) eqn:Hf; cbn; split; cbn; rewrite ?Hf, ?Hh; try done. lia.
  - unfold record_denied_dispatch. destruct (_in_fail_closed m) eqn:Hf; cbn; split; cbn; rewrite ?Hf, ?Hh; try done. lia.
Qed.
Lemma run_monitor_ok l : monitor_ok (run_monitor l).1 (run_monitor l).2.
Proof.
  induction l as [|s l IH] using rev_ind; [by split; try constructor|]. unfold run_monitor in *. rewrite foldl_snoc.
  destruct (foldl take_logged (new_monitor, []) l) as [m rows]. by apply monitor_take_ok.
Qed.

(** Nothing is announced and no probe finds the store back: the denials of an outage. *)
Definition quiet (s : step) : bool := match s with Tick false false _ | Denied => true | _ => false end.
Definition denials (l : list step) : Z := Zlen (filter (fun s => match s with Denied => true | _ => false end = true) l).
Lemma denials_cons s l : denials (s :: l) = (if s is Denied then 1 else 0) + denials l.
Proof. unfold denials. rewrite filter_cons. destruct s; cbn; case_decide; rewrite ?Zlen_cons; lia || done. Qed.
Lemma quiet_counts l : forall m, forallb quiet l = true -> heartbeat m = Ticking -> _in_fail_closed m = true ->
  foldl (fun m s => take s m) m l = {| _in_fail_closed := true; _outage_correlation_id := _outage_correlation_id m;
    _denied_dispatch_count := _denied_dispatch_count m + denials l; heartbeat := Ticking |}.
Proof.
  induction l as [|s l IH]; intros m Hq Hh Hf; cbn.
  - destruct m as [f i n h]; cbn in *; subst. f_equal. unfold denials. cbn. rewrite Zlen_nil. lia.
  - cbn in Hq. apply andb_prop in Hq as [Hs Hq]. rewrite denials_cons. destruct s as [[] [] u|?|]; try discriminate; cbn.
    + rewrite Hh. unfold run_one_heartbeat. rewrite Hf. cbn. rewrite IH; done.
    + unfold record_denied_dispatch. rewrite Hf. rewrite IH; cbn; try done. f_equal. lia.
Qed.
Lemma denied_waits l : forall m row, heartbeat m = Emitting row -> forallb (fun s => negb (if s is Written _ then true else false)) l = true ->
  heartbeat (foldl (fun m s => take s m) m l) = Emitting row.
Proof.
  induction l as [|s l IH]; intros m row Hh Hl; [done|]. cbn in *. apply andb_prop in Hl as [Hs Hl]. apply IH; [|done].
  destruct s as [[] ? ?|?|]; try discriminate; cbn; rewrite ?Hh; try done. unfold record_denied_dispatch. by destruct (_in_fail_closed m).
Qed.

(** After any ticks, denials and writes, failed writes and the shutdown included: the rows
    written are the outages one after the other, each announced with no denials and closed
    under the id it was announced with, the last one perhaps still open, which is when the
    monitor counts denials. *)
Theorem outage_rows_come_in_pairs l :
  let '(m, rows) := run_monitor l in
  outages rows (_outage_correlation_id m) /\ _in_fail_closed m = bool_decide (is_Some (_outage_correlation_id m)).
Proof. pose proof (run_monitor_ok l) as [H1 H2 _ _ _]. by destruct (run_monitor l). Qed.

(** The closing row of an outage has the id of its announcement and counts the denials from
    the end of the write of the announcement to the probe that found the store back; the
    denials before, during the announcement's write, and after, during its own write, are
    on no row, and the next outage starts from 0. *)
Theorem closing_row_counts_the_denials m row during back uuid late :
  heartbeat m = Emitting row -> state_transition row = entering_fail_closed ->
  forallb quiet during = true -> forallb (fun s => negb (if s is Written _ then true else false)) late = true ->
  let m1 := foldl (fun m s => take s m) m (Written true :: during ++ [Tick false true uuid]) in
  let m2 := foldl (fun m s => take s m) m1 late in
  let closing := {| state_transition := exiting_fail_closed; denied_dispatch_count := denials during; backing_store_error_type := ""; correlation_id := correlation_id row |} in
  heartbeat m1 = Emitting closing /\ take_logged (m2, back) (Written true) = (new_monitor, back ++ [closing]).
Proof.
  intros Hh Ht Hq Hl m1 m2 closing. assert (H1 : heartbeat m1 = Emitting closing).
  { unfold m1. cbn [foldl]. rewrite foldl_snoc. cbn [take]. rewrite Hh. unfold emitted. rewrite Ht.
    rewrite quiet_counts by done. reflexivity. }
  split; [done|]. pose proof (denied_waits late m1 closing H1 Hl) as H2. fold m2 in H2. unfold take_logged, take. cbn [fst snd]. by rewrite H2.
Qed.
Lemma closing_row_counts_the_denials_witness :
  let m := (run_monitor [Denied; Tick false false "o1"; Denied]).1 in
  let during := [Denied; Tick false false "x"; Denied] in
  let closing := {| state_transition := exiting_fail_closed; denied_dispatch_count := 2; backing_store_error_type := ""; correlation_id := "o1" |} in
  let m1 := foldl (fun m s => take s m) m (Written true :: during ++ [Tick false true "x"]) in
  heartbeat m1 = Emitting closing /\ take_logged (foldl (fun m s => take s m) m1 [Denied; Denied], []) (Written true) = (new_monitor, [closing]).
Proof.
  intros m during closing m1.
  exact (closing_row_counts_the_denials m {| state_transition := entering_fail_closed; denied_dispatch_count := 0; backing_store_error_type := "unavailable"; correlation_id := "o1" |}
    during [] "x" [Denied; Denied] eq_refl eq_refl eq_refl eq_refl).
Defined.

(** A write that fails ends the loop with the monitor as it was, and no later tick probes. *)
Lemma failed_write_ends_the_loop m row l : heartbeat m = Emitting row -> forallb (fun s => negb (if s is Denied then true else false)) l = true ->
  foldl (fun m s => take s m) m (Written false :: l) = with_phase (Ended true) m.
Proof.
  intros Hh Hl. cbn. rewrite Hh. induction l as [|s l IH]; [done|]. cbn in *. apply andb_prop in Hl as [Hs Hl].
  destruct s as [[] ? ?|[]|]; try discriminate; cbn; auto.
Qed.
